(* ===== verification/_CoqProject ===== *)
-Q . S2P
Prelude.v
RustStr.v
StrSearch.v
Cursors.v
OrdMap.v
Civil.v
Decimals.v
Values.v
ValueSpec.v
Slots.v
Filters.v
FilterFacts.v
FilterSpec.v
Records.v
RecordFacts.v
RecordSpec.v
RecordLoops.v
RecordSets.v
Scopes.v
ScopeSpec.v
Operators.v
OperatorSpec.v
CalcFormulas.v
CalcSpec.v
Renders.v
VariableStorage.v
StorageSpec.v
DateTimes.v
DateSpec.v
Randoms.v
Texts.v
TextSpec.v
Stubs.v
StubSpec.v
Pictures.v
PictureSpec.v
Collections.v
TextMethods.v
TextMethodSpec.v
Dictionaries.v
CollectionSpec.v
ListSpec.v
Lexical.v
LexicalSpec.v
TextLines.v
Passes.v
PassSpec.v
Indent.v
IndentSpec.v
Formatter.v
FormatSpec.v
Documents.v
DocumentSpec.v
DocumentCache.v
Bytes.v
Snapshots.v
SnapshotBuilder.v
SnapshotTables.v
SnapshotSpec.v
ArchiveSpec.v
StopText.v
ReplaySources.v
Replay.v
ReplayFacts.v
ReplaySpec.v
ReplayRunSpec.v
ReplayProtocol.v
ReplayProtocolSpec.v
ReplaySourceSpec.v
JsonArena.v
JsonTree.v
JsonPaths.v
JsonMethods.v
JsonChange.v
JsonCalls.v
JsonMethodSpec.v
JsonSpec.v
Coverages.v
CoverageSpec.v
