(* ===== verification/Prelude.v ===== *)
(** * A verification of the AL language tools

    The repository holds an editor extension and command-line tools for AL, the
    language of Business Central.  This library models the parts that carry
    semantics of their own and do not walk syntax trees: the test runtime
    [src/crates/al-runtime], which runs AL tests without a server (values,
    records, operators, builtins, collections, test libraries), the formatter
    of [src/crates/al-syntax], the store of open documents of
    [src/crates/al-source], the reader of recorded snapshots of
    [src/crates/al-bc], and the replay of [src/crates/al-dap] that steps through
    them.  Paths below are under [src/crates/al-runtime/src]
    unless they begin with another crate's name.

    ** How the parts fit together

    A procedure runs in a [CallFrame] on a [ScopeStack] (Scopes); its variables
    hold [Value]s (Values), coerced into the declared type (Slots) and counted
    against the byte budget of the test.  Expressions apply the operators
    (Operators), the builtins of dates (DateTimes), texts (Texts) and random
    numbers (Randoms), and show values through Renders and Pictures.  Lists,
    Dictionaries and TextBuilders are handles on shared cells (Collections,
    TextMethods, Dictionaries); the JSON types are handles on the nodes of an
    arena (JsonArena, JsonMethods), whose bytes the same budget counts.  A record
    variable is a [RecordView] on a table,
    the [MockRecord] (Records), whose rows are keyed by primary key in an
    ordered map (OrdMap); its filters are parsed and evaluated by Filters, its
    FlowFields are declared by the formulas of CalcFormulas.  The test libraries
    (VariableStorage, Stubs, Randoms) keep their own state, reset between tests.
    The formatter scans each line (Lexical), runs layout passes over the lines
    (Passes), the indentation state machine (Indent), and puts them together
    (Formatter).  The texts it formats live in the document store (Documents),
    which applies the editor's changes and caches parse trees.
    A snapshot of a server session is read from the entries of a zip
    (Snapshots) into method contexts; the replay (Replay) indexes their
    statements, links each call to the statement that made it, and moves over
    them with the user's breakpoints.

    ** Files and the code they model

    - Prelude, RustStr, StrSearch: Rust's [Result], machine integers, [Ordering]
      and strings with searching, splitting and replacing, and the tactics and
      lemmas every file uses.  A [str] is the list of its characters; the
      Unicode tables are the class [Unicode].  [sort_by] is in this file.
    - OrdMap: [BTreeMap] over a key comparison.
    - Cursors: the [Parser] struct of the two hand-written parsers.
    - Civil: the calendar of [interpreter/value.rs] and
      [interpreter/dispatch/datetime.rs].
    - Decimals: the interface of [rust_decimal], class [Decimal], its laws, and
      an instance on which the theorems are evaluated.
    - Values, ValueSpec, Slots: [interpreter/value.rs]: the value type, the
      comparison walk over the shared heap, sizes, defaults and coercions.
    - Filters, FilterFacts, FilterSpec: [mock/filter.rs].
    - Records, RecordFacts, RecordSpec, RecordLoops, RecordSets:
      [mock/record.rs].  [insert_in], [next_in] and the other
      operations keep the names of the code; Module [Plain] has the methods
      that use a table's own view.
    - Scopes, ScopeSpec: [interpreter/scope.rs], and the byte budget and shared
      counts of [interpreter/value.rs].
    - Operators, OperatorSpec: [interpreter/eval_expr/operators.rs] and
      [interpreter/dispatch/numeric.rs].
    - CalcFormulas, CalcSpec: [mock/calcformula_parser.rs].
    - Renders: [interpreter/dispatch/render.rs]; Pictures, PictureSpec: [interpreter/dispatch/picture.rs] and Format.
    - DateTimes, DateSpec: [interpreter/dispatch/datetime.rs]; Texts, TextSpec:
      [interpreter/dispatch/text.rs].
    - VariableStorage, StorageSpec: [stubs/library_variable_storage.rs];
      Randoms: [stubs/any.rs], [stubs/library_random.rs] and
      [interpreter/dispatch/random.rs]; Stubs, StubSpec:
      [stubs/library_assert.rs] and [stubs/mod.rs].
    - Collections, TextMethods, Dictionaries, TextMethodSpec, CollectionSpec,
      ListSpec: [interpreter/records/collection_methods.rs].  The insertion
      order map under a Dictionary is the class [IndexMap] with its laws.
    - JsonArena, JsonPaths, JsonMethods: [interpreter/json.rs], its arena, the
      paths of [SelectToken], with their parsing and meaning on trees, and the
      methods of the four types; an operation is a function in the monad [M] of a
      [JsonState].  JsonTree: the trees that nodes denote and the walks over
      them.  JsonChange, JsonCalls: what changes and calls leave, and whole
      tests.  JsonMethodSpec, JsonSpec: each method, and the theorems.
    - Coverages, CoverageSpec: [interpreter/coverage.rs].
    - Lexical, LexicalSpec: [al-syntax/src/lexical.rs] and the helpers of
      [formatting/text.rs]; TextLines: lines, and the words a formatter keeps.
    - Passes, PassSpec: [al-syntax/src/formatting/options.rs] and [passes.rs];
      Indent, IndentSpec: [indent.rs], its loop as a step on the record
      [IndentState] of its local variables; Formatter, FormatSpec: [format_al],
      [casing.rs], [range.rs] and the column conversions of [lib.rs].
    - Documents, DocumentSpec, DocumentCache: [al-source/src/documents.rs] and
      [parsing.rs]; the rope is the class [Rope] with its laws, and one request
      is one step of a session.
    - Bytes: little-endian integers and lossy UTF-8.  Snapshots:
      [al-bc/src/snapshot/archive.rs]; SnapshotBuilder: the builder of
      [archive/test_support.rs]; SnapshotTables, SnapshotSpec: what the reader makes of built tables, variables and whole
      contexts; ArchiveSpec: versions, entries and stops; StopText: its text.
    - Replay, ReplayFacts, ReplaySpec, ReplayRunSpec:
      [al-dap/src/dap/native_dap/replay/engine.rs] and the session of its
      [mod.rs].  ReplayProtocol, ReplayProtocolSpec: the messages of [mod.rs];
      a request is one step of a session.  ReplaySources, ReplaySourceSpec:
      Rust's paths on Unix, [sources.rs] and [frame_sources.rs].

    State that the code mutates through [&mut] or a thread-local is passed in
    and out.  An operation that can fail returns what it leaves of the state
    next to its [Res], since the code may change a view before it fails.
    Handles ([List], [Dictionary], [TextBuilder]) are addresses into a [heap],
    so that copies share their contents as the code's [Arc]s do.  Where the code
    can panic, the model returns an [option] and [None] is the panic.

    ** What the theorems show

    - The record store: in every state that operations on any number of views
      can reach, each row is filed under the key of its own cells and every view
      is well formed (RecordSpec); Insert, Modify, Delete and Rename change one
      row or, when they fail, none; FindSet and Next visit each matching row
      once and in order, also while the loop deletes (RecordLoops); updates of a
      key field happen for all rows or for none, and sums are exact or report
      overflow (RecordSets).
    - Filters: the parser answers on every input, says where it stopped, and
      reads back every printed expression; the table of the wildcard matcher
      decides the matching relation (FilterSpec).
    - Values: the comparison terminates on cyclic heaps and is a total order on
      the values a key can hold (ValueSpec); coercion keeps a slot's type
      (Slots); day counts and dates are a bijection that respects order (Civil).
    - Frames: the total of bytes is exactly what frames and shared contents
      hold, and a name reads what was last stored under it (ScopeSpec).
    - Operators: integer arithmetic is exact or an error at the width of its
      operands, the six comparisons agree, and temporal arithmetic is exact
      (OperatorSpec).
    - Builtins: placeholders are filled in one pass (Renders), pictures read
      back and agree with the renderers, Format fits its length (PictureSpec),
      Evaluate reads what Format writes and the text builtins cut exactly
      (TextSpec), date formulas apply term by term (DateSpec), random draws stay
      in range (Randoms), FlowField formulas read back (CalcSpec).
    - Collections: a Dictionary refines a map in insertion order (CollectionSpec)
      and a List a sequence (ListSpec), each refused change leaving everything
      as it was and each accepted one the exact byte count; Text's Replace joins
      what Split splits (TextMethodSpec).
    - JSON: whatever a test does, the nodes stay a forest of finite trees whose
      bytes are counted, and no call panics; an object is a map in the order of
      its keys, an array a sequence ([json_arrays_exact]), a change is seen
      wherever its node is held and nowhere else; texts are written from and
      read into trees; and a path selects what its steps select (JsonSpec).
    - Coverage: the collectors of any tests, merged in any way, count each line,
      decision, path and observation as often as it was recorded, the report
      shows the counts, and MC/DC is what the observations show (CoverageSpec).
    - Test libraries: the queue is bounded and first in, first out (StorageSpec);
      assertions decide, and the reset isolates tests (StubSpec).
    - The formatter: the scanner lexes every line to its end (LexicalSpec); the
      passes are idempotent and sorting moves whole properties only (PassSpec);
      the state machine never panics on ASCII text and its counters never go
      negative (IndentSpec); formatting keeps the words of the program and an
      edit of a range stays in its lines where no pass moves one (FormatSpec).
    - The document store: positions name the places of a text, a batch of edits
      happens as a whole or not at all (DocumentSpec); the tree cache serves
      only trees of current texts and forgets the least recently used
      (DocumentCache).
    - Snapshots: every method context the builder writes decodes to itself, or
      to the error of the limit it exceeds (SnapshotSpec); an archive that is
      read holds its entries, within the limits and in numeric order, the names
      of its entries read back, and its stops are where something was recorded
      (ArchiveSpec); the text of a stop shows the fields asked for (StopText).
    - The replay: Continue visits each breakpoint once and in order and goes on,
      and calls are linked to the statements that made them (ReplayRunSpec); no
      request panics but a stack trace whose bounds overflow, each has one
      response and the end is sent once, breakpoints answer what they were
      asked, and a client sees the variables as they were recorded
      (ReplayProtocolSpec); each object shows the file it should, and the
      extracted sources stay in their folder (ReplaySourceSpec).

    ** Fuel and bounds

    Recursion that is not structural takes fuel, and running out is a result of
    its own: [compare_fuel] (the pairs of handles not yet met bound the walk),
    [parse_fuel], [where_fuel] and the lengths of the text in
    [substitute_placeholders_with], [calc_date], [parts], [scan] and the passes.
    [decode_variable] takes the levels that the code allows, and [step_out_of]
    and [stack_loop] the number of contexts, each call site being in an earlier
    one.  The walks of the JSON arena take the levels that the code allows
    ([max_levels]) or the number of edges ([walk_fuel]), and the path parser the
    length of its text.  Each bound is shown enough in the component's specification.  An [i64],
    [i32] or [usize] is a [Z]; checked and saturating operations are written
    out, and [days_from_civil] and [CalcDate], which compute unchecked, have
    variants in which an overflow is an outcome.  The levels and depths that the
    formatter counts in an [i32] are bounded by the length of the text and kept
    as plain [Z], as are the document versions, which count the edits.

    ** What is not modelled

    The evaluator of statements and expressions, call dispatch, the glue between
    AL calls and the record store, and the symbol, navigation and lint code of
    al-syntax walk tree-sitter nodes, whose grammar is generated C code.
    Element indexing of the runtime, and the other crates (editor server,
    project and package handling, the live debugger), are not modelled; of the
    replay, the reading and writing of JSON and of files.
    [rust_decimal], [serde_json], the layout of an arena entry, the Unicode tables, the host clock, the cancellation flag,
    the keyword ranges of a parse, the grammar's table of single-statement
    openers and the zip library are parameters. *)

From Stdlib Require Import ZArith Lia Sorting.Sorted Sorting.Permutation.
From stdpp Require Import base tactics numbers option list sorting.



(** ** This file: results, machine integers, orderings, lists and tactics *)

From Stdlib Require Import ZArith Lia.
From stdpp Require Import base tactics numbers option list gmap strings.

#[local] Open Scope Z_scope.

(** * Results

    Rust's [Result<A, E>].  [Ok]/[Err] are the source's constructors, and the
    [?] operator is [res_bind]. *)

Inductive Res (E A : Type) : Type :=
  | Ok (a : A)
  | Err (e : E).
Arguments Ok {E A} a.
Arguments Err {E A} e.

Definition res_bind {E A B} (r : Res E A) (k : A -> Res E B) : Res E B :=
  match r with
  | Ok a => k a
  | Err e => Err e
  end.

Declare Scope rust_scope.
Delimit Scope rust_scope with rust.
Notation "x <-? r ; k" := (res_bind r (fun x => k))
  (at level 20, r at level 100, k at level 200, only parsing) : rust_scope.
Notation "' x <-? r ; k" := (res_bind r (fun x => k))
  (at level 20, x pattern, r at level 100, k at level 200, only parsing) : rust_scope.

(** [Option::ok_or]. *)
Definition ok_or {E A} (o : option A) (e : E) : Res E A :=
  match o with
  | Some a => Ok a
  | None => Err e
  end.

Definition is_ok {E A} (r : Res E A) : bool :=
  match r with Ok _ => true | Err _ => false end.

(** * Machine integers

    An [i64], [i32] or [usize] is a [Z] in the type's range.  The [checked_*]
    operations of the standard library return [None] outside it, the
    [saturating_*] operations clamp. *)

Definition i64_min : Z := - 2 ^ 63.
Definition i64_max : Z := 2 ^ 63 - 1.
Definition i32_min : Z := - 2 ^ 31.
Definition i32_max : Z := 2 ^ 31 - 1.
Definition u64_modulus : Z := 2 ^ 64.
Definition usize_max : Z := 2 ^ 64 - 1.

Definition in_i64 (z : Z) : bool := (i64_min <=? z) && (z <=? i64_max).
Definition in_i32 (z : Z) : bool := (i32_min <=? z) && (z <=? i32_max).

Definition checked_i64 (z : Z) : option Z := if in_i64 z then Some z else None.
Definition checked_add (a b : Z) : option Z := checked_i64 (a + b).
Definition checked_sub (a b : Z) : option Z := checked_i64 (a - b).
Definition checked_mul (a b : Z) : option Z := checked_i64 (a * b).
Definition checked_neg (a : Z) : option Z := checked_i64 (- a).
Definition checked_abs (a : Z) : option Z := checked_i64 (Z.abs a).

(** Rust's [/] and [%] truncate towards zero. *)
Definition checked_div (a b : Z) : option Z :=
  if b =? 0 then None else checked_i64 (Z.quot a b).
Definition checked_rem (a b : Z) : option Z :=
  if b =? 0 then None
  else match checked_i64 (Z.quot a b) with
       | Some _ => Some (Z.rem a b)
       | None => None
       end.

(** [usize::saturating_add] and [usize::saturating_sub]. *)
Definition saturating_add (a b : Z) : Z := Z.min (a + b) usize_max.
Definition saturating_sub (a b : Z) : Z := Z.max (a - b) 0.

(** [n as u64] and [n as usize] of an [i64]: the two's complement value. *)
Definition as_u64 (z : Z) : Z := z mod u64_modulus.

(** [Ord::clamp]. *)
Definition clamp (z lo hi : Z) : Z := Z.min (Z.max z lo) hi.

Lemma in_i64_spec z : in_i64 z = true <-> i64_min <= z <= i64_max.
Proof. unfold in_i64. rewrite andb_true_iff, !Z.leb_le. done. Qed.

Lemma in_i32_spec z : in_i32 z = true <-> i32_min <= z <= i32_max.
Proof. unfold in_i32. rewrite andb_true_iff, !Z.leb_le. done. Qed.

Lemma checked_i64_Some z n : checked_i64 z = Some n <-> n = z /\ i64_min <= z <= i64_max.
Proof.
  unfold checked_i64. destruct (in_i64 z) eqn:E.
  - apply in_i64_spec in E. naive_solver.
  - split; [done|]. intros [_ H]. apply in_i64_spec in H. congruence.
Qed.

Lemma checked_i64_None z : checked_i64 z = None <-> ~ (i64_min <= z <= i64_max).
Proof.
  unfold checked_i64. rewrite <- in_i64_spec. destruct (in_i64 z); naive_solver.
Qed.

Lemma clamp_bounds z lo hi : lo <= hi -> lo <= clamp z lo hi <= hi.
Proof. unfold clamp. lia. Qed.

(** * Orderings

    [std::cmp::Ordering] is [comparison].  A comparison function that is a
    total preorder on the values satisfying [P] is an instance of [OrderOn];
    [Eq] need not be Leibniz equality. *)

Definition is_lt (c : comparison) : bool := match c with Lt => true | _ => false end.
Definition is_le (c : comparison) : bool := match c with Gt => false | _ => true end.
Definition is_gt (c : comparison) : bool := match c with Gt => true | _ => false end.
Definition is_ge (c : comparison) : bool := match c with Lt => false | _ => true end.
Definition is_eq (c : comparison) : bool := match c with Eq => true | _ => false end.

(** [Ordering::then]. *)
Definition cmp_then (c d : comparison) : comparison := match c with Eq => d | _ => c end.

Class OrderOn {A : Type} (P : A -> Prop) (cmp : A -> A -> comparison) : Prop := {
  order_antisym : forall x y, P x -> P y -> cmp y x = CompOpp (cmp x y);
  order_trans : forall c x y z, P x -> P y -> P z ->
    cmp x y = c -> cmp y z = c -> cmp x z = c;
}.

Section order_on.
Context {A : Type} {P : A -> Prop} {cmp : A -> A -> comparison} `{HO : !OrderOn P cmp}.

Lemma order_refl x : P x -> cmp x x = Eq.
Proof.
  intros Hx. pose proof (order_antisym x x Hx Hx) as H.
  destruct (cmp x x); simpl in *; congruence.
Qed.

Lemma order_sym_eq x y : P x -> P y -> cmp x y = Eq -> cmp y x = Eq.
Proof. intros Hx Hy H. rewrite (order_antisym x y), H by done. done. Qed.

Lemma order_lt_gt x y : P x -> P y -> cmp x y = Lt <-> cmp y x = Gt.
Proof.
  intros Hx Hy. rewrite (order_antisym (cmp:=cmp) x y) by done.
  destruct (cmp x y); simpl; naive_solver.
Qed.

(** Equal elements compare alike with every third element. *)
Lemma order_eq_l x y z : P x -> P y -> P z -> cmp x y = Eq -> cmp x z = cmp y z.
Proof.
  intros Hx Hy Hz E. pose proof (order_sym_eq _ _ Hx Hy E) as E'.
  destruct (cmp y z) eqn:Eyz.
  - exact (order_trans Eq x y z Hx Hy Hz E Eyz).
  - destruct (cmp x z) eqn:Exz; [|done|]; exfalso.
    + pose proof (order_trans Eq y x z Hy Hx Hz E' Exz). congruence.
    + apply order_lt_gt in Eyz; [|done..].
      pose proof (order_trans Gt x z y Hx Hz Hy Exz Eyz). congruence.
  - destruct (cmp x z) eqn:Exz; [| |done]; exfalso.
    + pose proof (order_trans Eq y x z Hy Hx Hz E' Exz). congruence.
    + apply order_lt_gt in Eyz; [|done..].
      pose proof (order_trans Lt x z y Hx Hz Hy Exz Eyz). congruence.
Qed.

Lemma order_eq_r x y z : P x -> P y -> P z -> cmp y z = Eq -> cmp x y = cmp x z.
Proof.
  intros Hx Hy Hz E.
  rewrite (order_antisym (cmp:=cmp) y x), (order_antisym (cmp:=cmp) z x) by done.
  f_equal. by apply order_eq_l.
Qed.
End order_on.

#[export] Instance Z_order : OrderOn (fun _ => True) Z.compare.
Proof.
  split.
  - intros x y _ _. apply Z.compare_antisym.
  - intros c x y z _ _ _ <-. destruct (Z.compare_spec x y), (Z.compare_spec y z);
      try congruence; intros _; subst;
      rewrite ?Z.compare_refl, ?Z.compare_lt_iff, ?Z.compare_gt_iff; try done; lia.
Qed.

(** [false < true]. *)
Definition bool_cmp (a b : bool) : comparison :=
  match a, b with
  | false, true => Lt
  | true, false => Gt
  | _, _ => Eq
  end.

#[export] Instance bool_order : OrderOn (fun _ => True) bool_cmp.
Proof. split; [by intros [] []|]. intros c [] [] []; simpl; congruence. Qed.

(** [Ord] of slices, [Vec] and, on characters, [str]: lexicographic, a proper
    prefix first. *)
Fixpoint list_cmp {A} (cmp : A -> A -> comparison) (l k : list A) : comparison :=
  match l, k with
  | [], [] => Eq
  | [], _ :: _ => Lt
  | _ :: _, [] => Gt
  | x :: l', y :: k' => cmp_then (cmp x y) (list_cmp cmp l' k')
  end.

(** [Ord] of [Option]: [None] first. *)
Definition option_cmp {A} (cmp : A -> A -> comparison) (a b : option A) : comparison :=
  match a, b with
  | None, None => Eq
  | None, Some _ => Lt
  | Some _, None => Gt
  | Some x, Some y => cmp x y
  end.

(** Two comparisons chained, as tuples are ordered. *)
Definition lex_cmp {A} (c1 c2 : A -> A -> comparison) (x y : A) : comparison :=
  cmp_then (c1 x y) (c2 x y).

Section lexicographic.
Context {A : Type} (P : A -> Prop).

#[export] Instance lex_order (c1 c2 : A -> A -> comparison)
  `{!OrderOn P c1} `{!OrderOn P c2} : OrderOn P (lex_cmp c1 c2).
Proof.
  unfold lex_cmp. split.
  - intros x y Hx Hy. rewrite (order_antisym (cmp:=c1) x y), (order_antisym (cmp:=c2) x y) by done.
    destruct (c1 x y), (c2 x y); done.
  - intros c x y z Hx Hy Hz E1 E2.
    destruct (c1 x y) eqn:Exy; simpl in E1.
    + rewrite (order_eq_l (cmp:=c1) x y z) by done.
      destruct (c1 y z); simpl in *; try done.
      by apply (order_trans (cmp:=c2) c x y z).
    + subst c. destruct (c1 y z) eqn:Eyz; simpl in *; try done.
      * by rewrite <- (order_eq_r (cmp:=c1) x y z), Exy.
      * by rewrite (order_trans (cmp:=c1) Lt x y z).
    + subst c. destruct (c1 y z) eqn:Eyz; simpl in *; try done.
      * by rewrite <- (order_eq_r (cmp:=c1) x y z), Exy.
      * by rewrite (order_trans (cmp:=c1) Gt x y z).
Qed.

#[export] Instance list_order (cmp : A -> A -> comparison)
  `{!OrderOn P cmp} : OrderOn (Forall P) (list_cmp cmp).
Proof.
  split.
  - intros x y Hx; revert y. induction Hx as [|a x Ha _ IH]; intros [|b y] Hy; try done.
    inversion_clear Hy. simpl. rewrite (order_antisym (cmp:=cmp) a b), IH by done.
    destruct (cmp a b); done.
  - intros c x y z Hx; revert y z.
    induction Hx as [|a x Ha Hx IH]; intros [|b y] [|d z] Hy Hz; simpl; try congruence.
    inversion_clear Hy. inversion_clear Hz.
    destruct (cmp a b) eqn:Eab; simpl.
    + rewrite (order_eq_l (cmp:=cmp) a b d) by done. destruct (cmp b d); simpl; try congruence. by apply IH.
    + destruct (cmp b d) eqn:Ebd; simpl; try congruence.
      * by rewrite <- (order_eq_r (cmp:=cmp) a b d), Eab.
      * by rewrite (order_trans (cmp:=cmp) Lt a b d).
    + destruct (cmp b d) eqn:Ebd; simpl; try congruence.
      * by rewrite <- (order_eq_r (cmp:=cmp) a b d), Eab.
      * by rewrite (order_trans (cmp:=cmp) Gt a b d).
Qed.

#[export] Instance preimage_order {B} (f : B -> A) (cmp : A -> A -> comparison)
  `{!OrderOn P cmp} : OrderOn (fun b => P (f b)) (fun x y => cmp (f x) (f y)).
Proof.
  split.
  - intros x y. apply order_antisym.
  - intros c x y z. apply order_trans.
Qed.
End lexicographic.

(** The order restricts to a smaller set of values. *)
Lemma order_weaken {A} (P Q : A -> Prop) (cmp : A -> A -> comparison) :
  (forall x, Q x -> P x) -> OrderOn P cmp -> OrderOn Q cmp.
Proof. intros HQ HP. split; intros; eauto using order_antisym, order_trans. Qed.

Lemma list_cmp_refl {A} (cmp : A -> A -> comparison) (l : list A) :
  (forall x, x ∈ l -> cmp x x = Eq) -> list_cmp cmp l l = Eq.
Proof.
  induction l as [|x l IH]; intros H; simpl; [done|].
  rewrite (H x), IH; [done|set_solver..].
Qed.

(** * Lists *)

Lemma foldl_map {A B C} (g : C -> B -> C) (h : A -> B) l a :
  foldl (fun c x => g c (h x)) a l = foldl g a (map h l).
Proof. revert a. induction l as [|x l IH]; intros a; simpl; [done|apply IH]. Qed.

(** * Tactics and hints *)

Create HintDb rt.
#[export] Hint Resolve order_refl order_sym_eq : rt.
#[export] Hint Resolve in_i64_spec in_i32_spec : rt.

(** Split every match the goal is stuck on, and discard impossible cases. *)
Ltac split_match := repeat (case_match; simplify_eq/=; try done).

(** Turn the boolean integer tests of the hypotheses and the goal into
    propositions. *)
Ltac to_prop :=
  repeat match goal with
  | H : (_ && _)%bool = true |- _ => apply andb_true_iff in H as [? ?]
  | H : (_ || _)%bool = false |- _ => apply orb_false_iff in H as [? ?]
  | H : negb _ = true |- _ => apply negb_true_iff in H
  | H : negb _ = false |- _ => apply negb_false_iff in H
  end;
  repeat rewrite ?Z.leb_le, ?Z.ltb_lt, ?Z.eqb_eq, ?Z.leb_gt, ?Z.ltb_ge, ?Z.eqb_neq in *.

Ltac unfold_ints :=
  unfold i64_min, i64_max, i32_min, i32_max, usize_max, u64_modulus in *.

(** * Stable sorting, [slice::sort_by], and its laws *)

Section sort.
Context {A : Type} (cmp : A -> A -> comparison).

Fixpoint sort_insert (x : A) (l : list A) : list A :=
  match l with
  | [] => [x]
  | y :: l' => if is_gt (cmp x y) then y :: sort_insert x l' else x :: l
  end.

Definition sort_by (l : list A) : list A := foldr sort_insert [] l.

Lemma sort_insert_perm x l : Permutation (sort_insert x l) (x :: l).
Proof.
  induction l as [|y l IH]; simpl; [done|]. destruct (is_gt (cmp x y)); [|done].
  rewrite IH. constructor.
Qed.

Lemma sort_by_perm l : Permutation (sort_by l) l.
Proof. induction l as [|x l IH]; simpl; [done|]. by rewrite sort_insert_perm, IH. Qed.

Definition cmp_le (x y : A) : Prop := cmp x y <> Gt.

Context (P : A -> Prop) `{HO : !OrderOn P cmp}.

Lemma cmp_le_trans x y z : P x -> P y -> P z -> cmp_le x y -> cmp_le y z -> cmp_le x z.
Proof.
  unfold cmp_le. intros Hx Hy Hz H1 H2. destruct (cmp x y) eqn:E; [|  |done].
  - by rewrite (order_eq_l (cmp:=cmp) x y z).
  - destruct (cmp y z) eqn:E'; [| |done].
    + by rewrite <- (order_eq_r (cmp:=cmp) x y z), E.
    + by rewrite (order_trans (cmp:=cmp) Lt x y z).
Qed.

Lemma sort_insert_sorted x l :
  P x -> Forall P l -> StronglySorted cmp_le l -> StronglySorted cmp_le (sort_insert x l).
Proof.
  intros Hx HP Hs. induction Hs as [|y l Hs IH Hall]; simpl; [by repeat constructor|].
  apply Forall_cons in HP as [Hy HP]. destruct (cmp x y) eqn:E; simpl.
  1, 2: constructor; [by constructor|]; constructor; [unfold cmp_le; congruence|];
    rewrite Forall_forall in *; intros z Hz; apply (cmp_le_trans x y z); auto; unfold cmp_le; congruence.
  constructor; [auto|]. rewrite sort_insert_perm. constructor; [|done].
  unfold cmp_le. apply (order_lt_gt (cmp:=cmp)) in E; [congruence|done..].
Qed.

Lemma sort_by_sorted l : Forall P l -> StronglySorted cmp_le (sort_by l).
Proof.
  induction 1 as [|x l Hx HP IH]; simpl; [constructor|].
  apply sort_insert_sorted; [done| |done]. by rewrite sort_by_perm.
Qed.

(** Stability: sorting a list already ordered by [R] refines [R] on ties. *)
Lemma sort_by_stable (R : A -> A -> Prop) l :
  Forall P l -> StronglySorted R l ->
  StronglySorted (fun x y => cmp_le x y /\ (cmp x y = Eq -> R x y)) (sort_by l).
Proof.
  intros HP HR. induction HR as [|x l HR IH Hall]; simpl; [constructor|].
  apply Forall_cons in HP as [Hx HP]. specialize (IH HP).
  assert (Forall P (sort_by l)) as HP' by (by rewrite sort_by_perm).
  assert (Forall (R x) (sort_by l)) as Hall' by (by rewrite sort_by_perm).
  clear HP HR Hall. induction IH as [|y l' Hs IH Hy]; simpl; [by repeat constructor|].
  apply Forall_cons in HP' as [Hy' HP']. apply Forall_cons in Hall' as [Hxy Hall'].
  destruct (cmp x y) eqn:E; simpl.
  1, 2: constructor; [by constructor|]; constructor; [unfold cmp_le; split; congruence|];
    rewrite Forall_forall in *; intros z Hz; split;
    [apply (cmp_le_trans x y z); auto; [unfold cmp_le; congruence|by apply Hy]|auto].
  constructor; [auto|]. rewrite sort_insert_perm. constructor; [|done].
  pose proof (proj2 (order_lt_gt (cmp:=cmp) y x Hy' Hx) E). unfold cmp_le. split; congruence.
Qed.

(** The elements that compare equal to [k] keep their order. *)
Lemma sort_by_ties (same : A -> bool) l :
  (forall x y, same x = true -> same y = true -> cmp x y = Eq) ->
  List.filter same (sort_by l) = List.filter same l.
Proof.
  intros Hs. induction l as [|x l IH]; [done|]. change (sort_by (x :: l)) with (sort_insert x (sort_by l)).
  cbn [List.filter]. rewrite <- IH. clear IH. induction (sort_by l) as [|y l' IH]; [done|]. cbn [sort_insert].
  destruct (is_gt (cmp x y)) eqn:E; [|done]. cbn [List.filter]. rewrite IH. cbn [List.filter].
  destruct (same x) eqn:Hx, (same y) eqn:Hy; try done. by rewrite (Hs x y Hx Hy) in E.
Qed.
End sort.

(** An order on keys orders the values with the keys. *)
#[export] Instance order_on_keys {A K : Type} (P : K -> Prop) (cmp : K -> K -> comparison) (key : A -> K)
  `{!OrderOn P cmp} : OrderOn (fun a => P (key a)) (fun a b => cmp (key a) (key b)).
Proof.
  split.
  - intros x y Hx Hy. by apply (order_antisym (cmp := cmp)).
  - intros c x y z Hx Hy Hz. by apply (order_trans (cmp := cmp)).
Qed.
