(* ===== verification/RustStr.v ===== *)
(** Rust strings.

    A [str] is the list of its [char]s, a [char] is its Unicode scalar value.
    This file models what the runtime uses of the standard library's strings:
    byte lengths, ASCII case, trimming, integer parsing and printing, and the
    order.  The Unicode case tables and the alphabetic class are data of the
    standard library and stay a parameter (class [Unicode]). *)

From Stdlib Require Import ZArith Lia Ascii String.
From stdpp Require Import base tactics numbers option list strings.
From S2P Require Import Prelude.

#[local] Open Scope Z_scope.

Abbreviation char := Z (only parsing).
Abbreviation str := (list Z).

(** * UTF-8 *)

(** [char::len_utf8]. *)
Definition len_utf8 (c : char) : Z :=
  if c <? 128 then 1 else if c <? 2048 then 2 else if c <? 65536 then 3 else 4.

(** [str::len]: the length in bytes. *)
Definition str_len (s : str) : Z := foldr (fun c n => len_utf8 c + n) 0 s.

(** [char::len_utf16], and the length of a text in UTF-16 code units. *)
Definition len_utf16 (c : char) : Z := if c <? 65536 then 1 else 2.
Definition utf16_len (s : str) : Z := foldr (fun c n => len_utf16 c + n) 0 s.

Definition utf8_encode_char (c : char) : list Z :=
  if c <? 128 then [c]
  else if c <? 2048 then [192 + c / 64; 128 + c mod 64]
  else if c <? 65536 then [224 + c / 4096; 128 + (c / 64) mod 64; 128 + c mod 64]
  else [240 + c / 262144; 128 + (c / 4096) mod 64; 128 + (c / 64) mod 64; 128 + c mod 64].

Definition utf8_encode (s : str) : list Z := s ≫= utf8_encode_char.

(** Decoding of well-formed UTF-8, for the literals of this development. *)
Fixpoint utf8_decode (fuel : nat) (bs : list Z) : str :=
  match fuel with
  | O => []
  | S fuel =>
      match bs with
      | [] => []
      | b :: r =>
          if b <? 128 then b :: utf8_decode fuel r
          else match r with
          | c1 :: r1 =>
              if b <? 224 then ((b - 192) * 64 + (c1 - 128)) :: utf8_decode fuel r1
              else match r1 with
              | c2 :: r2 =>
                  if b <? 240 then
                    ((b - 224) * 4096 + (c1 - 128) * 64 + (c2 - 128)) :: utf8_decode fuel r2
                  else match r2 with
                  | c3 :: r3 =>
                      ((b - 240) * 262144 + (c1 - 128) * 4096 + (c2 - 128) * 64 + (c3 - 128))
                        :: utf8_decode fuel r3
                  | [] => []
                  end
              | [] => []
              end
          | [] => []
          end
      end
  end.

(** A string literal of the source, whose bytes are UTF-8. *)
Definition lit (s : string) : str :=
  let bs := (fun a => Z.of_nat (nat_of_ascii a)) <$> String.list_ascii_of_string s in
  utf8_decode (length bs) bs.
Arguments lit _ : simpl never.

Definition first_char (s : string) : char :=
  match lit s with c :: _ => c | [] => 0 end.

(** A character literal, as a number. *)
Notation "'ch' s" := (ltac:(let v := eval vm_compute in (first_char s) in exact v))
  (only parsing, at level 1, s at level 0).

Definition str_eqb (a b : str) : bool := bool_decide (a = b).
Definition str_is (s : str) (k : string) : bool := str_eqb s (lit k).

(** [Ord] of [str].  Rust compares the bytes; UTF-8 orders them as the scalar
    values, which is what the model compares. *)
Definition str_cmp : str -> str -> comparison := list_cmp Z.compare.

(** * ASCII classes and case *)

Definition is_ascii_digit (c : char) : bool := (48 <=? c) && (c <=? 57).

Definition is_ascii_whitespace (c : char) : bool :=
  (c =? 9) || (c =? 10) || (c =? 12) || (c =? 13) || (c =? 32).

(** [char::is_whitespace]: the White_Space property. *)
Definition is_whitespace (c : char) : bool :=
  ((9 <=? c) && (c <=? 13)) || (c =? 32) || (c =? 133) || (c =? 160) || (c =? 5760)
  || ((8192 <=? c) && (c <=? 8202)) || (c =? 8232) || (c =? 8233) || (c =? 8239)
  || (c =? 8287) || (c =? 12288).

Definition char_ascii_lower (c : char) : char := if (65 <=? c) && (c <=? 90) then c + 32 else c.
Definition char_ascii_upper (c : char) : char := if (97 <=? c) && (c <=? 122) then c - 32 else c.

Definition to_ascii_lowercase (s : str) : str := char_ascii_lower <$> s.
Definition to_ascii_uppercase (s : str) : str := char_ascii_upper <$> s.
Definition eq_ignore_ascii_case (a b : str) : bool :=
  str_eqb (to_ascii_lowercase a) (to_ascii_lowercase b).

(** * Trimming and prefixes *)

Fixpoint trim_start_matches (p : char -> bool) (s : str) : str :=
  match s with
  | c :: s' => if p c then trim_start_matches p s' else s
  | [] => []
  end.
Definition trim_end_matches (p : char -> bool) (s : str) : str :=
  reverse (trim_start_matches p (reverse s)).
Definition trim_start : str -> str := trim_start_matches is_whitespace.
Definition trim (s : str) : str := trim_end_matches is_whitespace (trim_start s).

Fixpoint strip_prefix (p s : str) : option str :=
  match p, s with
  | [], _ => Some s
  | x :: p', y :: s' => if x =? y then strip_prefix p' s' else None
  | _ :: _, [] => None
  end.
Definition starts_with (p s : str) : bool := bool_decide (is_Some (strip_prefix p s)).

(** * Decimal integers *)

Fixpoint digits_of (fuel : nat) (n : Z) (acc : str) : str :=
  match fuel with
  | O => acc
  | S fuel =>
      let acc := (48 + n mod 10) :: acc in
      if n / 10 =? 0 then acc else digits_of fuel (n / 10) acc
  end.

(** [to_string] of an unsigned and of a signed integer. *)
Definition u64_to_str (n : Z) : str := digits_of (S (Z.to_nat (Z.log2 n))) n [].
Definition i64_to_str (n : Z) : str :=
  if n <? 0 then 45 :: u64_to_str (- n) else u64_to_str n.

Fixpoint parse_digits (acc : Z) (s : str) : option Z :=
  match s with
  | [] => Some acc
  | c :: s' => if is_ascii_digit c then parse_digits (acc * 10 + (c - 48)) s' else None
  end.

Definition parse_nat (s : str) : option Z :=
  match s with [] => None | _ => parse_digits 0 s end.

(** [str::parse::<i64>]: an optional sign and at least one ASCII digit, in
    range. *)
Definition parse_i64 (s : str) : option Z :=
  match s with
  | c :: ds =>
      if c =? 45 then n ← parse_nat ds; checked_i64 (- n)
      else if c =? 43 then n ← parse_nat ds; checked_i64 n
      else n ← parse_nat s; checked_i64 n
  | [] => None
  end.

(** [str::parse::<i32>]. *)
Definition parse_i32 (s : str) : option Z := n ← parse_i64 s; if in_i32 n then Some n else None.

(** [str::parse::<usize>]. *)
Definition parse_usize (s : str) : option Z :=
  let ds := match s with c :: ds => if c =? 43 then ds else s | [] => [] end in
  n ← parse_nat ds; if n <=? usize_max then Some n else None.

(** [format!("{n:0w$}")] for a non-negative [n]. *)
Definition pad_zeros (w : nat) (s : str) : str := replicate (w - length s) 48 ++ s.

(** * Unicode tables

    [char_upper] is [char::to_uppercase] (one character may give several),
    [str_lower] is [str::to_lowercase] (which looks at the context of a final
    sigma), [is_alphanumeric] is [char::is_alphanumeric]. *)

Class Unicode := {
  char_upper : char -> str;
  str_lower : str -> str;
  is_alphanumeric : char -> bool;
}.

(** What the runtime relies on: upper-casing is idempotent, and ASCII behaves
    as in [to_ascii_uppercase]/[to_ascii_lowercase]. *)
Class UnicodeLaws {U : Unicode} : Prop := {
  char_upper_idem : forall c, char_upper c ≫= char_upper = char_upper c;
  char_upper_ascii : forall c, 0 <= c < 128 -> char_upper c = [char_ascii_upper c];
  str_lower_ascii : forall s, Forall (fun c => 0 <= c < 128) s ->
    str_lower s = to_ascii_lowercase s;
  is_alphanumeric_ascii : forall c, 0 <= c < 128 ->
    is_alphanumeric c =
      (is_ascii_digit c || ((65 <=? c) && (c <=? 90)) || ((97 <=? c) && (c <=? 122)));
}.
Arguments UnicodeLaws : clear implicits.

(** [str::to_uppercase] maps each character on its own. *)
Definition to_uppercase {U : Unicode} (s : str) : str := s ≫= char_upper.

(** The tables restricted to ASCII, other characters having no case. *)
Definition ascii_unicode : Unicode := {|
  char_upper c := [char_ascii_upper c];
  str_lower := to_ascii_lowercase;
  is_alphanumeric c :=
    is_ascii_digit c || ((65 <=? c) && (c <=? 90)) || ((97 <=? c) && (c <=? 122));
|}.

Lemma char_ascii_upper_idem c : char_ascii_upper (char_ascii_upper c) = char_ascii_upper c.
Proof. unfold char_ascii_upper. repeat case_match; to_prop; lia. Qed.

Lemma ascii_unicode_laws : UnicodeLaws ascii_unicode.
Proof. split; simpl; try done. intros c. by rewrite char_ascii_upper_idem. Qed.

Lemma to_uppercase_idem `{UL : !UnicodeLaws U} s : to_uppercase (to_uppercase s) = to_uppercase s.
Proof.
  unfold to_uppercase. induction s as [|c s IH]; simpl; [done|].
  rewrite bind_app. f_equal; [apply char_upper_idem|exact IH].
Qed.

(** * The order of strings *)

#[export] Instance str_order : OrderOn (fun _ => True) str_cmp.
Proof.
  apply (order_weaken (Forall (fun _ => True))); [|apply _].
  intros s _. by apply Forall_true.
Qed.

Lemma str_cmp_refl s : str_cmp s s = Eq.
Proof. by apply order_refl. Qed.

Lemma str_cmp_eq a b : str_cmp a b = Eq <-> a = b.
Proof.
  unfold str_cmp. split; [|intros ->; by apply (str_cmp_refl b)].
  revert b. induction a as [|x a IH]; intros [|y b]; simpl; try done.
  destruct (Z.compare_spec x y); simpl; try done. subst. intros H. f_equal. auto.
Qed.

(** * Integers printed and parsed back *)

Lemma digits_of_app fuel n acc : digits_of fuel n acc = digits_of fuel n [] ++ acc.
Proof.
  revert n acc. induction fuel as [|fuel IH]; intros n acc; simpl; [done|].
  destruct (n / 10 =? 0); [done|].
  rewrite (IH _ (_ :: acc)), (IH _ [_]), <- app_assoc. done.
Qed.

Lemma digit_char d : 0 <= d < 10 -> is_ascii_digit (48 + d) = true.
Proof. intros H. unfold is_ascii_digit. apply andb_true_iff. rewrite !Z.leb_le. lia. Qed.

Lemma parse_digits_app a s t :
  parse_digits a (s ++ t) = match parse_digits a s with Some n => parse_digits n t | None => None end.
Proof. revert a. induction s as [|c s IH]; intros a; simpl; [done|]. case_match; auto. Qed.

Lemma digits_of_parse fuel n acc :
  0 <= n < 2 ^ Z.of_nat fuel -> (0 < fuel)%nat ->
  parse_digits acc (digits_of fuel n []) =
    Some (acc * 10 ^ Z.of_nat (length (digits_of fuel n [])) + n).
Proof.
  revert n acc. induction fuel as [|fuel IH]; intros n acc Hn Hf; [lia|].
  pose proof (Z.mod_pos_bound n 10). simpl digits_of.
  destruct (Z.eqb_spec (n / 10) 0) as [E|E].
  - assert (n mod 10 = n) as Hmod by (rewrite Z.mod_eq; lia).
    simpl. rewrite digit_char by lia. f_equal. lia.
  - rewrite digits_of_app, parse_digits_app, length_app, Nat2Z.inj_add.
    rewrite Nat2Z.inj_succ, Z.pow_succ_r in Hn by lia.
    assert (0 <= n / 10 < 2 ^ Z.of_nat fuel).
    { split; [apply Z.div_pos; lia|]. apply Z.div_lt_upper_bound; lia. }
    assert (0 < fuel)%nat. { destruct fuel; [|lia]. change (2 ^ Z.of_nat 0) with 1 in *. lia. }
    rewrite IH by done. simpl. rewrite digit_char by lia.
    f_equal. rewrite Z.pow_add_r by lia. change (10 ^ Z.of_nat 1) with 10.
    generalize (10 ^ Z.of_nat (length (digits_of fuel (n / 10) []))). intros p.
    pose proof (Z.div_mod n 10 ltac:(lia)). nia.
Qed.

Lemma digits_of_nonempty fuel n : digits_of (S fuel) n [] <> [].
Proof.
  simpl. destruct (n / 10 =? 0); [done|]. rewrite digits_of_app.
  by intros [_ ?]%app_eq_nil.
Qed.

Lemma parse_nat_u64_to_str n : 0 <= n -> parse_nat (u64_to_str n) = Some n.
Proof.
  intros Hn. unfold u64_to_str.
  assert (n < 2 ^ Z.of_nat (S (Z.to_nat (Z.log2 n)))).
  { rewrite Nat2Z.inj_succ, Z2Nat.id by apply Z.log2_nonneg.
    destruct (decide (n = 0)) as [->|]; [done|]. apply Z.log2_spec. lia. }
  pose proof (digits_of_parse (S (Z.to_nat (Z.log2 n))) n 0 ltac:(split; done) ltac:(lia)) as H1.
  pose proof (digits_of_nonempty (Z.to_nat (Z.log2 n)) n) as H2.
  unfold parse_nat. destruct (digits_of _ n []) eqn:E; [done|].
  by rewrite H1, Z.mul_0_l, Z.add_0_l.
Qed.

Lemma digits_of_digits fuel n : 0 <= n -> Forall (fun c => is_ascii_digit c = true) (digits_of fuel n []).
Proof.
  revert n. induction fuel as [|fuel IH]; intros n Hn; simpl; [constructor|].
  pose proof (Z.mod_pos_bound n 10).
  destruct (n / 10 =? 0); [|rewrite digits_of_app; apply Forall_app; split;
    [apply IH, Z.div_pos; lia|]]; repeat constructor; apply digit_char; lia.
Qed.

Lemma u64_to_str_digits n : 0 <= n -> Forall (fun c => is_ascii_digit c = true) (u64_to_str n).
Proof. apply digits_of_digits. Qed.

Lemma u64_to_str_cons n : 0 <= n ->
  exists c ds, u64_to_str n = c :: ds /\ is_ascii_digit c = true.
Proof.
  intros Hn. pose proof (u64_to_str_digits n Hn) as H.
  pose proof (digits_of_nonempty (Z.to_nat (Z.log2 n)) n) as H2.
  unfold u64_to_str in *. destruct (digits_of _ n []) as [|c ds]; [done|].
  inversion_clear H. eauto.
Qed.

(** Printing an [i64] and parsing the text gives it back. *)
Lemma parse_i64_to_str n : in_i64 n = true -> parse_i64 (i64_to_str n) = Some n.
Proof.
  intros Hn. apply in_i64_spec in Hn as Hr. unfold i64_to_str.
  destruct (Z.ltb_spec n 0).
  - simpl. rewrite parse_nat_u64_to_str by lia. simpl.
    unfold checked_i64. rewrite Z.opp_involutive, Hn. done.
  - destruct (u64_to_str_cons n) as (c & ds & E & Hc); [done|].
    pose proof (parse_nat_u64_to_str n ltac:(done)) as Hp. rewrite E in *.
    unfold parse_i64. unfold is_ascii_digit in Hc. to_prop.
    destruct (Z.eqb_spec c 45); [lia|]. destruct (Z.eqb_spec c 43); [lia|].
    rewrite Hp. simpl. unfold checked_i64. rewrite Hn. done.
Qed.

(** * Lengths and trimming *)

Lemma str_len_app s t : str_len (s ++ t) = str_len s + str_len t.
Proof. unfold str_len. induction s as [|c s IH]; simpl; [done|]. rewrite IH. lia. Qed.

Lemma len_utf8_pos c : 1 <= len_utf8 c.
Proof. unfold len_utf8. repeat case_match; lia. Qed.

Lemma str_len_nonneg s : 0 <= str_len s.
Proof. unfold str_len. induction s as [|c s IH]; simpl; [lia|]. pose proof (len_utf8_pos c). lia. Qed.

Lemma len_utf16_pos c : 1 <= len_utf16 c <= 2.
Proof. unfold len_utf16. case_match; lia. Qed.

Lemma utf16_len_nonneg s : 0 <= utf16_len s.
Proof. unfold utf16_len. induction s as [|c s IH]; simpl; [lia|]. pose proof (len_utf16_pos c). lia. Qed.

Lemma utf16_len_app s t : utf16_len (s ++ t) = utf16_len s + utf16_len t.
Proof. unfold utf16_len. induction s as [|c s IH]; simpl; [done|]. rewrite IH. lia. Qed.

(** What trimming leaves alone at either end. *)
Definition starts_solid (s : str) : Prop := exists c r, s = c :: r /\ is_whitespace c = false.
Definition ends_solid (s : str) : Prop := exists r c, s = r ++ [c] /\ is_whitespace c = false.

Lemma starts_solid_app s t : starts_solid s -> starts_solid (s ++ t).
Proof. intros (c & r & -> & H). by exists c, (r ++ t). Qed.

Lemma ends_solid_app s t : ends_solid t -> ends_solid (s ++ t).
Proof. intros (r & c & -> & H). exists (s ++ r), c. by rewrite app_assoc. Qed.

Lemma trim_solid s : starts_solid s -> ends_solid s -> trim s = s.
Proof.
  intros (c & r & E & Hc) (r' & c' & E' & Hc'). unfold trim, trim_start, trim_end_matches.
  assert (trim_start_matches is_whitespace s = s) as -> by (rewrite E; simpl; by rewrite Hc).
  rewrite E', reverse_snoc. simpl. rewrite Hc', reverse_cons, reverse_involutive. done.
Qed.

Lemma trim_start_stops p a b :
  (exists c r, b = c :: r /\ p c = false) -> exists a', trim_start_matches p (a ++ b) = a' ++ b.
Proof.
  intros (c & r & -> & Hc). induction a as [|x a [a' IH]]; simpl.
  - exists []. by rewrite Hc.
  - destruct (p x); [by exists a'|by exists (x :: a)].
Qed.

(** A text without blanks at its ends stays whole when more text follows. *)
Lemma trim_keeps s rest : starts_solid s -> ends_solid s -> exists rest', trim (s ++ rest) = s ++ rest'.
Proof.
  intros (c & r & E & Hc) (r' & c' & E' & Hc'). unfold trim, trim_start, trim_end_matches.
  assert (trim_start_matches is_whitespace (s ++ rest) = s ++ rest) as -> by (rewrite E; simpl; by rewrite Hc).
  rewrite reverse_app. destruct (trim_start_stops is_whitespace (reverse rest) (reverse s)) as [a ->].
  - exists c', (reverse r'). split; [|done]. by rewrite E', reverse_snoc.
  - exists (reverse a). by rewrite reverse_app, reverse_involutive.
Qed.

(** * Case mapping of concatenations and of ASCII text *)

Lemma to_uppercase_app {U : Unicode} s t : to_uppercase (s ++ t) = to_uppercase s ++ to_uppercase t.
Proof. apply bind_app. Qed.

Lemma to_uppercase_ascii `{UL : !UnicodeLaws U} s :
  Forall (fun c => 0 <= c < 128) s -> to_uppercase s = to_ascii_uppercase s.
Proof.
  unfold to_uppercase. induction 1 as [|c s Hc _ IH]; [done|].
  rewrite bind_cons, IH, char_upper_ascii by done. done.
Qed.
