(* ===== verification/StrSearch.v ===== *)
(** The searching operations of [str] and [char] slices that the text
    builtins, the collection methods and the stubs share, and the lemmas that
    characterise them.

    A byte offset that the code turns into characters again is kept as the
    text before it, so that [s.find(p)] is the pair of the texts before and
    from the first occurrence. *)

From Stdlib Require Import ZArith Lia.
From stdpp Require Import base tactics numbers option list.
From S2P Require Import Prelude RustStr.

#[local] Open Scope Z_scope.

(** [str::find] of a text. *)
Fixpoint find_str (p s : str) : option (str * str) :=
  if starts_with p s then Some ([], s)
  else
    match s with
    | [] => None
    | c :: s => '(a, b) ← find_str p s; Some (c :: a, b)
    end.

Definition str_contains (p s : str) : bool := bool_decide (is_Some (find_str p s)).

(** [str::find] and [contains] of a character. *)
Fixpoint find_char (p : char -> bool) (s : str) : option nat :=
  match s with
  | [] => None
  | c :: s => if p c then Some O else S <$> find_char p s
  end.
Definition contains_char (c : char) (s : str) : bool := existsb (Z.eqb c) s.

(** [str::split] at a character. *)
Fixpoint split_char (sep : char) (s : str) : list str :=
  match s with
  | [] => [[]]
  | c :: s =>
      if c =? sep then [] :: split_char sep s
      else
        match split_char sep s with
        | part :: parts => (c :: part) :: parts
        | [] => [[c]]
        end
  end.

(** [slice::join]. *)
Fixpoint join (sep : str) (l : list str) : str :=
  match l with
  | [] => []
  | [s] => s
  | s :: l => s ++ sep ++ join sep l
  end.

(** [str::replace] of a non-empty text: the occurrences from left to right
    without overlaps.  The fuel is the length of the text, and one more. *)
Fixpoint replace_loop (fuel : nat) (old new s : str) : str :=
  match fuel with
  | O => s
  | S fuel =>
      match find_str old s with
      | Some (a, b) => a ++ new ++ replace_loop fuel old new (drop (length old) b)
      | None => s
      end
  end.
Definition str_replace (old new s : str) : str := replace_loop (S (length s)) old new s.

(** * Prefixes *)

Lemma strip_prefix_Some p s r : strip_prefix p s = Some r <-> s = p ++ r.
Proof.
  revert s. induction p as [|x p IH]; intros [|y s]; simpl; [naive_solver..|].
  destruct (Z.eqb_spec x y) as [->|Hn].
  - rewrite IH. split; [by intros ->|congruence].
  - split; [done|]. intros [= <- _]. done.
Qed.

Lemma strip_prefix_app p r : strip_prefix p (p ++ r) = Some r.
Proof. by apply strip_prefix_Some. Qed.

Lemma starts_with_spec p s : starts_with p s = true <-> p `prefix_of` s.
Proof.
  unfold starts_with. rewrite bool_decide_eq_true. split.
  - intros [r H]. apply strip_prefix_Some in H. by exists r.
  - intros [r ->]. exists r. apply strip_prefix_app.
Qed.

(** * The first occurrence *)

(** [p] occurs in [s] after [a]. *)
Definition occurs_after (p a s : str) : Prop := exists b, s = a ++ p ++ b.

Lemma find_str_unfold p s :
  find_str p s = if starts_with p s then Some ([], s)
                 else match s with [] => None | c :: s => '(a, b) ← find_str p s; Some (c :: a, b) end.
Proof. by destruct s. Qed.

Lemma find_str_Some p s a b :
  find_str p s = Some (a, b) ->
  s = a ++ b /\ p `prefix_of` b /\ (forall a', occurs_after p a' s -> (length a <= length a')%nat).
Proof.
  revert a b. induction s as [|c s IH]; intros a b; rewrite find_str_unfold;
    destruct (starts_with p _) eqn:Hs; try done.
  - intros [= <- <-]. split; [done|]. split; [by apply starts_with_spec|]. intros. simpl. lia.
  - intros [= <- <-]. split; [done|]. split; [by apply starts_with_spec|]. intros. simpl. lia.
  - destruct (find_str p s) as [[a' b']|] eqn:Hf; [|done]. intros [= <- <-].
    destruct (IH _ _ eq_refl) as (-> & Hp & Hmin). split; [done|]. split; [done|].
    intros [|x a2] [r Hr].
    + exfalso. apply not_true_iff_false in Hs. apply Hs, starts_with_spec. by exists r.
    + injection Hr as -> Hr. simpl. apply le_n_S, Hmin. by exists r.
Qed.

Lemma find_str_None p s a : find_str p s = None -> ~ occurs_after p a s.
Proof.
  revert a. induction s as [|c s IH]; intros a; rewrite find_str_unfold;
    destruct (starts_with p _) eqn:Hs; try done; intros Hf [r Hr];
    apply not_true_iff_false in Hs; destruct a as [|x a]; try done.
  - apply Hs, starts_with_spec. by exists r.
  - apply Hs, starts_with_spec. by exists r.
  - injection Hr as -> Hr. destruct (find_str p s) as [[? ?]|]; [done|]. apply (IH a eq_refl). by exists r.
Qed.

Lemma find_str_occurs p s a b : find_str p s = Some (a, b) -> occurs_after p a s.
Proof. intros H. apply find_str_Some in H as (-> & [r ->] & _). by exists r. Qed.

Lemma str_contains_spec p s : str_contains p s = true <-> exists a, occurs_after p a s.
Proof.
  unfold str_contains. rewrite bool_decide_eq_true. split.
  - intros [[a b] H]. exists a. by eapply find_str_occurs.
  - intros [a H]. destruct (find_str p s) as [ab|] eqn:Hf; [by exists ab|].
    by destruct (find_str_None _ _ a Hf).
Qed.

Lemma occurs_cons p c s a : occurs_after p a (c :: s) ->
  (a = [] /\ p `prefix_of` c :: s) \/ exists a', a = c :: a' /\ occurs_after p a' s.
Proof.
  intros [b Hb]. destruct a as [|x a].
  - left. split; [done|]. by exists b.
  - right. injection Hb as <- Hb. exists a. split; [done|]. by exists b.
Qed.

(** * Characters *)

Lemma contains_char_spec c s : contains_char c s = true <-> c ∈ s.
Proof.
  unfold contains_char. rewrite existsb_exists. split.
  - intros (x & Hx & E). to_prop. subst. by apply list_elem_of_In.
  - intros H. exists c. split; [by apply list_elem_of_In|by apply Z.eqb_refl].
Qed.

Lemma find_char_Some p s n :
  find_char p s = Some n -> exists c, s !! n = Some c /\ p c = true /\ Forall (fun c => p c = false) (take n s).
Proof.
  revert n. induction s as [|c s IH]; intros n; simpl; [done|]. destruct (p c) eqn:Hp.
  - intros [= <-]. exists c. by rewrite take_0.
  - destruct (find_char p s) as [m|]; [|done]. intros [= <-].
    destruct (IH m eq_refl) as (d & Hd & Hpd & Hf). exists d. split; [done|]. split; [done|]. by constructor.
Qed.

Lemma find_char_None p s : find_char p s = None -> Forall (fun c => p c = false) s.
Proof.
  induction s as [|c s IH]; simpl; [done|]. destruct (p c) eqn:Hp; [done|].
  destruct (find_char p s); [done|]. intros _. constructor; auto.
Qed.

Lemma find_char_lt p s n : find_char p s = Some n -> (n < length s)%nat.
Proof. intros H. apply find_char_Some in H as (c & Hc & _). by eapply lookup_lt_Some. Qed.

(** * Splitting *)

Lemma split_char_cons sep s : exists part parts, split_char sep s = part :: parts.
Proof.
  destruct s as [|c s]; simpl; [eauto|]. destruct (c =? sep); [eauto|].
  destruct (split_char sep s); eauto.
Qed.

Lemma split_char_parts sep s :
  Forall (fun part => ~ sep ∈ part) (split_char sep s) /\ join [sep] (split_char sep s) = s.
Proof.
  induction s as [|c s [Hf Hj]]; simpl; [split; [repeat constructor; by inversion 1|done]|].
  destruct (split_char_cons sep s) as (part & parts & E). rewrite E in *.
  destruct (Z.eqb_spec c sep) as [->|Hc].
  - split; [constructor; [by inversion 1|done]|]. by rewrite <- Hj.
  - split; [inversion Hf; subst; constructor; [by rewrite elem_of_cons; intros [?|?]|done]|].
    rewrite <- Hj. by destruct parts.
Qed.

Lemma split_char_solid sep s : ~ sep ∈ s -> split_char sep s = [s].
Proof.
  induction s as [|c s IH]; intros H; simpl; [done|]. rewrite elem_of_cons in H.
  destruct (Z.eqb_spec c sep); [naive_solver|]. rewrite IH; naive_solver.
Qed.

Lemma split_char_app sep a s : ~ sep ∈ a -> split_char sep (a ++ sep :: s) = a :: split_char sep s.
Proof.
  induction a as [|c a IH]; intros H; simpl; [by rewrite Z.eqb_refl|]. rewrite elem_of_cons in H.
  destruct (Z.eqb_spec c sep); [naive_solver|]. rewrite IH; naive_solver.
Qed.

(** * Trimming *)

Lemma trim_start_split p s :
  exists a, s = a ++ trim_start_matches p s /\ Forall (fun c => p c = true) a /\
    (forall c r, trim_start_matches p s = c :: r -> p c = false).
Proof.
  induction s as [|c s (a & Hs & Ha & Hc)]; simpl; [by exists []|].
  destruct (p c) eqn:Hp.
  - exists (c :: a). split; [simpl; congruence|]. split; [by constructor|done].
  - exists []. split_and!; [done|done|]. by intros ? ? [= <- <-].
Qed.

Lemma trim_end_split p s :
  exists b, s = trim_end_matches p s ++ b /\ Forall (fun c => p c = true) b /\
    (forall c r, trim_end_matches p s = r ++ [c] -> p c = false).
Proof.
  unfold trim_end_matches. destruct (trim_start_split p (reverse s)) as (a & Hs & Ha & Hc).
  exists (reverse a). split_and!.
  - rewrite <- reverse_app. by rewrite <- Hs, reverse_involutive.
  - by apply Forall_reverse.
  - intros c r Hr. apply (Hc c (reverse r)).
    by rewrite <- (reverse_involutive (trim_start_matches _ _)), Hr, reverse_app.
Qed.

(** * Replacing *)

(** [t] is [s] with occurrences of [old] replaced, and no occurrence left
    untouched in a text without replacements. *)
Inductive replaced (old new : str) : str -> str -> Prop :=
  | replaced_none s : (forall a, ~ occurs_after old a s) -> replaced old new s s
  | replaced_first a s t :
      (forall a', occurs_after old a' (a ++ old ++ s) -> (length a <= length a')%nat) ->
      replaced old new s t -> replaced old new (a ++ old ++ s) (a ++ new ++ t).

Lemma str_replace_replaced old new s : old <> [] -> replaced old new s (str_replace old new s).
Proof.
  intros Ho. unfold str_replace. assert (length s < S (length s))%nat as Hf by lia. revert Hf.
  generalize (S (length s)) as fuel. intros fuel. revert s.
  induction fuel as [|fuel IH]; intros s Hs; [lia|]. simpl.
  destruct (find_str old s) as [[a b]|] eqn:Hfind.
  - apply find_str_Some in Hfind as (-> & [r ->] & Hmin). rewrite drop_app_length.
    constructor; [done|]. apply IH. rewrite !length_app in Hs. destruct old; [done|]. simpl in Hs. lia.
  - constructor. intros a. by apply find_str_None.
Qed.

(** Decide the comparisons of literal names. *)
Ltac decide_names :=
  repeat match goal with
  | |- context [str_is ?x ?k] =>
      let b := eval vm_compute in (str_is x k) in
      match b with true => idtac | false => idtac end; change (str_is x k) with b
  end; cbn [orb andb]; cbv beta iota zeta.
