(* ===== verification/Cursors.v ===== *)
(** The cursor of the hand-written parsers: the byte position and the characters
    still to read, and what it means to have read some of them.  [mock/filter.rs]
    and [mock/calcformula_parser.rs] declare the same [Parser] each. *)

From Stdlib Require Import ZArith Lia.
From stdpp Require Import base tactics numbers option list strings.
From S2P Require Import Prelude RustStr.

#[local] Open Scope Z_scope.

Record Parser := { pos : Z; remaining : str }.

Definition new (input : str) : Parser := {| pos := 0; remaining := input |}.

Definition peek (p : Parser) : option char := head (remaining p).

Definition advance (p : Parser) : option char * Parser :=
  match remaining p with
  | [] => (None, p)
  | c :: r => (Some c, {| pos := pos p + len_utf8 c; remaining := r |})
  end.

Definition peek_is (p : Parser) (c : char) : bool :=
  match peek p with Some d => d =? c | None => false end.

Definition at_end (p : Parser) : bool := match remaining p with [] => true | _ => false end.

(** [while self.peek().is_some_and(blank) { self.advance(); }] *)
Fixpoint skip_ws (blank : char -> bool) (at_ : Z) (s : str) : Parser :=
  match s with
  | c :: r => if blank c then skip_ws blank (at_ + len_utf8 c) r else {| pos := at_; remaining := s |}
  | [] => {| pos := at_; remaining := [] |}
  end.

(** * What a parser has read *)

(** [p'] is [p] after at least [n] characters, its position moved by their
    bytes. *)
Definition consumes (n : nat) (p p' : Parser) : Prop :=
  exists k, remaining p = k ++ remaining p' /\ pos p' = pos p + str_len k /\ (n <= length k)%nat.

Lemma consumes_refl p : consumes 0 p p.
Proof. exists []. simpl. split_and!; [done|lia|lia]. Qed.

Lemma consumes_trans n m p q r : consumes n p q -> consumes m q r -> consumes (n + m) p r.
Proof.
  intros (k1 & E1 & P1 & L1) (k2 & E2 & P2 & L2). exists (k1 ++ k2).
  rewrite E1, E2, <- app_assoc, str_len_app, length_app. split_and!; [done|lia|lia].
Qed.

Lemma consumes_weaken n m p q : (m <= n)%nat -> consumes n p q -> consumes m p q.
Proof. intros ? (k & ? & ? & ?). exists k. split_and!; [done..|lia]. Qed.

Lemma consumes_length n p q : consumes n p q -> (length (remaining q) + n <= length (remaining p))%nat.
Proof. intros (k & -> & _ & L). rewrite length_app. lia. Qed.

Lemma consumes_cons c r p q n :
  remaining p = c :: r -> consumes n {| pos := pos p + len_utf8 c; remaining := r |} q ->
  consumes (S n) p q.
Proof.
  intros E (k & E1 & P1 & L1). exists (c :: k). simpl in *. rewrite E, E1, P1.
  split_and!; [done|unfold str_len; simpl; lia|lia].
Qed.

Lemma consumes_advance c p q : advance p = (Some c, q) -> consumes 1 p q.
Proof.
  unfold advance. destruct (remaining p) as [|d r] eqn:E; intros [= <- <-].
  apply (consumes_cons d r); [done|]. apply consumes_refl.
Qed.

Lemma consumes_peek_advance p c : peek_is p c = true -> consumes 1 p (advance p).2.
Proof.
  unfold peek_is, peek, advance. destruct (remaining p) as [|d r] eqn:E; [done|]. intros _.
  apply (consumes_cons d r); [done|]. apply consumes_refl.
Qed.

(** The same for an explicit cursor. *)
Lemma consumes_next c at_ s q n :
  consumes n {| pos := at_ + len_utf8 c; remaining := s |} q ->
  consumes (S n) {| pos := at_; remaining := c :: s |} q.
Proof. intros H. by apply (consumes_cons c s {| pos := at_; remaining := c :: s |}). Qed.

Lemma consumes_peek p c : peek p = Some c -> consumes 1 p (advance p).2.
Proof. destruct p as [n [|d s]]; [done|]. intros _. apply consumes_next, consumes_refl. Qed.

Lemma consumes_skip_ws blank n s : consumes 0 {| pos := n; remaining := s |} (skip_ws blank n s).
Proof.
  revert n. induction s as [|c s IH]; intros n; simpl; [apply consumes_refl|].
  destruct (blank c); [|apply consumes_refl]. apply (consumes_weaken 1); [lia|]. by apply consumes_next.
Qed.
