(* ===== verification/OrdMap.v ===== *)
(** [BTreeMap] and [BTreeSet] of the standard library, as lists sorted by the
    key comparison.

    The comparison is a parameter: keys that compare [Eq] are one key to the
    map even when they are not the same term (the decimals 1.0 and 1.00).  As
    in the standard library, inserting under a key the map holds replaces the
    value and keeps the old key. *)

From Stdlib Require Import ZArith Lia Sorting.Sorted.
From stdpp Require Import base tactics numbers option list sets sorting.
From S2P Require Import Prelude.

Section ordmap.
Context {K V : Type} (cmp : K -> K -> comparison).

Fixpoint bt_get (k : K) (m : list (K * V)) : option V :=
  match m with
  | [] => None
  | (k', v) :: m' =>
      match cmp k k' with
      | Lt => None
      | Eq => Some v
      | Gt => bt_get k m'
      end
  end.

Definition bt_contains (k : K) (m : list (K * V)) : bool :=
  match bt_get k m with Some _ => true | None => false end.

Fixpoint bt_insert (k : K) (v : V) (m : list (K * V)) : list (K * V) :=
  match m with
  | [] => [(k, v)]
  | (k', v') :: m' =>
      match cmp k k' with
      | Lt => (k, v) :: m
      | Eq => (k', v) :: m'
      | Gt => (k', v') :: bt_insert k v m'
      end
  end.

Fixpoint bt_remove (k : K) (m : list (K * V)) : list (K * V) :=
  match m with
  | [] => []
  | (k', v') :: m' =>
      match cmp k k' with
      | Lt => m
      | Eq => m'
      | Gt => (k', v') :: bt_remove k m'
      end
  end.

(** [BTreeMap::get_mut] followed by a write: nothing when the key is
    missing. *)
Fixpoint bt_update (f : V -> V) (k : K) (m : list (K * V)) : list (K * V) :=
  match m with
  | [] => []
  | (k', v') :: m' =>
      match cmp k k' with
      | Lt => m
      | Eq => (k', f v') :: m'
      | Gt => (k', v') :: bt_update f k m'
      end
  end.

Definition bt_keys (m : list (K * V)) : list K := m.*1.
Definition bt_values (m : list (K * V)) : list V := m.*2.

Definition key_lt (k k' : K) : Prop := cmp k k' = Lt.

Context (P : K -> Prop).

(** Keys strictly increasing, all of them in the domain of the order. *)
Definition bt_wf (m : list (K * V)) : Prop :=
  StronglySorted key_lt (bt_keys m) /\ Forall P (bt_keys m).

Context `{HO : !OrderOn P cmp}.

Lemma bt_wf_nil : bt_wf [].
Proof. split; constructor. Qed.

Lemma bt_wf_cons k v m :
  bt_wf ((k, v) :: m) <-> P k /\ Forall (key_lt k) (bt_keys m) /\ bt_wf m.
Proof.
  unfold bt_wf. simpl. split.
  - intros [H1 H2]. inversion_clear H1. inversion_clear H2. done.
  - intros (? & ? & ? & ?). by repeat constructor.
Qed.

(** Every key above [k] is above a key equal to or below [k]. *)
Lemma key_lt_le_trans k1 k2 ks :
  P k1 -> P k2 -> Forall P ks -> is_le (cmp k1 k2) = true ->
  Forall (key_lt k2) ks -> Forall (key_lt k1) ks.
Proof.
  intros H1 H2 HP Hle Hall. induction Hall as [|k ks Hk _ IH]; constructor.
  - inversion_clear HP. unfold key_lt in *. destruct (cmp k1 k2) eqn:E; try done.
    + by rewrite (order_eq_l (cmp:=cmp) k1 k2 k).
    + by rewrite (order_trans (cmp:=cmp) Lt k1 k2 k).
  - inversion_clear HP. auto.
Qed.

Lemma bt_get_above k m : Forall (key_lt k) (bt_keys m) -> bt_get k m = None.
Proof. destruct m as [|[k' v] m]; simpl; [done|]. inversion_clear 1. by rewrite H0. Qed.

Lemma bt_get_eq k1 k2 m :
  P k1 -> P k2 -> bt_wf m -> cmp k1 k2 = Eq -> bt_get k1 m = bt_get k2 m.
Proof.
  intros H1 H2 Hm E. induction m as [|[k v] m IH]; simpl; [done|].
  apply bt_wf_cons in Hm as (Hk & _ & Hm).
  rewrite (order_eq_l (cmp:=cmp) k1 k2 k) by done. case_match; auto.
Qed.

Lemma bt_insert_keys k v m k' : k' ∈ bt_keys (bt_insert k v m) -> k' = k \/ k' ∈ bt_keys m.
Proof.
  induction m as [|[k0 v0] m IH]; simpl; [set_solver|].
  destruct (cmp k k0); simpl; set_solver.
Qed.

Lemma bt_insert_wf k v m : P k -> bt_wf m -> bt_wf (bt_insert k v m).
Proof.
  intros Hk. induction m as [|[k0 v0] m IH]; intros Hm; simpl.
  { apply bt_wf_cons. split_and!; [done|constructor|apply bt_wf_nil]. }
  pose proof Hm as (Hk0 & Hall & Hm')%bt_wf_cons.
  destruct (cmp k k0) eqn:E.
  - by apply bt_wf_cons.
  - apply bt_wf_cons. split_and!; [done| |done]. simpl. constructor; [done|].
    apply (key_lt_le_trans k k0); [done..|apply Hm'| |done]. by rewrite E.
  - apply bt_wf_cons. split_and!; [done| |by apply IH].
    apply Forall_forall. intros k' [->|Hin]%bt_insert_keys.
    + unfold key_lt. by apply (order_lt_gt (cmp:=cmp)).
    + rewrite Forall_forall in Hall. auto.
Qed.

Lemma bt_get_insert k v m k' :
  P k -> P k' -> bt_wf m ->
  bt_get k' (bt_insert k v m) = if is_eq (cmp k' k) then Some v else bt_get k' m.
Proof.
  intros Hk Hk'. induction m as [|[k0 v0] m IH]; intros Hm; simpl.
  { by destruct (cmp k' k). }
  apply bt_wf_cons in Hm as (Hk0 & Hall & Hm).
  destruct (cmp k k0) eqn:E; simpl.
  - rewrite <- (order_eq_r (cmp:=cmp) k' k k0) by done. by destruct (cmp k' k).
  - destruct (cmp k' k) eqn:E'; simpl; [done| |done].
    by rewrite (order_trans (cmp:=cmp) Lt k' k k0).
  - rewrite IH by done. destruct (cmp k' k) eqn:E'; simpl; [|done..].
    by rewrite (order_eq_l (cmp:=cmp) k' k k0), E.
Qed.

Lemma bt_insert_same k v m : P k -> bt_wf m -> bt_get k (bt_insert k v m) = Some v.
Proof. intros. by rewrite bt_get_insert, (order_refl (cmp:=cmp)). Qed.

Lemma bt_remove_keys k m k' : k' ∈ bt_keys (bt_remove k m) -> k' ∈ bt_keys m.
Proof.
  induction m as [|[k0 v0] m IH]; simpl; [set_solver|]. destruct (cmp k k0); simpl; set_solver.
Qed.

Lemma bt_remove_wf k m : bt_wf m -> bt_wf (bt_remove k m).
Proof.
  induction m as [|[k0 v0] m IH]; intros Hm; simpl; [done|].
  pose proof Hm as (Hk0 & Hall & Hm')%bt_wf_cons.
  destruct (cmp k k0); [done..|]. apply bt_wf_cons. split_and!; [done| |by apply IH].
  rewrite Forall_forall in Hall |- *. intros k' ?%bt_remove_keys. auto.
Qed.

Lemma bt_get_remove k m k' :
  P k -> P k' -> bt_wf m ->
  bt_get k' (bt_remove k m) = if is_eq (cmp k' k) then None else bt_get k' m.
Proof.
  intros Hk Hk'. induction m as [|[k0 v0] m IH]; intros Hm; simpl.
  { by destruct (cmp k' k). }
  apply bt_wf_cons in Hm as (Hk0 & Hall & Hm).
  destruct (cmp k k0) eqn:E; simpl.
  - rewrite <- (order_eq_r (cmp:=cmp) k' k k0) by done.
    destruct (cmp k' k) eqn:E'; simpl; [| |done].
    + apply bt_get_above, (key_lt_le_trans k' k0); try done; [apply Hm|].
      by rewrite <- (order_eq_r (cmp:=cmp) k' k k0), E'.
    + apply bt_get_above, (key_lt_le_trans k' k0); try done; [apply Hm|].
      by rewrite <- (order_eq_r (cmp:=cmp) k' k k0), E'.
  - destruct (cmp k' k) eqn:E'; simpl; [|done..].
    by rewrite (order_eq_l (cmp:=cmp) k' k k0), E.
  - rewrite IH by done. destruct (cmp k' k) eqn:E'; simpl; [|done..].
    by rewrite (order_eq_l (cmp:=cmp) k' k k0), E.
Qed.

Lemma bt_update_keys f k m : bt_keys (bt_update f k m) = bt_keys m.
Proof.
  induction m as [|[k0 v0] m IH]; simpl; [done|]. destruct (cmp k k0); simpl; [done..|].
  unfold bt_keys in *. simpl. by f_equal.
Qed.

Lemma bt_update_wf f k m : bt_wf m -> bt_wf (bt_update f k m).
Proof. unfold bt_wf. by rewrite bt_update_keys. Qed.

Lemma bt_get_update f k m k' :
  P k -> P k' -> bt_wf m ->
  bt_get k' (bt_update f k m) = if is_eq (cmp k' k) then f <$> bt_get k' m else bt_get k' m.
Proof.
  intros Hk Hk'. induction m as [|[k0 v0] m IH]; intros Hm; simpl.
  { by destruct (cmp k' k). }
  apply bt_wf_cons in Hm as (Hk0 & Hall & Hm).
  destruct (cmp k k0) eqn:E; simpl.
  - rewrite <- (order_eq_r (cmp:=cmp) k' k k0) by done. by destruct (cmp k' k).
  - destruct (cmp k' k) eqn:E'; simpl; [|done..].
    by rewrite (order_eq_l (cmp:=cmp) k' k k0), E.
  - destruct (cmp k' k0) eqn:E0; simpl; [| |by apply IH].
    + destruct (cmp k' k) eqn:E'; simpl; [|done..].
      rewrite (order_eq_l (cmp:=cmp) k' k k0) in E0 by done. congruence.
    + by destruct (is_eq (cmp k' k)).
Qed.

(** The entries and the lookups agree. *)
Lemma bt_get_elem k v m : bt_wf m -> (k, v) ∈ m -> bt_get k m = Some v.
Proof.
  induction m as [|[k0 v0] m IH]; intros Hm Hin; [set_solver|].
  apply bt_wf_cons in Hm as (Hk0 & Hall & Hm). apply elem_of_cons in Hin as [[= -> ->]|Hin]; simpl.
  - by rewrite (order_refl (cmp:=cmp)).
  - assert (k ∈ bt_keys m) as Hk by (unfold bt_keys; apply list_elem_of_fmap; by exists (k, v)).
    rewrite Forall_forall in Hall. pose proof (Hall _ Hk) as Hlt.
    assert (P k) by (destruct Hm as [_ HP]; rewrite Forall_forall in HP; auto).
    unfold key_lt in Hlt. apply (order_lt_gt (cmp:=cmp)) in Hlt; [|done..].
    rewrite Hlt. auto.
Qed.

Lemma bt_elem_get k v m :
  bt_get k m = Some v -> exists k', cmp k k' = Eq /\ (k', v) ∈ m.
Proof.
  induction m as [|[k0 v0] m IH]; simpl; [done|].
  destruct (cmp k k0) eqn:E; [|done|].
  - intros [= ->]. exists k0. split; [done|]. left.
  - intros (k' & ? & ?)%IH. exists k'. split; [done|]. by right.
Qed.

Lemma bt_keys_P k v m : bt_wf m -> (k, v) ∈ m -> P k.
Proof.
  intros [_ HP] Hin. rewrite Forall_forall in HP. apply HP.
  apply list_elem_of_fmap. by exists (k, v).
Qed.

(** Distinct entries of a well-formed map have different keys. *)
Lemma bt_key_unique k1 v1 k2 v2 m :
  bt_wf m -> (k1, v1) ∈ m -> (k2, v2) ∈ m -> cmp k1 k2 = Eq -> v1 = v2.
Proof.
  intros Hm H1 H2 E.
  pose proof (bt_get_elem _ _ _ Hm H1) as G1. pose proof (bt_get_elem _ _ _ Hm H2) as G2.
  rewrite (bt_get_eq k1 k2) in G1; eauto using bt_keys_P. congruence.
Qed.

(** Dropping entries keeps the map well formed. *)
Lemma bt_filter_wf (Q : K * V -> Prop) `{!forall x, Decision (Q x)} m :
  bt_wf m -> bt_wf (filter Q m).
Proof.
  induction m as [|[k v] m IH]; intros Hm; [done|].
  pose proof Hm as (Hk & Hall & Hm')%bt_wf_cons.
  rewrite filter_cons. case_decide; [|by apply IH].
  apply bt_wf_cons. split_and!; [done| |by apply IH].
  rewrite Forall_forall in Hall |- *. intros k' Hk'. apply Hall.
  unfold bt_keys in *. apply list_elem_of_fmap in Hk' as ([? v'] & -> & [_ Hin]%list_elem_of_filter).
  apply list_elem_of_fmap. eauto.
Qed.

(** Rewriting the values keeps the keys. *)
Lemma bt_map_keys {W} (f : K -> V -> W) m :
  ((fun kv : K * V => (kv.1, f kv.1 kv.2)) <$> m).*1 = bt_keys m.
Proof.
  unfold bt_keys. rewrite <- list_fmap_compose. apply list_fmap_ext. by intros ? [].
Qed.

Lemma bt_get_map (f : K -> V -> V) m k :
  (forall k1 k2 v, cmp k1 k2 = Eq -> f k1 v = f k2 v) ->
  bt_get k ((fun kv : K * V => (kv.1, f kv.1 kv.2)) <$> m) = f k <$> bt_get k m.
Proof.
  intros Hf. induction m as [|[k0 v0] m IH]; simpl; [done|].
  destruct (cmp k k0) eqn:E; simpl; [by rewrite (Hf k k0)|done|done].
Qed.

Lemma bt_keys_NoDup m : bt_wf m -> NoDup (bt_keys m).
Proof.
  intros [Hs HP]. induction Hs as [|k ks Hs IH Hall]; constructor; inversion_clear HP; auto.
  intros Hin. rewrite Forall_forall in Hall. pose proof (Hall _ Hin) as Hlt.
  unfold key_lt in Hlt. rewrite (order_refl (cmp:=cmp)) in Hlt; done.
Qed.
End ordmap.

#[export] Hint Resolve bt_wf_nil bt_insert_wf bt_remove_wf bt_update_wf bt_filter_wf : rt.
