(* ===== verification/Civil.v ===== *)
(** The calendar arithmetic of [interpreter/value.rs] and of
    [interpreter/dispatch/datetime.rs]: day counts and proleptic-Gregorian
    dates, weekdays, ISO weeks and date validation.

    The functions are written on [Z] with Rust's truncating [/]; the
    [_checked] variant of [days_from_civil] makes every [i64] operation
    explicit, [None] being an arithmetic overflow. *)

From Stdlib Require Import ZArith Lia.
From stdpp Require Import base tactics numbers option list.
From S2P Require Import Prelude.

#[local] Open Scope Z_scope.
#[local] Ltac Zify.zify_post_hook ::= Z.div_mod_to_equations.

(** * Definitions *)

Definition MS_PER_DAY : Z := 86400000.
Definition AL_EPOCH_TO_UNIX_DAYS : Z := 719162.

Definition days_from_civil (year month day : Z) : Z :=
  let y := if month <=? 2 then year - 1 else year in
  let era := Z.quot (if 0 <=? y then y else y - 399) 400 in
  let yoe := y - era * 400 in
  let doy := Z.quot (153 * (if 2 <? month then month - 3 else month + 9) + 2) 5 + day - 1 in
  let doe := yoe * 365 + Z.quot yoe 4 - Z.quot yoe 100 + doy in
  era * 146097 + doe - 719468.

(** The same function with each [i64] operation checked. *)
Definition days_from_civil_checked (year month day : Z) : option Z :=
  y ← (if month <=? 2 then checked_sub year 1 else Some year);
  n ← (if 0 <=? y then Some y else checked_sub y 399);
  era ← checked_div n 400;
  base ← checked_mul era 400;
  yoe ← checked_sub y base;
  mp ← (if 2 <? month then checked_sub month 3 else checked_add month 9);
  md ← checked_mul 153 mp;
  md ← checked_add md 2;
  md ← checked_div md 5;
  doy ← checked_add md day;
  doy ← checked_sub doy 1;
  doe ← checked_mul yoe 365;
  q4 ← checked_div yoe 4;
  doe ← checked_add doe q4;
  q100 ← checked_div yoe 100;
  doe ← checked_sub doe q100;
  doe ← checked_add doe doy;
  days ← checked_mul era 146097;
  days ← checked_add days doe;
  checked_sub days 719468.

Definition al_days_from_ymd (year month day : Z) : Z :=
  days_from_civil year month day + AL_EPOCH_TO_UNIX_DAYS.

Definition civil_from_days (days : Z) : Z * Z * Z :=
  let z := days + 719468 in
  let era := Z.quot (if 0 <=? z then z else z - 146096) 146097 in
  let doe := z - era * 146097 in
  let yoe := Z.quot (doe - Z.quot doe 1460 + Z.quot doe 36524 - Z.quot doe 146096) 365 in
  let y := yoe + era * 400 in
  let doy := doe - (365 * yoe + Z.quot yoe 4 - Z.quot yoe 100) in
  let mp := Z.quot (5 * doy + 2) 153 in
  let day := doy - Z.quot (153 * mp + 2) 5 + 1 in
  let month := if mp <? 10 then mp + 3 else mp - 9 in
  (if month <=? 2 then y + 1 else y, month, day).

Definition ymd_from_al_days (days : Z) : Z * Z * Z :=
  civil_from_days (days - AL_EPOCH_TO_UNIX_DAYS).

(** [checked_al_date] of [datetime.rs]. *)
Definition leap (year : Z) : bool :=
  (Z.rem year 4 =? 0) && (negb (Z.rem year 100 =? 0) || (Z.rem year 400 =? 0)).

Definition max_day (year month : Z) : Z :=
  if existsb (Z.eqb month) [1; 3; 5; 7; 8; 10; 12] then 31
  else if existsb (Z.eqb month) [4; 6; 9; 11] then 30
  else if (month =? 2) && leap year then 29
  else 28.

Definition checked_al_date (year month day : Z) : option Z :=
  if negb ((1 <=? year) && (year <=? 9999)) || negb ((1 <=? month) && (month <=? 12)) then None
  else if negb ((1 <=? day) && (day <=? max_day year month)) then None
  else Some (al_days_from_ymd year month day).

(** [rem_euclid] by a positive number is [Z.modulo]. *)
Definition weekday_of (date : Z) : Z :=
  let unix := date - AL_EPOCH_TO_UNIX_DAYS in
  Z.rem (unix mod 7 + 3) 7 + 1.

Definition iso_week (date : Z) : Z * Z :=
  let thursday := date - weekday_of date + 4 in
  let '(year, _, _) := ymd_from_al_days thursday in
  let week := Z.quot (thursday - al_days_from_ymd year 1 1) 7 + 1 in
  (week, year).

(** The [days_in_month] and [add_months] closures of [calc_date]. *)
Definition days_in_month (year month : Z) : Z :=
  let '(next_year, next_month) := if month =? 12 then (year + 1, 1) else (year, month + 1) in
  al_days_from_ymd next_year next_month 1 - al_days_from_ymd year month 1.

Definition add_months (date months : Z) : Z :=
  let '(year, month, day) := ymd_from_al_days date in
  let index := year * 12 + (month - 1) + months in
  let year := index / 12 in
  let month := index mod 12 + 1 in
  al_days_from_ymd year month (Z.min day (days_in_month year month)).

(** A year, month and day that exist in the calendar. *)
Definition valid_ymd (year month day : Z) : Prop :=
  1 <= month <= 12 /\ 1 <= day <= max_day year month.

(** * The calendar in floor arithmetic *)

(** The year counted from March: month 0 is March, month 11 February. *)
Definition month_index (month : Z) : Z := if 2 <? month then month - 3 else month + 9.
Definition march_year (year month : Z) : Z := if month <=? 2 then year - 1 else year.

Lemma era_floor y : Z.quot (if 0 <=? y then y else y - 399) 400 = y / 400.
Proof.
  destruct (Z.leb_spec 0 y); [by rewrite Z.quot_div_nonneg by lia|].
  replace (y - 399) with (- (399 - y)) by lia.
  rewrite Z.quot_opp_l, Z.quot_div_nonneg by lia. lia.
Qed.

Lemma day_era_floor z : Z.quot (if 0 <=? z then z else z - 146096) 146097 = z / 146097.
Proof.
  destruct (Z.leb_spec 0 z); [by rewrite Z.quot_div_nonneg by lia|].
  replace (z - 146096) with (- (146096 - z)) by lia.
  rewrite Z.quot_opp_l, Z.quot_div_nonneg by lia. lia.
Qed.

Lemma days_from_civil_floor year month day :
  1 <= month <= 12 ->
  days_from_civil year month day =
    let y := march_year year month in
    let yoe := y mod 400 in
    (y / 400) * 146097 + (yoe * 365 + yoe / 4 - yoe / 100
      + ((153 * month_index month + 2) / 5 + day - 1)) - 719468.
Proof.
  intros Hm. unfold days_from_civil, march_year, month_index. cbv zeta. rewrite era_floor.
  set (y := if month <=? 2 then _ else _). set (mp := if 2 <? month then _ else _).
  assert (0 <= mp) by (subst mp; destruct (Z.ltb_spec 2 month); lia).
  replace (y - y / 400 * 400) with (y mod 400) by lia.
  rewrite !Z.quot_div_nonneg by lia. lia.
Qed.

(** The length of the year that starts in March of [yoe], and of its months. *)
Definition march_year_len (yoe : Z) : Z :=
  if ((yoe + 1) mod 4 =? 0) && (negb ((yoe + 1) mod 100 =? 0) || ((yoe + 1) mod 400 =? 0))
  then 366 else 365.

Lemma civil_floor n :
  let z := n + 719468 in
  let doe := z mod 146097 in
  let yoe := (doe - doe / 1460 + doe / 36524 - doe / 146096) / 365 in
  let doy := doe - (365 * yoe + yoe / 4 - yoe / 100) in
  let mp := (5 * doy + 2) / 153 in
  let day := doy - (153 * mp + 2) / 5 + 1 in
  let month := if mp <? 10 then mp + 3 else mp - 9 in
  let y := yoe + z / 146097 * 400 in
  civil_from_days n = (if month <=? 2 then y + 1 else y, month, day)
  /\ 0 <= yoe < 400 /\ 0 <= doy < march_year_len yoe.
Proof.
  cbv zeta. unfold civil_from_days. cbv zeta. rewrite day_era_floor.
  set (z := n + 719468). replace (z - z / 146097 * 146097) with (z mod 146097) by lia.
  set (doe := z mod 146097).
  assert (0 <= doe < 146097) as Hdoe by (subst doe; lia). clearbody doe.
  rewrite !(Z.quot_div_nonneg doe) by lia.
  rewrite (Z.quot_div_nonneg _ 365) by lia.
  set (yoe := (doe - doe / 1460 + doe / 36524 - doe / 146096) / 365).
  assert (0 <= yoe < 400) as Hyoe by (subst yoe; lia).
  rewrite !(Z.quot_div_nonneg yoe) by lia.
  assert (0 <= doe - (365 * yoe + yoe / 4 - yoe / 100) < march_year_len yoe) as Hdoy.
  { unfold march_year_len.
    destruct (Z.eqb_spec ((yoe + 1) mod 4) 0), (Z.eqb_spec ((yoe + 1) mod 100) 0),
      (Z.eqb_spec ((yoe + 1) mod 400) 0); simpl; subst yoe; lia. }
  assert (march_year_len yoe <= 366) by (unfold march_year_len; case_match; lia).
  rewrite !Z.quot_div_nonneg by lia. done.
Qed.

(** * Round trips *)

Lemma yoe_recovered yoe doy :
  0 <= yoe < 400 -> 0 <= doy < march_year_len yoe ->
  let doe := yoe * 365 + yoe / 4 - yoe / 100 + doy in
  0 <= doe < 146097 /\ (doe - doe / 1460 + doe / 36524 - doe / 146096) / 365 = yoe.
Proof.
  cbv zeta. unfold march_year_len. intros Hy.
  destruct (Z.eqb_spec ((yoe + 1) mod 4) 0), (Z.eqb_spec ((yoe + 1) mod 100) 0),
    (Z.eqb_spec ((yoe + 1) mod 400) 0); simpl; intros; lia.
Qed.

(** Case analysis on a month of the year. *)
Ltac each_month m :=
  let H := fresh in
  assert (m = 1 \/ m = 2 \/ m = 3 \/ m = 4 \/ m = 5 \/ m = 6 \/ m = 7 \/ m = 8 \/ m = 9
    \/ m = 10 \/ m = 11 \/ m = 12) as H by lia;
  repeat (destruct H as [H|H]; [subst m|]); [..|subst m].

Lemma leap_floor year :
  leap year = (year mod 4 =? 0) && (negb (year mod 100 =? 0) || (year mod 400 =? 0)).
Proof.
  assert (forall k, 0 < k -> (Z.rem year k =? 0) = (year mod k =? 0)) as H.
  { intros k Hk. apply eq_iff_eq_true. rewrite !Z.eqb_eq.
    rewrite Z.rem_divide, Z.mod_divide by lia. done. }
  unfold leap. by rewrite !H by lia.
Qed.

Lemma march_year_len_leap y : march_year_len (y mod 400) = if leap (y + 1) then 366 else 365.
Proof.
  rewrite leap_floor. unfold march_year_len.
  replace ((y mod 400 + 1) mod 4) with ((y + 1) mod 4) by lia.
  replace ((y mod 400 + 1) mod 100) with ((y + 1) mod 100) by lia.
  replace ((y mod 400 + 1) mod 400) with ((y + 1) mod 400) by lia. done.
Qed.

(** The day of the March year of a valid date, and the month and day it gives
    back. *)
Lemma march_day year month day :
  valid_ymd year month day ->
  let doy := (153 * month_index month + 2) / 5 + day - 1 in
  0 <= doy < march_year_len (march_year year month mod 400) /\
  (5 * doy + 2) / 153 = month_index month.
Proof.
  intros [Hm Hd]. cbv zeta. rewrite march_year_len_leap. revert Hd.
  unfold max_day, month_index, march_year.
  each_month month; simpl; try (destruct (leap _); lia).
  replace (year - 1 + 1) with year by lia. destruct (leap year); lia.
Qed.

(** A valid date ends before the next month starts. *)
Lemma march_month_end year month day :
  valid_ymd year month day ->
  1 <= day /\
  (153 * month_index month + 2) / 5 + day - 1 < (153 * (month_index month + 1) + 2) / 5.
Proof.
  intros [Hm Hd]. revert Hd. unfold max_day, month_index.
  each_month month; simpl; try (destruct (leap _)); lia.
Qed.

Lemma civil_of_days year month day :
  valid_ymd year month day -> civil_from_days (days_from_civil year month day) = (year, month, day).
Proof.
  intros Hv. pose proof (march_day _ _ _ Hv) as [Hdoy Hmp]. destruct Hv as [Hm Hd].
  destruct (civil_floor (days_from_civil year month day)) as [-> _].
  rewrite days_from_civil_floor by done. cbv zeta.
  set (y := march_year year month) in *. set (mp := month_index month) in *.
  set (doy := (153 * mp + 2) / 5 + day - 1) in *.
  destruct (yoe_recovered (y mod 400) doy ltac:(lia) Hdoy) as [Hdoe Hyoe].
  set (doe := y mod 400 * 365 + y mod 400 / 4 - y mod 400 / 100 + doy) in *.
  replace (y / 400 * 146097 + doe - 719468 + 719468) with (doe + y / 400 * 146097) by lia.
  rewrite Z.mod_add, (Z.mod_small doe 146097), Z.div_add, (Z.div_small doe 146097) by done.
  rewrite Hyoe, Z.add_0_l.
  replace (doe - (365 * (y mod 400) + y mod 400 / 4 - y mod 400 / 100)) with doy by lia.
  rewrite Hmp. subst doy. clear Hyoe Hdoe Hmp Hdoy doe.
  subst y mp. unfold march_year, month_index.
  each_month month; simpl; repeat f_equal; lia.
Qed.

(** The date of a day count is valid and counts back to it. *)
Lemma days_of_civil n :
  let '(year, month, day) := civil_from_days n in
  valid_ymd year month day /\ days_from_civil year month day = n.
Proof.
  pose proof (civil_floor n) as H. cbv zeta in H. destruct H as (-> & Hyoe & Hdoy).
  set (z := n + 719468) in *. set (doe := z mod 146097) in *.
  set (yoe := (doe - doe / 1460 + doe / 36524 - doe / 146096) / 365) in *.
  set (doy := doe - (365 * yoe + yoe / 4 - yoe / 100)) in *.
  assert (march_year_len yoe <= 366) by (unfold march_year_len; case_match; lia).
  assert (0 <= doy <= 365) as Hdoy' by lia.
  set (mp := (5 * doy + 2) / 153).
  assert (0 <= mp <= 11) as Hmp by (subst mp; clear -Hdoy'; lia).
  set (y := yoe + z / 146097 * 400).
  assert (y mod 400 = yoe /\ y / 400 = z / 146097) as [Hmod Hdiv] by (subst y; lia).
  set (month := if mp <? 10 then mp + 3 else mp - 9).
  set (day := doy - (153 * mp + 2) / 5 + 1).
  set (year := if month <=? 2 then y + 1 else y).
  assert (1 <= month <= 12) as Hm by (subst month; destruct (Z.ltb_spec mp 10); lia).
  assert (month_index month = mp) as Hmi.
  { subst month. unfold month_index. destruct (Z.ltb_spec mp 10); case_match; to_prop; lia. }
  assert (march_year year month = y) as Hmy.
  { subst year. unfold march_year. destruct (month <=? 2); lia. }
  split; [split; [done|]|].
  - rewrite <- Hmod, march_year_len_leap in Hdoy.
    assert (1 <= day <= 31) by (subst day mp; clear -Hdoy'; lia). unfold max_day.
    subst year month day. clearbody doy y yoe z doe.
    assert (mp = 0 \/ mp = 1 \/ mp = 2 \/ mp = 3 \/ mp = 4 \/ mp = 5 \/ mp = 6 \/ mp = 7
      \/ mp = 8 \/ mp = 9 \/ mp = 10 \/ mp = 11) as Hcase by lia. subst mp.
    clear Hmi Hmy Hm.
    repeat (destruct Hcase as [Hcase|Hcase]; [rewrite Hcase in *; simpl in *; try lia|]).
    rewrite Hcase in *; simpl in *. destruct (leap (y + 1)); simpl; lia.
  - rewrite days_from_civil_floor by done. cbv zeta. rewrite Hmy, Hmi, Hmod, Hdiv.
    subst day doy z doe. lia.
Qed.

(** * The calendar as a bijection, and its order *)

Lemma ymd_of_al_days year month day :
  valid_ymd year month day -> ymd_from_al_days (al_days_from_ymd year month day) = (year, month, day).
Proof.
  intros H. unfold ymd_from_al_days, al_days_from_ymd. rewrite Z.add_simpl_r. by apply civil_of_days.
Qed.

Lemma al_days_of_ymd n :
  let '(year, month, day) := ymd_from_al_days n in
  valid_ymd year month day /\ al_days_from_ymd year month day = n.
Proof.
  unfold ymd_from_al_days, al_days_from_ymd.
  pose proof (days_of_civil (n - AL_EPOCH_TO_UNIX_DAYS)) as H.
  destruct (civil_from_days _) as [[year month] day]. destruct H as [? ->]. split; [done|lia].
Qed.

(** The first day of the March year [y], from the epoch of the algorithm. *)
Lemma days_from_civil_linear year month day :
  1 <= month <= 12 ->
  let y := march_year year month in
  days_from_civil year month day =
    365 * y + y / 4 - y / 100 + y / 400 + (153 * month_index month + 2) / 5 + day - 719469.
Proof. intros Hm. cbv zeta. rewrite days_from_civil_floor by done. cbv zeta. lia. Qed.

Lemma march_year_len_start y :
  365 * y + y / 4 - y / 100 + y / 400 + march_year_len (y mod 400)
  = 365 * (y + 1) + (y + 1) / 4 - (y + 1) / 100 + (y + 1) / 400.
Proof.
  unfold march_year_len.
  destruct (Z.eqb_spec ((y mod 400 + 1) mod 4) 0), (Z.eqb_spec ((y mod 400 + 1) mod 100) 0),
    (Z.eqb_spec ((y mod 400 + 1) mod 400) 0); simpl; lia.
Qed.

Lemma march_start_mono y y' : y <= y' ->
  365 * y + y / 4 - y / 100 + y / 400 <= 365 * y' + y' / 4 - y' / 100 + y' / 400.
Proof. lia. Qed.

(** Chronological order of dates: year, then month, then day. *)
Definition ymd_lt (a b : Z * Z * Z) : Prop :=
  let '(y1, m1, d1) := a in
  let '(y2, m2, d2) := b in
  y1 < y2 \/ (y1 = y2 /\ (m1 < m2 \/ (m1 = m2 /\ d1 < d2))).

Lemma days_from_civil_mono y1 m1 d1 y2 m2 d2 :
  valid_ymd y1 m1 d1 -> valid_ymd y2 m2 d2 -> ymd_lt (y1, m1, d1) (y2, m2, d2) ->
  days_from_civil y1 m1 d1 < days_from_civil y2 m2 d2.
Proof.
  intros V1 V2 Hlt. pose proof (march_day _ _ _ V1) as [D1 _]. pose proof (march_day _ _ _ V2) as [D2 _].
  pose proof (march_month_end _ _ _ V1). pose proof (march_month_end _ _ _ V2).
  destruct V1 as [M1 _], V2 as [M2 _]. rewrite !days_from_civil_linear by done. cbv zeta.
  set (Y1 := march_year y1 m1) in *. set (Y2 := march_year y2 m2) in *.
  assert (Y1 < Y2 \/ (Y1 = Y2 /\ (month_index m1 < month_index m2
    \/ month_index m1 = month_index m2 /\ d1 < d2))) as [Hy|[Hy Hm]].
  { subst Y1 Y2. unfold march_year, month_index. simpl in Hlt.
    destruct (Z.leb_spec m1 2), (Z.leb_spec m2 2), (Z.ltb_spec 2 m1), (Z.ltb_spec 2 m2); lia. }
  - pose proof (march_year_len_start Y1) as HL.
    pose proof (march_start_mono (Y1 + 1) Y2 ltac:(lia)). clear Hlt. lia.
  - rewrite <- Hy. clear Hlt D1 D2. destruct Hm as [Hm|[-> Hd]]; lia.
Qed.

(** * ISO weeks *)

Lemma weekday_of_range date : 1 <= weekday_of date <= 7.
Proof. unfold weekday_of. cbv zeta. rewrite Z.rem_mod_nonneg by lia. lia. Qed.

Lemma weekday_of_shift date k :
  1 <= weekday_of date + k <= 7 -> weekday_of (date + k) = weekday_of date + k.
Proof. unfold weekday_of. cbv zeta. rewrite !Z.rem_mod_nonneg by lia. lia. Qed.

(** The Thursday of the week of [date], which [iso_week] reads. *)
Definition week_thursday (date : Z) : Z := date - weekday_of date + 4.

Lemma week_thursday_shift date k :
  1 <= weekday_of date + k <= 7 -> week_thursday (date + k) = week_thursday date.
Proof. intros H. unfold week_thursday. rewrite weekday_of_shift by done. lia. Qed.

Lemma year_day_range year month day :
  valid_ymd year month day ->
  0 <= al_days_from_ymd year month day - al_days_from_ymd year 1 1 <= 365.
Proof.
  intros V. pose proof (march_day _ _ _ V) as [D _]. pose proof (march_month_end _ _ _ V) as E.
  destruct V as [M V]. unfold al_days_from_ymd. rewrite !days_from_civil_linear by lia. cbv zeta.
  pose proof (march_year_len_start (year - 1)) as HL.
  rewrite march_year_len_leap in HL, D. revert D E V HL.
  unfold march_year, month_index, max_day.
  each_month month; simpl; destruct (leap _); lia.
Qed.

Lemma iso_week_thursday date :
  let t := week_thursday date in
  let '(year, _, _) := ymd_from_al_days t in
  iso_week date = ((t - al_days_from_ymd year 1 1) / 7 + 1, year).
Proof.
  cbv zeta. unfold iso_week, week_thursday. cbv zeta.
  pose proof (al_days_of_ymd (date - weekday_of date + 4)) as H.
  destruct (ymd_from_al_days _) as [[year month] day]. destruct H as [V H].
  pose proof (year_day_range _ _ _ V). rewrite Z.quot_div_nonneg by lia. done.
Qed.

(** * Month arithmetic *)

Lemma days_in_month_max year month :
  1 <= month <= 12 -> days_in_month year month = max_day year month.
Proof.
  intros M. unfold days_in_month, al_days_from_ymd.
  destruct (Z.eqb_spec month 12) as [->|].
  - rewrite !days_from_civil_linear by lia. cbv zeta. unfold march_year, month_index. simpl.
    change (max_day year 12) with 31. lia.
  - rewrite !days_from_civil_linear by lia. cbv zeta.
    pose proof (march_year_len_start (year - 1)) as HL. rewrite march_year_len_leap in HL.
    replace (year - 1 + 1) with year in HL by lia.
    unfold march_year, month_index, max_day.
    each_month month; simpl; try lia. destruct (leap year); lia.
Qed.

Lemma max_day_range year month : 28 <= max_day year month <= 31.
Proof. unfold max_day. repeat case_match; lia. Qed.

(** * Overflow *)

(** A sequence of checked operations that all stay in range. *)
Lemma checked_i64_in z : i64_min <= z <= i64_max -> checked_i64 z = Some z.
Proof. intros. by apply checked_i64_Some. Qed.

(** The range of years for which no [i64] operation overflows is about
    25 * 10^15 years on either side of year 0. *)
Definition civil_year_bound : Z := 25000000000000000.

Lemma days_from_civil_checked_some year month day :
  - civil_year_bound <= year <= civil_year_bound -> 1 <= month <= 12 -> 0 <= day <= 31 ->
  days_from_civil_checked year month day = Some (days_from_civil year month day).
Proof.
  intros Hy Hm Hd. unfold days_from_civil_checked, days_from_civil. cbv zeta.
  rewrite !era_floor. unfold civil_year_bound in Hy.
  unfold checked_add, checked_sub, checked_mul, checked_div.
  set (y := if month <=? 2 then year - 1 else year).
  set (mp := if 2 <? month then month - 3 else month + 9).
  assert (year - 1 <= y <= year) as Hyy by (subst y; destruct (month <=? 2); lia).
  assert (0 <= mp <= 11) as Hmp by (subst mp; destruct (Z.ltb_spec 2 month); lia).
  assert ((if month <=? 2 then checked_i64 (year - 1) else Some year) = Some y) as ->.
  { subst y. destruct (month <=? 2); [|done]. apply checked_i64_in. unfold_ints. lia. }
  simpl.
  assert ((if 0 <=? y then Some y else checked_i64 (y - 399))
          = Some (if 0 <=? y then y else y - 399)) as ->.
  { destruct (0 <=? y); [done|]. apply checked_i64_in. unfold_ints. lia. }
  simpl. rewrite era_floor.
  assert ((if 2 <? month then checked_i64 (month - 3) else checked_i64 (month + 9)) = Some mp) as ->.
  { subst mp. destruct (2 <? month); apply checked_i64_in; unfold_ints; lia. }
  clearbody y mp. replace (y - y / 400 * 400) with (y mod 400) by lia.
  rewrite !Z.quot_div_nonneg by lia.
  repeat (rewrite checked_i64_in by (unfold_ints; lia); simpl).
  replace (y - y / 400 * 400) with (y mod 400) by lia.
  rewrite ?Z.quot_div_nonneg by lia.
  repeat (rewrite checked_i64_in by (unfold_ints; lia); simpl; rewrite ?Z.quot_div_nonneg by lia).
  f_equal. lia.
Qed.

(** * The order of dates *)

Lemma al_days_lt y1 m1 d1 y2 m2 d2 :
  valid_ymd y1 m1 d1 -> valid_ymd y2 m2 d2 ->
  al_days_from_ymd y1 m1 d1 < al_days_from_ymd y2 m2 d2 <-> ymd_lt (y1, m1, d1) (y2, m2, d2).
Proof.
  intros V1 V2. unfold al_days_from_ymd. split.
  - intros H. destruct (decide (ymd_lt (y1, m1, d1) (y2, m2, d2))) as [|N]; [done|]. exfalso.
    assert (ymd_lt (y2, m2, d2) (y1, m1, d1) \/ (y1, m1, d1) = (y2, m2, d2)) as [L|[= -> -> ->]].
    { unfold ymd_lt in *. destruct (Z.lt_trichotomy y1 y2) as [|[->|]]; [lia| |lia].
      destruct (Z.lt_trichotomy m1 m2) as [|[->|]]; [lia| |lia].
      destruct (Z.lt_trichotomy d1 d2) as [|[->|]]; [lia|by right|lia]. }
    + pose proof (days_from_civil_mono _ _ _ _ _ _ V2 V1 L). lia.
    + lia.
  - intros L. pose proof (days_from_civil_mono _ _ _ _ _ _ V1 V2 L). lia.
Qed.

(** * Properties *)

(** Dates and day counts correspond: every valid date of the proleptic
    Gregorian calendar survives the trip through its day count, every day count
    is the count of a valid date, and counts are ordered as the dates are.  No
    [i64] operation of [days_from_civil] overflows for a month, a day and a year
    within 25 * 10^15 of year 0, and the checked result is the plain one; for
    the year [i64::MAX] an operation does overflow. *)
Lemma al_date_bijection :
  (forall year month day, valid_ymd year month day ->
     ymd_from_al_days (al_days_from_ymd year month day) = (year, month, day)) /\
  (forall n, let '(year, month, day) := ymd_from_al_days n in
     valid_ymd year month day /\ al_days_from_ymd year month day = n) /\
  (forall y1 m1 d1 y2 m2 d2, valid_ymd y1 m1 d1 -> valid_ymd y2 m2 d2 ->
     al_days_from_ymd y1 m1 d1 < al_days_from_ymd y2 m2 d2 <-> ymd_lt (y1, m1, d1) (y2, m2, d2)) /\
  (forall year month day,
     - civil_year_bound <= year <= civil_year_bound -> 1 <= month <= 12 -> 0 <= day <= 31 ->
     days_from_civil_checked year month day = Some (days_from_civil year month day)) /\
  days_from_civil_checked i64_max 1 1 = None.
Proof.
  split; [exact ymd_of_al_days|]. split; [exact al_days_of_ymd|]. split; [exact al_days_lt|].
  split; [exact days_from_civil_checked_some|by vm_compute].
Qed.


(** [iso_week] is the ISO 8601 week: it is the same from Monday to Sunday,
    its number is between 1 and 53, and the 4th of January is in week 1 of its
    year. *)
Lemma iso_week_correct date :
  (forall k, 1 <= weekday_of date + k <= 7 -> iso_week (date + k) = iso_week date) /\
  1 <= (iso_week date).1 <= 53 /\
  (forall year, iso_week (al_days_from_ymd year 1 4) = (1, year)).
Proof.
  split; [|split].
  - intros k Hk. pose proof (iso_week_thursday (date + k)) as H1.
    pose proof (iso_week_thursday date) as H2. cbv zeta in *.
    rewrite week_thursday_shift in H1 by done.
    destruct (ymd_from_al_days _) as [[]]. by rewrite H1, H2.
  - pose proof (iso_week_thursday date) as H. cbv zeta in H.
    pose proof (al_days_of_ymd (week_thursday date)) as V.
    destruct (ymd_from_al_days _) as [[year month] day]. rewrite H. simpl. destruct V as [V E].
    pose proof (year_day_range _ _ _ V). rewrite E in *. lia.
  - intros year. pose proof (iso_week_thursday (al_days_from_ymd year 1 4)) as H. cbv zeta in H.
    unfold week_thursday in H. set (a := al_days_from_ymd year 1 4) in *.
    pose proof (weekday_of_range a) as W.
    assert (a - weekday_of a + 4 = al_days_from_ymd year 1 (8 - weekday_of a)) as E.
    { subst a. unfold al_days_from_ymd. rewrite !days_from_civil_linear by lia. cbv zeta. lia. }
    rewrite E, ymd_of_al_days in H.
    2: { unfold valid_ymd. change (max_day year 1) with 31. lia. }
    rewrite H. f_equal. unfold al_days_from_ymd. rewrite !days_from_civil_linear by lia. cbv zeta. lia.
Qed.


(** [add_months] moves a date by whole months: the month counted from year
    0 moves by [months], and the day stays, or becomes the last one of a
    shorter month. *)
Lemma add_months_correct year month day months :
  valid_ymd year month day ->
  let '(year', month', day') := ymd_from_al_days (add_months (al_days_from_ymd year month day) months) in
  year' * 12 + (month' - 1) = year * 12 + (month - 1) + months /\
  day' = Z.min day (max_day year' month').
Proof.
  intros V. unfold add_months. rewrite ymd_of_al_days by done. destruct V as [M D].
  set (index := year * 12 + (month - 1) + months).
  rewrite days_in_month_max by lia.
  pose proof (max_day_range (index / 12) (index mod 12 + 1)).
  rewrite ymd_of_al_days by (split; lia). split; [lia|done].
Qed.


(** The calendar computations are right.  [iso_week] is the ISO 8601 week:
    the same from Monday to Sunday, with a number between 1 and 53, and the 4th
    of January is in week 1 of its year.  [add_months] moves a date by whole
    months: the month counted from year 0 moves by [months], and the day stays,
    or becomes the last one of a shorter month. *)
Lemma calendar_arithmetic_correct :
  (forall date,
     (forall k, 1 <= weekday_of date + k <= 7 -> iso_week (date + k) = iso_week date) /\
     1 <= (iso_week date).1 <= 53 /\
     (forall year, iso_week (al_days_from_ymd year 1 4) = (1, year))) /\
  (forall year month day months, valid_ymd year month day ->
     let '(year', month', day') := ymd_from_al_days (add_months (al_days_from_ymd year month day) months) in
     year' * 12 + (month' - 1) = year * 12 + (month - 1) + months /\
     day' = Z.min day (max_day year' month')).
Proof. exact (conj iso_week_correct add_months_correct). Qed.

(** The calendar is right.  Every valid date of the proleptic Gregorian
    calendar survives the trip through its day count, every day count is the
    count of a valid date, and counts are ordered as the dates are.  No [i64]
    operation of [days_from_civil] overflows for a month, a day and a year
    within 25 * 10^15 of year 0, and the checked result is the plain one; for
    the year [i64::MAX] an operation does overflow.  [iso_week] is the ISO 8601
    week: the same from Monday to Sunday, with a number between 1 and 53, and
    the 4th of January is in week 1 of its year.  [add_months] moves a date by
    whole months: the month counted from year 0 moves by [months], and the day
    stays, or becomes the last one of a shorter month. *)
Lemma calendar_exact :
  ((forall year month day, valid_ymd year month day ->
     ymd_from_al_days (al_days_from_ymd year month day) = (year, month, day)) /\
  (forall n, let '(year, month, day) := ymd_from_al_days n in
     valid_ymd year month day /\ al_days_from_ymd year month day = n) /\
  (forall y1 m1 d1 y2 m2 d2, valid_ymd y1 m1 d1 -> valid_ymd y2 m2 d2 ->
     al_days_from_ymd y1 m1 d1 < al_days_from_ymd y2 m2 d2 <-> ymd_lt (y1, m1, d1) (y2, m2, d2)) /\
  (forall year month day,
     - civil_year_bound <= year <= civil_year_bound -> 1 <= month <= 12 -> 0 <= day <= 31 ->
     days_from_civil_checked year month day = Some (days_from_civil year month day)) /\
  days_from_civil_checked i64_max 1 1 = None) /\
  ((forall date,
     (forall k, 1 <= weekday_of date + k <= 7 -> iso_week (date + k) = iso_week date) /\
     1 <= (iso_week date).1 <= 53 /\
     (forall year, iso_week (al_days_from_ymd year 1 4) = (1, year))) /\
  (forall year month day months, valid_ymd year month day ->
     let '(year', month', day') := ymd_from_al_days (add_months (al_days_from_ymd year month day) months) in
     year' * 12 + (month' - 1) = year * 12 + (month - 1) + months /\
     day' = Z.min day (max_day year' month'))).
Proof. exact (conj al_date_bijection calendar_arithmetic_correct). Qed.
