(* ===== verification/Decimals.v ===== *)
(** The interface of [rust_decimal].

    The runtime's [Decimal] is a third-party type, so the development is
    parametric in it: class [Decimal] lists the operations the runtime calls,
    class [DecimalLaws] the documented behaviour it relies on.  The instance
    [mini_decimal] is a small decimal arithmetic (a mantissa below 2^96 and a
    scale) on which the theorems that need the laws are evaluated. *)

From Stdlib Require Import ZArith Lia.
From stdpp Require Import base tactics numbers option list.
From S2P Require Import Prelude RustStr.

#[local] Open Scope Z_scope.

Class Decimal := {
  decimal : Type;
  dec_zero : decimal;
  (** [Decimal::from] of an integer and [Decimal::new(num, scale)]. *)
  dec_from : Z -> decimal;
  dec_new : Z -> Z -> decimal;
  dec_cmp : decimal -> decimal -> comparison;
  dec_neg : decimal -> decimal;
  dec_checked_add : decimal -> decimal -> option decimal;
  dec_checked_sub : decimal -> decimal -> option decimal;
  dec_checked_mul : decimal -> decimal -> option decimal;
  dec_checked_div : decimal -> decimal -> option decimal;
  dec_normalize : decimal -> decimal;
  (** [d.fract().is_zero()] and [ToPrimitive::to_i64]. *)
  dec_is_whole : decimal -> bool;
  dec_to_i64 : decimal -> option Z;
  dec_to_str : decimal -> str;
  dec_parse : str -> option decimal;
}.

(** [==] of [Decimal], which ignores trailing zeros. *)
Definition dec_eqb {D : Decimal} (a b : decimal) : bool := is_eq (dec_cmp a b).

Class DecimalLaws (D : Decimal) : Prop := {
  dec_order :: OrderOn (fun _ => True) dec_cmp;
  dec_from_cmp : forall a b, in_i64 a = true -> in_i64 b = true ->
    dec_cmp (dec_from a) (dec_from b) = Z.compare a b;
  dec_zero_from : dec_cmp dec_zero (dec_from 0) = Eq;
  (** Decimals that hold integers of 64 bits are added exactly. *)
  dec_add_int : forall x y a b, in_i64 a = true -> in_i64 b = true -> in_i64 (a + b) = true ->
    dec_cmp x (dec_from a) = Eq -> dec_cmp y (dec_from b) = Eq ->
    exists d, dec_checked_add x y = Some d /\ dec_cmp d (dec_from (a + b)) = Eq;
}.

Section laws.
Context {D : Decimal} {DL : DecimalLaws D}.

Lemma dec_cmp_refl a : dec_cmp a a = Eq.
Proof. by apply (order_refl (P:=fun _ => True)). Qed.

Lemma dec_cmp_sym a b : dec_cmp b a = CompOpp (dec_cmp a b).
Proof. by apply order_antisym. Qed.

Lemma dec_cmp_eq_l a b c : dec_cmp a b = Eq -> dec_cmp a c = dec_cmp b c.
Proof. by apply (order_eq_l (P:=fun _ => True)). Qed.

Lemma dec_cmp_eq_r a b c : dec_cmp b c = Eq -> dec_cmp a b = dec_cmp a c.
Proof. by apply (order_eq_r (P:=fun _ => True)). Qed.
End laws.

(** * A small decimal arithmetic *)

Record scaled := Scaled { mant : Z; scale : nat }.

Definition scaled_cmp (a b : scaled) : comparison :=
  Z.compare (mant a * 10 ^ Z.of_nat (scale b)) (mant b * 10 ^ Z.of_nat (scale a)).

Fixpoint scaled_strip (s : nat) (m : Z) : scaled :=
  match s with
  | O => Scaled m 0
  | S s' => if m mod 10 =? 0 then scaled_strip s' (m / 10) else Scaled m s
  end.

Definition scaled_checked (m : Z) (s : nat) : option scaled :=
  let a := scaled_strip s m in
  if Z.abs (mant a) <? 2 ^ 96 then Some a else None.

Definition scaled_lift (f : Z -> Z -> Z) (a b : scaled) : option scaled :=
  let s := Nat.max (scale a) (scale b) in
  let m := f (mant a * 10 ^ Z.of_nat (s - scale a)) (mant b * 10 ^ Z.of_nat (s - scale b)) in
  scaled_checked m s.

Definition scaled_to_str (a : scaled) : str :=
  let p := 10 ^ Z.of_nat (scale a) in
  let n := Z.abs (mant a) in
  (if mant a <? 0 then [45] else []) ++ u64_to_str (n / p) ++
  match scale a with
  | O => []
  | s => 46 :: pad_zeros s (u64_to_str (n mod p))
  end.

Fixpoint split_dot (s : str) : str * option str :=
  match s with
  | [] => ([], None)
  | c :: s' => if c =? 46 then ([], Some s')
               else let '(a, b) := split_dot s' in (c :: a, b)
  end.

Definition scaled_parse (s : str) : option scaled :=
  let '(neg, ds) := match s with
    | c :: r => if c =? 45 then (true, r) else if c =? 43 then (false, r) else (false, s)
    | [] => (false, [])
    end in
  let '(ip, fp) := split_dot ds in
  let frac := default [] fp in
  n ← parse_nat (ip ++ frac);
  scaled_checked (if (neg : bool) then - n else n) (length frac).

Definition mini_decimal : Decimal := {|
  decimal := scaled;
  dec_zero := Scaled 0 0;
  dec_from n := Scaled n 0;
  dec_new n s := Scaled n (Z.to_nat s);
  dec_cmp := scaled_cmp;
  dec_neg a := Scaled (- mant a) (scale a);
  dec_checked_add := scaled_lift Z.add;
  dec_checked_sub := scaled_lift Z.sub;
  dec_checked_mul a b := scaled_checked (mant a * mant b) (scale a + scale b);
  dec_checked_div a b :=
    if mant b =? 0 then None
    else scaled_checked (Z.quot (mant a * 10 ^ (Z.of_nat (scale b) + 9))
                                (mant b * 10 ^ Z.of_nat (scale a))) 9;
  dec_normalize a := scaled_strip (scale a) (mant a);
  dec_is_whole a := mant a mod 10 ^ Z.of_nat (scale a) =? 0;
  dec_to_i64 a := checked_i64 (Z.quot (mant a) (10 ^ Z.of_nat (scale a)));
  dec_to_str := scaled_to_str;
  dec_parse := scaled_parse;
|}.

Lemma pow10_pos n : 0 < 10 ^ Z.of_nat n.
Proof. apply Z.pow_pos_nonneg; lia. Qed.

Lemma compare_scale p a b : 0 < p -> Z.compare (a * p) (b * p) = Z.compare a b.
Proof.
  intros Hp. destruct (Z.compare_spec a b) as [->| |];
    [apply Z.compare_refl|rewrite Z.compare_lt_iff; nia|rewrite Z.compare_gt_iff; nia].
Qed.

#[export] Instance scaled_order : OrderOn (fun _ => True) scaled_cmp.
Proof.
  unfold scaled_cmp. split.
  - intros x y _ _. apply Z.compare_antisym.
  - intros c x y z _ _ _ Hxy Hyz.
    pose proof (pow10_pos (scale x)) as Px. pose proof (pow10_pos (scale y)) as Py.
    pose proof (pow10_pos (scale z)) as Pz.
    revert Hxy Hyz Px Py Pz. generalize (mant x) (mant y) (mant z).
    generalize (10 ^ Z.of_nat (scale x)) (10 ^ Z.of_nat (scale y)) (10 ^ Z.of_nat (scale z)).
    intros px py pz mx my mz Hxy Hyz Px Py Pz.
    rewrite <- (compare_scale pz) in Hxy by done. rewrite <- (compare_scale px) in Hyz by done.
    rewrite <- (compare_scale py) by done.
    replace (my * pz * px) with (my * px * pz) in Hyz by lia.
    replace (mx * pz * py) with (mx * py * pz) by lia.
    replace (mz * px * py) with (mz * py * px) by lia.
    by apply (order_trans (cmp:=Z.compare) c _ _ _ I I I Hxy Hyz).
Qed.

Lemma scaled_strip_exact s n : scaled_strip s (n * 10 ^ Z.of_nat s) = Scaled n 0.
Proof.
  revert n. induction s as [|s IH]; intros n; simpl.
  - by rewrite Z.mul_1_r.
  - rewrite Nat2Z.inj_succ, Z.pow_succ_r by lia.
    replace (n * (10 * 10 ^ Z.of_nat s)) with (n * 10 ^ Z.of_nat s * 10) by lia.
    by rewrite Z_mod_mult, Z.div_mul, IH.
Qed.

Lemma scaled_cmp_int x a : scaled_cmp x (Scaled a 0) = Eq <-> mant x = a * 10 ^ Z.of_nat (scale x).
Proof. unfold scaled_cmp. simpl. by rewrite Z.compare_eq_iff, Z.mul_1_r. Qed.

Lemma align_int m a s s' : (s <= s')%nat -> m = a * 10 ^ Z.of_nat s ->
  m * 10 ^ Z.of_nat (s' - s) = a * 10 ^ Z.of_nat s'.
Proof.
  intros Hs ->. rewrite <- Z.mul_assoc, <- Z.pow_add_r by lia. do 2 f_equal. lia.
Qed.

Lemma mini_decimal_laws : DecimalLaws mini_decimal.
Proof.
  split.
  - apply scaled_order.
  - intros a b _ _. simpl. unfold scaled_cmp. simpl. by rewrite !Z.mul_1_r.
  - done.
  - intros x y a b Ha Hb Hab Hx Hy. simpl in *.
    apply scaled_cmp_int in Hx. apply scaled_cmp_int in Hy.
    unfold scaled_lift, scaled_checked.
    rewrite (align_int _ a), (align_int _ b), <- Z.mul_add_distr_r, scaled_strip_exact by (done || lia).
    apply in_i64_spec in Hab. unfold_ints. simpl.
    destruct (Z.ltb_spec (Z.abs (a + b)) (2 ^ 96)); [|lia].
    exists (Scaled (a + b) 0). split; [done|]. apply scaled_cmp_int. simpl. lia.
Qed.
