(* ===== verification/Values.v ===== *)
(** AL runtime values ([interpreter/value.rs]).

    The value type, the shared heap its reference values point into, and the
    comparison walk.

    [List], [Dictionary] and [TextBuilder] values are handles ([Arc]s): copies
    share the contents, so a handle is an address and the contents live in a
    [heap].  The comparison walks nested values with an explicit stack and a
    set of address pairs it has met, since a list can hold itself. *)

From Stdlib Require Import ZArith Lia.
From stdpp Require Import base tactics numbers option list gmap strings.
From S2P Require Import Prelude RustStr Decimals.

#[local] Open Scope Z_scope.

(** * Values *)

#[local] Set Warnings "-register-all".

Inductive JsonKind := JObject | JArray | JToken | JValue.
Record JsonRef := { kind : JsonKind; jhandle : option Z }.

(** [RecordValue]: a handle into the table store. *)
Record RecordValue := {
  rv_table_name : str;
  rv_table_id : Z;
  rv_handle : option Z;
  temporary : bool;
}.

Record ErrorInfo := {
  message : str;
  error_type : option str;
  source : option str;
}.

(** [Collection<T>]: the address of the shared contents and the declared
    member and value types. *)
Record Collection := {
  contents : Z;
  member_type : option str;
  value_type : option str;
}.

Section value.
Context {D : Decimal}.

Inductive Value :=
  | VNull
  | VEmpty
  | VInteger (n : Z)
  | VDecimal (d : decimal)
  | VBoolean (b : bool)
  | VChar (c : char)
  | VText (s : str)
  | VCode (s : str)
  | VTextBuilder (addr : Z)
  | VJson (j : JsonRef)
  | VDate (d : Z)
  | VTime (t : Z)
  | VDateTime (t : Z)
  | VDuration (ms : Z)
  | VGuid (s : str)
  | VOption (type_name member : str) (ordinal : Z)
  | VRecord (r : RecordValue)
  | VRecordRef (r : RecordValue)
  | VVariant (v : Value)
  | VArray (l : list Value)
  | VList (c : Collection)
  | VDict (c : Collection)
  | VBlob (bytes : list Z)
  | VErrorInfo (e : ErrorInfo)
  | VCodeunit (object_name : str) (instance : option Z)
  | VBigInteger (n : Z)
  | VRange (start end_ : Value).

(** What an address holds: a List's values, a Dictionary's entries in
    insertion order (normalised key text, key, value), or a text. *)
Inductive Contents :=
  | CList (l : list Value)
  | CDict (l : list (str * (Value * Value)))
  | CText (s : str).
End value.

Abbreviation heap := (gmap Z Contents).

(** * Comparison *)

Section compare.
Context {D : Decimal}.

(** [snapshot] of each kind of contents. *)
Definition list_at (h : heap) (a : Z) : list Value :=
  match h !! a with Some (CList l) => l | _ => [] end.
Definition dict_at (h : heap) (a : Z) : list (str * (Value * Value)) :=
  match h !! a with Some (CDict l) => l | _ => [] end.
Definition text_at (h : heap) (a : Z) : str :=
  match h !! a with Some (CText s) => s | _ => [] end.

(** [entries_in_order]. *)
Definition entries_in_order (h : heap) (a : Z) : list Value :=
  dict_at h a ≫= fun e => [e.2.1; e.2.2].

Inductive Step :=
  | Done (c : comparison)
  | Descend (l r : list Value).

Definition variant_index (v : Value) : Z :=
  match v with
  | VNull => 0
  | VEmpty => 1
  | VInteger _ | VBigInteger _ => 2
  | VDecimal _ => 3
  | VBoolean _ => 4
  | VChar _ => 5
  | VText _ => 6
  | VCode _ => 7
  | VDate _ => 8
  | VTime _ => 9
  | VDateTime _ => 10
  | VDuration _ => 11
  | VGuid _ => 12
  | VOption _ _ _ => 13
  | VRecord _ => 14
  | VRecordRef _ => 15
  | VVariant _ => 16
  | VArray _ => 17
  | VList _ => 18
  | VDict _ => 19
  | VBlob _ => 20
  | VErrorInfo _ => 21
  | VCodeunit _ _ => 22
  | VRange _ _ => 23
  | VTextBuilder _ => 24
  | VJson _ => 25
  end.

Definition kind_index (k : JsonKind) : Z :=
  match k with JObject => 0 | JArray => 1 | JToken => 2 | JValue => 3 end.

Definition json_cmp (a b : JsonRef) : comparison :=
  cmp_then (Z.compare (kind_index (kind a)) (kind_index (kind b)))
           (option_cmp Z.compare (jhandle a) (jhandle b)).

Definition record_cmp (a b : RecordValue) : comparison :=
  cmp_then (Z.compare (rv_table_id a) (rv_table_id b))
    (cmp_then (str_cmp (rv_table_name a) (rv_table_name b))
      (option_cmp Z.compare (rv_handle a) (rv_handle b))).

Abbreviation MetPairs := (gset (Z * Z)).

(** The contents of two addresses are walked unless the pair was met. *)
Definition descend_shared (met : MetPairs) (a b : Z) (l r : list Value) : Step * MetPairs :=
  if bool_decide (a = b) then (Done Eq, met)
  else if bool_decide ((a, b) ∈ met) then (Done Eq, met)
  else (Descend l r, {[(a, b)]} ∪ met).

Definition compare_one (h : heap) (lv rv : Value) (met : MetPairs) : Step * MetPairs :=
  let mine := variant_index lv in
  let theirs := variant_index rv in
  if negb (mine =? theirs) then (Done (Z.compare mine theirs), met)
  else match lv, rv with
  | (VInteger a | VBigInteger a), (VInteger b | VBigInteger b) => (Done (Z.compare a b), met)
  | VDecimal a, VDecimal b => (Done (dec_cmp a b), met)
  | VBoolean a, VBoolean b => (Done (bool_cmp a b), met)
  | VChar a, VChar b => (Done (Z.compare a b), met)
  | VText a, VText b | VCode a, VCode b | VGuid a, VGuid b => (Done (str_cmp a b), met)
  | VTextBuilder a, VTextBuilder b =>
      (Done (if bool_decide (a = b) then Eq else str_cmp (text_at h a) (text_at h b)), met)
  | VDate a, VDate b | VTime a, VTime b | VDateTime a, VDateTime b
  | VDuration a, VDuration b => (Done (Z.compare a b), met)
  | VJson a, VJson b => (Done (json_cmp a b), met)
  | VOption at_ am ao, VOption bt bm bo =>
      (Done (cmp_then (Z.compare ao bo) (cmp_then (str_cmp at_ bt) (str_cmp am bm))), met)
  | VRecord a, VRecord b | VRecordRef a, VRecordRef b => (Done (record_cmp a b), met)
  | VVariant a, VVariant b => (Descend [a] [b], met)
  | VArray a, VArray b => (Descend a b, met)
  | VList a, VList b =>
      descend_shared met (contents a) (contents b)
        (list_at h (contents a)) (list_at h (contents b))
  | VDict a, VDict b =>
      descend_shared met (contents a) (contents b)
        (entries_in_order h (contents a)) (entries_in_order h (contents b))
  | VBlob a, VBlob b => (Done (list_cmp Z.compare a b), met)
  | VErrorInfo a, VErrorInfo b => (Done (str_cmp (message a) (message b)), met)
  | VCodeunit a ai, VCodeunit b bi =>
      (Done (cmp_then (str_cmp a b) (option_cmp Z.compare ai bi)), met)
  | VRange a1 a2, VRange b1 b2 => (Descend [a1; a2] [b1; b2], met)
  | _, _ => (Done Eq, met)
  end.

(** The loop of [compare].  [cancelled i] is what the [i]-th poll of
    [thread_cancelled] reads; [None] is running out of fuel. *)
Fixpoint compare_loop (h : heap) (cancelled : nat -> bool) (fuel i : nat)
    (pending : list (list Value * list Value)) (met : MetPairs) : option comparison :=
  match fuel with
  | O => None
  | S fuel =>
      match pending with
      | [] => Some Eq
      | (ls, rs) :: rest =>
          if cancelled i then Some Eq
          else match ls, rs with
          | [], [] => compare_loop h cancelled fuel (S i) rest met
          | [], _ :: _ => Some Lt
          | _ :: _, [] => Some Gt
          | a :: ls, b :: rs =>
              match compare_one h a b met with
              | (Done Eq, met) => compare_loop h cancelled fuel (S i) ((ls, rs) :: rest) met
              | (Done different, _) => Some different
              | (Descend l r, met) =>
                  compare_loop h cancelled fuel (S i) ((l, r) :: (ls, rs) :: rest) met
              end
          end
      end
  end.

(** ** Fuel

    A step either pops a sequence, consumes a value or enters contents not
    met before; the bound counts the values that can be consumed. *)

Fixpoint vsize (v : Value) : nat :=
  match v with
  | VVariant v => 2 + vsize v
  | VArray l => 2 + sum_list (vsize <$> l)
  | VRange a b => 2 + (vsize a + vsize b)
  | VList _ | VDict _ => 2
  | _ => 1
  end.

Fixpoint addrs (v : Value) : list Z :=
  match v with
  | VVariant v => addrs v
  | VArray l => concat (addrs <$> l)
  | VRange a b => addrs a ++ addrs b
  | VList c | VDict c => [contents c]
  | _ => []
  end.

Definition values_size (l : list Value) : nat := sum_list (vsize <$> l).
Definition values_addrs (l : list Value) : list Z := concat (addrs <$> l).

(** The values a cell of the heap holds. *)
Definition cell_values (c : Contents) : list Value :=
  match c with
  | CList l => l
  | CDict l => l ≫= fun e => [e.2.1; e.2.2]
  | CText _ => []
  end.

Definition heap_values (h : heap) : list Value := (map_to_list h).*2 ≫= cell_values.

Definition pending_size (pending : list (list Value * list Value)) : nat :=
  sum_list ((fun lr => 1 + values_size lr.1)%nat <$> pending).

Definition address_pairs (h : heap) (l r : list Value) : gset (Z * Z) :=
  let u := values_addrs (heap_values h) ++ values_addrs l ++ values_addrs r in
  list_to_set (cprod u u).

Definition compare_fuel (h : heap) (l r : list Value) : nat :=
  S (size (address_pairs h l r) * S (values_size (heap_values h)) + pending_size [(l, r)]).

Definition compare (h : heap) (cancelled : nat -> bool) (lv rv : Value) : comparison :=
  match compare_one h lv rv ∅ with
  | (Done c, _) => c
  | (Descend l r, met) =>
      default Eq (compare_loop h cancelled (compare_fuel h l r) 0 [(l, r)] met)
  end.
End compare.

(** * The comparison terminates and is an order *)

Section compare_facts.
Context {D : Decimal}.

Implicit Types (h : heap) (met : gset (Z * Z)) (l r : list Value).
Implicit Types (cancelled : nat -> bool) (fuel i : nat).

Lemma values_size_app l k : values_size (l ++ k) = (values_size l + values_size k)%nat.
Proof. unfold values_size. by rewrite fmap_app, sum_list_with_app. Qed.

Lemma values_addrs_app l k : values_addrs (l ++ k) = values_addrs l ++ values_addrs k.
Proof. unfold values_addrs. by rewrite fmap_app, concat_app. Qed.

(** The contents of a cell are part of the heap's values. *)
Lemma cell_in_heap h a c :
  h !! a = Some c -> exists l1 l2, heap_values h = l1 ++ cell_values c ++ l2.
Proof.
  intros H. apply elem_of_map_to_list in H. apply list_elem_of_split in H as (l1 & l2 & E).
  unfold heap_values. rewrite E, fmap_app, bind_app. simpl. eauto.
Qed.

Lemma list_at_cell h a : list_at h a = [] \/ exists c, h !! a = Some c /\ list_at h a = cell_values c.
Proof. unfold list_at. destruct (h !! a) as [[]|] eqn:E; eauto. Qed.

Lemma dict_at_cell h a :
  entries_in_order h a = [] \/ exists c, h !! a = Some c /\ entries_in_order h a = cell_values c.
Proof. unfold entries_in_order, dict_at. destruct (h !! a) as [[]|] eqn:E; eauto. Qed.

(** A shared sequence: what [Descend] reads from the heap. *)
Definition from_heap h l : Prop :=
  l = [] \/ exists a c, h !! a = Some c /\ l = cell_values c.

Lemma from_heap_size h l : from_heap h l -> (values_size l <= values_size (heap_values h))%nat.
Proof.
  intros [->|(a & c & H & ->)]; [unfold values_size; simpl; lia|].
  destruct (cell_in_heap h a c H) as (l1 & l2 & ->). rewrite !values_size_app. lia.
Qed.

Lemma from_heap_addrs h l : from_heap h l -> values_addrs l ⊆ values_addrs (heap_values h).
Proof.
  intros [->|(a & c & H & ->)]; [set_solver|].
  destruct (cell_in_heap h a c H) as (l1 & l2 & ->). rewrite !values_addrs_app. set_solver.
Qed.

Lemma from_heap_list h a : from_heap h (list_at h a).
Proof. destruct (list_at_cell h a) as [|(c & ? & ?)]; [by left|right; eauto]. Qed.

Lemma from_heap_dict h a : from_heap h (entries_in_order h a).
Proof. destruct (dict_at_cell h a) as [|(c & ? & ?)]; [by left|right; eauto]. Qed.

Lemma vsize_pos v : (0 < vsize v)%nat.
Proof. destruct v; simpl; lia. Qed.

(** What one comparison step may do to the walk. *)
Inductive step_kind h met (a b : Value) : Step * gset (Z * Z) -> Prop :=
  | step_done c : step_kind h met a b (Done c, met)
  | step_nested l r :
      (S (values_size l) < vsize a)%nat ->
      values_addrs l ⊆ addrs a -> values_addrs r ⊆ addrs b ->
      step_kind h met a b (Descend l r, met)
  | step_shared p l r :
      (2 <= vsize a)%nat -> p.1 ∈ addrs a -> p.2 ∈ addrs b -> p ∉ met ->
      from_heap h l -> from_heap h r ->
      step_kind h met a b (Descend l r, {[p]} ∪ met).

Lemma descend_shared_kind h met a b v w l r :
  (2 <= vsize v)%nat -> a ∈ addrs v -> b ∈ addrs w -> from_heap h l -> from_heap h r ->
  step_kind h met v w (descend_shared met a b l r).
Proof.
  intros. unfold descend_shared. do 2 (case_bool_decide; [constructor|]).
  by apply (step_shared h met v w (a, b)).
Qed.

Lemma compare_one_kind h met a b : step_kind h met a b (compare_one h a b met).
Proof.
  unfold compare_one. destruct (negb _); [constructor|].
  destruct a; try (destruct b; constructor; fail).
  - destruct b; try constructor; unfold values_addrs, values_size; simpl; rewrite ?app_nil_r; try lia; set_solver.
  - destruct b; try constructor; unfold values_addrs, values_size; simpl; try lia; set_solver.
  - destruct b; try constructor. apply descend_shared_kind; simpl;
      (lia || set_solver || apply from_heap_list).
  - destruct b; try constructor. apply descend_shared_kind; simpl;
      (lia || set_solver || apply from_heap_dict).
  - destruct b; try constructor; unfold values_addrs, values_size; simpl; rewrite ?app_nil_r; try lia; set_solver.
Qed.

Definition pending_addrs (pending : list (list Value * list Value)) : list Z :=
  pending ≫= fun lr => values_addrs lr.1 ++ values_addrs lr.2.

Lemma pending_size_cons l r rest :
  pending_size ((l, r) :: rest) = S (values_size l + pending_size rest).
Proof. done. Qed.

Lemma values_size_cons v l : values_size (v :: l) = (vsize v + values_size l)%nat.
Proof. done. Qed.

Lemma met_decreases (all met : gset (Z * Z)) p :
  p ∈ all -> p ∉ met -> size (all ∖ met) = S (size (all ∖ ({[p]} ∪ met))).
Proof.
  intros Hp Hm.
  assert (all ∖ met = {[p]} ∪ all ∖ ({[p]} ∪ met)) as ->.
  { apply set_eq. intros q. destruct (decide (q = p)); set_solver. }
  rewrite size_union by set_solver. by rewrite size_singleton.
Qed.

Lemma app_subseteq (l k u : list Z) : l ⊆ u -> k ⊆ u -> l ++ k ⊆ u.
Proof. intros Hl Hk x [|]%elem_of_app; auto. Qed.

(** With more fuel than the potential, the walk gives an answer. *)
Lemma compare_loop_total h cancelled (u : list Z) (all : gset (Z * Z)) fuel i pending met :
  (forall a b, a ∈ u -> b ∈ u -> (a, b) ∈ all) ->
  values_addrs (heap_values h) ⊆ u -> pending_addrs pending ⊆ u ->
  (size (all ∖ met) * S (values_size (heap_values h)) + pending_size pending < fuel)%nat ->
  is_Some (compare_loop h cancelled fuel i pending met).
Proof.
  intros Hall Hheap. revert i pending met.
  induction fuel as [|fuel IH]; intros i pending met Hp Hf; [lia|]. simpl.
  destruct pending as [|[ls rs] rest]; [done|]. destruct (cancelled i); [done|].
  rewrite pending_size_cons in Hf. unfold pending_addrs in *. simpl in Hp.
  destruct ls as [|a ls], rs as [|b rs]; [apply IH; [set_solver|]|done..|].
  { change (values_size []) with 0%nat in Hf. set (_ * _)%nat in *. lia. }
  rewrite values_size_cons in Hf. pose proof (vsize_pos a).
  assert (addrs a ⊆ u /\ addrs b ⊆ u /\ values_addrs ls ⊆ u /\ values_addrs rs ⊆ u
    /\ pending_addrs rest ⊆ u) as (Ha & Hb & Hls & Hrs & Hrest)
    by (unfold values_addrs, pending_addrs in *; simpl in Hp; set_solver).
  destruct (compare_one_kind h met a b) as [c|l r Hsz Hl Hr|p l r Hsz Hpa Hpb Hnew Hl Hr].
  - destruct c; [apply IH|done|done].
    + simpl. repeat apply app_subseteq; done.
    + rewrite pending_size_cons. clear -Hf H. set (_ * _)%nat in *. lia.
  - apply IH.
    + simpl. repeat apply app_subseteq; (done || by etrans).
    + rewrite !pending_size_cons. clear -Hf H Hsz. set (_ * _)%nat in *. lia.
  - pose proof (from_heap_addrs _ _ Hl). pose proof (from_heap_addrs _ _ Hr).
    pose proof (from_heap_size _ _ Hl).
    assert (p ∈ all) by (destruct p; apply Hall; [apply Ha, Hpa|apply Hb, Hpb]).
    rewrite (met_decreases all met p) in Hf by done. apply IH.
    + simpl. repeat apply app_subseteq; (done || by etrans).
    + rewrite !pending_size_cons. rewrite Nat.mul_succ_l in Hf. clear -Hf Hsz H2.
      set (_ * _)%nat in *. lia.
Qed.

Lemma compare_fuel_enough h cancelled l r met :
  is_Some (compare_loop h cancelled (compare_fuel h l r) 0 [(l, r)] met).
Proof.
  set (u := values_addrs (heap_values h) ++ values_addrs l ++ values_addrs r).
  apply (compare_loop_total h cancelled u (address_pairs h l r)).
  - intros a b Ha Hb. unfold address_pairs. apply elem_of_list_to_set, list_elem_of_cprod. done.
  - set_solver.
  - unfold pending_addrs. simpl. set_solver.
  - unfold compare_fuel.
    assert (size (address_pairs h l r ∖ met) <= size (address_pairs h l r))%nat
      by (apply subseteq_size; set_solver).
    apply Nat.lt_succ_r, Nat.add_le_mono_r, Nat.mul_le_mono_r. done.
Qed.

Lemma compare_loop_mono h cancelled fuel fuel' i pending met c :
  (fuel <= fuel')%nat -> compare_loop h cancelled fuel i pending met = Some c ->
  compare_loop h cancelled fuel' i pending met = Some c.
Proof.
  revert fuel' i pending met. induction fuel as [|fuel IH]; intros [|fuel'] i pending met Hle;
    simpl; [done|done|lia|].
  destruct pending as [|[[|a ls] [|b rs]] rest]; try done; (destruct (cancelled i); [done|]);
    [apply IH; lia|done..|].
  destruct (compare_one h a b met) as [[[]|] met']; try done; apply IH; lia.
Qed.

(** ** Reflexivity *)

Context {DL : DecimalLaws D}.

Lemma option_cmp_refl (a : option Z) : option_cmp Z.compare a a = Eq.
Proof. destruct a; simpl; [apply Z.compare_refl|done]. Qed.

Lemma record_cmp_refl a : record_cmp a a = Eq.
Proof. unfold record_cmp. by rewrite Z.compare_refl, str_cmp_refl, option_cmp_refl. Qed.

Lemma blob_cmp_refl (a : list Z) : list_cmp Z.compare a a = Eq.
Proof. apply str_cmp_refl. Qed.

Lemma compare_one_refl h met a :
  compare_one h a a met = (Done Eq, met) \/ exists l, compare_one h a a met = (Descend l l, met).
Proof.
  unfold compare_one. rewrite Z.eqb_refl. simpl.
  destruct a; eauto; left; f_equal; f_equal;
    rewrite ?Z.compare_refl, ?str_cmp_refl, ?dec_cmp_refl, ?record_cmp_refl, ?blob_cmp_refl,
      ?option_cmp_refl; try done.
  - by destruct b.
  - by rewrite bool_decide_true.
  - unfold json_cmp. by rewrite Z.compare_refl, option_cmp_refl.
  - unfold descend_shared. by rewrite bool_decide_true.
  - unfold descend_shared. by rewrite bool_decide_true.
Qed.

Lemma compare_loop_refl h cancelled fuel i pending met c :
  Forall (fun lr => lr.1 = lr.2) pending ->
  compare_loop h cancelled fuel i pending met = Some c -> c = Eq.
Proof.
  revert i pending met. induction fuel as [|fuel IH]; intros i pending met Hp; simpl; [done|].
  destruct Hp as [|[ls rs] rest Hlr Hrest]; [congruence|]. simpl in Hlr. subst rs.
  destruct (cancelled i); [congruence|]. destruct ls as [|a ls]; [by apply IH|].
  destruct (compare_one_refl h met a) as [->|[l ->]]; apply IH; by repeat constructor.
Qed.

Lemma compare_refl h cancelled v : compare h cancelled v v = Eq.
Proof.
  unfold compare. destruct (compare_one_refl h ∅ v) as [->|[l ->]]; [done|].
  destruct (compare_fuel_enough h cancelled l l ∅) as [c Hc]. rewrite Hc. simpl.
  apply (compare_loop_refl h cancelled _ _ _ _ _) in Hc; [done|]. by repeat constructor.
Qed.

(** ** Antisymmetry *)

Lemma option_cmp_sym (a b : option Z) :
  option_cmp Z.compare b a = CompOpp (option_cmp Z.compare a b).
Proof. destruct a, b; simpl; [apply Z.compare_antisym|done..]. Qed.

Lemma str_cmp_sym a b : str_cmp b a = CompOpp (str_cmp a b).
Proof. by apply order_antisym. Qed.

Lemma cmp_then_opp c d : CompOpp (cmp_then c d) = cmp_then (CompOpp c) (CompOpp d).
Proof. by destruct c. Qed.

Definition mirrored (met met' : gset (Z * Z)) : Prop := forall x y, (x, y) ∈ met <-> (y, x) ∈ met'.

(** The two results of comparing a pair and the swapped pair. *)
Definition mirror_steps met met' (s s' : Step * gset (Z * Z)) : Prop :=
  match s, s' with
  | (Done c, m), (Done c', m') => c' = CompOpp c /\ mirrored m m'
  | (Descend l r, m), (Descend l' r', m') => l' = r /\ r' = l /\ mirrored m m'
  | _, _ => False
  end.

Lemma descend_shared_mirror met met' a b l r :
  mirrored met met' ->
  mirror_steps met met' (descend_shared met a b l r) (descend_shared met' b a r l).
Proof.
  intros Hm. unfold descend_shared. destruct (decide (a = b)) as [->|].
  { by rewrite !bool_decide_true. }
  rewrite !(bool_decide_false (_ = _)) by congruence.
  rewrite (bool_decide_ext ((b, a) ∈ met') ((a, b) ∈ met)) by (symmetry; apply Hm).
  case_bool_decide; [done|]. simpl. split_and!; [done..|]. intros x y. specialize (Hm x y). set_solver.
Qed.

Lemma compare_one_mirror h a b met met' :
  mirrored met met' -> mirror_steps met met' (compare_one h a b met) (compare_one h b a met').
Proof.
  intros Hm. unfold compare_one. rewrite (Z.eqb_sym (variant_index b)).
  destruct (Z.eqb_spec (variant_index a) (variant_index b)) as [Hi|]; simpl.
  2: { split; [apply Z.compare_antisym|done]. }
  destruct a; destruct b; try discriminate Hi; clear Hi; simpl;
    try (apply descend_shared_mirror; done); try (split_and!; done); split; try done;
    unfold json_cmp, record_cmp; rewrite ?cmp_then_opp;
    rewrite <- ?Z.compare_antisym, <- ?str_cmp_sym, <- ?option_cmp_sym, <- ?dec_cmp_sym; try done.
  - by destruct b, b0.
  - rewrite (bool_decide_ext (addr0 = addr) (addr = addr0)) by naive_solver.
    case_bool_decide; [done|apply str_cmp_sym].
Qed.

Lemma compare_loop_mirror h cancelled fuel i pending met met' :
  mirrored met met' ->
  compare_loop h cancelled fuel i ((fun lr => (lr.2, lr.1)) <$> pending) met'
  = CompOpp <$> compare_loop h cancelled fuel i pending met.
Proof.
  revert i pending met met'. induction fuel as [|fuel IH]; intros i pending met met' Hm; [done|].
  simpl. destruct pending as [|[[|a ls] [|b rs]] rest]; simpl; [done|..];
    (destruct (cancelled i); [done|]); [by apply IH|done..|].
  pose proof (compare_one_mirror h a b met met' Hm) as Hs.
  destruct (compare_one h a b met) as [[c|l r] m], (compare_one h b a met') as [[c'|l' r'] m'];
    simpl in Hs; try done.
  - destruct Hs as [-> Hm']. destruct c; simpl; [|done..].
    by apply (IH (S i) ((ls, rs) :: rest)).
  - destruct Hs as (-> & -> & Hm'). by apply (IH (S i) ((l, r) :: (ls, rs) :: rest)).
Qed.

Lemma compare_antisym h cancelled a b :
  compare h cancelled b a = CompOpp (compare h cancelled a b).
Proof.
  unfold compare. pose proof (compare_one_mirror h a b ∅ ∅ ltac:(done)) as Hs.
  destruct (compare_one h a b ∅) as [[c|l r] m], (compare_one h b a ∅) as [[c'|l' r'] m'];
    simpl in Hs; try done; [by destruct Hs|]. destruct Hs as (-> & -> & Hm).
  destruct (compare_fuel_enough h cancelled l r m) as [c Hc].
  destruct (compare_fuel_enough h cancelled r l m') as [c' Hc']. rewrite Hc, Hc'. simpl.
  set (f := Nat.max (compare_fuel h l r) (compare_fuel h r l)).
  apply (compare_loop_mono _ _ _ f) in Hc; [|lia]. apply (compare_loop_mono _ _ _ f) in Hc'; [|lia].
  pose proof (compare_loop_mirror h cancelled f 0 [(l, r)] m m' Hm) as E.
  change (_ <$> [(l, r)]) with [(r, l)] in E.
  rewrite Hc, Hc' in E. by simplify_eq/=.
Qed.

(** ** Scalars

    On values that hold no others the comparison is that of a key: the
    variant index, then the payload. *)

Inductive Atom := AZ (z : Z) | AS (s : str) | AD (d : decimal).

Definition atom_cmp (a b : Atom) : comparison :=
  match a, b with
  | AZ x, AZ y => Z.compare x y
  | AS x, AS y => str_cmp x y
  | AD x, AD y => dec_cmp x y
  | AZ _, _ => Lt
  | AS _, AZ _ => Gt
  | AS _, AD _ => Lt
  | AD _, _ => Gt
  end.

#[local] Instance atom_order : OrderOn (fun _ => True) atom_cmp.
Proof.
  split.
  - intros [] [] _ _; simpl; try done; [apply Z.compare_antisym|apply str_cmp_sym|apply dec_cmp_sym].
  - intros c [x|x|x] [y|y|y] [z|z|z] _ _ _; simpl; try congruence;
      [apply (order_trans (cmp:=Z.compare))|apply (order_trans (cmp:=str_cmp))
      |apply (order_trans (cmp:=dec_cmp))]; done.
Qed.

Definition opt_atoms (o : option Z) : list Atom :=
  match o with None => [AZ 0] | Some n => [AZ 1; AZ n] end.

Definition payload (v : Value) : list Atom :=
  match v with
  | VInteger n | VBigInteger n | VDate n | VTime n | VDateTime n | VDuration n | VChar n => [AZ n]
  | VDecimal d => [AD d]
  | VBoolean b => [AZ (Z.b2z b)]
  | VText s | VCode s | VGuid s | VBlob s => [AS s]
  | VOption t m o => [AZ o; AS t; AS m]
  | VRecord r | VRecordRef r => AZ (rv_table_id r) :: AS (rv_table_name r) :: opt_atoms (rv_handle r)
  | VErrorInfo e => [AS (message e)]
  | VCodeunit s i => AS s :: opt_atoms i
  | VJson j => AZ (kind_index (kind j)) :: opt_atoms (jhandle j)
  | _ => []
  end.

(** A value that holds no other value: every value a primary key may have. *)
Definition scalar (v : Value) : Prop :=
  match v with
  | VVariant _ | VArray _ | VRange _ _ | VList _ | VDict _ | VTextBuilder _ => False
  | _ => True
  end.

#[export] Instance scalar_dec v : Decision (scalar v).
Proof. destruct v; simpl; apply _. Defined.

Lemma opt_atoms_cmp a b : list_cmp atom_cmp (opt_atoms a) (opt_atoms b) = option_cmp Z.compare a b.
Proof. destruct a, b; simpl; try done. by destruct (Z.compare z z0). Qed.

Lemma cmp_then_eq_r c : cmp_then c Eq = c.
Proof. by destruct c. Qed.

Definition scalar_key (v : Value) : list Atom := AZ (variant_index v) :: payload v.

Lemma compare_scalar h cancelled a b :
  scalar a -> scalar b ->
  compare h cancelled a b = list_cmp atom_cmp (scalar_key a) (scalar_key b).
Proof.
  intros Ha Hb. unfold compare, compare_one, scalar_key. simpl list_cmp.
  destruct (Z.eqb_spec (variant_index a) (variant_index b)) as [Hi|Hi]; simpl negb; cbv iota.
  - rewrite Hi, Z.compare_refl. simpl.
    destruct a; try done; destruct b; try done; simpl; rewrite ?cmp_then_eq_r, ?opt_atoms_cmp; try done.
    by destruct b0, b.
  - destruct (Z.compare_spec (variant_index a) (variant_index b)); done.
Qed.

Lemma scalar_order h cancelled : OrderOn scalar (compare h cancelled).
Proof.
  split.
  - intros a b _ _. apply compare_antisym.
  - intros c a b d Ha Hb Hd. rewrite !compare_scalar by done.
    apply (order_trans (P:=Forall (fun _ => True)) c); by apply Forall_true.
Qed.
End compare_facts.

(** * The interface to the record store

    The store orders keys and compares cells through [vcmp]; its theorems need
    it to be an order on scalars, with the facts about single variants the
    store relies on. *)

Class ValueOrder {D : Decimal} := vcmp : Value -> Value -> comparison.

Class ValueOrderLaws {D : Decimal} (V : ValueOrder) : Prop := {
  vcmp_order :: OrderOn scalar vcmp;
  vcmp_decimal : forall a b, vcmp (VDecimal a) (VDecimal b) = dec_cmp a b;
  vcmp_code : forall a b, vcmp (VCode a) (VCode b) = str_cmp a b;
}.

Definition heap_order {D : Decimal} (h : heap) (cancelled : nat -> bool) : ValueOrder :=
  compare h cancelled.

#[export] Instance heap_order_laws {D : Decimal} {DL : DecimalLaws D} h cancelled :
  ValueOrderLaws (heap_order h cancelled).
Proof. split; [apply scalar_order|done..]. Qed.
