(* ===== verification/ValueSpec.v ===== *)
(** What the comparison of values ([compare] of [interpreter/value.rs],
    [Values.v]) promises: it ends on every heap, cyclic collections included,
    and is an order. *)

From Stdlib Require Import ZArith Lia.
From stdpp Require Import base tactics numbers option list gmap strings.
From S2P Require Import Prelude RustStr Decimals Values.

#[local] Open Scope Z_scope.

Section spec.
Context {D : Decimal}.

(** The comparison of two values ends, whatever the heap: Lists and
    Dictionaries that contain themselves or each other are entered once per
    pair, so some number of steps is enough, and more change nothing. *)
Lemma compare_terminates (h : heap) (cancelled : nat -> bool) (lv rv : Value) :
  match compare_one h lv rv ∅ with
  | (Done c, _) => compare h cancelled lv rv = c
  | (Descend l r, met) =>
      exists enough, forall fuel, (enough <= fuel)%nat ->
        compare_loop h cancelled fuel 0 [(l, r)] met = Some (compare h cancelled lv rv)
  end.
Proof.
  unfold compare. destruct (compare_one h lv rv ∅) as [[c|l r] met]; [done|].
  destruct (compare_fuel_enough h cancelled l r met) as [c Hc].
  exists (compare_fuel h l r). intros fuel Hf. rewrite Hc. by eapply compare_loop_mono.
Qed.

(** C27: The comparison is an order: every value equals itself, swapping the
    sides swaps the answer, on all values and heaps, cyclic ones included,
    and it is transitive on the scalars a primary key or a field holds.  It
    ends, whatever the heap: Lists and Dictionaries that contain themselves or
    each other are entered once per pair, so some number of steps is enough,
    and more change nothing. *)
Theorem compare_is_order {DL : DecimalLaws D} (h : heap) (cancelled : nat -> bool) :
  (forall lv rv,
     match compare_one h lv rv ∅ with
     | (Done c, _) => compare h cancelled lv rv = c
     | (Descend l r, met) =>
         exists enough, forall fuel, (enough <= fuel)%nat ->
           compare_loop h cancelled fuel 0 [(l, r)] met = Some (compare h cancelled lv rv)
     end) /\
  (forall v, compare h cancelled v v = Eq) /\
  (forall a b, compare h cancelled b a = CompOpp (compare h cancelled a b)) /\
  (forall c x y z, scalar x -> scalar y -> scalar z ->
     compare h cancelled x y = c -> compare h cancelled y z = c -> compare h cancelled x z = c).
Proof.
  split; [apply compare_terminates|]. split; [apply compare_refl|]. split; [intros; apply compare_antisym|].
  apply (scalar_order h cancelled).
Qed.
End spec.

#[local] Existing Instances mini_decimal mini_decimal_laws.

(** Two lists: each holds itself and then a number, 1 and 2. *)
Definition loops : heap :=
  <[1 := CList [VList {| contents := 1; value_type := None; member_type := None |}; VInteger 1]]>
  (<[2 := CList [VList {| contents := 2; value_type := None; member_type := None |}; VInteger 2]]> ∅).
Definition loop_at (a : Z) : Value := VList {| contents := a; value_type := None; member_type := None |}.

Lemma compare_is_order_witness :
  compare loops (fun _ => false) (loop_at 1) (loop_at 1) = Eq /\
  compare loops (fun _ => false) (loop_at 1) (loop_at 2) = Lt /\
  compare loops (fun _ => false) (loop_at 2) (loop_at 1) = Gt.
Proof.
  destruct (compare_is_order loops (fun _ => false)) as (_ & Hr & Ha & _).
  assert (compare loops (fun _ => false) (loop_at 1) (loop_at 2) = Lt) as E by (vm_compute; reflexivity).
  split_and!; [apply Hr|exact E|]. rewrite (Ha (loop_at 1) (loop_at 2)), E. reflexivity.
Defined.
