(* ===== verification/Slots.v ===== *)
(** Declared slots, sizes and evaluation results.

    The numeric views, type names, defaults and coercions of [Value]
    ([interpreter/value.rs]), the size limits, the bytes a value counts, and
    the [Eval] result of [interpreter/scope.rs]. *)

From Stdlib Require Import ZArith Lia.
From stdpp Require Import base tactics numbers option list gmap strings.
From S2P Require Import Prelude RustStr Decimals Values.

#[local] Open Scope Z_scope.

(** * Limits *)

Definition MAX_TEXT_BYTES : Z := 64 * 1024 * 1024.
Definition MAX_COLLECTION_LEN : Z := 1000000.
Definition MAX_HELD_BYTES : Z := 256 * 1024 * 1024.

(** [size_of::<Value>()]: 56, as the comment of [MAX_COLLECTION_LEN] says. *)
Definition VALUE_SIZE : Z := 56.

Section slots.
Context {D : Decimal}.

(** * Results of evaluation *)

Inductive Eval :=
  | Normal (v : Value)
  | Error (e : ErrorInfo)
  | Exit (v : Value)
  | Break
  | Continue.

Definition error_info (message : str) : ErrorInfo :=
  {| message := message; error_type := None; source := None |}.
Definition eval_error (message : str) : Eval := Error (error_info message).

Definition into_value (e : Eval) : option Value :=
  match e with Normal v | Exit v => Some v | Error _ | Break | Continue => None end.
Definition is_error (e : Eval) : bool := match e with Error _ => true | _ => false end.

(** * Views *)

Definition is_truthy (v : Value) : bool := match v with VBoolean true => true | _ => false end.

Definition as_int (v : Value) : option Z :=
  match v with VInteger n | VBigInteger n => Some n | _ => None end.

Definition as_decimal (v : Value) : option decimal :=
  match v with
  | VInteger n | VBigInteger n => Some (dec_from n)
  | VDecimal d => Some d
  | _ => None
  end.

Definition type_name (v : Value) : str :=
  lit match v with
  | VNull => "Null"
  | VEmpty => "Empty"
  | VInteger _ => "Integer"
  | VBigInteger _ => "BigInteger"
  | VDecimal _ => "Decimal"
  | VBoolean _ => "Boolean"
  | VChar _ => "Char"
  | VText _ => "Text"
  | VCode _ => "Code"
  | VTextBuilder _ => "TextBuilder"
  | VJson j =>
      match kind j with
      | JObject => "JsonObject"
      | JArray => "JsonArray"
      | JToken => "JsonToken"
      | JValue => "JsonValue"
      end
  | VDate _ => "Date"
  | VTime _ => "Time"
  | VDateTime _ => "DateTime"
  | VDuration _ => "Duration"
  | VGuid _ => "Guid"
  | VOption _ _ _ => "Option"
  | VRecord _ => "Record"
  | VRecordRef _ => "RecordRef"
  | VVariant _ => "Variant"
  | VArray _ => "Array"
  | VList _ => "List"
  | VDict _ => "Dict"
  | VBlob _ => "Blob"
  | VErrorInfo _ => "ErrorInfo"
  | VCodeunit _ _ => "Codeunit"
  | VRange _ _ => "Range"
  end.

(** * Sizes *)

Definition text_bytes (v : Value) : Z :=
  match v with
  | VText t | VCode t | VGuid t => str_len t
  | VBlob bytes => Z.of_nat (length bytes)
  | _ => 0
  end.

(** The value inside any number of Variants. *)
Fixpoint unwrap_variant (v : Value) : Value :=
  match v with VVariant inner => unwrap_variant inner | _ => v end.

Definition owned_bytes (v : Value) : Z :=
  match unwrap_variant v with
  | VArray items => foldr (fun item n => saturating_add VALUE_SIZE (text_bytes item) + n) 0 items
  | other => text_bytes other
  end.

Definition element_bytes (v : Value) : Z := saturating_add VALUE_SIZE (owned_bytes v).

Definition entry_bytes (key_text : str) (key value : Value) : Z :=
  saturating_add (saturating_add (str_len key_text) (element_bytes key)) (element_bytes value).

Definition check_text_size (operation : str) (bytes : Z) : Res str unit :=
  if bytes <=? MAX_TEXT_BYTES then Ok tt
  else Err (operation ++ lit " would make a text of " ++ u64_to_str bytes
            ++ lit " bytes, over the local test runtime's limit of "
            ++ u64_to_str (MAX_TEXT_BYTES / (1024 * 1024)) ++ lit " MiB for one text").

Definition check_collection_len (operation : str) (len : Z) : Res str unit :=
  if len <=? MAX_COLLECTION_LEN then Ok tt
  else Err (operation ++ lit " would make " ++ u64_to_str len
            ++ lit " elements, over the local test runtime's limit of "
            ++ u64_to_str MAX_COLLECTION_LEN
            ++ lit " elements for one List, Dictionary or array").

Definition check_string_capacity (value : str) (capacity : option Z) : Res str unit :=
  match capacity with
  | None => Ok tt
  | Some capacity =>
      let length := Z.of_nat (length value) in
      if length <=? capacity then Ok tt
      else Err (lit "The length of the string is " ++ u64_to_str length
                ++ lit ", but it must be less than or equal to " ++ u64_to_str capacity
                ++ lit " characters. Value: " ++ value)
  end.

(** * Slots *)

Context {U : Unicode}.

Definition coerce_into_slot (slot incoming : Value) (capacity : option Z) : Res str Value :=
  match slot, incoming with
  | VCode _, (VText s | VCode s) =>
      let trimmed := trim s in
      match check_string_capacity trimmed capacity with
      | Err e => Err e
      | Ok _ => Ok (VCode (to_uppercase trimmed))
      end
  | VText _, (VText s | VCode s) =>
      match check_string_capacity s capacity with
      | Err e => Err e
      | Ok _ => Ok (VText s)
      end
  | VBigInteger _, (VInteger n | VBigInteger n) => Ok (VBigInteger n)
  | VInteger _, (VInteger n | VBigInteger n) =>
      if negb (in_i32 n)
      then Err (lit "value " ++ i64_to_str n ++ lit " is outside the Integer range")
      else Ok (VInteger n)
  | VDecimal _, (VInteger n | VBigInteger n) => Ok (VDecimal (dec_from n))
  | _, incoming => Ok incoming
  end.

(** [json::default_for]: a new handle of the kind named, [fresh] being the id
    the process-wide counter gives. *)
Definition json_default_for (fresh : Z) (name : str) : option Value :=
  let k :=
    if str_is name "jsonobject" then Some JObject
    else if str_is name "jsonarray" then Some JArray
    else if str_is name "jsontoken" then Some JToken
    else if str_is name "jsonvalue" then Some JValue
    else None in
  (fun k => VJson {| kind := k; jhandle := Some fresh |}) <$> k.

(** The default of a named type.  A TextBuilder's contents are new: an empty
    text at the address [fresh], which the result adds to the heap. *)
Definition default_for (fresh : Z) (h : heap) (type_name : str) : option (Value * heap) :=
  let name := to_ascii_lowercase type_name in
  let keep v := Some (v, h) in
  if str_is name "integer" then keep (VInteger 0)
  else if str_is name "biginteger" then keep (VBigInteger 0)
  else if str_is name "decimal" then keep (VDecimal dec_zero)
  else if str_is name "boolean" then keep (VBoolean false)
  else if str_is name "text" then keep (VText [])
  else if str_is name "code" then keep (VCode [])
  else if str_is name "date" then keep (VDate 0)
  else if str_is name "time" then keep (VTime 0)
  else if str_is name "datetime" then keep (VDateTime 0)
  else if str_is name "duration" then keep (VDuration 0)
  else if str_is name "guid" then keep (VGuid (lit "{00000000-0000-0000-0000-000000000000}"))
  else if str_is name "char" then keep (VChar 0)
  else if str_is name "textbuilder" then Some (VTextBuilder fresh, <[fresh := CText []]> h)
  else (fun v => (v, h)) <$> json_default_for fresh name.

(** * Facts *)

(** A slot of one of the types below keeps its type: the coercion is a
    declared variable's type invariant. *)
Definition typed_slot (v : Value) : Prop :=
  match v with
  | VInteger _ | VBigInteger _ | VDecimal _ | VText _ | VCode _ => True
  | _ => False
  end.

Definition numeric (v : Value) : Prop :=
  match v with VInteger _ | VBigInteger _ => True | _ => False end.
Definition textual (v : Value) : Prop :=
  match v with VText _ | VCode _ => True | _ => False end.

(** The values the coercion converts for a slot of that type. *)
Definition convertible (slot incoming : Value) : Prop :=
  match slot with
  | VInteger _ | VBigInteger _ => numeric incoming
  | VDecimal _ => numeric incoming \/ exists d, incoming = VDecimal d
  | VText _ | VCode _ => textual incoming
  | _ => False
  end.

(** What a slot of declared type and capacity may hold. *)
Definition fits_slot (slot : Value) (capacity : option Z) (v : Value) : Prop :=
  match slot, v with
  | VInteger _, VInteger n => i32_min <= n <= i32_max
  | VBigInteger _, VBigInteger _ => True
  | VDecimal _, VDecimal _ => True
  | VText _, VText s => forall c, capacity = Some c -> Z.of_nat (length s) <= c
  | VCode _, VCode s =>
      exists t, s = to_uppercase (trim t) /\
        forall c, capacity = Some c -> Z.of_nat (length (trim t)) <= c
  | _, _ => False
  end.

Lemma check_string_capacity_ok s capacity :
  check_string_capacity s capacity = Ok tt <->
  (forall c, capacity = Some c -> Z.of_nat (length s) <= c).
Proof.
  unfold check_string_capacity. destruct capacity as [c|]; [|naive_solver].
  destruct (Z.leb_spec (Z.of_nat (length s)) c).
  - split; [by intros _ ? [= <-]|done].
  - split; [done|]. intros Hc. specialize (Hc c eq_refl). lia.
Qed.

(** Why an assignment is refused. *)
Definition refused (slot incoming : Value) (capacity : option Z) : Prop :=
  match slot, incoming with
  | VInteger _, (VInteger n | VBigInteger n) => ~ (i32_min <= n <= i32_max)
  | VText _, (VText s | VCode s) => exists c, capacity = Some c /\ c < Z.of_nat (length s)
  | VCode _, (VText s | VCode s) =>
      exists c, capacity = Some c /\ c < Z.of_nat (length (trim s))
  | _, _ => False
  end.

Lemma check_string_capacity_err s capacity e :
  check_string_capacity s capacity = Err e -> exists c, capacity = Some c /\ c < Z.of_nat (length s).
Proof.
  unfold check_string_capacity. destruct capacity as [c|]; [|done].
  destruct (Z.leb_spec (Z.of_nat (length s)) c); [done|]. eauto.
Qed.

Lemma coerce_text_cases s capacity (mk : str -> Value) (P : Value -> Prop) (Q : Prop) :
  (check_string_capacity s capacity = Ok tt -> P (mk s)) ->
  ((exists c, capacity = Some c /\ c < Z.of_nat (length s)) -> Q) ->
  match (match check_string_capacity s capacity with Err e => Err e | Ok _ => Ok (mk s) end : Res str Value)
  with Ok v => P v | Err _ => Q end.
Proof.
  intros HP HQ. destruct (check_string_capacity s capacity) as [[]|e] eqn:E; [auto|].
  eapply HQ, check_string_capacity_err, E.
Qed.
End slots.

(** * Properties *)


#[local] Existing Instances mini_decimal ascii_unicode.

