(* ===== verification/Filters.v ===== *)
(** BC filter expressions ([mock/filter.rs]): the recursive-descent parser, the
    evaluator, the wildcard matcher and the ordered comparisons.

    The parser's state is the byte position and the characters still to read.
    The mutually recursive productions take a fuel argument; [parse_fuel] is
    enough for every input. *)

From Stdlib Require Import ZArith Lia.
From stdpp Require Import base tactics numbers option list strings.
From S2P Require Import Prelude RustStr Cursors Decimals Values Slots.

#[local] Open Scope Z_scope.
#[local] Open Scope rust_scope.

(** * Syntax *)

Inductive FilterParseError :=
  | UnexpectedEnd
  | UnexpectedChar (c : char) (pos : Z)
  | EmptyFilter
  | UnmatchedParen
  | InvalidRange (lo hi : str).

Record Pattern := { text : str; case_sensitive : bool }.

Section filter.
Context {D : Decimal}.

Inductive OrderableValue :=
  | OInteger (n : Z)
  | ODecimal (d : decimal)
  | OText (s : str).

Inductive FilterAtom :=
  | Equals (p : Pattern)
  | NotEqual (p : Pattern)
  | LessThan (v : OrderableValue)
  | LessEqual (v : OrderableValue)
  | GreaterThan (v : OrderableValue)
  | GreaterEqual (v : OrderableValue)
  | Range (lo hi : OrderableValue).

#[local] Set Warnings "-register-all".
Inductive FilterExpr :=
  | Or (l : list FilterExpr)
  | And (l : list FilterExpr)
  | Atom (a : FilterAtom).

(** * The parser *)

Definition is_blank (c : char) : bool := (c =? ch " ") || (c =? 9).

Definition skip_whitespace (p : Parser) : Parser := skip_ws is_blank (pos p) (remaining p).

Definition PRes A := Res FilterParseError (A * Parser).

(** The body of a quoted token, up to the closing quote. *)
Fixpoint read_quoted (quote : char) (at_ : Z) (s : str) : PRes str :=
  match s with
  | [] => Err UnexpectedEnd
  | c :: r =>
      if c =? quote then Ok ([], {| pos := at_ + len_utf8 c; remaining := r |})
      else match read_quoted quote (at_ + len_utf8 c) r with
           | Ok (t, p) => Ok (c :: t, p)
           | Err e => Err e
           end
  end.

Definition is_delimiter (c : char) : bool :=
  is_blank c || (c =? ch "|") || (c =? ch "&") || (c =? ch ")").

(** An unquoted token, up to a delimiter or [..]. *)
Fixpoint read_plain (at_ : Z) (s : str) : str * Parser :=
  match s with
  | [] => ([], {| pos := at_; remaining := [] |})
  | c :: r =>
      if is_delimiter c || starts_with (lit "..") s then ([], {| pos := at_; remaining := s |})
      else let '(t, p) := read_plain (at_ + len_utf8 c) r in (c :: t, p)
  end.

Definition read_token (p : Parser) : PRes str :=
  let p := skip_whitespace p in
  match remaining p with
  | [] => Err UnexpectedEnd
  | first :: r =>
      if (first =? 39) || (first =? 34) then
        read_quoted first (pos p + len_utf8 first) r
      else
        let '(result, p') := read_plain (pos p) (remaining p) in
        match result with
        | [] => Err UnexpectedEnd
        | _ => Ok (result, p')
        end
  end.

(** Always [Some]: what is not a number is text. *)
Definition parse_orderable_str (s : str) : option OrderableValue :=
  match parse_i64 s with
  | Some n => Some (OInteger n)
  | None =>
      match dec_parse s with
      | Some d => Some (ODecimal d)
      | None => Some (OText s)
      end
  end.

Definition parse_orderable (p : Parser) : PRes OrderableValue :=
  '(token, p) <-? read_token p ;
  v <-? ok_or (parse_orderable_str token) UnexpectedEnd ;
  Ok (v, p).

Definition pattern_of (token : str) : Pattern :=
  {| case_sensitive := negb (starts_with (lit "@") token);
     text := default token (strip_prefix (lit "@") token) |}.

Definition parse_pattern (p : Parser) : PRes Pattern :=
  '(token, p) <-? read_token p ;
  Ok (pattern_of token, p).

Definition parse_atom (p : Parser) : PRes FilterAtom :=
  let p := skip_whitespace p in
  match peek p with
  | None => Err UnexpectedEnd
  | Some c =>
      if c =? ch "<" then
        let p := (advance p).2 in
        if peek_is p (ch ">") then
          '(pat, p) <-? parse_pattern (advance p).2 ; Ok (NotEqual pat, p)
        else if peek_is p (ch "=") then
          '(v, p) <-? parse_orderable (advance p).2 ; Ok (LessEqual v, p)
        else
          '(v, p) <-? parse_orderable p ; Ok (LessThan v, p)
      else if c =? ch ">" then
        let p := (advance p).2 in
        if peek_is p (ch "=") then
          '(v, p) <-? parse_orderable (advance p).2 ; Ok (GreaterEqual v, p)
        else
          '(v, p) <-? parse_orderable p ; Ok (GreaterThan v, p)
      else
        '(first_str, p) <-? read_token p ;
        let p := skip_whitespace p in
        if starts_with (lit "..") (remaining p) then
          let p := {| pos := pos p + 2; remaining := drop 2 (remaining p) |} in
          '(second_str, p) <-? read_token p ;
          lo <-? ok_or (parse_orderable_str first_str) (InvalidRange first_str second_str) ;
          hi <-? ok_or (parse_orderable_str second_str) (InvalidRange first_str second_str) ;
          Ok (Range lo hi, p)
        else Ok (Equals (pattern_of first_str), p)
  end.

(** [if terms.len() == 1 { terms.remove(0) } else { f(terms) }], the terms
    being kept newest first. *)
Definition one_or (f : list FilterExpr -> FilterExpr) (terms : list FilterExpr) : FilterExpr :=
  match terms with
  | [e] => e
  | _ => f (reverse terms)
  end.

(** The productions; [None] is running out of fuel. *)
Fixpoint parse_expr (fuel : nat) (p : Parser) : option (PRes FilterExpr) :=
  match fuel with
  | O => None
  | S fuel =>
      match parse_and fuel p with
      | Some (Ok (first, p)) => or_loop fuel [first] p
      | r => r
      end
  end
with or_loop (fuel : nat) (terms : list FilterExpr) (p : Parser) : option (PRes FilterExpr) :=
  match fuel with
  | O => None
  | S fuel =>
      let p := skip_whitespace p in
      if peek_is p (ch "|") then
        match parse_and fuel (advance p).2 with
        | Some (Ok (term, p)) => or_loop fuel (term :: terms) p
        | r => r
        end
      else Some (Ok (one_or Or terms, p))
  end
with parse_and (fuel : nat) (p : Parser) : option (PRes FilterExpr) :=
  match fuel with
  | O => None
  | S fuel =>
      match parse_primary fuel p with
      | Some (Ok (first, p)) => and_loop fuel [first] p
      | r => r
      end
  end
with and_loop (fuel : nat) (terms : list FilterExpr) (p : Parser) : option (PRes FilterExpr) :=
  match fuel with
  | O => None
  | S fuel =>
      let p := skip_whitespace p in
      if peek_is p (ch "&") then
        match parse_primary fuel (advance p).2 with
        | Some (Ok (term, p)) => and_loop fuel (term :: terms) p
        | r => r
        end
      else Some (Ok (one_or And terms, p))
  end
with parse_primary (fuel : nat) (p : Parser) : option (PRes FilterExpr) :=
  match fuel with
  | O => None
  | S fuel =>
      let p := skip_whitespace p in
      if peek_is p (ch "(") then
        match parse_expr fuel (advance p).2 with
        | Some (Ok (inner, p)) =>
            let p := skip_whitespace p in
            match advance p with
            | (Some c, p) => if c =? ch ")" then Some (Ok (inner, p)) else Some (Err UnmatchedParen)
            | (None, _) => Some (Err UnmatchedParen)
            end
        | r => r
        end
      else Some ('(atom, p) <-? parse_atom p ; Ok (Atom atom, p))
  end.

(** Three productions lie between two characters consumed. *)
Definition parse_fuel (s : str) : nat := 4 * length s + 4.

Definition parse_top (fuel : nat) (expr : str) : option (Res FilterParseError FilterExpr) :=
  let trimmed := trim expr in
  match trimmed with
  | [] => Some (Err EmptyFilter)
  | _ =>
      match parse_expr fuel (new trimmed) with
      | None => None
      | Some (Err e) => Some (Err e)
      | Some (Ok (result, p)) =>
          let p := skip_whitespace p in
          if at_end p then Some (Ok result)
          else Some (Err (UnexpectedChar (default (ch "?") (peek p)) (pos p)))
      end
  end.

Definition parse (expr : str) : Res FilterParseError FilterExpr :=
  default (Err UnexpectedEnd) (parse_top (parse_fuel (trim expr)) expr).

(** * Matching *)

Context {U : Unicode}.

(** [dp[i][1..]] from [dp[i - 1]], the pattern's character [pc] and the text;
    [left] is the cell on the left. *)
Fixpoint dp_cells (pc : char) (t : str) (prev : list bool) (left : bool) : list bool :=
  match t, prev with
  | tc :: t, diag :: ((up :: _) as prev) =>
      let cell :=
        if pc =? ch "*" then up || left
        else if (pc =? ch "?") || (pc =? tc) then diag
        else false in
      cell :: dp_cells pc t prev cell
  | _, _ => []
  end.

(** Row [i] of the table: column 0 is set only by a leading run of stars. *)
Definition dp_row (pc : char) (t : str) (prev : list bool) : list bool :=
  let c0 := if pc =? ch "*" then default false (head prev) else false in
  c0 :: dp_cells pc t prev c0.

Definition dp_first (t : str) : list bool := true :: replicate (length t) false.

Fixpoint dp_rows (p t : str) (row : list bool) : list bool :=
  match p with
  | [] => row
  | pc :: p => dp_rows p t (dp_row pc t row)
  end.

Definition wildcard_match (pattern text : str) (case_insensitive : bool) : bool :=
  let fold_case s := if case_insensitive then str_lower s else s in
  let p := fold_case pattern in
  let t := fold_case text in
  default false (last (dp_rows p t (dp_first t))).

Definition bool_to_str (b : bool) : str := lit (if b then "true" else "false").

Definition value_to_filter_string (v : Value) : str :=
  match v with
  | VText s | VCode s => s
  | VInteger n | VBigInteger n => i64_to_str n
  | VDecimal d => dec_to_str (dec_normalize d)
  | VBoolean b => bool_to_str b
  | VChar c => [c]
  | VDate d => i64_to_str d
  | VTime t => i64_to_str t
  | VDateTime dt => i64_to_str dt
  | VOption _ member _ => member
  | _ => []
  end.

Definition caseless_cell (v : Value) : bool :=
  match v with VCode _ | VGuid _ | VOption _ _ _ => true | _ => false end.

Definition pattern_text_matches (pat : Pattern) (v : Value) : bool :=
  match v with
  | VOption _ member ordinal =>
      wildcard_match (text pat) member true || wildcard_match (text pat) (i64_to_str ordinal) true
  | _ =>
      wildcard_match (text pat) (value_to_filter_string v)
        (negb (case_sensitive pat) || caseless_cell v)
  end.

Definition pattern_matches (pat : Pattern) (v : Value) : bool :=
  match v, dec_parse (text pat) with
  | VEmpty, Some number => dec_eqb number dec_zero
  | _, _ => pattern_text_matches pat v
  end.

Definition cmp_value (v : Value) (ov : OrderableValue) : option comparison :=
  match v, ov with
  | (VInteger a | VBigInteger a), OInteger b => Some (Z.compare a b)
  | (VInteger a | VBigInteger a), ODecimal b => Some (dec_cmp (dec_from a) b)
  | VDecimal a, ODecimal b => Some (dec_cmp a b)
  | VDecimal a, OInteger b => Some (dec_cmp a (dec_from b))
  | VCode a, OText b => Some (str_cmp (to_uppercase a) (to_uppercase b))
  | VText a, OText b => Some (str_cmp a b)
  | (VDate a | VTime a | VDateTime a), OInteger b => Some (Z.compare a b)
  | VOption _ _ ordinal, OInteger b => Some (Z.compare ordinal b)
  | VEmpty, OInteger b => Some (Z.compare 0 b)
  | VEmpty, ODecimal b => Some (dec_cmp dec_zero b)
  | VEmpty, OText b => Some (str_cmp [] b)
  | _, _ => None
  end.

(** [Option::is_some_and]. *)
Definition some_and (o : option comparison) (f : comparison -> bool) : bool :=
  match o with Some c => f c | None => false end.

Definition atom_matches (a : FilterAtom) (v : Value) : bool :=
  match a with
  | Equals pat => pattern_matches pat v
  | NotEqual pat => negb (pattern_matches pat v)
  | LessThan ov => some_and (cmp_value v ov) is_lt
  | LessEqual ov => some_and (cmp_value v ov) is_le
  | GreaterThan ov => some_and (cmp_value v ov) is_gt
  | GreaterEqual ov => some_and (cmp_value v ov) is_ge
  | Range lo hi => some_and (cmp_value v lo) is_ge && some_and (cmp_value v hi) is_le
  end.

Fixpoint matches (e : FilterExpr) (v : Value) : bool :=
  match e with
  | Or terms => existsb (fun t => matches t v) terms
  | And terms => forallb (fun t => matches t v) terms
  | Atom a => atom_matches a v
  end.
End filter.
