(* ===== verification/FilterFacts.v ===== *)
(** Facts about the filter expressions of [Filters.v]: the table of the wildcard
    matcher computes the declarative matching relation, the parser always
    answers, keeps track of its position, and reads back what a printer of
    canonical expressions writes. *)

From Stdlib Require Import ZArith Lia.
From stdpp Require Import base tactics numbers option list strings.
From S2P Require Import Prelude RustStr Cursors Decimals Values Slots Filters.

#[local] Open Scope Z_scope.
#[local] Open Scope rust_scope.

(** * Wildcards *)

(** [*] matches any text, [?] any character, another character itself. *)
Inductive wild : str -> str -> Prop :=
  | wild_nil : wild [] []
  | wild_star_skip p t : wild p t -> wild (ch "*" :: p) t
  | wild_star_take p c t : wild (ch "*" :: p) t -> wild (ch "*" :: p) (c :: t)
  | wild_any p c t : wild p t -> wild (ch "?" :: p) (c :: t)
  | wild_char p c t : wild p t -> wild (c :: p) (c :: t).

Lemma wild_app_intro p1 p2 t1 t2 : wild p1 t1 -> wild p2 t2 -> wild (p1 ++ p2) (t1 ++ t2).
Proof. intros H1 H2. induction H1; simpl; eauto using wild. Qed.

Lemma wild_app p1 p2 t : wild (p1 ++ p2) t <-> exists t1 t2, t = t1 ++ t2 /\ wild p1 t1 /\ wild p2 t2.
Proof.
  split.
  - intros H. remember (p1 ++ p2) as p eqn:Ep. revert p1 Ep.
    induction H as [|p t H IH|p c t H IH|p c t H IH|p c t H IH]; intros [|x p1] Ep; simplify_eq/=;
      try (exists [], []; split_and!; [done|constructor|constructor]; fail);
      try (eexists [], _; split_and!; [done|constructor|]; eauto using wild; fail).
    + destruct (IH p1 eq_refl) as (t1 & t2 & -> & ? & ?). exists t1, t2. eauto using wild.
    + destruct (IH (42 :: p1) eq_refl) as (t1 & t2 & -> & ? & ?). exists (c :: t1), t2. eauto using wild.
    + destruct (IH p1 eq_refl) as (t1 & t2 & -> & ? & ?). exists (c :: t1), t2. eauto using wild.
    + destruct (IH p1 eq_refl) as (t1 & t2 & -> & ? & ?). exists (x :: t1), t2. eauto using wild.
  - intros (t1 & t2 & -> & H1 & H2). by apply wild_app_intro.
Qed.

Lemma wild_star t : wild [ch "*"] t.
Proof. induction t; [apply wild_star_skip, wild_nil|by apply wild_star_take]. Qed.

Lemma wild_nil_inv t : wild [] t <-> t = [].
Proof. split; [by inversion 1|intros ->; constructor]. Qed.

(** The pattern [p] followed by one more character, on one more character. *)
Lemma wild_snoc_nil p pc : wild (p ++ [pc]) [] <-> pc = ch "*" /\ wild p [].
Proof.
  rewrite wild_app. split.
  - intros (t1 & t2 & [-> ->]%eq_sym%app_nil & H1 & H2). inversion H2; subst. done.
  - intros [-> H]. exists [], []. eauto using wild_star.
Qed.

Lemma wild_snoc_snoc p pc t c :
  wild (p ++ [pc]) (t ++ [c]) <->
  if pc =? ch "*" then wild p (t ++ [c]) \/ wild (p ++ [pc]) t
  else if (pc =? ch "?") || (pc =? c) then wild p t
  else False.
Proof.
  destruct (Z.eqb_spec pc (ch "*")) as [->|Hs].
  - split.
    + intros (t1 & t2 & E & H1 & H2)%wild_app. destruct t2 as [|x t2 _] using rev_ind.
      * rewrite app_nil_r in E. subst. by left.
      * rewrite app_assoc in E. apply app_inj_tail in E as [-> _].
        right. apply wild_app. eauto using wild_star.
    + intros [H|(t1 & t2 & -> & H1 & H2)%wild_app]; apply wild_app.
      * exists (t ++ [c]), []. rewrite app_nil_r. eauto using wild_star.
      * exists t1, (t2 ++ [c]). rewrite app_assoc. eauto using wild_star.
  - assert (wild (p ++ [pc]) (t ++ [c]) <-> wild p t /\ (pc = ch "?" \/ pc = c)) as ->.
    { rewrite wild_app. split.
      - intros (t1 & t2 & E & H1 & H2).
        inversion H2 as [| | |q d u Hq|q d u Hq]; subst; try done;
          apply wild_nil_inv in Hq; subst u; apply app_inj_tail in E as [-> ->]; eauto.
      - intros [H [->| ->]]; exists t, [c]; eauto using wild. }
    destruct (Z.eqb_spec pc (ch "?")), (Z.eqb_spec pc c); simpl; naive_solver.
Qed.

(** A row of the table: cell [j] says whether [Q] holds of [t0] and the first
    [j] characters of [t]. *)
Fixpoint good_row (Q : str -> Prop) (t0 t : str) (row : list bool) {struct row} : Prop :=
  match row with
  | [] => False
  | b :: row =>
      (b = true <-> Q t0) /\
      match t with
      | [] => row = []
      | c :: t => good_row Q (t0 ++ [c]) t row
      end
  end.

Lemma good_row_last Q t0 t row :
  good_row Q t0 t row -> default false (last row) = true <-> Q (t0 ++ t).
Proof.
  revert t0 row. induction t as [|c t IH]; intros t0 [|b row]; simpl; try done.
  - intros [Hb ->]. by rewrite app_nil_r.
  - intros [_ H]. destruct row as [|b' row]; [destruct H|].
    specialize (IH _ _ H). rewrite <- app_assoc in IH. exact IH.
Qed.

Lemma good_dp_cells p pc t0 t prev left :
  good_row (wild p) t0 t prev -> (left = true <-> wild (p ++ [pc]) t0) ->
  good_row (wild (p ++ [pc])) t0 t (left :: dp_cells pc t prev left).
Proof.
  revert t0 prev left. induction t as [|c t IH]; intros t0 prev left Hprev Hleft.
  { destruct prev as [|? []]; done. }
  destruct prev as [|diag prev]; [destruct Hprev|]. destruct Hprev as [Hdiag Hprev].
  destruct prev as [|up prev]; [destruct Hprev|]. pose proof Hprev as Hup.
  split; [done|]. cbn [dp_cells]. apply IH; [done|].
  rewrite wild_snoc_snoc. assert (up = true <-> wild p (t0 ++ [c])) as Hup' by (destruct t; apply Hup).
  destruct (pc =? 42); [by rewrite orb_true_iff, Hup', Hleft|].
  destruct ((pc =? 63) || (pc =? c)); [done|split; done].
Qed.

Lemma good_dp_row p pc t prev :
  good_row (wild p) [] t prev -> good_row (wild (p ++ [pc])) [] t (dp_row pc t prev).
Proof.
  intros H. unfold dp_row. cbv zeta. apply good_dp_cells; [done|]. rewrite wild_snoc_nil.
  destruct prev as [|b prev]; [destruct H|]. destruct H as [Hb _]. simpl.
  destruct (Z.eqb_spec pc 42) as [->|]; [rewrite Hb|]; naive_solver.
Qed.

Lemma good_dp_rows p0 p t row :
  good_row (wild p0) [] t row -> good_row (wild (p0 ++ p)) [] t (dp_rows p t row).
Proof.
  revert p0 row. induction p as [|pc p IH]; intros p0 row H; simpl.
  - by rewrite app_nil_r.
  - rewrite (app_assoc p0 [pc] p : p0 ++ pc :: p = _). by apply IH, good_dp_row.
Qed.

Lemma good_first t0 t : t0 <> [] -> good_row (wild []) t0 t (replicate (S (length t)) false).
Proof.
  revert t0. induction t as [|c t IH]; intros t0 H; simpl; rewrite wild_nil_inv; split; try done.
  apply IH. by destruct t0.
Qed.

Lemma wildcard_table p t : default false (last (dp_rows p t (dp_first t))) = true <-> wild p t.
Proof.
  apply (good_row_last (wild p) []), (good_dp_rows []). unfold dp_first. split.
  - split; [constructor|done].
  - destruct t as [|c t]; [done|]. by apply good_first.
Qed.

(** * What the parser consumes *)

Section parser.
Context {D : Decimal}.
Implicit Types (p q : Parser) (fuel : nat).

Lemma consumes_skip p : consumes 0 p (skip_whitespace p).
Proof. destruct p. apply consumes_skip_ws. Qed.

Lemma consumes_quoted quote n s t q :
  read_quoted quote n s = Ok (t, q) -> consumes 1 {| pos := n; remaining := s |} q.
Proof.
  revert n t. induction s as [|c s IH]; intros n t; simpl; [done|].
  destruct (c =? quote).
  - intros [= <- <-]. apply (consumes_cons c s); [done|]. apply consumes_refl.
  - destruct (read_quoted _ _ _) as [[t' q']|] eqn:E; [|done]. intros [= <- <-].
    apply (consumes_weaken 2); [lia|]. apply (consumes_cons c s); [done|]. by eapply IH.
Qed.

Lemma consumes_plain n s t q :
  read_plain n s = (t, q) -> consumes (length t) {| pos := n; remaining := s |} q.
Proof.
  revert n t. induction s as [|c s IH]; intros n t; cbn [read_plain].
  - intros [= <- <-]. apply consumes_refl.
  - destruct (_ || _). { intros [= <- <-]. apply consumes_refl. }
    destruct (read_plain _ _) as [t' q'] eqn:E. intros [= <- <-].
    apply (consumes_cons c s); [done|]. by apply IH.
Qed.

Lemma consumes_token p t q : read_token p = Ok (t, q) -> consumes 1 p q.
Proof.
  unfold read_token. pose proof (consumes_skip p) as Hs. set (p' := skip_whitespace p) in *.
  destruct (remaining p') as [|c r] eqn:E; [done|]. intros H.
  apply (consumes_trans 0 1 p p' q Hs). destruct (_ || _).
  - apply consumes_quoted in H. apply (consumes_weaken 2); [lia|]. by apply (consumes_cons c r).
  - destruct (read_plain _ _) as [t' q'] eqn:E'. destruct t' as [|d t']; [done|].
    injection H as <- <-. apply consumes_plain in E'. apply (consumes_weaken (length (d :: t'))); [simpl; lia|].
    rewrite <- E in E'. by destruct p'.
Qed.

(** Every way through [parse_atom] reads a token, after what it skips. *)
Ltac bind_ok H :=
  let r := fresh "r" in
  match type of H with
  | res_bind ?m _ = Ok _ => destruct m as [r|] eqn:?; [|done]; cbn [res_bind] in H
  end.

Lemma consumes_orderable p v q : parse_orderable p = Ok (v, q) -> consumes 1 p q.
Proof.
  unfold parse_orderable. intros H. bind_ok H. destruct r as [t p']. bind_ok H.
  injection H as <- <-. by eapply consumes_token.
Qed.

Lemma consumes_pattern p v q : parse_pattern p = Ok (v, q) -> consumes 1 p q.
Proof.
  unfold parse_pattern. intros H. bind_ok H. destruct r as [t p'].
  injection H as <- <-. by eapply consumes_token.
Qed.

Create HintDb consume.
#[local] Hint Resolve consumes_skip consumes_orderable consumes_pattern consumes_token
  consumes_peek_advance : consume.

Lemma advance_consumes0 p : consumes 0 p (advance p).2.
Proof.
  unfold advance. destruct (remaining p) as [|c r] eqn:E; [apply consumes_refl|].
  apply (consumes_weaken 1); [lia|]. apply (consumes_cons c r); [done|]. apply consumes_refl.
Qed.

Lemma starts_with_drop k p :
  starts_with k (remaining p) = true -> exists r, remaining p = k ++ r.
Proof.
  unfold starts_with. intros H%bool_decide_eq_true. destruct H as [r H]. exists r.
  revert H. generalize (remaining p). induction k as [|c k IH]; intros [|d s]; simpl; try congruence.
  destruct (Z.eqb_spec c d); [|done]. intros ->%IH. by subst.
Qed.

Lemma consumes_dots p :
  starts_with (lit "..") (remaining p) = true ->
  consumes 0 p {| pos := pos p + 2; remaining := drop 2 (remaining p) |}.
Proof.
  intros [r E]%starts_with_drop. exists (lit ".."). simpl. rewrite E. split_and!; [done|done|simpl; lia].
Qed.

Lemma consumes_atom p a q : parse_atom p = Ok (a, q) -> consumes 1 p q.
Proof.
  unfold parse_atom. pose proof (consumes_skip p) as Hs. set (p0 := skip_whitespace p) in *.
  pose proof (advance_consumes0 p0) as H0. pose proof (advance_consumes0 (advance p0).2) as H1.
  destruct (peek p0) as [c|]; [|done]. intros H.
  apply (consumes_trans 0 1 p p0 q Hs).
  destruct (c =? ch "<"); [|destruct (c =? ch ">")].
  - destruct (peek_is (advance p0).2 (ch ">")); [|destruct (peek_is (advance p0).2 (ch "="))];
      bind_ok H; destruct r as [v p']; injection H as <- <-;
      apply (consumes_trans 0 1 _ _ _ H0); [apply (consumes_trans 0 1 _ _ _ H1)..|]; eauto with consume.
  - destruct (peek_is (advance p0).2 (ch "="));
      bind_ok H; destruct r as [v p']; injection H as <- <-;
      apply (consumes_trans 0 1 _ _ _ H0); [apply (consumes_trans 0 1 _ _ _ H1)|]; eauto with consume.
  - destruct (read_token p0) as [[t1 p1]|] eqn:T1; [|done]. apply consumes_token in T1.
    cbn [res_bind] in H.
    apply (consumes_trans 1 0 _ _ _ T1), (consumes_trans 0 0 _ _ _ (consumes_skip p1)). destruct (starts_with _ _) eqn:Ed.
    + bind_ok H. destruct r as [t2 p2]. bind_ok H. bind_ok H. injection H as <- <-.
      apply (consumes_weaken 1); [lia|]. apply (consumes_trans 0 1 _ _ _ (consumes_dots _ Ed)).
      by eapply consumes_token.
    + injection H as <- <-. apply consumes_refl.
Qed.

(** The errors of the productions: never [EmptyFilter], [UnexpectedChar] or
    [InvalidRange]. *)
Definition syntax_error (e : FilterParseError) : Prop := e = UnexpectedEnd \/ e = UnmatchedParen.

Lemma read_token_error p e : read_token p = Err e -> e = UnexpectedEnd.
Proof.
  assert (forall quote n s e, read_quoted quote n s = Err e -> e = UnexpectedEnd) as Hq.
  { intros quote n s. revert n. induction s as [|c s IH]; intros n e'; simpl; [congruence|].
    destruct (c =? quote); [done|]. destruct (read_quoted _ _ _) as [[]|] eqn:E; [done|].
    intros [= <-]. by eapply IH. }
  unfold read_token. destruct (remaining _) as [|c r]; [congruence|]. destruct (_ || _).
  - apply Hq.
  - destruct (read_plain _ _) as [[|] ?]; congruence.
Qed.

Lemma parse_orderable_str_some s : exists v, parse_orderable_str s = Some v.
Proof. unfold parse_orderable_str. repeat case_match; eauto. Qed.

Lemma parse_atom_error p e : parse_atom p = Err e -> e = UnexpectedEnd.
Proof.
  assert (forall p e, parse_orderable p = Err e -> e = UnexpectedEnd) as Ho.
  { intros p' e'. unfold parse_orderable. destruct (read_token p') as [[t q]|] eqn:E.
    - cbn [res_bind]. by destruct (parse_orderable_str_some t) as [v ->].
    - intros [= <-]. by eapply read_token_error. }
  assert (forall p e, parse_pattern p = Err e -> e = UnexpectedEnd) as Hp.
  { intros p' e'. unfold parse_pattern. destruct (read_token p') as [[t q]|] eqn:E; [done|].
    intros [= <-]. by eapply read_token_error. }
  unfold parse_atom. destruct (peek _); [|congruence].
  repeat case_match; try (destruct (parse_orderable _) as [[]|] eqn:E; [done|]; intros [= <-]; eauto; fail);
    try (destruct (parse_pattern _) as [[]|] eqn:E; [done|]; intros [= <-]; eauto; fail).
  destruct (read_token _) as [[t1 p1]|] eqn:E1; cbn [res_bind].
  - clear E1. destruct (starts_with _ _); [|done].
    destruct (read_token _) as [[t2 p2]|] eqn:E2; cbn [res_bind].
    + destruct (parse_orderable_str_some t1) as [? ->]. cbn [res_bind ok_or].
      by destruct (parse_orderable_str_some t2) as [? ->].
    + intros [= <-]. by eapply read_token_error.
  - intros [= <-]. by eapply read_token_error.
Qed.

(** A production that ran on [p]: it consumed at least [n] characters or
    failed. *)
Definition ran (n : nat) (p : Parser) (r : option (PRes FilterExpr)) : Prop :=
  match r with
  | None => False
  | Some (Ok (_, q)) => consumes n p q
  | Some (Err e) => syntax_error e
  end.

Lemma ran_trans n m p q r : consumes n p q -> ran m q r -> ran (n + m) p r.
Proof.
  intros H. destruct r as [[[e q']|e]|]; simpl; [|done..]. by apply consumes_trans.
Qed.

Lemma ran_weaken n m p r : (m <= n)%nat -> ran n p r -> ran m p r.
Proof. intros ?. destruct r as [[[e q']|e]|]; simpl; [|done..]. by apply consumes_weaken. Qed.

(** A production followed by another. *)
Lemma ran_then n p r k :
  ran n p r -> (forall e q, consumes n p q -> ran 0 q (k e q)) ->
  ran n p (match r with
           | Some (Ok (e, q)) => k e q
           | Some (Err e) => Some (Err e)
           | None => None
           end).
Proof.
  intros Hr Hk. destruct r as [[[e q]|e]|]; simpl in *; [|done..].
  replace n with (n + 0)%nat by lia. eapply ran_trans; eauto.
Qed.

Lemma consumes_operator p (c : char) :
  peek_is (skip_whitespace p) c = true -> consumes 1 p (advance (skip_whitespace p)).2.
Proof.
  intros H. apply (consumes_trans 0 1 _ _ _ (consumes_skip p)). by eapply consumes_peek_advance.
Qed.

(** Fuel proportional to the input left is enough for every production. *)
Lemma productions_run fuel :
  (forall p, (3 * length (remaining p) + 3 <= fuel)%nat -> ran 1 p (parse_expr fuel p)) /\
  (forall terms p, (3 * length (remaining p) + 1 <= fuel)%nat -> ran 0 p (or_loop fuel terms p)) /\
  (forall p, (3 * length (remaining p) + 2 <= fuel)%nat -> ran 1 p (parse_and fuel p)) /\
  (forall terms p, (3 * length (remaining p) + 1 <= fuel)%nat -> ran 0 p (and_loop fuel terms p)) /\
  (forall p, (3 * length (remaining p) + 1 <= fuel)%nat -> ran 1 p (parse_primary fuel p)).
Proof.
  induction fuel as [|fuel (IHe & IHo & IHa & IHl & IHp)]; [split_and!; intros; lia|].
  split_and!.
  - intros p Hf. cbn [parse_expr]. apply ran_then; [apply IHa; lia|].
    intros e q H%consumes_length. apply IHo. lia.
  - intros terms p Hf. cbn [or_loop]. cbv zeta. destruct (peek_is _ _) eqn:E.
    + pose proof (consumes_operator _ _ E) as H. pose proof (consumes_length _ _ _ H).
      apply (ran_weaken 2); [lia|]. apply (ran_trans 1 1 _ _ _ H).
      apply ran_then; [apply IHa; lia|]. intros e q H'%consumes_length. apply IHo. lia.
    + simpl. apply consumes_skip.
  - intros p Hf. cbn [parse_and]. apply ran_then; [apply IHp; lia|].
    intros e q H%consumes_length. apply IHl. lia.
  - intros terms p Hf. cbn [and_loop]. cbv zeta. destruct (peek_is _ _) eqn:E.
    + pose proof (consumes_operator _ _ E) as H. pose proof (consumes_length _ _ _ H).
      apply (ran_weaken 2); [lia|]. apply (ran_trans 1 1 _ _ _ H).
      apply ran_then; [apply IHp; lia|]. intros e q H'%consumes_length. apply IHl. lia.
    + simpl. apply consumes_skip.
  - intros p Hf. cbn [parse_primary]. cbv zeta. destruct (peek_is _ _) eqn:E.
    + pose proof (consumes_operator _ _ E) as H. pose proof (consumes_length _ _ _ H).
      apply (ran_weaken 2); [lia|]. apply (ran_trans 1 1 _ _ _ H).
      apply ran_then; [apply IHe; lia|]. intros e q H'.
      destruct (advance (skip_whitespace q)) as [[c|] q'] eqn:Ea; [|by right].
      destruct (c =? 41); [|by right]. simpl.
      apply (consumes_trans 0 0 _ _ _ (consumes_skip q)), (consumes_weaken 1); [lia|].
      by eapply consumes_advance.
    + destruct (parse_atom _) as [[a q]|e] eqn:Ea; cbn [res_bind ran].
      * apply (consumes_trans 0 1 _ _ _ (consumes_skip p)). by eapply consumes_atom.
      * left. by eapply parse_atom_error.
Qed.

(** * More fuel changes nothing *)

Lemma productions_mono fuel :
  (forall p r, parse_expr fuel p = Some r -> parse_expr (S fuel) p = Some r) /\
  (forall terms p r, or_loop fuel terms p = Some r -> or_loop (S fuel) terms p = Some r) /\
  (forall p r, parse_and fuel p = Some r -> parse_and (S fuel) p = Some r) /\
  (forall terms p r, and_loop fuel terms p = Some r -> and_loop (S fuel) terms p = Some r) /\
  (forall p r, parse_primary fuel p = Some r -> parse_primary (S fuel) p = Some r).
Proof.
  induction fuel as [|fuel (IHe & IHo & IHa & IHl & IHp)]; [split_and!; intros; done|].
  split_and!.
  - intros p r. cbn [parse_expr]. destruct (parse_and fuel p) as [r'|] eqn:E; [|done].
    apply IHa in E. cbn [parse_and] in E |- *. rewrite E. destruct r' as [[e q]|]; [|done]. apply IHo.
  - intros terms p r. cbn [or_loop]. cbv zeta. destruct (peek_is _ _); [|done].
    destruct (parse_and fuel _) as [r'|] eqn:E; [|done].
    apply IHa in E. cbn [parse_and] in E |- *. rewrite E. destruct r' as [[e q]|]; [|done]. apply IHo.
  - intros p r. cbn [parse_and]. destruct (parse_primary fuel p) as [r'|] eqn:E; [|done].
    apply IHp in E. cbn [parse_primary] in E |- *. rewrite E. destruct r' as [[e q]|]; [|done]. apply IHl.
  - intros terms p r. cbn [and_loop]. cbv zeta. destruct (peek_is _ _); [|done].
    destruct (parse_primary fuel _) as [r'|] eqn:E; [|done].
    apply IHp in E. cbn [parse_primary] in E |- *. rewrite E. destruct r' as [[e q]|]; [|done]. apply IHl.
  - intros p r. cbn [parse_primary]. cbv zeta. destruct (peek_is _ _); [|done].
    destruct (parse_expr fuel _) as [r'|] eqn:E; [|done].
    apply IHe in E. cbn [parse_expr] in E |- *. rewrite E. done.
Qed.
End parser.
