(* ===== verification/FilterSpec.v ===== *)
(** What the filter expressions of [Filters.v] promise: the parser answers on
    every input and locates what it rejects, reads back what a printer writes,
    the table of the wildcard matcher computes the matching relation, and a range
    selects exactly the integers between its bounds.  The printer quotes every
    token, and puts parentheses exactly where the grammar of [Filters.v] needs
    them. *)

From Stdlib Require Import ZArith Lia.
From stdpp Require Import base tactics numbers option list strings.
From S2P Require Import Prelude RustStr Cursors Decimals Values Slots Filters FilterFacts.

#[local] Open Scope Z_scope.
#[local] Open Scope rust_scope.

(** Two parser results that differ in how the position is written. *)
Ltac state_eq :=
  rewrite ?str_len_app;
  repeat match goal with
  | |- Some _ = Some _ => apply f_equal
  | |- Ok _ = Ok _ => apply f_equal
  | |- (_, _) = (_, _) => apply f_equal2; [done|]
  | |- Build_Parser _ _ = Build_Parser _ _ => apply f_equal2; [|done]
  end; unfold str_len; simpl;
  change (len_utf8 38) with 1; change (len_utf8 39) with 1; change (len_utf8 40) with 1;
  change (len_utf8 41) with 1; change (len_utf8 46) with 1; change (len_utf8 124) with 1; lia.

Section print.
Context {D : Decimal}.

(** * The printer *)

Definition quoted (s : str) : str := 39 :: s ++ [39].

Definition show_value (v : OrderableValue) : str :=
  match v with
  | OInteger n => i64_to_str n
  | ODecimal d => dec_to_str d
  | OText s => s
  end.

Definition show_pattern (p : Pattern) : str :=
  (if case_sensitive p then [] else lit "@") ++ text p.

Definition show_atom (a : FilterAtom) : str :=
  match a with
  | Equals p => quoted (show_pattern p)
  | NotEqual p => lit "<>" ++ quoted (show_pattern p)
  | LessThan v => lit "<" ++ quoted (show_value v)
  | LessEqual v => lit "<=" ++ quoted (show_value v)
  | GreaterThan v => lit ">" ++ quoted (show_value v)
  | GreaterEqual v => lit ">=" ++ quoted (show_value v)
  | Range lo hi => quoted (show_value lo) ++ lit ".." ++ quoted (show_value hi)
  end.

Definition parens (b : bool) (s : str) : str := if b then ch "(" :: s ++ [ch ")"] else s.

Definition join (sep : char) (l : list str) : str :=
  match l with
  | [] => []
  | s :: l => s ++ (l ≫= fun t => sep :: t)
  end.

(** [level] is the production that has to read the text: 0 for [parse_expr],
    1 for [parse_and], 2 for [parse_primary]. *)
Fixpoint show (level : nat) (e : FilterExpr) : str :=
  match e with
  | Or ts => parens (0 <? level)%nat (join (ch "|") (map (show 1) ts))
  | And ts => parens (1 <? level)%nat (join (ch "&") (map (show 2) ts))
  | Atom a => show_atom a
  end.

(** * Canonical expressions

    What the parser can produce and the quoting can carry: operators have
    two operands or more, a bound is what its text reads as, and no token
    holds the quote. *)

Definition good_token (s : str) : Prop := 39 ∉ s.

Definition good_pattern (p : Pattern) : Prop :=
  good_token (text p) /\ (case_sensitive p = true -> starts_with (lit "@") (text p) = false).

Definition good_value (v : OrderableValue) : Prop :=
  good_token (show_value v) /\ parse_orderable_str (show_value v) = Some v.

Definition good_atom (a : FilterAtom) : Prop :=
  match a with
  | Equals p | NotEqual p => good_pattern p
  | LessThan v | LessEqual v | GreaterThan v | GreaterEqual v => good_value v
  | Range lo hi => good_value lo /\ good_value hi
  end.

Fixpoint canonical (e : FilterExpr) : Prop :=
  match e with
  | Or ts | And ts => (2 <= length ts)%nat /\ foldr (fun t P => canonical t /\ P) True ts
  | Atom a => good_atom a
  end.

Fixpoint FilterExpr_nested_ind (P : FilterExpr -> Prop)
  (HOr : forall ts, Forall P ts -> P (Or ts)) (HAnd : forall ts, Forall P ts -> P (And ts))
  (HAtom : forall a, P (Atom a)) (e : FilterExpr) : P e :=
  let all := fix all ts : Forall P ts :=
    match ts with
    | [] => List.Forall_nil P
    | t :: ts => List.Forall_cons P t ts (FilterExpr_nested_ind P HOr HAnd HAtom t) (all ts)
    end in
  match e with
  | Or ts => HOr ts (all ts)
  | And ts => HAnd ts (all ts)
  | Atom a => HAtom a
  end.

Lemma canonical_terms ts : foldr (fun t P => canonical t /\ P) True ts <-> Forall canonical ts.
Proof. induction ts; simpl; rewrite ?Forall_cons, ?Forall_nil; naive_solver. Qed.

(** ** Integers are good bounds *)

Lemma i64_to_str_token n : good_token (i64_to_str n).
Proof.
  assert (forall m, 0 <= m -> 39 ∉ u64_to_str m) as H.
  { intros m Hm Hin. pose proof (u64_to_str_digits m Hm) as Hd. rewrite Forall_forall in Hd.
    by specialize (Hd 39 Hin). }
  unfold good_token, i64_to_str. destruct (Z.ltb_spec n 0).
  - rewrite not_elem_of_cons. split; [done|]. apply H. lia.
  - by apply H.
Qed.

Lemma good_integer n : in_i64 n = true -> good_value (OInteger n).
Proof.
  intros Hn. split; [apply i64_to_str_token|].
  simpl. unfold parse_orderable_str. by rewrite parse_i64_to_str.
Qed.

(** * The tokens read back *)

Abbreviation st n s := {| pos := n; remaining := s |}.

Lemma skip_solid n c s : is_blank c = false -> skip_whitespace (st n (c :: s)) = st n (c :: s).
Proof. unfold skip_whitespace. simpl. by intros ->. Qed.

Lemma skip_nil n : skip_whitespace (st n []) = st n [].
Proof. done. Qed.

Lemma read_quoted_back q n s rest :
  q ∉ s -> read_quoted q n (s ++ q :: rest) = Ok (s, st (n + str_len (s ++ [q])) rest).
Proof.
  revert n. induction s as [|c s IH]; intros n Hs; simpl.
  - rewrite Z.eqb_refl. state_eq.
  - rewrite not_elem_of_cons in Hs. destruct Hs as [Hc Hs].
    destruct (Z.eqb_spec c q); [done|]. rewrite IH by done. state_eq.
Qed.

Lemma read_token_back n s rest :
  good_token s -> read_token (st n (quoted s ++ rest)) = Ok (s, st (n + str_len (quoted s)) rest).
Proof.
  intros Hs. unfold quoted, read_token. cbn [app]. rewrite skip_solid by done. cbn [pos remaining].
  cbn [Z.eqb orb Pos.eqb]. rewrite <- app_assoc. cbn [app]. rewrite read_quoted_back by done.
  change (39 :: s ++ [39]) with ([39] ++ s ++ [39]). state_eq.
Qed.

Lemma show_pattern_token p : good_pattern p -> good_token (show_pattern p).
Proof.
  intros [H _]. unfold good_token, show_pattern in *. destruct (case_sensitive p); [done|].
  rewrite elem_of_app. change (lit "@") with [64]. rewrite elem_of_cons, elem_of_nil. naive_solver.
Qed.

Lemma pattern_of_back p : good_pattern p -> pattern_of (show_pattern p) = p.
Proof.
  intros [_ H]. unfold pattern_of, show_pattern. destruct p as [t cs]. cbn [text case_sensitive] in *.
  destruct cs; cbn [app].
  - specialize (H eq_refl). rewrite H. unfold starts_with in H.
    apply bool_decide_eq_false, eq_None_not_Some in H. by rewrite H.
  - done.
Qed.

Lemma pattern_back n p rest :
  good_pattern p ->
  parse_pattern (st n (quoted (show_pattern p) ++ rest)) =
    Ok (p, st (n + str_len (quoted (show_pattern p))) rest).
Proof.
  intros H. unfold parse_pattern. rewrite read_token_back by by apply show_pattern_token.
  cbn [res_bind]. by rewrite pattern_of_back.
Qed.

Lemma orderable_back n v rest :
  good_value v ->
  parse_orderable (st n (quoted (show_value v) ++ rest)) =
    Ok (v, st (n + str_len (quoted (show_value v))) rest).
Proof.
  intros [Ht Hv]. unfold parse_orderable. rewrite read_token_back by done.
  cbn [res_bind]. by rewrite Hv.
Qed.

(** * The productions read back *)

(** What may follow a text read at [level]. *)
Definition follows (level : nat) (rest : str) : Prop :=
  match rest with
  | [] => True
  | c :: _ => c = ch ")" \/ (c = ch "|" /\ (1 <= level)%nat) \/ (c = ch "&" /\ (2 <= level)%nat)
  end.

Lemma follows_weaken l l' rest : (l <= l')%nat -> follows l rest -> follows l' rest.
Proof. destruct rest; simpl; [done|]. intros ? [?|[[]|[]]]; eauto with lia. Qed.

Lemma follows_skip l n rest : follows l rest -> skip_whitespace (st n rest) = st n rest.
Proof. destruct rest; [done|]. intros [->|[[-> _]|[-> _]]]; done. Qed.

Lemma follows_dots l rest : follows l rest -> starts_with (lit "..") rest = false.
Proof. destruct rest; [done|]. intros [->|[[-> _]|[-> _]]]; done. Qed.

Lemma quoted_cons s rest : quoted s ++ rest = 39 :: s ++ 39 :: rest.
Proof. unfold quoted. simpl. by rewrite <- app_assoc. Qed.

Lemma skip_quoted n s rest :
  skip_whitespace (st n (quoted s ++ rest)) = st n (quoted s ++ rest).
Proof. done. Qed.

Lemma peek_quoted n s rest : peek (st n (quoted s ++ rest)) = Some 39.
Proof. done. Qed.

Lemma atom_back n a rest :
  good_atom a -> follows 2 rest ->
  parse_atom (st n (show_atom a ++ rest)) = Ok (a, st (n + str_len (show_atom a)) rest).
Proof.
  intros Ha Hr. destruct a as [p|p|v|v|v|v|lo hi]; cbn [show_atom].
  all: match goal with
    | |- context [lit ?o ++ quoted _] => let l := eval vm_compute in (lit o) in change (lit o) with l
    | _ => idtac end.
  1: { unfold parse_atom. rewrite skip_quoted, peek_quoted. cbn [Z.eqb Pos.eqb].
    rewrite read_token_back by by apply show_pattern_token. cbn [res_bind].
    rewrite (follows_skip 2), (follows_dots 2), pattern_of_back by done. done. }
  1-5: unfold parse_atom; cbn [app]; rewrite skip_solid by done;
    cbn [peek remaining head advance fst snd pos Z.eqb Pos.eqb peek_is];
    rewrite quoted_cons; cbn [peek remaining head advance fst snd pos Z.eqb Pos.eqb peek_is];
    rewrite <- quoted_cons; rewrite ?pattern_back, ?orderable_back by done; cbn [res_bind]; state_eq.
  destruct Ha as [[Tl Hl] [Th Hh]]. rewrite <- !app_assoc. unfold parse_atom.
  rewrite skip_quoted, peek_quoted. cbn [Z.eqb Pos.eqb].
  rewrite read_token_back by done. cbn [res_bind]. change (lit "..") with [46; 46]. cbn [app].
  rewrite skip_solid by done. cbn [remaining pos drop].
  unfold starts_with. rewrite bool_decide_eq_true_2 by (simpl; eauto).
  rewrite drop_0, read_token_back by done. cbn [res_bind]. rewrite Hl, Hh. cbn [ok_or res_bind].
  change (46 :: 46 :: quoted (show_value hi)) with ([46; 46] ++ quoted (show_value hi)). state_eq.
Qed.

(** [reads prod s r]: the production, given enough fuel, reads [s] off the
    input and produces [r]. *)
Definition reads (prod : nat -> Parser -> option (PRes FilterExpr)) (rest s : str) (e : FilterExpr) : Prop :=
  forall n, exists fuel, prod fuel (st n (s ++ rest)) = Some (Ok (e, st (n + str_len s) rest)).

Lemma mono_le (A : Type) (prod : nat -> A -> option (PRes FilterExpr)) :
  (forall f p r, prod f p = Some r -> prod (S f) p = Some r) ->
  forall f f' p r, prod f p = Some r -> (f <= f')%nat -> prod f' p = Some r.
Proof. intros H f f' p r Hr Hle. induction Hle; eauto. Qed.

Lemma parse_primary_le f f' p r :
  parse_primary f p = Some r -> (f <= f')%nat -> parse_primary f' p = Some r.
Proof. apply (mono_le _ parse_primary). intros; by apply productions_mono. Qed.
Lemma parse_and_le f f' p r : parse_and f p = Some r -> (f <= f')%nat -> parse_and f' p = Some r.
Proof. apply (mono_le _ parse_and). intros; by apply productions_mono. Qed.
Lemma parse_expr_le f f' p r : parse_expr f p = Some r -> (f <= f')%nat -> parse_expr f' p = Some r.
Proof. apply (mono_le _ parse_expr). intros; by apply productions_mono. Qed.
Lemma and_loop_le ts f f' p r : and_loop f ts p = Some r -> (f <= f')%nat -> and_loop f' ts p = Some r.
Proof. apply (mono_le _ (fun f => and_loop f ts)). intros; by apply productions_mono. Qed.
Lemma or_loop_le ts f f' p r : or_loop f ts p = Some r -> (f <= f')%nat -> or_loop f' ts p = Some r.
Proof. apply (mono_le _ (fun f => or_loop f ts)). intros; by apply productions_mono. Qed.

(** The loops over the operands after the first. *)
Lemma and_loop_back ts acc rest n :
  follows 1 rest ->
  Forall (fun t => forall rest, follows 2 rest -> reads parse_primary rest (show 2 t) t) ts ->
  let s := map (show 2) ts ≫= fun t => ch "&" :: t in
  exists fuel, and_loop fuel acc (st n (s ++ rest)) =
    Some (Ok (one_or And (reverse ts ++ acc), st (n + str_len s) rest)).
Proof.
  intros Hr Hts. revert acc n. induction Hts as [|t ts Ht Hts IH]; intros acc n s; subst s.
  - exists 1%nat. cbn [and_loop map mbind list_bind app]. rewrite (follows_skip 1) by done.
    destruct (peek_is _ _) eqn:E.
    + destruct rest; simpl in *; [done|]. unfold peek_is in E. simpl in E.
      destruct Hr as [->|[[-> _]|[_ ?]]]; [done..|lia].
    + state_eq.
  - cbn [map]. rewrite bind_cons, <- !app_assoc. cbn [app].
    set (s := map (show 2) ts ≫= fun t => 38 :: t) in *.
    destruct (Ht (s ++ rest)) with (n := n + 1) as [f1 E1].
    { subst s. destruct ts; [by eapply follows_weaken; [|done]; lia|]. right. right. simpl. auto with lia. }
    destruct (IH (t :: acc) (n + 1 + str_len (show 2 t))) as [f2 E2].
    exists (S (f1 + f2)). cbn [and_loop]. rewrite skip_solid by done.
    cbn [peek_is peek remaining head Z.eqb Pos.eqb advance snd pos].
    change (len_utf8 38) with 1. rewrite (parse_primary_le f1 _ _ _ E1) by lia.
    rewrite (and_loop_le _ f2 _ _ _ E2) by lia. rewrite reverse_cons, <- app_assoc.
    change (38 :: show 2 t ++ s) with ([38] ++ show 2 t ++ s). state_eq.
Qed.

Lemma or_loop_back ts acc rest n :
  follows 0 rest ->
  Forall (fun t => forall rest, follows 1 rest -> reads parse_and rest (show 1 t) t) ts ->
  let s := map (show 1) ts ≫= fun t => ch "|" :: t in
  exists fuel, or_loop fuel acc (st n (s ++ rest)) =
    Some (Ok (one_or Or (reverse ts ++ acc), st (n + str_len s) rest)).
Proof.
  intros Hr Hts. revert acc n. induction Hts as [|t ts Ht Hts IH]; intros acc n s; subst s.
  - exists 1%nat. cbn [or_loop map mbind list_bind app]. rewrite (follows_skip 0) by done.
    destruct (peek_is _ _) eqn:E.
    + destruct rest; simpl in *; [done|]. unfold peek_is in E. simpl in E.
      destruct Hr as [->|[[_ ?]|[_ ?]]]; [done|lia..].
    + state_eq.
  - cbn [map]. rewrite bind_cons, <- !app_assoc. cbn [app].
    set (s := map (show 1) ts ≫= fun t => 124 :: t) in *.
    destruct (Ht (s ++ rest)) with (n := n + 1) as [f1 E1].
    { subst s. destruct ts; [by eapply follows_weaken; [|done]; lia|]. right. left. simpl. auto with lia. }
    destruct (IH (t :: acc) (n + 1 + str_len (show 1 t))) as [f2 E2].
    exists (S (f1 + f2)). cbn [or_loop]. rewrite skip_solid by done.
    cbn [peek_is peek remaining head Z.eqb Pos.eqb advance snd pos].
    change (len_utf8 124) with 1. rewrite (parse_and_le f1 _ _ _ E1) by lia.
    rewrite (or_loop_le _ f2 _ _ _ E2) by lia. rewrite reverse_cons, <- app_assoc.
    change (124 :: show 1 t ++ s) with ([124] ++ show 1 t ++ s). state_eq.
Qed.

Lemma one_or_many f ts : (2 <= length ts)%nat -> one_or f (reverse ts) = f ts.
Proof.
  intros H. unfold one_or. rewrite reverse_involutive.
  destruct (reverse ts) as [|? [|? ?]] eqn:E; [done| |done].
  apply (f_equal length) in E. rewrite length_reverse in E. simpl in E. lia.
Qed.

(** From one production to the one that calls it. *)
Lemma primary_to_and rest s e :
  follows 1 rest -> reads parse_primary rest s e -> reads parse_and rest s e.
Proof.
  intros Hr H n. destruct (H n) as [f E]. exists (S (S f)). cbn [parse_and].
  rewrite (parse_primary_le f _ _ _ E) by lia.
  destruct (and_loop_back [] [e] rest (n + str_len s) Hr) as [f' E']; [constructor|].
  cbn in E'. cbn [and_loop]. rewrite (follows_skip 1) by done. destruct (peek_is _ _) eqn:Ep; [|done].
  exfalso. destruct rest; [done|]. unfold peek_is in Ep. simpl in Ep, Hr.
  destruct Hr as [->|[[-> _]|[_ ?]]]; [done..|lia].
Qed.

Lemma and_to_expr rest s e :
  follows 0 rest -> reads parse_and rest s e -> reads parse_expr rest s e.
Proof.
  intros Hr H n. destruct (H n) as [f E]. exists (S (S f)). cbn [parse_expr].
  rewrite (parse_and_le f _ _ _ E) by lia.
  cbn [or_loop]. rewrite (follows_skip 0) by done. destruct (peek_is _ _) eqn:Ep; [|done].
  exfalso. destruct rest; [done|]. unfold peek_is in Ep. simpl in Ep, Hr.
  destruct Hr as [->|[[_ ?]|[_ ?]]]; [done|lia..].
Qed.

Lemma expr_to_primary rest s e :
  reads parse_expr (ch ")" :: rest) s e -> reads parse_primary rest (parens true s) e.
Proof.
  intros H n. destruct (H (n + 1)) as [f E]. exists (S f). cbn [parse_primary parens app].
  rewrite skip_solid by done. cbn [peek_is peek remaining head Z.eqb Pos.eqb advance snd pos].
  change (len_utf8 40) with 1. rewrite <- app_assoc. cbn [app]. rewrite E.
  rewrite skip_solid by done. cbn [advance remaining pos fst snd Z.eqb Pos.eqb].
  change (40 :: s ++ [41]) with ([40] ++ s ++ [41]). state_eq.
Qed.

(** ** Expressions *)

Definition production (level : nat) : nat -> Parser -> option (PRes FilterExpr) :=
  match level with 0%nat => parse_expr | 1%nat => parse_and | _ => parse_primary end.

(** Read at one level, read at every level. *)
Definition reads_all (e : FilterExpr) : Prop :=
  forall level rest, (level <= 2)%nat -> follows level rest -> reads (production level) rest (show level e) e.

Lemma reads_all_intro e :
  (forall rest, follows 2 rest -> reads parse_primary rest (show 2 e) e) ->
  (forall rest, follows 1 rest -> reads parse_and rest (show 1 e) e) ->
  (forall rest, follows 0 rest -> reads parse_expr rest (show 0 e) e) -> reads_all e.
Proof. intros H2 H1 H0 [|[|[|l]]] rest Hl Hr; [eauto..|lia]. Qed.

Lemma atom_reads_all a : good_atom a -> reads_all (Atom a).
Proof.
  intros Ha. assert (forall rest, follows 2 rest -> reads parse_primary rest (show_atom a) (Atom a)) as H2.
  { intros rest Hr n. exists 1%nat. cbn [parse_primary].
    pose proof (atom_back n a rest Ha Hr) as E.
    assert (exists c s, show_atom a = c :: s /\ is_blank c = false /\ c <> 40) as (c & s & Es & Hc & Hp)
      by (destruct a; eexists _, _; split_and!; done).
    rewrite Es in E |- *. cbn [app] in E |- *. rewrite skip_solid by done.
    cbn [peek_is peek remaining head]. destruct (Z.eqb_spec c 40); [done|].
    by rewrite E. }
  apply reads_all_intro; cbn [show]; [done|..].
  - intros rest Hr. apply primary_to_and, H2; [done|]. eapply follows_weaken; [|done]; lia.
  - intros rest Hr. apply and_to_expr, primary_to_and, H2; [done| |];
      by apply (follows_weaken 0); [lia|].
Qed.

Lemma and_reads ts rest :
  (2 <= length ts)%nat -> Forall reads_all ts -> follows 1 rest ->
  reads parse_and rest (join (ch "&") (map (show 2) ts)) (And ts).
Proof.
  intros Hl Hts Hr n. destruct ts as [|t ts]; [simpl in Hl; lia|].
  inversion_clear Hts as [|? ? Ht Hts']. cbn [join map].
  set (s := map (show 2) ts ≫= fun t => 38 :: t).
  destruct (Ht 2%nat (s ++ rest)) with (n := n) as [f1 E1]; [lia|..].
  { subst s. destruct ts; [by eapply follows_weaken; [|done]; lia|]. right. right. simpl. auto with lia. }
  destruct (and_loop_back ts [t] rest (n + str_len (show 2 t)) Hr) as [f2 E2].
  { eapply Forall_impl; [exact Hts'|]. intros t' H rest' Hr'. by apply (H 2%nat). }
  exists (S (f1 + f2)). cbn [parse_and]. rewrite <- app_assoc.
  rewrite (parse_primary_le f1 _ _ _ E1) by lia. cbv zeta in E2. fold s in E2.
  rewrite (and_loop_le _ f2 _ _ _ E2) by lia.
  rewrite <- (reverse_cons ts t), one_or_many by done. state_eq.
Qed.

Lemma or_reads ts rest :
  (2 <= length ts)%nat -> Forall reads_all ts -> follows 0 rest ->
  reads parse_expr rest (join (ch "|") (map (show 1) ts)) (Or ts).
Proof.
  intros Hl Hts Hr n. destruct ts as [|t ts]; [simpl in Hl; lia|].
  inversion_clear Hts as [|? ? Ht Hts']. cbn [join map].
  set (s := map (show 1) ts ≫= fun t => 124 :: t).
  destruct (Ht 1%nat (s ++ rest)) with (n := n) as [f1 E1]; [lia|..].
  { subst s. destruct ts; [by eapply follows_weaken; [|done]; lia|]. right. left. simpl. auto with lia. }
  destruct (or_loop_back ts [t] rest (n + str_len (show 1 t)) Hr) as [f2 E2].
  { eapply Forall_impl; [exact Hts'|]. intros t' H rest' Hr'. apply (H 1%nat); [lia|done]. }
  exists (S (f1 + f2)). cbn [parse_expr]. rewrite <- app_assoc.
  rewrite (parse_and_le f1 _ _ _ E1) by lia. cbv zeta in E2. fold s in E2.
  rewrite (or_loop_le _ f2 _ _ _ E2) by lia.
  rewrite <- (reverse_cons ts t), one_or_many by done. state_eq.
Qed.

Lemma canonical_reads e : canonical e -> reads_all e.
Proof.
  induction e as [ts IH|ts IH|a] using FilterExpr_nested_ind; [intros [Hl Hc]..|apply atom_reads_all].
  - assert (Forall reads_all ts) as Hts.
    { apply canonical_terms in Hc. rewrite Forall_forall in *. eauto. }
    assert (forall rest, follows 2 rest -> reads parse_primary rest (show 2 (Or ts)) (Or ts)) as H2.
    { intros rest _. apply expr_to_primary, or_reads; [done..|]. by left. }
    apply reads_all_intro; [done| |].
    + intros rest Hr. apply primary_to_and, H2; [done|]. eapply follows_weaken; [|done]; lia.
    + intros rest Hr. by apply or_reads.
  - assert (Forall reads_all ts) as Hts.
    { apply canonical_terms in Hc. rewrite Forall_forall in *. eauto. }
    assert (forall rest, follows 1 rest -> reads parse_and rest (show 1 (And ts)) (And ts)) as H1.
    { intros rest Hr. by apply and_reads. }
    assert (forall rest, follows 0 rest -> reads parse_expr rest (show 0 (And ts)) (And ts)) as H0.
    { intros rest Hr. apply and_to_expr, H1; [done|]. eapply follows_weaken; [|done]; lia. }
    apply reads_all_intro; [|done..].
    intros rest _. apply expr_to_primary, H0. by left.
Qed.

(** ** The text has no blanks to trim *)

Lemma quoted_solid s : starts_solid (quoted s) /\ ends_solid (quoted s).
Proof. split; [by eexists 39, _|]. by exists (39 :: s), 39. Qed.

Lemma show_solid level e : canonical e -> starts_solid (show level e) /\ ends_solid (show level e).
Proof.
  assert (forall s, ends_solid (quoted s)) as Hq by (intros; apply quoted_solid).
  assert (forall sep l, l <> [] -> Forall (fun s => starts_solid s /\ ends_solid s) l ->
    starts_solid (join sep l) /\ ends_solid (join sep l)) as Hjoin.
  { intros sep l Hl Hs. destruct l as [|s l]; [done|]. inversion_clear Hs as [|? ? [H1 H2] Hs'].
    split; [by apply starts_solid_app|]. cbn [join]. clear H1. revert s H2 Hl.
    induction Hs' as [|t l [_ Ht] _ IH]; intros s H2 _; [by rewrite app_nil_r|].
    rewrite bind_cons, app_assoc. apply IH; [|done].
    by apply (ends_solid_app (s ++ [sep]) t) in Ht; rewrite <- app_assoc in Ht. }
  assert (forall b s, starts_solid s /\ ends_solid s -> starts_solid (parens b s) /\ ends_solid (parens b s)) as Hpar.
  { intros [] s H; [|done]. split; [by eexists 40, _|]. by exists (40 :: s), 41. }
  revert level. induction e as [ts IH|ts IH|a] using FilterExpr_nested_ind; intros level.
  1, 2: intros [Hl Hc]; rewrite canonical_terms in Hc; cbn [show]; apply Hpar, Hjoin;
    [by destruct ts; [simpl in Hl; lia|]|]; rewrite Forall_map;
    rewrite Forall_forall in *; naive_solver.
  intros _. destruct a; (split; [by eexists _, _|]); cbn [show show_atom]; auto using ends_solid_app.
Qed.
End print.

(** * The parser, the matcher and ranges *)

Section spec.
Context {D : Decimal}.

Abbreviation st n s := {| pos := n; remaining := s |}.

(** The fuel of [parse] is enough, so its answer is the productions'. *)
Lemma parse_answers expr : parse_top (parse_fuel (trim expr)) expr = Some (parse expr).
Proof.
  unfold parse, parse_top. destruct (trim expr) as [|c s] eqn:E; [done|].
  pose proof (proj1 (productions_run (parse_fuel (c :: s))) (new (c :: s))) as H.
  specialize (H ltac:(unfold parse_fuel, new; cbn [remaining]; lia)).
  destruct (parse_expr _ _) as [[[]|]|]; simpl in H |- *; [|done..]. by destruct (at_end _).
Qed.

(** What the parser reports: a located character, or a syntax error. *)
Definition located (s : str) (r : Res FilterParseError FilterExpr) : Prop :=
  match r with
  | Ok _ => s <> []
  | Err EmptyFilter => s = []
  | Err (UnexpectedChar c n) => exists pre post, s = pre ++ c :: post /\ n = str_len pre
  | Err (InvalidRange _ _) => False
  | Err UnexpectedEnd | Err UnmatchedParen => s <> []
  end.

(** [parse] answers on every input (the fuel never runs out), reports an
    empty filter exactly when the trimmed input is empty, and when it rejects
    a character, the character stands in the trimmed input at the byte
    position it reports; no range is ever reported invalid. *)
Lemma parse_total_and_located (expr : str) :
  parse_top (parse_fuel (trim expr)) expr = Some (parse expr) /\ located (trim expr) (parse expr).
Proof.
  split; [apply parse_answers|]. pose proof (parse_answers expr) as Ha. unfold parse_top in Ha.
  destruct (trim expr) as [|c s] eqn:E; [by injection Ha as <-|]. rewrite <- E in *.
  assert (trim expr <> []) as Hne by (by rewrite E).
  pose proof (proj1 (productions_run (parse_fuel (trim expr))) (new (trim expr))) as H.
  specialize (H ltac:(unfold parse_fuel, new; cbn [remaining]; lia)).
  destruct (parse_expr _ _) as [[[e q]|e]|]; simpl in H; [|by injection Ha as <-; destruct H as [->| ->]|done].
  destruct (at_end _) eqn:Ee; injection Ha as <-; [done|]. simpl.
  destruct (consumes_trans 1 0 _ _ _ H (consumes_skip q)) as (k & Ek & Pk & _). simpl in Ek, Pk.
  unfold at_end in Ee. unfold peek. destruct (remaining (skip_whitespace q)) as [|d r]; [done|].
  by exists k, r.
Qed.

(** Reading at one fuel is reading at the fuel of [parse]. *)
Lemma parse_reads s e :
  starts_solid s -> ends_solid s -> reads parse_expr [] s e -> parse s = Ok e.
Proof.
  intros Hs He H. pose proof (parse_answers s) as Ha. unfold parse_top in Ha.
  rewrite (trim_solid s Hs He) in Ha. destruct (H 0) as [f E]. rewrite app_nil_r in E.
  pose proof (proj1 (productions_run (parse_fuel s)) (new s)) as Hr.
  specialize (Hr ltac:(unfold parse_fuel, new; cbn [remaining]; lia)).
  destruct (parse_expr (parse_fuel s) (new s)) as [r|] eqn:E'; [|done].
  apply (parse_expr_le _ (f + parse_fuel s)) in E, E'; [|lia..].
  change (new s) with (st 0 s) in E'. rewrite E in E'. injection E' as <-.
  destruct s; [by destruct Hs as (? & ? & ? & ?)|]. by injection Ha as <-.
Qed.

(** Every canonical expression is read back exactly from its printed
    text: nesting, operator precedence, quoting, the [@] prefix and the typed
    bounds all survive the trip. *)
Lemma parse_show_roundtrip (e : FilterExpr) : canonical e -> parse (show 0 e) = Ok e.
Proof.
  intros H. destruct (show_solid 0 e H). apply parse_reads; [done..|].
  apply (canonical_reads e H 0%nat); [lia|done].
Qed.

(** * Ranges of integers *)

Definition plain_char (c : char) : Prop := is_delimiter c = false /\ c <> ch "." /\ c <> 39 /\ c <> 34.

(** What ends an unquoted token without being part of it. *)
Definition ends_token (rest : str) : Prop :=
  rest = [] \/ starts_with (lit "..") rest = true.

Lemma read_plain_back n s rest :
  Forall plain_char s -> ends_token rest ->
  read_plain n (s ++ rest) = (s, st (n + str_len s) rest).
Proof.
  intros Hs Hr. revert n. induction Hs as [|c s (Hd & Hdot & _) _ IH]; intros n.
  - simpl. rewrite Z.add_0_r. destruct Hr as [->|Hr]; [done|].
    destruct rest as [|c r]; [done|]. cbn [read_plain]. by rewrite Hr, orb_true_r.
  - cbn [read_plain app]. rewrite Hd. assert (starts_with (lit "..") (c :: s ++ rest) = false) as ->.
    { unfold starts_with. apply bool_decide_eq_false_2. change (lit "..") with [46; 46].
      cbn [strip_prefix]. destruct (Z.eqb_spec 46 c); [congruence|]. apply is_Some_None. }
    cbn [orb]. rewrite IH. state_eq.
Qed.

Lemma i64_to_str_plain n : Forall plain_char (i64_to_str n).
Proof.
  assert (forall m, 0 <= m -> Forall plain_char (u64_to_str m)) as H.
  { intros m Hm. eapply Forall_impl; [by apply u64_to_str_digits|]. intros c Hc.
    unfold is_ascii_digit in Hc. to_prop. unfold plain_char, is_delimiter, is_blank.
    rewrite !orb_false_iff, !Z.eqb_neq. lia. }
  unfold i64_to_str. destruct (Z.ltb_spec n 0); [constructor|]; [by split_and!| |]; apply H; lia.
Qed.

Lemma i64_to_str_cons n : exists c ds, i64_to_str n = c :: ds.
Proof.
  unfold i64_to_str. destruct (Z.ltb_spec n 0); [by eexists _, _|].
  destruct (u64_to_str_cons n) as (c & ds & E & _); eauto.
Qed.

Lemma integer_token n k rest :
  ends_token rest ->
  read_token (st n (i64_to_str k ++ rest)) = Ok (i64_to_str k, st (n + str_len (i64_to_str k)) rest).
Proof.
  intros Hr. pose proof (i64_to_str_plain k) as Hp. destruct (i64_to_str_cons k) as (c & ds & E).
  pose proof (read_plain_back n _ rest Hp Hr) as Hb. rewrite E in *. cbn [app] in *.
  inversion_clear Hp as [|? ? (Hd & _ & Hq1 & Hq2) _].
  assert (is_blank c = false) as Hblank by (unfold is_delimiter in Hd; to_prop; done).
  unfold read_token. rewrite skip_solid by done. cbn [remaining pos].
  destruct (Z.eqb_spec c 39), (Z.eqb_spec c 34); try done. cbn [orb]. by rewrite Hb.
Qed.

Lemma integer_value k : in_i64 k = true -> parse_orderable_str (i64_to_str k) = Some (OInteger k).
Proof. intros Hk. unfold parse_orderable_str. by rewrite parse_i64_to_str. Qed.

Lemma integer_range_atom n lo hi :
  in_i64 lo = true -> in_i64 hi = true ->
  parse_atom (st n (i64_to_str lo ++ lit ".." ++ i64_to_str hi)) =
    Ok (Range (OInteger lo) (OInteger hi),
        st (n + str_len (i64_to_str lo ++ lit ".." ++ i64_to_str hi)) []).
Proof.
  intros Hlo Hhi. pose proof (integer_token n lo (lit ".." ++ i64_to_str hi)) as Htok.
  pose proof (i64_to_str_plain lo) as Hp. destruct (i64_to_str_cons lo) as (c & ds & E).
  assert (c <> 60 /\ c <> 62) as [H60 H62].
  { unfold i64_to_str in E. destruct (Z.ltb_spec lo 0) as [|Hpos]; [injection E as <- _; lia|].
    pose proof (u64_to_str_digits lo ltac:(lia)) as Hd. rewrite E in Hd. inversion_clear Hd as [|? ? Hc _].
    unfold is_ascii_digit in Hc. to_prop. lia. }
  assert (skip_whitespace (st n (i64_to_str lo ++ lit ".." ++ i64_to_str hi)) =
          st n (i64_to_str lo ++ lit ".." ++ i64_to_str hi)) as Hskip.
  { rewrite E in *. inversion_clear Hp as [|? ? (Hd & _) _]. cbn [app]. apply skip_solid.
    unfold is_delimiter in Hd. to_prop. done. }
  unfold parse_atom. rewrite Hskip, Htok by by right.
  assert (peek (st n (i64_to_str lo ++ lit ".." ++ i64_to_str hi)) = Some c) as ->
    by (rewrite E; done).
  destruct (Z.eqb_spec c 60), (Z.eqb_spec c 62); try done. cbn [res_bind].
  change (lit "..") with [46; 46]. cbn [app]. rewrite skip_solid by done. cbn [remaining pos drop].
  unfold starts_with. rewrite bool_decide_eq_true_2 by (simpl; eauto).
  pose proof (integer_token (n + str_len (i64_to_str lo) + 2) hi [] ltac:(by left)) as Hh.
  rewrite app_nil_r in Hh. rewrite drop_0, Hh. cbn [res_bind]. rewrite !integer_value by done.
  cbn [ok_or res_bind]. change (46 :: 46 :: i64_to_str hi) with ([46; 46] ++ i64_to_str hi).
  state_eq.
Qed.
(** The filter parser reads what is written and answers on every input.
    Every canonical expression is read back exactly from its printed text:
    nesting, operator precedence, quoting, the [@] prefix and the typed bounds
    all survive the trip.  The fuel never runs out; an empty filter is reported
    exactly when the trimmed input is empty, and a rejected character stands in
    the trimmed input at the byte position that is reported; no range is ever
    reported invalid. *)
Lemma filter_parser_exact :
  (forall e, canonical e -> parse (show 0 e) = Ok e) /\
  (forall expr, parse_top (parse_fuel (trim expr)) expr = Some (parse expr) /\ located (trim expr) (parse expr)).
Proof. split; [exact parse_show_roundtrip|exact parse_total_and_located]. Qed.
End spec.

Section matching.
Context {D : Decimal} {U : Unicode}.

(** The number a cell is compared by. *)
Definition ordinal_of (v : Value) : option Z :=
  match v with
  | VInteger n | VBigInteger n | VDate n | VTime n | VDateTime n | VOption _ _ n => Some n
  | VEmpty => Some 0
  | _ => None
  end.

Definition between (lo hi : Z) (v : Value) : bool :=
  match v with
  | VDecimal d => is_ge (dec_cmp d (dec_from lo)) && is_le (dec_cmp d (dec_from hi))
  | _ => match ordinal_of v with Some n => (lo <=? n) && (n <=? hi) | None => false end
  end.

Lemma between_range lo hi v : atom_matches (Range (OInteger lo) (OInteger hi)) v = between lo hi v.
Proof.
  assert (forall n, is_ge (n ?= lo) && is_le (n ?= hi) = (lo <=? n) && (n <=? hi)) as H.
  { intros n. rewrite Z.leb_compare, Z.leb_compare, (Z.compare_antisym n lo).
    destruct (n ?= lo), (n ?= hi); done. }
  destruct v; first [exact (H _) | reflexivity].
Qed.

(** The text [lo..hi] parses, and selects exactly the cells between the
    bounds, the bounds included: integers, dates, times and options by their
    number, decimals by value, an empty cell as zero, no other cell. *)
Lemma integer_range_selects (lo hi : Z) :
  in_i64 lo = true -> in_i64 hi = true ->
  exists e, parse (i64_to_str lo ++ lit ".." ++ i64_to_str hi) = Ok e /\
    forall v, matches e v = between lo hi v.
Proof.
  intros Hlo Hhi. exists (Atom (Range (OInteger lo) (OInteger hi))). split; [|apply between_range].
  assert (forall k, starts_solid (i64_to_str k) /\ ends_solid (i64_to_str k)) as Hsolid.
  { intros k. pose proof (i64_to_str_plain k) as Hp. assert (Forall (fun c => is_whitespace c = false) (i64_to_str k)) as Hw.
    { clear Hp. unfold i64_to_str. assert (forall m, 0 <= m -> Forall (fun c => is_whitespace c = false) (u64_to_str m)).
      { intros m Hm. eapply Forall_impl; [by apply u64_to_str_digits|]. intros c Hc.
        unfold is_ascii_digit in Hc. unfold is_whitespace. to_prop.
        rewrite !orb_false_iff, !andb_false_iff, !Z.eqb_neq, !Z.leb_gt. lia. }
      destruct (Z.ltb_spec k 0); [constructor; [done|]|]; eauto with lia. }
    destruct (i64_to_str_cons k) as (c & ds & E). split.
    - exists c, ds. split; [done|]. rewrite E in Hw. by inversion_clear Hw.
    - destruct (i64_to_str k) as [|d r _] using rev_ind; [done|].
      exists r, d. split; [done|]. rewrite Forall_app, Forall_singleton in Hw. tauto. }
  apply parse_reads; [apply starts_solid_app, Hsolid|by apply ends_solid_app, ends_solid_app, Hsolid|].
  apply and_to_expr, primary_to_and; [done..|]. intros n. exists 1%nat. rewrite app_nil_r.
  pose proof (integer_range_atom n lo hi Hlo Hhi) as Ha. cbn [parse_primary].
  destruct (i64_to_str_cons lo) as (c & ds & E). pose proof (i64_to_str_plain lo) as Hp.
  assert (c <> 40) as Hc.
  { unfold i64_to_str in E. destruct (Z.ltb_spec lo 0) as [|Hpos]; [injection E as <- _; lia|].
    pose proof (u64_to_str_digits lo ltac:(lia)) as Hd. rewrite E in Hd. inversion_clear Hd as [|? ? Hd' _].
    unfold is_ascii_digit in Hd'. to_prop. lia. }
  rewrite E in *. inversion_clear Hp as [|? ? (Hd & _) _]. cbn [app] in *.
  rewrite skip_solid by (unfold is_delimiter in Hd; to_prop; done).
  cbn [peek_is peek remaining head]. destruct (Z.eqb_spec c 40); [done|]. by rewrite Ha.
Qed.

(** The matcher's table decides the matching relation: [*] stands for any
    text, [?] for one character, on the texts as given or both lower-cased. *)
Lemma wildcard_match_correct (pattern text : str) (ci : bool) :
  wildcard_match pattern text ci = true <->
  if ci then wild (str_lower pattern) (str_lower text) else wild pattern text.
Proof. unfold wildcard_match. destruct ci; apply wildcard_table. Qed.

(** C26: Filters are read as they are written and match what they should.
    Every canonical expression is read back exactly from its printed text:
    nesting, operator precedence, quoting, the [@] prefix and the typed bounds
    all survive the trip.  The fuel never runs out; an empty filter is reported
    exactly when the trimmed input is empty, and a rejected character stands in
    the trimmed input at the byte position that is reported; no range is ever
    reported invalid.  The matcher's table decides the matching relation: [*]
    stands for any text, [?] for one character, on the texts as given or both
    lower-cased. *)
Theorem filters_exact :
  ((forall e, canonical e -> parse (show 0 e) = Ok e) /\
      (forall expr, parse_top (parse_fuel (trim expr)) expr = Some (parse expr) /\ located (trim expr) (parse expr))) /\
  (forall (pattern text : str) (ci : bool),
    wildcard_match pattern text ci = true <->
      if ci then wild (str_lower pattern) (str_lower text) else wild pattern text).
Proof. exact (conj filter_parser_exact wildcard_match_correct). Qed.
End matching.

#[local] Existing Instances mini_decimal ascii_unicode.

(** An expression with every operator and a bound of each kind. *)
Definition sample_filter : FilterExpr :=
  Or [And [Or [Atom (Equals {| text := lit "A|B*"; case_sensitive := false |});
               Atom (LessThan (OInteger (-5)))];
           Atom (NotEqual {| text := lit " x "; case_sensitive := true |})];
      Atom (Range (OInteger 1) (OText (lit "zz")));
      Atom (GreaterEqual (OInteger 9223372036854775807))].

Lemma filters_exact_witness :
  canonical sample_filter /\ parse (show 0 sample_filter) = Ok sample_filter.
Proof.
  assert (canonical sample_filter) as H.
  { assert (forall s, bool_decide (39 ∈ s) = false -> good_token s) as Ht by (intros s; apply bool_decide_eq_false).
    cbn. unfold good_pattern, good_value.
    repeat split; try (apply Ht; vm_compute; reflexivity); try (intros; vm_compute; reflexivity); simpl; lia. }
  split; [exact H|]. exact (proj1 (proj1 filters_exact) sample_filter H).
Defined.

Lemma integer_range_selects_witness :
  exists e, parse (lit "-3..12") = Ok e /\
    map (matches e) [VInteger (-4); VInteger (-3); VEmpty; VDate 12; VInteger 13; VText (lit "5")] =
      [false; true; true; true; false; false].
Proof.
  destruct (integer_range_selects (-3) 12) as (e & He & Hm); [reflexivity..|].
  exists e. split; [exact He|]. cbn [map]. rewrite !Hm. reflexivity.
Defined.
