(* ===== verification/Records.v ===== *)
(** The in-memory record store ([mock/record.rs]).

    A [MockRecord] is one physical table: its rows, keyed by the normalised
    primary key in a [BTreeMap] ([OrdMap.v]).  A [RecordView] is the state one
    record variable keeps over it: the row buffer, xRec, the filters, the sort
    key and the cursor.  Every [*_in] operation takes the table and a view and
    returns what it leaves of both, with its result; an error can come with a
    changed view, as in the code. *)

From Stdlib Require Import ZArith Lia.
From stdpp Require Import base tactics numbers option list gmap strings.
From S2P Require Import Prelude RustStr OrdMap Decimals Values Slots Filters.

#[local] Open Scope Z_scope.
#[local] Open Scope rust_scope.

(** * Data *)

Abbreviation FieldNo := Z (only parsing).

Inductive FlowAgg := Sum | Average | Min | Max | Count | Exist | Lookup.

Inductive RecordError :=
  | NotFound
  | DuplicateKey
  | MissingKeyField (f : FieldNo)
  | NoCurrentRow
  | EndOfSet
  | FilterParse (f : FieldNo) (message : str)
  | TriggerExecutionUnsupported (operation : str)
  | FlowArithmeticOverflow (aggregate : str)
  | PrimaryKeyModifyAll (f : FieldNo)
  | InvalidFindDirection (direction : char).

(** [n as i32] of an [i64]. *)
Definition as_i32 (n : Z) : Z := (n + 2 ^ 31) mod 2 ^ 32 - 2 ^ 31.

(** [Display] of [FilterParseError]. *)
Definition filter_error_str (e : FilterParseError) : str :=
  match e with
  | UnexpectedEnd => lit "unexpected end of filter expression"
  | UnexpectedChar c n => lit "unexpected character '" ++ [c] ++ lit "' at position " ++ i64_to_str n
  | EmptyFilter => lit "empty filter expression"
  | UnmatchedParen => lit "unmatched parenthesis"
  | InvalidRange lo hi => lit "invalid range: '" ++ lo ++ lit ".." ++ hi ++ lit "'"
  end.

Section record.
Context {D : Decimal} {U : Unicode} {V : ValueOrder}.

Abbreviation PrimaryKey := (list Value).
Abbreviation Row := (gmap Z Value).

(** [Value]'s [==] is [Eq] of its order, and a key compares cell by cell. *)
Definition value_eqb (a b : Value) : bool := is_eq (vcmp a b).
Definition key_cmp : PrimaryKey -> PrimaryKey -> comparison := list_cmp vcmp.
Definition key_eqb (a b : PrimaryKey) : bool := is_eq (key_cmp a b).

Inductive FlowFilter :=
  | FlowEq (v : Value)
  | FlowExpr (e : FilterExpr).

Inductive FieldFilter :=
  | FieldRange (lo hi : Value)
  | FieldExpr (e : FilterExpr).

(** * Comparing a cell with a bound *)

Definition as_number (v : Value) : option decimal := as_decimal v.

Definition flow_text (v : Value) : option str :=
  match v with
  | VText s | VCode s | VGuid s => Some s
  | VOption _ member _ => Some member
  | VBoolean b => Some (bool_to_str b)
  | _ => None
  end.

Definition zero_like (bound : Value) : option Value :=
  match bound with
  | VInteger _ | VBigInteger _ => Some (VInteger 0)
  | VDecimal _ => Some (VDecimal dec_zero)
  | VBoolean _ => Some (VBoolean false)
  | VText _ => Some (VText [])
  | VCode _ => Some (VCode [])
  | VDate _ => Some (VDate 0)
  | VTime _ => Some (VTime 0)
  | VDateTime _ => Some (VDateTime 0)
  | VDuration _ => Some (VDuration 0)
  | VChar _ => Some (VChar 0)
  | VOption type_name member _ => Some (VOption type_name member 0)
  | _ => None
  end.

(** [std::mem::discriminant]. *)
Definition discriminant (v : Value) : Z :=
  match v with
  | VNull => 0 | VEmpty => 1 | VInteger _ => 2 | VDecimal _ => 3 | VBoolean _ => 4
  | VChar _ => 5 | VText _ => 6 | VCode _ => 7 | VTextBuilder _ => 8 | VJson _ => 9
  | VDate _ => 10 | VTime _ => 11 | VDateTime _ => 12 | VDuration _ => 13 | VGuid _ => 14
  | VOption _ _ _ => 15 | VRecord _ => 16 | VRecordRef _ => 17 | VVariant _ => 18
  | VArray _ => 19 | VList _ => 20 | VDict _ => 21 | VBlob _ => 22 | VErrorInfo _ => 23
  | VCodeunit _ _ => 24 | VBigInteger _ => 25 | VRange _ _ => 26
  end.

(** [field_cmp] of a cell that has a value, or of two empty cells. *)
Definition field_cmp_set (value bound : Value) : option comparison :=
  match as_number value, as_number bound with
  | Some x, Some y => Some (dec_cmp x y)
  | _, _ =>
      match flow_text value, flow_text bound with
      | Some x, Some y =>
          Some (match value with
                | VCode _ => str_cmp (to_uppercase x) (to_uppercase y)
                | _ => str_cmp x y
                end)
      | _, _ =>
          if discriminant value =? discriminant bound then Some (vcmp value bound) else None
      end
  end.

(** The code calls itself on the zero, which is never [VEmpty]. *)
Definition field_cmp (value bound : Value) : option comparison :=
  match value, bound with
  | VEmpty, VEmpty => field_cmp_set value bound
  | VEmpty, _ =>
      match zero_like bound with
      | None => None
      | Some zero => field_cmp_set zero bound
      end
  | _, _ => field_cmp_set value bound
  end.

Definition field_filter_matches (f : FieldFilter) (value : Value) : bool :=
  match f with
  | FieldRange lo hi =>
      some_and (field_cmp value lo) is_ge && some_and (field_cmp value hi) is_le
  | FieldExpr e => matches e value
  end.

(** * Keys *)

Definition normalize_key_value (value : Value) : Value :=
  match value with
  | VCode s => VCode (to_uppercase s)
  | VInteger n | VBigInteger n => VDecimal (dec_from n)
  | other => other
  end.

Definition normalize_key (key : PrimaryKey) : PrimaryKey := map normalize_key_value key.

Record SortKey := { fields : list Z; descending : bool }.

Definition from_fields (fs : list Z) : SortKey := {| fields := fs; descending := false |}.

Definition key_of (sk : SortKey) (row : Row) : list Value :=
  map (fun f => match row !! f with Some v => normalize_key_value v | None => VEmpty end) (fields sk).

(** * Views and tables *)

Record RecordView := {
  current : Row;
  x_rec : Row;
  filters : gmap Z FieldFilter;
  sort_key : SortKey;
  iter_set : list PrimaryKey;
  iter_pos : option nat;
}.

(** [RecordView::default()]. *)
Definition default_view : RecordView := {|
  current := ∅; x_rec := ∅; filters := ∅;
  sort_key := {| fields := []; descending := false |};
  iter_set := []; iter_pos := None;
|}.

Definition set_buffers (view : RecordView) (cur x : Row) : RecordView := {|
  current := cur; x_rec := x; filters := filters view;
  sort_key := sort_key view; iter_set := iter_set view; iter_pos := iter_pos view;
|}.
Definition set_current (view : RecordView) (cur : Row) : RecordView :=
  set_buffers view cur (x_rec view).
Definition set_cursor (view : RecordView) (keys : list PrimaryKey) (p : option nat) : RecordView := {|
  current := current view; x_rec := x_rec view; filters := filters view;
  sort_key := sort_key view; iter_set := keys; iter_pos := p;
|}.
Definition set_selection (view : RecordView) (fs : gmap Z FieldFilter) (sk : SortKey) : RecordView := {|
  current := current view; x_rec := x_rec view; filters := fs;
  sort_key := sk; iter_set := iter_set view; iter_pos := iter_pos view;
|}.

Definition copy_buffers_from (self other : RecordView) : RecordView :=
  set_buffers self (current other) (x_rec other).

Definition clear_cursor (self : RecordView) : RecordView := set_cursor self [] None.

Record MockRecord := {
  table_id : Z;
  table_name : str;
  primary_key_fields : list Z;
  rows : list (PrimaryKey * Row);
  field_defaults : gmap Z Value;
  view : RecordView;
}.

Definition set_rows (t : MockRecord) (r : list (PrimaryKey * Row)) : MockRecord := {|
  table_id := table_id t; table_name := table_name t;
  primary_key_fields := primary_key_fields t; rows := r;
  field_defaults := field_defaults t; view := view t;
|}.
Definition set_view (t : MockRecord) (v : RecordView) : MockRecord := {|
  table_id := table_id t; table_name := table_name t;
  primary_key_fields := primary_key_fields t; rows := rows t;
  field_defaults := field_defaults t; view := v;
|}.

Definition get_row (t : MockRecord) (key : PrimaryKey) : option Row := bt_get key_cmp key (rows t).
Definition has_row (t : MockRecord) (key : PrimaryKey) : bool := bt_contains key_cmp key (rows t).

Definition new_view (t : MockRecord) : RecordView :=
  set_selection default_view ∅ (from_fields (primary_key_fields t)).

Definition new_table (id : Z) (name : str) (pk : list Z) : MockRecord := {|
  table_id := id; table_name := name; primary_key_fields := pk; rows := [];
  field_defaults := ∅; view := set_selection default_view ∅ (from_fields pk);
|}.

Definition with_field_defaults (t : MockRecord) (defaults : gmap Z Value) : MockRecord := {|
  table_id := table_id t; table_name := table_name t;
  primary_key_fields := primary_key_fields t; rows := rows t;
  field_defaults := defaults; view := view t;
|}.

Definition row_matches_filters (fs : gmap Z FieldFilter) (row : Row) : bool :=
  forallb (fun ff => field_filter_matches ff.2 (default VEmpty (row !! ff.1))) (map_to_list fs).

(** The key of a row, a missing cell read as its field's zero value. *)
Fixpoint key_cells (defaults : gmap Z Value) (row : Row) (fs : list Z) : Res RecordError PrimaryKey :=
  match fs with
  | [] => Ok []
  | f :: fs =>
      v <-? ok_or (match row !! f with Some v => Some v | None => defaults !! f end) (MissingKeyField f) ;
      key <-? key_cells defaults row fs ;
      Ok (normalize_key_value v :: key)
  end.

Definition key_of_row (t : MockRecord) (row : Row) : Res RecordError PrimaryKey :=
  key_cells (field_defaults t) row (primary_key_fields t).

Definition current_primary_key (t : MockRecord) (vw : RecordView) : Res RecordError PrimaryKey :=
  key_of_row t (current vw).

(** * Buffers *)

Definition field_set_in (t : MockRecord) (vw : RecordView) (f : FieldNo) (v : Value) : RecordView :=
  set_current vw (<[f := v]> (current vw)).

Definition field_get_in (t : MockRecord) (vw : RecordView) (f : FieldNo) : option Value :=
  current vw !! f.

Definition init_in (t : MockRecord) (vw : RecordView) : RecordView :=
  let preserved := omap (fun f => v ← current vw !! f; Some (f, v)) (primary_key_fields t) in
  set_cursor
    (set_buffers vw (foldl (fun m fv => <[fv.1 := fv.2]> m) ∅ preserved) ∅)
    (iter_set vw) None.

Definition reset_in (t : MockRecord) (vw : RecordView) : RecordView :=
  clear_cursor (set_selection vw ∅ (from_fields (primary_key_fields t))).

Definition reload_stored_in (t : MockRecord) (vw : RecordView) : RecordView :=
  match current_primary_key t vw with
  | Ok key =>
      match get_row t (normalize_key key) with
      | Some row => set_buffers vw row row
      | None => vw
      end
  | Err _ => vw
  end.

Definition get_in (t : MockRecord) (vw : RecordView) (key : PrimaryKey) :
  RecordView * Res RecordError unit :=
  let key := normalize_key key in
  match get_row t key with
  | None => (vw, Err NotFound)
  | Some row => (set_buffers vw row row, Ok tt)
  end.

(** * Writing rows *)

(** What an operation leaves of the table and the view, and its result. *)
Definition Outcome A : Type := MockRecord * RecordView * Res RecordError A.

Definition insert_in (t : MockRecord) (vw : RecordView) (run_trigger : bool) : Outcome unit :=
  if run_trigger then (t, vw, Err (TriggerExecutionUnsupported (lit "Insert")))
  else match current_primary_key t vw with
  | Err e => (t, vw, Err e)
  | Ok key =>
      if has_row t key then (t, vw, Err DuplicateKey)
      else (set_rows t (bt_insert key_cmp key (current vw) (rows t)),
            set_buffers vw (current vw) (current vw), Ok tt)
  end.

Definition modify_in (t : MockRecord) (vw : RecordView) (run_trigger : bool) : Outcome unit :=
  if run_trigger then (t, vw, Err (TriggerExecutionUnsupported (lit "Modify")))
  else match current_primary_key t vw with
  | Err e => (t, vw, Err e)
  | Ok key =>
      match get_row t key with
      | None => (t, vw, Err NotFound)
      | Some old_row =>
          (set_rows t (bt_update key_cmp (fun _ => current vw) key (rows t)),
           set_buffers vw (current vw) old_row, Ok tt)
      end
  end.

(** The cursor is left alone: [Next] goes on from the deleted key. *)
Definition delete_in (t : MockRecord) (vw : RecordView) (run_trigger : bool) : Outcome unit :=
  if run_trigger then (t, vw, Err (TriggerExecutionUnsupported (lit "Delete")))
  else match current_primary_key t vw with
  | Err e => (t, vw, Err e)
  | Ok key =>
      match get_row t key with
      | None => (t, vw, Err NotFound)
      | Some _ => (set_rows t (bt_remove key_cmp key (rows t)), vw, Ok tt)
      end
  end.

Definition selected (vw : RecordView) (kr : PrimaryKey * Row) : bool :=
  row_matches_filters (filters vw) kr.2.

Definition selected_keys (t : MockRecord) (vw : RecordView) : list PrimaryKey :=
  bt_keys (List.filter (selected vw) (rows t)).

Definition delete_all_in (t : MockRecord) (vw : RecordView) (run_trigger : bool) : Outcome nat :=
  if run_trigger then (t, vw, Err (TriggerExecutionUnsupported (lit "Delete")))
  else
    let doomed := selected_keys t vw in
    (set_rows t (foldl (fun m key => bt_remove key_cmp key m) (rows t) doomed),
     clear_cursor vw, Ok (length doomed)).

(** ** Rename *)

Record PendingRename := { old_key : PrimaryKey; saved : Row }.

Definition start_rename_in (t : MockRecord) (vw : RecordView) (new_key_values : list (Z * Value)) :
  RecordView * Res RecordError PendingRename :=
  match current_primary_key t vw with
  | Err e => (vw, Err e)
  | Ok key =>
      (set_current vw (foldl (fun m fv => <[fv.1 := fv.2]> m) (current vw) new_key_values),
       Ok {| old_key := key; saved := current vw |})
  end.

Definition move_renamed_row (t : MockRecord) (vw : RecordView) (old : PrimaryKey) : Outcome unit :=
  match current_primary_key t vw with
  | Err e => (t, vw, Err e)
  | Ok new_key =>
      if negb (has_row t old) then (t, vw, Err NotFound)
      else if negb (key_eqb new_key old) && has_row t new_key then (t, vw, Err DuplicateKey)
      else
        let vw := match get_row t old with
                  | Some old_row => set_buffers vw (current vw) old_row
                  | None => vw
                  end in
        (set_rows t (bt_insert key_cmp new_key (current vw) (bt_remove key_cmp old (rows t))),
         vw, Ok tt)
  end.

Definition cancel_rename_in (t : MockRecord) (vw : RecordView) (pending : PendingRename) : RecordView :=
  set_current vw (saved pending).

Definition finish_rename_in (t : MockRecord) (vw : RecordView) (pending : PendingRename) : Outcome unit :=
  match move_renamed_row t vw (old_key pending) with
  | (t, vw, Err e) => (t, set_current vw (saved pending), Err e)
  | moved => moved
  end.

Definition rename_in (t : MockRecord) (vw : RecordView) (new_key_values : list (Z * Value)) : Outcome unit :=
  match start_rename_in t vw new_key_values with
  | (vw, Err e) => (t, vw, Err e)
  | (vw, Ok pending) => finish_rename_in t vw pending
  end.

(** * Selection *)

Definition set_current_key_in (t : MockRecord) (vw : RecordView) (fs : list Z) : RecordView :=
  clear_cursor (set_selection vw (filters vw) {| fields := fs; descending := descending (sort_key vw) |}).

Definition set_ascending_in (t : MockRecord) (vw : RecordView) (ascending : bool) : RecordView :=
  clear_cursor (set_selection vw (filters vw)
    {| fields := fields (sort_key vw); descending := negb ascending |}).

Definition is_ascending_in (t : MockRecord) (vw : RecordView) : bool := negb (descending (sort_key vw)).

Definition set_range_in (t : MockRecord) (vw : RecordView) (f : FieldNo) (low high : Value) : RecordView :=
  clear_cursor (set_selection vw (<[f := FieldRange low high]> (filters vw)) (sort_key vw)).

Definition clear_filter_in (t : MockRecord) (vw : RecordView) (f : FieldNo) : RecordView :=
  clear_cursor (set_selection vw (delete f (filters vw)) (sort_key vw)).

Definition set_filter_in (t : MockRecord) (vw : RecordView) (f : FieldNo) (expr : str) :
  RecordView * Res RecordError unit :=
  match parse expr with
  | Err e => (vw, Err (FilterParse f (filter_error_str e)))
  | Ok parsed =>
      (clear_cursor (set_selection vw (<[f := FieldExpr parsed]> (filters vw)) (sort_key vw)), Ok tt)
  end.

(** * Iteration *)

(** The keys come from [rows], so the [unwrap] of the code finds the row. *)
Definition row_at (t : MockRecord) (key : PrimaryKey) : Row := default ∅ (get_row t key).

Definition matching_keys_in (t : MockRecord) (vw : RecordView) : list PrimaryKey :=
  let sk := sort_key vw in
  let keys := sort_by
    (fun a b => list_cmp vcmp (key_of sk (row_at t a)) (key_of sk (row_at t b)))
    (selected_keys t vw) in
  if descending sk then reverse keys else keys.

Definition build_iter_set (t : MockRecord) (vw : RecordView) : RecordView :=
  set_cursor vw (matching_keys_in t vw) (iter_pos vw).

Definition load_row_at (t : MockRecord) (vw : RecordView) (p : nat) :
  RecordView * Res RecordError unit :=
  match iter_set vw !! p with
  | None => (vw, Err EndOfSet)
  | Some key =>
      match get_row t key with
      | None => (vw, Err NotFound)
      | Some row => (set_cursor (set_buffers vw row row) (iter_set vw) (Some p), Ok tt)
      end
  end.

(** [find_first_in] and [find_last_in], the position chosen by [pick]. *)
Definition find_at (pick : nat -> nat) (t : MockRecord) (vw : RecordView) :
  RecordView * Res RecordError bool :=
  let vw := build_iter_set t vw in
  match iter_set vw with
  | [] => (set_cursor vw (iter_set vw) None, Ok false)
  | _ =>
      match load_row_at t vw (pick (length (iter_set vw))) with
      | (vw, Ok _) => (vw, Ok true)
      | (vw, Err e) => (vw, Err e)
      end
  end.
Definition find_first_in : MockRecord -> RecordView -> RecordView * Res RecordError bool :=
  find_at (fun _ => 0%nat).
Definition find_last_in : MockRecord -> RecordView -> RecordView * Res RecordError bool :=
  find_at (fun len => (len - 1)%nat).
Definition find_set_in (t : MockRecord) (vw : RecordView) : RecordView * Res RecordError bool :=
  find_first_in t vw.

Definition find_in (t : MockRecord) (vw : RecordView) (direction : char) :
  RecordView * Res RecordError bool :=
  if direction =? ch "-" then find_first_in t vw
  else if direction =? ch "+" then find_last_in t vw
  else (vw, Err (InvalidFindDirection direction)).

(** The arithmetic is on [i64]; a set has fewer than 2^63 keys and a step is
    an [i32], so it does not wrap. *)
Definition next_in (t : MockRecord) (vw : RecordView) (steps : Z) :
  RecordView * Res RecordError Z :=
  match iter_pos vw with
  | None => (vw, Err NoCurrentRow)
  | Some current_pos =>
      if (steps =? 0) || match iter_set vw with [] => true | _ => false end then (vw, Ok 0)
      else
        let last := Z.of_nat (length (iter_set vw)) - 1 in
        let target := Z.of_nat current_pos + steps in
        let clamped := clamp target 0 last in
        let actual := clamped - Z.of_nat current_pos in
        if actual =? 0 then (vw, Ok 0)
        else match load_row_at t vw (Z.to_nat clamped) with
             | (vw, Err e) => (vw, Err e)
             | (vw, Ok _) => (vw, Ok (as_i32 actual))
             end
  end.

Definition is_empty_in (t : MockRecord) (vw : RecordView) : bool :=
  forallb (fun row => negb (row_matches_filters (filters vw) row)) (bt_values (rows t)).

Definition count_in (t : MockRecord) (vw : RecordView) : nat :=
  length (List.filter (row_matches_filters (filters vw)) (bt_values (rows t))).

(** * Whole-set updates *)

Definition modify_all_in (t : MockRecord) (vw : RecordView) (f : FieldNo) (v : Value)
  (run_trigger : bool) : MockRecord * Res RecordError nat :=
  if run_trigger then (t, Err (TriggerExecutionUnsupported (lit "ModifyAll")))
  else if bool_decide (f ∈ primary_key_fields t) then (t, Err (PrimaryKeyModifyAll f))
  else
    (set_rows t (map (fun kr => (kr.1, if selected vw kr then <[f := v]> kr.2 else kr.2)) (rows t)),
     Ok (count_in t vw)).

(** The moved rows with their old and new keys. *)
Fixpoint moved_rows (t : MockRecord) (f : FieldNo) (new : Value) (keys : list PrimaryKey) :
  Res RecordError (list (PrimaryKey * PrimaryKey * Row)) :=
  match keys with
  | [] => Ok []
  | key :: keys =>
      let row := <[f := new]> (row_at t key) in
      new_key <-? key_of_row t row ;
      moved <-? moved_rows t f new keys ;
      Ok ((key, new_key, row) :: moved)
  end.

(** [vacated] and [taken] are sets under the order of the keys. *)
Definition key_in (key : PrimaryKey) (keys : list PrimaryKey) : bool :=
  existsb (key_eqb key) keys.

Fixpoint any_collision (t : MockRecord) (vacated taken : list PrimaryKey) (new_keys : list PrimaryKey) : bool :=
  match new_keys with
  | [] => false
  | new_key :: new_keys =>
      (has_row t new_key && negb (key_in new_key vacated)) || key_in new_key taken
      || any_collision t vacated (new_key :: taken) new_keys
  end.

Definition replace_field_value (t : MockRecord) (f : FieldNo) (old new : Value) :
  MockRecord * Res RecordError nat :=
  let old := normalize_key_value old in
  let dflt := default VEmpty (field_defaults t !! f) in
  let matching := bt_keys (List.filter
    (fun kr : PrimaryKey * Row => value_eqb (normalize_key_value (default dflt (kr.2 !! f))) old) (rows t)) in
  if negb (bool_decide (f ∈ primary_key_fields t)) then
    (set_rows t (foldl (fun m key => bt_update key_cmp (fun row => <[f := new]> row) key m) (rows t) matching),
     Ok (length matching))
  else match moved_rows t f new matching with
  | Err e => (t, Err e)
  | Ok moved =>
      if any_collision t matching [] (map (fun m => m.1.2) moved) then (t, Err DuplicateKey)
      else
        let vacated := foldl (fun m mv => bt_remove key_cmp mv.1.1 m) (rows t) moved in
        (set_rows t (foldl (fun m mv => bt_insert key_cmp mv.1.2 mv.2 m) vacated moved),
         Ok (length matching))
  end.

(** * Aggregation *)

Fixpoint sum_loop (int_sum : Z) (dec_sum : decimal) (any_decimal : bool) (cells : list Value) :
  Res RecordError Value :=
  match cells with
  | [] => Ok (if any_decimal then VDecimal dec_sum else VInteger int_sum)
  | (VInteger n | VBigInteger n) :: cells =>
      i <-? ok_or (checked_add int_sum n) (FlowArithmeticOverflow (lit "Sum")) ;
      d <-? ok_or (dec_checked_add dec_sum (dec_from n)) (FlowArithmeticOverflow (lit "Sum")) ;
      sum_loop i d any_decimal cells
  | VDecimal x :: cells =>
      d <-? ok_or (dec_checked_add dec_sum x) (FlowArithmeticOverflow (lit "Sum")) ;
      sum_loop int_sum d true cells
  | _ :: cells => sum_loop int_sum dec_sum any_decimal cells
  end.
Definition sum_cells (cells : list Value) : Res RecordError Value := sum_loop 0 dec_zero false cells.

Definition selected_rows (t : MockRecord) (vw : RecordView) : list Row :=
  List.filter (row_matches_filters (filters vw)) (bt_values (rows t)).

Definition calc_sum_in (t : MockRecord) (vw : RecordView) (f : FieldNo) : Res RecordError Value :=
  total <-? sum_cells (omap (fun row : Row => row !! f) (selected_rows t vw)) ;
  Ok match total, field_defaults t !! f with
     | VInteger n, Some (VDecimal _) => VDecimal (dec_from n)
     | _, _ => total
     end.

Definition flow_value_eq (a b : Value) : bool :=
  if value_eqb a b then true
  else match as_number a, as_number b with
  | Some x, Some y => dec_eqb x y
  | _, _ =>
      match flow_text a, flow_text b with
      | Some x, Some y => str_eqb (to_uppercase x) (to_uppercase y)
      | _, _ => false
      end
  end.

Definition flow_filter_matches (f : FlowFilter) (cell : Value) : bool :=
  match f with
  | FlowEq want => flow_value_eq want cell
  | FlowExpr e => matches e cell
  end.

Fixpoint average_sum (sum : decimal) (nums : list decimal) : Res RecordError decimal :=
  match nums with
  | [] => Ok sum
  | n :: nums =>
      s <-? ok_or (dec_checked_add sum n) (FlowArithmeticOverflow (lit "Average")) ;
      average_sum s nums
  end.

(** [best] of [Min] and [Max] over the cells, in the order of the rows. *)
Definition better (agg : FlowAgg) (best : option Value) (cell : Value) : option Value :=
  match as_number cell with
  | None => best
  | Some cur =>
      match best with
      | None => Some cell
      | Some prev =>
          let prev_n := default cur (as_number prev) in
          let take := match agg with
                      | Min => is_lt (dec_cmp cur prev_n)
                      | _ => is_gt (dec_cmp cur prev_n)
                      end in
          Some (if take then cell else prev)
      end
  end.

Definition calc_flow (t : MockRecord) (conditions : list (Z * FlowFilter)) (target : option Z)
  (agg : FlowAgg) : Res RecordError Value :=
  let matching : list Row := List.filter
    (fun row : Row => forallb (fun c => flow_filter_matches c.2 (default VEmpty (row !! c.1))) conditions)
    (bt_values (rows t)) in
  let cell_of (row : Row) : option Value := f ← target; row !! f in
  let target_cells := omap cell_of matching in
  match agg with
  | Count =>
      n <-? ok_or (checked_i64 (Z.of_nat (length matching))) (FlowArithmeticOverflow (lit "Count")) ;
      Ok (VInteger n)
  | Exist => Ok (VBoolean match matching with [] => false | _ => true end)
  | Sum => sum_cells target_cells
  | Average =>
      match omap as_number target_cells with
      | [] => Ok (VDecimal dec_zero)
      | nums =>
          sum <-? average_sum dec_zero nums ;
          q <-? ok_or (dec_checked_div sum (dec_from (Z.of_nat (length nums))))
                  (FlowArithmeticOverflow (lit "Average")) ;
          Ok (VDecimal q)
      end
  | Min | Max =>
      let zero := f ← target; field_defaults t !! f in
      let cells := omap (fun row => match cell_of row with Some v => Some v | None => zero end) matching in
      Ok (default (VInteger 0) (foldl (better agg) None cells))
  | Lookup => Ok (default VEmpty (head target_cells))
  end.
End record.

(** * The plain API

    The methods without a view run on the table's built-in one, which is taken
    out of the table while they run ([with_default_view]). *)

Module Plain.
Section plain.
Context {D : Decimal} {U : Unicode} {V : ValueOrder}.

Implicit Types (t : MockRecord).

Definition with_default_view {R} t (f : MockRecord -> RecordView -> MockRecord * RecordView * R) : MockRecord * R :=
  let '(t', vw, result) := f (set_view t default_view) (view t) in
  (set_view t' vw, result).

(** A method that only changes the view. *)
Definition on_view {R} (f : MockRecord -> RecordView -> RecordView * R) t (vw : RecordView) :
  MockRecord * RecordView * R :=
  let '(vw, result) := f t vw in (t, vw, result).

Definition unit_result (f : MockRecord -> RecordView -> RecordView) t (vw : RecordView) : RecordView * unit :=
  (f t vw, tt).

Definition field_set t (f : Z) (v : Value) : MockRecord :=
  set_view t (set_current (view t) (<[f := v]> (current (view t)))).
Definition field_get t (f : Z) : option Value := current (view t) !! f.
Definition init t : MockRecord := (with_default_view t (on_view (unit_result init_in))).1.
Definition reset t : MockRecord := (with_default_view t (on_view (unit_result reset_in))).1.
Definition get t (key : list Value) : MockRecord * Res RecordError unit :=
  with_default_view t (on_view (fun t vw => get_in t vw key)).
Definition insert t (run_trigger : bool) : MockRecord * Res RecordError unit :=
  with_default_view t (fun t vw => insert_in t vw run_trigger).
Definition modify t (run_trigger : bool) : MockRecord * Res RecordError unit :=
  with_default_view t (fun t vw => modify_in t vw run_trigger).
Definition delete t (run_trigger : bool) : MockRecord * Res RecordError unit :=
  with_default_view t (fun t vw => delete_in t vw run_trigger).
Definition delete_all t (run_trigger : bool) : MockRecord * Res RecordError nat :=
  with_default_view t (fun t vw => delete_all_in t vw run_trigger).
Definition rename t (new_key_values : list (Z * Value)) : MockRecord * Res RecordError unit :=
  with_default_view t (fun t vw => rename_in t vw new_key_values).
Definition set_current_key t (fs : list Z) : MockRecord :=
  (with_default_view t (on_view (unit_result (fun t vw => set_current_key_in t vw fs)))).1.
Definition set_range t (f : Z) (low high : Value) : MockRecord :=
  (with_default_view t (on_view (unit_result (fun t vw => set_range_in t vw f low high)))).1.
Definition clear_filter t (f : Z) : MockRecord :=
  (with_default_view t (on_view (unit_result (fun t vw => clear_filter_in t vw f)))).1.
Definition set_filter t (f : Z) (expr : str) : MockRecord * Res RecordError unit :=
  with_default_view t (on_view (fun t vw => set_filter_in t vw f expr)).
Definition find_first t : MockRecord * Res RecordError bool := with_default_view t (on_view find_first_in).
Definition find_last t : MockRecord * Res RecordError bool := with_default_view t (on_view find_last_in).
Definition find_set t : MockRecord * Res RecordError bool := with_default_view t (on_view find_set_in).
Definition find t (direction : char) : MockRecord * Res RecordError bool :=
  with_default_view t (on_view (fun t vw => find_in t vw direction)).
Definition next t (steps : Z) : MockRecord * Res RecordError Z :=
  with_default_view t (on_view (fun t vw => next_in t vw steps)).
Definition is_empty t : bool := is_empty_in t (view t).
Definition count t : nat := count_in t (view t).
Definition x_rec_field t (f : Z) : option Value := x_rec (view t) !! f.
End plain.
End Plain.
