(* ===== verification/RecordFacts.v ===== *)
(** Facts about the record store of [Records.v]: the well-formedness of tables
    and views; its state space, one table and any number of record variables over
    it, each with its own view, taking turns, every operation keeping the table
    and every view well formed; and what each operation does to the rows, as
    lookups by key, and how the cursor moves. *)

From Stdlib Require Import ZArith Lia Sorting.Sorted Sorting.Permutation.
From stdpp Require Import base tactics numbers option list gmap strings sorting relations.
From S2P Require Import Prelude RustStr OrdMap Decimals Values Slots Filters Records.

#[local] Open Scope Z_scope.
#[local] Open Scope rust_scope.

Section record.
Context {D : Decimal} {U : Unicode} {V : ValueOrder} {VL : ValueOrderLaws V}.

Abbreviation PrimaryKey := (list Value).
Abbreviation Row := (gmap Z Value).
Abbreviation key_ok := (Forall scalar).

#[export] Instance key_order : OrderOn key_ok key_cmp.
Proof. unfold key_cmp. apply _. Qed.

(** * Well-formed tables *)

Definition row_ok (row : Row) : Prop := map_Forall (fun _ v => scalar v) row.

(** Rows sorted under scalar keys, every row under its own key. *)
Record store_wf (t : MockRecord) : Prop := {
  swf_rows : bt_wf key_cmp key_ok (rows t);
  swf_keyed : forall k row, (k, row) ∈ rows t ->
    exists k', key_of_row t row = Ok k' /\ key_cmp k' k = Eq;
  swf_cells : forall k row, (k, row) ∈ rows t -> row_ok row;
  swf_defaults : row_ok (field_defaults t);
}.

(** Scalar buffers and keys, the cursor inside its set. *)
Record view_wf (vw : RecordView) : Prop := {
  vwf_current : row_ok (current vw);
  vwf_x_rec : row_ok (x_rec vw);
  vwf_keys : Forall key_ok (iter_set vw);
  vwf_pos : forall p, iter_pos vw = Some p -> (p < length (iter_set vw))%nat;
}.

Lemma row_ok_empty : row_ok ∅.
Proof. apply map_Forall_empty. Qed.

Lemma row_ok_insert f v row : scalar v -> row_ok row -> row_ok (<[f := v]> row).
Proof. intros. by apply map_Forall_insert_2. Qed.

Lemma row_ok_foldl kvs row :
  Forall (fun fv : Z * Value => scalar fv.2) kvs -> row_ok row ->
  row_ok (foldl (fun m fv => <[fv.1 := fv.2]> m) row kvs).
Proof.
  intros H. revert row. induction H as [|fv kvs Hv _ IH]; intros row Hr; simpl; [done|].
  by apply IH, row_ok_insert.
Qed.

Lemma normalize_scalar v : scalar v -> scalar (normalize_key_value v).
Proof. by destruct v. Qed.

Lemma key_cells_ok defaults row fs k :
  row_ok row -> row_ok defaults -> key_cells defaults row fs = Ok k -> key_ok k.
Proof.
  intros Hr Hd. revert k. induction fs as [|f fs IH]; intros k; simpl; [by intros [= <-]|].
  destruct (row !! f) as [v|] eqn:E; [|destruct (defaults !! f) as [v|] eqn:E'; [|done]];
    simpl; destruct (key_cells _ _ _) as [k'|]; simpl; try done; intros [= <-];
    (constructor; [|by apply IH]); apply normalize_scalar.
  - by apply (Hr f).
  - by apply (Hd f).
Qed.

Lemma key_of_row_ok t row k :
  row_ok row -> row_ok (field_defaults t) -> key_of_row t row = Ok k -> key_ok k.
Proof. apply key_cells_ok. Qed.

(** Keys depend on the key fields only. *)
Lemma key_cells_insert defaults row f v fs :
  f ∉ fs -> key_cells defaults (<[f := v]> row) fs = key_cells defaults row fs.
Proof.
  induction fs as [|g fs IH]; simpl; [done|]. intros [Hne Hin]%not_elem_of_cons.
  rewrite lookup_insert_ne by done. by rewrite IH.
Qed.

Lemma key_of_row_insert t row f v :
  f ∉ primary_key_fields t -> key_of_row t (<[f := v]> row) = key_of_row t row.
Proof. apply key_cells_insert. Qed.

Lemma key_of_row_set_rows t r row : key_of_row (set_rows t r) row = key_of_row t row.
Proof. done. Qed.

(** Every stored row is found under its own key. *)
Lemma get_row_own t k row : store_wf t -> (k, row) ∈ rows t -> get_row t k = Some row.
Proof. intros [Hw _ _ _] Hin. by apply (bt_get_elem key_cmp key_ok). Qed.

Lemma get_row_elem t k row :
  get_row t k = Some row -> exists k', key_cmp k k' = Eq /\ (k', row) ∈ rows t.
Proof. apply bt_elem_get. Qed.

Lemma stored_key_ok t k row : store_wf t -> (k, row) ∈ rows t -> key_ok k.
Proof. intros [Hw _ _ _] Hin. by eapply (bt_keys_P key_cmp key_ok). Qed.

Lemma get_row_eq t k1 k2 :
  store_wf t -> key_ok k1 -> key_ok k2 -> key_cmp k1 k2 = Eq -> get_row t k1 = get_row t k2.
Proof. intros [Hw _ _ _] ? ? ?. unfold get_row. by apply (bt_get_eq key_cmp key_ok). Qed.

Lemma get_row_key t k row :
  store_wf t -> key_ok k -> get_row t k = Some row ->
  exists k', key_of_row t row = Ok k' /\ key_cmp k' k = Eq /\ key_ok k'.
Proof.
  intros Hw Hk (k1 & E1 & Hin)%get_row_elem.
  destruct (swf_keyed t Hw k1 row Hin) as (k' & Hk' & E').
  assert (key_ok k1) by by eapply stored_key_ok.
  assert (key_ok k') by (eapply key_of_row_ok; [by eapply swf_cells|apply Hw|done]).
  exists k'. split_and!; [done| |done].
  apply (order_trans (cmp:=key_cmp) Eq k' k1 k); try done. by apply (order_sym_eq (cmp:=key_cmp)).
Qed.

Lemma get_row_ok t k row : store_wf t -> get_row t k = Some row -> row_ok row.
Proof. intros Hw (k' & _ & Hin)%get_row_elem. by eapply swf_cells. Qed.

Lemma has_row_get t k : has_row t k = match get_row t k with Some _ => true | None => false end.
Proof. done. Qed.

(** ** Rewriting the rows keeps tables well formed *)

Lemma elem_bt_insert k v (m : list (PrimaryKey * Row)) k' v' :
  (k', v') ∈ bt_insert key_cmp k v m -> (v' = v /\ (k' = k \/ key_cmp k k' = Eq)) \/ (k', v') ∈ m.
Proof.
  induction m as [|[k0 v0] m IH]; simpl.
  - intros [[= -> ->]|Hin]%elem_of_cons; [by left; auto|set_solver].
  - destruct (key_cmp k k0) eqn:E; rewrite !elem_of_cons.
    + intros [[= -> ->]|Hin]; auto.
    + intros [[= -> ->]|[[= -> ->]|Hin]]; auto.
    + intros [[= -> ->]|Hin]; [auto|]. destruct (IH Hin); auto.
Qed.

Lemma elem_bt_remove k (m : list (PrimaryKey * Row)) kv : kv ∈ bt_remove key_cmp k m -> kv ∈ m.
Proof.
  induction m as [|[k0 v0] m IH]; simpl; [done|].
  destruct (key_cmp k k0); rewrite ?elem_of_cons; intuition.
Qed.

Lemma elem_bt_update f k (m : list (PrimaryKey * Row)) k' v' :
  (k', v') ∈ bt_update key_cmp f k m ->
  (k', v') ∈ m \/ (exists v, v' = f v /\ key_cmp k k' = Eq /\ (k', v) ∈ m).
Proof.
  induction m as [|[k0 v0] m IH]; simpl; [auto|].
  destruct (key_cmp k k0) eqn:E; rewrite !elem_of_cons; [|by auto|].
  - intros [[= -> ->]|Hin]; [|by auto]. right. exists v0. rewrite elem_of_cons. auto.
  - intros [[= -> ->]|Hin]; [by left; left|]. destruct (IH Hin) as [?|(v & -> & ? & ?)]; [auto|].
    right. exists v. rewrite elem_of_cons. auto.
Qed.

Lemma store_wf_insert t k row :
  store_wf t -> row_ok row -> key_of_row t row = Ok k ->
  store_wf (set_rows t (bt_insert key_cmp k row (rows t))).
Proof.
  intros Hw Hr Hk. pose proof (key_of_row_ok t row k Hr (swf_defaults t Hw) Hk) as Hok.
  split; simpl.
  - by apply (bt_insert_wf key_cmp key_ok); [|apply Hw].
  - intros k' row' [[-> [->|E]]|Hin]%elem_bt_insert.
    + exists k. split; [done|]. by apply (order_refl (P:=key_ok)).
    + by exists k.
    + by apply Hw.
  - intros k' row' [[-> _]|Hin]%elem_bt_insert; [done|]. by eapply swf_cells.
  - apply Hw.
Qed.

Lemma store_wf_remove t k : store_wf t -> store_wf (set_rows t (bt_remove key_cmp k (rows t))).
Proof.
  intros Hw. split; simpl.
  - by apply bt_remove_wf; [apply _|apply Hw].
  - intros k' row' Hin%elem_bt_remove. by apply Hw.
  - intros k' row' Hin%elem_bt_remove. by eapply swf_cells.
  - apply Hw.
Qed.

Lemma store_wf_update t f k :
  store_wf t -> key_ok k ->
  (forall row, row_ok row -> row_ok (f row)) ->
  (forall k' row, (k', row) ∈ rows t -> key_cmp k k' = Eq ->
     exists k1, key_of_row t (f row) = Ok k1 /\ key_cmp k1 k' = Eq) ->
  store_wf (set_rows t (bt_update key_cmp f k (rows t))).
Proof.
  intros Hw Hk Hf Hkey. split; simpl.
  - by apply bt_update_wf; apply Hw.
  - intros k' row' [Hin|(row & -> & E & Hin)]%elem_bt_update; [by apply Hw|]. by apply Hkey.
  - intros k' row' [Hin|(row & -> & E & Hin)]%elem_bt_update; [by eapply swf_cells|].
    by eapply Hf, swf_cells.
  - apply Hw.
Qed.

(** Overwriting every row in place, each keeping its key. *)
Lemma store_wf_map t (g : PrimaryKey * Row -> Row) :
  store_wf t ->
  (forall kr, kr ∈ rows t -> row_ok (g kr)) ->
  (forall kr, kr ∈ rows t -> key_of_row t (g kr) = key_of_row t kr.2) ->
  store_wf (set_rows t (map (fun kr => (kr.1, g kr)) (rows t))).
Proof.
  intros Hw Hg Hkey. assert (bt_keys (map (fun kr => (kr.1, g kr)) (rows t)) = bt_keys (rows t)) as E.
  { unfold bt_keys. rewrite map_map. done. }
  split; simpl.
  - unfold bt_wf. rewrite E. apply Hw.
  - intros k' row' ([k row] & [= <- ->] & Hin)%list_elem_of_fmap. simpl.
    rewrite key_of_row_set_rows, Hkey by done. by apply Hw.
  - intros k' row' ([k row] & [= <- ->] & Hin)%list_elem_of_fmap. by apply Hg.
  - apply Hw.
Qed.
End record.

(** * The state space *)

Section invariant.
Context {D : Decimal} {U : Unicode} {V : ValueOrder} {VL : ValueOrderLaws V}.

Abbreviation PrimaryKey := (list Value).
Abbreviation Row := (gmap Z Value).
Abbreviation key_ok := (Forall scalar).

Implicit Types (t : MockRecord) (vw : RecordView).

(** * Operations as data *)

Inductive Op :=
  | OFieldSet (f : Z) (v : Value)
  | OInit
  | OReset
  | OReloadStored
  | OGet (key : PrimaryKey)
  | OInsert (run_trigger : bool)
  | OModify (run_trigger : bool)
  | ODelete (run_trigger : bool)
  | ODeleteAll (run_trigger : bool)
  | ORename (new_key_values : list (Z * Value))
  | OSetCurrentKey (fs : list Z)
  | OSetAscending (ascending : bool)
  | OSetRange (f : Z) (low high : Value)
  | OClearFilter (f : Z)
  | OSetFilter (f : Z) (expr : str)
  | OFind (direction : char)
  | ONext (steps : Z)
  | OModifyAll (f : Z) (v : Value) (run_trigger : bool)
  | OReplaceFieldValue (f : Z) (old new : Value).

(** What an operation leaves of the table and of the view it works on. *)
Definition run (op : Op) t vw : MockRecord * RecordView :=
  match op with
  | OFieldSet f v => (t, field_set_in t vw f v)
  | OInit => (t, init_in t vw)
  | OReset => (t, reset_in t vw)
  | OReloadStored => (t, reload_stored_in t vw)
  | OGet key => (t, (get_in t vw key).1)
  | OInsert b => (insert_in t vw b).1
  | OModify b => (modify_in t vw b).1
  | ODelete b => (delete_in t vw b).1
  | ODeleteAll b => (delete_all_in t vw b).1
  | ORename kvs => (rename_in t vw kvs).1
  | OSetCurrentKey fs => (t, set_current_key_in t vw fs)
  | OSetAscending b => (t, set_ascending_in t vw b)
  | OSetRange f low high => (t, set_range_in t vw f low high)
  | OClearFilter f => (t, clear_filter_in t vw f)
  | OSetFilter f expr => (t, (set_filter_in t vw f expr).1)
  | OFind direction => (t, (find_in t vw direction).1)
  | ONext steps => (t, (next_in t vw steps).1)
  | OModifyAll f v b => ((modify_all_in t vw f v b).1, vw)
  | OReplaceFieldValue f old new => ((replace_field_value t f old new).1, vw)
  end.

(** Cells hold scalars. *)
Definition op_ok (op : Op) : Prop :=
  match op with
  | OFieldSet _ v | OModifyAll _ v _ | OReplaceFieldValue _ _ v => scalar v
  | ORename kvs => Forall (fun fv => scalar fv.2) kvs
  | _ => True
  end.

(** ** Views *)

Lemma view_wf_buffers vw cur x :
  view_wf vw -> row_ok cur -> row_ok x -> view_wf (set_buffers vw cur x).
Proof. intros [] ? ?. by split. Qed.

Lemma view_wf_clear vw fs sk : view_wf vw -> view_wf (clear_cursor (set_selection vw fs sk)).
Proof. intros []. split; simpl; try done. Qed.

Lemma view_wf_clear_cursor vw : view_wf vw -> view_wf (clear_cursor vw).
Proof. intros []. split; simpl; try done. Qed.

Lemma view_wf_new t : view_wf (new_view t).
Proof. split; simpl; try done; apply row_ok_empty. Qed.

Lemma view_wf_init t vw : view_wf vw -> view_wf (init_in t vw).
Proof.
  intros [Hc Hx Hk Hp]. split; simpl; try done.
  apply row_ok_foldl; [|apply row_ok_empty].
  apply Forall_forall. intros [f v] (g & _ & E)%list_elem_of_omap.
  destruct (current vw !! g) as [w|] eqn:E'; [|done]. simpl in E. injection E as <- <-. by apply (Hc g).
Qed.

Lemma selected_keys_ok t vw : store_wf t -> Forall key_ok (selected_keys t vw).
Proof.
  intros Hw. apply Forall_forall. unfold selected_keys, bt_keys.
  intros k ([k' row] & -> & Hin%list_elem_of_In)%list_elem_of_fmap.
  apply filter_In in Hin as [Hin%list_elem_of_In _]. by eapply stored_key_ok.
Qed.

Lemma matching_keys_perm t vw : Permutation (matching_keys_in t vw) (selected_keys t vw).
Proof. unfold matching_keys_in. case_match; rewrite ?reverse_Permutation; apply sort_by_perm. Qed.

(** A key of the set finds its row as long as nothing was deleted. *)
Lemma selected_get t vw k : store_wf t -> k ∈ selected_keys t vw ->
  exists row, get_row t k = Some row /\ row_matches_filters (filters vw) row = true.
Proof.
  intros Hw. unfold selected_keys, bt_keys.
  intros ([k' row] & -> & Hin%list_elem_of_In)%list_elem_of_fmap.
  apply filter_In in Hin as [Hin%list_elem_of_In Hm]. exists row. split; [by apply get_row_own|done].
Qed.

Lemma view_wf_load t vw p : store_wf t -> view_wf vw -> view_wf (load_row_at t vw p).1.
Proof.
  intros Hw Hv. unfold load_row_at. destruct (iter_set vw !! p) as [key|] eqn:E; [|done].
  destruct (get_row t key) as [row|] eqn:Eg; [|done].
  apply lookup_lt_Some in E. assert (row_ok row) by by eapply get_row_ok.
  destruct Hv. split; simpl; [done..|]. by intros ? [= <-].
Qed.

(** The find operations succeed on a well-formed table: the first and the
    last key of a fresh set have their rows. *)
Lemma find_at_spec pick t vw :
  (forall n, (0 < n)%nat -> (pick n < n)%nat) -> store_wf t ->
  match matching_keys_in t vw !! pick (length (matching_keys_in t vw)) with
  | None => find_at pick t vw =
      (set_cursor vw [] None, Ok false) /\ matching_keys_in t vw = []
  | Some key => exists row, get_row t key = Some row /\
      find_at pick t vw =
        (set_cursor (set_buffers vw row row) (matching_keys_in t vw)
           (Some (pick (length (matching_keys_in t vw)))), Ok true)
  end.
Proof.
  intros Hpick Hw. unfold find_at, build_iter_set, load_row_at. simpl.
  pose proof (matching_keys_perm t vw) as Hp.
  destruct (matching_keys_in t vw) as [|k ks] eqn:Ek; [done|]. rewrite <- Ek in *.
  destruct (matching_keys_in t vw !! pick (length (matching_keys_in t vw))) as [key|] eqn:E.
  - pose proof (list_elem_of_lookup_2 _ _ _ E) as Hin. rewrite Hp in Hin.
    destruct (selected_get t vw key Hw Hin) as (row & Hr & _). exists row. by rewrite Hr.
  - apply lookup_ge_None in E. pose proof (Hpick (length (matching_keys_in t vw))) as H.
    rewrite Ek in *. simpl in *. lia.
Qed.

Lemma matching_keys_ok t vw : store_wf t -> Forall key_ok (matching_keys_in t vw).
Proof. intros Hw. rewrite matching_keys_perm. by apply selected_keys_ok. Qed.

Lemma view_wf_find pick t vw :
  (forall n, (0 < n)%nat -> (pick n < n)%nat) -> store_wf t -> view_wf vw ->
  view_wf (find_at pick t vw).1.
Proof.
  intros Hpick Hw Hv. pose proof (find_at_spec pick t vw Hpick Hw) as H.
  destruct (matching_keys_in t vw !! _) as [key|] eqn:E.
  - destruct H as (row & Hr & ->). apply lookup_lt_Some in E.
    assert (row_ok row) by by eapply get_row_ok.
    split; simpl; [done..|by apply matching_keys_ok|by intros ? [= <-]].
  - destruct H as [-> _]. destruct Hv. by split.
Qed.

Lemma pick_first n : (0 < n)%nat -> (0 < n)%nat.
Proof. done. Qed.

Lemma pick_last n : (0 < n)%nat -> (n - 1 < n)%nat.
Proof. lia. Qed.

Lemma view_wf_next t vw steps : store_wf t -> view_wf vw -> view_wf (next_in t vw steps).1.
Proof.
  intros Hw Hv. unfold next_in. destruct (iter_pos vw); [|done]. destruct (_ || _); [done|].
  cbv zeta. destruct (_ =? 0); [done|].
  pose proof (view_wf_load t vw (Z.to_nat (clamp (Z.of_nat n + steps) 0 (Z.of_nat (length (iter_set vw)) - 1))) Hw Hv).
  by destruct (load_row_at _ _ _) as [? []].
Qed.

Lemma find_in_wf t vw c : store_wf t -> view_wf vw -> view_wf (find_in t vw c).1.
Proof.
  intros Hw Hv. unfold find_in, find_first_in, find_last_in.
  destruct (_ =? _); [by apply view_wf_find; [apply pick_first|..]|].
  destruct (_ =? _); [by apply view_wf_find; [apply pick_last|..]|done].
Qed.

(** ** Tables *)

Lemma current_key_ok t vw k :
  store_wf t -> view_wf vw -> current_primary_key t vw = Ok k -> key_ok k.
Proof. intros Hw Hv. by apply key_of_row_ok; [apply Hv|apply Hw]. Qed.

Lemma insert_wf t vw b :
  store_wf t -> view_wf vw ->
  store_wf (insert_in t vw b).1.1 /\ view_wf (insert_in t vw b).1.2.
Proof.
  intros Hw Hv. unfold insert_in. destruct b; [done|].
  destruct (current_primary_key t vw) as [k|] eqn:Ek; [|done]. destruct (has_row t k); [done|].
  split; [apply store_wf_insert; [done|apply Hv|done]|by apply view_wf_buffers; apply Hv].
Qed.

Lemma modify_wf t vw b :
  store_wf t -> view_wf vw ->
  store_wf (modify_in t vw b).1.1 /\ view_wf (modify_in t vw b).1.2.
Proof.
  intros Hw Hv. unfold modify_in. destruct b; [done|].
  destruct (current_primary_key t vw) as [k|] eqn:Ek; [|done].
  destruct (get_row t k) as [old|] eqn:Eg; [|done]. pose proof (current_key_ok t vw k Hw Hv Ek). split.
  - apply store_wf_update; [done..| |].
    + intros _ _. apply Hv.
    + intros k' row _ E. by exists k.
  - apply view_wf_buffers; [done|apply Hv|]. by eapply get_row_ok.
Qed.

Lemma delete_wf t vw b :
  store_wf t -> view_wf vw ->
  store_wf (delete_in t vw b).1.1 /\ view_wf (delete_in t vw b).1.2.
Proof.
  intros Hw Hv. unfold delete_in. destruct b; [done|].
  destruct (current_primary_key t vw) as [k|]; [|done].
  destruct (get_row t k); [|done]. split; [by apply store_wf_remove|done].
Qed.

Lemma set_rows_rows t : set_rows t (rows t) = t.
Proof. by destruct t. Qed.

Lemma store_wf_removes t ks m :
  store_wf (set_rows t m) -> store_wf (set_rows t (foldl (fun m k => bt_remove key_cmp k m) m ks)).
Proof.
  revert m. induction ks as [|k ks IH]; intros m Hw; simpl; [done|].
  by apply IH, (store_wf_remove (set_rows t m)).
Qed.

Lemma delete_all_wf t vw b :
  store_wf t -> view_wf vw ->
  store_wf (delete_all_in t vw b).1.1 /\ view_wf (delete_all_in t vw b).1.2.
Proof.
  intros Hw Hv. unfold delete_all_in. destruct b; [done|]. split; simpl; [|by apply view_wf_clear_cursor].
  apply store_wf_removes. by rewrite set_rows_rows.
Qed.

Lemma move_wf t vw old :
  store_wf t -> view_wf vw ->
  store_wf (move_renamed_row t vw old).1.1 /\ view_wf (move_renamed_row t vw old).1.2.
Proof.
  intros Hw Hv. unfold move_renamed_row.
  destruct (current_primary_key t vw) as [k|] eqn:Ek; [|done].
  rewrite has_row_get. destruct (get_row t old) as [row|] eqn:Eg; [|done].
  destruct (negb _ && _); [done|]. split; simpl.
  - apply (store_wf_insert (set_rows t (bt_remove key_cmp old (rows t))));
      [by apply store_wf_remove|apply Hv|done].
  - apply view_wf_buffers; [done|apply Hv|]. by eapply get_row_ok.
Qed.

Lemma rename_wf t vw kvs :
  store_wf t -> view_wf vw -> Forall (fun fv => scalar fv.2) kvs ->
  store_wf (rename_in t vw kvs).1.1 /\ view_wf (rename_in t vw kvs).1.2.
Proof.
  intros Hw Hv Hkvs. unfold rename_in, start_rename_in, finish_rename_in.
  destruct (current_primary_key t vw) as [k|]; [|done]. simpl.
  set (vw' := set_current _ _). assert (view_wf vw') as Hv'.
  { apply view_wf_buffers; [done| |apply Hv]. apply row_ok_foldl; [done|apply Hv]. }
  destruct (move_wf t vw' k Hw Hv') as [H1 H2].
  destruct (move_renamed_row t vw' k) as [[t'' vw''] []]; simpl in *; split; try done.
  apply view_wf_buffers; [done|apply Hv|apply H2].
Qed.

Lemma modify_all_wf t vw f v b : store_wf t -> scalar v -> store_wf (modify_all_in t vw f v b).1.
Proof.
  intros Hw Hv. unfold modify_all_in. destruct b; [done|]. case_bool_decide as Hf; [done|]. simpl.
  apply (store_wf_map t (fun kr => if selected vw kr then <[f := v]> kr.2 else kr.2)); [done|..].
  - intros [k row] Hin. simpl. assert (row_ok row) by by eapply swf_cells.
    destruct (selected _ _); [by apply row_ok_insert|done].
  - intros [k row] _. simpl. destruct (selected _ _); [by apply key_of_row_insert|done].
Qed.

Lemma moved_rows_spec t f new keys moved :
  store_wf t -> scalar new -> Forall (fun k => exists row, get_row t k = Some row) keys ->
  moved_rows t f new keys = Ok moved ->
  map (fun mv => mv.1.1) moved = keys /\
  Forall (fun mv => mv.2 = <[f := new]> (row_at t mv.1.1) /\ row_ok mv.2 /\
                    key_of_row t mv.2 = Ok mv.1.2) moved.
Proof.
  intros Hw Hn Hk. revert moved. induction Hk as [|k keys [row Hr] _ IH]; intros moved; simpl.
  - by intros [= <-].
  - destruct (key_of_row _ _) as [nk|] eqn:Ek; [|done]. simpl.
    destruct (moved_rows t f new keys) as [mv|]; [|done]. simpl. intros [= <-].
    destruct (IH mv eq_refl) as [<- Hall]. simpl. split; [done|]. constructor; [|done]. simpl.
    split_and!; [done| |done]. apply row_ok_insert; [done|].
    unfold row_at. rewrite Hr. by eapply get_row_ok.
Qed.

Lemma store_wf_inserts t moved m :
  store_wf (set_rows t m) ->
  Forall (fun mv : PrimaryKey * PrimaryKey * Row => row_ok mv.2 /\ key_of_row t mv.2 = Ok mv.1.2) moved ->
  store_wf (set_rows t (foldl (fun m mv => bt_insert key_cmp mv.1.2 mv.2 m) m moved)).
Proof.
  intros Hw H. revert m Hw. induction H as [|mv moved [Hr Hk] _ IH]; intros m Hw; simpl; [done|].
  by apply IH, (store_wf_insert (set_rows t m)).
Qed.

Lemma store_wf_updates t f v keys m :
  store_wf (set_rows t m) -> scalar v -> f ∉ primary_key_fields t -> Forall key_ok keys ->
  store_wf (set_rows t (foldl (fun m key => bt_update key_cmp (fun row => <[f := v]> row) key m) m keys)).
Proof.
  intros Hw Hv Hf Hk. revert m Hw. induction Hk as [|k keys Hk _ IH]; intros m Hw; simpl; [done|].
  apply IH, (store_wf_update (set_rows t m)); [done..| |].
  - intros row. by apply row_ok_insert.
  - intros k' row Hin _. destruct (swf_keyed _ Hw _ _ Hin) as (k1 & Hk1 & E).
    exists k1. split; [|done]. rewrite key_of_row_insert by done. done.
Qed.

(** The keys of any selection of the rows. *)
Lemma filter_keys_stored t (p : PrimaryKey * Row -> bool) k :
  store_wf t -> k ∈ bt_keys (List.filter p (rows t)) ->
  exists row, (k, row) ∈ rows t /\ p (k, row) = true /\ key_ok k /\ get_row t k = Some row.
Proof.
  intros Hw ([k' row] & -> & Hin%list_elem_of_In)%list_elem_of_fmap.
  apply filter_In in Hin as [Hin%list_elem_of_In Hp]. exists row.
  split_and!; [done|done|by eapply stored_key_ok|by apply get_row_own].
Qed.

Lemma replace_field_value_wf t f old new :
  store_wf t -> scalar new -> store_wf (replace_field_value t f old new).1.
Proof.
  intros Hw Hn. unfold replace_field_value. cbv zeta.
  set (keys := bt_keys _). assert (Forall (fun k => key_ok k /\ exists row, get_row t k = Some row) keys) as Hkeys.
  { apply Forall_forall. intros k Hin. subst keys.
    apply filter_keys_stored in Hin as (row & _ & _ & ? & ?); eauto. }
  case_bool_decide as Hf; simpl.
  - destruct (moved_rows t f new keys) as [moved|] eqn:Em; [|done].
    destruct (any_collision _ _ _ _); [done|]. simpl.
    apply moved_rows_spec in Em as [_ Hall]; [|done..|by eapply Forall_impl; [exact Hkeys|]; intros ? []].
    apply store_wf_inserts; [|by eapply Forall_impl; [exact Hall|]; naive_solver].
    rewrite (foldl_map (fun m k => bt_remove key_cmp k m) (fun mv : PrimaryKey * PrimaryKey * Row => mv.1.1)).
    apply store_wf_removes. by rewrite set_rows_rows.
  - apply store_wf_updates; [by rewrite set_rows_rows|done..|].
    by eapply Forall_impl; [exact Hkeys|]; intros ? [].
Qed.

Lemma run_wf op t vw :
  store_wf t -> view_wf vw -> op_ok op ->
  store_wf (run op t vw).1 /\ view_wf (run op t vw).2.
Proof.
  intros Hw Hv Hop. destruct op; cbn [run fst snd op_ok] in *;
    auto using insert_wf, modify_wf, delete_wf, delete_all_wf, rename_wf, modify_all_wf,
      replace_field_value_wf, view_wf_init, find_in_wf, view_wf_next.
  - split; [done|]. apply view_wf_buffers; [done|apply row_ok_insert; [done|apply Hv]|apply Hv].
  - split; [done|]. by apply view_wf_clear.
  - split; [done|]. unfold reload_stored_in. destruct (current_primary_key _ _); [|done].
    destruct (get_row _ _) eqn:E; [|done]. apply view_wf_buffers; [done|by eapply get_row_ok..].
  - split; [done|]. unfold get_in. destruct (get_row _ _) eqn:E; [|done].
    apply view_wf_buffers; [done|by eapply get_row_ok..].
  - split; [done|]. by apply view_wf_clear.
  - split; [done|]. by apply view_wf_clear.
  - split; [done|]. by apply view_wf_clear.
  - split; [done|]. by apply view_wf_clear.
  - split; [done|]. unfold set_filter_in. destruct (parse expr); [by apply view_wf_clear|done].
Qed.

(** A program of one record variable. *)
Definition run_all (ops : list Op) (s : MockRecord * RecordView) : MockRecord * RecordView :=
  foldl (fun s op => run op s.1 s.2) s ops.

Lemma run_all_wf ops s :
  store_wf s.1 -> view_wf s.2 -> Forall op_ok ops ->
  store_wf (run_all ops s).1 /\ view_wf (run_all ops s).2.
Proof.
  intros Hw Hv Hops. revert s Hw Hv. induction Hops as [|op ops Hop _ IH]; intros s Hw Hv; [done|].
  destruct (run_wf op s.1 s.2 Hw Hv Hop). by apply IH.
Qed.

(** * The system *)

Record System := { table : MockRecord; views : list RecordView }.

Definition start (id : Z) (name : str) (pk : list Z) (defaults : Row) : System :=
  {| table := with_field_defaults (new_table id name pk) defaults; views := [] |}.

(** A record variable is declared, a variable acts, or a variable takes a copy
    of another's buffers (a by-value parameter). *)
Inductive step : System -> System -> Prop :=
  | step_declare s :
      step s {| table := table s; views := views s ++ [new_view (table s)] |}
  | step_run s i vw op :
      views s !! i = Some vw -> op_ok op ->
      step s {| table := (run op (table s) vw).1; views := <[i := (run op (table s) vw).2]> (views s) |}
  | step_copy s i j vw other :
      views s !! i = Some vw -> views s !! j = Some other ->
      step s {| table := table s; views := <[i := copy_buffers_from vw other]> (views s) |}.

Definition system_wf (s : System) : Prop := store_wf (table s) /\ Forall view_wf (views s).

Lemma new_table_wf id name pk defaults :
  row_ok defaults -> store_wf (with_field_defaults (new_table id name pk) defaults).
Proof. intros Hd. split; simpl; try done; [apply bt_wf_nil|by intros ? ? ?%not_elem_of_nil..]. Qed.

Lemma start_wf id name pk defaults : row_ok defaults -> system_wf (start id name pk defaults).
Proof. intros Hd. split; [by apply new_table_wf|constructor]. Qed.

Lemma step_wf s s' : step s s' -> system_wf s -> system_wf s'.
Proof.
  intros Hs [Hw Hv]. destruct Hs as [s|s i vw op Hi Hop|s i j vw other Hi Hj]; split; simpl; try done.
  - apply Forall_app. split; [done|]. constructor; [apply view_wf_new|constructor].
  - rewrite Forall_lookup in Hv. apply run_wf; eauto.
  - apply Forall_insert; [done|]. rewrite Forall_lookup in Hv. apply run_wf; eauto.
  - apply Forall_insert; [done|]. rewrite Forall_lookup in Hv.
    apply view_wf_buffers; [eauto|apply (Hv j other Hj)..].
Qed.

Lemma reachable_wf id name pk defaults s :
  row_ok defaults -> rtc step (start id name pk defaults) s -> system_wf s.
Proof.
  intros Hd H. pose proof (start_wf id name pk defaults Hd) as Hw.
  revert Hw. induction H as [|s1 s2 s3 H1 _ IH]; eauto using step_wf.
Qed.
End invariant.

(** * Rows and cursors *)

Lemma StronglySorted_reverse {A} (R : A -> A -> Prop) l :
  StronglySorted R l -> StronglySorted (fun x y => R y x) (reverse l).
Proof.
  induction 1 as [|x l Hs IH Hall]; [constructor|]. rewrite reverse_cons.
  revert IH. assert (Forall (R x) (reverse l)) as H by (by rewrite reverse_Permutation). revert H.
  generalize (reverse l). clear. intros l Hall Hs. induction Hs as [|y l Hs IH Hy]; simpl.
  - repeat constructor.
  - inversion_clear Hall. constructor; [auto|]. apply Forall_app. split; [done|]. by constructor.
Qed.

Lemma StronglySorted_weaken {A} (R S : A -> A -> Prop) l :
  (forall x y, R x y -> S x y) -> StronglySorted R l -> StronglySorted S l.
Proof.
  intros H. induction 1 as [|x l Hs IH Hall]; constructor; [done|].
  eapply Forall_impl; [exact Hall|]. auto.
Qed.

Lemma StronglySorted_at {A} (R : A -> A -> Prop) l i j x y :
  StronglySorted R l -> l !! i = Some x -> l !! j = Some y -> (i < j)%nat -> R x y.
Proof.
  intros Hs. revert i j. induction Hs as [|z l Hs IH Hall]; intros i j Hi Hj Hlt; [done|].
  destruct j as [|j]; [lia|]. simpl in Hj. destruct i as [|i].
  - injection Hi as ->. rewrite Forall_forall in Hall. by eapply Hall, list_elem_of_lookup_2.
  - simpl in Hi. apply (IH i j); [done..|lia].
Qed.

Section lookup.
Context {D : Decimal} {U : Unicode} {V : ValueOrder} {VL : ValueOrderLaws V}.

Abbreviation PrimaryKey := (list Value).
Abbreviation Row := (gmap Z Value).
Abbreviation key_ok := (Forall scalar).
Implicit Types (t : MockRecord) (vw : RecordView).

Lemma key_eqb_refl k : key_ok k -> key_eqb k k = true.
Proof. intros H. unfold key_eqb. by rewrite (order_refl (cmp:=key_cmp)). Qed.

Lemma key_eqb_sym k k' : key_ok k -> key_ok k' -> key_eqb k k' = key_eqb k' k.
Proof.
  intros. unfold key_eqb. rewrite (order_antisym (cmp:=key_cmp) k' k) by done.
  by destruct (key_cmp k' k).
Qed.

Lemma key_eqb_eq k k' : key_eqb k k' = true <-> key_cmp k k' = Eq.
Proof. unfold key_eqb. by destruct (key_cmp k k'). Qed.

Lemma key_eqb_l k1 k2 k : key_ok k1 -> key_ok k2 -> key_ok k ->
  key_cmp k1 k2 = Eq -> key_eqb k1 k = key_eqb k2 k.
Proof. intros. unfold key_eqb. by rewrite (order_eq_l (cmp:=key_cmp) k1 k2 k). Qed.

Lemma key_eqb_r k1 k2 k : key_ok k1 -> key_ok k2 -> key_ok k ->
  key_cmp k1 k2 = Eq -> key_eqb k k1 = key_eqb k k2.
Proof. intros. unfold key_eqb. by rewrite (order_eq_r (cmp:=key_cmp) k k1 k2). Qed.

(** * One key *)

Lemma get_row_insert t k row k' :
  store_wf t -> key_ok k -> key_ok k' ->
  get_row (set_rows t (bt_insert key_cmp k row (rows t))) k' =
    if key_eqb k' k then Some row else get_row t k'.
Proof. intros Hw Hk Hk'. unfold get_row. simpl. apply (bt_get_insert key_cmp key_ok); try done. apply Hw. Qed.

Lemma get_row_remove t k k' :
  store_wf t -> key_ok k -> key_ok k' ->
  get_row (set_rows t (bt_remove key_cmp k (rows t))) k' =
    if key_eqb k' k then None else get_row t k'.
Proof. intros Hw Hk Hk'. unfold get_row. simpl. apply (bt_get_remove key_cmp key_ok); try done. apply Hw. Qed.

Lemma get_row_update t f k k' :
  store_wf t -> key_ok k -> key_ok k' ->
  get_row (set_rows t (bt_update key_cmp f k (rows t))) k' =
    if key_eqb k' k then f <$> get_row t k' else get_row t k'.
Proof. intros Hw Hk Hk'. unfold get_row. simpl. apply (bt_get_update key_cmp key_ok); try done. apply Hw. Qed.

(** Removing under an equal key removes the same row. *)
Lemma bt_remove_eq k1 k2 (m : list (PrimaryKey * Row)) :
  key_ok k1 -> key_ok k2 -> Forall key_ok (bt_keys m) -> key_cmp k1 k2 = Eq ->
  bt_remove key_cmp k1 m = bt_remove key_cmp k2 m.
Proof.
  intros H1 H2 Hm E. induction m as [|[k v] m IH]; simpl; [done|].
  apply Forall_cons in Hm as [Hk Hm]. rewrite (order_eq_l (cmp:=key_cmp) k1 k2 k) by done.
  destruct (key_cmp k2 k); [done..|]. by rewrite IH.
Qed.

(** * Several keys *)

Lemma key_in_cons k k' ks : key_in k (k' :: ks) = key_eqb k k' || key_in k ks.
Proof. done. Qed.

Lemma key_in_spec k ks : key_in k ks = true <-> exists k', k' ∈ ks /\ key_eqb k k' = true.
Proof.
  unfold key_in. rewrite existsb_exists. setoid_rewrite list_elem_of_In. done.
Qed.

Lemma key_in_perm k ks ks' : Permutation ks ks' -> key_in k ks = key_in k ks'.
Proof.
  intros H. apply eq_true_iff_eq. rewrite !key_in_spec. by setoid_rewrite H.
Qed.

Lemma key_in_eq_l k1 k2 ks : key_ok k1 -> key_ok k2 -> Forall key_ok ks ->
  key_cmp k1 k2 = Eq -> key_in k1 ks = key_in k2 ks.
Proof.
  intros H1 H2 Hks E. induction Hks as [|k ks Hk _ IH]; [done|].
  rewrite !key_in_cons, IH. by rewrite (key_eqb_l k1 k2 k).
Qed.

Definition removed (ks : list PrimaryKey) (m : list (PrimaryKey * Row)) : list (PrimaryKey * Row) :=
  foldl (fun m k => bt_remove key_cmp k m) m ks.

Lemma get_row_removed t ks m k :
  store_wf (set_rows t m) -> Forall key_ok ks -> key_ok k ->
  get_row (set_rows t (removed ks m)) k =
    if key_in k ks then None else get_row (set_rows t m) k.
Proof.
  intros Hw Hks Hk. revert m Hw. induction Hks as [|k0 ks Hk0 _ IH]; intros m Hw; [done|].
  cbn [removed foldl]. unfold removed in IH.
  rewrite IH by (by apply (store_wf_remove (set_rows t m))).
  change (get_row (set_rows t (bt_remove key_cmp k0 m)) k)
    with (get_row (set_rows (set_rows t m) (bt_remove key_cmp k0 (rows (set_rows t m)))) k).
  rewrite get_row_remove by done. rewrite key_in_cons.
  by destruct (key_eqb k k0), (key_in k ks).
Qed.

(** * Selections *)

(** A stored key is selected when its row passes the filters. *)
Lemma key_in_selected t (p : PrimaryKey * Row -> bool) (q : Row -> bool) k :
  (forall kr, p kr = q kr.2) -> store_wf t -> key_ok k ->
  key_in k (bt_keys (List.filter p (rows t))) =
    match get_row t k with Some row => q row | None => false end.
Proof.
  intros Hpq Hw Hk. apply eq_true_iff_eq. rewrite key_in_spec. split.
  - intros (k' & (row & Hin & Hp & Hk' & Hg)%filter_keys_stored & E); [|done].
    apply key_eqb_eq in E. rewrite (get_row_eq t k k' Hw Hk Hk' E), Hg. by rewrite Hpq in Hp.
  - destruct (get_row t k) as [row|] eqn:Eg; [|done]. intros Hq.
    apply get_row_elem in Eg as (k' & E & Hin). exists k'. rewrite key_eqb_eq. split; [|done].
    unfold bt_keys. apply list_elem_of_fmap. exists (k', row). split; [done|].
    rewrite list_elem_of_In, filter_In, <- list_elem_of_In. split; [done|]. by rewrite Hpq.
Qed.

Lemma key_in_selected_keys t vw k :
  store_wf t -> key_ok k ->
  key_in k (selected_keys t vw) =
    match get_row t k with Some row => row_matches_filters (filters vw) row | None => false end.
Proof. by apply key_in_selected. Qed.

Lemma selected_keys_sorted t vw :
  store_wf t -> StronglySorted (key_lt key_cmp) (selected_keys t vw).
Proof.
  intros Hw. unfold selected_keys.
  assert (List.filter (selected vw) (rows t) = base.filter (fun kr => selected vw kr = true) (rows t)) as ->.
  { induction (rows t) as [|kr m IH]; [done|]. simpl. rewrite filter_cons.
    destruct (selected vw kr); [rewrite decide_True by done|rewrite decide_False by done]; by rewrite IH. }
  apply (bt_filter_wf key_cmp key_ok); apply Hw.
Qed.

Lemma count_selected t vw : count_in t vw = length (selected_keys t vw).
Proof.
  unfold count_in, selected_keys, bt_values, bt_keys. rewrite length_fmap.
  induction (rows t) as [|kr m IH]; [done|]. simpl. unfold selected at 1.
  destruct (row_matches_filters _ _); simpl; [f_equal|]; exact IH.
Qed.

Lemma count_matching t vw : length (matching_keys_in t vw) = count_in t vw.
Proof. rewrite count_selected. apply Permutation_length, matching_keys_perm. Qed.

(** * The order of a set *)

Definition sort_cells t vw (k : PrimaryKey) : list Value := key_of (sort_key vw) (row_at t k).

Lemma row_at_ok t k : store_wf t -> row_ok (row_at t k).
Proof.
  intros Hw. unfold row_at. destruct (get_row t k) eqn:E; simpl; [by eapply get_row_ok|apply row_ok_empty].
Qed.

Lemma sort_cells_ok t vw k : store_wf t -> key_ok (sort_cells t vw k).
Proof.
  intros Hw. apply Forall_forall. intros v (f & -> & _)%list_elem_of_fmap.
  destruct (row_at t k !! f) as [w|] eqn:E; [|done]. apply normalize_scalar.
  by apply (row_at_ok t k Hw f).
Qed.

(** [a] comes before [b] when the current key runs forwards. *)
Definition before t vw (a b : PrimaryKey) : Prop :=
  let c := list_cmp vcmp (sort_cells t vw a) (sort_cells t vw b) in
  c = Lt \/ (c = Eq /\ key_cmp a b = Lt).

Lemma matching_keys_sorted_lemma t vw :
  store_wf t ->
  StronglySorted (if descending (sort_key vw) then fun a b => before t vw b a else before t vw)
    (matching_keys_in t vw).
Proof.
  intros Hw. unfold matching_keys_in.
  assert (StronglySorted (before t vw)
    (sort_by (fun a b => list_cmp vcmp (sort_cells t vw a) (sort_cells t vw b)) (selected_keys t vw))) as Hs.
  { pose proof (preimage_order key_ok (sort_cells t vw) (list_cmp vcmp)) as HO.
    eapply StronglySorted_weaken; [|apply (sort_by_stable _ (fun k => key_ok (sort_cells t vw k)) (key_lt key_cmp))].
    - unfold before, cmp_le. intros a b. cbv zeta. destruct (list_cmp vcmp _ _); naive_solver.
    - apply Forall_forall. intros. by apply sort_cells_ok.
    - by apply selected_keys_sorted. }
  destruct (descending _); [by apply StronglySorted_reverse|done].
Qed.

(** * The cursor *)

Definition loaded vw (row : Row) (p : nat) : RecordView :=
  set_cursor (set_buffers vw row row) (iter_set vw) (Some p).

Lemma load_found t vw p k row :
  iter_set vw !! p = Some k -> get_row t k = Some row ->
  load_row_at t vw p = (loaded vw row p, Ok tt).
Proof. intros Hp Hk. unfold load_row_at. by rewrite Hp, Hk. Qed.

Lemma as_i32_small n : i32_min <= n <= i32_max -> as_i32 n = n.
Proof. unfold_ints. intros. unfold as_i32. rewrite Z.mod_small; lia. Qed.

(** [Next] in general: the target position, clamped to the set. *)
Lemma next_in_eq t vw p steps :
  iter_pos vw = Some p -> (p < length (iter_set vw))%nat -> steps <> 0 ->
  next_in t vw steps =
    let q := clamp (Z.of_nat p + steps) 0 (Z.of_nat (length (iter_set vw)) - 1) in
    if q =? Z.of_nat p then (vw, Ok 0)
    else match load_row_at t vw (Z.to_nat q) with
         | (vw, Err e) => (vw, Err e)
         | (vw, Ok _) => (vw, Ok (as_i32 (q - Z.of_nat p)))
         end.
Proof.
  intros Hp Hlt Hs. unfold next_in. rewrite Hp. destruct (Z.eqb_spec steps 0); [done|].
  assert (match iter_set vw with [] => true | _ => false end = false) as ->
    by (destruct (iter_set vw); [simpl in Hlt; lia|done]).
  cbv zeta. simpl orb. cbv iota. set (q := clamp _ _ _).
  destruct (Z.eqb_spec q (Z.of_nat p)), (Z.eqb_spec (q - Z.of_nat p) 0); try lia; done.
Qed.

(** [Next] by one, not at the end. *)
Lemma next_one t vw p k row :
  iter_pos vw = Some p -> iter_set vw !! S p = Some k -> get_row t k = Some row ->
  next_in t vw 1 = (loaded vw row (S p), Ok 1).
Proof.
  intros Hp Hk Hg. apply lookup_lt_Some in Hk as Hlt. rewrite (next_in_eq t vw p) by (done || lia).
  unfold clamp. cbv zeta.
  replace (Z.min (Z.max (Z.of_nat p + 1) 0) (Z.of_nat (length (iter_set vw)) - 1)) with (Z.of_nat p + 1) by lia.
  destruct (Z.eqb_spec (Z.of_nat p + 1) (Z.of_nat p)); [lia|].
  replace (Z.to_nat (Z.of_nat p + 1)) with (S p) by lia.
  rewrite (load_found t vw (S p) k row) by done.
  rewrite as_i32_small by (unfold_ints; lia). repeat f_equal. lia.
Qed.

(** [Next] on the last key of the set. *)
Lemma next_end t vw p :
  iter_pos vw = Some p -> S p = length (iter_set vw) -> next_in t vw 1 = (vw, Ok 0).
Proof.
  intros Hp Hl. rewrite (next_in_eq t vw p) by (done || lia). unfold clamp. cbv zeta.
  replace (Z.min (Z.max (Z.of_nat p + 1) 0) (Z.of_nat (length (iter_set vw)) - 1)) with (Z.of_nat p) by lia.
  by rewrite Z.eqb_refl.
Qed.
End lookup.
