(* ===== verification/RecordSpec.v ===== *)
(** What the record store of [Records.v] promises, operation by operation.

    The theorems take a well-formed table and view ([RecordFacts.v] shows every
    reachable state is); the witnesses evaluate them on a customer table. *)

From Stdlib Require Import ZArith Lia Sorting.Sorted Sorting.Permutation.
From stdpp Require Import base tactics numbers option list gmap strings sorting relations.
From S2P Require Import Prelude RustStr OrdMap Decimals Values Slots Filters Records RecordFacts.

#[local] Open Scope Z_scope.
#[local] Open Scope rust_scope.

(** * A table to evaluate the theorems on

    Field 1 is the Code key, field 2 a Decimal, field 3 an Integer. *)

Module Sample.
#[local] Existing Instances mini_decimal mini_decimal_laws ascii_unicode ascii_unicode_laws.
#[export] Instance order : ValueOrder := heap_order ∅ (fun _ => false).

Definition code (s : String.string) : Value := VCode (lit s).

Definition put (no : String.string) (balance rank : Z) : list Op :=
  [OFieldSet 1 (code no); OFieldSet 2 (VDecimal (dec_from balance));
   OFieldSet 3 (VInteger rank); OInsert false].

Definition defaults : gmap Z Value :=
  <[1 := VCode []]> (<[2 := VDecimal dec_zero]> (<[3 := VInteger 0]> ∅)).

Definition empty_table : MockRecord := with_field_defaults (new_table 18 (lit "Customer") [1]) defaults.

Definition fill : list Op :=
  put "b20" 5 1 ++ put "A10" 7 2 ++ put "C30" 9 1 ++ put "D40" 1 3.

Definition state : MockRecord * RecordView := run_all fill (empty_table, new_view empty_table).
Definition customers : MockRecord := state.1.
Definition cursor : RecordView := state.2.

(** The rows of rank 1 or 2, by rank. *)
Definition ranked : RecordView :=
  set_current_key_in customers (set_range_in customers cursor 3 (VInteger 1) (VInteger 2)) [3].

Lemma defaults_ok : row_ok defaults.
Proof. repeat (apply row_ok_insert; [done|]). apply row_ok_empty. Qed.

Lemma state_wf : store_wf customers /\ view_wf cursor.
Proof.
  apply run_all_wf; [apply new_table_wf, defaults_ok|apply view_wf_new|].
  repeat constructor.
Qed.

(** A new customer in the buffer, and the cursor on customer B20. *)
Definition with_no (no : String.string) : RecordView :=
  set_current cursor (<[1 := code no]> (current cursor)).

Lemma with_no_wf no : view_wf (with_no no).
Proof. apply view_wf_buffers; [apply state_wf| |apply state_wf]. apply row_ok_insert; [done|apply state_wf]. Qed.

(** Two variables declared, the second inserts. *)
Definition act (s : System) (i : nat) (op : Op) : System :=
  match views s !! i with
  | Some vw => {| table := (run op (table s) vw).1; views := <[i := (run op (table s) vw).2]> (views s) |}
  | None => s
  end.
Definition declare (s : System) : System :=
  {| table := table s; views := views s ++ [new_view (table s)] |}.

Definition played : System :=
  let s := declare (declare (start 18 (lit "Customer") [1] defaults)) in
  act (act (act s 1 (OFieldSet 1 (code "x1"))) 1 (OInsert false)) 0 (OFind 45).

Lemma act_reach s0 s i op : op_ok op -> rtc step s0 s -> rtc step s0 (act s i op).
Proof.
  intros Hop H. unfold act. destruct (views s !! i) as [vw|] eqn:E; [|done].
  eapply rtc_r; [exact H|]. by apply step_run.
Qed.

Lemma played_reachable : rtc step (start 18 (lit "Customer") [1] defaults) played.
Proof.
  do 3 (apply act_reach; [exact I|]). do 2 (eapply rtc_r; [|apply step_declare]). apply rtc_refl.
Qed.

Lemma customers_wf : store_wf customers.
Proof. apply state_wf. Qed.

Lemma ranked_wf : view_wf ranked.
Proof. do 2 apply view_wf_clear. apply state_wf. Qed.

(** Keys and rows as printed, so that evaluating a claim about them does not
    normalise the decimals: the key, and the cells of fields 1 to 3. *)
Definition print_key (k : list Value) : list str := map value_to_filter_string k.
Definition print_row (row : gmap Z Value) : list str :=
  map (fun f => default [] (value_to_filter_string <$> row !! f)) [1; 2; 3].
Definition listing (t : MockRecord) : list (list str * list str) :=
  map (fun kr => (print_key kr.1, print_row kr.2)) (rows t).

Example customers_listing :
  listing customers =
    [([lit "A10"], [lit "A10"; lit "7"; lit "2"]); ([lit "B20"], [lit "b20"; lit "5"; lit "1"]);
     ([lit "C30"], [lit "C30"; lit "9"; lit "1"]); ([lit "D40"], [lit "D40"; lit "1"; lit "3"])].
Proof. vm_compute. reflexivity. Qed.

Example ranked_keys :
  map print_key (matching_keys_in customers ranked) = [[lit "B20"]; [lit "C30"]; [lit "A10"]].
Proof. vm_compute. reflexivity. Qed.
End Sample.

Section spec.
Context {D : Decimal} {U : Unicode} {V : ValueOrder} {VL : ValueOrderLaws V}.

Abbreviation PrimaryKey := (list Value).
Abbreviation Row := (gmap Z Value).
Abbreviation key_ok := (Forall scalar).
Implicit Types (t : MockRecord) (vw : RecordView).

(** The table outside one key is what it was. *)
Definition same_elsewhere t t' (k : PrimaryKey) : Prop :=
  forall k', key_ok k' -> key_eqb k' k = false -> get_row t' k' = get_row t k'.

(** C1: In every state record variables can reach, taking turns on one table,
    every stored row is found under the primary key of its own cells, no two
    stored rows have equal keys, and every cursor stands inside its set. *)
Theorem reachable_tables_keyed id name pk (defaults : Row) s :
  row_ok defaults -> rtc step (start id name pk defaults) s ->
  (forall i k row, rows (table s) !! i = Some (k, row) ->
     exists own, key_of_row (table s) row = Ok own /\ get_row (table s) own = Some row /\
       forall j k' row' own', rows (table s) !! j = Some (k', row') ->
         key_of_row (table s) row' = Ok own' -> key_eqb own own' = true -> i = j) /\
  Forall (fun vw => forall p, iter_pos vw = Some p -> is_Some (iter_set vw !! p)) (views s).
Proof.
  intros Hd H. apply reachable_wf in H as [Hw Hv]; [|done]. split.
  2: { eapply Forall_impl; [exact Hv|]. intros vw Hvw p Hp. by apply lookup_lt_is_Some, Hvw. }
  assert (forall i k row, rows (table s) !! i = Some (k, row) ->
    key_ok k /\ exists own, key_of_row (table s) row = Ok own /\ key_cmp own k = Eq /\ key_ok own /\
      get_row (table s) own = Some row) as Hown.
  { intros i k row Hi. apply list_elem_of_lookup_2 in Hi. pose proof (stored_key_ok _ _ _ Hw Hi) as Hk.
    pose proof (get_row_own _ _ _ Hw Hi) as Hg.
    destruct (get_row_key _ _ _ Hw Hk Hg) as (own & Ho & E & Hok). split; [done|]. exists own.
    split_and!; try done. by rewrite (get_row_eq _ own k). }
  intros i k row Hi. destruct (Hown i k row Hi) as (Hk & own & Ho & E & Hok & Hg).
  exists own. split_and!; [done..|]. intros j k' row' own' Hj Ho' Heq%key_eqb_eq.
  destruct (Hown j k' row' Hj) as (Hk' & own2 & Ho2 & E2 & Hok2 & _). rewrite Ho' in Ho2.
  injection Ho2 as <-. assert (key_cmp k k' = Eq) as Ekk.
  { apply (order_trans (cmp:=key_cmp) Eq k own k'); try done; [by apply (order_sym_eq (cmp:=key_cmp))|].
    by apply (order_trans (cmp:=key_cmp) Eq own own' k'). }
  assert (bt_keys (rows (table s)) !! i = Some k /\ bt_keys (rows (table s)) !! j = Some k') as [Li Lj].
  { unfold bt_keys. by rewrite !list_lookup_fmap, Hi, Hj. }
  destruct (decide (i = j)) as [|Hne]; [done|]. exfalso.
  pose proof (proj1 (swf_rows _ Hw)) as Hs. assert (i < j \/ j < i)%nat as [Hlt|Hlt] by lia.
  - pose proof (StronglySorted_at _ _ i j k k' Hs Li Lj Hlt) as Hkl. unfold key_lt in Hkl. congruence.
  - pose proof (StronglySorted_at _ _ j i k' k Hs Lj Li Hlt) as Hkl. unfold key_lt in Hkl.
    apply (order_lt_gt (cmp:=key_cmp)) in Hkl; [congruence|done..].
Qed.

(** [Insert] on every branch: it fails without a trace for a missing key
    cell or a taken key; otherwise the row is stored under its key and
    nothing else changes, xRec becomes the row, and [Get] finds it through
    every key that normalises to its key (a Code in another case, an Integer
    for a Decimal). *)
Lemma insert_then_get t vw :
  store_wf t -> view_wf vw ->
  match current_primary_key t vw with
  | Err e => insert_in t vw false = (t, vw, Err e)
  | Ok key =>
      match get_row t key with
      | Some _ => insert_in t vw false = (t, vw, Err DuplicateKey)
      | None => exists t',
          insert_in t vw false = (t', set_buffers vw (current vw) (current vw), Ok tt) /\
          same_elsewhere t t' key /\
          forall raw vw', key_ok raw -> key_eqb (normalize_key raw) key = true ->
            get_in t' vw' raw = (set_buffers vw' (current vw) (current vw), Ok tt)
      end
  end.
Proof.
  intros Hw Hv. unfold insert_in. destruct (current_primary_key t vw) as [key|e] eqn:Ek; [|done].
  pose proof (current_key_ok t vw key Hw Hv Ek) as Hk. rewrite has_row_get.
  destruct (get_row t key) as [old|] eqn:Eg; [done|]. eexists. split; [done|]. split.
  - intros k' Hk' Hne. rewrite get_row_insert by done. by rewrite Hne.
  - intros raw vw' Hraw Heq. unfold get_in. rewrite get_row_insert; [by rewrite Heq|done..|].
    apply Forall_map. eapply Forall_impl; [exact Hraw|]. apply normalize_scalar.
Qed.

(** [Modify] and [Delete] on every branch: a key that is missing or names
    no row is an error and changes nothing; otherwise [Modify] replaces that
    row by the buffer and keeps the old row as xRec, [Delete] removes that
    row and leaves the view alone, and no other row changes. *)
Lemma modify_delete_one_row t vw :
  store_wf t -> view_wf vw ->
  match current_primary_key t vw with
  | Err e => modify_in t vw false = (t, vw, Err e) /\ delete_in t vw false = (t, vw, Err e)
  | Ok key =>
      match get_row t key with
      | None => modify_in t vw false = (t, vw, Err NotFound) /\
                delete_in t vw false = (t, vw, Err NotFound)
      | Some row =>
          (exists t', modify_in t vw false = (t', set_buffers vw (current vw) row, Ok tt) /\
             get_row t' key = Some (current vw) /\ same_elsewhere t t' key) /\
          (exists t', delete_in t vw false = (t', vw, Ok tt) /\
             get_row t' key = None /\ same_elsewhere t t' key)
      end
  end.
Proof.
  intros Hw Hv. unfold modify_in, delete_in.
  destruct (current_primary_key t vw) as [key|e] eqn:Ek; [|done].
  pose proof (current_key_ok t vw key Hw Hv Ek) as Hk. pose proof (key_eqb_refl key Hk) as Hr.
  destruct (get_row t key) as [row|] eqn:Eg; [|done].
  split; (eexists; split; [done|]; split; [|intros k' Hk' Hne]);
    rewrite ?get_row_update, ?get_row_remove by done; rewrite ?Hr, ?Hne, ?Eg; done.
Qed.

(** [Insert], [Modify] and [Delete] change one row, on every branch.
    [Insert] fails without a trace for a missing key cell or a taken key;
    otherwise the row is stored under its key and nothing else changes, xRec
    becomes the row, and [Get] finds it through every key that normalises to
    its key (a Code in another case, an Integer for a Decimal).  For [Modify]
    and [Delete] a key that is missing or names no row is an error and changes
    nothing; otherwise [Modify] replaces that row by the buffer and keeps the
    old row as xRec, [Delete] removes that row and leaves the view alone, and no
    other row changes. *)
Lemma one_row_operations t vw :
  store_wf t -> view_wf vw ->
  match current_primary_key t vw with
  | Err e =>
      insert_in t vw false = (t, vw, Err e) /\ modify_in t vw false = (t, vw, Err e) /\
      delete_in t vw false = (t, vw, Err e)
  | Ok key =>
      match get_row t key with
      | Some row =>
          insert_in t vw false = (t, vw, Err DuplicateKey) /\
          (exists t', modify_in t vw false = (t', set_buffers vw (current vw) row, Ok tt) /\
             get_row t' key = Some (current vw) /\ same_elsewhere t t' key) /\
          (exists t', delete_in t vw false = (t', vw, Ok tt) /\
             get_row t' key = None /\ same_elsewhere t t' key)
      | None =>
          (exists t',
             insert_in t vw false = (t', set_buffers vw (current vw) (current vw), Ok tt) /\
             same_elsewhere t t' key /\
             forall raw vw', key_ok raw -> key_eqb (normalize_key raw) key = true ->
               get_in t' vw' raw = (set_buffers vw' (current vw) (current vw), Ok tt)) /\
          modify_in t vw false = (t, vw, Err NotFound) /\ delete_in t vw false = (t, vw, Err NotFound)
      end
  end.
Proof.
  intros Hw Hv. pose proof (insert_then_get t vw Hw Hv) as Hi. pose proof (modify_delete_one_row t vw Hw Hv) as Hm.
  destruct (current_primary_key t vw) as [key|e]; [|done]. by destruct (get_row t key).
Qed.


(** [Rename] is atomic.  When it fails, the table and the view are as they
    were; when it succeeds, the row leaves its old key, the buffer with the
    new key values is stored under the new key, xRec is the row as it was
    stored, no other row changes, and a row that already had the new key
    (unless it is the renamed row itself) makes it fail. *)
Lemma rename_atomic t vw kvs :
  store_wf t -> view_wf vw -> Forall (fun fv => scalar fv.2) kvs ->
  match rename_in t vw kvs with
  | (t', vw', Err e) => t' = t /\ vw' = vw
  | (t', vw', Ok _) =>
      let buffer := foldl (fun m fv => <[fv.1 := fv.2]> m) (current vw) kvs in
      exists old new row,
        current_primary_key t vw = Ok old /\ key_of_row t buffer = Ok new /\
        get_row t old = Some row /\ vw' = set_buffers vw buffer row /\
        (key_eqb new old = false -> get_row t new = None) /\
        forall k, key_ok k ->
          get_row t' k = if key_eqb k new then Some buffer
                         else if key_eqb k old then None else get_row t k
  end.
Proof.
  intros Hw Hv Hkvs. unfold rename_in, start_rename_in, finish_rename_in, move_renamed_row.
  destruct (current_primary_key t vw) as [old|] eqn:Ek; [|done]. cbn [old_key saved].
  set (buffer := foldl _ _ _). assert (row_ok buffer) as Hb by (apply row_ok_foldl; [done|apply Hv]).
  unfold current_primary_key. cbn [current set_current set_buffers].
  assert (set_current (set_current vw buffer) (current vw) = vw) as Hback by (by destruct vw).
  destruct (key_of_row t buffer) as [new|] eqn:Enew; [|done]. rewrite !has_row_get.
  destruct (get_row t old) as [row|] eqn:Eg; [|done]. cbn [negb].
  pose proof (current_key_ok t vw old Hw Hv Ek) as Hko.
  pose proof (key_of_row_ok t buffer new Hb (swf_defaults t Hw) Enew) as Hkn.
  destruct (key_eqb new old) eqn:Eno; cbn [negb andb]; [|destruct (get_row t new) eqn:Egn; [done|]].
  all: exists old, new, row; split_and!; try done; try congruence; intros k Hk;
    pose proof (get_row_insert (set_rows t (bt_remove key_cmp old (rows t))) new buffer k
      (store_wf_remove t old Hw) Hkn Hk) as E; cbn [rows set_rows] in E;
    unfold get_row in E |- *; cbn [rows set_rows current set_current set_buffers] in E |- *; rewrite E;
    pose proof (get_row_remove t old k Hw Hko Hk) as E2; unfold get_row in E2; cbn [rows set_rows] in E2;
    by rewrite E2.
Qed.

(** C2: The operations on one row do what they say on every branch.
    [Insert] fails without a trace for a missing key cell or a taken key;
    otherwise the row is stored under its key and nothing else changes, xRec
    becomes the row, and [Get] finds it through every key that normalises to
    its key (a Code in another case, an Integer for a Decimal).  For [Modify]
    and [Delete] a key that is missing or names no row is an error and changes
    nothing; otherwise [Modify] replaces that row by the buffer and keeps the
    old row as xRec, [Delete] removes that row and leaves the view alone, and no
    other row changes.  [Rename] is atomic: when it fails, the table and the
    view are as they were; when it succeeds, the row leaves its old key, the
    buffer with the new key values is stored under the new key, xRec is the row
    as it was stored, no other row changes, and a row that already had the new
    key (unless it is the renamed row itself) makes it fail. *)
Theorem row_operations_exact :
  (forall t vw,
    store_wf t -> view_wf vw ->
      match current_primary_key t vw with
      | Err e =>
          insert_in t vw false = (t, vw, Err e) /\ modify_in t vw false = (t, vw, Err e) /\
          delete_in t vw false = (t, vw, Err e)
      | Ok key =>
          match get_row t key with
          | Some row =>
              insert_in t vw false = (t, vw, Err DuplicateKey) /\
              (exists t', modify_in t vw false = (t', set_buffers vw (current vw) row, Ok tt) /\
                 get_row t' key = Some (current vw) /\ same_elsewhere t t' key) /\
              (exists t', delete_in t vw false = (t', vw, Ok tt) /\
                 get_row t' key = None /\ same_elsewhere t t' key)
          | None =>
              (exists t',
                 insert_in t vw false = (t', set_buffers vw (current vw) (current vw), Ok tt) /\
                 same_elsewhere t t' key /\
                 forall raw vw', key_ok raw -> key_eqb (normalize_key raw) key = true ->
                   get_in t' vw' raw = (set_buffers vw' (current vw) (current vw), Ok tt)) /\
              modify_in t vw false = (t, vw, Err NotFound) /\ delete_in t vw false = (t, vw, Err NotFound)
          end
      end) /\
  (forall t vw kvs,
    store_wf t -> view_wf vw -> Forall (fun fv => scalar fv.2) kvs ->
      match rename_in t vw kvs with
      | (t', vw', Err e) => t' = t /\ vw' = vw
      | (t', vw', Ok _) =>
          let buffer := foldl (fun m fv => <[fv.1 := fv.2]> m) (current vw) kvs in
          exists old new row,
            current_primary_key t vw = Ok old /\ key_of_row t buffer = Ok new /\
            get_row t old = Some row /\ vw' = set_buffers vw buffer row /\
            (key_eqb new old = false -> get_row t new = None) /\
            forall k, key_ok k ->
              get_row t' k = if key_eqb k new then Some buffer
                             else if key_eqb k old then None else get_row t k
      end).
Proof. exact (conj one_row_operations rename_atomic). Qed.
End spec.

(** * The theorems evaluated *)

Import Sample.
#[local] Existing Instances mini_decimal mini_decimal_laws ascii_unicode ascii_unicode_laws.

Lemma reachable_tables_keyed_witness :
  listing (table played) = [([lit "X1"], [lit "x1"; []; []])] /\
  exists k row own, rows (table played) = [(k, row)] /\
    key_of_row (table played) row = Ok own /\ get_row (table played) own = Some row.
Proof.
  split; [vm_compute; reflexivity|].
  destruct (reachable_tables_keyed 18 (lit "Customer") [1] defaults played
    defaults_ok played_reachable) as [H _].
  assert (length (rows (table played)) = 1%nat) as El by (vm_compute; reflexivity).
  destruct (rows (table played)) as [|[k row] m] eqn:E; [discriminate El|].
  destruct (H 0%nat k row eq_refl) as (own & Ho & Hg & _). exists k, row, own.
  split; [|by split]. destruct m; [reflexivity|discriminate El].
Defined.

Lemma row_operations_exact_witness :
  ((exists t', insert_in customers (with_no "e50") false =
      (t', set_buffers (with_no "e50") (current (with_no "e50")) (current (with_no "e50")), Ok tt) /\
    get_in t' cursor [code "E50"] =
      (set_buffers cursor (current (with_no "e50")) (current (with_no "e50")), Ok tt)) /\
  (exists t', delete_in customers (with_no "B20") false = (t', with_no "B20", Ok tt) /\ get_row t' [code "B20"] = None)) /\
  ((exists t' vw', rename_in customers (with_no "B20") [(1, code "E50")] = (t', vw', Ok tt) /\
     get_row t' [code "B20"] = None) /\
  rename_in customers (with_no "B20") [(1, code "C30")] = (customers, with_no "B20", Err DuplicateKey)).
Proof.
  split.
  { pose proof (proj1 row_operations_exact) as H_one_row_operations. split.
  - pose proof (H_one_row_operations customers (with_no "e50") customers_wf (with_no_wf "e50")) as H.
    assert (current_primary_key customers (with_no "e50") = Ok [code "E50"]) as E by reflexivity.
    assert (get_row customers [code "E50"] = None) as Eg by reflexivity.
    rewrite E, Eg in H. destruct H as ((t' & Hi & _ & Hget) & _). exists t'. split; [exact Hi|].
    apply Hget; [repeat constructor|reflexivity].
  - pose proof (H_one_row_operations customers (with_no "B20") customers_wf (with_no_wf "B20")) as H.
    assert (current_primary_key customers (with_no "B20") = Ok [code "B20"]) as E by reflexivity.
    assert (print_row <$> get_row customers [code "B20"] = Some [lit "b20"; lit "5"; lit "1"]) as Ep
      by (vm_compute; reflexivity).
    rewrite E in H. destruct (get_row customers [code "B20"]) as [row|]; cbv [fmap option_fmap option_map] in Ep;
      [|discriminate Ep].
    destruct H as (_ & _ & t' & Hd & Hg & _). exists t'. split; [exact Hd|exact Hg]. }
  { pose proof (proj2 row_operations_exact) as H_rename_atomic. split.
  - pose proof (H_rename_atomic customers (with_no "B20") [(1, code "E50")] customers_wf (with_no_wf "B20")
      ltac:(repeat constructor)) as H.
    assert (is_ok (rename_in customers (with_no "B20") [(1, code "E50")]).2 = true) as E by reflexivity.
    destruct (rename_in customers (with_no "B20") [(1, code "E50")]) as [[t' vw'] [[]|e]]; [|discriminate E].
    exists t', vw'. split; [reflexivity|].
    destruct H as (old & new & row & Ho & Hn & _ & _ & _ & Hg).
    assert (Ok old = Ok [code "B20"] :> Res RecordError (list Value)) as Eo by (rewrite <- Ho; reflexivity).
    assert (Ok new = Ok [code "E50"] :> Res RecordError (list Value)) as En by (rewrite <- Hn; reflexivity).
    injection Eo as ->. injection En as ->. rewrite Hg by (repeat constructor). reflexivity.
  - pose proof (H_rename_atomic customers (with_no "B20") [(1, code "C30")] customers_wf (with_no_wf "B20")
      ltac:(repeat constructor)) as H.
    assert ((rename_in customers (with_no "B20") [(1, code "C30")]).2 = Err DuplicateKey) as E by reflexivity.
    destruct (rename_in customers (with_no "B20") [(1, code "C30")]) as [[t' vw'] r]. simpl in E. subst r.
    by destruct H as [-> ->]. }
Defined.
