(* ===== verification/RecordLoops.v ===== *)
(** Loops over a set of records: [if FindSet then repeat ... until Next = 0],
    reading the rows or deleting them. *)

From Stdlib Require Import ZArith Lia Sorting.Sorted Sorting.Permutation.
From stdpp Require Import base tactics numbers option list gmap strings sorting relations.
From S2P Require Import Prelude RustStr OrdMap Decimals Values Slots Filters Records RecordFacts RecordSpec.

#[local] Open Scope Z_scope.

Section loops.
Context {D : Decimal} {U : Unicode} {V : ValueOrder} {VL : ValueOrderLaws V}.

Abbreviation PrimaryKey := (list Value).
Abbreviation Row := (gmap Z Value).
Abbreviation key_ok := (Forall scalar).
Implicit Types (t : MockRecord) (vw : RecordView) (fuel : nat).

(** [repeat body until Next() = 0], from a view on a row: the buffers the body
    sees.  [None] is out of fuel or an error. *)
Fixpoint read_loop fuel t vw : option (list Row) :=
  match fuel with
  | O => None
  | S fuel =>
      match next_in t vw 1 with
      | (_, Ok 0) => Some [current vw]
      | (vw', Ok _) => l ← read_loop fuel t vw'; Some (current vw :: l)
      | (_, Err _) => None
      end
  end.

(** [if FindSet() then repeat ... until Next() = 0]. *)
Definition read_set fuel t vw : option (list Row) :=
  match find_set_in t vw with
  | (vw', Ok true) => read_loop fuel t vw'
  | (_, Ok false) => Some []
  | (_, Err _) => None
  end.

(** The same loop with [Delete()] as its body: the table it leaves. *)
Fixpoint delete_loop fuel t vw : option MockRecord :=
  match fuel with
  | O => None
  | S fuel =>
      match delete_in t vw false with
      | (t', vw', Ok _) =>
          match next_in t' vw' 1 with
          | (_, Ok 0) => Some t'
          | (vw'', Ok _) => delete_loop fuel t' vw''
          | (_, Err _) => None
          end
      | (_, _, Err _) => None
      end
  end.

Definition delete_set fuel t vw : option MockRecord :=
  match find_set_in t vw with
  | (vw', Ok true) => delete_loop fuel t vw'
  | (_, Ok false) => Some t
  | (_, Err _) => None
  end.

(** ** Reading *)

(** A view on position [p] of the set [ks]. *)
Definition on t vw (ks : list PrimaryKey) (p : nat) : Prop :=
  iter_set vw = ks /\ iter_pos vw = Some p /\ exists k, ks !! p = Some k /\ current vw = row_at t k.

Lemma read_loop_from t vw ks p n :
  Forall (fun k => is_Some (get_row t k)) ks -> on t vw ks p -> n = (length ks - p)%nat ->
  read_loop n t vw = Some (map (row_at t) (drop p ks)).
Proof.
  intros Hks. revert vw p. induction n as [|n IH]; intros vw p (Hset & Hpos & k & Hk & Hcur) Hn.
  { apply lookup_lt_Some in Hk. lia. }
  rewrite (drop_S ks k p Hk). cbn [read_loop map]. rewrite <- Hcur.
  destruct (ks !! S p) as [k'|] eqn:Ek'.
  - rewrite Forall_lookup in Hks. destruct (Hks _ _ Ek') as [row Hrow].
    rewrite (next_one t vw p k' row) by (rewrite ?Hset; done).
    rewrite (IH (loaded vw row (S p)) (S p)); [done| |lia].
    split_and!; [done|done|]. exists k'. split; [done|]. unfold row_at. by rewrite Hrow.
  - apply lookup_ge_None in Ek' as Hge. apply lookup_lt_Some in Hk as Hlt.
    rewrite (next_end t vw p) by (rewrite ?Hset; (done || lia)).
    by rewrite drop_ge by lia.
Qed.

Lemma matching_stored t vw : store_wf t -> Forall (fun k => is_Some (get_row t k)) (matching_keys_in t vw).
Proof.
  intros Hw. rewrite matching_keys_perm. apply Forall_forall. intros k Hk.
  destruct (selected_get t vw k Hw Hk) as (row & -> & _). eauto.
Qed.

(** [FindSet] stands on the first key of the set, or finds none. *)
Lemma find_set_on t vw :
  store_wf t ->
  match find_set_in t vw with
  | (vw', Ok true) => on t vw' (matching_keys_in t vw) 0
  | (_, Ok false) => matching_keys_in t vw = []
  | (_, Err _) => False
  end.
Proof.
  intros Hw. unfold find_set_in, find_first_in.
  pose proof (find_at_spec (fun _ => 0%nat) t vw pick_first Hw) as H. cbv beta in H.
  destruct (matching_keys_in t vw !! 0%nat) as [k|] eqn:Ek.
  - destruct H as (row & Hr & ->). split_and!; [done|done|]. exists k. split; [done|].
    unfold row_at. by rewrite Hr.
  - destruct H as [-> H]. done.
Qed.


(** ** Deleting *)

Lemma delete_on t vw ks p :
  store_wf t -> StronglySorted (fun a b => key_eqb a b = false) ks ->
  Forall key_ok ks -> Forall (fun k => is_Some (get_row t k)) ks -> on t vw ks p ->
  delete_in (set_rows t (removed (take p ks) (rows t))) vw false =
    (set_rows t (removed (take (S p) ks) (rows t)), vw, Ok tt).
Proof.
  intros Hw Hs Hok Hks (Hset & Hpos & k & Hk & Hcur).
  assert (store_wf (set_rows t (removed (take p ks) (rows t)))) as Hwp.
  { apply store_wf_removes. by rewrite set_rows_rows. }
  rewrite Forall_lookup in Hok, Hks. pose proof (Hok _ _ Hk) as Hkk. destruct (Hks _ _ Hk) as [row Hrow].
  destruct (get_row_key t k row Hw Hkk Hrow) as (own & Ho & E & Hoo).
  unfold row_at in Hcur. rewrite Hrow in Hcur. simpl in Hcur.
  unfold delete_in, current_primary_key. rewrite key_of_row_set_rows, Hcur, Ho.
  assert (Forall key_ok (take p ks)) as Htake by (apply Forall_take, Forall_lookup; eauto).
  rewrite get_row_removed; [|by rewrite set_rows_rows|done..]. rewrite set_rows_rows.
  assert (key_in own (take p ks) = false) as ->.
  { apply not_true_iff_false. rewrite key_in_spec. intros (k' & Hin & Heq).
    apply list_elem_of_lookup in Hin as [i Hi]. apply lookup_take_Some in Hi as [Hi Hlt].
    pose proof (StronglySorted_at _ _ _ _ _ _ Hs Hi Hk Hlt) as Hne. simpl in Hne.
    rewrite (key_eqb_l own k k') in Heq; eauto. rewrite key_eqb_sym in Heq; eauto. congruence. }
  rewrite (get_row_eq t own k), Hrow by done. do 2 f_equal.
  rewrite (take_S_r ks p k Hk). unfold removed. rewrite foldl_app. simpl. unfold set_rows. simpl. f_equal.
  apply bt_remove_eq; [done|done| |done]. apply (swf_rows _ Hwp).
Qed.

Lemma delete_loop_from t vw ks p n :
  store_wf t -> StronglySorted (fun a b => key_eqb a b = false) ks ->
  Forall key_ok ks -> Forall (fun k => is_Some (get_row t k)) ks ->
  on t vw ks p -> n = (length ks - p)%nat ->
  delete_loop n (set_rows t (removed (take p ks) (rows t))) vw =
    Some (set_rows t (removed ks (rows t))).
Proof.
  intros Hw Hs Hok Hks. revert vw p. induction n as [|n IH]; intros vw p Hon Hn.
  { destruct Hon as (_ & _ & k & Hk & _). apply lookup_lt_Some in Hk. lia. }
  cbn [delete_loop]. rewrite (delete_on t vw ks p) by done.
  destruct Hon as (Hset & Hpos & k & Hk & Hcur). destruct (ks !! S p) as [k'|] eqn:Ek'.
  - pose proof Hks as Hks'. rewrite Forall_lookup in Hks'. destruct (Hks' _ _ Ek') as [row Hrow].
    rewrite (next_one _ vw p k' row); [|done|by rewrite Hset|].
    2: { rewrite get_row_removed; [|by rewrite set_rows_rows|by apply Forall_take|
           by rewrite Forall_lookup in Hok; eauto]. rewrite set_rows_rows.
         destruct (key_in k' (take (S p) ks)) eqn:Ein; [exfalso|done].
         apply key_in_spec in Ein as (k0 & Hin & Heq).
         apply list_elem_of_lookup in Hin as [i Hi]. apply lookup_take_Some in Hi as [Hi Hlt].
         pose proof (StronglySorted_at _ _ _ _ _ _ Hs Hi Ek' Hlt) as Hne. simpl in Hne.
         rewrite Forall_lookup in Hok. rewrite key_eqb_sym in Heq; eauto. congruence. }
    rewrite (IH (loaded vw row (S p)) (S p)); [done| |lia].
    split_and!; [done|done|]. exists k'. split; [done|]. unfold row_at. by rewrite Hrow.
  - apply lookup_ge_None in Ek' as Hge. apply lookup_lt_Some in Hk as Hlt.
    rewrite (next_end _ vw p) by (rewrite ?Hset; (done || lia)). by rewrite take_ge by lia.
Qed.

(** The keys of a set are pairwise different. *)
Lemma matching_keys_distinct t vw :
  store_wf t -> StronglySorted (fun a b => key_eqb a b = false) (matching_keys_in t vw).
Proof.
  intros Hw. pose proof (matching_keys_sorted_lemma t vw Hw) as Hs.
  pose proof (matching_keys_ok t vw Hw) as Hok.
  assert (forall a b, key_ok a -> key_ok b -> before t vw a b -> key_eqb a b = false /\ key_eqb b a = false) as Hne.
  { intros a b Ha Hb H. rewrite (key_eqb_sym b a) by done.
    assert (key_eqb a b = false) as ->; [|done]. apply not_true_iff_false. rewrite key_eqb_eq. intros E.
    destruct H as [Hlt|[_ Hlt]]; [|congruence].
    assert (sort_cells t vw a = sort_cells t vw b) as Es.
    { unfold sort_cells, row_at. by rewrite (get_row_eq t a b). }
    rewrite Es in Hlt. pose proof (order_refl (cmp:=key_cmp) _ (sort_cells_ok t vw b Hw)) as Er.
    unfold key_cmp in Er. congruence. }
  induction Hs as [|k ks Hs IH Hall]; [constructor|]. apply Forall_cons in Hok as [Hk Hok].
  constructor; [auto|].
  rewrite Forall_forall in *. intros k' Hk'. specialize (Hall k' Hk'). specialize (Hok k' Hk').
  destruct (descending (sort_key vw)).
  - by destruct (Hne k' k Hok Hk Hall).
  - by destruct (Hne k k' Hk Hok Hall).
Qed.

(** C4: The delete loop of the manuals, [if FindSet() then repeat Delete()
    until Next() = 0], ends without an error and leaves exactly the rows the
    filters reject, like one [DeleteAll], which also reports how many rows
    were selected. *)
Theorem delete_loop_is_delete_all t vw :
  store_wf t ->
  exists t_loop t_all,
    delete_set (S (count_in t vw)) t vw = Some t_loop /\
    delete_all_in t vw false = (t_all, clear_cursor vw, Ok (count_in t vw)) /\
    forall k, key_ok k ->
      let kept := match get_row t k with
                  | Some row => if row_matches_filters (filters vw) row then None else Some row
                  | None => None
                  end in
      get_row t_loop k = kept /\ get_row t_all k = kept.
Proof.
  intros Hw. pose proof (find_set_on t vw Hw) as H. unfold delete_set, delete_all_in.
  assert (forall ks k, Permutation ks (selected_keys t vw) -> key_ok k ->
    get_row (set_rows t (removed ks (rows t))) k =
      match get_row t k with
      | Some row => if row_matches_filters (filters vw) row then None else Some row
      | None => None
      end) as Hkept.
  { intros ks k Hp Hk. rewrite get_row_removed; [|by rewrite set_rows_rows| |done].
    - rewrite set_rows_rows, (key_in_perm k ks _ Hp), key_in_selected_keys by done. by destruct (get_row t k).
    - rewrite Hp. by apply selected_keys_ok. }
  assert (delete_set (S (count_in t vw)) t vw = Some (set_rows t (removed (matching_keys_in t vw) (rows t)))) as Hloop.
  { assert (forall n t' v r, delete_loop n t' v = Some r -> delete_loop (S n) t' v = Some r) as Hmono.
    { induction n as [|n IH]; intros t' v r; [done|]. cbn [delete_loop].
      destruct (delete_in t' v false) as [[t'' v''] []]; [|done].
      destruct (next_in t'' v'' 1) as [v3 [[|m|m]|]]; try done; apply IH. }
    unfold delete_set. destruct (find_set_in t vw) as [vw' [[]|]]; [|by rewrite H; simpl; rewrite set_rows_rows|done].
    apply Hmono. rewrite <- (set_rows_rows t) at 2.
    apply (delete_loop_from t vw' (matching_keys_in t vw) 0);
      [done|by apply matching_keys_distinct|by apply matching_keys_ok|by apply matching_stored|done|].
    rewrite count_matching. lia. }
  eexists _, _. split; [exact Hloop|]. split; [by rewrite count_selected|].
  intros k Hk. split; apply Hkept; try done. apply matching_keys_perm.
Qed.

(** [Next(steps)] moves towards [steps] as far as the set reaches and
    reports the distance it moved: never outside the set, never further than
    asked, in the direction asked, short only at an end of the set; it loads
    the row it lands on. *)
Lemma next_moves_within_set t vw p steps :
  view_wf vw -> iter_pos vw = Some p -> Forall (fun k => is_Some (get_row t k)) (iter_set vw) ->
  in_i32 steps = true ->
  exists vw' (q : nat) moved,
    next_in t vw steps = (vw', Ok moved) /\ iter_pos vw' = Some q /\
    (q < length (iter_set vw))%nat /\ Z.of_nat q = Z.of_nat p + moved /\
    iter_set vw' = iter_set vw /\
    0 <= moved * Z.sgn steps <= Z.abs steps /\
    (moved <> steps -> q = 0%nat \/ S q = length (iter_set vw)) /\
    (moved <> 0 -> exists k, iter_set vw !! q = Some k /\ current vw' = row_at t k).
Proof.
  intros Hv Hp Hks Hs. apply in_i32_spec in Hs. pose proof (vwf_pos vw Hv p Hp) as Hlt.
  destruct (decide (steps = 0)) as [->|Hne].
  { exists vw, p, 0. unfold next_in. rewrite Hp. simpl. split_and!; try done; lia. }
  rewrite (next_in_eq t vw p) by done. cbv zeta. set (len := length (iter_set vw)) in *.
  set (q := clamp (Z.of_nat p + steps) 0 (Z.of_nat len - 1)).
  pose proof (clamp_bounds (Z.of_nat p + steps) 0 (Z.of_nat len - 1) ltac:(lia)) as Hq. fold q in Hq.
  assert (0 <= (q - Z.of_nat p) * Z.sgn steps <= Z.abs steps) as Hdir.
  { destruct (Z.sgn_spec steps) as [[? ->]|[[? ->]|[? ->]]]; subst q; unfold clamp; lia. }
  assert (q - Z.of_nat p <> steps -> q = 0 \/ q = Z.of_nat len - 1) as Hend by (subst q; unfold clamp; lia).
  destruct (Z.eqb_spec q (Z.of_nat p)) as [Eq|Eq].
  { exists vw, p, 0. rewrite Eq, Z.sub_diag in *. split_and!; try done; try lia. }
  destruct (lookup_lt_is_Some_2 (iter_set vw) (Z.to_nat q) ltac:(lia)) as [k Hk].
  rewrite Forall_lookup in Hks. destruct (Hks _ _ Hk) as [row Hrow].
  rewrite (load_found t vw _ k row Hk Hrow). exists (loaded vw row (Z.to_nat q)), (Z.to_nat q), (q - Z.of_nat p).
  split_and!; try done; try lia.
  - rewrite as_i32_small; [done|]. unfold_ints. lia.
  - intros _. exists k. split; [done|]. unfold row_at. by rewrite Hrow.
Qed.

(** The set [FindSet] iterates over: its keys are those of the selected
    rows, each once, sorted by the cells of the current key (a Code without
    its case, numbers by value), ties by the primary key, the whole order
    reversed when descending; [Count] is their number and [IsEmpty] says
    whether there are none. *)
Lemma matching_keys_sorted t vw :
  store_wf t ->
  StronglySorted
    (fun a b => let '(a, b) := if descending (sort_key vw) then (b, a) else (a, b) in
       let c := list_cmp vcmp (key_of (sort_key vw) (row_at t a)) (key_of (sort_key vw) (row_at t b)) in
       c = Lt \/ (c = Eq /\ key_cmp a b = Lt)) (matching_keys_in t vw) /\
  (forall k, k ∈ matching_keys_in t vw <->
     exists row, (k, row) ∈ rows t /\ row_matches_filters (filters vw) row = true) /\
  count_in t vw = length (matching_keys_in t vw) /\
  is_empty_in t vw = bool_decide (matching_keys_in t vw = []).
Proof.
  intros Hw. assert (forall k, k ∈ matching_keys_in t vw <->
     exists row, (k, row) ∈ rows t /\ row_matches_filters (filters vw) row = true) as Hin.
  { intros k. rewrite matching_keys_perm. unfold selected_keys, bt_keys. rewrite list_elem_of_fmap. split.
    - intros ([k' row] & -> & [H%list_elem_of_In Hm]%list_elem_of_In%filter_In). eauto.
    - intros (row & H & Hm). exists (k, row). split; [done|]. apply list_elem_of_In, filter_In.
      by rewrite <- list_elem_of_In. }
  split_and!; [|done|by rewrite count_matching|].
  - eapply StronglySorted_weaken; [|by apply matching_keys_sorted_lemma].
    intros a b. by destruct (descending _).
  - apply eq_true_iff_eq. rewrite bool_decide_eq_true. unfold is_empty_in. rewrite forallb_forall. split.
    + intros H. destruct (matching_keys_in t vw) as [|k ks]; [done|]. exfalso.
      destruct (proj1 (Hin k) ltac:(left)) as (row & Hr & Hm).
      specialize (H row). rewrite Hm in H. discriminate H. apply list_elem_of_In, list_elem_of_fmap.
      by exists (k, row).
    + intros Hnil row Hr. apply list_elem_of_In, list_elem_of_fmap in Hr as ([k row'] & -> & Hr). simpl.
      apply negb_true_iff, not_true_iff_false. intros Hm.
      assert (k ∈ matching_keys_in t vw) as Hk by (apply Hin; eauto). rewrite Hnil in Hk. by apply not_elem_of_nil in Hk.
Qed.

(** A cursor does not step over a row another variable deleted: when the
    next key of its set is gone from the table, [Next] fails with [NotFound]
    and leaves the view where it was, so every further [Next] fails too. *)
Lemma next_fails_on_deleted_row t vw p k :
  iter_pos vw = Some p -> iter_set vw !! S p = Some k -> get_row t k = None ->
  next_in t vw 1 = (vw, Err NotFound).
Proof.
  intros Hp Hk Hg. apply lookup_lt_Some in Hk as Hlt. rewrite (next_in_eq t vw p) by (done || lia).
  unfold clamp. cbv zeta.
  replace (Z.min (Z.max (Z.of_nat p + 1) 0) (Z.of_nat (length (iter_set vw)) - 1)) with (Z.of_nat p + 1) by lia.
  destruct (Z.eqb_spec (Z.of_nat p + 1) (Z.of_nat p)); [lia|].
  replace (Z.to_nat (Z.of_nat p + 1)) with (S p) by lia. unfold load_row_at. by rewrite Hk, Hg.
Qed.
End loops.

(** * The theorems evaluated *)

Import Sample.
#[local] Existing Instances mini_decimal mini_decimal_laws ascii_unicode ascii_unicode_laws.


Lemma delete_loop_is_delete_all_witness :
  exists t, delete_set 4 customers ranked = Some t /\ get_row t [code "C30"] = None /\
    print_row <$> get_row t [code "D40"] = Some [lit "D40"; lit "1"; lit "3"].
Proof.
  destruct (delete_loop_is_delete_all customers ranked customers_wf) as (t & t' & Hl & _ & Hk).
  assert (count_in customers ranked = 3%nat) as E by (vm_compute; reflexivity). rewrite E in Hl.
  exists t. split; [exact Hl|]. split.
  - destruct (Hk [code "C30"] ltac:(repeat constructor)) as [-> _]. reflexivity.
  - destruct (Hk [code "D40"] ltac:(repeat constructor)) as [-> _]. vm_compute. reflexivity.
Defined.

(** The ranked set, the cursor on its first key. *)
Definition on_first : RecordView := (find_set_in customers ranked).1.

Lemma on_first_wf : view_wf on_first.
Proof. apply view_wf_find; [apply pick_first|apply customers_wf|apply ranked_wf]. Qed.

Lemma on_first_stored : Forall (fun k => is_Some (get_row customers k)) (iter_set on_first).
Proof. apply (matching_stored customers ranked customers_wf). Qed.

(** [Next(7)] from the first of three rows moves by two. *)
Lemma next_moves_within_set_witness :
  exists vw', next_in customers on_first 7 = (vw', Ok 2) /\ iter_pos vw' = Some 2%nat.
Proof.
  destruct (next_moves_within_set customers on_first 0 7 on_first_wf eq_refl on_first_stored eq_refl)
    as (vw' & q & moved & Hn & Hp & Hq & Hm & _ & Hd & He & _).
  assert (length (iter_set on_first) = 3%nat) as El by (vm_compute; reflexivity). rewrite El in Hq, He.
  assert (moved = 2) as ->.
  { destruct (decide (moved = 7)) as [->|Hne]; [lia|]. destruct (He Hne) as [->|]; [|lia].
    assert (moved = 0) as -> by lia.
    assert ((next_in customers on_first 7).2 = Ok 2) as E2 by (vm_compute; reflexivity).
    rewrite Hn in E2. discriminate E2. }
  exists vw'. split; [exact Hn|]. rewrite Hp. f_equal. lia.
Defined.

Lemma matching_keys_sorted_witness :
  count_in customers ranked = 3%nat /\ is_empty_in customers ranked = false /\
  exists row, ([code "B20"], row) ∈ rows customers /\ row_matches_filters (filters ranked) row = true.
Proof.
  destruct (matching_keys_sorted customers ranked customers_wf) as (_ & Hin & Hc & He).
  assert (length (matching_keys_in customers ranked) = 3%nat) as El by (vm_compute; reflexivity).
  split_and!.
  - rewrite Hc. exact El.
  - rewrite He. apply bool_decide_eq_false. intros E. rewrite E in El. discriminate El.
  - apply Hin, (list_elem_of_lookup_2 _ 0). reflexivity.
Defined.

(** A second variable deletes C30 while the first stands before it. *)
Definition without_c30 : MockRecord := (delete_in customers (with_no "C30") false).1.1.

Lemma next_fails_on_deleted_row_witness :
  iter_set on_first !! 1%nat = Some [code "C30"] /\
  next_in without_c30 on_first 1 = (on_first, Err NotFound).
Proof.
  split; [reflexivity|]. apply (next_fails_on_deleted_row without_c30 on_first 0 [code "C30"]); reflexivity.
Defined.
