(* ===== verification/RecordSets.v ===== *)
(** Updates and aggregates over many rows of the record store: [ModifyAll], the
    renaming of a value in a field, [CalcSums] and the FlowField formulas. *)

From Stdlib Require Import ZArith Lia Sorting.Sorted Sorting.Permutation.
From stdpp Require Import base tactics numbers option list gmap strings sorting relations.
From S2P Require Import Prelude RustStr OrdMap Decimals Values Slots Filters Records RecordFacts RecordSpec.

#[local] Open Scope Z_scope.

Section sets.
Context {D : Decimal} {U : Unicode} {V : ValueOrder} {VL : ValueOrderLaws V}.

Abbreviation PrimaryKey := (list Value).
Abbreviation Row := (gmap Z Value).
Abbreviation key_ok := (Forall scalar).
Implicit Types (t : MockRecord) (vw : RecordView).

(** [ModifyAll] refuses a field of the primary key; otherwise it writes
    the value into every selected row, in place, touches no other row, and
    reports how many rows were selected. *)
Lemma modify_all_in_place t vw f v :
  if decide (f ∈ primary_key_fields t) then
    modify_all_in t vw f v false = (t, Err (PrimaryKeyModifyAll f))
  else exists t', modify_all_in t vw f v false = (t', Ok (count_in t vw)) /\
    bt_keys (rows t') = bt_keys (rows t) /\
    forall k, get_row t' k =
      (fun row => if row_matches_filters (filters vw) row then <[f := v]> row else row) <$> get_row t k.
Proof.
  unfold modify_all_in. destruct (decide _) as [Hf|Hf].
  - by rewrite bool_decide_eq_true_2.
  - rewrite bool_decide_eq_false_2 by done. eexists. split; [done|]. split.
    + unfold bt_keys. simpl. by rewrite map_map.
    + intros k. unfold get_row, selected. simpl.
      by apply (bt_get_map key_cmp (fun _ row => if row_matches_filters (filters vw) row then <[f:=v]> row else row)).
Qed.

(** * Renaming a value *)

Lemma get_row_updates t (g : Row -> Row) ks m k :
  (forall row, g (g row) = g row) -> (forall row, row_ok row -> row_ok (g row)) ->
  (forall row, key_of_row t (g row) = key_of_row t row) ->
  store_wf (set_rows t m) -> Forall key_ok ks -> key_ok k ->
  get_row (set_rows t (foldl (fun m k => bt_update key_cmp g k m) m ks)) k =
    if key_in k ks then g <$> get_row (set_rows t m) k else get_row (set_rows t m) k.
Proof.
  intros Hg Hok Hkey Hw Hks Hk. revert m Hw. induction Hks as [|k0 ks Hk0 _ IH]; intros m Hw; [done|].
  cbn [foldl]. rewrite IH.
  - change (get_row (set_rows t (bt_update key_cmp g k0 m)) k)
      with (get_row (set_rows (set_rows t m) (bt_update key_cmp g k0 (rows (set_rows t m)))) k).
    rewrite get_row_update by done. rewrite key_in_cons.
    destruct (key_eqb k k0), (key_in k ks); simpl; try done.
    destruct (get_row (set_rows t m) k); simpl; [by rewrite Hg|done].
  - apply (store_wf_update (set_rows t m)); [done..|]. intros k' row Hin _.
    destruct (swf_keyed _ Hw _ _ Hin) as (k1 & Hk1 & E). exists k1. split; [|done].
    rewrite key_of_row_set_rows, Hkey. done.
Qed.

Abbreviation Moved := (PrimaryKey * PrimaryKey * Row)%type.

Definition moved_ok t (mv : Moved) : Prop := row_ok mv.2 /\ key_of_row t mv.2 = Ok mv.1.2.

Definition inserted (moved : list Moved) (m : list (PrimaryKey * Row)) : list (PrimaryKey * Row) :=
  foldl (fun m mv => bt_insert key_cmp mv.1.2 mv.2 m) m moved.

Lemma moved_key_ok t mv : store_wf t -> moved_ok t mv -> key_ok mv.1.2.
Proof. intros Hw [Hr Hk]. eapply key_of_row_ok; [exact Hr|apply Hw|done]. Qed.

Lemma get_row_inserted_one t mv m k :
  store_wf (set_rows t m) -> moved_ok t mv -> key_ok k ->
  get_row (set_rows t (bt_insert key_cmp mv.1.2 mv.2 m)) k =
    if key_eqb k mv.1.2 then Some mv.2 else get_row (set_rows t m) k.
Proof.
  intros Hw Hmv Hk. pose proof (moved_key_ok (set_rows t m) mv Hw Hmv).
  by apply (get_row_insert (set_rows t m)).
Qed.

Lemma get_row_inserted_other t moved m k :
  store_wf (set_rows t m) -> Forall (moved_ok t) moved -> key_ok k ->
  Forall (fun mv => key_eqb k mv.1.2 = false) moved ->
  get_row (set_rows t (inserted moved m)) k = get_row (set_rows t m) k.
Proof.
  intros Hw Hmv Hk Hne. revert m Hw. induction Hmv as [|mv moved Hm _ IH]; intros m Hw; [done|].
  apply Forall_cons in Hne as [Hne Hnes]. cbn [inserted foldl]. unfold inserted in IH. rewrite IH; [|done|].
  - rewrite get_row_inserted_one by done. by rewrite Hne.
  - destruct Hm. by apply (store_wf_insert (set_rows t m)).
Qed.

Lemma get_row_inserted t moved m k mv :
  store_wf (set_rows t m) -> Forall (moved_ok t) moved -> key_ok k ->
  StronglySorted (fun a b : Moved => key_eqb b.1.2 a.1.2 = false) moved ->
  mv ∈ moved -> key_eqb k mv.1.2 = true ->
  get_row (set_rows t (inserted moved m)) k = Some mv.2.
Proof.
  intros Hw Hmv Hk Hs Hin Heq. revert m Hw. induction Hmv as [|mv0 moved Hm Hmv IH]; intros m Hw; [set_solver|].
  inversion_clear Hs as [|? ? Hs' Hall]. assert (store_wf (set_rows t (bt_insert key_cmp mv0.1.2 mv0.2 m))) as Hw'.
  { destruct Hm. by apply (store_wf_insert (set_rows t m)). }
  apply elem_of_cons in Hin as [->|Hin]; [|by apply IH].
  pose proof (get_row_inserted_other t moved _ k Hw' Hmv Hk) as Ho. cbn [inserted foldl]. unfold inserted in Ho.
  rewrite Ho.
  - rewrite get_row_inserted_one by done. by rewrite Heq.
  - rewrite Forall_forall in *. intros mv' Hin'. specialize (Hall mv' Hin'). simpl in Hall.
    pose proof (moved_key_ok _ _ Hw' Hm). pose proof (moved_key_ok _ _ Hw' (Hmv mv' Hin')).
    apply not_true_iff_false. intros Ek. apply key_eqb_eq in Heq, Ek.
    rewrite (key_eqb_l _ k) in Hall; try done.
    + apply key_eqb_eq in Heq. congruence.
    + by apply (order_sym_eq (cmp:=key_cmp)).
Qed.

(** What a set of new keys without a collision looks like. *)
Lemma no_collision t vacated taken ks :
  any_collision t vacated taken ks = false ->
  StronglySorted (fun a b => key_eqb b a = false) ks /\
  Forall (fun k => key_in k taken = false /\ (has_row t k = true -> key_in k vacated = true)) ks.
Proof.
  revert taken. induction ks as [|k ks IH]; intros taken H; [split; constructor|].
  cbn [any_collision] in H. apply orb_false_iff in H as [[Hocc Ht]%orb_false_iff H].
  apply IH in H as [Hs Hall]. split.
  - constructor; [done|]. eapply Forall_impl; [exact Hall|]. intros k' [Hk' _].
    rewrite key_in_cons in Hk'. by apply orb_false_iff in Hk' as [].
  - constructor.
    + split; [done|]. intros Hr. rewrite Hr in Hocc. by apply negb_false_iff in Hocc.
    + eapply Forall_impl; [exact Hall|]. intros k' [Hk' ?]. split; [|done].
      rewrite key_in_cons in Hk'. by apply orb_false_iff in Hk' as [].
Qed.

(** The rows [replace_field_value] changes: the cell, read as the field's zero
    value when missing, is the old value. *)
Definition holds_value t (f : Z) (old : Value) (row : Row) : bool :=
  value_eqb (normalize_key_value (default (default VEmpty (field_defaults t !! f)) (row !! f)))
    (normalize_key_value old).

Definition holding_keys t f old : list PrimaryKey :=
  bt_keys (List.filter (fun kr : PrimaryKey * Row => holds_value t f old kr.2) (rows t)).

Lemma key_in_holding t f old k :
  store_wf t -> key_ok k ->
  key_in k (holding_keys t f old) =
    match get_row t k with Some row => holds_value t f old row | None => false end.
Proof. by apply key_in_selected. Qed.

Lemma holding_keys_ok t f old : store_wf t -> Forall key_ok (holding_keys t f old).
Proof.
  intros Hw. apply Forall_forall. intros k (row & _ & _ & ? & _)%filter_keys_stored; done.
Qed.

(** The table after a renaming that succeeded: the changed rows under the
    keys of their new cells, the other rows where they were. *)
Definition renamed t t' (f : Z) (old new : Value) : Prop :=
  forall k row', key_ok k ->
    get_row t' k = Some row' <->
    (exists k0 row own, key_ok k0 /\ get_row t k0 = Some row /\ holds_value t f old row = true /\
       row' = <[f := new]> row /\ key_of_row t row' = Ok own /\ key_eqb k own = true) \/
    (get_row t k = Some row' /\ holds_value t f old row' = false).

Lemma renamed_in_place t f old new :
  store_wf t -> scalar new -> f ∉ primary_key_fields t ->
  renamed t (set_rows t (foldl (fun m k => bt_update key_cmp (fun row => <[f := new]> row) k m)
    (rows t) (holding_keys t f old))) f old new.
Proof.
  intros Hw Hn Hf k row' Hk. rewrite get_row_updates.
  2: { intros row. apply insert_insert_eq. } 2: { intros row. by apply row_ok_insert. }
  2: { intros row. by apply key_of_row_insert. } 2: { by rewrite set_rows_rows. }
  2: { by apply holding_keys_ok. } 2: { done. }
  rewrite set_rows_rows, key_in_holding by done. split.
  - destruct (get_row t k) as [row|] eqn:Eg; [|done]. destruct (holds_value t f old row) eqn:Eh.
    + intros [= <-]. left. destruct (get_row_key t k row Hw Hk Eg) as (own & Ho & E & Hoo).
      exists k, row, own. rewrite key_of_row_insert by done. split_and!; try done.
      by apply key_eqb_eq, (order_sym_eq (cmp:=key_cmp)).
    + intros [= <-]. by right.
  - intros [(k0 & row & own & Hk0 & Eg & Eh & -> & Ho & Heq)|[Eg Eh]].
    + rewrite key_of_row_insert in Ho by done.
      destruct (get_row_key t k0 row Hw Hk0 Eg) as (own' & Ho' & E & Hoo). rewrite Ho in Ho'. injection Ho' as <-.
      apply key_eqb_eq in Heq. rewrite (get_row_eq t k own Hw Hk Hoo Heq), (get_row_eq t own k0 Hw Hoo Hk0 E), Eg, Eh.
      done.
    + by rewrite Eg, Eh.
Qed.

Lemma renamed_moved t f old new moved :
  store_wf t -> scalar new ->
  map (fun mv : Moved => mv.1.1) moved = holding_keys t f old ->
  Forall (fun mv => mv.2 = <[f := new]> (row_at t mv.1.1) /\ moved_ok t mv) moved ->
  any_collision t (holding_keys t f old) [] (map (fun mv : Moved => mv.1.2) moved) = false ->
  renamed t (set_rows t (inserted moved (removed (holding_keys t f old) (rows t)))) f old new.
Proof.
  intros Hw Hn Hmap Hall Hcol k row' Hk. set (ks := holding_keys t f old) in *.
  assert (Forall key_ok ks) as Hks by by apply holding_keys_ok.
  assert (store_wf (set_rows t (removed ks (rows t)))) as Hw1 by (apply store_wf_removes; by rewrite set_rows_rows).
  assert (Forall (moved_ok t) moved) as Hmv by (eapply Forall_impl; [exact Hall|]; by intros ? []).
  apply no_collision in Hcol as [Hs Hfree].
  assert (StronglySorted (fun a b : Moved => key_eqb b.1.2 a.1.2 = false) moved) as Hs'.
  { clear -Hs. induction moved as [|mv moved IH]; [constructor|]. inversion_clear Hs as [|? ? Hs' Hall].
    constructor; [auto|]. rewrite Forall_map in Hall. exact Hall. }
  assert (forall mv, mv ∈ moved -> key_ok mv.1.2) as Hnk.
  { intros mv Hin. rewrite Forall_forall in Hmv. apply (moved_key_ok t mv Hw). auto. }
  assert (forall mv, mv ∈ moved -> exists row, key_ok mv.1.1 /\ get_row t mv.1.1 = Some row /\
    holds_value t f old row = true /\ mv.2 = <[f := new]> row) as Hfrom.
  { intros mv Hin. assert (mv.1.1 ∈ ks) as Hk1 by (rewrite <- Hmap; apply list_elem_of_fmap; eauto).
    apply filter_keys_stored in Hk1 as (row & _ & Hh & Hk1 & Hg); [|done]. exists row. split_and!; try done.
    rewrite Forall_forall in Hall. destruct (Hall mv Hin) as [-> _]. unfold row_at. by rewrite Hg. }
  destruct (existsb (fun mv : Moved => key_eqb k mv.1.2) moved) eqn:Ex.
  - apply existsb_exists in Ex as (mv & Hin%list_elem_of_In & Heq).
    rewrite (get_row_inserted t moved _ k mv) by done.
    destruct (Hfrom mv Hin) as (row & Hk1 & Hg & Hh & Hrow). pose proof Hmv as Hmv0.
    rewrite Forall_forall in Hmv. rewrite Forall_forall in Hfree.
    destruct (Hmv mv Hin) as [_ Hown]. apply key_eqb_eq in Heq as Hcmp. split.
    + intros [= <-]. left. exists mv.1.1, row, mv.1.2. by split_and!.
    + intros [(k0 & row0 & own & Hk0 & Hg0 & Hh0 & -> & Ho & Heq0)|[Hg' Hh']].
      * assert (key_in k0 ks = true) as Hin0 by (subst ks; rewrite key_in_holding by done; by rewrite Hg0).
        apply key_in_spec in Hin0 as (k1 & Hin1 & E1%key_eqb_eq). rewrite <- Hmap in Hin1.
        apply list_elem_of_fmap in Hin1 as (mv1 & -> & Hin1).
        destruct (Hfrom mv1 Hin1) as (row1 & Hk1' & Hg1 & _ & Hrow1).
        rewrite (get_row_eq t k0 mv1.1.1), Hg1 in Hg0 by done. injection Hg0 as <-.
        destruct (Hmv mv1 Hin1) as [_ Hown1]. rewrite <- Hrow1, Hown1 in Ho. injection Ho as <-.
        rewrite <- (get_row_inserted t moved (removed ks (rows t)) k mv) by done.
        rewrite <- Hrow1. by apply get_row_inserted.
      * exfalso. assert (has_row t mv.1.2 = true) as Hr.
        { rewrite has_row_get. rewrite <- (get_row_eq t k mv.1.2), Hg' by auto. done. }
        destruct (Hfree mv.1.2) as [_ Hvac]; [by apply list_elem_of_fmap; eauto|].
        apply Hvac in Hr. rewrite <- (key_in_eq_l k mv.1.2) in Hr by auto. subst ks.
        rewrite key_in_holding, Hg', Hh' in Hr by done. done.
  - assert (Forall (fun mv : Moved => key_eqb k mv.1.2 = false) moved) as Hne.
    { apply Forall_forall. intros mv Hin. apply not_true_iff_false. intros Heq.
      apply not_true_iff_false in Ex. apply Ex, existsb_exists. exists mv. by rewrite <- list_elem_of_In. }
    rewrite get_row_inserted_other by done. rewrite get_row_removed; [|by rewrite set_rows_rows|done..].
    rewrite set_rows_rows. subst ks. rewrite key_in_holding by done. split.
    + destruct (get_row t k) as [row|]; [|done]. destruct (holds_value t f old row) eqn:Eh; [done|].
      intros [= <-]. by right.
    + intros [(k0 & row0 & own & Hk0 & Hg0 & Hh0 & -> & Ho & Heq0)|[Hg' Hh']]; [exfalso|by rewrite Hg', Hh'].
      assert (key_in k0 (holding_keys t f old) = true) as Hin0 by (rewrite key_in_holding by done; by rewrite Hg0).
      apply key_in_spec in Hin0 as (k1 & Hin1 & E1%key_eqb_eq). rewrite <- Hmap in Hin1.
      apply list_elem_of_fmap in Hin1 as (mv1 & -> & Hin1).
      destruct (Hfrom mv1 Hin1) as (row1 & Hk1' & Hg1 & _ & Hrow1).
      rewrite (get_row_eq t k0 mv1.1.1), Hg1 in Hg0 by done. injection Hg0 as <-.
      rewrite Forall_forall in Hmv. rewrite Forall_forall in Hne. destruct (Hmv mv1 Hin1) as [_ Hown1].
      rewrite <- Hrow1, Hown1 in Ho. injection Ho as <-. rewrite Hne in Heq0; done.
Qed.

(** C5: Renaming a value in a field, as table relations do after a [Rename],
    is all or nothing: an error leaves the table as it was; on success every
    row that held the old value holds the new one, under the key of its new
    cells when the field is part of the key, every other row is untouched, no
    row is lost or overwritten, and the count reported is the number of rows
    that held the value. *)
Theorem replace_field_value_atomic t f old new :
  store_wf t -> scalar new ->
  match replace_field_value t f old new with
  | (t', Err _) => t' = t
  | (t', Ok n) => n = length (List.filter (holds_value t f old) (bt_values (rows t))) /\
      renamed t t' f old new
  end.
Proof.
  intros Hw Hn.
  assert (length (holding_keys t f old) = length (List.filter (holds_value t f old) (bt_values (rows t)))) as Hlen.
  { unfold holding_keys, bt_keys, bt_values. rewrite length_fmap.
    induction (rows t) as [|kr m IH]; [done|]. simpl. destruct (holds_value t f old kr.2); simpl; [f_equal|]; exact IH. }
  unfold replace_field_value. fold (holds_value t f old). cbv zeta.
  change (bt_keys (List.filter _ (rows t))) with (holding_keys t f old).
  case_bool_decide as Hf; cbn [negb]; [|by split; [|apply renamed_in_place]].
  destruct (moved_rows t f new (holding_keys t f old)) as [moved|] eqn:Em; [|done].
  apply moved_rows_spec in Em as [Hmap Hall]; [|done..|].
  2: { apply Forall_forall. intros k (row & _ & _ & _ & ?)%filter_keys_stored; eauto. }
  destruct (any_collision _ _ _ _) eqn:Ec; [done|]. split; [done|].
  assert (foldl (fun m (mv : Moved) => bt_remove key_cmp mv.1.1 m) (rows t) moved =
          removed (holding_keys t f old) (rows t)) as ->.
  { rewrite (foldl_map (fun m k => bt_remove key_cmp k m) (fun mv : Moved => mv.1.1)). by rewrite Hmap. }
  by apply renamed_moved.
Qed.

(** * Aggregates *)

Context {DL : DecimalLaws D}.

Definition int_of (v : Value) : option Z :=
  match v with VInteger n | VBigInteger n => Some n | _ => None end.

Definition is_decimal (v : Value) : bool := match v with VDecimal _ => true | _ => false end.

(** Every partial sum fits an [i64]. *)
Fixpoint sums_fit (acc : Z) (ns : list Z) : bool :=
  match ns with
  | [] => true
  | n :: ns => in_i64 (acc + n) && sums_fit (acc + n) ns
  end.

Definition total (ns : list Z) : Z := foldr Z.add 0 ns.

Lemma sum_loop_ints acc d cells :
  in_i64 acc = true -> dec_cmp d (dec_from acc) = Eq ->
  Forall (fun c => is_decimal c = false /\ forall n, int_of c = Some n -> in_i64 n = true) cells ->
  sum_loop acc d false cells =
    if sums_fit acc (omap int_of cells) then Ok (VInteger (acc + total (omap int_of cells)))
    else Err (FlowArithmeticOverflow (lit "Sum")).
Proof.
  intros Ha Hd Hc. revert acc d Ha Hd.
  induction Hc as [|c cells [Hdec Hn] _ IH]; intros acc d Ha Hd.
  { simpl. by rewrite Z.add_0_r. }
  assert (int_of c = None \/ exists n, int_of c = Some n) as [En|[n En]] by (destruct (int_of c); eauto).
  - destruct c; try done; cbn [sum_loop omap list_omap]; simpl int_of; cbv iota; by apply IH.
  - specialize (Hn n En). assert (sum_loop acc d false (c :: cells) =
      res_bind (ok_or (checked_add acc n) (FlowArithmeticOverflow (lit "Sum"))) (fun i =>
      res_bind (ok_or (dec_checked_add d (dec_from n)) (FlowArithmeticOverflow (lit "Sum"))) (fun d =>
      sum_loop i d false cells))) as -> by (destruct c; simpl in En; by simplify_eq).
    cbn [omap list_omap]. rewrite En. cbn [sums_fit total foldr].
    unfold checked_add, checked_i64. destruct (in_i64 (acc + n)) eqn:Es; [|done].
    destruct (dec_add_int d (dec_from n) acc n Ha Hn Es Hd (dec_cmp_refl _)) as (d' & -> & Hd').
    cbn [ok_or res_bind andb]. fold (total (omap int_of cells)). rewrite IH by done.
    destruct (sums_fit _ _); [|done]. do 2 f_equal. unfold total. lia.
Qed.

(** [CalcSums] over a field without Decimal cells: the exact integer sum
    of the selected rows' cells (as a Decimal when the field is declared one),
    or the overflow error when a partial sum leaves the 64-bit range; it never
    wraps around. *)
Lemma calc_sum_exact_or_overflow t vw f :
  let cells := omap (fun row : Row => row !! f) (selected_rows t vw) in
  let ns := omap int_of cells in
  Forall (fun c => is_decimal c = false /\ forall n, int_of c = Some n -> in_i64 n = true) cells ->
  calc_sum_in t vw f =
    if sums_fit 0 ns then
      Ok (match field_defaults t !! f with
          | Some (VDecimal _) => VDecimal (dec_from (total ns))
          | _ => VInteger (total ns)
          end)
    else Err (FlowArithmeticOverflow (lit "Sum")).
Proof.
  intros cells ns Hc. unfold calc_sum_in, sum_cells. fold cells.
  rewrite (sum_loop_ints 0 dec_zero cells eq_refl dec_zero_from Hc). fold ns.
  destruct (sums_fit 0 ns); [|done]. cbn [res_bind]. rewrite Z.add_0_l.
  destruct (field_defaults t !! f) as [v|]; [destruct v|]; done.
Qed.

(** ** FlowFields *)

Definition flow_rows t (conditions : list (Z * FlowFilter)) : list Row :=
  List.filter (fun row : Row =>
    forallb (fun c => flow_filter_matches c.2 (default VEmpty (row !! c.1))) conditions) (bt_values (rows t)).

(** The cells [Min] and [Max] look at: an unassigned one counts as the
    declared zero of the field. *)
Definition flow_cells t conditions (f : Z) : list Value :=
  omap (fun row : Row => match row !! f with Some v => Some v | None => field_defaults t !! f end)
    (flow_rows t conditions).

Definition extreme (agg : FlowAgg) (m x : decimal) : Prop :=
  match agg with Min => dec_cmp m x <> Gt | _ => dec_cmp m x <> Lt end.

Lemma extreme_refl agg m : extreme agg m m.
Proof. unfold extreme. rewrite dec_cmp_refl. by destruct agg. Qed.

Lemma extreme_trans agg a b c : extreme agg a b -> extreme agg b c -> extreme agg a c.
Proof.
  unfold extreme. intros H1 H2. destruct (dec_cmp a b) eqn:E1, (dec_cmp b c) eqn:E2;
    try (rewrite (dec_cmp_eq_l a b c E1), E2; done);
    try (rewrite <- (dec_cmp_eq_r a b c E2), E1; done);
    try (by destruct agg);
    rewrite (order_trans (P:=fun _ => True) _ a b c I I I E1 E2); done.
Qed.

(** [best] so far is an extreme numeric cell of those seen. *)
Definition best_of (agg : FlowAgg) (seen : list Value) (best : option Value) : Prop :=
  match best with
  | None => Forall (fun c => as_number c = None) seen
  | Some b => b ∈ seen /\ exists m, as_number b = Some m /\
      Forall (fun c => forall x, as_number c = Some x -> extreme agg m x) seen
  end.

Lemma better_step agg seen best c :
  agg = Min \/ agg = Max -> best_of agg seen best -> best_of agg (seen ++ [c]) (better agg best c).
Proof.
  intros Hagg Hb. unfold better. destruct (as_number c) as [x|] eqn:Ec.
  - destruct best as [b|]; simpl in Hb |- *.
    + destruct Hb as (Hin & m & Em & Hall). rewrite Em. cbn [default from_option].
      set (take := match agg with Min => _ | _ => _ end).
      assert (if take then extreme agg x m else extreme agg m x) as Htake.
      { subst take. unfold extreme. rewrite (dec_cmp_sym x m).
        destruct Hagg as [-> | ->]; simpl; by destruct (dec_cmp x m). }
      destruct take; (split; [set_solver|]).
      * exists x. split; [done|]. apply Forall_app. split.
        -- eapply Forall_impl; [exact Hall|]. intros c' H y Hy. eapply extreme_trans; eauto.
        -- constructor; [|constructor]. intros y Hy. rewrite Ec in Hy. injection Hy as <-. apply extreme_refl.
      * exists m. split; [done|]. apply Forall_app. split; [done|].
        constructor; [|constructor]. intros y Hy. rewrite Ec in Hy. by injection Hy as <-.
    + split; [set_solver|]. exists x. split; [done|]. apply Forall_app. split.
      * eapply Forall_impl; [exact Hb|]. intros c' H y Hy. simpl in H. congruence.
      * constructor; [|constructor]. intros y Hy. rewrite Ec in Hy. injection Hy as <-. apply extreme_refl.
  - destruct best as [b|]; simpl in Hb |- *.
    + destruct Hb as (Hin & m & Em & Hall). split; [set_solver|]. exists m. split; [done|].
      apply Forall_app. split; [done|]. constructor; [congruence|constructor].
    + apply Forall_app. split; [done|]. by repeat constructor.
Qed.

Lemma better_fold agg seen best cells :
  agg = Min \/ agg = Max -> best_of agg seen best ->
  best_of agg (seen ++ cells) (foldl (better agg) best cells).
Proof.
  intros Hagg. revert seen best. induction cells as [|c cells IH]; intros seen best Hb; simpl.
  - by rewrite app_nil_r.
  - rewrite (app_assoc seen [c] cells : seen ++ c :: cells = _). by apply IH, better_step.
Qed.

(** FlowFields that count or pick: [Count] is the number of rows that
    meet every condition, [Exist] whether there is one, and [Min] and [Max]
    return one of the aggregated cells (an unassigned cell counting as the
    field's zero) with no numeric cell below or above it, or 0 when no cell is
    numeric. *)
Lemma calc_flow_counts_and_extremes t conditions f :
  Z.of_nat (length (flow_rows t conditions)) <= i64_max ->
  calc_flow t conditions (Some f) Count = Ok (VInteger (Z.of_nat (length (flow_rows t conditions)))) /\
  calc_flow t conditions (Some f) Exist =
    Ok (VBoolean (negb (bool_decide (flow_rows t conditions = [])))) /\
  forall agg, agg = Min \/ agg = Max ->
    exists v, calc_flow t conditions (Some f) agg = Ok v /\
      ((v = VInteger 0 /\ Forall (fun c => as_number c = None) (flow_cells t conditions f)) \/
       (v ∈ flow_cells t conditions f /\ exists m, as_number v = Some m /\
          Forall (fun c => forall x, as_number c = Some x -> extreme agg m x) (flow_cells t conditions f))).
Proof.
  intros Hlen. unfold calc_flow. fold (flow_rows t conditions). cbv zeta. split_and!.
  - unfold checked_i64. assert (in_i64 (Z.of_nat (length (flow_rows t conditions))) = true) as ->; [|done].
    apply in_i64_spec. unfold_ints. lia.
  - case_bool_decide as E; [by rewrite E|]. by destruct (flow_rows t conditions).
  - intros agg Hagg. pose proof (better_fold agg [] None (flow_cells t conditions f) Hagg) as H.
    exists (default (VInteger 0) (foldl (better agg) None (flow_cells t conditions f))).
    split; [by destruct Hagg as [-> | ->]|]. simpl in H. specialize (H (List.Forall_nil _)).
    destruct (foldl (better agg) None (flow_cells t conditions f)) as [b|]; simpl in H |- *; auto.
Qed.

(** C30: Aggregates are exact or refuse.  [CalcSums] over a field without
    Decimal cells is the exact integer sum of the selected rows' cells (as a
    Decimal when the field is declared one), or the overflow error when a
    partial sum leaves the 64-bit range; it never wraps around.  FlowFields
    that count or pick: [Count] is the number of rows that meet every
    condition, [Exist] whether there is one, and [Min] and [Max] return one of
    the aggregated cells (an unassigned cell counting as the field's zero) with
    no numeric cell below or above it, or 0 when no cell is numeric. *)
Theorem aggregates_exact t :
  (forall vw f,
     let cells := omap (fun row : Row => row !! f) (selected_rows t vw) in
     let ns := omap int_of cells in
     Forall (fun c => is_decimal c = false /\ forall n, int_of c = Some n -> in_i64 n = true) cells ->
     calc_sum_in t vw f =
       if sums_fit 0 ns then
         Ok (match field_defaults t !! f with
             | Some (VDecimal _) => VDecimal (dec_from (total ns))
             | _ => VInteger (total ns)
             end)
       else Err (FlowArithmeticOverflow (lit "Sum"))) /\
  (forall conditions f, Z.of_nat (length (flow_rows t conditions)) <= i64_max ->
     calc_flow t conditions (Some f) Count = Ok (VInteger (Z.of_nat (length (flow_rows t conditions)))) /\
     calc_flow t conditions (Some f) Exist =
       Ok (VBoolean (negb (bool_decide (flow_rows t conditions = [])))) /\
     forall agg, agg = Min \/ agg = Max ->
       exists v, calc_flow t conditions (Some f) agg = Ok v /\
         ((v = VInteger 0 /\ Forall (fun c => as_number c = None) (flow_cells t conditions f)) \/
          (v ∈ flow_cells t conditions f /\ exists m, as_number v = Some m /\
             Forall (fun c => forall x, as_number c = Some x -> extreme agg m x) (flow_cells t conditions f)))).
Proof. split; [exact (calc_sum_exact_or_overflow t)|exact (calc_flow_counts_and_extremes t)]. Qed.

End sets.

(** * The theorems evaluated *)

Import Sample.
#[local] Existing Instances mini_decimal mini_decimal_laws ascii_unicode ascii_unicode_laws.

(** Customer B20 becomes E50 and moves to its new key; becoming C30 fails. *)
Lemma replace_field_value_atomic_witness :
  (exists t', replace_field_value customers 1 (code "b20") (code "e50") = (t', Ok 1%nat) /\
     print_row <$> get_row t' [code "E50"] = Some [lit "e50"; lit "5"; lit "1"]) /\
  replace_field_value customers 1 (code "b20") (code "C30") = (customers, Err DuplicateKey).
Proof.
  split.
  - pose proof (replace_field_value_atomic customers 1 (code "b20") (code "e50") customers_wf I) as H.
    assert ((replace_field_value customers 1 (code "b20") (code "e50")).2 = Ok 1%nat) as E by reflexivity.
    destruct (replace_field_value customers 1 (code "b20") (code "e50")) as [t' r].
    simpl in E. subst r. destruct H as [_ H]. exists t'. split; [reflexivity|].
    assert ((fun row => (print_row (<[1 := code "e50"]> row), holds_value customers 1 (code "b20") row)) <$>
      get_row customers [code "B20"] = Some ([lit "e50"; lit "5"; lit "1"], true)) as E1 by (vm_compute; reflexivity).
    assert ((fun row => key_of_row customers (<[1 := code "e50"]> row)) <$> get_row customers [code "B20"] =
      Some (Ok [code "E50"])) as E2 by reflexivity.
    destruct (get_row customers [code "B20"]) as [row|] eqn:Eg; cbv [fmap option_fmap option_map] in E1, E2;
      [|discriminate E1]. apply (inj Some) in E1, E2. apply pair_equal_spec in E1 as [Ep Eh].
    assert (get_row t' [code "E50"] = Some (<[1 := code "e50"]> row)) as ->; [|by rewrite <- Ep].
    apply H; [repeat constructor|]. left. exists [code "B20"], row, [code "E50"].
    split_and!; try done. repeat constructor.
  - pose proof (replace_field_value_atomic customers 1 (code "b20") (code "C30") customers_wf I) as H.
    assert ((replace_field_value customers 1 (code "b20") (code "C30")).2 = Err DuplicateKey) as E by reflexivity.
    destruct (replace_field_value customers 1 (code "b20") (code "C30")) as [t' r].
    simpl in E. subst r. by rewrite H.
Defined.

(** The ranks of the customers of rank 1 or 2 add up to 4. *)
Lemma aggregates_exact_witness : calc_sum_in customers ranked 3 = Ok (VInteger 4).
Proof.
  rewrite (proj1 (aggregates_exact customers) ranked 3); [reflexivity|].
  assert (forallb (fun c => match c with VInteger n => in_i64 n | _ => false end)
    (omap (fun row : gmap Z Value => row !! 3) (selected_rows customers ranked)) = true) as H by (vm_compute; reflexivity).
  apply Forall_forall. intros c Hc. rewrite forallb_forall in H. specialize (H c ltac:(by apply list_elem_of_In)).
  destruct c; try discriminate H. split; [reflexivity|]. intros m Hm. injection Hm as <-. exact H.
Defined.

