(* ===== verification/Scopes.v ===== *)
(** Call frames, the variables they hold and the bytes a test holds
    ([interpreter/scope.rs], and the byte budget of [interpreter/value.rs]).

    The thread-local total [HELD_BYTES] is the argument and the result of every
    operation that reads or writes it.  A [Slot], a variable and the count of
    the frame it lives in, is the frame and the variable's key. *)

From Stdlib Require Import ZArith Lia.
From stdpp Require Import base tactics numbers option list gmap strings.
From S2P Require Import Prelude RustStr Decimals Values Slots.

#[local] Open Scope Z_scope.
#[local] Open Scope rust_scope.

(** * The budget *)

Definition over_held_budget (operation : str) (total : Z) : str :=
  operation ++ lit " would make the variables, Lists, Dictionaries, arrays, TextBuilders and JSON values of this test hold "
  ++ i64_to_str total ++ lit " bytes, over the local test runtime's limit of "
  ++ i64_to_str (MAX_HELD_BYTES / (1024 * 1024)) ++ lit " MiB for one test".

(** The new total, or a refusal that leaves the total as it was. *)
Definition hold_bytes (operation : str) (bytes held_bytes : Z) : Res str Z :=
  let total := saturating_add held_bytes bytes in
  if (0 <? bytes) && (MAX_HELD_BYTES <? total) then Err (over_held_budget operation total) else Ok total.

Definition add_held_bytes (bytes held_bytes : Z) : Z := saturating_add held_bytes bytes.
Definition release_held_bytes (bytes held_bytes : Z) : Z := saturating_sub held_bytes bytes.

Definition check_held_bytes (operation : str) (held_bytes : Z) : Res str unit :=
  if MAX_HELD_BYTES <? held_bytes then Err (over_held_budget operation held_bytes) else Ok tt.

(** ** Shared contents

    The count of one List's, Dictionary's or TextBuilder's contents.  [release]
    is the value the compare-exchange loop settles on. *)

Definition shared_new (contents_bytes total : Z) : Z * Z :=
  (contents_bytes, add_held_bytes contents_bytes total).

Definition charge (operation : str) (bytes shared_held total : Z) : Res str (Z * Z) :=
  total <-? hold_bytes operation bytes total ;
  Ok (shared_held + bytes, total).

Definition release (bytes shared_held total : Z) : Z * Z :=
  (saturating_sub shared_held bytes, release_held_bytes (Z.min shared_held bytes) total).

Definition shared_recount (operation : str) (bytes shared_held total : Z) : Z * Z * Res str unit :=
  if bytes <=? shared_held then (bytes, release_held_bytes (shared_held - bytes) total, Ok tt)
  else
    let total := add_held_bytes (bytes - shared_held) total in
    (bytes, total, check_held_bytes operation total).

(** [take_values_if_last] of the last handle. *)
Definition shared_drop (shared_held total : Z) : Z := release_held_bytes shared_held total.

Section scope.
Context {D : Decimal}.

(** * Frames *)

Record CallFrame := {
  procedure : str;
  object : str;
  locals : gmap str Value;
  declared_text_lengths : gmap str Z;
  call_site : option (str * Z);
  implicit_record : bool;
  instance : option Z;
  held : Z;
}.

Definition set_locals (f : CallFrame) (m : gmap str Value) (h : Z) : CallFrame := {|
  procedure := procedure f; object := object f; locals := m;
  declared_text_lengths := declared_text_lengths f; call_site := call_site f;
  implicit_record := implicit_record f; instance := instance f; held := h;
|}.

Definition new_frame (obj proc : str) : CallFrame := {|
  procedure := proc; object := obj; locals := ∅; declared_text_lengths := ∅;
  call_site := None; implicit_record := false; instance := None; held := 0;
|}.

(** [clone] and [drop]: the frame's count is added again, and given back. *)
Definition clone_frame (f : CallFrame) (total : Z) : CallFrame * Z := (f, add_held_bytes (held f) total).
Definition drop_frame (f : CallFrame) (total : Z) : Z := release_held_bytes (held f) total.

Definition release_frame_bytes (frame_held bytes total : Z) : Z * Z :=
  let bytes := Z.min bytes frame_held in
  (frame_held - bytes, release_held_bytes bytes total).

Definition bind (f : CallFrame) (name : str) (value : Value) (total : Z) : CallFrame * Z :=
  let bytes := owned_bytes value in
  let total := add_held_bytes bytes total in
  let frame_held := saturating_add (held f) bytes in
  let key := to_ascii_lowercase name in
  let m := <[key := value]> (locals f) in
  match locals f !! key with
  | Some old =>
      let '(frame_held, total) := release_frame_bytes frame_held (owned_bytes old) total in
      (set_locals f m frame_held, total)
  | None => (set_locals f m frame_held, total)
  end.

Definition unbind (f : CallFrame) (name : str) (total : Z) : option Value * CallFrame * Z :=
  let key := to_ascii_lowercase name in
  match locals f !! key with
  | None => (None, f, total)
  | Some old =>
      let '(frame_held, total) := release_frame_bytes (held f) (owned_bytes old) total in
      (Some old, set_locals f (delete key (locals f)) frame_held, total)
  end.

Definition frame_check_held_bytes (f : CallFrame) (operation : str) (total : Z) : Res str unit :=
  if held f =? 0 then Ok tt else check_held_bytes operation total.

Definition get (f : CallFrame) (name : str) : option Value := locals f !! to_ascii_lowercase name.

Definition is_object_globals (f : CallFrame) : bool := str_is (procedure f) "<globals>".

Definition bind_declared_text_length (f : CallFrame) (name : str) (length : Z) : CallFrame := {|
  procedure := procedure f; object := object f; locals := locals f;
  declared_text_lengths := <[to_ascii_lowercase name := length]> (declared_text_lengths f);
  call_site := call_site f; implicit_record := implicit_record f; instance := instance f; held := held f;
|}.

(** * Slots *)

Definition recount (operation : str) (frame_held old new total : Z) : Res str (Z * Z) :=
  total <-? hold_bytes operation new total ;
  Ok (release_frame_bytes (saturating_add frame_held new) old total).

(** [Slot::store] on the variable [key] of [f]; a refusal changes nothing. *)
Definition store (operation : str) (f : CallFrame) (key : str) (value : Value) (total : Z) :
  Res str (CallFrame * Z) :=
  let old := default VNull (locals f !! key) in
  '(frame_held, total) <-? recount operation (held f) (owned_bytes old) (owned_bytes value) total ;
  Ok (set_locals f (<[key := value]> (locals f)) frame_held, total).

(** * The stack

    The frames are kept innermost first: the code's [Vec] reversed, so
    [frames.last()] is the head and [iter().rev()] is list order. *)

Definition MAX_EXPR_DEPTH : Z := 2560.

Record ScopeStack := { frames : list CallFrame; expr_depth : Z }.

Definition new_stack : ScopeStack := {| frames := []; expr_depth := 0 |}.

Definition enter_expr (s : ScopeStack) : ScopeStack * bool :=
  if MAX_EXPR_DEPTH <=? expr_depth s then (s, false)
  else ({| frames := frames s; expr_depth := expr_depth s + 1 |}, true).

Definition exit_expr (s : ScopeStack) : ScopeStack :=
  {| frames := frames s; expr_depth := saturating_sub (expr_depth s) 1 |}.

Definition push (s : ScopeStack) (f : CallFrame) : ScopeStack * nat :=
  ({| frames := f :: frames s; expr_depth := expr_depth s |}, length (frames s)).

Definition pop (s : ScopeStack) : ScopeStack * option CallFrame :=
  match frames s with
  | [] => (s, None)
  | f :: fs => ({| frames := fs; expr_depth := expr_depth s |}, Some f)
  end.

Definition depth (s : ScopeStack) : nat := length (frames s).
Definition top (s : ScopeStack) : option CallFrame := head (frames s).

(** [frame_mut(index)]: the position of the frame [push] numbered [index]. *)
Definition frame_position (s : ScopeStack) (index : nat) : option nat :=
  if (index <? length (frames s))%nat then Some (length (frames s) - 1 - index)%nat else None.

Definition globals_of (obj : str) (f : CallFrame) : bool :=
  is_object_globals f && eq_ignore_ascii_case (object f) obj.

Definition has_object_globals (s : ScopeStack) (obj : str) : bool := existsb (globals_of obj) (frames s).

Definition object_instance (s : ScopeStack) (obj : str) : option Z :=
  f ← List.find (globals_of obj) (frames s); instance f.

(** [find_map] over the frames below the top one. *)
Fixpoint find_in_globals {A} (get : CallFrame -> option A) (obj : str) (fs : list CallFrame) : option A :=
  match fs with
  | [] => None
  | f :: fs =>
      match (if globals_of obj f then get f else None) with
      | Some a => Some a
      | None => find_in_globals get obj fs
      end
  end.

Definition lookup_with {A} (get : CallFrame -> option A) (s : ScopeStack) : option A :=
  match frames s with
  | [] => None
  | current :: rest =>
      match get current with
      | Some a => Some a
      | None => find_in_globals get (object current) rest
      end
  end.

Definition lookup (s : ScopeStack) (name : str) : option Value :=
  lookup_with (fun f => locals f !! to_ascii_lowercase name) s.

Definition declared_text_length (s : ScopeStack) (name : str) : option Z :=
  lookup_with (fun f => declared_text_lengths f !! to_ascii_lowercase name) s.

Definition contains_key (f : CallFrame) (key : str) : bool :=
  match locals f !! key with Some _ => true | None => false end.

(** The position of the first frame at or after [i] that satisfies [p]. *)
Fixpoint find_position (p : CallFrame -> bool) (i : nat) (fs : list CallFrame) : option nat :=
  match fs with
  | [] => None
  | f :: fs => if p f then Some i else find_position p (S i) fs
  end.

(** [lookup_slot_mut]: the position of the frame the variable lives in. *)
Definition lookup_slot_mut (s : ScopeStack) (name : str) : option nat :=
  let key := to_ascii_lowercase name in
  match frames s with
  | [] => None
  | current :: rest =>
      if contains_key current key then Some 0%nat
      else find_position (fun f => globals_of (object current) f && contains_key f key) 1 rest
  end.

(** An assignment to the variable [name]: [lookup_slot_mut] and [store]. *)
Definition store_variable (operation : str) (s : ScopeStack) (name : str) (value : Value) (total : Z) :
  option (Res str (ScopeStack * Z)) :=
  i ← lookup_slot_mut s name;
  f ← frames s !! i;
  Some ('(f', total) <-? store operation f (to_ascii_lowercase name) value total ;
        Ok ({| frames := <[i := f']> (frames s); expr_depth := expr_depth s |}, total)).

Definition frame_trace (f : CallFrame) : str :=
  match call_site f with
  | Some (file, line) =>
      file ++ lit ":" ++ i64_to_str line ++ lit " " ++ object f ++ lit "::" ++ procedure f
  | None => object f ++ lit "::" ++ procedure f
  end.

(** Outermost frame first. *)
Definition stack_trace (s : ScopeStack) : list str := map frame_trace (reverse (frames s)).
End scope.
