(* ===== verification/ScopeSpec.v ===== *)
(** What frames, slots and the byte budget of [Scopes.v] promise: the total a
    test holds is exactly what its frames and shared contents count, the check
    of a store, and that reading and writing a variable agree on where it
    lives. *)

From Stdlib Require Import ZArith Lia.
From stdpp Require Import base tactics numbers option list gmap strings relations.
From S2P Require Import Prelude RustStr Decimals Values Slots Scopes.

#[local] Open Scope Z_scope.
#[local] Open Scope rust_scope.

Definition sumZ (l : list Z) : Z := foldr Z.add 0 l.

Lemma sumZ_perm l l' : Permutation l l' -> sumZ l = sumZ l'.
Proof. induction 1; simpl; lia. Qed.

Lemma sumZ_app l l' : sumZ (l ++ l') = sumZ l + sumZ l'.
Proof. induction l; simpl; lia. Qed.

(** A list with the element at [i] changed, or taken out. *)
Lemma sumZ_insert l i x y : l !! i = Some x -> sumZ (<[i := y]> l) = sumZ l - x + y.
Proof.
  revert i. induction l as [|z l IH]; intros [|i]; simpl; try done.
  - intros [= ->]. lia.
  - intros H. rewrite IH by done. lia.
Qed.

Lemma sumZ_delete l i x : l !! i = Some x -> sumZ (delete i l) = sumZ l - x.
Proof.
  revert i. induction l as [|z l IH]; intros [|i]; simpl; try done.
  - intros [= ->]. lia.
  - intros H. change (delete (S i) (z :: l)) with (z :: delete i l). simpl. rewrite IH by done. lia.
Qed.

Section ledger.
Context {D : Decimal}.
Implicit Types (f : CallFrame) (m : gmap str Value) (total : Z).

(** The bytes of a frame's variables. *)
Definition locals_bytes m : Z := sumZ (map (fun kv => owned_bytes kv.2) (map_to_list m)).

Lemma text_bytes_nonneg v : 0 <= text_bytes v.
Proof. destruct v; simpl; try lia; apply str_len_nonneg. Qed.

Lemma owned_bytes_nonneg v : 0 <= owned_bytes v.
Proof.
  unfold owned_bytes. destruct (unwrap_variant v); try apply text_bytes_nonneg.
  induction l as [|x l IH]; simpl; [lia|].
  assert (0 <= saturating_add VALUE_SIZE (text_bytes x)); [|lia].
  pose proof (text_bytes_nonneg x). unfold saturating_add, VALUE_SIZE, usize_max. lia.
Qed.

Lemma locals_bytes_new m k v : m !! k = None -> locals_bytes (<[k := v]> m) = owned_bytes v + locals_bytes m.
Proof.
  intros H. unfold locals_bytes. rewrite (sumZ_perm _ (map (fun kv => owned_bytes kv.2) ((k, v) :: map_to_list m))).
  - done.
  - by apply Permutation_map, map_to_list_insert.
Qed.

Lemma locals_bytes_delete m k old :
  m !! k = Some old -> locals_bytes m = owned_bytes old + locals_bytes (delete k m).
Proof.
  intros H. rewrite <- (insert_delete_id m k old H) at 1. apply locals_bytes_new, lookup_delete_eq.
Qed.

Lemma locals_bytes_insert m k v old :
  m !! k = Some old -> locals_bytes (<[k := v]> m) = locals_bytes m - owned_bytes old + owned_bytes v.
Proof.
  intros H. rewrite (locals_bytes_delete m k old H), <- insert_delete_eq.
  rewrite locals_bytes_new by apply lookup_delete_eq. lia.
Qed.

Lemma locals_bytes_nonneg m : 0 <= locals_bytes m.
Proof.
  unfold locals_bytes. induction (map_to_list m) as [|kv l IH]; simpl; [lia|].
  pose proof (owned_bytes_nonneg kv.2). lia.
Qed.

Lemma locals_bytes_lookup m k v : m !! k = Some v -> owned_bytes v <= locals_bytes m.
Proof.
  intros H. rewrite (locals_bytes_delete m k v H). pose proof (locals_bytes_nonneg (delete k m)). lia.
Qed.

(** * The ledger

    Everything on the thread that counts bytes: the call frames and codeunit
    globals, and the contents of the Lists, Dictionaries and TextBuilders. *)

Record Ledger := { ledger_frames : list CallFrame; ledger_shared : list Z; ledger_total : Z }.

(** Additions are below 2^64: they count bytes that are in memory. *)
Definition fits (bytes total : Z) : Prop := 0 <= bytes /\ total + bytes <= usize_max.

Inductive ledger_step : Ledger -> Ledger -> Prop :=
  | step_frame fs sh total obj proc :
      ledger_step {| ledger_frames := fs; ledger_shared := sh; ledger_total := total |}
        {| ledger_frames := new_frame obj proc :: fs; ledger_shared := sh; ledger_total := total |}
  | step_bind fs sh total i f name v :
      fs !! i = Some f -> fits (owned_bytes v) total ->
      ledger_step {| ledger_frames := fs; ledger_shared := sh; ledger_total := total |}
        {| ledger_frames := <[i := (bind f name v total).1]> fs; ledger_shared := sh;
           ledger_total := (bind f name v total).2 |}
  | step_unbind fs sh total i f name :
      fs !! i = Some f ->
      ledger_step {| ledger_frames := fs; ledger_shared := sh; ledger_total := total |}
        {| ledger_frames := <[i := (unbind f name total).1.2]> fs; ledger_shared := sh;
           ledger_total := (unbind f name total).2 |}
  | step_store fs sh total i f key v operation f' total' :
      fs !! i = Some f -> is_Some (locals f !! key) -> store operation f key v total = Ok (f', total') ->
      ledger_step {| ledger_frames := fs; ledger_shared := sh; ledger_total := total |}
        {| ledger_frames := <[i := f']> fs; ledger_shared := sh; ledger_total := total' |}
  | step_clone fs sh total i f :
      fs !! i = Some f -> fits (held f) total ->
      ledger_step {| ledger_frames := fs; ledger_shared := sh; ledger_total := total |}
        {| ledger_frames := (clone_frame f total).1 :: fs; ledger_shared := sh;
           ledger_total := (clone_frame f total).2 |}
  | step_drop fs sh total i f :
      fs !! i = Some f ->
      ledger_step {| ledger_frames := fs; ledger_shared := sh; ledger_total := total |}
        {| ledger_frames := delete i fs; ledger_shared := sh; ledger_total := drop_frame f total |}
  | step_shared fs sh total bytes :
      fits bytes total ->
      ledger_step {| ledger_frames := fs; ledger_shared := sh; ledger_total := total |}
        {| ledger_frames := fs; ledger_shared := (shared_new bytes total).1 :: sh;
           ledger_total := (shared_new bytes total).2 |}
  | step_charge fs sh total i h operation bytes h' total' :
      sh !! i = Some h -> 0 <= bytes -> charge operation bytes h total = Ok (h', total') ->
      ledger_step {| ledger_frames := fs; ledger_shared := sh; ledger_total := total |}
        {| ledger_frames := fs; ledger_shared := <[i := h']> sh; ledger_total := total' |}
  | step_release fs sh total i h bytes :
      sh !! i = Some h -> 0 <= bytes ->
      ledger_step {| ledger_frames := fs; ledger_shared := sh; ledger_total := total |}
        {| ledger_frames := fs; ledger_shared := <[i := (release bytes h total).1]> sh;
           ledger_total := (release bytes h total).2 |}
  | step_recount fs sh total i h operation bytes :
      sh !! i = Some h -> fits bytes total ->
      ledger_step {| ledger_frames := fs; ledger_shared := sh; ledger_total := total |}
        {| ledger_frames := fs; ledger_shared := <[i := (shared_recount operation bytes h total).1.1]> sh;
           ledger_total := (shared_recount operation bytes h total).1.2 |}
  | step_shared_drop fs sh total i h :
      sh !! i = Some h ->
      ledger_step {| ledger_frames := fs; ledger_shared := sh; ledger_total := total |}
        {| ledger_frames := fs; ledger_shared := delete i sh; ledger_total := shared_drop h total |}.

Definition start_ledger : Ledger := {| ledger_frames := []; ledger_shared := []; ledger_total := 0 |}.

Definition frame_exact f : Prop := held f = locals_bytes (locals f).

Record ledger_ok (l : Ledger) : Prop := {
  lok_total : ledger_total l = sumZ (map held (ledger_frames l)) + sumZ (ledger_shared l);
  lok_frames : Forall frame_exact (ledger_frames l);
  lok_shared : Forall (fun h => 0 <= h) (ledger_shared l);
  lok_bound : ledger_total l <= usize_max;
}.

(** ** Each operation keeps the ledger exact *)

Lemma saturating_add_fits a b : 0 <= a -> fits b a -> saturating_add a b = a + b.
Proof. unfold fits, saturating_add. lia. Qed.

Lemma release_exact bytes total : 0 <= bytes <= total -> release_held_bytes bytes total = total - bytes.
Proof. unfold release_held_bytes, saturating_sub. lia. Qed.

Lemma release_frame_exact h bytes total :
  0 <= bytes <= h -> h <= total -> release_frame_bytes h bytes total = (h - bytes, total - bytes).
Proof.
  intros. unfold release_frame_bytes. rewrite Z.min_l by lia. by rewrite release_exact by lia.
Qed.

Lemma bind_exact f name v total :
  frame_exact f -> held f <= total -> fits (owned_bytes v) total ->
  frame_exact (bind f name v total).1 /\
  (bind f name v total).2 - held (bind f name v total).1 = total - held f /\
  (bind f name v total).2 <= usize_max.
Proof.
  unfold frame_exact. intros Hf Ht Hfits. pose proof (locals_bytes_nonneg (locals f)).
  pose proof (owned_bytes_nonneg v). unfold bind, add_held_bytes.
  rewrite !saturating_add_fits by (unfold fits in *; lia).
  destruct (locals f !! _) as [old|] eqn:E.
  - pose proof (locals_bytes_lookup _ _ _ E). pose proof (owned_bytes_nonneg old).
    rewrite release_frame_exact by lia. simpl. rewrite (locals_bytes_insert _ _ _ _ E).
    unfold fits in *. lia.
  - simpl. rewrite locals_bytes_new by done. unfold fits in *. lia.
Qed.

Lemma unbind_exact f name total :
  frame_exact f -> held f <= total ->
  frame_exact (unbind f name total).1.2 /\
  (unbind f name total).2 - held (unbind f name total).1.2 = total - held f /\
  (unbind f name total).2 <= total.
Proof.
  unfold frame_exact. intros Hf Ht. unfold unbind. destruct (locals f !! _) as [old|] eqn:E; [|simpl; lia].
  pose proof (locals_bytes_lookup _ _ _ E). pose proof (owned_bytes_nonneg old).
  rewrite release_frame_exact by lia. simpl. rewrite (locals_bytes_delete _ _ _ E) in Hf. lia.
Qed.

(** [Slot::store] on a variable of an exact frame. *)
Lemma store_exact operation f key v total old :
  frame_exact f -> held f <= total -> total <= usize_max -> locals f !! key = Some old ->
  store operation f key v total =
    if (0 <? owned_bytes v) && (MAX_HELD_BYTES <? total + owned_bytes v)
    then Err (over_held_budget operation (Z.min (total + owned_bytes v) usize_max))
    else Ok (set_locals f (<[key := v]> (locals f)) (locals_bytes (<[key := v]> (locals f))),
             total - owned_bytes old + owned_bytes v).
Proof.
  unfold frame_exact. intros Hf Ht Hm Hold. pose proof (locals_bytes_nonneg (locals f)).
  pose proof (locals_bytes_lookup _ _ _ Hold). pose proof (owned_bytes_nonneg old). pose proof (owned_bytes_nonneg v).
  unfold store, recount, hold_bytes. rewrite Hold. cbn [default from_option id].
  assert ((MAX_HELD_BYTES <? saturating_add total (owned_bytes v)) = (MAX_HELD_BYTES <? total + owned_bytes v)) as ->.
  { unfold saturating_add, MAX_HELD_BYTES, usize_max.
    destruct (Z.ltb_spec (256 * 1024 * 1024) (total + owned_bytes v)), (Z.ltb_spec (256 * 1024 * 1024) (Z.min (total + owned_bytes v) (2 ^ 64 - 1)));
      try done; lia. }
  destruct (Z.ltb_spec 0 (owned_bytes v)) as [Hpos|Hzero]; cbn [andb].
  - destruct (Z.ltb_spec MAX_HELD_BYTES (total + owned_bytes v)); [done|].
    assert (fits (owned_bytes v) total) by (unfold fits, MAX_HELD_BYTES, usize_max in *; lia).
    cbn [res_bind]. rewrite !saturating_add_fits by (unfold fits in *; lia).
    rewrite release_frame_exact by lia. rewrite (locals_bytes_insert _ _ _ _ Hold).
    do 2 f_equal; [f_equal; lia|lia].
  - cbn [res_bind].
    rewrite !saturating_add_fits by (unfold fits, usize_max in *; lia).
    rewrite release_frame_exact by lia. rewrite (locals_bytes_insert _ _ _ _ Hold).
    do 2 f_equal; [f_equal; lia|lia].
Qed.

Lemma ledger_parts l i f :
  ledger_ok l -> ledger_frames l !! i = Some f ->
  frame_exact f /\ 0 <= held f <= ledger_total l /\
  ledger_total l = sumZ (map held (delete i (ledger_frames l))) + held f + sumZ (ledger_shared l).
Proof.
  intros [Ht Hf Hs _] Hi. pose proof (Forall_lookup_1 _ _ _ _ Hf Hi) as He.
  assert (0 <= sumZ (map held (delete i (ledger_frames l)))) as Hrest.
  { apply (Forall_delete _ _ i) in Hf. clear -Hf. induction Hf as [|g fs Hg _ IH]; simpl; [lia|].
    unfold frame_exact in Hg. pose proof (locals_bytes_nonneg (locals g)). lia. }
  assert (0 <= sumZ (ledger_shared l)) by (clear -Hs; induction Hs; simpl; lia).
  unfold frame_exact in He. pose proof (locals_bytes_nonneg (locals f)).
  assert (sumZ (map held (ledger_frames l)) = sumZ (map held (delete i (ledger_frames l))) + held f) as Hsum.
  { clear -Hi. revert i Hi. induction (ledger_frames l) as [|g fs IH]; intros [|i]; simpl; try done.
    - intros [= ->]. lia.
    - intros Hi. change (delete (S i) (g :: fs)) with (g :: delete i fs). simpl. rewrite (IH i Hi). lia. }
  unfold frame_exact. lia.
Qed.

(** Replacing frame [i], the count of the ledger following the frame's. *)
Lemma ledger_replace fs sh total i f f' total' :
  ledger_ok {| ledger_frames := fs; ledger_shared := sh; ledger_total := total |} ->
  fs !! i = Some f -> frame_exact f' -> total' - held f' = total - held f -> total' <= usize_max ->
  ledger_ok {| ledger_frames := <[i := f']> fs; ledger_shared := sh; ledger_total := total' |}.
Proof.
  intros [Ht Hf Hs Hb] Hi Hex Heq Hb'. simpl in *. split; simpl; [|by apply Forall_insert|done|done].
  change (map held (<[i:=f']> fs)) with (held <$> <[i:=f']> fs). rewrite list_fmap_insert.
  rewrite (sumZ_insert _ i (held f)); [change (held <$> fs) with (map held fs); lia|]. by rewrite list_lookup_fmap, Hi.
Qed.

Lemma ledger_replace_shared fs sh total i h h' total' :
  ledger_ok {| ledger_frames := fs; ledger_shared := sh; ledger_total := total |} ->
  sh !! i = Some h -> 0 <= h' -> total' - h' = total - h -> total' <= usize_max ->
  ledger_ok {| ledger_frames := fs; ledger_shared := <[i := h']> sh; ledger_total := total' |}.
Proof.
  intros [Ht Hf Hs Hb] Hi Hpos Heq Hb'. simpl in *. split; simpl; [|done|by apply Forall_insert|done].
  rewrite (sumZ_insert _ i h) by done. lia.
Qed.

Lemma ledger_shared_part l i h :
  ledger_ok l -> ledger_shared l !! i = Some h -> 0 <= h <= ledger_total l.
Proof.
  intros [Ht Hf Hs _] Hi. pose proof (Forall_lookup_1 _ _ _ _ Hs Hi) as Hh. simpl in Hh.
  assert (0 <= sumZ (map held (ledger_frames l))).
  { clear -Hf. induction Hf as [|g fs Hg _ IH]; simpl; [lia|].
    unfold frame_exact in Hg. pose proof (locals_bytes_nonneg (locals g)). lia. }
  apply (Forall_delete _ _ i) in Hs. assert (0 <= sumZ (delete i (ledger_shared l))) by (clear -Hs; induction Hs; simpl; lia).
  rewrite (sumZ_delete _ _ h Hi) in *. lia.
Qed.

Lemma hold_bytes_ok operation bytes total total' :
  0 <= bytes -> 0 <= total <= usize_max -> hold_bytes operation bytes total = Ok total' ->
  total' = total + bytes /\ total' <= usize_max.
Proof.
  unfold hold_bytes, saturating_add. intros Hb Ht.
  destruct (Z.ltb_spec 0 bytes); cbn [andb]; [|intros [= <-]; unfold usize_max in *; lia].
  destruct (Z.ltb_spec MAX_HELD_BYTES (Z.min (total + bytes) usize_max)); [done|]. intros [= <-].
  unfold MAX_HELD_BYTES, usize_max in *. lia.
Qed.

Lemma ledger_step_ok l l' : ledger_step l l' -> ledger_ok l -> ledger_ok l'.
Proof.
  intros Hstep Hok. pose proof (lok_bound _ Hok) as Hb.
  destruct Hstep as [fs sh total obj proc|fs sh total i f name v Hi Hfit|fs sh total i f name Hi
    |fs sh total i f key v operation f' total' Hi [old Hold] Hst|fs sh total i f Hi Hfit|fs sh total i f Hi
    |fs sh total bytes Hfit|fs sh total i h operation bytes h' total' Hi Hbytes Hch|fs sh total i h bytes Hi Hbytes
    |fs sh total i h operation bytes Hi Hfit|fs sh total i h Hi];
    simpl in Hb; try (destruct (ledger_parts _ _ _ Hok Hi) as (Hex & Hheld & Hrest); simpl in Hheld, Hrest);
    try (pose proof (ledger_shared_part _ _ _ Hok Hi) as Hh; simpl in Hh).
  - destruct Hok as [Ht Hf Hs _]. split; simpl in *; [lia| |done|done]. by constructor.
  - destruct (bind_exact f name v total) as (? & ? & ?); [done|lia|done|]. by eapply ledger_replace.
  - destruct (unbind_exact f name total) as (? & ? & ?); [done|lia|]. eapply ledger_replace; try done. lia.
  - rewrite (store_exact operation f key v total old) in Hst by (done || lia).
    destruct ((0 <? owned_bytes v) && _) eqn:E; [done|]. injection Hst as <- <-.
    pose proof (owned_bytes_nonneg v). pose proof (owned_bytes_nonneg old).
    eapply ledger_replace; try done; simpl.
    + rewrite (locals_bytes_insert _ _ _ _ Hold). unfold frame_exact in Hex. lia.
    + apply andb_false_iff in E. rewrite !Z.ltb_ge in E. unfold MAX_HELD_BYTES, usize_max in *. lia.
  - destruct Hok as [Ht Hf Hs _]. simpl in *. unfold clone_frame, add_held_bytes.
    rewrite saturating_add_fits by (done || lia). unfold fits in Hfit.
    split; simpl; [lia| |done|lia]. by constructor.
  - destruct Hok as [Ht Hf Hs _]. simpl in *. unfold drop_frame. rewrite release_exact by lia.
    split; simpl; [|by apply Forall_delete|done|lia]. lia.
  - destruct Hok as [Ht Hf Hs _]. simpl in *. unfold shared_new, add_held_bytes.
    assert (0 <= total).
    { rewrite Ht. assert (0 <= sumZ sh) by (clear -Hs; induction Hs; simpl; lia).
      assert (0 <= sumZ (map held fs)); [|lia]. clear -Hf. induction Hf as [|g fs Hg _ IH]; simpl; [lia|].
      unfold frame_exact in Hg. pose proof (locals_bytes_nonneg (locals g)). lia. }
    rewrite saturating_add_fits by done. unfold fits in Hfit.
    split; simpl; [lia|done| |lia]. constructor; [lia|done].
  - unfold charge in Hch. destruct (hold_bytes operation bytes total) as [t|] eqn:E; [|done].
    injection Hch as <- <-. apply hold_bytes_ok in E as [-> ?]; [|done|lia].
    eapply ledger_replace_shared; try done; lia.
  - unfold release. simpl. rewrite release_exact by lia. unfold saturating_sub.
    eapply ledger_replace_shared; try done; lia.
  - unfold shared_recount. unfold fits in Hfit. destruct (Z.leb_spec bytes h); simpl.
    + rewrite release_exact by lia. eapply ledger_replace_shared; try done; lia.
    + unfold add_held_bytes. rewrite saturating_add_fits by (unfold fits; lia).
      eapply ledger_replace_shared; try done; lia.
  - destruct Hok as [Ht Hf Hs _]. simpl in *. unfold shared_drop. rewrite release_exact by lia.
    split; simpl; [|done|by apply Forall_delete|lia]. rewrite (sumZ_delete _ _ h Hi). lia.
Qed.

(** The byte budget is an exact ledger.  Whatever frames are pushed, bound,
    assigned, copied and dropped, and whatever Lists, Dictionaries and
    TextBuilders are made, grown, shrunk and dropped, the test's total is the
    sum of what they count, a frame counts exactly the bytes of the variables
    it holds, and when everything is gone the total is zero. *)
Lemma budget_ledger_exact l :
  rtc ledger_step start_ledger l ->
  ledger_total l = sumZ (map held (ledger_frames l)) + sumZ (ledger_shared l) /\
  Forall (fun f => held f = locals_bytes (locals f)) (ledger_frames l) /\
  (ledger_frames l = [] -> ledger_shared l = [] -> ledger_total l = 0).
Proof.
  intros H. assert (ledger_ok start_ledger) as H0 by (split; simpl; [done|constructor|constructor|done]).
  assert (ledger_ok l) as [Ht Hf _ _].
  { revert H0. induction H as [|l1 l2 l3 H1 _ IH]; eauto using ledger_step_ok. }
  split_and!; [done|done|]. intros E1 E2. by rewrite Ht, E1, E2.
Qed.

(** [Slot::store] on every branch.  The new bytes are checked on top of all
    that is held, the value being replaced included: when they would pass the
    limit the store is refused and nothing changes, even if the new value is
    the smaller one; otherwise the variable holds the value and the total moves
    by the difference.  A value that owns no bytes is never refused. *)
Lemma store_checks_before_releasing operation f key v total old :
  held f = locals_bytes (locals f) -> held f <= total -> total <= usize_max -> locals f !! key = Some old ->
  match store operation f key v total with
  | Ok (f', total') =>
      (0 < owned_bytes v -> total + owned_bytes v <= MAX_HELD_BYTES) /\
      f' = set_locals f (<[key := v]> (locals f)) (locals_bytes (<[key := v]> (locals f))) /\
      total' = total - owned_bytes old + owned_bytes v
  | Err _ => 0 < owned_bytes v /\ MAX_HELD_BYTES < total + owned_bytes v
  end.
Proof.
  intros Hf Ht Hm Hold. rewrite (store_exact operation f key v total old) by done.
  destruct ((0 <? owned_bytes v) && _) eqn:E.
  - apply andb_true_iff in E. rewrite !Z.ltb_lt in E. lia.
  - apply andb_false_iff in E. rewrite !Z.ltb_ge in E. split_and!; [lia|done|done].
Qed.
End ledger.

(** * Where a variable lives *)

Section lookup.
Context {D : Decimal}.
Implicit Types (s : ScopeStack) (f : CallFrame).

Lemma find_position_shift p i fs : find_position p (S i) fs = S <$> find_position p i fs.
Proof. revert i. induction fs as [|f fs IH]; intros i; simpl; [done|]. destruct (p f); [done|apply IH]. Qed.

Definition holds (obj key : str) f : bool := globals_of obj f && contains_key f key.

Lemma find_position_spec p fs :
  match find_position p 0 fs with
  | Some j => exists f, fs !! j = Some f /\ p f = true
  | None => Forall (fun f => p f = false) fs
  end.
Proof.
  induction fs as [|f fs IH]; simpl; [constructor|]. destruct (p f) eqn:E; [by exists f|].
  rewrite find_position_shift. destruct (find_position p 0 fs) as [j|]; [exact IH|by constructor].
Qed.

(** The value [lookup] finds is in the frame [lookup_slot_mut] finds. *)
Lemma find_agrees obj key fs :
  find_in_globals (fun f => locals f !! key) obj fs =
    (j ← find_position (holds obj key) 0 fs; f ← fs !! j; locals f !! key).
Proof.
  induction fs as [|f fs IH]; [done|]. cbn [find_in_globals find_position].
  unfold holds at 1, contains_key. destruct (globals_of obj f); cbn [andb].
  - destruct (locals f !! key) as [v|] eqn:E; [by simpl; rewrite E|].
    rewrite find_position_shift, IH. by destruct (find_position _ 0 fs).
  - rewrite find_position_shift, IH. by destruct (find_position _ 0 fs).
Qed.

Lemma lookup_slot_agrees s name :
  lookup s name = (i ← lookup_slot_mut s name; f ← frames s !! i; locals f !! to_ascii_lowercase name).
Proof.
  unfold lookup, lookup_with, lookup_slot_mut, contains_key. destruct (frames s) as [|f fs]; [done|].
  destruct (locals f !! _) as [v|] eqn:E; [by simpl; rewrite E|].
  fold (holds (object f) (to_ascii_lowercase name)). rewrite find_position_shift, find_agrees.
  by destruct (find_position _ 0 fs).
Qed.

(** Frames that differ in their variables only. *)
Definition same_role f f' : Prop := procedure f = procedure f' /\ object f = object f'.

Lemma same_role_refl f : same_role f f.
Proof. by split. Qed.

Lemma same_role_globals f f' obj : same_role f f' -> globals_of obj f = globals_of obj f'.
Proof. intros [E1 E2]. unfold globals_of, is_object_globals. by rewrite E1, E2. Qed.

Lemma find_in_globals_ext {A} (g : CallFrame -> option A) obj fs fs' :
  Forall2 (fun f f' => same_role f f' /\ g f = g f') fs fs' ->
  find_in_globals g obj fs = find_in_globals g obj fs'.
Proof.
  induction 1 as [|f f' fs fs' [Hr Hg] _ IH]; [done|]. cbn [find_in_globals].
  by rewrite (same_role_globals f f' obj Hr), Hg, IH.
Qed.

Lemma lookup_with_ext {A} (g : CallFrame -> option A) s s' :
  Forall2 (fun f f' => same_role f f' /\ g f = g f') (frames s) (frames s') ->
  lookup_with g s = lookup_with g s'.
Proof.
  unfold lookup_with. destruct 1 as [|f f' fs fs' [[Hp Ho] Hg] Hall]; [done|].
  rewrite Hg, Ho. by rewrite (find_in_globals_ext g (object f') fs fs').
Qed.

Lemma find_position_ext p i fs fs' :
  Forall2 (fun f f' => p f = p f') fs fs' -> find_position p i fs = find_position p i fs'.
Proof. intros H. revert i. induction H as [|f f' fs fs' E _ IH]; intros i; simpl; [done|]. by rewrite E, IH. Qed.

(** A store keeps the role of every frame and changes one key of one. *)
Lemma frames_updated fs i f key v h (P : CallFrame -> CallFrame -> Prop) :
  fs !! i = Some f -> (forall g, P g g) -> P f (set_locals f (<[key := v]> (locals f)) h) ->
  Forall2 P fs (<[i := set_locals f (<[key := v]> (locals f)) h]> fs).
Proof.
  intros Hi Hrefl Hf. revert i Hi. induction fs as [|g fs IH]; intros [|i] Hi; simpl in *; try done.
  - injection Hi as ->. constructor; [done|]. clear -Hrefl. induction fs; by constructor.
  - constructor; [done|by apply IH].
Qed.

Lemma store_frame operation f key v total f' total' :
  store operation f key v total = Ok (f', total') ->
  exists h, f' = set_locals f (<[key := v]> (locals f)) h.
Proof.
  unfold store. destruct (recount _ _ _ _ _) as [[h t]|]; [|done]. cbn [res_bind]. intros [= <- _]. by exists h.
Qed.

(** A variable changed in the frame it lives in is what its name reads, and
    every other name reads as before. *)
Lemma lookup_updated s name i f old v h e : lookup_slot_mut s name = Some i -> frames s !! i = Some f ->
  locals f !! to_ascii_lowercase name = Some old ->
  let s' := {| frames := <[i := set_locals f (<[to_ascii_lowercase name := v]> (locals f)) h]> (frames s); expr_depth := e |} in
  (forall name', to_ascii_lowercase name' = to_ascii_lowercase name -> lookup s' name' = Some v) /\
  (forall other, to_ascii_lowercase other <> to_ascii_lowercase name -> lookup s' other = lookup s other).
Proof.
  intros Ei Hf Hold s'. set (key := to_ascii_lowercase name) in *. set (f' := set_locals f (<[key := v]> (locals f)) h) in *. split.
  - intros name' Hn'. rewrite lookup_slot_agrees. assert (lookup_slot_mut s' name' = Some i) as ->.
    { rewrite <- Ei. unfold lookup_slot_mut. rewrite Hn'. fold key.
      assert (Forall2 (fun g g' => same_role g g' /\ contains_key g key = contains_key g' key) (frames s) (frames s')) as Hall.
      { apply frames_updated; [done|by intros g; split; [apply same_role_refl|]|]. split; [done|].
        unfold contains_key. simpl. by rewrite Hold, lookup_insert_eq. }
      destruct Hall as [|g g' gs gs' [[_ Ho] Hc] Hall]; [done|]. rewrite Hc, Ho. destruct (contains_key g' key); [done|].
      symmetry. apply find_position_ext. eapply Forall2_impl; [exact Hall|].
      intros x x' [Hr Hx]. by rewrite (same_role_globals x x' _ Hr), Hx. }
    cbn [mbind option_bind]. unfold s'. simpl frames. rewrite list_lookup_insert_eq by by eapply lookup_lt_Some.
    simpl. rewrite Hn'. apply lookup_insert_eq.
  - intros other Hne. symmetry. apply lookup_with_ext. unfold s'. simpl frames.
    apply (frames_updated _ i f key v h (fun g g' => same_role g g' /\
      locals g !! to_ascii_lowercase other = locals g' !! to_ascii_lowercase other)); [done|by intros g; split; [apply same_role_refl|]|].
    split; [done|]. simpl. by rewrite lookup_insert_ne by done.
Qed.

(** Reading and writing a variable agree.  A name denotes, whatever its
    case, a variable of the running procedure's frame or else of its object's
    globals, never one of a caller; [lookup] reads the variable
    [lookup_slot_mut] finds; an assignment that succeeds is what the next
    [lookup] of the name returns, and every other name reads as before. *)
Lemma lookup_reads_what_store_writes s name :
  match lookup_slot_mut s name with
  | None => lookup s name = None
  | Some i => exists f v, frames s !! i = Some f /\ locals f !! to_ascii_lowercase name = Some v /\
      lookup s name = Some v /\
      (i = 0%nat \/ exists current, top s = Some current /\ globals_of (object current) f = true)
  end /\
  forall operation v total s' total',
    store_variable operation s name v total = Some (Ok (s', total')) ->
    (forall name', to_ascii_lowercase name' = to_ascii_lowercase name -> lookup s' name' = Some v) /\
    (forall other, to_ascii_lowercase other <> to_ascii_lowercase name -> lookup s' other = lookup s other).
Proof.
  pose proof (lookup_slot_agrees s name) as Hagree. set (key := to_ascii_lowercase name) in *.
  assert (forall i, lookup_slot_mut s name = Some i -> exists f v, frames s !! i = Some f /\ locals f !! key = Some v /\
    (i = 0%nat \/ exists current, top s = Some current /\ globals_of (object current) f = true)) as Hslot.
  { intros i. unfold lookup_slot_mut, top. destruct (frames s) as [|current rest]; [done|].
    fold key. unfold contains_key at 1. destruct (locals current !! key) as [v|] eqn:E.
    - intros [= <-]. exists current, v. auto.
    - fold (holds (object current) key). rewrite find_position_shift.
      pose proof (find_position_spec (holds (object current) key) rest) as Hp.
      destruct (find_position _ 0 rest) as [j|]; [|done]. intros [= <-].
      destruct Hp as (f & Hf & [Hg Hc]%andb_true_iff). unfold contains_key in Hc.
      destruct (locals f !! key) as [v|] eqn:Ev; [|done]. exists f, v. split_and!; try done. right. by exists current. }
  split.
  { destruct (lookup_slot_mut s name) as [i|] eqn:Ei; [|done].
    destruct (Hslot i eq_refl) as (f & v & Hf & Hv & Hwhere). exists f, v. split_and!; try done.
    rewrite Hagree. simpl. by rewrite Hf. }
  intros operation v total s' total' Hst. unfold store_variable in Hst. fold key in Hst.
  destruct (lookup_slot_mut s name) as [i|] eqn:Ei; [|done]. simpl in Hst.
  destruct (Hslot i eq_refl) as (f & old & Hf & Hold & _). rewrite Hf in Hst. simpl in Hst.
  destruct (store operation f key v total) as [[f' t']|] eqn:Es; cbn [res_bind] in Hst; [|discriminate Hst].
  injection Hst as <- _.
  apply store_frame in Es as [h ->]. by eapply lookup_updated.
Qed.

(** C28: Variables are read as they were written, and their bytes are an
    exact ledger.  Whatever frames are pushed, bound, assigned, copied and
    dropped, and whatever Lists, Dictionaries and TextBuilders are made, grown,
    shrunk and dropped, the test's total is the sum of what they count, a frame
    counts exactly the bytes of the variables it holds, and when everything is
    gone the total is zero.  A name denotes, whatever its case, a variable of
    the running procedure's frame or else of its object's globals, never one of
    a caller; [lookup] reads the variable [lookup_slot_mut] finds; an assignment
    that succeeds is what the next [lookup] of the name returns, and every other
    name reads as before. *)
Theorem variables_exact :
  (forall l,
    rtc ledger_step start_ledger l ->
      ledger_total l = sumZ (map held (ledger_frames l)) + sumZ (ledger_shared l) /\
      Forall (fun f => held f = locals_bytes (locals f)) (ledger_frames l) /\
      (ledger_frames l = [] -> ledger_shared l = [] -> ledger_total l = 0)) /\
  (forall s name,
    match lookup_slot_mut s name with
      | None => lookup s name = None
      | Some i => exists f v, frames s !! i = Some f /\ locals f !! to_ascii_lowercase name = Some v /\
          lookup s name = Some v /\
          (i = 0%nat \/ exists current, top s = Some current /\ globals_of (object current) f = true)
      end /\
      forall operation v total s' total',
        store_variable operation s name v total = Some (Ok (s', total')) ->
        (forall name', to_ascii_lowercase name' = to_ascii_lowercase name -> lookup s' name' = Some v) /\
        (forall other, to_ascii_lowercase other <> to_ascii_lowercase name -> lookup s' other = lookup s other)).
Proof. exact (conj budget_ledger_exact lookup_reads_what_store_writes). Qed.
End lookup.

(** * The theorems evaluated *)

#[local] Existing Instance mini_decimal.

(** A frame whose variable [t] holds ten bytes. *)
Definition ten_bytes : CallFrame := (bind (new_frame (lit "O") (lit "P")) (lit "T") (VText (lit "0123456789")) 0).1.

(** With the budget used up, replacing ten bytes by one is refused. *)
Lemma store_checks_before_releasing_witness :
  owned_bytes (VText (lit "x")) < owned_bytes (VText (lit "0123456789")) /\
  is_ok (store (lit "x :=") ten_bytes (lit "t") (VText (lit "x")) MAX_HELD_BYTES) = false /\
  exists f', store (lit "x :=") ten_bytes (lit "t") (VText (lit "x")) 10 = Ok (f', 1).
Proof.
  split; [vm_compute; reflexivity|].
  assert (locals ten_bytes !! lit "t" = Some (VText (lit "0123456789"))) as Hold by reflexivity.
  pose proof (store_checks_before_releasing (lit "x :=") ten_bytes (lit "t") (VText (lit "x")) MAX_HELD_BYTES _
    ltac:(vm_compute; reflexivity) ltac:(vm_compute; discriminate) ltac:(vm_compute; discriminate) Hold) as H1.
  pose proof (store_checks_before_releasing (lit "x :=") ten_bytes (lit "t") (VText (lit "x")) 10 _
    ltac:(vm_compute; reflexivity) ltac:(vm_compute; discriminate) ltac:(vm_compute; discriminate) Hold) as H2.
  split.
  - destruct (store _ _ _ _ MAX_HELD_BYTES) as [[f' t']|]; [|reflexivity].
    destruct H1 as [H1 _]. specialize (H1 ltac:(vm_compute; reflexivity)). vm_compute in H1. exfalso. apply H1. reflexivity.
  - destruct (store _ _ _ _ 10) as [[f' t']|].
    + exists f'. destruct H2 as (_ & _ & ->). reflexivity.
    + destruct H2 as [_ H2]. vm_compute in H2. discriminate H2.
Defined.

Lemma variables_exact_witness :
  (exists l, rtc ledger_step start_ledger l /\ ledger_total l = 24 /\ sumZ (map held (ledger_frames l)) = 10) /\
  (exists s' total', store_variable (lit "x :=") {| frames := [new_frame (lit "O") (lit "Q"); ten_bytes;
      set_locals (new_frame (lit "o") (lit "<globals>")) (<[lit "t" := VInteger 1]> ∅) 0]; expr_depth := 0 |}
      (lit "T") (VInteger 2) 10 = Some (Ok (s', total')) /\ lookup s' (lit "t") = Some (VInteger 2)).
Proof.
  split.
  { pose proof (proj1 variables_exact) as H_budget_ledger_exact. set (l1 := {| ledger_frames := [new_frame (lit "O") (lit "P")]; ledger_shared := []; ledger_total := 0 |}).
  set (l2 := {| ledger_frames := [ten_bytes]; ledger_shared := []; ledger_total := 10 |}).
  set (l3 := {| ledger_frames := [ten_bytes]; ledger_shared := [14]; ledger_total := 24 |}).
  assert (rtc ledger_step start_ledger l3) as H.
  { eapply rtc_l; [apply step_frame|]. eapply rtc_l.
    - apply (step_bind _ [] 0 0 (new_frame (lit "O") (lit "P")) (lit "T") (VText (lit "0123456789"))); [reflexivity|].
      split; vm_compute; discriminate.
    - apply (rtc_l _ _ l3); [|apply rtc_refl]. apply (step_shared [ten_bytes] [] 10 14).
      split; vm_compute; discriminate. }
  exists l3. split; [exact H|]. destruct (H_budget_ledger_exact l3 H) as (Ht & _ & _).
  split; [|vm_compute; reflexivity]. rewrite Ht. vm_compute. reflexivity. }
  { pose proof (proj2 variables_exact) as H_lookup_reads_what_store_writes. set (s := {| frames := _; expr_depth := _ |}).
  destruct (H_lookup_reads_what_store_writes s (lit "T")) as [_ H].
  destruct (store_variable (lit "x :=") s (lit "T") (VInteger 2) 10) as [[[s' total']|e]|] eqn:E.
  - exists s', total'. split; [reflexivity|]. by apply (H _ _ _ _ _ E).
  - exfalso. assert (match store_variable (lit "x :=") s (lit "T") (VInteger 2) 10 with Some (Ok _) => true | _ => false end = true) as Ht
      by (vm_compute; reflexivity). rewrite E in Ht. discriminate Ht.
  - exfalso. assert (match store_variable (lit "x :=") s (lit "T") (VInteger 2) 10 with Some (Ok _) => true | _ => false end = true) as Ht
      by (vm_compute; reflexivity). rewrite E in Ht. discriminate Ht. }
Defined.
