(* ===== verification/Operators.v ===== *)
(** Unary and binary operators on values ([interpreter/eval_expr/operators.rs])
    and the numeric builtins ([interpreter/dispatch/numeric.rs]).

    The evaluation of the operands is the caller's: [unary_op] is what
    [eval_unary] does with the value of its operand.  Equality on the other
    values is [compare] on the heap [h] ([Values.v]). *)

From Stdlib Require Import ZArith Lia.
From stdpp Require Import base tactics numbers option list gmap strings.
From S2P Require Import Prelude RustStr Civil Decimals Values Slots.

#[local] Open Scope Z_scope.
#[local] Open Scope rust_scope.

(** What the builtins use of [rust_decimal] beyond the operators' needs. *)
Class DecimalMath {D : Decimal} := {
  dec_abs : decimal -> decimal;
  (** [round_dp_with_strategy(0, _)] with [MidpointAwayFromZero], [ToZero] and
      [AwayFromZero]. *)
  dec_round_half_away : decimal -> decimal;
  dec_round_to_zero : decimal -> decimal;
  dec_round_away : decimal -> decimal;
  dec_checked_powd : decimal -> decimal -> option decimal;
}.

Section operators.
Context {D : Decimal} (h : heap) (cancelled : nat -> bool).

Definition error {A} (message : str) : Res ErrorInfo A := Err (error_info message).

(** [Eval::Normal] of an [Ok], [Eval::Error] of an [Err]. *)
Definition eval_of (r : Res ErrorInfo Value) : Eval :=
  match r with Ok v => Normal v | Err e => Error e end.

Definition boolean (b : bool) : Eval := Normal (VBoolean b).

(** * Numeric operands *)

Inductive Num :=
  | NInt (val : Z) (big : bool)
  | NDec (d : decimal).

Definition to_decimal (n : Num) : decimal :=
  match n with NInt val _ => dec_from val | NDec d => d end.

Definition classify_numeric (v : Value) : option Num :=
  match v with
  | VInteger n => Some (NInt n false)
  | VBigInteger n => Some (NInt n true)
  | VChar c => Some (NInt c false)
  | VOption _ _ ordinal => Some (NInt ordinal false)
  | VDecimal d => Some (NDec d)
  | _ => None
  end.

Definition checked_int (result : option Z) (big : bool) : Eval :=
  match result with
  | Some n =>
      if big then Normal (VBigInteger n)
      else if in_i32 n then Normal (VInteger n)
      else eval_error (lit "integer overflow")
  | None => eval_error (lit "integer overflow")
  end.

Definition checked_decimal (d : option decimal) : Eval :=
  match d with
  | Some v => Normal (VDecimal v)
  | None => eval_error (lit "decimal arithmetic overflow")
  end.

(** * Unary operators *)

Definition unary_op (operator : str) (v : Value) : Eval :=
  let op := to_ascii_lowercase operator in
  let unsupported :=
    eval_error (lit "unary operator `" ++ op ++ lit "` not supported on " ++ type_name v) in
  if str_is op "+" then
    match v with
    | VInteger n => Normal (VInteger n)
    | VBigInteger n => Normal (VBigInteger n)
    | VDecimal d => Normal (VDecimal d)
    | VOption _ _ ordinal => Normal (VInteger ordinal)
    | _ => unsupported
    end
  else if str_is op "-" then
    match v with
    | VInteger n => checked_int (checked_neg n) false
    | VBigInteger n => checked_int (checked_neg n) true
    | VDecimal d => Normal (VDecimal (dec_neg d))
    | VOption _ _ ordinal => checked_int (checked_neg ordinal) false
    | _ => unsupported
    end
  else if str_is op "not" then
    match v with VBoolean b => boolean (negb b) | _ => unsupported end
  else unsupported.

(** * Dates, times and durations *)

Definition whole_offset (v : Value) : Res ErrorInfo Z :=
  match v with
  | VDuration ms => Ok ms
  | _ =>
      match classify_numeric v with
      | Some (NInt val _) => Ok val
      | Some (NDec d) =>
          if dec_is_whole d then
            ok_or (parse_i64 (dec_to_str d)) (error_info (lit "Date/Time arithmetic offset is out of range"))
          else error (lit "Date/Time arithmetic requires a whole-number offset")
      | None => error (lit "Date/Time arithmetic does not support " ++ type_name v)
      end
  end.

(** [base] moved by an offset: the shape of every arm that takes one. *)
Definition shifted (move : Z -> Z -> option Z) (mk : Z -> Value) (overflow : str) (base : Z) (offset : Value) : Eval :=
  eval_of (n <-? whole_offset offset ;
           value <-? ok_or (move base n) (error_info overflow) ;
           Ok (mk value)).

Definition in_day (value : option Z) : option Z :=
  match value with
  | Some t => if (0 <=? t) && (t <? MS_PER_DAY) then Some t else None
  | None => None
  end.

Definition undefined_datetime : Eval :=
  eval_error (lit "DateTime arithmetic is undefined for the zero DateTime").
Definition undefined_date : Eval := eval_error (lit "Date arithmetic is undefined for 0D").
Definition undefined_time : Eval := eval_error (lit "Time arithmetic is undefined for 0T").

Definition temporal_add (left right : Value) : option Eval :=
  match left, right with
  | VDateTime dt, offset | offset, VDateTime dt =>
      Some (if dt =? 0 then undefined_datetime
            else shifted checked_add VDateTime (lit "DateTime arithmetic overflow") dt offset)
  | VDate date, offset | offset, VDate date =>
      Some (if date =? 0 then undefined_date
            else shifted checked_add VDate (lit "Date arithmetic overflow") date offset)
  | VTime time, offset | offset, VTime time =>
      Some (if time =? 0 then undefined_time
            else shifted (fun a b => in_day (checked_add a b)) VTime (lit "Time arithmetic overflow") time offset)
  | VDuration l, offset | offset, VDuration l =>
      Some (shifted checked_add VDuration (lit "Duration arithmetic overflow") l offset)
  | _, _ => None
  end.

Definition temporal_sub (left right : Value) : option Eval :=
  match left, right with
  | VDateTime l, VDateTime r =>
      Some (if (l =? 0) || (r =? 0) then undefined_datetime
            else match checked_sub l r with
                 | Some ms => Normal (VDuration ms)
                 | None => eval_error (lit "DateTime arithmetic overflow")
                 end)
  | VDateTime dt, offset =>
      Some (if dt =? 0 then undefined_datetime
            else shifted checked_sub VDateTime (lit "DateTime arithmetic overflow") dt offset)
  | VDate l, VDate r =>
      Some (if (l =? 0) || (r =? 0) then undefined_date else checked_int (checked_sub l r) false)
  | VDate date, offset =>
      Some (if date =? 0 then undefined_date
            else shifted checked_sub VDate (lit "Date arithmetic overflow") date offset)
  | VTime l, VTime r =>
      Some (if (l =? 0) || (r =? 0) then undefined_time
            else match checked_sub l r with
                 | Some ms => Normal (VDuration ms)
                 | None => eval_error (lit "Time arithmetic overflow")
                 end)
  | VTime time, offset =>
      Some (if time =? 0 then undefined_time
            else shifted (fun a b => in_day (checked_sub a b)) VTime (lit "Time arithmetic overflow") time offset)
  | VDuration l, offset =>
      Some (shifted checked_sub VDuration (lit "Duration arithmetic overflow") l offset)
  | _, _ => None
  end.

Definition apply_temporal_arithmetic (operator : str) (left right : Value) : option Eval :=
  let op := to_ascii_lowercase operator in
  if str_is op "+" then temporal_add left right
  else if str_is op "-" then temporal_sub left right
  else None.

(** * Arithmetic *)

(** An operator [apply_binary] does not pass on: [unreachable!] in the code. *)
Definition unreachable : Eval := eval_error (lit "op pre-filtered by apply_binary").

Definition int_arithmetic (op : str) (a b : Z) (big : bool) : Eval :=
  if str_is op "+" then checked_int (checked_add a b) big
  else if str_is op "-" then checked_int (checked_sub a b) big
  else if str_is op "*" then checked_int (checked_mul a b) big
  else if str_is op "div" then
    if b =? 0 then eval_error (lit "division by zero") else checked_int (checked_div a b) big
  else if str_is op "mod" then
    if b =? 0 then eval_error (lit "modulo by zero") else checked_int (checked_rem a b) big
  else unreachable.

Definition apply_numeric (op : str) (l r : Num) : Eval :=
  if str_is op "/" then
    if dec_eqb (to_decimal r) dec_zero then eval_error (lit "division by zero")
    else checked_decimal (dec_checked_div (to_decimal l) (to_decimal r))
  else match l, r with
  | NInt a ab, NInt b bb => int_arithmetic op a b (ab || bb)
  | _, _ =>
      let '(a, b) := (to_decimal l, to_decimal r) in
      if str_is op "+" then checked_decimal (dec_checked_add a b)
      else if str_is op "-" then checked_decimal (dec_checked_sub a b)
      else if str_is op "*" then checked_decimal (dec_checked_mul a b)
      else if str_is op "div" || str_is op "mod" then
        eval_error (lit "binary operator `" ++ op ++ lit "` is integer-only (not supported on Decimal)")
      else unreachable
  end.

(** * Comparison *)

Definition values_equal (a b : Value) : bool :=
  match classify_numeric a, classify_numeric b with
  | Some l, Some r => dec_eqb (to_decimal l) (to_decimal r)
  | _, _ =>
      match a, b with
      | VCode x, VCode y | VText x, VCode y | VCode y, VText x => eq_ignore_ascii_case x y
      | _, _ => is_eq (compare h cancelled a b)
      end
  end.

Definition value_ordering (a b : Value) : Res ErrorInfo comparison :=
  match classify_numeric a, classify_numeric b with
  | Some (NInt l _), Some (NInt r _) => Ok (Z.compare l r)
  | Some l, Some r => Ok (dec_cmp (to_decimal l) (to_decimal r))
  | _, _ =>
      match a, b with
      | VBoolean x, VBoolean y => Ok (bool_cmp x y)
      | VText x, VText y => Ok (str_cmp x y)
      | VCode x, VCode y | VText x, VCode y | VCode x, VText y =>
          Ok (str_cmp (to_ascii_uppercase x) (to_ascii_uppercase y))
      | VDate x, VDate y | VTime x, VTime y | VDateTime x, VDateTime y => Ok (Z.compare x y)
      | l, r => error (lit "cannot compare " ++ type_name l ++ lit " and " ++ type_name r)
      end
  end.

Definition values_cmp (a b : Value) (predicate : comparison -> bool) : Eval :=
  eval_of (ordering <-? value_ordering a b ; Ok (VBoolean (predicate ordering))).

Definition value_in_range (value start end_ : Value) : Res ErrorInfo bool :=
  lo <-? value_ordering value start ;
  if is_ge lo then
    hi <-? value_ordering value end_ ; Ok (is_le hi)
  else Ok false.

(** [in] over the members of a list: the first match or error ends the loop. *)
Fixpoint in_members (value : Value) (members : list Value) : Eval :=
  match members with
  | [] => boolean false
  | member :: members =>
      let matched := match member with
                     | VRange start end_ => value_in_range value start end_
                     | member => Ok (values_equal value member)
                     end in
      match matched with
      | Err e => Error e
      | Ok true => boolean true
      | Ok false => in_members value members
      end
  end.

(** * Binary operators *)

Definition is_arithmetic (op : str) : bool :=
  str_is op "+" || str_is op "-" || str_is op "*" || str_is op "/" || str_is op "div" || str_is op "mod".

(** [+] on Text and Code, after its size check. *)
Definition concat_texts (left right : Value) : option (Res ErrorInfo Value) :=
  let checked (a b : str) (v : Value) :=
    Some (match check_text_size (lit "Text concatenation") (saturating_add (str_len a) (str_len b)) with
          | Ok _ => Ok v
          | Err message => Err (error_info message)
          end) in
  match left, right with
  | VCode a, VCode b => checked a b (VCode (a ++ b))
  | VText a, VText b | VText a, VCode b | VCode a, VText b => checked a b (VText (a ++ b))
  | _, _ => None
  end.

(** The last [match] of [apply_binary]. *)
Definition apply_other (op : str) (left right : Value) : Eval :=
  let unsupported := eval_error (lit "binary operator `" ++ op ++ lit "` not supported on ("
                                 ++ type_name left ++ lit ", " ++ type_name right ++ lit ")") in
  if str_is op "+" then
    match concat_texts left right with Some r => eval_of r | None => unsupported end
  else if str_is op "=" then boolean (values_equal left right)
  else if str_is op "<>" then boolean (negb (values_equal left right))
  else if str_is op "<" then values_cmp left right is_lt
  else if str_is op "<=" then values_cmp left right is_le
  else if str_is op ">" then values_cmp left right is_gt
  else if str_is op ">=" then values_cmp left right is_ge
  else if str_is op "and" then
    match left, right with VBoolean a, VBoolean b => boolean (a && b) | _, _ => unsupported end
  else if str_is op "or" then
    match left, right with VBoolean a, VBoolean b => boolean (a || b) | _, _ => unsupported end
  else if str_is op "xor" then
    match left, right with VBoolean a, VBoolean b => boolean (xorb a b) | _, _ => unsupported end
  else if str_is op ".." then Normal (VRange left right)
  else if str_is op "in" then
    match right with
    | VList c => in_members left (list_at h (contents c))
    | VArray members => in_members left members
    | _ => unsupported
    end
  else unsupported.

Definition apply_binary (operator : str) (left right : Value) : Eval :=
  let op := to_ascii_lowercase operator in
  match (if str_is op "+" || str_is op "-" then apply_temporal_arithmetic op left right else None) with
  | Some result => result
  | None =>
      match (if is_arithmetic op then
               l ← classify_numeric left; r ← classify_numeric right; Some (apply_numeric op l r)
             else None) with
      | Some result => result
      | None => apply_other op left right
      end
  end.

(** * Numeric builtins *)

Context {DM : DecimalMath}.

Definition builtin_abs (args : list Value) : Eval :=
  match args with
  | [VInteger n] =>
      match checked_abs n with
      | Some a => if in_i32 a then Normal (VInteger a) else eval_error (lit "Abs: integer overflow")
      | None => eval_error (lit "Abs: integer overflow")
      end
  | [VBigInteger n] =>
      match checked_abs n with
      | Some a => Normal (VBigInteger a)
      | None => eval_error (lit "Abs: integer overflow")
      end
  | [VDecimal d] => Normal (VDecimal (dec_abs d))
  | [v] => eval_error (lit "Abs expects a numeric value, got " ++ type_name v)
  | _ => eval_error (lit "Abs expects exactly 1 argument")
  end.

Definition round_precision (arg : option Value) : Res ErrorInfo decimal :=
  match arg with
  | None => Ok (dec_new 1 2)
  | Some v =>
      match as_decimal v with
      | Some p =>
          if is_gt (dec_cmp p dec_zero) then Ok p
          else error (lit "Round: precision must be greater than zero")
      | None => error (lit "Round: precision must be numeric, got " ++ type_name v)
      end
  end.

Definition round_direction (arg : option Value) : Res ErrorInfo str :=
  match arg with
  | None => Ok (lit "=")
  | Some (VText s) | Some (VCode s) => Ok s
  | Some v => error (lit "Round: direction must be Text, got " ++ type_name v)
  end.

Definition builtin_round (args : list Value) : Eval :=
  match args with
  | number :: rest =>
      if (3 <? length args)%nat then eval_error (lit "Round expects 1 to 3 arguments")
      else match as_decimal number with
      | None => eval_error (lit "Round expects a numeric value, got " ++ type_name number)
      | Some n => eval_of (
          precision <-? round_precision (rest !! 0%nat) ;
          direction <-? round_direction (rest !! 1%nat) ;
          quotient <-? ok_or (dec_checked_div n precision) (error_info (lit "Round: arithmetic overflow")) ;
          rounded <-? (if str_is direction "=" then Ok (dec_round_half_away quotient)
                       else if str_is direction "<" then Ok (dec_round_to_zero quotient)
                       else if str_is direction ">" then Ok (dec_round_away quotient)
                       else error (lit "Round: direction must be '=', '<' or '>', got '" ++ direction ++ lit "'")) ;
          result <-? ok_or (dec_checked_mul rounded precision) (error_info (lit "Round: arithmetic overflow")) ;
          Ok (VDecimal (dec_normalize result)))
      end
  | [] => eval_error (lit "Round expects 1 to 3 arguments")
  end.

Definition builtin_power (args : list Value) : Eval :=
  match args with
  | [a; b] =>
      match as_decimal a, as_decimal b with
      | Some base, Some exponent =>
          match dec_checked_powd base exponent with
          | Some result => Normal (VDecimal (dec_normalize result))
          | None => eval_error (lit "Power: arithmetic overflow or undefined result")
          end
      | _, _ => eval_error (lit "Power expects numeric arguments, got (" ++ type_name a ++ lit ", " ++ type_name b ++ lit ")")
      end
  | _ => eval_error (lit "Power expects exactly 2 arguments")
  end.

Definition builtin_extreme (args : list Value) (maximum : bool) : Eval :=
  let name := lit (if maximum then "Maximum" else "Minimum") in
  match args with
  | [VInteger a; VInteger b] => Normal (VInteger (if eqb (b <=? a) maximum then a else b))
  | [a; b] =>
      match as_decimal a, as_decimal b with
      | Some x, Some y => Normal (VDecimal (if eqb (is_ge (dec_cmp x y)) maximum then x else y))
      | _, _ => eval_error (name ++ lit " expects two numbers")
      end
  | _ => eval_error (name ++ lit " expects exactly 2 arguments")
  end.

Definition builtin_arraylen (args : list Value) : Eval :=
  match args with
  | [VArray items] | [VArray items; VInteger 1] =>
      match checked_i64 (Z.of_nat (length items)) with
      | Some len => Normal (VInteger len)
      | None => eval_error (lit "ArrayLen exceeds the supported Integer range")
      end
  | [VArray _; _] => eval_error (lit "ArrayLen of a dimension other than 1 is not supported locally")
  | _ => eval_error (lit "ArrayLen expects an array")
  end.
End operators.
