(* ===== verification/OperatorSpec.v ===== *)
(** What the operators of [Operators.v] promise: integer arithmetic is exact or
    an error, the comparison operators agree with each other, and adding to a
    date or time and subtracting again comes back. *)

From Stdlib Require Import ZArith Lia.
From stdpp Require Import base tactics numbers option list gmap strings.
From S2P Require Import Prelude RustStr Civil Decimals Values Slots Operators.

#[local] Open Scope Z_scope.
#[local] Open Scope rust_scope.

(** Decide which operator a literal is. *)
Ltac which_operator :=
  repeat match goal with
  | |- context [str_is (lit ?x) ?y] =>
      let b := eval vm_compute in (str_is (lit x) y) in change (str_is (lit x) y) with b
  end; cbv beta iota.

Section spec.
Context {D : Decimal} (h : heap) (cancelled : nat -> bool).

Abbreviation apply := (apply_binary h cancelled).

(** * Integer arithmetic *)

Definition int_operand (v : Value) : option (Z * bool) :=
  match classify_numeric v with Some (NInt n big) => Some (n, big) | _ => None end.

(** The mathematical result; none for a division by zero. *)
Definition exact_result (op : str) (a b : Z) : option Z :=
  if str_is op "+" then Some (a + b)
  else if str_is op "-" then Some (a - b)
  else if str_is op "*" then Some (a * b)
  else if b =? 0 then None
  else if str_is op "div" then Some (Z.quot a b) else Some (Z.rem a b).

Definition integer_result (big : bool) (n : Z) : Eval :=
  if big then (if in_i64 n then Normal (VBigInteger n) else eval_error (lit "integer overflow"))
  else if in_i32 n then Normal (VInteger n) else eval_error (lit "integer overflow").

Lemma in_i32_i64 n : in_i32 n = true -> in_i64 n = true.
Proof. rewrite in_i32_spec, in_i64_spec. unfold_ints. lia. Qed.

Lemma checked_int_result n big : checked_int (checked_i64 n) big = integer_result big n.
Proof.
  unfold checked_int, integer_result, checked_i64. pose proof (in_i32_i64 n).
  destruct (in_i64 n), big, (in_i32 n); try done. by specialize (H eq_refl).
Qed.

Lemma rem_in_i64 a b : in_i64 a = true -> b <> 0 -> in_i64 (Z.rem a b) = true.
Proof.
  rewrite !in_i64_spec. intros Ha Hb. pose proof (Z.rem_bound_abs a b Hb).
  destruct (Z.le_gt_cases 0 a).
  - pose proof (Z.rem_nonneg a b Hb). pose proof (Z.rem_le a (Z.abs b)).
    rewrite <- Z.rem_abs_r in * by done. destruct (Z.eq_dec (Z.abs b) 0); [lia|].
    pose proof (Z.rem_le a (Z.abs b) ltac:(lia) ltac:(lia)). unfold_ints. lia.
  - pose proof (Z.rem_nonpos a b Hb ltac:(lia)).
    pose proof (Z.rem_le (- a) (Z.abs b) ltac:(lia)). rewrite <- Z.rem_abs_r in * by done.
    rewrite Z.rem_opp_l in * by lia. unfold_ints. lia.
Qed.

Lemma temporal_none op va vb x y :
  int_operand va = Some x -> int_operand vb = Some y -> apply_temporal_arithmetic op va vb = None.
Proof.
  unfold int_operand, apply_temporal_arithmetic, temporal_add, temporal_sub. intros Ha Hb.
  destruct va; try discriminate Ha; destruct vb; try discriminate Hb; by repeat case_match.
Qed.

Lemma int_arithmetic_result op a b big :
  op ∈ [lit "+"; lit "-"; lit "*"; lit "div"; lit "mod"] ->
  in_i64 a = true -> in_i64 b = true -> (a, b) <> (i64_min, -1) ->
  match exact_result op a b with
  | Some n => int_arithmetic op a b big = integer_result big n
  | None => exists message, int_arithmetic op a b big = eval_error message
  end.
Proof.
  intros Hop Ha Hb Hne. unfold exact_result, int_arithmetic.
  assert (op = lit "div" \/ op = lit "mod" -> b <> 0 -> in_i64 (Z.quot a b) = true) as Hquot.
  { intros _ Hb0. apply in_i64_spec in Ha, Hb. apply in_i64_spec.
    destruct (Z.eq_dec b (-1)) as [->|].
    - change (-1) with (- (1)). rewrite Z.quot_opp_r, Z.quot_1_r by lia.
      assert (a <> i64_min) by congruence. unfold_ints. lia.
    - pose proof (Z.quot_abs a b Hb0) as Habs. destruct (Z.eq_dec (Z.abs b) 1) as [E1|].
      + replace b with 1 in * by lia. rewrite Z.quot_1_r. lia.
      + assert (Z.abs a / 2 <= 2 ^ 62) by (apply Z.div_le_upper_bound; unfold_ints; lia).
        assert (Z.abs (Z.quot a b) <= Z.abs a / 2); [|unfold_ints; lia].
        rewrite <- Habs, Z.quot_div_nonneg by lia. apply Z.div_le_compat_l; lia. }
  repeat setoid_rewrite elem_of_cons in Hop. rewrite elem_of_nil in Hop.
  destruct Hop as [->|[->|[->|[->|[->|[]]]]]]; which_operator.
  1-3: apply checked_int_result.
  all: destruct (Z.eqb_spec b 0); [by eexists|].
  - unfold checked_div. destruct (Z.eqb_spec b 0); [done|]. apply checked_int_result.
  - unfold checked_rem. destruct (Z.eqb_spec b 0); [done|]. unfold checked_i64.
    rewrite Hquot by auto. cbv beta iota.
    rewrite <- checked_int_result. unfold checked_i64. by rewrite rem_in_i64.
Qed.

(** [+], [-], [*], [div] and [mod] on Integers, BigIntegers, Chars and
    options never wrap around: the result is the mathematical one, truncating
    towards zero, when it fits the result type, 32 bits unless one operand is a
    BigInteger; otherwise, and on a zero divisor, it is an error. *)
Lemma integer_arithmetic_exact op va vb a abig b bbig :
  op ∈ [lit "+"; lit "-"; lit "*"; lit "div"; lit "mod"] ->
  int_operand va = Some (a, abig) -> int_operand vb = Some (b, bbig) ->
  in_i64 a = true -> in_i64 b = true -> (a, b) <> (i64_min, -1) ->
  match exact_result op a b with
  | Some n => apply op va vb = integer_result (abig || bbig) n
  | None => exists message, apply op va vb = eval_error message
  end.
Proof.
  intros Hop Hva Hvb Ha Hb Hne. unfold apply_binary.
  assert (to_ascii_lowercase op = op /\ is_arithmetic op = true /\ str_is op "/" = false) as (-> & -> & Hdiv).
  { repeat setoid_rewrite elem_of_cons in Hop. rewrite elem_of_nil in Hop.
    destruct Hop as [->|[->|[->|[->|[->|[]]]]]]; by vm_compute. }
  rewrite (temporal_none op va vb _ _ Hva Hvb).
  assert (classify_numeric va = Some (NInt a abig)) as ->
    by (unfold int_operand in Hva; destruct (classify_numeric va) as [[]|]; by simplify_eq).
  assert (classify_numeric vb = Some (NInt b bbig)) as ->
    by (unfold int_operand in Hvb; destruct (classify_numeric vb) as [[]|]; by simplify_eq).
  pose proof (int_arithmetic_result op a b (abig || bbig) Hop Ha Hb Hne) as H.
  cbn [mbind option_bind]. unfold apply_numeric. rewrite Hdiv.
  destruct (str_is op "+" || str_is op "-"); exact H.
Qed.

(** * Comparison *)

Lemma char_case a b : char_ascii_lower a = char_ascii_lower b <-> char_ascii_upper a = char_ascii_upper b.
Proof. unfold char_ascii_lower, char_ascii_upper. repeat case_match; to_prop; lia. Qed.

Lemma caseless_order x y :
  eq_ignore_ascii_case x y = is_eq (str_cmp (to_ascii_uppercase x) (to_ascii_uppercase y)).
Proof.
  unfold eq_ignore_ascii_case, str_eqb. apply eq_true_iff_eq. rewrite bool_decide_eq_true.
  transitivity (to_ascii_uppercase x = to_ascii_uppercase y).
  - revert y. induction x as [|a x IH]; intros [|b y]; try done. unfold to_ascii_lowercase, to_ascii_uppercase in *.
    rewrite !fmap_cons. split; intros [= H1 H2]; f_equal; try (by apply char_case); by apply IH.
  - rewrite <- str_cmp_eq. by destruct (str_cmp _ _).
Qed.

Lemma eq_ignore_sym x y : eq_ignore_ascii_case x y = eq_ignore_ascii_case y x.
Proof. unfold eq_ignore_ascii_case, str_eqb. apply bool_decide_ext. naive_solver. Qed.

Context {DL : DecimalLaws D}.

(** The integer payload of a number is a 64-bit carrier. *)
Definition carrier_ok (v : Value) : Prop :=
  forall n big, classify_numeric v = Some (NInt n big) -> in_i64 n = true.

Lemma ordering_is_equality a b o :
  carrier_ok a -> carrier_ok b -> value_ordering a b = Ok o -> values_equal h cancelled a b = is_eq o.
Proof.
  intros Ha Hb. unfold value_ordering, values_equal.
  destruct (classify_numeric a) as [[x bx|x]|] eqn:Ea, (classify_numeric b) as [[y bby|y]|] eqn:Eb;
    cbn [to_decimal]; unfold dec_eqb.
  1: { intros [= <-]. rewrite dec_from_cmp; [done|by eapply Ha|by eapply Hb]. }
  1, 3, 4: by intros [= <-].
  all: destruct a; try discriminate Ea; destruct b; try discriminate Eb; try done; intros [= <-];
    rewrite ?caseless_order; try done.
  rewrite <- caseless_order. by rewrite <- caseless_order, eq_ignore_sym.
Qed.

Lemma str_cmp_swap x y : str_cmp y x = CompOpp (str_cmp x y).
Proof. by apply (order_antisym (P:=fun _ => True)). Qed.

Lemma ordering_swap a b o : value_ordering a b = Ok o -> value_ordering b a = Ok (CompOpp o).
Proof.
  unfold value_ordering.
  destruct (classify_numeric a) as [[x bx|x]|] eqn:Ea, (classify_numeric b) as [[y bby|y]|] eqn:Eb; cbn [to_decimal].
  1: { intros [= <-]. f_equal. apply Z.compare_antisym. }
  1, 3, 4: intros [= <-]; f_equal; apply dec_cmp_sym.
  all: destruct a; try discriminate Ea; destruct b; try discriminate Eb; try done; intros [= <-]; f_equal;
    try apply Z.compare_antisym; try apply str_cmp_swap.
  by destruct b, b0.
Qed.

(** The comparison operators agree.  When [<] can compare two values, [=]
    and [<>] are its equality and inequality, [<], [<=], [>] and [>=] are the
    four readings of one ordering, and swapping the operands reverses it:
    Integers with Decimals and BigIntegers by value, Code with Code or Text
    without regard to ASCII case.  When it cannot, all four report one error. *)
Lemma comparison_operators_agree a b :
  carrier_ok a -> carrier_ok b ->
  match value_ordering a b with
  | Ok o =>
      apply (lit "=") a b = boolean (is_eq o) /\ apply (lit "<>") a b = boolean (negb (is_eq o)) /\
      apply (lit "<") a b = boolean (is_lt o) /\ apply (lit "<=") a b = boolean (is_le o) /\
      apply (lit ">") a b = boolean (is_gt o) /\ apply (lit ">=") a b = boolean (is_ge o) /\
      value_ordering b a = Ok (CompOpp o)
  | Err e =>
      Forall (fun op => apply (lit op) a b = Error e) ["<"; "<="; ">"; ">="]%string
  end.
Proof.
  intros Ha Hb.
  assert (forall op, op ∈ ["="; "<>"; "<"; "<="; ">"; ">="]%string -> apply (lit op) a b = apply_other h cancelled (lit op) a b) as Hother.
  { intros op Hop. unfold apply_binary.
    repeat setoid_rewrite elem_of_cons in Hop. rewrite elem_of_nil in Hop.
    destruct Hop as [->|[->|[->|[->|[->|[->|[]]]]]]]; reflexivity. }
  destruct (value_ordering a b) as [o|e] eqn:Eo.
  - rewrite !Hother by (rewrite ?elem_of_cons; auto 10).
    unfold apply_other, values_cmp, boolean. which_operator. rewrite !Eo.
    rewrite (ordering_is_equality a b o) by done. split_and!; try done. by apply ordering_swap.
  - repeat constructor; rewrite Hother by (rewrite ?elem_of_cons; auto 10);
      unfold apply_other, values_cmp; which_operator; by rewrite Eo.
Qed.

(** * Dates and times *)

(** The count of a Date, Time, DateTime or Duration, and how to rebuild one. *)
Definition stamp (v : Value) : option (Z * (Z -> Value)) :=
  match v with
  | VDate d => Some (d, VDate)
  | VTime t => Some (t, VTime)
  | VDateTime t => Some (t, VDateTime)
  | _ => None
  end.

Definition stamp_range (v : Value) (t : Z) : Prop :=
  match v with VTime _ => 0 <= t < MS_PER_DAY | _ => in_i64 t = true end.

Lemma whole_offset_not_stamp v n : whole_offset v = Ok n -> stamp v = None.
Proof. by destruct v. Qed.

(** Adding to a Date, Time or DateTime is exact: the result counts the base
    plus the offset, on either side of the operator, a Time staying within its
    day, or it is an error; and subtracting the offset from a result that is
    not the undefined zero gives the base back. *)
Lemma temporal_addition_exact base offset t mk n :
  stamp base = Some (t, mk) -> t <> 0 -> stamp_range base t -> whole_offset offset = Ok n ->
  apply (lit "+") offset base = apply (lit "+") base offset /\
  match apply (lit "+") base offset with
  | Normal r => r = mk (t + n) /\ stamp_range base (t + n) /\
      (t + n <> 0 -> apply (lit "-") r offset = Normal base)
  | Error _ => ~ stamp_range base (t + n)
  | _ => False
  end.
Proof.
  intros Hs Ht Hr Hn. pose proof (whole_offset_not_stamp _ _ Hn) as Hoff.
  assert (forall op l r e, apply_temporal_arithmetic (lit op) l r = Some e -> op = "+"%string \/ op = "-"%string ->
    apply (lit op) l r = e) as Happly.
  { intros op l r e He [-> | ->]; unfold apply_binary; which_operator;
      change (to_ascii_lowercase (lit "+")) with (lit "+"); change (to_ascii_lowercase (lit "-")) with (lit "-");
      which_operator; by rewrite He. }
  assert (apply_temporal_arithmetic (lit "+") offset base = apply_temporal_arithmetic (lit "+") base offset) as Hcomm.
  { unfold apply_temporal_arithmetic. change (to_ascii_lowercase (lit "+")) with (lit "+"). which_operator.
    destruct base; try discriminate Hs; destruct offset; try discriminate Hn; done. }
  assert (exists e, apply_temporal_arithmetic (lit "+") base offset = Some e /\
    e = match base with
        | VTime _ => shifted (fun a b => in_day (checked_add a b)) VTime (lit "Time arithmetic overflow") t offset
        | VDate _ => shifted checked_add VDate (lit "Date arithmetic overflow") t offset
        | _ => shifted checked_add VDateTime (lit "DateTime arithmetic overflow") t offset
        end) as (e & He & Ee).
  { unfold apply_temporal_arithmetic. change (str_is (to_ascii_lowercase (lit "+")) "+") with true. cbv iota.
    unfold temporal_add. destruct base; try discriminate Hs; injection Hs as -> _; destruct (Z.eqb_spec t 0); try done;
      destruct offset; try discriminate Hn; by eexists. }
  assert (forall r, (exists u, r = mk u /\ u <> 0) -> apply_temporal_arithmetic (lit "-") r offset =
    Some (match base with
        | VTime _ => shifted (fun a b => in_day (checked_sub a b)) VTime (lit "Time arithmetic overflow")
        | VDate _ => shifted checked_sub VDate (lit "Date arithmetic overflow")
        | _ => shifted checked_sub VDateTime (lit "DateTime arithmetic overflow")
        end (default 0 (fst <$> stamp r)) offset)) as Hsub.
  { intros r (u & -> & Hu). unfold apply_temporal_arithmetic. change (str_is (to_ascii_lowercase (lit "-")) "+") with false.
    change (str_is (to_ascii_lowercase (lit "-")) "-") with true. cbv iota. unfold temporal_sub.
    destruct base; try discriminate Hs; injection Hs as _ <-; cbn; destruct (Z.eqb_spec u 0); try done;
      destruct offset; try discriminate Hn; done. }
  rewrite (Happly "+"%string base offset e He) by auto. split; [apply (Happly "+"%string); [by rewrite Hcomm|by auto]|].
  subst e. unfold shifted in *. rewrite Hn in *. cbn [res_bind] in *.
  destruct base; try discriminate Hs; injection Hs as -> <-; unfold checked_add, checked_i64, stamp_range, in_day in *.
  - destruct (in_i64 (t + n)) eqn:E; cbn [ok_or res_bind eval_of]; [|congruence]. split_and!; try done. intros Hz.
    apply (Happly "-"%string); [|by auto]. rewrite Hsub by eauto. cbn. rewrite Hn. unfold checked_sub, checked_i64. cbn.
    replace (t + n - n) with t by lia. by rewrite Hr.
  - assert (in_i64 t = true) as Hti by (apply in_i64_spec; unfold MS_PER_DAY in Hr; unfold_ints; lia).
    assert (forall u, ((0 <=? u) && (u <? MS_PER_DAY)) = true <-> 0 <= u < MS_PER_DAY) as Hday
      by (intros u; rewrite andb_true_iff, Z.leb_le, Z.ltb_lt; done).
    destruct (in_i64 (t + n)) eqn:E; cbn [ok_or res_bind eval_of].
    2: { intros Hd. assert (in_i64 (t + n) = true); [|congruence].
         apply in_i64_spec. unfold MS_PER_DAY in Hd. unfold_ints. lia. }
    destruct ((0 <=? t + n) && (t + n <? MS_PER_DAY)) eqn:Ed; cbn [ok_or res_bind eval_of].
    2: { intros Hd%Hday. congruence. }
    apply Hday in Ed. split_and!; [done|lia|lia|]. intros Hz.
    apply (Happly "-"%string); [|by auto]. rewrite Hsub by eauto. cbn. rewrite Hn. unfold checked_sub, checked_i64. cbn.
    replace (t + n - n) with t by lia. rewrite Hti. apply Hday in Hr. by rewrite Hr.
  - destruct (in_i64 (t + n)) eqn:E; cbn [ok_or res_bind eval_of]; [|congruence]. split_and!; try done. intros Hz.
    apply (Happly "-"%string); [|by auto]. rewrite Hsub by eauto. cbn. rewrite Hn. unfold checked_sub, checked_i64. cbn.
    replace (t + n - n) with t by lia. by rewrite Hr.
Qed.

(** Arithmetic is exact or an error.  [+], [-], [*], [div] and [mod] on
    Integers, BigIntegers, Chars and options never wrap around: the result is
    the mathematical one, truncating towards zero, when it fits the result type,
    32 bits unless one operand is a BigInteger; otherwise, and on a zero
    divisor, it is an error.  Adding to a Date, Time or DateTime counts the base
    plus the offset, on either side of the operator, a Time staying within its
    day, or is an error; and subtracting the offset from a result that is not
    the undefined zero gives the base back. *)
Lemma arithmetic_exact :
  (forall op va vb a abig b bbig,
    op ∈ [lit "+"; lit "-"; lit "*"; lit "div"; lit "mod"] ->
    int_operand va = Some (a, abig) -> int_operand vb = Some (b, bbig) ->
    in_i64 a = true -> in_i64 b = true -> (a, b) <> (i64_min, -1) ->
    match exact_result op a b with
    | Some n => apply op va vb = integer_result (abig || bbig) n
    | None => exists message, apply op va vb = eval_error message
    end) /\
  (forall base offset t mk n,
    stamp base = Some (t, mk) -> t <> 0 -> stamp_range base t -> whole_offset offset = Ok n ->
    apply (lit "+") offset base = apply (lit "+") base offset /\
    match apply (lit "+") base offset with
    | Normal r => r = mk (t + n) /\ stamp_range base (t + n) /\
        (t + n <> 0 -> apply (lit "-") r offset = Normal base)
    | Error _ => ~ stamp_range base (t + n)
    | _ => False
    end).
Proof. exact (conj integer_arithmetic_exact temporal_addition_exact). Qed.


(** A whole Decimal is refused as a date or time offset when it is written
    with decimals: the offset is read from the Decimal's text, which keeps its
    scale, and [5.0] is not the text of an [i64]. *)
Lemma whole_decimal_offset_refused d base :
  dec_is_whole d = true -> parse_i64 (dec_to_str d) = None -> base <> 0 ->
  apply (lit "+") (VDate base) (VDecimal d) =
    eval_error (lit "Date/Time arithmetic offset is out of range").
Proof.
  intros Hw Hp Hb. unfold apply_binary. change (to_ascii_lowercase (lit "+")) with (lit "+"). which_operator.
  unfold apply_temporal_arithmetic. change (to_ascii_lowercase (lit "+")) with (lit "+"). which_operator.
  unfold temporal_add. rewrite (proj2 (Z.eqb_neq base 0) Hb).
  unfold shifted, whole_offset. cbn [classify_numeric]. rewrite Hw, Hp. reflexivity.
Qed.
End spec.

(** * The theorems evaluated *)

#[local] Existing Instances mini_decimal mini_decimal_laws.

Abbreviation on_empty := (apply_binary ∅ (fun _ => false)).

(** A day of 2024 plus 30; eleven at night plus two hours. *)


(** The decimal written [5.0]. *)
Abbreviation fifty_tenths := (Scaled 50 1 : @decimal mini_decimal).

Lemma whole_decimal_offset_refused_witness :
  dec_is_whole fifty_tenths = true /\
  on_empty (lit "+") (VDate 738886) (VDecimal fifty_tenths) =
    eval_error (lit "Date/Time arithmetic offset is out of range").
Proof.
  split; [reflexivity|].
  apply (whole_decimal_offset_refused ∅ (fun _ => false) fifty_tenths); [reflexivity|reflexivity|discriminate].
Defined.

