(* ===== verification/CalcFormulas.v ===== *)
(** FlowField formulas ([mock/calcformula_parser.rs]): the recursive-descent
    parser of [CalcFormula] texts.

    The parser's state is the byte position and the characters still to read.
    Only the loop over the conditions of a WHERE clause takes fuel, and
    [where_fuel] is enough for every input. *)

From Stdlib Require Import ZArith Lia.
From stdpp Require Import base tactics numbers option list strings.
From S2P Require Import Prelude RustStr Cursors.

#[local] Open Scope Z_scope.
#[local] Open Scope rust_scope.

(** * Syntax *)

Inductive CalcParseError :=
  | Empty
  | UnknownType (kw : str)
  | MissingOpenParen
  | MissingTableName
  | UnexpectedEnd
  | UnmatchedParen
  | UnexpectedToken (token : str) (pos : Z)
  | InvalidWhereClause (reason : str)
  | EmptyFilterExpression (field : str)
  | EmptyFieldArgument (field : str)
  | EmptyConstArgument (field : str).

Inductive FormulaType := Sum | Count | Lookup | Average | Min | Max | Exist | Linked.

#[export] Instance FormulaType_eq_dec : EqDecision FormulaType.
Proof. solve_decision. Defined.

Inductive WhereOperator := Equal.

Inductive WhereValue :=
  | Const (value : str)
  | Field (field_name : str)
  | Filter (expression : str).

Record WhereCondition := { field : str; operator : WhereOperator; value : WhereValue }.

Record CalcFormula := {
  formula_type : FormulaType;
  table_name : str;
  field_name : option str;
  where_clause : list WhereCondition;
}.

(** [Display] of the error and of the type. *)
Definition calc_error_str (e : CalcParseError) : str :=
  match e with
  | Empty => lit "empty formula"
  | UnknownType kw => lit "unknown formula type: '" ++ kw ++ lit "'"
  | MissingOpenParen => lit "missing opening parenthesis after formula type"
  | MissingTableName => lit "missing table name"
  | UnexpectedEnd => lit "unexpected end of formula"
  | UnmatchedParen => lit "unmatched parenthesis in formula"
  | UnexpectedToken token n => lit "unexpected token '" ++ token ++ lit "' at position " ++ i64_to_str n
  | InvalidWhereClause reason => lit "invalid where clause: " ++ reason
  | EmptyFilterExpression f => lit "FILTER() with empty expression in WHERE clause for field '" ++ f ++ lit "'"
  | EmptyFieldArgument f => lit "FIELD() with empty argument in WHERE clause for field '" ++ f ++ lit "'"
  | EmptyConstArgument f => lit "CONST() with empty argument in WHERE clause for field '" ++ f ++ lit "'"
  end.

Definition formula_type_str (t : FormulaType) : str :=
  match t with
  | Sum => lit "Sum" | Count => lit "Count" | Lookup => lit "Lookup" | Average => lit "Average"
  | Min => lit "Min" | Max => lit "Max" | Exist => lit "Exist" | Linked => lit "Linked"
  end.

(** * The parser's state *)

Definition skip_whitespace (p : Parser) : Parser := skip_ws is_ascii_whitespace (pos p) (remaining p).

Definition PRes A := Res CalcParseError (A * Parser).

(** [while let Some(c) = self.peek().filter(..) { s.push(c); self.advance(); }] *)
Fixpoint take_while (is_token_char : char -> bool) (at_ : Z) (s : str) : str * Parser :=
  match s with
  | c :: r =>
      if is_token_char c then
        let '(t, p) := take_while is_token_char (at_ + len_utf8 c) r in (c :: t, p)
      else ([], {| pos := at_; remaining := s |})
  | [] => ([], {| pos := at_; remaining := [] |})
  end.

(** An empty token is the end of the formula. *)
Definition non_empty (r : str * Parser) : PRes str :=
  match r.1 with [] => Err UnexpectedEnd | _ => Ok r end.

(** * Tokens *)

Section parser.
Context {U : Unicode}.

Fixpoint quoted_loop (quote : char) (at_ : Z) (s : str) : PRes str :=
  match s with
  | [] => Err UnexpectedEnd
  | c :: r =>
      if c =? quote then Ok ([], {| pos := at_ + len_utf8 c; remaining := r |})
      else '(t, p) <-? quoted_loop quote (at_ + len_utf8 c) r ; Ok (c :: t, p)
  end.

(** Called on an opening quote. *)
Definition read_quoted (p : Parser) : PRes str :=
  let '(quote, p) := advance p in
  quoted_loop (default 34 quote) (pos p) (remaining p).

Definition read_token (is_token_char : char -> bool) (p : Parser) : PRes str :=
  let p := skip_whitespace p in
  match peek p with
  | None => Err UnexpectedEnd
  | Some c =>
      if (c =? 34) || (c =? 39) then read_quoted p
      else non_empty (take_while is_token_char (pos p) (remaining p))
  end.

Definition is_name_char (c : char) : bool := is_alphanumeric c || (c =? ch "_").
Definition is_const_char (c : char) : bool :=
  is_alphanumeric c || (c =? ch "_") || (c =? ch ".") || (c =? ch "-") || (c =? ch "/").

Definition read_name : Parser -> PRes str := read_token is_name_char.
Definition read_const_value : Parser -> PRes str := read_token is_const_char.

Definition expect_char (expected : char) (p : Parser) : PRes unit :=
  let p := skip_whitespace p in
  match advance p with
  | (Some c, p') => if c =? expected then Ok (tt, p') else Err (UnexpectedToken [c] (pos p' - len_utf8 c))
  | (None, _) => Err UnexpectedEnd
  end.

Definition is_keyword_char (c : char) : bool :=
  negb ((c =? ch "(") || (c =? ch ")") || (c =? ch ",") || (c =? ch " ") || (c =? 9)).

Definition read_keyword (p : Parser) : PRes str :=
  let p := skip_whitespace p in
  non_empty (take_while is_keyword_char (pos p) (remaining p)).

(** The characters up to the [)] or [,] of depth zero, which stays unread. *)
Fixpoint close_loop (depth : nat) (at_ : Z) (s : str) : PRes str :=
  match s with
  | [] => Err UnexpectedEnd
  | c :: r =>
      let push depth := '(t, p) <-? close_loop depth (at_ + len_utf8 c) r ; Ok (c :: t, p) in
      if c =? ch "(" then push (S depth)
      else if c =? ch ")" then
        match depth with
        | S d => push d
        | O => Ok ([], {| pos := at_; remaining := s |})
        end
      else if (c =? ch ",") && (depth =? 0)%nat then Ok ([], {| pos := at_; remaining := s |})
      else push depth
  end.

Definition read_until_close (p : Parser) : PRes str :=
  '(s, p) <-? close_loop 0 (pos p) (remaining p) ; Ok (trim s, p).

(** * The WHERE clause *)

Definition is_blank_text (s : str) : bool := match trim s with [] => true | _ => false end.

(** [CONST(..)], [FIELD(..)] and [FILTER(..)], from after the parenthesis. *)
Definition parse_where_value (kw field : str) (p : Parser) : PRes WhereValue :=
  let closed (inner : str) (p : Parser) (mk : str -> WhereValue) (e : str -> CalcParseError) : PRes WhereValue :=
    '(_, p) <-? expect_char (ch ")") p ;
    if is_blank_text inner then Err (e field) else Ok (mk inner, p) in
  let upper := to_uppercase kw in
  if str_is upper "CONST" then
    '(inner, p) <-? read_const_value p ; closed inner p Const EmptyConstArgument
  else if str_is upper "FIELD" then
    '(inner, p) <-? read_name p ; closed inner p Field EmptyFieldArgument
  else if str_is upper "FILTER" then
    '(inner, p) <-? read_until_close p ; closed inner p Filter EmptyFilterExpression
  else Err (InvalidWhereClause (lit "unknown value token '" ++ upper ++ lit "'")).

Definition parse_one_condition (p : Parser) : PRes WhereCondition :=
  '(f, p) <-? read_name p ;
  '(_, p) <-? expect_char (ch "=") (skip_whitespace p) ;
  '(value_kw, p) <-? read_keyword (skip_whitespace p) ;
  '(_, p) <-? expect_char (ch "(") p ;
  '(v, p) <-? parse_where_value value_kw f p ;
  Ok ({| field := f; operator := Equal; value := v |}, p).

(** The loop over the conditions, which are kept newest first; [None] is
    running out of fuel. *)
Fixpoint where_loop (fuel : nat) (conditions : list WhereCondition) (p : Parser) :
    option (PRes (list WhereCondition)) :=
  match fuel with
  | O => None
  | S fuel =>
      let p := skip_whitespace p in
      if peek_is p (ch ")") then Some (Ok (reverse conditions, (advance p).2))
      else
        match parse_one_condition p with
        | Err e => Some (Err e)
        | Ok (condition, p) =>
            let conditions := condition :: conditions in
            let p := skip_whitespace p in
            match peek p with
            | Some c =>
                if c =? ch "," then where_loop fuel conditions (advance p).2
                else if c =? ch ")" then Some (Ok (reverse conditions, (advance p).2))
                else Some (Err (UnexpectedToken [c] (pos p)))
            | None => Some (Err UnexpectedEnd)
            end
        end
  end.

Definition where_fuel (p : Parser) : nat := S (length (remaining p)).

(** The result of a loop that has not run out of fuel. *)
Definition finished {A} (r : option (PRes A)) : PRes A := default (Err UnexpectedEnd) r.

Definition parse_where_clause (p : Parser) : PRes (list WhereCondition) :=
  '(kw, p) <-? read_keyword p ;
  if negb (eq_ignore_ascii_case kw (lit "where")) then
    Err (InvalidWhereClause (lit "expected WHERE, got '" ++ kw ++ lit "'"))
  else
    '(_, p) <-? expect_char (ch "(") p ;
    finished (where_loop (where_fuel p) [] p).

(** * Formulas *)

Definition type_of_keyword (kw : str) : option FormulaType :=
  let upper := to_uppercase kw in
  if str_is upper "SUM" then Some Sum
  else if str_is upper "COUNT" then Some Count
  else if str_is upper "LOOKUP" then Some Lookup
  else if str_is upper "AVERAGE" then Some Average
  else if str_is upper "MIN" then Some Min
  else if str_is upper "MAX" then Some Max
  else if str_is upper "EXIST" then Some Exist
  else if str_is upper "LINKED" then Some Linked
  else None.

Definition has_field (t : FormulaType) : bool :=
  match t with
  | Sum | Average | Min | Max | Lookup => true
  | Count | Exist | Linked => false
  end.

Definition parse_field (t : FormulaType) (p : Parser) : PRes (option str) :=
  if has_field t then
    '(_, p) <-? expect_char (ch ".") p ;
    '(f, p) <-? read_name (skip_whitespace p) ;
    Ok (Some f, p)
  else Ok (None, p).

Definition starts_where (p : Parser) : bool :=
  starts_with (lit "WHERE") (to_uppercase (trim_start (remaining p))).

Definition parse_formula (p : Parser) : Res CalcParseError CalcFormula :=
  '(type_kw, p) <-? read_keyword p ;
  t <-? ok_or (type_of_keyword type_kw) (UnknownType type_kw) ;
  '(_, p) <-? expect_char (ch "(") p ;
  '(table, p) <-? read_name (skip_whitespace p) ;
  match table with
  | [] => Err MissingTableName
  | _ =>
      '(f, p) <-? parse_field t (skip_whitespace p) ;
      let p := skip_whitespace p in
      '(conditions, p) <-? (if starts_where p then parse_where_clause (skip_whitespace p) else Ok ([], p)) ;
      let p := skip_whitespace p in
      if peek_is p (ch ")") || at_end p then
        Ok {| formula_type := t; table_name := table; field_name := f; where_clause := conditions |}
      else Err UnmatchedParen
  end.

Definition parse (formula : str) : Res CalcParseError CalcFormula :=
  match trim formula with
  | [] => Err Empty
  | trimmed => parse_formula (new trimmed)
  end.
End parser.

(** The first formula of the module's documentation: the unquoted [No.] ends at
    its dot, and the dot is refused. *)
Example documented_formula_refused :
  parse (U:=ascii_unicode) (lit "Sum('Sales Line'.Amount WHERE (Type=CONST(Item),No.=FIELD(No.)))") =
    Err (UnexpectedToken (lit ".") 50).
Proof. vm_compute. reflexivity. Qed.

Example parse_example :
  parse (U:=ascii_unicode) (lit " lookup(Item.Price WHERE (Type=FILTER(a|(b,c)), No = FIELD('N.o')))") =
    Ok {| formula_type := Lookup; table_name := lit "Item"; field_name := Some (lit "Price");
          where_clause := [ {| field := lit "Type"; operator := Equal; value := Filter (lit "a|(b,c)") |};
                            {| field := lit "No"; operator := Equal; value := Field (lit "N.o") |} ] |}.
Proof. vm_compute. reflexivity. Qed.
