(* ===== verification/CalcSpec.v ===== *)
(** What the formula parser of [CalcFormulas.v] promises: it answers on every
    input and locates what it rejects, and it reads back what a printer of
    formulas writes.  The printer quotes every name and constant. *)

From Stdlib Require Import ZArith Lia.
From stdpp Require Import base tactics numbers option list strings.
From S2P Require Import Prelude RustStr Cursors CalcFormulas.

#[local] Open Scope Z_scope.
#[local] Open Scope rust_scope.

(** * The printer *)

Definition quoted (s : str) : str := 34 :: s ++ [34].

Definition show_value (v : WhereValue) : str :=
  match v with
  | Const s => lit "CONST(" ++ quoted s ++ [ch ")"]
  | Field s => lit "FIELD(" ++ quoted s ++ [ch ")"]
  | Filter s => lit "FILTER(" ++ s ++ [ch ")"]
  end.

Definition show_condition (c : WhereCondition) : str :=
  quoted (field c) ++ ch "=" :: show_value (value c).

Definition show_where (cs : list WhereCondition) : str :=
  match cs with
  | [] => []
  | c :: cs => lit " WHERE(" ++ show_condition c ++ (cs ≫= fun c => ch "," :: show_condition c) ++ [ch ")"]
  end.

(** All but the closing parenthesis. *)
Definition show_open (f : CalcFormula) : str :=
  formula_type_str (formula_type f) ++ ch "(" :: quoted (table_name f)
  ++ match field_name f with Some n => ch "." :: quoted n | None => [] end
  ++ show_where (where_clause f).

Definition show (f : CalcFormula) : str := show_open f ++ [ch ")"].

(** * The formulas the printer can carry *)

Definition good_name (s : str) : Prop := 34 ∉ s.

(** Parentheses are balanced, and no comma stands outside them. *)
Fixpoint balanced (depth : nat) (s : str) : bool :=
  match s with
  | [] => (depth =? 0)%nat
  | c :: r =>
      if c =? ch "(" then balanced (S depth) r
      else if c =? ch ")" then match depth with S d => balanced d r | O => false end
      else if c =? ch "," then negb (depth =? 0)%nat && balanced depth r
      else balanced depth r
  end.

Definition good_value (v : WhereValue) : Prop :=
  match v with
  | Const s | Field s => good_name s /\ trim s <> []
  | Filter s => balanced 0 s = true /\ trim s = s /\ s <> []
  end.

Definition good_condition (c : WhereCondition) : Prop := good_name (field c) /\ good_value (value c).

Definition canonical (f : CalcFormula) : Prop :=
  good_name (table_name f) /\ table_name f <> [] /\
  match field_name f with
  | Some n => has_field (formula_type f) = true /\ good_name n
  | None => has_field (formula_type f) = false
  end /\
  Forall good_condition (where_clause f).

(** * Tokens read back

    [back rd s a rest]: the reader, in front of [s] and then [rest], takes
    exactly [s] and gives [a]. *)

Abbreviation st n s := {| pos := n; remaining := s |}.

Definition back {A} (rd : Parser -> PRes A) (s : str) (a : A) (rest : str) : Prop :=
  forall n, exists m, rd (st n (s ++ rest)) = Ok (a, st m rest).

Lemma skip_ws_solid n c s : is_ascii_whitespace c = false -> skip_whitespace (st n (c :: s)) = st n (c :: s).
Proof. unfold skip_whitespace. simpl. by intros ->. Qed.

Section back.
Context `{UL : !UnicodeLaws U}.

Lemma quoted_back f s rest : good_name s -> back (read_token f) (quoted s) s rest.
Proof.
  intros Hs n. unfold read_token, quoted. cbn [app]. rewrite skip_ws_solid by done.
  cbn [peek remaining head Z.eqb Pos.eqb orb]. unfold read_quoted. cbn [advance remaining default from_option id pos].
  generalize (n + len_utf8 34). induction s as [|c s IH]; intros m; simpl; [by eexists|].
  unfold good_name in Hs. rewrite not_elem_of_cons in Hs. destruct Hs as [Hc Hs].
  destruct (Z.eqb_spec c 34); [done|]. destruct (IH Hs (m + len_utf8 c)) as [m' ->]. by eexists.
Qed.

Lemma expect_back c rest : is_ascii_whitespace c = false -> back (expect_char c) [c] tt rest.
Proof.
  intros Hc n. unfold expect_char. cbn [app]. rewrite skip_ws_solid by done. cbn [advance remaining].
  rewrite Z.eqb_refl. by eexists.
Qed.

(** A keyword is read up to its parenthesis. *)
Lemma keyword_back kw rest :
  kw <> [] -> Forall (fun c => is_ascii_whitespace c = false /\ is_keyword_char c = true) kw ->
  back read_keyword kw kw (ch "(" :: rest).
Proof.
  intros Hne Hkw n. unfold read_keyword. destruct kw as [|c kw]; [done|].
  inversion_clear Hkw as [|? ? [Hw Hc] Hkw']. cbn [app]. rewrite skip_ws_solid by done. cbn [pos remaining].
  cbn [take_while]. rewrite Hc.
  assert (forall m, exists m', take_while is_keyword_char m (kw ++ 40 :: rest) = (kw, st m' (40 :: rest))) as H.
  { clear Hc Hw Hne. induction Hkw' as [|d kw [_ Hd] _ IH]; intros m; simpl; [by eexists|].
    rewrite Hd. destruct (IH (m + len_utf8 d)) as [m' ->]. by eexists. }
  destruct (H (n + len_utf8 c)) as [m' ->]. by eexists.
Qed.

Lemma close_back s rest n : balanced 0 s = true ->
  exists m, close_loop 0 n (s ++ ch ")" :: rest) = Ok (s, st m (ch ")" :: rest)).
Proof.
  generalize 0%nat as d. revert n. induction s as [|c s IH]; intros n d Hb; cbn [app close_loop balanced] in *.
  - destruct d; [|done]. cbn. by eexists.
  - destruct (c =? 40).
    + destruct (IH (n + len_utf8 c) _ Hb) as [m ->]. by eexists.
    + destruct (c =? 41).
      * destruct d; [done|]. destruct (IH (n + len_utf8 c) _ Hb) as [m ->]. by eexists.
      * destruct (c =? 44); cbn [andb] in *.
        -- destruct d; [done|]. cbn [Nat.eqb negb andb] in *.
           destruct (IH (n + len_utf8 c) _ Hb) as [m ->]. by eexists.
        -- destruct (IH (n + len_utf8 c) _ Hb) as [m ->]. by eexists.
Qed.

(** ** Values and conditions *)

Lemma ascii_keyword_upper kw up :
  Forall (fun c => 0 <= c < 128) kw -> to_ascii_uppercase kw = up -> to_uppercase kw = up.
Proof. intros H <-. by apply to_uppercase_ascii. Qed.

Lemma value_back v rest :
  good_value v ->
  exists kw s, show_value v = kw ++ ch "(" :: s ++ [ch ")"] /\
    kw <> [] /\ Forall (fun c => is_ascii_whitespace c = false /\ is_keyword_char c = true) kw /\
    forall f, back (parse_where_value kw f) (s ++ [ch ")"]) v rest.
Proof.
  assert (forall s, trim s <> [] -> is_blank_text s = false) as Hblank
    by (intros s; unfold is_blank_text; by destruct (trim s)).
  destruct v as [s|s|s]; cbn [good_value show_value]; intros Hv.
  - exists (lit "CONST"), (quoted s). split_and!; [done|done|by repeat constructor|].
    intros f n. unfold parse_where_value.
    rewrite (ascii_keyword_upper (lit "CONST") (lit "CONST")) by (done || by repeat constructor).
    change (str_is (lit "CONST") "CONST") with true. cbv iota. rewrite <- app_assoc.
    destruct Hv as [Hs Ht]. destruct (quoted_back is_const_char s ([41] ++ rest) Hs n) as [m Em].
    unfold read_const_value. rewrite Em. cbn [res_bind].
    destruct (expect_back 41 rest eq_refl m) as [m' ->]. cbn [res_bind]. rewrite Hblank by done. by eexists.
  - exists (lit "FIELD"), (quoted s). split_and!; [done|done|by repeat constructor|].
    intros f n. unfold parse_where_value.
    rewrite (ascii_keyword_upper (lit "FIELD") (lit "FIELD")) by (done || by repeat constructor).
    change (str_is (lit "FIELD") "CONST") with false. change (str_is (lit "FIELD") "FIELD") with true.
    cbv iota. rewrite <- app_assoc.
    destruct Hv as [Hs Ht]. destruct (quoted_back is_name_char s ([41] ++ rest) Hs n) as [m Em].
    unfold read_name. rewrite Em. cbn [res_bind].
    destruct (expect_back 41 rest eq_refl m) as [m' ->]. cbn [res_bind]. rewrite Hblank by done. by eexists.
  - exists (lit "FILTER"), s. split_and!; [done|done|by repeat constructor|].
    intros f n. unfold parse_where_value.
    rewrite (ascii_keyword_upper (lit "FILTER") (lit "FILTER")) by (done || by repeat constructor).
    change (str_is (lit "FILTER") "CONST") with false. change (str_is (lit "FILTER") "FIELD") with false.
    change (str_is (lit "FILTER") "FILTER") with true. cbv iota. rewrite <- app_assoc.
    destruct Hv as (Hb & Ht & Hne). unfold read_until_close. cbn [pos remaining app].
    destruct (close_back s rest n Hb) as [m ->]. cbn [res_bind]. rewrite Ht.
    destruct (expect_back 41 rest eq_refl m) as [m' Em]. cbn [app] in Em. rewrite Em. cbn [res_bind].
    rewrite Hblank by (by rewrite Ht). by eexists.
Qed.
Lemma condition_back c rest : good_condition c -> back parse_one_condition (show_condition c) c rest.
Proof.
  intros [Hf Hv] n. destruct (value_back (value c) rest Hv) as (kw & s & E & Hne & Hkw & Hval).
  unfold parse_one_condition, show_condition. rewrite E. rewrite <- app_assoc. cbn [app]. rewrite <- app_assoc. cbn [app].
  destruct (quoted_back is_name_char (field c) (61 :: kw ++ 40 :: (s ++ [41]) ++ rest) Hf n) as [m1 E1].
  unfold read_name. rewrite E1. cbn [res_bind]. rewrite (skip_ws_solid m1) by done.
  destruct (expect_back 61 (kw ++ 40 :: (s ++ [41]) ++ rest) eq_refl m1) as [m2 E2]. cbn [app] in E2.
  rewrite E2. cbn [res_bind].
  destruct kw as [|k kw]; [done|]. inversion Hkw as [|? ? [Hk _] _]; subst. cbn [app]. rewrite (skip_ws_solid m2) by done.
  destruct (keyword_back (k :: kw) ((s ++ [41]) ++ rest) ltac:(done) Hkw m2) as [m3 E3]. cbn [app] in E3.
  rewrite E3. cbn [res_bind].
  destruct (expect_back 40 ((s ++ [41]) ++ rest) eq_refl m3) as [m4 E4]. cbn [app] in E4. rewrite E4. cbn [res_bind].
  destruct (Hval (field c) m4) as [m5 ->]. cbn [res_bind]. exists m5. by destruct c as [f [] v].
Qed.

(** A condition starts with its quote. *)
Lemma show_condition_cons c : exists s, show_condition c = 34 :: s.
Proof. by eexists. Qed.

(** The conditions after those already read, up to the closing parenthesis. *)
Lemma where_loop_back c cs acc rest n fuel :
  good_condition c -> Forall good_condition cs -> (length cs < fuel)%nat ->
  exists m, where_loop fuel acc (st n (show_condition c ++ (cs ≫= fun c => 44 :: show_condition c) ++ 41 :: rest)) =
    Some (Ok (reverse acc ++ c :: cs, st m rest)).
Proof.
  intros Hc Hcs. revert c acc n fuel Hc. induction Hcs as [|d cs Hd _ IH]; intros c acc n [|fuel] Hc Hf;
    [simpl in Hf; lia| |simpl in Hf; lia|].
  all: cbn [where_loop]; destruct (show_condition_cons c) as [s Es].
  - cbn [mbind list_bind app]. destruct (condition_back c (41 :: rest) Hc n) as [m Em].
    rewrite Es in Em |- *. cbn [app] in Em |- *. rewrite skip_ws_solid by done. cbn [peek_is peek remaining head Z.eqb Pos.eqb].
    rewrite Em. rewrite skip_ws_solid by done. cbn [peek_is peek remaining head Z.eqb Pos.eqb advance snd].
    rewrite reverse_cons. by eexists.
  - rewrite bind_cons, <- app_assoc. cbn [app].
    set (more := show_condition d ++ _). destruct (condition_back c (44 :: more) Hc n) as [m Em].
    rewrite Es in Em |- *. cbn [app] in Em |- *. rewrite skip_ws_solid by done. cbn [peek_is peek remaining head Z.eqb Pos.eqb].
    rewrite Em. rewrite skip_ws_solid by done. cbn [peek_is peek remaining head Z.eqb Pos.eqb advance snd pos].
    destruct (IH d (c :: acc) (m + len_utf8 44) fuel Hd) as [m' Em']; [simpl in Hf; lia|].
    subst more. rewrite Em', reverse_cons, <- app_assoc. by eexists.
Qed.

Lemma where_back c cs rest :
  good_condition c -> Forall good_condition cs ->
  back parse_where_clause (lit "WHERE(" ++ show_condition c ++ (cs ≫= fun c => ch "," :: show_condition c) ++ [ch ")"])
    (c :: cs) rest.
Proof.
  intros Hc Hcs n. unfold parse_where_clause.
  replace ((lit "WHERE(" ++ show_condition c ++ (cs ≫= fun c => 44 :: show_condition c) ++ [41]) ++ rest)
    with (lit "WHERE" ++ 40 :: show_condition c ++ (cs ≫= fun c => 44 :: show_condition c) ++ 41 :: rest).
  2: { change (lit "WHERE(") with (lit "WHERE" ++ [40]). by rewrite <- !app_assoc. }
  set (body := show_condition c ++ _).
  destruct (keyword_back (lit "WHERE") body ltac:(done) ltac:(by repeat constructor) n) as [m Em].
  rewrite Em. cbn [res_bind]. change (negb (eq_ignore_ascii_case (lit "WHERE") (lit "where"))) with false. cbv iota.
  destruct (expect_back 40 body eq_refl m) as [m1 E1]. cbn [app] in E1. rewrite E1. cbn [res_bind].
  destruct (where_loop_back c cs [] rest m1 (where_fuel (st m1 body)) Hc Hcs) as [m2 E2].
  - unfold where_fuel. cbn [remaining]. subst body. rewrite !length_app.
    assert (length cs <= length (cs ≫= fun c => 44%Z :: show_condition c))%nat; [|lia].
    clear. induction cs as [|c cs IH]; [done|]. rewrite bind_cons, length_app. simpl. lia.
  - subst body. rewrite E2. by eexists.
Qed.

(** ** Formulas *)

Lemma type_back t :
  exists kw, formula_type_str t = kw /\ kw <> [] /\
    Forall (fun c => is_ascii_whitespace c = false /\ is_keyword_char c = true) kw /\ type_of_keyword kw = Some t.
Proof.
  exists (formula_type_str t). split_and!; [done|by destruct t|by destruct t; repeat constructor|].
  unfold type_of_keyword. rewrite to_uppercase_ascii by (by destruct t; repeat constructor). by destruct t.
Qed.

Lemma field_back t f rest :
  match f with Some n => has_field t = true /\ good_name n | None => has_field t = false end ->
  back (parse_field t) match f with Some n => ch "." :: quoted n | None => [] end f rest.
Proof.
  intros Hf n. unfold parse_field. destruct f as [f|].
  - destruct Hf as [-> Hf]. destruct (expect_back 46 (quoted f ++ rest) eq_refl n) as [m Em].
    cbn [app] in *. rewrite Em. cbn [res_bind].
    destruct (quoted_back is_name_char f rest Hf m) as [m' Em'].
    assert (skip_whitespace (st m (quoted f ++ rest)) = st m (quoted f ++ rest)) as -> by done.
    unfold read_name. rewrite Em'. by eexists.
  - rewrite Hf. by eexists.
Qed.

(** What stands after the conditions is a closing parenthesis or the end. *)
Definition closing (rest : str) : Prop := rest = [] \/ exists r, rest = ch ")" :: r.

Lemma closing_not_where n rest : closing rest -> starts_where (st n rest) = false.
Proof.
  unfold starts_where. cbn [remaining]. intros [->|[r ->]]; [done|].
  unfold trim_start. cbn [trim_start_matches]. change (is_whitespace 41) with false. cbv iota.
  change (41 :: r) with ([41] ++ r). rewrite to_uppercase_app, (to_uppercase_ascii [41]) by (by repeat constructor).
  done.
Qed.

Lemma where_starts n s : starts_where (st n (lit "WHERE(" ++ s)) = true.
Proof.
  unfold starts_where. cbn [remaining].
  change (trim_start (lit "WHERE(" ++ s)) with (lit "WHERE(" ++ s).
  rewrite to_uppercase_app, (to_uppercase_ascii (lit "WHERE(")) by (by repeat constructor).
  apply bool_decide_eq_true. by eexists.
Qed.

Lemma clause_back cs rest n :
  Forall good_condition cs -> closing rest ->
  exists m, let q := skip_whitespace (st n (show_where cs ++ rest)) in
    (if starts_where q then parse_where_clause (skip_whitespace q) else Ok ([], q)) = Ok (cs, st m rest).
Proof.
  intros Hcs Hr. destruct cs as [|c cs]; cbv zeta; cbn [show_where].
  - assert (skip_whitespace (st n ([] ++ rest)) = st n rest) as -> by (by destruct Hr as [->|[r ->]]).
    rewrite closing_not_where by done. by eexists.
  - inversion_clear Hcs as [|? ? Hc Hcs'].
    destruct (where_back c cs rest Hc Hcs' (n + len_utf8 32)) as [m Em].
    set (body := show_condition c ++ _) in *.
    assert (forall k, skip_whitespace (st k ((lit "WHERE(" ++ body) ++ rest)) = st k ((lit "WHERE(" ++ body) ++ rest)) as Hk by done.
    change (skip_whitespace (st n ((lit " WHERE(" ++ body) ++ rest))) with (st (n + len_utf8 32) ((lit "WHERE(" ++ body) ++ rest)).
    rewrite !Hk, Em. rewrite <- app_assoc, where_starts. by eexists.
Qed.

Lemma skip_twice p : skip_whitespace (skip_whitespace p) = skip_whitespace p.
Proof.
  destruct p as [n s]. unfold skip_whitespace at 2 3. cbn [pos remaining]. revert n.
  induction s as [|c s IH]; intros n; [done|]. cbn [skip_ws].
  destruct (is_ascii_whitespace c) eqn:E; [apply IH|by apply skip_ws_solid].
Qed.

Lemma formula_back f rest :
  canonical f -> closing rest -> parse_formula (new (show_open f ++ rest)) = Ok f.
Proof.
  intros (Ht & Hne & Hf & Hcs) Hr. unfold parse_formula, show_open, new.
  destruct (type_back (formula_type f)) as (kw & -> & Hkw & Hchars & Htype).
  rewrite <- app_assoc. cbn [app]. rewrite <- !app_assoc.
  set (fs := match field_name f with Some n => 46 :: quoted n | None => [] end).
  set (tail := fs ++ show_where (where_clause f) ++ rest).
  destruct (keyword_back kw (quoted (table_name f) ++ tail) Hkw Hchars 0) as [m1 E1].
  rewrite E1. cbn [res_bind]. rewrite Htype. cbn [ok_or res_bind].
  destruct (expect_back 40 (quoted (table_name f) ++ tail) eq_refl m1) as [m2 E2]. cbn [app] in E2. rewrite E2. cbn [res_bind].
  assert (skip_whitespace (st m2 (quoted (table_name f) ++ tail)) = st m2 (quoted (table_name f) ++ tail)) as -> by done.
  destruct (quoted_back is_name_char (table_name f) tail Ht m2) as [m3 E3].
  unfold read_name at 1. rewrite E3. cbn [res_bind]. destruct (table_name f) as [|c t] eqn:Et; [done|].
  assert (exists m4 q, parse_field (formula_type f) (skip_whitespace (st m3 tail)) = Ok (field_name f, q) /\
    skip_whitespace q = skip_whitespace (st m4 (show_where (where_clause f) ++ rest))) as (m4 & q & E4 & Eq).
  { subst tail fs. destruct (field_name f) as [fn|] eqn:Efn.
    - destruct (field_back (formula_type f) (Some fn) (show_where (where_clause f) ++ rest) Hf m3) as [m4 E4].
      cbn [app] in E4 |- *. rewrite skip_ws_solid, E4 by done. by exists m4, (st m4 (show_where (where_clause f) ++ rest)).
    - exists m3. eexists. unfold parse_field. rewrite Hf. split; [done|].
      cbn [app]. apply skip_twice. }
  rewrite E4. cbn [res_bind]. rewrite Eq.
  destruct (clause_back (where_clause f) rest m4 Hcs Hr) as [m5 E5]. cbv zeta in E5 |- *.
  match goal with |- res_bind ?r _ = _ => replace r with (Ok (where_clause f, st m5 rest) : PRes _) by (symmetry; exact E5) end.
  cbn [res_bind].
  assert (peek_is (skip_whitespace (st m5 rest)) 41 || at_end (skip_whitespace (st m5 rest)) = true) as ->
    by (by destruct Hr as [->|[r ->]]).
  rewrite <- Et. by destruct f.
Qed.
(** ** The text has no blanks to trim *)

Lemma quoted_ends s : ends_solid (quoted s).
Proof. by exists (34 :: s), 34. Qed.

Lemma show_open_solid f : canonical f -> starts_solid (show_open f) /\ ends_solid (show_open f).
Proof.
  intros _. unfold show_open. split.
  - apply starts_solid_app. destruct (formula_type f); by eexists _, _.
  - apply ends_solid_app. change (40 :: quoted (table_name f) ++ ?x) with ((40 :: quoted (table_name f)) ++ x).
    assert (forall cs, cs <> [] -> ends_solid (show_where cs)) as Hw.
    { intros [|c cs] H; [done|]. cbn [show_where]. repeat apply ends_solid_app. by exists [], 41. }
    destruct (where_clause f) as [|c cs]; [|by do 2 apply ends_solid_app; apply Hw].
    cbn [show_where]. rewrite app_nil_r. destruct (field_name f) as [n|].
    + apply ends_solid_app, (ends_solid_app [46]), quoted_ends.
    + rewrite app_nil_r. apply (ends_solid_app [40]), quoted_ends.
Qed.
End back.

(** * The parser and the printer *)

(** * What the parser consumes *)

(** A reader's result consumes [n] characters, or stops at an error [E] holds
    of. *)
Definition reads {A} (E : CalcParseError -> Prop) (n : nat) (p : Parser) (r : PRes A) : Prop :=
  match r with Ok (_, q) => consumes n p q | Err e => E e end.

Lemma consumes_blanks p : consumes 0 p (skip_whitespace p).
Proof. destruct p. apply consumes_skip_ws. Qed.

Lemma reads_trans {A B} E n m p (r : PRes A) (k : A -> Parser -> PRes B) :
  reads E n p r -> (forall a q, consumes n p q -> reads E m q (k a q)) ->
  reads E (n + m) p ('(a, q) <-? r ; k a q).
Proof.
  intros Hr Hk. destruct r as [[a q]|e]; [|done]. simpl in *. specialize (Hk a q Hr).
  destruct (k a q) as [[b q']|e]; [|done]. by eapply consumes_trans.
Qed.

Lemma reads_weaken {A} E n m p (r : PRes A) : (m <= n)%nat -> reads E n p r -> reads E m p r.
Proof. destruct r as [[]|]; [|done]. intros. by eapply consumes_weaken. Qed.

Lemma reads_after {A} E n m p q (r : PRes A) : consumes n p q -> reads E m q r -> reads E (n + m) p r.
Proof. destruct r as [[]|]; [|done]. intros H1 H2. exact (consumes_trans n m _ _ _ H1 H2). Qed.

Lemma reads_from {A} E n p q (r : PRes A) : consumes 0 p q -> reads E n q r -> reads E n p r.
Proof. apply (reads_after E 0 n). Qed.

(** * Errors and where they stand *)

(** [UnexpectedToken] names one character, which stands in [s] at the byte
    position reported. *)
Definition located (s : str) (e : CalcParseError) : Prop :=
  match e with
  | UnexpectedToken token n => exists pre c post, s = pre ++ c :: post /\ token = [c] /\ n = str_len pre
  | MissingOpenParen | Empty => False
  | _ => True
  end.

(** [p] is the parser of [s] somewhere along the way. *)
Definition within (s : str) (p : Parser) : Prop := consumes 0 (new s) p.

Lemma within_consumes s n p q : within s p -> consumes n p q -> within s q.
Proof. intros H1 H2. eapply consumes_weaken; [|exact (consumes_trans 0 n _ _ _ H1 H2)]. lia. Qed.

Lemma within_located s p c : within s p -> peek p = Some c -> located s (UnexpectedToken [c] (pos p)).
Proof.
  intros (k & E & P & _) Hc. unfold peek in Hc. destruct p as [n [|d r]]; [done|]. injection Hc as ->.
  exists k, c, r. simpl in *. split_and!; [done|done|lia].
Qed.

Section spec.
Context {U : Unicode}.

Lemma reads_take_while E f p : E UnexpectedEnd -> reads E 1 p (non_empty (take_while f (pos p) (remaining p))).
Proof.
  intros HE. destruct p as [n s]. simpl.
  assert (forall n, let r := take_while f n s in
    consumes (length r.1) {| pos := n; remaining := s |} r.2) as H.
  { clear n. induction s as [|c s IH]; intros n; simpl; [apply consumes_refl|].
    destruct (f c); [|apply consumes_refl]. specialize (IH (n + len_utf8 c)).
    destruct (take_while f _ s) as [t q]. simpl in *. by apply consumes_next. }
  specialize (H n). unfold non_empty. destruct (take_while f n s) as [[|c t] q]; [done|].
  simpl in *. by eapply consumes_weaken; [|exact H]; lia.
Qed.

Lemma reads_quoted_loop E quote s n :
  E UnexpectedEnd -> reads E 0 {| pos := n; remaining := s |} (quoted_loop quote n s).
Proof.
  intros HE. revert n. induction s as [|c s IH]; intros n; simpl; [done|].
  specialize (IH (n + len_utf8 c)). destruct (c =? quote).
  - apply (consumes_weaken 1); [lia|]. apply consumes_next, consumes_refl.
  - destruct (quoted_loop _ _ s) as [[t q]|]; simpl in *; [|done].
    apply (consumes_weaken 1); [lia|]. by apply consumes_next.
Qed.

(** A token takes characters off the input, if only its quotes. *)
Lemma reads_token E f p : E UnexpectedEnd -> reads E 1 p (read_token f p).
Proof.
  intros HE. unfold read_token. eapply reads_from; [apply consumes_blanks|]. generalize (skip_whitespace p).
  intros q. destruct (peek q) as [c|] eqn:Ec; [|done].
  destruct ((c =? 34) || (c =? 39)); [|by apply reads_take_while].
  unfold read_quoted. destruct q as [n [|d s]]; [done|]. cbn [advance remaining pos default].
  pose proof (reads_quoted_loop E d s (n + len_utf8 d) HE) as H.
  destruct (quoted_loop _ _ _) as [[t q]|]; [|done]. by apply consumes_next.
Qed.

Lemma reads_keyword E p : E UnexpectedEnd -> reads E 1 p (read_keyword p).
Proof.
  intros HE. unfold read_keyword. eapply reads_from; [apply consumes_blanks|]. by apply reads_take_while.
Qed.

Lemma reads_expect s c p : within s p -> reads (located s) 1 p (expect_char c p).
Proof.
  intros Hw. unfold expect_char. eapply reads_from; [apply consumes_blanks|].
  pose proof (within_consumes s 0 p _ Hw (consumes_blanks p)) as Hq.
  revert Hq. generalize (skip_whitespace p). intros q Hq.
  destruct q as [n [|d r]]; [done|]. cbn [advance remaining pos fst snd].
  destruct (d =? c); [apply consumes_next, consumes_refl|].
  simpl reads. replace (n + len_utf8 d - len_utf8 d) with n by lia. by apply (within_located s _ d Hq).
Qed.

Lemma reads_close E p : E UnexpectedEnd -> reads E 0 p (read_until_close p).
Proof.
  intros HE. unfold read_until_close.
  assert (forall s d n, reads E 0 {| pos := n; remaining := s |} (close_loop d n s)) as H.
  { intros s. induction s as [|c s IH]; intros d n; [done|]. cbn [close_loop].
    assert (forall d', reads E 0 {| pos := n; remaining := c :: s |}
      ('(t, p) <-? close_loop d' (n + len_utf8 c) s ; Ok (c :: t, p))) as Hpush.
    { intros d'. specialize (IH d' (n + len_utf8 c)). destruct (close_loop _ _ s) as [[t q]|]; [|done].
      apply (consumes_weaken 1); [lia|]. by apply consumes_next. }
    repeat case_match; auto; apply consumes_refl. }
  destruct p as [n s]. cbn [pos remaining]. specialize (H s 0%nat n).
  by destruct (close_loop _ _ _) as [[t q]|].
Qed.

Lemma located_end s : located s UnexpectedEnd.
Proof. done. Qed.
Hint Resolve located_end : core.

Lemma reads_where_value s kw f p : within s p -> reads (located s) 1 p (parse_where_value kw f p).
Proof.
  intros Hw. unfold parse_where_value.
  assert (forall n (r : PRes str) mk e, reads (located s) n p r -> (forall f, located s (e f)) ->
    reads (located s) 1 p ('(inner, p) <-? r ;
      '(_, p) <-? expect_char (ch ")") p ;
      if is_blank_text inner then Err (e f) else Ok (mk inner, p) : PRes WhereValue)) as H.
  { intros n r mk e Hr He. apply (reads_weaken _ (n + (1 + 0))); [lia|]. apply reads_trans; [done|].
    intros a q Hq. apply reads_trans; [apply reads_expect; by eapply within_consumes|].
    intros [] q' _. destruct (is_blank_text a); [apply He|apply consumes_refl]. }
  repeat case_match; [apply (H 1%nat)|apply (H 1%nat)|apply (H 0%nat)|done]; try done;
    [by apply reads_token..|by apply reads_close].
Qed.

Lemma reads_condition s p : within s p -> reads (located s) 1 p (parse_one_condition p).
Proof.
  intros Hw. unfold parse_one_condition.
  apply (reads_weaken _ (1 + (1 + (1 + (1 + (1 + 0)))))); [lia|].
  apply reads_trans; [by apply reads_token|]. intros f q1 H1.
  pose proof (within_consumes _ _ _ _ Hw H1) as W1.
  apply reads_trans.
  { eapply reads_from; [apply consumes_blanks|]. apply reads_expect.
    eapply within_consumes; [exact W1|apply consumes_blanks]. }
  intros [] q2 H2. pose proof (within_consumes _ _ _ _ W1 H2) as W2.
  apply reads_trans; [eapply reads_from; [apply consumes_blanks|by apply reads_keyword]|].
  intros kw q3 H3. pose proof (within_consumes _ _ _ _ W2 H3) as W3.
  apply reads_trans; [by apply reads_expect|]. intros [] q4 H4.
  apply reads_trans; [apply reads_where_value; by eapply within_consumes|].
  intros v q5 _. apply consumes_refl.
Qed.

(** The fuel of the WHERE loop is enough. *)
Lemma reads_where_loop s fuel acc p :
  within s p -> (length (remaining p) < fuel)%nat ->
  exists r, where_loop fuel acc p = Some r /\ reads (located s) 0 p r.
Proof.
  revert acc p. induction fuel as [|fuel IH]; intros acc p Hw Hf; [lia|]. cbn [where_loop].
  pose proof (consumes_blanks p) as Hs. pose proof (within_consumes _ _ _ _ Hw Hs) as W.
  set (q := skip_whitespace p) in *. apply consumes_length in Hs as Ls.
  destruct (peek_is q _) eqn:Ep.
  - eexists. split; [done|]. exact (consumes_weaken (0 + 1) 0 _ _ ltac:(lia)
      (consumes_trans 0 1 _ _ _ Hs (consumes_peek_advance _ _ Ep))).
  - pose proof (reads_condition s q W) as Hc. destruct (parse_one_condition q) as [[c q1]|e].
    2: { eexists. split; [done|]. exact Hc. }
    simpl in Hc. pose proof (consumes_trans _ _ _ _ _ Hc (consumes_blanks q1)) as Hc'.
    pose proof (within_consumes _ _ _ _ W Hc') as W'. set (q2 := skip_whitespace q1) in *.
    destruct (peek q2) as [d|] eqn:Ed; [|by eexists].
    pose proof (consumes_trans _ _ _ _ _ Hc' (consumes_peek _ _ Ed)) as Ha.
    pose proof (consumes_trans _ _ _ _ _ Hs Ha) as Hall.
    destruct (d =? 44); [|destruct (d =? 41)].
    + destruct (IH (c :: acc) (advance q2).2) as (r & Er & Hr).
      * by eapply within_consumes; [exact W|exact Ha].
      * apply consumes_length in Hall. lia.
      * exists r. split; [done|]. eapply reads_from; [|done]. by eapply consumes_weaken; [|exact Hall]; lia.
    + eexists. split; [done|]. eapply consumes_weaken; [|exact Hall]. lia.
    + eexists. split; [done|]. by apply within_located.
Qed.

Lemma reads_where s p : within s p -> reads (located s) 0 p (parse_where_clause p).
Proof.
  intros Hw. unfold parse_where_clause.
  pose proof (reads_keyword (located s) p ltac:(done)) as Hk.
  destruct (read_keyword p) as [[kw q]|]; [|done]. simpl in Hk. cbn [res_bind].
  pose proof (within_consumes _ _ _ _ Hw Hk) as W. destruct (negb _); [done|].
  apply (reads_weaken _ (1 + (1 + 0))); [lia|]. apply (reads_after _ 1 _ _ q); [done|].
  apply reads_trans; [by apply reads_expect|]. intros [] q1 H1.
  destruct (reads_where_loop s (where_fuel q1) [] q1) as (r & -> & Hr);
    [by eapply within_consumes|unfold where_fuel; lia|done].
Qed.

Lemma reads_field s t p : within s p -> reads (located s) 0 p (parse_field t p).
Proof.
  intros Hw. unfold parse_field. destruct (has_field t); [|apply consumes_refl].
  apply (reads_weaken _ (1 + (1 + 0))); [lia|].
  apply reads_trans; [by apply reads_expect|]. intros [] q1 H1.
  apply reads_trans; [eapply reads_from; [apply consumes_blanks|by apply reads_token]|].
  intros f q2 _. apply consumes_refl.
Qed.

Definition parse_error (s : str) (r : Res CalcParseError CalcFormula) : Prop :=
  match r with
  | Ok f => table_name f <> [] /\ (is_Some (field_name f) <-> has_field (formula_type f) = true)
  | Err e => located s e
  end.

Lemma parse_field_kind t p :
  match parse_field t p with Ok (f, _) => is_Some f <-> has_field t = true | Err _ => True end.
Proof.
  unfold parse_field. destruct (has_field t); [|by split; [intros []|]].
  destruct (expect_char _ p) as [[[] q]|]; [|done]. cbn [res_bind].
  by destruct (read_name _) as [[f r]|].
Qed.

Lemma parse_formula_error s : parse_error s (parse_formula (new s)).
Proof.
  unfold parse_formula. assert (within s (new s)) as W0 by apply consumes_refl.
  pose proof (reads_keyword (located s) (new s) ltac:(done)) as H1.
  destruct (read_keyword _) as [[kw p1]|]; [|done]. cbn [res_bind] in *.
  destruct (type_of_keyword kw) as [t|]; [|done]. cbn [ok_or res_bind].
  pose proof (within_consumes _ _ _ _ W0 H1) as W1. pose proof (reads_expect s (ch "(") p1 W1) as H2.
  destruct (expect_char _ p1) as [[[] p2]|]; [|done]. cbn [res_bind].
  pose proof (within_consumes _ _ _ _ W1 H2) as W2.
  pose proof (reads_from _ _ _ _ _ (consumes_blanks p2) (reads_token (located s) is_name_char (skip_whitespace p2) ltac:(done))) as H3.
  unfold read_name. destruct (read_token _ _) as [[table p3]|]; [|done]. cbn [res_bind].
  destruct table as [|c table]; [done|].
  pose proof (within_consumes _ _ _ _ W2 H3) as W3.
  pose proof (within_consumes _ _ _ _ W3 (consumes_blanks p3)) as W3'.
  pose proof (reads_field s t _ W3') as H4. pose proof (parse_field_kind t (skip_whitespace p3)) as Hk.
  destruct (parse_field t _) as [[f p4]|]; [|done]. cbn [res_bind].
  pose proof (within_consumes _ _ _ _ W3' H4) as W4.
  pose proof (within_consumes _ _ _ _ W4 (consumes_blanks p4)) as W5.
  assert (reads (located s) 0 (skip_whitespace p4) (if starts_where (skip_whitespace p4)
    then parse_where_clause (skip_whitespace (skip_whitespace p4)) else Ok ([], skip_whitespace p4))) as H6.
  { destruct (starts_where _); [|apply consumes_refl]. eapply reads_from; [apply consumes_blanks|].
    apply reads_where. eapply within_consumes; [exact W5|apply consumes_blanks]. }
  destruct (if starts_where _ then _ else _) as [[cs p6]|]; [|exact H6]. cbn [res_bind].
  by destruct (_ || _).
Qed.

(** [parse] answers on every input, the loop over the WHERE conditions
    never running out of its fuel.  A formula it returns has a table, and a
    field exactly when its type takes one.  It reports an empty formula exactly
    for a blank text, never reports a missing parenthesis, and a token it
    rejects is one character that stands in the trimmed formula at the byte
    position it reports. *)
Lemma calc_parse_located (formula : str) :
  (forall p, within (trim formula) p -> is_Some (where_loop (where_fuel p) [] p)) /\
  (parse formula = Err Empty <-> trim formula = []) /\
  (trim formula <> [] -> parse_error (trim formula) (parse formula)).
Proof.
  assert (trim formula <> [] -> parse_error (trim formula) (parse formula)) as H.
  { unfold parse. destruct (trim formula); [done|]. intros _. apply parse_formula_error. }
  split_and!; [| |done].
  - intros p Hw. destruct (reads_where_loop _ (where_fuel p) [] p Hw) as (r & -> & _); [unfold where_fuel; lia|by eexists].
  - split; [|intros E; unfold parse; by rewrite E].
    intros E. destruct (trim formula); [done|]. specialize (H ltac:(done)). by rewrite E in H.
Qed.
(** C34: Every canonical formula is read back exactly from its printed text:
    type, table, field and conditions, whatever their names hold.  The text
    need not be well formed to the end: the closing parenthesis may be missing,
    and whatever follows it is not looked at. *)
Theorem calc_parse_show_roundtrip `{UL : !UnicodeLaws U} f rest :
  canonical f ->
  parse (show f) = Ok f /\ parse (show_open f) = Ok f /\ parse (show f ++ rest) = Ok f.
Proof.
  intros Hf. destruct (show_open_solid f Hf) as [Hs He].
  assert (forall text, trim text = text -> starts_solid text -> parse text = parse_formula (new text)) as Hparse.
  { intros text E (c & r & -> & _). unfold parse. by rewrite E. }
  assert (starts_solid (show f)) as Hs' by by apply starts_solid_app.
  assert (ends_solid (show f)) as He' by (by exists (show_open f), 41).
  split_and!.
  - rewrite Hparse by auto using trim_solid. apply formula_back; [done|]. right. by exists [].
  - rewrite Hparse by auto using trim_solid. rewrite <- (app_nil_r (show_open f)).
    apply formula_back; [done|by left].
  - destruct (trim_keeps (show f) rest Hs' He') as [rest' E]. unfold parse. rewrite E.
    destruct Hs' as (c & r & Ec & _). rewrite Ec at 1. cbn [app]. change (c :: r ++ rest') with ((c :: r) ++ rest').
    rewrite <- Ec. unfold show. rewrite <- app_assoc. apply formula_back; [done|]. right. by eexists.
Qed.
End spec.

(** * The theorems evaluated *)

#[local] Existing Instances ascii_unicode ascii_unicode_laws.

(** The second formula of the module's documentation, and text after it. *)
Definition documented : CalcFormula := {|
  formula_type := Count; table_name := lit "Sales Line"; field_name := None;
  where_clause := [ {| field := lit "Type"; operator := Equal; value := Filter (lit "Item|Service") |};
                    {| field := lit "No."; operator := Equal; value := Field (lit "No.") |} ];
|}.

Lemma calc_parse_located_witness :
  parse (lit "Sum(Item Amount)") = Err (UnexpectedToken (lit "A") 9) /\
  located (lit "Sum(Item Amount)") (UnexpectedToken (lit "A") 9).
Proof.
  destruct (calc_parse_located (lit "Sum(Item Amount)")) as (_ & _ & H).
  assert (parse (lit "Sum(Item Amount)") = Err (UnexpectedToken (lit "A") 9)) as E by reflexivity.
  split; [exact E|]. rewrite E in H. exact (H ltac:(discriminate)).
Defined.

Lemma calc_parse_show_roundtrip_witness :
  canonical documented /\ parse (show documented) = Ok documented /\
  parse (show documented ++ lit " leftover)") = Ok documented.
Proof.
  assert (canonical documented) as Hc.
  { assert (forall s, bool_decide (34 ∈ s) = false -> good_name s) as Hn by (intros s Hs; by apply bool_decide_eq_false in Hs).
    repeat split; repeat constructor; try (apply Hn; reflexivity); discriminate. }
  destruct (calc_parse_show_roundtrip documented (lit " leftover)") Hc) as (H1 & _ & H2).
  split; [exact Hc|]. split; [exact H1|exact H2].
Defined.
