(* ===== verification/Renders.v ===== *)
(** Values as the text AL shows, and the [%1] placeholders
    ([interpreter/dispatch/render.rs], and [group_thousands] of
    [interpreter/dispatch/picture.rs]); placeholders are filled in one pass, and
    the text of an integer is the integer.

    The scan of a format string takes fuel, and the length of the string is
    enough. *)

From Stdlib Require Import ZArith Lia ZifyNat.
From stdpp Require Import base tactics numbers option list gmap strings.
From S2P Require Import Prelude RustStr StrSearch Civil Decimals Values Slots.

#[local] Open Scope Z_scope.
#[local] Open Scope rust_scope.

(** * Text helpers of the standard library *)

(** [str::split_once] at a character. *)
Fixpoint split_once (sep : char) (s : str) : option (str * str) :=
  match s with
  | [] => None
  | c :: r =>
      if c =? sep then Some ([], r)
      else match split_once sep r with Some (a, b) => Some (c :: a, b) | None => None end
  end.

(** [format!("{n:0w$}")]: the sign counts towards the width. *)
Definition zero_padded (w : nat) (n : Z) : str :=
  if n <? 0 then ch "-" :: pad_zeros (w - 1) (u64_to_str (- n)) else pad_zeros w (u64_to_str n).

(** * Numbers *)

(** A comma before every digit that has a multiple of three to its right. *)
Fixpoint group_from (index len : Z) (digits : str) : str :=
  match digits with
  | [] => []
  | d :: r =>
      (if (0 <? index) && ((len - index) mod 3 =? 0) then [ch ","; d] else [d])
      ++ group_from (index + 1) len r
  end.
Definition group_thousands (digits : str) : str := group_from 0 (str_len digits) digits.

(** * Times and durations *)

Definition render_time_ms (ms : Z) : str :=
  let seconds := ms / 1000 in
  let millis := ms mod 1000 in
  let h := Z.quot seconds 3600 in
  let m := Z.rem (Z.quot seconds 60) 60 in
  let s := Z.rem seconds 60 in
  let clock := zero_padded 2 h ++ lit ":" ++ zero_padded 2 m ++ lit ":" ++ zero_padded 2 s in
  if millis =? 0 then clock else clock ++ lit "." ++ zero_padded 3 millis.

Definition duration_units : list (Z * str) :=
  [ (86400000, lit "day"); (3600000, lit "hour"); (60000, lit "minute"); (1000, lit "second"); (1, lit "millisecond") ].

Fixpoint duration_parts (units : list (Z * str)) (rest : Z) : list str :=
  match units with
  | [] => []
  | (unit, name) :: units =>
      let count := rest / unit in
      let rest := rest mod unit in
      if negb (count =? 0) then
        (u64_to_str count ++ lit " " ++ name ++ (if count =? 1 then [] else lit "s")) :: duration_parts units rest
      else duration_parts units rest
  end.

Definition render_duration (milliseconds : Z) : str :=
  match duration_parts duration_units (Z.abs milliseconds) with
  | [] => lit "0 seconds"
  | parts =>
      let rendered := join (lit " ") parts in
      if milliseconds <? 0 then ch "-" :: rendered else rendered
  end.

Section render.
Context {D : Decimal}.
Variable h : heap.

(** * Values *)

(** Format 0 of a number's digits: the integer part grouped. *)
Definition render_decimal (text : str) : str :=
  let '(sign, digits) := match strip_prefix (lit "-") text with
                         | Some digits => (lit "-", digits)
                         | None => ([], text)
                         end in
  match split_once (ch ".") digits with
  | Some (integer, fraction) => sign ++ group_thousands integer ++ lit "." ++ fraction
  | None => sign ++ group_thousands digits
  end.

Definition render_value (v : Value) : str :=
  match v with
  | VInteger n | VBigInteger n =>
      (if n <? 0 then lit "-" else []) ++ group_thousands (u64_to_str (Z.abs n))
  | VDecimal n => render_decimal (dec_to_str (dec_normalize n))
  | VBoolean true => lit "Yes"
  | VBoolean false => lit "No"
  | VText s | VCode s => s
  | VTextBuilder a => text_at h a
  | VDate d =>
      if d =? 0 then []
      else
        let '(y, m, day) := ymd_from_al_days d in
        zero_padded 2 m ++ lit "/" ++ zero_padded 2 day ++ lit "/" ++ zero_padded 4 y
  | VTime t => if t =? 0 then [] else render_time_ms t
  | VDateTime dt =>
      if dt =? 0 then []
      else
        let '(y, m, day) := ymd_from_al_days (dt / MS_PER_DAY) in
        zero_padded 2 m ++ lit "/" ++ zero_padded 2 day ++ lit "/" ++ zero_padded 4 y
        ++ lit " " ++ render_time_ms (dt mod MS_PER_DAY)
  | VDuration d => render_duration d
  | VGuid g => g
  | VChar c => [c]
  | VNull | VEmpty => []
  | VOption _ member _ => member
  | other => lit "<" ++ type_name other ++ lit ">"
  end.

Definition render_value_xml (v : Value) : str :=
  match v with
  | VInteger n | VBigInteger n => i64_to_str n
  | VDecimal n => dec_to_str (dec_normalize n)
  | VBoolean b => lit (if b then "true" else "false")
  | VDate d =>
      if d =? 0 then []
      else
        let '(y, m, day) := ymd_from_al_days d in
        zero_padded 4 y ++ lit "-" ++ zero_padded 2 m ++ lit "-" ++ zero_padded 2 day
  | VTime t => if t =? 0 then [] else render_time_ms t
  | VDateTime dt =>
      if dt =? 0 then []
      else
        let '(y, m, day) := ymd_from_al_days (dt / MS_PER_DAY) in
        zero_padded 4 y ++ lit "-" ++ zero_padded 2 m ++ lit "-" ++ zero_padded 2 day
        ++ lit "T" ++ render_time_ms (dt mod MS_PER_DAY) ++ lit "Z"
  | other => render_value other
  end.

(** * Placeholders *)

(** The run of digits at the front, and what follows it. *)
Fixpoint span_digits (s : str) : str * str :=
  match s with
  | c :: r => if is_ascii_digit c then let '(ds, r) := span_digits r in (c :: ds, r) else ([], s)
  | [] => ([], [])
  end.

(** The placeholder's argument number, when it has one. *)
Definition placeholder (digits : str) (arg_count : Z) : option Z :=
  match parse_usize digits with
  | Some n => if (1 <=? n) && (n <=? arg_count) then Some n else None
  | None => None
  end.

Definition substituting : str := lit "Substituting placeholders".

(** [None] is running out of fuel. *)
Fixpoint substitute_loop (fuel : nat) (render : Z -> Res str str) (arg_count : Z) (result chars : str) :
    option (Res str str) :=
  match fuel with
  | O => None
  | S fuel =>
      match chars with
      | [] => Some (_ <-? check_text_size substituting (str_len result) ; Ok result)
      | c :: chars =>
          if negb (c =? ch "%") then substitute_loop fuel render arg_count (result ++ [c]) chars
          else
            let '(digits, chars) := span_digits chars in
            match placeholder digits arg_count with
            | Some n =>
                match render n with
                | Err e => Some (Err e)
                | Ok value =>
                    match check_text_size substituting (str_len result + str_len value) with
                    | Err e => Some (Err e)
                    | Ok _ => substitute_loop fuel render arg_count (result ++ value) chars
                    end
                end
            | None => substitute_loop fuel render arg_count (result ++ ch "%" :: digits) chars
            end
      end
  end.

Definition substitute_placeholders_with (fmt : str) (arg_count : Z) (render : Z -> Res str str) : Res str str :=
  default (Err []) (substitute_loop (S (length fmt)) render arg_count [] fmt).

Definition substitute_placeholders (fmt : str) (args : list Value) : Res str str :=
  substitute_placeholders_with fmt (Z.of_nat (length args))
    (fun n => ok_or (render_value <$> args !! Z.to_nat (n - 1)) (lit "index out of bounds")).

Definition builtin_strsubstno (args : list Value) : Eval :=
  match args with
  | [] => eval_error (lit "StrSubstNo requires at least 1 argument")
  | first :: rest =>
      let fmt := match first with VText s | VCode s => s | v => render_value v end in
      match substitute_placeholders fmt rest with
      | Ok result => Normal (VText result)
      | Err error => eval_error (lit "StrSubstNo: " ++ error)
      end
  end.
End render.

Example render_integer {D : Decimal} : render_value ∅ (VInteger (-1234567)) = lit "-1,234,567".
Proof. reflexivity. Qed.

Example render_duration_example : render_duration 10729801000 = lit "124 days 4 hours 30 minutes 1 second".
Proof. vm_compute. reflexivity. Qed.

Example render_date {D : Decimal} : render_value ∅ (VDate (al_days_from_ymd 2026 9 5)) = lit "09/05/2026".
Proof. reflexivity. Qed.

Example substitute_example {D : Decimal} :
  builtin_strsubstno ∅ [VText (lit "%1 of %2: %3%% %1"); VText (lit "%2"); VInteger 1000] =
    Normal (VText (lit "%2 of 1,000: %3%% %2")).
Proof. reflexivity. Qed.

(** * What rendering promises *)

(** * Format strings as pieces *)

(** A character that stands for itself, or [%] and a run of digits. *)
Inductive piece := Plain (c : char) | Hole (digits : str).

Definition show_piece (p : piece) : str :=
  match p with Plain c => [c] | Hole digits => ch "%" :: digits end.

Definition starts_with_digit (s : str) : bool :=
  match s with c :: _ => is_ascii_digit c | [] => false end.

(** The digits of a placeholder are all that follow it. *)
Fixpoint maximal (ps : list piece) : Prop :=
  match ps with
  | [] => True
  | Plain c :: ps => c <> ch "%" /\ maximal ps
  | Hole digits :: ps =>
      Forall (fun c => is_ascii_digit c = true) digits /\
      starts_with_digit (ps ≫= show_piece) = false /\ maximal ps
  end.

Lemma span_digits_app ds s :
  Forall (fun c => is_ascii_digit c = true) ds -> starts_with_digit s = false -> span_digits (ds ++ s) = (ds, s).
Proof.
  intros Hds Hs. induction Hds as [|c ds Hc _ IH]; cbn [app span_digits].
  - destruct s as [|c s]; [done|]. cbn [starts_with_digit span_digits] in *. by rewrite Hs.
  - by rewrite Hc, IH.
Qed.

Lemma span_digits_spec s :
  let '(ds, r) := span_digits s in
  s = ds ++ r /\ Forall (fun c => is_ascii_digit c = true) ds /\ starts_with_digit r = false.
Proof.
  induction s as [|c s IH]; cbn [span_digits]; [done|]. destruct (is_ascii_digit c) eqn:Ec.
  - destruct (span_digits s) as [ds r]. destruct IH as (-> & H & Hr). split_and!; [done| |done]. by constructor.
  - split_and!; [done|done|]. exact Ec.
Qed.

(** Every format string has its pieces. *)
Lemma pieces_exist fmt : exists ps, maximal ps /\ ps ≫= show_piece = fmt.
Proof.
  induction fmt as [fmt IH] using (induction_ltof1 _ (@length Z)); unfold ltof in IH.
  destruct fmt as [|c s]; [by exists []|]. destruct (Z.eqb_spec c 37) as [->|Hc].
  - pose proof (span_digits_spec s) as H. destruct (span_digits s) as [ds r]. destruct H as (-> & Hds & Hr).
    destruct (IH r) as (ps & Hps & <-); [simpl; rewrite length_app; lia|].
    by exists (Hole ds :: ps).
  - destruct (IH s) as (ps & Hps & <-); [simpl; lia|]. by exists (Plain c :: ps).
Qed.

Lemma check_text_size_spec operation n :
  match check_text_size operation n with Ok _ => n <= MAX_TEXT_BYTES | Err _ => MAX_TEXT_BYTES < n end.
Proof. unfold check_text_size. destruct (Z.leb_spec n MAX_TEXT_BYTES); lia. Qed.

Section spec.
Context {D : Decimal}.
Variable h : heap.

(** What a piece becomes: its argument's text, or itself when it has none. *)
Definition fill_piece (args : list Value) (p : piece) : str :=
  match p with
  | Plain c => [c]
  | Hole digits =>
      match placeholder digits (Z.of_nat (length args)) with
      | Some n => default [] (render_value h <$> args !! Z.to_nat (n - 1))
      | None => show_piece p
      end
  end.

Definition argument (args : list Value) (n : Z) : Res str str :=
  ok_or (render_value h <$> args !! Z.to_nat (n - 1)) (lit "index out of bounds").

Lemma placeholder_argument args digits n :
  placeholder digits (Z.of_nat (length args)) = Some n ->
  argument args n = Ok (fill_piece args (Hole digits)).
Proof.
  intros H. unfold argument, fill_piece. rewrite H. unfold placeholder in H.
  destruct (parse_usize digits) as [k|]; [|done].
  destruct (Z.leb_spec 1 k), (Z.leb_spec k (Z.of_nat (length args))); try done. injection H as ->.
  destruct (lookup_lt_is_Some_2 args (Z.to_nat (n - 1))) as [v ->]; [lia|done].
Qed.

Lemma substitute_loop_fills args ps fuel result :
  maximal ps -> (length (ps ≫= show_piece) < fuel)%nat ->
  let out := result ++ (ps ≫= fill_piece args) in
  match substitute_loop fuel (argument args) (Z.of_nat (length args)) result (ps ≫= show_piece) with
  | Some (Ok r) => r = out /\ str_len out <= MAX_TEXT_BYTES
  | Some (Err _) => MAX_TEXT_BYTES < str_len out
  | None => False
  end.
Proof.
  cbv zeta. revert fuel result. induction ps as [|p ps IH]; intros [|fuel] result Hm Hf; try (simpl in Hf; lia).
  - cbn [mbind list_bind substitute_loop]. rewrite app_nil_r.
    pose proof (check_text_size_spec substituting (str_len result)) as H.
    by destruct (check_text_size _ _).
  - rewrite !bind_cons in *. rewrite length_app in Hf. destruct p as [c|ds]; cbn [show_piece app] in *.
    + destruct Hm as [Hc Hm]. cbn [substitute_loop]. destruct (Z.eqb_spec c 37); [done|]. cbn [negb].
      specialize (IH fuel (result ++ [c]) Hm ltac:(simpl in Hf; lia)). by rewrite <- app_assoc in IH.
    + destruct Hm as (Hds & Hnext & Hm). cbn [substitute_loop]. cbn [Z.eqb Pos.eqb negb].
      rewrite (span_digits_app ds) by done. simpl in Hf.
      destruct (placeholder ds _) as [n|] eqn:Ep.
      * rewrite (placeholder_argument args ds n Ep). set (value := fill_piece args (Hole ds)).
        specialize (IH fuel (result ++ value) Hm ltac:(lia)). rewrite <- app_assoc in IH.
        pose proof (check_text_size_spec substituting (str_len result + str_len value)) as H.
        destruct (check_text_size _ _); [exact IH|]. rewrite !str_len_app.
        pose proof (str_len_nonneg (ps ≫= fill_piece args)). lia.
      * specialize (IH fuel (result ++ 37 :: ds) Hm ltac:(lia)). rewrite <- app_assoc in IH.
        assert (fill_piece args (Hole ds) = 37 :: ds) as -> by (cbn [fill_piece]; by rewrite Ep). exact IH.
Qed.

(** StrSubstNo fills its placeholders in one pass.  Every format string is
    made of characters and placeholders, a placeholder taking all the digits
    that follow it; the result is the format string with each placeholder that
    names an argument replaced by that argument's text, which is not read again,
    and the others left as they are; and it is refused exactly when that text is
    over the limit of one text. *)
Lemma substitution_single_pass fmt args :
  (exists ps, maximal ps /\ ps ≫= show_piece = fmt) /\
  forall ps, maximal ps -> ps ≫= show_piece = fmt ->
  match substitute_placeholders h fmt args with
  | Ok r => r = ps ≫= fill_piece args /\ str_len r <= MAX_TEXT_BYTES
  | Err _ => MAX_TEXT_BYTES < str_len (ps ≫= fill_piece args)
  end.
Proof.
  split; [apply pieces_exist|]. intros ps Hm <-.
  pose proof (substitute_loop_fills args ps (S (length (ps ≫= show_piece))) [] Hm ltac:(lia)) as H.
  unfold substitute_placeholders, substitute_placeholders_with. fold (argument args).
  cbv zeta in H. cbn [app] in H. destruct (substitute_loop _ _ _ _ _) as [[r|e]|]; cbn [default from_option id]; [|done..].
  by destruct H as [-> H].
Qed.

End spec.

(** * Integers *)

#[local] Ltac Zify.zify_post_hook ::= Z.div_mod_to_equations.

Definition digits_only (ds : str) : Prop := Forall (fun c => is_ascii_digit c = true) ds.
Definition without_commas (s : str) : str := filter (fun c => c <> ch ",") s.

Lemma digit_not_comma d : is_ascii_digit d = true -> d <> ch ",".
Proof. intros H ->. discriminate. Qed.

Lemma group_from_digits i len ds : digits_only ds -> without_commas (group_from i len ds) = ds.
Proof.
  intros H. revert i. induction H as [|d ds Hd _ IH]; intros i; [done|]. cbn [group_from].
  apply digit_not_comma in Hd. unfold without_commas in *. rewrite filter_app, IH.
  destruct (_ && _); [rewrite filter_cons_False by (intros E; by apply E)|];
    by rewrite filter_cons_True, filter_nil by done.
Qed.

Lemma str_len_digits ds : digits_only ds -> str_len ds = Z.of_nat (length ds).
Proof.
  unfold str_len. induction 1 as [|d ds Hd _ IH]; [done|]. simpl foldr. rewrite IH.
  unfold len_utf8, is_ascii_digit in *. to_prop. destruct (Z.ltb_spec d 128); [simpl; lia|lia].
Qed.

(** Counted from the right, every fourth character is a comma and no other. *)
Definition grouped (s : str) : Prop :=
  forall j c, reverse s !! j = Some c -> (c = ch "," <-> (j mod 4 = 3)%nat).

Lemma grouped_cons c s : grouped s -> (c = ch "," <-> (length s mod 4 = 3)%nat) -> grouped (c :: s).
Proof.
  intros Hs Hc j d. rewrite reverse_cons, lookup_app, length_reverse.
  destruct (reverse s !! j) eqn:E; [intros [= <-]; by apply Hs|].
  apply lookup_ge_None in E. rewrite length_reverse in E.
  destruct (decide (j = length s)) as [->|Hj].
  - rewrite Nat.sub_diag. by intros [= <-].
  - intros Hd. apply lookup_lt_Some in Hd. simpl in Hd. lia.
Qed.

Lemma group_from_grouped i ds :
  0 < i -> digits_only ds ->
  let s := group_from i (i + Z.of_nat (length ds)) ds in
  length s = (length ds + length ds / 3)%nat /\ grouped s.
Proof.
  intros Hi H. revert i Hi. induction H as [|d ds Hd _ IH]; intros i Hi; [by split|].
  cbv zeta. cbn [group_from length].
  specialize (IH (i + 1) ltac:(lia)). cbv zeta in IH.
  replace (i + 1 + Z.of_nat (length ds)) with (i + Z.of_nat (S (length ds))) in IH by lia.
  set (s := group_from (i + 1) _ ds) in *. destruct IH as [Hlen Hs]. apply digit_not_comma in Hd.
  assert (grouped (d :: s)) as Hds.
  { apply grouped_cons; [done|]. split; [done|]. rewrite Hlen. lia. }
  destruct (Z.ltb_spec 0 i); [|lia]. destruct (Z.eqb_spec ((i + Z.of_nat (S (length ds)) - i) mod 3) 0) as [E|E];
    cbn [andb app length]; (split; [lia|]); [|done].
  apply grouped_cons; [done|]. split; [|done]. intros _. cbn [length]. rewrite Hlen. lia.
Qed.

Lemma group_thousands_grouped ds : digits_only ds -> grouped (group_thousands ds).
Proof.
  intros H. unfold group_thousands. rewrite str_len_digits by done.
  destruct H as [|d ds Hd H]; [by intros j c|]. cbn [group_from length app Z.ltb Z.compare andb].
  destruct (group_from_grouped 1 ds ltac:(lia) H) as [Hlen Hs].
  replace (1 + Z.of_nat (length ds)) with (Z.of_nat (S (length ds))) in * by lia.
  apply grouped_cons; [done|]. change (0 + 1) with 1. rewrite Hlen.
  split; [intros ->; by apply digit_not_comma in Hd|lia].
Qed.

(** Without its commas the text of an Integer is its decimal digits. *)
Lemma render_integer_digits {D : Decimal} (h : heap) n :
  without_commas (render_value h (VInteger n)) = i64_to_str n.
Proof.
  cbn [render_value]. pose proof (u64_to_str_digits (Z.abs n) ltac:(lia)) as Hd. unfold i64_to_str, without_commas.
  rewrite filter_app. fold (without_commas (group_thousands (u64_to_str (Z.abs n)))).
  unfold group_thousands. rewrite group_from_digits by done.
  destruct (Z.ltb_spec n 0); [by rewrite Z.abs_neq by lia|by rewrite Z.abs_eq by lia].
Qed.

Lemma render_integer_grouped {D : Decimal} (h : heap) n :
  let text := render_value h (VInteger n) in grouped (if n <? 0 then tail text else text).
Proof.
  cbv zeta. cbn [render_value]. pose proof (u64_to_str_digits (Z.abs n) ltac:(lia)) as Hd.
  destruct (n <? 0); by apply group_thousands_grouped.
Qed.

(** * The theorems evaluated *)

#[local] Existing Instances mini_decimal.

(** The second argument holds a placeholder of its own. *)
