(* ===== verification/VariableStorage.v ===== *)
(** The Library Variable Storage stub ([stubs/library_variable_storage.rs]): a
    bounded queue of values between a test and its handlers.

    The thread-local [QUEUE] is the first argument and the first result of
    every procedure. *)

From Stdlib Require Import ZArith Lia.
From stdpp Require Import base tactics numbers option list gmap strings.
From S2P Require Import Prelude RustStr Decimals Values Slots Renders.

#[local] Open Scope Z_scope.
#[local] Open Scope rust_scope.

Section storage.
Context {D : Decimal}.

(** * The queue *)

Definition MAX_QUEUE_SIZE : nat := 25.

Abbreviation LvsQueue := (list Value).

Definition is_full (q : LvsQueue) : bool := (MAX_QUEUE_SIZE <=? length q)%nat.

Definition queue_enqueue (q : LvsQueue) (v : Value) : Res str LvsQueue :=
  if (MAX_QUEUE_SIZE <=? length q)%nat then Err (lit "Queue overflow.") else Ok (q ++ [v]).

Definition queue_dequeue (q : LvsQueue) : Res str (Value * LvsQueue) :=
  match q with
  | v :: q => Ok (v, q)
  | [] => Err (lit "Queue underflow.")
  end.

(** 1-based; [index] is a [usize]. *)
Definition queue_peek (q : LvsQueue) (index : Z) : Res str Value :=
  if (index =? 0) || (Z.of_nat (length q) <? index) then Err (lit "Index out of bounds.")
  else ok_or (q !! Z.to_nat (index - 1)) (lit "Index out of bounds.").

Definition reset_queue (q : LvsQueue) : LvsQueue := [].

(** * Procedures *)

Variable h : heap.

Definition err (message : str) : Eval :=
  Error {| message := message; error_type := None; source := Some (lit "Library Variable Storage") |}.
Definition lvs_err (message : str) : Eval := err (lit "Library Variable Storage: " ++ message).

Definition ok_empty : Eval := Normal VEmpty.

Definition Procedure := LvsQueue -> list Value -> LvsQueue * Eval.

Definition usize_str (n : nat) : str := u64_to_str (Z.of_nat n).

Definition assert_empty : Procedure := fun q args =>
  let count := length q in
  ([], if negb (count =? 0)%nat then
         lvs_err (lit "AssertEmpty failed — queue had " ++ usize_str count ++ lit " item(s). Queue is not empty.")
       else ok_empty).

Definition assert_full : Procedure := fun q args =>
  (q, if is_full q then ok_empty
      else lvs_err (lit "AssertFull failed — queue has " ++ usize_str (length q) ++ lit "/"
                    ++ usize_str MAX_QUEUE_SIZE ++ lit " items. Queue is not full.")).

Definition assert_not_overflow : Procedure := fun q args =>
  (q, if (MAX_QUEUE_SIZE <? length q + 1)%nat then lvs_err (lit "Queue overflow.") else ok_empty).

Definition assert_not_underflow : Procedure := fun q args =>
  (q, match q with [] => lvs_err (lit "Queue underflow.") | _ => ok_empty end).

Definition assert_peek_available : Procedure := fun q args =>
  (q, match args with
      | [VInteger index] | [VBigInteger index] =>
          let len := Z.of_nat (length q) in
          if (index <=? 0) || (len <? index) then
            lvs_err (lit "Index out of bounds (index=" ++ i64_to_str index ++ lit ", count=" ++ i64_to_str len ++ lit ").")
          else ok_empty
      | _ => lvs_err (lit "AssertPeekAvailable expects (Integer)")
      end).

Definition clear : Procedure := fun q args => ([], ok_empty).

Definition enqueue : Procedure := fun q args =>
  match args with
  | [v] => match queue_enqueue q v with Ok q => (q, ok_empty) | Err msg => (q, lvs_err msg) end
  | _ => (q, lvs_err (lit "Enqueue expects (Variant)"))
  end.

(** A [Dequeue*]: the value leaves the queue, whatever [read] makes of it. *)
Definition dequeue_as (read : Value -> Eval) : Procedure := fun q args =>
  match queue_dequeue q with
  | Ok (v, q) => (q, read v)
  | Err msg => (q, lvs_err msg)
  end.

(** A [Peek*] at an index. *)
Definition peek_as (read : Value -> Eval) (q : LvsQueue) (index : Z) : Eval :=
  match queue_peek q (as_u64 index) with
  | Ok v => read v
  | Err msg => lvs_err msg
  end.

Definition mismatch (procedure : string) (v : Value) : Eval :=
  lvs_err (lit procedure ++ lit " type mismatch — got " ++ type_name v).

Definition read_text (v : Value) : Eval := Normal (VText (render_value h v)).
Definition read_decimal (procedure : string) (v : Value) : Eval :=
  match v with
  | VDecimal d => Normal (VDecimal d)
  | VInteger i | VBigInteger i => Normal (VDecimal (dec_from i))
  | v => mismatch procedure v
  end.
Definition read_date (procedure : string) (v : Value) : Eval :=
  match v with VDate d => Normal (VDate d) | v => mismatch procedure v end.
Definition read_time (procedure : string) (v : Value) : Eval :=
  match v with VTime t => Normal (VTime t) | v => mismatch procedure v end.
Definition read_date_time (procedure : string) (v : Value) : Eval :=
  match v with VDateTime dt => Normal (VDateTime dt) | v => mismatch procedure v end.
Definition read_boolean (procedure : string) (v : Value) : Eval :=
  match v with VBoolean b => Normal (VBoolean b) | v => mismatch procedure v end.

Definition dequeue : Procedure := dequeue_as Normal.
Definition dequeue_text : Procedure := dequeue_as read_text.
Definition dequeue_decimal : Procedure := dequeue_as (read_decimal "DequeueDecimal").
Definition dequeue_integer : Procedure := dequeue_as (fun v =>
  match v with
  | VInteger _ | VBigInteger _ => Normal v
  | v => mismatch "DequeueInteger" v
  end).
Definition dequeue_date : Procedure := dequeue_as (read_date "DequeueDate").
Definition dequeue_date_time : Procedure := dequeue_as (read_date_time "DequeueDateTime").
Definition dequeue_time : Procedure := dequeue_as (read_time "DequeueTime").
Definition dequeue_boolean : Procedure := dequeue_as (read_boolean "DequeueBoolean").

Definition peek : Procedure := fun q args =>
  (q, match args with
      | [VInteger i] | [VBigInteger i] | [_; VInteger i] | [_; VBigInteger i] => peek_as Normal q i
      | _ => lvs_err (lit "Peek expects (Variant, Integer)")
      end).

(** A typed [Peek*] takes an Integer index. *)
Definition typed_peek (procedure : string) (read : Value -> Eval) : Procedure := fun q args =>
  (q, match args with
      | [VInteger i] => peek_as read q i
      | _ => lvs_err (lit procedure ++ lit " expects (Integer)")
      end).

Definition peek_text : Procedure := typed_peek "PeekText" read_text.
Definition peek_decimal : Procedure := typed_peek "PeekDecimal" (read_decimal "PeekDecimal").
Definition peek_integer : Procedure := typed_peek "PeekInteger" (fun v =>
  match v with VInteger i => Normal (VInteger i) | v => mismatch "PeekInteger" v end).
Definition peek_date : Procedure := typed_peek "PeekDate" (read_date "PeekDate").
Definition peek_time : Procedure := typed_peek "PeekTime" (read_time "PeekTime").
Definition peek_boolean : Procedure := typed_peek "PeekBoolean" (read_boolean "PeekBoolean").

Definition length_ : Procedure := fun q args => (q, Normal (VInteger (Z.of_nat (length q)))).
Definition max_length : Procedure := fun q args => (q, Normal (VInteger (Z.of_nat MAX_QUEUE_SIZE))).

(** ** The catalog *)

Definition catalog : list (string * Procedure) := [
  ("assertempty", assert_empty); ("assertfull", assert_full); ("assertnotoverflow", assert_not_overflow);
  ("assertnotunderflow", assert_not_underflow); ("assertpeekavailable", assert_peek_available);
  ("clear", clear); ("enqueue", enqueue); ("dequeue", dequeue); ("peek", peek); ("length", length_);
  ("maxlength", max_length); ("dequeuetext", dequeue_text); ("dequeuedecimal", dequeue_decimal);
  ("dequeueinteger", dequeue_integer); ("dequeuedate", dequeue_date); ("dequeuedatetime", dequeue_date_time);
  ("dequeuetime", dequeue_time); ("dequeueboolean", dequeue_boolean); ("peektext", peek_text);
  ("peekdecimal", peek_decimal); ("peekinteger", peek_integer); ("peekdate", peek_date);
  ("peektime", peek_time); ("peekboolean", peek_boolean)]%string.

Fixpoint find_procedure (name : str) (l : list (string * Procedure)) : option Procedure :=
  match l with
  | [] => None
  | (k, f) :: l => if str_is name k then Some f else find_procedure name l
  end.

Definition resolve (procedure : str) : option Procedure :=
  find_procedure (to_ascii_lowercase procedure) catalog.
End storage.

(** DequeueInteger takes a BigInteger and PeekInteger refuses the same value. *)
Example peek_integer_refuses_big {D : Decimal} :
  (dequeue_integer [VBigInteger 7] []).2 = Normal (VBigInteger 7) /\
  (peek_integer [VBigInteger 7] [VInteger 1]).2 = mismatch "PeekInteger" (VBigInteger 7).
Proof. done. Qed.
