(* ===== verification/StorageSpec.v ===== *)
(** What the Library Variable Storage stub of [VariableStorage.v] promises: the
    queue is first in, first out and holds 25 values at most, whatever calls a
    test makes. *)

From Stdlib Require Import ZArith Lia.
From stdpp Require Import base tactics numbers option list gmap strings.
From S2P Require Import Prelude RustStr Decimals Values Slots Renders VariableStorage.

#[local] Open Scope Z_scope.
#[local] Open Scope rust_scope.

Section spec.
Context {D : Decimal}.
Variable h : heap.

(** * What a procedure does to the queue *)

Inductive Kind := Put | Take | Wipe | Look.

Definition kind (procedure : str) : Kind :=
  let name := to_ascii_lowercase procedure in
  if str_is name "enqueue" then Put
  else if str_is name "clear" || str_is name "assertempty" then Wipe
  else if starts_with (lit "dequeue") name then Take
  else Look.

Definition contract (k : Kind) (f : Procedure) : Prop :=
  forall q args,
  let '(q', r) := f q args in
  match k with
  | Put =>
      (exists v, args = [v] /\ (length q < MAX_QUEUE_SIZE)%nat /\ q' = q ++ [v] /\ r = ok_empty)
      \/ (q' = q /\ is_error r = true)
  | Take => q' = tail q /\ (q = [] -> is_error r = true)
  | Wipe => q' = []
  | Look => q' = q
  end.

Lemma dequeue_as_contract read : contract Take (dequeue_as read).
Proof. intros [|v q] args; by simpl. Qed.

Lemma enqueue_contract : contract Put enqueue.
Proof.
  intros q args. unfold enqueue. destruct args as [|v [|? ?]]; [by right| |by right].
  unfold queue_enqueue. destruct (Nat.leb_spec MAX_QUEUE_SIZE (length q)); [by right|]. left. by exists v.
Qed.

Lemma catalog_contract : Forall (fun e => contract (kind (lit e.1)) e.2) (catalog h).
Proof.
  repeat constructor; cbn [fst snd];
    try exact enqueue_contract; try apply dequeue_as_contract; by intros q args.
Qed.

Lemma resolve_contract name f : resolve h name = Some f -> contract (kind name) f.
Proof.
  unfold resolve. pose proof catalog_contract as H. induction H as [|[k g] l Hg _ IH]; [done|].
  cbn [find_procedure]. unfold str_is, str_eqb. destruct (bool_decide _) eqn:E; [|exact IH].
  intros [= <-]. apply bool_decide_eq_true in E. unfold kind in *. rewrite E. cbn [fst snd] in Hg.
  assert (to_ascii_lowercase (lit k) = lit k) as Ek; [|by rewrite Ek in Hg].
  rewrite <- E. unfold to_ascii_lowercase. rewrite <- list_fmap_compose. apply list_fmap_ext. intros _ c _.
  unfold compose, char_ascii_lower. repeat case_match; to_prop; lia.
Qed.

(** * Histories

    The queue with what has entered it and what has left it since it was last
    emptied. *)

Record History := { queue : list Value; entered : list Value; left_ : list Value }.

Definition call (s : History) (c : str * list Value) : History :=
  match resolve h c.1 with
  | None => s
  | Some f =>
      let '(q, r) := f (queue s) c.2 in
      match kind c.1 with
      | Put => {| queue := q; entered := entered s ++ (if is_error r then [] else c.2); left_ := left_ s |}
      | Take => {| queue := q; entered := entered s; left_ := left_ s ++ take 1 (queue s) |}
      | Wipe => {| queue := q; entered := []; left_ := [] |}
      | Look => {| queue := q; entered := entered s; left_ := left_ s |}
      end
  end.

Definition history (calls : list (str * list Value)) : History :=
  foldl call {| queue := []; entered := []; left_ := [] |} calls.

Definition fifo (s : History) : Prop :=
  entered s = left_ s ++ queue s /\ (length (queue s) <= MAX_QUEUE_SIZE)%nat.

Lemma call_fifo s c : fifo s -> fifo (call s c).
Proof.
  intros [E L]. unfold call. destruct (resolve h c.1) as [f|] eqn:Ef; [|done].
  pose proof (resolve_contract _ _ Ef (queue s) c.2) as H. destruct (f (queue s) c.2) as [q r].
  destruct (kind c.1); unfold fifo; cbn [queue entered left_].
  - destruct H as [(v & -> & Hl & -> & ->)|[-> ->]].
    + rewrite E, <- app_assoc. split; [done|]. rewrite length_app. simpl. lia.
    + by rewrite app_nil_r.
  - destruct H as [-> _]. rewrite E, <- app_assoc. split; [by destruct (queue s)|].
    destruct (queue s); simpl in *; lia.
  - subst q. split; [done|]. simpl. lia.
  - by subst q.
Qed.

(** C33: The storage is a bounded first-in first-out queue.  After any calls, by
    any names and with any arguments, from the empty queue on: the queue is what
    has entered it less what has left it, oldest first, and holds 25 values at
    most; Dequeue returns the oldest value that has not left and Peek the [i]-th,
    or report that there is none; and Enqueue accepts a value exactly when fewer
    than 25 are waiting. *)
Theorem storage_is_bounded_fifo calls :
  let s := history calls in
  let waiting := drop (length (left_ s)) (entered s) in
  (entered s = left_ s ++ waiting /\ waiting = queue s /\ (length waiting <= MAX_QUEUE_SIZE)%nat) /\
  dequeue (queue s) [] =
    match waiting with v :: rest => (rest, Normal v) | [] => ([], lvs_err (lit "Queue underflow.")) end /\
  (forall i, 1 <= i <= i64_max -> peek (queue s) [VInteger i] =
    (waiting, match waiting !! Z.to_nat (i - 1) with Some v => Normal v | None => lvs_err (lit "Index out of bounds.") end)) /\
  (forall v, enqueue (queue s) [v] =
    if decide (length waiting < MAX_QUEUE_SIZE)%nat then (waiting ++ [v], ok_empty)
    else (waiting, lvs_err (lit "Queue overflow."))).
Proof.
  cbv zeta. assert (fifo (history calls)) as [E L].
  { unfold history. assert (fifo {| queue := []; entered := []; left_ := [] |}) as H0 by (split; [done|simpl; lia]).
    revert H0. generalize {| queue := []; entered := []; left_ := [] |}.
    induction calls as [|c calls IH]; intros s Hs; [done|]. apply IH, call_fifo, Hs. }
  set (s := history calls) in *.
  assert (drop (length (left_ s)) (entered s) = queue s) as -> by by rewrite E, drop_app_length.
  split_and!; [done|done|done|by destruct (queue s)| |].
  - intros i Hi. unfold peek, peek_as, queue_peek. f_equal. unfold as_u64.
    rewrite Z.mod_small by (unfold u64_modulus; unfold i64_max in Hi; lia).
    destruct (Z.eqb_spec i 0); [lia|]. cbn [orb]. destruct (Z.ltb_spec (Z.of_nat (length (queue s))) i).
    + by rewrite (lookup_ge_None_2 (queue s)) by lia.
    + by destruct (queue s !! Z.to_nat (i - 1)).
  - intros v. unfold enqueue, queue_enqueue. destruct (Nat.leb_spec MAX_QUEUE_SIZE (length (queue s)));
      [rewrite decide_False by lia|rewrite decide_True by lia]; done.
Qed.
End spec.

(** * The theorem evaluated *)

#[local] Existing Instances mini_decimal.

(** Two values entered, one taken as the wrong type: the other is next. *)
Lemma storage_is_bounded_fifo_witness :
  let calls := [(lit "Enqueue", [VInteger 7]); (lit "ENQUEUE", [VText (lit "x")]); (lit "DequeueDate", [])] in
  queue (history ∅ calls) = [VText (lit "x")] /\ 1 <= 1 <= i64_max /\
  peek (queue (history ∅ calls)) [VInteger 1] = ([VText (lit "x")], Normal (VText (lit "x"))).
Proof.
  cbv zeta. set (calls := [(lit "Enqueue", [VInteger 7]); (lit "ENQUEUE", [VText (lit "x")]); (lit "DequeueDate", [])]).
  destruct (storage_is_bounded_fifo ∅ calls) as (_ & _ & H & _).
  assert (1 <= 1 <= i64_max) as H1 by (unfold i64_max; lia).
  split; [reflexivity|]. split; [exact H1|exact (H 1 H1)].
Defined.
