(* ===== verification/DateTimes.v ===== *)
(** The Date, Time and DateTime builtins ([interpreter/dispatch/datetime.rs]).

    The host clock is the parameter [now_ms], the signed milliseconds since the
    Unix epoch.  [CalcDate] computes on [i64] without checking: an arithmetic
    overflow is an outcome of its own.  Its loop takes fuel, and the length of
    the formula is enough. *)

From Stdlib Require Import ZArith Lia.
From stdpp Require Import base tactics numbers option list gmap strings.
From S2P Require Import Prelude RustStr Civil Decimals Values Slots.

#[local] Open Scope Z_scope.
#[local] Open Scope rust_scope.

(** * The clock *)

(** The two sides of the epoch of [duration_since]. *)
Definition unix_now_ms (now_ms : Z) : Z := now_ms.

(** Rust's [/] truncates. *)
Definition clock_today (now_ms : Z) : Z := Z.quot (unix_now_ms now_ms) MS_PER_DAY + AL_EPOCH_TO_UNIX_DAYS.
Definition clock_time (now_ms : Z) : Z := unix_now_ms now_ms mod MS_PER_DAY.
Definition clock_current_datetime (now_ms : Z) : Z :=
  unix_now_ms now_ms + AL_EPOCH_TO_UNIX_DAYS * MS_PER_DAY.

Section datetime.
Context {D : Decimal}.

(** * Dates and times put together and taken apart *)

Definition builtin_createdatetime (args : list Value) : Eval :=
  match args with
  | [VDate d; VTime t] =>
      match ms ← checked_mul d MS_PER_DAY; checked_add ms t with
      | Some dt => Normal (VDateTime dt)
      | None => eval_error (lit "CreateDateTime: datetime overflow")
      end
  | [a; b] => eval_error (lit "CreateDateTime expects (Date, Time), got (" ++ type_name a ++ lit ", " ++ type_name b ++ lit ")")
  | _ => eval_error (lit "CreateDateTime expects exactly 2 arguments")
  end.

Definition builtin_date2dmy (args : list Value) : Eval :=
  match args with
  | [VDate date; VInteger what] =>
      if date =? 0 then eval_error (lit "Date2DMY is undefined for 0D")
      else
        let '(year, month, day) := ymd_from_al_days date in
        if what =? 1 then Normal (VInteger day)
        else if what =? 2 then Normal (VInteger month)
        else if what =? 3 then Normal (VInteger year)
        else eval_error (lit "Date2DMY: the what argument must be 1 (day), 2 (month) or 3 (year), got " ++ i64_to_str what)
  | _ => eval_error (lit "Date2DMY expects (Date, Integer)")
  end.

(** The session's work date, or today. *)
Definition current_work_date (now_ms : Z) (work_date : option Z) : Z := default (clock_today now_ms) work_date.

(** The arguments, or the first one that is not an Integer. *)
Fixpoint integers (args : list Value) : Res str (list Z) :=
  match args with
  | [] => Ok []
  | VInteger n :: args => ns <-? integers args ; Ok (n :: ns)
  | other :: _ => Err (lit "DMY2Date expects Integer arguments, got " ++ type_name other)
  end.

Definition builtin_dmy2date (now_ms : Z) (work_date : option Z) (args : list Value) : Eval :=
  if (length args =? 0)%nat || (3 <? length args)%nat then eval_error (lit "DMY2Date expects 1 to 3 arguments")
  else
    match integers args with
    | Err message => eval_error message
    | Ok parts =>
        let '(work_year, work_month, _) := ymd_from_al_days (current_work_date now_ms work_date) in
        let day := default 0 (parts !! 0%nat) in
        let month := default work_month (parts !! 1%nat) in
        let year := default work_year (parts !! 2%nat) in
        match checked_al_date year month day with
        | Some date => Normal (VDate date)
        | None => eval_error (lit "DMY2Date: " ++ i64_to_str day ++ lit "/" ++ i64_to_str month ++ lit "/"
                              ++ i64_to_str year ++ lit " is not a valid date")
        end
    end.

Definition builtin_dt2date (args : list Value) : Eval :=
  match args with
  | [VDateTime dt] => Normal (VDate (dt / MS_PER_DAY))
  | _ => eval_error (lit "DT2Date expects exactly 1 DateTime argument")
  end.

Definition builtin_dt2time (args : list Value) : Eval :=
  match args with
  | [VDateTime dt] => Normal (VTime (dt mod MS_PER_DAY))
  | _ => eval_error (lit "DT2Time expects exactly 1 DateTime argument")
  end.

Definition builtin_workdate (now_ms : Z) (args : list Value) (work_date : option Z) : option Z * Eval :=
  match args with
  | [] => (work_date, Normal (VDate (current_work_date now_ms work_date)))
  | [VDate d] => (Some d, Normal (VDate d))
  | [v] => (work_date, eval_error (lit "WorkDate expects a Date, got " ++ type_name v))
  | _ => (work_date, eval_error (lit "WorkDate expects at most 1 argument"))
  end.

Definition builtin_date2dwy (args : list Value) : Eval :=
  match args with
  | [VDate date; VInteger what] =>
      if date =? 0 then eval_error (lit "Date2DWY is undefined for 0D")
      else
        let weekday := weekday_of date in
        let '(week, year) := iso_week date in
        if what =? 1 then Normal (VInteger weekday)
        else if what =? 2 then Normal (VInteger week)
        else if what =? 3 then Normal (VInteger year)
        else eval_error (lit "Date2DWY: the what argument must be 1, 2 or 3, got " ++ i64_to_str what)
  | _ => eval_error (lit "Date2DWY expects (Date, Integer)")
  end.
End datetime.

(** * Date formulas *)

(** ** The calendar on [i64]

    [None] is an overflow.  After the first three operations, those of
    [civil_from_days] stay in range. *)

Definition ymd_checked (days : Z) : option (Z * Z * Z) :=
  z ← checked_sub days AL_EPOCH_TO_UNIX_DAYS;
  z ← checked_add z 719468;
  _ ← (if 0 <=? z then Some z else checked_sub z 146096);
  Some (ymd_from_al_days days).

Definition al_days_checked (year month day : Z) : option Z :=
  n ← days_from_civil_checked year month day;
  checked_add n AL_EPOCH_TO_UNIX_DAYS.

Definition days_in_month_checked (year month : Z) : option Z :=
  '(next_year, next_month) ← (if month =? 12 then y ← checked_add year 1; Some (y, 1) else Some (year, month + 1));
  a ← al_days_checked next_year next_month 1;
  b ← al_days_checked year month 1;
  checked_sub a b.

Definition add_months_checked (date months : Z) : option Z :=
  '(year, month, day) ← ymd_checked date;
  index ← checked_mul year 12;
  index ← checked_add index (month - 1);
  index ← checked_add index months;
  let year := index / 12 in
  let month := index mod 12 + 1 in
  last ← days_in_month_checked year month;
  al_days_checked year month (Z.min day last).

(** ** Terms *)

Definition end_of_month (year month : Z) : option Z :=
  last ← days_in_month_checked year month; al_days_checked year month last.

(** [CD], [CW], [CM], [CQ], [CY] and, with a minus, the starts; the inner
    [None] is an unknown unit. *)
Definition current_period (forward : bool) (unit : char) (date : Z) : option (option Z) :=
  '(year, month, _) ← ymd_checked date;
  if unit =? ch "D" then Some <$> Some date
  else if unit =? ch "W" then
    let weekday := weekday_of date in
    Some <$> (if forward then checked_add date (7 - weekday) else checked_sub date (weekday - 1))
  else if unit =? ch "M" then
    Some <$> (if forward then end_of_month year month else al_days_checked year month 1)
  else if unit =? ch "Q" then
    let first := Z.quot (month - 1) 3 * 3 + 1 in
    Some <$> (if forward then end_of_month year (first + 2) else al_days_checked year first 1)
  else if unit =? ch "Y" then
    Some <$> (if forward then al_days_checked year 12 31 else al_days_checked year 1 1)
  else Some None.

(** [+1D], [-2W], [3M], [1Q], [1Y]. *)
Definition moved (count : Z) (unit : char) (date : Z) : option (option Z) :=
  _ ← ymd_checked date;
  if unit =? ch "D" then Some <$> checked_add date count
  else if unit =? ch "W" then Some <$> (n ← checked_mul 7 count; checked_add date n)
  else if unit =? ch "M" then Some <$> add_months_checked date count
  else if unit =? ch "Q" then Some <$> (n ← checked_mul 3 count; add_months_checked date n)
  else if unit =? ch "Y" then Some <$> (n ← checked_mul 12 count; add_months_checked date n)
  else Some None.

(** ** The loop *)

Inductive CalcOutcome :=
  | Calculated (date : Z)
  | CalcError (message : str)
  | CalcOverflow.

Fixpoint scan_digits (s : str) : str * str :=
  match s with
  | c :: r => if is_ascii_digit c then let '(ds, r) := scan_digits r in (c :: ds, r) else ([], s)
  | [] => ([], [])
  end.

(** Absent digits are 1; digits over the range of [i64] are 0. *)
Definition count_of (digits : str) : Z :=
  match digits with [] => 1 | _ => default 0 (parse_i64 digits) end.

Definition read_sign (chars : str) : Z * str :=
  match chars with
  | c :: r => if c =? ch "-" then (-1, r) else if c =? ch "+" then (1, r) else (1, chars)
  | [] => (1, [])
  end.

Definition read_current (chars : str) : bool * str :=
  match chars with
  | c :: r => if c =? ch "C" then (true, r) else (false, chars)
  | [] => (false, [])
  end.

Definition quoted_formula (formula : str) : str := lit "'" ++ formula ++ lit "'".

(** [None] is running out of fuel. *)
Fixpoint calc_loop (fuel : nat) (formula chars : str) (date : Z) : option CalcOutcome :=
  match fuel with
  | O => None
  | S fuel =>
      match chars with
      | [] => Some (Calculated date)
      | _ =>
          let '(sign, chars) := read_sign chars in
          let '(current, chars) := read_current chars in
          let '(digits, chars) := scan_digits chars in
          match chars with
          | [] => Some (CalcError (quoted_formula formula ++ lit " ends without a unit"))
          | unit :: chars =>
              let result := if current then current_period (0 <? sign) unit date
                            else moved (sign * count_of digits) unit date in
              match result with
              | None => Some CalcOverflow
              | Some None => Some (CalcError (if current
                  then lit "unsupported period 'C" ++ [unit] ++ lit "' in " ++ quoted_formula formula
                  else lit "unsupported unit '" ++ [unit] ++ lit "' in " ++ quoted_formula formula))
              | Some (Some date) => calc_loop fuel formula chars date
              end
          end
      end
  end.

Definition formula_text (formula : str) : str :=
  to_ascii_uppercase (filter (fun c => is_whitespace c = false)
    (trim_end_matches (Z.eqb (ch ">")) (trim_start_matches (Z.eqb (ch "<")) (trim formula)))).

Definition calc_date (formula : str) (date : Z) : CalcOutcome :=
  match formula_text formula with
  | [] => CalcError (quoted_formula formula ++ lit " is not a date formula")
  | text => default CalcOverflow (calc_loop (S (length text)) formula text date)
  end.

(** [None] is a panic. *)
Definition builtin_calcdate {D : Decimal} (now_ms : Z) (args : list Value) : option Eval :=
  let run (formula : str) (date : Z) :=
    if date =? 0 then Some (eval_error (lit "CalcDate is undefined for 0D"))
    else match calc_date formula date with
         | Calculated result => Some (Normal (VDate result))
         | CalcError error => Some (eval_error (lit "CalcDate: " ++ error))
         | CalcOverflow => None
         end in
  match args with
  | [VText f] | [VCode f] => run f (clock_today now_ms)
  | [VText f; VDate d] | [VCode f; VDate d] => run f d
  | _ => Some (eval_error (lit "CalcDate expects (Text[, Date])"))
  end.

Example calc_date_example :
  calc_date (lit " <cm + 1D -1y>") (al_days_from_ymd 2024 2 10) = Calculated (al_days_from_ymd 2023 3 1).
Proof. vm_compute. reflexivity. Qed.

(** A count over the range of [i64] counts as zero. *)
Example calc_date_large_count :
  calc_date (lit "99999999999999999999D") 738886 = Calculated 738886.
Proof. vm_compute. reflexivity. Qed.

(** The sum with a count within range can overflow, unchecked. *)
Example calc_date_overflows : calc_date (lit "9223372036854775807D") 738886 = CalcOverflow.
Proof. vm_compute. reflexivity. Qed.

(** A millisecond before 1970 the two clocks disagree about the day: the date
    truncates, the date-time does not. *)
Example clock_before_1970 :
  clock_today (-1) = 719162 /\ clock_current_datetime (-1) / MS_PER_DAY = 719161.
Proof. vm_compute. done. Qed.
