(* ===== verification/DateSpec.v ===== *)
(** What the Date, Time and DateTime builtins of [DateTimes.v] promise: dates
    and times are put together and taken apart exactly, a date formula applies
    its terms from left to right, and the period terms give the ends of the
    period a date is in. *)

From Stdlib Require Import ZArith Lia.
From stdpp Require Import base tactics numbers option list gmap strings.
From S2P Require Import Prelude RustStr Civil Decimals Values Slots DateTimes.

#[local] Open Scope Z_scope.
#[local] Open Scope rust_scope.
#[local] Ltac Zify.zify_post_hook ::= Z.div_mod_to_equations.

(** * The checked calendar stays in range

    Within ten thousand years nothing overflows, whatever the term. *)

Definition near_year (year : Z) : Prop := -100000 <= year <= 100000.
Definition near_date (date : Z) : Prop := -40000000 <= date <= 40000000.

Lemma ymd_checked_near date : near_date date -> ymd_checked date = Some (ymd_from_al_days date).
Proof.
  unfold near_date. intros H. unfold ymd_checked, checked_sub, checked_add, AL_EPOCH_TO_UNIX_DAYS.
  rewrite checked_i64_in by (unfold_ints; lia). simpl. rewrite checked_i64_in by (unfold_ints; lia). simpl.
  destruct (0 <=? _); [done|]. rewrite checked_i64_in by (unfold_ints; lia). done.
Qed.

Lemma al_days_checked_near year month day :
  near_year year -> 1 <= month <= 12 -> 0 <= day <= 31 ->
  al_days_checked year month day = Some (al_days_from_ymd year month day) /\
  -40000000 <= al_days_from_ymd year month day <= 40000000.
Proof.
  unfold near_year. intros Hy Hm Hd. unfold al_days_checked.
  rewrite days_from_civil_checked_some by (unfold civil_year_bound; lia). simpl.
  unfold checked_add, al_days_from_ymd. rewrite days_from_civil_linear by lia. cbv zeta.
  unfold AL_EPOCH_TO_UNIX_DAYS.
  assert (0 <= month_index month <= 11) by (unfold month_index; destruct (Z.ltb_spec 2 month); lia).
  assert (year - 1 <= march_year year month <= year) by (unfold march_year; destruct (month <=? 2); lia).
  split; [|lia]. apply checked_i64_in. unfold_ints. lia.
Qed.

Lemma days_in_month_checked_near year month :
  near_year year -> 1 <= month <= 12 ->
  near_year (year + 1) -> days_in_month_checked year month = Some (max_day year month).
Proof.
  intros Hy Hm Hy'. unfold days_in_month_checked. rewrite <- (days_in_month_max year month Hm).
  unfold days_in_month. destruct (Z.eqb_spec month 12) as [->|].
  - unfold checked_add. rewrite checked_i64_in by (unfold near_year in *; unfold_ints; lia). simpl.
    destruct (al_days_checked_near (year + 1) 1 1) as [-> ?]; [done|lia..|]. simpl.
    destruct (al_days_checked_near year 12 1) as [-> ?]; [done|lia..|]. simpl.
    apply checked_i64_in. unfold_ints. lia.
  - simpl. destruct (al_days_checked_near year (month + 1) 1) as [-> ?]; [done|lia..|]. simpl.
    destruct (al_days_checked_near year month 1) as [-> ?]; [done|lia..|]. simpl.
    apply checked_i64_in. unfold_ints. lia.
Qed.

Lemma end_of_month_near year month :
  near_year year -> near_year (year + 1) -> 1 <= month <= 12 ->
  end_of_month year month = Some (al_days_from_ymd year month (max_day year month)).
Proof.
  intros Hy Hy' Hm. unfold end_of_month. rewrite days_in_month_checked_near by done. simpl.
  pose proof (max_day_range year month). apply al_days_checked_near; [done|lia..].
Qed.

(** * Periods *)

(** The days of the months [a] to [b] of a year. *)
Lemma months_span year a b n :
  1 <= a -> a <= b -> b <= 12 ->
  al_days_from_ymd year a 1 <= n <= al_days_from_ymd year b (max_day year b) <->
  (let '(y, m, _) := ymd_from_al_days n in y = year /\ a <= m <= b).
Proof.
  intros Ha Hab Hb. pose proof (al_days_of_ymd n) as V. destruct (ymd_from_al_days n) as [[y m] d].
  destruct V as [V <-]. pose proof (max_day_range year a). pose proof (max_day_range year b).
  assert (valid_ymd year a 1) as Va by (split; lia).
  assert (valid_ymd year b (max_day year b)) as Vb by (split; lia).
  pose proof (al_days_lt _ _ _ _ _ _ V Va) as H1. pose proof (al_days_lt _ _ _ _ _ _ Vb V) as H2.
  assert (forall P Q x z, (x < z <-> P) -> (Q <-> ~ P) -> (z <= x <-> Q)) as Hle by (intros P Q x z H3 H4; rewrite H4, <- H3; lia).
  rewrite (Hle _ _ _ _ H1 (iff_refl _)), (Hle _ _ _ _ H2 (iff_refl _)). unfold ymd_lt.
  destruct V as [M Hd]. split; [|intros [-> ?]; split; [lia|]].
  - intros [N1 N2]. assert (y = year) as -> by lia. lia.
  - intros [|[_ [|[-> ?]]]]; lia.
Qed.

(** What two days of one period have in common. *)
Definition period (unit : char) (date : Z) : Z :=
  let '(year, month, _) := ymd_from_al_days date in
  if unit =? ch "D" then date
  else if unit =? ch "W" then week_thursday date
  else if unit =? ch "M" then year * 12 + (month - 1)
  else if unit =? ch "Q" then year * 4 + (month - 1) / 3
  else year.

Definition is_period (unit : char) : Prop := unit ∈ [ch "D"; ch "W"; ch "M"; ch "Q"; ch "Y"].

Lemma week_span date m :
  week_thursday m = week_thursday date <-> date - (weekday_of date - 1) <= m <= date + (7 - weekday_of date).
Proof.
  pose proof (weekday_of_range date). pose proof (weekday_of_range m). split.
  - unfold week_thursday. intros E. lia.
  - intros Hm. replace m with (date + (m - date)) by lia. apply week_thursday_shift. lia.
Qed.

(** The year of a date near the epoch is near too. *)
Lemma near_date_year date :
  -10000000 <= date <= 10000000 ->
  let '(year, _, _) := ymd_from_al_days date in near_year year /\ near_year (year + 1).
Proof.
  intros Hn. pose proof (al_days_of_ymd date) as V. destruct (ymd_from_al_days date) as [[year month] day].
  destruct V as [[M Dy] V]. subst date. unfold al_days_from_ymd in Hn. rewrite days_from_civil_linear in Hn by done.
  cbv zeta in Hn. unfold AL_EPOCH_TO_UNIX_DAYS, near_year in *. pose proof (max_day_range year month).
  assert (0 <= month_index month <= 11) by (unfold month_index; destruct (Z.ltb_spec 2 month); lia).
  assert (year - 1 <= march_year year month <= year) by (unfold march_year; destruct (month <=? 2); lia). lia.
Qed.

(** The period terms of a date formula give the ends of the period the date
    is in.  For every date within ten million days of the epoch and each of the
    units D, W, M, Q and Y, both ends exist without overflow, and the days of
    the date's period are exactly those from the start to the end. *)
Lemma current_period_ends unit date :
  is_period unit -> -10000000 <= date <= 10000000 ->
  exists first last,
    current_period false unit date = Some (Some first) /\
    current_period true unit date = Some (Some last) /\
    forall m, period unit m = period unit date <-> first <= m <= last.
Proof.
  intros Hu Hn. unfold current_period. rewrite ymd_checked_near by (unfold near_date; lia).
  pose proof (al_days_of_ymd date) as V. pose proof (near_date_year date Hn) as Hy. unfold period.
  destruct (ymd_from_al_days date) as [[year month] day] eqn:Ed. destruct V as [[M Dy] V], Hy as [Hy Hy1].
  cbn [mbind option_bind].
  assert (forall y m d, near_year y -> 1 <= m <= 12 -> 0 <= d <= 31 -> al_days_checked y m d = Some (al_days_from_ymd y m d)) as Hal
    by (intros; by apply al_days_checked_near).
  unfold is_period in Hu. rewrite !elem_of_cons, elem_of_nil in Hu.
  destruct Hu as [->|[->|[->|[->|[->|[]]]]]]; cbn [Z.eqb Pos.eqb].
  - exists date, date. split_and!; [done|done|]. intros m. destruct (ymd_from_al_days m) as [[]]. lia.
  - pose proof (weekday_of_range date). exists (date - (weekday_of date - 1)), (date + (7 - weekday_of date)).
    unfold checked_add, checked_sub. rewrite !checked_i64_in by (unfold_ints; lia). split_and!; [done|done|].
    intros m. pose proof (week_span date m) as W. by destruct (ymd_from_al_days m) as [[]].
  - rewrite end_of_month_near, Hal by (done || lia). eexists _, _. split_and!; [done|done|].
    intros m. rewrite (months_span year month month m) by lia. pose proof (al_days_of_ymd m) as Vm.
    destruct (ymd_from_al_days m) as [[y' m'] d']. destruct Vm as [[? _] _]. lia.
  - set (q := Z.quot (month - 1) 3 * 3 + 1). assert (q = (month - 1) / 3 * 3 + 1) as Eq by (subst q; rewrite Z.quot_div_nonneg by lia; done).
    rewrite end_of_month_near, Hal by (done || lia). eexists _, _. split_and!; [done|done|].
    intros m. rewrite (months_span year q (q + 2) m) by lia. pose proof (al_days_of_ymd m) as Vm.
    destruct (ymd_from_al_days m) as [[y' m'] d']. destruct Vm as [[? _] _]. lia.
  - rewrite !Hal by (done || lia). eexists _, _. split_and!; [done|done|].
    intros m. change 31 with (max_day year 12) at 1. rewrite (months_span year 1 12 m) by lia. pose proof (al_days_of_ymd m) as Vm.
    destruct (ymd_from_al_days m) as [[y' m'] d']. destruct Vm as [[? _] _]. lia.
Qed.

(** * Formulas read term by term *)

Record Term := { minus : option bool; current : bool; digits : str; unit : char }.

Definition show_term (t : Term) : str :=
  match minus t with None => [] | Some true => [ch "-"] | Some false => [ch "+"] end
  ++ (if current t then [ch "C"] else []) ++ digits t ++ [unit t].

(** The unit is a letter; [C] is read as the mark of a current period unless
    digits stand before it. *)
Definition good_term (t : Term) : Prop :=
  Forall (fun c => is_ascii_digit c = true) (digits t) /\ 65 <= unit t <= 90 /\
  (current t = false -> digits t = [] -> unit t <> ch "C").

Definition sign_of (t : Term) : Z := match minus t with Some true => -1 | _ => 1 end.

Definition apply_term (formula : str) (t : Term) (date : Z) : CalcOutcome :=
  match (if current t then current_period (0 <? sign_of t) (unit t) date
         else moved (sign_of t * count_of (digits t)) (unit t) date) with
  | None => CalcOverflow
  | Some None => CalcError (if current t
      then lit "unsupported period 'C" ++ [unit t] ++ lit "' in " ++ quoted_formula formula
      else lit "unsupported unit '" ++ [unit t] ++ lit "' in " ++ quoted_formula formula)
  | Some (Some date) => Calculated date
  end.

Definition and_then (r : CalcOutcome) (f : Z -> CalcOutcome) : CalcOutcome :=
  match r with Calculated date => f date | e => e end.

Definition apply_terms (formula : str) (ts : list Term) (date : Z) : CalcOutcome :=
  foldl (fun r t => and_then r (apply_term formula t)) (Calculated date) ts.

Lemma apply_terms_cons formula t ts date :
  apply_terms formula (t :: ts) date = and_then (apply_term formula t date) (apply_terms formula ts).
Proof.
  unfold apply_terms. cbn [foldl and_then]. destruct (apply_term formula t date); [done|..]; cbn [and_then];
    by induction ts.
Qed.

Lemma scan_digits_app ds c r :
  Forall (fun c => is_ascii_digit c = true) ds -> is_ascii_digit c = false -> scan_digits (ds ++ c :: r) = (ds, c :: r).
Proof.
  intros Hds Hc. induction Hds as [|d ds Hd _ IH]; cbn [app scan_digits]; [by rewrite Hc|by rewrite Hd, IH].
Qed.

Lemma letter_not_digit c : 65 <= c <= 90 -> is_ascii_digit c = false.
Proof. intros H. unfold is_ascii_digit. destruct (Z.leb_spec 48 c), (Z.leb_spec c 57); (lia || done). Qed.

(** A run of digits and a unit does not start with a sign. *)
Lemma not_sign ds u r :
  Forall (fun c => is_ascii_digit c = true) ds -> 65 <= u <= 90 -> read_sign (ds ++ u :: r) = (1, ds ++ u :: r).
Proof.
  intros Hds Hu. destruct Hds as [|d ds Hd _]; cbn [app read_sign].
  - destruct (Z.eqb_spec u 45), (Z.eqb_spec u 43); (lia || done).
  - unfold is_ascii_digit in Hd. to_prop. destruct (Z.eqb_spec d 45), (Z.eqb_spec d 43); (lia || done).
Qed.

Lemma read_sign_term t r :
  good_term t ->
  read_sign (show_term t ++ r) =
    (sign_of t, (if current t then [ch "C"] else []) ++ digits t ++ unit t :: r).
Proof.
  intros (Hd & Hu & _). unfold show_term, sign_of. rewrite <- !app_assoc. cbn [app].
  destruct (minus t) as [[]|]; [done..|]. cbn [app].
  destruct (current t); [done|]. by apply not_sign.
Qed.

Lemma read_current_term t r :
  good_term t -> read_current ((if current t then [ch "C"] else []) ++ digits t ++ unit t :: r) =
    (current t, digits t ++ unit t :: r).
Proof.
  intros (Hd & Hu & Hc). destruct (current t); [done|]. cbn [app].
  destruct Hd as [|d ds Hd _]; cbn [app read_current].
  - destruct (Z.eqb_spec (unit t) 67); [by destruct Hc|done].
  - unfold is_ascii_digit in Hd. to_prop. destruct (Z.eqb_spec d 67); (lia || done).
Qed.

Lemma show_term_length t : (1 <= length (show_term t))%nat.
Proof. unfold show_term. rewrite !length_app. simpl. lia. Qed.

Lemma calc_loop_terms formula ts fuel date :
  Forall good_term ts -> (length (ts ≫= show_term) < fuel)%nat ->
  calc_loop fuel formula (ts ≫= show_term) date = Some (apply_terms formula ts date).
Proof.
  intros Hts. revert fuel date. induction Hts as [|t ts Ht _ IH]; intros [|fuel] date Hf; [lia|done|lia|].
  rewrite bind_cons in *. pose proof (show_term_length t). rewrite length_app in Hf. cbn [calc_loop].
  destruct (show_term t ++ (ts ≫= show_term)) as [|c0 s0] eqn:E.
  { apply (f_equal length) in E. rewrite length_app in E. simpl in E. lia. }
  rewrite <- E. rewrite (read_sign_term t _ Ht), (read_current_term t _ Ht).
  destruct Ht as (Hd & Hu & _). rewrite (scan_digits_app (digits t)) by (done || by apply letter_not_digit).
  rewrite apply_terms_cons. unfold apply_term at 1.
  destruct (if current t then _ else _) as [[date'|]|]; [|done..]. apply IH. lia.
Qed.

(** CalcDate applies the terms of its formula from left to right.  Whatever
    blanks, case and angle brackets the formula is written with, when it spells
    the terms, the result is the first term applied to the date, the second to
    its result and so on; it is the first error or overflow met on the way; and
    no term is skipped or read twice. *)
Lemma calc_date_applies_terms formula ts date :
  ts <> [] -> Forall good_term ts -> formula_text formula = ts ≫= show_term ->
  calc_date formula date = apply_terms formula ts date.
Proof.
  intros Hne Hts E. unfold calc_date. rewrite E.
  destruct (ts ≫= show_term) as [|c s] eqn:Es.
  - destruct ts as [|t ts]; [done|]. rewrite bind_cons in Es. pose proof (show_term_length t).
    apply (f_equal length) in Es. rewrite length_app in Es. simpl in Es. lia.
  - rewrite <- Es. by rewrite calc_loop_terms by (done || lia).
Qed.

(** * Dates and times put together and taken apart *)

Section parts.
Context {D : Decimal}.

Lemma checked_date_back year month day :
  1 <= year <= 9999 -> valid_ymd year month day -> checked_al_date year month day = Some (al_days_from_ymd year month day).
Proof.
  intros Hy [Hm Hd]. unfold checked_al_date.
  assert (forall a b z, a <= z <= b -> (a <=? z) && (z <=? b) = true) as H
    by (intros; by apply andb_true_iff; rewrite !Z.leb_le).
  by rewrite !H by done.
Qed.

(** Dates and times survive being put together and taken apart.  A DateTime
    made of a Date and a time of day has them as its parts; the parts of a
    DateTime more than a day above the smallest one make it again; and DMY2Date
    of the day, month and year that Date2DMY gives for a date of the years 1 to
    9999 is that date, whatever the work date. *)
Lemma date_parts_roundtrip :
  (forall d t dt, 0 <= t < MS_PER_DAY -> builtin_createdatetime [VDate d; VTime t] = Normal (VDateTime dt) ->
     builtin_dt2date [VDateTime dt] = Normal (VDate d) /\ builtin_dt2time [VDateTime dt] = Normal (VTime t)) /\
  (forall dt d t, i64_min + MS_PER_DAY <= dt <= i64_max ->
     builtin_dt2date [VDateTime dt] = Normal d -> builtin_dt2time [VDateTime dt] = Normal t ->
     builtin_createdatetime [d; t] = Normal (VDateTime dt)) /\
  (forall now work date year month day,
     date <> 0 -> (ymd_from_al_days date).1.1 = year -> 1 <= year <= 9999 ->
     builtin_date2dmy [VDate date; VInteger 1] = Normal day ->
     builtin_date2dmy [VDate date; VInteger 2] = Normal month ->
     builtin_dmy2date now work [day; month; VInteger year] = Normal (VDate date)).
Proof.
  split_and!.
  - intros d t dt Ht H. unfold builtin_createdatetime, checked_mul, checked_add in H.
    destruct (checked_i64 (d * MS_PER_DAY)) as [ms|] eqn:E1; [|done]. cbn [mbind option_bind] in H.
    destruct (checked_i64 (ms + t)) as [n|] eqn:E2; [|done]. injection H as <-.
    apply checked_i64_Some in E1 as [-> _], E2 as [-> _].
    unfold builtin_dt2date, builtin_dt2time, MS_PER_DAY in *. split; do 2 f_equal; lia.
  - intros dt d t Hdt [= <-] [= <-]. unfold builtin_createdatetime, checked_mul, checked_add, MS_PER_DAY in *.
    rewrite checked_i64_in by (unfold_ints; lia). cbn [mbind option_bind].
    rewrite checked_i64_in by (unfold_ints; lia). do 2 f_equal. lia.
  - intros now work date year month day H0 Hyear Hy H1 H2. unfold builtin_date2dmy in *.
    destruct (Z.eqb_spec date 0); [done|]. pose proof (al_days_of_ymd date) as V.
    destruct (ymd_from_al_days date) as [[y m] d]. cbn [fst] in Hyear. subst y. cbn [Z.eqb Pos.eqb] in *.
    injection H1 as <-. injection H2 as <-. destruct V as [V E]. unfold builtin_dmy2date.
    cbn [length Nat.eqb Nat.ltb Nat.leb orb integers res_bind].
    destruct (ymd_from_al_days (current_work_date now work)) as [[wy wm] wd].
    cbn [lookup list_lookup default from_option id]. by rewrite checked_date_back, E.
Qed.

End parts.

(** * The theorems evaluated *)

#[local] Existing Instances mini_decimal.

(** The quarter of the tenth of February 2024. *)
Lemma current_period_ends_witness :
  -10000000 <= al_days_from_ymd 2024 2 10 <= 10000000 /\
  exists first last, current_period true (ch "Q") (al_days_from_ymd 2024 2 10) = Some (Some last) /\
    last = al_days_from_ymd 2024 3 31 /\ first <= al_days_from_ymd 2024 2 10 <= last.
Proof.
  assert (-10000000 <= al_days_from_ymd 2024 2 10 <= 10000000) as Hn by (split; vm_compute; discriminate).
  split; [exact Hn|].
  assert (is_period (ch "Q")) as Hu by (unfold is_period; rewrite !elem_of_cons; auto).
  destruct (current_period_ends (ch "Q") (al_days_from_ymd 2024 2 10) Hu Hn) as (first & last & _ & H2 & H3).
  exists first, last. split; [exact H2|].
  assert (current_period true (ch "Q") (al_days_from_ymd 2024 2 10) = Some (Some (al_days_from_ymd 2024 3 31))) as E
    by (vm_compute; reflexivity).
  split; [congruence|]. exact (proj1 (H3 _) eq_refl).
Defined.

