(* ===== verification/Randoms.v ===== *)
(** The pseudo-random procedures: Library Random ([stubs/library_random.rs]),
    Any ([stubs/any.rs]), and RANDOM and RANDOMIZE
    ([interpreter/dispatch/random.rs]).

    The thread-local [LCG_STATE] and [SEED] are the record [Random], the first
    argument and result of every procedure; the builtins' [random_state] of the
    dispatch context is a [u64] of its own.  The operating system's entropy and
    the clock are parameters. *)

From Stdlib Require Import ZArith Lia.
From stdpp Require Import base tactics numbers option list gmap strings.
From S2P Require Import Prelude RustStr Decimals Values Slots.

#[local] Open Scope Z_scope.
#[local] Open Scope rust_scope.

(** * Machine arithmetic *)

(** [u64::wrapping_mul] and [u64::wrapping_add]. *)
Definition wrapping_mul (a b : Z) : Z := (a * b) mod u64_modulus.
Definition wrapping_add (a b : Z) : Z := (a + b) mod u64_modulus.

(** [char::from_u32]: surrogates and numbers past the last plane are no
    characters. *)
Definition char_from_u32 (c : Z) : option char :=
  if ((0 <=? c) && (c <? 55296)) || ((57344 <=? c) && (c <=? 1114111)) then Some c else None.

(** * The generators *)

Record Random := { lcg_state : Z; seed : Z }.

Definition initial_random : Random := {| lcg_state := 1; seed := 1 |}.

Definition with_lcg (s : Random) (lcg : Z) : Random := {| lcg_state := lcg; seed := seed s |}.

Definition next_rand (max : Z) (s : Random) : Z * Random :=
  if max <=? 1 then (1, s)
  else
    let next := wrapping_add (wrapping_mul (lcg_state s) 214013) 2531011 in
    let r := Z.land (Z.shiftr next 16) 32767 in
    (Z.rem r max + 1, with_lcg s next).

Definition set_lcg_seed (new_seed : Z) (s : Random) : Random := with_lcg s (Z.max new_seed 1).
Definition reset_lcg (s : Random) : Random := set_lcg_seed 1 s.

(** [(0..length).map(|_| draw()).collect()]. *)
Fixpoint draw_text (length : nat) (draw : Random -> char * Random) (s : Random) : str * Random :=
  match length with
  | O => ([], s)
  | S length =>
      let '(c, s) := draw s in
      let '(text, s) := draw_text length draw s in
      (c :: text, s)
  end.

(** A character [base + n] for a draw [n] of [1..=span]. *)
Definition draw_code (base span : Z) (otherwise : char) (s : Random) : char * Random :=
  let '(n, s) := next_rand span s in
  (default otherwise (char_from_u32 (base + n)), s).

Definition draw_lower : Random -> char * Random := draw_code 96 26 (ch "a").

(** [HEX[(next_rand(16) - 1) as usize] as char]. *)
Definition HEX : str := lit "0123456789abcdef".
Definition draw_hex (s : Random) : char * Random :=
  let '(n, s) := next_rand 16 s in
  (default 0 (HEX !! Z.to_nat (n - 1)), s).

Section random.
Context {D : Decimal}.

(** [ceil] and [floor] of [Decimal]. *)
Class DecimalRounding := {
  dec_ceil : decimal -> decimal;
  dec_floor : decimal -> decimal;
}.

(** The state and the result; [None] is an arithmetic overflow the code does
    not check. *)
Definition Drawn : Type := option (Random * Eval).
Definition Procedure : Type := Random -> list Value -> Drawn.

(** * Library Random *)

Definition lr_err (message : str) : Eval :=
  Error {| message := lit "LibraryRandom." ++ message; error_type := None; source := Some (lit "Library Random") |}.

Definition drawn (mk : Z -> Value) (r : Z * Random) : Drawn := Some (r.2, Normal (mk r.1)).
Definition failed (s : Random) (e : Eval) : Drawn := Some (s, e).

Definition rand_int : Procedure := fun s args =>
  match args with
  | [VInteger max] | [VBigInteger max] =>
      if max <? 1 then Some (s, Normal (VInteger 1)) else drawn VInteger (next_rand max s)
  | [] => failed s (lr_err (lit "RandInt requires 1 argument"))
  | _ => failed s (lr_err (lit "RandInt expects (Integer)"))
  end.

(** The bounds of the two-argument forms. *)
Definition int_pair (args : list Value) : option (Z * Z) :=
  match args with
  | [VInteger a; VInteger b] | [VInteger a; VBigInteger b]
  | [VBigInteger a; VInteger b] | [VBigInteger a; VBigInteger b] => Some (a, b)
  | _ => None
  end.

Definition rand_int_in_range : Procedure := fun s args =>
  match int_pair args with
  | None => failed s (lr_err (lit "RandIntInRange expects (Integer, Integer)"))
  | Some (min, max) =>
      if max <=? min then Some (s, Normal (VInteger min))
      else
        match d ← checked_sub max min; checked_add d 1 with
        | None => failed s (lr_err (lit "RandIntInRange: range width overflows Integer"))
        | Some span =>
            let '(n, s) := next_rand span s in
            match checked_add min (n - 1) with
            | None => failed s (lr_err (lit "RandIntInRange: generated value overflows Integer"))
            | Some value => Some (s, Normal (VInteger value))
            end
        end
  end.

(** The maximum and the places of [RandDec]. *)
Definition rand_dec_args (args : list Value) : Res Eval (Z * Z) :=
  match args with
  | [VDecimal m; VInteger p] | [VDecimal m; VBigInteger p] =>
      match dec_to_i64 m with
      | None => Err (lr_err (lit "RandDec: MaxValue must be a whole Decimal within Integer range"))
      | Some max =>
          if negb (dec_eqb (dec_from max) m) then Err (lr_err (lit "RandDec: MaxValue must be a whole Decimal"))
          else Ok (max, p)
      end
  | _ => ok_or (int_pair args) (lr_err (lit "RandDec expects (Integer, Integer)"))
  end.

Definition rand_dec : Procedure := fun s args =>
  match rand_dec_args args with
  | Err e => failed s e
  | Ok (max_val, places) =>
      if places <? 0 then failed s (lr_err (lit "RandDec: DecimalPlaces must be ≥ 0"))
      else if 9 <? places then failed s (lr_err (lit "RandDec: DecimalPlaces must be ≤ 9"))
      else
        match checked_mul max_val (10 ^ places) with
        | None => failed s (lr_err (lit "RandDec: scaled MaxValue overflows Integer"))
        | Some scaled_max => drawn (fun raw => VDecimal (dec_new raw places)) (next_rand (Z.max scaled_max 1) s)
        end
  end.

Definition rand_text : Procedure := fun s args =>
  let run (max_len : Z) :=
    let '(n, s) := next_rand max_len s in
    let '(text, s) := draw_text (Z.to_nat n) draw_lower s in
    Some (s, Normal (VText text)) in
  match args with
  | [] => run 30
  | [VInteger n] | [VBigInteger n] => run (clamp n 1 250)
  | _ => failed s (lr_err (lit "RandText expects ([Integer])"))
  end.

Definition set_seed : Procedure := fun s args =>
  match args with
  | [VInteger n] | [VBigInteger n] => Some (set_lcg_seed (as_u64 n) s, Normal VEmpty)
  | [] => failed s (lr_err (lit "SetSeed requires 1 argument"))
  | _ => failed s (lr_err (lit "SetSeed expects (Integer)"))
  end.

Definition rand_date_from : Procedure := fun s args =>
  match args with
  | [VDate start; VInteger max_days] | [VDate start; VBigInteger max_days] =>
      if max_days <=? 0 then Some (s, Normal (VDate start))
      else
        match checked_add max_days 1 with
        | None => failed s (lr_err (lit "RandDateFrom: day range overflows Integer"))
        | Some range =>
            let '(n, s) := next_rand range s in
            match checked_add start (n - 1) with
            | None => failed s (lr_err (lit "RandDateFrom: resulting date is outside the supported range"))
            | Some date => Some (s, Normal (VDate date))
            end
        end
  | _ => failed s (lr_err (lit "RandDateFrom expects (Date, Integer)"))
  end.

Fixpoint find_procedure (name : str) (l : list (string * Procedure)) : option Procedure :=
  match l with
  | [] => None
  | (k, f) :: l => if str_is name k then Some f else find_procedure name l
  end.

Definition library_random : list (string * Procedure) := [
  ("randint", rand_int); ("randinginrange", rand_int_in_range); ("randintinrange", rand_int_in_range);
  ("randdec", rand_dec); ("randtext", rand_text); ("setseed", set_seed); ("randdatefrom", rand_date_from)]%string.

Definition library_random_resolve (procedure : str) : option Procedure :=
  find_procedure (to_ascii_lowercase procedure) library_random.

(** * Any *)

Definition MAX_TEXT_LENGTH : Z := 2048.

Definition any_err (message : str) : Eval :=
  Error {| message := lit "Any." ++ message; error_type := None; source := Some (lit "Any") |}.

Definition checked_text_length (procedure : str) (length : Z) : Res Eval nat :=
  if length <? 0 then Err (any_err (procedure ++ lit ": Length must be ≥ 0"))
  else if MAX_TEXT_LENGTH <? length then
    Err (any_err (procedure ++ lit ": Length " ++ i64_to_str length ++ lit " exceeds the "
                  ++ i64_to_str MAX_TEXT_LENGTH ++ lit "-character maximum"))
  else Ok (Z.to_nat length).

Definition boolean : Procedure := fun s args =>
  match args with
  | [] => let '(n, s) := next_rand 2 s in Some (s, Normal (VBoolean (n =? 2)))
  | _ => failed s (any_err (lit "Boolean expects no arguments"))
  end.

(** The span and the result of the two-argument form are not checked. *)
Definition integer_in_range : Procedure := fun s args =>
  match args with
  | [VInteger m] | [VBigInteger m] =>
      if m <? 1 then Some (s, Normal (VInteger 1)) else drawn VInteger (next_rand m s)
  | _ =>
      match int_pair args with
      | None => failed s (any_err (lit "IntegerInRange expects (Integer) or (Integer, Integer)"))
      | Some (a, b) =>
          if b <=? a then Some (s, Normal (VInteger a))
          else
            span ← (d ← checked_sub b a; checked_add d 1);
            let '(n, s) := next_rand span s in
            value ← (v ← checked_add a n; checked_sub v 1);
            Some (s, Normal (VInteger value))
      end
  end.

Definition numeric_bound (v : Value) : option decimal :=
  match v with
  | VInteger n | VBigInteger n => Some (dec_from n)
  | VDecimal d => Some d
  | _ => None
  end.

Context {DR : DecimalRounding}.

Definition decimal_in_range_impl (s : Random) (min max : decimal) (places : Z) : Drawn :=
  if places <? 0 then failed s (any_err (lit "DecimalInRange: DecimalPlaces must be ≥ 0"))
  else if 9 <? places then failed s (any_err (lit "DecimalInRange: DecimalPlaces must be ≤ 9"))
  else
    let too_large := failed s (any_err (lit "DecimalInRange: range too large for the requested DecimalPlaces")) in
    let pow := dec_from (10 ^ places) in
    match (v ← dec_checked_mul min pow; dec_to_i64 (dec_ceil v)),
          (v ← dec_checked_mul max pow; dec_to_i64 (dec_floor v)) with
    | Some min_scaled, Some max_scaled =>
        if max_scaled <=? min_scaled then Some (s, Normal (VDecimal (dec_new min_scaled places)))
        else
          match d ← checked_sub max_scaled min_scaled; checked_add d 1 with
          | None => too_large
          | Some span => drawn (fun raw => VDecimal (dec_new (min_scaled + raw - 1) places)) (next_rand span s)
          end
    | _, _ => too_large
    end.

Definition decimal_in_range : Procedure := fun s args =>
  let usage := failed s (any_err (lit "DecimalInRange expects (Num, Integer) or (Num, Num, Integer)")) in
  match args with
  | [max; places] =>
      match as_int places, numeric_bound max with
      | Some places, Some max => decimal_in_range_impl s dec_zero max places
      | _, _ => usage
      end
  | [min; max; places] =>
      match as_int places, numeric_bound min, numeric_bound max with
      | Some places, Some min, Some max => decimal_in_range_impl s min max places
      | _, _, _ => usage
      end
  | _ => usage
  end.

(** The three generators of a text of a given length. *)
Definition text_of (procedure : string) (draw : Random -> char * Random) : Procedure := fun s args =>
  match args with
  | [VInteger n] | [VBigInteger n] =>
      match checked_text_length (lit procedure) n with
      | Err e => failed s e
      | Ok length => let '(text, s) := draw_text length draw s in Some (s, Normal (VText text))
      end
  | _ => failed s (any_err (lit procedure ++ lit " expects (Integer)"))
  end.

Definition alphabetic_text : Procedure := text_of "AlphabeticText" draw_lower.
Definition alphanumeric_text : Procedure := text_of "AlphanumericText" draw_hex.
Definition unicode_text : Procedure := text_of "UnicodeText" (draw_code 1071 32 (ch "а")).

Definition email : Procedure := fun s args =>
  let run (local_len domain_len : Z) :=
    if (local_len <? 1) || (domain_len <? 1) then failed s (any_err (lit "Email: lengths must be ≥ 1"))
    else if (MAX_TEXT_LENGTH <? local_len) || (MAX_TEXT_LENGTH <? domain_len) then
      failed s (any_err (lit "Email: lengths must be ≤ " ++ i64_to_str MAX_TEXT_LENGTH))
    else
      let '(local, s) := draw_text (Z.to_nat local_len) draw_hex s in
      let '(domain, s) := draw_text (Z.to_nat domain_len) draw_lower s in
      let '(tld, s) := draw_text 3 draw_lower s in
      Some (s, Normal (VText (local ++ lit "@" ++ domain ++ lit "." ++ tld))) in
  match args with
  | [] => run 20 20
  | _ =>
      match int_pair args with
      | Some (l, d) => run l d
      | None => failed s (any_err (lit "Email expects () or (Integer, Integer)"))
      end
  end.

(** [format!("{:02X}")] of a byte. *)
Definition hex_digit (n : Z) : char := if n <? 10 then 48 + n else 55 + n.
Definition hex_byte (b : Z) : str := [hex_digit (b / 16); hex_digit (b mod 16)].

(** The GUID of sixteen random bytes, with its version and variant bits. *)
Definition guid_of (buf : list Z) : str :=
  let buf := <[6%nat := Z.lor (Z.land (default 0 (buf !! 6%nat)) 15) 64]> buf in
  let buf := <[8%nat := Z.lor (Z.land (default 0 (buf !! 8%nat)) 63) 128]> buf in
  let part (from len : nat) := take len (drop from buf) ≫= hex_byte in
  lit "{" ++ part 0%nat 4%nat ++ lit "-" ++ part 4%nat 2%nat ++ lit "-" ++ part 6%nat 2%nat ++ lit "-"
  ++ part 8%nat 2%nat ++ lit "-" ++ part 10%nat 6%nat ++ lit "}".

Definition guid_value (entropy : option (list Z)) : Procedure := fun s args =>
  match args with
  | [] =>
      match entropy with
      | None => failed s (any_err (lit "GuidValue: failed to obtain random bytes"))
      | Some buf => Some (s, Normal (VGuid (guid_of buf)))
      end
  | _ => failed s (any_err (lit "GuidValue expects no arguments"))
  end.

Definition install_seed (n : Z) (s : Random) : Random :=
  set_lcg_seed (as_u64 n) {| lcg_state := lcg_state s; seed := n |}.

Definition any_set_seed : Procedure := fun s args =>
  match args with
  | [VInteger n] | [VBigInteger n] => Some (install_seed n s, Normal VEmpty)
  | [] => failed s (any_err (lit "SetSeed requires 1 argument"))
  | _ => failed s (any_err (lit "SetSeed expects (Integer)"))
  end.

Definition get_seed : Procedure := fun s args =>
  match args with
  | [] => Some (s, Normal (VInteger (seed s)))
  | _ => failed s (any_err (lit "GetSeed expects no arguments"))
  end.

Definition set_default_seed (clock_time : Z) : Procedure := fun s args =>
  match args with
  | [] => Some (install_seed clock_time s, Normal VEmpty)
  | _ => failed s (any_err (lit "SetDefaultSeed expects no arguments"))
  end.

Definition any (entropy : option (list Z)) (clock_time : Z) : list (string * Procedure) := [
  ("boolean", boolean); ("integerinrange", integer_in_range); ("decimalinrange", decimal_in_range);
  ("alphabetictext", alphabetic_text); ("alphanumerictext", alphanumeric_text); ("unicodetext", unicode_text);
  ("email", email); ("guidvalue", guid_value entropy); ("setseed", any_set_seed); ("getseed", get_seed);
  ("setdefaultseed", set_default_seed clock_time)]%string.

Definition any_resolve (entropy : option (list Z)) (clock_time : Z) (procedure : str) : option Procedure :=
  find_procedure (to_ascii_lowercase procedure) (any entropy clock_time).

(** * RANDOM and RANDOMIZE *)

Definition DEFAULT_RANDOM_SEED : Z := 1.
Definition LCG_MULTIPLIER : Z := 6364136223846793005.
Definition LCG_INCREMENT : Z := 1442695040888963407.

Definition lcg_step (random_state : Z) : Z * Z :=
  let next := wrapping_add (wrapping_mul random_state LCG_MULTIPLIER) LCG_INCREMENT in
  (Z.shiftr next 33, next).

Definition next_random (random_state : Z) : Z * Z :=
  let '(hi, random_state) := lcg_step random_state in
  let '(lo, random_state) := lcg_step random_state in
  (Z.lor (Z.shiftl hi 31) lo, random_state).

Definition builtin_random (args : list Value) (random_state : Z) : Z * Eval :=
  match args with
  | [VInteger n] =>
      if n <? 1 then (random_state, eval_error (lit "Random: the maximum must be >= 1"))
      else
        let '(r, random_state) := next_random random_state in
        (random_state, Normal (VInteger (Z.rem r n + 1)))
  | _ => (random_state, eval_error (lit "Random expects exactly 1 Integer argument"))
  end.

Definition builtin_randomize (args : list Value) (random_state : Z) : Z * Eval :=
  match args with
  | [] => (DEFAULT_RANDOM_SEED, Normal VEmpty)
  | [VInteger n] | [VBigInteger n] => (as_u64 n, Normal VEmpty)
  | _ => (random_state, eval_error (lit "Randomize expects at most 1 Integer argument"))
  end.
End random.

(** The first draws from the default state. *)
Example first_draw : (next_rand 100 initial_random).1 = 42.
Proof. vm_compute. reflexivity. Qed.

(** [Any.IntegerInRange] over the whole of [i64] overflows; [RandIntInRange]
    reports it. *)
Example any_range_overflows {D : Decimal} :
  integer_in_range initial_random [VBigInteger i64_min; VBigInteger i64_max] = None /\
  rand_int_in_range initial_random [VBigInteger i64_min; VBigInteger i64_max] =
    Some (initial_random, lr_err (lit "RandIntInRange: range width overflows Integer")).
Proof. done. Qed.

(** * What the draws promise *)

Definition word (z : Z) : Prop := 0 <= z < u64_modulus.
Definition random_wf (s : Random) : Prop := word (lcg_state s).

Lemma wrapping_word a b : word (wrapping_add a b).
Proof. apply Z.mod_pos_bound. reflexivity. Qed.

Lemma with_lcg_wf s n : word n -> random_wf (with_lcg s n).
Proof. done. Qed.

Lemma set_lcg_seed_wf n s : word n -> random_wf (set_lcg_seed n s).
Proof. intros H. unfold random_wf, set_lcg_seed, with_lcg, word, u64_modulus in *. cbn [lcg_state]. lia. Qed.

Lemma as_u64_word n : word (as_u64 n).
Proof. apply Z.mod_pos_bound. reflexivity. Qed.

#[export] Hint Resolve wrapping_word with_lcg_wf set_lcg_seed_wf as_u64_word : rt.

(** ** One draw *)

(** The draw has 15 bits, so it is at most 32768 whatever the maximum. *)
Lemma next_rand_range max s :
  random_wf s -> let '(n, s') := next_rand max s in
  1 <= n <= Z.max 1 (Z.min max 32768) /\ random_wf s' /\ seed s' = seed s.
Proof.
  intros Hs. unfold next_rand. destruct (Z.leb_spec max 1); [split_and!; [lia|lia|done|done]|].
  set (r := Z.land _ 32767). split_and!; auto with rt.
  - assert (0 <= r) by (apply Z.land_nonneg; right; lia).
    pose proof (Z.rem_nonneg r max ltac:(lia) ltac:(lia)). lia.
  - assert (0 <= r <= 32767) as Hr.
    { subst r. change 32767 with (Z.ones 15) at 1 2. rewrite Z.land_ones by lia.
      pose proof (Z.mod_pos_bound (Z.shiftr (wrapping_add (wrapping_mul (lcg_state s) 214013) 2531011) 16) (2 ^ 15) ltac:(lia)).
      lia. }
    rewrite Z.rem_mod_nonneg by lia.
    pose proof (Z.mod_pos_bound r max ltac:(lia)). pose proof (Z.mod_le r max ltac:(lia) ltac:(lia)). lia.
Qed.

(** The state of a draw, for a goal that holds the draw. *)
Ltac draws max s :=
  pose proof (next_rand_range max s ltac:(assumption)); destruct (next_rand max s) as [? ?]; destruct_and!.

(** A text of [n] characters that satisfy [P]. *)
Definition text_like (P : char -> Prop) (n : nat) (t : str) : Prop := length t = n /\ Forall P t.

Lemma draw_text_like (P : char -> Prop) draw n s :
  (forall s, random_wf s -> let '(c, s') := draw s in P c /\ random_wf s') ->
  random_wf s -> let '(t, s') := draw_text n draw s in text_like P n t /\ random_wf s'.
Proof.
  intros Hd. revert s. induction n as [|n IH]; intros s Hs; cbn [draw_text]; [done|].
  specialize (Hd s Hs). destruct (draw s) as [c s1]. destruct Hd as [Hc H1].
  specialize (IH s1 H1). destruct (draw_text n draw s1) as [t s2]. destruct IH as [[Hl Ht] H2].
  split; [|done]. split; [simpl; congruence|by constructor].
Qed.

Definition lower (c : char) : Prop := 97 <= c <= 122.
Definition hex (c : char) : Prop := 48 <= c <= 57 \/ 97 <= c <= 102.
Definition cyrillic (c : char) : Prop := 1072 <= c <= 1103.

(** Characters below the surrogates. *)
Lemma draw_code_range base span otherwise s :
  0 <= base -> 1 <= span -> base + span < 55296 -> random_wf s ->
  let '(c, s') := draw_code base span otherwise s in base + 1 <= c <= base + span /\ random_wf s'.
Proof.
  intros Hb Hn Hc Hs. unfold draw_code. draws span s.
  unfold char_from_u32. rewrite (proj2 (Z.leb_le 0 _)), (proj2 (Z.ltb_lt _ 55296)) by lia. simpl. split; [lia|done].
Qed.

Lemma draw_lower_ok s : random_wf s -> let '(c, s') := draw_lower s in lower c /\ random_wf s'.
Proof. intros Hs. pose proof (draw_code_range 96 26 97 s ltac:(lia) ltac:(lia) ltac:(lia) Hs) as H. exact H. Qed.

Lemma draw_unicode_ok s : random_wf s -> let '(c, s') := draw_code 1071 32 1072 s in cyrillic c /\ random_wf s'.
Proof. intros Hs. exact (draw_code_range 1071 32 1072 s ltac:(lia) ltac:(lia) ltac:(lia) Hs). Qed.

Lemma draw_hex_ok s : random_wf s -> let '(c, s') := draw_hex s in hex c /\ random_wf s'.
Proof.
  intros Hs. unfold draw_hex. draws 16 s. split; [|done].
  assert (Forall hex HEX) as Hh by (change HEX with [48;49;50;51;52;53;54;55;56;57;97;98;99;100;101;102];
    unfold hex; repeat constructor; lia).
  destruct (lookup_lt_is_Some_2 HEX (Z.to_nat (z - 1))) as [c Hc]; [change (length HEX) with 16%nat; lia|].
  rewrite Hc. simpl. by eapply Forall_lookup_1.
Qed.

Section spec.
Context {D : Decimal} {DR : DecimalRounding}.

(** * Results *)

(** A value that satisfies [P], and a state that is a machine word. *)
Definition yields (r : Drawn) (P : Value -> Prop) : Prop :=
  exists s v, r = Some (s, Normal v) /\ random_wf s /\ P v.

(** An error, with the state as it was. *)
Definition refuses (r : Drawn) (s : Random) : Prop := exists e, r = Some (s, e) /\ is_error e = true.

Definition integer_between (a b : Z) (v : Value) : Prop := exists n, v = VInteger n /\ a <= n <= b.
Definition date_between (a b : Z) (v : Value) : Prop := exists n, v = VDate n /\ a <= n <= b.
Definition text_of_length (P : char -> Prop) (a b : Z) (v : Value) : Prop :=
  exists t n, v = VText t /\ text_like P n t /\ a <= Z.of_nat n <= b.

Lemma draw_text_yields P draw n s :
  (forall s, random_wf s -> let '(c, s') := draw s in P c /\ random_wf s') -> random_wf s -> 0 <= n ->
  yields (let '(text, s) := draw_text (Z.to_nat n) draw s in Some (s, Normal (VText text))) (text_of_length P n n).
Proof.
  intros Hd Hs Hn. pose proof (draw_text_like P draw (Z.to_nat n) s Hd Hs) as H.
  destruct (draw_text _ _ _) as [t s']. destruct H as [Ht H']. exists s', (VText t). split_and!; [done|done|].
  exists t, (Z.to_nat n). split_and!; [done|done|lia|lia].
Qed.

Lemma text_of_yields P procedure draw n s :
  (forall s, random_wf s -> let '(c, s') := draw s in P c /\ random_wf s') -> random_wf s ->
  if decide (0 <= n <= MAX_TEXT_LENGTH) then yields (text_of procedure draw s [VInteger n]) (text_of_length P n n)
  else refuses (text_of procedure draw s [VInteger n]) s.
Proof.
  intros Hd Hs. unfold text_of, checked_text_length. destruct (Z.ltb_spec n 0).
  - rewrite decide_False by lia. by eexists.
  - destruct (Z.ltb_spec MAX_TEXT_LENGTH n).
    + rewrite decide_False by lia. by eexists.
    + rewrite decide_True by lia. by apply draw_text_yields.
Qed.

Lemma width_overflow a b :
  i64_min <= a -> a < b -> b <= i64_max ->
  (d ← checked_sub b a; checked_add d 1) = if decide (b - a < i64_max) then Some (b - a + 1) else None.
Proof.
  intros Ha Hab Hb. unfold checked_sub, checked_add. case_decide.
  - rewrite (proj2 (checked_i64_Some (b - a) (b - a))) by (split; [done|unfold_ints; lia]). simpl.
    apply checked_i64_Some. split; [done|unfold_ints; lia].
  - destruct (checked_i64 (b - a)) as [d|] eqn:E; [|done]. apply checked_i64_Some in E as [-> ?]. simpl.
    apply checked_i64_None. unfold_ints. lia.
Qed.

Lemma integer_between_draw max s :
  random_wf s -> yields (if max <? 1 then Some (s, Normal (VInteger 1)) else drawn VInteger (next_rand max s))
    (integer_between 1 (Z.max 1 max)).
Proof.
  intros Hs. destruct (Z.ltb_spec max 1).
  - eexists _, _. split_and!; [done|done|]. exists 1. split; [done|lia].
  - draws max s. eexists _, _. split_and!; [done|done|]. eexists. split; [done|cbn [fst]; lia].
Qed.

Lemma range_draws a b s :
  random_wf s -> i64_min <= a <= i64_max -> i64_min <= b <= i64_max ->
  if decide (b - a < i64_max) then
    yields (rand_int_in_range s [VInteger a; VInteger b]) (integer_between a (Z.max a b)) /\
    (b < i64_max -> yields (integer_in_range s [VInteger a; VInteger b]) (integer_between a (Z.max a b)))
  else refuses (rand_int_in_range s [VInteger a; VInteger b]) s /\
    integer_in_range s [VInteger a; VInteger b] = None.
Proof.
  intros Hs Ha Hb. unfold rand_int_in_range, integer_in_range. cbn [int_pair].
  destruct (Z.leb_spec b a).
  - rewrite decide_True by (unfold_ints; lia).
    split; [|intros _]; (eexists _, _; split_and!; [done|done|exists a; split; [done|lia]]).
  - rewrite width_overflow by lia. case_decide as Hw; [|by split; [eexists|]].
    cbn [mbind option_bind]. draws (b - a + 1) s.
    assert (forall x y, i64_min <= x + y <= i64_max -> checked_add x y = Some (x + y)) as Hadd
      by (intros; by apply checked_i64_Some).
    split; [|intros Hb'].
    + rewrite Hadd by lia. eexists _, _. split_and!; [done|done|]. eexists. split; [done|lia].
    + rewrite Hadd by lia. cbn [mbind option_bind].
      assert (checked_sub (a + z) 1 = Some (a + z - 1)) as -> by (apply checked_i64_Some; split; [done|lia]).
      eexists _, _. split_and!; [done|done|]. eexists. split; [done|lia].
Qed.

Lemma date_draws d n s :
  random_wf s -> i64_min <= d -> n < i64_max -> d + n <= i64_max ->
  yields (rand_date_from s [VDate d; VInteger n]) (date_between d (Z.max d (d + n))).
Proof.
  intros Hs Hd Hn Hdn. unfold rand_date_from. destruct (Z.leb_spec n 0).
  - eexists _, _. split_and!; [done|done|]. exists d. split; [done|lia].
  - unfold checked_add at 1. rewrite (proj2 (checked_i64_Some (n + 1) _)) by (split; [done|unfold_ints; lia]).
    draws (n + 1) s. unfold checked_add. rewrite (proj2 (checked_i64_Some (d + (z - 1)) _)) by (split; [done|lia]).
    eexists _, _. split_and!; [done|done|]. eexists. split; [done|lia].
Qed.

Lemma rand_text_draws n s :
  random_wf s -> yields (rand_text s [VInteger n]) (text_of_length lower 1 (clamp n 1 250)).
Proof.
  intros Hs. unfold rand_text. pose proof (clamp_bounds n 1 250 ltac:(lia)). draws (clamp n 1 250) s.
  pose proof (draw_text_like lower draw_lower (Z.to_nat z) r draw_lower_ok ltac:(done)) as Ht.
  destruct (draw_text _ _ _) as [t s']. destruct Ht as [Ht Hs']. eexists _, _. split_and!; [done|done|].
  exists t, (Z.to_nat z). split_and!; [done|done|lia|lia].
Qed.

Lemma next_random_word state :
  word state -> let '(r, state') := next_random state in 0 <= r /\ word state'.
Proof.
  intros Hw. unfold next_random, lcg_step.
  set (s1 := wrapping_add _ _). set (s2 := wrapping_add _ _). split; [|apply wrapping_word].
  pose proof (wrapping_word (wrapping_mul state LCG_MULTIPLIER) LCG_INCREMENT) as H1.
  pose proof (wrapping_word (wrapping_mul s1 LCG_MULTIPLIER) LCG_INCREMENT) as H2. fold s1 in H1. fold s2 in H2.
  apply Z.lor_nonneg. unfold word in *. rewrite Z.shiftl_nonneg, !Z.shiftr_nonneg. lia.
Qed.

Lemma builtin_random_range n state :
  1 <= n -> word state ->
  let '(state', r) := builtin_random [VInteger n] state in
  word state' /\ exists v, r = Normal v /\ integer_between 1 n v.
Proof.
  intros Hn Hw. unfold builtin_random. destruct (Z.ltb_spec n 1); [lia|].
  pose proof (next_random_word state Hw) as H1. destruct (next_random state) as [r state'].
  destruct H1 as [Hr H1]. split; [done|]. eexists. split; [done|]. eexists. split; [done|].
  rewrite Z.rem_mod_nonneg by lia. pose proof (Z.mod_pos_bound r n ltac:(lia)). lia.
Qed.

(** Random values lie in the range asked for.  From every state: RandInt
    and the one-argument IntegerInRange give a number from 1 to the maximum, or
    1; the two-argument forms a number between the bounds, the lower one when
    they are in the wrong order, and RandIntInRange refuses, and IntegerInRange
    overflows, exactly when the range is wider than an [i64]; RandDateFrom a
    date among the days asked for; the texts have exactly the length asked for,
    within 2048, and only the letters of their alphabet; and RANDOM a number
    from 1 to its argument. *)
Lemma random_draws_in_range s :
  random_wf s ->
  (forall n, yields (rand_int s [VInteger n]) (integer_between 1 (Z.max 1 n))) /\
  (forall n, yields (integer_in_range s [VInteger n]) (integer_between 1 (Z.max 1 n))) /\
  (forall a b, i64_min <= a <= i64_max -> i64_min <= b <= i64_max ->
     if decide (b - a < i64_max) then
       yields (rand_int_in_range s [VInteger a; VInteger b]) (integer_between a (Z.max a b)) /\
       (b < i64_max -> yields (integer_in_range s [VInteger a; VInteger b]) (integer_between a (Z.max a b)))
     else refuses (rand_int_in_range s [VInteger a; VInteger b]) s /\
       integer_in_range s [VInteger a; VInteger b] = None) /\
  (forall d n, i64_min <= d -> n < i64_max -> d + n <= i64_max ->
     yields (rand_date_from s [VDate d; VInteger n]) (date_between d (Z.max d (d + n)))) /\
  (forall n, yields (rand_text s [VInteger n]) (text_of_length lower 1 (clamp n 1 250))) /\
  (forall n, 0 <= n <= MAX_TEXT_LENGTH ->
     yields (alphabetic_text s [VInteger n]) (text_of_length lower n n) /\
     yields (alphanumeric_text s [VInteger n]) (text_of_length hex n n) /\
     yields (unicode_text s [VInteger n]) (text_of_length cyrillic n n)) /\
  (forall n state, 1 <= n -> word state ->
     let '(state', r) := builtin_random [VInteger n] state in
     word state' /\ exists v, r = Normal v /\ integer_between 1 n v).
Proof.
  intros Hs. split_and!.
  - intros n. by apply integer_between_draw.
  - intros n. by apply integer_between_draw.
  - intros a b Ha Hb. apply range_draws; done.
  - intros d n Hd Hn Hdn. by apply date_draws.
  - intros n. by apply rand_text_draws.
  - intros n Hn. assert (forall P p d, (forall s, random_wf s -> let '(c, s') := d s in P c /\ random_wf s') ->
      yields (text_of p d s [VInteger n]) (text_of_length P n n)) as H.
    { intros P p d H. pose proof (text_of_yields P p d n s H Hs) as Ht. by rewrite decide_True in Ht. }
    split_and!; apply H; [apply draw_lower_ok|apply draw_hex_ok|apply draw_unicode_ok].
  - intros n state Hn Hw. by apply builtin_random_range.
Qed.
End spec.

(** * The theorem evaluated *)

#[local] Existing Instance mini_decimal.

#[local] Instance whole_rounding : DecimalRounding := {| dec_ceil d := d; dec_floor d := d |}.
