(* ===== verification/Texts.v ===== *)
(** The Text and Code builtins ([interpreter/dispatch/text.rs]): length,
    substring, case, search, padding and Evaluate. *)

From Stdlib Require Import ZArith Lia.
From stdpp Require Import base tactics numbers option list gmap strings.
From S2P Require Import Prelude RustStr StrSearch Decimals Values Slots.

#[local] Open Scope Z_scope.
#[local] Open Scope rust_scope.

(** [chars().count()]. *)
Definition char_count (s : str) : Z := Z.of_nat (length s).

(** [chars().take(n)] for a count of any size. *)
Definition take_chars (n : Z) (s : str) : str := take (Z.to_nat (Z.min n (char_count s))) s.

(** [repeat_n(c, n)]. *)
Definition repeat_char (c : char) (n : Z) : str := replicate (Z.to_nat n) c.

Section texts.
Context {D : Decimal} {U : Unicode}.

(** The text of a [Text | Code] pattern. *)
Definition text_or_code (v : Value) : option str :=
  match v with VText s | VCode s => Some s | _ => None end.

Definition expects (builtin : string) (v : Value) : Eval :=
  eval_error (lit builtin ++ lit " expects Text or Code, got " ++ type_name v).
Definition one_argument (builtin : string) : Eval := eval_error (lit builtin ++ lit " expects exactly 1 argument").

Definition builtin_strlen (args : list Value) : Eval :=
  match args with
  | [VText s] | [VCode s] => Normal (VInteger (char_count s))
  | [v] => expects "StrLen" v
  | _ => one_argument "StrLen"
  end.

Definition builtin_copystr (args : list Value) : Eval :=
  match args with
  | [VText s; VInteger pos] | [VCode s; VInteger pos] | [VText s; VInteger pos; _] | [VCode s; VInteger pos; _] =>
      let len := match args !! 2%nat with
                 | Some (VInteger n) =>
                     if n <? 0 then Err (eval_error (lit "CopyStr: len must be >= 0, got " ++ i64_to_str n)) else Ok n
                 | None => Ok (char_count s)
                 | Some v => Err (eval_error (lit "CopyStr: len must be Integer, got " ++ type_name v))
                 end in
      match len with
      | Err e => e
      | Ok len =>
          if pos <=? 0 then eval_error (lit "CopyStr: position must be >= 1")
          else if char_count s <? pos then Normal (VText [])
          else
            let start := pos - 1 in
            let end_ := Z.min (start + len) (char_count s) in
            Normal (VText (take (Z.to_nat (end_ - start)) (drop (Z.to_nat start) s)))
      end
  | _ => eval_error (lit "CopyStr expects (Text, Integer[, Integer])")
  end.

Definition builtin_lowercase (args : list Value) : Eval :=
  match args with
  | [VText s] | [VCode s] => Normal (VText (str_lower s))
  | [v] => expects "LowerCase" v
  | _ => one_argument "LowerCase"
  end.

Definition builtin_uppercase (args : list Value) : Eval :=
  match args with
  | [VText s] => Normal (VText (to_uppercase s))
  | [VCode s] => Normal (VCode (to_uppercase s))
  | [v] => expects "UpperCase" v
  | _ => one_argument "UpperCase"
  end.

(** The 1-based position of the first occurrence, in characters. *)
Definition position_of (s needle : str) : Z :=
  match needle with
  | [] => 0
  | _ => match find_str needle s with Some (before, _) => char_count before + 1 | None => 0 end
  end.

Definition builtin_indexof (args : list Value) : Eval :=
  match args with
  | [VText s; VText n] | [VCode s; VText n] | [VText s; VCode n] | [VCode s; VCode n] =>
      Normal (VInteger (position_of s n))
  | _ => eval_error (lit "IndexOf expects (Text, Text)")
  end.

Definition builtin_maxstrlen (args : list Value) : Eval :=
  match args with
  | [VText _] | [VCode _] =>
      eval_error (lit "MaxStrLen is unavailable because the interpreter does not retain declared text lengths")
  | [v] => expects "MaxStrLen" v
  | _ => one_argument "MaxStrLen"
  end.

Definition builtin_strpos (args : list Value) : Eval :=
  match args with
  | [a; b] =>
      match text_or_code a, text_or_code b with
      | Some s, Some needle => Normal (VInteger (position_of s needle))
      | _, _ => eval_error (lit "StrPos expects (Text, Text)")
      end
  | _ => eval_error (lit "StrPos expects (Text, Text)")
  end.

(** An optional argument that must be a text. *)
Definition text_argument (arg : option Value) (otherwise : str) (wrong : string) : Res Eval str :=
  match arg with
  | None => Ok otherwise
  | Some (VText w) | Some (VCode w) => Ok w
  | Some v => Err (eval_error (lit wrong ++ type_name v))
  end.

Definition delchr (s where_ which : str) : Eval :=
  match find_char (fun c => negb ((c =? ch "<") || (c =? ch ">") || (c =? ch "="))) where_ with
  | Some i =>
      eval_error (lit "DelChr: where must contain only '<', '>' or '=', got '"
                  ++ option_list (where_ !! i) ++ lit "'")
  | None =>
      let in_set c := contains_char c which in
      if contains_char (ch "=") where_ then Normal (VText (filter (fun c => Is_true (negb (in_set c))) s))
      else
        let result := if contains_char (ch "<") where_ then trim_start_matches in_set s else s in
        let result := if contains_char (ch ">") where_ then trim_end_matches in_set result else result in
        Normal (VText result)
  end.

Definition builtin_delchr (args : list Value) : Eval :=
  match args with
  | VText s :: _ | VCode s :: _ =>
      if (3 <? length args)%nat then eval_error (lit "DelChr expects 1 to 3 arguments")
      else
        match where_ <-? text_argument (args !! 1%nat) (lit "<") "DelChr: where must be Text, got " ;
              which <-? text_argument (args !! 2%nat) (lit " ") "DelChr: which must be Text, got " ;
              Ok (where_, which) with
        | Err e => e
        | Ok (where_, which) => delchr s where_ which
        end
  | v :: _ => eval_error (lit "DelChr expects Text, got " ++ type_name v)
  | [] => eval_error (lit "DelChr expects 1 to 3 arguments")
  end.

(** [to[i]] for the first [i] with [from[i] = c], otherwise [c]. *)
Definition convert_char (from to : str) (c : char) : char :=
  match find_char (Z.eqb c) from with
  | Some i => default c (to !! i)
  | None => c
  end.

Definition builtin_convertstr (args : list Value) : Eval :=
  let usage := eval_error (lit "ConvertStr expects (Text, Text, Text)") in
  match args with
  | [a; b; c] =>
      match text_or_code a, text_or_code b, text_or_code c with
      | Some s, Some from, Some to =>
          if negb (length from =? length to)%nat then
            eval_error (lit "ConvertStr: FromCharacters and ToCharacters must have the same length")
          else Normal (VText (convert_char from to <$> s))
      | _, _, _ => usage
      end
  | _ => usage
  end.

Definition pad_fill (arg : option Value) : Res Eval char :=
  match arg with
  | None => Ok (ch " ")
  | Some (VText f) | Some (VCode f) =>
      match f with
      | c :: _ => Ok c
      | [] => Err (eval_error (lit "PadStr: fill character cannot be empty"))
      end
  | Some v => Err (eval_error (lit "PadStr: fill character must be Text, got " ++ type_name v))
  end.

(** [usize::saturating_mul]. *)
Definition saturating_mul (a b : Z) : Z := Z.min (a * b) usize_max.

Definition builtin_padstr (args : list Value) : Eval :=
  match args with
  | [VText s; VInteger n] | [VCode s; VInteger n] | [VText s; VInteger n; _] | [VCode s; VInteger n; _] =>
      if n <? 0 then eval_error (lit "PadStr: length must be >= 0")
      else
        match pad_fill (args !! 2%nat) with
        | Err e => e
        | Ok fill =>
            let missing := saturating_sub n (char_count s) in
            let size := saturating_add (saturating_mul missing (len_utf8 fill)) (str_len s) in
            match check_text_size (lit "PadStr") size with
            | Err message => eval_error message
            | Ok _ =>
                if missing =? 0 then Normal (VText (take_chars n s))
                else Normal (VText (s ++ repeat_char fill missing))
            end
        end
  | _ => eval_error (lit "PadStr expects (Text, Integer[, Text])")
  end.

Definition builtin_selectstr (args : list Value) : Eval :=
  match args with
  | [VInteger index; VText list] | [VInteger index; VCode list] =>
      if index <? 1 then eval_error (lit "SelectStr: index must be >= 1")
      else
        match split_char (ch ",") list !! Z.to_nat (index - 1) with
        | Some part => Normal (VText part)
        | None =>
            eval_error (lit "SelectStr: index " ++ i64_to_str index
                        ++ lit " is beyond the number of elements in '" ++ list ++ lit "'")
        end
  | _ => eval_error (lit "SelectStr expects (Integer, Text)")
  end.

(** [chars[i].is_ascii_digit()]. *)
Definition digit_at (chars : str) (i : nat) : bool :=
  match chars !! i with Some c => is_ascii_digit c | None => false end.

(** The two loops of [IncStr], from the right. *)
Fixpoint digits_end (chars : str) (i : nat) : option nat :=
  match i with
  | O => None
  | S i => if digit_at chars i then Some (S i) else digits_end chars i
  end.
Fixpoint digits_start (chars : str) (start : nat) : nat :=
  match start with
  | O => O
  | S p => if digit_at chars p then digits_start chars p else start
  end.

Definition incstr (s : str) : Eval :=
  match digits_end s (length s) with
  | None => Normal (VText [])
  | Some end_ =>
      let start := digits_start s end_ in
      let digits := take (end_ - start) (drop start s) in
      let width := length digits in
      match n ← parse_usize digits; if n + 1 <=? usize_max then Some (n + 1) else None with
      | None => eval_error (lit "IncStr: number '" ++ digits ++ lit "' is out of range")
      | Some number => Normal (VText (take start s ++ pad_zeros width (u64_to_str number) ++ drop end_ s))
      end
  end.

Definition builtin_incstr (args : list Value) : Eval :=
  match args with
  | [VText s] | [VCode s] => incstr s
  | _ => eval_error (lit "IncStr expects exactly 1 Text argument")
  end.

Definition delstr (s : str) (pos : Z) (len : option Value) (mk : str -> Value) : Eval :=
  if pos <? 1 then eval_error (lit "DelStr: position must be >= 1")
  else
    let start := Z.min (pos - 1) (char_count s) in
    let end_ := match len with
                | None => Ok (char_count s)
                | Some (VInteger len) =>
                    if 0 <=? len then Ok (Z.min (saturating_add start len) (char_count s))
                    else Err (eval_error (lit "DelStr: length must be a non-negative Integer"))
                | Some _ => Err (eval_error (lit "DelStr: length must be a non-negative Integer"))
                end in
    match end_ with
    | Err e => e
    | Ok end_ => Normal (mk (take (Z.to_nat start) s ++ drop (Z.to_nat end_) s))
    end.

Definition builtin_delstr (args : list Value) : Eval :=
  let usage := eval_error (lit "DelStr expects (Text, Integer[, Integer])") in
  match args with
  | VText s :: VInteger pos :: _ => if (length args <=? 3)%nat then delstr s pos (args !! 2%nat) VText else usage
  | VCode s :: VInteger pos :: _ => if (length args <=? 3)%nat then delstr s pos (args !! 2%nat) VCode else usage
  | _ => usage
  end.

(** The parsed value of the target's type. *)
Definition evaluate (target : Value) (raw : str) : Res str (option Value) :=
  let text := trim raw in
  let number := filter (fun c => c <> ch ",") text in
  match target with
  | VInteger _ => Ok (VInteger <$> parse_i64 number)
  | VBigInteger _ => Ok (VBigInteger <$> parse_i64 (trim_end_matches (fun c => (c =? ch "l") || (c =? ch "L")) number))
  | VDecimal _ => Ok (VDecimal <$> dec_parse number)
  | VBoolean _ =>
      let word := to_ascii_lowercase text in
      Ok (if str_is word "true" || str_is word "yes" || str_is word "1" then Some (VBoolean true)
          else if str_is word "false" || str_is word "no" || str_is word "0" then Some (VBoolean false)
          else None)
  | VText _ => Ok (Some (VText raw))
  | VCode _ => Ok (Some (VCode (to_uppercase text)))
  | other => Err (lit "Evaluate into " ++ type_name other ++ lit " is not supported by the local runtime")
  end.

Definition builtin_evaluate (args : list Value) : Res str (bool * option Value) :=
  match args with
  | [target; VText raw] | [target; VCode raw] =>
      parsed <-? evaluate target raw ; Ok (bool_decide (is_Some parsed), parsed)
  | [_; other] => Err (lit "Evaluate expects Text as its second argument, got " ++ type_name other)
  | _ => Err (lit "Evaluate expects (var Variable, Text)")
  end.
End texts.
