(* ===== verification/TextSpec.v ===== *)
(** What the text builtins of [Texts.v] promise. *)

From Stdlib Require Import ZArith Lia.
From stdpp Require Import base tactics numbers option list gmap strings.
From S2P Require Import Prelude RustStr StrSearch Decimals Values Slots Renders Texts.

#[local] Open Scope Z_scope.
#[local] Open Scope rust_scope.

Lemma char_count_nonneg s : 0 <= char_count s.
Proof. unfold char_count. lia. Qed.

Section spec.
Context {D : Decimal} {U : Unicode}.

(** * Substrings *)

(** The characters CopyStr takes, and the ones before and after them. *)
Definition slice (s : str) (pos len : Z) : str := take (Z.to_nat len) (drop (Z.to_nat (pos - 1)) s).

Lemma take_min_length {A} (n : Z) (l : list A) :
  0 <= n -> take (Z.to_nat (Z.min n (Z.of_nat (length l)))) l = take (Z.to_nat n) l.
Proof.
  intros Hn. destruct (Z.min_spec n (Z.of_nat (length l))) as [[? ->]|[? ->]]; [done|].
  rewrite Nat2Z.id, !take_ge by lia. done.
Qed.

Lemma copystr_slice s pos len :
  1 <= pos -> 0 <= len -> builtin_copystr [VText s; VInteger pos; VInteger len] = Normal (VText (slice s pos len)).
Proof.
  intros Hp Hl. simpl. destruct (Z.ltb_spec len 0); [lia|]. destruct (Z.leb_spec pos 0); [lia|].
  unfold slice, char_count. destruct (Z.ltb_spec (Z.of_nat (length s)) pos).
  - rewrite drop_ge by lia. by rewrite take_nil.
  - rewrite <- (take_min_length len) by lia. rewrite length_drop. do 3 f_equal. lia.
Qed.

Lemma slice_split s pos len :
  1 <= pos -> 0 <= len ->
  s = take (Z.to_nat (pos - 1)) s ++ slice s pos len ++ drop (Z.to_nat (pos - 1 + len)) s.
Proof.
  intros Hp Hl. unfold slice. replace (Z.to_nat (pos - 1 + len)) with (Z.to_nat (pos - 1) + Z.to_nat len)%nat by lia.
  rewrite <- drop_drop. by rewrite take_drop, take_drop.
Qed.

Lemma drop_min_length {A} (n : Z) (l : list A) :
  0 <= n -> drop (Z.to_nat (Z.min n (Z.of_nat (length l)))) l = drop (Z.to_nat n) l.
Proof.
  intros Hn. destruct (Z.min_spec n (Z.of_nat (length l))) as [[? ->]|[? ->]]; [done|].
  rewrite Nat2Z.id, !drop_ge by lia. done.
Qed.

Lemma delstr_keeps s pos len :
  1 <= pos -> 0 <= len -> char_count s + len <= usize_max ->
  builtin_delstr [VText s; VInteger pos; VInteger len] =
    Normal (VText (take (Z.to_nat (pos - 1)) s ++ drop (Z.to_nat (pos - 1 + len)) s)).
Proof.
  intros Hp Hl Hs. simpl. unfold delstr, char_count in *. destruct (Z.ltb_spec pos 1); [lia|]. simpl.
  destruct (Z.leb_spec 0 len); [|lia]. rewrite take_min_length by lia. do 3 f_equal.
  unfold saturating_add. rewrite (Z.min_l (_ + len)) by lia. rewrite drop_min_length by lia.
  destruct (Z.min_spec (pos - 1) (Z.of_nat (length s))) as [[? ->]|[? ->]]; [done|].
  rewrite !drop_ge by lia. done.
Qed.

(** CopyStr and DelStr cut a text at the same places: what CopyStr takes
    and what DelStr leaves of it are the text, for every position from 1 and
    every length from 0, past its end too; without a length both reach to the
    end; a position below 1 or a negative length is an error of both. *)
Lemma copystr_delstr_partition s pos len :
  char_count s <= i64_max -> len <= i64_max ->
  if decide (1 <= pos /\ 0 <= len) then
    exists before taken after, s = before ++ taken ++ after /\
      char_count before = Z.min (pos - 1) (char_count s) /\
      char_count taken = Z.min len (char_count s - char_count before) /\
      builtin_copystr [VText s; VInteger pos; VInteger len] = Normal (VText taken) /\
      builtin_delstr [VText s; VInteger pos; VInteger len] = Normal (VText (before ++ after)) /\
      builtin_copystr [VText s; VInteger pos] = Normal (VText (taken ++ after)) /\
      builtin_delstr [VText s; VInteger pos] = Normal (VText before)
  else
    is_error (builtin_copystr [VText s; VInteger pos; VInteger len]) = true /\
    is_error (builtin_delstr [VText s; VInteger pos; VInteger len]) = true.
Proof.
  intros Hs Hlen. unfold_ints. destruct (decide _) as [[Hp Hl]|Hn].
  - exists (take (Z.to_nat (pos - 1)) s), (slice s pos len), (drop (Z.to_nat (pos - 1 + len)) s).
    split_and!; [by apply slice_split|unfold char_count; rewrite length_take; lia| |by apply copystr_slice| | |].
    + unfold char_count, slice. rewrite !length_take, length_drop. lia.
    + apply delstr_keeps; [done|done|]. unfold_ints. lia.
    + transitivity (builtin_copystr [VText s; VInteger pos; VInteger (char_count s)]).
      { simpl. destruct (Z.ltb_spec (char_count s) 0); [pose proof (char_count_nonneg s); lia|done]. }
      rewrite copystr_slice by (done || apply char_count_nonneg). do 2 f_equal.
      unfold slice. rewrite (take_ge (drop _ s)) by (rewrite length_drop; unfold char_count; lia).
      replace (Z.to_nat (pos - 1 + len)) with (Z.to_nat (pos - 1) + Z.to_nat len)%nat by lia.
      by rewrite <- drop_drop, take_drop.
    + simpl. unfold delstr, char_count. destruct (Z.ltb_spec pos 1); [lia|].
      rewrite take_min_length by lia. rewrite Nat2Z.id, drop_all. by rewrite app_nil_r.
  - simpl. unfold delstr. destruct (Z.ltb_spec len 0); [|destruct (Z.leb_spec pos 0); [|lia]].
    + split; [done|]. destruct (pos <? 1); [done|]. destruct (Z.leb_spec 0 len); [lia|done].
    + split; [done|]. destruct (Z.ltb_spec pos 1); [done|lia].
Qed.

(** * Search *)

Lemma slice_occurs needle a s : occurs_after needle a s -> slice s (char_count a + 1) (char_count needle) = needle.
Proof.
  intros [b ->]. unfold slice, char_count. replace (Z.to_nat _) with (length needle) by lia.
  replace (Z.to_nat _) with (length a) by lia. by rewrite drop_app_length, take_app_length.
Qed.

Lemma occurs_slice needle s pos :
  needle <> [] -> 1 <= pos -> slice s pos (char_count needle) = needle ->
  exists a, char_count a = pos - 1 /\ occurs_after needle a s.
Proof.
  intros Hne Hp H. exists (take (Z.to_nat (pos - 1)) s). split.
  - unfold char_count. rewrite length_take. assert (length (slice s pos (char_count needle)) = length needle) as Hl by congruence.
    unfold slice in Hl. rewrite length_take, length_drop in Hl. destruct needle; [done|]. simpl in Hl. lia.
  - exists (drop (Z.to_nat (pos - 1 + char_count needle)) s).
    rewrite <- H at 1. apply slice_split; [done|apply char_count_nonneg].
Qed.

(** StrPos finds the first occurrence: of a text that is not empty it gives
    the least position from which CopyStr reads that text again, and 0 exactly
    when CopyStr reads it from no position; of the empty text it gives 0.
    IndexOf gives what StrPos gives. *)
Lemma strpos_first_occurrence s needle :
  builtin_indexof [VText s; VText needle] = builtin_strpos [VText s; VText needle] /\
  exists k, builtin_strpos [VText s; VText needle] = Normal (VInteger k) /\
    let reads pos := builtin_copystr [VText s; VInteger pos; VInteger (char_count needle)] = Normal (VText needle) in
    if decide (needle = []) then k = 0
    else (k = 0 /\ forall pos, 1 <= pos -> ~ reads pos) \/
         (1 <= k /\ reads k /\ forall pos, 1 <= pos < k -> ~ reads pos).
Proof.
  split; [done|]. exists (position_of s needle). split; [done|]. cbv zeta. destruct (decide _) as [->|Hne]; [done|].
  pose proof (char_count_nonneg needle).
  assert (position_of s needle = match find_str needle s with Some (a, _) => char_count a + 1 | None => 0 end) as ->
    by (unfold position_of; by destruct needle).
  destruct (find_str needle s) as [[a b]|] eqn:Hf; [right|left]; split.
  - pose proof (char_count_nonneg a). lia.
  - pose proof (char_count_nonneg a). split.
    + rewrite copystr_slice by lia. do 2 f_equal. by eapply slice_occurs, find_str_occurs.
    + intros pos Hpos. rewrite copystr_slice by lia. intros [= Hr].
      destruct (occurs_slice needle s pos Hne ltac:(lia) Hr) as (a' & Ha' & Ho).
      apply find_str_Some in Hf as (_ & _ & Hmin). specialize (Hmin a' Ho). unfold char_count in *. lia.
  - done.
  - intros pos Hpos. rewrite copystr_slice by lia. intros [= Hr].
    destruct (occurs_slice needle s pos Hne ltac:(lia) Hr) as (a' & _ & Ho). by apply (find_str_None _ _ a' Hf).
Qed.

(** * Padding *)

(** PadStr gives exactly the number of characters asked for: the first ones
    of a longer text, a shorter text with the first character of the fill after
    it; when the padded text would be over the limit of one text, or the length
    is negative or the fill empty, it is an error. *)
Lemma padstr_exact_length s n fill rest :
  0 <= n <= i64_max -> char_count s <= i64_max -> str_len s <= i64_max ->
  let missing := Z.max (n - char_count s) 0 in
  let padded := builtin_padstr [VText s; VInteger n; VText (fill :: rest)] in
  if decide (missing * len_utf8 fill + str_len s <= MAX_TEXT_BYTES) then
    exists t, padded = Normal (VText t) /\ char_count t = n /\
      t = take (Z.to_nat n) s ++ repeat_char fill missing
  else is_error padded = true.
Proof.
  intros Hn Hs Hb. cbv zeta. simpl. destruct (Z.ltb_spec n 0); [lia|].
  pose proof (char_count_nonneg s). pose proof (str_len_nonneg s).
  assert (1 <= len_utf8 fill <= 4) as Hu by (unfold len_utf8; repeat case_match; lia).
  unfold saturating_sub, check_text_size. set (missing := Z.max (n - char_count s) 0).
  assert (saturating_add (saturating_mul missing (len_utf8 fill)) (str_len s) <= MAX_TEXT_BYTES <->
          missing * len_utf8 fill + str_len s <= MAX_TEXT_BYTES) as Hsize.
  { unfold saturating_add, saturating_mul, MAX_TEXT_BYTES. unfold_ints. lia. }
  destruct (Z.leb_spec (saturating_add (saturating_mul missing (len_utf8 fill)) (str_len s)) MAX_TEXT_BYTES).
  - rewrite decide_True by tauto. unfold char_count in *. destruct (Z.eqb_spec missing 0) as [E|E].
    + eexists. split; [done|]. unfold take_chars, char_count. rewrite take_min_length by lia.
      rewrite E. split; [rewrite length_take; lia|]. unfold repeat_char. simpl. by rewrite app_nil_r.
    + eexists. split; [done|]. unfold repeat_char. rewrite (take_ge s) by lia.
      split; [rewrite length_app, length_replicate; lia|done].
  - rewrite decide_False by (rewrite <- Hsize; lia). done.
Qed.

(** * IncStr *)

Definition no_digit (s : str) : Prop := Forall (fun c => is_ascii_digit c = false) s.

Lemma digit_at_lookup s i c : s !! i = Some c -> digit_at s i = is_ascii_digit c.
Proof. unfold digit_at. by intros ->. Qed.

Lemma digits_end_skips a b j :
  no_digit b -> (j <= length b)%nat -> digits_end (a ++ b) (length a + j) = digits_end (a ++ b) (length a).
Proof.
  intros Hb. induction j as [|j IH]; intros Hj; [by rewrite Nat.add_0_r|].
  rewrite Nat.add_succ_r. cbn [digits_end]. destruct (lookup_lt_is_Some_2 b j) as [c Hc]; [lia|].
  rewrite (digit_at_lookup _ _ c) by (rewrite lookup_app_r by lia; by replace (length a + j - length a)%nat with j by lia).
  rewrite (Forall_lookup_1 _ _ _ _ Hb Hc). apply IH. lia.
Qed.

Lemma digits_start_walks a ds b j :
  digits_only ds -> (j <= length ds)%nat -> (forall c r, a = r ++ [c] -> is_ascii_digit c = false) ->
  digits_start (a ++ ds ++ b) (length a + j) = length a.
Proof.
  intros Hd Hj Ha. induction j as [|j IH].
  - rewrite Nat.add_0_r. destruct a as [|c a _] using rev_ind; [done|].
    rewrite length_app, Nat.add_1_r. cbn [digits_start].
    rewrite (digit_at_lookup _ _ c) by (rewrite <- app_assoc, lookup_app_r by lia; by rewrite Nat.sub_diag).
    by rewrite (Ha c a eq_refl).
  - rewrite Nat.add_succ_r. cbn [digits_start]. destruct (lookup_lt_is_Some_2 ds j) as [c Hc]; [lia|].
    rewrite (digit_at_lookup _ _ c).
    2:{ rewrite lookup_app_r by lia. replace (length a + j - length a)%nat with j by lia. by apply lookup_app_l_Some. }
    rewrite (Forall_lookup_1 _ _ _ _ Hd Hc). apply IH. lia.
Qed.

Lemma digits_of_length fuel k n : 0 <= n < 10 ^ Z.of_nat (S k) -> (length (digits_of fuel n []) <= S k)%nat.
Proof.
  revert fuel n. induction k as [|k IH]; intros [|fuel] n Hn; cbn [digits_of]; [simpl; lia| |simpl; lia|].
  - destruct (Z.eqb_spec (n / 10) 0); [simpl; lia|]. exfalso. change (10 ^ Z.of_nat 1) with 10 in Hn.
    rewrite Z.div_small in * by lia. done.
  - destruct (Z.eqb_spec (n / 10) 0); [simpl; lia|]. rewrite digits_of_app, length_app. simpl.
    specialize (IH fuel (n / 10)). rewrite (Nat2Z.inj_succ (S k)), Z.pow_succ_r in Hn by lia.
    pose proof (Z.div_lt_upper_bound n 10 (10 ^ Z.of_nat (S k)) ltac:(lia) ltac:(lia)).
    pose proof (Z.div_pos n 10 ltac:(lia) ltac:(lia)). lia.
Qed.

Lemma parse_digits_zeros k acc s : parse_digits acc (replicate k 48 ++ s) = parse_digits (acc * 10 ^ Z.of_nat k) s.
Proof.
  revert acc. induction k as [|k IH]; intros acc; simpl replicate; [by rewrite Z.mul_1_r|].
  cbn [app parse_digits]. change (is_ascii_digit 48) with true. cbv iota. rewrite IH. f_equal.
  rewrite Nat2Z.inj_succ, Z.pow_succ_r by lia. lia.
Qed.

Lemma parse_nat_pad_zeros w n : 0 <= n -> parse_nat (pad_zeros w (u64_to_str n)) = Some n.
Proof.
  intros Hn. unfold pad_zeros, parse_nat. pose proof (parse_nat_u64_to_str n Hn) as Hp.
  destruct (u64_to_str_cons n Hn) as (c & r & E & _). rewrite E in *.
  destruct (replicate _ _ ++ c :: r) as [|x l] eqn:El; [by destruct (replicate _ _)|].
  rewrite <- El, parse_digits_zeros, Z.mul_0_l. exact Hp.
Qed.

Lemma pad_zeros_digits w n : 0 <= n -> digits_only (pad_zeros w (u64_to_str n)).
Proof. intros Hn. apply Forall_app. split; [by apply Forall_replicate|by apply u64_to_str_digits]. Qed.

Lemma pad_zeros_length w n :
  w <> O -> 0 <= n -> (w <= length (pad_zeros w (u64_to_str n)))%nat /\
  (n < 10 ^ Z.of_nat w -> length (pad_zeros w (u64_to_str n)) = w).
Proof.
  intros Hw Hn. unfold pad_zeros. rewrite length_app, length_replicate. split; [lia|]. intros Hlt.
  destruct w as [|k]; [done|]. pose proof (digits_of_length (S (Z.to_nat (Z.log2 n))) k n ltac:(lia)).
  unfold u64_to_str in *. lia.
Qed.

Lemma parse_usize_digits ds : digits_only ds -> parse_usize ds = n ← parse_nat ds; if n <=? usize_max then Some n else None.
Proof.
  intros Hd. unfold parse_usize. destruct Hd as [|d ds Hd H]; [done|].
  destruct (Z.eqb_spec d 43) as [->|]; [done|done].
Qed.

Lemma parse_nat_digits ds : ds <> [] -> digits_only ds -> exists n, parse_nat ds = Some n /\ 0 <= n.
Proof.
  intros Hne Hd. unfold parse_nat. destruct ds as [|d l]; [done|]. clear Hne.
  assert (forall acc, 0 <= acc -> exists n, parse_digits acc (d :: l) = Some n /\ 0 <= n) as H; [|by apply H].
  induction Hd as [|x l' Hx Hl IH]; intros acc Hacc; [by exists acc|]. cbn [parse_digits]. rewrite Hx.
  apply IH. unfold is_ascii_digit in Hx. to_prop. lia.
Qed.

(** IncStr counts the last number of a text up: the digits of the last run
    become the digits of the next number, with zeros in front up to the old
    width, so that the width changes only when the number outgrows it, and the
    rest of the text stays; a text without digits gives the empty text, and a
    number whose successor is over 64 bits is an error. *)
Lemma incstr_increments_last_number a ds b :
  ds <> [] -> digits_only ds -> no_digit b -> (forall c r, a = r ++ [c] -> is_ascii_digit c = false) ->
  builtin_incstr [VText b] = Normal (VText []) /\
  exists n, parse_nat ds = Some n /\
    if decide (n < usize_max) then
      exists ds', builtin_incstr [VText (a ++ ds ++ b)] = Normal (VText (a ++ ds' ++ b)) /\
        digits_only ds' /\ parse_nat ds' = Some (n + 1) /\ (length ds <= length ds')%nat /\
        (n + 1 < 10 ^ Z.of_nat (length ds) -> length ds' = length ds)
    else is_error (builtin_incstr [VText (a ++ ds ++ b)]) = true.
Proof.
  intros Hne Hd Hb Ha. split.
  { simpl. unfold incstr. pose proof (digits_end_skips [] b (length b) Hb ltac:(lia)) as H. simpl in H. by rewrite H. }
  destruct (parse_nat_digits ds Hne Hd) as (n & Hn & Hpos).
  exists n. split; [done|]. simpl. unfold incstr.
  assert (digits_end (a ++ ds ++ b) (length (a ++ ds ++ b)) = Some (length a + length ds)%nat) as ->.
  { rewrite app_assoc, !length_app. rewrite <- length_app. rewrite digits_end_skips by done.
    destruct ds as [|d ds' _] using rev_ind; [done|]. rewrite app_assoc, length_app, Nat.add_1_r. cbn [digits_end].
    rewrite (digit_at_lookup _ _ d) by (rewrite <- app_assoc, lookup_app_r by lia; by rewrite Nat.sub_diag).
    apply Forall_app in Hd as [_ Hd]. inversion Hd as [|?? Hd1 _]; subst. rewrite Hd1. rewrite !length_app. simpl. f_equal; lia. }
  rewrite digits_start_walks by (done || lia).
  replace (take (length a + length ds - length a) (drop (length a) (a ++ ds ++ b))) with ds.
  2:{ rewrite drop_app_length. replace (_ - _)%nat with (length ds) by lia. by rewrite take_app_length. }
  rewrite parse_usize_digits, Hn by done. cbn [mbind option_bind].
  destruct (decide (n < usize_max)).
  - destruct (Z.leb_spec n usize_max); [|lia]. cbn [mbind option_bind]. destruct (Z.leb_spec (n + 1) usize_max); [|lia].
    assert (length ds <> O) as Hw by (by destruct ds).
    destruct (pad_zeros_length (length ds) (n + 1) Hw ltac:(lia)) as [H1 H2].
    exists (pad_zeros (length ds) (u64_to_str (n + 1))).
    split_and!; [|apply pad_zeros_digits; lia|apply parse_nat_pad_zeros; lia|exact H1|exact H2].
    rewrite take_app_length. by rewrite (app_assoc a ds b), <- length_app, drop_app_length.
  - destruct (Z.leb_spec n usize_max); [|done]. cbn [mbind option_bind]. destruct (Z.leb_spec (n + 1) usize_max); [lia|done].
Qed.

(** * Elements and deletions *)

Lemma split_char_join sep parts :
  parts <> [] -> Forall (fun part => ~ sep ∈ part) parts -> split_char sep (join [sep] parts) = parts.
Proof.
  intros Hne H. induction H as [|part parts Hp H IH]; [done|]. destruct parts as [|p2 parts].
  - cbn [join]. by apply split_char_solid.
  - change (join [sep] (part :: p2 :: parts)) with (part ++ [sep] ++ join [sep] (p2 :: parts)).
    simpl app. rewrite split_char_app by done. f_equal. by apply IH.
Qed.

(** SelectStr reads the elements of a comma-separated text: the text is its
    elements joined by commas, none of which holds a comma, an index from 1
    gives that element and an index past the last one, or below 1, is an error;
    and any elements without commas are read back from their join. *)
Lemma selectstr_reads_elements :
  (forall s, exists parts, parts <> [] /\ Forall (fun part => ~ ch "," ∈ part) parts /\ join [ch ","] parts = s) /\
  (forall parts index, parts <> [] -> Forall (fun part => ~ ch "," ∈ part) parts ->
     let selected := builtin_selectstr [VInteger index; VText (join [ch ","] parts)] in
     if decide (1 <= index <= Z.of_nat (length parts)) then
       exists part, parts !! Z.to_nat (index - 1) = Some part /\ selected = Normal (VText part)
     else is_error selected = true).
Proof.
  split.
  - intros s. exists (split_char (ch ",") s). destruct (split_char_parts (ch ",") s) as [Hf Hj].
    split; [|done]. by destruct (split_char_cons (ch ",") s) as (? & ? & ->).
  - intros parts index Hne Hf. cbv zeta. simpl. rewrite split_char_join by done.
    destruct (decide _) as [Hi|Hi].
    + destruct (Z.ltb_spec index 1); [lia|]. destruct (lookup_lt_is_Some_2 parts (Z.to_nat (index - 1))) as [part Hp]; [lia|].
      rewrite Hp. by exists part.
    + destruct (Z.ltb_spec index 1); [done|]. by rewrite lookup_ge_None_2 by lia.
Qed.

(** The characters of [which]. *)
Definition all_in (which s : str) : Prop := Forall (fun c => c ∈ which) s.

Lemma trimmed_in which s : Forall (fun c => contains_char c which = true) s -> all_in which s.
Proof. intros H. eapply Forall_impl; [exact H|]. intros c. apply contains_char_spec. Qed.

Lemma not_contained which c : contains_char c which = false -> ~ c ∈ which.
Proof. intros H. rewrite <- contains_char_spec. by rewrite H. Qed.

(** DelChr deletes what it is told to and nothing else: with [=] every
    character of the set, keeping the order of the others; with [<] or [>] the
    longest run of them at that end, so that what is left does not begin, or
    end, with one; any other letter in its second argument is an error. *)
Lemma delchr_deletes_only_which s where_ which :
  let deleted := builtin_delchr [VText s; VText where_; VText which] in
  if decide (Forall (fun c => c = ch "<" \/ c = ch ">" \/ c = ch "=") where_) then
    if contains_char (ch "=") where_ then
      deleted = Normal (VText (filter (fun c => ~ c ∈ which) s))
    else
      exists before kept after, s = before ++ kept ++ after /\ deleted = Normal (VText kept) /\
        all_in which before /\ all_in which after /\
        (if contains_char (ch "<") where_ then forall c r, kept = c :: r -> ~ c ∈ which else before = []) /\
        (if contains_char (ch ">") where_ then forall c r, kept = r ++ [c] -> ~ c ∈ which else after = [])
  else is_error deleted = true.
Proof.
  cbv zeta. cbn [builtin_delchr length Nat.ltb Nat.leb lookup list_lookup text_argument res_bind]. unfold delchr.
  destruct (find_char _ where_) as [i|] eqn:Hw.
  - rewrite decide_False; [done|]. intros Hf. apply find_char_Some in Hw as (c & Hc & Hn & _).
    apply (Forall_lookup_1 _ _ _ _ Hf) in Hc. destruct Hc as [->|[->| ->]]; done.
  - apply find_char_None in Hw. rewrite decide_True.
    2:{ eapply Forall_impl; [exact Hw|]. intros c Hc. cbv beta in Hc. apply negb_false_iff in Hc. rewrite !orb_true_iff, !Z.eqb_eq in Hc. tauto. }
    destruct (contains_char (ch "=") where_).
    { do 2 f_equal. apply list_filter_iff. intros c. rewrite Is_true_true, negb_true_iff.
      rewrite <- not_true_iff_false. by rewrite contains_char_spec. }
    destruct (trim_start_split (fun c => contains_char c which) s) as (a & Ha1 & Ha2 & Ha3).
    set (s1 := trim_start_matches _ s) in *.
    destruct (contains_char (ch "<") where_), (contains_char (ch ">") where_).
    + destruct (trim_end_split (fun c => contains_char c which) s1) as (b & Hb1 & Hb2 & Hb3).
      set (s2 := trim_end_matches _ s1) in *. exists a, s2, b.
      split_and!; [congruence|done|by apply trimmed_in|by apply trimmed_in| |].
      * intros c r Hr. apply not_contained. apply (Ha3 c (r ++ b)). by rewrite Hb1, Hr.
      * intros c r Hr. apply not_contained. by apply (Hb3 c r).
    + exists a, s1, []. rewrite app_nil_r. split_and!; [done|done|by apply trimmed_in|by apply Forall_nil| |done].
      intros c r Hr. apply not_contained. by apply (Ha3 c r).
    + destruct (trim_end_split (fun c => contains_char c which) s) as (b & Hb1 & Hb2 & Hb3).
      exists [], (trim_end_matches (fun c => contains_char c which) s), b.
      split_and!; [done|done|by apply Forall_nil|by apply trimmed_in|done|].
      intros c r Hr. apply not_contained. by apply (Hb3 c r).
    + exists [], s, []. rewrite app_nil_r. by split_and!; try apply Forall_nil.
Qed.

(** SelectStr and DelChr pick exactly what they are told to.  Every text is
    the join of elements without commas, and of such a join SelectStr gives the
    element of an index from 1, an index outside it being an error.  DelChr with
    [=] deletes every character of the set, keeping the order of the others;
    with [<] or [>] the longest run of them at that end, so that what is left
    does not begin, or end, with one; any other letter is an error. *)
Lemma selectstr_delchr_exact :
  (forall s, exists parts, parts <> [] /\ Forall (fun part => ~ ch "," ∈ part) parts /\ join [ch ","] parts = s) /\
  (forall parts index, parts <> [] -> Forall (fun part => ~ ch "," ∈ part) parts ->
     let selected := builtin_selectstr [VInteger index; VText (join [ch ","] parts)] in
     if decide (1 <= index <= Z.of_nat (length parts)) then
       exists part, parts !! Z.to_nat (index - 1) = Some part /\ selected = Normal (VText part)
     else is_error selected = true) /\
  (forall s where_ which,
     let deleted := builtin_delchr [VText s; VText where_; VText which] in
     if decide (Forall (fun c => c = ch "<" \/ c = ch ">" \/ c = ch "=") where_) then
       if contains_char (ch "=") where_ then deleted = Normal (VText (filter (fun c => ~ c ∈ which) s))
       else
         exists before kept after, s = before ++ kept ++ after /\ deleted = Normal (VText kept) /\
           all_in which before /\ all_in which after /\
           (if contains_char (ch "<") where_ then forall c r, kept = c :: r -> ~ c ∈ which else before = []) /\
           (if contains_char (ch ">") where_ then forall c r, kept = r ++ [c] -> ~ c ∈ which else after = [])
     else is_error deleted = true).
Proof.
  destruct selectstr_reads_elements as [H1 H2]. split_and!; [exact H1|exact H2|exact delchr_deletes_only_which].
Qed.

(** The builtins that cut and change texts do exactly what they are told to.
    CopyStr and DelStr cut at the same places: what CopyStr takes and what
    DelStr leaves of it are the text, for every position from 1 and every length
    from 0, past its end too; without a length both reach to the end; a position
    below 1 or a negative length is an error of both.  Every text is the join of
    elements without commas, and of such a join SelectStr gives the element of
    an index from 1, an index outside it being an error.  DelChr with [=]
    deletes every character of the set, keeping the order of the others; with
    [<] or [>] the longest run of them at that end, so that what is left does
    not begin, or end, with one; any other letter is an error.  IncStr counts
    the last number of a text up: its digits become those of the next number,
    with zeros in front up to the old width, and the rest of the text stays; a
    text without digits gives the empty text, and a number whose successor is
    over 64 bits is an error. *)
Lemma text_builtins_exact :
  (forall s pos len,
    char_count s <= i64_max -> len <= i64_max ->
    if decide (1 <= pos /\ 0 <= len) then
      exists before taken after, s = before ++ taken ++ after /\
        char_count before = Z.min (pos - 1) (char_count s) /\
        char_count taken = Z.min len (char_count s - char_count before) /\
        builtin_copystr [VText s; VInteger pos; VInteger len] = Normal (VText taken) /\
        builtin_delstr [VText s; VInteger pos; VInteger len] = Normal (VText (before ++ after)) /\
        builtin_copystr [VText s; VInteger pos] = Normal (VText (taken ++ after)) /\
        builtin_delstr [VText s; VInteger pos] = Normal (VText before)
    else
      is_error (builtin_copystr [VText s; VInteger pos; VInteger len]) = true /\
      is_error (builtin_delstr [VText s; VInteger pos; VInteger len]) = true) /\
  ((forall s, exists parts, parts <> [] /\ Forall (fun part => ~ ch "," ∈ part) parts /\ join [ch ","] parts = s) /\
  (forall parts index, parts <> [] -> Forall (fun part => ~ ch "," ∈ part) parts ->
     let selected := builtin_selectstr [VInteger index; VText (join [ch ","] parts)] in
     if decide (1 <= index <= Z.of_nat (length parts)) then
       exists part, parts !! Z.to_nat (index - 1) = Some part /\ selected = Normal (VText part)
     else is_error selected = true) /\
  (forall s where_ which,
     let deleted := builtin_delchr [VText s; VText where_; VText which] in
     if decide (Forall (fun c => c = ch "<" \/ c = ch ">" \/ c = ch "=") where_) then
       if contains_char (ch "=") where_ then deleted = Normal (VText (filter (fun c => ~ c ∈ which) s))
       else
         exists before kept after, s = before ++ kept ++ after /\ deleted = Normal (VText kept) /\
           all_in which before /\ all_in which after /\
           (if contains_char (ch "<") where_ then forall c r, kept = c :: r -> ~ c ∈ which else before = []) /\
           (if contains_char (ch ">") where_ then forall c r, kept = r ++ [c] -> ~ c ∈ which else after = [])
     else is_error deleted = true)) /\
  (forall a ds b,
    ds <> [] -> digits_only ds -> no_digit b -> (forall c r, a = r ++ [c] -> is_ascii_digit c = false) ->
    builtin_incstr [VText b] = Normal (VText []) /\
    exists n, parse_nat ds = Some n /\
      if decide (n < usize_max) then
        exists ds', builtin_incstr [VText (a ++ ds ++ b)] = Normal (VText (a ++ ds' ++ b)) /\
          digits_only ds' /\ parse_nat ds' = Some (n + 1) /\ (length ds <= length ds')%nat /\
          (n + 1 < 10 ^ Z.of_nat (length ds) -> length ds' = length ds)
      else is_error (builtin_incstr [VText (a ++ ds ++ b)]) = true).
Proof. exact (conj copystr_delstr_partition (conj selectstr_delchr_exact incstr_increments_last_number)). Qed.

(** * Evaluate *)

Lemma trim_start_none p s : Forall (fun c => p c = false) s -> trim_start_matches p s = s.
Proof. intros H. destruct H as [|c s Hc H]; [done|]. simpl. by rewrite Hc. Qed.

Lemma trim_end_none p s : Forall (fun c => p c = false) s -> trim_end_matches p s = s.
Proof.
  intros H. unfold trim_end_matches. rewrite trim_start_none by (by apply Forall_reverse). apply reverse_involutive.
Qed.

Lemma trim_none s : Forall (fun c => is_whitespace c = false) s -> trim s = s.
Proof. intros H. unfold trim, trim_start. rewrite trim_start_none by done. by apply trim_end_none. Qed.

(** The characters of a rendered number. *)
Definition number_char (c : char) : Prop := is_ascii_digit c = true \/ c = ch "," \/ c = ch "-".

Lemma number_char_solid c : number_char c -> is_whitespace c = false.
Proof.
  intros [H|[->| ->]]; [|done|done]. unfold is_ascii_digit in H. to_prop.
  unfold is_whitespace. rewrite !orb_false_iff, !andb_false_iff, !Z.eqb_neq, !Z.leb_gt. lia.
Qed.

Lemma number_char_no_letter c : number_char c -> (c =? ch "l") || (c =? ch "L") = false.
Proof. intros [H|[->| ->]]; [|done|done]. unfold is_ascii_digit in H. to_prop. rewrite orb_false_iff, !Z.eqb_neq. lia. Qed.

Lemma group_from_chars i len ds : digits_only ds -> Forall number_char (group_from i len ds).
Proof.
  intros H. revert i. induction H as [|d ds Hd _ IH]; intros i; [constructor|]. cbn [group_from]. apply Forall_app.
  split; [|apply IH]. assert (number_char d) by (by left). assert (number_char (ch ",")) by (by right; left).
  destruct (_ && _); repeat constructor; done.
Qed.

Lemma render_integer_chars (h : heap) n : Forall number_char (render_value h (VInteger n)).
Proof.
  cbn [render_value]. apply Forall_app. split.
  - destruct (n <? 0); [|constructor]. constructor; [by right; right|constructor].
  - apply group_from_chars, u64_to_str_digits. lia.
Qed.

Lemma i64_to_str_chars n : Forall number_char (i64_to_str n).
Proof.
  unfold i64_to_str. destruct (Z.ltb_spec n 0); [constructor; [by right; right|]|];
    (eapply Forall_impl; [apply u64_to_str_digits; lia|]; by left).
Qed.

(** Evaluate reads back what Format shows: an Integer, and a BigInteger,
    from its grouped digits, whose commas stand at every fourth place from the
    right; a Boolean from Yes and No; a Text as it is and a Code that is upper
    case without blanks at its ends.  The value it stores is of the type of the
    variable it is stored into, and the answer says whether there is one. *)
Lemma evaluate_reads_format (h : heap) :
  (forall n old, in_i64 n = true ->
     let text := render_value h (VInteger n) in
     grouped (if n <? 0 then tail text else text) /\
     builtin_evaluate [VInteger old; VText text] = Ok (true, Some (VInteger n)) /\
     builtin_evaluate [VBigInteger old; VText text] = Ok (true, Some (VBigInteger n))) /\
  (forall b old, builtin_evaluate [VBoolean old; VText (render_value h (VBoolean b))] = Ok (true, Some (VBoolean b))) /\
  (forall s old, builtin_evaluate [VText old; VText (render_value h (VText s))] = Ok (true, Some (VText s))) /\
  (forall s old, to_uppercase s = s -> trim s = s ->
     builtin_evaluate [VCode old; VText (render_value h (VCode s))] = Ok (true, Some (VCode s))) /\
  (forall target raw success parsed, builtin_evaluate [target; VText raw] = Ok (success, parsed) ->
     success = bool_decide (is_Some parsed) /\ forall v, parsed = Some v -> type_name v = type_name target).
Proof.
  split_and!.
  - intros n old Hn. cbv zeta. split; [apply render_integer_grouped|].
    cbn [builtin_evaluate]. unfold evaluate. rewrite trim_none.
    2:{ eapply Forall_impl; [apply render_integer_chars|]. apply number_char_solid. }
    fold (without_commas (render_value h (VInteger n))). rewrite render_integer_digits, trim_end_none.
    2:{ eapply Forall_impl; [apply i64_to_str_chars|]. apply number_char_no_letter. }
    by rewrite parse_i64_to_str.
  - by intros [] old.
  - done.
  - intros s old Hu Ht. cbn [builtin_evaluate evaluate res_bind render_value]. by rewrite Ht, Hu.
  - intros target raw success parsed. cbn [builtin_evaluate]. destruct (evaluate target raw) as [p|e] eqn:He; [|done].
    intros [= <- <-]. split; [done|]. intros v ->. revert He.
    destruct target; cbn [evaluate]; try done; intros [= He];
      repeat match type of He with context [parse_i64 ?x] => destruct (parse_i64 x) | context [dec_parse ?x] => destruct (dec_parse x) end;
      try by inversion He.
    repeat case_match; by inversion He.
Qed.

(** C37: The builtins on texts do exactly what they are told to.
    Evaluate reads back what Format shows: an Integer, and a BigInteger, from
    its grouped digits, whose commas stand at every fourth place from the right;
    a Boolean from Yes and No; a Text as it is and a Code that is upper case
    without blanks at its ends; the value it stores is of the type of the
    variable it is stored into, and the answer says whether there is one.
    CopyStr and DelStr cut at the same places: what CopyStr takes and what
    DelStr leaves of it are the text, for every position from 1 and every length
    from 0, past its end too; without a length both reach to the end; a position
    below 1 or a negative length is an error of both.  Every text is the join of
    elements without commas, and of such a join SelectStr gives the element of
    an index from 1, an index outside it being an error.  DelChr with [=]
    deletes every character of the set, keeping the order of the others; with
    [<] or [>] the longest run of them at that end; any other letter is an
    error.  IncStr counts the last number of a text up: its digits become those
    of the next number, with zeros in front up to the old width, and the rest of
    the text stays; a text without digits gives the empty text, and a number
    whose successor is over 64 bits is an error. *)
Theorem text_functions_exact :
  (forall (h : heap),
    (forall n old, in_i64 n = true ->
         let text := render_value h (VInteger n) in
         grouped (if n <? 0 then tail text else text) /\
         builtin_evaluate [VInteger old; VText text] = Ok (true, Some (VInteger n)) /\
         builtin_evaluate [VBigInteger old; VText text] = Ok (true, Some (VBigInteger n))) /\
      (forall b old, builtin_evaluate [VBoolean old; VText (render_value h (VBoolean b))] = Ok (true, Some (VBoolean b))) /\
      (forall s old, builtin_evaluate [VText old; VText (render_value h (VText s))] = Ok (true, Some (VText s))) /\
      (forall s old, to_uppercase s = s -> trim s = s ->
         builtin_evaluate [VCode old; VText (render_value h (VCode s))] = Ok (true, Some (VCode s))) /\
      (forall target raw success parsed, builtin_evaluate [target; VText raw] = Ok (success, parsed) ->
         success = bool_decide (is_Some parsed) /\ forall v, parsed = Some v -> type_name v = type_name target)) /\
  ((forall s pos len,
      char_count s <= i64_max -> len <= i64_max ->
      if decide (1 <= pos /\ 0 <= len) then
        exists before taken after, s = before ++ taken ++ after /\
          char_count before = Z.min (pos - 1) (char_count s) /\
          char_count taken = Z.min len (char_count s - char_count before) /\
          builtin_copystr [VText s; VInteger pos; VInteger len] = Normal (VText taken) /\
          builtin_delstr [VText s; VInteger pos; VInteger len] = Normal (VText (before ++ after)) /\
          builtin_copystr [VText s; VInteger pos] = Normal (VText (taken ++ after)) /\
          builtin_delstr [VText s; VInteger pos] = Normal (VText before)
      else
        is_error (builtin_copystr [VText s; VInteger pos; VInteger len]) = true /\
        is_error (builtin_delstr [VText s; VInteger pos; VInteger len]) = true) /\
    ((forall s, exists parts, parts <> [] /\ Forall (fun part => ~ ch "," ∈ part) parts /\ join [ch ","] parts = s) /\
    (forall parts index, parts <> [] -> Forall (fun part => ~ ch "," ∈ part) parts ->
       let selected := builtin_selectstr [VInteger index; VText (join [ch ","] parts)] in
       if decide (1 <= index <= Z.of_nat (length parts)) then
         exists part, parts !! Z.to_nat (index - 1) = Some part /\ selected = Normal (VText part)
       else is_error selected = true) /\
    (forall s where_ which,
       let deleted := builtin_delchr [VText s; VText where_; VText which] in
       if decide (Forall (fun c => c = ch "<" \/ c = ch ">" \/ c = ch "=") where_) then
         if contains_char (ch "=") where_ then deleted = Normal (VText (filter (fun c => ~ c ∈ which) s))
         else
           exists before kept after, s = before ++ kept ++ after /\ deleted = Normal (VText kept) /\
             all_in which before /\ all_in which after /\
             (if contains_char (ch "<") where_ then forall c r, kept = c :: r -> ~ c ∈ which else before = []) /\
             (if contains_char (ch ">") where_ then forall c r, kept = r ++ [c] -> ~ c ∈ which else after = [])
       else is_error deleted = true)) /\
    (forall a ds b,
      ds <> [] -> digits_only ds -> no_digit b -> (forall c r, a = r ++ [c] -> is_ascii_digit c = false) ->
      builtin_incstr [VText b] = Normal (VText []) /\
      exists n, parse_nat ds = Some n /\
        if decide (n < usize_max) then
          exists ds', builtin_incstr [VText (a ++ ds ++ b)] = Normal (VText (a ++ ds' ++ b)) /\
            digits_only ds' /\ parse_nat ds' = Some (n + 1) /\ (length ds <= length ds')%nat /\
            (n + 1 < 10 ^ Z.of_nat (length ds) -> length ds' = length ds)
        else is_error (builtin_incstr [VText (a ++ ds ++ b)]) = true)).
Proof. exact (conj evaluate_reads_format text_builtins_exact). Qed.
End spec.

(** * The theorems evaluated *)

#[local] Existing Instances mini_decimal ascii_unicode.

Lemma text_functions_exact_witness :
  (in_i64 1234567 = true /\ render_value ∅ (VInteger 1234567) = lit "1,234,567" /\
  builtin_evaluate [VInteger 0; VText (lit "1,234,567")] = Ok (true, Some (VInteger 1234567))) /\
  ((exists before taken after, lit "Sales order" = before ++ taken ++ after /\
    builtin_delstr [VText (lit "Sales order"); VInteger 7; VInteger 2] = Normal (VText (before ++ after))) /\
  (exists part, [lit "a"; lit "b"; lit "c"] !! 1%nat = Some part /\
    builtin_selectstr [VInteger 2; VText (lit "a,b,c")] = Normal (VText part)) /\
  exists n, parse_nat (lit "099") = Some n).
Proof.
  split.
  { pose proof (proj1 text_functions_exact) as H_evaluate_reads_format. split; [reflexivity|]. split; [reflexivity|].
  exact (proj1 (proj2 (proj1 (H_evaluate_reads_format ∅) 1234567 0 eq_refl))). }
  { pose proof (proj2 text_functions_exact) as H_text_builtins_exact. destruct H_text_builtins_exact as (Hc & (_ & Hs & _) & Hi). split; [|split].
  - destruct (Hc (lit "Sales order") 7 2 ltac:(done) ltac:(done)) as (x & y & z & H & _ & _ & _ & Hd & _).
    exists x, y, z. split; [exact H|exact Hd].
  - destruct (Hs [lit "a"; lit "b"; lit "c"] 2) as (part & Hp & Hq); [done| |by exists part].
    repeat constructor; apply not_contained; reflexivity.
  - destruct (Hi (lit "INV-") (lit "099") (lit "-A")) as [_ (n & Hn & _)]; [discriminate|repeat constructor|repeat constructor| |by exists n].
    intros c r E. destruct (app_inj_tail (lit "INV") r (ch "-") c E) as [_ <-]. reflexivity. }
Defined.
