(* ===== verification/Stubs.v ===== *)
(** Library Assert ([stubs/library_assert.rs]) and the catalogs that name the
    stub procedures ([stubs/mod.rs]).

    The thread-local state of all the stubs is the record [Stubs], the first
    argument and result of every procedure of the catalogs. *)

From Stdlib Require Import ZArith Lia.
From stdpp Require Import base tactics numbers option list gmap strings.
From S2P Require Import Prelude RustStr StrSearch Decimals Values Slots Operators Renders VariableStorage Randoms.

#[local] Open Scope Z_scope.
#[local] Open Scope rust_scope.

Section assert.
Context {D : Decimal} {DM : DecimalMath} (h : heap) (cancelled : nat -> bool).

(** * Library Assert *)

Definition assert_err (message : str) : Eval :=
  Error {| message := message; error_type := Some (lit "AssertionError"); source := Some (lit "Library Assert") |}.

(** IsTrue and IsFalse: [wanted] passes. *)
Definition is_boolean (name : string) (wanted : bool) (args : list Value) : Eval :=
  let fails := lit "Assert." ++ lit name ++ lit " failed" in
  let usage := assert_err (lit "Assert." ++ lit name ++ lit " expects (Boolean, Text)") in
  match args with
  | [VBoolean b; message] =>
      if Bool.eqb b wanted then ok_empty
      else
        match message with
        | VText msg | VCode msg => assert_err (fails ++ lit ": " ++ msg)
        | _ => usage
        end
  | [VBoolean b] => if Bool.eqb b wanted then usage else assert_err fails
  | _ => usage
  end.

Definition is_true : list Value -> Eval := is_boolean "IsTrue" true.
Definition is_false : list Value -> Eval := is_boolean "IsFalse" false.

Definition assert_render_value (v : Value) : str :=
  match v with
  | VInteger n => i64_to_str n
  | VDecimal n => dec_to_str (dec_normalize n)
  | VBoolean b => lit (if b then "true" else "false")
  | VText s | VCode s => 34 :: s ++ [34]
  | VDate _ | VTime _ | VDateTime _ | VDuration _ | VOption _ _ _ => render_value h v
  | VNull => lit "null"
  | VEmpty => lit "<empty>"
  | other => lit "<" ++ type_name other ++ lit ">"
  end.

(** [": {msg}"], or nothing for an empty message. *)
Definition suffix (msg : str) : str := match msg with [] => [] | _ => lit ": " ++ msg end.

(** The two values and the message of AreEqual and AreNotEqual. *)
Definition equality_args (args : list Value) : option (Value * Value * str) :=
  match args with
  | [e; a] => Some (e, a, [])
  | [e; a; VText m] | [e; a; VCode m] => Some (e, a, m)
  | _ => None
  end.

Definition are_equal (args : list Value) : Eval :=
  match equality_args args with
  | None => assert_err (lit "Assert.AreEqual expects (Variant, Variant[, Text])")
  | Some (expected, actual, msg) =>
      if values_equal h cancelled expected actual then ok_empty
      else assert_err (lit "Assert.AreEqual failed" ++ suffix msg ++ lit ": expected " ++ assert_render_value expected
                       ++ lit " but got " ++ assert_render_value actual)
  end.

Definition are_not_equal (args : list Value) : Eval :=
  match equality_args args with
  | None => assert_err (lit "Assert.AreNotEqual expects (Variant, Variant[, Text])")
  | Some (expected, actual, msg) =>
      if negb (values_equal h cancelled expected actual) then ok_empty
      else assert_err (lit "Assert.AreNotEqual failed" ++ suffix msg ++ lit ": both values were "
                       ++ assert_render_value expected)
  end.

Definition nearly_args (args : list Value) : option (Value * Value * Value * str) :=
  match args with
  | [e; a; p] => Some (e, a, p, [])
  | [e; a; p; VText m] | [e; a; p; VCode m] => Some (e, a, p, m)
  | _ => None
  end.

(** [None] is the overflow of the subtraction, which is not checked. *)
Definition are_nearly_equal (args : list Value) : option Eval :=
  match nearly_args args with
  | None => Some (assert_err (lit "Assert.AreNearlyEqual expects (Decimal, Decimal, Decimal[, Text])"))
  | Some (e, a, p, msg) =>
      match as_decimal e, as_decimal a, as_decimal p with
      | Some ef, Some af, Some pf =>
          difference ← dec_checked_sub ef af;
          Some (if is_le (dec_cmp (dec_abs difference) pf) then ok_empty
                else assert_err (lit "Assert.AreNearlyEqual failed" ++ suffix msg ++ lit ": |"
                       ++ dec_to_str (dec_normalize ef) ++ lit " - " ++ dec_to_str (dec_normalize af) ++ lit "| > "
                       ++ dec_to_str (dec_normalize pf)))
      | _, _, _ => Some (assert_err (lit "Assert.AreNearlyEqual: non-numeric argument"))
      end
  end.

Definition fail (args : list Value) : Eval :=
  assert_err match args with
             | [] => lit "Assert.Fail invoked"
             | [VText m] | [VCode m] => lit "Assert.Fail: " ++ m
             | _ => lit "Assert.Fail expects (Text)"
             end.

Definition expected_error (args : list Value) (last_error : option ErrorInfo) : Eval :=
  match args with
  | [VText expected] | [VCode expected] =>
      let actual := match last_error with Some error => message error | None => [] end in
      match actual, expected with
      | [], [] => match last_error with Some _ => ok_empty | None => assert_err (lit "The error has not been thrown.") end
      | _, _ =>
          if str_contains expected actual then ok_empty
          else assert_err (lit "Assert.ExpectedError failed. Expected: " ++ expected ++ lit ". Actual: " ++ actual ++ lit ".")
      end
  | _ => assert_err (lit "Assert.ExpectedError expects (Text)")
  end.

Definition library_assert : list (string * (list Value -> option Eval)) := [
  ("istrue", fun args => Some (is_true args)); ("isfalse", fun args => Some (is_false args));
  ("areequal", fun args => Some (are_equal args)); ("arenotequal", fun args => Some (are_not_equal args));
  ("arenearlyequal", are_nearly_equal); ("fail", fun args => Some (fail args))]%string.

(** * The catalogs *)

Record Stubs := { queue : list Value; random : Random }.

(** [None] is a panic of the procedure. *)
Definition StubFn : Type := Stubs -> list Value -> option (Stubs * Eval).

Record StubCatalog := {
  codeunit_name : string;
  codeunit_ids : list Z;
  catalog_resolve : str -> option StubFn;
  context_members : list string;
}.

(** A procedure of each library on the state of all of them. *)
Definition assert_fn (f : list Value -> option Eval) : StubFn := fun s args =>
  e ← f args; Some (s, e).
Definition storage_fn (f : VariableStorage.Procedure) : StubFn := fun s args =>
  let '(q, e) := f (queue s) args in Some ({| queue := q; random := random s |}, e).
Definition random_fn (f : Randoms.Procedure) : StubFn := fun s args =>
  '(r, e) ← f (random s) args; Some ({| queue := queue s; random := r |}, e).

(** The procedure of a name in a list of them. *)
Fixpoint lookup_name {A} (name : str) (l : list (string * A)) : option A :=
  match l with
  | [] => None
  | (k, x) :: l => if str_is name k then Some x else lookup_name name l
  end.

Context {DR : DecimalRounding} (entropy : option (list Z)) (clock_time : Z).

Definition library_assert_resolve (procedure : str) : option StubFn :=
  assert_fn <$> lookup_name (to_ascii_lowercase procedure) library_assert.

Definition CATALOGS : list StubCatalog := [
  {| codeunit_name := "Library Assert"; codeunit_ids := [130; 130002];
     catalog_resolve := library_assert_resolve; context_members := ["expectederror"%string] |};
  {| codeunit_name := "Library - Variable Storage"; codeunit_ids := [131004];
     catalog_resolve p := storage_fn <$> VariableStorage.resolve h p; context_members := [] |};
  {| codeunit_name := "Library Random"; codeunit_ids := [130440];
     catalog_resolve p := random_fn <$> library_random_resolve p; context_members := [] |};
  {| codeunit_name := "Any"; codeunit_ids := [130500];
     catalog_resolve p := random_fn <$> any_resolve entropy clock_time p; context_members := [] |}].

Definition reset_thread_local_state (s : Stubs) : Stubs :=
  {| queue := reset_queue (queue s); random := reset_lcg (random s) |}.

(** [str::parse::<i32>]. *)
Definition parse_i32 (s : str) : option Z := n ← parse_i64 s; if in_i32 n then Some n else None.

(** The receiver is the name of the catalog or one of its ids. *)
Definition names_catalog (receiver : str) (cat : StubCatalog) : bool :=
  eq_ignore_ascii_case receiver (lit (codeunit_name cat))
  || match parse_i32 receiver with Some id => existsb (Z.eqb id) (codeunit_ids cat) | None => false end.

Definition catalog_for (receiver : str) : option StubCatalog := List.find (names_catalog receiver) CATALOGS.

Fixpoint resolve_in (cats : list StubCatalog) (receiver procedure : str) : option StubFn :=
  match cats with
  | [] => None
  | cat :: cats =>
      if names_catalog receiver cat then
        match catalog_resolve cat procedure with
        | Some f => Some f
        | None => resolve_in cats receiver procedure
        end
      else resolve_in cats receiver procedure
  end.
Definition stubs_resolve (receiver procedure : str) : option StubFn := resolve_in CATALOGS receiver procedure.

Definition is_context_member (receiver procedure : str) : bool :=
  let lower := to_ascii_lowercase procedure in
  match catalog_for receiver with
  | Some cat => existsb (str_is lower) (context_members cat)
  | None => false
  end.

Definition is_supported (receiver procedure : str) : bool :=
  bool_decide (is_Some (stubs_resolve receiver procedure)) || is_context_member receiver procedure.
End assert.

(** Without a message the condition fails even when it holds. *)
Example is_true_needs_message {D : Decimal} : is_error (is_true [VBoolean true]) = true.
Proof. reflexivity. Qed.
