(* ===== verification/StubSpec.v ===== *)
(** What the stubs of [Stubs.v] promise: the verdicts of Library Assert, and
    that resetting their state between tests isolates them. *)

From Stdlib Require Import ZArith Lia.
From stdpp Require Import base tactics numbers option list gmap strings.
From S2P Require Import Prelude RustStr StrSearch Decimals Values Slots Operators Renders VariableStorage Randoms Stubs.

#[local] Open Scope Z_scope.
#[local] Open Scope rust_scope.

(** Exact differences of integers, which [rust_decimal] documents. *)
Class DecimalDistance {D : Decimal} {DM : DecimalMath} : Prop := {
  dec_distance : forall a b c, in_i64 a = true -> in_i64 b = true -> in_i64 c = true ->
    exists d, dec_checked_sub (dec_from a) (dec_from b) = Some d /\
      dec_cmp (dec_abs d) (dec_from c) = Z.compare (Z.abs (a - b)) c;
}.

Section verdicts.
Context {D : Decimal} {DM : DecimalMath} (h : heap) (cancelled : nat -> bool).

(** * Verdicts *)

(** The two outcomes of an assertion. *)
Definition passes (e : Eval) : Prop := e = ok_empty.
Definition fails_with (e : Eval) (text : str) : Prop := e = assert_err text.

(** Exactly one of the two passes, and the other fails with the message in
    its text. *)
Definition opposite (msg : str) (e1 e2 : Eval) : Prop :=
  (passes e1 /\ exists text, fails_with e2 text /\ exists a, occurs_after msg a text) \/
  (passes e2 /\ exists text, fails_with e1 text /\ exists a, occurs_after msg a text).

Definition verdict (e : Eval) : Prop := passes e \/ exists text, fails_with e text.

Lemma suffix_occurs msg a b : exists p, occurs_after msg p (a ++ suffix msg ++ b).
Proof.
  destruct msg as [|c msg]; [by exists [], (a ++ suffix [] ++ b)|].
  exists (a ++ lit ": "), b. unfold suffix. by rewrite <- !app_assoc.
Qed.

Lemma after_occurs msg a : exists p, occurs_after msg p (a ++ msg).
Proof. exists a, []. by rewrite app_nil_r. Qed.

Lemma equality_opposite e a msg :
  opposite msg (are_equal h cancelled [e; a; VText msg]) (are_not_equal h cancelled [e; a; VText msg]).
Proof.
  unfold are_equal, are_not_equal. cbn [equality_args].
  destruct (values_equal h cancelled e a); [left|right]; (split; [done|]); eexists; (split; [done|]);
    apply suffix_occurs.
Qed.

Lemma boolean_opposite b msg : opposite msg (is_true [VBoolean b; VText msg]) (is_false [VBoolean b; VText msg]).
Proof.
  destruct b; [left|right]; (split; [done|]); eexists; (split; [done|]);
    rewrite app_assoc; apply after_occurs.
Qed.

Lemma expected_error_verdict expected last :
  passes (expected_error [VText expected] last) <->
  exists error a, last = Some error /\ occurs_after expected a (message error).
Proof.
  transitivity (exists error, last = Some error /\ str_contains expected (message error) = true).
  2:{ split; [intros (error & -> & [a Ha]%str_contains_spec); eauto|].
      intros (error & a & -> & Ha). exists error. split; [done|]. apply str_contains_spec. eauto. }
  unfold passes. destruct last as [error|].
  - assert (exists text, expected_error [VText expected] (Some error) =
      if str_contains expected (message error) then ok_empty else assert_err text) as [text ->].
    { unfold expected_error. destruct (message error), expected; [by exists []|eexists; reflexivity..]. }
    destruct (str_contains expected (message error)) eqn:E; split; try done; [by exists error|naive_solver congruence].
  - split; [|naive_solver]. by destruct expected.
Qed.

Lemma nearly_verdict e a p msg :
  in_i64 e = true -> in_i64 a = true -> in_i64 p = true -> DecimalDistance ->
  exists r, are_nearly_equal [VInteger e; VInteger a; VInteger p; VText msg] = Some r /\
    (passes r <-> Z.abs (e - a) <= p) /\ verdict r.
Proof.
  intros He Ha Hp HD. destruct (dec_distance e a p He Ha Hp) as (d & Hd & Hcmp).
  unfold are_nearly_equal. cbn [nearly_args as_decimal]. rewrite Hd. cbn [mbind option_bind].
  eexists. split; [done|]. rewrite Hcmp. unfold passes, verdict, fails_with.
  destruct (Z.compare_spec (Z.abs (e - a)) p); cbn [is_le]; split;
    try (by left); try (by right; eexists); (split; [try done|lia || done]); lia.
Qed.

(** The assertions of Library Assert decide what they name.  With a message
    exactly one of AreEqual and AreNotEqual passes, and exactly one of IsTrue
    and IsFalse, and the other one's text holds the message; AreNearlyEqual of
    Integers passes exactly when they are no further apart than the precision;
    ExpectedError exactly when an error was raised whose text holds the one
    expected; Fail never passes. *)
Lemma assertions_decide :
  (forall e a msg, opposite msg (are_equal h cancelled [e; a; VText msg]) (are_not_equal h cancelled [e; a; VText msg])) /\
  (forall b msg, opposite msg (is_true [VBoolean b; VText msg]) (is_false [VBoolean b; VText msg])) /\
  (forall e a p msg, in_i64 e = true -> in_i64 a = true -> in_i64 p = true -> DecimalDistance ->
     exists r, are_nearly_equal [VInteger e; VInteger a; VInteger p; VText msg] = Some r /\
       (passes r <-> Z.abs (e - a) <= p) /\ verdict r) /\
  (forall expected last, passes (expected_error [VText expected] last) <->
     exists error a, last = Some error /\ occurs_after expected a (message error)) /\
  (forall args, exists text, fails_with (fail args) text).
Proof.
  split_and!; [apply equality_opposite|apply boolean_opposite|apply nearly_verdict|apply expected_error_verdict|].
  intros args. by eexists.
Qed.
End verdicts.

(** * Isolation of tests *)

Section isolation.
Context {D : Decimal} {DM : DecimalMath} {DR : DecimalRounding} (h : heap) (cancelled : nat -> bool).

(** Random states that draw the same numbers; their seeds may differ. *)
Definition same_rng (s t : Random) : Prop := lcg_state s = lcg_state t.

(** Both panic, or both give the same result in related states. *)
Definition related {S} (R : S -> S -> Prop) (x y : option (S * Eval)) : Prop :=
  match x, y with
  | Some (s, e), Some (t, e') => e = e' /\ R s t
  | None, None => True
  | _, _ => False
  end.

Definition blind {S} (R : S -> S -> Prop) (f : S -> list Value -> option (S * Eval)) : Prop :=
  forall s t args, R s t -> related R (f s args) (f t args).

Lemma next_rand_same max s t : same_rng s t ->
  exists n s' t', next_rand max s = (n, s') /\ next_rand max t = (n, t') /\ same_rng s' t'.
Proof.
  unfold same_rng, next_rand. intros E. rewrite <- E. destruct (max <=? 1); [by exists 1, s, t|]. by eexists _, _, _.
Qed.

Lemma draw_text_same n draw s t :
  (forall s t, same_rng s t -> exists c s' t', draw s = (c, s') /\ draw t = (c, t') /\ same_rng s' t') ->
  same_rng s t -> exists text s' t', draw_text n draw s = (text, s') /\ draw_text n draw t = (text, t') /\ same_rng s' t'.
Proof.
  intros Hd. revert s t. induction n as [|n IH]; intros s t Hs; cbn [draw_text]; [by exists [], s, t|].
  destruct (Hd s t Hs) as (c & s1 & t1 & -> & -> & H1).
  destruct (IH s1 t1 H1) as (text & s2 & t2 & -> & -> & H2). by exists (c :: text), s2, t2.
Qed.

Lemma draw_code_same base span otherwise s t : same_rng s t ->
  exists c s' t', draw_code base span otherwise s = (c, s') /\ draw_code base span otherwise t = (c, t') /\ same_rng s' t'.
Proof.
  intros H. unfold draw_code. destruct (next_rand_same span s t H) as (n & s1 & t1 & -> & -> & H1). by eexists _, _, _.
Qed.

Lemma draw_hex_same s t : same_rng s t ->
  exists c s' t', draw_hex s = (c, s') /\ draw_hex t = (c, t') /\ same_rng s' t'.
Proof.
  intros H. unfold draw_hex. destruct (next_rand_same 16 s t H) as (n & s1 & t1 & -> & -> & H1). by eexists _, _, _.
Qed.

Ltac draw_same :=
  match goal with
  | H : same_rng ?s ?t |- context [next_rand ?m ?s] =>
      let E := fresh in destruct (next_rand_same m s t H) as (? & ? & ? & -> & -> & E)
  | H : same_rng ?s ?t |- context [draw_text ?n ?d ?s] =>
      let E := fresh in
      destruct (draw_text_same n d s t ltac:(first [exact draw_hex_same|exact (draw_code_same _ _ _)|assumption]) H)
        as (? & ? & ? & -> & -> & E)
  end.

Ltac bind_step :=
  match goal with |- context [@mbind option _ _ _ ?f ?o] => destruct o eqn:?; cbn [mbind option_bind] end.

(** A procedure that reads only the draws. *)
Ltac blind_tac :=
  intros s t args Hs; repeat (cbn beta iota zeta; draw_same || bind_step || case_match); cbn [related];
  try (split; [done|assumption]); try done.

Lemma text_of_blind procedure draw :
  (forall s t, same_rng s t -> exists c s' t', draw s = (c, s') /\ draw t = (c, t') /\ same_rng s' t') ->
  blind same_rng (text_of procedure draw).
Proof. intros Hd. unfold text_of, failed. blind_tac. Qed.

Lemma library_random_blind : Forall (fun '(_, f) => blind same_rng f) library_random.
Proof.
  unfold library_random. repeat (apply Forall_cons; split); [..|by apply Forall_nil].
  - unfold rand_int, drawn, failed. blind_tac.
  - unfold rand_int_in_range, failed. blind_tac.
  - unfold rand_int_in_range, failed. blind_tac.
  - unfold rand_dec, drawn, failed. blind_tac.
  - unfold rand_text, failed. blind_tac.
  - unfold set_seed, failed. blind_tac.
  - unfold rand_date_from, failed. blind_tac.
Qed.

Lemma decimal_in_range_blind : blind same_rng decimal_in_range.
Proof.
  assert (forall s t min max places, same_rng s t ->
    related same_rng (decimal_in_range_impl s min max places) (decimal_in_range_impl t min max places)) as H.
  { intros s t min max places Hs. unfold decimal_in_range_impl, drawn, failed.
    repeat (cbn beta iota zeta; draw_same || case_match); cbn [related]; try (split; [done|assumption]); done. }
  unfold decimal_in_range, failed. intros s t args Hs.
  destruct args as [|v1 [|v2 [|v3 [|]]]]; try by split.
  - destruct (as_int v2), (numeric_bound v1); by auto.
  - destruct (as_int v3), (numeric_bound v1), (numeric_bound v2); by auto.
Qed.

Lemma any_blind entropy clock_time :
  Forall (fun '(name, f) => name = "getseed"%string \/ blind same_rng f) (any entropy clock_time).
Proof.
  unfold any. repeat (apply Forall_cons; split); [..|by apply Forall_nil]; try (by left); right.
  - unfold boolean, failed. blind_tac.
  - unfold integer_in_range, drawn, failed. blind_tac.
  - apply decimal_in_range_blind.
  - apply text_of_blind, draw_code_same.
  - apply text_of_blind, draw_hex_same.
  - apply text_of_blind, draw_code_same.
  - unfold email, failed. blind_tac.
  - unfold guid_value, failed. blind_tac.
  - unfold any_set_seed, failed. blind_tac.
  - unfold set_default_seed, failed. blind_tac.
Qed.

(** ** The catalogs *)

(** The queue and the draws of two states agree. *)
Definition same_stubs (s t : Stubs) : Prop := queue s = queue t /\ same_rng (random s) (random t).

Lemma assert_fn_blind f : blind same_stubs (assert_fn f).
Proof. intros s t args Hs. unfold assert_fn. by destruct (f args). Qed.

Lemma storage_fn_blind f : blind same_stubs (storage_fn f).
Proof.
  intros s t args [Hq Hr]. unfold storage_fn. rewrite Hq. destruct (f (queue t) args) as [q e].
  by repeat split.
Qed.

Lemma random_fn_blind f : blind same_rng f -> blind same_stubs (random_fn f).
Proof.
  intros Hf s t args [Hq Hr]. unfold random_fn. specialize (Hf _ _ args Hr).
  destruct (f (random s) args) as [[r e]|], (f (random t) args) as [[r' e']|]; try done.
  destruct Hf as [-> Hf]. by repeat split.
Qed.

Lemma find_procedure_Forall (P : string -> Randoms.Procedure -> Prop) name l f :
  Forall (fun '(k, f) => P k f) l -> Randoms.find_procedure name l = Some f -> exists k, str_is name k = true /\ P k f.
Proof.
  intros H. induction H as [|[k g] l Hk _ IH]; cbn [Randoms.find_procedure]; [done|].
  destruct (str_is name k) eqn:E; [|done]. intros [= <-]. by exists k.
Qed.

(** A call of a test: the receiver, the procedure and its arguments, and what
    the operating system would give it. *)
Record Call := {
  receiver : str; procedure : str; args : list Value; entropy : option (list Z); clock_time : Z;
}.

Definition asks_seed (c : Call) : bool := str_is (to_ascii_lowercase (procedure c)) "getseed".

(** The results of a test's calls; a call no catalog resolves has none. *)
Fixpoint run_calls (s : Stubs) (calls : list Call) : option (list Eval) :=
  match calls with
  | [] => Some []
  | c :: calls =>
      match stubs_resolve h cancelled (entropy c) (clock_time c) (receiver c) (procedure c) with
      | None => run_calls s calls
      | Some f =>
          '(s, e) ← f s (args c);
          es ← run_calls s calls;
          Some (e :: es)
      end
  end.

Lemma resolve_in_catalog cats r p f :
  resolve_in cats r p = Some f -> Exists (fun cat => catalog_resolve cat p = Some f) cats.
Proof.
  induction cats as [|cat cats IH]; cbn [resolve_in]; [done|].
  destruct (names_catalog r cat); [|by intros H; right; auto].
  destruct (catalog_resolve cat p) as [g|] eqn:E; [|by intros H; right; auto]. intros [= <-]. by left.
Qed.

Lemma stubs_resolve_blind c f :
  asks_seed c = false ->
  stubs_resolve h cancelled (entropy c) (clock_time c) (receiver c) (procedure c) = Some f -> blind same_stubs f.
Proof.
  intros Hc H. apply resolve_in_catalog in H. unfold CATALOGS in H. rewrite !Exists_cons, Exists_nil in H.
  cbn [catalog_resolve] in H. destruct H as [H|[H|[H|[H|[]]]]]; [| |apply fmap_Some in H as (g & H & ->)..].
  - apply fmap_Some in H as (g & _ & ->). apply assert_fn_blind.
  - apply fmap_Some in H as (g & _ & ->). apply storage_fn_blind.
  - apply (find_procedure_Forall (fun _ => blind same_rng)) in H as (k & _ & Hg); [|apply library_random_blind].
    by apply random_fn_blind.
  - apply (find_procedure_Forall (fun k g => k = "getseed"%string \/ blind same_rng g)) in H
      as (k & Hk & [->|Hg]); [|by apply random_fn_blind|apply any_blind].
    unfold asks_seed in Hc. congruence.
Qed.

Lemma run_calls_same calls s t :
  Forall (fun c => asks_seed c = false) calls -> same_stubs s t -> run_calls s calls = run_calls t calls.
Proof.
  intros Hc. revert s t. induction Hc as [|c calls Hc _ IH]; intros s t Hs; cbn [run_calls]; [done|].
  destruct (stubs_resolve _ _ _ _ _ _) as [f|] eqn:Hf; [|by apply IH].
  pose proof (stubs_resolve_blind c f Hc Hf s t (args c) Hs) as Hr.
  destruct (f s (args c)) as [[s' e]|], (f t (args c)) as [[t' e']|]; try done.
  destruct Hr as [-> Hr]. cbn [mbind option_bind]. by rewrite (IH s' t' Hr).
Qed.

End isolation.

(** * The theorems evaluated *)

#[local] Existing Instance mini_decimal.

#[local] Instance whole_rounding : DecimalRounding := {| dec_ceil d := d; dec_floor d := d |}.

#[local] Instance scaled_math : DecimalMath := {|
  dec_abs a := Scaled (Z.abs (mant a)) (scale a); dec_round_half_away d := d; dec_round_to_zero d := d;
  dec_round_away d := d; dec_checked_powd _ _ := None |}.

#[local] Instance scaled_distance : DecimalDistance.
Proof.
  split. intros a b c Ha Hb Hc. rewrite in_i64_spec in Ha, Hb. unfold_ints.
  exists (Scaled (a - b) 0). split.
  - cbn [dec_checked_sub mini_decimal dec_from]. unfold scaled_lift, scaled_checked. cbn [scale mant Nat.max Nat.sub].
    change (10 ^ Z.of_nat 0) with 1. rewrite !Z.mul_1_r. cbn [scaled_strip mant].
    by rewrite (proj2 (Z.ltb_lt _ _)) by lia.
  - cbn [dec_cmp dec_abs dec_from mini_decimal scaled_math]. unfold scaled_cmp. cbn [scale mant].
    change (10 ^ Z.of_nat 0) with 1. by rewrite !Z.mul_1_r.
Qed.

(** A test that draws twice, after one that left values and a seed behind. *)
Definition drawing_test : list Call :=
  let call receiver procedure args :=
    {| receiver := lit receiver; procedure := lit procedure; args := args; entropy := None; clock_time := 0 |} in
  [call "130440"%string "RandInt"%string [VInteger 100]; call "any"%string "IntegerInRange"%string [VInteger 6];
   call "Library - Variable Storage"%string "Length"%string []].

Definition left_behind : Stubs := {| queue := [VInteger 1]; random := {| lcg_state := 99; seed := 42 |} |}.

