(* ===== verification/Pictures.v ===== *)
(** Format with a picture string or a numbered standard format
    ([interpreter/dispatch/picture.rs]), and the Format builtin
    ([builtin_format] of [interpreter/dispatch/render.rs]).

    A component may ask for a standard format, whose picture is rendered in
    turn: the standard pictures hold no such component, so a depth of two is
    enough ([PictureSpec.render_picture_depth]). *)

From Stdlib Require Import ZArith Lia.
From stdpp Require Import base tactics numbers option list gmap strings.
From S2P Require Import Prelude RustStr StrSearch Civil Decimals Values Slots Operators Renders Texts.

#[local] Open Scope Z_scope.
#[local] Open Scope rust_scope.

Definition MONTHS : list str := lit <$> [
  "January"; "February"; "March"; "April"; "May"; "June"; "July"; "August"; "September"; "October"; "November";
  "December"]%string.
Definition WEEKDAYS : list str := lit <$> [
  "Monday"; "Tuesday"; "Wednesday"; "Thursday"; "Friday"; "Saturday"; "Sunday"]%string.

(** [str::parse::<u32>], and [as u32]. *)
Definition parse_u32 (s : str) : option Z := n ← parse_usize s; if n <? 2 ^ 32 then Some n else None.
Definition as_u32 (n : Z) : Z := n mod 2 ^ 32.

(** * Parts *)

Inductive Part :=
  | Literal (text : str)
  | Component (name : str) (argument : option str).

(** The component between its brackets. *)
Definition component (inner : str) : Part :=
  let '(name, argument) := match split_once (ch ",") inner with
                           | Some (name, argument) => (name, Some argument)
                           | None => (inner, None)
                           end in
  Component (to_ascii_lowercase (trim name)) argument.

Fixpoint parts_loop (fuel : nat) (picture rest : str) (parts : list Part) : option (Res str (list Part)) :=
  match fuel with
  | O => None
  | S fuel =>
      match rest with
      | [] => Some (Ok parts)
      | _ =>
          match find_char (Z.eqb (ch "<")) rest with
          | Some O =>
              match find_char (Z.eqb (ch ">")) rest with
              | None => Some (Err (lit "unclosed component in format '" ++ picture ++ lit "'"))
              | Some close =>
                  parts_loop fuel picture (drop (S close) rest) (parts ++ [component (take (close - 1) (drop 1 rest))])
              end
          | Some at_ => parts_loop fuel picture (drop at_ rest) (parts ++ [Literal (take at_ rest)])
          | None => parts_loop fuel picture [] (parts ++ [Literal rest])
          end
      end
  end.
Definition parts (picture : str) : Res str (list Part) :=
  default (Err []) (parts_loop (S (S (length picture))) picture picture []).

Section pictures.
Context {D : Decimal} {DM : DecimalMath} (h : heap).

(** [round_dp_with_strategy(places, MidpointAwayFromZero)]. *)
Variable round_dp : decimal -> Z -> decimal.

(** * Numbers *)

Record Number := { negative : bool; integer : str; fraction : str }.

Definition number_of (value : Value) (precision : option (Z * Z)) : option Number :=
  match as_decimal value with
  | None => None
  | Some decimal =>
      let decimal := match precision with Some (_, max) => round_dp decimal max | None => decimal end in
      let text := dec_to_str (dec_normalize (dec_abs decimal)) in
      let '(integer, fraction) := match split_once (ch ".") text with
                                  | Some (integer, fraction) => (integer, fraction)
                                  | None => (text, [])
                                  end in
      let fraction := match precision with
                      | Some (min, _) => fraction ++ repeat_char (ch "0") (min - str_len fraction)
                      | None => fraction
                      end in
      Some {| negative := is_lt (dec_cmp decimal dec_zero); integer := integer; fraction := fraction |}
  end.

Definition is_numeric (value : Value) : bool :=
  match value with VInteger _ | VBigInteger _ | VDecimal _ => true | _ => false end.

Definition standard_picture (value : Value) (number : Z) : Res str str :=
  if is_numeric value then
    if number =? 0 then Ok (lit "<Sign><Integer Thousand><Decimals>")
    else if number =? 1 then Ok (lit "<Sign><Integer><Decimals>")
    else if number =? 2 then Ok (lit "<Sign><Integer><Decimals>")
    else if number =? 3 then Ok (lit "<Integer Thousand><Decimals><Sign>")
    else if number =? 4 then Ok (lit "<Integer><Decimals><Sign>")
    else Err (lit "standard format " ++ i64_to_str number ++ lit " of a " ++ type_name value
              ++ lit " is not supported by the local runtime")
  else Err (lit "standard format " ++ i64_to_str number ++ lit " of a " ++ type_name value
            ++ lit " is not supported by the local runtime").

Definition pad_left (text : str) (width : option Z) (filler : char) : str :=
  match width with
  | Some width =>
      if char_count text <? width then repeat_char filler (width - char_count text) ++ text else text
  | None => text
  end.

(** * The settings of a picture *)

Definition parse_precision (argument : str) : Res str (Z * Z) :=
  let invalid := lit "invalid precision '" ++ argument ++ lit "'" in
  let '(min, max) := default (argument, argument) (split_once (ch ":") argument) in
  min <-? ok_or (parse_u32 (trim min)) invalid ;
  max <-? ok_or (parse_u32 (trim max)) invalid ;
  Ok (min, max).

(** The filler and the precision: the last of each. *)
Fixpoint settings (ps : list Part) (filler : char) (precision : option (Z * Z)) : Res str (char * option (Z * Z)) :=
  match ps with
  | [] => Ok (filler, precision)
  | Component name argument :: ps =>
      if str_is name "filler character" then
        settings ps (default (ch " ") (argument ← argument; head argument)) precision
      else if str_is name "precision" then
        p <-? parse_precision (default [] argument) ; settings ps filler (Some p)
      else settings ps filler precision
  | Literal _ :: ps => settings ps filler precision
  end.

(** * Components *)

Definition date_of (value : Value) : option Z :=
  match value with VDate d => Some d | VDateTime dt => Some (dt / MS_PER_DAY) | _ => None end.
Definition time_of (value : Value) : option Z :=
  match value with VTime t => Some t | VDateTime dt => Some (dt mod MS_PER_DAY) | _ => None end.

(** [chars().take(width.unwrap_or(text.len()))]. *)
Definition name_text (text : str) (width : option Z) : str := take_chars (default (str_len text) width) text.

Definition clock_text (name : str) (ms : Z) : str :=
  let seconds := ms / 1000 in
  let hours := Z.quot seconds 3600 in
  if str_is name "hours24" then i64_to_str hours
  else if str_is name "hours12" then i64_to_str (if Z.rem hours 12 =? 0 then 12 else Z.rem hours 12)
  else if str_is name "minutes" then i64_to_str (Z.rem (Z.quot seconds 60) 60)
  else if str_is name "seconds" then i64_to_str (Z.rem seconds 60)
  else if str_is name "thousands" then zero_padded 3 (ms mod 1000)
  else lit (if hours <? 12 then "AM" else "PM").

Definition is_clock (name : str) : bool :=
  str_is name "hours24" || str_is name "hours12" || str_is name "minutes" || str_is name "seconds"
  || str_is name "thousands" || str_is name "am/pm".

(** The text of one component; [nested] renders the picture of a standard
    format. *)
Definition render_component (nested : str -> Res str str) (value : Value) (filler : char)
    (precision : option (Z * Z)) (name : str) (argument : option str) : Res str str :=
  let width := argument ← argument; parse_usize (trim argument) in
  let unsupported := lit "format component <" ++ name ++ lit "> of a " ++ type_name value
                     ++ lit " is not supported by the local runtime" in
  let date := ok_or (date_of value) unsupported in
  if str_is name "filler character" || str_is name "precision" then Ok []
  else if str_is name "standard format" then
    number <-? ok_or (argument ← argument; parse_i64 (trim argument)) unsupported ;
    if number =? 9 then Ok (render_value_xml h value)
    else
      match number_of value precision with
      | Some _ =>
          standard <-? standard_picture value number ;
          nested (match precision with
                  | Some (min, max) =>
                      lit "<Precision," ++ u64_to_str min ++ lit ":" ++ u64_to_str max ++ lit ">" ++ standard
                  | None => standard
                  end)
      | None => if number =? 0 then Ok (render_value h value) else Err unsupported
      end
  else if str_is name "sign" then
    number <-? ok_or (number_of value precision) unsupported ;
    Ok (if negative number then lit "-" else [])
  else if str_is name "integer" || str_is name "integer thousand" then
    number <-? ok_or (number_of value precision) unsupported ;
    Ok (pad_left (if str_is name "integer thousand" then group_thousands (integer number) else integer number)
          width filler)
  else if str_is name "decimals" then
    let precision := match precision, width with
                     | None, Some width => let digits := as_u32 (saturating_sub width 1) in Some (digits, digits)
                     | precision, _ => precision
                     end in
    number <-? ok_or (number_of value precision) unsupported ;
    Ok (match fraction number with [] => [] | fraction => lit "." ++ fraction end)
  else if str_is name "day" then
    d <-? date ; let '(_, _, day) := ymd_from_al_days d in Ok (pad_left (i64_to_str day) width (ch "0"))
  else if str_is name "month" then
    d <-? date ; let '(_, month, _) := ymd_from_al_days d in Ok (pad_left (i64_to_str month) width (ch "0"))
  else if str_is name "month text" then
    d <-? date ; let '(_, month, _) := ymd_from_al_days d in
    Ok (name_text (default [] (MONTHS !! Z.to_nat (month - 1))) width)
  else if str_is name "year" then
    d <-? date ; let '(year, _, _) := ymd_from_al_days d in Ok (zero_padded 2 (year mod 100))
  else if str_is name "year4" then
    d <-? date ; let '(year, _, _) := ymd_from_al_days d in Ok (zero_padded 4 year)
  else if str_is name "weekday" then d <-? date ; Ok (i64_to_str (weekday_of d))
  else if str_is name "weekday text" then
    d <-? date ; Ok (name_text (default [] (WEEKDAYS !! Z.to_nat (weekday_of d - 1))) width)
  else if str_is name "week" then
    d <-? date ; let '(week, _) := iso_week d in Ok (pad_left (i64_to_str week) width (ch "0"))
  else if str_is name "closing" then d <-? date ; Ok []
  else if is_clock name then
    ms <-? ok_or (time_of value) unsupported ; Ok (pad_left (clock_text name ms) width (ch "0"))
  else if str_is name "text" then Ok (render_value h value)
  else Err unsupported.

(** The loop over the parts. *)
Fixpoint render_parts (component : str -> option str -> Res str str) (ps : list Part) (out : str) : Res str str :=
  match ps with
  | [] => Ok out
  | Literal text :: ps => render_parts component ps (out ++ text)
  | Component name argument :: ps => text <-? component name argument ; render_parts component ps (out ++ text)
  end.

Fixpoint render_picture_at (depth : nat) (value : Value) (picture : str) : Res str str :=
  match depth with
  | O => Err []
  | S depth =>
      ps <-? parts picture ;
      s <-? settings ps (ch " ") None ;
      render_parts (render_component (render_picture_at depth value) value s.1 s.2) ps []
  end.
Definition render_picture : Value -> str -> Res str str := render_picture_at 2.

Definition render_standard (value : Value) (number : Z) : Res str str :=
  picture <-? standard_picture value number ; render_picture value picture.

(** * Format *)

(** The text before the length is applied. *)
Definition format_text (value : Value) (format : option Value) : Res Eval str :=
  let rendered (r : Res str str) :=
    match r with Ok text => Ok text | Err error => Err (eval_error (lit "Format: " ++ error)) end in
  match format with
  | None => Ok (render_value h value)
  | Some (VInteger n) =>
      if n =? 0 then Ok (render_value h value)
      else if n =? 9 then Ok (render_value_xml h value)
      else rendered (render_standard value n)
  | Some (VText s) | Some (VCode s) =>
      match s with [] => Ok (render_value h value) | _ => rendered (render_picture value s) end
  | Some other =>
      Err (eval_error (lit "Format: format argument must be an Integer or Text, got " ++ type_name other))
  end.

Definition format_length (length : option Value) : Res Eval Z :=
  match length with
  | None => Ok 0
  | Some (VInteger n) => Ok n
  | Some other => Err (eval_error (lit "Format: length must be an Integer, got " ++ type_name other))
  end.

Definition fit (rendered : str) (length : Z) : Eval :=
  if length =? 0 then Normal (VText rendered)
  else
    let width := Z.abs length in
    let missing := saturating_sub width (char_count rendered) in
    match check_text_size (lit "Format") (saturating_add (str_len rendered) missing) with
    | Err message => eval_error message
    | Ok _ =>
        if width <? char_count rendered then Normal (VText (take_chars width rendered))
        else
          let padding := repeat_char (ch " ") (width - char_count rendered) in
          Normal (VText (if 0 <? length then rendered ++ padding else padding ++ rendered))
    end.

Definition builtin_format (args : list Value) : Eval :=
  match args with
  | [] => eval_error (lit "Format() requires at least 1 argument")
  | value :: _ =>
      if (3 <? length args)%nat then eval_error (lit "Format expects at most 3 arguments")
      else
        match rendered <-? format_text value (args !! 2%nat) ;
              length <-? format_length (args !! 1%nat) ;
              Ok (rendered, length) with
        | Err e => e
        | Ok (rendered, length) => fit rendered length
        end
  end.
End pictures.
