(* ===== verification/PictureSpec.v ===== *)
(** What Format and its pictures promise ([Pictures.v]). *)

From Stdlib Require Import ZArith Lia.
From stdpp Require Import base tactics numbers option list gmap strings.
From S2P Require Import Prelude RustStr StrSearch Civil Decimals Values Slots Operators OperatorSpec Renders Texts TextSpec Pictures.

#[local] Open Scope Z_scope.
#[local] Open Scope rust_scope.

(** * Parts *)

(** The parts a picture can be split into: names as the parser leaves them,
    literals as long as they can be. *)
Definition part_wf (p : Part) : Prop :=
  match p with
  | Literal text => text <> [] /\ ~ ch "<" ∈ text
  | Component name argument =>
      ~ ch ">" ∈ name /\ ~ ch "," ∈ name /\ trim name = name /\ to_ascii_lowercase name = name /\
      match argument with Some a => ~ ch ">" ∈ a | None => True end
  end.

Fixpoint parts_wf (ps : list Part) : Prop :=
  match ps with
  | [] => True
  | p :: ps =>
      part_wf p /\ parts_wf ps /\ match p, ps with Literal _, Literal _ :: _ => False | _, _ => True end
  end.

Definition show_part (p : Part) : str :=
  match p with
  | Literal text => text
  | Component name argument =>
      [ch "<"] ++ name ++ match argument with Some a => ch "," :: a | None => [] end ++ [ch ">"]
  end.
Definition show_parts (ps : list Part) : str := ps ≫= show_part.

Lemma split_once_app sep a b : ~ sep ∈ a -> split_once sep (a ++ sep :: b) = Some (a, b).
Proof.
  induction a as [|c a IH]; intros H; simpl; [by rewrite Z.eqb_refl|]. rewrite elem_of_cons in H.
  destruct (Z.eqb_spec c sep); [naive_solver|]. rewrite IH; naive_solver.
Qed.

Lemma split_once_none sep a : ~ sep ∈ a -> split_once sep a = None.
Proof.
  induction a as [|c a IH]; intros H; simpl; [done|]. rewrite elem_of_cons in H.
  destruct (Z.eqb_spec c sep); [naive_solver|]. rewrite IH; naive_solver.
Qed.

Lemma find_char_app c a b : ~ c ∈ a -> find_char (Z.eqb c) (a ++ c :: b) = Some (length a).
Proof.
  induction a as [|x a IH]; intros H; simpl; [by rewrite Z.eqb_refl|]. rewrite elem_of_cons in H.
  destruct (Z.eqb_spec c x); [naive_solver|]. rewrite IH; naive_solver.
Qed.

Lemma find_char_absent c a : ~ c ∈ a -> find_char (Z.eqb c) a = None.
Proof.
  induction a as [|x a IH]; intros H; simpl; [done|]. rewrite elem_of_cons in H.
  destruct (Z.eqb_spec c x); [naive_solver|]. rewrite IH; naive_solver.
Qed.

Lemma component_wf name argument :
  part_wf (Component name argument) ->
  component (name ++ match argument with Some a => ch "," :: a | None => [] end) = Component name argument.
Proof.
  intros (_ & Hc & Ht & Hl & _). unfold component. destruct argument as [a|].
  - rewrite split_once_app by done. by rewrite Ht, Hl.
  - rewrite app_nil_r, split_once_none by done. by rewrite Ht, Hl.
Qed.

(** One component or literal at the front of the rest. *)
Lemma parts_step_inner fuel picture inner rest acc :
  ~ ch ">" ∈ inner ->
  parts_loop (S fuel) picture (ch "<" :: inner ++ ch ">" :: rest) acc =
    parts_loop fuel picture rest (acc ++ [component inner]).
Proof.
  intros Hn. assert (~ ch ">" ∈ ch "<" :: inner) as Hi by (rewrite elem_of_cons; by intros [?|?]).
  cbn [parts_loop]. change (find_char (Z.eqb (ch "<")) (ch "<" :: inner ++ ch ">" :: rest)) with (Some O). cbv iota.
  rewrite app_comm_cons, find_char_app by done. cbn [length].
  replace (drop (S (S (length inner))) _) with rest.
  2:{ change (ch "<" :: inner) with ([ch "<"] ++ inner). rewrite <- app_assoc. cbn [app drop].
      change (ch ">" :: rest) with ([ch ">"] ++ rest). rewrite app_assoc. symmetry.
      replace (S (length inner)) with (length (inner ++ [ch ">"])) by (rewrite length_app; simpl; lia).
      apply drop_app_length. }
  do 2 f_equal. rewrite <- app_comm_cons. cbn [drop]. f_equal. rewrite drop_0.
  replace (S (length inner) - 1)%nat with (length inner) by lia. by rewrite take_app_length.
Qed.

Lemma parts_step_component fuel picture name argument rest acc :
  part_wf (Component name argument) ->
  parts_loop (S fuel) picture (show_part (Component name argument) ++ rest) acc =
    parts_loop fuel picture rest (acc ++ [Component name argument]).
Proof.
  intros Hwf. rewrite <- (component_wf name argument) at 2 by done. rewrite <- parts_step_inner.
  - unfold show_part. simpl. by rewrite <- !app_assoc.
  - destruct Hwf as (Hn & _ & _ & _ & Ha). rewrite elem_of_app. intros [?|Hin]; [done|].
    destruct argument; [|by inversion Hin]. rewrite elem_of_cons in Hin. by destruct Hin.
Qed.

Lemma parts_step_literal fuel picture text rest acc :
  part_wf (Literal text) -> (forall c r, rest = c :: r -> c = ch "<") ->
  parts_loop (S fuel) picture (text ++ rest) acc = parts_loop fuel picture rest (acc ++ [Literal text]).
Proof.
  intros [Hne Ht] Hr. cbn [parts_loop]. destruct rest as [|c rest].
  - rewrite app_nil_r, find_char_absent by done. by destruct text.
  - rewrite (Hr c rest eq_refl), find_char_app by done. rewrite take_app_length, drop_app_length. by destruct text.
Qed.

Lemma parts_loop_show fuel picture ps acc :
  parts_wf ps -> (length ps < fuel)%nat -> parts_loop fuel picture (show_parts ps) acc = Some (Ok (acc ++ ps)).
Proof.
  revert fuel acc. induction ps as [|p ps IH]; intros [|fuel] acc Hwf Hf; try (simpl in Hf; lia);
    [by rewrite (right_id_L [] (++))|]. destruct Hwf as (Hp & Hps & Hadj). simpl in Hf.
  change (show_parts (p :: ps)) with (show_part p ++ show_parts ps).
  assert (parts_loop (S fuel) picture (show_part p ++ show_parts ps) acc =
          parts_loop fuel picture (show_parts ps) (acc ++ [p])) as ->.
  { destruct p as [text|name argument]; [|by apply parts_step_component].
    apply parts_step_literal; [done|]. intros c r. destruct ps as [|[t|n a] ps]; [done|done|].
    unfold show_parts. simpl. by intros [= <- _]. }
  rewrite IH by (done || lia). by rewrite <- app_assoc.
Qed.

Lemma show_part_nonempty p : part_wf p -> (1 <= length (show_part p))%nat.
Proof. destruct p as [text|name argument]; [intros [? _]; destruct text; [done|simpl; lia]|intros _; simpl; lia]. Qed.

Lemma show_parts_length ps : parts_wf ps -> (length ps <= length (show_parts ps))%nat.
Proof.
  induction ps as [|p ps IH]; [done|]. intros (Hp & Hps & _).
  change (show_parts (p :: ps)) with (show_part p ++ show_parts ps). rewrite length_app. simpl.
  pose proof (show_part_nonempty p Hp). specialize (IH Hps). lia.
Qed.

(** ** The fuel *)

Lemma parts_loop_total fuel picture rest acc :
  (S (length rest) < fuel)%nat -> exists r, parts_loop fuel picture rest acc = Some r.
Proof.
  revert rest acc. induction fuel as [|fuel IH]; intros rest acc Hf; [lia|]. cbn [parts_loop].
  destruct rest as [|c rest]; [by eexists|]. destruct (find_char (Z.eqb (ch "<")) (c :: rest)) as [[|at_]|] eqn:E.
  - destruct (find_char (Z.eqb (ch ">")) (c :: rest)) as [close|] eqn:Ec; [|by eexists].
    apply IH. rewrite length_drop. simpl in *. lia.
  - apply find_char_lt in E. apply IH. rewrite length_drop. simpl in *. lia.
  - apply IH. simpl in *. lia.
Qed.

(** A picture is read as the parts it is written from: any run of literal
    texts and components, with or without an argument, comes back from its text
    as it is; and the reading of any picture ends, within the fuel of its
    length, with parts or with an error. *)
Lemma picture_parts_roundtrip :
  (forall ps, parts_wf ps -> parts (show_parts ps) = Ok ps) /\
  (forall picture, exists r, parts_loop (S (S (length picture))) picture picture [] = Some r /\ parts picture = r).
Proof.
  split.
  - intros ps Hwf. unfold parts. rewrite parts_loop_show; [done|done|].
    pose proof (show_parts_length ps Hwf). lia.
  - intros picture. destruct (parts_loop_total (S (S (length picture))) picture picture [] ltac:(lia)) as [r Hr].
    exists r. unfold parts. by rewrite Hr.
Qed.

(** A width is not held to the limit of one text: Format with length 0 gives a
    text as wide as its picture says. *)
Lemma pad_left_any_width text width filler :
  char_count text <= width -> char_count (pad_left text (Some width) filler) = width.
Proof.
  intros H. unfold pad_left. destruct (Z.ltb_spec (char_count text) width); [|lia].
  unfold char_count, repeat_char in *. rewrite length_app, length_replicate. lia.
Qed.

(** * Format *)

Section format.
Context {D : Decimal} {DM : DecimalMath} (h : heap) (round_dp : decimal -> Z -> decimal).

Lemma fit_length text n :
  in_i64 n = true -> n <> 0 -> str_len text <= i64_max ->
  let missing := Z.max (Z.abs n - char_count text) 0 in
  let padding := repeat_char (ch " ") missing in
  if decide (str_len text + missing <= MAX_TEXT_BYTES) then
    exists t, fit text n = Normal (VText t) /\ char_count t = Z.abs n /\
      t = if 0 <? n then take (Z.to_nat n) text ++ padding else padding ++ take (Z.to_nat (- n)) text
  else is_error (fit text n) = true.
Proof.
  intros Hn Hz Hb. cbv zeta. unfold fit. destruct (Z.eqb_spec n 0); [done|].
  rewrite in_i64_spec in Hn. pose proof (char_count_nonneg text). pose proof (str_len_nonneg text).
  unfold saturating_sub, check_text_size. set (missing := Z.max (Z.abs n - char_count text) 0).
  assert (saturating_add (str_len text) missing <= MAX_TEXT_BYTES <-> str_len text + missing <= MAX_TEXT_BYTES) as Hsize
    by (unfold saturating_add, MAX_TEXT_BYTES; unfold_ints; lia).
  destruct (Z.leb_spec (saturating_add (str_len text) missing) MAX_TEXT_BYTES).
  2:{ rewrite decide_False by (rewrite <- Hsize; lia). done. }
  rewrite decide_True by tauto. unfold repeat_char, take_chars, char_count in *.
  destruct (Z.ltb_spec (Z.abs n) (Z.of_nat (length text))).
  - replace missing with 0 by lia. eexists. split; [done|]. rewrite take_min_length by lia. simpl.
    rewrite app_nil_r, length_take. split; [lia|]. destruct (Z.ltb_spec 0 n); f_equal; lia.
  - replace (Z.abs n - Z.of_nat (length text)) with missing by lia. eexists. split; [done|].
    destruct (Z.ltb_spec 0 n); rewrite take_ge, length_app, length_replicate by lia; (split; [lia|done]).
Qed.

(** Format fits its text to the length asked for: a length above 0 gives
    exactly that many characters, the first ones of the text or the text and
    blanks after it; a length below 0 as many with the blanks in front; 0 the
    text itself; over the limit of one text it is an error, and so is a format
    that cannot be rendered. *)
Lemma format_fits_length value n format text :
  in_i64 n = true -> str_len text <= i64_max ->
  format_text h round_dp value (Some format) = Ok text ->
  let formatted := builtin_format h round_dp [value; VInteger n; format] in
  let missing := Z.max (Z.abs n - char_count text) 0 in
  let padding := repeat_char (ch " ") missing in
  if decide (n = 0) then formatted = Normal (VText text)
  else if decide (str_len text + missing <= MAX_TEXT_BYTES) then
    exists t, formatted = Normal (VText t) /\ char_count t = Z.abs n /\
      t = if 0 <? n then take (Z.to_nat n) text ++ padding else padding ++ take (Z.to_nat (- n)) text
  else is_error formatted = true.
Proof.
  intros Hn Hb Ht. cbv zeta. assert (builtin_format h round_dp [value; VInteger n; format] = fit text n) as ->.
  { cbn [builtin_format length Nat.ltb Nat.leb lookup list_lookup format_length]. by rewrite Ht. }
  destruct (decide (n = 0)) as [->|Hz]; [done|]. by apply fit_length.
Qed.

(** * Standard formats *)

(** What [rust_decimal] documents of a whole number's text and sign. *)
Class DecimalIntegers : Prop := {
  dec_int_text : forall n, in_i64 n = true -> dec_to_str (dec_normalize (dec_abs (dec_from n))) = u64_to_str (Z.abs n);
  dec_int_sign : forall n, in_i64 n = true -> dec_cmp (dec_from n) dec_zero = Z.compare n 0;
}.

Context {DI : DecimalIntegers}.

Lemma digits_no_dot ds : digits_only ds -> ~ ch "." ∈ ds.
Proof. intros H Hin. by pose proof (proj1 (Forall_forall _ _) H _ Hin). Qed.

Lemma number_of_integer n :
  in_i64 n = true ->
  number_of round_dp (VInteger n) None = Some {| negative := n <? 0; integer := u64_to_str (Z.abs n); fraction := [] |}.
Proof.
  intros Hn. unfold number_of. cbn [as_decimal]. rewrite dec_int_text, dec_int_sign by done.
  rewrite split_once_none by (apply digits_no_dot, u64_to_str_digits; lia). done.
Qed.

Lemma render_picture_parts depth value picture ps filler precision :
  parts picture = Ok ps -> settings ps (ch " ") None = Ok (filler, precision) ->
  render_picture_at h round_dp (S depth) value picture =
    render_parts (render_component h round_dp (render_picture_at h round_dp depth value) value filler precision) ps [].
Proof. intros Hp Hs. cbn [render_picture_at]. rewrite Hp. cbn [res_bind]. rewrite Hs. done. Qed.

(** Render the parts of a literal picture, component by component. *)
Ltac picture_parts ps :=
  match goal with |- context [render_picture_at _ _ (S ?d) ?v ?p] =>
    rewrite (render_picture_parts d v p ps (ch " ") None eq_refl eq_refl) end;
  cbn [render_parts]; unfold render_component; which_operator; cbn [orb res_bind];
  repeat match goal with |- context [is_clock ?x] =>
    let b := eval vm_compute in (is_clock x) in change (is_clock x) with b end; cbv iota.

Abbreviation part name := (Component (lit name) None).
Abbreviation part2 name := (Component (lit name) (Some (lit "2"))).

Ltac numbers :=
  cbn [mbind option_bind]; rewrite !number_of_integer by done;
  cbn [res_bind ok_or negative integer fraction pad_left app]; rewrite ?app_nil_r.

(** The five standard pictures of an Integer. *)
Lemma standard_picture_integer depth n number :
  in_i64 n = true -> 0 <= number <= 4 ->
  (picture <-? standard_picture (VInteger n) number ; render_picture_at h round_dp (S depth) (VInteger n) picture) =
    Ok (if number =? 0 then render_value h (VInteger n)
        else if number =? 3 then group_thousands (u64_to_str (Z.abs n)) ++ (if n <? 0 then lit "-" else [])
        else if number =? 4 then u64_to_str (Z.abs n) ++ (if n <? 0 then lit "-" else [])
        else i64_to_str n).
Proof.
  intros Hn Hnum. unfold standard_picture. cbn [is_numeric].
  assert (i64_to_str n = (if n <? 0 then lit "-" else []) ++ u64_to_str (Z.abs n)) as Hs.
  { unfold i64_to_str. destruct (Z.ltb_spec n 0); [by rewrite Z.abs_neq by lia|by rewrite Z.abs_eq by lia]. }
  assert (number = 0 \/ number = 1 \/ number = 2 \/ number = 3 \/ number = 4) as [->|[->|[->|[->| ->]]]] by lia;
    cbn [Z.eqb Pos.eqb res_bind].
  - picture_parts [part "sign"; part "integer thousand"; part "decimals"]. numbers. done.
  - picture_parts [part "sign"; part "integer"; part "decimals"]. numbers. by rewrite Hs.
  - picture_parts [part "sign"; part "integer"; part "decimals"]. numbers. by rewrite Hs.
  - picture_parts [part "integer thousand"; part "decimals"; part "sign"]. by numbers.
  - picture_parts [part "integer"; part "decimals"; part "sign"]. by numbers.
Qed.

Lemma pad_left_two n : 0 <= n -> pad_left (i64_to_str n) (Some 2) (ch "0") = zero_padded 2 n.
Proof.
  intros Hn. unfold pad_left, i64_to_str, zero_padded. destruct (Z.ltb_spec n 0); [lia|].
  unfold pad_zeros, repeat_char, char_count. destruct (Z.ltb_spec (Z.of_nat (length (u64_to_str n))) 2).
  - do 2 f_equal. lia.
  - by replace (2 - length (u64_to_str n))%nat with O by lia.
Qed.

Ltac two_digits :=
  repeat match goal with |- context [@mbind option _ ?A ?B ?f (Some (lit "2"))] =>
    change (@mbind option _ A B f (Some (lit "2"))) with (Some 2) end;
  cbn [mbind option_bind ok_or date_of time_of res_bind].

(** The picture of the ISO date, and of the date as Format shows it. *)
Lemma date_pictures depth value d :
  date_of value = Some d ->
  let '(y, m, day) := ymd_from_al_days d in
  render_picture_at h round_dp (S depth) value (lit "<Year4>-<Month,2>-<Day,2>") =
    Ok (zero_padded 4 y ++ lit "-" ++ zero_padded 2 m ++ lit "-" ++ zero_padded 2 day) /\
  render_picture_at h round_dp (S depth) value (lit "<Month,2>/<Day,2>/<Year4>") =
    Ok (zero_padded 2 m ++ lit "/" ++ zero_padded 2 day ++ lit "/" ++ zero_padded 4 y).
Proof.
  intros Hd. pose proof (al_days_of_ymd d) as Hymd. destruct (ymd_from_al_days d) as [[y m] day] eqn:Ed.
  destruct Hymd as [[[Hm1 Hm2] [Hday _]] _]. split.
  - picture_parts [part "year4"; Literal (lit "-"); part2 "month"; Literal (lit "-"); part2 "day"].
    two_digits. rewrite Hd. cbn [ok_or res_bind]. rewrite Ed. cbn [res_bind].
    rewrite !pad_left_two by lia. by rewrite <- !app_assoc.
  - picture_parts [part2 "month"; Literal (lit "/"); part2 "day"; Literal (lit "/"); part "year4"].
    two_digits. rewrite Hd. cbn [ok_or res_bind]. rewrite Ed. cbn [res_bind].
    rewrite !pad_left_two by lia. by rewrite <- !app_assoc.
Qed.

Lemma time_picture depth value t :
  time_of value = Some t -> 0 <= t -> t mod 1000 = 0 ->
  render_picture_at h round_dp (S depth) value (lit "<Hours24,2>:<Minutes,2>:<Seconds,2>") = Ok (render_time_ms t).
Proof.
  intros Ht Hpos Hms.
  picture_parts [part2 "hours24"; Literal (lit ":"); part2 "minutes"; Literal (lit ":"); part2 "seconds"].
  two_digits. rewrite Ht. cbn [ok_or res_bind]. unfold clock_text. which_operator. cbn [res_bind].
  assert (0 <= t / 1000) by (apply Z.div_pos; lia).
  rewrite !pad_left_two by (first [apply Z.rem_nonneg; [lia|]; apply Z.quot_pos; lia|apply Z.rem_nonneg; lia|apply Z.quot_pos; lia]).
  unfold render_time_ms. rewrite Hms. cbn [Z.eqb]. by rewrite <- !app_assoc.
Qed.

(** ** The depth *)

Definition no_standard (p : Part) : Prop :=
  match p with Component name _ => str_is name "standard format" = false | Literal _ => True end.

Lemma render_parts_nested nested nested' value filler precision ps out :
  Forall no_standard ps ->
  render_parts (render_component h round_dp nested value filler precision) ps out =
  render_parts (render_component h round_dp nested' value filler precision) ps out.
Proof.
  intros H. revert out. induction H as [|[text|name argument] ps Hp _ IH]; intros out; cbn [render_parts]; [done|done|].
  assert (render_component h round_dp nested value filler precision name argument =
          render_component h round_dp nested' value filler precision name argument) as ->.
  { cbn [no_standard] in Hp. unfold render_component. by rewrite Hp. }
  destruct (render_component _ _ _ _ _ _ _ _); [apply IH|done].
Qed.

(** The parts of a standard picture, wherever it is read. *)
Lemma standard_parts value number standard :
  standard_picture value number = Ok standard ->
  (3 <= length standard)%nat /\
  exists ps, Forall no_standard ps /\
    forall k picture acc, parts_loop (4 + k) picture standard acc = Some (Ok (acc ++ ps)).
Proof.
  unfold standard_picture. destruct (is_numeric value); [|done].
  repeat match goal with |- context [if ?b then _ else _] => destruct b end; intros [= <-].
  all: split; [apply Nat.leb_le; reflexivity|].
  all: match goal with |- context [parts_loop _ _ (lit ?s)] =>
    let r := eval vm_compute in (parts (lit s)) in match r with Ok ?ps => exists ps end end.
  all: split; [repeat (apply Forall_cons; split); [reflexivity..|by apply Forall_nil]|]; intros k picture acc.
  all: match goal with |- context [?l ++ [?a; ?b; ?c]] =>
    replace (l ++ [a; b; c]) with (((l ++ [a]) ++ [b]) ++ [c]) by (by rewrite <- !app_assoc) end; reflexivity.
Qed.

Lemma parts_of_loop picture ps :
  (forall k, parts_loop (5 + k) picture picture [] = Some (Ok ps)) -> (3 <= length picture)%nat -> parts picture = Ok ps.
Proof.
  intros H Hl. unfold parts. replace (S (S (length picture))) with (5 + (length picture - 3))%nat by lia. by rewrite H.
Qed.

Lemma u64_to_str_solid c n : 0 <= n -> c ∈ u64_to_str n -> 48 <= c <= 57.
Proof.
  intros Hn Hin. pose proof (proj1 (Forall_forall _ _) (u64_to_str_digits n Hn) c Hin) as H.
  cbv beta in H. unfold is_ascii_digit in H. to_prop. lia.
Qed.

(** A standard picture is the same at every depth, with a precision in front
    too. *)
Lemma nested_depth d d' value number standard precision :
  standard_picture value number = Ok standard ->
  match precision with Some (min, max) => 0 <= min /\ 0 <= max | None => True end ->
  let picture := match precision with
                 | Some (min, max) => lit "<Precision," ++ u64_to_str min ++ lit ":" ++ u64_to_str max ++ lit ">" ++ standard
                 | None => standard
                 end in
  render_picture_at h round_dp (S d) value picture = render_picture_at h round_dp (S d') value picture.
Proof.
  intros Hs Hp. cbv zeta. destruct (standard_parts _ _ _ Hs) as (Hlen & ps & Hps & Hloop).
  assert (exists ps', Forall no_standard ps' /\ parts (match precision with
    | Some (min, max) => lit "<Precision," ++ u64_to_str min ++ lit ":" ++ u64_to_str max ++ lit ">" ++ standard
    | None => standard end) = Ok ps') as (ps' & Hps' & Hparts).
  { destruct precision as [[min max]|].
    - set (inner := lit "Precision," ++ u64_to_str min ++ lit ":" ++ u64_to_str max).
      assert (lit "<Precision," ++ u64_to_str min ++ lit ":" ++ u64_to_str max ++ lit ">" ++ standard =
              ch "<" :: inner ++ ch ">" :: standard) as -> by (unfold inner; by rewrite <- !app_assoc).
      exists (component inner :: ps). split.
      { constructor; [|done]. subst inner. by generalize (u64_to_str min ++ lit ":" ++ u64_to_str max). }
      apply parts_of_loop; [|simpl; rewrite length_app; simpl; lia]. intros k.
      change (5 + k)%nat with (S (4 + k)). rewrite parts_step_inner; [apply Hloop|].
      unfold inner. rewrite !elem_of_app. intros [Hx|[Hx|[Hx|Hx]]];
        [vm_compute in Hx|apply u64_to_str_solid in Hx; lia|vm_compute in Hx|apply u64_to_str_solid in Hx; lia];
        repeat (apply elem_of_cons in Hx as [Hx|Hx]; [discriminate|]); by inversion Hx.
    - exists ps. split; [done|]. apply parts_of_loop; [intros k; by rewrite (Hloop (S k))|done]. }
  cbn [render_picture_at]. rewrite Hparts. cbn [res_bind]. destruct (settings ps' _ _); [|done].
  cbn [res_bind]. by apply render_parts_nested.
Qed.

Lemma parse_digits_nonneg acc s n : 0 <= acc -> parse_digits acc s = Some n -> 0 <= n.
Proof.
  revert acc. induction s as [|c s IH]; intros acc Hacc; cbn [parse_digits]; [by intros [= <-]|].
  destruct (is_ascii_digit c) eqn:Hc; [|done]. apply IH. unfold is_ascii_digit in Hc. to_prop. lia.
Qed.

Lemma parse_u32_nonneg s n : parse_u32 s = Some n -> 0 <= n.
Proof.
  unfold parse_u32, parse_usize. destruct (parse_nat _) as [m|] eqn:E; [|done]. cbn [mbind option_bind].
  destruct (m <=? usize_max); [|done]. cbn [mbind option_bind]. destruct (m <? 2 ^ 32); [|done]. intros [= <-].
  unfold parse_nat in E. destruct (match s with c :: ds => if c =? 43 then ds else s | [] => [] end); [done|].
  by eapply parse_digits_nonneg in E.
Qed.

Lemma settings_precision ps filler precision s :
  match precision with Some (min, max) => 0 <= min /\ 0 <= max | None => True end ->
  settings ps filler precision = Ok s ->
  match s.2 with Some (min, max) => 0 <= min /\ 0 <= max | None => True end.
Proof.
  revert filler precision. induction ps as [|[text|name argument] ps IH]; intros filler precision Hp; cbn [settings].
  - by intros [= <-].
  - by apply IH.
  - destruct (str_is name "filler character"); [by apply IH|]. destruct (str_is name "precision"); [|by apply IH].
    destruct (parse_precision (default [] argument)) as [[min max]|] eqn:E; [|done]. cbn [res_bind]. apply IH.
    unfold parse_precision in E. destruct (default _ _) as [a b].
    destruct (parse_u32 (trim a)) as [m1|] eqn:E1; [|done]. cbn [ok_or res_bind] in E.
    destruct (parse_u32 (trim b)) as [m2|] eqn:E2; [|done]. injection E as <- <-. eauto using parse_u32_nonneg.
Qed.

Lemma render_parts_ext f g ps out :
  (forall name argument, f name argument = g name argument) -> render_parts f ps out = render_parts g ps out.
Proof.
  intros H. revert out. induction ps as [|[text|name argument] ps IH]; intros out; cbn [render_parts]; [done|apply IH|].
  rewrite H. destruct (g name argument); [apply IH|done].
Qed.

(** Two levels are enough. *)
Lemma render_picture_depth depth value picture :
  render_picture_at h round_dp (S (S depth)) value picture = render_picture h round_dp value picture.
Proof.
  assert (forall d, render_picture_at h round_dp (S d) value picture =
    ps <-? parts picture ; s <-? settings ps (ch " ") None ;
    render_parts (render_component h round_dp (render_picture_at h round_dp d value) value s.1 s.2) ps []) as Hstep by done.
  unfold render_picture. rewrite !Hstep. destruct (parts picture) as [ps|]; [|done]. cbn [res_bind].
  destruct (settings ps _ None) as [s|] eqn:Es; [|done]. cbn [res_bind].
  apply settings_precision in Es; [|done]. apply render_parts_ext. intros name argument. unfold render_component.
  destruct (_ || _); [done|]. destruct (str_is name "standard format"); [|done].
  destruct (ok_or _ _) as [number|]; [|done]. cbn [res_bind]. destruct (number =? 9); [done|].
  destruct (number_of _ _ _); [|done]. destruct (standard_picture value number) as [standard|] eqn:E; [|done].
  cbn [res_bind]. by eapply nested_depth.
Qed.

(** * Pictures and renderers *)

(** The pictures render what the renderers do.  Of an Integer the standard
    formats 0 and 9 as components are Format's own text and XML, and the
    formats 1 to 4 its digits with the sign in front or behind, grouped for 3;
    of a date the ISO picture is its XML, and the picture of month, day and
    year its text; of a time of whole seconds the picture of hours, minutes and
    seconds is its text.  A deeper nesting of standard formats changes no
    picture. *)
Lemma pictures_agree_with_renderers :
  (forall n, in_i64 n = true ->
     render_picture h round_dp (VInteger n) (lit "<Standard Format,0>") = Ok (render_value h (VInteger n)) /\
     render_picture h round_dp (VInteger n) (lit "<Standard Format,9>") = Ok (render_value_xml h (VInteger n)) /\
     forall number, 1 <= number <= 4 ->
       builtin_format h round_dp [VInteger n; VInteger 0; VInteger number] =
       Normal (VText (if number =? 3 then group_thousands (u64_to_str (Z.abs n)) ++ (if n <? 0 then lit "-" else [])
                      else if number =? 4 then u64_to_str (Z.abs n) ++ (if n <? 0 then lit "-" else [])
                      else i64_to_str n))) /\
  (forall d, d <> 0 ->
     builtin_format h round_dp [VDate d; VInteger 0; VText (lit "<Year4>-<Month,2>-<Day,2>")] =
       builtin_format h round_dp [VDate d; VInteger 0; VInteger 9] /\
     builtin_format h round_dp [VDate d; VInteger 0; VText (lit "<Month,2>/<Day,2>/<Year4>")] =
       builtin_format h round_dp [VDate d]) /\
  (forall t, 0 < t -> t mod 1000 = 0 ->
     builtin_format h round_dp [VTime t; VInteger 0; VText (lit "<Hours24,2>:<Minutes,2>:<Seconds,2>")] =
       builtin_format h round_dp [VTime t]) /\
  (forall depth value picture,
     render_picture_at h round_dp (S (S depth)) value picture = render_picture h round_dp value picture).
Proof.
  assert (forall value format text, format_text h round_dp value (Some format) = Ok text ->
    builtin_format h round_dp [value; VInteger 0; format] = Normal (VText text)) as Hfmt.
  { intros value format text H. cbn [builtin_format length Nat.ltb Nat.leb lookup list_lookup format_length]. by rewrite H. }
  split_and!; [intros n Hn|intros d Hd|intros t Ht Hms|apply render_picture_depth].
  - split_and!.
    + unfold render_picture.
      rewrite (render_picture_parts 1 _ (lit "<Standard Format,0>") [Component (lit "standard format") (Some (lit "0"))] (ch " ") None eq_refl eq_refl).
      cbn [render_parts]. unfold render_component. which_operator. cbn [orb].
      change (ok_or _ _) with (Ok (E:=str) 0). cbn [res_bind Z.eqb]. rewrite number_of_integer by done.
      pose proof (standard_picture_integer 0 n 0 Hn ltac:(lia)) as H. cbn [res_bind standard_picture is_numeric Z.eqb] in *.
      rewrite H. by cbn [res_bind app].
    + reflexivity.
    + intros number Hnum. apply Hfmt. unfold format_text.
      destruct (Z.eqb_spec number 0); [lia|]. destruct (Z.eqb_spec number 9); [lia|].
      unfold render_standard, render_picture. rewrite standard_picture_integer by (done || lia).
      by destruct (Z.eqb_spec number 0).
  - pose proof (date_pictures 1 (VDate d) d eq_refl) as H.
    assert (builtin_format h round_dp [VDate d] = Normal (VText (render_value h (VDate d)))) as -> by done.
    rewrite (Hfmt _ (VInteger 9) (render_value_xml h (VDate d))) by done.
    cbn [render_value render_value_xml]. destruct (Z.eqb_spec d 0); [done|].
    destruct (ymd_from_al_days d) as [[y m] day]. destruct H as [H1 H2].
    split; apply Hfmt; unfold format_text; cbn [lit]; unfold render_picture.
    + by rewrite H1.
    + by rewrite H2.
  - pose proof (time_picture 1 (VTime t) t eq_refl ltac:(lia) Hms) as H.
    assert (builtin_format h round_dp [VTime t] = Normal (VText (render_value h (VTime t)))) as -> by done.
    apply Hfmt. cbn [render_value]. destruct (Z.eqb_spec t 0); [lia|]. unfold format_text, render_picture. by rewrite H.
Qed.

(** Pictures are read as they are written and render what the renderers
    do.  Any run of literal texts and components, with or without an argument,
    comes back from its text as it is, and the reading of any picture ends,
    within the fuel of its length, with parts or with an error.  Of an Integer
    the standard formats 0 and 9 as components are Format's own text and XML,
    and the formats 1 to 4 its digits with the sign in front or behind, grouped
    for 3; of a date the ISO picture is its XML, and the picture of month, day
    and year its text; of a time of whole seconds the picture of hours, minutes
    and seconds is its text.  A deeper nesting of standard formats changes no
    picture. *)
Lemma pictures_exact :
  (forall ps, parts_wf ps -> parts (show_parts ps) = Ok ps) /\
  (forall picture, exists r, parts_loop (S (S (length picture))) picture picture [] = Some r /\ parts picture = r) /\
  (forall n, in_i64 n = true ->
     render_picture h round_dp (VInteger n) (lit "<Standard Format,0>") = Ok (render_value h (VInteger n)) /\
     render_picture h round_dp (VInteger n) (lit "<Standard Format,9>") = Ok (render_value_xml h (VInteger n)) /\
     forall number, 1 <= number <= 4 ->
       builtin_format h round_dp [VInteger n; VInteger 0; VInteger number] =
       Normal (VText (if number =? 3 then group_thousands (u64_to_str (Z.abs n)) ++ (if n <? 0 then lit "-" else [])
                      else if number =? 4 then u64_to_str (Z.abs n) ++ (if n <? 0 then lit "-" else [])
                      else i64_to_str n))) /\
  (forall d, d <> 0 ->
     builtin_format h round_dp [VDate d; VInteger 0; VText (lit "<Year4>-<Month,2>-<Day,2>")] =
       builtin_format h round_dp [VDate d; VInteger 0; VInteger 9] /\
     builtin_format h round_dp [VDate d; VInteger 0; VText (lit "<Month,2>/<Day,2>/<Year4>")] =
       builtin_format h round_dp [VDate d]) /\
  (forall t, 0 < t -> t mod 1000 = 0 ->
     builtin_format h round_dp [VTime t; VInteger 0; VText (lit "<Hours24,2>:<Minutes,2>:<Seconds,2>")] =
       builtin_format h round_dp [VTime t]) /\
  (forall depth value picture,
     render_picture_at h round_dp (S (S depth)) value picture = render_picture h round_dp value picture).
Proof.
  split; [exact (proj1 picture_parts_roundtrip)|]. split; [exact (proj2 picture_parts_roundtrip)|exact pictures_agree_with_renderers].
Qed.

End format.

(** * The theorems evaluated *)

#[local] Existing Instance mini_decimal.

#[local] Instance scaled_math : DecimalMath := {|
  dec_abs a := Scaled (Z.abs (mant a)) (scale a); dec_round_half_away d := d; dec_round_to_zero d := d;
  dec_round_away d := d; dec_checked_powd _ _ := None |}.

#[local] Instance scaled_integers : DecimalIntegers.
Proof.
  split; intros n Hn.
  - cbn [dec_to_str dec_normalize dec_abs dec_from mini_decimal scaled_math scale mant scaled_strip].
    unfold scaled_to_str. cbn [scale mant]. change (10 ^ Z.of_nat 0) with 1. rewrite Z.div_1_r.
    destruct (Z.ltb_spec (Z.abs n) 0); [lia|]. rewrite app_nil_r. cbn [app]. f_equal. lia.
  - cbn [dec_cmp dec_from dec_zero mini_decimal]. unfold scaled_cmp. cbn [scale mant].
    change (10 ^ Z.of_nat 0) with 1. by rewrite !Z.mul_1_r.
Qed.

Definition no_rounding (d : decimal) (places : Z) : decimal := d.

