(* ===== verification/Collections.v ===== *)
(** The methods of [List], [Text], [TextBuilder] and [Dictionary] values
    ([interpreter/records/collection_methods.rs], and [declared_text_length] of
    [interpreter/dispatch/frames.rs]).

    The shared contents, the bytes each counts and the test's total are the
    record [Shared], which every method takes and returns; the receiver is
    looked up in the frames, which no method changes.  A lock is held for the
    whole of a method, on one thread, so it needs no state.  AL Integers hold 32
    bits, so the sums of positions do not overflow an [i64]. *)

From Stdlib Require Import ZArith Lia.
From stdpp Require Import base tactics numbers option list gmap strings.
From S2P Require Import Prelude RustStr StrSearch Decimals Values Slots Scopes Renders Texts.

#[local] Open Scope Z_scope.
#[local] Open Scope rust_scope.

(** * Texts of the standard library *)

(** [str::rfind]: the characters before the last occurrence. *)
Fixpoint rfind_str (p s : str) : option nat :=
  match (match s with [] => None | _ :: s => S <$> rfind_str p s end) with
  | Some n => Some n
  | None => if starts_with p s then Some O else None
  end.

(** [str::split] at a text, and [str::matches(..).count()]; the separator is
    not empty. *)
Fixpoint split_loop (fuel : nat) (sep s : str) : list str :=
  match fuel with
  | O => [s]
  | S fuel =>
      match find_str sep s with
      | Some (a, b) => a :: split_loop fuel sep (drop (length sep) b)
      | None => [s]
      end
  end.
Definition split_str (sep s : str) : list str := split_loop (S (length s)) sep s.

Fixpoint matches_loop (fuel : nat) (sep s : str) : Z :=
  match fuel with
  | O => 0
  | S fuel =>
      match find_str sep s with
      | Some (_, b) => 1 + matches_loop fuel sep (drop (length sep) b)
      | None => 0
      end
  end.
Definition match_count (sep s : str) : Z := matches_loop (S (length s)) sep s.

Definition ends_with (p s : str) : bool := starts_with (reverse p) (reverse s).

Definition is_one_of (s : str) (names : list string) : bool := existsb (str_is s) names.

Definition supports_list_method (method : str) : bool :=
  is_one_of (to_ascii_lowercase method)
    ["add"; "addrange"; "get"; "getrange"; "count"; "contains"; "indexof"; "lastindexof"; "insert"; "remove";
     "removeat"; "removerange"; "reverse"; "set"]%string.
Definition supports_text_method (method : str) : bool :=
  is_one_of (to_ascii_lowercase method)
    ["contains"; "startswith"; "endswith"; "indexof"; "lastindexof"; "replace"; "split"; "trim"; "trimstart";
     "trimend"; "tolower"; "toupper"; "substring"; "padleft"; "padright"; "remove"]%string.
Definition supports_textbuilder_method (method : str) : bool :=
  is_one_of (to_ascii_lowercase method)
    ["append"; "appendline"; "length"; "totext"; "clear"; "insert"; "remove"; "replace"]%string.
Definition supports_dict_method (method : str) : bool :=
  is_one_of (to_ascii_lowercase method)
    ["add"; "get"; "set"; "containskey"; "remove"; "count"; "keys"; "values"]%string.

Section collections.
Context {D : Decimal} {U : Unicode}.

(** * Shared contents *)

Record Shared := {
  cells : heap;
  counts : gmap Z Z;
  total : Z;
  next : Z;
}.

Definition count_of (s : Shared) (a : Z) : Z := default 0 (counts s !! a).

Definition set_cell (a : Z) (c : Contents) (s : Shared) : Shared :=
  {| cells := <[a := c]> (cells s); counts := counts s; total := total s; next := next s |}.
Definition set_count (a count total : Z) (s : Shared) : Shared :=
  {| cells := cells s; counts := <[a := count]> (counts s); total := total; next := next s |}.

Definition charge_cell (operation : str) (a bytes : Z) (s : Shared) : Res str Shared :=
  '(count, total) <-? charge operation bytes (count_of s a) (total s) ;
  Ok (set_count a count total s).
Definition release_cell (a bytes : Z) (s : Shared) : Shared :=
  let '(count, total) := release bytes (count_of s a) (total s) in set_count a count total s.
Definition recount_cell (operation : str) (a bytes : Z) (s : Shared) : Shared * Res str unit :=
  let '(count, total, r) := shared_recount operation bytes (count_of s a) (total s) in (set_count a count total s, r).

(** [Shared::new]. *)
Definition new_cell (c : Contents) (bytes : Z) (s : Shared) : Z * Shared :=
  let '(count, total) := shared_new bytes (total s) in
  (next s, {| cells := <[next s := c]> (cells s); counts := <[next s := count]> (counts s);
              total := total; next := next s + 1 |}).

(** [iter().map(element_bytes).sum()]. *)
Definition sum_bytes (l : list Value) : Z := foldr (fun v n => element_bytes v + n) 0 l.

Definition new_list (items : list Value) (member : option str) (s : Shared) : Value * Shared :=
  let '(a, s) := new_cell (CList items) (sum_bytes items) s in
  (VList {| contents := a; member_type := member; value_type := None |}, s).

(** The result, the state and the values written back to [var] arguments. *)
Definition Outcome : Type := (Eval * Shared * list (nat * Value))%type.
Definition fails (message : str) (s : Shared) : Outcome := (eval_error message, s, []).
Definition gives (v : Value) (s : Shared) : Outcome := (Normal v, s, []).

(** * Declared member types *)

(** [base.split('[').next()], trimmed. *)
Definition type_base (type_text : str) : str := trim (default [] (head (split_char (ch "[") type_text))).

Definition type_text_length (type_text : str) : option Z :=
  let trimmed := trim type_text in
  let base := to_ascii_lowercase (type_base trimmed) in
  if negb (str_is base "text" || str_is base "code") then None
  else
    start ← find_char (Z.eqb (ch "[")) trimmed;
    let rest := drop (S start) trimmed in
    end_ ← find_char (Z.eqb (ch "]")) rest;
    parse_usize (trim (take end_ rest)).

(** The slot is the default of the type, of which only the type matters; a
    default with contents of its own is dropped again. *)
Definition declared_member (value : Value) (member_type : option str) : Res str Value :=
  match member_type with
  | None => Ok value
  | Some member_type =>
      match default_for 0 ∅ (type_base member_type) with
      | None => Ok value
      | Some (slot, _) =>
          let capacity := type_text_length member_type in
          match slot, value with
          | VChar _, VText text | VChar _, VCode text =>
              _ <-? check_string_capacity text (Some 1) ; Ok (VChar (default 0 (head text)))
          | VText _, VChar c | VCode _, VChar c => coerce_into_slot slot (VText [c]) capacity
          | VInteger _, VChar c | VBigInteger _, VChar c => coerce_into_slot slot (VInteger c) None
          | _, _ => coerce_into_slot slot value capacity
          end
      end
  end.

Definition convert_at (n : nat) (args : list Value) (element_type : option str) : Res str (list Value) :=
  match args !! n with
  | Some element => v <-? declared_member element element_type ; Ok (<[n := v]> args)
  | None => Ok args
  end.

Fixpoint convert_all (args : list Value) (element_type : option str) : Res str (list Value) :=
  match args with
  | [] => Ok []
  | element :: args =>
      v <-? declared_member element element_type ; args <-? convert_all args element_type ; Ok (v :: args)
  end.

Definition declared_elements (method : str) (args : list Value) (element_type : option str) : Res str (list Value) :=
  if is_one_of method ["add"; "contains"; "indexof"; "lastindexof"; "remove"]%string then convert_at 0 args element_type
  else if is_one_of method ["insert"; "set"]%string then convert_at 1 args element_type
  else if str_is method "addrange" then convert_all args element_type
  else Ok args.

(** * Lists *)

Definition list_range (method : string) (args : list Value) (len : Z) : Res str (nat * nat) :=
  match args with
  | [VInteger index; VInteger count] =>
      if (1 <=? index) && (0 <=? count) && (index - 1 + count <=? len) then
        Ok (Z.to_nat (index - 1), Z.to_nat (index - 1 + count))
      else Err (lit method ++ lit ": index " ++ i64_to_str index ++ lit " and count " ++ i64_to_str count
                ++ lit " are out of range for " ++ u64_to_str len ++ lit " elements")
  | _ => Err (lit method ++ lit " expects an Integer index and count")
  end.

Definition list_index (method : string) (args : list Value) (len : Z) : Res str nat :=
  match args with
  | [VInteger index] =>
      if (1 <=? index) && (index - 1 <? len) then Ok (Z.to_nat (index - 1))
      else Err (lit method ++ lit ": index " ++ i64_to_str index ++ lit " out of range 1.." ++ u64_to_str len)
  | _ => Err (lit method ++ lit " expects exactly one Integer index")
  end.

(** An index out of range raises in a statement and is false in an
    expression. *)
Definition out_of_range (statement : bool) (error : str) (s : Shared) : Outcome :=
  if statement then fails error s else gives (VBoolean false) s.

Definition adds_elements (h : heap) (this other : Collection) : bool :=
  let is_list_type (t : str) := starts_with (lit "list of") (to_ascii_lowercase (trim_start t)) in
  let normalised (t : str) := to_ascii_lowercase (filter (fun c => is_whitespace c = false) t) in
  match member_type this, member_type other with
  | Some element, other_element =>
      if negb (is_list_type element) then true
      else
        match other_element with
        | Some other_element => str_eqb (normalised element) (normalised other_element)
        | None => existsb (fun item => match item with VList _ => true | _ => false end) (list_at h (contents other))
        end
  | None, _ => true
  end.

(** [cancelled i k] is what the [k]-th poll of the cancellation flag at the
    [i]-th element reads. *)
Fixpoint position_of_value (h : heap) (cancelled : nat -> nat -> bool) (needle : Value) (i : nat) (items : list Value) :
    option nat :=
  match items with
  | [] => None
  | item :: items =>
      if cancelled i O || is_eq (compare h (fun k => cancelled i (S k)) item needle) then Some i
      else position_of_value h cancelled needle (S i) items
  end.

(** [rposition]: the elements from the last to the first. *)
Definition rposition_of_value (h : heap) (cancelled : nat -> nat -> bool) (needle : Value) (items : list Value) : option nat :=
  (fun i => length items - 1 - i)%nat <$> position_of_value h cancelled needle 0 (reverse items).

Definition search_list (cancelled : nat -> nat -> bool) (this : Collection) (method : str) (needle : Value) (s : Shared) :
    Outcome :=
  let items := list_at (cells s) (contents this) in
  let position := if str_is method "lastindexof" then rposition_of_value (cells s) cancelled needle items
                  else position_of_value (cells s) cancelled needle 0 items in
  if cancelled (length items) O then fails (lit "interpreter cancelled in List." ++ method) s
  else if str_is method "contains" then gives (VBoolean (bool_decide (is_Some position))) s
  else if str_is method "remove" then
    match position with
    | Some position =>
        let removed := default VNull (items !! position) in
        let s := set_cell (contents this) (CList (delete position items)) s in
        gives (VBoolean true) (release_cell (contents this) (element_bytes removed) s)
    | None => gives (VBoolean false) s
    end
  else
    match position with
    | None => gives (VInteger 0) s
    | Some position => gives (VInteger (Z.of_nat position + 1)) s
    end.

(** The methods that read or change the locked items. *)
Definition list_method_on (this : Collection) (lower : str) (args : list Value) (statement : bool) (s : Shared) : Outcome :=
  let a := contents this in
  let items := list_at (cells s) a in
  let len := Z.of_nat (length items) in
  let replaced (items : list Value) (released : Z) := release_cell a released (set_cell a (CList items) s) in
  if str_is lower "addrange" then
    match args with
    | [] => fails (lit "List.AddRange expects at least one value or a List") s
    | _ => gives VEmpty (set_cell a (CList (items ++ args)) s)
    end
  else if str_is lower "getrange" then
    match list_range "List.GetRange" args len with
    | Ok (start, end_) =>
        let '(v, s) := new_list (take (end_ - start) (drop start items)) (member_type this) s in gives v s
    | Err error => fails error s
    end
  else if str_is lower "removerange" then
    match list_range "List.RemoveRange" args len with
    | Ok (start, end_) =>
        gives (VBoolean true) (replaced (take start items ++ drop end_ items) (sum_bytes (take (end_ - start) (drop start items))))
    | Err error => out_of_range statement error s
    end
  else if str_is lower "reverse" then
    match args with
    | [] => gives VEmpty (set_cell a (CList (reverse items)) s)
    | _ => fails (lit "List.Reverse expects no arguments") s
    end
  else if str_is lower "lastindexof" then fails (lit "List.LastIndexOf expects exactly one value") s
  else if str_is lower "add" then
    match args with
    | [value] => gives (VBoolean true) (set_cell a (CList (items ++ [value])) s)
    | _ => fails (lit "List.Add expects exactly one value") s
    end
  else if str_is lower "count" then
    match args with
    | [] => gives (VInteger len) s
    | _ => fails (lit "List.Count expects no arguments") s
    end
  else if str_is lower "get" then
    match args with
    | [index; _] =>
        match list_index "List.Get" [index] len with
        | Ok index => (Normal (VBoolean true), s, [(1%nat, default VNull (items !! index))])
        | Err error => out_of_range statement error s
        end
    | _ =>
        match list_index "List.Get" args len with
        | Ok index => gives (default VNull (items !! index)) s
        | Err error => fails error s
        end
    end
  else if str_is lower "contains" then fails (lit "List.Contains expects exactly one value") s
  else if str_is lower "indexof" then fails (lit "List.IndexOf expects exactly one value") s
  else if str_is lower "removeat" then
    match list_index "List.RemoveAt" args len with
    | Ok index =>
        gives (VBoolean true) (replaced (delete index items) (element_bytes (default VNull (items !! index))))
    | Err error => fails error s
    end
  else if str_is lower "remove" then fails (lit "List.Remove expects exactly one value") s
  else if str_is lower "set" then
    match args with
    | [index; value] =>
        match list_index "List.Set" [index] len with
        | Ok index =>
            gives (VBoolean true) (replaced (<[index := value]> items) (element_bytes (default VNull (items !! index))))
        | Err error => fails error s
        end
    | [index; value; _] =>
        match list_index "List.Set" [index] len with
        | Ok index =>
            let old := default VNull (items !! index) in
            (Normal (VBoolean true), replaced (<[index := value]> items) (element_bytes old), [(2%nat, old)])
        | Err error => out_of_range statement error s
        end
    | _ => fails (lit "List.Set expects an Integer index, a value and an optional var for the old value") s
    end
  else if str_is lower "insert" then
    match args with
    | [VInteger index; value] =>
        if (1 <=? index) && (index - 1 <=? len) then
          let position := Z.to_nat (index - 1) in
          gives (VBoolean true) (set_cell a (CList (take position items ++ value :: drop position items)) s)
        else fails (lit "List.Insert: index " ++ i64_to_str index ++ lit " out of range 1.." ++ u64_to_str (len + 1)) s
    | _ => fails (lit "List.Insert expects an Integer index and one value") s
    end
  else fails (lit "unsupported List method: " ++ lower) s.

(** Whether the call kept what it was charged for. *)
Definition kept (e : Eval) : bool :=
  match e with Normal (VBoolean true) | Normal VEmpty => true | _ => false end.

Definition is_search (lower : str) : bool := is_one_of lower ["contains"; "indexof"; "lastindexof"; "remove"]%string.

(** The list call after the receiver and the arguments are read. *)
Definition list_call (cancelled : nat -> nat -> bool) (this : Collection) (method : str) (args : list Value)
    (statement : bool) (s : Shared) : Outcome :=
  let lower := to_ascii_lowercase method in
  let name := lit "List." ++ method in
  match is_search lower, args with
  | true, [needle] => search_list cancelled this lower needle s
  | _, _ =>
      let items := list_at (cells s) (contents this) in
      let added := if str_is lower "addrange" then Z.of_nat (length args)
                   else if str_is lower "add" || str_is lower "insert" then 1 else 0 in
      match check_collection_len name (saturating_add (Z.of_nat (length items)) added) with
      | Err error => fails error s
      | Ok _ =>
          let adding := if str_is lower "addrange" then sum_bytes args
                        else if str_is lower "add" then match args with [value] => element_bytes value | _ => 0 end
                        else if str_is lower "insert" then match args with [_; value] => element_bytes value | _ => 0 end
                        else if str_is lower "set" then match args with _ :: value :: _ => element_bytes value | _ => 0 end
                        else 0 in
          match charge_cell name (contents this) adding s with
          | Err error => fails error s
          | Ok s =>
              let '(e, s, w) := list_method_on this lower args statement s in
              (e, if kept e then s else release_cell (contents this) adding s, w)
          end
      end
  end.

Definition dispatch_list_method (cancelled : nat -> nat -> bool) (recv method : str) (args : list Value)
    (statement : bool) (stack : ScopeStack) (s : Shared) : Outcome :=
  let lower := to_ascii_lowercase method in
  match lookup stack recv with
  | None => fails (lit "list variable '" ++ recv ++ lit "' is not bound") s
  | Some (VList this) =>
      let args := match args with
                  | [VList other] =>
                      if str_is lower "addrange" && adds_elements (cells s) this other
                      then list_at (cells s) (contents other) else args
                  | _ => args
                  end in
      match declared_elements lower args (member_type this) with
      | Err error => fails error s
      | Ok args =>
          if existsb (fun arg => match arg with VList other => contents other =? contents this | _ => false end) args then
            fails (lit "List." ++ method
                   ++ lit " with the list itself as an argument is not supported by the local runtime") s
          else list_call cancelled this method args statement s
      end
  | Some _ => fails (lit "'" ++ recv ++ lit "' is not a List") s
  end.
End collections.
