(* ===== verification/TextMethods.v ===== *)
(** The methods of [Text], [Code] and [TextBuilder] values
    ([dispatch_text_method], [check_replace_size] and
    [dispatch_textbuilder_method] of
    [interpreter/records/collection_methods.rs]). *)

From Stdlib Require Import ZArith Lia.
From stdpp Require Import base tactics numbers option list gmap strings.
From S2P Require Import Prelude RustStr StrSearch Decimals Values Slots Scopes Renders Texts Collections.

#[local] Open Scope Z_scope.
#[local] Open Scope rust_scope.

Section methods.
Context {D : Decimal} {U : Unicode}.

(** * Text *)

Definition text_arg (v : Value) : option str :=
  match v with
  | VText t | VCode t => Some t
  | VChar c => Some [c]
  | _ => None
  end.

(** The text a replacement makes at most, and then exactly, is checked. *)
Definition check_replace_size (operation : str) (text old new : str) : Res str unit :=
  if str_len new <=? str_len old then Ok tt
  else
    let most := saturating_mul (Z.quot (str_len text) (str_len old)) (str_len new - str_len old) in
    if is_ok (check_text_size operation (saturating_add (str_len text) most)) then Ok tt
    else
      let growth := saturating_mul (match_count old text) (str_len new - str_len old) in
      check_text_size operation (saturating_add (str_len text) growth).

Definition text_name (method : str) : str := lit "Text." ++ method.

(** The methods that take one text. *)
Definition with_needle (method : str) (args : list Value) (k : str -> Eval) : Eval :=
  match args with
  | [needle] =>
      match text_arg needle with
      | Some needle => k needle
      | None => eval_error (text_name method ++ lit " expects a Text argument, got " ++ type_name needle)
      end
  | _ => eval_error (text_name method ++ lit " expects exactly one Text argument")
  end.

Definition text_replace (s : str) (args : list Value) : Eval :=
  match args with
  | [old; new] =>
      match text_arg old, text_arg new with
      | Some old, Some new =>
          match old with
          | [] => eval_error (lit "Text.Replace: the old value cannot be empty")
          | _ =>
              match check_replace_size (lit "Text.Replace") s old new with
              | Err error => eval_error error
              | Ok _ => Normal (VText (str_replace old new s))
              end
          end
      | _, _ => eval_error (lit "Text.Replace expects (Text, Text)")
      end
  | _ => eval_error (lit "Text.Replace expects exactly two Text arguments")
  end.

Fixpoint separators (args : list Value) : Res str (list str) :=
  match args with
  | [] => Ok []
  | arg :: args =>
      match text_arg arg with
      | Some [] => Err (lit "Text.Split: separators cannot be empty")
      | Some sep => seps <-? separators args ; Ok (sep :: seps)
      | None => Err (lit "Text.Split expects Text separators, got " ++ type_name arg)
      end
  end.

(** Each separator splits the parts the ones before it left. *)
Fixpoint split_parts (seps parts : list str) : Res str (list str) :=
  match seps with
  | [] => Ok parts
  | sep :: seps =>
      _ <-? check_collection_len (lit "Text.Split") (foldr (fun part n => match_count sep part + 1 + n) 0 parts) ;
      split_parts seps (parts ≫= split_str sep)
  end.

Definition text_list (items : list Value) (s : Shared) : Value * Shared := new_list items (Some (lit "Text")) s.

Definition text_split (text : str) (args : list Value) (s : Shared) : Eval * Shared :=
  match seps <-? separators args ; split_parts seps [text] with
  | Err error => (eval_error error, s)
  | Ok parts => let '(v, s) := text_list (VText <$> parts) s in (Normal v, s)
  end.

Definition text_substring (s : str) (args : list Value) : Eval :=
  let run (start : Z) (length : option Z) :=
    if (start <? 1) || (char_count s + 1 <? start) then
      eval_error (lit "Text.Substring: start position " ++ i64_to_str start ++ lit " is out of range for a "
                  ++ u64_to_str (char_count s) ++ lit "-character string")
    else
      let zero := start - 1 in
      match length with
      | None => Normal (VText (drop (Z.to_nat zero) s))
      | Some length =>
          if length <? 0 then eval_error (lit "Text.Substring: length must be >= 0")
          else if char_count s <? zero + length then
            eval_error (lit "Text.Substring: start " ++ i64_to_str start ++ lit " plus length " ++ i64_to_str length
                        ++ lit " exceeds the string length " ++ u64_to_str (char_count s))
          else Normal (VText (take (Z.to_nat length) (drop (Z.to_nat zero) s)))
      end in
  match args with
  | [VInteger start] => run start None
  | [VInteger start; VInteger length] => run start (Some length)
  | _ => eval_error (lit "Text.Substring expects (Integer[, Integer])")
  end.

Definition text_pad (s method : str) (left : bool) (args : list Value) : Eval :=
  let run (count : Z) (pad : char) :=
    let missing := saturating_sub (Z.max count 0) (char_count s) in
    let size := saturating_add (saturating_mul missing (len_utf8 pad)) (str_len s) in
    match check_text_size (text_name method) size with
    | Err error => eval_error error
    | Ok _ =>
        let padding := repeat_char pad missing in
        Normal (VText (if left then padding ++ s else s ++ padding))
    end in
  let usage := eval_error (text_name method ++ lit " expects (Integer[, Char])") in
  match args with
  | [VInteger count] => run count (ch " ")
  | [VInteger count; pad] =>
      match text_arg pad with
      | Some [pad] => run count pad
      | Some _ => eval_error (text_name method ++ lit ": the pad must be one character")
      | None => usage
      end
  | _ => usage
  end.

Definition text_remove (s : str) (args : list Value) : Eval :=
  let run (start : Z) (count : option Z) :=
    if (start <? 1) || (char_count s <? start) then
      eval_error (lit "Text.Remove: start position " ++ i64_to_str start ++ lit " is out of range for a "
                  ++ u64_to_str (char_count s) ++ lit "-character string")
    else
      let zero := start - 1 in
      match count with
      | None => Normal (VText (take (Z.to_nat zero) s))
      | Some count =>
          if (0 <=? count) && (zero + count <=? char_count s) then
            Normal (VText (take (Z.to_nat zero) s ++ drop (Z.to_nat (zero + count)) s))
          else
            eval_error (lit "Text.Remove: " ++ i64_to_str count ++ lit " characters from position " ++ i64_to_str start
                        ++ lit " exceed the string length " ++ u64_to_str (char_count s))
      end in
  match args with
  | [VInteger start] => run start None
  | [VInteger start; VInteger count] => run start (Some count)
  | _ => eval_error (lit "Text.Remove expects (Integer[, Integer])")
  end.

(** A method without arguments. *)
Definition plain (message : str) (args : list Value) (result : str) : Eval :=
  match args with [] => Normal (VText result) | _ => eval_error (message ++ lit " expects no arguments") end.

(** The method on the text [s]. *)
Definition text_call (s method : str) (args : list Value) (sh : Shared) : Eval * Shared :=
  let lower := to_ascii_lowercase method in
  let found (at_ : option nat) := Normal (VInteger (match at_ with Some n => Z.of_nat n + 1 | None => 0 end)) in
  let index (find : str -> option nat) (needle : str) :=
    match needle with [] => Normal (VInteger 0) | _ => found (find needle) end in
  if str_is lower "contains" then (with_needle method args (fun needle => Normal (VBoolean (str_contains needle s))), sh)
  else if str_is lower "startswith" then (with_needle method args (fun needle => Normal (VBoolean (starts_with needle s))), sh)
  else if str_is lower "endswith" then (with_needle method args (fun needle => Normal (VBoolean (ends_with needle s))), sh)
  else if str_is lower "indexof" then
    (with_needle method args (index (fun needle => (fun ab => length ab.1) <$> find_str needle s)), sh)
  else if str_is lower "lastindexof" then (with_needle method args (index (fun needle => rfind_str needle s)), sh)
  else if str_is lower "replace" then (text_replace s args, sh)
  else if str_is lower "split" then text_split s args sh
  else if str_is lower "trim" then (plain (text_name method) args (trim s), sh)
  else if str_is lower "trimstart" then (plain (text_name method) args (trim_start s), sh)
  else if str_is lower "trimend" then (plain (text_name method) args (trim_end_matches is_whitespace s), sh)
  else if str_is lower "tolower" then (plain (lit "Text.ToLower") args (str_lower s), sh)
  else if str_is lower "toupper" then (plain (lit "Text.ToUpper") args (to_uppercase s), sh)
  else if str_is lower "substring" then (text_substring s args, sh)
  else if str_is lower "padleft" then (text_pad s method true args, sh)
  else if str_is lower "padright" then (text_pad s method false args, sh)
  else if str_is lower "remove" then (text_remove s args, sh)
  else (eval_error (lit "unsupported Text method: " ++ lower), sh).

Definition dispatch_text_method (recv method : str) (args : list Value) (stack : ScopeStack) (sh : Shared) :
    Eval * Shared :=
  match lookup stack recv with
  | Some (VText s) | Some (VCode s) => text_call s method args sh
  | _ => (eval_error (lit "text variable '" ++ recv ++ lit "' is not bound"), sh)
  end.

(** * TextBuilder *)

Definition builder_name (method : str) : str := lit "TextBuilder." ++ method.

Definition as_text (h : heap) (v : Value) : str :=
  match v with
  | VText t | VCode t => t
  | VChar c => [c]
  | other => render_value h other
  end.

(** The characters before a 1-based position, up to one past the end. *)
Definition byte_at (text : str) (index : Z) : option nat :=
  if (1 <=? index) && (index - 1 <=? char_count text) then Some (Z.to_nat (index - 1)) else None.

Definition grow_by (method text : str) (added : Z) : Res str unit :=
  check_text_size (builder_name method) (saturating_add (str_len text) added).

(** The call's result and the text it leaves; an error before the change
    leaves the text, and returns before it is counted again. *)
Inductive BuilderResult :=
  | Returned (e : Eval)
  | Finished (e : Eval) (text : str).

Definition grown (method text : str) (added : Z) (grow : str) : BuilderResult :=
  match grow_by method text added with
  | Err error => Returned (eval_error error)
  | Ok _ => Finished (Normal (VBoolean true)) grow
  end.

Definition CRLF : str := [13; 10].

Definition builder_on (h : heap) (method : str) (args : list Value) (text : str) : BuilderResult :=
  let lower := to_ascii_lowercase method in
  let usage := Finished (eval_error (builder_name method
                 ++ lit " with these arguments is not supported by the local runtime")) text in
  if str_is lower "append" then
    match args with
    | [value] => let value := as_text h value in grown method text (str_len value) (text ++ value)
    | _ => usage
    end
  else if str_is lower "appendline" then
    match args with
    | [] => grown method text 2 (text ++ CRLF)
    | [value] => let value := as_text h value in grown method text (str_len value + 2) (text ++ value ++ CRLF)
    | _ => usage
    end
  else if str_is lower "length" then
    match args with [] => Finished (Normal (VInteger (char_count text))) text | _ => usage end
  else if str_is lower "totext" then
    match args with
    | [] => Finished (Normal (VText text)) text
    | [VInteger start; VInteger count] =>
        if (1 <=? start) && (start - 1 <=? char_count text) && (0 <=? count) && (start - 1 + count <=? char_count text)
        then Finished (Normal (VText (take (Z.to_nat count) (drop (Z.to_nat (start - 1)) text)))) text
        else Finished (eval_error (lit "TextBuilder.ToText: " ++ i64_to_str count ++ lit " characters from "
               ++ i64_to_str start ++ lit " are outside the " ++ u64_to_str (char_count text) ++ lit "-character text")) text
    | _ => usage
    end
  else if str_is lower "clear" then
    match args with [] => Finished (Normal VEmpty) [] | _ => usage end
  else if str_is lower "insert" then
    match args with
    | [VInteger index; value] =>
        match byte_at text index with
        | Some at_ =>
            let value := as_text h value in
            grown method text (str_len value) (take at_ text ++ value ++ drop at_ text)
        | None => Finished (eval_error (lit "TextBuilder.Insert: index " ++ i64_to_str index ++ lit " is out of range")) text
        end
    | _ => usage
    end
  else if str_is lower "remove" then
    match args with
    | [VInteger index; VInteger count] =>
        match byte_at text index, byte_at text (index + count), 0 <=? count with
        | Some start, Some end_, true => Finished (Normal (VBoolean true)) (take start text ++ drop end_ text)
        | _, _, _ =>
            Finished (eval_error (lit "TextBuilder.Remove: " ++ i64_to_str count ++ lit " characters from "
              ++ i64_to_str index ++ lit " are out of range")) text
        end
    | _ => usage
    end
  else if str_is lower "replace" then
    match args with
    | [old; new] =>
        let old := as_text h old in
        let new := as_text h new in
        match old with
        | [] => Returned (eval_error (lit "TextBuilder.Replace: the old value cannot be empty"))
        | _ =>
            match check_replace_size (lit "TextBuilder.Replace") text old new with
            | Err error => Returned (eval_error error)
            | Ok _ => Finished (Normal (VBoolean true)) (str_replace old new text)
            end
        end
    | _ => usage
    end
  else usage.

(** A builder argument is read before the receiver is locked. *)
Definition builder_args (h : heap) (args : list Value) : list Value :=
  (fun arg => match arg with VTextBuilder other => VText (text_at h other) | other => other end) <$> args.

Definition dispatch_textbuilder_method (recv method : str) (args : list Value) (stack : ScopeStack) (s : Shared) :
    Eval * Shared :=
  match lookup stack recv with
  | Some (VTextBuilder a) =>
      match builder_on (cells s) method (builder_args (cells s) args) (text_at (cells s) a) with
      | Returned e => (e, s)
      | Finished e text =>
          let '(s, counted) := recount_cell (builder_name method) a (str_len text) (set_cell a (CText text) s) in
          (match counted with Ok _ => e | Err error => eval_error error end, s)
      end
  | _ => (eval_error (lit "'" ++ recv ++ lit "' is not a TextBuilder"), s)
  end.
End methods.
