(* ===== verification/TextMethodSpec.v ===== *)
(** What the Text and TextBuilder methods of [TextMethods.v] promise. *)

From Stdlib Require Import ZArith Lia.
From stdpp Require Import base tactics numbers option list gmap strings.
From S2P Require Import Prelude RustStr StrSearch Decimals Values Slots Scopes Renders Texts TextSpec Collections TextMethods.

#[local] Open Scope Z_scope.
#[local] Open Scope rust_scope.

(** * Splitting and replacing *)

Lemma split_loop_cons fuel sep s : exists part parts, split_loop fuel sep s = part :: parts.
Proof. destruct fuel; simpl; [eauto|]. destruct (find_str sep s) as [[a b]|]; eauto. Qed.

Lemma join_cons sep a l : l <> [] -> join sep (a :: l) = a ++ sep ++ join sep l.
Proof. by destruct l. Qed.

(** The parts between the occurrences. *)
Lemma split_loop_spec fuel sep s :
  sep <> [] -> (length s < fuel)%nat ->
  join sep (split_loop fuel sep s) = s /\
  Forall (fun part => forall a, ~ occurs_after sep a part) (split_loop fuel sep s).
Proof.
  intros Hsep. revert s. induction fuel as [|fuel IH]; intros s Hf; [lia|]. cbn [split_loop].
  destruct (find_str sep s) as [[a b]|] eqn:E.
  - apply find_str_Some in E as (-> & [r ->] & Hmin). rewrite drop_app_length.
    destruct (IH r) as [Hj Hp]. { rewrite !length_app in Hf. destruct sep; [done|]. simpl in Hf. lia. }
    split.
    + destruct (split_loop_cons fuel sep r) as (p & ps & Ep). rewrite join_cons by (by rewrite Ep). by rewrite Hj.
    + constructor; [|done]. intros a' [b' ->]. specialize (Hmin a').
      assert (occurs_after sep a' ((a' ++ sep ++ b') ++ sep ++ r)) as Ho
        by (exists (b' ++ sep ++ r); by rewrite <- !app_assoc).
      specialize (Hmin Ho). rewrite !length_app in Hmin. destruct sep; [done|]. simpl in Hmin. lia.
  - split; [done|]. repeat constructor. intros a. by apply find_str_None.
Qed.

Lemma replace_loop_join fuel old new s : replace_loop fuel old new s = join new (split_loop fuel old s).
Proof.
  revert s. induction fuel as [|fuel IH]; intros s; cbn [replace_loop split_loop]; [done|].
  destruct (find_str old s) as [[a b]|]; [|done].
  destruct (split_loop_cons fuel old (drop (length old) b)) as (p & ps & Ep).
  rewrite join_cons by (by rewrite Ep). by rewrite IH.
Qed.

Lemma matches_loop_split fuel sep s : matches_loop fuel sep s = Z.of_nat (length (split_loop fuel sep s)) - 1.
Proof.
  revert s. induction fuel as [|fuel IH]; intros s; cbn [matches_loop split_loop]; [done|].
  destruct (find_str sep s) as [[a b]|]; [|done]. rewrite IH. cbn [length]. lia.
Qed.

Lemma str_len_join sep parts :
  parts <> [] ->
  str_len (join sep parts) = foldr (fun p n => str_len p + n) 0 parts + (Z.of_nat (length parts) - 1) * str_len sep.
Proof.
  induction parts as [|p parts IH]; intros Hne; [done|]. destruct parts as [|q parts].
  - cbn [join foldr length]. lia.
  - rewrite join_cons by done. rewrite !str_len_app, IH by done. cbn [foldr length]. lia.
Qed.

Lemma str_replace_len old new s :
  old <> [] -> str_len (str_replace old new s) = str_len s + match_count old s * (str_len new - str_len old).
Proof.
  intros Ho. unfold str_replace, match_count. rewrite replace_loop_join, matches_loop_split.
  destruct (split_loop_spec (S (length s)) old s Ho ltac:(lia)) as [Hj _].
  destruct (split_loop_cons (S (length s)) old s) as (p & ps & E).
  apply (f_equal str_len) in Hj. rewrite str_len_join in Hj by (by rewrite E).
  rewrite str_len_join by (by rewrite E). lia.
Qed.

Lemma match_count_nonneg sep s : 0 <= match_count sep s.
Proof.
  unfold match_count. rewrite matches_loop_split.
  destruct (split_loop_cons (S (length s)) sep s) as (p & ps & ->). cbn [length]. lia.
Qed.

(** The occurrences fit into the text. *)
Lemma match_count_fits sep s : sep <> [] -> match_count sep s * str_len sep <= str_len s.
Proof.
  intros Hs. destruct (split_loop_spec (S (length s)) sep s Hs ltac:(lia)) as [Hj _].
  destruct (split_loop_cons (S (length s)) sep s) as (p & ps & E).
  apply (f_equal str_len) in Hj. rewrite str_len_join in Hj by (by rewrite E).
  unfold match_count. rewrite matches_loop_split.
  assert (forall l, 0 <= foldr (fun p n => str_len p + n) 0 l) as Hpos.
  { induction l as [|x l IH]; cbn [foldr]; [lia|]. pose proof (str_len_nonneg x). lia. }
  specialize (Hpos (split_loop (S (length s)) sep s)). lia.
Qed.

Lemma str_len_pos s : s <> [] -> 1 <= str_len s.
Proof.
  destruct s as [|c s]; [done|]. intros _. cbn [str_len foldr]. fold (str_len s).
  pose proof (str_len_nonneg s). unfold len_utf8. repeat case_match; lia.
Qed.

(** The check of a replacement: first a bound on the growth, then the growth. *)
Lemma check_replace_size_exact operation text old new :
  old <> [] -> str_len text <= MAX_TEXT_BYTES -> str_len new <= MAX_TEXT_BYTES ->
  is_ok (check_replace_size operation text old new) = bool_decide (str_len (str_replace old new text) <= MAX_TEXT_BYTES).
Proof.
  intros Ho Ht Hn. rewrite str_replace_len by done. pose proof (match_count_nonneg old text) as Hc.
  pose proof (match_count_fits old text Ho) as Hfit. pose proof (str_len_pos old Ho) as Hpos.
  pose proof (str_len_nonneg text). pose proof (str_len_nonneg new).
  unfold check_replace_size. destruct (Z.leb_spec (str_len new) (str_len old)) as [Hle|Hlt].
  { rewrite bool_decide_eq_true_2 by nia. done. }
  set (grow := str_len new - str_len old) in *.
  assert (match_count old text <= Z.quot (str_len text) (str_len old)) as Hq.
  { rewrite Z.quot_div_nonneg by lia. apply Z.div_le_lower_bound; lia. }
  assert (match_count old text * grow <= Z.quot (str_len text) (str_len old) * grow) as Hmost by (apply Z.mul_le_mono_nonneg_r; lia).
  assert (Z.quot (str_len text) (str_len old) <= MAX_TEXT_BYTES) as Hqm.
  { rewrite Z.quot_div_nonneg by lia. pose proof (Z.div_le_upper_bound (str_len text) (str_len old) MAX_TEXT_BYTES). nia. }
  assert (Z.quot (str_len text) (str_len old) * grow <= MAX_TEXT_BYTES * MAX_TEXT_BYTES) as Hsq.
  { apply Z.mul_le_mono_nonneg; lia. }
  assert (0 <= match_count old text * grow) by (apply Z.mul_nonneg_nonneg; lia).
  unfold check_text_size, saturating_add, saturating_mul, MAX_TEXT_BYTES in *. unfold_ints.
  rewrite !(Z.min_l (_ * grow)) by lia. rewrite !Z.min_l by lia.
  destruct (Z.leb_spec (str_len text + Z.quot (str_len text) (str_len old) * grow) (64 * 1024 * 1024)).
  - cbn [is_ok]. rewrite bool_decide_eq_true_2 by lia. done.
  - cbn [is_ok]. destruct (Z.leb_spec (str_len text + match_count old text * grow) (64 * 1024 * 1024)).
    + by rewrite bool_decide_eq_true_2 by lia.
    + by rewrite bool_decide_eq_false_2 by lia.
Qed.

(** * The last occurrence *)

Lemma rfind_str_unfold p s :
  rfind_str p s = match (match s with [] => None | _ :: s => S <$> rfind_str p s end) with
                  | Some n => Some n
                  | None => if starts_with p s then Some O else None
                  end.
Proof. by destruct s. Qed.

Lemma not_starts_with p s : starts_with p s = false -> ~ p `prefix_of` s.
Proof. intros H Hp. apply starts_with_spec in Hp. congruence. Qed.

Lemma rfind_str_spec p s :
  match rfind_str p s with
  | Some n => (exists a, length a = n /\ occurs_after p a s) /\ (forall a, occurs_after p a s -> (length a <= n)%nat)
  | None => forall a, ~ occurs_after p a s
  end.
Proof.
  induction s as [|c s IH]; rewrite rfind_str_unfold.
  - destruct (starts_with p []) eqn:E.
    + apply starts_with_spec in E as [r Hr]. split; [exists []; split; [done|by exists r]|].
      intros a [b Hb]. by destruct a.
    + intros a [b Hb]. destruct a; [|done]. apply not_starts_with in E. apply E. by exists b.
  - destruct (rfind_str p s) as [m|]; cbn [fmap option_fmap option_map].
    + destruct IH as [(a & Ha & b & Hb) Hmax]. split.
      * exists (c :: a). split; [simpl; lia|]. exists b. simpl. by rewrite Hb.
      * intros a' Ho. apply occurs_cons in Ho as [[-> _]|(a2 & -> & Ho)]; [simpl; lia|].
        specialize (Hmax a2 Ho). simpl. lia.
    + destruct (starts_with p (c :: s)) eqn:E.
      * apply starts_with_spec in E as [r Hr]. split; [exists []; split; [done|by exists r]|].
        intros a Ho. apply occurs_cons in Ho as [[-> _]|(a2 & -> & Ho)]; [simpl; lia|]. by apply IH in Ho.
      * apply not_starts_with in E. intros a Ho. apply occurs_cons in Ho as [[-> Hp]|(a2 & -> & Ho)]; [done|].
        by apply IH in Ho.
Qed.

Section spec.
Context {D : Decimal} {U : Unicode}.

Lemma text_replace_result s old new :
  old <> [] -> str_len s <= MAX_TEXT_BYTES -> str_len new <= MAX_TEXT_BYTES ->
  if decide (str_len (str_replace old new s) <= MAX_TEXT_BYTES) then
    text_replace s [VText old; VText new] = Normal (VText (str_replace old new s))
  else is_error (text_replace s [VText old; VText new]) = true.
Proof.
  intros Ho Hs Hn. pose proof (check_replace_size_exact (lit "Text.Replace") s old new Ho Hs Hn) as Hc.
  cbn [text_replace text_arg]. destruct old as [|c old]; [done|].
  destruct (decide _) as [Hl|Hl].
  - rewrite bool_decide_eq_true_2 in Hc by done. by destruct (check_replace_size _ _ _ _).
  - rewrite bool_decide_eq_false_2 in Hc by done. by destruct (check_replace_size _ _ _ _).
Qed.

(** Replace and Split agree: Replace joins with the new text the parts that
    Split cuts at the old one, the parts joined with the old text are the text
    again and none of them holds it.  The replaced text is made exactly when it
    is within the limit of one text, although it is measured before it is made,
    and otherwise the call is an error. *)
Lemma replace_joins_split s old new :
  old <> [] -> str_len s <= MAX_TEXT_BYTES -> str_len new <= MAX_TEXT_BYTES ->
  let parts := split_str old s in
  join old parts = s /\
  Forall (fun part => forall a, ~ occurs_after old a part) parts /\
  match_count old s = Z.of_nat (length parts) - 1 /\
  str_replace old new s = join new parts /\
  if decide (str_len (join new parts) <= MAX_TEXT_BYTES) then
    text_replace s [VText old; VText new] = Normal (VText (join new parts))
  else is_error (text_replace s [VText old; VText new]) = true.
Proof.
  intros Ho Hs Hn. cbv zeta. destruct (split_loop_spec (S (length s)) old s Ho ltac:(lia)) as [Hj Hp].
  assert (str_replace old new s = join new (split_str old s)) as Hr by apply replace_loop_join.
  split_and!; [done|done|apply matches_loop_split|done|]. rewrite <- Hr. by apply text_replace_result.
Qed.

(** * Padding and removing *)

(** The methods alone. *)
Lemma pad_left_right_widen s count pad :
  in_i64 count = true -> char_count s <= i64_max -> str_len s <= i64_max ->
  let missing := Z.max (count - char_count s) 0 in
  let padded left := text_pad s (lit "Pad") left [VInteger count; VChar pad] in
  if decide (missing * len_utf8 pad + str_len s <= MAX_TEXT_BYTES) then
    padded true = Normal (VText (repeat_char pad missing ++ s)) /\
    padded false = Normal (VText (s ++ repeat_char pad missing)) /\
    char_count (s ++ repeat_char pad missing) = Z.max count (char_count s)
  else is_error (padded true) = true /\ is_error (padded false) = true.
Proof.
  intros Hc Hs Hb. rewrite in_i64_spec in Hc. cbv zeta. unfold text_pad. cbn [text_arg].
  pose proof (char_count_nonneg s). pose proof (str_len_nonneg s).
  assert (1 <= len_utf8 pad <= 4) as Hu by (unfold len_utf8; repeat case_match; lia).
  unfold saturating_sub, check_text_size. replace (Z.max (Z.max count 0 - char_count s) 0) with (Z.max (count - char_count s) 0) by lia.
  set (missing := Z.max (count - char_count s) 0).
  assert (saturating_add (saturating_mul missing (len_utf8 pad)) (str_len s) <= MAX_TEXT_BYTES <->
          missing * len_utf8 pad + str_len s <= MAX_TEXT_BYTES) as Hsize
    by (unfold saturating_add, saturating_mul, MAX_TEXT_BYTES; unfold_ints; lia).
  destruct (Z.leb_spec (saturating_add (saturating_mul missing (len_utf8 pad)) (str_len s)) MAX_TEXT_BYTES).
  - rewrite decide_True by tauto. split_and!; [done|done|].
    unfold char_count, repeat_char in *. rewrite length_app, length_replicate. lia.
  - rewrite decide_False by (rewrite <- Hsize; lia). done.
Qed.

(** Padding makes the width asked for.  PadLeft and PadRight give a text of
    that width, or the text itself when it is as wide, with the padding all on
    the one side; PadStr gives exactly as many characters, cutting a longer
    text and filling a shorter one with the first character of its third
    argument.  A result over the limit of one text is an error, and so is a
    negative length or an empty filling of PadStr. *)
Lemma padding_widens s count pad rest :
  in_i64 count = true -> char_count s <= i64_max -> str_len s <= i64_max ->
  let missing := Z.max (count - char_count s) 0 in
  let padded left := text_pad s (lit "Pad") left [VInteger count; VChar pad] in
  let filled := builtin_padstr [VText s; VInteger count; VText (pad :: rest)] in
  (if decide (missing * len_utf8 pad + str_len s <= MAX_TEXT_BYTES) then
     padded true = Normal (VText (repeat_char pad missing ++ s)) /\
     padded false = Normal (VText (s ++ repeat_char pad missing)) /\
     char_count (s ++ repeat_char pad missing) = Z.max count (char_count s) /\
     (0 <= count -> exists t, filled = Normal (VText t) /\ char_count t = count /\
        t = take (Z.to_nat count) s ++ repeat_char pad missing)
   else is_error (padded true) = true /\ is_error (padded false) = true /\ is_error filled = true) /\
  (count < 0 -> is_error filled = true) /\
  is_error (builtin_padstr [VText s; VInteger count; VText []]) = true.
Proof.
  intros Hc Hs Hb. cbv zeta. pose proof (pad_left_right_widen s count pad Hc Hs Hb) as Hp. cbv zeta in Hp.
  rewrite in_i64_spec in Hc. split_and!.
  - destruct (decide (0 <= count)) as [H0|H0].
    + pose proof (padstr_exact_length s count pad rest ltac:(lia) Hs Hb) as Hf. cbv zeta in Hf.
      destruct (decide _); [destruct Hp as (? & ? & ?)|destruct Hp]; by split_and!.
    + assert (is_error (builtin_padstr [VText s; VInteger count; VText (pad :: rest)]) = true)
        by (cbn; destruct (Z.ltb_spec count 0); [done|lia]).
      destruct (decide _); [destruct Hp as (? & ? & ?)|destruct Hp]; split_and!; first [assumption|intros ?; exfalso; lia].
  - intros. cbn. destruct (Z.ltb_spec count 0); [done|lia].
  - unfold builtin_padstr. by destruct (count <? 0).
Qed.

(** * Searching *)

(** [needle] occurs in [s] from the 1-based position [k]. *)
Definition occurs_at (needle s : str) (k : Z) : Prop := exists a, char_count a = k - 1 /\ occurs_after needle a s.

Definition call_text (method : string) (s needle : str) (sh : Shared) : Eval * Shared :=
  text_call s (lit method) [VText needle] sh.

Ltac evaluate_method :=
  unfold call_text, text_call;
  repeat match goal with |- context [str_is (to_ascii_lowercase (lit ?m)) ?k] =>
    let b := eval vm_compute in (str_is (to_ascii_lowercase (lit m)) k) in
    change (str_is (to_ascii_lowercase (lit m)) k) with b end; cbv beta iota zeta; cbn [with_needle text_arg].

(** The search methods of Text find what occurs: of a text that is not
    empty IndexOf gives the first position it occurs at and LastIndexOf the
    last, both 0 exactly when Contains is false; StartsWith holds exactly when
    it occurs at the first position and EndsWith when it ends the text.  None
    changes anything.  StrPos and the global IndexOf give what the method
    IndexOf gives. *)
Lemma text_search_first_last s needle sh :
  needle <> [] ->
  exists first last found,
    call_text "IndexOf" s needle sh = (Normal (VInteger first), sh) /\
    builtin_strpos [VText s; VText needle] = Normal (VInteger first) /\
    builtin_indexof [VText s; VText needle] = Normal (VInteger first) /\
    call_text "LastIndexOf" s needle sh = (Normal (VInteger last), sh) /\
    call_text "Contains" s needle sh = (Normal (VBoolean found), sh) /\
    (if found then
       occurs_at needle s first /\ occurs_at needle s last /\
       forall k, occurs_at needle s k -> first <= k <= last
     else first = 0 /\ last = 0 /\ forall k, ~ occurs_at needle s k) /\
    call_text "StartsWith" s needle sh = (Normal (VBoolean (bool_decide (needle `prefix_of` s))), sh) /\
    call_text "EndsWith" s needle sh = (Normal (VBoolean (bool_decide (needle `suffix_of` s))), sh).
Proof.
  intros Hne. evaluate_method.
  exists (match find_str needle s with Some (a, _) => char_count a + 1 | None => 0 end),
    (match rfind_str needle s with Some n => Z.of_nat n + 1 | None => 0 end), (str_contains needle s).
  split_and!.
  - destruct needle; [done|]. by destruct (find_str _ s) as [[a b]|].
  - simpl. unfold position_of. by destruct needle.
  - simpl. unfold position_of. by destruct needle.
  - by destruct needle.
  - done.
  - pose proof (rfind_str_spec needle s) as Hr. destruct (str_contains needle s) eqn:Ec.
    + apply str_contains_spec in Ec as [a0 Ha0].
      destruct (find_str needle s) as [[a b]|] eqn:Ef; [|by destruct (find_str_None _ _ a0 Ef)].
      destruct (rfind_str needle s) as [n|]; [|by destruct (Hr a0)].
      destruct Hr as [(a' & Ha' & Ho') Hmax]. pose proof (find_str_occurs _ _ _ _ Ef) as Ho.
      apply find_str_Some in Ef as (_ & _ & Hmin). unfold occurs_at, char_count.
      split_and!; [exists a; split; [lia|done]|exists a'; split; [lia|done]|].
      intros k (a2 & Hk & Ha2). specialize (Hmin a2 Ha2). specialize (Hmax a2 Ha2). lia.
    + assert (forall a, ~ occurs_after needle a s) as Hn.
      { intros a Ha. assert (str_contains needle s = true) by (apply str_contains_spec; by exists a). congruence. }
      destruct (find_str needle s) as [[a b]|] eqn:Ef; [by destruct (Hn a); eapply find_str_occurs|].
      destruct (rfind_str needle s) as [n|]; [destruct Hr as [(a & _ & Ha) _]; by destruct (Hn a)|].
      split_and!; [done|done|]. intros k (a & _ & Ha). by destruct (Hn a).
  - do 3 f_equal. apply eq_true_iff_eq. rewrite starts_with_spec. symmetry. apply bool_decide_eq_true.
  - do 3 f_equal. apply eq_true_iff_eq. unfold ends_with. rewrite starts_with_spec, <- suffix_prefix_reverse.
    symmetry. apply bool_decide_eq_true.
Qed.

End spec.

(** * The theorems evaluated *)

#[local] Existing Instances mini_decimal ascii_unicode.

Definition no_contents : Shared := {| cells := ∅; counts := ∅; total := 0; next := 1 |}.

