(* ===== verification/Dictionaries.v ===== *)
(** The methods of [Dictionary] values ([dict_key], [dict_lookup] and
    [dispatch_dict_method] of [interpreter/records/collection_methods.rs]).

    The entries are an [IndexMap] from the normalised key text to the key and
    the value: a list of entries in insertion order, no text twice. *)

From Stdlib Require Import ZArith Lia.
From stdpp Require Import base tactics numbers option list gmap strings.
From S2P Require Import Prelude RustStr StrSearch Decimals Values Slots Scopes Collections.

#[local] Open Scope Z_scope.
#[local] Open Scope rust_scope.

(** * [IndexMap] *)

(** The crate's map: [get], [insert] and [shift_remove], which are not code of
    this repository. *)
Class IndexMap (A : Type) := {
  im_get : str -> list (str * A) -> option A;
  im_insert : str -> A -> list (str * A) -> list (str * A);
  im_remove : str -> list (str * A) -> list (str * A);
}.

(** What its documentation says: [get] finds the value of the key; [insert]
    replaces the value of a key that is there in its place, or appends;
    [shift_remove] takes the entry out and keeps the order of the others. *)
Class IndexMapLaws (A : Type) `{IndexMap A} := {
  im_get_elem (m : list (str * A)) key v : NoDup m.*1 -> im_get key m = Some v <-> (key, v) ∈ m;
  im_insert_keys (m : list (str * A)) key v :
    (im_insert key v m).*1 = if decide (key ∈ m.*1) then m.*1 else m.*1 ++ [key];
  im_insert_elem (m : list (str * A)) key v k x :
    NoDup m.*1 -> (k, x) ∈ im_insert key v m <-> if decide (k = key) then x = v else (k, x) ∈ m;
  im_remove_keys (m : list (str * A)) key :
    NoDup m.*1 -> (im_remove key m).*1 = filter (fun k => k <> key) m.*1;
  im_remove_elem (m : list (str * A)) key k x :
    NoDup m.*1 -> (k, x) ∈ im_remove key m <-> k <> key /\ (k, x) ∈ m;
}.

Section dictionaries.
Context {D : Decimal} {U : Unicode} {M : IndexMap (Value * Value)}.

(** The key text.  [char]'s and [i64]'s display are the character and the
    decimal digits. *)
Definition dict_key (v : Value) : Res str str :=
  match v with
  | VText s => Ok s
  | VCode s => Ok (to_uppercase s)
  | VInteger n | VBigInteger n => Ok (i64_to_str n)
  | VDecimal d => Ok (dec_to_str (dec_normalize d))
  | VBoolean b => Ok (lit (if b then "true" else "false"))
  | VDate d => Ok (lit "D" ++ i64_to_str d)
  | VTime t => Ok (lit "T" ++ i64_to_str t)
  | VDateTime dt => Ok (lit "DT" ++ i64_to_str dt)
  | VGuid g => Ok (to_uppercase g)
  | VChar c => Ok (lit "C" ++ [c])
  | VOption type_name _ ordinal => Ok (lit "O" ++ to_ascii_lowercase type_name ++ lit ":" ++ i64_to_str ordinal)
  | other =>
      Err (lit "Dictionary keys of type " ++ type_name other ++ lit " are not supported by the local runtime")
  end.

(** The two-argument Get reads through this. *)
Definition dict_lookup (recv : str) (key : Value) (stack : ScopeStack) (s : Shared) : Res str (option Value) :=
  match lookup stack recv with
  | Some (VDict this) =>
      key <-? declared_member key (member_type this) ;
      key_text <-? dict_key key ;
      Ok (snd <$> im_get key_text (dict_at (cells s) (contents this)))
  | _ => Err (lit "'" ++ recv ++ lit "' is not a Dictionary")
  end.

Definition dict_add (this : Collection) (args : list Value) (s : Shared) : Outcome :=
  let a := contents this in
  match args with
  | [key; value] =>
      match dict_key key with
      | Err error => fails error s
      | Ok key_text =>
          match im_get key_text (dict_at (cells s) a) with
          | Some _ => fails (lit "Dictionary.Add: the key already exists") s
          | None =>
              match charge_cell (lit "Dictionary.Add") a (entry_bytes key_text key value) s with
              | Err error => fails error s
              | Ok s => gives VEmpty (set_cell a (CDict (im_insert key_text (key, value) (dict_at (cells s) a))) s)
              end
          end
      end
  | _ => fails (lit "Dictionary.Add expects exactly a key and a value") s
  end.

Definition dict_set (this : Collection) (args : list Value) (s : Shared) : Outcome :=
  let a := contents this in
  match args with
  | key :: value :: rest =>
      if (1 <? length rest)%nat then
        fails (lit "Dictionary.Set expects a key, a value and an optional var for the old value") s
      else
        match dict_key key with
        | Err error => fails error s
        | Ok key_text =>
            match charge_cell (lit "Dictionary.Set") a (entry_bytes key_text key value) s with
            | Err error => fails error s
            | Ok s =>
                let entries := dict_at (cells s) a in
                let old := im_get key_text entries in
                let s := set_cell a (CDict (im_insert key_text (key, value) entries)) s in
                let s := match old with
                         | Some (old_key, old_value) => release_cell a (entry_bytes key_text old_key old_value) s
                         | None => s
                         end in
                match rest, old with
                | [], _ => gives VEmpty s
                | _, Some (_, old) => (Normal (VBoolean true), s, [(2%nat, old)])
                | _, None => gives (VBoolean false) s
                end
            end
        end
  | _ => fails (lit "Dictionary.Set expects a key, a value and an optional var for the old value") s
  end.

(** [Get], [ContainsKey] and [Remove] of one key. *)
Definition with_key (args : list Value) (usage : str) (s : Shared) (k : str -> Outcome) : Outcome :=
  match args with
  | [key] => match dict_key key with Ok key_text => k key_text | Err error => fails error s end
  | _ => fails usage s
  end.

Definition dict_method_on (this : Collection) (lower : str) (args : list Value) (s : Shared) : Outcome :=
  let a := contents this in
  let entries := dict_at (cells s) a in
  if str_is lower "add" then dict_add this args s
  else if str_is lower "set" then dict_set this args s
  else if str_is lower "get" then
    with_key args (lit "Dictionary.Get with a var out-parameter requires live BC; only the one-argument returning form runs locally") s
      (fun key_text =>
         match im_get key_text entries with
         | Some (_, value) => gives value s
         | None => fails (lit "Dictionary.Get: the key does not exist") s
         end)
  else if str_is lower "containskey" then
    with_key args (lit "Dictionary.ContainsKey expects exactly one key") s
      (fun key_text => gives (VBoolean (bool_decide (is_Some (im_get key_text entries)))) s)
  else if str_is lower "remove" then
    with_key args (lit "Dictionary.Remove expects exactly one key") s
      (fun key_text =>
         match im_get key_text entries with
         | Some (old_key, old_value) =>
             gives (VBoolean true)
               (release_cell a (entry_bytes key_text old_key old_value) (set_cell a (CDict (im_remove key_text entries)) s))
         | None => gives (VBoolean false) s
         end)
  else if str_is lower "count" then
    match args with
    | [] => gives (VInteger (Z.of_nat (length entries))) s
    | _ => fails (lit "Dictionary.Count expects no arguments") s
    end
  else if str_is lower "keys" then
    match args with
    | [] => let '(v, s) := new_list ((fun e => e.2.1) <$> entries) (member_type this) s in gives v s
    | _ => fails (lit "Dictionary.Keys expects no arguments") s
    end
  else if str_is lower "values" then
    match args with
    | [] => let '(v, s) := new_list ((fun e => e.2.2) <$> entries) (value_type this) s in gives v s
    | _ => fails (lit "Dictionary.Values expects no arguments") s
    end
  else fails (lit "unsupported Dictionary method: " ++ lower) s.

Definition takes_key (lower : str) : bool := is_one_of lower ["add"; "set"; "get"; "containskey"; "remove"]%string.

(** Set on a key that is there replaces a value. *)
Definition replaces (lower : str) (args : list Value) (entries : list (str * (Value * Value))) : bool :=
  str_is lower "set"
  && match args with
     | key :: _ => match dict_key key with Ok key => bool_decide (is_Some (im_get key entries)) | Err _ => false end
     | [] => false
     end.

(** The dictionary call after the receiver is read. *)
Definition dict_call (this : Collection) (method : str) (args : list Value) (s : Shared) : Outcome :=
  let lower := to_ascii_lowercase method in
  match (if takes_key lower then convert_at 0 args (member_type this) else Ok args) with
  | Err error => fails error s
  | Ok args =>
      let entries := dict_at (cells s) (contents this) in
      match (if str_is lower "add" || str_is lower "set" then
               check_collection_len (lit "Dictionary." ++ method) (saturating_add (Z.of_nat (length entries)) 1)
             else Ok tt) with
      | Err error => if replaces lower args entries then dict_method_on this lower args s else fails error s
      | Ok _ => dict_method_on this lower args s
      end
  end.

Definition dispatch_dict_method (recv method : str) (args : list Value) (stack : ScopeStack) (s : Shared) : Outcome :=
  match lookup stack recv with
  | None => fails (lit "dictionary variable '" ++ recv ++ lit "' is not bound") s
  | Some (VDict this) => dict_call this method args s
  | Some _ => fails (lit "'" ++ recv ++ lit "' is not a Dictionary") s
  end.
End dictionaries.
