(* ===== verification/CollectionSpec.v ===== *)
(** What the List and Dictionary methods promise ([Collections.v] and
    [Dictionaries.v]): a dictionary is a finite map from key texts, a list a
    sequence, and each counts exactly the bytes of what it holds. *)

From Stdlib Require Import ZArith Lia.
From stdpp Require Import base tactics numbers option list gmap strings.
From S2P Require Import Prelude RustStr StrSearch Decimals Values Slots Scopes Collections Dictionaries.

#[local] Open Scope Z_scope.
#[local] Open Scope rust_scope.

(** * [IndexMap] as a finite map *)

Section index_map.
Context {A : Type} {MI : IndexMap A} {ML : IndexMapLaws A}.
Implicit Types m : list (str * A).

Lemma im_insert_nodup m key v : NoDup m.*1 -> NoDup (im_insert key v m).*1.
Proof.
  intros Hd. rewrite im_insert_keys. destruct (decide _); [done|].
  apply NoDup_app. split_and!; [done| |apply NoDup_singleton].
  intros k Hk. rewrite list_elem_of_singleton. by intros ->.
Qed.

Lemma im_remove_nodup m key : NoDup m.*1 -> NoDup (im_remove key m).*1.
Proof. intros Hd. rewrite im_remove_keys by done. by apply NoDup_filter. Qed.

Lemma im_get_map m key : NoDup m.*1 -> im_get key m = (list_to_map m : gmap str A) !! key.
Proof. intros Hd. apply option_eq. intros v. rewrite im_get_elem by done. by apply elem_of_list_to_map. Qed.

Lemma im_insert_map m key v :
  NoDup m.*1 -> (list_to_map (im_insert key v m) : gmap str A) = <[key := v]> (list_to_map m).
Proof.
  intros Hd. apply map_eq. intros k. apply option_eq. intros x.
  rewrite <- elem_of_list_to_map by (by apply im_insert_nodup). rewrite im_insert_elem by done.
  destruct (decide (k = key)) as [->|Hn]; [rewrite lookup_insert_eq; naive_solver|].
  rewrite lookup_insert_ne by done. by apply elem_of_list_to_map.
Qed.

Lemma im_remove_map m key :
  NoDup m.*1 -> (list_to_map (im_remove key m) : gmap str A) = delete key (list_to_map m).
Proof.
  intros Hd. apply map_eq. intros k. apply option_eq. intros x.
  rewrite <- elem_of_list_to_map by (by apply im_remove_nodup). rewrite im_remove_elem by done.
  rewrite lookup_delete_Some, <- elem_of_list_to_map by done. naive_solver.
Qed.

Lemma im_size m : NoDup m.*1 -> size (list_to_map m : gmap str A) = length m.
Proof. intros Hd. by rewrite map_size_list_to_map. Qed.
End index_map.

(** * Dictionaries *)

Section dictionaries.
Context {D : Decimal} {U : Unicode} {MI : IndexMap (Value * Value)} {ML : IndexMapLaws (Value * Value)}.

Inductive DictOp :=
  | DAdd (key value : Value)
  | DSet (key value : Value)
  | DSetOld (key value old : Value)
  | DGet (key : Value)
  | DContainsKey (key : Value)
  | DRemove (key : Value)
  | DCount.

Definition dict_run (this : Collection) (op : DictOp) (s : Shared) : Outcome :=
  match op with
  | DAdd key value => dict_call this (lit "Add") [key; value] s
  | DSet key value => dict_call this (lit "Set") [key; value] s
  | DSetOld key value old => dict_call this (lit "Set") [key; value; old] s
  | DGet key => dict_call this (lit "Get") [key] s
  | DContainsKey key => dict_call this (lit "ContainsKey") [key] s
  | DRemove key => dict_call this (lit "Remove") [key] s
  | DCount => dict_call this (lit "Count") [] s
  end.

(** ** The specification: a finite map from key texts *)

Abbreviation Map := (gmap str (Value * Value)).

Definition op_key (op : DictOp) : option Value :=
  match op with
  | DAdd key _ | DSet key _ | DSetOld key _ _ | DGet key | DContainsKey key | DRemove key => Some key
  | DCount => None
  end.

(** The key as the declared key type has it, and its text. *)
Definition key_of (member : option str) (key : Value) : Res str (Value * str) :=
  key <-? declared_member key member ; text <-? dict_key key ; Ok (key, text).

Definition over_budget (message : str) : Prop :=
  exists operation total, MAX_HELD_BYTES < total /\ message = over_held_budget operation total.

Definition adds (op : DictOp) : Prop :=
  match op with DAdd _ _ | DSet _ _ | DSetOld _ _ _ => True | _ => False end.

(** Set on a key that is there. *)
Definition overwrites (member : option str) (op : DictOp) (m : Map) : Prop :=
  match op with
  | DSet key _ | DSetOld key _ _ => exists key' t x, key_of member key = Ok (key', t) /\ m !! t = Some x
  | _ => False
  end.

Inductive map_step (member : option str) : DictOp -> Map -> Eval -> list (nat * Value) -> Map -> Prop :=
  | step_bad_key op key e m :
      op_key op = Some key -> key_of member key = Err e -> map_step member op m (eval_error e) [] m
  | step_add key value key' t m :
      key_of member key = Ok (key', t) -> m !! t = None ->
      map_step member (DAdd key value) m (Normal VEmpty) [] (<[t := (key', value)]> m)
  | step_add_present key value key' t x m :
      key_of member key = Ok (key', t) -> m !! t = Some x ->
      map_step member (DAdd key value) m (eval_error (lit "Dictionary.Add: the key already exists")) [] m
  | step_set key value key' t m :
      key_of member key = Ok (key', t) ->
      map_step member (DSet key value) m (Normal VEmpty) [] (<[t := (key', value)]> m)
  | step_set_new key value old key' t m :
      key_of member key = Ok (key', t) -> m !! t = None ->
      map_step member (DSetOld key value old) m (Normal (VBoolean false)) [] (<[t := (key', value)]> m)
  | step_set_old key value old key' t k v m :
      key_of member key = Ok (key', t) -> m !! t = Some (k, v) ->
      map_step member (DSetOld key value old) m (Normal (VBoolean true)) [(2%nat, v)] (<[t := (key', value)]> m)
  | step_get key key' t k v m :
      key_of member key = Ok (key', t) -> m !! t = Some (k, v) -> map_step member (DGet key) m (Normal v) [] m
  | step_get_absent key key' t m :
      key_of member key = Ok (key', t) -> m !! t = None ->
      map_step member (DGet key) m (eval_error (lit "Dictionary.Get: the key does not exist")) [] m
  | step_contains key key' t m :
      key_of member key = Ok (key', t) ->
      map_step member (DContainsKey key) m (Normal (VBoolean (bool_decide (is_Some (m !! t))))) [] m
  | step_remove key key' t x m :
      key_of member key = Ok (key', t) -> m !! t = Some x ->
      map_step member (DRemove key) m (Normal (VBoolean true)) [] (delete t m)
  | step_remove_absent key key' t m :
      key_of member key = Ok (key', t) -> m !! t = None ->
      map_step member (DRemove key) m (Normal (VBoolean false)) [] m
  | step_count m : map_step member DCount m (Normal (VInteger (Z.of_nat (size m)))) [] m
  | step_full op m e :
      adds op ->
      (MAX_COLLECTION_LEN <= Z.of_nat (size m) /\ ~ overwrites member op m) \/ over_budget e ->
      map_step member op m (eval_error e) [] m.

(** ** The refinement *)

Definition abs (this : Collection) (s : Shared) : Map := list_to_map (dict_at (cells s) (contents this)).

Definition dict_wf (this : Collection) (s : Shared) : Prop :=
  exists m, cells s !! contents this = Some (CDict m) /\ NoDup m.*1.

Lemma dict_at_set a m s : dict_at (cells (set_cell a (CDict m) s)) a = m.
Proof. unfold dict_at, set_cell. cbn [cells]. by rewrite lookup_insert_eq. Qed.

Lemma cells_set_count a c t s : cells (set_count a c t s) = cells s.
Proof. done. Qed.

Lemma cells_release a b s : cells (release_cell a b s) = cells s.
Proof. unfold release_cell. by destruct (release _ _ _). Qed.

Lemma charge_cell_cases operation a b s :
  match charge_cell operation a b s with
  | Ok s' => cells s' = cells s
  | Err e => over_budget e
  end.
Proof.
  unfold charge_cell, charge, hold_bytes. destruct ((0 <? b) && _) eqn:E; cbn [res_bind]; [|done].
  apply andb_true_iff in E as [_ E%Z.ltb_lt]. by eexists _, _.
Qed.

(** The state a call leaves: the dictionary's entries, and nothing else. *)
Definition updated (this : Collection) (m : list (str * (Value * Value))) (s s' : Shared) : Prop :=
  cells s' = <[contents this := CDict m]> (cells s).

Lemma updated_abs this m s s' : updated this m s s' -> abs this s' = list_to_map m.
Proof. intros H. unfold abs, dict_at. rewrite H. by rewrite lookup_insert_eq. Qed.

Lemma updated_wf this m s s' : updated this m s s' -> NoDup m.*1 -> dict_wf this s'.
Proof. intros H Hd. exists m. split; [|done]. rewrite H. by rewrite lookup_insert_eq. Qed.

Lemma updated_same this s s' : dict_wf this s -> cells s' = cells s -> updated this (dict_at (cells s) (contents this)) s s'.
Proof. intros (m & Hm & _) E. unfold updated, dict_at. rewrite E, Hm. by rewrite insert_id. Qed.

(** What a step must show. *)
Definition simulates (this : Collection) (op : DictOp) (s : Shared) (o : Outcome) : Prop :=
  let '(e, s', w) := o in
  exists m, updated this m s s' /\ NoDup m.*1 /\
    map_step (member_type this) op (abs this s) e w (list_to_map m).

Lemma simulates_same this op s s' e w :
  dict_wf this s -> cells s' = cells s ->
  map_step (member_type this) op (abs this s) e w (abs this s) -> simulates this op s (e, s', w).
Proof.
  intros Hwf E Hstep. exists (dict_at (cells s) (contents this)). split_and!; [by apply updated_same| |exact Hstep].
  destruct Hwf as (m & Hm & Hd). unfold dict_at. by rewrite Hm.
Qed.

Lemma simulates_insert this op s s' e w t x :
  dict_wf this s -> cells s' = <[contents this := CDict (im_insert t x (dict_at (cells s) (contents this)))]> (cells s) ->
  map_step (member_type this) op (abs this s) e w (<[t := x]> (abs this s)) -> simulates this op s (e, s', w).
Proof.
  intros (m & Hm & Hd) E Hstep. exists (im_insert t x (dict_at (cells s) (contents this))).
  split_and!; [exact E| |rewrite im_insert_map; [done|unfold dict_at; by rewrite Hm]].
  apply im_insert_nodup. unfold dict_at. by rewrite Hm.
Qed.

Lemma dict_nodup this s : dict_wf this s -> NoDup (dict_at (cells s) (contents this)).*1.
Proof. intros (m & Hm & Hd). unfold dict_at. by rewrite Hm. Qed.

Lemma dict_get this s t : dict_wf this s -> im_get t (dict_at (cells s) (contents this)) = abs this s !! t.
Proof. intros Hwf. by rewrite im_get_map by (by apply dict_nodup). Qed.

Lemma dict_size this s : dict_wf this s -> Z.of_nat (length (dict_at (cells s) (contents this))) = Z.of_nat (size (abs this s)).
Proof. intros (m & Hm & Hd). unfold abs, dict_at. rewrite Hm. by rewrite im_size. Qed.

Lemma key_of_ok member key key' t : declared_member key member = Ok key' -> dict_key key' = Ok t -> key_of member key = Ok (key', t).
Proof. intros H1 H2. unfold key_of. rewrite H1. cbn [res_bind]. by rewrite H2. Qed.

Lemma key_of_err member key key' e : declared_member key member = Ok key' -> dict_key key' = Err e -> key_of member key = Err e.
Proof. intros H1 H2. unfold key_of. rewrite H1. cbn [res_bind]. by rewrite H2. Qed.

Lemma key_of_bad member key e : declared_member key member = Err e -> key_of member key = Err e.
Proof. intros H1. unfold key_of. by rewrite H1. Qed.

Lemma dict_add_simulates this key key' value s :
  dict_wf this s -> declared_member key (member_type this) = Ok key' ->
  simulates this (DAdd key value) s (dict_add this [key'; value] s).
Proof.
  intros Hwf Hk. unfold dict_add. destruct (dict_key key') as [t|e] eqn:Ht.
  2:{ apply simulates_same; [done|done|]. eapply step_bad_key; [done|]. by eapply key_of_err. }
  pose proof (key_of_ok _ _ _ _ Hk Ht) as Hko. destruct (im_get t _) as [x|] eqn:Hg; rewrite dict_get in Hg by done.
  { apply simulates_same; [done|done|]. by eapply step_add_present. }
  pose proof (charge_cell_cases (lit "Dictionary.Add") (contents this) (entry_bytes t key' value) s) as Hc.
  destruct (charge_cell _ _ _ s) as [s'|e].
  - eapply simulates_insert; [done| |by eapply step_add]. unfold set_cell. cbn [cells]. by rewrite Hc.
  - apply simulates_same; [done|done|]. by apply step_full; [|right].
Qed.

Lemma dict_set_simulates this op key key' value rest s :
  dict_wf this s -> declared_member key (member_type this) = Ok key' ->
  (rest = [] /\ op = DSet key value) \/ (exists old, rest = [old] /\ op = DSetOld key value old) ->
  simulates this op s (dict_set this (key' :: value :: rest) s).
Proof.
  intros Hwf Hk Hop. unfold dict_set.
  replace (1 <? length rest)%nat with false by (by destruct Hop as [[-> _]|(old & -> & _)]).
  destruct (dict_key key') as [t|e] eqn:Ht.
  2:{ apply simulates_same; [done|done|]. pose proof (key_of_err _ _ _ _ Hk Ht).
      destruct Hop as [[_ ->]|(old & _ & ->)]; by eapply step_bad_key. }
  pose proof (key_of_ok _ _ _ _ Hk Ht) as Hko.
  pose proof (charge_cell_cases (lit "Dictionary.Set") (contents this) (entry_bytes t key' value) s) as Hc.
  destruct (charge_cell _ _ _ s) as [s'|e].
  2:{ apply simulates_same; [done|done|]. apply step_full; [|by right]. by destruct Hop as [[_ ->]|(old & _ & ->)]. }
  assert (im_get t (dict_at (cells s') (contents this)) = abs this s !! t) as Hg by (rewrite Hc; by apply dict_get).
  rewrite Hg. destruct Hop as [[-> ->]|(old & -> & ->)].
  - destruct (abs this s !! t) as [[k v]|]; (eapply simulates_insert; [done| |by eapply step_set]);
      rewrite ?cells_release; unfold set_cell; cbn [cells]; by rewrite Hc.
  - destruct (abs this s !! t) as [[k v]|] eqn:Ha;
      (eapply simulates_insert; [done| |first [by eapply step_set_old|by eapply step_set_new]]);
      rewrite ?cells_release; unfold set_cell; cbn [cells]; by rewrite Hc.
Qed.

(** The length check in front of Add and Set. *)
Lemma checked_simulates this op name lower key' args s :
  dict_wf this s -> adds op ->
  (~ overwrites (member_type this) op (abs this s) \/ replaces lower (key' :: args) (dict_at (cells s) (contents this)) = true) ->
  simulates this op s (dict_method_on this lower (key' :: args) s) ->
  simulates this op s
    match check_collection_len name (saturating_add (Z.of_nat (length (dict_at (cells s) (contents this)))) 1) with
    | Err error => if replaces lower (key' :: args) (dict_at (cells s) (contents this))
                   then dict_method_on this lower (key' :: args) s else fails error s
    | Ok _ => dict_method_on this lower (key' :: args) s
    end.
Proof.
  intros Hwf Ha Ho Hs. unfold check_collection_len, saturating_add. rewrite dict_size by done.
  destruct (Z.leb_spec (Z.min (Z.of_nat (size (abs this s)) + 1) usize_max) MAX_COLLECTION_LEN) as [|Hl]; [done|].
  destruct (replaces _ _ _); [done|]. destruct Ho as [Ho|]; [|done].
  apply simulates_same; [done|done|]. apply step_full; [done|]. left. split; [|done].
  unfold MAX_COLLECTION_LEN in *. unfold_ints. lia.
Qed.

Lemma replaces_overwrites this op lower key key' args s :
  str_is lower "set" = true -> dict_wf this s -> declared_member key (member_type this) = Ok key' -> op_key op = Some key ->
  (exists value, op = DSet key value) \/ (exists value old, op = DSetOld key value old) ->
  ~ overwrites (member_type this) op (abs this s) \/
  replaces lower (key' :: args) (dict_at (cells s) (contents this)) = true.
Proof.
  intros Hl Hwf Hk Hop Hset. unfold replaces. rewrite Hl. cbn [andb].
  destruct (dict_key key') as [t|e] eqn:Ht.
  - rewrite dict_get by done. destruct (abs this s !! t) eqn:Ha; [by right|left].
    pose proof (key_of_ok _ _ _ _ Hk Ht) as Hko.
    assert (forall k2 t2 x, key_of (member_type this) key = Ok (k2, t2) -> abs this s !! t2 = Some x -> False) as Hno
      by (intros k2 t2 x H2 Hx; rewrite Hko in H2; injection H2 as _ <-; congruence).
    destruct Hset as [(v & ->)|(v & o & ->)]; intros (k2 & t2 & x & H2 & Hx); by eapply Hno.
  - left. pose proof (key_of_err _ _ _ _ Hk Ht) as Hke.
    destruct Hset as [(v & ->)|(v & o & ->)]; intros (k2 & t2 & x & H2 & Hx); congruence.
Qed.

Lemma dict_get_simulates this op key key' s (k : option (Value * Value) -> Outcome) usage :
  dict_wf this s -> op_key op = Some key -> declared_member key (member_type this) = Ok key' ->
  (forall t, key_of (member_type this) key = Ok (key', t) -> simulates this op s (k (abs this s !! t))) ->
  simulates this op s (with_key [key'] usage s (fun t => k (im_get t (dict_at (cells s) (contents this))))).
Proof.
  intros Hwf Hop Hk Hs. unfold with_key. destruct (dict_key key') as [t|e] eqn:Ht.
  - rewrite dict_get by done. apply Hs. by apply key_of_ok.
  - apply simulates_same; [done|done|]. eapply step_bad_key; [done|]. by eapply key_of_err.
Qed.

Lemma convert_first key args member :
  convert_at 0 (key :: args) member = (key' <-? declared_member key member ; Ok (key' :: args)).
Proof. done. Qed.

Lemma dict_step this op s : dict_wf this s -> simulates this op s (dict_run this op s).
Proof.
  intros Hwf. destruct op as [key value|key value|key value old|key|key|key|]; cbn [dict_run];
    unfold dict_call, takes_key, is_one_of; cbn [existsb]; decide_names; rewrite ?convert_first;
    try (destruct (declared_member key (member_type this)) as [key'|e] eqn:Hk; cbn [res_bind];
      [|apply simulates_same; [done|done|]; by eapply step_bad_key, key_of_bad]).
  - apply checked_simulates; [done|done|by left; intros []|]. unfold dict_method_on. decide_names.
    by apply dict_add_simulates.
  - apply checked_simulates; [done|done|by eapply replaces_overwrites; eauto|]. unfold dict_method_on. decide_names.
    eapply dict_set_simulates; [done|done|]. by left.
  - apply checked_simulates; [done|done|by eapply replaces_overwrites; eauto|]. unfold dict_method_on. decide_names.
    eapply dict_set_simulates; [done|done|]. right. by exists old.
  - unfold dict_method_on. decide_names.
    apply (dict_get_simulates this (DGet key) key key' s (fun o : option (Value * Value) => match o with Some (_, value) => gives value s
      | None => fails (lit "Dictionary.Get: the key does not exist") s end)); [done..|].
    intros t Hko. destruct (abs this s !! t) as [[k v]|] eqn:Ha; (apply simulates_same; [done|done|]);
      [by eapply step_get|by eapply step_get_absent].
  - unfold dict_method_on. decide_names.
    apply (dict_get_simulates this (DContainsKey key) key key' s
      (fun o => gives (VBoolean (@bool_decide (is_Some o) (is_Some_dec o))) s)); [done..|].
    intros t Hko. apply simulates_same; [done|done|]. by eapply step_contains.
  - unfold dict_method_on. decide_names. unfold with_key. destruct (dict_key key') as [t|e] eqn:Ht.
    2:{ apply simulates_same; [done|done|]. eapply step_bad_key; [done|]. by eapply key_of_err. }
    pose proof (key_of_ok _ _ _ _ Hk Ht) as Hko. rewrite dict_get by done.
    destruct (abs this s !! t) as [[k v]|] eqn:Ha.
    + exists (im_remove t (dict_at (cells s) (contents this))). destruct Hwf as (m & Hm & Hd).
      assert (dict_at (cells s) (contents this) = m) as Hat by (unfold dict_at; by rewrite Hm).
      split_and!; [unfold updated; by rewrite cells_release|rewrite Hat; by apply im_remove_nodup|].
      rewrite im_remove_map by (by rewrite Hat). by eapply step_remove.
    + apply simulates_same; [done|done|]. by eapply step_remove_absent.
  - unfold dict_method_on. decide_names. apply simulates_same; [done|done|]. rewrite dict_size by done. apply step_count.
Qed.

(** A run of calls, and of the specification. *)
Fixpoint dict_run_all (this : Collection) (ops : list DictOp) (s : Shared) : list (Eval * list (nat * Value)) * Shared :=
  match ops with
  | [] => ([], s)
  | op :: ops =>
      let '(e, s, w) := dict_run this op s in
      let '(es, s) := dict_run_all this ops s in ((e, w) :: es, s)
  end.

Inductive map_steps (member : option str) : list DictOp -> Map -> list (Eval * list (nat * Value)) -> Map -> Prop :=
  | steps_none m : map_steps member [] m [] m
  | steps_cons op ops m e w m' es m'' :
      map_step member op m e w m' -> map_steps member ops m' es m'' ->
      map_steps member (op :: ops) m ((e, w) :: es) m''.

End dictionaries.

(** * An [IndexMap] as a list of entries *)

Section entry_list.
Context {A : Type}.
Implicit Types m : list (str * A).

Fixpoint entries_get (key : str) m : option A :=
  match m with
  | [] => None
  | (k, v) :: m => if str_eqb k key then Some v else entries_get key m
  end.

Fixpoint entries_insert (key : str) (v : A) m : list (str * A) :=
  match m with
  | [] => [(key, v)]
  | (k, x) :: m => if str_eqb k key then (k, v) :: m else (k, x) :: entries_insert key v m
  end.

Lemma str_eqb_spec a b : reflect (a = b) (str_eqb a b).
Proof. unfold str_eqb. apply bool_decide_reflect. Qed.

#[export] Instance entry_list : IndexMap A := {|
  im_get := entries_get; im_insert := entries_insert; im_remove key m := filter (fun e => e.1 <> key) m |}.

Lemma entries_cons k x m (P : Prop) : NoDup ((k, x) :: m).*1 -> (~ k ∈ m.*1 -> NoDup m.*1 -> P) -> P.
Proof. cbn [fmap list_fmap fst]. rewrite NoDup_cons. intros [? ?]. auto. Qed.

Lemma elem_keys k x m : (k, x) ∈ m -> k ∈ m.*1.
Proof. intros H. apply list_elem_of_fmap. by exists (k, x). Qed.

#[export] Instance entry_list_laws : IndexMapLaws A.
Proof.
  split; cbn [im_get im_insert im_remove entry_list].
  - induction m as [|[k x] m IH]; intros key v Hd; [split; [done|by inversion 1]|].
    apply (entries_cons _ _ _ _ Hd). intros Hk Hd'. cbn [entries_get]. rewrite elem_of_cons.
    destruct (str_eqb_spec k key) as [->|Hn]; [|rewrite IH by done; naive_solver].
    split; [intros [= ->]; by left|]. intros [[= ->]|Hin]; [done|]. by apply elem_keys in Hin.
  - induction m as [|[k x] m IH]; intros key v; cbn [entries_insert fmap list_fmap fst].
    + rewrite decide_False by (by inversion 1). done.
    + destruct (str_eqb_spec k key) as [->|Hn]; cbn [fmap list_fmap fst]; [by rewrite decide_True by (by left)|].
      rewrite IH. destruct (decide (key ∈ m.*1)); [by rewrite decide_True by (by right)|].
      rewrite decide_False; [done|]. rewrite elem_of_cons. by intros [?|?].
  - induction m as [|[k x] m IH]; intros key v k' x' Hd; cbn [entries_insert].
    + rewrite list_elem_of_singleton. destruct (decide _) as [->|Hn]; [naive_solver|]. split; [naive_solver|by inversion 1].
    + apply (entries_cons _ _ _ _ Hd). intros Hk Hd'.
      destruct (str_eqb_spec k key) as [->|Hn]; rewrite !elem_of_cons.
      2:{ rewrite IH by done. destruct (decide (k' = key)) as [->|]; [|by rewrite elem_of_cons].
          split; [intros [[= ? ?]|?]; [congruence|done]|by right]. }
      destruct (decide (k' = key)) as [->|Hn']; [|rewrite elem_of_cons; naive_solver].
      split; [|naive_solver]. intros [[= ->]|Hin]; [done|]. by apply elem_keys in Hin.
  - intros m key _. induction m as [|[k x] m IH]; [done|]. cbn [fmap list_fmap fst]. rewrite !filter_cons. cbn [fst].
    destruct (decide (k <> key)); cbn [fmap list_fmap fst]; by rewrite IH.
  - intros m key k x _. by rewrite list_elem_of_filter.
Qed.
End entry_list.

(** * The theorem evaluated *)

#[local] Existing Instances mini_decimal ascii_unicode.

Definition a_dict : Collection := {| contents := 1; member_type := Some (lit "Code[10]"); value_type := None |}.
Definition one_dict : Shared := {|
  cells := {[1 := CDict [(lit "A", (VCode (lit "A"), VInteger 1))]]}; counts := {[1 := 113]}; total := 113; next := 2 |}.

