(* ===== verification/ListSpec.v ===== *)
(** What the List methods of [Collections.v] promise: a List is a sequence, and
    it counts exactly the bytes of its elements. *)

From Stdlib Require Import ZArith Lia.
From stdpp Require Import base tactics numbers option list gmap strings.
From S2P Require Import Prelude RustStr StrSearch Decimals Values Slots Scopes Collections.

#[local] Open Scope Z_scope.
#[local] Open Scope rust_scope.

Section lists.
Context {D : Decimal} {U : Unicode}.

(** * Bytes *)

Lemma element_bytes_lt v : 0 < element_bytes v.
Proof.
  assert (forall w, 0 <= text_bytes w) as Ht by (intros []; cbn [text_bytes]; try lia; apply str_len_nonneg).
  assert (0 <= owned_bytes v) as Ho.
  { unfold owned_bytes. destruct (unwrap_variant v) eqn:E; try (rewrite <- E; apply Ht).
    clear E. induction l as [|x l IH]; cbn [foldr]; [lia|].
    pose proof (Ht x). unfold saturating_add, VALUE_SIZE, usize_max in *. lia. }
  unfold element_bytes, saturating_add, VALUE_SIZE, usize_max. lia.
Qed.

Lemma element_bytes_pos v : 0 <= element_bytes v.
Proof. pose proof (element_bytes_lt v). lia. Qed.

Lemma sum_bytes_pos l : 0 <= sum_bytes l.
Proof. induction l as [|v l IH]; cbn [sum_bytes foldr]; [lia|]. pose proof (element_bytes_pos v). unfold sum_bytes in IH. lia. Qed.

Lemma sum_bytes_app l k : sum_bytes (l ++ k) = sum_bytes l + sum_bytes k.
Proof. unfold sum_bytes. induction l as [|v l IH]; cbn [app foldr]; [done|]. rewrite IH. lia. Qed.

Lemma sum_bytes_cons v l : sum_bytes (v :: l) = element_bytes v + sum_bytes l.
Proof. done. Qed.

Lemma sum_bytes_perm l k : l ≡ₚ k -> sum_bytes l = sum_bytes k.
Proof. induction 1; rewrite ?sum_bytes_cons; try lia. Qed.

Lemma sum_bytes_delete l i v : l !! i = Some v -> sum_bytes (delete i l) + element_bytes v = sum_bytes l.
Proof. intros H. apply delete_Permutation, sum_bytes_perm in H. rewrite H, sum_bytes_cons. lia. Qed.

Lemma sum_bytes_insert l i v old :
  l !! i = Some old -> sum_bytes (<[i := v]> l) + element_bytes old = sum_bytes l + element_bytes v.
Proof.
  intros H. rewrite insert_take_drop by (by eapply lookup_lt_Some). rewrite <- (take_drop_middle l i old H) at 3.
  rewrite !sum_bytes_app, !sum_bytes_cons. lia.
Qed.

Lemma sum_bytes_cut l i j :
  (i <= j)%nat -> sum_bytes (take i l ++ drop j l) + sum_bytes (take (j - i) (drop i l)) = sum_bytes l.
Proof.
  intros H. rewrite <- (take_drop i l) at 4. rewrite <- (take_drop (j - i) (drop i l)) at 2.
  rewrite drop_drop. replace (i + (j - i))%nat with j by lia. rewrite !sum_bytes_app. lia.
Qed.

(** The contents at [a] count [bytes], which are part of the test's total. *)
Definition counted (a bytes : Z) (s : Shared) : Prop := count_of s a = bytes /\ bytes <= total s <= usize_max.

Lemma charge_counted operation a b n s s' :
  counted a b s -> 0 <= b -> 0 <= n -> charge_cell operation a n s = Ok s' ->
  counted a (b + n) s' /\ total s' = total s + n /\ cells s' = cells s /\
  (forall a', a' <> a -> count_of s' a' = count_of s a').
Proof.
  intros [Hc Ht] Hb Hn. unfold charge_cell, charge, hold_bytes, saturating_add.
  destruct ((0 <? n) && _) eqn:E; cbn [res_bind]; [done|]. intros [= <-].
  assert (Z.min (total s + n) usize_max = total s + n) as Hm.
  { apply andb_false_iff in E as [E|E]; [apply Z.ltb_ge in E; lia|apply Z.ltb_ge in E].
    unfold MAX_HELD_BYTES in E. unfold_ints. lia. }
  rewrite Hm in *. unfold counted, count_of, set_count. cbn [counts total cells]. split_and!; [| | |done|done|].
  - rewrite lookup_insert_eq. cbn [default from_option id]. unfold count_of in Hc. lia.
  - lia.
  - lia.
  - intros a' Ha. by rewrite lookup_insert_ne.
Qed.

Lemma release_counted a b n s :
  counted a b s -> 0 <= n <= b ->
  counted a (b - n) (release_cell a n s) /\ total (release_cell a n s) = total s - n /\
  cells (release_cell a n s) = cells s /\ (forall a', a' <> a -> count_of (release_cell a n s) a' = count_of s a').
Proof.
  intros [Hc Ht] Hn. unfold release_cell, release, release_held_bytes, saturating_sub. rewrite Hc.
  rewrite Z.min_r, !Z.max_l by lia. unfold counted, count_of, set_count. cbn [counts total cells].
  split_and!; [|lia|lia|done|done|].
  - by rewrite lookup_insert_eq.
  - intros a' Ha. by rewrite lookup_insert_ne.
Qed.

Lemma set_cell_counted a b a' c s : counted a b (set_cell a' c s) <-> counted a b s.
Proof. done. Qed.

(** * The specification: a sequence *)

Inductive ListOp :=
  | LAdd (v : Value)
  | LAddRange (vs : list Value)
  | LInsert (index : Z) (v : Value)
  | LSet (index : Z) (v : Value)
  | LGet (index : Z)
  | LRemoveAt (index : Z)
  | LRemoveRange (index count : Z)
  | LReverse
  | LCount.

Definition list_method (op : ListOp) : string * list Value :=
  match op with
  | LAdd v => ("Add"%string, [v])
  | LAddRange vs => ("AddRange"%string, vs)
  | LInsert index v => ("Insert"%string, [VInteger index; v])
  | LSet index v => ("Set"%string, [VInteger index; v])
  | LGet index => ("Get"%string, [VInteger index])
  | LRemoveAt index => ("RemoveAt"%string, [VInteger index])
  | LRemoveRange index count => ("RemoveRange"%string, [VInteger index; VInteger count])
  | LReverse => ("Reverse"%string, [])
  | LCount => ("Count"%string, [])
  end.

(** The value given and the sequence left; [None] is an error, which leaves the
    sequence. *)
Definition seq_step (op : ListOp) (l : list Value) : option (Value * list Value) :=
  let len := Z.of_nat (length l) in
  let at_ (index : Z) := Z.to_nat (index - 1) in
  match op with
  | LAdd v => Some (VBoolean true, l ++ [v])
  | LAddRange vs => match vs with [] => None | _ => Some (VEmpty, l ++ vs) end
  | LInsert index v =>
      if decide (1 <= index <= len + 1) then Some (VBoolean true, take (at_ index) l ++ v :: drop (at_ index) l) else None
  | LSet index v => if decide (1 <= index <= len) then Some (VBoolean true, <[at_ index := v]> l) else None
  | LGet index => if decide (1 <= index <= len) then v ← l !! at_ index; Some (v, l) else None
  | LRemoveAt index => if decide (1 <= index <= len) then Some (VBoolean true, delete (at_ index) l) else None
  | LRemoveRange index count =>
      if decide (1 <= index /\ 0 <= count /\ index - 1 + count <= len) then
        Some (VBoolean true, take (at_ index) l ++ drop (Z.to_nat (index - 1 + count)) l)
      else None
  | LReverse => Some (VEmpty, reverse l)
  | LCount => Some (VInteger len, l)
  end.

(** ** One call *)

Definition list_run (cancelled : nat -> nat -> bool) (this : Collection) (op : ListOp) (s : Shared) : Outcome :=
  let '(method, args) := list_method op in list_call cancelled this (lit method) args true s.

(** The call left the sequence [l], counted, and nothing else changed. *)
Definition leaves (this : Collection) (l : list Value) (delta : Z) (s s' : Shared) : Prop :=
  cells s' = <[contents this := CList l]> (cells s) /\ counted (contents this) (sum_bytes l) s' /\
  total s' = total s + delta /\ (forall a, a <> contents this -> count_of s' a = count_of s a).

(** The state between the charge and the method. *)
Definition charged (this : Collection) (l : list Value) (adding : Z) (s s1 : Shared) : Prop :=
  cells s1 = cells s /\ cells s !! contents this = Some (CList l) /\
  counted (contents this) (sum_bytes l + adding) s1 /\
  total s1 = total s + adding /\ (forall a, a <> contents this -> count_of s1 a = count_of s a).

Definition settle (this : Collection) (adding : Z) (o : Outcome) : Outcome :=
  let '(e, s, w) := o in (e, if kept e then s else release_cell (contents this) adding s, w).

Section settle.
Context (this : Collection) (l : list Value) (adding : Z) (s s1 : Shared).
Hypothesis Hs1 : charged this l adding s s1.
Hypothesis Hadding : 0 <= adding.

(** The items change and [released] bytes are given back. *)
Lemma leaves_replaced l' released :
  0 <= released <= sum_bytes l + adding -> sum_bytes l' = sum_bytes l + adding - released ->
  leaves this l' (sum_bytes l' - sum_bytes l) s (release_cell (contents this) released (set_cell (contents this) (CList l') s1)).
Proof.
  destruct Hs1 as (Hc & Hl & Hcount & Ht & Ho). intros Hr Hsum.
  destruct (release_counted (contents this) (sum_bytes l + adding) released (set_cell (contents this) (CList l') s1) Hcount Hr)
    as (H1 & H2 & H3 & H4).
  split_and!; [rewrite H3; unfold set_cell; cbn [cells]; by rewrite Hc|by rewrite Hsum| |].
  - rewrite H2. cbn [set_cell total]. lia.
  - intros a Ha. rewrite H4 by done. by apply Ho.
Qed.

Lemma leaves_grown l' :
  sum_bytes l' = sum_bytes l + adding -> leaves this l' (sum_bytes l' - sum_bytes l) s (set_cell (contents this) (CList l') s1).
Proof.
  destruct Hs1 as (Hc & Hl & Hcount & Ht & Ho). intros Hsum.
  split_and!; [unfold set_cell; cbn [cells]; by rewrite Hc|by rewrite Hsum| |done]. cbn [set_cell total]. lia.
Qed.

(** The charge is given back, and nothing changed. *)
Lemma leaves_released : leaves this l 0 s (release_cell (contents this) adding s1).
Proof.
  destruct Hs1 as (Hc & Hl & Hcount & Ht & Ho). pose proof (sum_bytes_pos l).
  destruct (release_counted (contents this) (sum_bytes l + adding) adding s1 Hcount ltac:(lia)) as (H1 & H2 & H3 & H4).
  split_and!; [by rewrite H3, Hc, insert_id|by replace (sum_bytes l) with (sum_bytes l + adding - adding) by lia|lia|].
  intros a Ha. rewrite H4 by done. by apply Ho.
Qed.

Lemma leaves_uncharged : adding = 0 -> leaves this l 0 s s1.
Proof.
  destruct Hs1 as (Hc & Hl & Hcount & Ht & Ho). intros ->. rewrite Z.add_0_r in *.
  split_and!; [by rewrite Hc, insert_id|done|lia|done].
Qed.

Lemma settle_error e w : kept e = false -> leaves this l 0 s (settle this adding (e, s1, w)).1.2.
Proof. intros He. unfold settle. rewrite He. apply leaves_released. Qed.

Lemma settle_read e w : adding = 0 -> leaves this l 0 s (settle this adding (e, s1, w)).1.2.
Proof. intros H. unfold settle. destruct (kept e); [by apply leaves_uncharged|apply leaves_released]. Qed.
End settle.

(** What the method does with the charged state. *)
Definition steps_to (this : Collection) (op : ListOp) (l : list Value) (s : Shared) (o : Outcome) : Prop :=
  match seq_step op l with
  | Some (v, l') => o.1.1 = Normal v /\ leaves this l' (sum_bytes l' - sum_bytes l) s o.1.2
  | None => is_error o.1.1 = true /\ leaves this l 0 s o.1.2
  end.

(** The bytes a call is charged for. *)
Definition op_bytes (op : ListOp) : Z :=
  match op with
  | LAdd v | LInsert _ v | LSet _ v => element_bytes v
  | LAddRange vs => sum_bytes vs
  | _ => 0
  end.

Lemma op_bytes_pos op : 0 <= op_bytes op.
Proof. destruct op; cbn [op_bytes]; try lia; first [apply element_bytes_pos|apply sum_bytes_pos]. Qed.

Lemma list_index_ok method index len :
  0 <= len -> list_index method [VInteger index] len =
  if decide (1 <= index <= len) then Ok (Z.to_nat (index - 1))
  else Err (lit method ++ lit ": index " ++ i64_to_str index ++ lit " out of range 1.." ++ u64_to_str len).
Proof.
  intros Hl. unfold list_index. destruct (Z.leb_spec 1 index), (Z.ltb_spec (index - 1) len); cbn [andb];
    (rewrite decide_True by lia; done) || (rewrite decide_False by lia; done).
Qed.

Lemma index_lookup {A} (l : list A) index :
  1 <= index <= Z.of_nat (length l) -> exists x, l !! Z.to_nat (index - 1) = Some x.
Proof. intros H. apply lookup_lt_is_Some_2. lia. Qed.

Lemma method_steps this op l s s1 :
  charged this l (op_bytes op) s s1 ->
  steps_to this op l s
    (settle this (op_bytes op)
       (list_method_on this (to_ascii_lowercase (lit (list_method op).1)) (list_method op).2 true s1)).
Proof.
  intros H. assert (list_at (cells s1) (contents this) = l) as Hat.
  { destruct H as (Hc & Hl & _). unfold list_at. by rewrite Hc, Hl. }
  pose proof (op_bytes_pos op) as Hpos. pose proof (Nat2Z.is_nonneg (length l)) as Hlen.
  unfold list_method_on, steps_to. rewrite Hat.
  destruct op as [v|vs|index v|index v|index|index|index count| |]; cbn [list_method fst snd seq_step op_bytes] in *; decide_names.
  - split; [done|]. eapply leaves_grown; [exact H|]. rewrite sum_bytes_app. unfold sum_bytes at 2. cbn [foldr]. lia.
  - destruct vs as [|v vs]; [split; [done|]; by eapply settle_error|].
    split; [done|]. eapply leaves_grown; [exact H|]. apply sum_bytes_app.
  - destruct (decide (1 <= index <= Z.of_nat (length l) + 1)) as [Hi|Hi].
    + replace (_ && _) with true by (symmetry; apply andb_true_iff; rewrite !Z.leb_le; lia).
      split; [done|]. eapply leaves_grown; [exact H|]. rewrite sum_bytes_app, sum_bytes_cons.
      pose proof (sum_bytes_app (take (Z.to_nat (index - 1)) l) (drop (Z.to_nat (index - 1)) l)) as Hs.
      rewrite take_drop in Hs. lia.
    + replace (_ && _) with false by (symmetry; apply andb_false_iff; rewrite !Z.leb_gt; lia).
      split; [done|]. by eapply settle_error.
  - rewrite list_index_ok by lia. destruct (decide _) as [Hi|Hi]; [|split; [done|]; by eapply settle_error].
    destruct (index_lookup l index Hi) as [old Hold]. rewrite Hold. cbn [default from_option id].
    pose proof (sum_bytes_insert l _ v old Hold). pose proof (element_bytes_pos old).
    pose proof (sum_bytes_pos (<[Z.to_nat (index - 1) := v]> l)).
    split; [done|]. eapply leaves_replaced; [exact H|lia|lia].
  - rewrite list_index_ok by lia. destruct (decide _) as [Hi|Hi]; [|split; [done|]; by eapply settle_error].
    destruct (index_lookup l index Hi) as [old Hold]. rewrite Hold. cbn [default from_option id mbind option_bind].
    rewrite Z.sub_diag. split; [done|]. by eapply settle_read.
  - rewrite list_index_ok by lia. destruct (decide _) as [Hi|Hi]; [|split; [done|]; by eapply settle_error].
    destruct (index_lookup l index Hi) as [old Hold]. rewrite Hold. cbn [default from_option id].
    pose proof (sum_bytes_delete l _ old Hold). pose proof (element_bytes_pos old).
    pose proof (sum_bytes_pos (delete (Z.to_nat (index - 1)) l)).
    split; [done|]. eapply leaves_replaced; [exact H|lia|lia].
  - unfold list_range. destruct (decide _) as [Hi|Hi].
    + replace (_ && _ && _) with true by (symmetry; rewrite !andb_true_iff, !Z.leb_le; lia).
      pose proof (sum_bytes_cut l (Z.to_nat (index - 1)) (Z.to_nat (index - 1 + count)) ltac:(lia)) as Hcut.
      pose proof (sum_bytes_pos (take (Z.to_nat (index - 1 + count) - Z.to_nat (index - 1)) (drop (Z.to_nat (index - 1)) l))).
      pose proof (sum_bytes_pos (take (Z.to_nat (index - 1)) l ++ drop (Z.to_nat (index - 1 + count)) l)).
      split; [done|]. eapply leaves_replaced; [exact H|lia|lia].
    + replace (_ && _ && _) with false by (symmetry; rewrite !andb_false_iff, !Z.leb_gt; lia).
      split; [done|]. by eapply settle_error.
  - split; [done|]. eapply leaves_grown; [exact H|]. rewrite (sum_bytes_perm (reverse l) l) by apply reverse_Permutation. lia.
  - rewrite Z.sub_diag. split; [done|]. by eapply settle_read.
Qed.

(** ** A run of calls *)

Definition grows (op : ListOp) : Z :=
  match op with LAdd _ | LInsert _ _ => 1 | LAddRange vs => Z.of_nat (length vs) | _ => 0 end.

(** A refusal: the list would be too long, or the test holds too much. *)
Definition limited (op : ListOp) (l : list Value) (e : Eval) : Prop :=
  exists message, e = eval_error message /\
    (MAX_COLLECTION_LEN < Z.of_nat (length l) + grows op \/
     exists operation total, MAX_HELD_BYTES < total /\ message = over_held_budget operation total).

(** One step of the specification: the sequence's, or a refusal. *)
Definition list_step (op : ListOp) (l : list Value) (e : Eval) (l' : list Value) : Prop :=
  match seq_step op l with
  | Some (v, l'') => (e = Normal v /\ l' = l'') \/ (limited op l e /\ 0 < op_bytes op /\ l' = l)
  | None => is_error e = true /\ l' = l
  end.

Definition list_wf (this : Collection) (l : list Value) (s : Shared) : Prop :=
  cells s !! contents this = Some (CList l) /\ Z.of_nat (length l) <= MAX_COLLECTION_LEN /\
  counted (contents this) (sum_bytes l) s.

Lemma leaves_same this l s : list_wf this l s -> leaves this l 0 s s.
Proof. intros (Hl & _ & Hc). split_and!; [by rewrite insert_id|done|lia|done]. Qed.

Lemma charge_charged this l op operation s s1 :
  list_wf this l s -> charge_cell operation (contents this) (op_bytes op) s = Ok s1 -> charged this l (op_bytes op) s s1.
Proof.
  intros (Hl & _ & Hc) H. pose proof (sum_bytes_pos l) as Hb. pose proof (op_bytes_pos op) as Ho.
  destruct (charge_counted _ _ (sum_bytes l) (op_bytes op) _ _ Hc ltac:(lia) ltac:(lia) H) as (H1 & H2 & H3 & H4).
  by split_and!.
Qed.

Lemma charge_refused operation a bytes s e :
  charge_cell operation a bytes s = Err e ->
  0 < bytes /\ exists operation total, MAX_HELD_BYTES < total /\ e = over_held_budget operation total.
Proof.
  unfold charge_cell, charge, hold_bytes. destruct ((0 <? bytes) && _) eqn:E; cbn [res_bind]; [|done].
  apply andb_true_iff in E as [E1%Z.ltb_lt E2%Z.ltb_lt]. intros [= <-]. split; [done|]. by eexists _, _.
Qed.

Lemma seq_step_length op l v l' :
  seq_step op l = Some (v, l') -> Z.of_nat (length l') <= Z.of_nat (length l) + grows op.
Proof.
  destruct op; cbn [seq_step grows]; try (destruct (decide _) as [Hd|Hd]; [|done]).
  - intros [= <- <-]. rewrite length_app. simpl. lia.
  - destruct vs; [done|]. intros [= <- <-]. rewrite length_app. lia.
  - intros [= <- <-]. rewrite length_app, length_take. cbn [length]. rewrite length_drop. lia.
  - intros [= <- <-]. rewrite length_insert. lia.
  - destruct (l !! _); [|done]. intros [= <- <-]. lia.
  - intros [= <- <-]. pose proof (length_delete l (Z.to_nat (index - 1))).
    destruct (index_lookup l index Hd) as [x Hx]. rewrite H by (by eexists). lia.
  - intros [= <- <-]. rewrite length_app, length_take, length_drop. lia.
  - intros [= <- <-]. rewrite length_reverse. lia.
  - intros [= <- <-]. lia.
Qed.

Lemma list_call_unfold cancelled this op s l :
  list_at (cells s) (contents this) = l ->
  list_run cancelled this op s =
    let name := lit "List." ++ lit (list_method op).1 in
    match check_collection_len name (saturating_add (Z.of_nat (length l)) (grows op)) with
    | Err error => fails error s
    | Ok _ =>
        match charge_cell name (contents this) (op_bytes op) s with
        | Err error => fails error s
        | Ok s => settle this (op_bytes op)
            (list_method_on this (to_ascii_lowercase (lit (list_method op).1)) (list_method op).2 true s)
        end
    end.
Proof.
  intros <-. unfold list_run, list_call, is_search, is_one_of.
  destruct op; cbn [list_method fst snd existsb grows op_bytes]; decide_names; reflexivity.
Qed.

Lemma grows_bytes op : 0 < grows op -> 0 < op_bytes op.
Proof.
  assert (forall v, 0 < element_bytes v) as He by apply element_bytes_lt.
  destruct op as [v|vs|index v|index v|index|index|index count| |]; cbn [grows op_bytes]; intros H; try lia; auto.
  destruct vs as [|v vs]; [simpl in H; lia|]. rewrite sum_bytes_cons. pose proof (He v). pose proof (sum_bytes_pos vs). lia.
Qed.

Lemma limited_step op l e : limited op l e -> 0 < op_bytes op -> list_step op l e l.
Proof.
  intros H Hb. unfold list_step. destruct (seq_step op l) as [[v l']|]; [by right|].
  destruct H as (m & -> & _). done.
Qed.

Lemma list_step_holds cancelled this op l s :
  list_wf this l s ->
  let '(e, s', _) := list_run cancelled this op s in
  exists l', list_step op l e l' /\ leaves this l' (sum_bytes l' - sum_bytes l) s s' /\ list_wf this l' s'.
Proof.
  intros Hwf. pose proof Hwf as (Hl & Hlen & Hc).
  assert (list_at (cells s) (contents this) = l) as Hat by (unfold list_at; by rewrite Hl).
  rewrite (list_call_unfold cancelled this op s l Hat). cbv zeta.
  assert (0 <= grows op) as Hg by (destruct op; cbn [grows]; lia).
  unfold check_collection_len, saturating_add.
  destruct (Z.leb_spec (Z.min (Z.of_nat (length l) + grows op) usize_max) MAX_COLLECTION_LEN) as [Hle|Hgt].
  2:{ exists l. rewrite Z.sub_diag. split; [|by split; [apply leaves_same|]].
      unfold MAX_COLLECTION_LEN in *. unfold_ints. apply limited_step; [|apply grows_bytes; lia].
      eexists. split; [done|]. left. unfold MAX_COLLECTION_LEN. lia. }
  destruct (charge_cell _ _ _ s) as [s1|error] eqn:Hch.
  2:{ exists l. rewrite Z.sub_diag. split; [|by split; [apply leaves_same|]].
      apply charge_refused in Hch as [Hb Hover]. apply limited_step; [|done]. eexists. split; [done|]. by right. }
  pose proof (method_steps this op l s s1 (charge_charged _ _ _ _ _ _ Hwf Hch)) as Hm. unfold steps_to in Hm.
  destruct (settle _ _ _) as [[e s'] w]. cbn [fst snd] in Hm. unfold list_step.
  destruct (seq_step op l) as [[v l']|] eqn:Hseq; destruct Hm as [He Hleaves].
  - exists l'. split; [left; by subst|]. split; [done|]. destruct Hleaves as (H1 & H2 & _).
    split; [rewrite H1; by rewrite lookup_insert_eq|]. split; [|done].
    apply seq_step_length in Hseq. unfold MAX_COLLECTION_LEN in *. unfold_ints. lia.
  - exists l. rewrite Z.sub_diag. split; [done|]. split; [done|]. destruct Hleaves as (H1 & H2 & _).
    split; [rewrite H1; by rewrite lookup_insert_eq|done].
Qed.

Fixpoint list_run_all (cancelled : nat -> nat -> bool) (this : Collection) (ops : list ListOp) (s : Shared) :
    list Eval * Shared :=
  match ops with
  | [] => ([], s)
  | op :: ops =>
      let '(e, s, _) := list_run cancelled this op s in
      let '(es, s) := list_run_all cancelled this ops s in (e :: es, s)
  end.

Inductive list_steps : list ListOp -> list Value -> list Eval -> list Value -> Prop :=
  | list_steps_none l : list_steps [] l [] l
  | list_steps_cons op ops l e l' es l'' :
      list_step op l e l' -> list_steps ops l' es l'' -> list_steps (op :: ops) l (e :: es) l''.


(** * Searching *)

Definition uncancelled : nat -> nat -> bool := fun _ _ => false.

(** The element equals the needle. *)
Definition equals (h : heap) (needle item : Value) : bool := is_eq (compare h (fun _ => false) item needle).

Definition matches_at (h : heap) (needle : Value) (l : list Value) (i : nat) : Prop :=
  exists item, l !! i = Some item /\ equals h needle item = true.

Lemma position_of_value_spec h needle i l :
  match position_of_value h uncancelled needle i l with
  | Some n => (i <= n)%nat /\ matches_at h needle l (n - i) /\ forall k, matches_at h needle l k -> (n - i <= k)%nat
  | None => forall k, ~ matches_at h needle l k
  end.
Proof.
  revert i. induction l as [|x l IH]; intros i; cbn [position_of_value]; [by intros k (y & Hy & _)|].
  cbn [uncancelled orb]. change (is_eq (compare h (fun k => uncancelled i (S k)) x needle)) with (equals h needle x).
  destruct (equals h needle x) eqn:E; cbv iota.
  - split; [lia|]. split; [exists x; by rewrite Nat.sub_diag|lia].
  - specialize (IH (S i)). destruct (position_of_value h uncancelled needle (S i) l) as [n|].
    + destruct IH as (Hn & (y & Hy & Ey) & Hmin). split; [lia|]. split.
      * exists y. split; [|done]. by replace (n - i)%nat with (S (n - S i)) by lia.
      * intros [|k] (z & Hz & Ez); [injection Hz as <-; congruence|]. specialize (Hmin k). 
        assert (n - S i <= k)%nat by (apply Hmin; by exists z). lia.
    + intros [|k] (z & Hz & Ez); [injection Hz as <-; congruence|]. by destruct (IH k); exists z.
Qed.

Lemma matches_reverse h needle l k :
  (k < length l)%nat -> matches_at h needle (reverse l) k <-> matches_at h needle l (length l - 1 - k).
Proof. intros Hk. unfold matches_at. rewrite reverse_lookup by done. by replace (length l - S k)%nat with (length l - 1 - k)%nat by lia. Qed.

Lemma matches_lt h needle l k : matches_at h needle l k -> (k < length l)%nat.
Proof. intros (x & Hx & _). by eapply lookup_lt_Some. Qed.

Lemma rposition_of_value_spec h needle l :
  match rposition_of_value h uncancelled needle l with
  | Some n => matches_at h needle l n /\ forall k, matches_at h needle l k -> (k <= n)%nat
  | None => forall k, ~ matches_at h needle l k
  end.
Proof.
  unfold rposition_of_value. pose proof (position_of_value_spec h needle 0 (reverse l)) as H.
  destruct (position_of_value _ _ _ 0 (reverse l)) as [n|]; cbn [fmap option_fmap option_map].
  - destruct H as (_ & Hm & Hmin). rewrite Nat.sub_0_r in *. pose proof (matches_lt _ _ _ _ Hm) as Hlt.
    rewrite length_reverse in Hlt. split; [by apply matches_reverse|]. intros k Hk.
    pose proof (matches_lt _ _ _ _ Hk). specialize (Hmin (length l - 1 - k)%nat).
    assert (n <= length l - 1 - k)%nat; [|lia]. apply Hmin, matches_reverse; [lia|].
    by replace (length l - 1 - (length l - 1 - k))%nat with k by lia.
  - intros k Hk. pose proof (matches_lt _ _ _ _ Hk). apply (H (length l - 1 - k)%nat), matches_reverse; [lia|].
    by replace (length l - 1 - (length l - 1 - k))%nat with k by lia.
Qed.

Definition search (method : string) (this : Collection) (needle : Value) (s : Shared) : Outcome :=
  list_call uncancelled this (lit method) [needle] true s.

(** The searches of a List agree: when no element equals the value IndexOf
    and LastIndexOf give 0, Contains false, and Remove false, and nothing
    changes; otherwise IndexOf gives the first and LastIndexOf the last
    position of an element equal to it, Contains true, and Remove takes out
    exactly the element IndexOf names, giving back its bytes. *)
Lemma list_searches_agree this needle l s :
  list_wf this l s ->
  exists first last : Z,
    search "IndexOf" this needle s = (Normal (VInteger first), s, []) /\
    search "LastIndexOf" this needle s = (Normal (VInteger last), s, []) /\
    search "Contains" this needle s = (Normal (VBoolean (0 <? first)), s, []) /\
    if decide (first = 0) then
      last = 0 /\ (forall k, ~ matches_at (cells s) needle l k) /\
      search "Remove" this needle s = (Normal (VBoolean false), s, [])
    else
      1 <= first <= last /\ matches_at (cells s) needle l (Z.to_nat (first - 1)) /\
      matches_at (cells s) needle l (Z.to_nat (last - 1)) /\
      (forall k, matches_at (cells s) needle l k -> first - 1 <= Z.of_nat k <= last - 1) /\
      let l' := delete (Z.to_nat (first - 1)) l in
      exists s', search "Remove" this needle s = (Normal (VBoolean true), s', []) /\ list_wf this l' s' /\
        leaves this l' (sum_bytes l' - sum_bytes l) s s'.
Proof.
  intros Hwf. pose proof Hwf as (Hl & Hlen & Hc).
  assert (list_at (cells s) (contents this) = l) as Hat by (unfold list_at; by rewrite Hl).
  unfold search, list_call, is_search, is_one_of. cbn [existsb]. decide_names. unfold search_list. decide_names.
  cbn [uncancelled]. rewrite Hat.
  pose proof (position_of_value_spec (cells s) needle 0 l) as Hp. pose proof (rposition_of_value_spec (cells s) needle l) as Hr.
  destruct (position_of_value _ _ _ 0 l) as [n|], (rposition_of_value _ _ _ l) as [m|].
  - destruct Hp as (_ & Hn & Hmin), Hr as [Hm Hmax]. rewrite Nat.sub_0_r in *.
    exists (Z.of_nat n + 1), (Z.of_nat m + 1). rewrite decide_False by lia.
    replace (Z.to_nat (Z.of_nat n + 1 - 1)) with n by lia. replace (Z.to_nat (Z.of_nat m + 1 - 1)) with m by lia.
    destruct Hn as (x & Hx & Ex). rewrite Hx. cbn [default from_option id].
    split; [done|]. split; [done|]. split; [by rewrite (proj2 (Z.ltb_lt _ _)) by lia|].
    split; [specialize (Hmin m Hm); lia|]. split; [by exists x|]. split; [done|].
    split; [intros k Hk; specialize (Hmin k Hk); specialize (Hmax k Hk); lia|].
    cbv zeta. replace (Z.to_nat (Z.of_nat n + 1 - 1)) with n by lia.
    eexists. split; [done|].
    assert (charged this l 0 s s) as Hch by (split_and!; [done|done|by rewrite Z.add_0_r|lia|done]).
    pose proof (sum_bytes_delete l n x Hx). pose proof (element_bytes_pos x). pose proof (sum_bytes_pos (delete n l)).
    assert (leaves this (delete n l) (sum_bytes (delete n l) - sum_bytes l) s
      (release_cell (contents this) (element_bytes x) (set_cell (contents this) (CList (delete n l)) s))) as Hle
      by (eapply leaves_replaced; [exact Hch|lia|lia]).
    split; [|exact Hle]. destruct Hle as (Hcells & Hcount & _). split; [rewrite Hcells; by rewrite lookup_insert_eq|].
    split; [|exact Hcount]. rewrite length_delete by (by eexists). lia.
  - destruct Hp as (_ & Hn & _). by destruct (Hr (n - 0)%nat).
  - destruct Hr as [Hm _]. by destruct (Hp m).
  - exists 0, 0. by rewrite decide_True by done.
Qed.
End lists.

(** * The theorems evaluated *)

#[local] Existing Instances mini_decimal ascii_unicode.

Definition a_list : Collection := {| contents := 1; member_type := Some (lit "Integer"); value_type := None |}.
Definition one_list : Shared := {|
  cells := {[1 := CList [VInteger 5; VInteger 7; VInteger 5]]}; counts := {[1 := 168]}; total := 200; next := 2 |}.

Lemma one_list_wf : list_wf a_list [VInteger 5; VInteger 7; VInteger 5] one_list.
Proof. split; [reflexivity|]. split; [by vm_compute|]. split; [reflexivity|]. split; by vm_compute. Qed.


Lemma list_searches_agree_witness :
  list_wf a_list [VInteger 5; VInteger 7; VInteger 5] one_list /\
  exists first last : Z, search "IndexOf" a_list (VInteger 5) one_list = (Normal (VInteger first), one_list, []) /\
    search "LastIndexOf" a_list (VInteger 5) one_list = (Normal (VInteger last), one_list, []).
Proof.
  split; [exact one_list_wf|].
  destruct (list_searches_agree a_list (VInteger 5) _ _ one_list_wf) as (first & last & H1 & H2 & _).
  exists first, last. split; [exact H1|exact H2].
Defined.
