(* ===== verification/Lexical.v ===== *)
(** The scanner of one physical line of AL ([al-syntax/src/lexical.rs]) and
    the helpers that read its spans ([formatting/text.rs], and
    [count_net_delimiters] of [lib.rs]).

    Positions count characters; the source counts bytes.  They are only used to
    cut the same line in front of or behind an ASCII character. *)

From Stdlib Require Import ZArith Lia Wf_nat.
From stdpp Require Import base tactics numbers option list strings.
From S2P Require Import Prelude RustStr StrSearch.

#[local] Open Scope Z_scope.

(** * Spans *)

Inductive SpanKind := Code | String | LineComment | BlockComment.

#[export] Instance span_kind_eq_dec : EqDecision SpanKind.
Proof. solve_decision. Defined.

Record Span := { kind : SpanKind; start : nat; text : str }.

(** The scanner: what is left of the line, where it begins, and whether a block
    comment is open. *)
Record LineScanner := { rest : str; offset : nat; in_block_comment : bool }.

Definition new_scanner (line : str) (in_block : bool) : LineScanner :=
  {| rest := line; offset := 0; in_block_comment := in_block |}.

(** The span of the next [n] characters. *)
Definition cut (k : SpanKind) (n : nat) (in_block : bool) (sc : LineScanner) : Span * LineScanner :=
  ({| kind := k; start := offset sc; text := take n (rest sc) |},
   {| rest := drop n (rest sc); offset := offset sc + n; in_block_comment := in_block |}).

Definition is_quote (c : char) : bool := (c =? ch "'") || (c =? 34).

(** The length up to and with the first [*/]. *)
Fixpoint comment_end (s : str) : option nat :=
  match s with
  | c :: s' =>
      match s' with
      | d :: _ => if (c =? ch "*") && (d =? ch "/") then Some 2%nat else S <$> comment_end s'
      | [] => None
      end
  | [] => None
  end.

(** [content_start] is relative to the span. *)
Definition block_comment (content_start : nat) (sc : LineScanner) : Span * LineScanner :=
  match comment_end (drop content_start (rest sc)) with
  | Some n => cut BlockComment (content_start + n) false sc
  | None => cut BlockComment (length (rest sc)) true sc
  end.

(** The length of a quoted text after its opening quote: a doubled quote is
    content. *)
Fixpoint quoted_len (quote : char) (s : str) : nat :=
  match s with
  | [] => O
  | c :: s' =>
      if c =? quote then
        match s' with
        | d :: s'' => if d =? quote then S (S (quoted_len quote s'')) else 1%nat
        | [] => 1%nat
        end
      else S (quoted_len quote s')
  end.

Definition opens_comment (c : char) (s : str) : bool :=
  (c =? ch "/") && match s with d :: _ => (d =? ch "/") || (d =? ch "*") | [] => false end.

Fixpoint code_len (s : str) : nat :=
  match s with
  | [] => O
  | c :: s' => if is_quote c || opens_comment c s' then O else S (code_len s')
  end.

Definition next_is (d : char) (s : str) : bool := match s with c :: _ => c =? d | [] => false end.

(** The iterator's [next]. *)
Definition next_span (sc : LineScanner) : option (Span * LineScanner) :=
  match rest sc with
  | [] => None
  | c :: s =>
      Some (if in_block_comment sc then block_comment 0 sc
            else if is_quote c then cut String (S (quoted_len c s)) false sc
            else if (c =? ch "/") && next_is (ch "/") s then cut LineComment (length (rest sc)) false sc
            else if (c =? ch "/") && next_is (ch "*") s then block_comment 2 sc
            else cut Code (S (code_len s)) false sc)
  end.

Fixpoint collect (fuel : nat) (sc : LineScanner) : list Span * LineScanner :=
  match fuel with
  | O => ([], sc)
  | S fuel =>
      match next_span sc with
      | None => ([], sc)
      | Some (sp, sc) => let '(sps, sc) := collect fuel sc in (sp :: sps, sc)
      end
  end.

(** All spans of a line, and whether it ends in a block comment. *)
Definition scan (line : str) (in_block : bool) : list Span * bool :=
  let '(sps, sc) := collect (S (length line)) (new_scanner line in_block) in (sps, in_block_comment sc).

Definition is_kind (k : SpanKind) (sp : Span) : bool := bool_decide (kind sp = k).

(** The characters of the code spans with their positions. *)
Definition code_chars (line : str) : list (nat * char) :=
  (scan line false).1 ≫= fun sp =>
    if is_kind Code sp then imap (fun i c => ((start sp + i)%nat, c)) (text sp) else [].

(** * [formatting/text.rs] *)

Definition trim_end : str -> str := trim_end_matches is_whitespace.

Definition leading_ws (line : str) : str := take (length line - length (trim_start line)) line.

(** The bracket depths while the code characters are read. *)
Record Depths := { paren : Z; bracket : Z }.
Definition no_depth : Depths := {| paren := 0; bracket := 0 |}.
Definition top_level (d : Depths) : bool := (paren d =? 0) && (bracket d =? 0).

Definition deepen (c : char) (d : Depths) : Depths :=
  if c =? ch "(" then {| paren := paren d + 1; bracket := bracket d |}
  else if c =? ch ")" then {| paren := paren d - 1; bracket := bracket d |}
  else if c =? ch "[" then {| paren := paren d; bracket := bracket d + 1 |}
  else if c =? ch "]" then {| paren := paren d; bracket := bracket d - 1 |}
  else d.

Definition is_bracket (c : char) : bool :=
  (c =? ch "(") || (c =? ch ")") || (c =? ch "[") || (c =? ch "]").

(** The first character outside brackets that [p] holds of. *)
Fixpoint find_top_level (p : nat -> char -> bool) (d : Depths) (cs : list (nat * char)) : option nat :=
  match cs with
  | [] => None
  | (i, c) :: cs =>
      if negb (is_bracket c) && top_level d && p i c then Some i
      else find_top_level p (deepen c d) cs
  end.

Definition first_top_level (s : str) (target : char) : option nat :=
  find_top_level (fun _ c => c =? target) no_depth (code_chars s).

Definition line_comment_start (s : str) : option nat :=
  start <$> List.find (is_kind LineComment) (scan s false).1.

Definition has_line_comment_outside_strings (s : str) : bool := bool_decide (is_Some (line_comment_start s)).

Definition ends_with (p s : str) : bool := starts_with (reverse p) (reverse s).

(** What [strip_comments] keeps of a span. *)
Definition uncommented (sp : Span) : str :=
  match kind sp with
  | Code | String => text sp
  | LineComment => []
  | BlockComment =>
      (if starts_with (lit "/*") (text sp) then [ch " "] else [])
      ++ (if ends_with (lit "*/") (text sp) then [ch " "] else [])
  end.

Definition strip_comments (line : str) (in_block : bool) : str * bool :=
  let '(sps, still_open) := scan line in_block in (trim (sps ≫= uncommented), still_open).

Definition contains_char_outside_strings (s needles : str) : bool :=
  existsb (fun sp => is_kind Code sp && existsb (fun c => contains_char c needles) (text sp)) (scan s false).1.

(** [count_net_delimiters] of [lib.rs]. *)
Definition net (open close : char) (s : str) : Z :=
  foldr (fun c n => (if c =? open then 1 else if c =? close then -1 else 0) + n) 0 s.
Definition count_net_delimiters (line : str) (open close : char) : Z :=
  foldr (fun sp n => (if is_kind Code sp then net open close (text sp) else 0) + n) 0 (scan line false).1.

(** * Scanning a line ends, and loses nothing *)

Lemma comment_end_bounds s n : comment_end s = Some n -> (2 <= n <= length s)%nat.
Proof.
  revert n. induction s as [|c [|d s] IH]; intros n; [done|done|]. simpl in *. intros H.
  destruct (_ && _); simplify_eq; [lia|]. apply fmap_Some in H as (m & H & ->). specialize (IH m H). lia.
Qed.

Lemma quoted_len_bounds q s : (quoted_len q s <= length s)%nat.
Proof.
  induction s as [s IH] using (induction_ltof1 _ (@length _)); unfold ltof in IH.
  destruct s as [|c s]; simpl; [done|]. pose proof (IH s ltac:(simpl; lia)).
  destruct (c =? q); [|lia]. destruct s as [|d s]; simpl; [lia|]. pose proof (IH s ltac:(simpl; lia)).
  destruct (d =? q); lia.
Qed.

Lemma code_len_bounds s : (code_len s <= length s)%nat.
Proof. induction s as [|c s IH]; simpl; [done|]. case_match; lia. Qed.

(** A span is the next characters of the line, at least one. *)
Definition next_of (sc : LineScanner) (r : Span * LineScanner) : Prop :=
  rest sc = text r.1 ++ rest r.2 /\ start r.1 = offset sc /\
  offset r.2 = (offset sc + length (text r.1))%nat /\ (1 <= length (text r.1))%nat.

Lemma cut_next k n b sc : (1 <= n <= length (rest sc))%nat -> next_of sc (cut k n b sc).
Proof. intros Hn. unfold next_of, cut. simpl. rewrite take_drop, length_take. split_and!; lia || done. Qed.

Lemma block_comment_next k sc : (k <= length (rest sc))%nat -> rest sc <> [] -> next_of sc (block_comment k sc).
Proof.
  intros Hk Hne. unfold block_comment. destruct (comment_end _) as [n|] eqn:En; apply cut_next.
  - apply comment_end_bounds in En. rewrite length_drop in En. lia.
  - destruct (rest sc); [done|simpl; lia].
Qed.

Lemma next_span_next sc r : next_span sc = Some r -> next_of sc r.
Proof.
  unfold next_span. destruct (rest sc) as [|c s] eqn:E; [done|]. intros [= <-].
  assert (length (rest sc) = S (length s)) as El by (by rewrite E).
  pose proof (quoted_len_bounds c s). pose proof (code_len_bounds s).
  repeat case_match; try (apply cut_next; simpl; lia); (apply block_comment_next; [|by rewrite E]); [lia|].
  match goal with H : _ && next_is _ s = true |- _ =>
    destruct s; [cbn in H; rewrite andb_false_r in H; discriminate H|rewrite El; simpl; lia] end.
Qed.

Lemma collect_all fuel sc :
  (length (rest sc) < fuel)%nat ->
  rest sc = mjoin (text <$> (collect fuel sc).1) /\ rest (collect fuel sc).2 = [] /\
  Forall (fun sp => text sp <> []) (collect fuel sc).1.
Proof.
  revert sc. induction fuel as [|fuel IH]; intros sc Hf; [lia|]. cbn [collect].
  destruct (next_span sc) as [[sp sc']|] eqn:En.
  - apply next_span_next in En as (Er & _ & _ & Hl). simpl in *.
    rewrite Er, length_app in Hf. specialize (IH sc' ltac:(lia)).
    destruct (collect fuel sc') as [sps sc'']. destruct IH as (IH1 & IH2 & IH3). cbn [fst snd] in *.
    split_and!; [rewrite Er, IH1; done|done|]. constructor; [|done]. intros Et. rewrite Et in Hl. simpl in Hl. lia.
  - unfold next_span in En. destruct (rest sc) eqn:E; [|done]. cbn. by split_and!.
Qed.

(** The spans are the line, cut. *)
Lemma scan_line line in_block :
  mjoin (text <$> (scan line in_block).1) = line /\ Forall (fun sp => text sp <> []) (scan line in_block).1.
Proof.
  unfold scan. pose proof (collect_all (S (length line)) (new_scanner line in_block) ltac:(simpl; lia)) as (H1 & _ & H3).
  destruct (collect _ _) as [sps sc]. by split.
Qed.
