(* ===== verification/LexicalSpec.v ===== *)
(** What the line scanner of [Lexical.v] promises: its spans are the line, cut
    where quoted texts and comments begin and end. *)

From Stdlib Require Import ZArith Lia Wf_nat.
From stdpp Require Import base tactics numbers option list strings.
From S2P Require Import Prelude RustStr StrSearch Lexical.

#[local] Open Scope Z_scope.

(** * The lexical grammar of a line *)

(** The content of a quoted text: its quotes are doubled. *)
Inductive doubled (q : char) : str -> Prop :=
  | doubled_nil : doubled q []
  | doubled_other c s : c <> q -> doubled q s -> doubled q (c :: s)
  | doubled_pair s : doubled q s -> doubled q (q :: q :: s).

(** What begins a quoted text or a comment. *)
Definition begins_span (s : str) : Prop :=
  match s with c :: r => is_quote c = true \/ opens_comment c r = true | [] => False end.

(** No suffix of [code ++ r] that starts in [code] begins one. *)
Definition plain_before (code r : str) : Prop :=
  forall a b, code = a ++ b -> b <> [] -> ~ begins_span (b ++ r).

(** [lexes in_block line spans still_open]. *)
Inductive lexes : bool -> str -> list (SpanKind * str) -> bool -> Prop :=
  | lexes_end b : lexes b [] [] b
  | lexes_code (code r : str) sps b :
      code <> [] -> plain_before code r -> r = [] \/ begins_span r -> lexes false r sps b ->
      lexes false (code ++ r) ((Code, code) :: sps) b
  | lexes_quoted (q : char) (content r : str) sps b :
      is_quote q = true -> doubled q content -> (forall r', r <> q :: r') -> lexes false r sps b ->
      lexes false (q :: content ++ q :: r) ((String, q :: content ++ [q]) :: sps) b
  | lexes_unquoted (q : char) (content : str) :
      is_quote q = true -> doubled q content -> lexes false (q :: content) [(String, q :: content)] false
  | lexes_line_comment (r : str) : lexes false (lit "//" ++ r) [(LineComment, lit "//" ++ r)] false
  | lexes_block (carried : bool) (opener body r : str) sps b :
      opener = (if carried then [] else lit "/*") ->
      (forall a, occurs_after (lit "*/") a (body ++ lit "*/" ++ r) -> (length body <= length a)%nat) ->
      lexes false r sps b ->
      lexes carried (opener ++ body ++ lit "*/" ++ r) ((BlockComment, opener ++ body ++ lit "*/") :: sps) b
  | lexes_open_block (carried : bool) (opener body : str) :
      opener = (if carried then [] else lit "/*") -> opener ++ body <> [] ->
      (forall a, ~ occurs_after (lit "*/") a body) ->
      lexes carried (opener ++ body) [(BlockComment, opener ++ body)] true.

(** * The pieces *)

Lemma occurs_close_cons a c s :
  occurs_after (lit "*/") a (c :: s) ->
  (c = ch "*" /\ exists r, s = ch "/" :: r) \/ exists a', a = c :: a' /\ occurs_after (lit "*/") a' s.
Proof.
  intros [r H]. destruct a as [|x a].
  - left. change (lit "*/" ++ r) with (ch "*" :: ch "/" :: r) in H. simpl in H. injection H as -> ->. by eauto.
  - right. injection H as -> ->. exists a. split; [done|]. by exists r.
Qed.

Lemma comment_end_spec s :
  match comment_end s with
  | Some n => exists body r, s = body ++ lit "*/" ++ r /\ n = length (body ++ lit "*/") /\
      forall a, occurs_after (lit "*/") a s -> (length body <= length a)%nat
  | None => forall a, ~ occurs_after (lit "*/") a s
  end.
Proof.
  induction s as [|c s IH]; [intros [|? ?] [r H]; discriminate H|]. cbn [comment_end].
  destruct s as [|d s].
  { intros a H. apply occurs_close_cons in H as [(_ & r & H)|(a' & _ & r & H)]; [done|].
    destruct a'; discriminate H. }
  destruct ((c =? ch "*") && (d =? ch "/")) eqn:E.
  { apply andb_true_iff in E as [->%Z.eqb_eq ->%Z.eqb_eq]. exists [], s. split_and!; [done|done|]. intros. simpl. lia. }
  assert (forall a, occurs_after (lit "*/") a (c :: d :: s) -> exists a', a = c :: a' /\ occurs_after (lit "*/") a' (d :: s)) as Ho.
  { intros a H. apply occurs_close_cons in H as [(-> & r & [= -> ->])|H]; [done|exact H]. }
  destruct (comment_end (d :: s)) as [n|].
  - destruct IH as (body & r & Hs & -> & Hmin). exists (c :: body), r. split_and!; [by rewrite Hs|done|].
    intros a (a' & -> & H)%Ho. simpl. apply le_n_S. by apply Hmin.
  - intros a (a' & -> & H)%Ho. by apply (IH a').
Qed.

Lemma quoted_len_spec q s :
  exists content, doubled q content /\
    ((exists r, s = content ++ q :: r /\ (forall r', r <> q :: r') /\ quoted_len q s = S (length content)) \/
     (s = content /\ quoted_len q s = length s)).
Proof.
  induction s as [s IH] using (induction_ltof1 _ (@length _)); unfold ltof in IH.
  destruct s as [|c s]; [exists []; split; [constructor|by right]|]. cbn [quoted_len].
  destruct (Z.eqb_spec c q) as [->|Hc].
  - destruct s as [|d s].
    + exists []. split; [constructor|]. left. by exists [].
    + destruct (Z.eqb_spec d q) as [->|Hd].
      * destruct (IH s ltac:(simpl; lia)) as (content & Hd & [(r & -> & Hr & El)|[-> El]]); exists (q :: q :: content);
          (split; [by constructor|]); [left; exists r|right]; rewrite El; by split_and!.
      * exists []. split; [constructor|]. left. exists (d :: s). split_and!; [done| |done]. intros r' [= ->]; done.
  - destruct (IH s ltac:(simpl; lia)) as (content & Hd & [(r & -> & Hr & El)|[-> El]]); exists (c :: content);
      (split; [by constructor|]); [left; exists r|right]; rewrite El; by split_and!.
Qed.

Lemma begins_spec c s : ~ begins_span (c :: s) <-> is_quote c || opens_comment c s = false.
Proof. simpl. rewrite orb_false_iff, <- !not_true_iff_false. tauto. Qed.

Lemma code_len_spec s :
  let code := take (code_len s) s in
  let r := drop (code_len s) s in
  plain_before code r /\ (r = [] \/ begins_span r).
Proof.
  cbv zeta. induction s as [|c s [IH1 IH2]]; cbn [code_len].
  - split; [|by left]. intros a b H Hb. by apply (f_equal (@length _)) in H; destruct a, b.
  - destruct (is_quote c || opens_comment c s) eqn:E; simpl.
    + split; [intros a b H Hb; by destruct a, b|]. right. by apply orb_true_iff in E.
    + split; [|exact IH2]. intros [|x a] b H Hb; simpl in H.
      * subst b. rewrite <- app_comm_cons, take_drop. by apply begins_spec.
      * injection H as <- H. by apply (IH1 a b).
Qed.

(** * The scanner lexes *)

Definition pieces (sps : list Span) : list (SpanKind * str) := (fun sp => (kind sp, text sp)) <$> sps.

Lemma next_quoted c s sps b :
  is_quote c = true -> (forall r, (length r < length (c :: s))%nat -> r = drop (quoted_len c s) s -> lexes false r sps b) ->
  (drop (quoted_len c s) s = [] -> sps = [] /\ b = false) ->
  lexes false (c :: s) ((String, c :: take (quoted_len c s) s) :: sps) b.
Proof.
  intros Hq Hr Hend. destruct (quoted_len_spec c s) as (content & Hd & [(r & -> & Hn & El)|[-> El]]); rewrite El in *.
  - replace (content ++ c :: r) with ((content ++ [c]) ++ r) in * by (by rewrite <- app_assoc).
    assert (S (length content) = length (content ++ [c])) as El2 by (rewrite length_app; simpl; lia).
    rewrite El2, take_app_length, drop_app_length in *. rewrite <- app_assoc in *. cbn [app].
    apply lexes_quoted; [done|done|done|]. apply Hr; [|done]. simpl. rewrite length_app. simpl. lia.
  - rewrite firstn_all, drop_all in *. destruct (Hend eq_refl) as [-> ->]. by apply lexes_unquoted.
Qed.

Lemma next_block (carried : bool) (opener body_r : str) sps b :
  opener = (if carried then [] else lit "/*") -> opener ++ body_r <> [] ->
  match comment_end body_r with
  | Some n => lexes false (drop n body_r) sps b
  | None => sps = [] /\ b = true
  end ->
  lexes carried (opener ++ body_r)
    ((BlockComment, take (length opener + default (length body_r) (comment_end body_r)) (opener ++ body_r)) :: sps) b.
Proof.
  intros Ho Hne H. pose proof (comment_end_spec body_r) as Hs. destruct (comment_end body_r) as [n|]; cbn [default from_option id].
  - destruct Hs as (body & r & -> & -> & Hmin). rewrite (app_assoc body) in *. rewrite drop_app_length in H.
    rewrite take_app_add, take_app_length. rewrite <- app_assoc in *. by apply lexes_block.
  - destruct H as [-> ->]. rewrite take_ge by (rewrite length_app; lia). by apply lexes_open_block.
Qed.

Lemma collect_end fuel sc : rest sc = [] -> collect fuel sc = ([], sc).
Proof. intros E. destruct fuel; [done|]. cbn [collect]. unfold next_span. by rewrite E. Qed.

(** One span, and the spans of what is left. *)
Lemma block_lexes sc opener body_r sps b :
  rest sc = opener ++ body_r -> rest sc <> [] -> opener = (if in_block_comment sc then [] else lit "/*") ->
  let r := block_comment (length opener) sc in
  (in_block_comment r.2 = false -> lexes false (rest r.2) sps b) ->
  (rest r.2 = [] -> in_block_comment r.2 = true -> sps = [] /\ b = true) ->
  lexes (in_block_comment sc) (rest sc) ((kind r.1, text r.1) :: sps) b.
Proof.
  intros E Hne Ho. unfold block_comment. rewrite E, drop_app_length.
  pose proof (next_block (in_block_comment sc) opener body_r sps b Ho ltac:(congruence)) as H.
  destruct (comment_end body_r) as [n|] eqn:En; unfold cut;
    cbn [rest in_block_comment kind text default from_option id fst snd] in *; rewrite E.
  - intros Hr _. apply H. specialize (Hr eq_refl). by rewrite drop_app_add in Hr.
  - intros _ Hr. rewrite length_app in *. apply H. apply Hr; [|done]. apply drop_ge. rewrite length_app. lia.
Qed.

Lemma cut_lexes (r : Span * LineScanner) fuel :
  (let '(sps, sc) := collect fuel r.2 in (r.1 :: sps, sc)) = (r.1 :: (collect fuel r.2).1, (collect fuel r.2).2).
Proof. by destruct (collect fuel r.2). Qed.

(** What the rest of the loop shows of the scanner after a span. *)
Definition rest_lexes (sc : LineScanner) (sps : list (SpanKind * str)) (b : bool) : Prop :=
  lexes (in_block_comment sc) (rest sc) sps b /\ (rest sc = [] -> sps = [] /\ b = in_block_comment sc).

Lemma next_span_lexes sc r sps b :
  next_span sc = Some r -> rest_lexes r.2 sps b ->
  lexes (in_block_comment sc) (rest sc) ((kind r.1, text r.1) :: sps) b.
Proof.
  intros En [Hl Hend]. unfold next_span in En. destruct (rest sc) as [|c s] eqn:E; [done|]. injection En as En.
  assert (forall opener body_r, rest sc = opener ++ body_r -> opener = (if in_block_comment sc then [] else lit "/*") ->
    block_comment (length opener) sc = r -> lexes (in_block_comment sc) (c :: s) ((kind r.1, text r.1) :: sps) b) as Hblock.
  { intros opener body_r Ho1 Ho2 <-. rewrite <- E. apply (block_lexes sc opener body_r); [done|congruence|done| |].
    - intros Hb. by rewrite Hb in Hl.
    - intros Hr Hb. rewrite <- Hb. by apply Hend. }
  destruct (in_block_comment sc) eqn:Eb; [by apply (Hblock [] (rest sc))|].
  unfold cut in *. rewrite E in *.
  destruct (is_quote c) eqn:Eq.
  { subst r. cbn [kind text rest in_block_comment fst snd take drop] in *.
    apply next_quoted; [done| |intros Hd; by apply Hend]. by intros r _ ->. }
  destruct ((c =? ch "/") && next_is (ch "/") s) eqn:El.
  { subst r. cbn [kind text rest in_block_comment fst snd] in *. rewrite take_ge by done.
    destruct (Hend (drop_ge _ _ ltac:(done))) as [-> ->]. apply andb_true_iff in El as [->%Z.eqb_eq El].
    destruct s as [|d s]; [done|]. apply Z.eqb_eq in El as ->. apply (lexes_line_comment s). }
  destruct ((c =? ch "/") && next_is (ch "*") s) eqn:Em.
  { apply andb_true_iff in Em as [->%Z.eqb_eq Em]. destruct s as [|d s]; [done|]. apply Z.eqb_eq in Em as ->.
    by apply (Hblock (lit "/*") s). }
  subst r. cbn [kind text rest in_block_comment fst snd take drop] in *.
  pose proof (code_len_spec s) as [Hp Hb]. rewrite <- (take_drop (code_len s) s) at 1.
  rewrite app_comm_cons. apply lexes_code; [done| |done|done].
  intros [|x a] b' H Hb'; simpl in H.
  - subst b'. rewrite <- app_comm_cons, take_drop. simpl. rewrite Eq. unfold opens_comment.
    destruct (c =? ch "/"), s as [|d s]; cbn [andb next_is] in *; try (intros [?|?]; congruence).
    rewrite El, Em. cbn. intros [?|?]; congruence.
  - injection H as <- H. by apply (Hp a b').
Qed.

Lemma collect_lexes fuel sc :
  (length (rest sc) < fuel)%nat ->
  rest_lexes sc (pieces (collect fuel sc).1) (in_block_comment (collect fuel sc).2).
Proof.
  revert sc. induction fuel as [|fuel IH]; intros sc Hf; [lia|].
  split; [|intros E; by rewrite collect_end]. cbn [collect].
  destruct (next_span sc) as [r|] eqn:En.
  2:{ unfold next_span in En. destruct (rest sc) eqn:E; [constructor|done]. }
  pose proof (next_span_next _ _ En) as (Er & _ & _ & Hl).
  assert (rest_lexes r.2 (pieces (collect fuel r.2).1) (in_block_comment (collect fuel r.2).2)) as H
    by (apply IH; rewrite Er, length_app in Hf; lia).
  pose proof (next_span_lexes _ _ _ _ En H) as H2. pose proof (cut_lexes r fuel) as Hc.
  destruct r as [sp sc']. cbn [fst snd] in *. by rewrite Hc.
Qed.

(** C40: The line scanner reads a line as the grammar has it, and to its end:
    its spans, joined, are the line; quoted texts end at the first quote that is
    not doubled, line comments at the end, block comments at the first [*/], in
    the line the comment was carried into too; code is what is left; and the
    line leaves a block comment open exactly when its last one does not end. *)
Theorem scanner_lexes line in_block :
  let '(sps, still_open) := scan line in_block in
  mjoin (text <$> sps) = line /\ lexes in_block line (pieces sps) still_open.
Proof.
  pose proof (scan_line line in_block) as [Hj _]. unfold scan in *.
  pose proof (collect_lexes (S (length line)) (new_scanner line in_block) ltac:(simpl; lia)) as [H _].
  destruct (collect _ _) as [sps sc]. by split.
Qed.
