(* ===== verification/TextLines.v ===== *)
(** Lines and words of a text: [str::lines], the joining of lines
    ([join_lines] of [al-syntax/src/formatting/text.rs]), and the words that a
    formatter must keep. *)

From Stdlib Require Import ZArith Lia.
From stdpp Require Import base tactics numbers option list strings.
From S2P Require Import Prelude RustStr StrSearch Lexical.

#[local] Open Scope Z_scope.

(** * Lines *)

Definition strip_suffix (p s : str) : option str := reverse <$> strip_prefix (reverse p) (reverse s).

(** A line that ended in a line feed loses a carriage return before it. *)
Definition strip_cr (line : str) : str := default line (strip_suffix [13] line).

Fixpoint lines_of (parts : list str) : list str :=
  match parts with
  | [] => []
  | [last] => match last with [] => [] | _ => [last] end
  | part :: parts => strip_cr part :: lines_of parts
  end.

(** [str::lines]. *)
Definition str_lines (text : str) : list str := lines_of (split_char 10 text).

(** [join_lines] of [text.rs]. *)
Definition join_lines (lines : list str) : str :=
  match lines with [] => [10] | _ => mjoin ((fun line => line ++ [10]) <$> lines) end.

(** * Words: the longest runs without white space *)

Fixpoint words_from (word s : str) : list str :=
  match s with
  | [] => match word with [] => [] | _ => [word] end
  | c :: s =>
      if is_whitespace c then match word with [] => words_from [] s | _ => word :: words_from [] s end
      else words_from (word ++ [c]) s
  end.
Definition words : str -> list str := words_from [].

Definition blank (s : str) : Prop := Forall (fun c => is_whitespace c = true) s.

(** [b]'s words are [a]'s, some of them split. *)
Definition splits_words (a b : list str) : Prop :=
  exists groups, b = mjoin groups /\ Forall2 (fun word group => word = mjoin group) a groups.

Lemma words_from_app word a b :
  match b with c :: _ => is_whitespace c = true | [] => True end ->
  words_from word (a ++ b) = words_from word a ++ words b.
Proof.
  revert word. induction a as [|c a IH]; intros word Hb; cbn [app words_from].
  - destruct b as [|c b]; [by rewrite app_nil_r|]. unfold words. cbn [words_from]. rewrite Hb. by destruct word.
  - destruct (is_whitespace c); [|by apply IH]. destruct word; [by apply IH|]. cbn [app]. by rewrite IH.
Qed.

Lemma words_blank_app w s : blank w -> words (w ++ s) = words s.
Proof. unfold words. induction 1 as [|c w Hc _ IH]; [done|]. cbn [app words_from]. by rewrite Hc. Qed.

Lemma words_app_blank a w : blank w -> words (a ++ w) = words a.
Proof.
  intros Hw. unfold words at 1. rewrite words_from_app by (by destruct Hw).
  rewrite <- (app_nil_r w), words_blank_app by done. by rewrite app_nil_r.
Qed.

Lemma words_app_space a w b : blank w -> w <> [] -> words (a ++ w ++ b) = words a ++ words b.
Proof.
  intros Hw Hne. unfold words at 1. rewrite words_from_app by (by destruct Hw). by rewrite words_blank_app.
Qed.

Lemma words_blank w : blank w -> words w = [].
Proof. intros H. rewrite <- (app_nil_r w). by rewrite words_blank_app. Qed.

Lemma words_trim_start s : words (trim_start s) = words s.
Proof.
  destruct (trim_start_split is_whitespace s) as (a & E & Ha & _). rewrite E at 2. by rewrite words_blank_app.
Qed.

Lemma words_trim_end s : words (trim_end s) = words s.
Proof.
  destruct (trim_end_split is_whitespace s) as (a & E & Ha & _). rewrite E at 2. by rewrite words_app_blank.
Qed.

Lemma words_trim s : words (trim s) = words s.
Proof. change (trim s) with (trim_end (trim_start s)). rewrite words_trim_end. apply words_trim_start. Qed.

(** ** Splitting *)

Lemma splits_refl l : splits_words l l.
Proof.
  exists ((fun w => [w]) <$> l). split.
  { induction l as [|x l IH]; [done|]. change (x :: l = x :: mjoin ((fun w => [w]) <$> l)). by rewrite <- IH. }
  apply Forall2_fmap_r, Forall_Forall2_diag, Forall_forall. intros. simpl. by rewrite app_nil_r.
Qed.

Lemma splits_app a a' b b' : splits_words a a' -> splits_words b b' -> splits_words (a ++ b) (a' ++ b').
Proof.
  intros (g & -> & Hg) (h & -> & Hh). exists (g ++ h). split; [by rewrite join_app|]. by apply Forall2_app.
Qed.

Lemma splits_trans a b c : splits_words a b -> splits_words b c -> splits_words a c.
Proof.
  intros (g & -> & Hg). revert c. induction Hg as [|w ws a g Hw Hg IH]; intros c (h & -> & Hh).
  - simpl in Hh. inversion Hh. by exists [].
  - simpl in Hh. apply Forall2_app_inv_l in Hh as (h1 & h2 & H1 & H2 & ->).
    destruct (IH (mjoin h2)) as (k & Ek & Hk); [by exists h2|].
    exists (mjoin h1 :: k). split; [by rewrite join_app, Ek|]. constructor; [|done].
    rewrite Hw. clear -H1. induction H1 as [|x l ws h1 Hx _ IH]; [done|]. simpl. rewrite join_app. by rewrite Hx, IH.
Qed.

Lemma words_from_split word a b :
  splits_words (words_from word (a ++ b)) (words_from word a ++ words b).
Proof.
  revert word. induction a as [|c a IH]; intros word; cbn [app words_from].
  - revert word. enough (forall pre word, splits_words (words_from (pre ++ word) b)
      ((match pre with [] => [] | _ => [pre] end) ++ words_from word b)) as H.
    { intros word. specialize (H word []). rewrite app_nil_r in H. exact H. }
    induction b as [|c b IH]; intros pre word; cbn [words_from].
    + destruct pre as [|p pre]; [apply splits_refl|]. cbn [app]. exists [[p :: pre] ++ match word with [] => [] | _ => [word] end].
      split; [simpl; by rewrite app_nil_r|]. constructor; [|constructor]. destruct word; simpl; by rewrite ?app_nil_r.
    + destruct (is_whitespace c).
      * destruct pre as [|p pre]; [apply splits_refl|]. cbn [app].
        replace (match word with [] => words_from [] b | _ => word :: words_from [] b end)
          with ((match word with [] => [] | _ => [word] end) ++ words_from [] b) by (by destruct word).
        change (splits_words ([(p :: pre) ++ word] ++ words_from [] b)
          (((p :: pre) :: match word with [] => [] | _ => [word] end) ++ words_from [] b)).
        apply splits_app; [|apply splits_refl]. exists [(p :: pre) :: match word with [] => [] | _ => [word] end].
        split; [simpl; by rewrite app_nil_r|]. constructor; [|constructor]. destruct word; simpl; by rewrite ?app_nil_r.
      * rewrite <- app_assoc. apply IH.
  - destruct (is_whitespace c); [|apply IH]. destruct word; [apply IH|].
    change (splits_words ([z :: word] ++ words_from [] (a ++ b)) ([z :: word] ++ (words_from [] a ++ words b))).
    apply splits_app; [apply splits_refl|apply IH].
Qed.

(** Cutting a text in two splits at most one word. *)
Lemma words_cut a b : splits_words (words (a ++ b)) (words a ++ words b).
Proof. apply words_from_split. Qed.

(** * Lines and words *)

Lemma mjoin_cons {A} (x : list A) l : mjoin (x :: l) = x ++ mjoin l.
Proof. done. Qed.

Lemma words_line_feed a b : words (a ++ 10 :: b) = words a ++ words b.
Proof. change (a ++ 10 :: b) with (a ++ [10] ++ b). apply words_app_space; [by repeat constructor|done]. Qed.

Lemma strip_suffix_app p s r : strip_suffix p s = Some r -> s = r ++ p.
Proof.
  unfold strip_suffix. intros (r' & H & ->)%fmap_Some. apply strip_prefix_Some in H.
  rewrite <- (reverse_involutive s), H. by rewrite reverse_app, reverse_involutive.
Qed.

Lemma words_strip_cr line : words (strip_cr line) = words line.
Proof.
  unfold strip_cr. destruct (strip_suffix [13] line) as [r|] eqn:E; [|done]. apply strip_suffix_app in E as ->.
  cbn [default from_option id]. symmetry. apply words_app_blank. by repeat constructor.
Qed.

Lemma split_char_nonempty sep s : split_char sep s <> [].
Proof. destruct (split_char_cons sep s) as (p & ps & ->). done. Qed.

Lemma words_join parts : words (join [10] parts) = mjoin (words <$> parts).
Proof.
  induction parts as [|p [|q parts] IH]; [done|by cbn; rewrite app_nil_r|].
  change (join [10] (p :: q :: parts)) with (p ++ 10 :: join [10] (q :: parts)). by rewrite words_line_feed, IH.
Qed.

Lemma words_lines text : mjoin (words <$> str_lines text) = words text.
Proof.
  destruct (split_char_parts 10 text) as [_ E]. rewrite <- E at 2. rewrite words_join. unfold str_lines. clear E.
  induction (split_char 10 text) as [|p [|q parts] IH]; [done| |].
  - cbn [lines_of]. by destruct p.
  - change (lines_of (p :: q :: parts)) with (strip_cr p :: lines_of (q :: parts)).
    rewrite !fmap_cons, !mjoin_cons, IH, words_strip_cr. by rewrite !fmap_cons, mjoin_cons.
Qed.

Lemma words_join_lines lines : words (join_lines lines) = mjoin (words <$> lines).
Proof.
  unfold join_lines. destruct lines as [|line lines]; [done|]. generalize (line :: lines). clear. intros lines.
  induction lines as [|l lines IH]; [done|]. rewrite !fmap_cons, !mjoin_cons, <- app_assoc. cbn [app].
  by rewrite words_line_feed, IH.
Qed.

(** ** Joined lines are read back *)

Definition is_line (l : str) : Prop := ~ 10 ∈ l /\ forall r, l <> r ++ [13].

Lemma strip_cr_line l : (forall r, l <> r ++ [13]) -> strip_cr l = l.
Proof.
  intros H. unfold strip_cr. destruct (strip_suffix [13] l) as [r|] eqn:E; [|done].
  apply strip_suffix_app in E. by destruct (H r).
Qed.

Lemma lines_join_lines lines : lines <> [] -> Forall is_line lines -> str_lines (join_lines lines) = lines.
Proof.
  intros Hne H. unfold join_lines. destruct lines as [|l0 lines0]; [done|]. revert H. generalize (l0 :: lines0). clear.
  intros lines. unfold str_lines. induction 1 as [|l lines [Hl Hc] _ IH]; [done|].
  rewrite fmap_cons, mjoin_cons, <- app_assoc. cbn [app]. rewrite split_char_app by done.
  destruct (split_char_cons 10 (mjoin ((fun line => line ++ [10]) <$> lines))) as (p & ps & E). rewrite E in *.
  change (lines_of (l :: p :: ps)) with (strip_cr l :: lines_of (p :: ps)). by rewrite strip_cr_line, IH.
Qed.

Lemma str_lines_ok text : ~ 13 ∈ text -> Forall is_line (str_lines text).
Proof.
  intros H. destruct (split_char_parts 10 text) as [Hf E]. unfold str_lines.
  assert (Forall (fun part => ~ 13 ∈ part) (split_char 10 text)) as Hr.
  { clear Hf. rewrite <- E in H. clear E. induction (split_char 10 text) as [|p [|q ps] IH]; [constructor|by constructor|].
    change (join [10] (p :: q :: ps)) with (p ++ 10 :: join [10] (q :: ps)) in H.
    rewrite elem_of_app, elem_of_cons in H. constructor; [tauto|]. apply IH. tauto. }
  clear E H. assert (forall p, ~ 10 ∈ p -> ~ 13 ∈ p -> is_line p) as Hp.
  { intros p H1 H2. split; [done|]. intros r ->. apply H2, elem_of_app. right. by left. }
  induction (split_char 10 text) as [|p [|q ps] IH]; [constructor| |].
  - cbn [lines_of]. destruct p; [constructor|]. inversion Hf; inversion Hr; subst. constructor; [by apply Hp|constructor].
  - change (lines_of (p :: q :: ps)) with (strip_cr p :: lines_of (q :: ps)).
    inversion Hf; inversion Hr; subst. destruct (Hp p) as [Hl Hc]; [done|done|].
    constructor; [rewrite strip_cr_line by done; by split|by apply IH].
Qed.
