(* ===== verification/Passes.v ===== *)
(** The layout passes of the AL formatter ([al-syntax/src/formatting/options.rs]
    and [passes.rs]): brace style, sorted properties, blank lines between
    procedures and the wrapping of long properties. *)

From Stdlib Require Import ZArith Lia.
From stdpp Require Import base tactics numbers option list strings.
From S2P Require Import Prelude RustStr StrSearch Lexical TextLines.

#[local] Open Scope Z_scope.

(** * Options *)

Inductive KeywordCasing := CasingPreserve | CasingLower | CasingUpper.
Inductive BlankLinesBetweenProcedures := BlanksPreserve | BlanksOne | BlanksTwo.
Inductive BraceStyle := SameLine | NextLine.

Record FormatOptions := {
  tab_size : nat;
  insert_spaces : bool;
  keyword_casing : KeywordCasing;
  blank_lines_between_procedures : BlankLinesBetweenProcedures;
  max_line_length : nat;
  brace_style : BraceStyle;
  sort_properties : bool;
}.

Definition default_options : FormatOptions := {|
  tab_size := 4; insert_spaces := true; keyword_casing := CasingPreserve;
  blank_lines_between_procedures := BlanksPreserve; max_line_length := 0; brace_style := NextLine;
  sort_properties := false |}.

Definition indent_unit (options : FormatOptions) : str :=
  if insert_spaces options then replicate (tab_size options) (ch " ") else [9].

(** * Properties *)

Definition is_ascii_alphanumeric (c : char) : bool :=
  is_ascii_digit c || ((65 <=? c) && (c <=? 90)) || ((97 <=? c) && (c <=? 122)).

Definition property_eq_pos (s : str) : option nat :=
  find_top_level
    (fun i c =>
       (c =? ch "=")
       && (let prev := match i with O => 0 | S j => default 0 (s !! j) end in
           let next := default 0 (s !! S i) in
           negb (contains_char prev (lit ":<>!=")) && negb (next =? ch "=")))
    no_depth (code_chars s).

Definition is_property_name (name : str) : bool :=
  match name with [] => false | _ => forallb (fun c => is_ascii_alphanumeric c || (c =? ch "_")) name end.

Definition is_property_opener (trimmed : str) : bool :=
  if match trimmed with [] => true | _ => false end
     || starts_with (lit "//") trimmed || starts_with (lit "/*") trimmed || starts_with (lit "*") trimmed
     || starts_with (lit "[") trimmed || ends_with (lit "{") trimmed
  then false
  else match property_eq_pos trimmed with Some pos => is_property_name (trim (take pos trimmed)) | None => false end.

Definition property_sort_key (first_line : str) : str :=
  let t := trim first_line in
  match property_eq_pos t with
  | Some pos => to_ascii_lowercase (trim (take pos t))
  | None => to_ascii_lowercase t
  end.

(** * Sorted properties *)

(** A run holds the lines of each of its properties. *)
Definition sort_run (run : list (list str)) : list (list str) :=
  sort_by (fun a b => str_cmp (property_sort_key (default [] (head a))) (property_sort_key (default [] (head b)))) run.

(** The lines of the property that [line] opens, and what is left. *)
Fixpoint collect_property (line : str) (rest : list str) : list str * list str :=
  match first_top_level line (ch ";"), rest with
  | None, next :: rest => let '(prop, rest) := collect_property next rest in (line :: prop, rest)
  | _, _ => ([line], rest)
  end.

Definition brace_delta (line : str) (in_block : bool) : Z * bool :=
  let '(code, still_open) := strip_comments line in_block in
  (count_net_delimiters code (ch "{") (ch "}"), still_open).

Fixpoint brace_deltas (lines : list str) (in_block : bool) : Z * bool :=
  match lines with
  | [] => (0, in_block)
  | line :: lines =>
      let '(d, in_block) := brace_delta line in_block in
      let '(ds, in_block) := brace_deltas lines in_block in (d + ds, in_block)
  end.

(** The loop over the lines; [run] is in the order of the source.  The fuel is
    the number of lines. *)
Fixpoint sort_loop (fuel : nat) (lines : list str) (depth : Z) (in_block : bool) (run : list (list str)) : list str :=
  match fuel, lines with
  | S fuel, line :: rest =>
      if (depth =? 1) && negb in_block && is_property_opener (trim line) then
        let '(prop, rest) := collect_property line rest in
        let '(delta, in_block) := brace_deltas prop in_block in
        sort_loop fuel rest (Z.max (depth + delta) 0) in_block (run ++ [prop])
      else
        let '(delta, in_block) := brace_delta line in_block in
        mjoin (sort_run run) ++ line :: sort_loop fuel rest (Z.max (depth + delta) 0) in_block []
  | _, _ => mjoin (sort_run run)
  end.

Definition sort_lines (lines : list str) : list str := sort_loop (length lines) lines 0 false [].

Definition sort_object_properties (text : str) (options : FormatOptions) : str :=
  if sort_properties options then join_lines (sort_lines (str_lines text)) else text.

(** * Blank lines between procedures *)

Definition is_procedure_member_start (trimmed : str) : bool :=
  starts_with (lit "[") trimmed
  || (let lower := to_ascii_lowercase trimmed in
      starts_with (lit "procedure ") lower || starts_with (lit "local procedure ") lower
      || starts_with (lit "internal procedure ") lower || starts_with (lit "protected procedure ") lower
      || starts_with (lit "trigger ") lower).

Definition is_empty_line (line : str) : bool := match trim line with [] => true | _ => false end.

Fixpoint skip_blank_lines (lines : list str) : list str :=
  match lines with
  | line :: rest => if is_empty_line line then skip_blank_lines rest else lines
  | [] => []
  end.

Fixpoint blank_lines_loop (fuel desired : nat) (lines : list str) : list str :=
  match fuel, lines with
  | S fuel, line :: rest =>
      if eq_ignore_ascii_case (trim line) (lit "end;") then
        match skip_blank_lines rest with
        | (next :: _) as after =>
            if str_eqb (leading_ws next) (leading_ws line) && is_procedure_member_start (trim next)
            then line :: replicate desired [] ++ blank_lines_loop fuel desired after
            else line :: blank_lines_loop fuel desired rest
        | [] => line :: blank_lines_loop fuel desired rest
        end
      else line :: blank_lines_loop fuel desired rest
  | _, _ => []
  end.
Definition blank_lines (desired : nat) (lines : list str) : list str := blank_lines_loop (length lines) desired lines.

Definition normalize_blank_lines_between_procedures (text : str) (options : FormatOptions) : str :=
  match blank_lines_between_procedures options with
  | BlanksPreserve => text
  | BlanksOne => join_lines (blank_lines 1 (str_lines text))
  | BlanksTwo => join_lines (blank_lines 2 (str_lines text))
  end.

(** * Long property lines *)

(** The positions of the commas outside brackets, strings and comments. *)
Fixpoint top_level_commas (d : Depths) (cs : list (nat * char)) : list nat :=
  match cs with
  | [] => []
  | (i, c) :: cs =>
      (if (c =? ch ",") && top_level d then [i] else []) ++ top_level_commas (deepen c d) cs
  end.

(** The pieces between the cuts, each with its comma, without the blanks
    around it. *)
Fixpoint segments (content : str) (seg_start : nat) (cuts : list nat) : list str :=
  match cuts with
  | [] => [trim (drop seg_start content)]
  | cut :: cuts => trim (take (S cut - seg_start) (drop seg_start content)) :: segments content (S cut) cuts
  end.

Definition wrap_property_line (line unit : str) : list str :=
  let opener_indent := leading_ws line in
  let content := trim line in
  match top_level_commas no_depth (code_chars content) with
  | [] => [line]
  | cuts =>
      match segments content 0 cuts with
      | first :: others => (opener_indent ++ first) :: ((fun seg => (opener_indent ++ unit) ++ seg) <$> others)
      | [] => []
      end
  end.

Fixpoint wrap_loop (max : nat) (unit : str) (lines : list str) (in_continuation : bool) : list str :=
  match lines with
  | [] => []
  | line :: lines =>
      let trimmed := trim line in
      let is_comment := starts_with (lit "//") trimmed || starts_with (lit "/*") trimmed || starts_with (lit "*") trimmed in
      let wrappable := negb in_continuation && ends_with (lit ";") trimmed && is_property_opener trimmed
                       && (max <? length line)%nat in
      (if wrappable then wrap_property_line line unit else [line])
      ++ wrap_loop max unit lines
           (if in_continuation && ends_with (lit ";") trimmed then false
            else if negb in_continuation && negb is_comment && ends_with (lit ",") trimmed then true
            else in_continuation)
  end.

Definition wrap_long_property_lines (text : str) (options : FormatOptions) : str :=
  match max_line_length options with
  | O => text
  | max => join_lines (wrap_loop max (indent_unit options) (str_lines text) false)
  end.

(** * Brace style *)

Definition is_mergeable_brace_target (prev : str) : bool :=
  let t := trim prev in
  if match t with [] => true | _ => false end || str_is t "}" || ends_with (lit "{") t || ends_with (lit ";") t
     || ends_with (lit ":") t || starts_with (lit "//") t || starts_with (lit "/*") t || starts_with (lit "*") t
  then false
  else
    let lower := to_ascii_lowercase t in
    if str_is lower "begin" || ends_with (lit " begin") lower || str_is lower "end" || str_is lower "end;"
       || starts_with (lit "end ") lower || starts_with (lit "end;") lower
    then false
    else if existsb (fun kw => str_is lower kw || ends_with (lit " " ++ lit kw) lower)
              ["then"; "do"; "of"; "repeat"; "var"; "else"]%string
    then false
    else negb (has_line_comment_outside_strings t).

(** [out] holds the lines so far, the last one first. *)
Fixpoint merge_braces (lines out : list str) : list str :=
  match lines with
  | [] => reverse out
  | line :: lines =>
      match out with
      | prev :: out' =>
          if str_is (trim line) "{" && is_mergeable_brace_target prev
          then merge_braces lines ((trim_end prev ++ lit " {") :: out')
          else merge_braces lines (line :: out)
      | [] => merge_braces lines [line]
      end
  end.

(** The last token so far, whether it is a brace, and how many came before. *)
Record Tokens := { last_token : option (nat * bool); tokens_before : nat }.

Definition add_token (pos : nat) (brace : bool) (t : Tokens) : Tokens :=
  {| last_token := Some (pos, brace);
     tokens_before := tokens_before t + (match last_token t with Some _ => 1 | None => 0 end) |}.

Definition span_tokens (t : Tokens) (sp : Span) : Tokens :=
  match kind sp with
  | Code =>
      foldl (fun t ic => if is_whitespace ic.2 then t else add_token (start sp + ic.1) (ic.2 =? ch "{") t)
        t (imap pair (text sp))
  | String => add_token (start sp) false t
  | _ => t
  end.

Definition trailing_brace_pos (line : str) (in_block : bool) : option nat * bool :=
  let '(sps, still_open) := scan line in_block in
  let t := foldl span_tokens {| last_token := None; tokens_before := 0 |} sps in
  (match last_token t with
   | Some (p, true) => if (0 <? tokens_before t)%nat then Some p else None
   | _ => None
   end, still_open).

Fixpoint split_loop_braces (lines : list str) (in_block : bool) : list str * bool :=
  match lines with
  | [] => ([], false)
  | line :: lines =>
      let '(pos, still_open) := trailing_brace_pos line in_block in
      let '(out, changed) := split_loop_braces lines still_open in
      match pos with
      | Some p =>
          if negb (starts_with (lit "#") (trim_start line)) && negb in_block
          then (trim_end (take p line) :: drop p line :: out, true)
          else (line :: out, changed)
      | None => (line :: out, changed)
      end
  end.

Definition split_trailing_braces (text : str) : str :=
  let '(out, changed) := split_loop_braces (str_lines text) false in
  if changed then join_lines out else text.

Definition apply_brace_style (text : str) (options : FormatOptions) : str :=
  match brace_style options with
  | NextLine => split_trailing_braces text
  | SameLine => join_lines (merge_braces (str_lines text) [])
  end.

(** The passes on small inputs. *)
Example wrap_example :
  wrap_property_line (lit "  Permissions = tabledata A = rm, tabledata B = r(1,2);") (lit "    ") =
    [lit "  Permissions = tabledata A = rm,"; lit "      tabledata B = r(1,2);"].
Proof. vm_compute. reflexivity. Qed.

Example merge_example :
  merge_braces [lit "table 1 T"; lit "{"; lit "X: // c"; lit "{"] [] = [lit "table 1 T {"; lit "X: // c"; lit "{"].
Proof. vm_compute. reflexivity. Qed.

(** Splitting is not idempotent on a line with two braces, although every pass
    is said to be: the second brace moves first, the first one next time. *)
Example split_braces_not_idempotent :
  let text := lit "field(1; A) { {" in
  split_trailing_braces text = join_lines [lit "field(1; A) {"; lit "{"] /\
  split_trailing_braces (split_trailing_braces text) = join_lines [lit "field(1; A)"; lit "{"; lit "{"].
Proof. vm_compute. split; reflexivity. Qed.
