(* ===== verification/PassSpec.v ===== *)
(** What the layout passes of [Passes.v] promise. *)

From Stdlib Require Import ZArith Lia Sorted.
From stdpp Require Import base tactics numbers option list strings.
From S2P Require Import Prelude RustStr StrSearch Lexical TextLines Passes.

#[local] Open Scope Z_scope.

(** All words of some lines. *)
Definition line_words (lines : list str) : list str := mjoin (words <$> lines).

Lemma line_words_app a b : line_words (a ++ b) = line_words a ++ line_words b.
Proof. unfold line_words. by rewrite fmap_app, join_app. Qed.

Lemma line_words_cons line lines : line_words (line :: lines) = words line ++ line_words lines.
Proof. done. Qed.

(** * Positions of code characters *)

(** Positions from [lo] on, increasing. *)
Fixpoint increasing (lo : nat) (ps : list nat) : Prop :=
  match ps with [] => True | p :: ps => (lo <= p)%nat /\ increasing (S p) ps end.

Lemma increasing_weaken lo lo' ps : (lo' <= lo)%nat -> increasing lo ps -> increasing lo' ps.
Proof. destruct ps; simpl; [done|]. intros ? []. split; [lia|done]. Qed.

Lemma increasing_app lo mid ps qs :
  increasing lo ps -> Forall (fun p => (p < mid)%nat) ps -> increasing mid qs -> (lo <= mid)%nat -> increasing lo (ps ++ qs).
Proof.
  intros Hp Hf Hq. revert lo Hp. induction Hf as [|p ps Hlt _ IH]; intros lo Hp Hl; simpl in *.
  - by eapply increasing_weaken.
  - destruct Hp as [? Hp]. split; [done|]. apply IH; [done|lia].
Qed.

Lemma increasing_imap lo (s : str) : increasing lo (imap (fun i c => ((lo + i)%nat, c)) s).*1.
Proof.
  revert lo. induction s as [|c s IH]; intros lo; [done|]. cbn [imap fmap list_fmap fst increasing]. split; [lia|].
  assert (imap (fun i c => ((lo + S i)%nat, c)) s = imap (fun i c => ((S lo + i)%nat, c)) s) as E
    by (apply imap_ext; intros; f_equal; lia).
  unfold compose. rewrite E. replace (S (lo + 0)) with (S lo) by lia. apply IH.
Qed.

Definition span_chars (sp : Span) : list (nat * char) :=
  if is_kind Code sp then imap (fun i c => ((start sp + i)%nat, c)) (text sp) else [].

Lemma span_chars_lt sp : Forall (fun p => (p < start sp + length (text sp))%nat) (span_chars sp).*1.
Proof.
  unfold span_chars. destruct (is_kind Code sp); [|constructor]. apply Forall_fmap, Forall_forall.
  intros x (i & c & -> & Hi)%elem_of_lookup_imap_1. simpl. apply lookup_lt_Some in Hi. lia.
Qed.

Lemma collect_increasing fuel sc : increasing (offset sc) ((collect fuel sc).1 ≫= span_chars).*1.
Proof.
  revert sc. induction fuel as [|fuel IH]; intros sc; [done|]. cbn [collect].
  destruct (next_span sc) as [[sp sc']|] eqn:E; [|done].
  apply next_span_next in E as (_ & Hs & Ho & _). cbn [fst snd] in *. specialize (IH sc').
  destruct (collect fuel sc') as [sps sc'']. cbn [fst] in *. rewrite bind_cons, fmap_app, <- Hs.
  eapply increasing_app; [|apply span_chars_lt|rewrite Hs, <- Ho; exact IH|lia].
  unfold span_chars. destruct (is_kind Code sp); [apply increasing_imap|done].
Qed.

Lemma code_chars_increasing line : increasing 0 (code_chars line).*1.
Proof.
  unfold code_chars, scan. pose proof (collect_increasing (S (length line)) (new_scanner line false)) as H.
  destruct (collect _ _). exact H.
Qed.

Lemma commas_increasing lo d cs : increasing lo cs.*1 -> increasing lo (top_level_commas d cs).
Proof.
  revert lo d. induction cs as [|[i c] cs IH]; intros lo d; [done|]. cbn [fmap list_fmap fst increasing top_level_commas].
  intros [Hi Hcs]. destruct (_ && _); simpl; [split; [done|by apply IH]|].
  apply (increasing_weaken (S i)); [lia|]. by apply IH.
Qed.

(** * Words *)

Lemma leading_ws_blank line : blank (leading_ws line).
Proof.
  unfold leading_ws. destruct (trim_start_split is_whitespace line) as (a & E & Ha & _). fold (trim_start line) in E.
  remember (trim_start line) as t eqn:Et. clear Et. subst line. rewrite length_app.
  replace (length a + length t - length t)%nat with (length a) by lia. by rewrite take_app_length.
Qed.

Lemma indent_unit_blank options : blank (indent_unit options).
Proof. unfold indent_unit. case_match; [by apply Forall_replicate|by repeat constructor]. Qed.

Lemma segments_words content from cuts :
  increasing from cuts -> splits_words (words (drop from content)) (line_words (segments content from cuts)).
Proof.
  revert from. induction cuts as [|cut cuts IH]; intros from; cbn [segments increasing].
  - intros _. unfold line_words. simpl. rewrite app_nil_r, words_trim. apply splits_refl.
  - intros [Hc Hi]. rewrite line_words_cons, words_trim.
    eapply splits_trans; [rewrite <- (take_drop (S cut - from) (drop from content)) at 1; apply words_cut|].
    apply splits_app; [apply splits_refl|]. rewrite drop_drop. replace (from + (S cut - from))%nat with (S cut) by lia.
    by apply IH.
Qed.

Lemma wrap_property_words line unit : blank unit -> splits_words (words line) (line_words (wrap_property_line line unit)).
Proof.
  intros Hu. unfold wrap_property_line.
  pose proof (commas_increasing 0 no_depth _ (code_chars_increasing (trim line))) as Hi.
  destruct (top_level_commas _ _) as [|cut cuts] eqn:E.
  - unfold line_words. simpl. rewrite app_nil_r. apply splits_refl.
  - pose proof (segments_words (trim line) 0 (cut :: cuts) Hi) as Hs. rewrite drop_0, words_trim in Hs.
    destruct (segments _ _ _) as [|first others] eqn:Es; [by cbn [segments] in Es|].
    rewrite line_words_cons in Hs |- *. pose proof (leading_ws_blank line) as Hl. rewrite words_blank_app by done.
    assert (line_words ((fun seg => (leading_ws line ++ unit) ++ seg) <$> others) = line_words others) as ->; [|done].
    clear -Hl Hu. induction others as [|o others IH]; [done|]. rewrite fmap_cons, !line_words_cons, IH.
    by rewrite words_blank_app by (by apply Forall_app).
Qed.

Lemma wrap_loop_words max unit lines b :
  blank unit -> splits_words (line_words lines) (line_words (wrap_loop max unit lines b)).
Proof.
  intros Hu. revert b. induction lines as [|line lines IH]; intros b; cbn [wrap_loop]; [apply splits_refl|].
  rewrite line_words_app, line_words_cons. apply splits_app; [|apply IH].
  case_match; [by apply wrap_property_words|]. unfold line_words. simpl. rewrite app_nil_r. apply splits_refl.
Qed.

Lemma line_words_reverse_cons line out : line_words (reverse (line :: out)) = line_words (reverse out) ++ words line.
Proof. rewrite reverse_cons, line_words_app. unfold line_words at 2. simpl. by rewrite app_nil_r. Qed.

Lemma words_of_trim line k : str_is (trim line) k = true -> words line = words (lit k).
Proof. intros H. unfold str_is, str_eqb in H. apply bool_decide_eq_true in H. by rewrite <- words_trim, H. Qed.

Lemma merge_braces_words lines out : line_words (merge_braces lines out) = line_words (reverse out) ++ line_words lines.
Proof.
  revert out. induction lines as [|line lines IH]; intros out; cbn [merge_braces]; [by rewrite app_nil_r|].
  destruct out as [|prev out]; [by rewrite IH, line_words_reverse_cons|].
  destruct (str_is (trim line) "{" && _) eqn:E; rewrite IH; rewrite !line_words_reverse_cons, line_words_cons, <- !app_assoc;
    [|done]. f_equal. apply andb_true_iff in E as [E _]. rewrite (words_of_trim _ _ E).
  change (lit " {") with ([32] ++ lit "{"). rewrite words_app_space by (by repeat constructor).
  by rewrite words_trim_end, <- app_assoc.
Qed.

Lemma split_loop_words lines b : splits_words (line_words lines) (line_words (split_loop_braces lines b).1).
Proof.
  revert b. induction lines as [|line lines IH]; intros b; cbn [split_loop_braces]; [apply splits_refl|].
  destruct (trailing_brace_pos line b) as [pos still_open]. specialize (IH still_open).
  destruct (split_loop_braces lines still_open) as [out changed]. cbn [fst] in IH.
  destruct pos as [p|]; [case_match|]; cbn [fst]; rewrite !line_words_cons;
    try (apply splits_app; [apply splits_refl|done]).
  rewrite app_assoc. apply splits_app; [|done]. rewrite words_trim_end.
  rewrite <- (take_drop p line) at 1. apply words_cut.
Qed.

(** ** Blank lines *)

Lemma empty_line_words line : is_empty_line line = true -> words line = [].
Proof. unfold is_empty_line. destruct (trim line) eqn:E; [|done]. intros _. by rewrite <- words_trim, E. Qed.

(** The blank lines skipped. *)
Lemma skip_blank_split lines :
  exists blanks, lines = blanks ++ skip_blank_lines lines /\ Forall (fun l => is_empty_line l = true) blanks /\
    match skip_blank_lines lines with next :: _ => is_empty_line next = false | [] => True end.
Proof.
  induction lines as [|line lines (blanks & E & Hb & Hn)]; [by exists []|]. cbn [skip_blank_lines].
  destruct (is_empty_line line) eqn:El; [|by exists []]. exists (line :: blanks). split_and!; [cbn [app]; by f_equal|by constructor|done].
Qed.

Lemma skip_blank_app blanks lines :
  Forall (fun l => is_empty_line l = true) blanks -> skip_blank_lines (blanks ++ lines) = skip_blank_lines lines.
Proof. induction 1 as [|l blanks Hl _ IH]; [done|]. cbn [app skip_blank_lines]. by rewrite Hl. Qed.

Lemma skip_blank_length lines : (length (skip_blank_lines lines) <= length lines)%nat.
Proof. destruct (skip_blank_split lines) as (b & E & _). rewrite E at 2. rewrite length_app. lia. Qed.

(** The gap after [line] is rewritten. *)
Definition before_member (line : str) (rest : list str) : bool :=
  eq_ignore_ascii_case (trim line) (lit "end;")
  && match skip_blank_lines rest with
     | next :: _ => str_eqb (leading_ws next) (leading_ws line) && is_procedure_member_start (trim next)
     | [] => false
     end.

Lemma blank_lines_step fuel d line rest :
  blank_lines_loop (S fuel) d (line :: rest) =
    if before_member line rest then line :: replicate d [] ++ blank_lines_loop fuel d (skip_blank_lines rest)
    else line :: blank_lines_loop fuel d rest.
Proof.
  unfold before_member. cbn [blank_lines_loop]. destruct (eq_ignore_ascii_case _ _); [|done].
  cbn [andb]. destruct (skip_blank_lines rest); [done|]. by destruct (str_eqb _ _ && _).
Qed.

Lemma blank_lines_fuel fuel d lines : (length lines <= fuel)%nat -> blank_lines_loop fuel d lines = blank_lines d lines.
Proof.
  unfold blank_lines. enough (forall n m ls, (length ls <= n)%nat -> (length ls <= m)%nat ->
    blank_lines_loop n d ls = blank_lines_loop m d ls) as H by (intros; by apply H).
  induction n as [|n IH]; intros m [|line rest] Hn Hm; simpl in Hn, Hm; try lia; [by destruct m|by destruct m|].
  destruct m as [|m]; [lia|]. rewrite !blank_lines_step. pose proof (skip_blank_length rest).
  case_match; f_equal; [f_equal|]; apply IH; lia.
Qed.

Lemma blank_lines_cons d line rest :
  blank_lines d (line :: rest) =
    if before_member line rest then line :: replicate d [] ++ blank_lines d (skip_blank_lines rest)
    else line :: blank_lines d rest.
Proof.
  unfold blank_lines at 1. cbn [length]. rewrite blank_lines_step. pose proof (skip_blank_length rest).
  by rewrite !blank_lines_fuel.
Qed.

Lemma blank_lines_words d lines : line_words (blank_lines d lines) = line_words lines.
Proof.
  induction lines as [lines IH] using (induction_ltof1 _ (@length _)); unfold ltof in IH.
  destruct lines as [|line rest]; [done|]. rewrite blank_lines_cons, line_words_cons. pose proof (skip_blank_length rest).
  destruct (before_member line rest); rewrite line_words_cons; f_equal; [|apply IH; simpl; lia].
  rewrite line_words_app, IH by (simpl; lia). destruct (skip_blank_split rest) as (b & E & Hb & _). rewrite E at 2.
  rewrite line_words_app. f_equal. transitivity (@nil str); [clear; induction d as [|d IHd]; [done|exact IHd]|].
  clear -Hb. induction Hb as [|l b Hl _ IH]; [done|]. by rewrite line_words_cons, <- IH, empty_line_words.
Qed.

Lemma blank_lines_head d line rest : exists out, blank_lines d (line :: rest) = line :: out.
Proof. rewrite blank_lines_cons. case_match; eauto. Qed.

Lemma not_empty_end line : is_empty_line line = true -> eq_ignore_ascii_case (trim line) (lit "end;") = false.
Proof. unfold is_empty_line. by destruct (trim line). Qed.

Lemma blank_lines_app d blanks rest :
  Forall (fun l => is_empty_line l = true) blanks -> blank_lines d (blanks ++ rest) = blanks ++ blank_lines d rest.
Proof.
  induction 1 as [|l blanks Hl _ IH]; [done|]. cbn [app]. rewrite blank_lines_cons. unfold before_member.
  rewrite not_empty_end by done. cbn [andb]. by rewrite IH.
Qed.

(** The next line that is not blank stays the next one. *)
Lemma before_member_again d line rest blanks :
  Forall (fun l => is_empty_line l = true) blanks ->
  before_member line (blanks ++ blank_lines d (skip_blank_lines rest)) = before_member line rest.
Proof.
  intros Hb. unfold before_member. f_equal. rewrite skip_blank_app by done.
  destruct (skip_blank_split rest) as (b & _ & _ & Hn). destruct (skip_blank_lines rest) as [|next after]; [done|].
  destruct (blank_lines_head d next after) as (out & ->). cbn [skip_blank_lines]. by rewrite Hn.
Qed.

Lemma blank_lines_idem d lines : blank_lines d (blank_lines d lines) = blank_lines d lines.
Proof.
  induction lines as [lines IH] using (induction_ltof1 _ (@length _)); unfold ltof in IH.
  destruct lines as [|line rest]; [done|]. pose proof (skip_blank_length rest).
  assert (Forall (fun l => is_empty_line l = true) (replicate d [])) as Hd by (by apply Forall_replicate).
  rewrite (blank_lines_cons d line rest). destruct (before_member line rest) eqn:E.
  - rewrite blank_lines_cons, before_member_again, E by done. do 2 f_equal. rewrite skip_blank_app by done.
    destruct (skip_blank_split rest) as (b & _ & _ & Hn). destruct (skip_blank_lines rest) as [|next after] eqn:Es; [done|].
    assert (skip_blank_lines (blank_lines d (next :: after)) = blank_lines d (next :: after)) as ->; [|apply IH; simpl in *; lia].
    destruct (blank_lines_head d next after) as (out & ->). cbn [skip_blank_lines]. by rewrite Hn.
  - rewrite blank_lines_cons. destruct (skip_blank_split rest) as (b & Er & Hb & _).
    assert (blank_lines d rest = b ++ blank_lines d (skip_blank_lines rest)) as Eb
      by (rewrite Er at 1; by rewrite blank_lines_app).
    rewrite Eb at 1. rewrite before_member_again, E by done. f_equal. apply IH. simpl. lia.
Qed.

(** ** Merged braces *)

(** No brace line follows a line it could be merged onto. *)
Fixpoint settled (lines : list str) : Prop :=
  match lines with
  | prev :: rest =>
      match rest with
      | line :: _ => str_is (trim line) "{" && is_mergeable_brace_target prev = false
      | [] => True
      end /\ settled rest
  | [] => True
  end.

Lemma merge_settled out lines :
  settled (reverse out ++ lines) -> merge_braces lines out = reverse out ++ lines.
Proof.
  revert out. induction lines as [|line lines IH]; intros out Hs; cbn [merge_braces]; [by rewrite app_nil_r|].
  destruct out as [|prev out].
  - rewrite IH; [done|exact Hs].
  - assert (str_is (trim line) "{" && is_mergeable_brace_target prev = false) as ->.
    { rewrite reverse_cons, <- app_assoc in Hs. cbn [app] in Hs. revert Hs. generalize (reverse out). clear.
      intros l Hs. induction l as [|x l IHl]; [by destruct Hs|]. apply IHl. by destruct Hs. }
    rewrite IH; rewrite reverse_cons, <- app_assoc; done.
Qed.

Lemma settled_snoc l line :
  settled l -> match last l with Some prev => str_is (trim line) "{" && is_mergeable_brace_target prev = false | None => True end ->
  settled (l ++ [line]).
Proof.
  induction l as [|x l IH]; intros Hs Hl; [done|]. destruct Hs as [Hx Hs]. destruct l as [|y l]; [done|].
  cbn [app settled] in *. split; [done|]. by apply IH.
Qed.

Lemma words_from_nonempty word s : word <> [] -> words_from word s <> [].
Proof.
  revert word. induction s as [|c s IH]; intros word Hw; cbn [words_from]; [by destruct word|].
  destruct (is_whitespace c); [by destruct word|]. apply IH. by destruct word.
Qed.

Lemma trim_head s c r : trim s = c :: r -> is_whitespace c = false.
Proof.
  change (trim s) with (trim_end (trim_start s)). intros H.
  destruct (trim_end_split is_whitespace (trim_start s)) as (b & E & _ & _). fold (trim_end (trim_start s)) in E.
  rewrite H in E. destruct (trim_start_split is_whitespace s) as (a & _ & _ & Hc). by eapply Hc.
Qed.

Lemma no_words_trim s : words s = [] -> trim s = [].
Proof.
  rewrite <- words_trim. destruct (trim s) as [|c r] eqn:E; [done|]. apply trim_head in E. unfold words. cbn [words_from].
  rewrite E. intros H. by apply words_from_nonempty in H.
Qed.

Lemma merged_not_brace prev :
  is_mergeable_brace_target prev = true -> str_is (trim (trim_end prev ++ lit " {")) "{" = false.
Proof.
  intros Hm. apply not_true_iff_false. intros H. apply words_of_trim in H.
  change (lit " {") with ([32] ++ lit "{") in H. rewrite words_app_space in H by (by repeat constructor).
  rewrite words_trim_end in H. change (words (lit "{")) with [lit "{"] in H.
  destruct (words prev) as [|w ws] eqn:E.
  - apply no_words_trim in E. unfold is_mergeable_brace_target in Hm. by rewrite E in Hm.
  - injection H as _ H. by destruct ws.
Qed.

Lemma settled_app l k : settled (l ++ k) -> settled l.
Proof.
  induction l as [|x l IH]; [done|]. intros [Hx Hs]. destruct l as [|y l]; [done|]. split; [exact Hx|by apply IH].
Qed.

Lemma settled_last l prev line :
  settled (l ++ [prev]) -> str_is (trim line) "{" && is_mergeable_brace_target prev = false -> settled ((l ++ [prev]) ++ [line]).
Proof. intros Hs H. apply settled_snoc; [done|]. by rewrite last_snoc. Qed.

Lemma merge_braces_settled lines out : settled (reverse out) -> settled (merge_braces lines out).
Proof.
  revert out. induction lines as [|line lines IH]; intros out Hs; cbn [merge_braces]; [done|].
  destruct out as [|prev out]; [by apply IH|]. rewrite reverse_cons in Hs.
  destruct (str_is (trim line) "{" && is_mergeable_brace_target prev) eqn:E; apply IH; rewrite !reverse_cons.
  - apply andb_true_iff in E as [_ E]. apply settled_app in Hs as Ho. apply settled_snoc; [done|].
    case_match; [|done]. by rewrite merged_not_brace.
  - by apply settled_last.
Qed.

Lemma merge_braces_idem lines : merge_braces (merge_braces lines []) [] = merge_braces lines [].
Proof. apply (merge_settled []). by apply merge_braces_settled. Qed.

(** ** Wrapped lines *)

Lemma wrap_loop_keep max unit line lines b :
  negb b && ends_with (lit ";") (trim line) && is_property_opener (trim line) && (max <? length line)%nat = false ->
  wrap_loop max unit (line :: lines) b =
    line :: wrap_loop max unit lines
      (if b && ends_with (lit ";") (trim line) then false
       else if negb b && negb (starts_with (lit "//") (trim line) || starts_with (lit "/*") (trim line) || starts_with (lit "*") (trim line))
               && ends_with (lit ",") (trim line) then true else b).
Proof. intros H. cbn [wrap_loop]. by rewrite H. Qed.

Lemma ends_with_spec p s : ends_with p s = true <-> p `suffix_of` s.
Proof. unfold ends_with. by rewrite starts_with_spec, <- suffix_prefix_reverse. Qed.

Lemma ends_with_last c s : ends_with [c] s = true <-> last s = Some c.
Proof. rewrite ends_with_spec. symmetry. rewrite last_Some. unfold suffix. firstorder. Qed.

Lemma collect_lookup fuel sc i c :
  (i, c) ∈ (collect fuel sc).1 ≫= span_chars -> (offset sc <= i)%nat /\ rest sc !! (i - offset sc)%nat = Some c.
Proof.
  revert sc. induction fuel as [|fuel IH]; intros sc; [by inversion 1|]. cbn [collect].
  destruct (next_span sc) as [[sp sc']|] eqn:E; [|by inversion 1].
  apply next_span_next in E as (Er & Hs & Ho & _). cbn [fst snd] in *. specialize (IH sc').
  destruct (collect fuel sc') as [sps sc'']. cbn [fst] in *. rewrite bind_cons, elem_of_app. intros [H|H].
  - unfold span_chars in H. destruct (is_kind Code sp); [|by inversion H].
    apply elem_of_lookup_imap_1 in H as (j & c' & [= -> ->] & Hj). split; [lia|].
    rewrite Hs. replace (offset sc + j - offset sc)%nat with j by lia. rewrite Er. by apply lookup_app_l_Some.
  - destruct (IH H) as [H1 H2]. split; [lia|]. rewrite Er, lookup_app_r by lia.
    by replace (i - offset sc - length (text sp))%nat with (i - offset sc')%nat by lia.
Qed.

Lemma code_chars_lookup line i c : (i, c) ∈ code_chars line -> line !! i = Some c.
Proof.
  unfold code_chars, scan. pose proof (collect_lookup (S (length line)) (new_scanner line false) i c) as H.
  destruct (collect _ _). intros Hin. destruct (H Hin) as [_ H2]. simpl in H2. by rewrite Nat.sub_0_r in H2.
Qed.

Lemma commas_elem d cs cut : cut ∈ top_level_commas d cs -> (cut, ch ",") ∈ cs.
Proof.
  revert d. induction cs as [|[i c] cs IH]; intros d; [by inversion 1|]. cbn [top_level_commas].
  rewrite elem_of_app. intros [H|H]; [|right; by eapply IH].
  destruct ((c =? ch ",") && top_level d) eqn:E; [|by inversion H]. apply list_elem_of_singleton in H as ->.
  apply andb_true_iff in E as [->%Z.eqb_eq _]. by left.
Qed.

(** ** Trimming *)

Lemma trim_blank_app w s : blank w -> trim (w ++ s) = trim s.
Proof. intros Hw. unfold trim. f_equal. unfold trim_start. induction Hw as [|c w Hc _ IH]; [done|]. simpl. by rewrite Hc. Qed.

Lemma trim_trim s : trim (trim s) = trim s.
Proof.
  destruct (decide (trim s = [])) as [->|Hne]; [done|]. apply trim_solid.
  - destruct (trim s) as [|c r] eqn:E; [done|]. exists c, r. split; [done|]. by eapply trim_head.
  - destruct (exists_last Hne) as (r & c & E). exists r, c. split; [done|].
    change (trim s) with (trim_end_matches is_whitespace (trim_start s)) in E.
    destruct (trim_end_split is_whitespace (trim_start s)) as (b & _ & _ & Hc). by eapply Hc.
Qed.

Lemma last_trim s c : last s = Some c -> is_whitespace c = false -> last (trim s) = Some c.
Proof.
  intros Hl Hc. apply last_Some in Hl as (r & ->).
  destruct (trim_start_split is_whitespace (r ++ [c])) as (a & E & Ha & _). fold (trim_start (r ++ [c])) in E.
  change (trim (r ++ [c])) with (trim_end (trim_start (r ++ [c]))).
  destruct (trim_end_split is_whitespace (trim_start (r ++ [c]))) as (b & E2 & Hb & _).
  fold (trim_end (trim_start (r ++ [c]))) in E2.
  assert (b = []) as ->.
  { destruct (decide (b = [])) as [|Hne]; [done|]. destruct (exists_last Hne) as (b' & x & ->).
    rewrite E2, !app_assoc in E. apply app_inj_tail in E as [_ <-]. apply Forall_app in Hb as [_ Hb].
    inversion Hb. congruence. }
  rewrite app_nil_r in E2. rewrite <- E2. destruct (decide (trim_start (r ++ [c]) = [])) as [E3|Hne].
  - rewrite E3, app_nil_r in E. rewrite <- E in Ha. apply Forall_app in Ha as [_ Ha]. inversion Ha. congruence.
  - destruct (exists_last Hne) as (t & x & E3). rewrite E3, app_assoc in E. apply app_inj_tail in E as [_ <-].
    rewrite E3. apply last_snoc.
Qed.

Lemma trim_prefix s n : (forall c r, s = c :: r -> is_whitespace c = false) -> trim (take n s) `prefix_of` s.
Proof.
  intros Hs. change (trim (take n s)) with (trim_end (trim_start (take n s))).
  assert (trim_start (take n s) = take n s) as ->.
  { destruct s as [|c s], n; try done. unfold trim_start. simpl. by rewrite (Hs c s). }
  destruct (trim_end_split is_whitespace (take n s)) as (b & E & _). fold (trim_end (take n s)) in E.
  transitivity (take n s); [by exists b|apply prefix_take].
Qed.

Lemma last_drop_lt (s : str) n : (n < length s)%nat -> last (drop n s) = last s.
Proof. intros H. rewrite !last_lookup, length_drop, lookup_drop. f_equal. lia. Qed.

Lemma last_take_drop (s : str) from cut c :
  (from <= cut)%nat -> s !! cut = Some c -> last (take (S cut - from) (drop from s)) = Some c.
Proof.
  intros Hc H. apply lookup_lt_Some in H as Hl. rewrite last_lookup, length_take, length_drop.
  rewrite lookup_take_lt, lookup_drop by lia. rewrite <- H. f_equal. lia.
Qed.

Lemma segments_ends content from cuts :
  increasing from cuts -> Forall (fun cut => content !! cut = Some (ch ",")) cuts ->
  last content = Some (ch ";") -> (from < length content)%nat ->
  exists mids final, segments content from cuts = mids ++ [final] /\ length mids = length cuts /\
    Forall (fun seg => last seg = Some (ch ",")) mids /\ last final = Some (ch ";").
Proof.
  intros Hi Hc Hl. revert from Hi. induction Hc as [|cut cuts Hcut _ IH]; intros from Hi Hf; cbn [segments].
  - exists [], (trim (drop from content)). split_and!; [done|done|constructor|].
    apply last_trim; [|done]. by rewrite last_drop_lt.
  - destruct Hi as [Hle Hi]. apply lookup_lt_Some in Hcut as Hlt.
    assert (S cut < length content)%nat as Hs.
    { rewrite last_lookup in Hl. destruct (decide (cut = pred (length content))) as [->|]; [congruence|lia]. }
    destruct (IH (S cut) Hi Hs) as (mids & final & E & El & Hm & Hfin).
    eexists (_ :: mids), final. rewrite E. split_and!; [done|simpl; by rewrite El| |done].
    constructor; [|done]. apply last_trim; [|done]. by apply last_take_drop.
Qed.

(** What wrapping leaves: a first line that ends in a comma, and is no comment,
    lines that end in a comma, and one that ends the property. *)
Definition wrapped (lines : list str) : Prop :=
  exists first mids final, lines = first :: mids ++ [final] /\
    Forall (fun l => ends_with (lit ";") (trim l) = false /\ ends_with (lit ",") (trim l) = true) (first :: mids) /\
    starts_with (lit "//") (trim first) || starts_with (lit "/*") (trim first) || starts_with (lit "*") (trim first) = false /\
    ends_with (lit ";") (trim final) = true.

Lemma ends_comma l : last l = Some (ch ",") -> ends_with (lit ";") l = false /\ ends_with (lit ",") l = true.
Proof.
  intros H. split; [|by apply (ends_with_last (ch ","))]. apply not_true_iff_false.
  intros E. apply (ends_with_last (ch ";")) in E. congruence.
Qed.

Lemma starts_with_prefix p s t : s `prefix_of` t -> starts_with p t = false -> starts_with p s = false.
Proof.
  intros Hp H. apply not_true_iff_false in H. apply not_true_iff_false. intros E. apply H.
  apply starts_with_spec in E. apply starts_with_spec. by transitivity s.
Qed.

Lemma property_not_comment t :
  is_property_opener t = true -> starts_with (lit "//") t = false /\ starts_with (lit "/*") t = false /\ starts_with (lit "*") t = false.
Proof.
  unfold is_property_opener. destruct (match t with [] => true | _ => false end); [done|].
  destruct (starts_with (lit "//") t), (starts_with (lit "/*") t), (starts_with (lit "*") t); done.
Qed.

Lemma wrap_property_cases line unit :
  blank unit -> ends_with (lit ";") (trim line) = true -> is_property_opener (trim line) = true ->
  wrap_property_line line unit = [line] \/ wrapped (wrap_property_line line unit).
Proof.
  intros Hu He Hp. unfold wrap_property_line. set (content := trim line) in *.
  destruct (top_level_commas no_depth (code_chars content)) as [|cut cuts] eqn:E; [by left|right].
  assert (increasing 0 (cut :: cuts)) as Hi by (rewrite <- E; apply commas_increasing, code_chars_increasing).
  assert (Forall (fun cut => content !! cut = Some (ch ",")) (cut :: cuts)) as Hc.
  { apply Forall_forall. intros x Hx. rewrite <- E in Hx. by apply code_chars_lookup, (commas_elem no_depth). }
  apply (ends_with_last (ch ";")) in He as Hl.
  destruct (segments_ends content 0 (cut :: cuts) Hi Hc Hl) as (mids & final & Es & El & Hm & Hf).
  { destruct content; [done|simpl; lia]. }
  rewrite Es. destruct mids as [|first mids]; [done|]. cbn [app].
  pose proof (leading_ws_blank line) as Hw. assert (blank (leading_ws line ++ unit)) as Hwu by (by apply Forall_app).
  apply Forall_cons in Hm as [Hfirst Hm]. rewrite fmap_app.
  assert (forall w seg, blank w -> trim seg = seg -> trim (w ++ seg) = seg) as Ht
    by (intros w seg Hb Hs; by rewrite trim_blank_app).
  assert (Forall (fun seg => trim seg = seg) (segments content 0 (cut :: cuts))) as Htr.
  { clear. generalize (cut :: cuts), O. intros l. induction l as [|x l IH]; intros n; cbn [segments];
      (constructor; [apply trim_trim|]); [constructor|apply IH]. }
  assert (first = trim (take (S cut - 0) (drop 0 content))) as Ef by (cbn [segments app] in Es; congruence).
  rewrite Es in Htr. cbn [app] in Htr. apply Forall_cons in Htr as [Ht1 Htr]. apply Forall_app in Htr as [Ht2 Ht3].
  eexists _, _, _. split_and!; [done| | |].
  - constructor; [rewrite Ht by done; by apply ends_comma|]. apply Forall_fmap.
    assert (Forall (fun seg => last seg = Some (ch ",") /\ trim seg = seg) mids) as Hboth by (apply Forall_and; by split).
    eapply Forall_impl; [exact Hboth|]. intros seg [Hs1 Hs2]. cbv beta in *. unfold compose. rewrite Ht by done. by apply ends_comma.
  - rewrite Ht by done. destruct (property_not_comment content Hp) as (H1 & H2 & H3).
    assert (first `prefix_of` content) as Hpre
      by (rewrite Ef, drop_0; apply trim_prefix; intros c r Hcr; by eapply trim_head).
    rewrite !(starts_with_prefix _ _ _ Hpre) by done. done.
  - apply Forall_cons in Ht3 as [Ht3 _]. rewrite Ht by done. by apply (ends_with_last (ch ";")).
Qed.

Lemma wrap_loop_commas max unit lines tail :
  Forall (fun l => ends_with (lit ";") (trim l) = false) lines ->
  wrap_loop max unit (lines ++ tail) true = lines ++ wrap_loop max unit tail true.
Proof.
  induction 1 as [|l lines Hl _ IH]; [done|]. cbn [app]. rewrite wrap_loop_keep by done. rewrite Hl. cbn [andb negb].
  by rewrite IH.
Qed.

Lemma wrap_loop_wrapped max unit lines tail :
  wrapped lines -> wrap_loop max unit (lines ++ tail) false = lines ++ wrap_loop max unit tail false.
Proof.
  intros (first & mids & final & -> & Hm & Hc & Hf). apply Forall_cons in Hm as [[H1 H2] Hm].
  rewrite <- !app_comm_cons, <- app_assoc. rewrite wrap_loop_keep by (by rewrite H1). rewrite Hc, H2. cbn [andb negb orb].
  rewrite wrap_loop_commas by (eapply Forall_impl; [exact Hm|]; intros l [? _]; assumption).
  cbn [app]. rewrite wrap_loop_keep by done. rewrite Hf. cbn [andb]. by rewrite <- ?app_assoc.
Qed.

Lemma wrap_loop_idem max unit lines b :
  blank unit -> wrap_loop max unit (wrap_loop max unit lines b) b = wrap_loop max unit lines b.
Proof.
  intros Hu. revert b. induction lines as [|line lines IH]; intros b; [done|].
  destruct (negb b && ends_with (lit ";") (trim line) && is_property_opener (trim line) && (max <? length line)%nat) eqn:E.
  2:{ rewrite wrap_loop_keep by done. by rewrite wrap_loop_keep, IH. }
  cbn [wrap_loop]. rewrite E. apply andb_true_iff in E as [E El]. apply andb_true_iff in E as [E Ep].
  apply andb_true_iff in E as [Eb Es]. destruct b; [done|].
  assert (ends_with (lit ",") (trim line) = false) as Hcomma.
  { apply not_true_iff_false. intros H. apply (ends_with_last (ch ",")) in H.
    apply (ends_with_last (ch ";")) in Es. congruence. }
  rewrite Hcomma, andb_false_r. cbn [andb].
  destruct (wrap_property_cases line unit Hu Es Ep) as [E2|Hw].
  - rewrite E2. cbn [app wrap_loop]. rewrite Es, Ep, El, E2, Hcomma, andb_false_r. cbn [andb negb app]. by rewrite IH.
  - by rewrite wrap_loop_wrapped, IH.
Qed.

(** ** The passes on texts *)

Definition clean (l : str) : Prop := ~ 10 ∈ l /\ ~ 13 ∈ l.

Lemma clean_line l : clean l -> is_line l.
Proof. intros [H1 H2]. split; [done|]. intros r ->. apply H2, elem_of_app. right. by left. Qed.

Lemma clean_app a b : clean (a ++ b) <-> clean a /\ clean b.
Proof. unfold clean. rewrite !elem_of_app. tauto. Qed.

Lemma str_lines_clean text : ~ 13 ∈ text -> Forall clean (str_lines text).
Proof.
  intros H. pose proof (str_lines_ok text H) as Ho.
  assert (Forall (fun l => ~ 13 ∈ l) (str_lines text)) as Hn.
  { clear Ho. unfold str_lines. destruct (split_char_parts 10 text) as [_ E]. rewrite <- E in H. clear E.
    induction (split_char 10 text) as [|p [|q ps] IH]; [constructor| |].
    - cbn [lines_of]. destruct p; by repeat constructor.
    - change (join [10] (p :: q :: ps)) with (p ++ 10 :: join [10] (q :: ps)) in H. rewrite elem_of_app, elem_of_cons in H.
      change (lines_of (p :: q :: ps)) with (strip_cr p :: lines_of (q :: ps)). constructor; [|apply IH; tauto].
      rewrite strip_cr_line; [tauto|]. intros r ->. apply H. left. apply elem_of_app. right. by left. }
  apply Forall_forall. intros l Hl. rewrite Forall_forall in Ho, Hn. destruct (Ho l Hl). split; [done|by apply Hn].
Qed.

Lemma pass_idem (f : list str -> list str) text :
  (forall l, f (f l) = f l) -> f [] = [] -> f [[]] = [[]] -> (forall l, l <> [] -> f l <> []) ->
  (forall l, Forall clean l -> Forall clean (f l)) -> ~ 13 ∈ text ->
  join_lines (f (str_lines (join_lines (f (str_lines text))))) = join_lines (f (str_lines text)).
Proof.
  intros Hi H0 H1 Hn Hc Ht. pose proof (str_lines_clean text Ht) as Hl.
  destruct (decide (str_lines text = [])) as [->|Hne].
  - rewrite H0. change (str_lines (join_lines [])) with [@nil char]. by rewrite H1.
  - rewrite lines_join_lines; [by rewrite Hi|by apply Hn|]. eapply Forall_impl; [by apply Hc|]. apply clean_line.
Qed.

Lemma clean_sub (a l : str) : (forall c, c ∈ a -> c ∈ l) -> clean l -> clean a.
Proof. intros H [H1 H2]. split; intros Hc; [by apply H1, H|by apply H2, H]. Qed.

Lemma elem_trim_start s c : c ∈ trim_start s -> c ∈ s.
Proof.
  intros H. destruct (trim_start_split is_whitespace s) as (a & E & _). rewrite E. apply elem_of_app. by right.
Qed.

Lemma elem_trim_end s c : c ∈ trim_end s -> c ∈ s.
Proof.
  intros H. destruct (trim_end_split is_whitespace s) as (b & E & _). rewrite E. apply elem_of_app. by left.
Qed.

Lemma clean_trim s : clean s -> clean (trim s).
Proof. apply clean_sub. intros c H. by apply elem_trim_start, elem_trim_end. Qed.

Lemma elem_drop (s : str) n c : c ∈ drop n s -> c ∈ s.
Proof. intros H. rewrite <- (take_drop n s). apply elem_of_app. by right. Qed.

Lemma elem_take (s : str) n c : c ∈ take n s -> c ∈ s.
Proof. intros H. rewrite <- (take_drop n s). apply elem_of_app. by left. Qed.

Lemma clean_segments content from cuts : clean content -> Forall clean (segments content from cuts).
Proof.
  intros Hc. revert from. induction cuts as [|cut cuts IH]; intros from; cbn [segments];
    (constructor; [apply clean_trim; (eapply clean_sub; [|exact Hc]); intros c H|]); [|constructor| |apply IH].
  - by eapply elem_drop.
  - by eapply elem_drop, elem_take.
Qed.

Lemma clean_blank_unit options : clean (indent_unit options).
Proof.
  unfold indent_unit. destruct (insert_spaces options); split; rewrite ?elem_of_replicate, ?list_elem_of_singleton; [| |done|done].
  all: by intros [? _].
Qed.

Lemma wrap_loop_clean max unit lines b : clean unit -> Forall clean lines -> Forall clean (wrap_loop max unit lines b).
Proof.
  intros Hu H. revert b. induction H as [|line lines Hl _ IH]; intros b; cbn [wrap_loop]; [constructor|].
  apply Forall_app. split; [|apply IH]. case_match; [|by constructor]. unfold wrap_property_line.
  destruct (top_level_commas _ _) as [|cut cuts]; [by constructor|].
  pose proof (clean_segments (trim line) 0 (cut :: cuts) (clean_trim _ Hl)) as Hs.
  assert (clean (leading_ws line)) as Hw by (eapply clean_sub; [|exact Hl]; intros c; apply elem_take).
  destruct (segments _ _ _) as [|first others]; [constructor|]. apply Forall_cons in Hs as [Hf Hs].
  constructor; [by apply clean_app|]. apply Forall_fmap. eapply Forall_impl; [exact Hs|]. intros seg Hseg. unfold compose.
  rewrite !clean_app. by split_and!.
Qed.

Lemma wrap_loop_nonempty max unit lines b : lines <> [] -> wrap_loop max unit lines b <> [].
Proof.
  destruct lines as [|line lines]; [done|]. intros _. cbn [wrap_loop]. case_match; [|done]. unfold wrap_property_line.
  destruct (top_level_commas _ _) as [|cut cuts]; [done|]. cbn [segments]. done.
Qed.

Lemma clean_nil : clean [].
Proof. split; by inversion 1. Qed.

Lemma blank_lines_clean d lines : Forall clean lines -> Forall clean (blank_lines d lines).
Proof.
  induction lines as [lines IH] using (induction_ltof1 _ (@length _)); unfold ltof in IH. intros H.
  destruct lines as [|line rest]; [constructor|]. apply Forall_cons in H as [Hl Hr]. rewrite blank_lines_cons.
  pose proof (skip_blank_length rest). case_match; (constructor; [done|]); [|apply IH; [simpl; lia|done]].
  apply Forall_app. split; [apply Forall_replicate, clean_nil|]. apply IH; [simpl; lia|].
  destruct (skip_blank_split rest) as (b & E & _). rewrite E in Hr. by apply Forall_app in Hr as [_ ?].
Qed.

Lemma merge_braces_clean lines out : Forall clean out -> Forall clean lines -> Forall clean (merge_braces lines out).
Proof.
  intros Ho H. revert out Ho. induction H as [|line lines Hl _ IH]; intros out Ho; cbn [merge_braces]; [by apply Forall_reverse|].
  destruct out as [|prev out]; [apply IH; constructor; [done|constructor]|].
  destruct (_ && _); apply IH; [|by constructor]. apply Forall_cons in Ho as [Hp Ho]. constructor; [|done].
  apply clean_app. split; [eapply clean_sub; [|exact Hp]; intros c; apply elem_trim_end|].
  split; apply not_elem_of_cons; split; try done; apply not_elem_of_cons; split; try done; by inversion 1.
Qed.

(** The passes are idempotent on texts without carriage returns: blank
    lines between procedures, the wrapping of long properties and braces on the
    same line do nothing the second time.  The split of trailing braces is not:
    a line that ends in two of them is split again. *)
Lemma passes_idempotent options text :
  ~ 13 ∈ text ->
  normalize_blank_lines_between_procedures (normalize_blank_lines_between_procedures text options) options =
    normalize_blank_lines_between_procedures text options /\
  wrap_long_property_lines (wrap_long_property_lines text options) options = wrap_long_property_lines text options /\
  (brace_style options = SameLine ->
     apply_brace_style (apply_brace_style text options) options = apply_brace_style text options).
Proof.
  intros Ht. split_and!.
  - unfold normalize_blank_lines_between_procedures. destruct (blank_lines_between_procedures options); [done| |].
    all: apply pass_idem; try done; [apply blank_lines_idem| |apply blank_lines_clean].
    all: intros [|l ls] Hne; [done|]. all: by destruct (blank_lines_head 1 l ls) as (? & ->) || destruct (blank_lines_head 2 l ls) as (? & ->).
  - unfold wrap_long_property_lines. destruct (max_line_length options) as [|max]; [done|].
    apply (pass_idem (fun l => wrap_loop (S max) (indent_unit options) l false)); try done.
    + intros l. apply wrap_loop_idem, indent_unit_blank.
    + intros l. apply wrap_loop_nonempty.
    + intros l. apply wrap_loop_clean, clean_blank_unit.
  - unfold apply_brace_style. intros ->. apply (pass_idem (fun l => merge_braces l [])); try done.
    + apply merge_braces_idem.
    + intros l Hne Hm. pose proof (merge_braces_words l []) as Hw. rewrite Hm in Hw.
      destruct l as [|x l]; [done|]. cbn [merge_braces] in Hm.
      enough (forall ls out, out <> [] -> merge_braces ls out <> []) as H by by apply (H l [x]).
      clear. induction ls as [|y ls IH]; intros out Ho; cbn [merge_braces].
      * intros H. apply Ho. by rewrite <- (reverse_involutive out), H.
      * destruct out; [done|]. by destruct (_ && _); apply IH.
    + intros l Hl. by apply merge_braces_clean.
Qed.

(** * Sorted properties *)

(** The name a property of a run is sorted by. *)
Definition run_key (prop : list str) : str := property_sort_key (default [] (head prop)).

Definition run_cmp (a b : list str) : comparison := str_cmp (run_key a) (run_key b).

#[local] Instance run_order : OrderOn (fun _ => True) run_cmp := order_on_keys (fun _ => True) str_cmp run_key.

Lemma sort_run_perm run : sort_run run ≡ₚ run.
Proof. apply sort_by_perm. Qed.

Lemma sort_run_sorted run : StronglySorted (cmp_le run_cmp) (sort_run run).
Proof. apply (sort_by_sorted run_cmp (fun _ => True)). by apply Forall_true. Qed.

Lemma sort_run_stable run name :
  List.filter (fun prop => str_eqb (run_key prop) name) (sort_run run) =
    List.filter (fun prop => str_eqb (run_key prop) name) run.
Proof.
  apply sort_by_ties. unfold str_eqb. intros x y Hx%bool_decide_eq_true Hy%bool_decide_eq_true.
  apply str_cmp_eq. unfold run_key in *. congruence.
Qed.

(** Lines of which only runs of properties are rearranged. *)
Inductive rearranged : list str -> list str -> Prop :=
  | rearranged_nil : rearranged [] []
  | rearranged_line line a b : rearranged a b -> rearranged (line :: a) (line :: b)
  | rearranged_run run a b :
      Forall (fun prop => exists line rest, prop = line :: rest /\ is_property_opener (trim line) = true) run ->
      rearranged a b -> rearranged (mjoin run ++ a) (mjoin (sort_run run) ++ b).

Lemma collect_property_split line rest :
  line :: rest = (collect_property line rest).1 ++ (collect_property line rest).2 /\
  exists r, (collect_property line rest).1 = line :: r.
Proof.
  revert line. induction rest as [|next rest IH]; intros line; cbn [collect_property];
    destruct (first_top_level line (ch ";")); try (split; [done|by eexists]).
  destruct (IH next) as [E _]. destruct (collect_property next rest) as [prop rest']. cbn [fst snd] in *.
  split; [by rewrite E|by eexists].
Qed.

Lemma sort_loop_rearranged fuel lines depth b run :
  (length lines <= fuel)%nat ->
  Forall (fun prop => exists line rest, prop = line :: rest /\ is_property_opener (trim line) = true) run ->
  rearranged (mjoin run ++ lines) (sort_loop fuel lines depth b run).
Proof.
  revert lines depth b run. induction fuel as [|fuel IH]; intros [|line rest] depth b run Hf Hr; simpl in Hf;
    try lia; cbn [sort_loop].
  1,2: rewrite <- (app_nil_r (mjoin (sort_run run))); by apply rearranged_run, rearranged_nil.
  destruct ((depth =? 1) && negb b && is_property_opener (trim line)) eqn:E.
  - apply andb_true_iff in E as [_ E]. destruct (collect_property_split line rest) as [Es (r & Er)].
    destruct (collect_property line rest) as [prop rest']. cbn [fst snd] in *. destruct (brace_deltas prop b) as [delta b'].
    rewrite Es. replace (mjoin run ++ prop ++ rest') with (mjoin (run ++ [prop]) ++ rest')
      by (rewrite join_app, <- app_assoc; simpl; by rewrite app_nil_r).
    apply IH.
    + apply (f_equal (@length _)) in Es. rewrite length_app, Er in Es. simpl in Es. lia.
    + apply Forall_app. split; [done|]. constructor; [|constructor]. by exists line, r.
  - destruct (brace_delta line b) as [delta b']. apply rearranged_run; [done|]. apply rearranged_line.
    apply (IH rest _ _ []); [lia|constructor].
Qed.

Lemma mjoin_perm (l k : list (list str)) : l ≡ₚ k -> mjoin l ≡ₚ mjoin k.
Proof.
  induction 1 as [|x l k _ IH|x y l|l1 l2 l3 _ IH1 _ IH2]; [done| | |by rewrite IH1].
  - rewrite !mjoin_cons. by rewrite IH.
  - rewrite !mjoin_cons, !app_assoc. apply Permutation_app_tail, Permutation_app_comm.
Qed.

Lemma rearranged_perm a b : rearranged a b -> b ≡ₚ a.
Proof.
  induction 1 as [|line a b _ IH|run a b _ _ IH]; [done|by rewrite IH|]. rewrite IH. apply Permutation_app_tail.
  apply mjoin_perm, sort_run_perm.
Qed.

(** Sorting the properties of an object rearranges only its runs of
    properties, whole properties at a time: every other line keeps its place, no
    line is lost or made twice, and a run comes out in the order of the names of
    its properties, those of one name in the order they had. *)
Lemma sort_properties_stable lines run name :
  rearranged lines (sort_lines lines) /\ sort_lines lines ≡ₚ lines /\
  sort_run run ≡ₚ run /\ StronglySorted (cmp_le run_cmp) (sort_run run) /\
  List.filter (fun prop => str_eqb (run_key prop) name) (sort_run run) =
    List.filter (fun prop => str_eqb (run_key prop) name) run.
Proof.
  assert (rearranged lines (sort_lines lines)) as Hr by (apply (sort_loop_rearranged _ _ _ _ []); [done|constructor]).
  split_and!; [done|by apply rearranged_perm|apply sort_run_perm|apply sort_run_sorted|apply sort_run_stable].
Qed.


