(* ===== verification/Indent.v ===== *)
(** The main pass of the AL formatter, a state machine over the lines, and the
    whole formatter ([al-syntax/src/formatting/indent.rs], [casing.rs] and
    [range.rs]).

    The keyword ranges that the parser finds and the table of single-statement
    openers (a data file of the grammar) are parameters.  [None] is a panic. *)

From Stdlib Require Import ZArith Lia.
From stdpp Require Import base tactics numbers option list strings.
From S2P Require Import Prelude RustStr StrSearch Lexical TextLines Passes.

#[local] Open Scope Z_scope.

(** * Reading a line *)

Definition count_net_parens (line : str) : Z := count_net_delimiters line (ch "(") (ch ")").

Definition trim_end_char (c : char) : str -> str := trim_end_matches (fun x => x =? c).

Definition is_case_label_code (label_code : str) : bool :=
  ends_with (lit ":") label_code && negb (ends_with (lit "::") label_code)
  && negb (contains_char_outside_strings (trim_end_char (ch ":") label_code) [ch ";"])
  && (count_net_parens (trim_end_char (ch ":") label_code) =? 0)
  && negb (str_contains (lit ":=") label_code).

(** The next line that is neither blank nor a line comment. *)
Definition next_code_line (following : list str) : option str :=
  List.find (fun line => let t := trim line in match t with [] => false | _ => negb (starts_with (lit "//") t) end) following.

(** Leading spaces and tabs, in columns. *)
Fixpoint leading_columns (line : str) (tab : nat) : nat :=
  match line with
  | c :: line => if c =? 32 then S (leading_columns line tab) else if c =? 9 then (tab + leading_columns line tab)%nat else O
  | [] => O
  end.

Definition paren_depth_after (depth : Z) (code : str) : Z := Z.max (depth + count_net_parens code) 0.

Definition ends_with_any (suffixes : list string) (s : str) : bool := existsb (fun x => ends_with (lit x) s) suffixes.
Definition starts_with_any (prefixes : list string) (s : str) : bool := existsb (fun x => starts_with (lit x) s) prefixes.

Definition ends_with_then_or_do (code_lower : str) : bool :=
  let trimmed := trim_end code_lower in
  let trimmed := match strip_suffix (lit " begin") trimmed with Some s => trim_end s | None => trimmed end in
  str_is trimmed "then" || str_is trimmed "do"
  || ends_with_any [" then"; " do"; ")then"; ")do"]%string trimmed.

Definition is_word_byte (c : char) : bool := is_ascii_alphanumeric c || (c =? ch "_").

(** The source walks over bytes and slices the text at each one outside quotes;
    inside a character of several bytes that panics.  The first byte of such a
    character is read before. *)
Fixpoint contains_word_from (word : str) (prev : option char) (in_string in_quoted_name : bool) (s : str) : option bool :=
  match s with
  | [] => Some false
  | b :: r =>
      if (b =? ch "'") && negb in_quoted_name then contains_word_from word (Some b) (negb in_string) in_quoted_name r
      else if (b =? 34) && negb in_string then contains_word_from word (Some b) in_string (negb in_quoted_name) r
      else if in_string || in_quoted_name then contains_word_from word (Some b) in_string in_quoted_name r
      else if starts_with word s
           && match prev with Some p => negb (is_word_byte p) | None => true end
           && match drop (length word) s with c :: _ => negb (is_word_byte c) | [] => true end
      then Some true
      else if 128 <=? b then None
      else contains_word_from word (Some b) in_string in_quoted_name r
  end.
Definition contains_word_outside_strings (code_lower : str) (word : string) : option bool :=
  contains_word_from (lit word) None false false code_lower.

Definition starts_wrapped_opener (code_lower : str) : option bool :=
  if starts_with_any ["if "; "if("; "while "; "while("; "for "; "with "; "foreach "]%string code_lower then
    has_then ← contains_word_outside_strings code_lower "then";
    if (has_then : bool) then Some false else negb <$> contains_word_outside_strings code_lower "do"
  else Some false.

Definition ends_with_operator (code_lower : str) : bool :=
  let t := trim_end code_lower in
  (ends_with_any ["+"; "-"; "*"; "/"; "="; "<"; ">"; "<>"; "<="; ">="; ":="]%string t && negb (ends_with (lit "::") t))
  || existsb (fun w => str_is t w || ends_with (lit " " ++ lit w) t)
       ["and"; "or"; "xor"; "not"; "in"; "div"; "mod"]%string.

Fixpoint take_while (p : char -> bool) (s : str) : str :=
  match s with c :: s => if p c then c :: take_while p s else [] | [] => [] end.

Definition is_ascii_alphabetic (c : char) : bool := ((65 <=? c) && (c <=? 90)) || ((97 <=? c) && (c <=? 122)).

Definition is_column_zero_directive (trimmed : str) : bool :=
  match strip_prefix (lit "#") trimmed with
  | None => false
  | Some rest =>
      let word := to_ascii_lowercase (take_while is_ascii_alphabetic rest) in
      existsb (str_is word) ["pragma"; "if"; "else"; "elif"; "endif"; "define"; "undef"]%string
  end.

(** Whether the line's [else] pairs with an earlier [if], and whether it opens
    an [if]. *)
Definition else_and_if (code_lower : str) : bool * bool :=
  let rest := match strip_prefix (lit "end ") code_lower with Some r => trim_start r | None => code_lower end in
  let '(pairs_else, rest) :=
    match strip_prefix (lit "else") rest with
    | Some after =>
        if match after with [] => true | _ => starts_with (lit " ") after end then (true, trim_start after) else (false, rest)
    | None => (false, rest)
    end in
  (pairs_else, str_is rest "if" || starts_with_any ["if "; "if("]%string rest).

(** * The state *)

Inductive BlockKind := Begin | Repeat.

#[export] Instance block_kind_eq_dec : EqDecision BlockKind.
Proof. solve_decision. Defined.

(** An opener ([if], [for], an [else], ...) whose statement has not ended. *)
Record Slot := { is_if : bool; in_else : bool }.

Record CaseFrame := {
  in_body : bool;
  begin_depth : Z;
  open_ifs : Z;
  after_bare_else : bool;
  else_block_open : bool;
}.
Definition default_frame : CaseFrame :=
  {| in_body := false; begin_depth := 0; open_ifs := 0; after_bare_else := false; else_block_open := false |}.

Definition set_in_body b f := {| in_body := b; begin_depth := begin_depth f; open_ifs := open_ifs f;
  after_bare_else := after_bare_else f; else_block_open := else_block_open f |}.
Definition set_begin_depth n f := {| in_body := in_body f; begin_depth := n; open_ifs := open_ifs f;
  after_bare_else := after_bare_else f; else_block_open := else_block_open f |}.
Definition set_open_ifs n f := {| in_body := in_body f; begin_depth := begin_depth f; open_ifs := n;
  after_bare_else := after_bare_else f; else_block_open := else_block_open f |}.
Definition set_after_bare_else b f := {| in_body := in_body f; begin_depth := begin_depth f; open_ifs := open_ifs f;
  after_bare_else := b; else_block_open := else_block_open f |}.
Definition set_else_block_open b f := {| in_body := in_body f; begin_depth := begin_depth f; open_ifs := open_ifs f;
  after_bare_else := after_bare_else f; else_block_open := b |}.

(** The local variables of [format_al]'s loop.  The vectors [slots],
    [case_stack] and [block_stack] hold the innermost entry first here. *)
Record IndentState := MkState {
  indent_level : Z;
  slots : list Slot;
  deferred_stmt : bool;
  in_var_section : bool;
  paren_depth : Z;
  in_property_continuation : bool;
  case_stack : list CaseFrame;
  block_stack : list (BlockKind * Z);
  pending_else : Z;
  anchor : nat * nat;
  prev_continues : bool;
  wrapped_opener_open : bool;
  in_comment : bool;
  prev_was_empty : bool;
}.

Definition initial_state : IndentState := MkState 0 [] false false 0 false [] [] 0 (O, O) false false false false.

Definition set_level v '(MkState _ b c d e f g h i j k l m n) := MkState v b c d e f g h i j k l m n.
Definition set_slots v '(MkState a _ c d e f g h i j k l m n) := MkState a v c d e f g h i j k l m n.
Definition set_deferred v '(MkState a b _ d e f g h i j k l m n) := MkState a b v d e f g h i j k l m n.
Definition set_var_section v '(MkState a b c _ e f g h i j k l m n) := MkState a b c v e f g h i j k l m n.
Definition set_paren_depth v '(MkState a b c d _ f g h i j k l m n) := MkState a b c d v f g h i j k l m n.
Definition set_continuation v '(MkState a b c d e _ g h i j k l m n) := MkState a b c d e v g h i j k l m n.
Definition set_case_stack v '(MkState a b c d e f _ h i j k l m n) := MkState a b c d e f v h i j k l m n.
Definition set_block_stack v '(MkState a b c d e f g _ i j k l m n) := MkState a b c d e f g v i j k l m n.
Definition set_pending_else v '(MkState a b c d e f g h _ j k l m n) := MkState a b c d e f g h v j k l m n.
Definition set_anchor v '(MkState a b c d e f g h i _ k l m n) := MkState a b c d e f g h i v k l m n.
Definition set_prev_continues v '(MkState a b c d e f g h i j _ l m n) := MkState a b c d e f g h i j v l m n.
Definition set_wrapped v '(MkState a b c d e f g h i j k _ m n) := MkState a b c d e f g h i j k v m n.
Definition set_in_comment v '(MkState a b c d e f g h i j k l _ n) := MkState a b c d e f g h i j k l v n.
Definition set_prev_empty v '(MkState a b c d e f g h i j k l m _) := MkState a b c d e f g h i j k l m v.

(** ** The moves the loop makes over and over *)

Definition slot_count (st : IndentState) : Z := Z.of_nat (length (slots st)).
Definition indent (st : IndentState) : IndentState := set_level (indent_level st + 1) st.
Definition dedent (n : Z) (st : IndentState) : IndentState := set_level (Z.max (indent_level st - n) 0) st.

(** All statements under the pending openers have ended. *)
Definition end_statements (st : IndentState) : IndentState := set_slots [] (dedent (slot_count st) st).
Definition drain (st : IndentState) : IndentState := match slots st with [] => st | _ => end_statements st end.

(** The slots that stay open when an [else] comes: those outside the innermost
    [if] without one. *)
Fixpoint keep_slots (l : list Slot) : list Slot :=
  match l with
  | [] => []
  | s :: l => if is_if s && negb (in_else s) then l else keep_slots l
  end.

Definition last_case (p : CaseFrame -> bool) (st : IndentState) : bool :=
  match case_stack st with fr :: _ => p fr | [] => false end.

(** [case_stack.last_mut().filter(p)], then [f]. *)
Definition update_case (p : CaseFrame -> bool) (f : CaseFrame -> CaseFrame) (st : IndentState) : IndentState :=
  match case_stack st with
  | fr :: frs => if p fr then set_case_stack (f fr :: frs) st else st
  | [] => st
  end.

(** * One line *)

(** What the loop knows of the line: [comment_start] says that a block comment
    was open before it. *)
Record Line := {
  raw : str;
  code : str;
  code_lower : str;
  comment_start : bool;
  continuation : bool;
  wrapped_close : bool;
}.

Definition is_nil {A} (l : list A) : bool := match l with [] => true | _ => false end.

Definition is_else_code (lower : str) : bool := str_is lower "else" || starts_with (lit "else ") lower.
Definition starts_else (ln : Line) : bool := is_else_code (code_lower ln).
Definition is_begin (ln : Line) : bool := str_is (code_lower ln) "begin".
Definition ends_begin (ln : Line) : bool := ends_with (lit " begin") (code_lower ln).
Definition begins (ln : Line) : bool := is_begin ln || ends_begin ln.
Definition is_close (ln : Line) : bool :=
  existsb (str_is (code_lower ln)) ["}"; "end;"; "end"]%string || starts_with_any ["end;"; "end "]%string (code_lower ln).
Definition is_until (ln : Line) : bool := starts_with (lit "until ") (code_lower ln) || str_is (code_lower ln) "until".
Definition opens_case (ln : Line) : bool := starts_with (lit "case ") (code_lower ln) && ends_with (lit " of") (code_lower ln).
Definition has_code (ln : Line) : bool := negb (is_nil (code ln)).
Definition starts_if (lower : str) : bool := starts_with_any ["if "; "if("]%string lower.
Definition at_branch (fr : CaseFrame) : bool := (begin_depth fr =? 0) && (open_ifs fr =? 0).

Section line.
Context {U : Unicode} (options : FormatOptions) (single_stmt_openers : list (str * str)).

Definition is_single_statement_opener (lower : str) : bool :=
  existsb (fun o => starts_with (fst o) lower && ends_with (snd o) lower) single_stmt_openers.

Definition opener_with_begin (lower : str) : bool :=
  match strip_suffix (lit " begin") lower with Some s => is_single_statement_opener s | None => false end.

Definition read_line (st : IndentState) (line code : str) (comment_start : bool) : Line :=
  let lower := str_lower code in
  let continuation := negb comment_start && negb (is_nil code)
    && ((0 <? paren_depth st) || starts_with (lit ".") code || prev_continues st || wrapped_opener_open st) in
  {| raw := line; code := code; code_lower := lower; comment_start := comment_start; continuation := continuation;
     wrapped_close := continuation && wrapped_opener_open st && ends_with_then_or_do lower && (paren_depth st =? 0) |}.

(** ** Before the line is printed *)

Definition release_deferred (ln : Line) (st : IndentState) : IndentState :=
  let st :=
    if deferred_stmt st && has_code ln && negb (continuation ln)
    then set_deferred false (if starts_else ln then st else end_statements st) else st in
  if (0 <? pending_else st) && negb (starts_else ln) then set_pending_else 0 (dedent (pending_else st) st) else st.

Definition is_member_start (ln : Line) : bool :=
  starts_with (lit "[") (code ln)
  || starts_with_any ["procedure "; "local "; "internal "; "protected "; "trigger "]%string (code_lower ln).

Definition close_var_section (ln : Line) (st : IndentState) : IndentState :=
  if in_var_section st && begins ln then set_var_section false (dedent 1 st)
  else if in_var_section st && is_member_start ln then set_var_section false (dedent 1 st)
  else st.

(** A [begin] on the line after the bare [else] of a [case]. *)
Definition case_else_begin (ln : Line) (st : IndentState) : IndentState :=
  if has_code ln && last_case after_bare_else st then
    let opens := is_begin ln && last_case in_body st in
    let st := update_case after_bare_else (set_after_bare_else false) st in
    if opens then update_case in_body (set_else_block_open true) (dedent 1 st) else st
  else st.

Definition begin_drains (ln : Line) (st : IndentState) : IndentState :=
  if negb (is_nil (slots st)) && begins ln && negb (opener_with_begin (code_lower ln)) && negb (wrapped_close ln)
  then end_statements st else st.

Definition is_case_label (ln : Line) (st : IndentState) : bool :=
  negb (is_nil (case_stack st)) && is_case_label_code (code ln).

Definition close_branch (st : IndentState) : IndentState := update_case in_body (set_in_body false) (dedent 1 st).

Definition case_label (ln : Line) (st : IndentState) : IndentState :=
  if is_case_label ln st && last_case in_body st then close_branch (drain st) else st.

Definition is_case_else (ln : Line) (st : IndentState) : bool := starts_else ln && last_case at_branch st.

Definition case_else (ln : Line) (st : IndentState) : IndentState :=
  if is_case_else ln st then
    let st := set_pending_else 0 (set_slots [] (dedent (slot_count st + pending_else st) st)) in
    if last_case in_body st then close_branch st else st
  else st.

(** The bool says that the block after a bare [else] of a [case] closes. *)
Definition close_case (ln : Line) (st : IndentState) : IndentState * bool :=
  match case_stack st with
  | [] => (st, false)
  | fr :: frs =>
      if 0 <? begin_depth fr then
        let fr := set_begin_depth (begin_depth fr - 1) fr in
        if (begin_depth fr =? 0) && else_block_open fr
        then (set_case_stack (set_else_block_open false fr :: frs) st, true)
        else (set_case_stack (fr :: frs) st, false)
      else if in_body fr then (set_case_stack frs (dedent 1 st), false)
      else if negb (str_is (code_lower ln) "}") then (set_case_stack frs st, false)
      else (st, false)
  end.

Definition close_block (ln : Line) (st : IndentState) : IndentState * bool :=
  if is_close ln then
    let st := drain st in
    let st := if in_var_section st then set_var_section false (dedent 1 st) else st in
    let '(st, resume_else_body) := close_case ln st in (dedent 1 st, resume_else_body)
  else (st, false).

Definition pair_else (ln : Line) (st : IndentState) : IndentState :=
  if negb (is_close ln) && starts_else ln && negb (is_nil (slots st)) then
    let kept := keep_slots (slots st) in
    set_slots kept (dedent (slot_count st - Z.of_nat (length kept)) st)
  else st.

Definition close_until (ln : Line) (st : IndentState) : IndentState :=
  if is_until ln then dedent 1 (drain st) else st.

(** What the first half of the step leaves for the second. *)
Record Marks := { case_frames_at_start : nat; label : bool; branch_else : bool; resume_else_body : bool }.

Definition adjust (ln : Line) (st : IndentState) : IndentState * Marks :=
  let st := begin_drains ln (case_else_begin ln (close_var_section ln (release_deferred ln st))) in
  let frames := length (case_stack st) in
  let is_label := is_case_label ln st in
  let st := case_label ln st in
  let is_else := is_case_else ln st in
  let '(st, resume) := close_block ln (case_else ln st) in
  (close_until ln (pair_else ln st),
   {| case_frames_at_start := frames; label := is_label; branch_else := is_else; resume_else_body := resume |}).

(** ** The columns the line is printed at *)

Definition chain_follows (ln : Line) (following : list str) : bool :=
  is_nil (code ln) && negb (comment_start ln)
  && match next_code_line following with Some next => starts_with (lit ".") (trim_start next) | None => false end.

(** A comment goes with the line of code below it. *)
Definition comment_level (ln : Line) (following : list str) (st : IndentState) : option Z :=
  if is_nil (code ln) && negb (comment_start ln) then
    next ← next_code_line following;
    let next_code := (strip_comments (trim next) false).1 in
    let next_lower := str_lower next_code in
    let next_is_else := is_else_code next_lower in
    let case_else := next_is_else && last_case at_branch st in
    let case_end := (str_is next_lower "end" || str_is next_lower "end;")
      && last_case (fun fr => in_body fr && (begin_depth fr =? 0)) st in
    if case_end then Some (indent_level st - slot_count st - 2)
    else if last_case in_body st && (case_else || (negb (is_nil (case_stack st)) && is_case_label_code next_code))
    then Some (indent_level st - slot_count st - 1)
    else if next_is_else && negb (is_nil (slots st)) && (pending_else st =? 0)
    then Some (indent_level st - (slot_count st - Z.of_nat (length (keep_slots (slots st)))))
    else None
  else None.

Definition moved (st : IndentState) (old : nat) : nat :=
  Z.to_nat (Z.max (Z.of_nat (snd (anchor st)) + Z.of_nat old - Z.of_nat (fst (anchor st))) 0).

Definition print_columns (ln : Line) (following : list str) (st : IndentState) : nat :=
  match comment_level ln following st with
  | Some level => (Z.to_nat (Z.max level 0) * tab_size options)%nat
  | None =>
      if continuation ln then moved st (leading_columns (raw ln) (tab_size options))
      else if is_nil (code ln) && negb (comment_start ln)
              && ((0 <? paren_depth st) || prev_continues st || wrapped_opener_open st || chain_follows ln following)
      then moved st (match next_code_line following with
                     | Some next => leading_columns next (tab_size options)
                     | None => fst (anchor st) end)
      else (Z.to_nat (Z.max (indent_level st) 0) * tab_size options)%nat
  end.

Definition indentation (cols : nat) : str :=
  if insert_spaces options then replicate cols 32
  else replicate (cols / Nat.max (tab_size options) 1) 9 ++ replicate (cols mod Nat.max (tab_size options) 1) 32.

Definition output_line (ln : Line) (cols : nat) : str :=
  if comment_start ln then trim_end (raw ln) else indentation cols ++ trim (raw ln).

Definition move_anchor (ln : Line) (cols : nat) (st : IndentState) : IndentState :=
  if negb (continuation ln) && has_code ln && negb (comment_start ln)
  then set_anchor (leading_columns (raw ln) (tab_size options), cols) st else st.

(** ** After the line is printed *)

Definition open_header (ln : Line) (st : IndentState) : option IndentState :=
  if has_code ln then
    wrapped ← (if wrapped_close ln then Some false
               else if negb (continuation ln) && negb (wrapped_opener_open st) then
                 opens ← starts_wrapped_opener (code_lower ln);
                 Some (opens && (paren_depth_after (paren_depth st) (code ln) =? 0))
               else Some (wrapped_opener_open st));
    Some (set_prev_continues (ends_with_operator (code_lower ln)) (set_wrapped wrapped st))
  else Some st.

Definition count_ifs (ln : Line) (m : Marks) (st : IndentState) : IndentState :=
  if (length (case_stack st) =? case_frames_at_start m)%nat then
    let '(pairs_else, opens_if) := else_and_if (code_lower ln) in
    update_case (fun fr => begin_depth fr =? 0)
      (fun fr =>
         let fr := if (pairs_else : bool) then set_open_ifs (Z.max (open_ifs fr - 1) 0) fr else fr in
         if (opens_if : bool) then set_open_ifs (open_ifs fr + 1) fr else fr) st
  else st.

Definition count_parens (ln : Line) (st : IndentState) : IndentState :=
  let net_parens := count_net_parens (code ln) in
  if (0 <? net_parens) && (paren_depth st =? 0) then set_paren_depth (paren_depth st + net_parens) (indent st)
  else if 0 <? net_parens then set_paren_depth (paren_depth st + net_parens) st
  else if net_parens <? 0 then
    let new := Z.max (paren_depth st + net_parens) 0 in
    let st' := set_paren_depth new st in
    if (0 <? paren_depth st) && (new =? 0) then dedent 1 st' else st'
  else st.

Definition property_continuation (ln : Line) (st : IndentState) : IndentState :=
  if in_property_continuation st && (ends_with (lit ";") (code ln) || is_close ln)
  then set_continuation false (dedent 1 st)
  else if negb (in_property_continuation st) && has_code ln && ends_with (lit ",") (code ln)
  then set_continuation true (indent st)
  else st.

Definition is_block_opener (ln : Line) : bool :=
  ends_with (lit "{") (code ln) || begins ln || str_is (code_lower ln) "var" || str_is (code_lower ln) "repeat" || opens_case ln.

Definition is_single_stmt_opener (ln : Line) : bool := is_single_statement_opener (code_lower ln) || wrapped_close ln.

(** A statement line uses up the pending slots; without a [;] an [else] may
    still come. *)
Definition use_slots (ln : Line) (m : Marks) (st : IndentState) : IndentState :=
  if negb (is_nil (slots st)) && negb (is_block_opener ln) && negb (is_close ln) && has_code ln
     && negb (is_single_stmt_opener ln) && negb (label m) && negb (starts_else ln)
     && negb (prev_continues st) && negb (wrapped_opener_open st)
  then
    if ends_with (lit ";") (code ln) then end_statements st
    else if negb (continuation ln) then set_deferred true st
    else st
  else st.

(** The closed block gives back the slots it took; the number is what a block
    that opens on the same line takes over. *)
Definition pop_block (ln : Line) (st : IndentState) : IndentState * Z :=
  if (is_close ln && negb (str_is (code_lower ln) "}")) || is_until ln then
    match block_stack st with
    | (kind, saved) :: blocks =>
        if bool_decide (kind = if is_until ln then Repeat else Begin) then
          let st := set_block_stack blocks st in
          if 0 <? saved then
            if is_until ln || ends_with (lit ";") (code_lower ln) then (dedent saved st, 0)
            else if ends_begin ln then (st, saved)
            else (set_pending_else saved st, 0)
          else (st, 0)
        else (st, 0)
    | [] => (st, 0)
    end
  else (st, 0).

Definition push_block (ln : Line) (carried : Z) (st : IndentState) : IndentState :=
  if begins ln || str_is (code_lower ln) "repeat" || opens_case ln then
    let saved := carried + slot_count st in
    let st := set_slots [] st in
    let '(saved, st) := if starts_else ln then (saved + pending_else st, set_pending_else 0 st) else (saved, st) in
    set_block_stack ((if str_is (code_lower ln) "repeat" then Repeat else Begin, saved) :: block_stack st) st
  else st.

(** The slots of the [if]s whose block closed, and that of the new [else]. *)
Definition push_else (in_else : bool) (st : IndentState) : IndentState :=
  set_pending_else 0
    (set_slots ({| is_if := true; in_else := in_else |}
                :: replicate (Z.to_nat (pending_else st)) {| is_if := true; in_else := false |} ++ slots st) st).

Definition end_else (ln : Line) (st : IndentState) : IndentState :=
  if is_close ln && negb (ends_begin ln) then
    let after_end := match strip_prefix (lit "end") (code_lower ln) with Some r => trim_start r | None => [] end in
    let bare_else := str_is after_end "else" in
    if bare_else || starts_with_any ["else if "; "else if("]%string after_end
    then push_else bare_else (indent st) else st
  else st.

Definition else_if (lower : str) : bool :=
  match strip_prefix (lit "else") lower with Some r => starts_if (trim_start r) | None => false end.

Definition open_block (ln : Line) (m : Marks) (st : IndentState) : IndentState :=
  if ends_with (lit "{") (code ln) then indent st
  else if begins ln then update_case (fun _ => true) (fun fr => set_begin_depth (begin_depth fr + 1) fr) (indent st)
  else if str_is (code_lower ln) "var" then set_var_section true (indent st)
  else if str_is (code_lower ln) "repeat" then indent st
  else if starts_else ln then
    if ends_begin ln then st
    else
      let st := indent st in
      if negb (is_nil (case_stack st)) && branch_else m && str_is (code_lower ln) "else"
      then update_case (fun _ => true) (fun fr => set_after_bare_else true (set_in_body true fr)) st
      else push_else (negb (else_if (code_lower ln))) st
  else if opens_case ln then set_case_stack (default_frame :: case_stack st) (indent st)
  else st.

Definition open_label (m : Marks) (st : IndentState) : IndentState :=
  if label m then update_case (fun _ => true) (fun fr => set_open_ifs 0 (set_in_body true fr)) (indent st) else st.

Definition open_statement (ln : Line) (st : IndentState) : IndentState :=
  if is_single_stmt_opener ln && negb (ends_begin ln) then
    let st := indent st in
    set_slots ({| is_if := starts_if (code_lower ln); in_else := false |} :: slots st) st
  else st.

Definition end_branch_statement (ln : Line) (st : IndentState) : IndentState :=
  if ends_with (lit ";") (code ln) then update_case (fun fr => begin_depth fr =? 0) (set_open_ifs 0) st else st.

Definition advance (ln : Line) (m : Marks) (st : IndentState) : option IndentState :=
  st ← open_header ln st;
  let st := count_ifs ln m st in
  let st := if resume_else_body m then indent st else st in
  let st := count_parens ln st in
  if 0 <? paren_depth st then Some st
  else
    let '(st, carried) := pop_block ln (use_slots ln m (property_continuation ln st)) in
    let st := open_block ln m (end_else ln (push_block ln carried st)) in
    Some (end_branch_statement ln (open_statement ln (open_label m st))).

(** * The loop *)

(** The line that is printed, if there is one, and the next state. *)
Definition format_line (collapse_blank_runs : bool) (line : str) (following : list str) (st : IndentState)
  : option (option str * IndentState) :=
  let started := in_comment st in
  let trimmed := trim line in
  let '(carried, still_open) := strip_comments trimmed true in
  let st := if started then set_in_comment still_open st else st in
  if started && is_nil carried then Some (Some (trim_end line), set_prev_empty false st)
  else if is_nil trimmed then
    if collapse_blank_runs && prev_was_empty st then Some (None, st)
    else Some (Some [], set_deferred false (drain (set_prev_empty true st)))
  else
    let st := set_prev_empty false st in
    if negb started && is_column_zero_directive trimmed then Some (Some trimmed, st)
    else
      let '(code, st) :=
        if started then (carried, st)
        else let '(code, opens) := strip_comments trimmed false in (code, set_in_comment opens st) in
      let ln := read_line st line code started in
      let '(st, m) := adjust ln st in
      let cols := print_columns ln following st in
      st ← advance ln m (move_anchor ln cols st);
      Some (Some (output_line ln cols), st).

Fixpoint format_lines (collapse_blank_runs : bool) (lines : list str) (st : IndentState) : option (list str) :=
  match lines with
  | [] => Some []
  | line :: lines =>
      '(out, st) ← format_line collapse_blank_runs line lines st;
      outs ← format_lines collapse_blank_runs lines st;
      Some (option_list out ++ outs)
  end.
End line.
