(* ===== verification/IndentSpec.v ===== *)
(** The main pass of the formatter never fails on ASCII lines, keeps its
    counters from going negative, and prints every line with the text it had. *)

From Stdlib Require Import ZArith Lia.
From stdpp Require Import base tactics numbers option list strings.
From S2P Require Import Prelude RustStr StrSearch Lexical TextLines Passes PassSpec Indent.

#[local] Open Scope Z_scope.

(** * The state stays well formed *)

Definition wf_frame (fr : CaseFrame) : Prop := 0 <= begin_depth fr /\ 0 <= open_ifs fr.

Definition wf (st : IndentState) : Prop :=
  0 <= indent_level st /\ 0 <= paren_depth st /\ 0 <= pending_else st /\
  Forall (fun b => 0 <= snd b) (block_stack st) /\ Forall wf_frame (case_stack st).

Section setters.
Context (st : IndentState) (W : wf st).
Lemma wf_level v : 0 <= v -> wf (set_level v st). Proof. destruct st; unfold wf in *; cbn in *; tauto. Qed.
Lemma wf_slots v : wf (set_slots v st). Proof. by destruct st. Qed.
Lemma wf_deferred v : wf (set_deferred v st). Proof. by destruct st. Qed.
Lemma wf_var v : wf (set_var_section v st). Proof. by destruct st. Qed.
Lemma wf_paren v : 0 <= v -> wf (set_paren_depth v st). Proof. destruct st; unfold wf in *; cbn in *; tauto. Qed.
Lemma wf_continuation v : wf (set_continuation v st). Proof. by destruct st. Qed.
Lemma wf_case v : Forall wf_frame v -> wf (set_case_stack v st). Proof. destruct st; unfold wf in *; cbn in *; tauto. Qed.
Lemma wf_block v : Forall (fun b => 0 <= snd b) v -> wf (set_block_stack v st).
Proof. destruct st; unfold wf in *; cbn in *; tauto. Qed.
Lemma wf_pending v : 0 <= v -> wf (set_pending_else v st). Proof. destruct st; unfold wf in *; cbn in *; tauto. Qed.
Lemma wf_anchor v : wf (set_anchor v st). Proof. by destruct st. Qed.
Lemma wf_prev_continues v : wf (set_prev_continues v st). Proof. by destruct st. Qed.
Lemma wf_wrapped v : wf (set_wrapped v st). Proof. by destruct st. Qed.
Lemma wf_comment v : wf (set_in_comment v st). Proof. by destruct st. Qed.
Lemma wf_empty v : wf (set_prev_empty v st). Proof. by destruct st. Qed.
Lemma wf_case_stack : Forall wf_frame (case_stack st). Proof. by destruct W as (_ & _ & _ & _ & ?). Qed.
Lemma wf_block_stack : Forall (fun b => 0 <= snd b) (block_stack st). Proof. by destruct W as (_ & _ & _ & ? & _). Qed.
Lemma wf_pending_pos : 0 <= pending_else st. Proof. by destruct W as (_ & _ & ? & _). Qed.
Lemma wf_level_pos : 0 <= indent_level st. Proof. by destruct W. Qed.
Lemma wf_paren_pos : 0 <= paren_depth st. Proof. by destruct W as (_ & ? & _). Qed.
End setters.

Create HintDb wf.
#[export] Hint Resolve wf_level wf_slots wf_deferred wf_var wf_paren wf_continuation wf_case wf_block wf_pending wf_anchor
  wf_prev_continues wf_wrapped wf_comment wf_empty wf_case_stack wf_block_stack wf_pending_pos wf_paren_pos : wf.

Lemma wf_dedent n st : wf st -> wf (dedent n st).
Proof. intros W. apply wf_level; [done|lia]. Qed.
Lemma wf_indent st : wf st -> wf (indent st).
Proof. intros W. apply wf_level; [done|]. pose proof (wf_level_pos st W). lia. Qed.
#[export] Hint Resolve wf_dedent wf_indent : wf.

Lemma wf_end_statements st : wf st -> wf (end_statements st).
Proof. intros W. unfold end_statements. auto with wf. Qed.
#[export] Hint Resolve wf_end_statements : wf.

Lemma wf_drain st : wf st -> wf (drain st).
Proof. intros W. unfold drain. case_match; auto with wf. Qed.
#[export] Hint Resolve wf_drain : wf.

Lemma wf_update_case p f st : (forall fr, wf_frame fr -> wf_frame (f fr)) -> wf st -> wf (update_case p f st).
Proof.
  intros Hf W. unfold update_case. pose proof (wf_case_stack st W) as F. destruct (case_stack st) as [|fr frs]; [done|].
  apply Forall_cons in F as [F1 F2]. destruct (p fr); [|done]. apply wf_case; [done|]. constructor; auto.
Qed.
#[export] Hint Resolve wf_update_case : wf.

Lemma wf_frame_max fr n : wf_frame fr -> wf_frame (set_open_ifs (Z.max (open_ifs fr - n) 0) fr).
Proof. unfold wf_frame. cbn. lia. Qed.
Lemma wf_frame_ifs fr n : 0 <= n -> wf_frame fr -> wf_frame (set_open_ifs n fr).
Proof. unfold wf_frame. cbn. lia. Qed.

#[local] Ltac phase := repeat case_match; simplify_eq; cbn [fst snd]; auto 10 with wf.
#[local] Ltac frames := intros fr [? ?]; split; cbn; lia.

Section phases.
Context {U : Unicode} (openers : list (str * str)).

Lemma wf_release_deferred ln st : wf st -> wf (release_deferred ln st).
Proof. intros W. unfold release_deferred. phase; apply wf_pending; auto with wf; lia. Qed.

Lemma wf_close_var_section ln st : wf st -> wf (close_var_section ln st).
Proof. intros W. unfold close_var_section. phase. Qed.

Lemma wf_case_else_begin ln st : wf st -> wf (case_else_begin ln st).
Proof.
  intros W. unfold case_else_begin. repeat case_match; [|by apply wf_update_case; [frames|]|done].
  apply wf_update_case; [frames|]. apply wf_dedent, wf_update_case; [frames|done].
Qed.

Lemma wf_begin_drains ln st : wf st -> wf (begin_drains openers ln st).
Proof. intros W. unfold begin_drains. phase. Qed.

Lemma wf_close_branch st : wf st -> wf (close_branch st).
Proof. intros W. apply wf_update_case; [frames|auto with wf]. Qed.
#[local] Hint Resolve wf_close_branch : wf.

Lemma wf_case_label ln st : wf st -> wf (case_label ln st).
Proof. intros W. unfold case_label. phase. Qed.

Lemma wf_case_else ln st : wf st -> wf (case_else ln st).
Proof.
  intros W. unfold case_else. destruct (is_case_else ln st); [|done]. cbv zeta.
  assert (wf (set_pending_else 0 (set_slots [] (dedent (slot_count st + pending_else st) st)))) by (apply wf_pending; auto with wf; lia).
  phase.
Qed.

Lemma wf_close_case ln st : wf st -> wf (close_case ln st).1.
Proof.
  intros W. unfold close_case. pose proof (wf_case_stack st W) as F. destruct (case_stack st) as [|fr frs]; [done|].
  apply Forall_cons in F as [F1 F2]. destruct (0 <? begin_depth fr) eqn:E; [apply Z.ltb_lt in E|phase].
  assert (wf_frame (set_begin_depth (begin_depth fr - 1) fr)) as F' by (unfold wf_frame in *; cbn; lia).
  cbv zeta. case_match; apply wf_case; auto; constructor; auto.
Qed.

Lemma wf_close_block ln st : wf st -> wf (close_block ln st).1.
Proof.
  intros W. unfold close_block. destruct (is_close ln); [|done]. cbv zeta.
  set (st' := if _ : bool then _ else _). assert (wf st') as W' by (unfold st'; case_match; auto with wf).
  pose proof (wf_close_case ln st' W'). destruct (close_case ln st'); cbn in *; auto with wf.
Qed.

Lemma wf_pair_else ln st : wf st -> wf (pair_else ln st).
Proof. intros W. unfold pair_else. phase. Qed.

Lemma wf_close_until ln st : wf st -> wf (close_until ln st).
Proof. intros W. unfold close_until. phase. Qed.

Lemma wf_adjust ln st : wf st -> wf (adjust openers ln st).1.
Proof.
  intros W. unfold adjust. cbv zeta.
  set (st' := begin_drains _ _ _). assert (wf st') as W' by (unfold st'; auto using wf_begin_drains, wf_case_else_begin, wf_close_var_section, wf_release_deferred).
  pose proof (wf_close_block ln (case_else ln (case_label ln st')) (wf_case_else _ _ (wf_case_label _ _ W'))) as H.
  destruct (close_block _ _) as [st1 r]. cbn in *. by apply wf_close_until, wf_pair_else.
Qed.

Lemma wf_move_anchor options ln cols st : wf st -> wf (move_anchor options ln cols st).
Proof. intros W. unfold move_anchor. phase. Qed.

Lemma wf_open_header ln st st' : wf st -> open_header ln st = Some st' -> wf st'.
Proof.
  intros W. unfold open_header. destruct (has_code ln); [|by intros [= <-]].
  intros (w & _ & H)%bind_Some. simplify_eq. auto with wf.
Qed.

Lemma wf_count_ifs ln m st : wf st -> wf (count_ifs ln m st).
Proof.
  intros W. unfold count_ifs. destruct (_ =? _)%nat; [|done]. destruct (else_and_if _) as [pe oi].
  apply wf_update_case; [|done]. intros fr [? ?]. destruct pe, oi; split; cbn; lia.
Qed.

Lemma wf_count_parens ln st : wf st -> wf (count_parens ln st).
Proof.
  intros W. pose proof (wf_paren_pos st W). unfold count_parens. cbv zeta.
  destruct (0 <? count_net_parens (code ln)) eqn:E1; cbn [andb]; [apply Z.ltb_lt in E1|].
  - case_match; apply wf_paren; auto with wf; lia.
  - destruct (count_net_parens (code ln) <? 0); [|done].
    assert (wf (set_paren_depth (Z.max (paren_depth st + count_net_parens (code ln)) 0) st)) by (apply wf_paren; [done|lia]).
    phase.
Qed.

Lemma wf_property_continuation ln st : wf st -> wf (property_continuation ln st).
Proof. intros W. unfold property_continuation. phase. Qed.

Lemma wf_use_slots ln m st : wf st -> wf (use_slots openers ln m st).
Proof. intros W. unfold use_slots. phase. Qed.

Lemma wf_pop_block ln st : wf st -> wf (pop_block ln st).1 /\ 0 <= (pop_block ln st).2.
Proof.
  intros W. unfold pop_block. pose proof (wf_block_stack st W) as F.
  destruct (_ || _); [|done]. destruct (block_stack st) as [|[kind saved] blocks]; [done|].
  apply Forall_cons in F as [F1 F2]. cbn in F1. cbv zeta. assert (wf (set_block_stack blocks st)) as W' by auto with wf.
  repeat case_match; split; cbn; auto with wf; lia.
Qed.

Lemma wf_push_block ln n st : 0 <= n -> wf st -> wf (push_block ln n st).
Proof.
  intros Hn W. unfold push_block. destruct (_ || _); [|done]. cbv zeta.
  assert (wf (set_slots [] st)) as W' by auto with wf. pose proof (wf_pending_pos _ W') as P.
  assert (0 <= n + slot_count st) as H by (unfold slot_count; lia).
  destruct (starts_else ln); [|apply wf_block; [done|constructor; [done|by apply wf_block_stack]]].
  assert (wf (set_pending_else 0 (set_slots [] st))) as W2 by (apply wf_pending; [done|lia]).
  apply wf_block; [done|]. constructor; [cbn [snd]; lia|by apply wf_block_stack].
Qed.

Lemma wf_push_else b st : wf st -> wf (push_else b st).
Proof. intros W. unfold push_else. apply wf_pending; [|lia]. auto with wf. Qed.
#[local] Hint Resolve wf_push_else : wf.

Lemma wf_end_else ln st : wf st -> wf (end_else ln st).
Proof. intros W. unfold end_else. phase. Qed.

Lemma wf_open_block ln m st : wf st -> wf (open_block ln m st).
Proof.
  intros W. unfold open_block. pose proof (wf_indent st W) as W'. repeat case_match; auto with wf.
  all: try (apply wf_update_case; [frames|done]).
  apply wf_case; [done|]. constructor; [done|]. by apply wf_case_stack.
Qed.

Lemma wf_open_label m st : wf st -> wf (open_label m st).
Proof. intros W. unfold open_label. case_match; [|done]. apply wf_update_case; [frames|auto with wf]. Qed.

Lemma wf_open_statement ln st : wf st -> wf (open_statement openers ln st).
Proof. intros W. unfold open_statement. phase. Qed.

Lemma wf_end_branch_statement ln st : wf st -> wf (end_branch_statement ln st).
Proof. intros W. unfold end_branch_statement. case_match; [|done]. apply wf_update_case; [frames|done]. Qed.

Lemma wf_advance ln m st st' : wf st -> advance openers ln m st = Some st' -> wf st'.
Proof.
  intros W. unfold advance. intros (st1 & H1 & H)%bind_Some. cbv zeta in H.
  pose proof (wf_count_ifs ln m _ (wf_open_header ln st st1 W H1)) as W1.
  assert (wf (if resume_else_body m then indent (count_ifs ln m st1) else count_ifs ln m st1)) as W2
    by (destruct (resume_else_body m); [by apply wf_indent|done]).
  pose proof (wf_count_parens ln _ W2) as W3. destruct (0 <? _) in H; [by simplify_eq|].
  pose proof (wf_pop_block ln _ (wf_use_slots ln m _ (wf_property_continuation ln _ W3))) as [P1 P2].
  destruct (pop_block _ _) as [st2 n]. cbn [fst snd] in *. simplify_eq.
  auto 12 using wf_end_branch_statement, wf_open_statement, wf_open_label, wf_open_block, wf_end_else, wf_push_block.
Qed.
End phases.

(** * Nothing fails on ASCII *)

Definition ascii_char (c : char) : Prop := 0 <= c < 128.
Abbreviation ascii := (Forall ascii_char).

Lemma contains_word_ascii word prev b1 b2 s : ascii s -> is_Some (contains_word_from word prev b1 b2 s).
Proof.
  intros H. revert prev b1 b2. induction H as [|c s Hc _ IH]; intros prev b1 b2; cbn [contains_word_from]; [done|].
  replace (128 <=? c) with false by (symmetry; apply Z.leb_gt; unfold ascii_char in Hc; lia).
  repeat case_match; try done; apply IH.
Qed.

Lemma starts_wrapped_ascii s : ascii s -> is_Some (starts_wrapped_opener s).
Proof.
  intros H. unfold starts_wrapped_opener, contains_word_outside_strings. case_match; [|done].
  destruct (contains_word_ascii (lit "then") None false false s H) as [b ->]. cbn [mbind option_bind].
  destruct b; [done|]. destruct (contains_word_ascii (lit "do") None false false s H) as [b ->]. done.
Qed.

Lemma ascii_lower s : ascii s -> ascii (to_ascii_lowercase s).
Proof.
  intros H. apply Forall_fmap. eapply Forall_impl; [exact H|]. unfold ascii_char, compose, char_ascii_lower. intros c Hc.
  destruct (_ && _) eqn:E; [|done]. apply andb_true_iff in E as [? ?]. lia.
Qed.

Lemma Forall_trim (P : char -> Prop) s : Forall P s -> Forall P (trim s).
Proof. rewrite !Forall_forall. intros H c Hc. by apply H, elem_trim_start, elem_trim_end. Qed.

Lemma strip_comments_ascii line b : ascii line -> ascii (strip_comments line b).1.
Proof.
  intros H. unfold strip_comments. destruct (scan_line line b) as [E _]. destruct (scan line b) as [sps o]. cbn [fst] in *.
  apply Forall_trim. rewrite <- E in H. clear E. induction sps as [|sp sps IH]; [constructor|].
  cbn [mbind list_bind]. rewrite fmap_cons, mjoin_cons in H. apply Forall_app in H as [H1 H2].
  apply Forall_app. split; [|by apply IH]. unfold uncommented. destruct (kind sp); [done|done|constructor|].
  apply Forall_app. split; case_match; repeat constructor; done.
Qed.

Section ascii.
Context {U : Unicode} `{UL : !UnicodeLaws U} (options : FormatOptions) (openers : list (str * str)).

Lemma advance_ascii ln m st : ascii (code_lower ln) -> is_Some (advance openers ln m st).
Proof.
  intros H. assert (is_Some (open_header ln st)) as [st1 E].
  { unfold open_header. destruct (has_code ln); [|done]. destruct (wrapped_close ln); [done|].
    destruct (_ && _); [|done]. by destruct (starts_wrapped_ascii _ H) as [b ->]. }
  unfold advance. rewrite E. cbn [mbind option_bind]. cbv zeta. case_match; [done|]. by destruct (pop_block _ _).
Qed.

End ascii.

(** * What is printed *)

Lemma trim_end_blank s v : blank v -> trim_end (s ++ v) = trim_end s.
Proof.
  intros Hv. unfold trim_end, trim_end_matches. rewrite reverse_app. f_equal. apply Forall_reverse in Hv.
  induction Hv as [|c w Hc _ IH]; [done|]. cbn [app trim_start_matches]. by rewrite Hc.
Qed.

Lemma trim_app_blank s v : blank v -> trim (s ++ v) = trim s.
Proof.
  intros Hv. destruct (trim_start_split is_whitespace s) as (a & E & Ha & Hc). fold (trim_start s) in E, Hc.
  rewrite E, <- app_assoc, !(trim_blank_app a) by done. destruct (trim_start s) as [|c r].
  { cbn [app]. rewrite <- (app_nil_r v). by rewrite (trim_blank_app v []). }
  specialize (Hc c r eq_refl). change (trim ?x) with (trim_end (trim_start x)). cbn [app]. unfold trim_start.
  cbn [trim_start_matches]. rewrite Hc.
  by apply (trim_end_blank (c :: r) v).
Qed.

Lemma trim_trim_end s : trim (trim_end s) = trim s.
Proof.
  destruct (trim_end_split is_whitespace s) as (b & E & Hb & _). fold (trim_end s) in E. rewrite E at 2. by rewrite trim_app_blank.
Qed.

Lemma indentation_blank options n : blank (indentation options n).
Proof. unfold indentation. case_match; [|apply Forall_app; split]; by apply Forall_replicate. Qed.

Lemma indentation_clean options n : clean (indentation options n).
Proof.
  unfold indentation. case_match; [|apply clean_app; split]; split; rewrite elem_of_replicate; by intros [? _].
Qed.

(** The line that is printed has the text of the line that was read; only a
    blank line is left out. *)
Definition prints (collapse : bool) (line : str) (out : option str) : Prop :=
  match out with
  | Some printed => trim printed = trim line /\ words printed = words line /\ (clean line -> clean printed)
  | None => collapse = true /\ trim line = []
  end.

Lemma prints_trim_end collapse line : prints collapse line (Some (trim_end line)).
Proof.
  split_and!; [apply trim_trim_end|apply words_trim_end|]. apply clean_sub. intros c. apply elem_trim_end.
Qed.

Lemma prints_indented collapse line w : blank w -> clean w -> prints collapse line (Some (w ++ trim line)).
Proof.
  intros Hb Hc. split_and!; [by rewrite trim_blank_app, trim_trim|by rewrite words_blank_app, words_trim|].
  intros Hl. apply clean_app. split; [done|by apply clean_trim].
Qed.

Section line.
Context {U : Unicode} `{UL : !UnicodeLaws U} (options : FormatOptions) (openers : list (str * str)).

(** One line: the step returns, the state stays well formed, and the line is
    printed. *)
Lemma format_line_ok collapse line following st :
  ascii line -> wf st ->
  exists out st', format_line options openers collapse line following st = Some (out, st') /\ wf st' /\ prints collapse line out.
Proof.
  intros Ha W. unfold format_line. pose proof (strip_comments_ascii (trim line) true (Forall_trim _ _ Ha)) as A1.
  pose proof (strip_comments_ascii (trim line) false (Forall_trim _ _ Ha)) as A2.
  destruct (strip_comments (trim line) true) as [carried open1]. destruct (strip_comments (trim line) false) as [code2 open2].
  cbn [fst] in *. cbv zeta. set (st1 := if in_comment st then _ else st).
  assert (wf st1) as W1 by (unfold st1; case_match; auto with wf). clearbody st1.
  destruct (in_comment st && is_nil carried); [do 2 eexists; split_and!; [done|auto with wf|apply prints_trim_end]|].
  destruct (trim line) as [|c0 r0] eqn:Et; cbn [is_nil].
  { destruct collapse; cbn [andb]; [destruct (prev_was_empty st1)|].
    { by do 2 eexists. }
    all: do 2 eexists; split_and!; [done|auto with wf|]; cbn; rewrite <- (words_trim line), Et; split_and!; [done|done|intros _; apply clean_nil]. }
  rewrite <- Et in *. assert (wf (set_prev_empty false st1)) as W2 by auto with wf.
  destruct (negb (in_comment st) && _).
  { do 2 eexists. split_and!; [done|done|]. apply (prints_indented _ _ []); [constructor|apply clean_nil]. }
  set (cs := if in_comment st then _ else _). assert (wf cs.2 /\ ascii cs.1) as [W3 A3].
  { unfold cs. destruct (in_comment st); cbn; auto with wf. }
  destruct cs as [code st3]. cbn [fst snd] in *. set (ln := read_line st3 line code (in_comment st)).
  pose proof (wf_adjust openers ln st3 W3) as W4. destruct (adjust openers ln st3) as [st4 m]. cbn [fst] in W4.
  set (cols := print_columns _ _ _ _). destruct (advance_ascii openers ln m (move_anchor options ln cols st4)) as [st5 E5].
  { cbn. rewrite str_lower_ascii by done. by apply ascii_lower. }
  rewrite E5. cbn [mbind option_bind]. do 2 eexists. split_and!; [done| |].
  - eapply wf_advance; [|exact E5]. by apply wf_move_anchor.
  - unfold output_line. change (comment_start ln) with (in_comment st). change (raw ln) with line. destruct (in_comment st); [apply prints_trim_end|].
    apply prints_indented; [apply indentation_blank|apply indentation_clean].
Qed.

Lemma format_lines_ok collapse lines st :
  Forall ascii lines -> wf st ->
  exists outs, format_lines options openers collapse lines st = Some (mjoin (option_list <$> outs)) /\
    Forall2 (prints collapse) lines outs.
Proof.
  intros H. revert st. induction H as [|line lines Ha _ IH]; intros st W; [by exists []|]. cbn [format_lines].
  destruct (format_line_ok collapse line lines st Ha W) as (out & st' & E & W' & P). rewrite E. cbn [mbind option_bind].
  destruct (IH st' W') as (outs & E' & F). rewrite E'. cbn [mbind option_bind]. exists (out :: outs). split; [done|by constructor].
Qed.

(** The states the loop reaches on ASCII lines. *)
Inductive reachable (collapse : bool) : IndentState -> Prop :=
  | reachable_initial : reachable collapse initial_state
  | reachable_line line following out st st' :
      reachable collapse st -> ascii line -> format_line options openers collapse line following st = Some (out, st') ->
      reachable collapse st'.

(** C7: The indentation state machine is safe: from every state it reaches, it
    takes any next ASCII line without a panic, prints it with the text it had
    (only a blank line of a collapsed run is left out), and no counter of the
    state (level, open parentheses, suspended slots, open blocks and [if]s of a
    [case]) is ever negative. *)
Theorem indent_machine_safe collapse st line following :
  reachable collapse st -> ascii line ->
  wf st /\ exists out st', format_line options openers collapse line following st = Some (out, st') /\ wf st' /\
    prints collapse line out.
Proof.
  intros R H. assert (wf st) as W; [|split; [done|by apply format_line_ok]].
  clear H. induction R as [|l fs out s s' R IH Hl E]; [by repeat constructor|].
  destruct (format_line_ok collapse l fs s Hl IH) as (out' & s1 & E' & W & _). rewrite E in E'. by injection E' as -> ->.
Qed.
End line.

Lemma indent_machine_safe_witness :
  wf initial_state /\ exists out st',
    format_line (U := ascii_unicode) default_options [] false (lit "begin") [] initial_state = Some (out, st') /\ wf st' /\
    prints false (lit "begin") out.
Proof.
  apply (indent_machine_safe (U := ascii_unicode) (UL := ascii_unicode_laws) default_options [] false initial_state (lit "begin") []).
  - apply reachable_initial.
  - repeat (constructor; [vm_compute; split; congruence|]). constructor.
Defined.
