(* ===== verification/Formatter.v ===== *)
(** The whole AL formatter: keyword casing ([al-syntax/src/formatting/casing.rs]),
    [format_al] ([indent.rs]) and the formatting of a range of lines
    ([range.rs]), with the conversions between byte and UTF-16 columns of
    [lib.rs].

    The parser is not modelled: the byte ranges of the keywords it finds in a
    text are a parameter.  [None] is a panic. *)

From Stdlib Require Import ZArith Lia.
From stdpp Require Import base tactics numbers option list strings.
From S2P Require Import Prelude RustStr StrSearch Lexical TextLines Passes Indent.

#[local] Open Scope Z_scope.

(** * Columns *)

Fixpoint byte_col_loop (clamped byte_pos utf16 : Z) (line : str) : Z :=
  match line with
  | c :: line =>
      if clamped <=? byte_pos then utf16 else byte_col_loop clamped (byte_pos + len_utf8 c) (utf16 + len_utf16 c) line
  | [] => utf16
  end.
Definition byte_col_to_utf16_col (line : str) (byte_col : Z) : Z :=
  byte_col_loop (Z.min byte_col (str_len line)) 0 0 line.

Fixpoint utf16_col_loop (byte_idx remaining : Z) (line : str) : Z :=
  match line with
  | c :: line =>
      if remaining =? 0 then byte_idx
      else utf16_col_loop (byte_idx + len_utf8 c) (Z.max (remaining - len_utf16 c) 0) line
  | [] => byte_idx
  end.
Definition utf16_col_to_byte_offset (line : str) (utf16_col : Z) : Z := utf16_col_loop 0 utf16_col line.

(** * Slices at byte positions *)

(** [split_at_checked]: [None] inside a character or behind the end. *)
Fixpoint split_at (n : Z) (s : str) : option (str * str) :=
  if n =? 0 then Some ([], s)
  else match s with
       | c :: s => if len_utf8 c <=? n then '(a, b) ← split_at (n - len_utf8 c) s; Some (c :: a, b) else None
       | [] => None
       end.

(** [str::get(first..last)]. *)
Definition get (s : str) (first last : Z) : option str :=
  if (0 <=? first) && (first <=? last)
  then '(_, s) ← split_at first s; '(s, _) ← split_at (last - first) s; Some s
  else None.

Definition get_from (s : str) (first : Z) : option str := snd <$> split_at first s.

(** * Keyword casing *)

Definition is_ascii (s : str) : bool := forallb (fun c => c <? 128) s.

Definition fold_case (casing : KeywordCasing) (word : str) : str :=
  match casing with
  | CasingLower => to_ascii_lowercase word
  | CasingUpper => to_ascii_uppercase word
  | CasingPreserve => word
  end.

Fixpoint case_ranges (casing : KeywordCasing) (text : str) (ranges : list (Z * Z)) (last : Z) : option str :=
  match ranges with
  | [] => get_from text last
  | (first, stop) :: ranges =>
      match get text first stop with
      | Some word =>
          if is_ascii word then
            before ← get text last first;
            rest ← case_ranges casing text ranges stop;
            Some (before ++ fold_case casing word ++ rest)
          else case_ranges casing text ranges last
      | None => case_ranges casing text ranges last
      end
  end.

Section format.
Context {U : Unicode} (single_stmt_openers : list (str * str)) (keyword_ranges : str -> list (Z * Z)).

Definition apply_keyword_casing (text : str) (casing : KeywordCasing) : option str :=
  match casing with CasingPreserve => Some text | _ => case_ranges casing text (keyword_ranges text) 0 end.

(** * [format_al] *)

Definition collapse_blank_runs (options : FormatOptions) : bool :=
  match blank_lines_between_procedures options with BlanksPreserve => false | _ => true end.

(** The main pass, on the text with its properties sorted. *)
Definition indent_pass (options : FormatOptions) (text : str) : option str :=
  join_lines <$> format_lines options single_stmt_openers (collapse_blank_runs options) (str_lines text) initial_state.

Definition format_al (text : str) (options : FormatOptions) : option str :=
  let uses_crlf := str_contains [13; 10] text in
  result ← indent_pass options (sort_object_properties (apply_brace_style text options) options);
  result ← apply_keyword_casing
    (wrap_long_property_lines (normalize_blank_lines_between_procedures result options) options)
    (keyword_casing options);
  Some (if uses_crlf then str_replace [10] [13; 10] result else result).

(** * [format_range] *)

Record FormatTextEdit := {
  start_line : nat;
  start_character : Z;
  end_line : nat;
  end_character : Z;
  new_text : str;
}.

(** The walk over both line lists; [skip] lines come before the range and
    [remaining] up to its end. *)
Fixpoint extract_loop (skip remaining : nat) (collapse_blanks prev_orig_blank : bool) (orig fmt : list str) : list str :=
  match remaining, orig, fmt with
  | S remaining, o :: orig, f :: fmt' =>
      if collapse_blanks && is_empty_line o && prev_orig_blank
      then extract_loop (pred skip) remaining collapse_blanks prev_orig_blank orig fmt
      else match skip with O => [f] | S _ => [] end
           ++ extract_loop (pred skip) remaining collapse_blanks (is_empty_line o) orig fmt'
  | _, _, _ => []
  end.
Definition extract_formatted_region (orig fmt : list str) (first last : nat) (collapse_blanks : bool) : list str :=
  extract_loop first (S last) collapse_blanks false orig fmt.

Definition lines_between (lines : list str) (first last : nat) : list str := take (S last - first) (drop first lines).

(** The outer [None] is a panic, the inner one the source's [None]. *)
Definition format_range (text : str) (first last : nat) (options : FormatOptions) : option (option (list FormatTextEdit)) :=
  formatted_full ← format_al text options;
  let orig_lines := str_lines text in
  let fmt_lines := str_lines formatted_full in
  if (length orig_lines <=? first)%nat then Some None
  else
    let stop := Nat.min last (length orig_lines - 1) in
    if (stop <? first)%nat then Some None
    else
      let collapse := collapse_blank_runs options in
      let formatted_region := extract_formatted_region orig_lines fmt_lines first stop collapse in
      if bool_decide (formatted_region = lines_between orig_lines first stop) then Some (Some [])
      else
        let starts_in_collapsed_blank :=
          collapse && (0 <? first)%nat && is_empty_line (default [] (orig_lines !! first))
          && is_empty_line (default [] (orig_lines !! (first - 1)%nat)) in
        if starts_in_collapsed_blank then
          Some (Some [{| start_line := first; start_character := 0; end_line := S stop; end_character := 0;
                         new_text := join [10] formatted_region ++ (if is_nil formatted_region then [] else [10]) |}])
        else
          let end_is_last_line := (stop =? length orig_lines - 1)%nat in
          let end_char := match orig_lines !! stop with Some l => byte_col_to_utf16_col l (str_len l) | None => 0 end in
          Some (Some [{| start_line := first; start_character := 0; end_line := stop; end_character := end_char;
                         new_text := join [10] formatted_region
                           ++ (if negb end_is_last_line || ends_with [10] text then [10] else []) |}]).
End format.

(** * Small inputs *)

Definition if_then : list (str * str) := [(lit "if ", lit " then"); (lit "for ", lit " do"); (lit "while ", lit " do")].
Definition fmt (text : str) : option str :=
  format_al (U := ascii_unicode) if_then (fun _ => []) text default_options.

Example format_example :
  fmt (join_lines (lit <$> ["procedure F()"; "begin"; "if A then"; "B"; "else"; "C('{');"; "case X of"; "1: // one";
                            "D;"; "end;"; "end;"]%string)) =
  Some (join_lines (lit <$> ["procedure F()"; "begin"; "    if A then"; "        B"; "    else"; "        C('{');";
                             "    case X of"; "        1: // one"; "            D;"; "    end;"; "end;"]%string)).
Proof. vm_compute. reflexivity. Qed.

(** A header with a character of several bytes outside quotes panics. *)
Example format_panics : fmt (lit "if a") <> None /\ fmt (233 :: lit "if") <> None /\ fmt (lit "if " ++ [233]) = None.
Proof. vm_compute. split_and!; congruence. Qed.

(** Formatting the second line of this text replaces [fields] by the brace that
    moved down: the walk expects as many lines as before. *)
Example range_loses_code :
  format_range (U := ascii_unicode) if_then (fun _ => []) (join_lines (lit <$> ["table 1 T {"; "fields"; "}"]%string)) 1 1
    default_options =
  Some (Some [{| start_line := 1; start_character := 0; end_line := 1; end_character := 6; new_text := lit "{" ++ [10] |}]).
Proof. vm_compute. reflexivity. Qed.
