(* ===== verification/FormatSpec.v ===== *)
(** The formatter as a whole: columns convert back and forth, keyword casing
    changes only case, and [format_al] keeps the words of the program. *)

From Stdlib Require Import ZArith Lia.
From stdpp Require Import base tactics numbers option list strings.
From S2P Require Import Prelude RustStr StrSearch Lexical TextLines Passes PassSpec Indent IndentSpec Formatter.

#[local] Open Scope Z_scope.

(** * Columns *)

Lemma byte_col_loop_app a b pos utf16 : byte_col_loop (pos + str_len a) pos utf16 (a ++ b) = utf16 + utf16_len a.
Proof.
  revert pos utf16. induction a as [|c a IH]; intros pos utf16; cbn [app byte_col_loop str_len utf16_len foldr].
  - destruct b as [|d b]; cbn [byte_col_loop]; [lia|]. replace (pos + 0 <=? pos) with true by (symmetry; apply Z.leb_le; lia). lia.
  - pose proof (len_utf8_pos c). pose proof (str_len_nonneg a). fold (str_len a) (utf16_len a).
    replace (pos + (len_utf8 c + str_len a) <=? pos) with false by (symmetry; apply Z.leb_gt; lia).
    replace (pos + (len_utf8 c + str_len a)) with (pos + len_utf8 c + str_len a) by lia. rewrite IH. lia.
Qed.

Lemma utf16_col_loop_app a b idx : utf16_col_loop idx (utf16_len a) (a ++ b) = idx + str_len a.
Proof.
  revert idx. induction a as [|c a IH]; intros idx; cbn [app str_len utf16_len foldr].
  - destruct b; cbn; lia.
  - cbn [utf16_col_loop]. pose proof (len_utf16_pos c). pose proof (utf16_len_nonneg a). fold (str_len a) (utf16_len a).
    replace (len_utf16 c + utf16_len a =? 0) with false by (symmetry; apply Z.eqb_neq; lia).
    replace (Z.max (len_utf16 c + utf16_len a - len_utf16 c) 0) with (utf16_len a) by lia. rewrite IH. lia.
Qed.

Lemma utf16_col_loop_end line idx n : utf16_len line <= n -> utf16_col_loop idx n line = idx + str_len line.
Proof.
  revert idx n. induction line as [|c line IH]; intros idx n Hn; cbn [utf16_col_loop str_len foldr utf16_len] in *; [lia|].
  fold (str_len line) in *. fold (utf16_len line) in Hn. pose proof (len_utf16_pos c). pose proof (utf16_len_nonneg line).
  replace (n =? 0) with false by (symmetry; apply Z.eqb_neq; lia). rewrite IH by lia. lia.
Qed.

Lemma columns_at a b :
  byte_col_to_utf16_col (a ++ b) (str_len a) = utf16_len a /\ utf16_col_to_byte_offset (a ++ b) (utf16_len a) = str_len a.
Proof.
  pose proof (str_len_nonneg b). unfold byte_col_to_utf16_col, utf16_col_to_byte_offset. split.
  - rewrite str_len_app, Z.min_l by lia. apply (byte_col_loop_app a b 0 0).
  - apply (utf16_col_loop_app a b 0).
Qed.

(** The byte column of every character boundary of a line becomes the
    UTF-16 column of the same place and comes back; both conversions clamp a
    column behind the end of the line to its end. *)
Lemma columns_roundtrip a b col :
  byte_col_to_utf16_col (a ++ b) (str_len a) = utf16_len a /\
  utf16_col_to_byte_offset (a ++ b) (utf16_len a) = str_len a /\
  (str_len a <= col -> byte_col_to_utf16_col a col = utf16_len a) /\
  (utf16_len a <= col -> utf16_col_to_byte_offset a col = str_len a).
Proof.
  destruct (columns_at a b) as [H1 H2]. split_and!; [done|done| |].
  - intros Hc. unfold byte_col_to_utf16_col. rewrite Z.min_r by lia. pose proof (byte_col_loop_app a [] 0 0) as E.
    by rewrite app_nil_r in E.
  - intros Hc. unfold utf16_col_to_byte_offset. by rewrite utf16_col_loop_end.
Qed.

Lemma columns_roundtrip_witness :
  byte_col_to_utf16_col [97; 128512; 98] 5 = 3 /\ utf16_col_to_byte_offset [97; 128512; 98] 3 = 5 /\
  byte_col_to_utf16_col [97; 128512] 9 = 3.
Proof.
  destruct (columns_roundtrip [97; 128512] [98] 9) as (H1 & H2 & H3 & _). split_and!; [exact H1|exact H2|].
  apply H3. vm_compute. congruence.
Defined.

(** * Slices *)

Lemma split_at_Some n s a b : split_at n s = Some (a, b) <-> s = a ++ b /\ str_len a = n.
Proof.
  revert n a b. induction s as [|c s IH]; intros n a b; cbn [split_at].
  - destruct (n =? 0) eqn:E; [apply Z.eqb_eq in E as ->|apply Z.eqb_neq in E].
    + split; [by intros [= <- <-]|]. intros [H _]. by destruct a, b.
    + split; [done|]. intros [H <-]. destruct a; [by cbn in E|done].
  - destruct (n =? 0) eqn:E; [apply Z.eqb_eq in E as ->|apply Z.eqb_neq in E].
    + split; [by intros [= <- <-]|]. intros [H Hl]. destruct a as [|d a]; [by simplify_eq/=|].
      cbn [str_len foldr] in Hl. fold (str_len a) in Hl. pose proof (len_utf8_pos d). pose proof (str_len_nonneg a). lia.
    + destruct (len_utf8 c <=? n) eqn:E2; [apply Z.leb_le in E2|apply Z.leb_gt in E2].
      * split.
        { intros ([a' b'] & Hs & [= <- <-])%bind_Some. apply IH in Hs as [-> Hl]. split; [done|].
          cbn [str_len foldr]. fold (str_len a'). lia. }
        intros [H Hl]. destruct a as [|d a]; [cbn in Hl; lia|]. cbn [app] in H. simplify_eq.
        cbn [str_len foldr] in *. fold (str_len a) in *.
        rewrite (proj2 (IH (len_utf8 d + str_len a - len_utf8 d) a b)) by (split; [done|lia]). done.
      * split; [done|]. intros [H Hl]. destruct a as [|d a]; [cbn in Hl; lia|]. simplify_eq/=.
        fold (str_len a) in E2. pose proof (str_len_nonneg a). lia.
Qed.

Lemma get_Some s first last w :
  get s first last = Some w <-> exists a c, s = a ++ w ++ c /\ str_len a = first /\ str_len w = last - first.
Proof.
  unfold get. split.
  - destruct (_ && _); [|done]. intros ([a r] & H1 & ([w' c] & H2 & [= ->])%bind_Some)%bind_Some.
    apply split_at_Some in H1 as [-> <-]. apply split_at_Some in H2 as [-> H2]. by exists a, c.
  - intros (a & c & -> & <- & Hw). pose proof (str_len_nonneg a). pose proof (str_len_nonneg w).
    replace ((0 <=? str_len a) && (str_len a <=? last)) with true by (symmetry; apply andb_true_iff; split; apply Z.leb_le; lia).
    rewrite (proj2 (split_at_Some (str_len a) (a ++ w ++ c) a (w ++ c))) by done. cbn [mbind option_bind].
    by rewrite (proj2 (split_at_Some (last - str_len a) (w ++ c) w c)).
Qed.

(** Prefixes of one text are ordered by their lengths. *)
Lemma prefix_by_len (p q a b : str) : p ++ q = a ++ b -> str_len p <= str_len a -> exists r, a = p ++ r /\ q = r ++ b.
Proof.
  revert a. induction p as [|c p IH]; intros a H Hl; [by exists a|]. destruct a as [|d a].
  - cbn [str_len foldr] in Hl. fold (str_len p) in Hl. pose proof (len_utf8_pos c). pose proof (str_len_nonneg p). lia.
  - cbn [app] in H. injection H as -> H. destruct (IH a H) as (r & -> & ->); [|by exists r].
    cbn [str_len foldr] in Hl. fold (str_len p) (str_len a) in Hl. lia.
Qed.

(** * Keyword casing *)

(** The leaves of a tree come in the order of the text and do not overlap. *)
Fixpoint ordered (last : Z) (ranges : list (Z * Z)) : Prop :=
  match ranges with
  | [] => True
  | (first, stop) :: ranges => last <= first /\ first <= stop /\ ordered stop ranges
  end.

Lemma ordered_weaken last last' ranges : last' <= last -> ordered last ranges -> ordered last' ranges.
Proof. destruct ranges as [|[f s] r]; [done|]. cbn. intros ? (? & ? & ?). split_and!; [lia|done|done]. Qed.

Lemma lower_lower s : to_ascii_lowercase (to_ascii_lowercase s) = to_ascii_lowercase s.
Proof.
  unfold to_ascii_lowercase. rewrite <- list_fmap_compose. apply list_fmap_ext. intros i c _. unfold compose, char_ascii_lower.
  destruct ((65 <=? c) && (c <=? 90)) eqn:E; [|by rewrite E]. apply andb_true_iff in E as [E1 E2].
  replace (65 <=? c + 32) with true by lia. replace (c + 32 <=? 90) with false by lia. done.
Qed.

Lemma lower_upper s : to_ascii_lowercase (to_ascii_uppercase s) = to_ascii_lowercase s.
Proof.
  unfold to_ascii_lowercase, to_ascii_uppercase. rewrite <- list_fmap_compose. apply list_fmap_ext. intros i c _.
  unfold compose, char_ascii_lower, char_ascii_upper. repeat case_match; lia.
Qed.

Lemma fold_case_lower casing w : to_ascii_lowercase (fold_case casing w) = to_ascii_lowercase w.
Proof. destruct casing; cbn; [done|apply lower_lower|apply lower_upper]. Qed.

Lemma case_ranges_ok casing p q ranges :
  ordered (str_len p) ranges ->
  exists out, case_ranges casing (p ++ q) ranges (str_len p) = Some out /\ to_ascii_lowercase out = to_ascii_lowercase q.
Proof.
  revert p q. induction ranges as [|[first stop] ranges IH]; intros p q H; cbn [case_ranges].
  - exists q. unfold get_from. by rewrite (proj2 (split_at_Some (str_len p) (p ++ q) p q)).
  - destruct H as (H1 & H2 & H3). assert (ordered (str_len p) ranges) as H4 by (eapply ordered_weaken; [|exact H3]; lia).
    destruct (get (p ++ q) first stop) as [word|] eqn:E; [|by apply IH]. destruct (is_ascii word); [|by apply IH].
    apply get_Some in E as (a & c & E & <- & Hw). destruct (prefix_by_len p q a (word ++ c) E H1) as (r & -> & ->).
    rewrite str_len_app in *. rewrite (proj2 (get_Some (p ++ r ++ word ++ c) (str_len p) (str_len p + str_len r) r))
      by (exists p, (word ++ c); split_and!; [done|done|lia]).
    cbn [mbind option_bind]. replace stop with (str_len (p ++ r ++ word)) in * by (rewrite !str_len_app; lia).
    replace (p ++ r ++ word ++ c) with ((p ++ r ++ word) ++ c) by (by rewrite <- !app_assoc).
    destruct (IH (p ++ r ++ word) c H3) as (out & -> & Eo). cbn [mbind option_bind]. eexists. split; [done|].
    unfold to_ascii_lowercase in *. rewrite !fmap_app. fold (to_ascii_lowercase (fold_case casing word)).
    by rewrite fold_case_lower, Eo.
Qed.

(** ** Case and words *)

Lemma lower_whitespace c : is_whitespace (char_ascii_lower c) = is_whitespace c.
Proof.
  unfold char_ascii_lower. destruct ((65 <=? c) && (c <=? 90)) eqn:E; [|done]. apply andb_true_iff in E as [E1 E2].
  unfold is_whitespace. lia.
Qed.

Lemma words_lower s : words (to_ascii_lowercase s) = to_ascii_lowercase <$> words s.
Proof.
  unfold words. enough (forall w, words_from (to_ascii_lowercase w) (to_ascii_lowercase s) = to_ascii_lowercase <$> words_from w s) as H
    by apply (H []).
  induction s as [|c s IH]; intros w; [by destruct w|]. cbn [to_ascii_lowercase fmap list_fmap words_from]. rewrite lower_whitespace.
  destruct (is_whitespace c).
  - destruct w as [|d w]; [apply (IH [])|]. cbn [to_ascii_lowercase fmap list_fmap]. f_equal. apply (IH []).
  - specialize (IH (w ++ [c])). unfold to_ascii_lowercase in *. rewrite fmap_app in IH. apply IH.
Qed.

(** ** Line endings *)

Lemma words_app_cons a c r : is_whitespace c = true -> words (a ++ c :: r) = words a ++ words r.
Proof. intros H. change (c :: r) with ([c] ++ r). apply words_app_space; [by repeat constructor|done]. Qed.

Lemma words_crlf s t : replaced [10] [13; 10] s t -> words t = words s.
Proof.
  induction 1 as [|a s t _ _ IH]; [done|]. cbn [app]. rewrite !words_app_cons by done. f_equal.
  rewrite <- IH. by apply (words_blank_app [10] t); repeat constructor.
Qed.

(** * [format_al] *)

Section all.
Context (P : char -> Prop).
Abbreviation all := (Forall P).

Lemma Forall_sub (a l : str) : (forall c, c ∈ a -> c ∈ l) -> all l -> all a.
Proof. rewrite !Forall_forall. auto. Qed.

Lemma str_lines_all text : all text -> Forall all (str_lines text).
Proof.
  destruct (split_char_parts 10 text) as [_ E]. rewrite <- E at 1. unfold str_lines. clear E.
  induction (split_char 10 text) as [|p [|q ps] IH]; intros H; [apply List.Forall_nil|cbn [lines_of]; destruct p; auto|].
  change (join [10] (p :: q :: ps)) with (p ++ 10 :: join [10] (q :: ps)) in H.
  apply Forall_app in H as [Hp H]. apply Forall_cons in H as [_ H].
  change (lines_of (p :: q :: ps)) with (strip_cr p :: lines_of (q :: ps)). constructor; [|by apply IH].
  unfold strip_cr. destruct (strip_suffix [13] p) as [r|] eqn:E; [|done]. apply strip_suffix_app in E as ->.
  by apply Forall_app in Hp as [? _].
Qed.

Lemma join_lines_all lines : P 10 -> Forall all lines -> all (join_lines lines).
Proof.
  intros H10 H. unfold join_lines. destruct lines as [|l0 lines0]; [by constructor|]. revert H. generalize (l0 :: lines0). clear l0 lines0.
  intros lines. induction 1 as [|l lines Hl _ IH]; [constructor|]. rewrite fmap_cons, mjoin_cons. rewrite !Forall_app.
  split_and!; [done|by constructor|done].
Qed.

Lemma brace_style_all text options : P 10 -> P 32 -> P (ch "{") -> all text -> all (apply_brace_style text options).
Proof.
  intros H10 H32 Hb H. pose proof (str_lines_all text H) as Hl. unfold apply_brace_style. destruct (brace_style options).
  - apply join_lines_all; [done|]. assert (Forall all (@nil str)) as Ho by constructor. revert Ho. generalize (@nil str) as out.
    induction Hl as [|line lines Hl _ IH]; intros out Ho; cbn [merge_braces]; [by apply Forall_reverse|].
    destruct out as [|prev out]; [apply IH; by repeat constructor|].
    destruct (_ && _); apply IH; [|by constructor]. apply Forall_cons in Ho as [Hp Ho]. constructor; [|done].
    apply Forall_app. split; [eapply Forall_sub; [|exact Hp]; intros c; apply elem_trim_end|by repeat constructor].
  - unfold split_trailing_braces. enough (forall b, Forall all (split_loop_braces (str_lines text) b).1) as Hs.
    { specialize (Hs false). destruct (split_loop_braces _ _) as [out []]; [|done]. by apply join_lines_all. }
    induction Hl as [|line lines Hl _ IH]; intros b; cbn [split_loop_braces]; [constructor|].
    destruct (trailing_brace_pos line b) as [pos o]. specialize (IH o). destruct (split_loop_braces lines o) as [out changed].
    cbn [fst] in *. destruct pos as [p|]; [|by constructor]. destruct (_ && _); [|by constructor].
    repeat constructor; [| |done]; (eapply Forall_sub; [|exact Hl]); intros c Hc.
    + by eapply elem_take, elem_trim_end.
    + by eapply elem_drop.
Qed.

Lemma sort_all text options : P 10 -> all text -> all (sort_object_properties text options).
Proof.
  intros H10 H. unfold sort_object_properties. destruct (sort_properties options); [|done]. apply join_lines_all; [done|].
  rewrite (rearranged_perm (str_lines text) (sort_lines (str_lines text))); [by apply str_lines_all|].
  apply (sort_loop_rearranged _ _ _ _ []); [done|constructor].
Qed.
End all.

Lemma brace_style_words text options : splits_words (words text) (words (apply_brace_style text options)).
Proof.
  unfold apply_brace_style. destruct (brace_style options).
  - rewrite words_join_lines. fold (line_words (merge_braces (str_lines text) [])). rewrite merge_braces_words.
    cbn. fold (line_words (str_lines text)). unfold line_words. rewrite words_lines. apply splits_refl.
  - unfold split_trailing_braces. pose proof (split_loop_words (str_lines text) false) as H.
    destruct (split_loop_braces _ _) as [out []]; [|apply splits_refl]. unfold line_words in H. rewrite words_lines in H.
    by rewrite words_join_lines.
Qed.

Lemma sort_words text options :
  words (sort_object_properties text options) ≡ₚ words text /\
  (sort_properties options = false -> sort_object_properties text options = text).
Proof.
  unfold sort_object_properties. destruct (sort_properties options); [|done]. split; [|done].
  rewrite words_join_lines, <- (words_lines text). apply mjoin_perm, fmap_Permutation, rearranged_perm.
  apply (sort_loop_rearranged _ _ _ _ []); [done|constructor].
Qed.

Lemma blank_pass_words text options : words (normalize_blank_lines_between_procedures text options) = words text.
Proof.
  unfold normalize_blank_lines_between_procedures. case_match; [done| |].
  all: rewrite words_join_lines; fold (line_words (blank_lines 1 (str_lines text))) (line_words (blank_lines 2 (str_lines text))).
  all: rewrite blank_lines_words; apply words_lines.
Qed.

Lemma wrap_pass_words text options : splits_words (words text) (words (wrap_long_property_lines text options)).
Proof.
  unfold wrap_long_property_lines. destruct (max_line_length options); [apply splits_refl|].
  rewrite words_join_lines, <- (words_lines text). apply wrap_loop_words, indent_unit_blank.
Qed.

Lemma prints_words collapse lines outs :
  Forall2 (prints collapse) lines outs -> line_words (mjoin (option_list <$> outs)) = line_words lines.
Proof.
  induction 1 as [|line out lines outs Hp _ IH]; [done|]. rewrite fmap_cons, mjoin_cons, line_words_app, line_words_cons, IH.
  f_equal. destruct out as [printed|]; cbn in Hp |- *.
  - destruct Hp as (_ & -> & _). unfold line_words. cbn. by rewrite app_nil_r.
  - destruct Hp as [_ H]. rewrite <- words_trim, H. done.
Qed.

Section format.
Context {U : Unicode} `{UL : !UnicodeLaws U} (openers : list (str * str)) (keyword_ranges : str -> list (Z * Z)).

(** The main pass on ASCII text: one printed line for every line. *)
Lemma indent_pass_ok options text :
  ascii text ->
  exists outs, indent_pass openers options text = Some (join_lines (mjoin (option_list <$> outs))) /\
    Forall2 (prints (collapse_blank_runs options)) (str_lines text) outs.
Proof.
  intros H. unfold indent_pass.
  destruct (format_lines_ok options openers (collapse_blank_runs options) (str_lines text) initial_state) as (outs & -> & F).
  - by apply str_lines_all.
  - by repeat constructor.
  - by exists outs.
Qed.

Lemma keyword_casing_ok text casing :
  ordered 0 (keyword_ranges text) ->
  exists out, apply_keyword_casing keyword_ranges text casing = Some out /\
    to_ascii_lowercase out = to_ascii_lowercase text /\ (casing = CasingPreserve -> out = text).
Proof.
  intros H. destruct casing; cbn [apply_keyword_casing]; [by exists text| |].
  all: destruct (case_ranges_ok CasingLower [] text _ H) as (o1 & E1 & L1); destruct (case_ranges_ok CasingUpper [] text _ H) as (o2 & E2 & L2).
  - exists o1. by split_and!.
  - exists o2. by split_and!.
Qed.


(** * [format_range] *)

Lemma prints_lines lines outs :
  Forall2 (prints false) lines outs ->
  Forall2 (fun line printed => trim printed = trim line /\ (clean line -> clean printed)) lines (mjoin (option_list <$> outs)).
Proof.
  induction 1 as [|line out lines outs Hp _ IH]; [constructor|]. rewrite fmap_cons, mjoin_cons.
  destruct out as [printed|]; cbn in Hp; [|by destruct Hp]. cbn [option_list app]. constructor; [|done]. destruct Hp as (? & _ & ?). done.
Qed.

Lemma extract_in_step skip remaining b orig fmt :
  length orig = length fmt -> extract_loop skip remaining false b orig fmt = drop skip (take remaining fmt).
Proof.
  revert skip remaining b fmt. induction orig as [|o orig IH]; intros skip remaining b [|f fmt] Hl; try done.
  - destruct remaining; cbn [extract_loop]; by rewrite ?take_nil, drop_nil.
  - destruct remaining as [|remaining]; cbn [extract_loop take]; [by rewrite drop_nil|]. cbn [andb]. rewrite IH by (cbn in Hl; lia).
    by destruct skip.
Qed.

(** The options that leave every line at its number. *)
Definition keeps_lines (text : str) (options : FormatOptions) : Prop :=
  blank_lines_between_procedures options = BlanksPreserve /\ sort_properties options = false /\
  max_line_length options = O /\ keyword_casing options = CasingPreserve /\ apply_brace_style text options = text.

Lemma format_al_in_step text options :
  ascii text -> ~ 13 ∈ text -> keeps_lines text options -> str_lines text <> [] ->
  exists printed, format_al openers keyword_ranges text options = Some (join_lines printed) /\
    str_lines (join_lines printed) = printed /\ Forall2 (fun line p => trim p = trim line) (str_lines text) printed.
Proof.
  intros Ha Hr (Hb & Hs & Hm & Hk & Hbr) Hne.
  destruct (indent_pass_ok options text Ha) as (outs & E & F). unfold collapse_blank_runs in F. rewrite Hb in F.
  apply prints_lines in F. set (printed := mjoin (option_list <$> outs)) in *.
  assert (format_al openers keyword_ranges text options = Some (join_lines printed)) as Eo.
  { unfold format_al. rewrite Hbr. unfold sort_object_properties. rewrite Hs, E. cbn [mbind option_bind].
    unfold wrap_long_property_lines, normalize_blank_lines_between_procedures. rewrite Hb, Hm, Hk. cbn [apply_keyword_casing mbind option_bind].
    destruct (str_contains [13; 10] text) eqn:Ec; [|done]. apply str_contains_spec in Ec as (a & r & ->).
    exfalso. apply Hr. rewrite !elem_of_app. right. left. by left. }
  assert (str_lines (join_lines printed) = printed) as El.
  { apply lines_join_lines.
    - intros Ep. rewrite Ep in F. inversion F. congruence.
    - pose proof (str_lines_clean text Hr) as Hc. clear -F Hc. induction F as [|l p ls ps [_ Hp] _ IH]; [constructor|].
      apply Forall_cons in Hc as [Hl Hc]. constructor; [by apply clean_line, Hp|by apply IH]. }
  exists printed. split_and!; [done|done|]. eapply Forall2_impl; [exact F|]. by intros l p [? _].
Qed.

(** Formatting a range, where no pass adds, removes or moves a line: the
    edit covers whole lines of the text, from the first to the last one of the
    range that the text has, and its new text is the formatted text's lines of
    the same numbers, which differ from the old ones in white space only; no
    edit comes out exactly when those lines are as they were. *)
Lemma format_range_in_step text options first last :
  ascii text -> ~ 13 ∈ text -> keeps_lines text options -> (first < length (str_lines text))%nat -> (first <= last)%nat ->
  exists out edits, format_al openers keyword_ranges text options = Some out /\
    Forall2 (fun line printed => trim printed = trim line) (str_lines text) (str_lines out) /\
    format_range openers keyword_ranges text first last options = Some (Some edits) /\
    let stop := Nat.min last (length (str_lines text) - 1) in
    let region := lines_between (str_lines out) first stop in
    (edits = [] <-> region = lines_between (str_lines text) first stop) /\
    Forall (fun e => start_line e = first /\ start_character e = 0 /\ end_line e = stop /\
              end_character e = utf16_len (default [] (str_lines text !! stop)) /\
              exists line_end, new_text e = join [10] region ++ line_end /\ (line_end = [] \/ line_end = [10])) edits.
Proof.
  intros Ha Hr Hk Hf Hl. destruct (format_al_in_step text options Ha Hr Hk) as (printed & Eo & El & F).
  { intros E. rewrite E in Hf. cbn in Hf. lia. }
  pose proof (Forall2_length _ _ _ F) as Hlen. unfold format_range. rewrite Eo. cbn [mbind option_bind]. rewrite El.
  destruct Hk as (Hb & _). unfold collapse_blank_runs. rewrite Hb. cbn [andb].
  set (stop := Nat.min last (length (str_lines text) - 1)).
  replace (length (str_lines text) <=? first)%nat with false by (symmetry; apply Nat.leb_gt; lia).
  replace (stop <? first)%nat with false by (symmetry; apply Nat.ltb_ge; unfold stop; lia).
  assert (extract_formatted_region (str_lines text) printed first stop false = lines_between printed first stop) as ->.
  { unfold extract_formatted_region, lines_between. rewrite extract_in_step by done. rewrite take_drop_commute.
    do 2 f_equal. unfold stop. lia. }
  destruct (lookup_lt_is_Some_2 (str_lines text) stop) as [l Es]; [unfold stop; lia|]. rewrite Es.
  destruct (columns_at l []) as [Ec _]. rewrite app_nil_r in Ec. rewrite Ec.
  exists (join_lines printed). case_bool_decide as Hd; eexists; split_and!; try done; rewrite ?El; try done.
  constructor; [|constructor]. cbn. split_and!; try done. eexists. split; [done|]. case_match; auto.
Qed.
End format.

