(* ===== verification/Documents.v ===== *)
(** The store of open documents and its cache of parse trees
    ([al-source/src/documents.rs] and [parsing.rs]).

    The rope library and the parser are parameters: class [Rope] has the rope's
    lines and its UTF-16 index, [Tree] and [parse] stand for the parser.  A URL
    is its text, a lock is a number.  Each operation holds the document's entry
    for as long as it reads or writes it, so an operation is one step.  The
    version counters and access stamps are plain [Z]: they grow by one for an
    operation. *)

From Stdlib Require Import ZArith Lia.
From stdpp Require Import base tactics numbers option list gmap strings.
From S2P Require Import Prelude RustStr.

#[local] Open Scope Z_scope.

(** * Ropes

    With the feature [cr_lines] the lines of a rope end at a line feed, a
    carriage return, or both in this order; the last line has no line break. *)

Class Rope := {
  rope_lines : str -> list str;
  utf16_cu_to_char : str -> Z -> nat;
}.

Definition line_breaks : list str := [[10]; [13]; [13; 10]].

Definition one_line (content : str) : Prop := ~ 10 ∈ content /\ ~ 13 ∈ content.

(** A line with its break, and not the first half of one. *)
Inductive ropes : list str -> Prop :=
  | ropes_last content : one_line content -> ropes [content]
  | ropes_line content brk line lines :
      one_line content -> brk ∈ line_breaks -> ~ (brk = [13] /\ exists r, line = 10 :: r) ->
      ropes (line :: lines) -> ropes ((content ++ brk) :: line :: lines).

Class RopeLaws {R : Rope} : Prop := {
  rope_lines_join : forall text, mjoin (rope_lines text) = text;
  rope_lines_ropes : forall text, ropes (rope_lines text);
  utf16_cu_at : forall a b, utf16_cu_to_char (a ++ b) (utf16_len a) = length a;
  utf16_cu_inside : forall a c b, len_utf16 c = 2 -> utf16_cu_to_char (a ++ c :: b) (utf16_len a + 1) = length a;
}.
Arguments RopeLaws : clear implicits.

(** * The store *)

Record TextRange := { start_line : nat; start_character : nat; end_line : nat; end_character : nat }.
Record TextChange := { range : option TextRange; new_text : str }.

Inductive DocumentMutationError :=
  | TooLarge (uri : str) (bytes cap : Z)
  | NotOpen (uri : str)
  | RangeOutOfBounds (uri : str) (r : TextRange) (document_lines : nat)
  | BackwardRange (uri : str) (first last : nat)
  | StaleClientVersion (uri : str) (received current : Z)
  | SizeOverflow (uri : str)
  | RenameSourceNotOpen (source_uri : str)
  | RenameDestinationOpen (source_uri destination_uri : str).

(** The rope [text] and the string cached next to it are one [text] here, by
    the law that a rope made of a string is that string. *)
Record Document := { text : str; version : Z; client_version : Z }.

Definition DEFAULT_MAX_CACHED_TREES : nat := 256.

Section store.
Context {R : Rope} {Tree : Type}.

Record CachedTree := { tree_version : Z; tree : Tree; last_access : Z }.

Record DocumentStore := {
  docs : gmap str Document;
  trees : gmap str CachedTree;
  tree_access_counter : Z;
  max_cached_trees : nat;
  parse_locks : gmap str nat;
  max_doc_bytes : Z;
}.

Definition new_store : DocumentStore :=
  {| docs := ∅; trees := ∅; tree_access_counter := 0; max_cached_trees := DEFAULT_MAX_CACHED_TREES;
     parse_locks := ∅; max_doc_bytes := 0 |}.

Definition set_docs d st := {| docs := d; trees := trees st; tree_access_counter := tree_access_counter st;
  max_cached_trees := max_cached_trees st; parse_locks := parse_locks st; max_doc_bytes := max_doc_bytes st |}.
Definition set_trees t st := {| docs := docs st; trees := t; tree_access_counter := tree_access_counter st;
  max_cached_trees := max_cached_trees st; parse_locks := parse_locks st; max_doc_bytes := max_doc_bytes st |}.
Definition set_locks l st := {| docs := docs st; trees := trees st; tree_access_counter := tree_access_counter st;
  max_cached_trees := max_cached_trees st; parse_locks := l; max_doc_bytes := max_doc_bytes st |}.

Definition set_max_cached_trees (cap : option nat) st := {| docs := docs st; trees := trees st;
  tree_access_counter := tree_access_counter st; max_cached_trees := default O cap; parse_locks := parse_locks st;
  max_doc_bytes := max_doc_bytes st |}.
Definition set_max_doc_bytes (cap : option Z) st := {| docs := docs st; trees := trees st;
  tree_access_counter := tree_access_counter st; max_cached_trees := max_cached_trees st; parse_locks := parse_locks st;
  max_doc_bytes := default 0 cap |}.

(** [fetch_add] returns the old value. *)
Definition next_tree_stamp (st : DocumentStore) : Z * DocumentStore :=
  (tree_access_counter st,
   {| docs := docs st; trees := trees st; tree_access_counter := tree_access_counter st + 1;
      max_cached_trees := max_cached_trees st; parse_locks := parse_locks st; max_doc_bytes := max_doc_bytes st |}).

(** ** Sizes *)

Definition doc_cap (st : DocumentStore) : option Z :=
  if max_doc_bytes st =? 0 then None else Some (max_doc_bytes st).

Definition validate_size (st : DocumentStore) (uri : str) (len : Z) : Res DocumentMutationError unit :=
  match doc_cap st with
  | Some cap => if cap <? len then Err (TooLarge uri len cap) else Ok tt
  | None => Ok tt
  end.

Definition validate_document_text (st : DocumentStore) (uri t : str) : Res DocumentMutationError unit :=
  validate_size st uri (str_len t).

Definition validate_max_doc_bytes (st : DocumentStore) (cap : option Z) : Res DocumentMutationError unit :=
  match cap with
  | None => Ok tt
  | Some cap =>
      if cap =? 0 then Ok tt
      else
        let oversized := List.filter (fun ub => cap <? snd ub)
          ((fun ud => (fst ud, str_len (text (snd ud)))) <$> map_to_list (docs st)) in
        match sort_by (fun a b => str_cmp (fst a) (fst b)) oversized with
        | (uri, bytes) :: _ => Err (TooLarge uri bytes cap)
        | [] => Ok tt
        end
  end.

(** ** Opening and closing *)

Definition parse_lock (uri : str) (fresh : nat) (st : DocumentStore) : nat * DocumentStore :=
  match parse_locks st !! uri with
  | Some lock => (lock, st)
  | None => (fresh, set_locks (<[uri := fresh]> (parse_locks st)) st)
  end.

Definition open_with_client_version (uri t : str) (client : Z) (st : DocumentStore)
  : DocumentStore * Res DocumentMutationError unit :=
  match validate_size st uri (str_len t) with
  | Err e => (st, Err e)
  | Ok _ => (set_docs (<[uri := {| text := t; version := 0; client_version := client |}]> (docs st)) st, Ok tt)
  end.

Definition open (uri t : str) (st : DocumentStore) : DocumentStore * Res DocumentMutationError unit :=
  open_with_client_version uri t 0 st.

Definition replace_or_open (uri t : str) (st : DocumentStore) : DocumentStore * Res DocumentMutationError (str * Z) :=
  match validate_size st uri (str_len t) with
  | Err e => (st, Err e)
  | Ok _ =>
      let d := match docs st !! uri with
               | Some d => {| text := t; version := version d + 1; client_version := client_version d |}
               | None => {| text := t; version := 0; client_version := 0 |}
               end in
      (set_trees (delete uri (trees st)) (set_docs (<[uri := d]> (docs st)) st), Ok (t, version d))
  end.

Definition close (uri : str) (st : DocumentStore) : DocumentStore * bool :=
  (set_locks (delete uri (parse_locks st)) (set_trees (delete uri (trees st)) (set_docs (delete uri (docs st)) st)),
   bool_decide (is_Some (docs st !! uri))).

(** An entry, moved to another key over whatever is there. *)
Definition move_entry {A} (old new : str) (m : gmap str A) : gmap str A :=
  match m !! old with Some a => <[new := a]> (delete old m) | None => m end.

Definition rename (old new : str) (st : DocumentStore) : DocumentStore * Res DocumentMutationError unit :=
  if str_eqb old new then
    (st, match docs st !! old with Some _ => Ok tt | None => Err (RenameSourceNotOpen old) end)
  else
    match docs st !! new, docs st !! old with
    | Some _, _ => (st, Err (RenameDestinationOpen old new))
    | None, None => (st, Err (RenameSourceNotOpen old))
    | None, Some d =>
        (set_locks (move_entry old new (parse_locks st))
           (set_trees (move_entry old new (trees st)) (set_docs (<[new := d]> (delete old (docs st))) st)), Ok tt)
    end.

(** ** Reading *)

Definition get_text (st : DocumentStore) (uri : str) : option str := text <$> docs st !! uri.
Definition get_text_and_version (st : DocumentStore) (uri : str) : option (str * Z) :=
  (fun d => (text d, version d)) <$> docs st !! uri.
Definition get_text_and_client_version (st : DocumentStore) (uri : str) : option (str * Z) :=
  (fun d => (text d, client_version d)) <$> docs st !! uri.

Definition get_version (st : DocumentStore) (uri : str) : option Z := version <$> docs st !! uri.
Definition get_client_version (st : DocumentStore) (uri : str) : option Z := client_version <$> docs st !! uri.
Definition contains (st : DocumentStore) (uri : str) : bool := bool_decide (is_Some (docs st !! uri)).

(** ** Edits *)

Definition line_break_utf16_width (line : str) : Z :=
  match reverse line with
  | c :: r =>
      if c =? 10 then match r with d :: _ => if d =? 13 then 2 else 1 | [] => 1 end
      else if c =? 13 then 1 else 0
  | [] => 0
  end.

Definition position_to_offset (rope : str) (line character : nat) : option nat :=
  line_slice ← rope_lines rope !! line;
  let line_start := length (mjoin (take line (rope_lines rope))) in
  let max_char := utf16_len line_slice - line_break_utf16_width line_slice in
  let utf16_idx := Z.min (Z.of_nat character) max_char in
  Some (line_start + utf16_cu_to_char line_slice utf16_idx)%nat.

Definition apply_change (st : DocumentStore) (uri : str) (candidate : str) (change : TextChange)
  : Res DocumentMutationError str :=
  match range change with
  | Some r =>
      match position_to_offset candidate (start_line r) (start_character r),
            position_to_offset candidate (end_line r) (end_character r) with
      | Some first, Some last =>
          if (last <? first)%nat then Err (BackwardRange uri first last)
          else
            let removed_bytes := str_len (take (last - first) (drop first candidate)) in
            let next_len := str_len candidate - removed_bytes + str_len (new_text change) in
            if usize_max <? next_len then Err (SizeOverflow uri)
            else match validate_size st uri next_len with
                 | Err e => Err e
                 | Ok _ => Ok (take first candidate ++ new_text change ++ drop last candidate)
                 end
      | _, _ => Err (RangeOutOfBounds uri r (length (rope_lines candidate)))
      end
  | None =>
      match validate_size st uri (str_len (new_text change)) with
      | Err e => Err e
      | Ok _ => Ok (new_text change)
      end
  end.

Fixpoint apply_all (st : DocumentStore) (uri : str) (candidate : str) (changes : list TextChange)
  : Res DocumentMutationError str :=
  match changes with
  | [] => Ok candidate
  | change :: changes =>
      match apply_change st uri candidate change with
      | Ok candidate => apply_all st uri candidate changes
      | Err e => Err e
      end
  end.

Definition apply_changes_inner (uri : str) (changes : list TextChange) (client : option Z) (st : DocumentStore)
  : DocumentStore * Res DocumentMutationError (str * Z) :=
  match docs st !! uri with
  | None => (st, Err (NotOpen uri))
  | Some d =>
      if match client with Some received => received <=? client_version d | None => false end
      then (st, Err (StaleClientVersion uri (default 0 client) (client_version d)))
      else
        match apply_all st uri (text d) changes with
        | Err e => (st, Err e)
        | Ok t =>
            let d := {| text := t; version := version d + 1; client_version := default (client_version d) client |} in
            (set_trees (delete uri (trees st)) (set_docs (<[uri := d]> (docs st)) st), Ok (t, version d))
        end
  end.

Definition apply_changes_and_get uri changes st := apply_changes_inner uri changes None st.
Definition apply_versioned_changes_and_get uri client changes st := apply_changes_inner uri changes (Some client) st.
Definition apply_changes uri changes st : DocumentStore * Res DocumentMutationError unit :=
  let '(st, r) := apply_changes_and_get uri changes st in
  (st, match r with Ok _ => Ok tt | Err e => Err e end).

(** ** Parse trees *)

Definition touch (uri : str) (stamp : Z) (c : CachedTree) (st : DocumentStore) : DocumentStore :=
  set_trees (<[uri := {| tree_version := tree_version c; tree := tree c; last_access := stamp |}]> (trees st)) st.

(** [expected] is [None] for the plain lookup. *)
Definition cached_tree (uri : str) (expected : option Z) (st : DocumentStore) : option Tree * DocumentStore :=
  let '(stamp, st) := next_tree_stamp st in
  match docs st !! uri, trees st !! uri with
  | Some d, Some c =>
      if (tree_version c =? version d) && match expected with Some v => tree_version c =? v | None => true end
      then (Some (tree c), touch uri stamp c st) else (None, st)
  | _, _ => (None, st)
  end.
Definition get_cached_tree uri st := cached_tree uri None st.
Definition get_cached_tree_at_version uri expected st := cached_tree uri (Some expected) st.

Definition evict_trees_over_cap (st : DocumentStore) : DocumentStore :=
  let cap := max_cached_trees st in
  if (cap =? 0)%nat then st
  else if (size (trees st) <=? cap)%nat then st
  else
    let stamps := sort_by (fun a b => fst a ?= fst b)
      ((fun uc => (last_access (snd uc), fst uc)) <$> map_to_list (trees st)) in
    let to_remove := (length stamps - cap)%nat in
    set_trees (foldl (fun m su => delete (snd su) m) (trees st) (take to_remove stamps)) st.

Definition cache_tree (uri : str) (v : Z) (t : Tree) (st : DocumentStore) : DocumentStore :=
  let '(stamp, st) := next_tree_stamp st in
  evict_trees_over_cap (set_trees (<[uri := {| tree_version := v; tree := t; last_access := stamp |}]> (trees st)) st).

(** [get_or_parse] of [parsing.rs], with no other operation in between. *)
Definition get_or_parse (parse : str -> Tree) (uri : str) (fresh : nat) (st : DocumentStore)
  : option (str * Tree) * DocumentStore :=
  match get_text_and_version st uri with
  | None => (None, st)
  | Some (t, v) =>
      match get_cached_tree_at_version uri v st with
      | (Some cached, st) => (Some (t, cached), st)
      | (None, st) =>
          let '(_, st) := parse_lock uri fresh st in
          match get_text_and_version st uri with
          | None => (None, st)
          | Some (t, v) =>
              match get_cached_tree_at_version uri v st with
              | (Some cached, st) => (Some (t, cached), st)
              | (None, st) => (Some (t, parse t), cache_tree uri v (parse t) st)
              end
          end
      end
  end.
End store.
Arguments DocumentStore : clear implicits.
Arguments CachedTree : clear implicits.
