(* ===== verification/DocumentSpec.v ===== *)
(** What the document store promises: positions name the places of a text,
    batches of edits are transactional, and the tree cache serves only trees of
    the current text and forgets the least recently used ones. *)

From Stdlib Require Import ZArith Lia Sorting.Sorted.
From stdpp Require Import base tactics numbers option list gmap fin_maps strings sorting.
From S2P Require Import Prelude RustStr Documents.

#[local] Open Scope Z_scope.

(** * A rope *)

Fixpoint split_lines (s : str) : list str :=
  match s with
  | [] => [[]]
  | c :: s' =>
      if (c =? 10) || ((c =? 13) && negb (match s' with d :: _ => d =? 10 | [] => false end)) then [c] :: split_lines s'
      else match split_lines s' with line :: lines => (c :: line) :: lines | [] => [[c]] end
  end.

Fixpoint cu_to_char (s : str) (n : Z) : nat :=
  match s with
  | c :: s => if n <? len_utf16 c then O else S (cu_to_char s (n - len_utf16 c))
  | [] => O
  end.

#[export] Instance text_rope : Rope := {| rope_lines := split_lines; utf16_cu_to_char := cu_to_char |}.

Lemma split_lines_head d s : exists line lines, split_lines (d :: s) = (d :: line) :: lines.
Proof. cbn [split_lines]. case_match; [by eexists _, _|]. destruct (split_lines s); by eexists _, _. Qed.

Lemma ropes_nonempty lines : ropes lines -> lines <> [].
Proof. by destruct 1. Qed.

Lemma one_line_nil : one_line [].
Proof. split; apply not_elem_of_nil. Qed.

Lemma one_line_cons c s : c <> 10 -> c <> 13 -> one_line s -> one_line (c :: s).
Proof. intros H1 H2 [? ?]. split; rewrite elem_of_cons; naive_solver. Qed.

Lemma split_lines_ropes s : ropes (split_lines s).
Proof.
  induction s as [|c s IH]; [apply ropes_last, one_line_nil|]. cbn [split_lines].
  destruct (c =? 10) eqn:E10; cbn [orb]; [|destruct (c =? 13) eqn:E13; cbn [andb]].
  - apply Z.eqb_eq in E10 as ->. destruct (split_lines s) as [|line lines]; [by destruct (ropes_nonempty _ IH)|].
    apply (ropes_line [] [10]); [apply one_line_nil|by left|by intros [? _]|done].
  - apply Z.eqb_eq in E13 as ->. destruct s as [|d s]; [apply (ropes_line [] [13]); try done; [apply one_line_nil|by right; left|by intros [_ [? ?]]]|].
    destruct (split_lines_head d s) as (line & lines & E). rewrite E in *. destruct (d =? 10) eqn:Ed; cbn [negb].
    + apply Z.eqb_eq in Ed as ->. inversion IH as [content [H _] Hc|content brk l ls [H _] Hb Hn Hr Hc]; subst.
      { destruct H. by left. }
      destruct content as [|x content]; [|injection Hc as -> _; destruct H; by left]. cbn [app] in Hc. subst brk.
      assert (line = []) as ->
        by (destruct line; [done|]; unfold line_breaks in Hb; repeat setoid_rewrite elem_of_cons in Hb; naive_solver).
      apply (ropes_line [] [13; 10]); [apply one_line_nil|by right; right; left|by intros [? _]|done].
    + apply (ropes_line [] [13]); [apply one_line_nil|by right; left| |done]. intros [_ [r Hr]]. injection Hr as -> _. done.
  - apply Z.eqb_neq in E10, E13. inversion IH as [content H Hc|content brk l ls H Hb Hn Hr Hc]; subst.
    + apply ropes_last. by apply one_line_cons.
    + apply (ropes_line (c :: content)); [by apply one_line_cons|done|done|done].
Qed.

#[export] Instance text_rope_laws : RopeLaws text_rope.
Proof.
  split; cbn [rope_lines utf16_cu_to_char text_rope].
  - induction text as [|c s IH]; [done|]. cbn [split_lines]. case_match.
    + change (c :: mjoin (split_lines s) = c :: s). by rewrite IH.
    + destruct (split_lines s) as [|line lines]; [by rewrite <- IH|]. change (c :: mjoin (line :: lines) = c :: s). by rewrite IH.
  - apply split_lines_ropes.
  - induction a as [|c a IH]; intros b; cbn [app utf16_len foldr].
    + destruct b as [|c b]; [done|]. cbn. pose proof (len_utf16_pos c). by rewrite (proj2 (Z.ltb_lt _ _)) by lia.
    + cbn [cu_to_char]. fold (utf16_len a). pose proof (utf16_len_nonneg a). rewrite (proj2 (Z.ltb_ge _ _)) by lia.
      cbn [length]. f_equal. rewrite <- (IH b). f_equal. lia.
  - induction a as [|d a IH]; intros c b Hc; cbn [app utf16_len foldr].
    + cbn. by rewrite Hc.
    + cbn [cu_to_char]. fold (utf16_len a). pose proof (utf16_len_nonneg a). rewrite (proj2 (Z.ltb_ge _ _)) by lia.
      cbn [length]. f_equal. rewrite <- (IH c b Hc). f_equal. lia.
Qed.

(** * Positions *)

Section positions.
Context {R : Rope} {RL : RopeLaws R}.

(** [place] is the text in front of the position: the lines before it, and of
    its line as many characters as fit into [character] UTF-16 units, at most
    those before the line break. *)
Inductive position_at (t : str) (line : nat) (character : Z) (place : str) : Prop :=
  | position_at_intro before p q brk after :
      rope_lines t = before ++ (p ++ q ++ brk) :: after -> length before = line -> one_line (p ++ q) ->
      (brk = [] \/ brk ∈ line_breaks) -> place = mjoin before ++ p ->
      utf16_len p <= character ->
      match q with c :: _ => character < utf16_len p + len_utf16 c | [] => True end ->
      position_at t line character place.

Lemma ropes_split lines before line after :
  ropes lines -> lines = before ++ line :: after ->
  exists content brk, line = content ++ brk /\ one_line content /\ (brk = [] \/ brk ∈ line_breaks).
Proof.
  intros H. revert before. induction H as [content Hc|content brk l ls Hc Hb Hn H IH]; intros before E.
  - destruct before as [|? [|? ?]]; simplify_eq/=. exists line, []. rewrite app_nil_r. auto.
  - destruct before as [|b before]; simplify_eq/=; [|by eapply IH]. exists content, brk. auto.
Qed.

Lemma break_width content brk :
  one_line content -> (brk = [] \/ brk ∈ line_breaks) ->
  utf16_len (content ++ brk) - line_break_utf16_width (content ++ brk) = utf16_len content.
Proof.
  intros [H1 H2] Hb. rewrite utf16_len_app. unfold line_break_utf16_width, line_breaks in *. rewrite reverse_app.
  assert (line_break_utf16_width content = 0) as Hz.
  { unfold line_break_utf16_width. destruct (reverse content) as [|c r] eqn:E; [done|].
    assert (c ∈ content) by (rewrite <- (reverse_involutive content), E, elem_of_reverse; by left).
    destruct (Z.eqb_spec c 10); [by subst|]. by destruct (Z.eqb_spec c 13); [subst|]. }
  destruct Hb as [->|Hb]; [cbn [app reverse utf16_len foldr]; unfold line_break_utf16_width in Hz; change (reverse []) with (@nil Z); cbn [app]; lia|].
  repeat setoid_rewrite elem_of_cons in Hb. destruct Hb as [->|[->|[->|Hb]]]; [| | |by apply elem_of_nil in Hb].
  - change (reverse [10]) with [10]. cbn. destruct (reverse content) as [|d r] eqn:E; [lia|].
    assert (d ∈ content) by (rewrite <- (reverse_involutive content), E, elem_of_reverse; by left).
    destruct (Z.eqb_spec d 13); [by subst|lia].
  - change (reverse [13]) with [13]. cbn. lia.
  - change (reverse [13; 10]) with [10; 13]. cbn. lia.
Qed.

(** The longest prefix of [content] that fits. *)
Lemma prefix_fits content character :
  0 <= character -> exists p q, content = p ++ q /\ utf16_len p <= character /\
    match q with c :: _ => character < utf16_len p + len_utf16 c | [] => True end.
Proof.
  revert character. induction content as [|c content IH]; intros n Hn; [by exists [], []|].
  destruct (decide (n < len_utf16 c)) as [Hc|Hc]; [exists [], (c :: content); split_and!; [done|cbn; lia|cbn; lia]|].
  destruct (IH (n - len_utf16 c)) as (p & q & -> & H1 & H2); [lia|]. exists (c :: p), q. split_and!; [done| |].
  - cbn [utf16_len foldr]. fold (utf16_len p). lia.
  - destruct q as [|d q]; [done|]. cbn [utf16_len foldr]. fold (utf16_len p). lia.
Qed.

Lemma cu_at_position p q brk character :
  utf16_len p <= character -> match q with c :: _ => character < utf16_len p + len_utf16 c | [] => True end ->
  utf16_cu_to_char (p ++ q ++ brk) (Z.min character (utf16_len (p ++ q))) = length p.
Proof.
  intros H1 H2. rewrite utf16_len_app. pose proof (utf16_len_nonneg q). destruct q as [|c q].
  - cbn [utf16_len foldr app]. rewrite Z.min_r by lia. rewrite Z.add_0_r. apply utf16_cu_at.
  - pose proof (len_utf16_pos c). pose proof (utf16_len_nonneg q). cbn [utf16_len foldr] in *. fold (utf16_len q) in *. rewrite Z.min_l by lia.
    destruct (decide (character = utf16_len p)) as [->|Hne]; [apply utf16_cu_at|].
    replace character with (utf16_len p + 1) by lia. apply (utf16_cu_inside p c (q ++ brk)). lia.
Qed.

Lemma position_at_offset t line character place :
  position_at t line (Z.of_nat character) place -> position_to_offset t line character = Some (length place).
Proof.
  intros [before p q brk after E <- Hl Hb -> H1 H2]. unfold position_to_offset. rewrite E, list_lookup_middle by done.
  cbn [mbind option_bind]. rewrite take_app_length. rewrite (app_assoc p), break_width by done. rewrite <- app_assoc.
  rewrite cu_at_position by done. by rewrite length_app.
Qed.

Lemma position_exists t line character :
  0 <= character -> (line < length (rope_lines t))%nat -> exists place, position_at t line character place.
Proof.
  intros Hc Hl. destruct (lookup_lt_is_Some_2 _ _ Hl) as [l El]. apply list_elem_of_split_length in El as (before & after & E & Hb).
  destruct (ropes_split _ before l after (rope_lines_ropes t) E) as (content & brk & -> & H1 & H2).
  destruct (prefix_fits content character Hc) as (p & q & -> & H3 & H4).
  exists (mjoin before ++ p). by apply (position_at_intro _ _ _ _ before p q brk after); rewrite ?E, <- ?app_assoc.
Qed.

Lemma position_to_offset_spec t line character n :
  position_to_offset t line character = Some n <->
    exists place, position_at t line (Z.of_nat character) place /\ n = length place.
Proof.
  split.
  - intros H. destruct (position_exists t line (Z.of_nat character)) as [place Hp]; [lia| |].
    { unfold position_to_offset in H. destruct (rope_lines t !! line) eqn:E; [by eapply lookup_lt_Some|done]. }
    exists place. split; [done|]. rewrite (position_at_offset _ _ _ _ Hp) in H. by injection H.
  - intros (place & Hp & ->). by apply position_at_offset.
Qed.

Lemma position_prefix t line character place : position_at t line character place -> exists rest, t = place ++ rest.
Proof.
  intros [before p q brk after E _ _ _ -> _ _]. exists (q ++ brk ++ mjoin after). rewrite <- (rope_lines_join t), E.
  rewrite join_app. cbn. by rewrite <- !app_assoc.
Qed.

(** A text cut inside its lines, though not inside a line break. *)
Lemma lines_cut lines a b :
  ropes lines -> mjoin lines = a ++ b -> ~ (exists a' b', a = a' ++ [13] /\ b = 10 :: b') ->
  exists before p q brk after, lines = before ++ (p ++ q ++ brk) :: after /\ one_line (p ++ q) /\
    (brk = [] \/ brk ∈ line_breaks) /\ a = mjoin before ++ p.
Proof.
  intros H. revert a. induction H as [content Hc|content brk l ls Hc Hb Hx H IH]; intros a E Hn.
  { cbn in E. rewrite app_nil_r in E. subst content. exists [], a, b, [], []. cbn. rewrite app_nil_r. auto. }
  change (mjoin ((content ++ brk) :: l :: ls)) with ((content ++ brk) ++ mjoin (l :: ls)) in E.
  assert ((exists k, a = (content ++ brk) ++ k /\ mjoin (l :: ls) = k ++ b) \/
          (exists k, k <> [] /\ content ++ brk = a ++ k /\ b = k ++ mjoin (l :: ls))) as [(k & -> & Ek)|(k & Hk & Ek & Eb)].
  { apply app_eq_inv in E as [(k & E1 & E2)|(k & E1 & E2)]; [|left; by exists k].
    destruct (decide (k = [])) as [->|Hk]; [|right; by exists k]. left. exists []. rewrite E1. cbn in E2. by rewrite !app_nil_r. }
  - destruct (IH k Ek) as (before & p & q & br & after & E1 & H1 & H2 & ->).
    { intros (a' & b' & -> & Eb). apply Hn. exists ((content ++ brk) ++ a'), b'. by rewrite app_assoc. }
    exists ((content ++ brk) :: before), p, q, br, after. rewrite E1. split_and!; [done|done|done|]. cbn. by rewrite !app_assoc.
  - apply app_eq_inv in Ek as [(k1 & E1 & E2)|(k1 & E1 & E2)].
    + destruct k1 as [|c k1]; [exists [], a, [], brk, (l :: ls); rewrite app_nil_r in E1; subst content; cbn; rewrite app_nil_r; auto|].
      exists [], a, (c :: k1), brk, (l :: ls). rewrite E1 in Hc |- *. rewrite <- app_assoc. auto.
    + destruct k1 as [|c k1].
      { exists [], content, [], brk, (l :: ls). rewrite app_nil_r in E1. subst a. cbn. rewrite app_nil_r. auto. }
      exfalso. apply Hn. subst a brk. unfold line_breaks in Hb. repeat setoid_rewrite elem_of_cons in Hb.
      assert (c = 13 /\ k1 = [] /\ k = [10]) as (-> & -> & ->).
      { destruct k as [|d k]; [done|]. destruct Hb as [Hb|[Hb|[Hb|Hb]]]; [| | |by apply elem_of_nil in Hb].
        all: destruct k1 as [|e k1]; simplify_eq/=; try done. by destruct k1. }
      exists content, (mjoin (l :: ls)). by rewrite Eb.
Qed.

(** Every place that is not inside a line break has a position. *)
Lemma place_has_position a b :
  ~ (exists a' b', a = a' ++ [13] /\ b = 10 :: b') -> exists line character, position_at (a ++ b) line (Z.of_nat character) a.
Proof.
  intros Hn.
  destruct (lines_cut (rope_lines (a ++ b)) a b (rope_lines_ropes _) (rope_lines_join _) Hn) as (before & p & q & brk & after & E & H1 & H2 & H3).
  exists (length before), (Z.to_nat (utf16_len p)). pose proof (utf16_len_nonneg p). rewrite Z2Nat.id by done.
  apply (position_at_intro _ _ _ _ before p q brk after); try done. destruct q as [|c q]; [done|]. pose proof (len_utf16_pos c). lia.
Qed.

(** * Edits *)

Section edits.
Context {Tree : Type}.

Definition within (st : DocumentStore Tree) (n : Z) : Prop := match doc_cap st with Some cap => n <= cap | None => True end.

(** What a change makes of a text, in terms of the places its range names. *)
Inductive edited (st : DocumentStore Tree) : str -> TextChange -> str -> Prop :=
  | edited_all t e : range e = None -> within st (str_len (new_text e)) -> edited st t e (new_text e)
  | edited_range e r a removed b :
      range e = Some r ->
      position_at (a ++ removed ++ b) (start_line r) (Z.of_nat (start_character r)) a ->
      position_at (a ++ removed ++ b) (end_line r) (Z.of_nat (end_character r)) (a ++ removed) ->
      str_len (a ++ new_text e ++ b) <= usize_max -> within st (str_len (a ++ new_text e ++ b)) ->
      edited st (a ++ removed ++ b) e (a ++ new_text e ++ b).

Inductive edits (st : DocumentStore Tree) : str -> list TextChange -> str -> Prop :=
  | edits_none t : edits st t [] t
  | edits_one t e t' es t'' : edited st t e t' -> edits st t' es t'' -> edits st t (e :: es) t''.

Lemma validate_size_within st uri n : (exists u, validate_size st uri n = Ok u) <-> within st n.
Proof.
  unfold validate_size, within. destruct (doc_cap st) as [cap|]; [|naive_solver].
  destruct (Z.ltb_spec cap n); split; [by intros [? ?]|lia|done|by eexists].
Qed.

Lemma apply_change_edited st uri t e t' : apply_change st uri t e = Ok t' <-> edited st t e t'.
Proof.
  unfold apply_change. destruct (range e) as [r|] eqn:Er.
  - split.
    + destruct (position_to_offset t (start_line r) _) as [first|] eqn:E1; [|done].
      destruct (position_to_offset t (end_line r) _) as [last|] eqn:E2; [|done].
      apply position_to_offset_spec in E1 as (a & Ha & ->), E2 as (a2 & Ha2 & ->).
      destruct (Nat.ltb_spec (length a2) (length a)); [done|].
      destruct (position_prefix _ _ _ _ Ha) as [r1 E1], (position_prefix _ _ _ _ Ha2) as [b E2].
      assert (exists removed, a2 = a ++ removed) as [removed ->].
      { rewrite E1 in E2. apply app_eq_inv in E2 as [(k & -> & _)|(k & -> & _)]; [|by exists k].
        rewrite length_app in *. destruct k; [exists []; by rewrite !app_nil_r|cbn in *; lia]. }
      rewrite <- app_assoc in E2. clear E1. subst t. rewrite !length_app.
      replace (length a + length removed - length a)%nat with (length removed) by lia.
      rewrite drop_app_length, take_app_length, take_app_length. rewrite (app_assoc a removed b).
      rewrite <- length_app, drop_app_length, <- app_assoc, !str_len_app.
      replace (str_len a + (str_len removed + str_len b) - str_len removed + str_len (new_text e))
        with (str_len (a ++ new_text e ++ b)) by (rewrite !str_len_app; lia).
      destruct (Z.ltb_spec usize_max (str_len (a ++ new_text e ++ b))); [done|].
      pose proof (validate_size_within st uri (str_len (a ++ new_text e ++ b))) as Hv.
      destruct (validate_size _ _ _); [|done]. intros [= <-]. eapply edited_range; eauto. apply Hv. by eexists.
    + inversion 1 as [|e' r' a removed b Er' H1 H2 H3 H4]; subst; [congruence|]. assert (r' = r) as -> by congruence.
      rewrite (position_at_offset _ _ _ _ H1), (position_at_offset _ _ _ _ H2). rewrite !length_app.
      rewrite (proj2 (Nat.ltb_ge _ _)) by lia. replace (length a + length removed - length a)%nat with (length removed) by lia.
      rewrite drop_app_length, take_app_length, take_app_length. rewrite (app_assoc a removed b).
      rewrite <- length_app, drop_app_length, <- app_assoc, !str_len_app in *.
      replace (str_len a + (str_len removed + str_len b) - str_len removed + str_len (new_text e))
        with (str_len a + (str_len (new_text e) + str_len b)) by lia.
      rewrite (proj2 (Z.ltb_ge _ _)) by done. apply (validate_size_within st uri) in H4 as [u ->]. done.
  - pose proof (validate_size_within st uri (str_len (new_text e))) as Hv. split.
    + destruct (validate_size _ _ _); [|done]. intros [= <-]. constructor; [done|]. apply Hv. by eexists.
    + inversion 1; subst; [|congruence]. destruct Hv as [_ Hv]. by destruct Hv as [u ->].
Qed.

Lemma apply_all_edits st uri t es t' : apply_all st uri t es = Ok t' <-> edits st t es t'.
Proof.
  revert t. induction es as [|e es IH]; intros t; cbn [apply_all].
  - split; [intros [= <-]; constructor|]. by inversion 1.
  - split.
    + destruct (apply_change st uri t e) as [t1|] eqn:E; [|done]. intros H%IH. apply apply_change_edited in E. by econstructor.
    + inversion 1; subst. rewrite (proj2 (apply_change_edited st uri _ _ _)) by done. by apply IH.
Qed.

(** Whether a client's version is news. *)
Definition newer (client : option Z) (d : Document) : Prop :=
  match client with Some received => client_version d < received | None => True end.

(** A batch of edits is applied as a whole or not at all.  It succeeds
    exactly when the document is open, the client's version is newer and every
    change in turn names places of the text before it, the first one not behind
    the second, and leaves it within the limits; then the text is the one the
    changes make, each putting its new text between the two places, the version
    counts one more, the client's version is recorded and the cached tree is
    dropped; otherwise nothing changes at all. *)
Lemma edits_are_transactional uri changes client st :
  let '(st', r) := apply_changes_inner uri changes client st in
  match r with
  | Ok (t, v) =>
      exists d, docs st !! uri = Some d /\ newer client d /\ edits st (text d) changes t /\ v = version d + 1 /\
        st' = set_trees (delete uri (trees st))
                (set_docs (<[uri := {| text := t; version := v; client_version := default (client_version d) client |}]> (docs st)) st)
  | Err _ =>
      st' = st /\ forall d, docs st !! uri = Some d -> newer client d -> forall t, ~ edits st (text d) changes t
  end.
Proof.
  unfold apply_changes_inner. destruct (docs st !! uri) as [d|] eqn:Ed; [|done].
  set (stale := match client with Some received => received <=? client_version d | None => false end).
  assert (stale = false <-> newer client d) as Hs.
  { unfold stale, newer. destruct client as [received|]; [|done]. destruct (Z.leb_spec received (client_version d)); split; (done || lia). }
  destruct stale; [split; [done|]; intros d' [= <-] Hn; by apply Hs in Hn|].
  destruct (apply_all st uri (text d) changes) as [t|err] eqn:E.
  - exists d. apply apply_all_edits in E. split_and!; try done. by apply Hs.
  - split; [done|]. intros d' [= <-] _ t Ht. apply (apply_all_edits st uri) in Ht. congruence.
Qed.

(** Positions name the places of a text.  A line and a UTF-16 column lead
    to the place behind that many units of the line, or before the character
    that holds the unit, a column behind the line's end to its end in front of
    the line break; every line of the text has all its columns, no other line
    has any; and every place that is not inside a line break has a position. *)
Lemma positions_name_places t line character :
  (forall n, position_to_offset t line character = Some n <->
     exists place, position_at t line (Z.of_nat character) place /\ n = length place) /\
  (is_Some (position_to_offset t line character) <-> (line < length (rope_lines t))%nat) /\
  (forall a b, t = a ++ b -> ~ (exists a' b', a = a' ++ [13] /\ b = 10 :: b') ->
     exists line character, position_to_offset t line character = Some (length a)).
Proof.
  split; [intros n; apply position_to_offset_spec|]. split.
  - unfold position_to_offset. destruct (rope_lines t !! line) as [l|] eqn:E.
    + apply lookup_lt_Some in E. split; [done|by eexists].
    + apply lookup_ge_None in E. split; [by intros [? ?]|lia].
  - intros a b -> Hn. destruct (place_has_position a b Hn) as (l & c & H). exists l, c. by apply position_at_offset.
Qed.

(** C8: Edits happen at the places their positions name, as a whole or not at
    all.  A line and a UTF-16 column lead to the place behind that many units of
    the line, or before the character that holds the unit, a column behind the
    line's end to its end in front of the line break; every line of the text has
    all its columns, no other line has any; and every place that is not inside a
    line break has a position.  A batch of edits succeeds exactly when the
    document is open, the client's version is newer and every change in turn
    names places of the text before it, the first one not behind the second, and
    leaves it within the limits; then the text is the one the changes make, each
    putting its new text between the two places, the version counts one more,
    the client's version is recorded and the cached tree is dropped; otherwise
    nothing changes at all. *)
Theorem document_edits_exact :
  (forall uri changes client st,
    let '(st', r) := apply_changes_inner uri changes client st in
      match r with
      | Ok (t, v) =>
          exists d, docs st !! uri = Some d /\ newer client d /\ edits st (text d) changes t /\ v = version d + 1 /\
            st' = set_trees (delete uri (trees st))
                    (set_docs (<[uri := {| text := t; version := v; client_version := default (client_version d) client |}]> (docs st)) st)
      | Err _ =>
          st' = st /\ forall d, docs st !! uri = Some d -> newer client d -> forall t, ~ edits st (text d) changes t
      end) /\
  (forall t line character,
    (forall n, position_to_offset t line character = Some n <->
         exists place, position_at t line (Z.of_nat character) place /\ n = length place) /\
      (is_Some (position_to_offset t line character) <-> (line < length (rope_lines t))%nat) /\
      (forall a b, t = a ++ b -> ~ (exists a' b', a = a' ++ [13] /\ b = 10 :: b') ->
         exists line character, position_to_offset t line character = Some (length a))).
Proof. exact (conj edits_are_transactional positions_name_places). Qed.
End edits.
End positions.

(** * At work *)

Definition two_lines : str := lit "ab" ++ [10] ++ lit "cd".
Definition opened_lines : DocumentStore unit := (open_with_client_version (lit "a") two_lines 3 new_store).1.
Definition insert_x (line : nat) : TextChange :=
  {| range := Some {| start_line := line; start_character := 1; end_line := line; end_character := 9 |}; new_text := lit "x" |}.

Lemma document_edits_exact_witness :
  (edits opened_lines two_lines [insert_x 0; insert_x 1] (lit "ax" ++ [10] ++ lit "cx") /\
  forall t, ~ edits opened_lines two_lines [insert_x 0; insert_x 2] t) /\
  (exists line character, position_to_offset two_lines line character = Some (length (lit "ab" ++ [10] ++ lit "c"))).
Proof.
  split.
  { pose proof (proj1 (document_edits_exact (RL := text_rope_laws) (Tree := unit))) as H_edits_are_transactional. split.
  - destruct (H_edits_are_transactional (lit "a") [insert_x 0; insert_x 1] (Some 4) opened_lines) as (d & Hd & _ & He & _).
    injection Hd as <-. exact He.
  - destruct (H_edits_are_transactional (lit "a") [insert_x 0; insert_x 2] (Some 4) opened_lines) as [_ H].
    apply (H {| text := two_lines; version := 0; client_version := 3 |}); reflexivity. }
  { pose proof (proj2 (document_edits_exact (RL := text_rope_laws) (Tree := unit))) as H_positions_name_places. apply (proj2 (proj2 (H_positions_name_places two_lines 0%nat 0%nat)) (lit "ab" ++ [10] ++ lit "c") (lit "d") eq_refl).
  intros (a' & b' & _ & [=]). }
Defined.
