(* ===== verification/DocumentCache.v ===== *)
(** The tree cache of the document store: it serves only trees of the text that
    is open, keeps within its cap, and forgets the least recently used tree. *)

From Stdlib Require Import ZArith Lia Sorting.Sorted Sorting.Permutation.
From stdpp Require Import base tactics numbers option list gmap fin_maps strings sorting.
From S2P Require Import Prelude RustStr Documents DocumentSpec.

#[local] Open Scope Z_scope.

Section cache.
Context {R : Rope} {Tree : Type}.
Implicit Types st : DocumentStore Tree.
Implicit Types c : CachedTree Tree.

(** * Stamps *)

(** Access stamps are older than the counter, and no two trees share one. *)
Definition stamped st : Prop :=
  (forall uri c, trees st !! uri = Some c -> last_access c < tree_access_counter st) /\
  (forall uri c uri' c', trees st !! uri = Some c -> trees st !! uri' = Some c' -> last_access c = last_access c' -> uri = uri').

Lemma stamped_touch uri v t st :
  stamped st ->
  stamped (set_trees (<[uri := {| tree_version := v; tree := t; last_access := tree_access_counter st |}]> (trees st))
             (next_tree_stamp st).2).
Proof.
  intros [H1 H2]. split; cbn.
  - intros uri' c'. destruct (decide (uri' = uri)) as [->|Hne].
    + rewrite lookup_insert_eq. intros [= <-]. cbn. lia.
    + rewrite lookup_insert_ne by done. intros H%H1. lia.
  - intros u1 c1 u2 c2. destruct (decide (u1 = uri)) as [->|N1], (decide (u2 = uri)) as [->|N2]; try done;
      rewrite ?lookup_insert_eq, ?lookup_insert_ne by done.
    + intros [= <-] Hc2%H1. cbn. lia.
    + intros Hc1%H1 [= <-]. cbn. lia.
    + apply H2.
Qed.

Lemma stamped_sub st st' :
  stamped st -> trees st' ⊆ trees st -> tree_access_counter st <= tree_access_counter st' -> stamped st'.
Proof.
  intros [H1 H2] Hs Hc. split.
  - intros uri c H. apply (lookup_weaken _ _ _ _ H) in Hs. apply H1 in Hs. lia.
  - intros u1 c1 u2 c2 E1 E2. apply H2; by eapply lookup_weaken.
Qed.

(** * Eviction *)

Lemma foldl_delete (m : gmap str (CachedTree Tree)) l k :
  foldl (fun m (su : Z * str) => delete su.2 m) m l !! k = if decide (k ∈ l.*2) then None else m !! k.
Proof.
  revert m. induction l as [|[s u] l IH]; intros m; [done|]. cbn [foldl]. rewrite IH. cbn.
  destruct (decide (k ∈ l.*2)), (decide (k ∈ u :: l.*2)) as [Hin|Hin]; rewrite ?elem_of_cons in Hin; try done; try tauto.
  - destruct Hin as [->|?]; [|tauto]. apply lookup_delete_eq.
  - apply lookup_delete_ne. naive_solver.
Qed.

Definition stamps st : list (Z * str) := (fun uc => (last_access (snd uc), fst uc)) <$> map_to_list (trees st).
Definition sorted_stamps st : list (Z * str) := sort_by (fun a b : Z * str => fst a ?= fst b) (stamps st).

#[local] Instance stamp_order : OrderOn (fun _ => True) (fun a b : Z * str => fst a ?= fst b).
Proof.
  split.
  - intros x y _ _. apply Z.compare_antisym.
  - intros c x y z _ _ _. destruct c; rewrite ?Z.compare_eq_iff, ?Z.compare_lt_iff, ?Z.compare_gt_iff; lia.
Qed.

Lemma sorted_stamps_perm st : sorted_stamps st ≡ₚ stamps st.
Proof. apply sort_by_perm. Qed.

Lemma sorted_stamps_length st : length (sorted_stamps st) = size (trees st).
Proof. rewrite sorted_stamps_perm. unfold stamps. by rewrite length_fmap, length_map_to_list. Qed.

Lemma stamps_keys_nodup st : NoDup (sorted_stamps st).*2.
Proof.
  rewrite sorted_stamps_perm. unfold stamps. rewrite <- list_fmap_compose. apply NoDup_fst_map_to_list.
Qed.

Lemma elem_stamps st s u : (s, u) ∈ sorted_stamps st <-> exists c, trees st !! u = Some c /\ s = last_access c.
Proof.
  rewrite sorted_stamps_perm. unfold stamps. rewrite list_elem_of_fmap. split.
  - intros ([u' c] & [= -> ->] & H%elem_of_map_to_list). by exists c.
  - intros (c & H & ->). exists (u, c). split; [done|]. by apply elem_of_map_to_list.
Qed.

Definition to_remove st : nat := (size (trees st) - max_cached_trees st)%nat.

(** Whether eviction takes the tree of [u]. *)
Definition evicted st (u : str) : Prop := max_cached_trees st <> O /\ u ∈ (take (to_remove st) (sorted_stamps st)).*2.

Lemma evict_lookup st u :
  trees (evict_trees_over_cap st) !! u = if decide (u ∈ (take (if (max_cached_trees st =? 0)%nat then O else to_remove st) (sorted_stamps st)).*2)
    then None else trees st !! u.
Proof.
  unfold evict_trees_over_cap. destruct (max_cached_trees st =? 0)%nat eqn:E0; [done|].
  destruct (Nat.leb_spec (size (trees st)) (max_cached_trees st)) as [Hle|Hgt].
  - unfold to_remove. replace (size (trees st) - max_cached_trees st)%nat with O by lia. done.
  - cbn [trees set_trees]. fold (stamps st) (sorted_stamps st). rewrite foldl_delete, sorted_stamps_length. done.
Qed.

Lemma evict_sub st : trees (evict_trees_over_cap st) ⊆ trees st.
Proof. apply map_subseteq_spec. intros u c. rewrite evict_lookup. by case_decide. Qed.

Lemma evict_rest st :
  docs (evict_trees_over_cap st) = docs st /\ tree_access_counter (evict_trees_over_cap st) = tree_access_counter st /\
  parse_locks (evict_trees_over_cap st) = parse_locks st.
Proof. unfold evict_trees_over_cap. repeat case_match; done. Qed.

(** What is evicted was used before everything that stays. *)
Lemma evict_oldest st u c u' c' :
  stamped st -> trees st !! u = Some c -> trees (evict_trees_over_cap st) !! u = None ->
  trees (evict_trees_over_cap st) !! u' = Some c' -> last_access c < last_access c'.
Proof.
  intros [_ Hinj] Hu He Hk. rewrite evict_lookup in He, Hk. set (n := if _ : bool then _ else _) in *. clearbody n.
  destruct (decide (u ∈ _)) as [Hin|]; [|congruence]. destruct (decide (u' ∈ _)) as [|Hout]; [done|].
  pose proof (sort_by_sorted _ (fun _ => True) (stamps st) ltac:(by apply Forall_true)) as Hs. fold (sorted_stamps st) in Hs.
  rewrite <- (take_drop n (sorted_stamps st)) in Hs. apply list_elem_of_fmap in Hin as ([s u1] & [= <-] & Hin).
  assert ((last_access c', u') ∈ drop n (sorted_stamps st)) as Hd.
  { assert ((last_access c', u') ∈ sorted_stamps st) as Hall by (apply elem_stamps; by exists c').
    rewrite <- (take_drop n (sorted_stamps st)), elem_of_app in Hall. destruct Hall as [Ht|]; [|done].
    destruct Hout. apply list_elem_of_fmap. by exists (last_access c', u'). }
  assert ((s, u) ∈ sorted_stamps st) as Hs1 by (rewrite <- (take_drop n (sorted_stamps st)), elem_of_app; by left).
  apply elem_stamps in Hs1 as (c1 & Hc1 & ->). rewrite Hu in Hc1. injection Hc1 as <-.
  assert (last_access c <= last_access c') as Hle.
  { clear -Hs Hin Hd. induction (take n (sorted_stamps st)) as [|x l IH]; [by apply not_elem_of_nil in Hin|]. cbn [app] in Hs.
    inversion Hs as [|? ? Hs' Hx]; subst. apply elem_of_cons in Hin as [<-|Hin]; [|by apply IH].
    rewrite Forall_forall in Hx. specialize (Hx (last_access c', u')). rewrite elem_of_app in Hx.
    specialize (Hx (or_intror Hd)). unfold cmp_le in Hx. cbn in Hx. by rewrite Z.compare_gt_iff in Hx; lia || apply Z.compare_le_iff in Hx. }
  destruct (decide (last_access c = last_access c')) as [E|]; [|lia].
  specialize (Hinj u c u' c' Hu Hk E). subst u'. destruct Hout. apply list_elem_of_fmap. by exists (last_access c, u).
Qed.

Lemma foldl_delete_size (m : gmap str (CachedTree Tree)) (l : list (Z * str)) :
  NoDup l.*2 -> (forall s u, (s, u) ∈ l -> is_Some (m !! u)) ->
  size (foldl (fun m (su : Z * str) => delete su.2 m) m l) = (size m - length l)%nat.
Proof.
  revert m. induction l as [|[s u] l IH]; intros m Hd Hm; cbn [foldl length]; [lia|].
  cbn in Hd. apply NoDup_cons in Hd as [Hu Hd]. rewrite IH; [|done|].
  - cbn. rewrite map_size_delete_Some by (apply (Hm s u); by left). lia.
  - intros s' u' Hin. cbn. rewrite lookup_delete_ne; [apply (Hm s'); by right|]. intros ->. apply Hu.
    apply list_elem_of_fmap. by exists (s', u').
Qed.

Lemma evict_size st :
  max_cached_trees st <> O -> size (trees (evict_trees_over_cap st)) = Nat.min (size (trees st)) (max_cached_trees st).
Proof.
  intros Hc. unfold evict_trees_over_cap. destruct (Nat.eqb_spec (max_cached_trees st) 0); [done|].
  destruct (Nat.leb_spec (size (trees st)) (max_cached_trees st)); [lia|]. cbn [trees set_trees].
  fold (stamps st) (sorted_stamps st). rewrite foldl_delete_size.
  - rewrite length_take, sorted_stamps_length. lia.
  - pose proof (stamps_keys_nodup st) as Hn. rewrite <- (take_drop (length (sorted_stamps st) - max_cached_trees st) (sorted_stamps st)) in Hn.
    rewrite fmap_app in Hn. by apply NoDup_app in Hn as [? _].
  - intros s u Hin. assert ((s, u) ∈ sorted_stamps st) as Hs
      by (rewrite <- (take_drop (length (sorted_stamps st) - max_cached_trees st) (sorted_stamps st)), elem_of_app; by left).
    apply elem_stamps in Hs as (c & -> & _). by eexists.
Qed.

Definition new_entry st (v : Z) (t : Tree) : CachedTree Tree :=
  {| tree_version := v; tree := t; last_access := tree_access_counter st |}.

Lemma cache_tree_unfold uri v t st :
  cache_tree uri v t st = evict_trees_over_cap (set_trees (<[uri := new_entry st v t]> (trees st)) (next_tree_stamp st).2).
Proof. done. Qed.

Lemma cache_tree_keeps_new uri v t st : stamped st -> trees (cache_tree uri v t st) !! uri = Some (new_entry st v t).
Proof.
  intros Hs. rewrite cache_tree_unfold. set (st1 := set_trees _ _).
  assert (stamped st1) as Hs1 by by apply stamped_touch.
  assert (trees st1 !! uri = Some (new_entry st v t)) as Hu by apply lookup_insert_eq.
  destruct (trees (evict_trees_over_cap st1) !! uri) as [c|] eqn:E.
  { by rewrite (lookup_weaken _ _ _ _ E (evict_sub st1)) in Hu. }
  exfalso. assert (max_cached_trees st1 <> O) as Hc.
  { intros H0. unfold evict_trees_over_cap in E. rewrite H0 in E. change (trees st1 !! uri = None) in E. congruence. }
  pose proof (evict_size st1 Hc) as Hsz. assert (size (trees st1) <> O) as Hne.
  { intros H0%map_size_empty_inv. rewrite H0 in Hu. by rewrite lookup_empty in Hu. }
  assert (exists u c, trees (evict_trees_over_cap st1) !! u = Some c) as (u & c & Hk).
  { destruct (map_choose (trees (evict_trees_over_cap st1))) as (u & c & H); [|by exists u, c].
    intros H0. rewrite H0, map_size_empty in Hsz. lia. }
  pose proof (evict_oldest st1 uri _ u c Hs1 Hu E Hk) as Hlt. cbn in Hlt.
  pose proof (lookup_weaken _ _ _ _ Hk (evict_sub st1)) as Hk1. destruct Hs1 as [H1 _]. specialize (H1 u c Hk1).
  cbn in H1. lia.
Qed.

(** * Sessions

    Requests of one store in any order; a parse captures text and version, and
    its tree is cached later, with other requests in between. *)

Context (parse : str -> Tree).

Record Session := { store : DocumentStore Tree; captures : list (str * str * Z) }.

Definition captures_of (uri : str) (s : Session) : Prop := exists t v, (uri, t, v) ∈ captures s.

(** A document is opened only while it is not open, and closed or renamed only
    while no parse of it is in flight. *)
Inductive step : Session -> Session -> Prop :=
  | step_open uri t client st cs :
      docs st !! uri = None ->
      step {| store := st; captures := cs |} {| store := (open_with_client_version uri t client st).1; captures := cs |}
  | step_replace uri t st cs :
      step {| store := st; captures := cs |} {| store := (replace_or_open uri t st).1; captures := cs |}
  | step_close uri st cs :
      ~ captures_of uri {| store := st; captures := cs |} ->
      step {| store := st; captures := cs |} {| store := (close uri st).1; captures := cs |}
  | step_rename old new st cs :
      ~ captures_of old {| store := st; captures := cs |} ->
      step {| store := st; captures := cs |} {| store := (rename old new st).1; captures := cs |}
  | step_edit uri changes client st cs :
      step {| store := st; captures := cs |} {| store := (apply_changes_inner uri changes client st).1; captures := cs |}
  | step_capture uri t v st cs :
      get_text_and_version st uri = Some (t, v) ->
      step {| store := st; captures := cs |} {| store := st; captures := (uri, t, v) :: cs |}
  | step_cache uri t v st cs cs' :
      (uri, t, v) ∈ cs -> cs' ⊆ cs ->
      step {| store := st; captures := cs |} {| store := cache_tree uri v (parse t) st; captures := cs' |}
  | step_read uri expected st cs :
      step {| store := st; captures := cs |} {| store := (cached_tree uri expected st).2; captures := cs |}
  | step_lock uri fresh st cs :
      step {| store := st; captures := cs |} {| store := (parse_lock uri fresh st).2; captures := cs |}
  | step_tree_cap cap st cs :
      step {| store := st; captures := cs |} {| store := set_max_cached_trees cap st; captures := cs |}
  | step_doc_cap cap st cs :
      step {| store := st; captures := cs |} {| store := set_max_doc_bytes cap st; captures := cs |}.

Inductive reachable : Session -> Prop :=
  | reachable_new : reachable {| store := new_store; captures := [] |}
  | reachable_step s s' : reachable s -> step s s' -> reachable s'.

(** A version of an open document, and the text it had if it is the current
    one. *)
Definition known st (uri : str) (v : Z) (holds : str -> Prop) : Prop :=
  exists d, docs st !! uri = Some d /\ v <= version d /\ (v = version d -> holds (text d)).

Definition fresh (s : Session) : Prop :=
  stamped (store s) /\
  (forall uri c, trees (store s) !! uri = Some c -> known (store s) uri (tree_version c) (fun t => tree c = parse t)) /\
  (forall uri t v, (uri, t, v) ∈ captures s -> known (store s) uri v (fun t' => t = t')).

Lemma known_edited st uri u v holds d d' m :
  known st u v holds -> docs st !! uri = Some d -> version d < version d' -> m = <[uri := d']> (docs st) ->
  forall st', docs st' = m -> known st' u v holds.
Proof.
  intros (d0 & H0 & Hv & Ht) Hd Hlt -> st' E. destruct (decide (u = uri)) as [->|Hne].
  - exists d'. rewrite E, lookup_insert_eq. split; [done|]. simplify_eq. split; [lia|]. intros ->. lia.
  - exists d0. rewrite E, lookup_insert_ne by done. done.
Qed.

Lemma known_docs st st' u v holds : docs st' = docs st -> known st u v holds -> known st' u v holds.
Proof. intros E (d & H). exists d. by rewrite E. Qed.

(** The entry of [uri] is removed from the trees, and the document changes. *)
Lemma fresh_edited uri d d' st st' cs :
  fresh {| store := st; captures := cs |} -> docs st !! uri = Some d -> version d < version d' ->
  docs st' = <[uri := d']> (docs st) -> trees st' = delete uri (trees st) -> tree_access_counter st' = tree_access_counter st ->
  fresh {| store := st'; captures := cs |}.
Proof.
  intros (Hs & Ht & Hc) Hd Hlt Ed Et Ec. split_and!; cbn in *.
  - eapply stamped_sub; [exact Hs|rewrite Et; apply delete_subseteq|lia].
  - intros u c. rewrite Et. intros [Hne Hu]%lookup_delete_Some. eapply known_edited; eauto.
  - intros u t v H. eapply known_edited; eauto.
Qed.

(** A document that was not open is opened. *)
Lemma fresh_opened uri d st st' cs :
  fresh {| store := st; captures := cs |} -> docs st !! uri = None ->
  docs st' = <[uri := d]> (docs st) -> trees st' ⊆ trees st -> tree_access_counter st' = tree_access_counter st ->
  fresh {| store := st'; captures := cs |}.
Proof.
  intros (Hs & Ht & Hc) Hd Ed Et Ec. assert (forall u v holds, known st u v holds -> known st' u v holds) as Hk.
  { intros u v holds (d0 & H0 & H). exists d0. rewrite Ed, lookup_insert_ne; [done|]. congruence. }
  split_and!; cbn in *.
  - eapply stamped_sub; [exact Hs|done|lia].
  - intros u c Hu. apply Hk, Ht. by eapply lookup_weaken.
  - intros u t v H. by apply Hk, Hc.
Qed.

(** Nothing but trees and stamps changes, and no tree is younger than known. *)
Lemma fresh_trees st st' cs cs' :
  fresh {| store := st; captures := cs |} -> docs st' = docs st -> stamped st' -> cs' ⊆ cs ->
  (forall uri c, trees st' !! uri = Some c ->
     (exists c0, trees st !! uri = Some c0 /\ tree_version c = tree_version c0 /\ tree c = tree c0) \/
     (exists t, (uri, t, tree_version c) ∈ cs /\ tree c = parse t)) ->
  fresh {| store := st'; captures := cs' |}.
Proof.
  intros (Hs & Ht & Hc) Ed Hs' Hcs Hu. split_and!; cbn in *; [done| |].
  - intros uri c H. apply (known_docs st); [done|]. destruct (Hu uri c H) as [(c0 & H0 & -> & ->)|(t & Hin & ->)]; [by apply Ht|].
    destruct (Hc uri t _ Hin) as (d & Hd & Hv & Heq). exists d. split_and!; [done|done|]. intros E. by rewrite (Heq E).
  - intros uri t v H. apply (known_docs st); [done|]. by apply Hc, Hcs.
Qed.

Lemma fresh_cached_tree uri expected st cs :
  fresh {| store := st; captures := cs |} -> fresh {| store := (cached_tree uri expected st).2; captures := cs |}.
Proof.
  intros H. pose proof H as (Hs & _ & _). cbn in Hs. unfold cached_tree. cbn [next_tree_stamp].
  assert (fresh {| store := (next_tree_stamp st).2; captures := cs |}) as Hn.
  { apply (fresh_trees st _ cs cs); [done|done| |done|intros u c Hc; left; by exists c].
    eapply stamped_sub; [exact Hs|done|cbn; lia]. }
  unfold next_tree_stamp in *. cbn [fst snd docs trees] in *.
  destruct (docs st !! uri) as [d|]; [|exact Hn]. destruct (trees st !! uri) as [c|] eqn:Ec; [|exact Hn].
  destruct (_ && _); [|exact Hn]. apply (fresh_trees st _ cs cs); [done|done| |done|].
  - by apply (stamped_touch uri (tree_version c) (tree c) st).
  - intros u c'. cbn. destruct (decide (u = uri)) as [->|Hne].
    + rewrite lookup_insert_eq. intros [= <-]. left. by exists c.
    + rewrite lookup_insert_ne by done. intros Hc'. left. by exists c'.
Qed.

Lemma fresh_cache_tree uri t v st cs cs' :
  fresh {| store := st; captures := cs |} -> (uri, t, v) ∈ cs -> cs' ⊆ cs ->
  fresh {| store := cache_tree uri v (parse t) st; captures := cs' |}.
Proof.
  intros H Hin Hcs. pose proof H as (Hs & _ & _). cbn in Hs. rewrite cache_tree_unfold.
  set (st1 := set_trees _ _). assert (stamped st1) as Hs1 by by apply stamped_touch.
  apply (fresh_trees st _ cs cs'); [done|by destruct (evict_rest st1) as [-> _]| |done|].
  - eapply stamped_sub; [exact Hs1|apply evict_sub|]. by destruct (evict_rest st1) as (_ & -> & _).
  - intros u c Hu. pose proof (lookup_weaken _ _ _ _ Hu (evict_sub st1)) as H1. unfold st1 in H1. cbn in H1.
    destruct (decide (u = uri)) as [->|Hne].
    + rewrite lookup_insert_eq in H1. injection H1 as <-. right. by exists t.
    + rewrite lookup_insert_ne in H1 by done. left. by exists c.
Qed.

Lemma move_entry_lookup {A} (old new : str) (m : gmap str A) (k : str) :
  old <> new -> m !! new = None ->
  move_entry old new m !! k = if decide (k = new) then m !! old else if decide (k = old) then None else m !! k.
Proof.
  intros Hne Hn. unfold move_entry. destruct (m !! old) as [a|] eqn:Ho.
  - destruct (decide (k = new)) as [->|Hk]; [by rewrite lookup_insert_eq|]. rewrite lookup_insert_ne by done.
    destruct (decide (k = old)) as [->|Hk']; [by rewrite lookup_delete_eq|by rewrite lookup_delete_ne].
  - destruct (decide (k = new)) as [->|Hk]; [done|]. destruct (decide (k = old)) as [->|Hk']; done.
Qed.

(** Moving the entries of a document that is not open elsewhere. *)
Lemma fresh_rename old new st cs :
  fresh {| store := st; captures := cs |} -> ~ captures_of old {| store := st; captures := cs |} ->
  fresh {| store := (rename old new st).1; captures := cs |}.
Proof.
  intros H Hno. unfold rename. unfold str_eqb. case_bool_decide as Hon; [done|].
  destruct (docs st !! new) eqn:En; [done|]. destruct (docs st !! old) as [d|] eqn:Eo; [|done]. cbn [fst].
  destruct H as ([Hs1 Hs2] & Ht & Hc). cbn in *.
  assert (trees st !! new = None) as Htn.
  { destruct (trees st !! new) as [c|] eqn:E; [|done]. destruct (Ht new c E) as (d' & Hd' & _). congruence. }
  assert (forall k, move_entry old new (trees st) !! k =
    if decide (k = new) then trees st !! old else if decide (k = old) then None else trees st !! k) as Hm
    by (intros k; by apply move_entry_lookup).
  assert (forall k c, move_entry old new (trees st) !! k = Some c -> exists k', trees st !! k' = Some c /\ k' <> new /\
    (k = new /\ k' = old \/ k = k' /\ k <> old /\ k <> new)) as Hback.
  { intros k c. rewrite Hm. destruct (decide (k = new)) as [->|]; [intros E; exists old; tauto|].
    destruct (decide (k = old)); [done|]. intros E. exists k. tauto. }
  split_and!; cbn [store captures trees docs set_trees set_docs set_locks tree_access_counter].
  - split; cbn.
    + intros u c (k & Hk & _)%Hback. by eapply Hs1.
    + intros u c u' c' (k & Hk & _ & Hu)%Hback (k' & Hk' & _ & Hu')%Hback E. specialize (Hs2 _ _ _ _ Hk Hk' E). naive_solver.
  - intros u c (k & Hk & _ & Hu)%Hback. destruct (Ht k c Hk) as (d' & Hd' & Hr).
    destruct Hu as [[-> ->]|(-> & H1 & H2)].
    + exists d. cbn. rewrite lookup_insert_eq. split; [done|]. by replace d with d' by congruence.
    + exists d'. cbn. rewrite lookup_insert_ne, lookup_delete_ne by done. done.
  - intros u t v Hin. destruct (Hc u t v Hin) as (d' & Hd' & Hr). exists d'. cbn.
    rewrite lookup_insert_ne by congruence. rewrite lookup_delete_ne; [done|]. intros ->. apply Hno. by exists t, v.
Qed.

Lemma fresh_close uri st cs :
  fresh {| store := st; captures := cs |} -> ~ captures_of uri {| store := st; captures := cs |} ->
  fresh {| store := (close uri st).1; captures := cs |}.
Proof.
  intros (Hs & Ht & Hc) Hno. cbn in *. split_and!; cbn.
  - eapply stamped_sub; [exact Hs|apply delete_subseteq|done].
  - intros u c [Hne Hu]%lookup_delete_Some. destruct (Ht u c Hu) as (d & Hd & Hr). exists d. cbn. by rewrite lookup_delete_ne.
  - intros u t v Hin. destruct (Hc u t v Hin) as (d & Hd & Hr). exists d. cbn. rewrite lookup_delete_ne; [done|].
    intros ->. apply Hno. by exists t, v.
Qed.

Lemma fresh_step s s' : fresh s -> step s s' -> fresh s'.
Proof.
  intros H Hstep. destruct Hstep as [uri t client st cs Hn|uri t st cs|uri st cs Hno|old new st cs Hno|uri changes client st cs
    |uri t v st cs Hg|uri t v st cs cs' Hin Hsub|uri expected st cs|uri lock st cs|cap st cs|cap st cs].
  - unfold open_with_client_version. destruct (validate_size _ _ _); [|done]. cbn [fst].
    eapply (fresh_opened uri _ st); [done|done|done|done|done].
  - unfold replace_or_open. destruct (validate_size _ _ _); [|done]. cbn [fst]. destruct (docs st !! uri) as [d|] eqn:E.
    + eapply (fresh_edited uri d _ st); [done|done| |done|done|done]. cbn. lia.
    + eapply (fresh_opened uri _ st); [done|done|done|apply delete_subseteq|done].
  - by apply fresh_close.
  - by apply fresh_rename.
  - unfold apply_changes_inner. destruct (docs st !! uri) as [d|] eqn:E; [|done]. destruct (match client with Some _ => _ | None => _ end); [done|].
    destruct (apply_all _ _ _ _); [|done]. cbn [fst]. eapply (fresh_edited uri d _ st); [done|done| |done|done|done]. cbn. lia.
  - destruct H as (Hs & Ht & Hc). split_and!; cbn in *; [done|done|]. intros u t' v' [E|Hin]%elem_of_cons; [|by apply Hc].
    unfold get_text_and_version in Hg. destruct (docs st !! uri) as [d|] eqn:Ed; [|done]. cbn in Hg. simplify_eq. by exists d.
  - by eapply fresh_cache_tree.
  - by apply fresh_cached_tree.
  - unfold parse_lock. by destruct (parse_locks st !! uri).
  - done.
  - done.
Qed.

Lemma reachable_fresh s : reachable s -> fresh s.
Proof.
  induction 1 as [|s s' _ IH Hstep]; [|by eapply fresh_step]. split_and!; cbn; [split; cbn| |].
  1, 3: by intros u c; rewrite lookup_empty. { by intros u c u' c'; rewrite lookup_empty. } by intros u t v ?%not_elem_of_nil.
Qed.

Lemma cached_tree_current s uri expected t st' :
  fresh s -> cached_tree uri expected (store s) = (Some t, st') ->
  exists d, docs (store s) !! uri = Some d /\ t = parse (text d) /\ match expected with Some v => v = version d | None => True end.
Proof.
  intros (_ & Ht & _) H. unfold cached_tree, next_tree_stamp in H. cbn [docs trees] in H.
  destruct (docs (store s) !! uri) as [d|] eqn:Ed; [|done]. destruct (trees (store s) !! uri) as [c|] eqn:Ec; [|done].
  destruct (Ht uri c Ec) as (d' & Hd' & Hv & Heq). rewrite Ed in Hd'. injection Hd' as <-. exists d.
  destruct (_ && _) eqn:Em; [|done]. injection H as <- _. apply andb_true_iff in Em as [E1%Z.eqb_eq E2].
  split_and!; [done|by apply Heq|]. destruct expected; [|done]. apply Z.eqb_eq in E2. lia.
Qed.

Lemma cached_tree_docs uri expected st : docs (cached_tree uri expected st).2 = docs st.
Proof. unfold cached_tree, next_tree_stamp. cbn [docs trees]. repeat case_match; by simplify_eq. Qed.

(** The tree cache serves only the tree of the text that is open.  In every
    session in which a document is opened only while it is not open, and closed
    or renamed only with no parse of it in flight, a cached tree that is found
    is the parse of the document's current text, and of the version asked for;
    and [get_or_parse] gives exactly the open documents, each with its text and
    the tree of that text. *)
Lemma tree_cache_serves_current s uri lock :
  reachable s ->
  (forall expected t st', cached_tree uri expected (store s) = (Some t, st') ->
     exists d, docs (store s) !! uri = Some d /\ t = parse (text d) /\ match expected with Some v => v = version d | None => True end) /\
  (get_or_parse parse uri lock (store s)).1 = (fun d => (text d, parse (text d))) <$> docs (store s) !! uri.
Proof.
  intros Hr%reachable_fresh. split; [intros expected t st'; by apply cached_tree_current|]. destruct s as [st cs]. cbn [store] in *.
  unfold get_or_parse, get_text_and_version. destruct (docs st !! uri) as [d|] eqn:Ed; cbn [fmap option_fmap option_map]; [|done].
  unfold get_cached_tree_at_version. pose proof (fresh_cached_tree uri (Some (version d)) st cs Hr) as F1.
  destruct (cached_tree uri (Some (version d)) st) as [[t|] st1] eqn:E1.
  { destruct (cached_tree_current _ _ _ _ _ Hr E1) as (d' & Hd' & -> & _). cbn in *. by simplify_eq. }
  assert (docs st1 = docs st) as Hd1 by (by rewrite <- (cached_tree_docs uri (Some (version d)) st), E1).
  cbn [snd] in F1. destruct (parse_lock uri lock st1) as [l st2] eqn:E2.
  assert (docs st2 = docs st /\ fresh {| store := st2; captures := cs |}) as [Hd2 F2].
  { unfold parse_lock in E2. destruct (parse_locks st1 !! uri); injection E2 as <- <-; (split; [exact Hd1|exact F1]). }
  rewrite Hd2, Ed. cbn [fmap option_fmap option_map].
  destruct (cached_tree uri (Some (version d)) st2) as [[t|] st3] eqn:E3; [|done].
  destruct (cached_tree_current _ _ _ _ _ F2 E3) as (d' & Hd' & -> & _). cbn in Hd'. rewrite Hd2, Ed in Hd'. by injection Hd' as <-.
Qed.

(** The tree cache is bounded and forgets the least recently used.  In
    every session, caching a tree leaves at most the cap of trees (any number
    when the cap is 0), the new tree among them; no other tree changes but by
    leaving; and each that leaves was used before every one that stays, a hit
    counting as a use. *)
Lemma tree_cache_is_lru s uri v t :
  reachable s ->
  let st := store s in let st' := cache_tree uri v t st in
  (max_cached_trees st <> O -> (size (trees st') <= max_cached_trees st)%nat) /\
  trees st' !! uri = Some (new_entry st v t) /\
  (forall u c, u <> uri -> trees st' !! u = Some c -> trees st !! u = Some c) /\
  (forall u c u' c', u <> uri -> trees st !! u = Some c -> trees st' !! u = None -> trees st' !! u' = Some c' ->
     last_access c < last_access c') /\
  (forall expected hit st1 u c, cached_tree uri expected st = (Some hit, st1) -> u <> uri -> trees st1 !! u = Some c ->
     exists c', trees st1 !! uri = Some c' /\ last_access c < last_access c').
Proof.
  intros Hr%reachable_fresh st st'. destruct Hr as (Hs & _ & _). fold st in Hs. unfold st'. rewrite cache_tree_unfold.
  set (st1 := set_trees _ _). assert (stamped st1) as Hs1 by by apply stamped_touch. split_and!.
  - intros Hc. rewrite evict_size by done. cbn. lia.
  - by apply (cache_tree_keeps_new uri v t st).
  - intros u c Hne H. pose proof (lookup_weaken _ _ _ _ H (evict_sub st1)) as H1.
    unfold st1 in H1. cbn in H1. by rewrite lookup_insert_ne in H1.
  - intros u c u' c' Hne Hu Hn Hk. eapply (evict_oldest st1 u c); [done| |done|done]. unfold st1. cbn. by rewrite lookup_insert_ne.
  - intros expected hit st2 u c H Hne Hu. unfold cached_tree, next_tree_stamp in H. cbn [docs trees] in H.
    destruct (docs st !! uri) as [d|]; [|done]. destruct (trees st !! uri) as [c0|]; [|done]. destruct (_ && _); [|done].
    injection H as _ <-. cbn in Hu |- *. rewrite lookup_insert_eq. eexists. split; [done|]. cbn.
    rewrite lookup_insert_ne in Hu by done. destruct Hs as [H1 _]. by apply (H1 u).
Qed.

(** C9: The tree cache serves only the tree of the text that is open, is
    bounded, and forgets the least recently used.  In every session in which a
    document is opened only while it is not open, and closed or renamed only
    with no parse of it in flight, a cached tree that is found is the parse of
    the document's current text, and of the version asked for; [get_or_parse]
    gives exactly the open documents, each with its text and the tree of that
    text.  Caching a tree leaves at most the cap of trees (any number when the
    cap is 0), the new tree among them; no other tree changes but by leaving;
    and each that leaves was used before every one that stays, a hit counting
    as a use. *)
Theorem tree_cache_exact :
  (forall s uri lock,
    reachable s ->
      (forall expected t st', cached_tree uri expected (store s) = (Some t, st') ->
         exists d, docs (store s) !! uri = Some d /\ t = parse (text d) /\ match expected with Some v => v = version d | None => True end) /\
      (get_or_parse parse uri lock (store s)).1 = (fun d => (text d, parse (text d))) <$> docs (store s) !! uri) /\
  (forall s uri v t,
    reachable s ->
      let st := store s in let st' := cache_tree uri v t st in
      (max_cached_trees st <> O -> (size (trees st') <= max_cached_trees st)%nat) /\
      trees st' !! uri = Some (new_entry st v t) /\
      (forall u c, u <> uri -> trees st' !! u = Some c -> trees st !! u = Some c) /\
      (forall u c u' c', u <> uri -> trees st !! u = Some c -> trees st' !! u = None -> trees st' !! u' = Some c' ->
         last_access c < last_access c') /\
      (forall expected hit st1 u c, cached_tree uri expected st = (Some hit, st1) -> u <> uri -> trees st1 !! u = Some c ->
         exists c', trees st1 !! uri = Some c' /\ last_access c < last_access c')).
Proof. exact (conj tree_cache_serves_current tree_cache_is_lru). Qed.
End cache.

(** * Examples *)

(** A store where every text is its own parse. *)
Definition opened : DocumentStore str := (open_with_client_version (lit "a") (lit "x") 1 new_store).1.

Lemma opened_reachable : reachable (fun t => t) {| store := opened; captures := [] |}.
Proof. eapply reachable_step; [apply reachable_new|]. apply (step_open _ (lit "a") (lit "x") 1). reflexivity. Qed.

(** Opening a document over an open one starts its versions again and leaves
    the cache: the tree of the old text is served for the new one. *)
Example reopening_serves_stale_tree :
  let st := (get_or_parse (fun t => t) (lit "a") 0 opened).2 in
  let st := (open_with_client_version (lit "a") (lit "y") 1 st).1 in
  (get_or_parse (fun t => t) (lit "a") 0 st).1 = Some (lit "y", lit "x").
Proof. vm_compute. reflexivity. Qed.

Lemma tree_cache_exact_witness :
  ((get_or_parse (fun t => t) (lit "a") 0 opened).1 = Some (lit "x", lit "x")) /\
  (trees (cache_tree (lit "a") 0 (lit "x") opened) !! lit "a" = Some (new_entry opened 0 (lit "x"))).
Proof.
  split.
  { pose proof (proj1 (tree_cache_exact (fun t => t))) as H_tree_cache_serves_current. etransitivity; [exact (proj2 (H_tree_cache_serves_current _ (lit "a") 0%nat opened_reachable))|reflexivity]. }
  { pose proof (proj2 (tree_cache_exact (fun t => t))) as H_tree_cache_is_lru. exact (proj1 (proj2 (H_tree_cache_is_lru _ (lit "a") 0 (lit "x") opened_reachable))). }
Defined.
