(* ===== verification/Bytes.v ===== *)
(** Bytes: little-endian integers and lossy UTF-8.

    A byte is a [Z] from 0 to 255.  [of_le] and [le_bytes] are
    [from_le_bytes] and [to_le_bytes] of an unsigned integer, [as_signed] the
    reading of its bits as two's complement. *)

From Stdlib Require Import ZArith Lia.
From stdpp Require Import base tactics numbers option list.
From S2P Require Import Prelude RustStr.

#[local] Open Scope Z_scope.

(** * Integers *)

Fixpoint le_bytes (n : nat) (z : Z) : list Z :=
  match n with O => [] | S n => z mod 256 :: le_bytes n (z / 256) end.

Fixpoint of_le (bs : list Z) : Z :=
  match bs with [] => 0 | b :: bs => b + 256 * of_le bs end.

Definition as_signed (bits : Z) (z : Z) : Z := if z <? 2 ^ (bits - 1) then z else z - 2 ^ bits.

Definition is_byte (b : Z) : Prop := 0 <= b < 256.

Lemma length_le_bytes n z : length (le_bytes n z) = n.
Proof. revert z. induction n as [|n IH]; intros z; cbn; [done|by rewrite IH]. Qed.

Lemma le_bytes_bytes n z : Forall is_byte (le_bytes n z).
Proof. revert z. induction n as [|n IH]; intros z; cbn; constructor; [by apply Z.mod_pos_bound|apply IH]. Qed.

Lemma of_le_bounds bs : Forall is_byte bs -> 0 <= of_le bs < 256 ^ Z.of_nat (length bs).
Proof.
  induction 1 as [|b bs Hb _ IH]; [done|]. unfold is_byte in Hb. cbn [of_le length].
  rewrite Nat2Z.inj_succ, Z.pow_succ_r by lia. lia.
Qed.

Lemma of_le_bytes n z : of_le (le_bytes n z) = z mod 256 ^ Z.of_nat n.
Proof.
  revert z. induction n as [|n IH]; intros z; [cbn; by rewrite Z.mod_1_r|]. cbn [le_bytes of_le]. rewrite IH.
  rewrite Nat2Z.inj_succ, Z.pow_succ_r by lia. rewrite Z.rem_mul_r; [lia|done|lia].
Qed.

Lemma of_le_bytes_small n z : 0 <= z < 256 ^ Z.of_nat n -> of_le (le_bytes n z) = z.
Proof. intros H. rewrite of_le_bytes. by apply Z.mod_small. Qed.

Lemma as_signed_bounds bits z : 0 < bits -> 0 <= z < 2 ^ bits -> - 2 ^ (bits - 1) <= as_signed bits z < 2 ^ (bits - 1).
Proof.
  intros Hb Hz. unfold as_signed. assert (2 ^ bits = 2 * 2 ^ (bits - 1)) as E.
  { rewrite <- Z.pow_succ_r by lia. f_equal. lia. }
  destruct (Z.ltb_spec z (2 ^ (bits - 1))); lia.
Qed.

Lemma as_signed_mod bits z : 0 < bits -> - 2 ^ (bits - 1) <= z < 2 ^ (bits - 1) -> as_signed bits (z mod 2 ^ bits) = z.
Proof.
  intros Hb Hz. unfold as_signed. assert (2 ^ bits = 2 * 2 ^ (bits - 1)) as E.
  { rewrite <- Z.pow_succ_r by lia. f_equal. lia. }
  destruct (decide (0 <= z)).
  - rewrite Z.mod_small by lia. destruct (Z.ltb_spec z (2 ^ (bits - 1))); lia.
  - replace (z mod 2 ^ bits) with (z + 2 ^ bits).
    + destruct (Z.ltb_spec (z + 2 ^ bits) (2 ^ (bits - 1))); lia.
    + rewrite <- (Z.mod_small (z + 2 ^ bits) (2 ^ bits)) by lia. by rewrite <- Z.add_mod_idemp_r, Z.mod_same, Z.add_0_r by lia.
Qed.

Lemma as_signed_le_bytes n z :
  (0 < n)%nat -> - 2 ^ (8 * Z.of_nat n - 1) <= z < 2 ^ (8 * Z.of_nat n - 1) ->
  as_signed (8 * Z.of_nat n) (of_le (le_bytes n z)) = z.
Proof.
  intros Hn Hz. rewrite of_le_bytes. replace (256 ^ Z.of_nat n) with (2 ^ (8 * Z.of_nat n)).
  - apply as_signed_mod; lia.
  - rewrite Z.pow_mul_r by lia. done.
Qed.

(** * [String::from_utf8_lossy]

    A sequence that is cut short or wrong becomes one U+FFFD for its longest
    prefix that could have begun a character. *)

Definition replacement : char := 65533.
Definition is_continuation (b : Z) : bool := (128 <=? b) && (b <? 192).

(** Whether [b1] can follow the lead byte [b0] of three or four bytes. *)
Definition second_of_three (b0 b1 : Z) : bool :=
  if b0 =? 224 then (160 <=? b1) && (b1 <? 192)
  else if b0 =? 237 then (128 <=? b1) && (b1 <? 160)
  else is_continuation b1.
Definition second_of_four (b0 b1 : Z) : bool :=
  if b0 =? 240 then (144 <=? b1) && (b1 <? 192)
  else if b0 =? 244 then (128 <=? b1) && (b1 <? 144)
  else is_continuation b1.

Fixpoint from_utf8_lossy (bs : list Z) : str :=
  match bs with
  | [] => []
  | b0 :: r0 =>
      if b0 <? 128 then b0 :: from_utf8_lossy r0
      else if (194 <=? b0) && (b0 <? 224) then
        match r0 with
        | b1 :: r1 =>
            if is_continuation b1 then ((b0 - 192) * 64 + (b1 - 128)) :: from_utf8_lossy r1
            else replacement :: from_utf8_lossy r0
        | [] => [replacement]
        end
      else if (224 <=? b0) && (b0 <? 240) then
        match r0 with
        | b1 :: r1 =>
            if second_of_three b0 b1 then
              match r1 with
              | b2 :: r2 =>
                  if is_continuation b2 then ((b0 - 224) * 4096 + (b1 - 128) * 64 + (b2 - 128)) :: from_utf8_lossy r2
                  else replacement :: from_utf8_lossy r1
              | [] => [replacement]
              end
            else replacement :: from_utf8_lossy r0
        | [] => [replacement]
        end
      else if (240 <=? b0) && (b0 <? 245) then
        match r0 with
        | b1 :: r1 =>
            if second_of_four b0 b1 then
              match r1 with
              | b2 :: r2 =>
                  if is_continuation b2 then
                    match r2 with
                    | b3 :: r3 =>
                        if is_continuation b3 then
                          ((b0 - 240) * 262144 + (b1 - 128) * 4096 + (b2 - 128) * 64 + (b3 - 128)) :: from_utf8_lossy r3
                        else replacement :: from_utf8_lossy r2
                    | [] => [replacement]
                    end
                  else replacement :: from_utf8_lossy r1
              | [] => [replacement]
              end
            else replacement :: from_utf8_lossy r0
        | [] => [replacement]
        end
      else replacement :: from_utf8_lossy r0
  end.

(** A Unicode scalar value. *)
Definition is_scalar (c : char) : Prop := 0 <= c < 55296 \/ 57344 <= c < 1114112.

Ltac true_bool := repeat (apply andb_true_iff; split); first [apply Z.ltb_lt|apply Z.leb_le]; lia.
Ltac false_bool := apply andb_false_iff; first [left; apply Z.leb_gt; lia|right; apply Z.ltb_ge; lia].

Lemma continuation_of b : 0 <= b < 64 -> is_continuation (128 + b) = true.
Proof. intros. unfold is_continuation. true_bool. Qed.

Lemma lossy_two a b s : 2 <= a < 32 -> 0 <= b < 64 ->
  from_utf8_lossy (192 + a :: 128 + b :: s) = a * 64 + b :: from_utf8_lossy s.
Proof.
  intros Ha Hb. cbn [from_utf8_lossy]. rewrite (proj2 (Z.ltb_ge _ _)) by lia.
  rewrite continuation_of by done. replace ((194 <=? 192 + a) && (192 + a <? 224)) with true by (symmetry; true_bool).
  f_equal. lia.
Qed.

Lemma lossy_three a b d s : 0 <= a < 16 -> 0 <= b < 64 -> 0 <= d < 64 -> (a = 0 -> 32 <= b) -> (a = 13 -> b < 32) ->
  from_utf8_lossy (224 + a :: 128 + b :: 128 + d :: s) = a * 4096 + b * 64 + d :: from_utf8_lossy s.
Proof.
  intros Ha Hb Hd H0 H13. cbn [from_utf8_lossy]. rewrite (proj2 (Z.ltb_ge _ _)) by lia.
  replace ((194 <=? 224 + a) && (224 + a <? 224)) with false by (symmetry; false_bool).
  replace ((224 <=? 224 + a) && (224 + a <? 240)) with true by (symmetry; true_bool).
  assert (second_of_three (224 + a) (128 + b) = true) as ->.
  { unfold second_of_three. destruct (Z.eqb_spec (224 + a) 224); [true_bool|].
    destruct (Z.eqb_spec (224 + a) 237); [true_bool|by apply continuation_of]. }
  rewrite continuation_of by done. f_equal. lia.
Qed.

Lemma lossy_four a b d e s : 0 <= a < 5 -> 0 <= b < 64 -> 0 <= d < 64 -> 0 <= e < 64 -> (a = 0 -> 16 <= b) -> (a = 4 -> b < 16) ->
  from_utf8_lossy (240 + a :: 128 + b :: 128 + d :: 128 + e :: s) = a * 262144 + b * 4096 + d * 64 + e :: from_utf8_lossy s.
Proof.
  intros Ha Hb Hd He H0 H4. cbn [from_utf8_lossy]. rewrite (proj2 (Z.ltb_ge _ _)) by lia.
  replace ((194 <=? 240 + a) && (240 + a <? 224)) with false by (symmetry; false_bool).
  replace ((224 <=? 240 + a) && (240 + a <? 240)) with false by (symmetry; false_bool).
  replace ((240 <=? 240 + a) && (240 + a <? 245)) with true by (symmetry; true_bool).
  assert (second_of_four (240 + a) (128 + b) = true) as ->.
  { unfold second_of_four. destruct (Z.eqb_spec (240 + a) 240); [true_bool|].
    destruct (Z.eqb_spec (240 + a) 244); [true_bool|by apply continuation_of]. }
  rewrite !continuation_of by done. f_equal. lia.
Qed.

(** The digits of a character to base 64. *)
Lemma base64 c : 0 <= c ->
  c = c / 64 * 64 + c mod 64 /\ 0 <= c mod 64 < 64 /\
  c / 64 = c / 4096 * 64 + (c / 64) mod 64 /\ 0 <= (c / 64) mod 64 < 64 /\
  c / 4096 = c / 262144 * 64 + (c / 4096) mod 64 /\ 0 <= (c / 4096) mod 64 < 64 /\ 0 <= c / 262144.
Proof.
  intros Hc. replace (c / 262144) with (c / 4096 / 64) by (by rewrite Z.div_div).
  replace (c / 4096) with (c / 64 / 64) by (by rewrite Z.div_div).
  pose proof (Z.div_mod c 64 ltac:(done)). pose proof (Z.div_mod (c / 64) 64 ltac:(done)).
  pose proof (Z.div_mod (c / 64 / 64) 64 ltac:(done)).
  pose proof (Z.mod_pos_bound c 64 ltac:(lia)). pose proof (Z.mod_pos_bound (c / 64) 64 ltac:(lia)).
  pose proof (Z.mod_pos_bound (c / 64 / 64) 64 ltac:(lia)).
  pose proof (Z.div_pos c 64 ltac:(lia) ltac:(lia)). pose proof (Z.div_pos (c / 64) 64 ltac:(lia) ltac:(lia)).
  pose proof (Z.div_pos (c / 64 / 64) 64 ltac:(lia) ltac:(lia)). lia.
Qed.

Lemma utf8_lossy_char c s : is_scalar c -> from_utf8_lossy (utf8_encode_char c ++ s) = c :: from_utf8_lossy s.
Proof.
  intros Hc. unfold utf8_encode_char, is_scalar in *. destruct (base64 c) as (E1 & B1 & E2 & B2 & E3 & B3 & B4); [lia|].
  destruct (Z.ltb_spec c 128); [cbn; by rewrite (proj2 (Z.ltb_lt _ _)) by done|].
  destruct (Z.ltb_spec c 2048); [|destruct (Z.ltb_spec c 65536)]; cbn [app].
  - rewrite lossy_two by lia. f_equal. lia.
  - rewrite lossy_three by lia. f_equal. lia.
  - rewrite lossy_four by lia. f_equal. lia.
Qed.

Lemma utf8_lossy_encode s : Forall is_scalar s -> from_utf8_lossy (utf8_encode s) = s.
Proof.
  unfold utf8_encode. induction 1 as [|c s Hc _ IH]; [done|]. cbn [mbind list_bind]. by rewrite utf8_lossy_char, IH.
Qed.

Lemma utf8_encode_length s : Z.of_nat (length (utf8_encode s)) = str_len s.
Proof.
  unfold utf8_encode. induction s as [|c s IH]; [done|]. cbn [mbind list_bind]. rewrite length_app, Nat2Z.inj_add, IH.
  cbn [str_len foldr]. f_equal. unfold utf8_encode_char, len_utf8. repeat case_match; done.
Qed.

Lemma utf8_encode_bytes s : Forall is_scalar s -> Forall is_byte (utf8_encode s).
Proof.
  unfold utf8_encode. induction 1 as [|c s Hc _ IH]; [constructor|]. cbn [mbind list_bind]. apply Forall_app. split; [|done].
  unfold utf8_encode_char, is_scalar, is_byte in *. destruct (base64 c) as (E1 & B1 & E2 & B2 & E3 & B3 & B4); [lia|].
  destruct (Z.ltb_spec c 128); [|destruct (Z.ltb_spec c 2048); [|destruct (Z.ltb_spec c 65536)]]; repeat constructor; lia.
Qed.
