(* ===== verification/Snapshots.v ===== *)
(** Snapshot archives ([al-bc/src/snapshot/archive.rs]): the recorded method
    contexts, the bounds checked FlatBuffers reader, and the zip around them.

    A buffer is its list of bytes and a position a [Z].  The code never adds to
    a position without having read there, so no addition passes [usize::MAX].
    The zip library is a parameter: an archive is what the library gives, the
    list of entries with their names, declared sizes and inflated bytes. *)

From Stdlib Require Import ZArith Lia.
From stdpp Require Import base tactics numbers option list gmap strings.
From S2P Require Import Prelude RustStr StrSearch TextLines Bytes.

#[local] Open Scope Z_scope.
#[local] Open Scope rust_scope.

Definition MAX_VARIABLE_DEPTH : nat := 64.
Definition MAX_NODES : Z := 2000000.
Definition MAX_VECTOR_LEN : Z := 1000000.
Definition MAX_ENTRIES : Z := 200000.
Definition MAX_ENTRY_BYTES : Z := 64 * 1024 * 1024.
Definition MAX_TOTAL_BYTES : Z := 1024 * 1024 * 1024.
Definition SUPPORTED_MAJOR : Z := 3.

Inductive ArchiveError :=
  | Io (e : str)
  | Zip (msg : str)
  | Limit (msg : str)
  | Format (msg : str)
  | Version (msg : str).

Definition archive_error_str (e : ArchiveError) : str :=
  match e with
  | Io e => lit "cannot read snapshot file: " ++ e
  | Zip msg => lit "snapshot zip is not readable: " ++ msg
  | Limit msg => lit "snapshot zip exceeds a safety limit: " ++ msg
  | Format msg => lit "snapshot data is malformed: " ++ msg
  | Version msg => msg
  end.

Definition bad {A} (msg : str) : Res ArchiveError A := Err (Format msg).

(** * Objects *)

Inductive ObjectType :=
  | TableData | Table | Form | Report | Dataport | CodeUnit | XmlPort | MenuSuite | Page | Query | System
  | FieldNumber | LimitedUsageTableData | TablePage | PageExtension | TableExtension | Enum | EnumExtension
  | ReportExtension | Interface
  | Other (v : Z).

#[export] Instance ObjectType_eq_dec : EqDecision ObjectType.
Proof. solve_decision. Defined.

Definition NAMED : list (Z * ObjectType) :=
  [(0, TableData); (1, Table); (2, Form); (3, Report); (4, Dataport); (5, CodeUnit); (6, XmlPort); (7, MenuSuite);
   (8, Page); (9, Query); (10, System); (11, FieldNumber); (12, LimitedUsageTableData); (13, TablePage);
   (14, PageExtension); (15, TableExtension); (16, Enum); (17, EnumExtension); (22, ReportExtension); (28, Interface)].

Definition from_i8 (v : Z) : ObjectType :=
  match List.find (fun nt => fst nt =? v) NAMED with Some (_, t) => t | None => Other v end.

Definition as_i8 (t : ObjectType) : Z :=
  match t with
  | Other v => v
  | t => match List.find (fun nt => bool_decide (snd nt = t)) NAMED with Some (v, _) => v | None => 0 end
  end.

(** The derived [Debug], which is the name of the constructor. *)
Definition debug_name (t : ObjectType) : str :=
  match t with
  | TableData => lit "TableData" | Table => lit "Table" | Form => lit "Form" | Report => lit "Report"
  | Dataport => lit "Dataport" | CodeUnit => lit "CodeUnit" | XmlPort => lit "XmlPort" | MenuSuite => lit "MenuSuite"
  | Page => lit "Page" | Query => lit "Query" | System => lit "System" | FieldNumber => lit "FieldNumber"
  | LimitedUsageTableData => lit "LimitedUsageTableData" | TablePage => lit "TablePage"
  | PageExtension => lit "PageExtension" | TableExtension => lit "TableExtension" | Enum => lit "Enum"
  | EnumExtension => lit "EnumExtension" | ReportExtension => lit "ReportExtension" | Interface => lit "Interface"
  | Other v => lit "Other(" ++ i64_to_str v ++ lit ")"
  end.

Definition object_name (t : ObjectType) : str :=
  match t with Other v => lit "Unknown" ++ i64_to_str v | t => debug_name t end.

Definition from_name (s : str) : option ObjectType :=
  List.find (fun t => eq_ignore_ascii_case (debug_name t) s) (snd <$> NAMED).

Definition display_name (t : ObjectType) : str :=
  match t with CodeUnit => lit "Codeunit" | t => object_name t end.

(** A key that tells [Other] from the named types. *)
Definition type_code (t : ObjectType) : bool * Z := (match t with Other _ => true | _ => false end, as_i8 t).
Definition type_of_code (c : bool * Z) : ObjectType := let '(other, v) := c in if (other : bool) then Other v else from_i8 v.

#[export] Instance ObjectType_countable : Countable ObjectType.
Proof. refine (inj_countable' type_code type_of_code _). by intros []. Defined.

Record ObjectId := { object_type : ObjectType; number : Z }.
Definition default_id : ObjectId := {| object_type := TableData; number := 0 |}.

(** * Method contexts *)

Record SourcePosition := { line : Z; column : Z }.
Record SourceSpan := { from : SourcePosition; to : SourcePosition }.
Definition default_position : SourcePosition := {| line := 0; column := 0 |}.
Definition default_span : SourceSpan := {| from := default_position; to := default_position |}.

Definition first_line (s : SourceSpan) : Z := line (from s) + 1.
Definition last_line (s : SourceSpan) : Z := line (to s) + 1.

Record TimeSpan := { start_time : Z; end_time : Z }.
Record DeclaringApplication := { app_name : str; app_publisher : str; app_version : str; app_id : str }.
Record ExceptionContext := { message : str; line_number : Z; exception_span : SourceSpan }.

(** [Variable], a word of the language here. *)
Inductive Var := mkVariable (name value type_name : str) (has_children : bool) (children : list Var).
Definition name (v : Var) : str := let '(mkVariable n _ _ _ _) := v in n.
Definition value (v : Var) : str := let '(mkVariable _ x _ _ _) := v in x.
Definition type_name (v : Var) : str := let '(mkVariable _ _ t _ _) := v in t.
Definition has_children (v : Var) : bool := let '(mkVariable _ _ _ h _) := v in h.
Definition children (v : Var) : list Var := let '(mkVariable _ _ _ _ c) := v in c.

Record LineContext := { ordinal : Z; statement_span : SourceSpan; variables : list Var; timestamp : Z }.
Record StackFrame := { method_name : str; frame_id : ObjectId; frame_object : str; frame_span : SourceSpan }.

Record MethodContext := {
  index : Z;
  id : ObjectId;
  context_method : str;
  exception : option ExceptionContext;
  frames : list StackFrame;
  line_contexts : list LineContext;
  execution_span : TimeSpan;
  app : option DeclaringApplication;
  is_builtin_code_unit_call : bool;
  is_incomplete_measurement : bool;
}.

Record FormatVersion := { major : Z; minor : Z; build : Z; revision : Z }.

Definition format_version_str (v : FormatVersion) : str :=
  i64_to_str (major v) ++ lit "." ++ i64_to_str (minor v) ++ lit "." ++ i64_to_str (build v) ++ lit "." ++ i64_to_str (revision v).

(** * Reading a buffer *)

Definition blen (b : list Z) : Z := Z.of_nat (length b).

(** [b.get(pos..pos + n)]. *)
Definition slice (b : list Z) (pos n : Z) : option (list Z) :=
  if pos + n <=? blen b then Some (take (Z.to_nat n) (drop (Z.to_nat pos) b)) else None.

Definition bytes_at (n : Z) (b : list Z) (pos : Z) : Res ArchiveError (list Z) :=
  match slice b pos n with
  | Some s => Ok s
  | None => bad (lit "read of " ++ u64_to_str n ++ lit " bytes at " ++ u64_to_str pos ++ lit " is outside the "
                 ++ u64_to_str (blen b) ++ lit " byte buffer")
  end.

Definition u16_at b pos : Res ArchiveError Z := s <-? bytes_at 2 b pos; Ok (of_le s).
Definition u32_at b pos : Res ArchiveError Z := s <-? bytes_at 4 b pos; Ok (of_le s).
Definition i32_at b pos : Res ArchiveError Z := s <-? bytes_at 4 b pos; Ok (as_signed 32 (of_le s)).
Definition i64_at b pos : Res ArchiveError Z := s <-? bytes_at 8 b pos; Ok (as_signed 64 (of_le s)).

Definition follow (b : list Z) (pos : Z) : Res ArchiveError Z :=
  off <-? u32_at b pos;
  if pos + off <? blen b then Ok (pos + off)
  else bad (lit "offset " ++ u64_to_str off ++ lit " at " ++ u64_to_str pos ++ lit " leaves the " ++ u64_to_str (blen b)
            ++ lit " byte buffer").

(** * Tables *)

Record Tab := { buffer : list Z; pos : Z; vt : Z; vt_len : Z; tab_len : option Z }.

Definition tab_at (b : list Z) (pos : Z) (lenient : bool) : Res ArchiveError Tab :=
  so <-? i32_at b pos;
  let vt := pos - so in
  if (vt <? 0) || (Z.max (blen b) 1 <=? vt) then
    bad (lit "vtable of table at " ++ u64_to_str pos ++ lit " is outside the buffer")
  else
    vt_len <-? u16_at b vt;
    if vt_len <? 4 then
      if lenient then Ok {| buffer := b; pos := pos; vt := vt; vt_len := 0; tab_len := None |}
      else bad (lit "vtable at " ++ u64_to_str vt ++ lit " is " ++ u64_to_str vt_len ++ lit " bytes, shorter than its header")
    else if blen b <? vt + vt_len then bad (lit "vtable at " ++ u64_to_str vt ++ lit " runs past the end of the buffer")
    else
      tab_len <-? u16_at b (vt + 2);
      if blen b <? pos + tab_len then bad (lit "table at " ++ u64_to_str pos ++ lit " runs past the end of the buffer")
      else Ok {| buffer := b; pos := pos; vt := vt; vt_len := vt_len; tab_len := Some tab_len |}.

Definition field (t : Tab) (slot : Z) : Res ArchiveError (option Z) :=
  let o := 4 + 2 * slot in
  if vt_len t <? o + 2 then Ok None
  else
    off <-? u16_at (buffer t) (vt t + o);
    if off =? 0 then Ok None
    else match tab_len t with
         | Some len =>
             if len <=? off then bad (lit "field offset " ++ u64_to_str off ++ lit " is outside a " ++ u64_to_str len ++ lit " byte table")
             else Ok (Some (pos t + off))
         | None => Ok (Some (pos t + off))
         end.

(** What a field holds, or a default when it is absent. *)
Definition field_or {A} (t : Tab) (slot : Z) (absent : A) (read : Z -> Res ArchiveError A) : Res ArchiveError A :=
  p <-? field t slot; match p with Some p => read p | None => Ok absent end.

Definition tab_i32 t slot default : Res ArchiveError Z := field_or t slot default (i32_at (buffer t)).
Definition tab_i64 t slot : Res ArchiveError Z := field_or t slot 0 (i64_at (buffer t)).
Definition tab_i8 t slot : Res ArchiveError Z :=
  field_or t slot 0 (fun p => s <-? bytes_at 1 (buffer t) p; Ok (as_signed 8 (of_le s))).
Definition tab_bool t slot : Res ArchiveError bool :=
  field_or t slot false (fun p => s <-? bytes_at 1 (buffer t) p; Ok (negb (of_le s =? 0))).

Definition tab_string t slot : Res ArchiveError str :=
  field_or t slot [] (fun p =>
    q <-? follow (buffer t) p;
    n <-? u32_at (buffer t) q;
    match slice (buffer t) (q + 4) n with
    | Some raw => Ok (from_utf8_lossy raw)
    | None => bad (lit "string of " ++ u64_to_str n ++ lit " bytes at " ++ u64_to_str q ++ lit " runs past the end of the buffer")
    end).

Definition tab_table t slot : Res ArchiveError (option Tab) :=
  field_or t slot None (fun p => q <-? follow (buffer t) p; sub <-? tab_at (buffer t) q false; Ok (Some sub)).

(** [collect] of fallible items: the first error stops it. *)
Fixpoint try_map {A B} (f : A -> Res ArchiveError B) (l : list A) : Res ArchiveError (list B) :=
  match l with
  | [] => Ok []
  | a :: l => b <-? f a; bs <-? try_map f l; Ok (b :: bs)
  end.

Definition tab_tables t slot : Res ArchiveError (list Tab) :=
  field_or t slot [] (fun p =>
    v <-? follow (buffer t) p;
    n <-? u32_at (buffer t) v;
    if MAX_VECTOR_LEN <? n then bad (lit "vector of " ++ u64_to_str n ++ lit " elements exceeds the limit " ++ u64_to_str MAX_VECTOR_LEN)
    else if blen (buffer t) <? n * 4 + (v + 4) then
      bad (lit "vector of " ++ u64_to_str n ++ lit " elements at " ++ u64_to_str v ++ lit " runs past the end of the buffer")
    else
      try_map (fun i => q <-? follow (buffer t) (v + 4 + 4 * i); tab_at (buffer t) q false) (Z.of_nat <$> seq 0 (Z.to_nat n))).

Definition tab_span t slot : Res ArchiveError SourceSpan :=
  field_or t slot default_span (fun p =>
    to_line <-? u16_at (buffer t) p; to_column <-? u16_at (buffer t) (p + 2);
    from_line <-? u16_at (buffer t) (p + 4); from_column <-? u16_at (buffer t) (p + 6);
    Ok {| from := {| line := from_line; column := from_column |}; to := {| line := to_line; column := to_column |} |}).

Definition tab_time_span t slot : Res ArchiveError TimeSpan :=
  field_or t slot {| start_time := 0; end_time := 0 |} (fun p =>
    first <-? i64_at (buffer t) p; last <-? i64_at (buffer t) (p + 8);
    Ok {| start_time := first; end_time := last |}).

Definition tab_object_id t slot : Res ArchiveError (option ObjectId) :=
  sub <-? tab_table t slot;
  match sub with
  | None => Ok None
  | Some t => n <-? tab_i32 t 0 0; ty <-? tab_i8 t 1; Ok (Some {| object_type := from_i8 ty; number := n |})
  end.

(** * Decoding *)

Definition take_budget (budget : Z) : Res ArchiveError Z :=
  if budget =? 0 then bad (lit "more than " ++ u64_to_str MAX_NODES ++ lit " tables in one method context")
  else Ok (budget - 1).

(** A [for] loop whose body pushes one result and draws on the budget. *)
Fixpoint try_each {A B} (f : A -> Z -> Res ArchiveError (B * Z)) (l : list A) (budget : Z) : Res ArchiveError (list B * Z) :=
  match l with
  | [] => Ok ([], budget)
  | a :: l =>
      '(b, budget) <-? f a budget;
      '(bs, budget) <-? try_each f l budget;
      Ok (b :: bs, budget)
  end.

(** [levels] is [MAX_VARIABLE_DEPTH + 1 - depth], so it is 0 when the depth is
    over the limit. *)
Fixpoint decode_variable (levels : nat) (t : Tab) (budget : Z) : Res ArchiveError (Var * Z) :=
  budget <-? take_budget budget;
  match levels with
  | O => bad (lit "variables nest deeper than " ++ u64_to_str (Z.of_nat MAX_VARIABLE_DEPTH) ++ lit " levels")
  | S levels =>
      subs <-? tab_tables t 0;
      '(children, budget) <-? try_each (decode_variable levels) subs budget;
      has_children <-? tab_bool t 1;
      name <-? tab_string t 2;
      value <-? tab_string t 3;
      type_name <-? tab_string t 4;
      Ok (mkVariable name value type_name has_children children, budget)
  end.

Definition decode_variables (t : Tab) (slot : Z) (budget : Z) : Res ArchiveError (list Var * Z) :=
  subs <-? tab_tables t slot; try_each (decode_variable MAX_VARIABLE_DEPTH) subs budget.

Definition root_table (b : list Z) (lenient : bool) : Res ArchiveError Tab :=
  root <-? u32_at b 0;
  if blen b <=? root then
    bad (lit "root offset " ++ u64_to_str root ++ lit " is outside the " ++ u64_to_str (blen b) ++ lit " byte buffer")
  else tab_at b root lenient.

Definition decode_exception (t : Tab) : Res ArchiveError (option ExceptionContext) :=
  e <-? tab_table t 2;
  match e with
  | None => Ok None
  | Some e =>
      message <-? tab_string e 0; line_number <-? tab_i32 e 1 0; span <-? tab_span e 2;
      Ok (Some {| message := message; line_number := line_number; exception_span := span |})
  end.

Definition decode_frame (f : Tab) (budget : Z) : Res ArchiveError (StackFrame * Z) :=
  budget <-? take_budget budget;
  method_name <-? tab_string f 0; id <-? tab_object_id f 1; object_name <-? tab_string f 2; span <-? tab_span f 3;
  Ok ({| method_name := method_name; frame_id := default default_id id; frame_object := object_name; frame_span := span |}, budget).

Definition decode_line (l : Tab) (budget : Z) : Res ArchiveError (LineContext * Z) :=
  budget <-? take_budget budget;
  ordinal <-? tab_i32 l 0 0; span <-? tab_span l 1;
  '(variables, budget) <-? decode_variables l 2 budget;
  timestamp <-? tab_i64 l 3;
  Ok ({| ordinal := ordinal; statement_span := span; variables := variables; timestamp := timestamp |}, budget).

Definition decode_app (t : Tab) : Res ArchiveError (option DeclaringApplication) :=
  a <-? tab_table t 6;
  match a with
  | None => Ok None
  | Some a =>
      app_name <-? tab_string a 0; publisher <-? tab_string a 1; version <-? tab_string a 2; app_id <-? tab_string a 3;
      Ok (Some {| app_name := app_name; app_publisher := publisher; app_version := version; app_id := app_id |})
  end.

Definition decode_method_context (bytes : list Z) (index : Z) : Res ArchiveError MethodContext :=
  t <-? root_table bytes false;
  exception <-? decode_exception t;
  subs <-? tab_tables t 3;
  '(frames, budget) <-? try_each decode_frame subs MAX_NODES;
  subs <-? tab_tables t 4;
  '(line_contexts, _) <-? try_each decode_line subs budget;
  app <-? decode_app t;
  id <-? tab_object_id t 0;
  method_name <-? tab_string t 1;
  execution_span <-? tab_time_span t 5;
  builtin <-? tab_i8 t 7;
  incomplete <-? tab_i8 t 8;
  Ok {| index := index; id := default default_id id; context_method := method_name; exception := exception; frames := frames;
        line_contexts := line_contexts; execution_span := execution_span; app := app;
        is_builtin_code_unit_call := builtin =? 1; is_incomplete_measurement := incomplete =? 1 |}.

(** * Versions *)

Definition version_fields (t : Tab) : Res ArchiveError FormatVersion :=
  major <-? tab_i32 t 0 SUPPORTED_MAJOR; minor <-? tab_i32 t 1 0; build <-? tab_i32 t 2 0; revision <-? tab_i32 t 3 0;
  Ok {| major := major; minor := minor; build := build; revision := revision |}.

Definition decode_version (bytes : list Z) : Res ArchiveError FormatVersion :=
  match bytes with
  | [] => Err (Version (lit "snapshot version entry is empty: this reader supports format 3.x"))
  | _ =>
      root <-? u32_at bytes 0;
      if blen bytes <=? root then bad (lit "version root offset " ++ u64_to_str root ++ lit " is outside the buffer")
      else t <-? tab_at bytes root true; version_fields t
  end.

Definition check_version (v : FormatVersion) : Res ArchiveError FormatVersion :=
  if major v =? SUPPORTED_MAJOR then Ok v
  else Err (Version (lit "snapshot format version " ++ format_version_str v ++ lit " is not supported: this reader supports format "
                     ++ i64_to_str SUPPORTED_MAJOR ++ lit ".x")).

(** * The zip *)

Record Limits := { entries : Z; entry_bytes : Z; total_bytes : Z }.
Definition default_limits : Limits := {| entries := MAX_ENTRIES; entry_bytes := MAX_ENTRY_BYTES; total_bytes := MAX_TOTAL_BYTES |}.

Record SnapshotArchive := {
  archive_version : FormatVersion;
  contexts : list MethodContext;
  sources : gmap (ObjectType * Z) str;
}.

(** An entry as the zip library gives it.  Reading it yields [inflated], and
    then, when the data is damaged, the error [damage]. *)
Record ZipEntry := { is_dir : bool; entry_name : Res str str; declared : Z; inflated : list Z; damage : option str }.

Inductive EntryKind := EntryVersion | Mdc (n : Z) | Source (t : ObjectType) (id : Z).

Definition file_part (full_name : str) : str := List.last (split_char (ch "/") full_name) full_name.

(** [str::split_once] at a character. *)
Definition split_once (c : char) (s : str) : option (str * str) := '(a, b) ← find_str [c] s; Some (a, drop 1 b).

(** The object named by [<Kind>%<id>.al]. *)
Definition object_of_file_name (name : str) : option (ObjectType * Z) :=
  stem ← strip_suffix (lit ".al") name;
  '(kind, id) ← split_once (ch "%") stem;
  id ← parse_i32 id;
  t ← from_name kind;
  Some (t, id).

Definition classify (full_name : str) : option EntryKind :=
  let name := file_part full_name in
  if str_is name "version" then Some EntryVersion
  else
    match strip_suffix (lit ".mdc") name with
    | Some stem =>
        if negb (str_eqb stem []) && (str_len stem <=? 18) && forallb is_ascii_digit stem then Mdc <$> parse_usize stem
        else None
    | None => '(t, id) ← object_of_file_name name; Some (Source t id)
    end.

(** [entry.take(limit).read_to_end]. *)
Definition read_entry (e : ZipEntry) (limit : Z) : Res ArchiveError (list Z) :=
  if limit <=? blen (inflated e) then Ok (take (Z.to_nat limit) (inflated e))
  else match damage e with Some err => Err (Io err) | None => Ok (inflated e) end.

(** What the loop over the entries has collected. *)
Record Collected := {
  total : Z;
  found_version : option (list Z);
  mdcs : list (Z * str * list Z);
  found_sources : gmap (ObjectType * Z) str;
}.
Definition nothing_collected : Collected := {| total := 0; found_version := None; mdcs := []; found_sources := ∅ |}.

Definition keep_entry (kind : EntryKind) (name : str) (data : list Z) (total : Z) (c : Collected) : Collected :=
  match kind with
  | EntryVersion => {| total := total; found_version := Some data; mdcs := mdcs c; found_sources := found_sources c |}
  | Mdc n => {| total := total; found_version := found_version c; mdcs := mdcs c ++ [(n, name, data)]; found_sources := found_sources c |}
  | Source t id =>
      {| total := total; found_version := found_version c; mdcs := mdcs c;
         found_sources := <[(t, id) := from_utf8_lossy data]> (found_sources c) |}
  end.

Definition collect_entry (limits : Limits) (entry : Res str ZipEntry) (c : Collected) : Res ArchiveError Collected :=
  match entry with
  | Err e => Err (Zip e)
  | Ok e =>
      if is_dir e then Ok c
      else match entry_name e with
      | Err e => Err (Zip e)
      | Ok name =>
          match classify name with
          | None => Ok c
          | Some kind =>
              if entry_bytes limits <? declared e then
                Err (Limit (lit "entry " ++ name ++ lit " declares " ++ u64_to_str (declared e) ++ lit " bytes, the limit is "
                            ++ u64_to_str (entry_bytes limits)))
              else
                data <-? read_entry e (entry_bytes limits + 1);
                if entry_bytes limits <? blen data then
                  Err (Limit (lit "entry " ++ name ++ lit " inflates past " ++ u64_to_str (entry_bytes limits) ++ lit " bytes"))
                else if total_bytes limits <? total c + blen data then
                  Err (Limit (lit "entries inflate past " ++ u64_to_str (total_bytes limits) ++ lit " bytes in total"))
                else Ok (keep_entry kind name data (total c + blen data) c)
          end
      end
  end.

Fixpoint collect_entries (limits : Limits) (es : list (Res str ZipEntry)) (c : Collected) : Res ArchiveError Collected :=
  match es with
  | [] => Ok c
  | e :: es => c <-? collect_entry limits e c; collect_entries limits es c
  end.

(** The contexts of the entries that are not empty. *)
Fixpoint decode_contexts (mdcs : list (Z * str * list Z)) : Res ArchiveError (list MethodContext) :=
  match mdcs with
  | [] => Ok []
  | (n, name, data) :: mdcs =>
      match data with
      | [] => decode_contexts mdcs
      | _ =>
          match decode_method_context data n with
          | Err e => bad (name ++ lit ": " ++ archive_error_str e)
          | Ok ctx => ctxs <-? decode_contexts mdcs; Ok (ctx :: ctxs)
          end
      end
  end.

Definition by_number (a b : Z * str * list Z) : comparison := fst (fst a) ?= fst (fst b).

Definition from_reader_with (zip : Res str (list (Res str ZipEntry))) (limits : Limits) : Res ArchiveError SnapshotArchive :=
  match zip with
  | Err e => Err (Zip e)
  | Ok es =>
      if entries limits <? Z.of_nat (length es) then
        Err (Limit (u64_to_str (Z.of_nat (length es)) ++ lit " entries, the limit is " ++ u64_to_str (entries limits)))
      else
        c <-? collect_entries limits es nothing_collected;
        match found_version c with
        | None => Err (Version (lit "snapshot has no version entry (found none): this reader supports format 3.x"))
        | Some vb =>
            version <-? decode_version vb;
            version <-? check_version version;
            contexts <-? decode_contexts (sort_by by_number (mdcs c));
            Ok {| archive_version := version; contexts := contexts; sources := found_sources c |}
        end
  end.

Definition from_reader zip : Res ArchiveError SnapshotArchive := from_reader_with zip default_limits.

Definition source (a : SnapshotArchive) (t : ObjectType) (n : Z) : option str := sources a !! (t, n).

(** [line] is a [u32]. *)
Definition source_line (a : SnapshotArchive) (t : ObjectType) (n : Z) (line : Z) : option str :=
  if line =? 0 then None else s ← source a t n; str_lines s !! Z.to_nat (line - 1).

Definition id_cmp (a b : ObjectType * Z) : comparison :=
  cmp_then (as_i8 (fst a) ?= as_i8 (fst b)) (snd a ?= snd b).
Definition source_ids (a : SnapshotArchive) : list (ObjectType * Z) := sort_by id_cmp (fst <$> map_to_list (sources a)).

(** * Stops *)

Inductive StopKind := Snappoint | Error.
Record Frame := { stop_method : str; object : ObjectId; stop_object : str; frame_line : Z }.
Record Stop := {
  kind : StopKind;
  context_index : Z;
  line_context_index : nat;
  stop_frames : list Frame;
  locals : list Var;
  globals : list Var;
  error : option str;
}.

Definition source_file_name (f : Frame) : str :=
  object_name (object_type (object f)) ++ lit "%" ++ i64_to_str (number (object f)) ++ lit ".al".

Definition split_scopes (vars : list Var) : list Var * list Var :=
  match vars with
  | g :: rest => if eq_ignore_ascii_case (name g) (lit "<Globals>") then (rest, children g) else (vars, [])
  | [] => (vars, [])
  end.

Definition top_method (ctx : MethodContext) : str :=
  match head (frames ctx) with
  | Some f => match method_name f with [] => context_method ctx | n => n end
  | None => context_method ctx
  end.

Definition build_stop (ctx : MethodContext) (line_context : nat) (span : SourceSpan) (vars : list Var) (error : option str) : Stop :=
  let top := head (frames ctx) in
  let first := {| stop_method := top_method ctx; object := from_option frame_id (id ctx) top;
                  stop_object := from_option frame_object [] top; frame_line := first_line span |} in
  let callers := (fun f => {| stop_method := method_name f; object := frame_id f; stop_object := frame_object f;
                              frame_line := first_line (frame_span f) |}) <$> drop 1 (frames ctx) in
  let '(locals, globals) := split_scopes vars in
  {| kind := match error with Some _ => Error | None => Snappoint end; context_index := index ctx;
     line_context_index := line_context; stop_frames := first :: callers; locals := locals; globals := globals; error := error |}.

(** [usize::try_from(line_number)] as an index of the line contexts. *)
Definition exception_line (ctx : MethodContext) (e : ExceptionContext) : option nat :=
  if line_number e <? 0 then None
  else if Z.of_nat (length (line_contexts ctx)) <=? line_number e then None else Some (Z.to_nat (line_number e)).

Definition default_exception : ExceptionContext := {| message := []; line_number := 0; exception_span := default_span |}.

Definition error_stop (ctx : MethodContext) : Stop :=
  let exc := default default_exception (exception ctx) in
  match (i ← exception_line ctx exc; l ← line_contexts ctx !! i; Some (i, l)) with
  | Some (i, l) => build_stop ctx i (statement_span l) (variables l) (Some (message exc))
  | None => build_stop ctx O (exception_span exc) [] (Some (message exc))
  end.

Definition line_stops (ctx : MethodContext) (exc_idx : option nat) (i : nat) (lc : LineContext) : list Stop :=
  (match variables lc with [] => [] | vars => [build_stop ctx i (statement_span lc) vars None] end) ++
  (if decide (exc_idx = Some i) then [error_stop ctx] else []).

Definition context_stops (ctx : MethodContext) : list Stop :=
  let exc_idx := e ← exception ctx; exception_line ctx e in
  mjoin (imap (line_stops ctx exc_idx) (line_contexts ctx)) ++
  match exception ctx, exc_idx with Some _, None => [error_stop ctx] | _, _ => [] end.

Definition stops (a : SnapshotArchive) : list Stop := contexts a ≫= context_stops.

Definition stop_line (s : Stop) : Z := from_option frame_line 0 (head (stop_frames s)).
