(* ===== verification/SnapshotBuilder.v ===== *)
(** The FlatBuffers builder that the repository's tests write archives with
    ([al-bc/src/snapshot/archive/test_support.rs]).

    It fills a buffer from the back, so children come before their parents and
    every offset points forward.  A position is the number of bytes written so
    far, counted from the end of the finished buffer. *)

From Stdlib Require Import ZArith Lia.
From stdpp Require Import base tactics numbers option list.
From S2P Require Import Prelude RustStr Bytes Snapshots.

#[local] Open Scope Z_scope.

Record B := { rev : list Z }.
Definition empty_builder : B := {| rev := [] |}.

Inductive F := FI32 (v : Z) | FI8 (v : Z) | FBool (v : bool) | FI64 (v : Z) | Raw (bs : list Z) | Off (used : Z).

Definition push (b : B) (chunk : list Z) : B * Z :=
  let r := rev b ++ reverse chunk in ({| rev := r |}, blen r).

Definition build_string (b : B) (s : str) : B * Z :=
  push b (le_bytes 4 (str_len s) ++ utf8_encode s ++ [0]).

Definition build_vector (b : B) (elems : list Z) : B * Z :=
  let start := blen (rev b) in
  let total := 4 + 4 * Z.of_nat (length elems) in
  let used_after := start + total in
  push b (le_bytes 4 (Z.of_nat (length elems)) ++
    mjoin (imap (fun i e => let field_used := used_after - (4 + 4 * Z.of_nat i) in le_bytes 4 (field_used - e)) elems)).

(** The bytes of a field, an offset still being 0. *)
Definition field_bytes (f : F) : list Z :=
  match f with
  | FI32 v => le_bytes 4 v
  | FI8 v => le_bytes 1 v
  | FBool v => [if v then 1 else 0]
  | FI64 v => le_bytes 8 v
  | Raw bs => bs
  | Off _ => [0; 0; 0; 0]
  end.

Record TableParts := { body : list Z; offs : list Z; offpatch : list (Z * Z) }.

Definition add_field (t : TableParts) (sf : nat * F) : TableParts :=
  let '(slot, f) := sf in
  {| body := body t ++ field_bytes f;
     offs := <[slot := blen (body t) mod 65536]> (offs t);
     offpatch := match f with Off used => offpatch t ++ [(blen (body t), used)] | _ => offpatch t end |}.

Definition patch (used_t : Z) (body : list Z) (p : Z * Z) : list Z :=
  let '(o, target) := p in
  let field_used := used_t - o in
  take (Z.to_nat o) body ++ le_bytes 4 (field_used - target) ++ drop (Z.to_nat o + 4) body.

Definition build_table (b : B) (fields : list (nat * F)) : B * Z :=
  let nslots := foldr (fun sf n => Nat.max (S (fst sf)) n) O fields in
  let parts := foldl add_field {| body := [0; 0; 0; 0]; offs := replicate nslots 0; offpatch := [] |} fields in
  let vt_len := 4 + 2 * Z.of_nat nslots in
  let body := le_bytes 4 vt_len ++ drop 4 (body parts) in
  let used_t := blen (rev b) + blen body in
  let body := foldl (patch used_t) body (offpatch parts) in
  let '(b, _) := push b body in
  let vt := le_bytes 2 vt_len ++ le_bytes 2 (blen body) ++ mjoin (le_bytes 2 <$> offs parts) in
  let '(b, _) := push b vt in
  (b, used_t).

Definition finish (b : B) (root : Z) : list Z :=
  let used_after := blen (rev b) + 4 in
  let '(b, _) := push b (le_bytes 4 (used_after - root)) in reverse (rev b).

Definition build_span (from to : Z * Z) : F :=
  Raw (mjoin (le_bytes 2 <$> [fst to; snd to; fst from; snd from])).

(** A field that is left out when its text is empty. *)
Definition string_field (b : B) (slot : nat) (s : str) (f : list (nat * F)) : B * list (nat * F) :=
  match s with
  | [] => (b, f)
  | _ => let '(b, u) := build_string b s in (b, f ++ [(slot, Off u)])
  end.

Definition var (b : B) (name value ty : str) (children : list Z) : B * Z :=
  let f := [(1%nat, FBool (negb (bool_decide (children = []))))] in
  let '(b, f) := string_field b 2 name f in
  let '(b, f) := string_field b 3 value f in
  let '(b, f) := string_field b 4 ty f in
  let '(b, f) := match children with
                 | [] => (b, f)
                 | _ => let '(b, u) := build_vector b children in (b, f ++ [(0%nat, Off u)])
                 end in
  build_table b f.

Definition obj_id (b : B) (ty number : Z) : B * Z := build_table b [(0%nat, FI32 number); (1%nat, FI8 ty)].

Definition version_bytes (major : Z) : list Z :=
  let '(b, t) := build_table empty_builder [(0%nat, FI32 major); (1%nat, FI32 1); (2%nat, FI32 2); (3%nat, FI32 3)] in finish b t.

(** The 64 bytes found in real files. *)
Definition real_version_bytes : list Z := replicate 56 0 ++ [4; 0; 4; 0; 4; 0; 0; 0].

(** * What the builder writes, read from the front *)

Definition bytes (b : B) : list Z := reverse (rev b).

Lemma blen_app a b : blen (a ++ b) = blen a + blen b.
Proof. unfold blen. rewrite length_app. lia. Qed.

Lemma blen_nonneg a : 0 <= blen a.
Proof. unfold blen. lia. Qed.

Lemma blen_cons x a : blen (x :: a) = 1 + blen a.
Proof. unfold blen. cbn [length]. lia. Qed.

Lemma blen_le n z : blen (le_bytes n z) = Z.of_nat n.
Proof. unfold blen. by rewrite length_le_bytes. Qed.

Lemma blen_rev b : blen (rev b) = blen (bytes b).
Proof. unfold blen, bytes. by rewrite length_reverse. Qed.

Lemma push_bytes b chunk : bytes (push b chunk).1 = chunk ++ bytes b /\ (push b chunk).2 = blen (bytes b) + blen chunk.
Proof.
  unfold push, bytes. cbn [fst snd rev]. rewrite reverse_app, reverse_involutive. split; [done|].
  unfold blen. rewrite length_app, !length_reverse. lia.
Qed.

(** [bs] stand at position [q]. *)
Definition holds (full : list Z) (q : Z) (bs : list Z) : Prop := exists a c, full = a ++ bs ++ c /\ blen a = q.

Lemma holds_slice full q bs n : holds full q bs -> n = blen bs -> slice full q n = Some bs.
Proof.
  intros (a & c & -> & <-) ->. unfold slice. rewrite !blen_app. pose proof (blen_nonneg c).
  rewrite (proj2 (Z.leb_le _ _)) by lia. unfold blen. rewrite !Nat2Z.id, drop_app_length, take_app_length. done.
Qed.

Lemma holds_split full q a b : holds full q (a ++ b) -> holds full q a /\ holds full (q + blen a) b.
Proof.
  intros (x & y & -> & <-). split; [exists x, (b ++ y)|exists (x ++ a), y]; rewrite <- ?app_assoc, ?blen_app; done.
Qed.

Lemma holds_bytes_at full q bs n : holds full q bs -> n = blen bs -> bytes_at n full q = Ok bs.
Proof. intros H Hn. unfold bytes_at. by rewrite (holds_slice full q bs n). Qed.

Lemma holds_u16 full q v : holds full q (le_bytes 2 v) -> 0 <= v < 65536 -> u16_at full q = Ok v.
Proof. intros H Hv. unfold u16_at. rewrite (holds_bytes_at _ _ _ _ H) by done. cbn [res_bind]. by rewrite of_le_bytes_small. Qed.

Lemma holds_u32 full q v : holds full q (le_bytes 4 v) -> 0 <= v < 4294967296 -> u32_at full q = Ok v.
Proof. intros H Hv. unfold u32_at. rewrite (holds_bytes_at _ _ _ _ H) by done. cbn [res_bind]. by rewrite of_le_bytes_small. Qed.

Lemma holds_i32 full q v : holds full q (le_bytes 4 v) -> in_i32 v = true -> i32_at full q = Ok v.
Proof.
  intros H Hv%in_i32_spec. unfold i32_at. rewrite (holds_bytes_at _ _ _ _ H) by done. cbn [res_bind]. f_equal.
  apply (as_signed_le_bytes 4); [lia|]. unfold i32_min, i32_max in *. change (8 * Z.of_nat 4 - 1) with 31. lia.
Qed.

Lemma holds_i64 full q v : holds full q (le_bytes 8 v) -> in_i64 v = true -> i64_at full q = Ok v.
Proof.
  intros H Hv%in_i64_spec. unfold i64_at. rewrite (holds_bytes_at _ _ _ _ H) by done. cbn [res_bind]. f_equal.
  apply (as_signed_le_bytes 8); [lia|]. unfold i64_min, i64_max in *. change (8 * Z.of_nat 8 - 1) with 63. lia.
Qed.

(** ** Bodies *)

(** The bytes of a field at offset [o] of its table, its offset filled in. *)
Definition final_bytes (used_t o : Z) (f : F) : list Z :=
  match f with Off target => le_bytes 4 (used_t - o - target) | f => field_bytes f end.

Fixpoint final_body (used_t o : Z) (fields : list (nat * F)) : list Z :=
  match fields with
  | [] => []
  | (_, f) :: fields => final_bytes used_t o f ++ final_body used_t (o + blen (field_bytes f)) fields
  end.

Fixpoint patches (o : Z) (fields : list (nat * F)) : list (Z * Z) :=
  match fields with
  | [] => []
  | (_, f) :: fields => (match f with Off target => [(o, target)] | _ => [] end) ++ patches (o + blen (field_bytes f)) fields
  end.

Fixpoint offsets (o : Z) (fields : list (nat * F)) (offs : list Z) : list Z :=
  match fields with
  | [] => offs
  | (slot, f) :: fields => offsets (o + blen (field_bytes f)) fields (<[slot := o mod 65536]> offs)
  end.

Lemma final_bytes_length used_t o f : blen (final_bytes used_t o f) = blen (field_bytes f).
Proof. by destruct f. Qed.

Lemma add_fields t fields :
  foldl add_field t fields =
    {| body := body t ++ mjoin ((fun sf => field_bytes (snd sf)) <$> fields);
       offs := offsets (blen (body t)) fields (offs t); offpatch := offpatch t ++ patches (blen (body t)) fields |}.
Proof.
  revert t. induction fields as [|[slot f] fields IH]; intros t.
  - cbn. rewrite !app_nil_r. by destruct t.
  - cbn [foldl]. rewrite IH. cbn [add_field body offs offpatch fmap list_fmap snd offsets patches]. rewrite blen_app. f_equal.
    + change (mjoin (field_bytes f :: ((fun sf => field_bytes sf.2) <$> fields))) with
        (field_bytes f ++ mjoin ((fun sf => field_bytes sf.2) <$> fields)). by rewrite app_assoc.
    + destruct f; cbn [Datatypes.app]; rewrite <- ?app_assoc; done.
Qed.

Lemma patch_at used_t a x c target : length x = 4%nat ->
  patch used_t (a ++ x ++ c) (blen a, target) = a ++ le_bytes 4 (used_t - blen a - target) ++ c.
Proof.
  intros Hx. unfold patch, blen. rewrite Nat2Z.id, take_app_length.
  replace (length a + 4)%nat with (length (a ++ x)) by (by rewrite length_app, Hx).
  by rewrite (app_assoc a x c), drop_app_length.
Qed.

Lemma patch_all used_t a fields :
  foldl (patch used_t) (a ++ mjoin ((fun sf => field_bytes (snd sf)) <$> fields)) (patches (blen a) fields) =
    a ++ final_body used_t (blen a) fields.
Proof.
  revert a. induction fields as [|[slot f] fields IH]; intros a; [done|]. cbn [patches final_body fmap list_fmap snd].
  change (mjoin (field_bytes f :: ((fun sf => field_bytes sf.2) <$> fields))) with
    (field_bytes f ++ mjoin ((fun sf => field_bytes sf.2) <$> fields)).
  rewrite foldl_app. assert (foldl (patch used_t) (a ++ field_bytes f ++ mjoin ((fun sf => field_bytes sf.2) <$> fields))
    match f with Off target => [(blen a, target)] | _ => [] end =
    (a ++ final_bytes used_t (blen a) f) ++ mjoin ((fun sf => field_bytes sf.2) <$> fields)) as ->.
  { destruct f; cbn [foldl final_bytes]; rewrite <- ?app_assoc; try done. cbn [field_bytes]. by rewrite patch_at. }
  rewrite <- (final_bytes_length used_t (blen a) f), <- blen_app, IH, <- app_assoc. done.
Qed.

Definition nslots (fields : list (nat * F)) : nat := foldr (fun sf n => Nat.max (S (fst sf)) n) O fields.
Definition vtable_len (fields : list (nat * F)) : Z := 4 + 2 * Z.of_nat (nslots fields).
Definition body_len (fields : list (nat * F)) : Z := 4 + blen (mjoin ((fun sf => field_bytes (snd sf)) <$> fields)).

Lemma final_body_length used_t o fields : blen (final_body used_t o fields) = blen (mjoin ((fun sf => field_bytes (snd sf)) <$> fields)).
Proof.
  revert o. induction fields as [|[slot f] fields IH]; intros o; [done|]. cbn [final_body fmap list_fmap snd].
  change (mjoin (field_bytes f :: ((fun sf => field_bytes sf.2) <$> fields))) with
    (field_bytes f ++ mjoin ((fun sf => field_bytes sf.2) <$> fields)). rewrite !blen_app, final_bytes_length, IH. done.
Qed.

Lemma build_table_bytes b fields :
  let used_t := blen (bytes b) + body_len fields in
  (build_table b fields).2 = used_t /\
  bytes (build_table b fields).1 =
    (le_bytes 2 (vtable_len fields) ++ le_bytes 2 (body_len fields) ++ mjoin (le_bytes 2 <$> offsets 4 fields (replicate (nslots fields) 0))) ++
    (le_bytes 4 (vtable_len fields) ++ final_body used_t 4 fields) ++ bytes b.
Proof.
  cbv zeta. unfold build_table. fold (nslots fields). fold (vtable_len fields). rewrite add_fields. cbn [body offs offpatch app].
  change (blen [0; 0; 0; 0]) with 4. rewrite blen_rev.
  change (drop 4 ([0; 0; 0; 0] ++ ?fs)) with fs. rewrite !app_nil_l, blen_app, blen_le. change (Z.of_nat 4) with 4.
  fold (body_len fields).
  pose proof (patch_all (blen (bytes b) + body_len fields) (le_bytes 4 (vtable_len fields)) fields) as Hp.
  rewrite blen_le in Hp. change (Z.of_nat 4) with 4 in Hp. rewrite Hp.
  set (bd := le_bytes 4 (vtable_len fields) ++ final_body _ 4 fields).
  assert (blen bd = body_len fields) as Hb by (unfold bd; rewrite blen_app, blen_le, final_body_length; done). rewrite Hb.
  destruct (push b bd) as [b1 u1] eqn:E1. pose proof (push_bytes b bd) as [P1 _]. rewrite E1 in P1. cbn [fst] in P1.
  match goal with |- context [push b1 ?vt] => pose proof (push_bytes b1 vt) as [P2 _]; destruct (push b1 vt) as [b2 u2] end.
  cbn [fst snd] in *. split; [done|]. rewrite P2, P1. done.
Qed.
