(* ===== verification/SnapshotTables.v ===== *)
(** Reading back what the builder wrote: tables, strings and vectors, and then
    variables and method contexts.

    What a builder holds is the end of every later buffer, so each lemma is
    about any [full] that ends with it. *)

From Stdlib Require Import ZArith Lia.
From stdpp Require Import base tactics numbers option list sets.
From S2P Require Import Prelude RustStr Bytes Snapshots SnapshotBuilder.

#[local] Open Scope Z_scope.

Lemma holds_app_l full q x bs : holds full q bs -> holds (x ++ full) (blen x + q) bs.
Proof. intros (a & c & -> & <-). exists (x ++ a), c. by rewrite <- app_assoc, blen_app. Qed.

Lemma holds_app_r full q bs x : holds full q bs -> holds (full ++ x) q bs.
Proof. intros (a & c & -> & Hq). exists a, (c ++ x). by rewrite <- !app_assoc. Qed.

Lemma holds_within full q bs : holds full q bs -> 0 <= q /\ q + blen bs <= blen full.
Proof. intros (a & c & -> & <-). rewrite !blen_app. pose proof (blen_nonneg a). pose proof (blen_nonneg c). lia. Qed.

(** An element of a sequence of chunks of [k] bytes each. *)
Lemma mjoin_chunk {A} (f : nat -> A -> list Z) (k : nat) l i x :
  (forall i x, length (f i x) = k) -> l !! i = Some x ->
  exists a c, mjoin (imap f l) = a ++ f i x ++ c /\ blen a = Z.of_nat (k * i).
Proof.
  intros Hk. revert f Hk i. induction l as [|y l IH]; intros f Hk i Hi; [done|]. cbn [imap].
  change (mjoin (f 0%nat y :: imap (f ∘ S) l)) with (f 0%nat y ++ mjoin (imap (f ∘ S) l)). destruct i as [|i]; cbn in Hi.
  - injection Hi as ->. exists [], (mjoin (imap (f ∘ S) l)). split; [done|]. by rewrite Nat.mul_0_r.
  - destruct (IH (f ∘ S) (fun i x => Hk (S i) x) i Hi) as (a & c & E & Ha). exists (f 0%nat y ++ a), c. rewrite E, <- app_assoc.
    split; [done|]. rewrite blen_app, Ha. unfold blen. rewrite Hk. lia.
Qed.

Lemma mjoin_chunks_length {A} (f : nat -> A -> list Z) (k : nat) l :
  (forall i x, length (f i x) = k) -> blen (mjoin (imap f l)) = Z.of_nat (k * length l).
Proof.
  intros Hk. revert f Hk. induction l as [|y l IH]; intros f Hk; [by rewrite Nat.mul_0_r|]. cbn [imap].
  change (mjoin (f 0%nat y :: imap (f ∘ S) l)) with (f 0%nat y ++ mjoin (imap (f ∘ S) l)).
  rewrite blen_app, IH by (intros; apply Hk). unfold blen. rewrite Hk. cbn [length]. lia.
Qed.

Lemma fmap_imap {A C} (f : A -> C) (l : list A) : f <$> l = imap (fun _ x => f x) l.
Proof. induction l as [|x l IH]; [done|]. cbn. by rewrite IH. Qed.

(** * Slots *)

Lemma offsets_length o fields offs : length (offsets o fields offs) = length offs.
Proof. revert o offs. induction fields as [|[slot f] fields IH]; intros o offs; [done|]. cbn [offsets]. by rewrite IH, length_insert. Qed.

Lemma offsets_other o fields offs slot : ~ slot ∈ fields.*1 -> offsets o fields offs !! slot = offs !! slot.
Proof.
  revert o offs. induction fields as [|[s f] fields IH]; intros o offs Hs; [done|]. cbn [offsets].
  cbn in Hs. apply not_elem_of_cons in Hs as [Hne Hs]. rewrite IH by done. by rewrite list_lookup_insert_ne.
Qed.

Lemma offsets_field o fields offs slot f used_t :
  NoDup fields.*1 -> (slot, f) ∈ fields -> (slot < length offs)%nat -> 0 <= o ->
  exists fo x y, offsets o fields offs !! slot = Some (fo mod 65536) /\
    final_body used_t o fields = x ++ final_bytes used_t fo f ++ y /\ blen x = fo - o.
Proof.
  revert o offs. induction fields as [|[s g] fields IH]; intros o offs Hnd Hin Hlt Ho; [by apply elem_of_nil in Hin|].
  cbn in Hnd. apply NoDup_cons in Hnd as [Hs Hnd]. cbn [offsets final_body]. apply elem_of_cons in Hin as [[= <- <-]|Hin].
  - exists o, [], (final_body used_t (o + blen (field_bytes f)) fields). rewrite offsets_other by done.
    rewrite list_lookup_insert_eq by done. split_and!; [done|done|change (blen []) with 0; lia].
  - pose proof (blen_nonneg (field_bytes g)).
    destruct (IH (o + blen (field_bytes g)) (<[s := o mod 65536]> offs)) as (fo & x & y & E1 & E2 & E3);
      [done|done|by rewrite length_insert|lia|].
    exists fo, (final_bytes used_t o g ++ x), y. rewrite E1, E2, <- app_assoc. split_and!; [done|done|].
    rewrite blen_app, final_bytes_length. lia.
Qed.

Lemma nslots_slot fields slot f : (slot, f) ∈ fields -> (slot < nslots fields)%nat.
Proof.
  induction fields as [|[s g] fields IH]; [by intros ?%elem_of_nil|]. intros [[= <- <-]|Hin]%elem_of_cons; cbn; [lia|].
  specialize (IH Hin). unfold nslots in IH. lia.
Qed.

Lemma vtable_len_bounds fields : 4 <= vtable_len fields.
Proof. unfold vtable_len. lia. Qed.

Lemma body_len_bounds fields : 4 <= body_len fields.
Proof. unfold body_len. pose proof (blen_nonneg (mjoin ((fun sf => field_bytes (snd sf)) <$> fields))). lia. Qed.

(** * Tables *)

(** The bytes of a field at position [q] of a finished buffer. *)
Definition written (full : list Z) (q : Z) (f : F) : list Z :=
  match f with Off target => le_bytes 4 (blen full - q - target) | f => field_bytes f end.

(** [before] is what stood in the buffer before the table. *)
Definition reads_fields (t : Tab) (fields : list (nat * F)) (before : Z) : Prop :=
  (forall slot, ~ slot ∈ fields.*1 -> field t (Z.of_nat slot) = Ok None) /\
  (forall slot f, (slot, f) ∈ fields ->
     exists q, field t (Z.of_nat slot) = Ok (Some q) /\ holds (buffer t) q (written (buffer t) q f) /\
       q + blen (field_bytes f) <= blen (buffer t) - before).

Definition good_fields (fields : list (nat * F)) : Prop :=
  NoDup fields.*1 /\ vtable_len fields < 65536 /\ body_len fields < 65536 /\ Forall (fun sf => field_bytes (snd sf) <> []) fields.

Lemma blen_pos {x : list Z} : x <> [] -> 0 < blen x.
Proof. destruct x; [done|]. intros _. rewrite blen_cons. pose proof (blen_nonneg x). lia. Qed.

Lemma table_at full prefix fields rest :
  let vtab := le_bytes 2 (vtable_len fields) ++ le_bytes 2 (body_len fields) ++
              mjoin (le_bytes 2 <$> offsets 4 fields (replicate (nslots fields) 0)) in
  let used_t := blen rest + body_len fields in
  full = prefix ++ vtab ++ (le_bytes 4 (vtable_len fields) ++ final_body used_t 4 fields) ++ rest ->
  good_fields fields ->
  let t := {| buffer := full; pos := blen full - used_t; vt := blen prefix; vt_len := vtable_len fields; tab_len := Some (body_len fields) |} in
  tab_at full (blen full - used_t) false = Ok t /\ reads_fields t fields (blen rest).
Proof.
  intros vtab used_t Hfull (Hnd & Hv & Hb & Hne) t. pose proof (vtable_len_bounds fields). pose proof (body_len_bounds fields).
  assert (blen vtab = vtable_len fields) as Lv.
  { unfold vtab. rewrite !blen_app, !blen_le, fmap_imap, (mjoin_chunks_length _ 2), offsets_length, length_replicate by (intros; apply length_le_bytes).
    unfold vtable_len. lia. }
  assert (blen (final_body used_t 4 fields) = body_len fields - 4) as Lb by (rewrite final_body_length; unfold body_len; lia).
  assert (blen full = blen prefix + vtable_len fields + used_t) as Lf.
  { rewrite Hfull, !blen_app, Lv, blen_le, Lb. unfold used_t. lia. }
  set (p := blen full - used_t) in *. assert (p = blen prefix + vtable_len fields) as Hp by lia.
  assert (holds full (blen prefix) (vtab ++ le_bytes 4 (vtable_len fields) ++ final_body used_t 4 fields)) as Hall
    by (exists prefix, rest; by rewrite Hfull, <- !app_assoc).
  apply holds_split in Hall as [Hvt Hbd]. rewrite Lv, <- Hp in Hbd. apply holds_split in Hbd as [Hso Hbody]. rewrite blen_le in Hbody.
  pose proof Hvt as Hvt'. unfold vtab in Hvt'. apply holds_split in Hvt' as [Hvl Hrest]. rewrite blen_le in Hrest.
  apply holds_split in Hrest as [Htl Hoffs]. rewrite blen_le in Hoffs.
  pose proof (blen_nonneg prefix). pose proof (blen_nonneg rest). split.
  - unfold tab_at. rewrite (holds_i32 _ _ _ Hso) by (apply in_i32_spec; unfold_ints; lia). cbn [res_bind].
    replace (p - vtable_len fields) with (blen prefix) by lia.
    rewrite (proj2 (Z.ltb_ge _ _)), (proj2 (Z.leb_gt _ _)) by lia. cbn [orb].
    rewrite (holds_u16 _ _ _ Hvl) by lia. cbn [res_bind]. rewrite (proj2 (Z.ltb_ge _ _)) by lia.
    rewrite (proj2 (Z.ltb_ge _ _)) by (unfold used_t in *; lia).
    change (blen prefix + Z.of_nat 2) with (blen prefix + 2) in Htl.
    rewrite (holds_u16 _ _ _ Htl) by lia. cbn [res_bind]. rewrite (proj2 (Z.ltb_ge _ _)) by (unfold used_t in *; lia). done.
  - assert (forall slot v, offsets 4 fields (replicate (nslots fields) 0) !! slot = Some v -> 0 <= v < 65536 ->
      (4 + 2 * Z.of_nat slot + 2 <= vtable_len fields) /\ u16_at full (blen prefix + (4 + 2 * Z.of_nat slot)) = Ok v) as Hread.
    { intros slot v Hs Hr. pose proof (lookup_lt_Some _ _ _ Hs) as Hl. rewrite offsets_length, length_replicate in Hl.
      split; [unfold vtable_len; lia|]. rewrite fmap_imap in Hoffs.
      destruct (mjoin_chunk (fun _ x => le_bytes 2 x) 2 _ slot v (fun _ x => length_le_bytes 2 x) Hs) as (a & c & E & La).
      rewrite E in Hoffs. apply holds_split in Hoffs as [_ Hoffs]. apply holds_split in Hoffs as [Hoffs _].
      eapply holds_u16; [|done]. replace (blen prefix + (4 + 2 * Z.of_nat slot)) with (blen prefix + Z.of_nat 2 + Z.of_nat 2 + blen a) by lia. done. }
    split.
    + intros slot Hs. unfold field. cbn [vt_len vt buffer t]. destruct (Z.ltb_spec (vtable_len fields) (4 + 2 * Z.of_nat slot + 2)); [done|].
      assert (slot < nslots fields)%nat as Hl by (unfold vtable_len in *; lia).
      destruct (Hread slot 0) as [_ ->]; [|lia|done]. rewrite offsets_other by done. by rewrite lookup_replicate_2.
    + intros slot f Hin. pose proof (nslots_slot _ _ _ Hin) as Hl.
      destruct (offsets_field 4 fields (replicate (nslots fields) 0) slot f used_t) as (fo & x & y & E1 & E2 & E3); [done|done|by rewrite length_replicate|lia|].
      rewrite Forall_forall in Hne. pose proof (blen_pos (Hne _ Hin)) as Hf. cbn in Hf. pose proof (blen_nonneg x). pose proof (blen_nonneg y).
      assert (blen x + blen (field_bytes f) + blen y = body_len fields - 4) as Hsum.
      { rewrite <- Lb, E2, !blen_app, final_bytes_length. lia. }
      rewrite Z.mod_small in E1 by lia. exists (p + fo). destruct (Hread slot fo E1 ltac:(lia)) as [Hle Hu]. split.
      * unfold field. cbn [vt_len vt buffer t tab_len pos]. rewrite (proj2 (Z.ltb_ge _ _)) by done. rewrite Hu. cbn [res_bind].
        rewrite (proj2 (Z.eqb_neq _ _)) by lia. by rewrite (proj2 (Z.leb_gt _ _)) by lia.
      * split; cbn [buffer t]; [|unfold p, used_t in *; lia]. rewrite E2 in Hbody. apply holds_split in Hbody as [_ Hbody]. apply holds_split in Hbody as [Hbody _].
        replace (p + Z.of_nat 4 + blen x) with (p + fo) in Hbody by lia.
        assert (final_bytes used_t fo f = written full (p + fo) f) as <-; [|done].
        destruct f; try done. cbn [written final_bytes]. f_equal. unfold p. lia.
Qed.

(** * What a builder stores *)

(** [full] ends with what the builder holds. *)
Definition ends (full : list Z) (b : B) : Prop := exists prefix, full = prefix ++ bytes b.
Definition extends (b b' : B) : Prop := exists x, bytes b' = x ++ bytes b.

Lemma extends_refl b : extends b b.
Proof. by exists []. Qed.

Lemma extends_trans b1 b2 b3 : extends b1 b2 -> extends b2 b3 -> extends b1 b3.
Proof. intros [x Hx] [y Hy]. exists (y ++ x). by rewrite Hy, Hx, app_assoc. Qed.

Lemma extends_le b b' : extends b b' -> blen (bytes b) <= blen (bytes b').
Proof. intros [x ->]. rewrite blen_app. pose proof (blen_nonneg x). lia. Qed.

Lemma ends_extends full b b' : extends b b' -> ends full b' -> ends full b.
Proof. intros [x Hx] [y ->]. exists (y ++ x). by rewrite Hx, app_assoc. Qed.

Definition fits_u32 (full : list Z) : Prop := blen full < 4294967296.

(** What is true where [u] points to, in every buffer that ends so. *)
Definition stored (b : B) (u : Z) (P : list Z -> Z -> Prop) : Prop :=
  0 < u <= blen (bytes b) /\ forall full, ends full b -> fits_u32 full -> P full (blen full - u).

Lemma stored_extends b b' u P : extends b b' -> stored b u P -> stored b' u P.
Proof.
  intros He [Hu HP]. pose proof (extends_le _ _ He). split; [lia|]. intros full Hfull. apply HP. by eapply ends_extends.
Qed.

Lemma stored_impl b u (P Q : list Z -> Z -> Prop) : (forall full q, P full q -> Q full q) -> stored b u P -> stored b u Q.
Proof. intros HPQ [Hu HP]. split; [done|]. intros full He Hs. apply HPQ. by apply HP. Qed.

(** ** Strings *)

Definition string_at (s : str) (full : list Z) (q : Z) : Prop :=
  exists n raw, u32_at full q = Ok n /\ slice full (q + 4) n = Some raw /\ from_utf8_lossy raw = s.

Definition is_text (s : str) : Prop := Forall is_scalar s /\ str_len s < 4294967296.

Lemma build_string_stored b s : is_text s ->
  extends b (build_string b s).1 /\ stored (build_string b s).1 (build_string b s).2 (string_at s).
Proof.
  intros [Hs Hl]. unfold build_string. pose proof (push_bytes b (le_bytes 4 (str_len s) ++ utf8_encode s ++ [0])) as [E1 E2].
  set (b' := (push b _).1) in *. set (u := (push b _).2) in *. split; [by eexists|].
  pose proof (blen_nonneg (bytes b)). pose proof (blen_nonneg (utf8_encode s)). pose proof (str_len_nonneg s).
  assert (u = blen (bytes b')) as Hu by (rewrite E1, E2, (blen_app _ (bytes b)); lia).
  split; [rewrite Hu, E1, !blen_app, blen_le; change (blen [0]) with 1; lia|]. intros full [prefix ->] _.
  assert (holds (prefix ++ bytes b') (blen (prefix ++ bytes b') - u) (le_bytes 4 (str_len s) ++ utf8_encode s ++ [0])) as H2.
  { exists prefix, (bytes b). rewrite E1. split; [done|]. rewrite blen_app, <- E1, Hu. lia. }
  apply holds_split in H2 as [Hn Hr]. apply holds_split in Hr as [Hr _]. rewrite blen_le in Hr.
  exists (str_len s), (utf8_encode s). split_and!; [by apply holds_u32|apply holds_slice; [done|]|by apply utf8_lossy_encode].
  unfold blen. by rewrite utf8_encode_length.
Qed.

(** ** Tables *)

Definition table_at_with (fields : list (nat * F)) (before : Z) (full : list Z) (q : Z) : Prop :=
  exists t, tab_at full q false = Ok t /\ buffer t = full /\ reads_fields t fields before.

Lemma build_table_stored b fields : good_fields fields ->
  extends b (build_table b fields).1 /\
  stored (build_table b fields).1 (build_table b fields).2 (table_at_with fields (blen (bytes b))).
Proof.
  intros Hg. pose proof (build_table_bytes b fields) as [E1 E2]. set (b' := (build_table b fields).1) in *.
  set (u := (build_table b fields).2) in *. split; [eexists; by rewrite E2, app_assoc|].
  pose proof (body_len_bounds fields). pose proof (blen_nonneg (bytes b)).
  assert (u <= blen (bytes b')) as Hu.
  { rewrite E1, E2, !blen_app, final_body_length, !blen_le. unfold body_len.
    pose proof (blen_nonneg (mjoin (le_bytes 2 <$> offsets 4 fields (replicate (nslots fields) 0)))). lia. }
  split; [lia|]. intros full [prefix ->] _. eexists.
  destruct (table_at (prefix ++ bytes b') prefix fields (bytes b)) as [H1 H2]; [by rewrite E2|done|].
  rewrite E1. split; [exact H1|]. split; [done|exact H2].
Qed.

(** ** Vectors *)

Definition vector_at (elems : list Z) (full : list Z) (q : Z) : Prop :=
  u32_at full q = Ok (Z.of_nat (length elems)) /\ Z.of_nat (length elems) * 4 + (q + 4) <= blen full /\
  forall i e, elems !! i = Some e -> follow full (q + 4 + 4 * Z.of_nat i) = Ok (blen full - e).

Lemma holds_follow full q u : holds full q (le_bytes 4 (blen full - q - u)) -> 0 < u -> q <= blen full - u -> fits_u32 full ->
  follow full q = Ok (blen full - u).
Proof.
  intros H Hu Hq Hf. unfold fits_u32 in Hf. pose proof (holds_within _ _ _ H) as [H0 _]. unfold follow.
  rewrite (holds_u32 _ _ _ H) by lia. cbn [res_bind]. replace (q + (blen full - q - u)) with (blen full - u) by lia.
  by rewrite (proj2 (Z.ltb_lt _ _)) by lia.
Qed.

Lemma build_vector_stored b elems : Forall (fun u => 0 < u <= blen (bytes b)) elems -> Z.of_nat (length elems) < 4294967296 ->
  extends b (build_vector b elems).1 /\ stored (build_vector b elems).1 (build_vector b elems).2 (vector_at elems).
Proof.
  intros He Hl. unfold build_vector.
  set (used_after := blen (rev b) + (4 + 4 * Z.of_nat (length elems))). set (cell := fun i e => le_bytes 4 (used_after - (4 + 4 * Z.of_nat i) - e)).
  change (imap _ elems) with (imap cell elems).
  assert (blen (mjoin (imap cell elems)) = 4 * Z.of_nat (length elems)) as Lc
    by (rewrite (mjoin_chunks_length _ 4) by (intros; apply length_le_bytes); lia).
  pose proof (push_bytes b (le_bytes 4 (Z.of_nat (length elems)) ++ mjoin (imap cell elems))) as [E1 E2].
  set (b' := (push b _).1) in *. set (u := (push b _).2) in *. split; [by eexists|].
  pose proof (blen_nonneg (bytes b)). pose proof (blen_rev b) as Hrev.
  assert (u = blen (bytes b')) as Hu by (rewrite E1, E2, (blen_app _ (bytes b)); lia).
  assert (u = blen (bytes b) + (4 + 4 * Z.of_nat (length elems))) as Hu' by (rewrite E2, blen_app, blen_le, Lc; lia).
  split; [lia|]. intros full [prefix ->] Hf. set (full := prefix ++ bytes b') in *.
  assert (blen full = blen prefix + u) as Lf by (unfold full; rewrite blen_app, Hu; done).
  assert (holds full (blen full - u) (le_bytes 4 (Z.of_nat (length elems)) ++ mjoin (imap cell elems))) as H2.
  { exists prefix, (bytes b). unfold full at 1. rewrite E1. split; [done|lia]. }
  apply holds_split in H2 as [Hn Hr]. rewrite blen_le in Hr. change (Z.of_nat 4) with 4 in Hr.
  pose proof (blen_nonneg prefix). split_and!; [apply holds_u32; [done|lia]|lia|].
  intros i e Hi. destruct (mjoin_chunk cell 4 elems i e (fun _ _ => length_le_bytes 4 _) Hi) as (a & c & E & La).
  rewrite E in Hr. apply holds_split in Hr as [_ Hr]. apply holds_split in Hr as [Hr _].
  pose proof (lookup_lt_Some _ _ _ Hi). rewrite Forall_lookup in He. specialize (He i e Hi).
  apply holds_follow; [|lia|lia|done]. replace (blen full - u + 4 + 4 * Z.of_nat i) with (blen full - u + 4 + blen a) by lia.
  assert (cell i e = le_bytes 4 (blen full - (blen full - u + 4 + blen a) - e)) as <-; [|done].
  unfold cell, used_after. f_equal. lia.
Qed.

(** * Reading the fields *)

Section fields.
Context (t : Tab) (fields : list (nat * F)) (before : Z) (R : reads_fields t fields before).

Lemma read_absent {A} slot (absent : A) read : ~ slot ∈ fields.*1 -> field_or t (Z.of_nat slot) absent read = Ok absent.
Proof. intros H. unfold field_or. by rewrite (proj1 R slot H). Qed.

(** A field whose bytes [read] knows to read. *)
Lemma read_present {A} slot f (absent v : A) read :
  (slot, f) ∈ fields -> (forall q, holds (buffer t) q (written (buffer t) q f) -> read q = Ok v) ->
  field_or t (Z.of_nat slot) absent read = Ok v.
Proof. intros H Hr. unfold field_or. destruct (proj2 R slot f H) as (q & -> & Hq & _). by apply Hr. Qed.

Lemma read_i32 slot v d : (slot, FI32 v) ∈ fields -> in_i32 v = true -> tab_i32 t (Z.of_nat slot) d = Ok v.
Proof. intros H Hv. eapply read_present; [done|]. intros q Hq. by apply holds_i32. Qed.

Lemma read_i64 slot v : (slot, FI64 v) ∈ fields -> in_i64 v = true -> tab_i64 t (Z.of_nat slot) = Ok v.
Proof. intros H Hv. eapply read_present; [done|]. intros q Hq. by apply holds_i64. Qed.

Lemma read_i8 slot v : (slot, FI8 v) ∈ fields -> -128 <= v < 128 -> tab_i8 t (Z.of_nat slot) = Ok v.
Proof.
  intros H Hv. eapply read_present; [done|]. intros q Hq. rewrite (holds_bytes_at _ _ _ _ Hq) by done. cbn [res_bind]. f_equal.
  by apply (as_signed_le_bytes 1); [lia|].
Qed.

Lemma read_bool slot v : (slot, FBool v) ∈ fields -> tab_bool t (Z.of_nat slot) = Ok v.
Proof. intros H. eapply read_present; [done|]. intros q Hq. rewrite (holds_bytes_at _ _ _ _ Hq) by done. by destruct v. Qed.

Definition in_u16 (n : Z) : Prop := 0 <= n < 65536.
Definition good_position (p : SourcePosition) : Prop := in_u16 (line p) /\ in_u16 (column p).

Definition span_field (s : SourceSpan) : F :=
  build_span (line (from s), column (from s)) (line (to s), column (to s)).

Lemma read_span slot s : (slot, span_field s) ∈ fields -> good_position (from s) -> good_position (to s) ->
  tab_span t (Z.of_nat slot) = Ok s.
Proof.
  intros H [H1 H2] [H3 H4]. eapply read_present; [done|]. intros q Hq. cbn [span_field build_span written field_bytes fst snd] in Hq.
  change (holds (buffer t) q (le_bytes 2 (line (to s)) ++ le_bytes 2 (column (to s)) ++ le_bytes 2 (line (from s)) ++ le_bytes 2 (column (from s)) ++ [])) in Hq.
  apply holds_split in Hq as [Hq1 Hq]. apply holds_split in Hq as [Hq2 Hq]. apply holds_split in Hq as [Hq3 Hq]. apply holds_split in Hq as [Hq4 _].
  rewrite !blen_le in *. rewrite (holds_u16 _ _ _ Hq1) by done. cbn [res_bind].
  replace (q + Z.of_nat 2) with (q + 2) in Hq2 by lia. rewrite (holds_u16 _ _ _ Hq2) by done. cbn [res_bind].
  replace (q + Z.of_nat 2 + Z.of_nat 2) with (q + 4) in Hq3 by lia. rewrite (holds_u16 _ _ _ Hq3) by done. cbn [res_bind].
  replace (q + Z.of_nat 2 + Z.of_nat 2 + Z.of_nat 2) with (q + 6) in Hq4 by lia. rewrite (holds_u16 _ _ _ Hq4) by done. cbn [res_bind].
  by destruct s as [[] []].
Qed.

Lemma read_time_span slot s : (slot, Raw (le_bytes 8 (start_time s) ++ le_bytes 8 (end_time s))) ∈ fields ->
  in_i64 (start_time s) = true -> in_i64 (end_time s) = true -> tab_time_span t (Z.of_nat slot) = Ok s.
Proof.
  intros H H1 H2. eapply read_present; [done|]. intros q Hq. cbn [written field_bytes] in Hq.
  apply holds_split in Hq as [Hq1 Hq2]. rewrite blen_le in Hq2. change (Z.of_nat 8) with 8 in Hq2.
  rewrite (holds_i64 _ _ _ Hq1) by done. cbn [res_bind]. rewrite (holds_i64 _ _ _ Hq2) by done. by destruct s.
Qed.

(** An offset leads to what was stored before the table. *)
Lemma read_offset {A} slot u (absent : A) read v :
  (slot, Off u) ∈ fields -> fits_u32 (buffer t) -> 0 < u <= before ->
  read (blen (buffer t) - u) = Ok v ->
  field_or t (Z.of_nat slot) absent (fun p => res_bind (follow (buffer t) p) read) = Ok v.
Proof.
  intros H Hf Hu Hv. unfold field_or. destruct (proj2 R slot _ H) as (q & -> & Hq & Hb). cbn [res_bind].
  change (blen (field_bytes (Off u))) with 4 in Hb.
  by rewrite (holds_follow _ _ u Hq) by (done || lia).
Qed.

Lemma read_string slot u s : (slot, Off u) ∈ fields -> fits_u32 (buffer t) -> 0 < u <= before ->
  string_at s (buffer t) (blen (buffer t) - u) -> tab_string t (Z.of_nat slot) = Ok s.
Proof.
  intros H Hf Hu (n & raw & H1 & H2 & H3). eapply read_offset; [done|done|done|]. rewrite H1. cbn [res_bind]. by rewrite H2, H3.
Qed.

Lemma read_table slot u sub : (slot, Off u) ∈ fields -> fits_u32 (buffer t) -> 0 < u <= before ->
  tab_at (buffer t) (blen (buffer t) - u) false = Ok sub -> tab_table t (Z.of_nat slot) = Ok (Some sub).
Proof. intros H Hf Hu Hs. eapply read_offset; [done|done|done|]. by rewrite Hs. Qed.

Lemma try_map_Forall2 {A C} (f : A -> Res ArchiveError C) l l' : Forall2 (fun a c => f a = Ok c) l l' -> try_map f l = Ok l'.
Proof. induction 1 as [|a c l l' H _ IH]; [done|]. cbn [try_map]. rewrite H. cbn [res_bind]. by rewrite IH. Qed.

Lemma read_tables slot u elems subs : (slot, Off u) ∈ fields -> fits_u32 (buffer t) -> 0 < u <= before ->
  Z.of_nat (length elems) <= MAX_VECTOR_LEN ->
  vector_at elems (buffer t) (blen (buffer t) - u) ->
  Forall2 (fun e sub => tab_at (buffer t) (blen (buffer t) - e) false = Ok sub) elems subs ->
  tab_tables t (Z.of_nat slot) = Ok subs.
Proof.
  intros H Hf Hu Hm (H1 & H2 & H3) Hs. eapply read_offset; [done|done|done|]. rewrite H1. cbn [res_bind].
  rewrite (proj2 (Z.ltb_ge _ _)) by done. rewrite (proj2 (Z.ltb_ge _ _)) by done.
  apply try_map_Forall2. rewrite Nat2Z.id. rewrite Forall2_fmap_l. apply Forall2_same_length_lookup. split.
  - rewrite length_seq. by eapply Forall2_length.
  - intros i j sub Hj%lookup_seq Hsub. destruct Hj as [-> Hj]. unfold compose. cbn [Nat.add] in *.
    destruct (lookup_lt_is_Some_2 elems i) as [e Hi]; [done|]. rewrite (H3 i e Hi). cbn [res_bind].
    by eapply (Forall2_lookup_lr _ _ _ _ _ _ Hs).
Qed.
End fields.

(** * Variables and method contexts *)

(** * Sizes *)

Fixpoint nodes (v : Var) : Z := let '(mkVariable _ _ _ _ cs) := v in 1 + foldr (fun c n => nodes c + n) 0 cs.
Fixpoint depth (v : Var) : nat := let '(mkVariable _ _ _ _ cs) := v in S (foldr (fun c n => Nat.max (depth c) n) O cs).

Definition all_nodes (vs : list Var) : Z := foldr (fun c n => nodes c + n) 0 vs.

Lemma Var_rect' (P : Var -> Prop) :
  (forall n x t h cs, Forall P cs -> P (mkVariable n x t h cs)) -> forall v, P v.
Proof.
  intros H. fix IH 1. intros [n x t h cs]. apply H. induction cs as [|c cs IHcs]; constructor; [apply IH|exact IHcs].
Qed.

Lemma nodes_pos v : 1 <= nodes v.
Proof.
  induction v as [n x t h cs IH] using Var_rect'. cbn [nodes]. fold (all_nodes cs).
  assert (0 <= all_nodes cs); [|lia]. induction IH as [|c cs Hc _ IHcs]; [done|]. cbn [all_nodes foldr]. fold (all_nodes cs). lia.
Qed.

(** What the builder can write: texts of Unicode characters, and the flag as it
    sets it. *)
Inductive good_var : Var -> Prop :=
  | good_var_intro n x t h cs :
      is_text n -> is_text x -> is_text t -> h = negb (bool_decide (cs = [])) ->
      Z.of_nat (length cs) <= MAX_VECTOR_LEN -> Forall good_var cs -> good_var (mkVariable n x t h cs).

(** * Loops *)

Lemma try_each_ok {A C} (f : A -> Z -> Res ArchiveError (C * Z)) (cost : C -> Z) l rs budget :
  Forall2 (fun a r => 0 <= cost r /\ forall budget, cost r <= budget -> f a budget = Ok (r, budget - cost r)) l rs ->
  foldr (fun r n => cost r + n) 0 rs <= budget ->
  try_each f l budget = Ok (rs, budget - foldr (fun r n => cost r + n) 0 rs).
Proof.
  intros H. revert budget. induction H as [|a r l rs [H0 Hf] H IH]; intros budget Hb; cbn [try_each foldr] in *.
  - by rewrite Z.sub_0_r.
  - assert (0 <= foldr (fun r n => cost r + n) 0 rs) by (clear -H; induction H as [|a r l rs [H0 _] _ IH]; cbn; lia).
    rewrite Hf by lia. cbn [res_bind]. rewrite IH by lia. cbn [res_bind]. do 2 f_equal. lia.
Qed.

(** * Fields of a small table *)

Definition small_field (sf : nat * F) : Prop := (fst sf < 100)%nat /\ 0 < blen (field_bytes (snd sf)) <= 16.
Definition small_fields (fields : list (nat * F)) : Prop := NoDup fields.*1 /\ Forall small_field fields.

Lemma small_fields_good fields : small_fields fields -> good_fields fields.
Proof.
  intros [Hnd Hs]. assert (nslots fields <= 100)%nat as Hn.
  { clear Hnd. unfold nslots. induction Hs as [|[s f] fields [H _] _ IH]; cbn in *; lia. }
  assert (length fields <= 100)%nat as Hl.
  { rewrite <- (length_fmap fst). rewrite <- (length_seq 100 0). apply submseteq_length, NoDup_submseteq; [done|].
    intros slot Hin. apply list_elem_of_fmap in Hin as (sf & -> & Hin). rewrite Forall_forall in Hs. apply Hs in Hin as [H _].
    apply elem_of_seq. lia. }
  assert (blen (mjoin ((fun sf => field_bytes (snd sf)) <$> fields)) <= 16 * Z.of_nat (length fields)) as Hb.
  { clear -Hs. induction Hs as [|sf fields [_ H] _ IH]; [done|]. cbn [fmap list_fmap length].
    change (mjoin (field_bytes sf.2 :: ((fun sf => field_bytes sf.2) <$> fields))) with
      (field_bytes sf.2 ++ mjoin ((fun sf => field_bytes sf.2) <$> fields)). rewrite blen_app. lia. }
  split_and!; [done|unfold vtable_len; lia|unfold body_len; lia|].
  eapply Forall_impl; [exact Hs|]. intros sf [_ H] E. rewrite E in H. change (blen []) with 0 in H. lia.
Qed.

(** A field that may be left out. *)
Definition opt_field (slot : nat) (o : option Z) (f : list (nat * F)) : list (nat * F) :=
  match o with Some u => f ++ [(slot, Off u)] | None => f end.

Definition text_stored (b : B) (o : option Z) (s : str) : Prop :=
  match o with Some u => stored b u (string_at s) | None => s = [] end.

Lemma text_stored_extends b b' o s : extends b b' -> text_stored b o s -> text_stored b' o s.
Proof. intros He. destruct o; [by apply stored_extends|done]. Qed.

Lemma string_field_stored b slot s f : is_text s ->
  exists o, string_field b slot s f = ((string_field b slot s f).1, opt_field slot o f) /\
    extends b (string_field b slot s f).1 /\ text_stored (string_field b slot s f).1 o s.
Proof.
  intros Hs. unfold string_field. destruct s as [|c s]; [exists None; split_and!; [done|apply extends_refl|done]|].
  destruct (build_string_stored b (c :: s) Hs) as [H1 H2]. destruct (build_string b (c :: s)) as [b' u]. cbn in *.
  by exists (Some u).
Qed.

Section table.
Context (t : Tab) (fields : list (nat * F)) (before : Z) (R : reads_fields t fields before) (Hfit : fits_u32 (buffer t)).

(** A text of a builder whose bytes stand behind the table. *)
Lemma read_text slot o s b f : text_stored b o s -> ends (buffer t) b -> blen (bytes b) = before ->
  (forall u, o = Some u -> (slot, Off u) ∈ fields) -> (o = None -> ~ slot ∈ fields.*1) ->
  f = Z.of_nat slot -> tab_string t f = Ok s.
Proof.
  intros Ho He Hb H1 H2 ->. destruct o as [u|].
  - destruct Ho as [Hu Hs]. eapply (read_string t fields before R); [by apply H1|done|lia|]. by apply Hs.
  - unfold tab_string. rewrite (read_absent t fields before R) by (by apply H2). by rewrite Ho.
Qed.
End table.

Lemma Forall2_exists {A C D} (P : A -> C -> Prop) (Q : A -> D -> Prop) (W : D -> C -> Prop) l l' :
  (forall a c, P a c -> exists d, Q a d /\ W d c) -> Forall2 P l l' -> exists ds, Forall2 Q l ds /\ Forall2 W ds l'.
Proof.
  intros H. induction 1 as [|a c l l' HP _ IH]; [exists []; by split|]. destruct (H a c HP) as (d & Hq & Hw), IH as (ds & H1 & H2).
  exists (d :: ds). by split; constructor.
Qed.

(** A table that is built is found, and its fields lead into what was built
    before it. *)
Lemma built_table b fields (Q : Tab -> Prop) : small_fields fields ->
  (forall t, ends (buffer t) b -> fits_u32 (buffer t) -> reads_fields t fields (blen (bytes b)) -> Q t) ->
  let '(b', u) := build_table b fields in
  extends b b' /\ stored b' u (fun full q => exists t, tab_at full q false = Ok t /\ buffer t = full /\ Q t).
Proof.
  intros Hs HQ. destruct (build_table_stored b fields (small_fields_good _ Hs)) as [X [Hu T]].
  destruct (build_table b fields) as [b' u]. cbn [fst snd] in *. split; [done|]. split; [done|]. intros full He Hf.
  destruct (T full He Hf) as (t & H1 & Hb & R). subst full. exists t. split; [done|]. split; [done|]. apply HQ; [|done|done].
  by eapply ends_extends.
Qed.

Section built.
Context (b : B) (t : Tab) (fields : list (nat * F)) (He : ends (buffer t) b) (Hf : fits_u32 (buffer t)).
Context (R : reads_fields t fields (blen (bytes b))).

Lemma built_string slot u s : (slot, Off u) ∈ fields -> stored b u (string_at s) -> tab_string t (Z.of_nat slot) = Ok s.
Proof. intros H [Hu Hs]. eapply (read_string t fields _ R); [done|done|done|by apply Hs]. Qed.

Lemma built_subtable slot u Q : (slot, Off u) ∈ fields ->
  stored b u (fun full q => exists sub, tab_at full q false = Ok sub /\ buffer sub = full /\ Q sub) ->
  exists sub, tab_table t (Z.of_nat slot) = Ok (Some sub) /\ Q sub.
Proof.
  intros H [Hu Hs]. destruct (Hs (buffer t) He Hf) as (sub & H1 & _ & H2). exists sub. split; [|done].
  by eapply (read_table t fields _ R).
Qed.

Lemma built_tables {A} slot u us (l : list A) Q : (slot, Off u) ∈ fields -> stored b u (vector_at us) ->
  Z.of_nat (length l) <= MAX_VECTOR_LEN ->
  Forall2 (fun u a => stored b u (fun full q => exists sub, tab_at full q false = Ok sub /\ buffer sub = full /\ Q a sub)) us l ->
  exists subs, tab_tables t (Z.of_nat slot) = Ok subs /\ Forall2 (fun sub a => Q a sub) subs l.
Proof.
  intros H [Hu Hv] Hm Hus. pose proof (Forall2_length _ _ _ Hus) as Hlen.
  assert (exists subs, Forall2 (fun e sub => tab_at (buffer t) (blen (buffer t) - e) false = Ok sub) us subs /\
    Forall2 (fun sub a => Q a sub) subs l) as (subs & H1 & H2).
  { eapply Forall2_exists; [|exact Hus]. intros e a [_ Ha]. destruct (Ha _ He Hf) as (sub & H1 & _ & H2). by exists sub. }
  exists subs. split; [|done]. eapply (read_tables t fields _ R slot u us subs); [done|done|done|by rewrite Hlen|by apply Hv|done].
Qed.
End built.

(** * Variables *)

(** [t] is the table of [v]. *)
Definition decodes_var (v : Var) (t : Tab) : Prop :=
  forall levels budget, (depth v <= levels)%nat -> nodes v <= budget ->
    decode_variable levels t budget = Ok (v, budget - nodes v).

Definition var_at (v : Var) (full : list Z) (q : Z) : Prop :=
  exists t, tab_at full q false = Ok t /\ buffer t = full /\ decodes_var v t.

Ltac solve_slots :=
  repeat match goal with o : option Z |- _ => destruct o end; cbn; set_solver.

Ltac solve_nodup := cbn; repeat (apply NoDup_cons; split; [set_solver|]); apply NoDup_nil_2.
Ltac solve_small := cbn; repeat (apply Forall_cons; split; [split; [cbn; lia|unfold blen; cbn; lia]|]); constructor.

Definition vector_stored (b : B) (o : option Z) (us : list Z) : Prop :=
  match o with Some u => stored b u (vector_at us) | None => us = [] end.

(** The fields of [var]. *)
Definition var_fields (leaf : bool) (on ov ot oc : option Z) : list (nat * F) :=
  opt_field 0 oc (opt_field 4 ot (opt_field 3 ov (opt_field 2 on [(1%nat, FBool leaf)]))).

Lemma var_fields_small leaf on ov ot oc : small_fields (var_fields leaf on ov ot oc).
Proof.
  split.
  - destruct on, ov, ot, oc; solve_nodup.
  - destruct on, ov, ot, oc; solve_small.
Qed.

Lemma var_builds b n x ty us : is_text n -> is_text x -> is_text ty ->
  Forall (fun u => 0 < u <= blen (bytes b)) us -> Z.of_nat (length us) < 4294967296 ->
  exists b1 on ov ot oc, extends b b1 /\ text_stored b1 on n /\ text_stored b1 ov x /\ text_stored b1 ot ty /\ vector_stored b1 oc us /\
    var b n x ty us = build_table b1 (var_fields (negb (bool_decide (us = []))) on ov ot oc).
Proof.
  intros Hn Hx Ht Hus Hl. unfold var, var_fields. set (f0 := [(1%nat, FBool (negb (bool_decide (us = []))))]).
  destruct (string_field_stored b 2 n f0 Hn) as (on & -> & X1 & T1). set (b1 := (string_field b 2 n f0).1) in *.
  destruct (string_field_stored b1 3 x (opt_field 2 on f0) Hx) as (ov & -> & X2 & T2). set (b2 := (string_field b1 3 x _).1) in *.
  destruct (string_field_stored b2 4 ty (opt_field 3 ov (opt_field 2 on f0)) Ht) as (ot & -> & X3 & T3).
  set (b3 := (string_field b2 4 ty _).1) in *. assert (extends b b3) as X by eauto using extends_trans.
  apply (text_stored_extends b1 b3) in T1; [|eauto using extends_trans]. apply (text_stored_extends b2 b3) in T2; [|done].
  destruct us as [|u us]; [exists b3, on, ov, ot, None; split_and!; done|].
  destruct (build_vector_stored b3 (u :: us)) as [X4 T4]; [|done|].
  { eapply Forall_impl; [exact Hus|]. intros e He. cbn beta in He. pose proof (extends_le _ _ X). lia. }
  destruct (build_vector b3 (u :: us)) as [b4 uv]. cbn [fst snd] in *. exists b4, on, ov, ot, (Some uv).
  split_and!; try done; [by eapply extends_trans|by eapply text_stored_extends..].
Qed.

Lemma Forall2_elem_r {A C} (P : A -> C -> Prop) l l' : Forall2 P l l' -> Forall2 (fun a c => P a c /\ c ∈ l') l l'.
Proof.
  intros H. apply Forall2_same_length_lookup. split; [by eapply Forall2_length|]. intros i a c Ha Hc.
  split; [by eapply (Forall2_lookup_lr _ _ _ _ _ _ H)|by eapply list_elem_of_lookup_2].
Qed.

Lemma depth_child c cs : c ∈ cs -> (depth c <= foldr (fun c n => Nat.max (depth c) n) 0 cs)%nat.
Proof. induction cs as [|c' cs IH]; [by intros ?%elem_of_nil|]. cbn. intros [->|Hc]%elem_of_cons; [lia|]. specialize (IH Hc). lia. Qed.

Lemma var_stored b v us : good_var v -> Forall2 (fun u c => stored b u (var_at c)) us (children v) ->
  let '(b', u) := var b (name v) (value v) (type_name v) us in extends b b' /\ stored b' u (var_at v).
Proof.
  intros Hg Hus. inversion Hg as [n x ty h cs Hn Hx Ht Hh Hl Hcs]; subst v. cbn [name value type_name children] in *.
  pose proof (Forall2_length _ _ _ Hus) as Hlen.
  destruct (var_builds b n x ty us) as (b1 & on & ov & ot & oc & X & T1 & T2 & T3 & T4 & ->);
    [done|done|done| |unfold MAX_VECTOR_LEN in *; lia|].
  { eapply Forall2_Forall_l; [exact Hus|]. apply Forall_forall. by intros c _ u [Hu _]. }
  set (fields := var_fields _ on ov ot oc) in *.
  assert (forall t, ends (buffer t) b1 -> fits_u32 (buffer t) -> reads_fields t fields (blen (bytes b1)) ->
    decodes_var (mkVariable n x ty h cs) t) as HQ; [|pose proof (built_table b1 fields _ (var_fields_small _ _ _ _ _) HQ) as H].
  2: { destruct (build_table b1 fields) as [b2 u]. split; [by eapply extends_trans; [|apply H]|apply H]. }
  intros t He Hf R.
  assert (exists subs, tab_tables t 0 = Ok subs /\ Forall2 (fun sub c => decodes_var c sub) subs cs) as (subs & Hs1 & Hs2).
  { destruct oc as [uv|].
    - apply (built_tables b1 t fields He Hf R 0 uv us cs (fun c sub => decodes_var c sub)); [unfold fields, var_fields; solve_slots|done|done|].
      eapply Forall2_impl; [exact Hus|]. intros u c. by apply stored_extends.
    - cbn in T4. subst us. inversion Hus. subst. exists []. split; [|constructor]. unfold tab_tables. change 0 with (Z.of_nat 0).
      apply (read_absent t fields _ R). unfold fields, var_fields. solve_slots. }
  intros levels budget Hd Hn'. destruct levels as [|levels]; [cbn in Hd; lia|]. cbn [depth nodes] in Hd, Hn' |- *.
  fold (all_nodes cs) in *. pose proof (nodes_pos (mkVariable n x ty h cs)) as Hp. cbn [nodes] in Hp. fold (all_nodes cs) in Hp.
  cbn [decode_variable]. unfold take_budget. rewrite (proj2 (Z.eqb_neq _ _)) by lia. cbn [res_bind]. rewrite Hs1. cbn [res_bind].
  assert (foldr (fun r n => nodes r + n) 0 cs <= budget - 1) as Hcost by (fold (all_nodes cs); lia).
  rewrite (try_each_ok (decode_variable levels) nodes subs cs); [|eapply Forall2_impl; [by apply Forall2_elem_r|]|exact Hcost].
  2: { intros sub c [Hsub Hc]. split; [pose proof (nodes_pos c); lia|]. intros budget' Hb'. apply Hsub; [|done].
       pose proof (depth_child c cs Hc). lia. }
  cbn [res_bind]. change 1 with (Z.of_nat 1) at 1. rewrite (read_bool t fields _ R 1 (negb (bool_decide (us = []))))
    by (unfold fields, var_fields; solve_slots). cbn [res_bind].
  rewrite (read_text t fields _ R Hf 2 on n b1), (read_text t fields _ R Hf 3 ov x b1), (read_text t fields _ R Hf 4 ot ty b1);
    try done; try (by intros; subst; unfold fields, var_fields; solve_slots).
  cbn [res_bind]. fold (all_nodes cs). f_equal. f_equal; [|lia].
  rewrite Hh. do 2 f_equal. apply bool_decide_ext. destruct us, cs; by try (split; congruence).
Qed.
