(* ===== verification/SnapshotSpec.v ===== *)
(** What the archive reader promises: it reads back every method context that
    the builder writes, what it decodes is within its limits, and an archive
    holds its contexts in the order of their numbers. *)

From Stdlib Require Import ZArith Lia Sorting.Sorted.
From stdpp Require Import base tactics numbers option list gmap sets strings.
From S2P Require Import Prelude RustStr StrSearch TextLines Bytes Snapshots SnapshotBuilder SnapshotTables.

#[local] Open Scope Z_scope.

(** * Writing a method context

    As [build_mdc] of the tests does, for any context. *)

Definition write_each {A} (f : B -> A -> B * Z) : B -> list A -> B * list Z :=
  fix go b l :=
    match l with
    | [] => (b, [])
    | a :: l => let '(b, u) := f b a in let '(b, us) := go b l in (b, u :: us)
    end.

Fixpoint write_var (b : B) (v : Var) {struct v} : B * Z :=
  let '(mkVariable n x t _ cs) := v in
  let '(b, us) := write_each write_var b cs in
  var b n x t us.

Definition write_vector {A} (f : B -> A -> B * Z) (b : B) (l : list A) : B * Z :=
  let '(b, us) := write_each f b l in build_vector b us.

Definition write_id (b : B) (i : ObjectId) : B * Z := obj_id b (as_i8 (object_type i)) (number i).

Definition write_frame (b : B) (f : StackFrame) : B * Z :=
  let '(b, s) := build_string b (method_name f) in
  let '(b, i) := write_id b (frame_id f) in
  let '(b, o) := build_string b (frame_object f) in
  build_table b [(0%nat, Off s); (1%nat, Off i); (2%nat, Off o); (3%nat, span_field (frame_span f))].

Definition write_line (b : B) (l : LineContext) : B * Z :=
  let '(b, vs) := write_vector write_var b (variables l) in
  build_table b [(0%nat, FI32 (ordinal l)); (1%nat, span_field (statement_span l)); (3%nat, FI64 (timestamp l)); (2%nat, Off vs)].

Definition write_exception (b : B) (e : ExceptionContext) : B * Z :=
  let '(b, s) := build_string b (message e) in
  build_table b [(0%nat, Off s); (1%nat, FI32 (line_number e)); (2%nat, span_field (exception_span e))].

Definition write_app (b : B) (a : DeclaringApplication) : B * Z :=
  let '(b, n) := build_string b (app_name a) in
  let '(b, p) := build_string b (app_publisher a) in
  let '(b, v) := build_string b (app_version a) in
  let '(b, i) := build_string b (app_id a) in
  build_table b [(0%nat, Off n); (1%nat, Off p); (2%nat, Off v); (3%nat, Off i)].

Definition write_option {A} (f : B -> A -> B * Z) (b : B) (o : option A) : B * option Z :=
  match o with Some a => let '(b, u) := f b a in (b, Some u) | None => (b, None) end.

Definition flag (v : bool) : F := FI8 (if v then 1 else 0).

Definition context_fields (i m fr ln : Z) (ex ap : option Z) (span : TimeSpan) (builtin incomplete : bool) : list (nat * F) :=
  opt_field 6 ap (opt_field 2 ex
    [(0%nat, Off i); (1%nat, Off m); (3%nat, Off fr); (4%nat, Off ln);
     (5%nat, Raw (le_bytes 8 (start_time span) ++ le_bytes 8 (end_time span))); (7%nat, flag builtin); (8%nat, flag incomplete)]).

Definition write_context (b : B) (c : MethodContext) : B * Z :=
  let '(b, ln) := write_vector write_line b (line_contexts c) in
  let '(b, fr) := write_vector write_frame b (frames c) in
  let '(b, i) := write_id b (id c) in
  let '(b, m) := build_string b (context_method c) in
  let '(b, ex) := write_option write_exception b (exception c) in
  let '(b, ap) := write_option write_app b (app c) in
  build_table b (context_fields i m fr ln ex ap (execution_span c) (is_builtin_code_unit_call c) (is_incomplete_measurement c)).

Definition encode_context (c : MethodContext) : list Z := let '(b, root) := write_context empty_builder c in finish b root.

(** * Contexts that fit the format *)

Definition good_id (i : ObjectId) : Prop :=
  from_i8 (as_i8 (object_type i)) = object_type i /\ -128 <= as_i8 (object_type i) < 128 /\ in_i32 (number i) = true.

Definition good_span (s : SourceSpan) : Prop := good_position (from s) /\ good_position (to s).

Definition good_frame (f : StackFrame) : Prop :=
  is_text (method_name f) /\ good_id (frame_id f) /\ is_text (frame_object f) /\ good_span (frame_span f).

Definition good_line (l : LineContext) : Prop :=
  in_i32 (ordinal l) = true /\ good_span (statement_span l) /\ in_i64 (timestamp l) = true /\
  Z.of_nat (length (variables l)) <= MAX_VECTOR_LEN /\ Forall good_var (variables l) /\
  Forall (fun v => (depth v <= MAX_VARIABLE_DEPTH)%nat) (variables l).

Definition good_exception (e : ExceptionContext) : Prop :=
  is_text (message e) /\ in_i32 (line_number e) = true /\ good_span (exception_span e).

Definition good_app (a : DeclaringApplication) : Prop :=
  is_text (app_name a) /\ is_text (app_publisher a) /\ is_text (app_version a) /\ is_text (app_id a).

Definition line_cost (l : LineContext) : Z := 1 + all_nodes (variables l).
Definition context_cost (c : MethodContext) : Z :=
  Z.of_nat (length (frames c)) + foldr (fun l n => line_cost l + n) 0 (line_contexts c).

Definition all_option {A} (P : A -> Prop) (o : option A) : Prop := match o with Some a => P a | None => True end.

Definition good_context (c : MethodContext) : Prop :=
  good_id (id c) /\ is_text (context_method c) /\ all_option good_exception (exception c) /\
  Z.of_nat (length (frames c)) <= MAX_VECTOR_LEN /\ Forall good_frame (frames c) /\
  Z.of_nat (length (line_contexts c)) <= MAX_VECTOR_LEN /\ Forall good_line (line_contexts c) /\
  in_i64 (start_time (execution_span c)) = true /\ in_i64 (end_time (execution_span c)) = true /\ all_option good_app (app c).

(** * Each part is stored *)

(** A table about which [Q] holds. *)
Definition tab_holding (Q : Tab -> Prop) (full : list Z) (q : Z) : Prop :=
  exists t, tab_at full q false = Ok t /\ buffer t = full /\ Q t.

Lemma write_each_stored {A} (f : B -> A -> B * Z) (P : A -> list Z -> Z -> Prop) (l : list A) :
  (forall b a, a ∈ l -> let '(b', u) := f b a in extends b b' /\ stored b' u (P a)) ->
  forall b, let '(b', us) := write_each f b l in extends b b' /\ Forall2 (fun u a => stored b' u (P a)) us l.
Proof.
  induction l as [|a l IH]; intros H b; cbn [write_each]; [split; [apply extends_refl|constructor]|].
  pose proof (H b a (list_elem_of_here _ _)) as Ha. destruct (f b a) as [b1 u]. destruct Ha as [X1 S1].
  specialize (IH (fun b c Hc => H b c (list_elem_of_further _ _ _ Hc)) b1).
  change ((fix go b l := match l with [] => (b, []) | a :: l => let '(b, u) := f b a in let '(b, us) := go b l in (b, u :: us) end) b1 l)
    with (write_each f b1 l) in *.
  destruct (write_each f b1 l) as [b2 us]. destruct IH as [X2 S2]. split; [by eapply extends_trans|].
  constructor; [by eapply stored_extends|done].
Qed.

Lemma write_var_stored v : good_var v -> forall b, let '(b', u) := write_var b v in extends b b' /\ stored b' u (var_at v).
Proof.
  induction v as [n x t h cs IH] using Var_rect'. intros Hg b. cbn [write_var]. rewrite Forall_forall in IH.
  inversion Hg as [n' x' t' h' cs' _ _ _ _ _ Hcs]; subst. rewrite Forall_forall in Hcs.
  pose proof (write_each_stored write_var var_at cs) as H. specialize (H (fun b c Hc => IH c Hc (Hcs c Hc) b) b).
  destruct (write_each write_var b cs) as [b1 us]. destruct H as [X S].
  pose proof (var_stored b1 (mkVariable n x t h cs) us Hg S) as V. cbn [name value type_name] in V.
  destruct (var b1 n x t us) as [b2 u]. destruct V as [X2 V]. split; [by eapply extends_trans|done].
Qed.

Lemma write_vector_stored {A} (f : B -> A -> B * Z) (P : A -> list Z -> Z -> Prop) (l : list A) b :
  (forall b a, a ∈ l -> let '(b', u) := f b a in extends b b' /\ stored b' u (P a)) -> Z.of_nat (length l) <= MAX_VECTOR_LEN ->
  let '(b', u) := write_vector f b l in
  exists us, extends b b' /\ stored b' u (vector_at us) /\ Forall2 (fun u a => stored b' u (P a)) us l.
Proof.
  intros H Hl. unfold write_vector. pose proof (write_each_stored f P l H b) as W. destruct (write_each f b l) as [b1 us].
  destruct W as [X S]. pose proof (Forall2_length _ _ _ S) as Hlen. unfold MAX_VECTOR_LEN in Hl.
  destruct (build_vector_stored b1 us) as [X2 S2]; [|lia|].
  { eapply Forall2_Forall_l; [exact S|]. apply Forall_forall. by intros a _ u [Hu _]. }
  destruct (build_vector b1 us) as [b2 u]. cbn [fst snd] in *. exists us. split_and!; [by eapply extends_trans|done|].
  eapply Forall2_impl; [exact S|]. intros e a. by apply stored_extends.
Qed.

(** What each decoder makes of the table of a part. *)
Definition decodes_id (i : ObjectId) (t : Tab) : Prop :=
  tab_i32 t 0 0 = Ok (number i) /\ tab_i8 t 1 = Ok (as_i8 (object_type i)).
Definition decodes_frame (f : StackFrame) (t : Tab) : Prop :=
  forall budget, 1 <= budget -> decode_frame t budget = Ok (f, budget - 1).
Definition decodes_line (l : LineContext) (t : Tab) : Prop :=
  forall budget, line_cost l <= budget -> decode_line t budget = Ok (l, budget - line_cost l).
Definition decodes_exception (e : ExceptionContext) (t : Tab) : Prop :=
  tab_string t 0 = Ok (message e) /\ tab_i32 t 1 0 = Ok (line_number e) /\ tab_span t 2 = Ok (exception_span e).
Definition decodes_app (a : DeclaringApplication) (t : Tab) : Prop :=
  tab_string t 0 = Ok (app_name a) /\ tab_string t 1 = Ok (app_publisher a) /\ tab_string t 2 = Ok (app_version a) /\
  tab_string t 3 = Ok (app_id a).

Lemma built_table_trans b0 b fields Q : extends b0 b -> small_fields fields ->
  (forall t, ends (buffer t) b -> fits_u32 (buffer t) -> reads_fields t fields (blen (bytes b)) -> Q t) ->
  let '(b', u) := build_table b fields in extends b0 b' /\ stored b' u (tab_holding Q).
Proof.
  intros X Hs HQ. pose proof (built_table b fields Q Hs HQ) as H. destruct (build_table b fields) as [b' u].
  destruct H as [X2 H]. split; [by eapply extends_trans|done].
Qed.

Ltac small := split; [solve_nodup|solve_small].
Ltac in_fields := cbn; set_solver.

Lemma write_id_stored i b : good_id i -> let '(b', u) := write_id b i in extends b b' /\ stored b' u (tab_holding (decodes_id i)).
Proof.
  intros (Ht & Hr & Hn). unfold write_id, obj_id. apply built_table_trans; [apply extends_refl|small|]. intros t He Hf R. split.
  - apply (read_i32 t _ _ R 0); [in_fields|done].
  - apply (read_i8 t _ _ R 1); [in_fields|done].
Qed.

Lemma subtable_id b t fields slot u i : ends (buffer t) b -> fits_u32 (buffer t) -> reads_fields t fields (blen (bytes b)) ->
  good_id i -> (slot, Off u) ∈ fields -> stored b u (tab_holding (decodes_id i)) -> tab_object_id t (Z.of_nat slot) = Ok (Some i).
Proof.
  intros He Hf R (Ht & _) Hin Hs. destruct (built_subtable b t fields He Hf R slot u (decodes_id i) Hin Hs) as (sub & H1 & H2 & H3).
  unfold tab_object_id. rewrite H1. cbn [res_bind]. rewrite H2. cbn [res_bind]. rewrite H3. cbn [res_bind]. rewrite Ht. by destruct i.
Qed.

Lemma write_frame_stored f b : good_frame f ->
  let '(b', u) := write_frame b f in extends b b' /\ stored b' u (tab_holding (decodes_frame f)).
Proof.
  intros (Hm & Hi & Ho & Hsp1 & Hsp2). unfold write_frame. destruct (build_string_stored b (method_name f) Hm) as [X1 S1].
  destruct (build_string b (method_name f)) as [b1 s]. cbn [fst snd] in *.
  pose proof (write_id_stored (frame_id f) b1 Hi) as W. destruct (write_id b1 (frame_id f)) as [b2 i]. destruct W as [X2 S2].
  destruct (build_string_stored b2 (frame_object f) Ho) as [X3 S3]. destruct (build_string b2 (frame_object f)) as [b3 o]. cbn [fst snd] in *.
  apply built_table_trans; [by eauto using extends_trans|small|]. intros t He Hf R budget Hb. unfold decode_frame, take_budget.
  rewrite (proj2 (Z.eqb_neq _ _)) by lia. cbn [res_bind].
  assert (tab_string t 0 = Ok (method_name f)) as ->
    by (apply (built_string b3 t _ He Hf R 0 s); [in_fields|apply (stored_extends b1 b3); [by eapply extends_trans|done]]).
  assert (tab_object_id t 1 = Ok (Some (frame_id f))) as ->
    by (apply (subtable_id b3 t _ 1 i (frame_id f) He Hf R Hi); [in_fields|by eapply stored_extends]).
  assert (tab_string t 2 = Ok (frame_object f)) as -> by (apply (built_string b3 t _ He Hf R 2 o); [in_fields|done]).
  assert (tab_span t 3 = Ok (frame_span f)) as -> by (apply (read_span t _ _ R 3); [in_fields|done|done]).
  cbn [res_bind default]. by destruct f.
Qed.

Lemma all_nodes_nonneg vs : 0 <= all_nodes vs.
Proof. induction vs as [|v vs IH]; [done|]. cbn [all_nodes foldr]. fold (all_nodes vs). pose proof (nodes_pos v). lia. Qed.

Lemma write_line_stored l b : good_line l ->
  let '(b', u) := write_line b l in extends b b' /\ stored b' u (tab_holding (decodes_line l)).
Proof.
  intros (Ho & [Hsp1 Hsp2] & Ht & Hl & Hv & Hd). unfold write_line. rewrite Forall_forall in Hv.
  pose proof (write_vector_stored write_var var_at (variables l) b (fun b v Hin => write_var_stored v (Hv v Hin) b) Hl) as W.
  destruct (write_vector write_var b (variables l)) as [b1 vs]. destruct W as (us & X1 & S1 & S2).
  apply built_table_trans; [done|small|]. intros t He Hf R budget Hb. unfold decode_line, take_budget, line_cost in *.
  pose proof (all_nodes_nonneg (variables l)). rewrite (proj2 (Z.eqb_neq _ _)) by lia. cbn [res_bind].
  assert (tab_i32 t 0 0 = Ok (ordinal l)) as -> by (apply (read_i32 t _ _ R 0); [in_fields|done]).
  assert (tab_span t 1 = Ok (statement_span l)) as -> by (apply (read_span t _ _ R 1); [in_fields|done|done]).
  assert (tab_i64 t 3 = Ok (timestamp l)) as -> by (apply (read_i64 t _ _ R 3); [in_fields|done]). cbn [res_bind].
  destruct (built_tables b1 t _ He Hf R 2 vs us (variables l) (fun v sub => decodes_var v sub)) as (subs & Hs1 & Hs2); [in_fields|done|done|done|].
  unfold decode_variables. change (Z.of_nat 2) with 2 in Hs1. rewrite Hs1. cbn [res_bind].
  rewrite (try_each_ok (decode_variable MAX_VARIABLE_DEPTH) nodes subs (variables l)); [|eapply Forall2_impl; [by apply Forall2_elem_r|]|fold (all_nodes (variables l)); lia].
  2: { intros sub v [Hsub Hin]. split; [pose proof (nodes_pos v); lia|]. intros budget' Hb'. rewrite Forall_forall in Hd. by apply Hsub; [apply Hd|]. }
  cbn [res_bind]. fold (all_nodes (variables l)).
  f_equal. f_equal; [by destruct l|lia].
Qed.

Lemma write_exception_stored e b : good_exception e ->
  let '(b', u) := write_exception b e in extends b b' /\ stored b' u (tab_holding (decodes_exception e)).
Proof.
  intros (Hm & Hl & Hs1 & Hs2). unfold write_exception. destruct (build_string_stored b (message e) Hm) as [X1 S1].
  destruct (build_string b (message e)) as [b1 s]. cbn [fst snd] in *. apply built_table_trans; [done|small|]. intros t He Hf R. split_and!.
  - apply (built_string b1 t _ He Hf R 0 s); [in_fields|done].
  - apply (read_i32 t _ _ R 1); [in_fields|done].
  - apply (read_span t _ _ R 2); [in_fields|done|done].
Qed.

Lemma write_app_stored a b : good_app a ->
  let '(b', u) := write_app b a in extends b b' /\ stored b' u (tab_holding (decodes_app a)).
Proof.
  intros (Hn & Hp & Hv & Hi). unfold write_app.
  destruct (build_string_stored b _ Hn) as [X1 S1]. destruct (build_string b (app_name a)) as [b1 u1]. cbn [fst snd] in *.
  destruct (build_string_stored b1 _ Hp) as [X2 S2]. destruct (build_string b1 (app_publisher a)) as [b2 u2]. cbn [fst snd] in *.
  destruct (build_string_stored b2 _ Hv) as [X3 S3]. destruct (build_string b2 (app_version a)) as [b3 u3]. cbn [fst snd] in *.
  destruct (build_string_stored b3 _ Hi) as [X4 S4]. destruct (build_string b3 (app_id a)) as [b4 u4]. cbn [fst snd] in *.
  apply built_table_trans; [by eauto using extends_trans|small|]. intros t He Hf R. split_and!.
  - apply (built_string b4 t _ He Hf R 0 u1); [in_fields|apply (stored_extends b1 b4); [eauto using extends_trans|done]].
  - apply (built_string b4 t _ He Hf R 1 u2); [in_fields|apply (stored_extends b2 b4); [eauto using extends_trans|done]].
  - apply (built_string b4 t _ He Hf R 2 u3); [in_fields|apply (stored_extends b3 b4); [eauto using extends_trans|done]].
  - apply (built_string b4 t _ He Hf R 3 u4); [in_fields|done].
Qed.

(** An optional part, and its field. *)
Lemma write_option_stored {A} (f : B -> A -> B * Z) (good : A -> Prop) (Q : A -> Tab -> Prop) o b :
  (forall b a, good a -> let '(b', u) := f b a in extends b b' /\ stored b' u (tab_holding (Q a))) -> all_option good o ->
  let '(b', ou) := write_option f b o in
  extends b b' /\ match o, ou with Some a, Some u => stored b' u (tab_holding (Q a)) | None, None => True | _, _ => False end.
Proof.
  intros H Ho. destruct o as [a|]; cbn; [|split; [apply extends_refl|done]]. pose proof (H b a Ho) as Ha.
  by destruct (f b a) as [b' u].
Qed.

(** * The round trip *)

Lemma context_fields_small i m fr ln ex ap span bu inc : small_fields (context_fields i m fr ln ex ap span bu inc).
Proof. split; destruct ex, ap; unfold context_fields; [solve_nodup..|solve_small|solve_small|solve_small|solve_small]. Qed.

(** What [write_context] leaves: the last builder before the table, the parts
    stored in it, and the table of their offsets. *)
Lemma write_context_parts c : good_context c ->
  exists b i m fr ln ex ap fus lus,
    write_context empty_builder c =
      build_table b (context_fields i m fr ln ex ap (execution_span c) (is_builtin_code_unit_call c) (is_incomplete_measurement c)) /\
    stored b i (tab_holding (decodes_id (id c))) /\ stored b m (string_at (context_method c)) /\
    stored b fr (vector_at fus) /\ Forall2 (fun u f => stored b u (tab_holding (decodes_frame f))) fus (frames c) /\
    stored b ln (vector_at lus) /\ Forall2 (fun u l => stored b u (tab_holding (decodes_line l))) lus (line_contexts c) /\
    match exception c, ex with Some e, Some u => stored b u (tab_holding (decodes_exception e)) | None, None => True | _, _ => False end /\
    match app c, ap with Some a, Some u => stored b u (tab_holding (decodes_app a)) | None, None => True | _, _ => False end.
Proof.
  intros (Hi & Hm & He & Hfl & Hfr & Hll & Hln & _ & _ & Ha). unfold write_context. rewrite Forall_forall in Hfr. rewrite Forall_forall in Hln.
  pose proof (write_vector_stored write_line (fun l => tab_holding (decodes_line l)) (line_contexts c) empty_builder
    (fun b l Hin => write_line_stored l b (Hln l Hin)) Hll) as W. destruct (write_vector write_line _ _) as [b1 ln]. destruct W as (lus & X1 & S1 & S1').
  pose proof (write_vector_stored write_frame (fun f => tab_holding (decodes_frame f)) (frames c) b1
    (fun b f Hin => write_frame_stored f b (Hfr f Hin)) Hfl) as W. destruct (write_vector write_frame _ _) as [b2 fr]. destruct W as (fus & X2 & S2 & S2').
  pose proof (write_id_stored (id c) b2 Hi) as W. destruct (write_id b2 (id c)) as [b3 i]. destruct W as [X3 S3].
  destruct (build_string_stored b3 _ Hm) as [X4 S4]. destruct (build_string b3 (context_method c)) as [b4 m]. cbn [fst snd] in *.
  pose proof (write_option_stored write_exception good_exception decodes_exception (exception c) b4
    (fun b e He => write_exception_stored e b He) He) as W. destruct (write_option write_exception _ _) as [b5 ex]. destruct W as [X5 S5].
  pose proof (write_option_stored write_app good_app decodes_app (app c) b5
    (fun b a Ha => write_app_stored a b Ha) Ha) as W. destruct (write_option write_app _ _) as [b6 ap]. destruct W as [X6 S6].
  assert (extends b4 b6) as X46 by by eapply extends_trans. assert (extends b3 b6) as X36 by by eapply extends_trans.
  assert (extends b2 b6) as X26 by by eapply extends_trans. assert (extends b1 b6) as X16 by by eapply extends_trans.
  exists b6, i, m, fr, ln, ex, ap, fus, lus.
  split_and!; [done|by apply (stored_extends b3)|by apply (stored_extends b4)|by apply (stored_extends b2)| |by apply (stored_extends b1)| | |done].
  - eapply Forall2_impl; [exact S2'|]. intros u f. by apply stored_extends.
  - eapply Forall2_impl; [exact S1'|]. intros u l. by apply stored_extends.
  - destruct (exception c), ex; try done. by apply (stored_extends b5).
Qed.

Lemma foldr_ones {A} (l : list A) : foldr (fun _ n => 1 + n) 0 l = Z.of_nat (length l).
Proof. induction l as [|a l IH]; [done|]. cbn [foldr length]. rewrite IH. lia. Qed.

Lemma lines_cost_nonneg ls : 0 <= foldr (fun l n => line_cost l + n) 0 ls.
Proof.
  induction ls as [|l ls IH]; [done|]. cbn [foldr]. unfold line_cost at 1. pose proof (all_nodes_nonneg (variables l)). lia.
Qed.

Ltac in_context := unfold context_fields; repeat match goal with o : option Z |- _ => destruct o end; cbn; set_solver.

(** An optional table. *)
Lemma built_option {A} b t fields slot o ou (Q : A -> Tab -> Prop) :
  ends (buffer t) b -> fits_u32 (buffer t) -> reads_fields t fields (blen (bytes b)) ->
  match o, ou with Some a, Some u => stored b u (tab_holding (Q a)) | None, None => True | _, _ => False end ->
  (forall u, ou = Some u -> (slot, Off u) ∈ fields) -> (ou = None -> ~ slot ∈ fields.*1) ->
  match o with
  | Some a => exists sub, tab_table t (Z.of_nat slot) = Ok (Some sub) /\ Q a sub
  | None => tab_table t (Z.of_nat slot) = Ok None
  end.
Proof.
  intros He Hf R Ho H1 H2. destruct o as [a|], ou as [u|]; try done.
  - apply (built_subtable b t fields He Hf R slot u); [by apply H1|exact Ho].
  - unfold tab_table. apply (read_absent t fields _ R). by apply H2.
Qed.

Lemma decode_written t b i m fr ln ex ap fus lus c n :
  good_context c -> context_cost c <= MAX_NODES ->
  stored b i (tab_holding (decodes_id (id c))) -> stored b m (string_at (context_method c)) ->
  stored b fr (vector_at fus) -> Forall2 (fun u f => stored b u (tab_holding (decodes_frame f))) fus (frames c) ->
  stored b ln (vector_at lus) -> Forall2 (fun u l => stored b u (tab_holding (decodes_line l))) lus (line_contexts c) ->
  match exception c, ex with Some e, Some u => stored b u (tab_holding (decodes_exception e)) | None, None => True | _, _ => False end ->
  match app c, ap with Some a, Some u => stored b u (tab_holding (decodes_app a)) | None, None => True | _, _ => False end ->
  ends (buffer t) b -> fits_u32 (buffer t) ->
  reads_fields t (context_fields i m fr ln ex ap (execution_span c) (is_builtin_code_unit_call c) (is_incomplete_measurement c)) (blen (bytes b)) ->
  root_table (buffer t) false = Ok t -> n = index c -> decode_method_context (buffer t) n = Ok c.
Proof.
  intros (Hi & Hm & He & Hfl & Hfr & Hll & Hln & Hst & Hen & Ha) Hc Si Sm Sf Sf' Sl Sl' Sx Sa Ee Hf R Hroot ->.
  set (fields := context_fields _ _ _ _ _ _ _ _ _) in *. unfold decode_method_context. rewrite Hroot. cbn [res_bind].
  assert (decode_exception t = Ok (exception c)) as ->.
  { pose proof (built_option b t fields 2 (exception c) ex decodes_exception Ee Hf R Sx
      ltac:(intros; subst; unfold fields; in_context) ltac:(intros ->; unfold fields; in_context)) as H. unfold decode_exception.
    destruct (exception c) as [e|]; [|change 2 with (Z.of_nat 2); by rewrite H]. destruct H as (sub & H & H0 & H1 & H2).
    change 2 with (Z.of_nat 2) at 1. rewrite H. cbn [res_bind]. rewrite H0. cbn [res_bind]. rewrite H1. cbn [res_bind]. rewrite H2. by destruct e. }
  cbn [res_bind]. pose proof (lines_cost_nonneg (line_contexts c)) as Hpos. unfold context_cost in Hc.
  destruct (built_tables b t fields Ee Hf R 3 fr fus (frames c) (fun f sub => decodes_frame f sub)) as (subs & Hs1 & Hs2);
    [unfold fields; in_context|done|done|done|]. change (Z.of_nat 3) with 3 in Hs1. rewrite Hs1. cbn [res_bind].
  rewrite (try_each_ok decode_frame (fun _ => 1) subs (frames c)); [|eapply Forall2_impl; [exact Hs2|]|rewrite foldr_ones; lia].
  2: { intros sub f Hsub. split; [done|]. intros budget. apply Hsub. }
  cbn [res_bind]. rewrite foldr_ones.
  destruct (built_tables b t fields Ee Hf R 4 ln lus (line_contexts c) (fun l sub => decodes_line l sub)) as (subs' & Hs1' & Hs2');
    [unfold fields; in_context|done|done|done|]. change (Z.of_nat 4) with 4 in Hs1'. rewrite Hs1'. cbn [res_bind].
  rewrite (try_each_ok decode_line line_cost subs' (line_contexts c)); [|eapply Forall2_impl; [exact Hs2'|]|lia].
  2: { intros sub l Hsub. split; [unfold line_cost; pose proof (all_nodes_nonneg (variables l)); lia|]. intros budget. apply Hsub. }
  cbn [res_bind]. assert (decode_app t = Ok (app c)) as ->.
  { pose proof (built_option b t fields 6 (app c) ap decodes_app Ee Hf R Sa
      ltac:(intros; subst; unfold fields; in_context) ltac:(intros ->; unfold fields; in_context)) as H. unfold decode_app.
    destruct (app c) as [a|]; [|change 6 with (Z.of_nat 6); by rewrite H]. destruct H as (sub & H & H0 & H1 & H2 & H3).
    change 6 with (Z.of_nat 6). rewrite H. cbn [res_bind]. rewrite H0. cbn [res_bind]. rewrite H1. cbn [res_bind]. rewrite H2. cbn [res_bind].
    rewrite H3. by destruct a. }
  cbn [res_bind]. assert (tab_object_id t 0 = Ok (Some (id c))) as ->
    by (apply (subtable_id b t fields 0 i (id c) Ee Hf R Hi); [unfold fields; in_context|done]).
  assert (tab_string t 1 = Ok (context_method c)) as -> by (apply (built_string b t fields Ee Hf R 1 m); [unfold fields; in_context|done]).
  assert (tab_time_span t 5 = Ok (execution_span c)) as -> by (apply (read_time_span t fields _ R 5); [unfold fields; in_context|done|done]).
  assert (tab_i8 t 7 = Ok (if is_builtin_code_unit_call c then 1 else 0)) as ->
    by (apply (read_i8 t fields _ R 7); [unfold fields, flag; in_context|by destruct (is_builtin_code_unit_call c)]).
  assert (tab_i8 t 8 = Ok (if is_incomplete_measurement c then 1 else 0)) as ->
    by (apply (read_i8 t fields _ R 8); [unfold fields, flag; in_context|by destruct (is_incomplete_measurement c)]).
  cbn [res_bind default]. destruct c as [? ? ? ? ? ? ? ? bu inc]. cbn. by destruct bu, inc.
Qed.

Lemma finish_bytes b root : finish b root = le_bytes 4 (blen (bytes b) + 4 - root) ++ bytes b.
Proof. unfold finish. rewrite blen_rev. pose proof (push_bytes b (le_bytes 4 (blen (bytes b) + 4 - root))) as [H _]. destruct (push b _). exact H. Qed.

Lemma context_roundtrip c :
  good_context c -> context_cost c <= MAX_NODES -> fits_u32 (encode_context c) ->
  decode_method_context (encode_context c) (index c) = Ok c.
Proof.
  intros Hg Hc Hfit. destruct (write_context_parts c Hg) as (b & i & m & fr & ln & ex & ap & fus & lus & E & Hparts).
  unfold encode_context in *. rewrite E in *.
  pose proof (built_table b _ (fun t => ends (buffer t) b /\ reads_fields t (context_fields i m fr ln ex ap (execution_span c)
    (is_builtin_code_unit_call c) (is_incomplete_measurement c)) (blen (bytes b)))
    (context_fields_small i m fr ln ex ap (execution_span c) (is_builtin_code_unit_call c) (is_incomplete_measurement c))) as H.
  destruct (build_table b _) as [b' root]. destruct H as [X [Hu Hs]]; [by intros|]. rewrite finish_bytes in *.
  set (full := le_bytes 4 _ ++ bytes b') in *. assert (ends full b') as Hend by by eexists.
  assert (blen full = 4 + blen (bytes b')) as Lf by (unfold full; by rewrite blen_app, blen_le).
  destruct (Hs full Hend Hfit) as (t & H1 & Hb & He & R).
  assert (root_table full false = Ok t) as Hroot.
  { unfold root_table. assert (holds full 0 (le_bytes 4 (blen full - root))) as Hh.
    { exists [], (bytes b'). split; [|done]. rewrite Lf. unfold full. cbn [Datatypes.app].
      by replace (4 + blen (bytes b') - root) with (blen (bytes b') + 4 - root) by lia. }
    rewrite (holds_u32 _ _ _ Hh) by (unfold fits_u32 in Hfit; lia). cbn [res_bind]. by rewrite (proj2 (Z.leb_gt _ _)) by lia. }
  destruct Hparts as (P1 & P2 & P3 & P4 & P5 & P6 & P7 & P8). subst full. rewrite <- Hb in *.
  by apply (decode_written t b i m fr ln ex ap fus lus).
Qed.

(** * Limits *)

(** The steps of a computation that succeeded. *)
Ltac res_inv H :=
  repeat match type of H with
  | res_bind ?r _ = Ok _ => let E := fresh "E" in destruct r eqn:E; cbn [res_bind] in H; [|discriminate H]
  | (let '(_, _) := ?p in _) = Ok _ => destruct p
  | (if ?c then _ else _) = Ok _ => let E := fresh "E" in destruct c eqn:E; try discriminate H
  end.

(** * Limits *)

(** No vector of children is longer than the limit. *)
Inductive var_limits : Var -> Prop :=
  | var_limits_intro n x t h cs : Z.of_nat (length cs) <= MAX_VECTOR_LEN -> Forall var_limits cs -> var_limits (mkVariable n x t h cs).

Lemma try_map_length {A C} (f : A -> Res ArchiveError C) l l' : try_map f l = Ok l' -> length l' = length l.
Proof.
  revert l'. induction l as [|a l IH]; intros l' H; cbn [try_map] in H; [by injection H as <-|].
  res_inv H. injection H as <-. cbn. by rewrite (IH _ eq_refl).
Qed.

Lemma tab_tables_length t slot subs : tab_tables t slot = Ok subs -> Z.of_nat (length subs) <= MAX_VECTOR_LEN.
Proof.
  unfold tab_tables, field_or. intros H. destruct (field t slot) as [[p|]|]; cbn [res_bind] in H; try discriminate H.
  - res_inv H. apply Z.ltb_ge in E1. apply try_map_length in H. rewrite H, length_fmap, length_seq.
    destruct (decide (0 <= a0)); [lia|]. unfold MAX_VECTOR_LEN. lia.
  - injection H as <-. done.
Qed.

Lemma take_budget_inv budget b : take_budget budget = Ok b -> 0 <= budget -> b = budget - 1 /\ 0 <= b.
Proof. unfold take_budget. intros H Hb. res_inv H. injection H as <-. apply Z.eqb_neq in E. lia. Qed.

(** A loop whose body pays [cost] for what it makes. *)
Lemma try_each_inv {A C} (f : A -> Z -> Res ArchiveError (C * Z)) (cost : C -> Z) (P : C -> Prop) l budget rs b :
  (forall a budget r b, f a budget = Ok (r, b) -> 0 <= budget -> b = budget - cost r /\ 0 <= b /\ P r) ->
  try_each f l budget = Ok (rs, b) -> 0 <= budget ->
  b = budget - foldr (fun r n => cost r + n) 0 rs /\ 0 <= b /\ Forall P rs /\ length rs = length l.
Proof.
  intros Hf. revert budget rs b. induction l as [|a l IH]; intros budget rs b H Hb; cbn [try_each] in H.
  - injection H as <- <-. cbn. split_and!; [lia|done|constructor|done].
  - res_inv H. injection H as <- <-. destruct (Hf _ _ _ _ E Hb) as (-> & H0 & HP).
    destruct (IH _ _ _ E0 H0) as (-> & H1 & H2 & H3). cbn [foldr length]. split_and!; [lia|lia|by constructor|by rewrite H3].
Qed.

Lemma depth_le cs n : Forall (fun c => (depth c <= n)%nat) cs -> (foldr (fun c n => Nat.max (depth c) n) O cs <= n)%nat.
Proof. induction 1 as [|c cs H _ IH]; cbn; lia. Qed.

Lemma decode_variable_inv levels t budget v b : decode_variable levels t budget = Ok (v, b) -> 0 <= budget ->
  b = budget - nodes v /\ 0 <= b /\ (depth v <= levels)%nat /\ var_limits v.
Proof.
  revert t budget v b. induction levels as [|levels IH]; intros t budget v b H Hb; cbn [decode_variable] in H; res_inv H; try discriminate H.
  injection H as <- <-. destruct (take_budget_inv _ _ E Hb) as [-> Hb1].
  destruct (try_each_inv (decode_variable levels) nodes (fun c => (depth c <= levels)%nat /\ var_limits c) _ _ _ _ (IH : forall a budget r b, _) E1 Hb1)
    as (-> & Hb2 & Hcs & Hlen). cbn [depth nodes]. apply Forall_and in Hcs as [Hd Hl]. apply tab_tables_length in E0.
  fold (all_nodes l). split_and!; [unfold all_nodes in *; lia|done| |].
  - apply le_n_S. by apply depth_le.
  - constructor; [by rewrite Hlen|done].
Qed.

Definition line_limits (l : LineContext) : Prop :=
  Z.of_nat (length (variables l)) <= MAX_VECTOR_LEN /\
  Forall (fun v => (depth v <= MAX_VARIABLE_DEPTH)%nat /\ var_limits v) (variables l).

Lemma decode_line_inv t budget l b : decode_line t budget = Ok (l, b) -> 0 <= budget -> b = budget - line_cost l /\ 0 <= b /\ line_limits l.
Proof.
  unfold decode_line, decode_variables. intros H Hb. res_inv H. injection H as <- <-. destruct (take_budget_inv _ _ E Hb) as [-> Hb1].
  res_inv E2. destruct (try_each_inv (decode_variable MAX_VARIABLE_DEPTH) nodes (fun c => (depth c <= MAX_VARIABLE_DEPTH)%nat /\ var_limits c) _ _ _ _
    (decode_variable_inv MAX_VARIABLE_DEPTH) E2 Hb1) as (-> & Hb2 & Hcs & Hlen). apply tab_tables_length in E4.
  unfold line_cost, line_limits, all_nodes. cbn [variables]. split_and!; [lia|done|by rewrite Hlen|done].
Qed.

Lemma decode_frame_inv t budget f b : decode_frame t budget = Ok (f, b) -> 0 <= budget -> b = budget - 1 /\ 0 <= b /\ True.
Proof.
  unfold decode_frame. intros H Hb. res_inv H. injection H as <- <-. destruct (take_budget_inv _ _ E Hb) as [-> Hb1]. done.
Qed.

Lemma decoded_limits b n c : decode_method_context b n = Ok c ->
  index c = n /\ context_cost c <= MAX_NODES /\ Z.of_nat (length (frames c)) <= MAX_VECTOR_LEN /\
  Z.of_nat (length (line_contexts c)) <= MAX_VECTOR_LEN /\ Forall line_limits (line_contexts c).
Proof.
  unfold decode_method_context. intros H. res_inv H. injection H as <-. unfold context_cost. cbn [index frames line_contexts].
  destruct (try_each_inv decode_frame (fun _ => 1) (fun _ => True) _ _ _ _ decode_frame_inv E2 ltac:(done)) as (-> & H0 & _ & L1).
  destruct (try_each_inv decode_line line_cost line_limits _ _ _ _ decode_line_inv E4 H0) as (-> & H1 & H2 & L2).
  rewrite foldr_ones in *. apply tab_tables_length in E1, E3. rewrite <- L1 in E1. rewrite <- L2 in E3. split_and!; try done. lia.
Qed.

(** C15: Method contexts decode exactly, within the limits.  Every context of
    texts and numbers that the format can hold, with at most the limits of
    tables, of nesting and of vector lengths, is decoded from the bytes that the
    builder writes for it; and from any bytes at all the decoder makes an error
    or a context of the index asked for that keeps those limits: at most
    2,000,000 tables of variables, frames and lines, variables at most 64 levels
    deep, and no vector of more than 1,000,000 elements. *)
Theorem method_contexts_decode_exactly :
  (forall c, good_context c -> context_cost c <= MAX_NODES -> fits_u32 (encode_context c) ->
     decode_method_context (encode_context c) (index c) = Ok c) /\
  (forall b n c, decode_method_context b n = Ok c ->
     index c = n /\ context_cost c <= MAX_NODES /\ Z.of_nat (length (frames c)) <= MAX_VECTOR_LEN /\
     Z.of_nat (length (line_contexts c)) <= MAX_VECTOR_LEN /\ Forall line_limits (line_contexts c)).
Proof. split; [exact context_roundtrip|exact decoded_limits]. Qed.

(** * At work *)

Definition a_span (l : Z) : SourceSpan := {| from := {| line := l; column := 8 |}; to := {| line := l; column := 52 |} |}.

(** A call with one record of two fields. *)
Definition a_context : MethodContext :=
  {| index := 7; id := {| object_type := Page; number := 42 |}; context_method := lit "OnAfterGetRecord";
     exception := Some {| message := lit "Item is missing"; line_number := 0; exception_span := a_span 3 |};
     frames := [{| method_name := lit "OnAfterGetRecord"; frame_id := {| object_type := Page; number := 42 |};
                   frame_object := lit "Sales Order"; frame_span := a_span 2568 |}];
     line_contexts :=
       [{| ordinal := 0; statement_span := a_span 2568; timestamp := 63928635026723638;
           variables := [mkVariable (lit "Rec") (lit "'SO1'") (lit "Record") true
             [mkVariable (lit "No.") (lit "'SO1'") (lit "Code[20]") false []; mkVariable (lit "Amount") [] (lit "Decimal") false []]] |};
        {| ordinal := 1; statement_span := a_span 2569; timestamp := -1; variables := [] |}];
     execution_span := {| start_time := 100; end_time := 250 |}; app := None;
     is_builtin_code_unit_call := true; is_incomplete_measurement := false |}.

Lemma texts_ascii s : forallb (fun c => (0 <=? c) && (c <? 128)) s = true -> str_len s < 4294967296 -> is_text s.
Proof.
  intros H Hl. split; [|done]. rewrite forallb_forall in H. apply Forall_forall. intros c Hc%list_elem_of_In.
  apply H, andb_true_iff in Hc as [H1%Z.leb_le H2%Z.ltb_lt]. left. lia.
Qed.

Lemma a_context_good : good_context a_context.
Proof.
  assert (forall l, in_u16 l -> good_span (a_span l)) as Hs by (intros l [Hl1 Hl2]; repeat split; cbn; lia).
  assert (forall s, forallb (fun c => (0 <=? c) && (c <? 128)) s && (str_len s <? 4294967296) = true -> is_text s) as Ht
    by (intros s [H1 H2%Z.ltb_lt]%andb_true_iff; by apply texts_ascii).
  assert (good_id {| object_type := Page; number := 42 |}) as Hi by done.
  split_and!; try done; try (by apply Ht).
  - split_and!; [by apply Ht|done|by apply Hs].
  - repeat constructor; cbn; (done || by apply Ht || by apply Hs).
  - repeat (constructor; [split_and!; try done; [by apply Hs|..]|]); [..|constructor]; repeat constructor; cbn; try (by apply Ht); try lia; done.
Qed.

Lemma method_contexts_decode_exactly_witness :
  blen (encode_context a_context) = 546 /\ decode_method_context (encode_context a_context) 7 = Ok a_context /\ context_cost a_context <= MAX_NODES.
Proof.
  split; [vm_compute; reflexivity|]. assert (decode_method_context (encode_context a_context) 7 = Ok a_context) as H.
  - apply (proj1 method_contexts_decode_exactly a_context a_context_good); [vm_compute; discriminate|vm_compute; reflexivity].
  - split; [exact H|]. exact (proj1 (proj2 (proj2 method_contexts_decode_exactly _ _ _ H))).
Defined.
