(* ===== verification/ArchiveSpec.v ===== *)
(** Names, versions, entries and stops of a snapshot archive. *)

From Stdlib Require Import ZArith Lia Sorting.Sorted.
From stdpp Require Import base tactics numbers option list gmap sets strings.
From S2P Require Import Prelude RustStr StrSearch TextLines Bytes Snapshots SnapshotBuilder SnapshotSpec.

#[local] Open Scope Z_scope.

(** * Names *)

Definition named (t : ObjectType) : Prop := match t with Other _ => False | _ => True end.

Lemma from_i8_named v : match from_i8 v with Other v' => v' = v | t => as_i8 t = v end.
Proof.
  unfold from_i8. destruct (List.find _ NAMED) as [[n t]|] eqn:E; [|done]. apply List.find_some in E as [Hin He].
  apply Z.eqb_eq in He. cbn in He. subst n. unfold NAMED in Hin. cbn in Hin. destruct_or! Hin; (done || by simplify_eq).
Qed.

Lemma as_i8_from_i8 v : as_i8 (from_i8 v) = v.
Proof. pose proof (from_i8_named v) as H. by destruct (from_i8 v). Qed.

Lemma from_i8_as_i8 t : from_i8 (as_i8 t) = t <-> (named t \/ exists v, t = Other v /\ ~ v ∈ NAMED.*1).
Proof.
  split.
  - destruct t; try (by left). intros H. right. exists v. split; [done|]. cbn in H. unfold from_i8 in H.
    destruct (List.find _ NAMED) as [[n t]|] eqn:E; [apply List.find_some in E as [Hin _]; subst t|].
    + exfalso. cbn in Hin. destruct_or! Hin; by simplify_eq.
    + intros Hin. apply list_elem_of_fmap in Hin as ([n t] & -> & Hin). apply list_elem_of_In in Hin.
      pose proof (List.find_none _ _ E _ Hin) as Hne. cbn [fst] in Hne.
      by rewrite Z.eqb_refl in Hne.
  - intros [H|(v & -> & Hv)]; [by destruct t|]. cbn. unfold from_i8.
    destruct (List.find _ NAMED) as [[n t]|] eqn:E; [|done]. apply List.find_some in E as [Hin He%Z.eqb_eq]. cbn in He. subst n.
    destruct Hv. apply list_elem_of_fmap. exists (v, t). split; [done|]. by apply list_elem_of_In.
Qed.

Lemma strip_suffix_of_app p s : strip_suffix p (s ++ p) = Some s.
Proof. unfold strip_suffix. rewrite reverse_app, strip_prefix_app. cbn. by rewrite reverse_involutive. Qed.

Lemma find_str_char c a b : ~ c ∈ a -> find_str [c] (a ++ c :: b) = Some (a, c :: b).
Proof.
  induction a as [|d a IH]; intros H; rewrite find_str_unfold; cbn [Datatypes.app].
  - by rewrite (proj2 (starts_with_spec _ _)) by (by exists b).
  - apply not_elem_of_cons in H as [Hne H]. destruct (starts_with [c] (d :: a ++ c :: b)) eqn:E.
    + apply starts_with_spec in E as [r E]. by injection E.
    + cbv beta iota. by rewrite IH.
Qed.

Lemma split_once_char c a b : ~ c ∈ a -> split_once c (a ++ c :: b) = Some (a, b).
Proof. intros H. unfold split_once. by rewrite find_str_char. Qed.

Lemma object_name_named t : named t -> object_name t = debug_name t.
Proof. destruct t; (reflexivity || intros []). Qed.

Lemma fmap_nodup_inj {A C} (f : A -> C) l x y : NoDup (f <$> l) -> x ∈ l -> y ∈ l -> f x = f y -> x = y.
Proof.
  intros Hn [i Hi]%list_elem_of_lookup [j Hj]%list_elem_of_lookup E.
  assert (i = j) as ->; [|congruence]. apply (NoDup_lookup (f <$> l) i j (f x)); [done|by rewrite list_lookup_fmap, Hi|].
  by rewrite list_lookup_fmap, Hj, E.
Qed.

Lemma names_distinct : NoDup ((fun t => to_ascii_lowercase (debug_name t)) <$> NAMED.*2).
Proof. apply (bool_decide_eq_true_1 (NoDup _)). vm_compute. reflexivity. Qed.

Lemma from_name_object_name t s : named t -> eq_ignore_ascii_case (object_name t) s = true -> from_name s = Some t.
Proof.
  intros Ht He. unfold from_name, eq_ignore_ascii_case in *. apply bool_decide_eq_true in He.
  assert (forall l, (forall t', In t' l -> to_ascii_lowercase (debug_name t') = to_ascii_lowercase s -> t' = t) -> In t l ->
    List.find (fun t => bool_decide (to_ascii_lowercase (debug_name t) = to_ascii_lowercase s)) l = Some t) as Hfind.
  { induction l as [|t' l IH]; [done|]. intros Hu Hin. cbn [List.find]. case_bool_decide as Hd.
    - f_equal. apply Hu; [by left|done].
    - apply IH; [intros; apply Hu; [by right|done]|]. destruct Hin as [->|Hin]; [|done]. destruct Hd. rewrite <- He. by rewrite object_name_named. }
  apply Hfind.
  - intros t' Hin E. apply (fmap_nodup_inj (fun t => to_ascii_lowercase (debug_name t)) NAMED.*2); [exact names_distinct|by apply list_elem_of_In| |].
    + apply list_elem_of_In. cbn. destruct t; try done; tauto.
    + rewrite E, <- He. by rewrite object_name_named.
  - cbn. destruct t; try done; tauto.
Qed.

Lemma from_name_named s t : from_name s = Some t -> named t /\ eq_ignore_ascii_case (object_name t) s = true.
Proof.
  unfold from_name. intros H. apply List.find_some in H as [Hin He]. cbn in Hin. destruct_or! Hin; subst t; done.
Qed.

Definition name_char (c : char) : bool := negb (c =? ch "%") && negb (c =? ch "/").

Lemma object_name_chars t : named t -> Forall (fun c => name_char c = true) (object_name t).
Proof. intros H. apply Forall_forall. intros c Hc%list_elem_of_In. revert c Hc. apply forallb_forall. by destruct t. Qed.

Lemma i64_to_str_clean n : in_i64 n = true -> Forall (fun c => name_char c = true) (i64_to_str n).
Proof.
  intros Hn. unfold i64_to_str. assert (forall m, 0 <= m -> Forall (fun c => name_char c = true) (u64_to_str m)) as H.
  { intros m Hm. eapply Forall_impl; [by apply u64_to_str_digits|]. intros c Hc. unfold is_ascii_digit, name_char in *. to_prop.
    rewrite !Z.eqb_neq || idtac. destruct (Z.eqb_spec c 37), (Z.eqb_spec c 47); (lia || done). }
  destruct (Z.ltb_spec n 0); [constructor; [done|]|]; apply H; lia.
Qed.

Lemma clean_not_in c s : name_char c = false -> Forall (fun c => name_char c = true) s -> ~ c ∈ s.
Proof. intros Hc H Hin. rewrite Forall_forall in H. by rewrite (H c Hin) in Hc. Qed.

Lemma object_of_source_file f : named (object_type (object f)) -> in_i32 (number (object f)) = true ->
  object_of_file_name (source_file_name f) = Some (object_type (object f), number (object f)).
Proof.
  intros Ht Hn. unfold object_of_file_name, source_file_name. rewrite !app_assoc, strip_suffix_of_app. cbn [mbind option_bind].
  change (lit "%") with [ch "%"]. rewrite <- app_assoc. cbn [Datatypes.app]. rewrite split_once_char by (apply clean_not_in; [done|by apply object_name_chars]).
  cbn [mbind option_bind]. unfold parse_i32. assert (in_i64 (number (object f)) = true) as H64
    by (apply in_i32_spec in Hn; apply in_i64_spec; unfold_ints; lia).
  rewrite parse_i64_to_str by done. cbn [mbind option_bind]. rewrite Hn. cbn [mbind option_bind].
  rewrite (from_name_object_name (object_type (object f))) by (done || by destruct (object_type (object f))). done.
Qed.

(** ** Entries *)

Lemma file_part_of dir name : ~ ch "/" ∈ name -> file_part (dir ++ ch "/" :: name) = name.
Proof.
  intros H. unfold file_part. assert (forall d, List.last (split_char 47 (dir ++ 47 :: name)) d = name) as ->; [|done].
  assert (forall n, List.last (split_char 47 (47 :: name)) n = name) as H0.
  { intros n. cbn [split_char Z.eqb Pos.eqb]. rewrite split_char_solid by done. done. }
  induction dir as [|c dir IH]; intros d; [apply H0|]. cbn [Datatypes.app split_char]. destruct (Z.eqb_spec c 47) as [->|Hc].
  - destruct (split_char_cons 47 (dir ++ 47 :: name)) as (p & ps & E). rewrite E in *. exact (IH d).
  - destruct (split_char_cons 47 (dir ++ 47 :: name)) as (p & ps & E). rewrite E in *.
    destruct ps as [|p' ps]; [|exact (IH d)]. exfalso. clear -E. revert p E. induction dir as [|c dir IH]; intros p E.
    + cbn [Datatypes.app split_char Z.eqb Pos.eqb] in E. injection E as _ E. destruct (split_char_cons 47 name) as (? & ? & E2). congruence.
    + cbn [Datatypes.app split_char] in E. destruct (split_char_cons 47 (dir ++ 47 :: name)) as (q & qs & E').
      rewrite E' in *. destruct (c =? 47); [done|]. destruct qs; [by eapply IH|done].
Qed.

Lemma file_part_solid name : ~ ch "/" ∈ name -> file_part name = name.
Proof. intros H. unfold file_part. by rewrite split_char_solid. Qed.

Lemma clean_no_slash s : Forall (fun c => name_char c = true) s -> ~ ch "/" ∈ s.
Proof. by apply clean_not_in. Qed.

Lemma source_file_no_slash f : named (object_type (object f)) -> in_i32 (number (object f)) = true -> ~ ch "/" ∈ source_file_name f.
Proof.
  intros Ht Hn. unfold source_file_name. rewrite !elem_of_app.
  assert (in_i64 (number (object f)) = true) as H64 by (apply in_i32_spec in Hn; apply in_i64_spec; unfold_ints; lia).
  pose proof (clean_no_slash _ (object_name_chars _ Ht)). pose proof (clean_no_slash _ (i64_to_str_clean _ H64)).
  assert (~ ch "/" ∈ lit "%") by (by rewrite <- contains_char_spec). assert (~ ch "/" ∈ lit ".al") by (by rewrite <- contains_char_spec). tauto.
Qed.

Lemma not_mdc name : strip_suffix (lit ".mdc") (name ++ lit ".al") = None.
Proof. unfold strip_suffix. by rewrite reverse_app. Qed.

Lemma classify_source f : named (object_type (object f)) -> in_i32 (number (object f)) = true ->
  classify (source_file_name f) = Some (Source (object_type (object f)) (number (object f))).
Proof.
  intros Ht Hn. unfold classify. rewrite file_part_solid by (by apply source_file_no_slash).
  assert (str_is (source_file_name f) "version" = false) as ->.
  { apply bool_decide_eq_false_2. unfold source_file_name. rewrite !app_assoc. intros E.
    apply (f_equal (strip_suffix (lit ".al"))) in E. by rewrite strip_suffix_of_app in E. }
  assert (strip_suffix (lit ".mdc") (source_file_name f) = None) as -> by (unfold source_file_name; rewrite !app_assoc; apply not_mdc).
  by rewrite object_of_source_file.
Qed.

Lemma digits_no_slash s : Forall (fun c => is_ascii_digit c = true) s -> ~ ch "/" ∈ s.
Proof. intros H Hin. rewrite Forall_forall in H. by specialize (H _ Hin). Qed.

Lemma str_len_of_digits s : Forall (fun c => is_ascii_digit c = true) s -> str_len s = Z.of_nat (length s).
Proof.
  induction 1 as [|c s Hc _ IH]; [done|]. cbn [str_len foldr length]. fold (str_len s). rewrite IH. unfold is_ascii_digit in Hc. to_prop.
  unfold len_utf8. rewrite (proj2 (Z.ltb_lt _ _)) by lia. lia.
Qed.

Lemma classify_mdc n : 0 <= n <= usize_max -> (length (u64_to_str n) <= 18)%nat -> classify (u64_to_str n ++ lit ".mdc") = Some (Mdc n).
Proof.
  intros Hn Hl. pose proof (u64_to_str_digits n ltac:(lia)) as Hd. unfold classify.
  assert (~ ch "/" ∈ u64_to_str n ++ lit ".mdc") as Hs.
  { rewrite elem_of_app. intros [Hin|Hin]; [by apply digits_no_slash in Hin|]. by apply contains_char_spec in Hin. }
  rewrite file_part_solid by done. assert (str_is (u64_to_str n ++ lit ".mdc") "version" = false) as ->.
  { apply bool_decide_eq_false_2. intros E.
    apply (f_equal (strip_suffix (lit ".mdc"))) in E. by rewrite strip_suffix_of_app in E. }
  rewrite strip_suffix_of_app. destruct (u64_to_str_cons n ltac:(lia)) as (c & r & E & _).
  assert (str_eqb (u64_to_str n) [] = false) as -> by (apply bool_decide_eq_false_2; by rewrite E).
  rewrite str_len_of_digits by done. rewrite (proj2 (Z.leb_le _ 18)) by lia.
  assert (forallb is_ascii_digit (u64_to_str n) = true) as ->.
  { apply forallb_forall. intros d Hin%list_elem_of_In. rewrite Forall_forall in Hd. by apply Hd. }
  cbn [negb andb]. unfold parse_usize. assert (match u64_to_str n with c :: ds => if c =? 43 then ds else u64_to_str n | [] => [] end = u64_to_str n) as ->.
  { rewrite E in *. apply Forall_cons in Hd as [Hc _]. unfold is_ascii_digit in Hc. to_prop. by rewrite (proj2 (Z.eqb_neq _ _)) by lia. }
  rewrite parse_nat_u64_to_str by lia. cbn [mbind option_bind]. by rewrite (proj2 (Z.leb_le _ _)) by lia.
Qed.

(** The names of a snapshot are read back.  A stored type code gives its
    type and back; a type gives its code and back, but for [Other] around the
    code of a named type; a name in any case gives its type, and only names of
    types are read; the source file of a named object is classified as that
    source, an entry of up to 18 digits and [.mdc] as the method context of the
    number, and the folder of an entry does not matter. *)
Lemma archive_names_roundtrip :
  (forall v, as_i8 (from_i8 v) = v) /\
  (forall t, from_i8 (as_i8 t) = t <-> (named t \/ exists v, t = Other v /\ ~ v ∈ NAMED.*1)) /\
  (forall s t, from_name s = Some t <-> named t /\ eq_ignore_ascii_case (object_name t) s = true) /\
  (forall f, named (object_type (object f)) -> in_i32 (number (object f)) = true ->
     object_of_file_name (source_file_name f) = Some (object_type (object f), number (object f)) /\
     classify (source_file_name f) = Some (Source (object_type (object f)) (number (object f)))) /\
  (forall n, 0 <= n <= usize_max -> (length (u64_to_str n) <= 18)%nat -> classify (u64_to_str n ++ lit ".mdc") = Some (Mdc n)) /\
  (forall dir name, ~ ch "/" ∈ name -> classify (dir ++ ch "/" :: name) = classify name).
Proof.
  split_and!; [exact as_i8_from_i8|exact from_i8_as_i8| | |exact classify_mdc|].
  - intros s t. split; [apply from_name_named|]. intros [H1 H2]. by apply from_name_object_name.
  - intros f H1 H2. split; [by apply object_of_source_file|by apply classify_source].
  - intros dir name H. unfold classify. by rewrite file_part_of, file_part_solid.
Qed.

(** * Versions *)

Lemma builder_versions : decode_version real_version_bytes = Ok {| major := 3; minor := 0; build := 0; revision := 0 |} /\
  decode_version (version_bytes 4) = Ok {| major := 4; minor := 1; build := 2; revision := 3 |}.
Proof. split; vm_compute; reflexivity. Qed.

Lemma check_version_ok v v' : check_version v = Ok v' <-> v' = v /\ major v = SUPPORTED_MAJOR.
Proof. unfold check_version. destruct (Z.eqb_spec (major v) SUPPORTED_MAJOR); split; try done; [by intros [= ->]|by intros [-> _]|by intros [_ ?]]. Qed.

(** * The zip *)

(** What an entry contributes: its kind, its name and its data. *)
Definition kept (entry : Res str ZipEntry) : option (EntryKind * str * list Z) :=
  match entry with
  | Ok e =>
      if is_dir e then None
      else match entry_name e with Ok n => k ← classify n; Some (k, n, inflated e) | Err _ => None end
  | Err _ => None
  end.

Definition size_of (k : EntryKind * str * list Z) : Z := blen (snd k).

Definition as_mdc (k : EntryKind * str * list Z) : option (Z * str * list Z) :=
  let '(kind, name, data) := k in match kind with Mdc n => Some (n, name, data) | _ => None end.

Definition as_version (k : EntryKind * str * list Z) : option (list Z) :=
  let '(kind, _, data) := k in match kind with EntryVersion => Some data | _ => None end.

Definition as_source (k : EntryKind * str * list Z) : option ((ObjectType * Z) * str) :=
  let '(kind, _, data) := k in match kind with Source t id => Some ((t, id), from_utf8_lossy data) | _ => None end.

Lemma read_entry_whole e limit data : 0 <= limit -> read_entry e (limit + 1) = Ok data -> blen data <= limit -> data = inflated e.
Proof.
  unfold read_entry. intros H0 H Hl. destruct (Z.leb_spec (limit + 1) (blen (inflated e))).
  - injection H as <-. unfold blen in *. rewrite length_take in Hl. lia.
  - destruct (damage e); [done|]. by injection H as <-.
Qed.

Definition collected (limits : Limits) (ks : list (EntryKind * str * list Z)) (c c' : Collected) : Prop :=
  Forall (fun k => size_of k <= entry_bytes limits) ks /\
  (ks <> [] -> total c' <= total_bytes limits) /\
  total c' = total c + foldr (fun k n => size_of k + n) 0 ks /\
  mdcs c' = mdcs c ++ omap as_mdc ks /\
  found_version c' = from_option Some (found_version c) (last (omap as_version ks)) /\
  found_sources c' = foldl (fun m s => <[fst s := snd s]> m) (found_sources c) (omap as_source ks).

Lemma collected_none limits c : collected limits [] c c.
Proof. unfold collected. cbn. rewrite app_nil_r. split_and!; [constructor|done|lia|done|done|done]. Qed.

Lemma collect_entry_collected limits entry c c' : 0 <= entry_bytes limits -> collect_entry limits entry c = Ok c' ->
  collected limits (option_list (kept entry)) c c'.
Proof.
  intros H0. assert (forall ks, ks = [] -> collected limits ks c c) as Hnone.
  { intros ks ->. apply collected_none. }
  unfold collect_entry, kept. destruct entry as [e|]; [|done]. destruct (is_dir e); [intros [= <-]; by apply Hnone|].
  destruct (entry_name e) as [n|]; [|done]. destruct (classify n) as [kind|] eqn:Ek; cbn [mbind option_bind option_list]; [|intros [= <-]; by apply Hnone].
  destruct (Z.ltb_spec (entry_bytes limits) (declared e)); [done|]. destruct (read_entry e (entry_bytes limits + 1)) as [data|] eqn:Er; cbn [res_bind]; [|done].
  destruct (Z.ltb_spec (entry_bytes limits) (blen data)); [done|]. destruct (Z.ltb_spec (total_bytes limits) (total c + blen data)); [done|].
  intros [= <-]. apply read_entry_whole in Er; [|done|done]. subst data. unfold collected, size_of. cbn [snd foldr omap list_omap].
  destruct kind; cbn; split_and!; try done; try (repeat constructor; done); try lia; try (by rewrite app_nil_r); done.
Qed.

Lemma collected_trans limits ks1 ks2 c1 c2 c3 : 
  collected limits ks1 c1 c2 -> collected limits ks2 c2 c3 -> collected limits (ks1 ++ ks2) c1 c3.
Proof.
  intros (A1 & A2 & A3 & A4 & A5 & A6) (B1 & B2 & B3 & B4 & B5 & B6). split_and!.
  - apply Forall_app. by split.
  - intros Hne. destruct ks2 as [|k ks2]; [|by apply B2]. rewrite app_nil_r in Hne. cbn in B3. rewrite B3, Z.add_0_r. by apply A2.
  - rewrite B3, A3, foldr_app. assert (forall ks n, foldr (fun k n => size_of k + n) n ks = foldr (fun k n => size_of k + n) 0 ks + n) as Hf.
    { induction ks as [|k ks IH]; intros n; cbn; [done|]. rewrite IH. lia. } rewrite (Hf ks1 (foldr _ _ _)). lia.
  - by rewrite B4, A4, omap_app, app_assoc.
  - rewrite B5, A5, omap_app, last_app. by destruct (last (omap as_version ks2)).
  - by rewrite B6, A6, omap_app, foldl_app.
Qed.

Lemma collect_entries_collected limits es c c' : 0 <= entry_bytes limits -> collect_entries limits es c = Ok c' ->
  collected limits (omap kept es) c c'.
Proof.
  intros H0. revert c. induction es as [|e es IH]; intros c H; cbn [collect_entries] in H.
  - injection H as <-. apply collected_none.
  - destruct (collect_entry limits e c) as [c1|] eqn:E; cbn [res_bind] in H; [|done]. apply collect_entry_collected in E; [|done].
    pose proof (collected_trans _ _ _ _ _ _ E (IH _ H)) as Hc. cbn [omap list_omap]. by destruct (kept e).
Qed.

Definition not_empty (m : Z * str * list Z) : bool := negb (bool_decide (snd m = [])).

Lemma decode_contexts_each ms cs : decode_contexts ms = Ok cs ->
  Forall2 (fun m c => decode_method_context (snd m) (fst (fst m)) = Ok c) (List.filter not_empty ms) cs.
Proof.
  revert cs. induction ms as [|[[n name] data] ms IH]; intros cs H; cbn [decode_contexts] in H; [injection H as <-; constructor|].
  cbn [List.filter]. destruct data as [|x data]; [by apply IH|]. cbn [not_empty snd negb].
  replace (bool_decide (x :: data = [])) with false by (symmetry; by apply bool_decide_eq_false_2). cbn [negb].
  destruct (decode_method_context (x :: data) n) as [ctx|] eqn:E; [|done]. destruct (decode_contexts ms) as [ctxs|]; cbn [res_bind] in H; [|done].
  injection H as <-. constructor; [done|by apply IH].
Qed.

#[export] Instance by_number_order : OrderOn (fun _ => True) by_number.
Proof. apply (order_on_keys (fun _ => True) Z.compare (fun m => fst (fst m))). Qed.

Lemma strongly_sorted_impl {A} (R S : A -> A -> Prop) l : (forall a b, R a b -> S a b) -> StronglySorted R l -> StronglySorted S l.
Proof. intros H. induction 1 as [|a l Hs IH Hall]; constructor; [done|]. eapply Forall_impl; [exact Hall|]. intros b. apply H. Qed.

Lemma sorted_filter {A} (R : A -> A -> Prop) (f : A -> bool) l : StronglySorted R l -> StronglySorted R (List.filter f l).
Proof.
  induction 1 as [|a l Hs IH Hall]; cbn; [constructor|]. destruct (f a); [|done]. constructor; [done|].
  apply Forall_forall. intros b Hb%list_elem_of_In. apply List.filter_In in Hb as [Hb _]. rewrite Forall_forall in Hall.
  by apply Hall, list_elem_of_In.
Qed.

Lemma decoded_index b n c : decode_method_context b n = Ok c -> index c = n.
Proof. intros H. by apply decoded_limits in H as [H _]. Qed.

Definition mdcs_of (es : list (Res str ZipEntry)) : list (Z * str * list Z) :=
  List.filter not_empty (sort_by by_number (omap as_mdc (omap kept es))).

Lemma mdcs_sorted es : StronglySorted (fun a b => fst (fst a) <= fst (fst b)) (mdcs_of es).
Proof.
  apply sorted_filter. eapply strongly_sorted_impl; [|apply (sort_by_sorted by_number (fun _ => True)); by apply Forall_true].
  intros a b H. unfold cmp_le, by_number in H. by apply Z.compare_le_iff.
Qed.

Lemma Forall2_sorted {A C} (f : A -> Z) (g : C -> Z) l l' :
  Forall2 (fun a c => g c = f a) l l' -> StronglySorted (fun a b => f a <= f b) l -> StronglySorted Z.le (g <$> l').
Proof.
  induction 1 as [|a c l l' H Hl IH]; intros Hs; [constructor|]. apply StronglySorted_inv in Hs as [Hs Ha]. cbn. constructor; [by apply IH|].
  clear IH Hs. induction Hl as [|a' c' l l' H' Hl IH]; [constructor|]. apply Forall_cons in Ha as [Ha1 Ha2]. cbn. constructor; [lia|by apply IH].
Qed.

Lemma foldl_inserts {K A} `{Countable K} (l : list (K * A)) (m : gmap K A) k :
  foldl (fun m s => <[fst s := snd s]> m) m l !! k = from_option (fun s => Some (snd s)) (m !! k) (last (List.filter (fun s => bool_decide (fst s = k)) l)).
Proof.
  revert m. induction l as [|[k' a] l IH]; intros m; [done|]. cbn [foldl List.filter fst snd]. rewrite IH. case_bool_decide as Hk.
  - subst k'. rewrite lookup_insert_eq, last_cons. by destruct (last _).
  - by rewrite lookup_insert_ne.
Qed.

(** A snapshot archive is what its entries hold.  When a zip is read, it has
    no more entries and no more inflated bytes, of one entry and in total, than
    the limits allow, and no entry that is kept was cut short; its version is
    that of the last version entry, and of format 3; its contexts are those of
    the entries that are not empty, each decoded, in the order of their numbers
    whatever order the zip has; and the source of an object is the text of its
    last entry.  A zip without a version, or with one of another format, is an
    error. *)
Lemma archive_holds_its_entries (zip : Res str (list (Res str ZipEntry))) limits a :
  0 <= entry_bytes limits -> from_reader_with zip limits = Ok a ->
  exists es, zip = Ok es /\ let ks := omap kept es in
    Z.of_nat (length es) <= entries limits /\ Forall (fun k => size_of k <= entry_bytes limits) ks /\
    (ks <> [] -> foldr (fun k n => size_of k + n) 0 ks <= total_bytes limits) /\
    (exists data, last (omap as_version ks) = Some data /\ decode_version data = Ok (archive_version a)) /\
    major (archive_version a) = SUPPORTED_MAJOR /\
    Forall2 (fun m c => decode_method_context (snd m) (fst (fst m)) = Ok c) (mdcs_of es) (contexts a) /\
    StronglySorted Z.le (index <$> contexts a) /\
    (forall t n, source a t n = snd <$> last (List.filter (fun s => bool_decide (fst s = (t, n))) (omap as_source ks))).
Proof.
  unfold from_reader_with. intros H0 H. destruct zip as [es|]; [|done]. exists es. split; [done|].
  destruct (Z.ltb_spec (entries limits) (Z.of_nat (length es))); [done|].
  destruct (collect_entries limits es nothing_collected) as [c|] eqn:Ec; cbn [res_bind] in H; [|done].
  apply collect_entries_collected in Ec as (C1 & C2 & C3 & C4 & C5 & C6); [|done]. destruct (found_version c) as [vb|]; [|done].
  destruct (decode_version vb) as [v|] eqn:Ev; cbn [res_bind] in H; [|done].
  destruct (check_version v) as [v'|] eqn:Ev'; cbn [res_bind] in H; [|done]. apply check_version_ok in Ev' as [-> Hm].
  destruct (decode_contexts _) as [cs|] eqn:Ecs; cbn [res_bind] in H; [|done]. injection H as <-. cbn [archive_version contexts source sources].
  apply decode_contexts_each in Ecs. rewrite C4 in Ecs. cbn [mdcs nothing_collected Datatypes.app] in Ecs. cbn in C3.
  split_and!; [done|done|by rewrite C3 in C2| |done|exact Ecs| |].
  - cbn in C5. destruct (last (omap as_version (omap kept es))) as [data|]; [|done]. exists data. cbn in C5. split; [done|]. by injection C5 as ->.
  - eapply (Forall2_sorted (fun m => fst (fst m))); [|apply mdcs_sorted]. eapply Forall2_impl; [exact Ecs|]. intros m x. apply decoded_index.
  - intros t n. unfold source. cbn [sources]. rewrite C6, foldl_inserts. cbn [found_sources nothing_collected]. rewrite lookup_empty.
    by destruct (last _).
Qed.

(** C18: A snapshot archive is what its entries hold, found by their names.  When a
    zip is read, it has no more entries and no more inflated bytes, of one entry
    and in total, than the limits allow, and no entry that is kept was cut short;
    its version is that of the last version entry, and of format 3; its contexts
    are those of the entries that are not empty, each decoded, in the order of
    their numbers whatever order the zip has; and the source of an object is the
    text of its last entry.  A zip without a version, or with one of another
    format, is an error.  Stored type codes, type names and the file names of
    sources and contexts are read back as what they were made from, and the
    folder of an entry does not matter. *)
Theorem archive_exact :
  (forall (zip : Res str (list (Res str ZipEntry))) limits a,
    0 <= entry_bytes limits -> from_reader_with zip limits = Ok a ->
      exists es, zip = Ok es /\ let ks := omap kept es in
        Z.of_nat (length es) <= entries limits /\ Forall (fun k => size_of k <= entry_bytes limits) ks /\
        (ks <> [] -> foldr (fun k n => size_of k + n) 0 ks <= total_bytes limits) /\
        (exists data, last (omap as_version ks) = Some data /\ decode_version data = Ok (archive_version a)) /\
        major (archive_version a) = SUPPORTED_MAJOR /\
        Forall2 (fun m c => decode_method_context (snd m) (fst (fst m)) = Ok c) (mdcs_of es) (contexts a) /\
        StronglySorted Z.le (index <$> contexts a) /\
        (forall t n, source a t n = snd <$> last (List.filter (fun s => bool_decide (fst s = (t, n))) (omap as_source ks)))) /\
  ((forall v, as_i8 (from_i8 v) = v) /\
    (forall t, from_i8 (as_i8 t) = t <-> (named t \/ exists v, t = Other v /\ ~ v ∈ NAMED.*1)) /\
    (forall s t, from_name s = Some t <-> named t /\ eq_ignore_ascii_case (object_name t) s = true) /\
    (forall f, named (object_type (object f)) -> in_i32 (number (object f)) = true ->
       object_of_file_name (source_file_name f) = Some (object_type (object f), number (object f)) /\
       classify (source_file_name f) = Some (Source (object_type (object f)) (number (object f)))) /\
    (forall n, 0 <= n <= usize_max -> (length (u64_to_str n) <= 18)%nat -> classify (u64_to_str n ++ lit ".mdc") = Some (Mdc n)) /\
    (forall dir name, ~ ch "/" ∈ name -> classify (dir ++ ch "/" :: name) = classify name)).
Proof. exact (conj archive_holds_its_entries archive_names_roundtrip). Qed.

(** * Stops *)

Definition is_snappoint (s : Stop) : bool := match error s with None => true | Some _ => false end.

Definition snappoint_of (ctx : MethodContext) (i : nat) (lc : LineContext) : option Stop :=
  match variables lc with [] => None | vars => Some (build_stop ctx i (statement_span lc) vars None) end.

Lemma filter_app' {A} (f : A -> bool) l k : List.filter f (l ++ k) = List.filter f l ++ List.filter f k.
Proof. apply List.filter_app. Qed.

Lemma error_stop_error ctx : is_snappoint (error_stop ctx) = false.
Proof. unfold error_stop. destruct (_ ≫= _) as [[i l]|]; unfold build_stop; by destruct (split_scopes _). Qed.

Lemma snappoint_snappoint ctx i lc s : snappoint_of ctx i lc = Some s -> is_snappoint s = true.
Proof. unfold snappoint_of. destruct (variables lc) as [|v vs]; [done|]. intros [= <-]. unfold build_stop. by destruct (split_scopes _). Qed.

Lemma line_stops_split ctx exc i lc :
  List.filter is_snappoint (line_stops ctx exc i lc) = option_list (snappoint_of ctx i lc) /\
  List.filter (fun s => negb (is_snappoint s)) (line_stops ctx exc i lc) = if decide (exc = Some i) then [error_stop ctx] else [].
Proof.
  unfold line_stops. rewrite !filter_app'. assert (forall b : bool, List.filter is_snappoint (if b then [error_stop ctx] else []) = []) as H1
    by (intros []; cbn; by rewrite ?error_stop_error).
  assert (match variables lc with [] => [] | vars => [build_stop ctx i (statement_span lc) vars None] end = option_list (snappoint_of ctx i lc)) as ->
    by (unfold snappoint_of; by destruct (variables lc)).
  destruct (snappoint_of ctx i lc) as [s|] eqn:E; cbn [option_list].
  - apply snappoint_snappoint in E. cbn. rewrite E. cbn. destruct (decide _); cbn; by rewrite ?error_stop_error.
  - destruct (decide _); cbn; by rewrite ?error_stop_error.
Qed.

Lemma fmap_imap' {A C D} (f : C -> D) (g : nat -> A -> C) l : f <$> imap g l = imap (fun i x => f (g i x)) l.
Proof. revert g. induction l as [|x l IH]; intros g; [done|]. cbn. by rewrite IH. Qed.

Lemma filter_mjoin {A} (f : A -> bool) ls : List.filter f (mjoin ls) = mjoin (List.filter f <$> ls).
Proof. induction ls as [|l ls IH]; [done|]. change (mjoin (l :: ls)) with (l ++ mjoin ls). by rewrite filter_app', IH. Qed.

(** The error stop of the one line that is [Some i], among lines from [k]. *)
Lemma one_error {C} (x : C) (exc : option nat) (lcs : list LineContext) k :
  mjoin (imap (fun i (_ : LineContext) => if decide (exc = Some (k + i)%nat) then [x] else []) lcs) =
    match exc with Some i => if decide (k <= i < k + length lcs)%nat then [x] else [] | None => [] end.
Proof.
  revert k. induction lcs as [|lc lcs IH]; intros k.
  - cbn. destruct exc as [i|]; [|done]. destruct (decide _); [lia|done].
  - cbn [imap]. change (mjoin (?a :: ?l)) with (a ++ mjoin l). rewrite (imap_ext _ (fun i (_ : LineContext) => if decide (exc = Some (S k + i)%nat) then [x] else [])).
    2: { intros i y _. cbn. by replace (k + S i)%nat with (S (k + i)) by lia. }
    rewrite IH, Nat.add_0_r. destruct exc as [i|]; [|by destruct (decide _)]. cbn [length].
    destruct (decide (i = k)) as [->|Hne].
    + rewrite decide_True by done. rewrite decide_False by lia. by rewrite decide_True by lia.
    + rewrite decide_False by congruence. cbn [Datatypes.app].
      destruct (decide (S k <= i < S k + length lcs)%nat); [by rewrite decide_True by lia|by rewrite decide_False by lia].
Qed.

Lemma exception_line_lt ctx e i : exception_line ctx e = Some i -> (i < length (line_contexts ctx))%nat.
Proof.
  unfold exception_line. destruct (Z.ltb_spec (line_number e) 0); [done|]. destruct (Z.leb_spec (Z.of_nat (length (line_contexts ctx))) (line_number e)); [done|].
  intros [= <-]. lia.
Qed.

(** A snapshot stops where it recorded something.  Its snappoint stops are,
    in recorded order, one for each statement with variables; each call that
    ended in an error has one error stop, at the statement where it was raised
    when the context has that statement, with the variables recorded there, and
    no other call has one.  A stop belongs to its context and shows the call
    stack with the innermost frame first, and the variables it shows as locals
    and globals are those recorded. *)
Lemma stops_exact ctx :
  List.filter is_snappoint (context_stops ctx) = mjoin (imap (fun i lc => option_list (snappoint_of ctx i lc)) (line_contexts ctx)) /\
  List.filter (fun s => negb (is_snappoint s)) (context_stops ctx) = match exception ctx with Some _ => [error_stop ctx] | None => [] end /\
  (forall e, exception ctx = Some e ->
     error (error_stop ctx) = Some (message e) /\
     forall i lc, exception_line ctx e = Some i -> line_contexts ctx !! i = Some lc ->
       line_context_index (error_stop ctx) = i /\ stop_line (error_stop ctx) = first_line (statement_span lc) /\
       (locals (error_stop ctx), globals (error_stop ctx)) = split_scopes (variables lc)) /\
  (forall i span vars err, let s := build_stop ctx i span vars err in
     context_index s = index ctx /\ length (stop_frames s) = Nat.max 1 (length (frames ctx)) /\ stop_line s = first_line span /\
     match vars with
     | g :: rest => if eq_ignore_ascii_case (name g) (lit "<Globals>") then locals s = rest /\ globals s = children g
                    else locals s = vars /\ globals s = []
     | [] => locals s = [] /\ globals s = []
     end).
Proof.
  assert (forall i span vars err, let s := build_stop ctx i span vars err in
    (locals s, globals s) = split_scopes vars /\ error s = err /\ line_context_index s = i /\ context_index s = index ctx /\
    stop_line s = first_line span /\ length (stop_frames s) = Nat.max 1 (length (frames ctx))) as Hb.
  { intros i span vars err. unfold build_stop. destruct (split_scopes vars). cbn. rewrite length_fmap, length_drop. split_and!; try done. lia. }
  unfold context_stops. set (exc := exception ctx ≫= exception_line ctx). split_and!.
  - rewrite filter_app', filter_mjoin. replace (List.filter is_snappoint match exception ctx, exc with Some _, None => [error_stop ctx] | _, _ => [] end) with (@nil Stop)
      by (destruct (exception ctx), exc; cbn; by rewrite ?error_stop_error).
    rewrite app_nil_r. f_equal. rewrite fmap_imap'. apply imap_ext. intros i lc _. apply line_stops_split.
  - rewrite filter_app', filter_mjoin, fmap_imap'.
    rewrite (imap_ext _ (fun i (_ : LineContext) => if decide (exc = Some (0 + i)%nat) then [error_stop ctx] else []))
      by (intros i lc _; apply line_stops_split). rewrite one_error. unfold exc. destruct (exception ctx) as [e|]; cbn [mbind option_bind]; [|done].
    destruct (exception_line ctx e) as [i|] eqn:Ei.
    + apply exception_line_lt in Ei. destruct (decide _); [|lia]. done.
    + cbn. by rewrite error_stop_error.
  - intros e He. unfold error_stop. rewrite He. change (default _ (Some e)) with e. split.
    + destruct (exception_line ctx e) as [i|]; cbn [mbind option_bind]; [destruct (line_contexts ctx !! i)|]; apply Hb.
    + intros i lc Hi Hl. rewrite Hi. cbn [mbind option_bind]. rewrite Hl. cbn [mbind option_bind].
      destruct (Hb i (statement_span lc) (variables lc) (Some (message e))) as (H1 & _ & H2 & _ & H3 & _). split_and!; done.
  - intros i span vars err. destruct (Hb i span vars err) as (H1 & _ & _ & H2 & H3 & H4). split_and!; [exact H2|exact H4|exact H3|].
    unfold build_stop, split_scopes. destruct vars as [|g rest]; [done|]. by destruct (eq_ignore_ascii_case _ _).
Qed.

Definition an_entry (name : str) (data : list Z) : Res str ZipEntry :=
  Ok {| is_dir := false; entry_name := Ok name; declared := blen data; inflated := data; damage := None |}.

(** The tests' order: 10 before 9 in the zip, after it in the archive. *)
Definition a_zip : list (Res str ZipEntry) :=
  [an_entry (lit "version") real_version_bytes; an_entry (lit "10.mdc") (encode_context a_context);
   an_entry (lit "9.mdc") (encode_context a_context); an_entry (lit "Page%42.al") (utf8_encode (lit "line one"));
   an_entry (lit "notes.txt") [0]; an_entry (lit "2.mdc") []].

Lemma archive_exact_witness :
  (exists a, from_reader (Ok a_zip) = Ok a /\ source a Page 42 = Some (lit "line one") /\ StronglySorted Z.le (index <$> contexts a)) /\
  (from_name (lit "codeunit") = Some CodeUnit /\ classify (lit "Page%42.al") = Some (Source Page 42) /\
  classify (lit "10.mdc") = Some (Mdc 10) /\ classify (lit "a/b/version") = Some EntryVersion).
Proof.
  split.
  { pose proof (proj1 archive_exact) as H_archive_holds_its_entries. assert (exists a, from_reader (Ok a_zip) = Ok a) as [a E].
  { assert (is_ok (from_reader (Ok a_zip)) = true) as H by (vm_compute; reflexivity). revert H.
    generalize (from_reader (Ok a_zip)). intros [a|e] H; [by exists a|discriminate H]. }
  exists a. split; [exact E|].
  destruct (H_archive_holds_its_entries (Ok a_zip) default_limits a ltac:(done) E) as (es & [= <-] & _ & _ & _ & _ & _ & _ & Hs & Hsrc).
  split; [|exact Hs]. rewrite Hsrc. vm_compute. reflexivity. }
  { pose proof (proj2 archive_exact) as H_archive_names_roundtrip. destruct H_archive_names_roundtrip as (_ & _ & H3 & H4 & H5 & H6). split_and!.
  - apply H3. split; [exact I|reflexivity].
  - apply (H4 {| stop_method := []; object := {| object_type := Page; number := 42 |}; stop_object := []; frame_line := 1 |}); [exact I|reflexivity].
  - apply (H5 10); [split; [lia|discriminate]|vm_compute; lia].
  - change (lit "a/b/version") with (lit "a/b" ++ ch "/" :: lit "version"). rewrite H6; [reflexivity|]. by rewrite <- contains_char_spec. }
Defined.
