(* ===== verification/StopText.v ===== *)
(** The text of a snapshot's stops: the renderer of
    [al-bc/src/snapshot/archive.rs], and what it shows. *)

From Stdlib Require Import ZArith Lia.
From stdpp Require Import base tactics numbers option list strings.
From S2P Require Import Prelude RustStr StrSearch Passes Snapshots ArchiveSpec.

#[local] Open Scope Z_scope.

Section text.
Context {U : Unicode}.

Record RenderOptions := { vars : option (list str); fields : list str; only_stop : option Z }.

Definition short (s : str) (n : nat) : str := if (length s <=? n)%nat then s else take (n - 3) s ++ lit "...".

Definition qname (n : str) : str :=
  if existsb (fun c => negb (is_ascii_alphanumeric c || (c =? ch "_"))) n then 34 :: n ++ [34] else n.

Definition object_label (f : Frame) : str :=
  trim_end_matches is_whitespace
    (display_name (object_type (object f)) ++ lit " " ++ i64_to_str (number (object f)) ++ lit " " ++ qname (stop_object f)).

(** The last variable of a name. *)
Definition find_last (children : list Var) (n : str) : option Var := List.find (fun c => str_eqb (name c) n) (reverse children).

Definition key_names (cs : list Var) : list str :=
  match (k ← find_last cs (lit "Keys"); head (children k)) with
  | Some k => (fun s => str_lower (trim s)) <$> split_char (ch ",") (name k)
  | None => []
  end.

Definition record_fields (cs : list Var) : list Var := default [] (children <$> find_last cs (lit "Fields")).

(** The fields of a name, by their indexes. *)
Definition fields_named (fs : list Var) (k : str) : list nat :=
  List.filter (fun i => match fs !! i with Some c => str_eqb (str_lower (name c)) k | None => false end) (seq 0 (length fs)).

Definition pick_wanted (fs : list Var) (want : list str) (picked : list nat) (i : nat) : list nat :=
  match fs !! i with
  | Some c => if bool_decide (str_lower (name c) ∈ want) && negb (bool_decide (i ∈ picked)) then picked ++ [i] else picked
  | None => picked
  end.

Definition picked_fields (cs : list Var) (want : list str) : list nat :=
  let fs := record_fields cs in
  foldl (pick_wanted fs want) (key_names cs ≫= fields_named fs) (seq 0 (length fs)).

Definition field_part (n : nat) (c : Var) : str := name c ++ lit " = " ++ short (value c) n.

Definition record_parts (cs : list Var) (want : list str) : list str :=
  let fs := record_fields cs in
  omap (fun i => field_part 60 <$> fs !! i) (picked_fields cs want) ++
  match find_last cs (lit "Filters") with
  | Some f => match value f with [] => [] | v => [lit "filters: " ++ short v 120] end
  | None => []
  end.

Definition has_child (cs : list Var) (n : str) : bool := existsb (fun c => str_eqb (name c) n) cs.

Definition fmt_var (v : Var) (want : list str) : str :=
  let cs := children v in
  match cs with
  | [] => qname (name v) ++ lit " = " ++ short (value v) 160
  | _ =>
      if has_child cs (lit "Fields") && has_child cs (lit "Keys") then
        qname (name v) ++ lit " (" ++ type_name v ++ lit "): " ++ join (lit ", ") (record_parts cs want)
      else
        let parts := field_part 60 <$> List.filter (fun c => negb (starts_with (lit "<") (name c))) (take 5 cs) in
        let s := qname (name v) ++ lit " (" ++ type_name v ++ lit ") = " ++ short (value v) 60 in
        match parts with [] => s | _ => s ++ lit ": " ++ join (lit ", ") parts end
  end.

Definition line_end : str := [10].

Definition shown_vars (want : option (list str)) (vs : list Var) : list Var :=
  List.filter (fun v => match want with Some w => bool_decide (str_lower (name v) ∈ w) | None => true end) vs.

Definition render_scope (want : option (list str)) (want_fields : list str) (title : str) (vs : list Var) (err : option str) : str :=
  let shown := shown_vars want vs in
  match shown, err with
  | [], None => []
  | _, _ =>
      title ++ lit ":" ++ line_end ++
      match err with Some e => lit "  ERROR: " ++ e ++ line_end | None => [] end ++
      (shown ≫= fun v => lit "  " ++ fmt_var v want_fields ++ line_end)
  end.

Definition lowered (l : list str) : list str := (fun s => str_lower (trim s)) <$> l.

Definition header (stop : Stop) (n : Z) : str :=
  let label := match kind stop with Error => lit "Error capture" | Snappoint => lit "Stop" end in
  match head (stop_frames stop) with
  | Some top => lit "== " ++ label ++ lit " " ++ u64_to_str n ++ lit ": " ++ object_label top ++ lit " line " ++ u64_to_str (frame_line top) ++
                lit " (" ++ stop_method top ++ lit ")" ++ line_end
  | None => lit "== " ++ label ++ lit " " ++ u64_to_str n ++ line_end
  end.

Definition frame_text (f : Frame) : str :=
  lit "  " ++ object_label f ++ lit " " ++ stop_method f ++ lit " line " ++ u64_to_str (frame_line f) ++ line_end.

Definition render_stop (stop : Stop) (n : Z) (opts : RenderOptions) : str :=
  let want_vars := lowered <$> vars opts in
  let want_fields := lowered (fields opts) in
  header stop n ++ lit "Call stack:" ++ line_end ++ (stop_frames stop ≫= frame_text) ++
  render_scope want_vars want_fields (lit "Locals") (locals stop) (error stop) ++
  render_scope want_vars want_fields (lit "Globals") (globals stop) None ++ line_end.

Definition render_numbered (opts : RenderOptions) (i : nat) (stop : Stop) : str :=
  let n := Z.of_nat i + 1 in
  if match only_stop opts with Some o => o =? n | None => true end then render_stop stop n opts else [].

Definition render_stops (stops : list Stop) (opts : RenderOptions) : str :=
  match stops with
  | [] => lit "no snappoint hits: the snapshot holds no captured variables" ++ line_end
  | _ =>
      match mjoin (imap (render_numbered opts) stops) with
      | [] => lit "no stop " ++ u64_to_str (default 0 (only_stop opts)) ++ lit " in this snapshot (" ++ u64_to_str (Z.of_nat (length stops)) ++
              lit " stops)" ++ line_end
      | out => out
      end
  end.

(** * What is shown *)

Lemma short_fits s n : (3 <= n)%nat ->
  (length (short s n) <= n)%nat /\ if decide (length s <= n)%nat then short s n = s else exists r, s = take (n - 3) s ++ r /\ short s n = take (n - 3) s ++ lit "...".
Proof.
  intros Hn. unfold short. destruct (Nat.leb_spec (length s) n), (decide (length s <= n)%nat); try lia; [done|]. split.
  - rewrite length_app, length_take. change (length (lit "...")) with 3%nat. lia.
  - exists (drop (n - 3) s). by rewrite take_drop.
Qed.

Lemma render_stop_nonempty stop n opts : render_stop stop n opts <> [].
Proof. unfold render_stop. by destruct (header stop n). Qed.

Lemma fields_named_elem fs k i : i ∈ fields_named fs k <-> exists c, fs !! i = Some c /\ str_lower (name c) = k.
Proof.
  unfold fields_named. rewrite list_elem_of_In, List.filter_In, in_seq. unfold str_eqb. split.
  - intros [_ H]. destruct (fs !! i) as [c|]; [|done]. exists c. split; [done|by apply bool_decide_eq_true in H].
  - intros (c & Hc & <-). rewrite Hc. split; [apply lookup_lt_Some in Hc; lia|by apply bool_decide_eq_true_2].
Qed.

Lemma picks fs want l picked : exists rest, foldl (pick_wanted fs want) picked l = picked ++ rest /\ (NoDup l -> NoDup rest) /\ (forall i, i ∈ rest -> ~ i ∈ picked) /\
  rest `sublist_of` l /\
  forall i, i ∈ rest <-> i ∈ l /\ ~ i ∈ picked /\ exists c, fs !! i = Some c /\ str_lower (name c) ∈ want.
Proof.
  revert picked. induction l as [|j l IH]; intros picked; cbn [foldl].
  { exists []. rewrite app_nil_r. split_and!; [done|constructor|by intros i ?%elem_of_nil|done|]. intros i. rewrite elem_of_nil. tauto. }
  unfold pick_wanted at 2. destruct (fs !! j) as [c|] eqn:Ej; [destruct (bool_decide (str_lower (name c) ∈ want) && negb (bool_decide (j ∈ picked))) eqn:E|].
  - apply andb_true_iff in E as [E1%bool_decide_eq_true E2%negb_true_iff%bool_decide_eq_false].
    destruct (IH (picked ++ [j])) as (rest & -> & H1 & H2 & H3 & H4). exists (j :: rest). rewrite <- app_assoc. split_and!; [done| | |by constructor|].
    + intros [Hj Hl]%NoDup_cons. constructor; [|by apply H1]. intros Hin%H2. apply Hin, elem_of_app. right. by left.
    + intros i [->|Hi]%elem_of_cons; [done|]. apply H2 in Hi. rewrite elem_of_app in Hi. tauto.
    + intros i. rewrite !elem_of_cons, H4, elem_of_app, list_elem_of_singleton. split.
      * intros [->|(Hi & Hn & Hc)]; [split_and!; [by left|done|by exists c]|split_and!; tauto].
      * intros ([->|Hi] & Hn & Hc); [by left|]. destruct (decide (i = j)) as [->|]; [by left|]. right. split_and!; tauto.
  - destruct (IH picked) as (rest & -> & H1 & H2 & H3 & H4). exists rest. split_and!; [done|by intros [_ ?]%NoDup_cons; apply H1|done|by constructor|].
    intros i. rewrite H4, elem_of_cons. split; [tauto|]. intros ([->|Hi] & Hn & c' & Hc & Hw); [|by split_and!; [..|exists c']].
    rewrite Ej in Hc. injection Hc as <-. rewrite bool_decide_eq_true_2, bool_decide_eq_false_2 in E by done. done.
  - destruct (IH picked) as (rest & -> & H1 & H2 & H3 & H4). exists rest. split_and!; [done|by intros [_ ?]%NoDup_cons; apply H1|done|by constructor|].
    intros i. rewrite H4, elem_of_cons. split; [tauto|]. intros ([->|Hi] & Hn & c' & Hc & Hw); [congruence|by split_and!; [..|exists c']].
Qed.

(** The text of a snapshot shows what was asked for.  Of a record it shows
    the fields of its key, in the order of the key, and after them, in the order
    of the fields and none twice, the other fields asked for, whatever the case
    of the names.  A value is shown whole when it fits, and otherwise cut so
    that it fits with its three dots.  Of the stops it shows all, numbered from
    1, or only the one asked for, or says that there is none. *)
Lemma stop_text_exact :
  (forall cs want, exists rest, picked_fields cs want = (key_names cs ≫= fields_named (record_fields cs)) ++ rest /\
     rest `sublist_of` seq 0 (length (record_fields cs)) /\ NoDup rest /\
     forall i c, record_fields cs !! i = Some c ->
       (i ∈ picked_fields cs want <-> str_lower (name c) ∈ key_names cs \/ str_lower (name c) ∈ want) /\
       (i ∈ rest <-> str_lower (name c) ∈ want /\ ~ str_lower (name c) ∈ key_names cs)) /\
  (forall s n, (3 <= n)%nat -> (length (short s n) <= n)%nat /\
     if decide (length s <= n)%nat then short s n = s else exists r, s = take (n - 3) s ++ r /\ short s n = take (n - 3) s ++ lit "...") /\
  (forall stops opts,
     let none o := lit "no stop " ++ u64_to_str o ++ lit " in this snapshot (" ++ u64_to_str (Z.of_nat (length stops)) ++ lit " stops)" ++ line_end in
     match stops, only_stop opts with
     | [], _ => render_stops stops opts = lit "no snappoint hits: the snapshot holds no captured variables" ++ line_end
     | _, None => render_stops stops opts = mjoin (imap (fun i stop => render_stop stop (Z.of_nat i + 1) opts) stops)
     | _, Some o => render_stops stops opts =
         if decide (1 <= o) then match stops !! Z.to_nat (o - 1) with Some stop => render_stop stop o opts | None => none o end else none o
     end).
Proof.
  split_and!.
  - intros cs want. unfold picked_fields. set (fs := record_fields cs). set (key := key_names cs ≫= fields_named fs).
    destruct (picks fs want (seq 0 (length fs)) key) as (rest & -> & H1 & H2 & H3 & H4). exists rest.
    split; [done|]. split; [done|]. split; [apply H1, NoDup_seq|]. intros i c Hc.
    assert (i ∈ key <-> str_lower (name c) ∈ key_names cs) as Hkey.
    { unfold key. rewrite list_elem_of_bind. setoid_rewrite fields_named_elem. split.
      - intros (k & (c' & Hc' & Hk) & Hin). rewrite Hc in Hc'. injection Hc' as <-. by subst k.
      - intros Hin. exists (str_lower (name c)). split; [by exists c|done]. }
    assert (i ∈ rest <-> str_lower (name c) ∈ want /\ ~ str_lower (name c) ∈ key_names cs) as Hrest.
    { rewrite H4, Hkey. split.
      - intros (_ & Hn & c' & Hc' & Hw). rewrite Hc in Hc'. by injection Hc' as <-.
      - intros [Hw Hn]. split_and!; [|done|by exists c]. apply elem_of_seq. apply lookup_lt_Some in Hc. lia. }
    split; [|done]. rewrite elem_of_app, Hkey, Hrest. destruct (decide (str_lower (name c) ∈ key_names cs)); tauto.
  - intros s n. apply short_fits.
  - intros stops opts none. destruct stops as [|s0 stops0]; [done|]. set (stops := s0 :: stops0). destruct (only_stop opts) as [o|] eqn:Eo.
    + assert (mjoin (imap (render_numbered opts) stops) =
        if decide (1 <= o) then match stops !! Z.to_nat (o - 1) with Some stop => render_stop stop o opts | None => [] end else []) as E.
      { assert (forall (l : list Stop) k, mjoin (imap (fun i => render_numbered opts (k + i)) l) =
          if decide (Z.of_nat k + 1 <= o) then match l !! Z.to_nat (o - Z.of_nat k - 1) with Some stop => render_stop stop o opts | None => [] end else []) as H.
        { induction l as [|s l IH]; intros k; [by destruct (decide _)|]. cbn [imap]. change (mjoin (?a :: ?r)) with (a ++ mjoin r).
          rewrite (imap_ext _ (fun i => render_numbered opts (S k + i))) by (intros i x _; cbn; by rewrite Nat.add_succ_r).
          rewrite IH. unfold render_numbered. rewrite Eo, Nat.add_0_r. destruct (Z.eqb_spec o (Z.of_nat k + 1)) as [->|Hne].
          - destruct (decide (Z.of_nat (S k) + 1 <= Z.of_nat k + 1)); [lia|]. rewrite app_nil_r. destruct (decide _); [|lia].
            by replace (Z.to_nat (Z.of_nat k + 1 - Z.of_nat k - 1)) with 0%nat by lia.
          - cbn [app]. destruct (decide (Z.of_nat (S k) + 1 <= o)), (decide (Z.of_nat k + 1 <= o)); try lia; [|done].
            replace (Z.to_nat (o - Z.of_nat k - 1)) with (S (Z.to_nat (o - Z.of_nat (S k) - 1))) by lia. done. }
        specialize (H stops 0%nat). rewrite Z.sub_0_r in H. exact H. }
      unfold render_stops. fold stops. rewrite E. cbn [stops]. unfold none, stops. rewrite Eo. destruct (decide (1 <= o)); [|done].
      fold stops. destruct (stops !! _) as [stop|]; [|done]. pose proof (render_stop_nonempty stop o opts). by destruct (render_stop stop o opts).
    + unfold render_stops. fold stops. assert (imap (render_numbered opts) stops = imap (fun i stop => render_stop stop (Z.of_nat i + 1) opts) stops) as ->.
      { apply imap_ext. intros i x _. unfold render_numbered. by rewrite Eo. }
      unfold stops. cbn [imap]. change (mjoin (?a :: ?r)) with (a ++ mjoin r). pose proof (render_stop_nonempty s0 (Z.of_nat 0 + 1) opts).
      by destruct (render_stop s0 (Z.of_nat 0 + 1) opts).
Qed.

End text.
