(* ===== verification/ReplaySources.v ===== *)
(** The files a replay shows: Rust's [std::path] on Unix, where a path is read as
    its components; the folder and names of a snapshot's sources
    ([al-dap/src/dap/native_dap/replay/sources.rs]) and the choice of a file for
    each object ([replay/frame_sources.rs]).  Writing the files is not modelled. *)

From Stdlib Require Import ZArith Lia.
From stdpp Require Import base tactics numbers option list strings gmap.
From S2P Require Import Prelude RustStr StrSearch Passes Snapshots.

#[local] Open Scope Z_scope.

Inductive Component := RootDir | CurDir | ParentDir | Normal (s : str).

#[export] Instance Component_eq_dec : EqDecision Component.
Proof. solve_decision. Defined.

Definition is_absolute (p : str) : bool := starts_with [ch "/"] p.

(** One part between separators; an empty part and [.] are nothing. *)
Definition part_component (part : str) : option Component :=
  match part with
  | [] => None
  | _ => if str_is part "." then None else if str_is part ".." then Some ParentDir else Some (Normal part)
  end.

(** A leading [.] is kept. *)
Definition components (p : str) : list Component :=
  let parts := split_char (ch "/") p in
  (if is_absolute p then [RootDir] else match parts with part :: _ => if str_is part "." then [CurDir] else [] | [] => [] end) ++
  omap part_component parts.

Fixpoint is_prefix (a b : list Component) : bool :=
  match a, b with
  | [], _ => true
  | x :: a, y :: b => bool_decide (x = y) && is_prefix a b
  | _ :: _, [] => false
  end.

Definition path_starts_with (p base : str) : bool := is_prefix (components base) (components p).
Definition path_eqb (p q : str) : bool := bool_decide (components p = components q).
Definition path_file_name (p : str) : option str := match last (components p) with Some (Normal s) => Some s | _ => None end.

Definition path_join (a b : str) : str :=
  if is_absolute b then b
  else match last a with
       | Some c => if c =? ch "/" then a ++ b else a ++ ch "/" :: b
       | None => b
       end.

(** The file name up to its last dot, unless that dot is its first character. *)
Definition path_file_stem (p : str) : option str :=
  name ← path_file_name p;
  Some match find_str [ch "."] (reverse name) with
       | Some (_, rest) => match reverse (drop 1 rest) with [] => name | before => before end
       | None => name
       end.

Lemma is_prefix_spec a b : is_prefix a b = true <-> exists c, b = a ++ c.
Proof.
  revert b. induction a as [|x a IH]; intros b; [split; [by exists b|done]|]. destruct b as [|y b]; cbn; [split; [done|by intros [c ?]]|].
  rewrite andb_true_iff, bool_decide_eq_true, IH. split.
  - intros [-> [c ->]]. by exists c.
  - intros [c [= -> ->]]. split; [done|by exists c].
Qed.

(** * The sources of a snapshot *)

(** * [sources.rs] *)

Definition plain_char (c : char) : char :=
  if is_ascii_alphanumeric c || (c =? ch "-") || (c =? ch "_") then c else ch "_".

Definition folder_name (zip : str) : str :=
  let stem := default [] (path_file_stem zip) in
  let clean := take 80 (plain_char <$> stem) in
  match clean with [] => lit "snapshot" | _ => clean end.

Definition file_name (object_type : ObjectType) (number : Z) : str :=
  object_name object_type ++ lit "%" ++ i64_to_str number ++ lit ".al".

(** * [frame_sources.rs] *)

Record FrameSources := { chosen : gmap (ObjectType * Z) str; notices : list str }.

(** [Vec::dedup]. *)
Fixpoint dedup_from {A} `{EqDecision A} (x : A) (l : list A) : list A :=
  match l with
  | y :: l => if decide (x = y) then dedup_from x l else y :: dedup_from y l
  | [] => []
  end.
Definition dedup {A} `{EqDecision A} (l : list A) : list A := match l with x :: l => x :: dedup_from x l | [] => [] end.

Definition context_objects (c : MethodContext) : list (ObjectType * Z) :=
  (object_type (id c), number (id c)) :: ((fun f => (object_type (frame_id f), number (frame_id f))) <$> frames c).

Definition objects (archive : SnapshotArchive) : list (ObjectType * Z) :=
  dedup (sort_by id_cmp (source_ids archive ++ (contexts archive ≫= context_objects))).

(** Without a leading byte order mark, and with plain line feeds. *)
Definition normal_text (s : str) : str := str_replace [13; 10] [10] (trim_start_matches (fun c => c =? 65279) s).
Definition same_text (a b : str) : bool :=
  str_eqb (trim_end_matches is_whitespace (normal_text a)) (trim_end_matches is_whitespace (normal_text b)).

Section choose.
(** The callbacks of the language server: the file of an object in the
    workspace, its file in a dependency package, and the text of a file. *)
Context (archive : SnapshotArchive) (extracted : gmap (ObjectType * Z) str).
Context (workspace package : Z -> Z -> option str) (read : str -> option str).

Definition differs_notice (path : str) (t : ObjectType) (n : Z) : str :=
  lit "The workspace file " ++ path ++ lit " differs from the code that ran for " ++ object_name t ++ lit " " ++ i64_to_str n ++
  lit ", so line numbers can be off." ++ [10].
Definition missing_notice (t : ObjectType) (n : Z) : str :=
  lit "No source is available for " ++ object_name t ++ lit " " ++ i64_to_str n ++ lit "." ++ [10].

Definition choose_one (fs : FrameSources) (key : ObjectType * Z) : FrameSources :=
  let '(t, n) := key in
  let kind := as_i8 t in
  match workspace kind n with
  | Some path =>
      let notices :=
        match source archive t n, read path with
        | Some ran, Some now => if same_text ran now then notices fs else notices fs ++ [differs_notice path t n]
        | _, _ => notices fs
        end in
      {| chosen := <[key := path]> (chosen fs); notices := notices |}
  | None =>
      match extracted !! key with
      | Some path => {| chosen := <[key := path]> (chosen fs); notices := notices fs |}
      | None =>
          match package kind n with
          | Some path => {| chosen := <[key := path]> (chosen fs); notices := notices fs |}
          | None => {| chosen := chosen fs; notices := notices fs ++ [missing_notice t n] |}
          end
      end
  end.

Definition choose : FrameSources := foldl choose_one {| chosen := ∅; notices := [] |} (objects archive).
End choose.
