(* ===== verification/Replay.v ===== *)
(** The walk over recorded statements that a snapshot replay steps through
    ([al-dap/src/dap/native_dap/replay/engine.rs]), and the session around it
    ([replay/mod.rs]).

    A position is a pair of indexes, a [HashMap] a [gmap].  An index out of
    range would panic; [None] is the panic, so that the operations that index
    return an [option]. *)

From Stdlib Require Import ZArith Lia.
From stdpp Require Import base tactics numbers option list gmap strings.
From S2P Require Import Prelude RustStr Snapshots.

#[local] Open Scope Z_scope.

Record Pos := { ctx : nat; at_line : nat }.
Record LineKey := { key_type : Z; key_number : Z; key_line : Z }.

#[export] Instance Pos_eq_dec : EqDecision Pos.
Proof. solve_decision. Defined.
#[export] Instance Pos_countable : Countable Pos.
Proof. refine (inj_countable' (fun p => (ctx p, at_line p)) (fun p => {| ctx := fst p; at_line := snd p |}) _). by intros []. Defined.
#[export] Instance LineKey_eq_dec : EqDecision LineKey.
Proof. solve_decision. Defined.
#[export] Instance LineKey_countable : Countable LineKey.
Proof.
  refine (inj_countable' (fun k => (key_type k, key_number k, key_line k))
    (fun k => {| key_type := fst (fst k); key_number := snd (fst k); key_line := snd k |}) _). by intros [].
Defined.

(** The derived order: by context, then by statement. *)
Definition pos_cmp (p q : Pos) : comparison := cmp_then (ctx p ?= ctx q)%nat (at_line p ?= at_line q)%nat.
Definition pos_le (p q : Pos) : bool := is_le (pos_cmp p q).

Record Landing := { pos : Pos; start_over_ : bool; exception_ : bool }.
Inductive Step := Stopped (l : Landing) | Ended.
Record UserBreakpoint := { key : LineKey; verified : bool }.

Record Engine := {
  lens : list nat;
  keys : list (list LineKey);
  exception_at : list (option nat);
  parent : list (option Pos);
  callees : gmap Pos (list nat);
  occurrences : gmap LineKey (list Pos);
  snappoints : list LineKey;
  listed : list LineKey;
  user : gmap str (list LineKey);
  hits : gmap LineKey nat;
  current : option Pos;
}.

(** * Call nesting *)

(** What identifies a frame. *)
Definition frame_key (f : StackFrame) : str * ObjectType * Z := (method_name f, object_type (frame_id f), number (frame_id f)).
Definition chain (c : MethodContext) : list (str * ObjectType * Z) := frame_key <$> frames c.

Definition same_start (span : SourceSpan) (l : LineContext) : bool :=
  (line (from (statement_span l)) =? line (from span)) && (column (from (statement_span l)) =? column (from span)).
Definition same_line (span : SourceSpan) (l : LineContext) : bool := line (from (statement_span l)) =? line (from span).

(** The indexes of the lines for which [f] holds. *)
Definition line_indexes (f : LineContext -> bool) (lines : list LineContext) : list nat :=
  List.filter (fun i => match lines !! i with Some l => f l | None => false end) (seq 0 (length lines)).

(** [rfind]: the last element for which [f] holds. *)
Definition rfind {A} (f : A -> bool) (l : list A) : option A := List.find f (reverse l).

Definition call_site (contexts : list MethodContext) (caller callee : nat) : option Pos :=
  callee_ctx ← contexts !! callee;
  frame ← frames callee_ctx !! 1%nat;
  let span := frame_span frame in
  caller_ctx ← contexts !! caller;
  let lines := line_contexts caller_ctx in
  let start := start_time (execution_span callee_ctx) in
  let same := line_indexes (same_start span) lines in
  let same := match same with [] => line_indexes (same_line span) lines | _ => same end in
  line ← match rfind (fun i => match lines !! i with Some l => timestamp l <=? start | None => false end) same with
         | Some i => Some i
         | None => head same
         end;
  Some {| ctx := caller; at_line := line |}.

(** The loop's variables: the latest context of each chain, the call sites so
    far, and the contexts called from each. *)
Definition Links : Type := gmap (list (str * ObjectType * Z)) nat * list (option Pos) * gmap Pos (list nat).

Definition call_site_of (contexts : list MethodContext) (latest : gmap (list (str * ObjectType * Z)) nat) (c : nat) (ctx : MethodContext)
  : option Pos :=
  if (1 <? length (chain ctx))%nat then
    caller ← latest !! drop 1 (chain ctx);
    call_site contexts caller c
  else None.

Definition link_call (contexts : list MethodContext) (st : Links) (cc : nat * MethodContext) : Links :=
  let '(c, ctx) := cc in
  let '(latest, parent, callees) := st in
  let site := call_site_of contexts latest c ctx in
  (<[chain ctx := c]> latest,
   match site with Some s => <[c := Some s]> parent | None => parent end,
   match site with Some s => <[s := default [] (callees !! s) ++ [c]]> callees | None => callees end).

Definition link_calls (contexts : list MethodContext) : list (option Pos) * gmap Pos (list nat) :=
  let '(_, parent, callees) :=
    foldl (link_call contexts) (∅, replicate (length contexts) None, ∅) (imap pair contexts) in
  (parent, callees).

(** * The index of the statements *)

Definition exception_index (c : MethodContext) : option nat :=
  match exception c with
  | None => None
  | Some e =>
      match line_contexts c with
      | [] => None
      | lines => Some (default (length lines - 1)%nat (exception_line c e))
      end
  end.

Definition line_key (c : MethodContext) (l : LineContext) : LineKey :=
  {| key_type := as_i8 (object_type (id c)); key_number := number (id c); key_line := line (from (statement_span l)) |}.

Definition add_new (k : LineKey) (ks : list LineKey) : list LineKey := if decide (k ∈ ks) then ks else ks ++ [k].

(** The loops of [new]: occurrences, snappoints and listed lines. *)
Definition Index : Type := gmap LineKey (list Pos) * list LineKey * list LineKey.

Definition index_line (c : nat) (ctx : MethodContext) (exc : option nat) (st : Index) (ll : nat * LineContext) : Index :=
  let '(l, lc) := ll in
  let '(occurrences, snappoints, listed) := st in
  let key := line_key ctx lc in
  let has_variables := negb (bool_decide (variables lc = [])) in
  let is_exc := bool_decide (exc = Some l) in
  (<[key := default [] (occurrences !! key) ++ [{| ctx := c; at_line := l |}]]> occurrences,
   if has_variables || is_exc then add_new key snappoints else snappoints,
   if has_variables && negb is_exc then add_new key listed else listed).

Definition index_context (st : Index) (cc : nat * MethodContext) : Index :=
  let '(c, ctx) := cc in foldl (index_line c ctx (exception_index ctx)) st (imap pair (line_contexts ctx)).

Definition new (contexts : list MethodContext) : Engine :=
  let '(occurrences, snappoints, listed) := foldl index_context (∅, [], []) (imap pair contexts) in
  let '(parent, callees) := link_calls contexts in
  {| lens := (fun c => length (line_contexts c)) <$> contexts;
     keys := (fun c => line_key c <$> line_contexts c) <$> contexts;
     exception_at := exception_index <$> contexts;
     parent := parent; callees := callees; occurrences := occurrences; snappoints := snappoints; listed := listed;
     user := ∅; hits := ∅; current := None |}.

Definition key_at (e : Engine) (p : Pos) : option LineKey := row ← keys e !! ctx p; row !! at_line p.

Definition set_hits h e := {| lens := lens e; keys := keys e; exception_at := exception_at e; parent := parent e; callees := callees e;
  occurrences := occurrences e; snappoints := snappoints e; listed := listed e; user := user e; hits := h; current := current e |}.
Definition set_user u e := {| lens := lens e; keys := keys e; exception_at := exception_at e; parent := parent e; callees := callees e;
  occurrences := occurrences e; snappoints := snappoints e; listed := listed e; user := u; hits := hits e; current := current e |}.
Definition set_current p e := {| lens := lens e; keys := keys e; exception_at := exception_at e; parent := parent e; callees := callees e;
  occurrences := occurrences e; snappoints := snappoints e; listed := listed e; user := user e; hits := hits e; current := p |}.

(** * Breakpoints *)

(** [partition_point] of a sorted list: how many positions are at or before. *)
Fixpoint partition_point (f : Pos -> bool) (l : list Pos) : nat :=
  match l with p :: l => if f p then S (partition_point f l) else O | [] => O end.

Definition passed (e : Engine) (k : LineKey) (p : option Pos) : nat :=
  match p with
  | None => O
  | Some p => match occurrences e !! k with Some o => partition_point (fun q => pos_le q p) o | None => O end
  end.

(** [entry(key).or_insert(n)]. *)
Definition or_insert (k : LineKey) (n : nat) (h : gmap LineKey nat) : gmap LineKey nat :=
  match h !! k with Some _ => h | None => <[k := n]> h end.

(** A line is an [i64], so [l - 1] is in range but for the smallest one. *)
Definition user_key (object_type number l : Z) : option LineKey :=
  if (0 <=? l - 1) && (l - 1 <? 65536) then Some {| key_type := object_type; key_number := number; key_line := l - 1 |} else None.

Definition user_line (object_type number : Z) (st : Engine * list LineKey * list UserBreakpoint) (l : Z) :=
  let '(e, keys, out) := st in
  match user_key object_type number l with
  | None => (e, keys, out ++ [{| key := {| key_type := object_type; key_number := number; key_line := 0 |}; verified := false |}])
  | Some k =>
      let verified := bool_decide (is_Some (occurrences e !! k)) in
      if verified then
        (set_hits (or_insert k (passed e k (current e)) (hits e)) e, keys ++ [k], out ++ [{| key := k; verified := true |}])
      else (e, keys, out ++ [{| key := k; verified := false |}])
  end.

Definition set_user_breakpoints (source : str) (object_type number : Z) (lines : list Z) (e : Engine) : Engine * list UserBreakpoint :=
  let '(e, keys, out) := foldl (user_line object_type number) (e, [], []) lines in
  (set_user (<[source := keys]> (user e)) e, out).

(** The order of the user's lines is that of a [HashMap]; nothing depends on
    it. *)
Definition active_keys (e : Engine) : list LineKey :=
  foldl (fun ks k => add_new k ks) (snappoints e) (mjoin (snd <$> map_to_list (user e))).

(** * Moves *)

Definition end_ (e : Engine) : Engine * Step := (set_current None e, Ended).

Definition raise_hit (e : Engine) (p : Pos) (h : gmap LineKey nat) (k : LineKey) : gmap LineKey nat :=
  <[k := Nat.max (default O (h !! k)) (passed e k (Some p))]> h.

Definition land (p : Pos) (start_over : bool) (e : Engine) : option (Engine * Step) :=
  let h := foldl (raise_hit e p) (hits e) (active_keys e) in
  exc ← exception_at e !! ctx p;
  Some (set_current (Some p) (set_hits h e),
        Stopped {| pos := p; start_over_ := start_over; exception_ := bool_decide (exc = Some (at_line p)) |}).

Definition start_over (e : Engine) : option (Engine * Step) :=
  match lens e with
  | [] => Some (end_ e)
  | n :: _ => if (n =? 0)%nat then Some (end_ e) else land {| ctx := 0; at_line := 0 |} true e
  end.

(** The next unused occurrence of a line. *)
Definition unused (e : Engine) (k : LineKey) : option Pos := o ← occurrences e !! k; o !! default O (hits e !! k).

Definition min_pos (l : list Pos) : option Pos :=
  foldl (fun m p => match m with None => Some p | Some q => if is_lt (pos_cmp p q) then Some p else Some q end) None l.

Definition cont (e : Engine) : option (Engine * Step) :=
  match min_pos (omap (unused e) (active_keys e)) with
  | Some p => land p false e
  | None => Some (end_ e)
  end.

Definition start (e : Engine) : option (Engine * Step) :=
  match active_keys e with [] => start_over e | _ => cont e end.

(** [step_out_of] and [next_after].  The fuel bounds the calls that are left
    one after the other. *)
Fixpoint step_out_of (fuel : nat) (c : nat) (e : Engine) : option (Engine * Step) :=
  match fuel with
  | O => None
  | S fuel =>
      site ← parent e !! c;
      match site with
      | Some site =>
          len ← lens e !! ctx site;
          if (S (at_line site) <? len)%nat then land {| ctx := ctx site; at_line := S (at_line site) |} false e
          else step_out_of fuel (ctx site) e
      | None => if (c =? 0)%nat then Some (end_ e) else start_over e
      end
  end.

Definition leave (c : nat) (e : Engine) : option (Engine * Step) := step_out_of (S (length (lens e))) c e.

Definition next (e : Engine) : option (Engine * Step) :=
  match current e with
  | None => start e
  | Some cur =>
      len ← lens e !! ctx cur;
      if (S (at_line cur) <? len)%nat then land {| ctx := ctx cur; at_line := S (at_line cur) |} false e
      else leave (ctx cur) e
  end.

Definition step_in (e : Engine) : option (Engine * Step) :=
  match current e with
  | None => start e
  | Some cur =>
      let stay := if (length (lens e) <=? S (ctx cur))%nat then Some (end_ e) else land cur false e in
      match (c ← callees e !! cur; head c) with
      | Some callee => len ← lens e !! callee; if (0 <? len)%nat then land {| ctx := callee; at_line := 0 |} false e else stay
      | None => stay
      end
  end.

Definition step_out (e : Engine) : option (Engine * Step) :=
  match current e with None => start e | Some cur => leave (ctx cur) e end.

(** The loop of [stack], which stops when it has gone on for longer than there
    are contexts. *)
Fixpoint stack_loop (fuel : nat) (e : Engine) (c : nat) (out : list Pos) : option (list Pos) :=
  match fuel with
  | O => None
  | S fuel =>
      site ← parent e !! c;
      match site with
      | Some site =>
          let out := out ++ [site] in
          if (length (lens e) <? length out)%nat then Some out else stack_loop fuel e (ctx site) out
      | None => Some out
      end
  end.

Definition stack (e : Engine) (p : Pos) : option (list Pos) := reverse <$> stack_loop (S (S (length (lens e)))) e (ctx p) [p].

(** * The session *)

Definition FIRST_BREAKPOINT_ID : Z := 268439396.
Definition VARIABLE_BASE : Z := Z.shiftl 1 18.

Record ReplaySession := {
  archive : SnapshotArchive;
  engine : Engine;
  files : gmap (ObjectType * Z) str;
  sources_dir : str;
  stop : option Landing;
  ended : bool;
  handles : gmap Z (list Var);
  next_handle : Z;
  ids : gmap LineKey Z;
  next_id : Z;
}.

Definition set_engine e s := {| archive := archive s; engine := e; files := files s; sources_dir := sources_dir s; stop := stop s; ended := ended s;
  handles := handles s; next_handle := next_handle s; ids := ids s; next_id := next_id s |}.
Definition set_handles h n s := {| archive := archive s; engine := engine s; files := files s; sources_dir := sources_dir s; stop := stop s; ended := ended s;
  handles := h; next_handle := n; ids := ids s; next_id := next_id s |}.
Definition set_ids i n s := {| archive := archive s; engine := engine s; files := files s; sources_dir := sources_dir s; stop := stop s; ended := ended s;
  handles := handles s; next_handle := next_handle s; ids := i; next_id := n |}.
Definition set_stop l e s := {| archive := archive s; engine := engine s; files := files s; sources_dir := sources_dir s; stop := l; ended := e;
  handles := handles s; next_handle := next_handle s; ids := ids s; next_id := next_id s |}.

Definition id_of (k : LineKey) (s : ReplaySession) : ReplaySession * Z :=
  match ids s !! k with
  | Some i => (s, i)
  | None => (set_ids (<[k := next_id s]> (ids s)) (next_id s + 1) s, next_id s)
  end.

Definition new_session (a : SnapshotArchive) (files : gmap (ObjectType * Z) str) (sources_dir : str) : ReplaySession :=
  let e := new (contexts a) in
  foldl (fun s k => fst (id_of k s))
    {| archive := a; engine := e; files := files; sources_dir := sources_dir; stop := None; ended := false;
       handles := ∅; next_handle := VARIABLE_BASE; ids := ∅; next_id := FIRST_BREAKPOINT_ID |} (snappoints e).

Inductive Command := ConfigurationDone | Continue | Next | StepIn | StepOut.

Definition engine_move (c : Command) : Engine -> option (Engine * Step) :=
  match c with ConfigurationDone => start | Continue => cont | Next => next | StepIn => step_in | StepOut => step_out end.

Definition run (c : Command) (s : ReplaySession) : option (option (Engine * Step)) :=
  if ended s then Some None else Some <$> engine_move c (engine s).

(** The state a finished move leaves. *)
Definition arrive (e : Engine) (step : Step) (s : ReplaySession) : ReplaySession :=
  let s := set_handles ∅ VARIABLE_BASE (set_engine e s) in
  match step with
  | Stopped l => set_stop (Some l) (ended s) s
  | Ended => set_stop None true s
  end.

(** [configurationDone] and the moves, as [handle] serves them. *)
Definition move (c : Command) (s : ReplaySession) : option ReplaySession :=
  r ← run c s; match r with Some (e, step) => Some (arrive e step s) | None => Some s end.

Definition breakpoint_id (st : ReplaySession * list (bool * Z)) (r : option UserBreakpoint) : ReplaySession * list (bool * Z) :=
  let '(s, out) := st in
  match r with
  | Some r => if verified r then let '(s, i) := id_of (key r) s in (s, out ++ [(true, i)]) else (s, out ++ [(false, 0)])
  | None => (s, out ++ [(false, 0)])
  end.

(** [object] is what [object_of_path] finds for the file; the response lists,
    for each line, whether it is verified and its id. *)
Definition set_breakpoints (object : option (Z * Z)) (path : str) (lines : list Z) (s : ReplaySession) : ReplaySession * list (bool * Z) :=
  let '(e, results) :=
    match (match lines with [] => None | _ => object end) with
    | Some (t, n) => set_user_breakpoints path t n lines (engine s)
    | None => (fst (set_user_breakpoints path 0 0 [] (engine s)), [])
    end in
  foldl breakpoint_id (set_engine e s, []) (imap (fun i _ => results !! i) lines).
