(* ===== verification/ReplayFacts.v ===== *)
(** Facts about the replay engine: its index of statements, and the links from
    calls to their call sites. *)

From Stdlib Require Import ZArith Lia Sorting.Sorted.
From stdpp Require Import base tactics numbers option list gmap sorting strings.
From S2P Require Import Prelude RustStr Snapshots Replay.

#[local] Open Scope nat_scope.

(** * Positions in order *)

Definition pos_lt (p q : Pos) : Prop := ctx p < ctx q \/ ctx p = ctx q /\ at_line p < at_line q.

Lemma pos_cmp_spec p q :
  match pos_cmp p q with Lt => pos_lt p q | Eq => p = q | Gt => pos_lt q p end.
Proof.
  unfold pos_cmp, pos_lt. destruct p as [c l], q as [d m]. cbn. destruct (Nat.compare_spec c d); cbn; [|lia|lia].
  destruct (Nat.compare_spec l m); [by subst|lia|lia].
Qed.

Lemma pos_lt_cmp p q : pos_cmp p q = Lt <-> pos_lt p q.
Proof. pose proof (pos_cmp_spec p q) as H. unfold pos_lt in *. destruct (pos_cmp p q); split; try done; [intros; subst; lia|lia]. Qed.

Lemma pos_le_lt p q : pos_le p q = true <-> p = q \/ pos_lt p q.
Proof. unfold pos_le. pose proof (pos_cmp_spec p q) as H. unfold pos_lt in *. destruct (pos_cmp p q); cbn; split; try done; [by left|by right|]. intros [->|]; lia. Qed.

Lemma pos_lt_trans p q r : pos_lt p q -> pos_lt q r -> pos_lt p r.
Proof. unfold pos_lt. lia. Qed.

Lemma pos_lt_irrefl p : ~ pos_lt p p.
Proof. unfold pos_lt. lia. Qed.

(** * Statements *)

Definition stmt : Type := Pos * MethodContext * LineContext.
Definition spos (s : stmt) : Pos := fst (fst s).
Definition skey (s : stmt) : LineKey := line_key (snd (fst s)) (snd s).

Definition stmts_from (k : nat) (contexts : list MethodContext) : list stmt :=
  mjoin (imap (fun c ctx => imap (fun l lc => ({| ctx := k + c; at_line := l |}, ctx, lc)) (line_contexts ctx)) contexts).
Definition stmts : list MethodContext -> list stmt := stmts_from 0.

Lemma stmts_from_cons k c contexts :
  stmts_from k (c :: contexts) = imap (fun l lc => ({| ctx := k; at_line := l |}, c, lc)) (line_contexts c) ++ stmts_from (S k) contexts.
Proof.
  unfold stmts_from. cbn [imap]. change (mjoin (?a :: ?l)) with (a ++ mjoin l). rewrite Nat.add_0_r. do 2 f_equal.
  apply imap_ext. intros i x _. cbn. by rewrite Nat.add_succ_r.
Qed.

Lemma elem_of_imap {A C} (f : nat -> A -> C) l y : y ∈ imap f l <-> exists i x, l !! i = Some x /\ y = f i x.
Proof.
  rewrite list_elem_of_lookup. split.
  - intros [i Hi]. rewrite list_lookup_imap in Hi. destruct (l !! i) as [x|] eqn:E; [|done]. injection Hi as <-. by exists i, x.
  - intros (i & x & Hi & ->). exists i. by rewrite list_lookup_imap, Hi.
Qed.

Lemma elem_of_stmts_from k contexts p c lc :
  (p, c, lc) ∈ stmts_from k contexts <-> exists i, ctx p = k + i /\ contexts !! i = Some c /\ line_contexts c !! at_line p = Some lc.
Proof.
  revert k. induction contexts as [|d contexts IH]; intros k.
  - split; [by intros ?%elem_of_nil|by intros (i & _ & H & _)].
  - rewrite stmts_from_cons, elem_of_app, IH, elem_of_imap. split.
    + intros [(i & x & Hi & [= -> -> ->])|(i & H1 & H2 & H3)]; [exists 0|exists (S i)]; cbn; split_and!; (done || lia).
    + intros ([|i] & H1 & H2 & H3); cbn in *.
      * injection H2 as ->. left. exists (at_line p), lc. split; [done|]. destruct p. cbn in *. by rewrite H1, Nat.add_0_r.
      * right. exists i. split_and!; (done || lia).
Qed.

Lemma elem_of_stmts contexts p c lc : (p, c, lc) ∈ stmts contexts <-> contexts !! ctx p = Some c /\ line_contexts c !! at_line p = Some lc.
Proof. unfold stmts. rewrite elem_of_stmts_from. split; [intros (i & -> & H); by rewrite Nat.add_0_l|]. intros H. by exists (ctx p). Qed.

Lemma sorted_imap_lines k c (lcs : list LineContext) o :
  StronglySorted pos_lt (spos <$> imap (fun l lc => ({| ctx := k; at_line := o + l |}, c, lc)) lcs).
Proof.
  revert o. induction lcs as [|lc lcs IH]; intros o; [constructor|]. cbn [imap fmap list_fmap]. constructor.
  - rewrite (imap_ext _ (fun l lc => ({| ctx := k; at_line := S o + l |}, c, lc))); [apply IH|]. intros i x _. cbn. by rewrite Nat.add_succ_r.
  - apply Forall_fmap, Forall_forall. intros s (i & x & _ & ->)%elem_of_imap. right. cbn. lia.
Qed.

Lemma sorted_app {A} (R : A -> A -> Prop) l k :
  StronglySorted R l -> StronglySorted R k -> (forall a b, a ∈ l -> b ∈ k -> R a b) -> StronglySorted R (l ++ k).
Proof.
  intros Hl Hk H. induction Hl as [|a l Hl IH Ha]; [done|]. cbn. constructor; [apply IH; intros; apply H; [by right|done]|].
  apply Forall_app. split; [done|]. apply Forall_forall. intros b Hb. apply H; [by left|done].
Qed.

Lemma stmts_sorted_from k contexts : StronglySorted pos_lt (spos <$> stmts_from k contexts).
Proof.
  revert k. induction contexts as [|c contexts IH]; intros k; [constructor|]. rewrite stmts_from_cons, fmap_app. apply sorted_app; [|apply IH|].
  - apply (sorted_imap_lines k c (line_contexts c) 0).
  - intros a b ([[p d] lc] & -> & (i & x & _ & E)%elem_of_imap)%list_elem_of_fmap ([[q d'] lc'] & -> & (j & H & _)%elem_of_stmts_from)%list_elem_of_fmap.
    injection E as -> _ _. left. cbn in *. lia.
Qed.

Lemma stmts_sorted contexts : StronglySorted pos_lt (spos <$> stmts contexts).
Proof. apply stmts_sorted_from. Qed.

(** * The index *)

Definition index_stmt (st : Index) (s : stmt) : Index :=
  let '(p, c, lc) := s in index_line (ctx p) c (exception_index c) st (at_line p, lc).

Lemma foldl_imap {A C D} (f : D -> C -> D) (g : nat -> A -> C) l d : foldl f d (imap g l) = foldl (fun d x => f d x) d (imap g l).
Proof. done. Qed.

Lemma index_context_stmts k c st :
  index_context st (k, c) = foldl index_stmt st (imap (fun l lc => ({| ctx := k; at_line := l |}, c, lc)) (line_contexts c)).
Proof.
  unfold index_context. assert (forall (g : nat -> nat) lcs st, foldl (index_line k c (exception_index c)) st (imap (fun i lc => (g i, lc)) lcs) =
    foldl index_stmt st (imap (fun l lc => ({| ctx := k; at_line := g l |}, c, lc)) lcs)) as H.
  { intros g lcs. revert g. induction lcs as [|lc lcs IH]; intros g st'; [done|]. cbn [imap foldl]. exact (IH (g ∘ S) _). }
  exact (H (fun i => i) _ st).
Qed.

Lemma index_contexts_stmts k contexts st :
  foldl index_context st (imap (fun i c => (k + i, c)) contexts) = foldl index_stmt st (stmts_from k contexts).
Proof.
  revert k st. induction contexts as [|c contexts IH]; intros k st; [done|]. rewrite stmts_from_cons, foldl_app. cbn [imap foldl].
  rewrite Nat.add_0_r, index_context_stmts, <- IH. f_equal. apply imap_ext. intros i x _. cbn. by rewrite Nat.add_succ_r.
Qed.

(** The positions of a line, in order. *)
Definition at_key (k : LineKey) (l : list stmt) : list Pos := spos <$> List.filter (fun s => bool_decide (skey s = k)) l.

Lemma index_occurrences l st k :
  default [] (fst (fst (foldl index_stmt st l)) !! k) = default [] (fst (fst st) !! k) ++ at_key k l /\
  (fst (fst (foldl index_stmt st l)) !! k = None <-> fst (fst st) !! k = None /\ at_key k l = []).
Proof.
  revert st. induction l as [|[[p c] lc] l IH]; intros st; [cbn; rewrite app_nil_r; tauto|]. cbn [foldl].
  destruct (IH (index_stmt st (p, c, lc))) as [H1 H2]. rewrite H1, H2. unfold at_key. cbn [List.filter]. destruct st as [[occ snap] lst].
  cbn [index_stmt index_line fst]. change (skey (p, c, lc)) with (line_key c lc). case_bool_decide as Hk.
  - subst k. rewrite lookup_insert_eq. change (default [] (Some ?x)) with x. cbn [fmap list_fmap]. rewrite <- app_assoc. change (spos (p, c, lc)) with p.
    split; [by destruct p|]. by split; [intros [? _]|intros [_ ?]].
  - rewrite lookup_insert_ne by done. done.
Qed.

Lemma occurrences_new contexts k :
  default [] (occurrences (new contexts) !! k) = at_key k (stmts contexts) /\
  (occurrences (new contexts) !! k = None <-> at_key k (stmts contexts) = []).
Proof.
  unfold new. pose proof (index_contexts_stmts 0 contexts (∅, [], [])) as E. cbn [Nat.add] in E.
  change (fun i c => (i, c)) with (@pair nat MethodContext) in E. rewrite E. clear E.
  pose proof (index_occurrences (stmts_from 0 contexts) (∅, [], []) k) as [H1 H2].
  destruct (foldl index_stmt _ _) as [[occ snap] lst]. destruct (link_calls contexts) as [par cal]. cbn [occurrences fst] in *.
  rewrite lookup_empty in *. split; [done|]. rewrite H2. tauto.
Qed.

(** * Call links *)

Section links.
Context (contexts : list MethodContext).

Definition has_chain (fs : list (str * ObjectType * Z)) (c : nat) : bool :=
  match contexts !! c with Some x => bool_decide (chain x = fs) | None => false end.

(** The nearest earlier context whose frames are those of [c] without the
    first. *)
Definition caller_of (c : nat) : option nat :=
  x ← contexts !! c; if (1 <? length (chain x))%nat then rfind (has_chain (drop 1 (chain x))) (seq 0 c) else None.

Definition parent_of (c : nat) : option Pos := caller ← caller_of c; call_site contexts caller c.

Definition links (n : nat) : Links :=
  foldl (link_call contexts) (∅, replicate (length contexts) None, ∅) (take n (imap pair contexts)).

Lemma rfind_snoc {A} (f : A -> bool) l x : rfind f (l ++ [x]) = if f x then Some x else rfind f l.
Proof. unfold rfind. rewrite reverse_snoc. done. Qed.

Lemma rfind_Some {A} (f : A -> bool) l x : rfind f l = Some x -> f x = true /\ x ∈ l.
Proof. unfold rfind. intros [H1 H2]%List.find_some. split; [done|]. by apply elem_of_reverse, list_elem_of_In. Qed.

Lemma links_spec n : n <= length contexts ->
  let '(latest, parent, callees) := links n in
  (forall fs, latest !! fs = rfind (has_chain fs) (seq 0 n)) /\
  (forall c, parent !! c = if decide (c < n) then Some (parent_of c) else if decide (c < length contexts) then Some None else None) /\
  (forall s, default [] (callees !! s) = List.filter (fun c => bool_decide (parent_of c = Some s)) (seq 0 n)).
Proof.
  induction n as [|n IH]; intros Hn.
  - unfold links. rewrite take_0. cbn. split_and!; [intros; by rewrite lookup_empty| |intros; by rewrite lookup_empty].
    intros c. destruct (decide (c < length contexts)); [by apply lookup_replicate_2|by apply lookup_ge_None_2; rewrite length_replicate; lia].
  - specialize (IH ltac:(lia)). unfold links in *. destruct (lookup_lt_is_Some_2 contexts n) as [x Hx]; [lia|].
    rewrite (take_S_r _ n (n, x)) by by rewrite list_lookup_imap, Hx. rewrite foldl_app. cbn [foldl].
    destruct (foldl _ _ (take n _)) as [[latest par] cal]. destruct IH as (H1 & H2 & H3). cbn [link_call].
    assert (call_site_of contexts latest n x = parent_of n) as ->.
    { unfold call_site_of, parent_of, caller_of. rewrite Hx. cbn [mbind option_bind]. destruct (1 <? length (chain x)); [|done]. by rewrite H1. }
    rewrite seq_S. cbn [Nat.add]. split_and!.
    + intros fs. rewrite rfind_snoc. unfold has_chain at 1. rewrite Hx. case_bool_decide as Hc.
      * subst fs. by rewrite lookup_insert_eq.
      * by rewrite lookup_insert_ne.
    + intros c. destruct (parent_of n) as [s|] eqn:Ep.
      * destruct (decide (c = n)) as [->|Hne].
        -- rewrite list_lookup_insert_eq by (apply lookup_lt_is_Some_1; rewrite H2; destruct (decide (n < n)); [done|]; destruct (decide _); [done|lia]).
           destruct (decide (n < S n)); [by rewrite Ep|lia].
        -- rewrite list_lookup_insert_ne by done. rewrite H2. destruct (decide (c < n)), (decide (c < S n)); (done || lia).
      * rewrite H2. destruct (decide (c < n)), (decide (c < S n)); (done || lia || idtac).
        replace c with n by lia. destruct (decide (n < length contexts)); [by rewrite Ep|lia].
    + intros s. rewrite List.filter_app. cbn [List.filter]. rewrite <- H3. destruct (parent_of n) as [s'|] eqn:Ep.
      * case_bool_decide as Hs; [injection Hs as ->; by rewrite lookup_insert_eq|].
        rewrite lookup_insert_ne by congruence. by rewrite app_nil_r.
      * rewrite bool_decide_eq_false_2 by done. by rewrite app_nil_r.
Qed.

Lemma link_calls_spec :
  let '(parent, callees) := link_calls contexts in
  (forall c, parent !! c = if decide (c < length contexts) then Some (parent_of c) else None) /\
  (forall s, default [] (callees !! s) = List.filter (fun c => bool_decide (parent_of c = Some s)) (seq 0 (length contexts))).
Proof.
  pose proof (links_spec (length contexts) ltac:(lia)) as H. unfold links in H.
  rewrite take_ge in H by by rewrite length_imap. unfold link_calls. destruct (foldl _ _ _) as [[latest par] cal].
  destruct H as (_ & H2 & H3). split; [|done]. intros c. rewrite H2. by destruct (decide (c < length contexts)).
Qed.

Lemma caller_before c d : caller_of c = Some d -> d < c.
Proof.
  unfold caller_of. destruct (contexts !! c) as [x|]; [|done]. cbn [mbind option_bind]. destruct (1 <? length (chain x))%nat; [|done].
  intros [_ H]%rfind_Some. apply elem_of_seq in H. lia.
Qed.

Lemma line_indexes_lt f lines i : i ∈ line_indexes f lines -> exists l, lines !! i = Some l /\ f l = true.
Proof.
  unfold line_indexes. intros H. apply list_elem_of_In, List.filter_In in H as [_ H]. destruct (lines !! i) as [l|]; [|done]. by exists l.
Qed.

Lemma call_site_statement caller c s : call_site contexts caller c = Some s ->
  ctx s = caller /\ exists x y fr l, contexts !! caller = Some x /\ contexts !! c = Some y /\ frames y !! 1 = Some fr /\
    line_contexts x !! at_line s = Some l /\ line (from (statement_span l)) = line (from (frame_span fr)).
Proof.
  unfold call_site. destruct (contexts !! c) as [y|]; [|done]. cbn [mbind option_bind]. destruct (frames y !! 1) as [fr|] eqn:Ef; [|done].
  cbn [mbind option_bind]. destruct (contexts !! caller) as [x|] eqn:Ex; [|done]. cbn [mbind option_bind].
  set (same := match line_indexes (same_start (frame_span fr)) (line_contexts x) with [] => _ | _ => _ end).
  assert (forall i, i ∈ same -> exists l, line_contexts x !! i = Some l /\ line (from (statement_span l)) = line (from (frame_span fr))) as Hsame.
  { intros i Hi. assert (i ∈ line_indexes (same_start (frame_span fr)) (line_contexts x) \/ i ∈ line_indexes (same_line (frame_span fr)) (line_contexts x)) as [H|H]
      by (unfold same in Hi; destruct (line_indexes (same_start _) _); [by right|by left]).
    - apply line_indexes_lt in H as (l & Hl & [H%Z.eqb_eq _]%andb_true_iff). by exists l.
    - apply line_indexes_lt in H as (l & Hl & H%Z.eqb_eq). by exists l. }
  intros H. destruct (match rfind _ same with Some i => Some i | None => head same end) as [i|] eqn:Ei; [|done]. cbn in H. injection H as <-.
  cbn [ctx at_line]. split; [done|]. exists x, y, fr. assert (i ∈ same) as Hi.
  { destruct (rfind _ same) as [j|] eqn:Ej; [injection Ei as ->; by apply rfind_Some in Ej as [_ ?]|]. destruct same; [done|]. injection Ei as ->. by left. }
  destruct (Hsame i Hi) as (l & Hl & Hline). exists l. done.
Qed.

Lemma parent_before c s : parent_of c = Some s -> ctx s < c /\ exists x l, contexts !! ctx s = Some x /\ line_contexts x !! at_line s = Some l.
Proof.
  unfold parent_of. destruct (caller_of c) as [d|] eqn:Ed; [|done]. cbn. intros H. apply call_site_statement in H as (-> & x & y & fr & l & H1 & _ & _ & H2 & _).
  split; [by apply caller_before|]. by exists x, l.
Qed.
End links.
