(* ===== verification/ReplaySpec.v ===== *)
(** What the replay promises: it never indexes out of range and always stops,
    Continue visits every occurrence of a breakpoint once and in order, new
    breakpoints are ahead, and the call stack is the recorded one. *)

From Stdlib Require Import ZArith Lia Sorting.Sorted.
From stdpp Require Import base tactics numbers option list gmap sorting strings.
From S2P Require Import Prelude RustStr Snapshots Replay ReplayFacts.

#[local] Open Scope nat_scope.

(** * Sorted positions *)

Lemma min_pos_spec l :
  match min_pos l with
  | Some p => p ∈ l /\ forall q, q ∈ l -> q = p \/ pos_lt p q
  | None => l = []
  end.
Proof.
  unfold min_pos. set (f := fun m p => _).
  assert (forall l m, match foldl f (Some m) l with Some p => (p = m \/ p ∈ l) /\ forall q, q = m \/ q ∈ l -> q = p \/ pos_lt p q | None => False end) as H.
  { induction l0 as [|q l0 IH]; intros m; cbn [foldl]; [split; [by left|intros q [->|Hq%elem_of_nil]; [by left|done]]|].
    unfold f at 2. pose proof (pos_cmp_spec q m) as Hc. destruct (pos_cmp q m) eqn:E; cbn [is_lt].
    - subst q. specialize (IH m). destruct (foldl f (Some m) l0) as [p|]; [|done]. destruct IH as [Hp Hq]. split; [rewrite elem_of_cons; tauto|].
      intros q'. rewrite elem_of_cons. intros [->|[->|?]]; apply Hq; tauto.
    - specialize (IH q). destruct (foldl f (Some q) l0) as [p|]; [|done]. destruct IH as [Hp Hq]. split; [rewrite elem_of_cons; tauto|].
      intros q'. rewrite elem_of_cons. intros [->|[->|?]]; [|apply Hq; by left|apply Hq; by right].
      right. destruct (Hq q (or_introl eq_refl)) as [<-|]; [done|by eapply pos_lt_trans].
    - specialize (IH m). destruct (foldl f (Some m) l0) as [p|]; [|done]. destruct IH as [Hp Hq]. split; [rewrite elem_of_cons; tauto|].
      intros q'. rewrite elem_of_cons. intros [->|[->|?]]; [apply Hq; by left| |apply Hq; by right].
      right. destruct (Hq m (or_introl eq_refl)) as [<-|]; [done|by eapply pos_lt_trans]. }
  destruct l as [|m l]; [done|]. cbn [foldl]. change (f None m) with (Some m). specialize (H l m).
  destruct (foldl f (Some m) l) as [p|]; [|done]. destruct H as [Hp Hq]. split; [by apply elem_of_cons|].
  intros q Hq'%elem_of_cons. by apply Hq.
Qed.

Lemma partition_point_spec p o i q : StronglySorted pos_lt o -> o !! i = Some q ->
  i < partition_point (fun q => pos_le q p) o <-> q = p \/ pos_lt q p.
Proof.
  intros Hs. revert i. induction Hs as [|a o Hs IH Ha]; intros i Hi; [done|]. cbn [partition_point]. rewrite Forall_forall in Ha.
  destruct (pos_le a p) eqn:E.
  - apply pos_le_lt in E. destruct i as [|i]; cbn in Hi; [injection Hi as <-; split; [done|lia]|]. rewrite <- (IH i Hi). lia.
  - split; [lia|]. intros H. assert (pos_le a p = true) as H'; [|congruence]. apply pos_le_lt.
    destruct i as [|i]; cbn in Hi; [by injection Hi as <-|]. right. apply list_elem_of_lookup_2, Ha in Hi.
    destruct H as [->|H]; [done|by eapply pos_lt_trans].
Qed.

Lemma partition_point_le f o : partition_point f o <= length o.
Proof. induction o as [|q o IH]; cbn; [lia|]. destruct (f q); lia. Qed.

Lemma sorted_nodup o : StronglySorted pos_lt o -> NoDup o.
Proof.
  induction 1 as [|a o Hs IH Ha]; constructor; [|done]. rewrite Forall_forall in Ha. intros H%Ha. by apply pos_lt_irrefl in H.
Qed.

Lemma sorted_sublist {A C} (R : C -> C -> Prop) (g : A -> C) (f : A -> bool) l :
  StronglySorted R (g <$> l) -> StronglySorted R (g <$> List.filter f l).
Proof.
  induction l as [|a l IH]; intros H; [constructor|]. cbn in H. apply StronglySorted_inv in H as [H Ha]. cbn [List.filter].
  destruct (f a); [|by apply IH]. cbn. constructor; [by apply IH|]. rewrite Forall_forall in *. intros b (x & -> & Hx)%list_elem_of_fmap.
  apply Ha, list_elem_of_fmap. exists x. split; [done|]. by apply list_elem_of_In, List.filter_In, proj1, list_elem_of_In in Hx.
Qed.

(** * Engines of a recording *)

Section replay.
Context (contexts : list MethodContext).

(** What no operation changes. *)
Definition recorded (e : Engine) : Prop :=
  lens e = lens (new contexts) /\ keys e = keys (new contexts) /\ exception_at e = exception_at (new contexts) /\
  parent e = parent (new contexts) /\ callees e = callees (new contexts) /\ occurrences e = occurrences (new contexts) /\
  snappoints e = snappoints (new contexts) /\ listed e = listed (new contexts).

Definition statement (p : Pos) : Prop := exists c lc, contexts !! ctx p = Some c /\ line_contexts c !! at_line p = Some lc.

Lemma statement_stmts p : statement p <-> exists c lc, (p, c, lc) ∈ stmts contexts.
Proof. unfold statement. by setoid_rewrite elem_of_stmts. Qed.

Lemma new_fields :
  lens (new contexts) = (fun c => length (line_contexts c)) <$> contexts /\
  keys (new contexts) = (fun c => line_key c <$> line_contexts c) <$> contexts /\
  exception_at (new contexts) = exception_index <$> contexts /\
  parent (new contexts) = fst (link_calls contexts) /\ callees (new contexts) = snd (link_calls contexts).
Proof. unfold new. destruct (foldl _ _ _) as [[? ?] ?]. by destruct (link_calls contexts). Qed.

Lemma recorded_new : recorded (new contexts).
Proof. by repeat split. Qed.

Lemma recorded_lens e c : recorded e -> lens e !! c = (fun x => length (line_contexts x)) <$> contexts !! c.
Proof. intros (-> & _). rewrite (proj1 new_fields). apply list_lookup_fmap. Qed.

Lemma recorded_length e : recorded e -> length (lens e) = length contexts.
Proof. intros (-> & _). rewrite (proj1 new_fields). apply length_fmap. Qed.

Lemma recorded_exception e c : recorded e -> exception_at e !! c = exception_index <$> contexts !! c.
Proof. intros (_ & _ & -> & _). destruct new_fields as (_ & _ & -> & _). apply list_lookup_fmap. Qed.

Lemma recorded_parent e c : recorded e -> parent e !! c = if decide (c < length contexts) then Some (parent_of contexts c) else None.
Proof.
  intros (_ & _ & _ & -> & _). destruct new_fields as (_ & _ & _ & -> & _). pose proof (link_calls_spec contexts) as H.
  destruct (link_calls contexts). apply H.
Qed.

Lemma recorded_callees e p : recorded e ->
  default [] (callees e !! p) = List.filter (fun c => bool_decide (parent_of contexts c = Some p)) (seq 0 (length contexts)).
Proof.
  intros (_ & _ & _ & _ & -> & _). destruct new_fields as (_ & _ & _ & _ & ->). pose proof (link_calls_spec contexts) as H.
  destruct (link_calls contexts). apply H.
Qed.

Lemma recorded_occurrences e k : recorded e -> default [] (occurrences e !! k) = at_key k (stmts contexts).
Proof. intros (_ & _ & _ & _ & _ & -> & _). apply occurrences_new. Qed.

Lemma occurrence_sorted k : StronglySorted pos_lt (at_key k (stmts contexts)).
Proof. apply sorted_sublist, stmts_sorted. Qed.

Lemma at_key_elem k p : p ∈ at_key k (stmts contexts) <-> exists c lc, (p, c, lc) ∈ stmts contexts /\ line_key c lc = k.
Proof.
  unfold at_key. rewrite list_elem_of_fmap. split.
  - intros ([[q c] lc] & -> & H%list_elem_of_In). apply List.filter_In in H as [H1 H2%bool_decide_eq_true]. exists c, lc.
    split; [by apply list_elem_of_In|done].
  - intros (c & lc & H & Hk). exists (p, c, lc). split; [done|]. apply list_elem_of_In, List.filter_In. split; [by apply list_elem_of_In|].
    by apply bool_decide_eq_true.
Qed.

Lemma at_key_statement k p : p ∈ at_key k (stmts contexts) -> statement p.
Proof. intros (c & lc & H & _)%at_key_elem. apply statement_stmts. by exists c, lc. Qed.

(** A statement is of one line only. *)
Lemma at_key_unique k k' p : p ∈ at_key k (stmts contexts) -> p ∈ at_key k' (stmts contexts) -> k = k'.
Proof.
  intros (c & lc & H & <-)%at_key_elem (c' & lc' & H' & <-)%at_key_elem. apply elem_of_stmts in H as [H1 H2], H' as [H1' H2']. congruence.
Qed.

Lemma passed_spec e k p : recorded e ->
  passed e k (Some p) = partition_point (fun q => pos_le q p) (at_key k (stmts contexts)).
Proof. intros H. rewrite <- (recorded_occurrences e k H). unfold passed. by destruct (occurrences e !! k). Qed.

Lemma unused_spec e k : recorded e -> unused e k = at_key k (stmts contexts) !! default 0 (hits e !! k).
Proof. intros H. rewrite <- (recorded_occurrences e k H). unfold unused. by destruct (occurrences e !! k). Qed.

(** * Landing *)

Lemma raise_hits e p h ks k :
  foldl (raise_hit e p) h ks !! k =
    if decide (k ∈ ks) then Some (Nat.max (default 0 (h !! k)) (passed e k (Some p))) else h !! k.
Proof.
  revert h. induction ks as [|k' ks IH]; intros h; [done|]. cbn [foldl]. rewrite IH. unfold raise_hit. destruct (decide (k' = k)) as [->|Hne].
  - rewrite lookup_insert_eq. rewrite (decide_True (P := k ∈ k :: ks)) by by left. destruct (decide (k ∈ ks)); [|done].
    change (default 0 (Some ?x)) with x. f_equal. lia.
  - rewrite lookup_insert_ne by done. destruct (decide (k ∈ ks)) as [H|H]; [by rewrite decide_True by by right|].
    rewrite decide_False; [done|]. intros [->|?]%elem_of_cons; done.
Qed.

Definition hit (e : Engine) (k : LineKey) : nat := default 0 (hits e !! k).

(** What a move leaves. *)
Definition moved (e e' : Engine) (step : Step) : Prop :=
  recorded e' /\ user e' = user e /\
  match step with
  | Stopped l =>
      statement (Replay.pos l) /\ current e' = Some (Replay.pos l) /\
      exception_ l = bool_decide ((contexts !! ctx (Replay.pos l) ≫= exception_index) = Some (at_line (Replay.pos l))) /\
      forall k, hits e' !! k = if decide (k ∈ active_keys e) then Some (Nat.max (hit e k) (passed e k (Some (Replay.pos l)))) else hits e !! k
  | Ended => current e' = None /\ hits e' = hits e
  end.

Lemma land_moved p so e : recorded e -> statement p ->
  exists e' l, land p so e = Some (e', Stopped l) /\ Replay.pos l = p /\ start_over_ l = so /\ moved e e' (Stopped l).
Proof.
  intros Hr Hp. pose proof Hp as (c & lc & Hc & Hl). unfold land. rewrite (recorded_exception e (ctx p) Hr), Hc. cbn [fmap option_fmap option_map mbind option_bind].
  eexists _, _. split; [done|]. cbn [Replay.pos start_over_]. split_and!; [done|done|]. unfold moved. cbn [Replay.pos exception_]. split_and!; try done.
  - cbn. by rewrite Hc.
  - intros k. cbn. apply raise_hits.
Qed.

Lemma end_moved e : recorded e -> moved e (end_ e).1 (end_ e).2.
Proof. intros H. unfold end_. cbn. by split_and!. Qed.

Definition moves (e : Engine) (r : option (Engine * Step)) : Prop := exists e' step, r = Some (e', step) /\ moved e e' step.

Lemma land_moves p so e : recorded e -> statement p -> moves e (land p so e).
Proof. intros Hr Hp. destruct (land_moved p so e Hr Hp) as (e' & l & H & _ & _ & Hm). by exists e', (Stopped l). Qed.

Lemma end_moves e : recorded e -> moves e (Some (end_ e)).
Proof. intros H. eexists _, _. split; [apply f_equal, surjective_pairing|]. by apply end_moved. Qed.

Lemma start_over_moves e : recorded e -> moves e (start_over e).
Proof.
  intros Hr. unfold start_over. pose proof (recorded_lens e 0 Hr) as Hl. destruct (lens e) as [|n ns] eqn:E; [by apply end_moves|].
  destruct (Nat.eqb_spec n 0) as [->|Hn]; [by apply end_moves|]. apply land_moves; [done|]. cbn in Hl.
  destruct contexts as [|c cs] eqn:Ec; [done|]. cbn in Hl. injection Hl as ->. destruct (line_contexts c) as [|lc lcs] eqn:El; [done|].
  exists c, lc. cbn. rewrite Ec, El. done.
Qed.

Lemma unused_statement e k p : recorded e -> unused e k = Some p -> p ∈ at_key k (stmts contexts).
Proof. intros Hr. rewrite (unused_spec e k Hr). apply list_elem_of_lookup_2. Qed.

Lemma cont_moves e : recorded e -> moves e (cont e).
Proof.
  intros Hr. unfold cont. pose proof (min_pos_spec (omap (unused e) (active_keys e))) as H.
  destruct (min_pos _) as [p|]; [|by apply end_moves]. destruct H as [(k & _ & H)%list_elem_of_omap _].
  apply land_moves; [done|]. eapply at_key_statement, unused_statement; done.
Qed.

Lemma start_moves e : recorded e -> moves e (start e).
Proof. intros Hr. unfold start. destruct (active_keys e); [by apply start_over_moves|by apply cont_moves]. Qed.

(** Leaving a context goes to earlier contexts only. *)
Lemma step_out_of_moves fuel c e : recorded e -> c < length contexts -> c < fuel -> moves e (step_out_of fuel c e).
Proof.
  intros Hr. revert c. induction fuel as [|fuel IH]; intros c Hc Hf; [lia|]. cbn [step_out_of].
  rewrite (recorded_parent e c Hr). destruct (decide (c < length contexts)) as [_|]; [|done]. cbn [mbind option_bind].
  destruct (parent_of contexts c) as [site|] eqn:Ep.
  - apply parent_before in Ep as (Hlt & x & l & Hx & Hl). rewrite (recorded_lens e (ctx site) Hr), Hx. cbn [fmap option_fmap option_map mbind option_bind].
    destruct (Nat.ltb_spec (S (at_line site)) (length (line_contexts x))) as [H|H].
    + apply land_moves; [done|]. destruct (lookup_lt_is_Some_2 _ _ H) as [lc' Hl']. by exists x, lc'.
    + apply IH; lia.
  - destruct (c =? 0); [by apply end_moves|by apply start_over_moves].
Qed.

Definition current_ok (e : Engine) : Prop := forall p, current e = Some p -> statement p.

Lemma statement_lt p : statement p -> ctx p < length contexts.
Proof. intros (c & _ & H & _). by eapply lookup_lt_Some. Qed.

Lemma leave_moves e p : recorded e -> statement p -> moves e (leave (ctx p) e).
Proof.
  intros Hr Hp%statement_lt. unfold leave. apply step_out_of_moves; [done|done|]. rewrite (recorded_length e Hr). lia.
Qed.

Lemma engine_moves c e : recorded e -> current_ok e -> moves e (engine_move c e).
Proof.
  intros Hr Hc. destruct c; cbn [engine_move]; [by apply start_moves|by apply cont_moves|..].
  - unfold next. destruct (current e) as [p|] eqn:E; [|by apply start_moves]. specialize (Hc p E). pose proof Hc as (c & lc & H1 & H2).
    rewrite (recorded_lens e (ctx p) Hr), H1. cbn [fmap option_fmap option_map mbind option_bind].
    destruct (Nat.ltb_spec (S (at_line p)) (length (line_contexts c))) as [H|H]; [|by apply leave_moves].
    apply land_moves; [done|]. destruct (lookup_lt_is_Some_2 _ _ H) as [l' Hl']. by exists c, l'.
  - unfold step_in. destruct (current e) as [p|] eqn:E; [|by apply start_moves]. specialize (Hc p E).
    assert (moves e (if length (lens e) <=? S (ctx p) then Some (end_ e) else land p false e)) as Hstay
      by (destruct (_ <=? _); [by apply end_moves|by apply land_moves]).
    pose proof (recorded_callees e p Hr) as Hcal. destruct (callees e !! p) as [cs|]; cbn [mbind option_bind]; [|done].
    destruct (head cs) as [callee|] eqn:Eh; [|done]. change (default [] (Some cs)) with cs in Hcal.
    assert (callee ∈ cs) as Hin by (destruct cs; [done|]; injection Eh as ->; by left). rewrite Hcal in Hin.
    apply list_elem_of_In, List.filter_In in Hin as [Hin _]. apply in_seq in Hin.
    destruct (lookup_lt_is_Some_2 contexts callee) as [x Hx]; [lia|]. rewrite (recorded_lens e callee Hr), Hx. cbn [fmap option_fmap option_map mbind option_bind].
    destruct (Nat.ltb_spec 0 (length (line_contexts x))) as [H|H]; [|done]. apply land_moves; [done|].
    destruct (lookup_lt_is_Some_2 _ _ H) as [l' Hl']. by exists x, l'.
  - unfold step_out. destruct (current e) as [p|] eqn:E; [|by apply start_moves]. apply leave_moves; [done|by apply Hc].
Qed.

(** * The user's lines *)

(** The lines of a request that some statement has. *)
Definition set_key (t n l : Z) : option LineKey :=
  k ← user_key t n l; if bool_decide (at_key k (stmts contexts) = []) then None else Some k.

Lemma verified_key e k : recorded e -> bool_decide (is_Some (occurrences e !! k)) = negb (bool_decide (at_key k (stmts contexts) = [])).
Proof.
  intros (_ & _ & _ & _ & _ & -> & _). pose proof (occurrences_new contexts k) as [_ H].
  destruct (decide (at_key k (stmts contexts) = [])) as [E|E].
  - rewrite (bool_decide_eq_true_2 _ E). apply H in E. rewrite E. by apply bool_decide_eq_false_2; intros [? ?].
  - rewrite (bool_decide_eq_false_2 _ E). apply bool_decide_eq_true_2. apply not_eq_None_Some. intros E'. by apply E, H.
Qed.

Definition answer (t n l : Z) : UserBreakpoint :=
  {| Replay.key := default {| key_type := t; key_number := n; key_line := 0 |} (user_key t n l);
     verified := bool_decide (is_Some (set_key t n l)) |}.

Definition insert_key (k : option LineKey) (e : Engine) : Engine :=
  match k with Some k => set_hits (or_insert k (passed e k (current e)) (hits e)) e | None => e end.

Lemma user_line_step t n e ks out l : recorded e ->
  user_line t n (e, ks, out) l = (insert_key (set_key t n l) e, ks ++ option_list (set_key t n l), out ++ [answer t n l]).
Proof.
  intros Hr. unfold user_line, answer, set_key. destruct (user_key t n l) as [k|]; cbn [mbind option_bind default from_option]; [|by rewrite app_nil_r].
  rewrite (verified_key e k Hr). case_bool_decide as E; cbn; [by rewrite app_nil_r|done].
Qed.

Lemma or_insert_lookup k0 n h k : or_insert k0 n h !! k = match h !! k with Some x => Some x | None => if decide (k0 = k) then Some n else None end.
Proof.
  unfold or_insert. destruct (h !! k0) as [h0|] eqn:E0.
  - destruct (decide (k0 = k)) as [->|Hne]; [by rewrite E0|]. by destruct (h !! k).
  - destruct (decide (k0 = k)) as [->|Hne]; [by rewrite lookup_insert_eq, E0|]. rewrite lookup_insert_ne by done. by destruct (h !! k).
Qed.

(** What the lines of a request do to the hits: a line without one gets the
    statements passed. *)
Lemma user_lines t n lines e ks out : recorded e ->
  let '(e', ks', out') := foldl (user_line t n) (e, ks, out) lines in
  recorded e' /\ user e' = user e /\ current e' = current e /\ ks' = ks ++ omap (set_key t n) lines /\
  out' = out ++ (answer t n <$> lines) /\
  forall k, hits e' !! k = match hits e !! k with
                           | Some h => Some h
                           | None => if decide (k ∈ omap (set_key t n) lines) then Some (passed e k (current e)) else None
                           end.
Proof.
  revert e ks out. induction lines as [|l0 lines IH]; intros e ks out Hr.
  - cbn. rewrite !app_nil_r. split_and!; try done. intros k. by destruct (hits e !! k).
  - cbn [foldl]. rewrite (user_line_step _ _ _ _ _ _ Hr). assert (recorded (insert_key (set_key t n l0) e)) as Hr' by by destruct (set_key t n l0).
    specialize (IH _ (ks ++ option_list (set_key t n l0)) (out ++ [answer t n l0]) Hr'). destruct (foldl _ _ lines) as [[e' ks'] out'].
    destruct IH as (H1 & H2 & H3 & H4 & H5 & H6).
    assert (omap (set_key t n) (l0 :: lines) = option_list (set_key t n l0) ++ omap (set_key t n) lines) as Eo by (cbn; by destruct (set_key t n l0)).
    rewrite Eo. cbn [fmap list_fmap]. split_and!; [done|rewrite H2; by destruct (set_key t n l0)|rewrite H3; by destruct (set_key t n l0)
      |by rewrite H4, <- app_assoc|rewrite H5, <- app_assoc; done|].
    intros k. rewrite H6. destruct (set_key t n l0) as [k0|]; [|done]. cbn [insert_key option_list app].
    change (hits (set_hits ?h e)) with h. change (current (set_hits ?h e)) with (current e). change (passed (set_hits ?h e)) with (passed e).
    rewrite or_insert_lookup. destruct (hits e !! k); [done|]. destruct (decide (k0 = k)) as [->|Hne]; [by rewrite decide_True by by left|].
    destruct (decide (k ∈ omap _ _)) as [H|H]; [by rewrite decide_True by by right|]. rewrite decide_False; [done|].
    intros [->|?]%elem_of_cons; done.
Qed.

(** A request: its lines replace those of the source. *)
Lemma set_user_breakpoints_spec source t n lines e : recorded e ->
  let '(e', out) := set_user_breakpoints source t n lines e in
  recorded e' /\ user e' = <[source := omap (set_key t n) lines]> (user e) /\ current e' = current e /\ out = answer t n <$> lines /\
  forall k, hits e' !! k = match hits e !! k with
                           | Some h => Some h
                           | None => if decide (k ∈ omap (set_key t n) lines) then Some (passed e k (current e)) else None
                           end.
Proof.
  intros Hr. unfold set_user_breakpoints. pose proof (user_lines t n lines e [] [] Hr) as H.
  destruct (foldl _ _ _) as [[e' ks] out]. destruct H as (H1 & H2 & H3 & -> & -> & H6). split_and!; try done. cbn. by rewrite H2.
Qed.

Lemma add_new_elem k k' ks : k' ∈ add_new k ks <-> k' = k \/ k' ∈ ks.
Proof.
  unfold add_new. destruct (decide (k ∈ ks)) as [H|H]; [|rewrite elem_of_app, list_elem_of_singleton; tauto].
  split; [by right|]. by intros [->|?].
Qed.

(** The breakpoints in force. *)
Lemma active_keys_elem e k : k ∈ active_keys e <-> k ∈ snappoints e \/ exists source ks, user e !! source = Some ks /\ k ∈ ks.
Proof.
  unfold active_keys. set (l := mjoin _). assert (forall ks, k ∈ foldl (fun ks k => add_new k ks) ks l <-> k ∈ ks \/ k ∈ l) as H.
  { induction l as [|k0 l0 IH]; intros ks; cbn [foldl]; [rewrite elem_of_nil; tauto|]. rewrite IH, add_new_elem, elem_of_cons. tauto. }
  rewrite H. unfold l. rewrite list_elem_of_join. apply or_iff_compat_l. split.
  - intros (ks & Hk & ([source ks'] & -> & H')%list_elem_of_fmap). apply elem_of_map_to_list in H'. by exists source, ks'.
  - intros (source & ks & H' & Hk). exists ks. split; [done|]. apply list_elem_of_fmap. exists (source, ks). split; [done|]. by apply elem_of_map_to_list.
Qed.

(** * Continue *)

(** Continue until the replay ends: the statements where it stops. *)
Fixpoint continue_all (fuel : nat) (e : Engine) : option (list Pos) :=
  match fuel with
  | O => None
  | S fuel =>
      r ← cont e;
      let '(e', step) := r in
      match step with Stopped l => cons (Replay.pos l) <$> continue_all fuel e' | Ended => Some [] end
  end.

Lemma at_key_app k l l' : at_key k (l ++ l') = at_key k l ++ at_key k l'.
Proof. unfold at_key. by rewrite List.filter_app, fmap_app. Qed.

Lemma partition_point_app p l1 l2 :
  (forall q, q ∈ l1 -> pos_le q p = true) -> (forall q, q ∈ l2 -> pos_le q p = false) ->
  partition_point (fun q => pos_le q p) (l1 ++ l2) = length l1.
Proof.
  intros H1 H2. induction l1 as [|q l1 IH]; cbn.
  - destruct l2 as [|q l2]; [done|]. cbn. by rewrite H2 by by left.
  - rewrite H1 by by left. rewrite IH; [done|]. intros q' Hq. apply H1. by right.
Qed.

Lemma at_key_in k l q : q ∈ at_key k l -> exists s, s ∈ l /\ skey s = k /\ spos s = q.
Proof.
  unfold at_key. intros (s & -> & H%list_elem_of_In)%list_elem_of_fmap. apply List.filter_In in H as [H1 H2%bool_decide_eq_true].
  exists s. split_and!; [by apply list_elem_of_In|done|done].
Qed.

Lemma sorted_app_lt l1 s l2 : StronglySorted pos_lt (spos <$> (l1 ++ s :: l2)) ->
  (forall q, q ∈ l1 -> pos_lt (spos q) (spos s)) /\ (forall q, q ∈ l2 -> pos_lt (spos s) (spos q)).
Proof.
  induction l1 as [|a l1 IH]; cbn; intros H; apply StronglySorted_inv in H as [H Ha]; rewrite Forall_forall in Ha.
  - split; [by intros q ?%elem_of_nil|]. intros q Hq. by apply Ha, list_elem_of_fmap_2.
  - destruct (IH H) as [H1 H2]. split; [|done]. intros q [->|Hq]%elem_of_cons; [|by apply H1].
    apply Ha, list_elem_of_fmap_2. apply elem_of_app. right. by left.
Qed.

(** The statements passed up to one of them. *)
Lemma passed_at e k l1 s l2 : recorded e -> stmts contexts = l1 ++ s :: l2 -> passed e k (Some (spos s)) = length (at_key k (l1 ++ [s])).
Proof.
  intros Hr E. rewrite (passed_spec e k _ Hr), E. replace (l1 ++ s :: l2) with ((l1 ++ [s]) ++ l2) by by rewrite <- app_assoc.
  rewrite at_key_app. pose proof (stmts_sorted contexts) as Hs. rewrite E in Hs. apply sorted_app_lt in Hs as [H1 H2].
  apply partition_point_app; intros q (s' & H & _ & <-)%at_key_in.
  - apply pos_le_lt. apply elem_of_app in H as [H|H%list_elem_of_singleton]; [right; by apply H1|left; by subst].
  - apply H2 in H. destruct (pos_le _ _) eqn:E'; [|done]. apply pos_le_lt in E' as [E'|E'].
    + rewrite E' in H. by apply pos_lt_irrefl in H.
    + by apply (pos_lt_trans _ _ _ H), pos_lt_irrefl in E'.
Qed.

Definition active (e : Engine) (s : stmt) : bool := bool_decide (skey s ∈ active_keys e).

(** The first element for which [f] holds. *)
Lemma filter_split {A} (f : A -> bool) l :
  match List.filter f l with
  | [] => forall a, a ∈ l -> f a = false
  | a :: r => exists l1 l2, l = l1 ++ a :: l2 /\ f a = true /\ (forall b, b ∈ l1 -> f b = false) /\ r = List.filter f l2
  end.
Proof.
  induction l as [|a l IH]; [by intros a ?%elem_of_nil|]. cbn. destruct (f a) eqn:E; [exists [], l; split_and!; try done; by intros b ?%elem_of_nil|].
  destruct (List.filter f l) as [|b r].
  - intros b [->|?]%elem_of_cons; [done|by apply IH].
  - destruct IH as (l1 & l2 & -> & H1 & H2 & ->). exists (a :: l1), l2. split_and!; try done. intros c [->|?]%elem_of_cons; [done|by apply H2].
Qed.

Lemma min_pos_is l p : p ∈ l -> (forall q, q ∈ l -> q = p \/ pos_lt p q) -> min_pos l = Some p.
Proof.
  intros Hp Hq. pose proof (min_pos_spec l) as H. destruct (min_pos l) as [m|]; [|by subst l; apply elem_of_nil in Hp].
  destruct H as [Hm H]. destruct (Hq m Hm) as [->|H1]; [done|]. destruct (H p Hp) as [->|H2]; [done|].
  by apply (pos_lt_trans _ _ _ H1), pos_lt_irrefl in H2.
Qed.

(** The unused occurrence of a line after the statements [pre]. *)
Lemma unused_after e k pre post : recorded e -> stmts contexts = pre ++ post -> hit e k = length (at_key k pre) ->
  unused e k = at_key k post !! 0.
Proof.
  intros Hr E H. rewrite (unused_spec e k Hr), E, at_key_app. unfold hit in H. rewrite H.
  rewrite lookup_app_r by lia. by rewrite Nat.sub_diag.
Qed.

Lemma cont_step e pre post : recorded e -> stmts contexts = pre ++ post ->
  (forall k, k ∈ active_keys e -> hit e k = length (at_key k pre)) ->
  match List.filter (active e) post with
  | [] => cont e = Some (end_ e)
  | s :: r => exists e' l pre' post', cont e = Some (e', Stopped l) /\ Replay.pos l = spos s /\ moved e e' (Stopped l) /\
      stmts contexts = pre' ++ post' /\ length post' < length post /\ List.filter (active e) post' = r /\
      forall k, k ∈ active_keys e -> hit e' k = length (at_key k pre')
  end.
Proof.
  intros Hr E H. pose proof (filter_split (active e) post) as Hf. destruct (List.filter (active e) post) as [|s r].
  - unfold cont. replace (omap (unused e) (active_keys e)) with (@nil Pos); [done|]. symmetry.
    destruct (omap (unused e) (active_keys e)) as [|p l'] eqn:Eo; [done|]. assert (p ∈ omap (unused e) (active_keys e)) as Hp by (rewrite Eo; by left).
    apply list_elem_of_omap in Hp as (k & Hk & Hu). rewrite (unused_after e k pre post Hr E (H k Hk)) in Hu.
    apply list_elem_of_lookup_2, at_key_in in Hu as (s & Hs & Hsk & _). apply Hf in Hs. unfold active in Hs.
    apply bool_decide_eq_false in Hs. by rewrite Hsk in Hs.
  - destruct Hf as (mid & post' & -> & Ha & Hmid & ->). unfold active in Ha. apply bool_decide_eq_true in Ha.
    assert (stmts contexts = (pre ++ mid) ++ s :: post') as E' by by rewrite <- app_assoc.
    pose proof (stmts_sorted contexts) as Hs. rewrite E' in Hs. apply sorted_app_lt in Hs as [_ Hs2].
    assert (forall k, k ∈ active_keys e -> at_key k mid = []) as Hnone.
    { intros k Hk. destruct (at_key k mid) as [|q l'] eqn:Eq; [done|]. assert (q ∈ at_key k mid) as Hq by (rewrite Eq; by left).
      apply at_key_in in Hq as (s' & Hs' & Hsk & _). apply Hmid in Hs'. unfold active in Hs'. apply bool_decide_eq_false in Hs'. by rewrite Hsk in Hs'. }
    assert (forall k, k ∈ active_keys e -> unused e k = at_key k (s :: post') !! 0) as Hun.
    { intros k Hk. rewrite (unused_after e k pre _ Hr E (H k Hk)), at_key_app, (Hnone k Hk). done. }
    assert (min_pos (omap (unused e) (active_keys e)) = Some (spos s)) as Hmin.
    { apply min_pos_is.
      - apply list_elem_of_omap. exists (skey s). split; [done|]. rewrite (Hun _ Ha). unfold at_key. cbn [List.filter]. by rewrite bool_decide_true.
      - intros q (k & Hk & Hq)%list_elem_of_omap. rewrite (Hun k Hk) in Hq. apply list_elem_of_lookup_2, at_key_in in Hq as (s' & Hs' & _ & <-).
        apply elem_of_cons in Hs' as [->|Hs']; [by left|right; by apply Hs2]. }
    assert (statement (spos s)) as Hst.
    { apply statement_stmts. destruct s as [[p c] lc]. exists c, lc. rewrite E'. apply elem_of_app. right. by left. }
    unfold cont. rewrite Hmin. destruct (land_moved (spos s) false e Hr Hst) as (e' & l & Hl & Hp & _ & Hm).
    exists e', l, (pre ++ mid ++ [s]), post'. pose proof Hm as (Hr' & _ & _ & _ & _ & Hh). split_and!; try done.
    + rewrite E. by rewrite <- !app_assoc.
    + rewrite length_app. cbn. lia.
    + intros k Hk. unfold hit at 1. rewrite Hh, decide_True by done. change (default 0 (Some ?x)) with x. rewrite Hp, (passed_at e k _ s post' Hr E').
      rewrite (H k Hk), <- app_assoc, !at_key_app, !length_app. lia.
Qed.

Lemma moved_active e e' step : recorded e -> moved e e' step -> active_keys e' = active_keys e.
Proof.
  intros (_ & _ & _ & _ & _ & _ & Hs & _) ((_ & _ & _ & _ & _ & _ & Hs' & _) & Hu & _). unfold active_keys. by rewrite Hs, Hs', Hu.
Qed.

Lemma continue_all_spec fuel e pre post : recorded e -> stmts contexts = pre ++ post ->
  (forall k, k ∈ active_keys e -> hit e k = length (at_key k pre)) -> length post < fuel ->
  continue_all fuel e = Some (spos <$> List.filter (active e) post).
Proof.
  revert e pre post. induction fuel as [|fuel IH]; intros e pre post Hr E H Hlt; [lia|]. cbn [continue_all].
  pose proof (cont_step e pre post Hr E H) as Hs. destruct (List.filter (active e) post) as [|s r]; [by rewrite Hs|].
  destruct Hs as (e' & l0 & pre' & post' & Hc & Hp & Hm & E' & Hlen & Hf & Hh). rewrite Hc. cbn [mbind option_bind].
  pose proof (moved_active _ _ _ Hr Hm) as Hact. rewrite (IH e' pre' post'); [|apply Hm|done|by rewrite Hact|lia].
  cbn. do 2 f_equal; [done|]. f_equal. rewrite <- Hf. unfold active. by rewrite Hact.
Qed.

(** * Sessions *)

Inductive act := Move (c : Command) | SetLines (source : str) (t n : Z) (lines : list Z).

(** One request: where it stops, for a move. *)
Definition do_act (e : Engine) (a : act) : option (Engine * option Step) :=
  match a with
  | Move c => '(e, step) ← engine_move c e; Some (e, Some step)
  | SetLines source t n lines => Some (fst (set_user_breakpoints source t n lines e), None)
  end.

(** A session: the moves with the step each one ended with. *)
Fixpoint session (e : Engine) (acts : list act) : option (Engine * list (act * option Step)) :=
  match acts with
  | [] => Some (e, [])
  | a :: acts =>
      r ← do_act e a;
      let '(e, step) := r in
      r ← session e acts;
      let '(e, steps) := r in
      Some (e, (a, step) :: steps)
  end.

Definition engine_ok (e : Engine) : Prop := recorded e /\ current_ok e.

Lemma engine_ok_new : engine_ok (new contexts).
Proof.
  split; [apply recorded_new|]. intros p. unfold new. destruct (foldl _ _ _) as [[? ?] ?]. by destruct (link_calls contexts).
Qed.

Definition step_ok (step : Step) : Prop :=
  match step with
  | Stopped l => statement (Replay.pos l) /\
      exception_ l = bool_decide ((contexts !! ctx (Replay.pos l) ≫= exception_index) = Some (at_line (Replay.pos l)))
  | Ended => True
  end.

Lemma do_act_ok e a : engine_ok e ->
  exists e' step, do_act e a = Some (e', step) /\ engine_ok e' /\ (forall s, step = Some s -> step_ok s /\
    current e' = match s with Stopped l => Some (Replay.pos l) | Ended => None end).
Proof.
  intros [Hr Hc]. destruct a as [c|source t n lines]; cbn [do_act].
  - destruct (engine_moves c e Hr Hc) as (e' & step & -> & Hr' & _ & H). cbn [mbind option_bind]. exists e', (Some step). split; [done|].
    unfold engine_ok, current_ok, step_ok. destruct step as [l0|].
    + destruct H as (H1 & H2 & H3 & _). split; [split; [done|]; rewrite H2; by intros p [= <-]|]. by intros s [= <-].
    + destruct H as (H1 & _). split; [split; [done|]; by rewrite H1|]. by intros s [= <-].
  - pose proof (set_user_breakpoints_spec source t n lines e Hr) as H. destruct (set_user_breakpoints _ _ _ _ _) as [e' out]. cbn [fst].
    exists e', None. split; [done|]. destruct H as (H1 & _ & H3 & _). split; [|done]. split; [done|]. unfold current_ok. by rewrite H3.
Qed.

Lemma session_ok e acts : engine_ok e ->
  exists e' steps, session e acts = Some (e', steps) /\ engine_ok e' /\ Forall (fun s => forall x, snd s = Some x -> step_ok x) steps.
Proof.
  revert e. induction acts as [|a acts IH]; intros e He; cbn [session]; [by exists e, []|].
  destruct (do_act_ok e a He) as (e1 & step & -> & He1 & Hs). cbn [mbind option_bind].
  destruct (IH e1 He1) as (e' & steps & -> & He' & Hf). cbn. exists e', ((a, step) :: steps). split_and!; [done|done|].
  constructor; [|done]. intros x Hx. by apply Hs.
Qed.

(** * The call stack *)

(** The call sites from a context up to an entry method. *)
Fixpoint callers (fuel c : nat) : list Pos :=
  match fuel with
  | O => []
  | S fuel => match parent_of contexts c with Some s => s :: callers fuel (ctx s) | None => [] end
  end.

Lemma callers_fuel fuel fuel' c : c < fuel -> c < fuel' -> callers fuel c = callers fuel' c.
Proof.
  revert fuel' c. induction fuel as [|fuel IH]; intros [|fuel'] c H1 H2; try lia. cbn. destruct (parent_of contexts c) as [s|] eqn:E; [|done].
  apply parent_before in E as [E _]. f_equal. apply IH; lia.
Qed.

Lemma callers_length fuel c : length (callers fuel c) <= c.
Proof.
  revert c. induction fuel as [|fuel IH]; intros c; cbn; [lia|]. destruct (parent_of contexts c) as [s|] eqn:E; cbn; [|lia].
  apply parent_before in E as [E _]. specialize (IH (ctx s)). lia.
Qed.

Lemma stack_loop_spec fuel e c out : recorded e -> c < length contexts -> c < fuel -> length out + c <= length contexts ->
  stack_loop fuel e c out = Some (out ++ callers fuel c).
Proof.
  intros Hr. revert c out. induction fuel as [|fuel IH]; intros c out Hc Hf Ho; [lia|]. cbn [stack_loop callers].
  rewrite (recorded_parent e c Hr). destruct (decide (c < length contexts)) as [_|]; [|done]. cbn [mbind option_bind].
  destruct (parent_of contexts c) as [s|] eqn:E; [|by rewrite app_nil_r]. apply parent_before in E as [E _].
  rewrite length_app, (recorded_length e Hr). cbn [length]. destruct (Nat.ltb_spec (length contexts) (length out + 1)); [lia|].
  rewrite IH; [by rewrite <- app_assoc|lia|lia|]. rewrite length_app. cbn. lia.
Qed.

Lemma stack_spec e p : recorded e -> statement p -> stack e p = Some (reverse (p :: callers (S (ctx p)) (ctx p))).
Proof.
  intros Hr Hp%statement_lt. unfold stack. rewrite (recorded_length e Hr), stack_loop_spec; [|done|done|lia|cbn; lia]. cbn [fmap option_fmap option_map].
  do 2 f_equal. cbn [app]. f_equal. apply callers_fuel; lia.
Qed.

(** * Continue goes on *)

Lemma passed_recorded e e' k p : recorded e -> recorded e' -> passed e k p = passed e' k p.
Proof. intros (_ & _ & _ & _ & _ & H & _) (_ & _ & _ & _ & _ & H' & _). unfold passed. by rewrite H, H'. Qed.

Lemma hit_moved e e' step k : moved e e' step -> hit e k <= hit e' k.
Proof.
  intros (_ & _ & H). unfold hit. destruct step as [l0|]; [|by destruct H as [_ ->]]. destruct H as (_ & _ & _ & ->).
  destruct (decide _); [|done]. cbn. unfold hit. lia.
Qed.

Lemma move_moved e c e' step : engine_ok e -> engine_move c e = Some (e', step) -> moved e e' step.
Proof. intros [Hr Hc] E. destruct (engine_moves c e Hr Hc) as (e1 & s1 & E1 & Hm). rewrite E in E1. by injection E1 as -> ->. Qed.

Lemma hit_grows e a e' step k : engine_ok e -> do_act e a = Some (e', step) -> hit e k <= hit e' k.
Proof.
  intros He. destruct a as [c|source t n lines]; cbn [do_act].
  - destruct (engine_move c e) as [[e1 s1]|] eqn:E; [|done]. cbn. intros [= <- <-]. eapply hit_moved, move_moved; done.
  - pose proof (set_user_breakpoints_spec source t n lines e (proj1 He)) as H. destruct (set_user_breakpoints _ _ _ _ _) as [e1 out].
    cbn. intros [= <- <-]. destruct H as (_ & _ & _ & _ & H). unfold hit. rewrite H. destruct (hits e !! k); cbn; lia.
Qed.

(** Where Continue stops is the next unused occurrence of a breakpoint. *)
Lemma cont_stop e e' l : recorded e -> cont e = Some (e', Stopped l) ->
  exists k, k ∈ active_keys e /\ at_key k (stmts contexts) !! hit e k = Some (Replay.pos l).
Proof.
  intros Hr. unfold cont. pose proof (min_pos_spec (omap (unused e) (active_keys e))) as H. destruct (min_pos _) as [p|]; [|by intros [= _ ?]].
  destruct H as [(k & Hk & Hu)%list_elem_of_omap _]. intros E. exists k. split; [done|]. rewrite (unused_spec e k Hr) in Hu. unfold hit. rewrite Hu.
  unfold land in E. destruct (exception_at e !! ctx p); [|done]. by injection E as _ <-.
Qed.

(** A statement that Continue does not stop at any more. *)
Definition used (e : Engine) (p : Pos) : Prop := exists k, p ∈ at_key k (stmts contexts) /\ passed e k (Some p) <= hit e k.

Lemma used_grows e a e' step p : engine_ok e -> engine_ok e' -> do_act e a = Some (e', step) -> used e p -> used e' p.
Proof.
  intros He He' E (k & Hk & Hle). exists k. split; [done|]. rewrite (passed_recorded e' e k _ (proj1 He') (proj1 He)).
  pose proof (hit_grows e a e' step k He E). lia.
Qed.

Lemma at_key_hit e k p : recorded e -> at_key k (stmts contexts) !! hit e k = Some p -> hit e k < passed e k (Some p).
Proof.
  intros Hr H. rewrite (passed_spec e k _ Hr). apply (partition_point_spec p _ _ p (occurrence_sorted k) H). by left.
Qed.

Lemma cont_unused e e' l : recorded e -> cont e = Some (e', Stopped l) -> ~ used e (Replay.pos l).
Proof.
  intros Hr (k & _ & H)%cont_stop (k' & Hk' & Hle); [|done]. assert (k = k') as <- by (eapply at_key_unique; [by eapply list_elem_of_lookup_2|done]).
  apply (at_key_hit e k _ Hr) in H. lia.
Qed.

Lemma cont_used e e' l : recorded e -> cont e = Some (e', Stopped l) -> used e' (Replay.pos l).
Proof.
  intros Hr E. pose proof (cont_stop e e' l Hr E) as (k & Hk & H). destruct (cont_moves e Hr) as (e1 & s1 & E1 & Hr' & _ & Hm).
  rewrite E in E1. injection E1 as <- <-. destruct Hm as (_ & _ & _ & Hh). exists k. split; [by eapply list_elem_of_lookup_2|].
  unfold hit. rewrite Hh, decide_True by done. change (default 0 (Some ?x)) with x. rewrite (passed_recorded e' e k _ Hr' Hr). lia.
Qed.

(** Where the Continues of a session stop. *)
Definition continue_stops (steps : list (act * option Step)) : list Pos :=
  omap (fun s => match s with (Move Continue, Some (Stopped l)) => Some (Replay.pos l) | _ => None end) steps.

Lemma session_unused e acts e' steps : engine_ok e -> session e acts = Some (e', steps) ->
  NoDup (continue_stops steps) /\ forall p, p ∈ continue_stops steps -> ~ used e p.
Proof.
  revert e steps. induction acts as [|a acts IH]; intros e steps He; cbn [session].
  - intros [= _ <-]. split; [constructor|]. by intros p ?%elem_of_nil.
  - destruct (do_act_ok e a He) as (e1 & step & Ea & He1 & _). rewrite Ea. cbn [mbind option_bind].
    destruct (session e1 acts) as [[e2 steps2]|] eqn:Es; [|done]. cbn. intros [= <- <-]. destruct (IH e1 steps2 He1 Es) as [Hn Hu].
    assert (forall p, p ∈ continue_stops steps2 -> ~ used e p) as Hu'.
    { intros p Hp Hused. apply (Hu p Hp). eapply (used_grows e a); done. }
    unfold continue_stops. cbn [omap list_omap]. destruct a as [[]|]; try done. destruct step as [[l0|]|]; try done. cbn in Ea.
    destruct (cont e) as [[ec sc]|] eqn:Ec; [|done]. cbn in Ea. injection Ea as -> ->. split.
    + constructor; [|done]. intros Hp. apply (Hu _ Hp). eapply cont_used; [apply He|done].
    + intros p [->|Hp]%elem_of_cons; [eapply cont_unused; [apply He|done]|by apply Hu'].
Qed.

(** The lines of a request contain those the source had. *)
Definition adds (e : Engine) (a : act) : Prop :=
  match a with
  | SetLines source t n lines => forall ks k, user e !! source = Some ks -> k ∈ ks -> k ∈ omap (set_key t n) lines
  | Move _ => True
  end.

Fixpoint only_adds (e : Engine) (acts : list act) : Prop :=
  match acts with
  | [] => True
  | a :: acts => adds e a /\ match do_act e a with Some (e', _) => only_adds e' acts | None => True end
  end.

(** Every line in force has its count of the statements passed. *)
Definition forward (e : Engine) : Prop :=
  (forall k, is_Some (hits e !! k) -> k ∈ active_keys e) /\
  (forall cur k, current e = Some cur -> k ∈ active_keys e -> is_Some (hits e !! k) /\ passed e k (Some cur) <= hit e k).

Lemma forward_move e e' step : engine_ok e -> recorded e' -> moved e e' step -> forward e -> forward e'.
Proof.
  intros [Hr _] Hr' Hm [H1 H2]. pose proof (moved_active _ _ _ Hr Hm) as Ha. unfold forward. rewrite Ha. destruct Hm as (_ & _ & Hm).
  destruct step as [l0|].
  - destruct Hm as (_ & Hc & _ & Hh). split.
    + intros k. rewrite Hh. destruct (decide (k ∈ active_keys e)); [done|by apply H1].
    + intros cur k. rewrite Hc. intros [= <-] Hk. unfold hit at 1. rewrite Hh, decide_True by done. change (default 0 (Some ?x)) with x. split; [done|].
      rewrite (passed_recorded e' e k _ Hr' Hr). lia.
  - destruct Hm as [Hc Hh]. rewrite Hc, Hh. split; [done|by intros]. 
Qed.

Lemma forward_set source t n lines e : engine_ok e -> adds e (SetLines source t n lines) -> forward e ->
  forward (fst (set_user_breakpoints source t n lines e)).
Proof.
  intros [Hr _] Hadd [H1 H2]. pose proof (set_user_breakpoints_spec source t n lines e Hr) as H. destruct (set_user_breakpoints _ _ _ _ _) as [e' out].
  cbn [fst]. destruct H as (Hr' & Hu & Hc & _ & Hh).
  assert (forall k, k ∈ active_keys e -> k ∈ active_keys e') as Hmono.
  { intros k. rewrite !active_keys_elem. destruct Hr as (_ & _ & _ & _ & _ & _ & -> & _), Hr' as (_ & _ & _ & _ & _ & _ & -> & _).
    intros [?|(src & ks & Hs & Hk)]; [by left|right]. rewrite Hu. destruct (decide (source = src)) as [->|Hne].
    - exists src, (omap (set_key t n) lines). split; [by rewrite lookup_insert_eq|]. by eapply Hadd.
    - exists src, ks. by rewrite lookup_insert_ne. }
  assert (forall k, k ∈ omap (set_key t n) lines -> k ∈ active_keys e') as Hnew.
  { intros k Hk. apply active_keys_elem. right. exists source, (omap (set_key t n) lines). by rewrite Hu, lookup_insert_eq. }
  assert (forall k, k ∈ active_keys e' -> k ∈ active_keys e \/ k ∈ omap (set_key t n) lines) as Hold.
  { intros k. rewrite !active_keys_elem. destruct Hr as (_ & _ & _ & _ & _ & _ & -> & _), Hr' as (_ & _ & _ & _ & _ & _ & -> & _).
    intros [?|(src & ks & Hs & Hk)]; [by left; left|]. rewrite Hu in Hs. destruct (decide (source = src)) as [->|Hne].
    - rewrite lookup_insert_eq in Hs. injection Hs as <-. by right.
    - rewrite lookup_insert_ne in Hs by done. left. right. by exists src, ks. }
  split.
  - intros k. rewrite Hh. destruct (hits e !! k) eqn:E; [intros _; apply Hmono, H1; by rewrite E|]. destruct (decide _); [by intros; apply Hnew|by intros []].
  - intros cur k Hcur Hk. rewrite Hc in Hcur. unfold hit. rewrite Hh, (passed_recorded e' e k _ Hr' Hr). destruct (hits e !! k) as [h|] eqn:E.
    + assert (k ∈ active_keys e) as Hk' by (apply H1; by rewrite E). destruct (H2 cur k Hcur Hk') as [_ H3]. unfold hit in H3. rewrite E in H3. done.
    + destruct (Hold k Hk) as [Hk'|Hk']; [destruct (H2 cur k Hcur Hk') as [[? E'] _]; congruence|]. rewrite decide_True by done. rewrite Hcur. done.
Qed.

Lemma session_forward e acts e' steps : engine_ok e -> forward e -> only_adds e acts -> session e acts = Some (e', steps) -> forward e'.
Proof.
  revert e steps. induction acts as [|a acts IH]; intros e steps He Hf; cbn [session only_adds]; [by intros _ [= <- _]|].
  destruct (do_act_ok e a He) as (e1 & step & Ea & He1 & _). rewrite Ea. cbn [mbind option_bind]. intros [Hadd Hrest].
  destruct (session e1 acts) as [[e2 steps2]|] eqn:Es; [|done]. cbn. intros [= <- <-]. apply (IH e1 steps2 He1); [|done|done].
  destruct a as [c|source t n lines]; cbn [do_act] in Ea.
  - destruct (engine_move c e) as [[ec sc]|] eqn:Ec; [|done]. cbn in Ea. injection Ea as -> _.
    eapply (forward_move e e1 sc); [done|apply He1|by eapply move_moved|done].
  - injection Ea as <- _. by apply forward_set.
Qed.

Lemma forward_new : forward (new contexts).
Proof.
  unfold new. destruct (foldl _ _ _) as [[? ?] ?]. destruct (link_calls contexts). split; cbn; [|done]. intros k. rewrite lookup_empty. by intros [].
Qed.

Lemma forward_cont e e' l cur : recorded e -> forward e -> current e = Some cur -> cont e = Some (e', Stopped l) -> pos_lt cur (Replay.pos l).
Proof.
  intros Hr [_ H2] Hcur (k & Hk & H)%cont_stop; [|done]. destruct (H2 cur k Hcur Hk) as [_ Hle]. rewrite (passed_spec e k _ Hr) in Hle.
  pose proof (partition_point_spec cur _ _ _ (occurrence_sorted k) H) as Hp. pose proof (pos_cmp_spec cur (Replay.pos l)) as Hc.
  destruct (pos_cmp cur (Replay.pos l)); [|done|]; exfalso; [assert (hit e k < hit e k)|assert (hit e k < hit e k)]; try lia.
  - eapply Nat.lt_le_trans; [apply Hp; by left|done].
  - eapply Nat.lt_le_trans; [apply Hp; by right|done].
Qed.

(** * Leaving a call *)

Definition following (p : Pos) : Pos := {| ctx := ctx p; at_line := S (at_line p) |}.

Definition has_next (p : Pos) : bool := match contexts !! ctx p with Some x => S (at_line p) <? length (line_contexts x) | None => false end.

(** The entry method of a call. *)
Definition entry_of (c : nat) : nat := default c (ctx <$> last (callers (S c) c)).

Lemma callers_cons c s : parent_of contexts c = Some s -> callers (S c) c = s :: callers (S (ctx s)) (ctx s).
Proof.
  intros H. change (callers (S c) c) with (match parent_of contexts c with Some s => s :: callers c (ctx s) | None => [] end).
  rewrite H. f_equal. apply parent_before in H as [H _]. apply callers_fuel; lia.
Qed.

Lemma step_out_of_spec fuel c e : recorded e -> c < length contexts -> c < fuel ->
  step_out_of fuel c e = match List.find has_next (callers (S c) c) with
                         | Some s => land (following s) false e
                         | None => if entry_of c =? 0 then Some (end_ e) else start_over e
                         end.
Proof.
  intros Hr. revert c. induction fuel as [|fuel IH]; intros c Hc Hf; [lia|]. cbn [step_out_of].
  rewrite (recorded_parent e c Hr). destruct (decide (c < length contexts)) as [_|]; [|done]. cbn [mbind option_bind]. unfold entry_of.
  destruct (parent_of contexts c) as [s|] eqn:E; [|cbn [callers]; by rewrite E]. rewrite (callers_cons c s E). cbn [List.find].
  apply parent_before in E as (Hlt & x & l0 & Hx & Hl). unfold has_next at 1. rewrite Hx, (recorded_lens e (ctx s) Hr), Hx. cbn [fmap option_fmap option_map mbind option_bind].
  destruct (S (at_line s) <? length (line_contexts x)); [done|]. rewrite IH by lia. destruct (List.find _ _); [done|].
  unfold entry_of. rewrite last_cons. by destruct (last (callers _ _)).
Qed.

Lemma reverse_app_last {A} (l : list A) a : last (reverse (a :: l)) = Some a.
Proof. rewrite reverse_cons. by rewrite last_snoc. Qed.

(** The frames of a stack call each other. *)
Lemma callers_linked fuel c i a b : c < fuel -> (c :: (ctx <$> callers fuel c)) !! i = Some a -> callers fuel c !! i = Some b ->
  parent_of contexts a = Some b.
Proof.
  revert c i. induction fuel as [|fuel IH]; intros c i Hf; [lia|]. cbn [callers]. destruct (parent_of contexts c) as [s|] eqn:E; [|done].
  destruct i as [|i]; cbn; [by intros [= <-] [= <-]|]. apply parent_before in E as [E _]. apply IH. lia.
Qed.

Lemma callers_entry fuel c : c < fuel -> parent_of contexts (default c (ctx <$> last (callers fuel c))) = None.
Proof.
  revert c. induction fuel as [|fuel IH]; intros c Hf; [lia|]. cbn [callers]. destruct (parent_of contexts c) as [s|] eqn:E; [|done].
  pose proof E as [E' _]%parent_before. rewrite last_cons. specialize (IH (ctx s) ltac:(lia)). by destruct (last (callers fuel (ctx s))).
Qed.

(** The nearest earlier context whose frames are those of [c] without the
    first. *)
Definition nearest_caller (c d : nat) : Prop :=
  exists y x, contexts !! c = Some y /\ contexts !! d = Some x /\ 1 < length (chain y) /\ d < c /\ chain x = drop 1 (chain y) /\
    forall d' z, d < d' < c -> contexts !! d' = Some z -> chain z <> drop 1 (chain y).

Lemma rfind_seq (f : nat -> bool) n d : rfind f (seq 0 n) = Some d <-> d < n /\ f d = true /\ forall d', d < d' < n -> f d' = false.
Proof.
  induction n as [|n IH]; [split; [done|lia]|]. rewrite seq_S, rfind_snoc. cbn [Nat.add]. destruct (f n) eqn:E; [|rewrite IH].
  - split; [intros [= <-]; split_and!; [lia|done|lia]|]. intros (H1 & H2 & H3). f_equal. destruct (decide (n = d)) as [|Hne]; [done|].
    rewrite H3 in E; [done|lia].
  - split; intros (H1 & H2 & H3); split_and!; try lia; try done.
    + intros d' Hd. destruct (decide (d' = n)) as [->|]; [done|]. apply H3. lia.
    + destruct (decide (d = n)) as [->|]; [congruence|lia].
    + intros d' Hd. apply H3. lia.
Qed.

Lemma caller_of_spec c d : c < length contexts -> caller_of contexts c = Some d <-> nearest_caller c d.
Proof.
  intros [y Hy]%lookup_lt_is_Some_2. unfold caller_of, nearest_caller. rewrite Hy. cbn [mbind option_bind].
  assert (forall d', d' < c -> exists z, contexts !! d' = Some z) as Hlt.
  { intros d' Hd. apply lookup_lt_is_Some_2. apply lookup_lt_Some in Hy. lia. }
  destruct (Nat.ltb_spec 1 (length (chain y))) as [H|H]; [|split; [done|intros (y' & x & [= <-] & _ & ? & _); lia]].
  rewrite rfind_seq. unfold has_chain. split.
  - intros (H1 & H2 & H3). destruct (Hlt d H1) as [x Hx]. rewrite Hx in H2. apply bool_decide_eq_true in H2. exists y, x. split_and!; try done.
    intros d' z Hd Hz Heq. specialize (H3 d' Hd). rewrite Hz, bool_decide_eq_true_2 in H3 by done. done.
  - intros (y' & x & [= <-] & Hx & _ & H1 & H2 & H3). split_and!; [done| |].
    + rewrite Hx. by apply bool_decide_eq_true.
    + intros d' Hd. destruct (Hlt d') as [z Hz]; [lia|]. rewrite Hz. apply bool_decide_eq_false. by eapply H3.
Qed.

Lemma line_indexes_elem f lines i l : lines !! i = Some l -> f l = true -> i ∈ line_indexes f lines.
Proof.
  intros H Hf. unfold line_indexes. apply list_elem_of_In, List.filter_In. rewrite H. split; [|done]. apply in_seq.
  apply lookup_lt_Some in H. lia.
Qed.

Lemma call_site_none caller c x y fr : contexts !! caller = Some x -> contexts !! c = Some y -> frames y !! 1 = Some fr ->
  call_site contexts caller c = None -> forall l, l ∈ line_contexts x -> line (from (statement_span l)) <> line (from (frame_span fr)).
Proof.
  unfold call_site. intros Hx Hy Hf. rewrite Hx, Hy. cbn [mbind option_bind]. rewrite Hf. cbn [mbind option_bind].
  set (same := match line_indexes (same_start _) _ with [] => _ | _ => _ end). intros H lc [i Hi]%list_elem_of_lookup Heq.
  assert (i ∈ line_indexes (same_line (frame_span fr)) (line_contexts x)) as Hin.
  { eapply line_indexes_elem; [done|]. by apply Z.eqb_eq. }
  destruct (rfind _ same); [done|]. destruct same as [|j same'] eqn:Es; [|done]. unfold same in Es.
  destruct (line_indexes (same_start _) _); [|done]. rewrite Es in Hin. by apply elem_of_nil in Hin.
Qed.
End replay.

(** The lines of a request that name a recorded statement. *)
Lemma set_key_spec contexts t n l k : set_key contexts t n l = Some k <->
  k = {| key_type := t; key_number := n; key_line := (l - 1)%Z |} /\ (0 <= l - 1 < 65536)%Z /\
  exists p c lc, contexts !! ctx p = Some c /\ line_contexts c !! at_line p = Some lc /\ line_key c lc = k.
Proof.
  unfold set_key, user_key.
  destruct (Z.leb_spec 0 (l - 1)), (Z.ltb_spec (l - 1) 65536); cbn [andb mbind option_bind]; try (split; [done|intros (_ & ? & _); lia]).
  set (k0 := {| key_type := t |}). destruct (at_key k0 (stmts contexts)) as [|p ps] eqn:E.
  - rewrite bool_decide_eq_true_2 by done. split; [done|]. intros (-> & _ & p & c & lc & Hc & Hl & Hk). exfalso.
    assert (p ∈ at_key k0 (stmts contexts)) as Hp by (apply at_key_elem; exists c, lc; split; [by apply elem_of_stmts|done]).
    rewrite E in Hp. by apply elem_of_nil in Hp.
  - rewrite bool_decide_eq_false_2 by done. split; [|by intros (-> & _)]. intros [= <-]. split_and!; [done|lia|lia|].
    assert (p ∈ at_key k0 (stmts contexts)) as (c & lc & Hin & Hk)%at_key_elem by (rewrite E; by left).
    apply elem_of_stmts in Hin as [Hc Hl]. by exists p, c, lc.
Qed.
