(* ===== verification/ReplayRunSpec.v ===== *)
(** What the engine promises over whole sessions: Continue visits the
    breakpoints in order and goes on, and calls are linked to the statements that
    made them. *)

From Stdlib Require Import ZArith Lia Sorting.Sorted.
From stdpp Require Import base tactics numbers option list gmap sorting strings.
From S2P Require Import Prelude RustStr Snapshots Replay ReplayFacts ReplaySpec.

#[local] Open Scope nat_scope.

(** * The promises *)

Lemma new_current contexts : current (new contexts) = None.
Proof. unfold new. destruct (foldl _ _ _) as [[? ?] ?]. by destruct (link_calls contexts). Qed.

(** Breakpoints before the replay starts. *)
Definition set_all (contexts : list MethodContext) (sets : list (str * Z * Z * list Z)) : Engine :=
  foldl (fun e '(source, t, n, lines) => fst (set_user_breakpoints source t n lines e)) (new contexts) sets.

Lemma set_all_fresh contexts sets :
  recorded contexts (set_all contexts sets) /\ current (set_all contexts sets) = None /\ forall k, hit (set_all contexts sets) k = 0.
Proof.
  unfold set_all. assert (forall e, recorded contexts e /\ current e = None /\ (forall k, hit e k = 0) ->
    let e' := foldl (fun e '(source, t, n, lines) => fst (set_user_breakpoints source t n lines e)) e sets in
    recorded contexts e' /\ current e' = None /\ forall k, hit e' k = 0) as H.
  { induction sets as [|[[[source t] n] lines] sets IH]; intros e He; [done|]. cbn [foldl]. apply IH. destruct He as (Hr & Hc & Hh).
    pose proof (set_user_breakpoints_spec contexts source t n lines e Hr) as H. destruct (set_user_breakpoints _ _ _ _ _) as [e' out]. cbn [fst].
    destruct H as (H1 & _ & H3 & _ & H5). rewrite H3, Hc. split_and!; [done|done|]. intros k. specialize (Hh k). unfold hit in *. rewrite H5.
    destruct (hits e !! k); [done|]. rewrite Hc. by destruct (decide _). }
  apply H. split_and!; [apply recorded_new|apply new_current|]. intros k. unfold hit, new. destruct (foldl _ _ _) as [[? ?] ?].
  destruct (link_calls contexts). cbn. by rewrite lookup_empty.
Qed.

(** Continue visits the breakpoints.  From the start of a recording, with
    any user breakpoints set, continuing until the end stops at every recorded
    statement whose line is a breakpoint, the snapshot's own or the user's, at
    each exactly once and in the order they were recorded, and nowhere else;
    and it does end, within one Continue more than there are statements. *)
Lemma continue_visits_breakpoints contexts sets :
  let e := set_all contexts sets in
  continue_all (S (length (stmts contexts))) e = Some (spos <$> List.filter (active e) (stmts contexts)) /\
  NoDup (spos <$> stmts contexts) /\
  (forall p, p ∈ spos <$> stmts contexts <-> statement contexts p) /\
  (forall s, active e s = true <-> skey s ∈ snappoints (new contexts) \/
     exists source ks, user e !! source = Some ks /\ skey s ∈ ks).
Proof.
  intros e. destruct (set_all_fresh contexts sets) as (Hr & Hc & Hh). split_and!.
  - apply (continue_all_spec contexts _ _ [] (stmts contexts)); [done|done| |lia]. intros k _. apply Hh.
  - apply sorted_nodup, stmts_sorted.
  - intros p. rewrite statement_stmts, list_elem_of_fmap. split; [intros ([[q c] lc] & -> & H); by exists c, lc|].
    intros (c & lc & H). by exists (p, c, lc).
  - intros s. unfold active. rewrite bool_decide_eq_true, active_keys_elem. destruct Hr as (_ & _ & _ & _ & _ & _ & Hs & _). fold e in Hs. by rewrite Hs.
Qed.

(** Continue goes on.  In any session, whatever steps and breakpoint
    requests it is mixed with, Continue never stops twice at the same
    statement.  When no request takes a line away, Continue from a statement
    stops after it. *)
Lemma continue_goes_on contexts acts :
  match session (new contexts) acts with
  | Some (e, steps) =>
      NoDup (continue_stops steps) /\
      (only_adds contexts (new contexts) acts ->
       forall cur e' l, current e = Some cur -> cont e = Some (e', Stopped l) -> pos_lt cur (Replay.pos l))
  | None => False
  end.
Proof.
  pose proof (engine_ok_new contexts) as He. destruct (session_ok contexts _ acts He) as (e & steps & E & [Hr Hc] & _). rewrite E. split.
  - by destruct (session_unused contexts _ _ _ _ He E).
  - intros Ha cur e' l Hcur Hcont. eapply (forward_cont contexts e e'); [done| |done|done].
    eapply session_forward; [done|apply forward_new|done|done].
Qed.

(** C14: Continue visits the breakpoints and goes on.  From the start of a
    recording, with any user breakpoints set, continuing until the end stops at
    every recorded statement whose line is a breakpoint, the snapshot's own or
    the user's, at each exactly once and in the order they were recorded, and
    nowhere else; and it does end, within one Continue more than there are
    statements.  In any session, whatever steps and breakpoint requests it is
    mixed with, Continue never stops twice at the same statement, and when no
    request takes a line away, Continue from a statement stops after it. *)
Theorem continue_exact contexts :
  (forall sets, let e := set_all contexts sets in
    continue_all (S (length (stmts contexts))) e = Some (spos <$> List.filter (active e) (stmts contexts)) /\
    NoDup (spos <$> stmts contexts) /\
    (forall p, p ∈ spos <$> stmts contexts <-> statement contexts p) /\
    (forall s, active e s = true <-> skey s ∈ snappoints (new contexts) \/
       exists source ks, user e !! source = Some ks /\ skey s ∈ ks)) /\
  (forall acts, match session (new contexts) acts with
    | Some (e, steps) =>
        NoDup (continue_stops steps) /\
        (only_adds contexts (new contexts) acts ->
         forall cur e' l, current e = Some cur -> cont e = Some (e', Stopped l) -> pos_lt cur (Replay.pos l))
    | None => False
    end).
Proof. exact (conj (continue_visits_breakpoints contexts) (continue_goes_on contexts)). Qed.

(** Calls are linked to the statements that made them.  The caller of a
    context is the nearest earlier one whose frames are its own without the
    first, and its call site is a statement of that caller on the line the
    caller's frame was recorded at; there is no call site only when there is no
    such context, or none of its statements is on that line.  The calls made
    at a statement are the contexts with that call site, in recorded order. *)
Lemma call_links_exact contexts :
  (forall c y, contexts !! c = Some y ->
    match parent (new contexts) !! c with
    | Some (Some s) => nearest_caller contexts c (ctx s) /\ exists x lc fr,
        contexts !! ctx s = Some x /\ line_contexts x !! at_line s = Some lc /\ frames y !! 1 = Some fr /\
        line (from (statement_span lc)) = line (from (frame_span fr))
    | Some None => forall d x fr, nearest_caller contexts c d -> contexts !! d = Some x -> frames y !! 1 = Some fr ->
        forall lc, lc ∈ line_contexts x -> line (from (statement_span lc)) <> line (from (frame_span fr))
    | None => False
    end) /\
  (forall p, default [] (callees (new contexts) !! p) =
    List.filter (fun c => bool_decide (parent (new contexts) !! c = Some (Some p))) (seq 0 (length contexts))).
Proof.
  pose proof (recorded_new contexts) as Hr. split.
  - intros c y Hy. rewrite (recorded_parent _ _ c Hr). pose proof (lookup_lt_Some _ _ _ Hy) as Hlt.
    destruct (decide (c < length contexts)) as [_|]; [|done]. unfold parent_of. destruct (caller_of contexts c) as [d|] eqn:Ed; cbn [mbind option_bind].
    + apply (caller_of_spec _ _ _ Hlt) in Ed. destruct (call_site contexts d c) as [s|] eqn:Es.
      * apply call_site_statement in Es as (-> & x & y' & fr & lc & H1 & H2 & H3 & H4 & H5). rewrite Hy in H2. injection H2 as <-.
        split; [done|]. by exists x, lc, fr.
      * intros d' x fr Hd' Hx Hf. apply (caller_of_spec _ _ _ Hlt) in Hd', Ed. rewrite Ed in Hd'. injection Hd' as <-. exact (call_site_none _ _ _ _ _ _ Hx Hy Hf Es).
    + intros d x fr Hd. apply (caller_of_spec _ _ _ Hlt) in Hd. congruence.
  - intros p. rewrite (recorded_callees _ _ p Hr). apply List.filter_ext_in. intros c [_ Hc]%in_seq. rewrite (recorded_parent _ _ c Hr).
    rewrite decide_True by lia. apply bool_decide_ext. split; [by intros ->|by intros [= ->]].
Qed.

Lemma callers_lt contexts fuel c q : q ∈ callers contexts fuel c -> ctx q < c.
Proof.
  revert c. induction fuel as [|fuel IH]; intros c; cbn [callers]; [by intros ?%elem_of_nil|].
  destruct (parent_of contexts c) as [s|] eqn:E; [|by intros ?%elem_of_nil]. apply parent_before in E as [E _].
  intros [->|H%IH]%elem_of_cons; lia.
Qed.

Lemma reverse_adjacent {A} (l : list A) i a b : reverse l !! i = Some a -> reverse l !! S i = Some b ->
  exists j, l !! j = Some b /\ l !! S j = Some a.
Proof.
  intros Ha Hb. pose proof (lookup_lt_Some _ _ _ Hb) as Hlt. rewrite length_reverse in Hlt.
  rewrite reverse_lookup in Ha, Hb by lia. exists (length l - S (S i)). split; [done|]. by replace (S (length l - S (S i))) with (length l - S i) by lia.
Qed.

(** The call stack is complete and stepping out follows it.  At a recorded
    statement the stack ends with the statement, each other position is the call
    site of the next one's context, and it begins in a context that nothing
    called; it is never cut.  Stepping out lands on the statement after the
    innermost call site that has one, and when none has, ends the replay if the
    entry method is the first context and starts over if it is not. *)
Lemma stack_exact contexts acts p :
  statement contexts p ->
  exists e steps out, session (new contexts) acts = Some (e, steps) /\
    stack e p = Some out /\ last out = Some p /\
    (forall i a b, out !! i = Some a -> out !! S i = Some b -> parent (new contexts) !! ctx b = Some (Some a)) /\
    (forall a, head out = Some a -> parent (new contexts) !! ctx a = Some None) /\
    leave (ctx p) e =
      match List.find (has_next contexts) (drop 1 (reverse out)) with
      | Some s => land (following s) false e
      | None => if ctx (default p (head out)) =? 0 then Some (end_ e) else start_over e
      end.
Proof.
  intros Hp. destruct (session_ok contexts _ acts (engine_ok_new contexts)) as (e & steps & E & [Hr _] & _).
  pose proof (statement_lt _ _ Hp) as Hlt. set (cs := callers contexts (S (ctx p)) (ctx p)).
  exists e, steps, (reverse (p :: cs)). pose proof (recorded_new contexts) as Hn.
  assert (forall q, q ∈ p :: cs -> parent (new contexts) !! ctx q = Some (parent_of contexts (ctx q))) as Hpar.
  { intros q Hq. rewrite (recorded_parent _ _ _ Hn), decide_True; [done|]. apply elem_of_cons in Hq as [->|Hq%callers_lt]; lia. }
  assert (head (reverse (p :: cs)) = Some (default p (last cs))) as Hh by (rewrite head_reverse, last_cons; by destruct (last cs)).
  split_and!; [done|by apply stack_spec|apply reverse_app_last| | |].
  - intros i a b Ha Hb. destruct (reverse_adjacent _ _ _ _ Ha Hb) as (j & Hj & Hj'). rewrite (Hpar b) by by eapply list_elem_of_lookup_2.
    f_equal. eapply (callers_linked contexts (S (ctx p)) (ctx p) j); [lia| |exact Hj']. change (ctx <$> p :: cs) with (ctx p :: (ctx <$> cs)).
    fold cs. destruct j as [|j]; [by injection Hj as ->|].
    change ((ctx <$> cs) !! j = Some (ctx b)). rewrite list_lookup_fmap. change (cs !! j = Some b) in Hj. by rewrite Hj.
  - intros a. rewrite Hh. intros [= <-]. rewrite Hpar.
    + f_equal. pose proof (callers_entry contexts (S (ctx p)) (ctx p) ltac:(lia)) as H. fold cs in H. by destruct (last cs).
    + destruct (last cs) as [q|] eqn:El; [right; by apply last_Some_elem_of|by left].
  - rewrite reverse_involutive, Hh. cbn [drop]. unfold leave. rewrite (step_out_of_spec contexts _ _ _ Hr Hlt) by (rewrite (recorded_length _ _ Hr); lia).
    fold cs. unfold entry_of. fold cs. by destruct (last cs).
Qed.

(** C17: Calls are linked to the statements that made them, and the call stack
    follows the links.  The caller of a context is the nearest earlier one whose
    frames are its own without the first, and its call site is a statement of
    that caller on the line the caller's frame was recorded at; there is no call
    site only when there is no such context, or none of its statements is on
    that line.  The calls made at a statement are the contexts with that call
    site, in recorded order.  At a recorded statement the stack ends with the
    statement, each other position is the call site of the next one's context,
    and it begins in a context that nothing called; it is never cut.  Stepping
    out lands on the statement after the innermost call site that has one, and
    when none has, ends the replay if the entry method is the first context and
    starts over if it is not. *)
Theorem calls_exact contexts :
  ((forall c y, contexts !! c = Some y ->
      match parent (new contexts) !! c with
      | Some (Some s) => nearest_caller contexts c (ctx s) /\ exists x lc fr,
          contexts !! ctx s = Some x /\ line_contexts x !! at_line s = Some lc /\ frames y !! 1 = Some fr /\
          line (from (statement_span lc)) = line (from (frame_span fr))
      | Some None => forall d x fr, nearest_caller contexts c d -> contexts !! d = Some x -> frames y !! 1 = Some fr ->
          forall lc, lc ∈ line_contexts x -> line (from (statement_span lc)) <> line (from (frame_span fr))
      | None => False
      end) /\
    (forall p, default [] (callees (new contexts) !! p) =
      List.filter (fun c => bool_decide (parent (new contexts) !! c = Some (Some p))) (seq 0 (length contexts)))) /\
  (forall acts p,
    statement contexts p ->
      exists e steps out, session (new contexts) acts = Some (e, steps) /\
        stack e p = Some out /\ last out = Some p /\
        (forall i a b, out !! i = Some a -> out !! S i = Some b -> parent (new contexts) !! ctx b = Some (Some a)) /\
        (forall a, head out = Some a -> parent (new contexts) !! ctx a = Some None) /\
        leave (ctx p) e =
          match List.find (has_next contexts) (drop 1 (reverse out)) with
          | Some s => land (following s) false e
          | None => if ctx (default p (head out)) =? 0 then Some (end_ e) else start_over e
          end).
Proof. exact (conj (call_links_exact contexts) (stack_exact contexts)). Qed.

(** * A recording *)

Definition a_span (l : Z) : SourceSpan := {| from := {| line := l; column := 4 |}; to := {| line := l; column := 20 |} |}.
Definition a_frame (m : str) (n l : Z) : StackFrame :=
  {| method_name := m; frame_id := {| object_type := CodeUnit; number := n |}; frame_object := []; frame_span := a_span l |}.
Definition a_context (i n : Z) (fs : list StackFrame) (lines : list Z) : MethodContext :=
  {| index := i; id := {| object_type := CodeUnit; number := n |}; context_method := lit "M"; exception := None; frames := fs;
     line_contexts := (fun l => {| ordinal := l; statement_span := a_span l; variables := []; timestamp := l |}) <$> lines;
     execution_span := {| start_time := 11; end_time := 20 |}; app := None;
     is_builtin_code_unit_call := false; is_incomplete_measurement := false |}.

(** [OnRun] of codeunit 1 calls [Post] of codeunit 2 from its second line. *)
Definition a_recording : list MethodContext :=
  [a_context 0 1 [a_frame (lit "OnRun") 1 10] [10; 11; 12; 13];
   a_context 1 2 [a_frame (lit "Post") 2 4; a_frame (lit "OnRun") 1 11] [4; 5]]%Z.

Lemma calls_exact_witness :
  exists e steps out, session (new a_recording) [Move Continue] = Some (e, steps) /\ stack e {| ctx := 1; at_line := 1 |} = Some out /\
    out = [{| ctx := 0; at_line := 1 |}; {| ctx := 1; at_line := 1 |}].
Proof.
  assert (statement a_recording {| ctx := 1; at_line := 1 |}) as Hp by (eexists _, _; by split).
  destruct (proj2 (calls_exact a_recording) [Move Continue] _ Hp) as (e & steps & out & E & H & _).
  exists e, steps, out. split_and!; [exact E|exact H|].
  assert (session (new a_recording) [Move Continue] = Some (e, steps)) as E' by exact E.
  vm_compute in E'. injection E' as <- _. vm_compute in H. by injection H as <-.
Defined.

(** A line taken away, passed and set again: Continue from the statement after
    it goes back to it, though the statements passed are not to stop it. *)
Definition back_to_a_passed_line : list act :=
  let set lines := SetLines (lit "a.al") 5 1 lines in
  [set [11; 13]; Move ConfigurationDone; set [11]; Move Next; Move Next; Move Next; set [11; 13]; Move Continue]%Z.

Definition stops_at (acts : list act) : list nat :=
  match session (new a_recording) acts with
  | Some (_, steps) => omap (fun s => match s with (Move _, Some (Stopped l)) => Some (at_line (Replay.pos l)) | _ => None end) steps
  | None => []
  end.

Example a_line_set_again_stops_behind : stops_at back_to_a_passed_line = [0; 1; 2; 3; 2].
Proof. vm_compute. reflexivity. Qed.

(** Continue over both breakpoints of the user. *)
Example the_users_lines :
  continue_all 7 (set_all a_recording [(lit "a.al", 5, 1, [11; 13])]%Z) = Some [{| ctx := 0; at_line := 0 |}; {| ctx := 0; at_line := 2 |}].
Proof. vm_compute. reflexivity. Qed.
