(* ===== verification/ReplayProtocol.v ===== *)
(** The messages of a snapshot replay: [ReplaySession::handle] and what it
    calls ([al-dap/src/dap/native_dap/replay/mod.rs]).

    A message is the record of the JSON object that is sent.  The arguments of
    a request are what [serde_json] finds at the places the code reads.  [None]
    is a panic: an index out of range, or the unchecked sum of [stack_trace]. *)

From Stdlib Require Import ZArith Lia.
From stdpp Require Import base tactics numbers option list gmap strings.
From S2P Require Import Prelude RustStr StrSearch TextLines Snapshots ReplaySources Replay.

#[local] Open Scope Z_scope.

(** * Messages *)

Record SourceJson := { source_name : str; source_path : str }.
Record DapFrame := { dap_id : nat; dap_name : str; dap_line : Z; dap_column : Z; dap_end_line : Z; dap_end_column : Z; dap_source : option SourceJson }.
Record DapVariable := { var_name : str; var_value : str; var_reference : Z; var_type : option str }.
Record DapBreakpoint := { bp_id : Z; bp_verified : bool; bp_path : str; bp_line : Z }.
Record DapSnappoint := { sp_id : Z; sp_source : SourceJson; sp_line : Z }.

Inductive Body :=
  | AllThreadsContinued
  | Threads (id : Z) (name : str)
  | StackFrames (frames : list DapFrame) (total : nat)
  | Scopes (scopes : list (str * Z))
  | Variables (variables : list DapVariable)
  | Evaluated (result : str) (reference : Z) (type : option str)
  | Breakpoints (breakpoints : list DapBreakpoint).

Inductive EventBody :=
  | Output (text : str)
  | StoppedAt (reason : str)
  | Terminated (restart : option bool)
  | UpdateSnappoints (breakpoints : list DapSnappoint).

Inductive Payload :=
  | Response (request_seq : Z) (command : str) (success : bool) (body : option Body) (message : option str)
  | Event (body : EventBody).

Record Message := { seq : Z; payload : Payload }.
Record Reply := { messages : list Message; done_ : bool }.

(** The messages of a request and the shared counter, which numbers each. *)
Definition Outbox : Type := list Message * Z.
Definition send (p : Payload) (o : Outbox) : Outbox := let '(ms, n) := o in (ms ++ [{| seq := n; payload := p |}], n + 1).

Definition THREAD_ID : Z := 1.
Definition THREAD_NAME : str := lit "Session Id".
Definition EMPTY_NODE_TEXT : str := lit "Variable information is only available on snappoints.".
Definition NO_FRAMES_TEXT : str := lit "No available frames have been found. Starting from the first recorded frame." ++ [10].
Definition END_TEXT : str := lit "No more frames are available." ++ [10].

(** The arguments of a request. *)
Record Args := {
  frame_id_arg : option Z;
  reference_arg : option Z;
  expression_arg : option str;
  start_frame_arg : option Z;
  levels_arg : option Z;
  path_arg : option str;
  breakpoints_arg : option (list (option Z));
  lines_arg : option (list (option Z));
}.

(** * Sources *)

Definition source_json (s : ReplaySession) (object_type : ObjectType) (number : Z) (name : str) : option SourceJson :=
  path ← files s !! (object_type, number); Some {| source_name := name; source_path := path |}.

Definition snappoint (s : ReplaySession) (k : LineKey) : DapSnappoint :=
  let t := from_i8 (key_type k) in
  let stem := file_name t (key_number k) in
  {| sp_id := default 0 (ids s !! k);
     sp_source := {| source_name := default stem (strip_suffix (lit ".al") stem); source_path := default [] (files s !! (t, key_number k)) |};
     sp_line := key_line k |}.

Definition snappoints_event (s : ReplaySession) (o : Outbox) : Outbox := send (Event (UpdateSnappoints (snappoint s <$> listed (engine s)))) o.

Section protocol.
(** The workspace's index: the object at a line of a file. *)
Context (resolve : str -> Z -> option (Z * Z)).

(** [i8::try_from]. *)
Definition as_i8_checked (v : Z) : option Z := if (-128 <=? v) && (v <=? 127) then Some v else None.

(** The entries of a [HashMap] have no order of their own. *)
Definition object_of_path (s : ReplaySession) (path : str) (line : Z) : option (Z * Z) :=
  if path_starts_with path (sources_dir s) then
    name ← path_file_name path;
    '(t, n) ← object_of_file_name name;
    Some (as_i8 t, n)
  else
    match resolve path line with
    | Some (t, n) => t ← as_i8_checked t; Some (t, n)
    | None =>
        '((t, n), _) ← List.find (fun f => path_eqb (snd f) path) (map_to_list (files s));
        Some (as_i8 t, n)
    end.

Definition present (l : list (option Z)) : list Z := omap (fun x : option Z => x) l.
Definition breakpoint_lines (args : Args) : list Z :=
  match breakpoints_arg args with
  | Some b => present b
  | None => match lines_arg args with Some l => present l | None => [] end
  end.

Definition dap_breakpoint (path : str) (line : Z) (answer : bool * Z) : DapBreakpoint :=
  {| bp_id := snd answer; bp_verified := fst answer; bp_path := path; bp_line := line |}.

Definition breakpoints_request (path : str) (lines : list Z) (s : ReplaySession) : ReplaySession * list DapBreakpoint :=
  let object := l ← head lines; object_of_path s path l in
  let '(s, out) := set_breakpoints object path lines s in
  (s, zip_with (dap_breakpoint path) lines out).

(** * Moves *)

Definition move_events (step : Step) (o : Outbox) : Outbox :=
  match step with
  | Stopped l =>
      let o := if start_over_ l then send (Event (Output NO_FRAMES_TEXT)) o else o in
      send (Event (StoppedAt (if exception_ l then lit "exception" else lit "step"))) o
  | Ended => send (Event (Terminated (Some false))) (send (Event (Output END_TEXT)) o)
  end.

(** The command of a move; [run] takes any other name for [stepOut]. *)
Definition command_of (command : str) : Command :=
  if str_is command "configurationDone" then ConfigurationDone
  else if str_is command "continue" then Continue
  else if str_is command "next" then Next
  else if str_is command "stepIn" then StepIn
  else StepOut.

(** * The stack *)

Definition dap_frame (s : ReplaySession) (i : nat) (name : str) (span : SourceSpan) (id : ObjectId) (object_name : str) : DapFrame :=
  {| dap_id := i; dap_name := name;
     dap_line := line (from span) + 1; dap_column := column (from span) + 1;
     dap_end_line := line (to span) + 1; dap_end_column := column (to span) + 1;
     dap_source := source_json s (object_type id) (number id) object_name |}.

Definition context_frame (s : ReplaySession) (ctx : MethodContext) (lc : LineContext) (i : nat) (f : StackFrame) : DapFrame :=
  match i with
  | O => dap_frame s O (match method_name f with [] => context_method ctx | name => name end) (statement_span lc) (frame_id f) (frame_object f)
  | _ => dap_frame s i (method_name f) (frame_span f) (frame_id f) (frame_object f)
  end.

Definition all_frames (s : ReplaySession) (ctx : MethodContext) (lc : LineContext) : list DapFrame :=
  match imap (context_frame s ctx lc) (frames ctx) with
  | [] => [dap_frame s O (context_method ctx) (statement_span lc) (id ctx) []]
  | frames => frames
  end.

Definition usize_limit : Z := 2 ^ 64.

Definition stack_trace (s : ReplaySession) (args : Args) : option Body :=
  match stop s with
  | None => Some (StackFrames [] 0)
  | Some stop =>
      ctx ← contexts (archive s) !! Replay.ctx (Replay.pos stop);
      lc ← line_contexts ctx !! at_line (Replay.pos stop);
      let frames := all_frames s ctx lc in
      let total := length frames in
      let start := Z.min (default 0 (start_frame_arg args)) (Z.of_nat total) in
      let levels := default 0 (levels_arg args) in
      stop ← if levels =? 0 then Some (Z.of_nat total)
             else if start + levels <? usize_limit then Some (Z.min (start + levels) (Z.of_nat total))
             else None;
      Some (StackFrames (take (Z.to_nat (stop - start)) (drop (Z.to_nat start) frames)) total)
  end.

(** * Variables *)

Definition text_variable (name value : str) : Var := mkVariable name value (lit "String") false [].
Definition empty_node : list Var := [text_variable (lit "EmptyNodeMessage") EMPTY_NODE_TEXT].

Definition variables_for (reference : Z) (s : ReplaySession) : option (list Var) :=
  if VARIABLE_BASE <=? reference then Some (default [] (handles s !! reference))
  else
    let group := Z.shiftr reference 16 in
    let frame := Z.land reference 65535 in
    if group =? 3 then Some []
    else
      match (if frame =? 0 then stop s else None) with
      | None => Some empty_node
      | Some stop =>
          ctx ← contexts (archive s) !! Replay.ctx (Replay.pos stop);
          lc ← line_contexts ctx !! at_line (Replay.pos stop);
          let message := if exception_ stop then message <$> exception ctx else None in
          if bool_decide (variables lc = []) && bool_decide (message = None) then Some empty_node
          else
            let '(locals, globals) := split_scopes (variables lc) in
            let locals := match message with Some m => locals ++ [text_variable (lit "_ALException") m] | None => locals end in
            Some (if group =? 1 then globals else locals)
      end.

Definition handle_for (v : Var) (s : ReplaySession) : ReplaySession * Z :=
  match children v with
  | [] => (s, 0)
  | vs => (set_handles (<[next_handle s := vs]> (handles s)) (next_handle s + 1) s, next_handle s)
  end.

Definition type_json (v : Var) : option str := match type_name v with [] => None | t => Some t end.

Definition render_one (st : ReplaySession * list DapVariable) (v : Var) : ReplaySession * list DapVariable :=
  let '(s, out) := st in
  let '(s, reference) := handle_for v s in
  (s, out ++ [{| var_name := name v; var_value := value v; var_reference := reference; var_type := type_json v |}]).

Definition render (vs : list Var) (s : ReplaySession) : ReplaySession * list DapVariable := foldl render_one (s, []) vs.

Definition LOCALS : Z := Z.shiftl 2 16.
Definition GLOBALS : Z := Z.shiftl 1 16.

(** The variable of a name: the outer [option] is a panic. *)
Definition find_variable (expr : str) (s : ReplaySession) : option (option Var) :=
  locals ← variables_for LOCALS s;
  globals ← variables_for GLOBALS s;
  Some (List.find (fun v => eq_ignore_ascii_case (name v) expr)
          (List.filter (fun v => negb (str_is (name v) "EmptyNodeMessage")) (locals ++ globals))).

Definition evaluate (expr : str) (s : ReplaySession) : option (ReplaySession * option Body) :=
  match expr with
  | [] => Some (s, None)
  | _ =>
      v ← find_variable expr s;
      Some match v with
           | Some v => let '(s, reference) := handle_for v s in (s, Some (Evaluated (value v) reference (type_json v)))
           | None => (s, None)
           end
  end.

Definition scopes (frame : Z) : list (str * Z) :=
  let frame := Z.land frame 65535 in
  [(lit "Globals", Z.lor (Z.shiftl 1 16) frame); (lit "Locals", Z.lor (Z.shiftl 2 16) frame); (lit "Database Statistics", Z.lor (Z.shiftl 3 16) frame)].

(** * Requests *)

Definition is_move (command : str) : bool :=
  str_is command "configurationDone" || str_is command "continue" || str_is command "next" || str_is command "stepIn" || str_is command "stepOut".

Definition reply (s : ReplaySession) (o : Outbox) (finished : bool) : option (ReplaySession * Z * option Reply) :=
  let '(ms, n) := o in Some (s, n, Some {| messages := ms; done_ := finished |}).

Definition handle (request_seq : Z) (command : str) (args : Args) (s : ReplaySession) (n : Z) : option (ReplaySession * Z * option Reply) :=
  let ok body := send (Response request_seq command true body None) ([], n) in
  if is_move command then
    let o := ok (if str_is command "continue" then Some AllThreadsContinued else None) in
    r ← run (command_of command) s;
    match r with
    | Some (e, step) => reply (arrive e step s) (move_events step o) false
    | None => reply s o false
    end
  else if str_is command "threads" then reply s (ok (Some (Threads THREAD_ID THREAD_NAME))) false
  else if str_is command "stackTrace" then body ← stack_trace s args; reply s (ok (Some body)) false
  else if str_is command "scopes" then reply s (ok (Some (Scopes (scopes (default 0 (frame_id_arg args)))))) false
  else if str_is command "variables" then
    vs ← variables_for (default 0 (reference_arg args)) s;
    let '(s, rendered) := render vs s in
    reply s (ok (Some (Variables rendered))) false
  else if str_is command "evaluate" then
    let expr := default [] (expression_arg args) in
    r ← evaluate (trim expr) s;
    let '(s, body) := r in
    match body with
    | Some body => reply s (ok (Some body)) false
    | None => reply s (send (Response request_seq command false None (Some (lit "Cannot evaluate '" ++ expr ++ lit "' in a snapshot replay"))) ([], n)) false
    end
  else if str_is command "setBreakpoints" then
    let path := default [] (path_arg args) in
    let '(s, bps) := breakpoints_request path (breakpoint_lines args) s in
    reply s (ok (Some (Breakpoints bps))) false
  else if str_is command "pause" then reply s (ok None) false
  else if str_is command "disconnect" || str_is command "terminate" then
    let o := ok None in
    reply s (if ended s then o else send (Event (Terminated None)) o) true
  else Some (s, n, None).

(** A request while a replay may be active; the last one ends it. *)
Definition dispatch_replay (request_seq : Z) (command : str) (args : Args) (session : option ReplaySession) (n : Z)
  : option (option ReplaySession * Z * option Reply) :=
  match session with
  | None => Some (None, n, None)
  | Some s =>
      r ← handle request_seq command args s n;
      let '(s, n, r) := r in
      match r with
      | None => Some (Some s, n, None)
      | Some r => Some (if done_ r then None else Some s, n, Some r)
      end
  end.

(** A launch: the breakpoints that waited for it. *)
Definition launch (a : SnapshotArchive) (files : gmap (ObjectType * Z) str) (dir : str) (pending : list (str * list Z)) : ReplaySession :=
  foldl (fun s '(path, lines) => fst (breakpoints_request path lines s)) (new_session a files dir) pending.
End protocol.

(** A relative [snapshotFileName] is in the project. *)
Definition snapshot_zip_path (project_root name : str) : str := if is_absolute name then name else path_join project_root name.
