(* ===== verification/ReplayProtocolSpec.v ===== *)
(** What the messages of a replay promise: no request panics but one unchecked
    sum, each has one response, the replay terminates once, breakpoints answer
    what was asked, and the variables shown are those recorded. *)

From Stdlib Require Import ZArith Lia.
From stdpp Require Import base tactics numbers option list gmap strings.
From S2P Require Import Prelude RustStr StrSearch Snapshots SnapshotTables ReplaySources Replay ReplayFacts ReplaySpec ReplayRunSpec ReplayProtocol.

#[local] Open Scope Z_scope.

(** * Breakpoint ids *)

Definition ids_ok (s : ReplaySession) : Prop :=
  (forall k i, ids s !! k = Some i -> i < next_id s) /\ forall k k' i, ids s !! k = Some i -> ids s !! k' = Some i -> k = k'.

(** Everything but the ids. *)
Definition same_rest (s s' : ReplaySession) : Prop :=
  archive s' = archive s /\ engine s' = engine s /\ files s' = files s /\ sources_dir s' = sources_dir s /\ stop s' = stop s /\
  ended s' = ended s /\ handles s' = handles s /\ next_handle s' = next_handle s.

Lemma same_rest_refl s : same_rest s s.
Proof. unfold same_rest. by split_and!. Qed.

Lemma same_rest_trans s1 s2 s3 : same_rest s1 s2 -> same_rest s2 s3 -> same_rest s1 s3.
Proof. unfold same_rest. intros H1 H2. destruct_and!. split_and!; congruence. Qed.

(** Ids that were given stay. *)
Definition ids_grow (s s' : ReplaySession) : Prop := forall k i, ids s !! k = Some i -> ids s' !! k = Some i.

Lemma ids_grow_eq s s' : ids s' = ids s -> ids_grow s s'.
Proof. intros E k i. by rewrite E. Qed.

Lemma id_of_ok k s : ids_ok s ->
  let '(s', i) := id_of k s in ids_ok s' /\ ids s' !! k = Some i /\ ids_grow s s' /\ same_rest s s'.
Proof.
  intros Hs. pose proof Hs as [H1 H2]. unfold id_of. destruct (ids s !! k) as [i|] eqn:E.
  { split; [exact Hs|]. split; [exact E|]. split; [by intros k' i'|apply same_rest_refl]. }
  split; [split|split; [apply lookup_insert_eq|split; [|unfold same_rest; by split_and!]]]; cbn.
  - intros k' i [[<- <-]|[_ H]]%lookup_insert_Some; [lia|]. apply H1 in H. lia.
  - intros k1 k2 i [[<- <-]|[Hn H]]%lookup_insert_Some [[<- Hi]|[Hn' H']]%lookup_insert_Some; [done|..].
    + apply H1 in H'. lia.
    + subst i. apply H1 in H. lia.
    + by eapply H2.
  - intros k' i' H'. cbn. rewrite lookup_insert_ne by congruence. done.
Qed.

Lemma id_of_all ks s : ids_ok s ->
  let s' := foldl (fun s k => fst (id_of k s)) s ks in
  ids_ok s' /\ (forall k, k ∈ ks -> is_Some (ids s' !! k)) /\ ids_grow s s' /\ same_rest s s'.
Proof.
  revert s. induction ks as [|k ks IH]; intros s Hs; cbn.
  { split; [exact Hs|]. split; [by intros k ?%elem_of_nil|]. split; [by intros k' i'|apply same_rest_refl]. }
  pose proof (id_of_ok k s Hs) as H. destruct (id_of k s) as [s1 i]. destruct H as (H1 & H2 & H3 & H4). cbn [fst].
  destruct (IH s1 H1) as (G1 & G2 & G3 & G4). split_and!; [done| | |by eapply same_rest_trans].
  - intros k' [->|Hk]%elem_of_cons; [exists i; by apply G3|by apply G2].
  - intros k' i' Hk. by apply G3, H3.
Qed.

(** * The session between requests *)

Section session.
Context (a : SnapshotArchive) (files0 : gmap (ObjectType * Z) str) (dir : str).
Notation contexts := (Snapshots.contexts a).

Definition handles_ok (s : ReplaySession) : Prop :=
  VARIABLE_BASE <= next_handle s /\ forall r vs, handles s !! r = Some vs -> VARIABLE_BASE <= r < next_handle s.

Record session_inv (s : ReplaySession) : Prop := {
  inv_archive : archive s = a;
  inv_files : files s = files0 /\ sources_dir s = dir;
  inv_engine : engine_ok contexts (engine s);
  inv_current : current (engine s) = Replay.pos <$> stop s;
  inv_stop : forall l, stop s = Some l -> step_ok contexts (Stopped l);
  inv_ended : ended s = true -> stop s = None;
  inv_ids : ids_ok s;
  inv_snappoints : forall k, k ∈ snappoints (new contexts) -> is_Some (ids s !! k);
  inv_handles : handles_ok s;
}.

Lemma ids_inv s s' : ids_ok s' -> ids_grow s s' -> same_rest s s' -> session_inv s -> session_inv s'.
Proof.
  intros Hi Hg (E1 & E2 & E3 & E4 & E5 & E6 & E7 & E8) [H1 H2 H3 H4 H5 H6 H7 H8 H9].
  split; unfold handles_ok; rewrite ?E1, ?E2, ?E3, ?E4, ?E5, ?E6, ?E7, ?E8; try done.
  intros k Hk. destruct (H8 k Hk) as [i H]. exists i. by apply Hg.
Qed.

Lemma session_inv_new : session_inv (new_session a files0 dir).
Proof.
  unfold new_session. set (s0 := {| archive := a |}). assert (ids_ok s0) as H0 by (split; cbn; intros *; by rewrite lookup_empty).
  destruct (id_of_all (snappoints (new contexts)) s0 H0) as (H1 & H2 & _ & (E1 & E2 & E3 & E4 & E5 & E6 & E7 & E8)).
  split; unfold handles_ok; rewrite ?E1, ?E2, ?E3, ?E4, ?E5, ?E6, ?E7, ?E8; try done.
  - apply engine_ok_new.
  - apply new_current.
Qed.

(** * Breakpoints *)

(** The answer to one line of a request. *)
Definition answered (s : ReplaySession) (t n l : Z) (o : bool * Z) : Prop :=
  match set_key contexts t n l with Some k => fst o = true /\ ids s !! k = Some (snd o) | None => o = (false, 0) end.

Lemma set_key_user t n l k : set_key contexts t n l = Some k -> user_key t n l = Some k.
Proof. unfold set_key. destruct (user_key t n l) as [k'|]; [|done]. cbn. by case_bool_decide. Qed.

Lemma answers_ok t n lines s out : ids_ok s -> forall s' out', foldl breakpoint_id (s, out) (Some <$> (answer contexts t n <$> lines)) = (s', out') ->
  ids_ok s' /\ ids_grow s s' /\ same_rest s s' /\ exists new_out, out' = out ++ new_out /\ Forall2 (answered s' t n) lines new_out.
Proof.
  revert s out. induction lines as [|l0 lines IH]; intros s out Hs s' out'; cbn [fmap list_fmap foldl].
  - intros [= <- <-]. split; [done|]. split; [by intros k i|]. split; [apply same_rest_refl|]. exists []. by rewrite app_nil_r.
  - cbn [breakpoint_id]. unfold answer at 1. cbn [verified Replay.key]. case_bool_decide as E.
    + destruct E as [k Ek]. pose proof (set_key_user _ _ _ _ Ek) as Eu. unfold answer at 1. cbn [Replay.key]. rewrite Eu.
      pose proof (id_of_ok k s Hs) as H. change (default ?d (Some k)) with k. destruct (id_of k s) as [s1 i]. destruct H as (H1 & H2 & H3 & H4).
      intros E. destruct (IH s1 _ H1 s' out' E) as (G1 & G2 & G3 & new_out & -> & Hf). split_and!; [done| |by eapply same_rest_trans|].
      * intros k' i' Hk. by apply G2, H3.
      * exists ((true, i) :: new_out). split; [by rewrite <- app_assoc|]. constructor; [|done]. unfold answered. rewrite Ek. split; [done|]. by apply G2.
    + intros E'. destruct (IH s _ Hs s' out' E') as (G1 & G2 & G3 & new_out & -> & Hf). split_and!; try done.
      exists ((false, 0) :: new_out). split; [by rewrite <- app_assoc|]. constructor; [|done]. unfold answered.
      destruct (set_key contexts t n l0); [by destruct E|done].
Qed.

Lemma imap_answers {A C} (f : A -> C) (l : list A) : imap (fun i _ => (f <$> l) !! i) l = Some <$> (f <$> l).
Proof.
  apply list_eq. intros i. rewrite list_lookup_imap, !list_lookup_fmap. by destruct (l !! i).
Qed.

Lemma no_answers s (lines : list Z) : foldl breakpoint_id (s, []) (imap (fun i _ => [] !! i) lines) = (s, replicate (length lines) (false, 0)).
Proof.
  replace (imap (fun i (_ : Z) => [] !! i) lines) with (replicate (length lines) (@None UserBreakpoint)).
  - generalize (length lines) as m. assert (forall m out, foldl breakpoint_id (s, out) (replicate m None) = (s, out ++ replicate m (false, 0))) as H.
    { induction m as [|m IH]; intros out; cbn; [by rewrite app_nil_r|]. by rewrite IH, <- app_assoc. }
    intros m. apply (H m []).
  - symmetry. apply list_eq. intros i. rewrite list_lookup_imap. destruct (lines !! i) as [x|] eqn:E; cbn.
    + apply lookup_lt_Some in E. by rewrite lookup_replicate_2.
    + symmetry. apply lookup_ge_None_2. rewrite length_replicate. by apply lookup_ge_None_1.
Qed.

Lemma engine_inv e s : session_inv s -> recorded contexts e -> current e = current (engine s) -> session_inv (set_engine e s).
Proof.
  intros [H1 H2 [_ Hc] H4 H5 H6 H7 H8 H9] Hr E. split; try done; cbn.
  - split; [done|]. unfold current_ok. by rewrite E.
  - by rewrite E.
Qed.

(** A request for breakpoints keeps the invariant and answers every line. *)
Lemma set_breakpoints_spec object path lines s : session_inv s ->
  let '(s', out) := set_breakpoints object path lines s in
  session_inv s' /\ ids_grow s s' /\ stop s' = stop s /\ ended s' = ended s /\ handles s' = handles s /\ next_handle s' = next_handle s /\
  match object with
  | Some (t, n) => Forall2 (answered s' t n) lines out /\ user (engine s') = <[path := omap (set_key contexts t n) lines]> (user (engine s))
  | None => out = replicate (length lines) (false, 0) /\ user (engine s') = <[path := []]> (user (engine s))
  end.
Proof.
  intros Hs. pose proof (proj1 (inv_engine s Hs)) as Hr. pose proof (inv_ids s Hs) as Hids. unfold set_breakpoints.
  destruct (decide (lines = [])) as [->|Hne].
  - cbn [imap foldl]. pose proof (set_user_breakpoints_spec contexts path 0 0 [] (engine s) Hr) as H.
    destruct (set_user_breakpoints _ _ _ _ _) as [e' out]. destruct H as (H1 & H2 & H3 & _). cbn [fst]. cbn [imap foldl].
    split; [by apply engine_inv|]. split; [by apply ids_grow_eq|]. split_and!; try done. destruct object as [[t n]|]; by split.
  - destruct lines as [|l0 lines]; [done|]. set (ls := l0 :: lines) in *. destruct object as [[t n]|].
    + pose proof (set_user_breakpoints_spec contexts path t n ls (engine s) Hr) as H.
      destruct (set_user_breakpoints _ _ _ _ _) as [e' out]. destruct H as (H1 & H2 & H3 & -> & _). rewrite imap_answers.
      pose proof (engine_inv e' s Hs H1 H3) as Hinv. destruct (foldl _ _ _) as [s' out'] eqn:E.
      destruct (answers_ok t n ls (set_engine e' s) [] Hids s' out' E) as (G1 & G2 & G3 & new_out & -> & Hf). split; [by eapply ids_inv|].
      destruct G3 as (_ & E2 & _ & _ & E5 & E6 & E7 & E8). cbn in E2, E5, E6, E7, E8. split_and!; try done. by rewrite E2.
    + pose proof (set_user_breakpoints_spec contexts path 0 0 [] (engine s) Hr) as H.
      destruct (set_user_breakpoints _ _ _ _ _) as [e' out]. destruct H as (H1 & H2 & H3 & _). cbn [fst]. rewrite no_answers.
      split; [by apply engine_inv|]. split; [by apply ids_grow_eq|]. by split_and!.
Qed.

(** * Moves *)

Lemma arrive_inv e step s : session_inv s -> engine_ok contexts e -> step_ok contexts step ->
  current e = match step with Stopped l => Some (Replay.pos l) | Ended => None end -> ended s = false -> session_inv (arrive e step s).
Proof.
  intros [H1 H2 H3 H4 H5 H6 H7 H8 H9] He Hst Hc Hend.
  assert (forall h, handles_ok (set_handles h VARIABLE_BASE s) -> True) as _ by done.
  destruct step as [l0|]; split; cbn; try done; try (by rewrite Hend); try (by intros l [= <-]); (split; [done|by intros r vs]).
Qed.

Lemma run_ok c s : session_inv s ->
  if ended s then run c s = Some None
  else exists e step, run c s = Some (Some (e, step)) /\ session_inv (arrive e step s).
Proof.
  intros Hs. unfold run. destruct (ended s) eqn:Ed; [done|].
  destruct (do_act_ok contexts (engine s) (Move c) (inv_engine s Hs)) as (e' & st & Ea & He' & Hst). cbn in Ea.
  destruct (engine_move c (engine s)) as [[e1 s1]|]; [|done]. cbn in Ea. injection Ea as -> <-. destruct (Hst s1 eq_refl) as [Hok Hc1].
  exists e', s1. split; [done|]. by apply arrive_inv.
Qed.

(** * What is shown at a stop *)

Lemma stop_statement s l : session_inv s -> stop s = Some l ->
  exists c lc, Snapshots.contexts (archive s) !! ctx (Replay.pos l) = Some c /\ line_contexts c !! at_line (Replay.pos l) = Some lc /\
    exception_ l = bool_decide (exception_index c = Some (at_line (Replay.pos l))).
Proof.
  intros Hs Hl. destruct (inv_stop s Hs l Hl) as [(c & lc & Hc & Hlc) He]. rewrite (inv_archive s Hs). exists c, lc. split_and!; [done|done|].
  rewrite He, Hc. done.
Qed.

Lemma variables_for_ok reference s : session_inv s -> is_Some (variables_for reference s).
Proof.
  intros Hs. unfold variables_for. destruct (_ <=? _); [done|]. destruct (_ =? 3); [done|].
  destruct (_ =? 0); [|done]. destruct (stop s) as [l|] eqn:El; [|done].
  destruct (stop_statement s l Hs El) as (c & lc & -> & Hlc & _). cbn [mbind option_bind]. rewrite Hlc. cbn [mbind option_bind].
  destruct (_ && _); [done|]. by destruct (split_scopes (variables lc)).
Qed.

(** References given before stay, and the new ones denote the children. *)
Definition handles_grow (s s' : ReplaySession) : Prop := forall r vs, handles s !! r = Some vs -> handles s' !! r = Some vs.

(** Everything but the handles. *)
Definition same_but_handles (s s' : ReplaySession) : Prop := s' = set_handles (handles s') (next_handle s') s.

Lemma handle_for_ok v s : handles_ok s ->
  let '(s', r) := handle_for v s in
  handles_ok s' /\ handles_grow s s' /\ same_but_handles s s' /\
  match children v with [] => r = 0 | vs => handles s' !! r = Some vs /\ VARIABLE_BASE <= r /\ handles s !! r = None end.
Proof.
  intros [H1 H2]. unfold handle_for. destruct (children v) as [|v0 vs].
  { split; [done|]. split; [by intros r vs|]. split; [by destruct s|done]. }
  assert (handles s !! next_handle s = None) as Hn by (apply eq_None_not_Some; intros [x Hx]; apply H2 in Hx; lia).
  split_and!; [split; cbn; [lia|]| |done|apply lookup_insert_eq|done|done].
  - intros r vs' [[<- _]|[_ H]]%lookup_insert_Some; [lia|]. apply H2 in H. lia.
  - intros r vs' H. cbn. rewrite lookup_insert_ne by congruence. done.
Qed.

Lemma handles_inv s s' : session_inv s -> handles_ok s' -> same_but_handles s s' -> session_inv s'.
Proof. intros [H1 H2 H3 H4 H5 H6 H7 H8 H9] Hh ->. by split. Qed.

Lemma same_but_handles_trans s1 s2 s3 : same_but_handles s1 s2 -> same_but_handles s2 s3 -> same_but_handles s1 s3.
Proof. unfold same_but_handles. intros H1 H2. rewrite H2. by rewrite H1. Qed.

(** One variable as it is shown. *)
Definition shown (s : ReplaySession) (v : Var) (d : DapVariable) : Prop :=
  var_name d = name v /\ var_value d = value v /\ var_type d = type_json v /\
  match children v with [] => var_reference d = 0 | vs => VARIABLE_BASE <= var_reference d /\ handles s !! var_reference d = Some vs end.

Lemma render_ok vs s : handles_ok s ->
  let '(s', ds) := render vs s in
  handles_ok s' /\ handles_grow s s' /\ same_but_handles s s' /\ Forall2 (shown s') vs ds /\
  (forall d vs', d ∈ ds -> handles s !! var_reference d = Some vs' -> var_reference d = 0).
Proof.
  unfold render. assert (forall out, handles_ok s -> let '(s', ds) := foldl render_one (s, out) vs in
    handles_ok s' /\ handles_grow s s' /\ same_but_handles s s' /\ exists new, ds = out ++ new /\ Forall2 (shown s') vs new /\
    forall d vs', d ∈ new -> handles s !! var_reference d = Some vs' -> var_reference d = 0) as H.
  { revert s. induction vs as [|v vs IH]; intros s out Hs.
    - cbn. split; [done|]. split; [by intros r vs|]. split; [by destruct s|]. exists []. split_and!; [by rewrite app_nil_r|constructor|by intros d vs' ?%elem_of_nil].
    - cbn [foldl render_one]. pose proof (handle_for_ok v s Hs) as H. destruct (handle_for v s) as [s1 r]. destruct H as (H1 & H2 & H3 & H4).
      set (d := {| var_name := name v |}). specialize (IH s1 (out ++ [d]) H1). destruct (foldl render_one _ vs) as [s' ds].
      destruct IH as (G1 & G2 & G3 & new & -> & Hf & Hfresh). split_and!; [done|by intros r' vs' ?; apply G2, H2|by eapply same_but_handles_trans|].
      exists (d :: new). split_and!; [by rewrite <- app_assoc| |].
      + constructor; [|done]. unfold shown. cbn. split_and!; try done. destruct (children v) as [|v0 vs0]; [done|].
        destruct H4 as (H4 & H5 & _). split; [done|]. by apply G2.
      + intros d' vs' [->|Hd]%elem_of_cons; [|intros Hr; by eapply Hfresh, H2]. cbn. destruct (children v) as [|v0 vs0]; [done|].
        destruct H4 as (_ & _ & H4). by rewrite H4. }
  intros Hs. specialize (H [] Hs). destruct (foldl _ _ _) as [s' ds]. destruct H as (H1 & H2 & H3 & new & -> & H4 & H5). by split_and!.
Qed.

Lemma find_variable_ok expr s : session_inv s -> is_Some (find_variable expr s).
Proof.
  intros Hs. unfold find_variable. destruct (variables_for_ok LOCALS s Hs) as [ls ->], (variables_for_ok GLOBALS s Hs) as [gs ->]. by cbn.
Qed.

Lemma evaluate_ok expr s : session_inv s -> exists s' body, evaluate expr s = Some (s', body) /\ handles_ok s' /\ handles_grow s s' /\ same_but_handles s s'.
Proof.
  intros Hs. unfold evaluate. assert (handles_grow s s) as Hg by by intros r vs. assert (same_but_handles s s) as Hsame by by destruct s.
  pose proof (inv_handles s Hs) as Hh. destruct expr as [|c r]; [by exists s, None|].
  destruct (find_variable_ok (c :: r) s Hs) as [[v|] ->]; cbn [mbind option_bind]; [|by exists s, None].
  pose proof (handle_for_ok v s Hh) as H. destruct (handle_for v s) as [s1 ref]. destruct H as (H1 & H2 & H3 & _).
  by exists s1, (Some (Evaluated (value v) ref (type_json v))).
Qed.

(** * The stack *)

Definition frame_total (c : MethodContext) : Z := Z.of_nat (Nat.max 1 (length (frames c))).

Lemma all_frames_length s c lc : Z.of_nat (length (all_frames s c lc)) = frame_total c.
Proof.
  unfold all_frames, frame_total. pose proof (length_imap (context_frame s c lc) (frames c)) as H.
  destruct (imap _ _) as [|f fs]; cbn [length] in *; lia.
Qed.

(** The unchecked sum [start + levels] is out of range. *)
Definition overflows (s : ReplaySession) (args : Args) : bool :=
  match (l ← stop s; contexts !! ctx (Replay.pos l)) with
  | Some c =>
      negb (default 0 (levels_arg args) =? 0) &&
      (usize_limit <=? Z.min (default 0 (start_frame_arg args)) (frame_total c) + default 0 (levels_arg args))
  | None => false
  end.

Lemma stack_trace_ok s args : session_inv s ->
  match stack_trace s args with
  | Some body => overflows s args = false /\ exists fs n, body = StackFrames fs n
  | None => overflows s args = true
  end.
Proof.
  intros Hs. unfold stack_trace, overflows. destruct (stop s) as [l|] eqn:El; [|cbn; split; [done|by eexists _, _]].
  destruct (stop_statement s l Hs El) as (c & lc & Hc & Hlc & _). rewrite Hc. rewrite (inv_archive s Hs) in Hc. cbn [mbind option_bind]. rewrite Hc. rewrite Hlc.
  cbn [mbind option_bind]. rewrite all_frames_length. destruct (_ =? 0); cbn [negb andb mbind option_bind]; [split; [done|by eexists _, _]|].
  destruct (Z.ltb_spec (Z.min (default 0 (start_frame_arg args)) (frame_total c) + default 0 (levels_arg args)) usize_limit); cbn [mbind option_bind].
  - split; [|by eexists _, _]. apply Z.leb_gt. lia.
  - apply Z.leb_le. lia.
Qed.

(** The frames a request asks for: those from [start], all of them or as many
    as it says. *)
Lemma stack_trace_page s args l c lc : session_inv s -> stop s = Some l -> contexts !! ctx (Replay.pos l) = Some c ->
  line_contexts c !! at_line (Replay.pos l) = Some lc -> overflows s args = false ->
  0 <= default 0 (start_frame_arg args) -> 0 <= default 0 (levels_arg args) ->
  let rest := drop (Z.to_nat (default 0 (start_frame_arg args))) (all_frames s c lc) in
  stack_trace s args =
    Some (StackFrames (if default 0 (levels_arg args) =? 0 then rest else take (Z.to_nat (default 0 (levels_arg args))) rest)
                      (length (all_frames s c lc))).
Proof.
  intros Hs El Hc Hlc Ho H1 H2 rest. unfold overflows in Ho. rewrite El in Ho. cbn [mbind option_bind] in Ho. rewrite Hc in Ho.
  unfold stack_trace. rewrite El, (inv_archive s Hs), Hc. cbn [mbind option_bind]. rewrite Hlc. cbn [mbind option_bind].
  rewrite all_frames_length. set (start := default 0 (start_frame_arg args)) in *. set (levels := default 0 (levels_arg args)) in *.
  pose proof (all_frames_length s c lc) as Hlen. set (fs := all_frames s c lc) in *.
  assert (drop (Z.to_nat (Z.min start (frame_total c))) fs = rest) as Hdrop.
  { unfold rest. destruct (Z.le_gt_cases start (frame_total c)); [by rewrite Z.min_l by lia|]. rewrite Z.min_r by lia.
    rewrite !drop_ge by lia. done. }
  assert (length rest = length fs - Z.to_nat start)%nat as Hrest by (unfold rest; by rewrite length_drop).
  rewrite Hdrop. destruct (Z.eqb_spec levels 0) as [El0|El0]; cbn [negb andb mbind option_bind] in *.
  - do 2 f_equal. apply take_ge. lia.
  - apply Z.leb_gt in Ho. rewrite (proj2 (Z.ltb_lt _ _)) by lia. cbn [mbind option_bind]. do 2 f_equal.
    destruct (Z.le_gt_cases (Z.min start (frame_total c) + levels) (frame_total c)).
    + rewrite Z.min_l by lia. f_equal. lia.
    + rewrite (Z.min_r (_ + levels)) by lia. rewrite !take_ge by lia. done.
Qed.

(** * Requests *)

Context (resolve : str -> Z -> option (Z * Z)).

Definition is_last (command : str) : bool := str_is command "disconnect" || str_is command "terminate".
Definition known (command : str) : bool :=
  is_move command || str_is command "threads" || str_is command "stackTrace" || str_is command "scopes" || str_is command "variables" ||
  str_is command "evaluate" || str_is command "setBreakpoints" || str_is command "pause" || is_last command.

(** The events after the response: those of a move that was made, or the end
    of a session that had not ended. *)
Definition events_of (command : str) (s s' : ReplaySession) : list EventBody :=
  if ended s then []
  else if is_move command then
    match stop s' with
    | Some l => (if start_over_ l then [Output NO_FRAMES_TEXT] else []) ++ [StoppedAt (if exception_ l then lit "exception" else lit "step")]
    | None => [Output END_TEXT; Terminated (Some false)]
    end
  else if is_last command then [Terminated None] else [].

Definition numbered (n n' : Z) (ms : list Message) : Prop := n' = n + Z.of_nat (length ms) /\ forall i m, ms !! i = Some m -> seq m = n + Z.of_nat i.

(** What a request leaves, and its messages. *)
Definition served (request_seq : Z) (command : str) (s : ReplaySession) (n : Z) (s' : ReplaySession) (n' : Z) (r : Reply) : Prop :=
  session_inv s' /\ ids_grow s s' /\ done_ r = is_last command /\ numbered n n' (messages r) /\
  (exists success body message,
    payload <$> messages r = Response request_seq command success body message :: (Event <$> events_of command s s') /\
    (success = false -> command = lit "evaluate")) /\
  (ended s' = ended s || (is_move command && bool_decide (stop s' = None))) /\
  (is_move command = false \/ ended s = true -> stop s' = stop s /\ handles_grow s s').

Lemma send_numbered n ms n' p : numbered n n' ms -> numbered n (send p (ms, n')).2 (send p (ms, n')).1.
Proof.
  intros [-> H]. cbn. split; [rewrite length_app; cbn; lia|]. intros i m Hm. apply lookup_app_Some in Hm as [Hm|[Hi Hm]]; [by apply H|].
  destruct (i - length ms)%nat eqn:E; [|done]. injection Hm as <-. cbn. lia.
Qed.

Lemma numbered_nil n : numbered n n [].
Proof. split; [cbn; lia|done]. Qed.

Lemma str_is_lit c k : str_is c k = true -> c = lit k.
Proof. unfold str_is, str_eqb. apply bool_decide_eq_true. Qed.

Lemma is_move_known command : is_move command = true -> known command = true /\ is_last command = false /\ command <> lit "evaluate".
Proof.
  intros H. split; [unfold known; by rewrite H|]. unfold is_move in H. rewrite !orb_true_iff in H.
  destruct H as [[[[H|H]|H]|H]|H]; apply str_is_lit in H as ->; split; (reflexivity || by vm_compute).
Qed.

(** A request answered by one response. *)
Lemma one_response rseq command s n s' success body message :
  session_inv s' -> ids_grow s s' -> is_move command = false -> is_last command = false -> stop s' = stop s -> ended s' = ended s ->
  handles_grow s s' -> (success = false -> command = lit "evaluate") ->
  exists r, reply s' (send (Response rseq command success body message) ([], n)) false = Some (s', n + 1, Some r) /\
    served rseq command s n s' (n + 1) r /\ payload <$> messages r = [Response rseq command success body message].
Proof.
  intros H1 H2 H3 H4 H5 H6 H7 H8. eexists. split; [reflexivity|]. split; [|done]. unfold served. cbn [messages done_]. split_and!.
  - done.
  - done.
  - by rewrite H4.
  - apply (send_numbered n [] n _ (numbered_nil n)).
  - exists success, body, message. split; [|done]. unfold events_of. rewrite H3, H4. by destruct (ended s).
  - rewrite H3, H6. by rewrite orb_false_r.
  - done.
Qed.

(** A move: its response, and then where it arrived. *)
Lemma move_served rseq command s n body : session_inv s -> is_move command = true ->
  exists s' n' r, (r ← run (command_of command) s;
      match r with
      | Some (e, step) => reply (arrive e step s) (move_events step (send (Response rseq command true body None) ([], n))) false
      | None => reply s (send (Response rseq command true body None) ([], n)) false
      end) = Some (s', n', Some r) /\ served rseq command s n s' n' r.
Proof.
  intros Hs Hm. destruct (is_move_known command Hm) as (_ & Hlast & Hev). pose proof (run_ok (command_of command) s Hs) as Hrun.
  set (first := send _ _). assert (numbered n first.2 first.1) as Hfirst by apply (send_numbered n [] n _ (numbered_nil n)).
  destruct (ended s) eqn:Ed.
  - rewrite Hrun. cbn [mbind option_bind]. eexists s, _, _. split; [reflexivity|]. unfold served, events_of. cbn [messages done_]. rewrite Ed, Hlast.
    split; [done|]. split; [by apply ids_grow_eq|]. split_and!; try done; [by exists true, body, None|by intros _; split; [|by intros r vs]].
  - destruct Hrun as (e & step & -> & Hinv). cbn [mbind option_bind]. destruct (move_events step first) as [ms n'] eqn:Eo.
    eexists _, n', _. split; [reflexivity|]. unfold served, events_of. cbn [messages done_]. rewrite Ed, Hm, Hlast. split_and!; try done.
    + by apply ids_grow_eq; destruct step.
    + replace n' with (move_events step first).2 by by rewrite Eo. replace ms with (move_events step first).1 by by rewrite Eo.
      unfold move_events. destruct step as [l|]; [destruct (start_over_ l)|]; repeat first [apply send_numbered|exact Hfirst | rewrite (surjective_pairing (send _ _))].
    + exists true, body, None. split; [|done]. replace ms with (move_events step first).1 by by rewrite Eo. unfold move_events, first.
      destruct step as [l|]; [|done]. cbn. by destruct (start_over_ l).
    + destruct step as [l|]; cbn; [by rewrite Ed|done].
    + by intros [?|?].
Qed.

Lemma handle_spec rseq command args s n : session_inv s ->
  match handle resolve rseq command args s n with
  | None => command = lit "stackTrace" /\ overflows s args = true
  | Some (s', n', None) => known command = false /\ s' = s /\ n' = n
  | Some (s', n', Some r) => known command = true /\ (command = lit "stackTrace" -> overflows s args = false) /\ served rseq command s n s' n' r
  end.
Proof.
  intros Hs. pose proof (inv_handles s Hs) as Hh. unfold handle.
  assert (ids_grow s s /\ handles_grow s s) as [Hg Hhg] by (split; [by intros k i|by intros r vs]).
  destruct (is_move command) eqn:Em.
  { destruct (move_served rseq command s n (if str_is command "continue" then Some AllThreadsContinued else None) Hs Em) as (s' & n' & r & -> & H).
    split; [by apply is_move_known|]. split; [|done]. by intros ->. }
  destruct (str_is command "threads") eqn:E1.
  { apply str_is_lit in E1 as ->. by edestruct (one_response rseq (lit "threads") s n s) as (r & -> & H & _). }
  destruct (str_is command "stackTrace") eqn:E2.
  { apply str_is_lit in E2 as ->. pose proof (stack_trace_ok s args Hs) as Ht. destruct (stack_trace s args) as [body|]; [|done]. cbn [mbind option_bind].
    edestruct (one_response rseq (lit "stackTrace") s n s) as (r & -> & H & _); try done. split; [done|]. split; [intros _; apply Ht|exact H]. }
  destruct (str_is command "scopes") eqn:E3.
  { apply str_is_lit in E3 as ->. by edestruct (one_response rseq (lit "scopes") s n s) as (r & -> & H & _). }
  destruct (str_is command "variables") eqn:E4.
  { apply str_is_lit in E4 as ->. destruct (variables_for_ok (default 0 (reference_arg args)) s Hs) as [vs ->]. cbn [mbind option_bind].
    pose proof (render_ok vs s Hh) as H. destruct (render vs s) as [s1 ds]. destruct H as (H1 & H2 & H3 & _).
    edestruct (one_response rseq (lit "variables") s n s1) as (r & -> & H & _); try done; (by eapply handles_inv) || by rewrite H3. }
  destruct (str_is command "evaluate") eqn:E5.
  { apply str_is_lit in E5 as ->. destruct (evaluate_ok (trim (default [] (expression_arg args))) s Hs) as (s1 & body & -> & H1 & H2 & H3). cbn [mbind option_bind].
    destruct body as [body|]; (edestruct (one_response rseq (lit "evaluate") s n s1) as (r & -> & H & _); try done; (by eapply handles_inv) || by rewrite H3). }
  destruct (str_is command "setBreakpoints") eqn:E6.
  { apply str_is_lit in E6 as ->. unfold breakpoints_request. set (object := _ ≫= _).
    pose proof (set_breakpoints_spec object (default [] (path_arg args)) (breakpoint_lines args) s Hs) as H.
    destruct (set_breakpoints _ _ _ _) as [s1 out]. destruct H as (H1 & H2 & H3 & H4 & H5 & H6 & _).
    edestruct (one_response rseq (lit "setBreakpoints") s n s1) as (r & -> & H & _); try done. intros ref vs. by rewrite H5. }
  destruct (str_is command "pause") eqn:E7.
  { apply str_is_lit in E7 as ->. by edestruct (one_response rseq (lit "pause") s n s) as (r & -> & H & _). }
  destruct (str_is command "disconnect" || str_is command "terminate") eqn:E8.
  - set (o := if ended s then _ else _). unfold reply. destruct o as [ms n'] eqn:Eo. split; [unfold known, is_last; rewrite E8; by rewrite !orb_true_r|].
    split; [intros ->; discriminate E2|]. unfold served, events_of. cbn [messages done_]. unfold is_last. rewrite Em, E8.
    pose proof (send_numbered n [] n (Response rseq command true None None) (numbered_nil n)) as Hn. split_and!; try done.
    + unfold o in Eo. destruct (ended s); injection Eo as <- <-; [done|]. exact (send_numbered n _ _ (Event (Terminated None)) Hn).
    + exists true, None, None. split; [|done]. unfold o in Eo. by destruct (ended s); injection Eo as <- <-.
    + by rewrite orb_false_r.
  - unfold known, is_last. by rewrite Em, E1, E2, E3, E4, E5, E6, E7, E8.
Qed.

(** * Conversations *)

Definition DapRequest : Type := Z * str * Args.

(** The requests of a client, one after the other, and all the messages. *)
Fixpoint converse (session : option ReplaySession) (n : Z) (rs : list DapRequest) : option (option ReplaySession * Z * list Message) :=
  match rs with
  | [] => Some (session, n, [])
  | (rseq, command, args) :: rs =>
      r ← dispatch_replay resolve rseq command args session n;
      let '(session, n, r) := r in
      rest ← converse session n rs;
      let '(session, n, ms) := rest in
      Some (session, n, match r with Some r => messages r | None => [] end ++ ms)
  end.

Definition is_terminated (m : Message) : bool := match payload m with Event (Terminated _) => true | _ => false end.
Definition terminations (ms : list Message) : nat := length (List.filter is_terminated ms).

(** A session that is over has sent its end. *)
Definition over (session : option ReplaySession) : bool := match session with Some s => ended s | None => true end.

Definition session_ok (session : option ReplaySession) : Prop := match session with Some s => session_inv s | None => True end.

Lemma terminations_payload ms ps : payload <$> ms = ps -> terminations ms = length (List.filter (fun p => match p with Event (Terminated _) => true | _ => false end) ps).
Proof.
  intros <-. unfold terminations. induction ms as [|m ms IH]; [done|]. cbn. unfold is_terminated at 1. destruct (payload m) as [|[]]; cbn; by rewrite ?IH.
Qed.

Lemma terminations_app ms ms' : terminations (ms ++ ms') = (terminations ms + terminations ms')%nat.
Proof. unfold terminations. by rewrite List.filter_app, length_app. Qed.

(** The end is sent when the session gets over, once. *)
Lemma served_terminates rseq command s n s' n' r : served rseq command s n s' n' r ->
  (terminations (messages r) + (if ended s then 1 else 0) = if over (if done_ r then None else Some s') then 1 else 0)%nat.
Proof.
  intros (_ & _ & Hd & _ & (success & body & message & Hp & _) & He & _). rewrite (terminations_payload _ _ Hp), Hd.
  unfold events_of. cbn [List.filter length]. destruct (ended s); [by destruct (is_last command); cbn [over]; rewrite ?He|]. cbn in He.
  destruct (is_move command) eqn:Em.
  - destruct (is_move_known command Em) as (_ & Hl & _). rewrite Hl. cbn [over]. rewrite He. destruct (stop s') as [l|]; cbn; [|done].
    by destruct (start_over_ l), (exception_ l).
  - destruct (is_last command); [done|]. cbn [over]. by rewrite He.
Qed.

Lemma numbered_app n n1 n2 ms ms' : numbered n n1 ms -> numbered n1 n2 ms' -> numbered n n2 (ms ++ ms').
Proof.
  intros [-> Ha] [-> Hb]. split; [rewrite length_app; lia|]. intros i m [Hm|[Hi Hm]]%lookup_app_Some; [by apply Ha|]. apply Hb in Hm as ->. lia.
Qed.

Lemma dispatch_ok rseq command args session n : session_ok session ->
  match dispatch_replay resolve rseq command args session n with
  | Some (session', n', r) =>
      session_ok session' /\ let ms := match r with Some r => messages r | None => [] end in
      numbered n n' ms /\ (terminations ms + (if over session then 1 else 0) = if over session' then 1 else 0)%nat
  | None => exists s, session = Some s /\ command = lit "stackTrace" /\ overflows s args = true
  end.
Proof.
  intros Hs. destruct session as [s|]; [|by cbn; split_and!; try done; apply numbered_nil]. cbn [dispatch_replay session_ok] in *.
  pose proof (handle_spec rseq command args s n Hs) as H. destruct (handle _ _ _ _ _ _) as [[[s' n'] [r|]]|]; cbn [mbind option_bind].
  - destruct H as (_ & _ & H). pose proof (served_terminates _ _ _ _ _ _ _ H) as Ht. destruct H as (H1 & _ & H3 & H4 & _).
    split; [by destruct (done_ r)|]. split; [done|]. rewrite <- Ht. done.
  - destruct H as (_ & -> & ->). split; [done|]. split; [apply numbered_nil|done].
  - by exists s.
Qed.

Lemma converse_ok session n rs : session_ok session ->
  match converse session n rs with
  | Some (session', n', ms) => session_ok session' /\ numbered n n' ms /\ (terminations ms + (if over session then 1 else 0) = if over session' then 1 else 0)%nat
  | None => exists rs1 rs2 rseq args s n1 ms, rs = rs1 ++ (rseq, lit "stackTrace", args) :: rs2 /\
      converse session n rs1 = Some (Some s, n1, ms) /\ overflows s args = true
  end.
Proof.
  revert session n. induction rs as [|[[rseq command] args] rs IH]; intros session n Hs; cbn [converse].
  { split; [done|]. split; [apply numbered_nil|done]. }
  pose proof (dispatch_ok rseq command args session n Hs) as H. destruct (dispatch_replay _ _ _ _ _ _) as [[[session1 n1] r]|] eqn:Ed; cbn [mbind option_bind].
  - destruct H as (Hs1 & Hn & Ht). set (ms1 := match r with Some r => messages r | None => [] end) in *. specialize (IH session1 n1 Hs1).
    destruct (converse session1 n1 rs) as [[[session2 n2] ms2]|]; cbn [mbind option_bind].
    + destruct IH as (H1 & H2 & H3). split; [done|]. split; [by eapply numbered_app|]. rewrite terminations_app. lia.
    + destruct IH as (rs1 & rs2 & rseq' & args' & s & n' & ms & -> & E & Ho). exists ((rseq, command, args) :: rs1), rs2, rseq', args', s, n', (ms1 ++ ms).
      split; [done|]. cbn [converse]. rewrite Ed. cbn [mbind option_bind]. rewrite E. done.
  - destruct H as (s & -> & -> & Ho). by exists [], rs, rseq, args, s, n, [].
Qed.

Lemma launch_inv pending : session_inv (launch resolve a files0 dir pending).
Proof.
  unfold launch. pose proof session_inv_new as H. revert H. generalize (new_session a files0 dir). induction pending as [|[path lines] pending IH]; intros s Hs; [done|].
  cbn [foldl]. apply IH. unfold breakpoints_request. set (object := _ ≫= _). pose proof (set_breakpoints_spec object path lines s Hs) as H.
  destruct (set_breakpoints _ _ _ _) as [s1 out]. apply H.
Qed.

(** * The variables a client sees *)

Definition ask (reference : Z) : Args :=
  {| frame_id_arg := None; reference_arg := Some reference; expression_arg := None; start_frame_arg := None; levels_arg := None;
     path_arg := None; breakpoints_arg := None; lines_arg := None |}.

(** A client that opens every variable with a reference, [fuel] levels deep: the
    tree it sees. *)
Fixpoint explore_each (f : Z -> ReplaySession -> Z -> option (ReplaySession * Z * list Var)) (ds : list DapVariable) (s : ReplaySession) (n : Z)
  : option (ReplaySession * Z * list Var) :=
  match ds with
  | [] => Some (s, n, [])
  | d :: ds =>
      r ← (if var_reference d =? 0 then Some (s, n, []) else f (var_reference d) s n);
      let '(s, n, cs) := r in
      r ← explore_each f ds s n;
      let '(s, n, vs) := r in
      Some (s, n, mkVariable (var_name d) (var_value d) (default [] (var_type d)) (negb (var_reference d =? 0)) cs :: vs)
  end.

Fixpoint explore (fuel : nat) (reference : Z) (s : ReplaySession) (n : Z) : option (ReplaySession * Z * list Var) :=
  match fuel with
  | O => None
  | S fuel =>
      r ← handle resolve 0 (lit "variables") (ask reference) s n;
      match r with
      | (s, n, Some r) =>
          match payload <$> messages r with
          | [Response _ _ true (Some (Variables ds)) None] => explore_each (explore fuel) ds s n
          | _ => None
          end
      | (_, _, None) => None
      end
  end.

(** A recorded variable as a client can see it: its flag says whether it has
    children. *)
Fixpoint as_seen (v : Var) : Var :=
  let '(mkVariable name value type _ cs) := v in mkVariable name value type (negb (bool_decide (cs = []))) (as_seen <$> cs).

Lemma handle_variables rseq args s n : handle resolve rseq (lit "variables") args s n =
  (vs ← variables_for (default 0 (reference_arg args)) s;
   let '(s, rendered) := render vs s in reply s (send (Response rseq (lit "variables") true (Some (Variables rendered)) None) ([], n)) false).
Proof. reflexivity. Qed.

(** What exploring leaves alone. *)
Definition explored (s s' : ReplaySession) : Prop := session_inv s' /\ handles_grow s s' /\ same_but_handles s s'.

Lemma explored_trans s1 s2 s3 : explored s1 s2 -> explored s2 s3 -> explored s1 s3.
Proof.
  intros (_ & H2 & H3) (G1 & G2 & G3). split; [done|]. split; [by intros r vs Hr; apply G2, H2|by eapply same_but_handles_trans].
Qed.

Lemma shown_grow s s' v d : handles_grow s s' -> shown s v d -> shown s' v d.
Proof. intros Hg (H1 & H2 & H3 & H4). split_and!; try done. destruct (children v); [done|]. destruct H4 as [H4 H5]. split; [done|]. by apply Hg. Qed.

Lemma explore_step fuel reference vs s n : session_inv s -> variables_for reference s = Some vs ->
  (forall v, v ∈ vs -> (depth v <= fuel)%nat) ->
  (forall r vs s n, (0 < fuel)%nat -> session_inv s -> handles s !! r = Some vs -> VARIABLE_BASE <= r -> (forall v, v ∈ vs -> (depth v < fuel)%nat) ->
     exists s' n', explore fuel r s n = Some (s', n', as_seen <$> vs) /\ explored s s') ->
  exists s' n', explore (S fuel) reference s n = Some (s', n', as_seen <$> vs) /\ explored s s'.
Proof.
  intros Hs Hvs Hd IH. cbn [explore]. rewrite handle_variables. change (default 0 (reference_arg (ask reference))) with reference.
  rewrite Hvs. cbn [mbind option_bind]. pose proof (render_ok vs s (inv_handles s Hs)) as H. destruct (render vs s) as [s1 ds].
  destruct H as (H1 & H2 & H3 & H4 & _). cbn [reply send mbind option_bind messages fmap list_fmap payload app].
  assert (explored s s1) as Hex by (split; [by eapply handles_inv|done]). generalize (n + 1) as n1. pose proof (proj1 Hex) as Hs1.
  assert (forall s2 n2, session_inv s2 -> Forall2 (shown s2) vs ds ->
    exists s' n', explore_each (explore fuel) ds s2 n2 = Some (s', n', as_seen <$> vs) /\ explored s2 s') as Heach.
  { clear -IH Hd. intros s2 n2 Hs2 Hf. revert s2 n2 Hs2 Hf Hd. induction vs as [|v vs IHvs] in ds |- *; intros s2 n2 Hs2 Hf Hd.
    - apply Forall2_nil_inv_l in Hf as ->. exists s2, n2. split; [done|]. split; [done|]. split; [by intros r vs|by destruct s2].
    - apply Forall2_cons_inv_l in Hf as (d & ds' & (Hn & Hv & Ht & Hr) & Hf & ->). cbn [explore_each].
      assert (exists s3 n3, (if var_reference d =? 0 then Some (s2, n2, []) else explore fuel (var_reference d) s2 n2) = Some (s3, n3, as_seen <$> children v) /\
        explored s2 s3 /\ negb (var_reference d =? 0) = negb (bool_decide (children v = []))) as (s3 & n3 & E & Hex3 & Eb).
      { destruct (children v) as [|c cs] eqn:Ec.
        - rewrite Hr. exists s2, n2. split; [done|]. split; [split; [done|split; [by intros r vs'|by destruct s2]]|done].
        - destruct Hr as [Hr0 Hr]. assert (VARIABLE_BASE = 262144) as Hbase by reflexivity. rewrite (proj2 (Z.eqb_neq _ _)) by lia.
          assert (forall w, w ∈ c :: cs -> (depth w < fuel)%nat) as Hdw.
          { intros w Hw. assert (depth w < depth v)%nat as Hlt; [|specialize (Hd v ltac:(by left)); lia].
            destruct v as [? ? ? ? cs0]. cbn in Ec. subst cs0. cbn [depth]. pose proof (depth_child w _ Hw). lia. }
          destruct (IH (var_reference d) (c :: cs) s2 n2) as (s3 & n3 & E & Hex); try done.
          { specialize (Hdw c ltac:(by left)). lia. }
          exists s3, n3. split_and!; [done|done|by rewrite bool_decide_eq_false_2]. }
      rewrite E. cbn [mbind option_bind]. destruct (IHvs ds' s3 n3) as (s4 & n4 & E4 & Hex4).
      { apply Hex3. } { eapply Forall2_impl; [exact Hf|]. intros w d'. apply shown_grow. apply Hex3. } { intros w Hw. apply Hd. by right. }
      rewrite E4. cbn [mbind option_bind]. exists s4, n4. split; [|by eapply explored_trans]. cbn [fmap list_fmap]. do 2 f_equal. rewrite Hn, Hv, Ht, Eb. f_equal.
      destruct v as [nm vl ty h cs]. cbn. f_equal. unfold type_json. cbn. by destruct ty. }
  intros n1. destruct (Heach s1 n1 Hs1 H4) as (s' & n' & E & Hex'). exists s', n'. split; [exact E|by eapply explored_trans].
Qed.

Lemma explore_handle fuel r vs s n : (0 < fuel)%nat -> session_inv s -> handles s !! r = Some vs -> VARIABLE_BASE <= r ->
  (forall v, v ∈ vs -> (depth v < fuel)%nat) -> exists s' n', explore fuel r s n = Some (s', n', as_seen <$> vs) /\ explored s s'.
Proof.
  revert r vs s n. induction fuel as [|fuel IH]; intros r vs s n Hf Hs Hr Hb Hd; [lia|]. apply explore_step; [done| | |exact IH].
  - unfold variables_for. rewrite (proj2 (Z.leb_le _ _) Hb). by rewrite Hr.
  - intros v Hv. specialize (Hd v Hv). lia.
Qed.

Lemma explore_scope fuel reference vs s n : session_inv s -> variables_for reference s = Some vs ->
  (forall v, v ∈ vs -> (depth v <= fuel)%nat) -> exists s' n', explore (S fuel) reference s n = Some (s', n', as_seen <$> vs) /\ explored s s'.
Proof. intros Hs Hv Hd. apply explore_step; [done|done|done|]. intros r vs' s' n'. apply explore_handle. Qed.

(** The variables of a stop: those recorded, and the message of its error. *)
Definition stop_variables (l : Landing) (c : MethodContext) (lc : LineContext) : list Var * list Var :=
  let message := if exception_ l then message <$> exception c else None in
  match variables lc, message with
  | [], None => (empty_node, empty_node)
  | vars, _ =>
      let '(locals, globals) := split_scopes vars in
      (locals ++ match message with Some m => [text_variable (lit "_ALException") m] | None => [] end, globals)
  end.

Lemma scopes_at_stop s l c lc : session_inv s -> stop s = Some l -> contexts !! ctx (Replay.pos l) = Some c ->
  line_contexts c !! at_line (Replay.pos l) = Some lc ->
  variables_for LOCALS s = Some (fst (stop_variables l c lc)) /\ variables_for GLOBALS s = Some (snd (stop_variables l c lc)).
Proof.
  intros Hs El Hc Hlc. unfold variables_for. change (VARIABLE_BASE <=? LOCALS) with false. change (VARIABLE_BASE <=? GLOBALS) with false.
  change (Z.shiftr LOCALS 16 =? 3) with false. change (Z.shiftr GLOBALS 16 =? 3) with false. change (Z.land LOCALS 65535 =? 0) with true.
  change (Z.land GLOBALS 65535 =? 0) with true. change (Z.shiftr LOCALS 16 =? 1) with false. change (Z.shiftr GLOBALS 16 =? 1) with true.
  cbn iota. rewrite El, (inv_archive s Hs), Hc. cbn [mbind option_bind]. rewrite Hlc. cbn [mbind option_bind]. unfold stop_variables.
  destruct (if exception_ l then _ else _) as [m|].
  - rewrite (bool_decide_eq_false_2 (Some m = None)) by done. rewrite andb_false_r. destruct (split_scopes (variables lc)) as [ls gs] eqn:Es.
    destruct (variables lc) as [|v vs]; rewrite ?Es; done.
  - rewrite (bool_decide_eq_true_2 (None = None)) by done. rewrite andb_true_r. destruct (variables lc) as [|v vs]; [done|].
    rewrite bool_decide_eq_false_2 by done. destruct (split_scopes (v :: vs)) as [ls gs]. cbn. by rewrite app_nil_r.
Qed.
End session.

(** * The promises *)

Section reached.
Context (a : SnapshotArchive) (files0 : gmap (ObjectType * Z) str) (dir : str) (resolve : str -> Z -> option (Z * Z)).
Notation contexts := (Snapshots.contexts a).

Lemma converse_rel (R : ReplaySession -> ReplaySession -> Prop) (P : str -> bool) :
  (forall s, R s s) -> (forall s1 s2 s3, R s1 s2 -> R s2 s3 -> R s1 s3) ->
  (forall rseq command s n s' n' r, P command = true -> served a files0 dir rseq command s n s' n' r -> R s s') ->
  forall rs s n s' n' ms, session_inv a files0 dir s -> forallb (fun r => P (snd (fst r))) rs = true ->
    converse resolve (Some s) n rs = Some (Some s', n', ms) -> session_inv a files0 dir s' /\ R s s'.
Proof.
  intros Hrefl Htrans Hserved. induction rs as [|[[rseq command] args] rs IH]; intros s n s' n' ms Hs HP; cbn [converse]; [by intros [= <- _ _]|].
  cbn [forallb fst snd] in HP. apply andb_true_iff in HP as [HP HPs]. cbn [dispatch_replay].
  pose proof (handle_spec a files0 dir resolve rseq command args s n Hs) as H. destruct (handle _ _ _ _ _ _) as [[[s1 n1] [r|]]|]; cbn [mbind option_bind]; [| |done].
  - destruct H as (_ & _ & H). destruct (done_ r).
    + destruct (converse resolve None n1 rs) as [[[st n2] ms2]|] eqn:Ec; cbn [mbind option_bind]; [|done]. intros [= -> _ _]. exfalso. clear -Ec.
      revert n1 n2 ms2 Ec. induction rs as [|[[rs1 c1] a1] rs IH]; intros n1 n2 ms2; cbn [converse]; [done|]. cbn [dispatch_replay mbind option_bind].
      destruct (converse resolve None n1 rs) as [[[st n3] ms3]|] eqn:E; cbn [mbind option_bind]; [|done]. intros [= -> _ _]. by eapply IH.
    + destruct (converse resolve (Some s1) n1 rs) as [[[st n2] ms2]|] eqn:Ec; cbn [mbind option_bind]; [|done]. intros [= -> _ _].
      destruct (IH s1 n1 s' n2 ms2) as [H1 H2]; [apply H|done|done|]. split; [done|]. eapply Htrans; [by eapply Hserved|done].
  - destruct H as (_ & -> & ->). destruct (converse resolve (Some s) n rs) as [[[st n2] ms2]|] eqn:Ec; cbn [mbind option_bind]; [|done].
    intros [= -> _ _]. by eapply IH.
Qed.

Lemma ids_grow_trans s1 s2 s3 : ids_grow s1 s2 -> ids_grow s2 s3 -> ids_grow s1 s3.
Proof. intros H1 H2 k i H. by apply H2, H1. Qed.

Lemma handles_grow_trans s1 s2 s3 : handles_grow s1 s2 -> handles_grow s2 s3 -> handles_grow s1 s3.
Proof. intros H1 H2 k i H. by apply H2, H1. Qed.

Lemma converse_ids rs s n s' n' ms : session_inv a files0 dir s -> converse resolve (Some s) n rs = Some (Some s', n', ms) ->
  session_inv a files0 dir s' /\ ids_grow s s'.
Proof.
  intros Hs. apply (converse_rel ids_grow (fun _ => true)); [by intros ? ? ?|apply ids_grow_trans|by intros * _ (_ & ? & _)|done|].
  by induction rs.
Qed.

Lemma converse_handles rs s n s' n' ms : session_inv a files0 dir s -> forallb (fun r => negb (is_move (snd (fst r)))) rs = true ->
  converse resolve (Some s) n rs = Some (Some s', n', ms) -> session_inv a files0 dir s' /\ handles_grow s s'.
Proof.
  apply (converse_rel handles_grow (fun c => negb (is_move c))); [by intros ? ? ?|apply handles_grow_trans|].
  intros * Hm%negb_true_iff (_ & _ & _ & _ & _ & _ & H). apply H. by left.
Qed.

Lemma launch_fresh pending : ended (launch resolve a files0 dir pending) = false.
Proof.
  unfold launch. pose proof (session_inv_new a files0 dir) as H. assert (ended (new_session a files0 dir) = false) as He.
  { unfold new_session. set (s0 := {| archive := a |}). assert (ids_ok s0) as H0 by (split; cbn; intros *; by rewrite lookup_empty).
    by destruct (id_of_all (snappoints (new contexts)) s0 H0) as (_ & _ & _ & (_ & _ & _ & _ & _ & -> & _)). }
  revert H He. generalize (new_session a files0 dir). induction pending as [|[path lines] pending IH]; intros s Hs He; [done|].
  cbn [foldl]. unfold breakpoints_request. set (object := _ ≫= _). pose proof (set_breakpoints_spec a files0 dir object path lines s Hs) as H.
  destruct (set_breakpoints _ _ _ _) as [s1 out]. destruct H as (H1 & _ & _ & H4 & _). apply IH; [done|]. cbn [fst]. by rewrite H4.
Qed.

(** A session that a client can reach. *)
Definition reached (s : ReplaySession) : Prop :=
  exists pending n rs n' ms, converse resolve (Some (launch resolve a files0 dir pending)) n rs = Some (Some s, n', ms).

Lemma reached_inv s : reached s -> session_inv a files0 dir s.
Proof. intros (pending & n & rs & n' & ms & H). by eapply converse_ids in H as [H _]; [|apply launch_inv]. Qed.



End reached.

(** * A conversation *)

Definition an_archive : SnapshotArchive :=
  {| archive_version := {| major := 3; minor := 0; build := 0; revision := 0 |}; Snapshots.contexts := a_recording; sources := ∅ |}.

Definition no_args : Args := ask 0.
Definition no_workspace (_ : str) (_ : Z) : option (Z * Z) := None.

(** Nothing is set, so the walk starts over at the first statement. *)
Definition after_start : option (option ReplaySession * Z * list Message) :=
  converse no_workspace (Some (launch no_workspace an_archive ∅ [] [])) 1 [(1, lit "configurationDone", no_args)].


