(* ===== verification/ReplaySourceSpec.v ===== *)
(** What the files of a replay promise: the folder of a snapshot stays inside
    the sources folder, an extracted file is found back as its object, and each
    object shows the first file there is for it. *)

From Stdlib Require Import ZArith Lia Sorting.Sorted.
From stdpp Require Import base tactics numbers option list gmap sets strings.
From S2P Require Import Prelude RustStr StrSearch Passes Snapshots ArchiveSpec ReplaySources Replay ReplayProtocol.

#[local] Open Scope Z_scope.

(** * Paths *)

Lemma split_char_at sep a b : split_char sep (a ++ sep :: b) = split_char sep a ++ split_char sep b.
Proof.
  induction a as [|c a IH]; [simpl; by rewrite Z.eqb_refl|]. change ((c :: a) ++ sep :: b) with (c :: (a ++ sep :: b)).
  cbn [split_char]. destruct (c =? sep); [by rewrite IH|]. rewrite IH.
  destruct (split_char_cons sep a) as (p & ps & ->). done.
Qed.

Definition plain_name (name : str) : Prop := ~ ch "/" ∈ name /\ name <> [] /\ name <> lit "." /\ name <> lit "..".

Lemma part_plain name : plain_name name -> part_component name = Some (Normal name).
Proof.
  intros (_ & H0 & H1 & H2). unfold part_component. destruct name as [|c r]; [done|]. unfold str_is, str_eqb.
  by rewrite !bool_decide_eq_false_2 by done.
Qed.

Lemma is_absolute_cons c p : is_absolute (c :: p) = (c =? ch "/").
Proof.
  unfold is_absolute. destruct (Z.eqb_spec c (ch "/")) as [->|Hc].
  - apply starts_with_spec. by exists p.
  - apply not_true_iff_false. intros [r [= -> _]]%starts_with_spec. done.
Qed.

Lemma components_nil : components [] = [].
Proof. reflexivity. Qed.

Lemma components_single name : plain_name name -> components name = [Normal name].
Proof.
  intros H. pose proof H as (Hs & H0 & H1 & _). unfold components. rewrite split_char_solid by done. cbn [omap list_omap]. rewrite (part_plain _ H).
  destruct name as [|c r]; [done|]. rewrite is_absolute_cons. destruct (Z.eqb_spec c (ch "/")) as [->|Hc]; [by destruct Hs; left|].
  unfold str_is, str_eqb. by rewrite bool_decide_eq_false_2 by done.
Qed.

(** A name after a separator is one more component. *)
Lemma components_after d name : d <> [] -> plain_name name -> components (d ++ ch "/" :: name) = components d ++ [Normal name].
Proof.
  intros Hd H. unfold components. rewrite split_char_at, (split_char_solid _ name) by apply H. rewrite omap_app. cbn [omap list_omap]. rewrite (part_plain _ H).
  rewrite app_assoc. f_equal. f_equal. destruct d as [|c r]; [done|]. cbn [Datatypes.app]. rewrite !is_absolute_cons.
  destruct (c =? ch "/"); [done|]. by destruct (split_char_cons (ch "/") (c :: r)) as (p & ps & ->).
Qed.

Lemma components_slash d : d <> [] -> components (d ++ [ch "/"]) = components d.
Proof.
  intros Hd. unfold components. rewrite split_char_at. rewrite omap_app. cbn [omap list_omap split_char part_component]. rewrite app_nil_r.
  f_equal. destruct d as [|c r]; [done|]. cbn [Datatypes.app]. rewrite !is_absolute_cons.
  destruct (c =? ch "/"); [done|]. by destruct (split_char_cons (ch "/") (c :: r)) as (p & ps & ->).
Qed.

Lemma components_join d name : plain_name name -> components (path_join d name) = components d ++ [Normal name].
Proof.
  intros H. unfold path_join. assert (is_absolute name = false) as ->.
  { destruct H as (Hs & H0 & _). destruct name as [|c r]; [done|]. rewrite is_absolute_cons. apply Z.eqb_neq. intros ->. by destruct Hs; left. }
  destruct (last d) as [c|] eqn:El.
  - apply last_Some in El as [d' ->]. destruct (Z.eqb_spec c (ch "/")) as [->|Hc].
    + rewrite <- app_assoc. cbn [Datatypes.app]. destruct d' as [|c' r'].
      * cbn [Datatypes.app]. unfold components. cbn [split_char Z.eqb Pos.eqb]. rewrite !is_absolute_cons, split_char_solid by apply H.
        cbn [omap list_omap part_component]. by rewrite (part_plain _ H).
      * rewrite components_after, components_slash by done. done.
    + apply components_after; [by destruct d'|done].
  - apply last_None in El as ->. by apply components_single.
Qed.

Lemma path_file_name_join d name : plain_name name -> path_file_name (path_join d name) = Some name.
Proof. intros H. unfold path_file_name. rewrite (components_join d name H), last_snoc. done. Qed.

Lemma path_starts_with_trans p q base : (exists c, components p = components q ++ c) -> path_starts_with q base = true -> path_starts_with p base = true.
Proof.
  unfold path_starts_with. rewrite !is_prefix_spec. intros [c ->] [c' ->]. exists (c' ++ c). by rewrite app_assoc.
Qed.

Lemma path_starts_with_refl p : path_starts_with p p = true.
Proof. apply is_prefix_spec. exists []. by rewrite app_nil_r. Qed.

(** * Names *)

Lemma plain_char_ok c : plain_char c <> ch "/" /\ plain_char c <> ch ".".
Proof.
  unfold plain_char. destruct (_ || _) eqn:E; [|done]. unfold is_ascii_alphanumeric, is_ascii_digit in E.
  split; intros ->; vm_compute in E; discriminate.
Qed.

Lemma folder_name_plain zip : plain_name (folder_name zip) /\ (length (folder_name zip) <= 80)%nat /\
  Forall (fun c => is_ascii_alphanumeric c || (c =? ch "-") || (c =? ch "_") = true) (folder_name zip).
Proof.
  unfold folder_name. set (clean := take 80 _). assert (Forall (fun c => is_ascii_alphanumeric c || (c =? ch "-") || (c =? ch "_") = true) clean) as Hf.
  { apply Forall_take, Forall_fmap, Forall_forall. intros c _. cbn. unfold plain_char. by destruct (is_ascii_alphanumeric c || (c =? ch "-") || (c =? ch "_")) eqn:E. }
  assert (length clean <= 80)%nat as Hl by (unfold clean; rewrite length_take; lia).
  assert (Forall (fun c => c <> ch "/" /\ c <> ch ".") clean) as Hc.
  { apply Forall_take, Forall_fmap, Forall_forall. intros c _. apply plain_char_ok. }
  destruct clean as [|c r] eqn:E.
  - split; [|split; [vm_compute; lia|by repeat constructor]]. split; [|done]. by rewrite <- contains_char_spec.
  - split; [|done]. rewrite Forall_forall in Hc. split; [intros Hin; by apply Hc in Hin as [? _]|]. split; [done|].
    specialize (Hc c ltac:(by left)) as [_ Hc]. split; intros [= -> _]; done.
Qed.

Definition as_frame (t : ObjectType) (n : Z) : Frame :=
  {| stop_method := []; object := {| object_type := t; number := n |}; stop_object := []; frame_line := 0 |}.

Lemma file_name_plain t n : named t -> in_i32 n = true -> plain_name (file_name t n).
Proof.
  intros Ht Hn. split; [exact (source_file_no_slash (as_frame t n) Ht Hn)|]. unfold file_name. destruct t; try done; by repeat split.
Qed.

(** * The choice of a file *)

Lemma dedup_from_elem {A} `{EqDecision A} (x y : A) l : y ∈ x :: dedup_from x l <-> y ∈ x :: l.
Proof.
  revert x. induction l as [|z l IH]; intros x; [done|]. cbn. destruct (decide (x = z)) as [->|Hne].
  - rewrite IH. rewrite !elem_of_cons. tauto.
  - rewrite !(elem_of_cons _ _ x), (IH z). done.
Qed.

Lemma dedup_elem {A} `{EqDecision A} (y : A) l : y ∈ dedup l <-> y ∈ l.
Proof. destruct l as [|x l]; [done|]. apply dedup_from_elem. Qed.

Section choose.
Context (archive : SnapshotArchive) (extracted : gmap (ObjectType * Z) str).
Context (workspace package : Z -> Z -> option str) (read : str -> option str).

(** The first file there is. *)
Definition file_of (key : ObjectType * Z) : option str :=
  let kind := as_i8 (fst key) in
  match workspace kind (snd key) with
  | Some p => Some p
  | None => match extracted !! key with Some p => Some p | None => package kind (snd key) end
  end.

(** The note on an object. *)
Definition notice_of (key : ObjectType * Z) : list str :=
  let '(t, n) := key in
  match workspace (as_i8 t) n with
  | Some path =>
      match source archive t n, read path with
      | Some ran, Some now => if same_text ran now then [] else [differs_notice path t n]
      | _, _ => []
      end
  | None => match file_of key with Some _ => [] | None => [missing_notice t n] end
  end.

Lemma choose_one_spec fs key :
  choose_one archive extracted workspace package read fs key =
    {| chosen := match file_of key with Some p => <[key := p]> (chosen fs) | None => chosen fs end; notices := notices fs ++ notice_of key |}.
Proof.
  destruct key as [t n]. unfold choose_one, notice_of, file_of. cbn [fst snd]. destruct (workspace (as_i8 t) n) as [p|].
  - destruct (source archive t n) as [ran|]; [|by rewrite app_nil_r]. destruct (read p) as [now|]; [|by rewrite app_nil_r].
    destruct (same_text ran now); [by rewrite app_nil_r|done].
  - destruct (extracted !! (t, n)) as [p|]; [by rewrite app_nil_r|]. destruct (package (as_i8 t) n); [by rewrite app_nil_r|done].
Qed.

Lemma choose_all l fs :
  let fs' := foldl (choose_one archive extracted workspace package read) fs l in
  (forall key, chosen fs' !! key = if decide (key ∈ l) then match file_of key with Some p => Some p | None => chosen fs !! key end else chosen fs !! key) /\
  notices fs' = notices fs ++ (l ≫= notice_of).
Proof.
  revert fs. induction l as [|x l IH]; intros fs; cbn [foldl]; [split; [done|by rewrite app_nil_r]|].
  rewrite choose_one_spec. destruct (IH {| chosen := match file_of x with Some p => <[x := p]> (chosen fs) | None => chosen fs end; notices := notices fs ++ notice_of x |}) as [H1 H2].
  split; [|rewrite H2; cbn [notices]; change ((x :: l) ≫= notice_of) with (notice_of x ++ (l ≫= notice_of)); by rewrite app_assoc].
  intros key. rewrite H1. cbn [chosen]. destruct (decide (key = x)) as [->|Hne].
  - rewrite (decide_True (P := x ∈ x :: l)) by by left. destruct (file_of x) as [p|]; [rewrite lookup_insert_eq|]; by destruct (decide (x ∈ l)).
  - assert (match file_of x with Some p => <[x := p]> (chosen fs) | None => chosen fs end !! key = chosen fs !! key) as ->
      by (destruct (file_of x); [by rewrite lookup_insert_ne|done]).
    destruct (decide (key ∈ l)) as [H|H]; [by rewrite decide_True by by right|]. rewrite decide_False; [done|]. intros [->|?]%elem_of_cons; done.
Qed.

Lemma objects_elem key : key ∈ objects archive <->
  is_Some (sources archive !! key) \/ exists c, c ∈ contexts archive /\ key ∈ context_objects c.
Proof.
  unfold objects. rewrite dedup_elem, sort_by_perm, elem_of_app. unfold source_ids. rewrite sort_by_perm, list_elem_of_fmap, list_elem_of_bind.
  split.
  - intros [([k v] & -> & Hk%elem_of_map_to_list)|(c & H1 & H2)]; [left; by exists v|right; by exists c].
  - intros [[v Hv]|(c & H1 & H2)]; [left; exists (key, v); split; [done|by apply elem_of_map_to_list]|right; by exists c].
Qed.
End choose.


Example two_dots_stay_inside : path_join (lit "/tmp/sources") (folder_name (lit "../..")) = lit "/tmp/sources/snapshot".
Proof. vm_compute. reflexivity. Qed.
