(* ===== verification/JsonArena.v ===== *)
(** The nodes behind the AL JSON types ([interpreter/json.rs]).

    A [JsonObject], [JsonArray], [JsonToken] or [JsonValue] is a handle that the
    arena maps to a node, so copies of a variable share one node, and the
    children of an object or array are nodes too.  Operations run on the
    [JsonState]: the arena, the counter [fresh_id] draws from, the shared
    contents with the total of held bytes, and what a call changes of the frames
    and of its [var] arguments.  [None] is a panic: the id of no node, or a walk
    out of fuel.  The walks over nested values take the levels the code allows,
    and [walk_fuel] counts the edges there are to follow.

    [serde_json], the scientific notation of [rust_decimal], the [Debug] text of
    a string and the layout of a node are the class [JsonLibs]. *)

From Stdlib Require Import ZArith Lia.
From stdpp Require Import base tactics numbers option list gmap strings.
From S2P Require Import Prelude RustStr StrSearch Decimals Values Slots Scopes Renders Collections.

#[local] Open Scope Z_scope.
#[local] Open Scope rust_scope.

(** * What the code relies on *)

(** [serde_json::Value]; a number is its text. *)
Inductive Document :=
  | DNull
  | DBool (b : bool)
  | DNumber (text : str)
  | DString (s : str)
  | DArray (items : list Document)
  | DObject (entries : list (str * Document)).

Class JsonLibs {D : Decimal} := {
  (** [serde_json::from_str], and the text of a [Value::String]. *)
  json_parse : str -> Res str Document;
  json_string : str -> str;
  from_scientific : str -> option decimal;
  debug_str : str -> str;
  (** [size_of::<(usize, Node)>()]. *)
  node_entry_size : Z;
}.

(** * The arena *)

Section arena.
Context {D : Decimal}.

Inductive Scalar :=
  | SNull
  | SBool (b : bool)
  | SNumber (n : decimal)
  | SText (t : str).

Inductive Node :=
  | NObject (entries : list (str * Z))
  | NArray (items : list Z)
  | NScalar (s : Scalar).

Record JsonArena := {
  nodes : gmap Z Node;
  attached : gset Z;
  targets : gmap Z Z;
}.

Record JsonState := {
  arena : JsonArena;
  fresh : Z;
  shared : Shared;
  stack : ScopeStack;
  writebacks : list (nat * Value);
}.

Definition with_arena (a : JsonArena) (s : JsonState) : JsonState :=
  {| arena := a; fresh := fresh s; shared := shared s; stack := stack s; writebacks := writebacks s |}.
Definition with_fresh (n : Z) (s : JsonState) : JsonState :=
  {| arena := arena s; fresh := n; shared := shared s; stack := stack s; writebacks := writebacks s |}.
Definition with_shared (sh : Shared) (s : JsonState) : JsonState :=
  {| arena := arena s; fresh := fresh s; shared := sh; stack := stack s; writebacks := writebacks s |}.
Definition with_stack (st : ScopeStack) (s : JsonState) : JsonState :=
  {| arena := arena s; fresh := fresh s; shared := shared s; stack := st; writebacks := writebacks s |}.
Definition with_writebacks (l : list (nat * Value)) (s : JsonState) : JsonState :=
  {| arena := arena s; fresh := fresh s; shared := shared s; stack := stack s; writebacks := l |}.

Definition with_total (n : Z) (s : JsonState) : JsonState :=
  with_shared {| cells := cells (shared s); counts := counts (shared s); total := n; next := next (shared s) |} s.
Definition held_total (s : JsonState) : Z := total (shared s).

Definition with_nodes (m : gmap Z Node) (s : JsonState) : JsonState :=
  with_arena {| nodes := m; attached := attached (arena s); targets := targets (arena s) |} s.
Definition with_attached (x : gset Z) (s : JsonState) : JsonState :=
  with_arena {| nodes := nodes (arena s); attached := x; targets := targets (arena s) |} s.
Definition with_targets (m : gmap Z Z) (s : JsonState) : JsonState :=
  with_arena {| nodes := nodes (arena s); attached := attached (arena s); targets := m |} s.

(** ** State, errors and panics *)

Definition M (E A : Type) : Type := JsonState -> option (Res E A * JsonState).

Definition ret {E A} (a : A) : M E A := fun s => Some (Ok a, s).
Definition fail {E A} (e : E) : M E A := fun s => Some (Err e, s).
Definition bind {E A B} (m : M E A) (k : A -> M E B) : M E B := fun s =>
  match m s with
  | Some (Ok a, s) => k a s
  | Some (Err e, s) => Some (Err e, s)
  | None => None
  end.
Definition gets {E A} (f : JsonState -> A) : M E A := fun s => Some (Ok (f s), s).
Definition modify {E} (f : JsonState -> JsonState) : M E unit := fun s => Some (Ok tt, f s).
Definition of_res {E A} (r : Res E A) : M E A := fun s => Some (r, s).
(** An index or a lookup that panics. *)
Definition expect {E A} (o : option A) : M E A := fun s => (fun a => (Ok a, s)) <$> o.
Definition map_err {E F A} (f : E -> F) (m : M E A) : M F A := fun s =>
  match m s with
  | Some (Ok a, s) => Some (Ok a, s)
  | Some (Err e, s) => Some (Err (f e), s)
  | None => None
  end.

Definition each {E A B} (f : A -> M E B) : list A -> M E (list B) :=
  fix each l :=
    match l with
    | [] => ret []
    | a :: l => bind (f a) (fun b => bind (each l) (fun bs => ret (b :: bs)))
    end.
End arena.

Notation "'let*' x ':=' m 'in' k" := (bind m (fun x => k))
  (at level 200, x pattern, m at level 100, k at level 200) : rust_scope.
Notation "m ';;' k" := (bind m (fun _ => k)) (at level 100, k at level 200, right associativity) : rust_scope.

Definition MAX_JSON_DEPTH : Z := 10000.

(** The levels a walk may enter, counting the first. *)
Definition max_levels : nat := Z.to_nat (MAX_JSON_DEPTH + 1).

Definition too_deep (operation : str) : str :=
  operation ++ lit " nested more than " ++ i64_to_str MAX_JSON_DEPTH
  ++ lit " levels deep is past the local test runtime's limit".

(** [JsonKind::name]. *)
Definition kind_name (k : JsonKind) : str :=
  lit match k with
  | JObject => "JsonObject"
  | JArray => "JsonArray"
  | JToken => "JsonToken"
  | JValue => "JsonValue"
  end.

Section json.
Context {D : Decimal} {L : JsonLibs}.

(** * Sizes *)

(** [size_of::<usize>()] and [size_of::<(String, usize)>()]. *)
Definition USIZE_BYTES : Z := 8.
Definition ENTRY_BYTES : Z := 32.
Definition ARENA_ENTRY : Z := node_entry_size + 2 * USIZE_BYTES.

Definition node_bytes (node : Node) : Z :=
  saturating_add ARENA_ENTRY
    match node with
    | NObject entries => foldr (fun e n => saturating_add ENTRY_BYTES (str_len e.1) + n) 0 entries
    | NArray items => Z.min (Z.of_nat (length items) * USIZE_BYTES) usize_max
    | NScalar (SText text) => str_len text
    | NScalar _ => 0
    end.

(** * Nodes and references *)

Definition empty_node (k : JsonKind) : Node :=
  match k with
  | JObject => NObject []
  | JArray => NArray []
  | JValue | JToken => NScalar SNull
  end.

Definition fresh_id {E} : M E Z := fun s => Some (Ok (fresh s), with_fresh (fresh s + 1) s).

Definition insert_node (id : Z) (node : Node) (s : JsonState) : JsonState :=
  with_nodes (<[id := node]> (nodes (arena s))) s.
Definition insert_target (handle node : Z) (s : JsonState) : JsonState :=
  with_targets (<[handle := node]> (targets (arena s))) s.
Definition attach {E} (id : Z) : M E unit := modify (fun s => with_attached ({[id]} ∪ attached (arena s)) s).

(** [self.nodes[&id]]. *)
Definition node_at {E} (id : Z) : M E Node := fun s => (fun n => (Ok n, s)) <$> nodes (arena s) !! id.

Definition push {E} (node : Node) : M E Z :=
  let* id := fresh_id in
  modify (fun s => with_total (add_held_bytes (node_bytes node) (held_total s)) s) ;;
  modify (insert_node id node) ;;
  ret id.

Definition target {E} (handle : Z) (k : JsonKind) : M E Z :=
  let* known := gets (fun s => targets (arena s) !! handle) in
  match known with
  | Some node => ret node
  | None =>
      let* node := push (empty_node k) in
      modify (insert_target handle node) ;;
      ret node
  end.

Definition reference {E} (k : JsonKind) (node : Z) : M E Value :=
  let* handle := fresh_id in
  modify (insert_target handle node) ;;
  ret (VJson {| kind := k; jhandle := Some handle |}).

Definition set {E} (id : Z) (node : Node) : M E unit :=
  modify (fun s =>
    let bytes := node_bytes node in
    let before := default 0 (node_bytes <$> nodes (arena s) !! id) in
    let s := insert_node id node s in
    if before <=? bytes then with_total (add_held_bytes (bytes - before) (held_total s)) s
    else with_total (release_held_bytes (before - bytes) (held_total s)) s).

Definition check_held {E} (from : str -> E) (operation : str) : M E unit :=
  let* total := gets held_total in
  map_err from (of_res (check_held_bytes operation total)).

(** * Copies *)

Fixpoint deep_copy_at (levels : nat) (id : Z) : M str Z :=
  match levels with
  | O => fail (too_deep (lit "Copying a JSON value"))
  | S levels =>
      let* node := node_at id in
      match node with
      | NObject entries =>
          let* copies := each (fun e =>
            let* copy := deep_copy_at levels (snd e) in attach copy ;; ret (fst e, copy)) entries in
          push (NObject copies)
      | NArray items =>
          let* copies := each (fun child =>
            let* copy := deep_copy_at levels child in attach copy ;; ret copy) items in
          push (NArray copies)
      | NScalar scalar => push (NScalar scalar)
      end
  end.

Definition deep_copy (id : Z) : M str Z := deep_copy_at max_levels id.

(** * Walks *)

Definition children (node : Node) : list Z :=
  match node with
  | NObject entries => snd <$> entries
  | NArray items => items
  | NScalar _ => []
  end.

(** A walk takes each edge once at most. *)
Definition walk_fuel (m : gmap Z Node) : nat :=
  (2 + sum_list_with (fun e => length (children (snd e))) (map_to_list m))%nat.

(** The stack is kept top first: [extend] puts the last child on top. *)
Fixpoint holds_loop (fuel : nat) (m : gmap Z Node) (wanted : Z) (pending : list Z) (seen : gset Z) : option bool :=
  match fuel with
  | O => None
  | S fuel =>
      match pending with
      | [] => Some false
      | id :: pending =>
          if id =? wanted then Some true
          else if bool_decide (id ∈ seen) then holds_loop fuel m wanted pending seen
          else
            node ← m !! id;
            holds_loop fuel m wanted (reverse (children node) ++ pending) ({[id]} ∪ seen)
      end
  end.

Definition holds (m : gmap Z Node) (node wanted : Z) : option bool := holds_loop (walk_fuel m) m wanted [node] ∅.

(** Here the children are pushed last first. *)
Fixpoint descendants_loop (fuel : nat) (m : gmap Z Node) (pending : list Z) (seen : gset Z) (out : list Z) :
    option (list Z) :=
  match fuel with
  | O => None
  | S fuel =>
      match pending with
      | [] => Some out
      | id :: pending =>
          if bool_decide (id ∈ seen) then descendants_loop fuel m pending seen out
          else
            node ← m !! id;
            descendants_loop fuel m (children node ++ pending) ({[id]} ∪ seen) (out ++ [id])
      end
  end.

Definition self_and_descendants (m : gmap Z Node) (node : Z) (out : list Z) : option (list Z) :=
  descendants_loop (walk_fuel m) m [node] ∅ out.

(** * Scalars and children *)

Definition scalar_of (h : heap) (value : Value) : Res str Scalar :=
  match value with
  | VNull | VEmpty => Ok SNull
  | VBoolean b => Ok (SBool b)
  | VInteger n | VBigInteger n => Ok (SNumber (dec_from n))
  | VDecimal d => Ok (SNumber d)
  | VText t | VCode t => Ok (SText t)
  | VTextBuilder a => Ok (SText (text_at h a))
  | VChar c => Ok (SText [c])
  | VGuid g => Ok (SText g)
  | VOption _ member _ => Ok (SText member)
  | VDate _ | VTime _ | VDateTime _ => Ok (SText (render_value_xml h value))
  | other => Err (lit "a " ++ type_name other ++ lit " cannot be stored in JSON by the local runtime")
  end.

Definition adding : str := lit "Adding a value to a JsonObject or JsonArray".

Definition child_for (parent : Z) (value : Value) : M str Z :=
  let* id :=
    match value with
    | VJson {| kind := k; jhandle := Some handle |} =>
        let* node := target handle k in
        let* a := gets arena in
        let* copied :=
          (if bool_decide (node ∈ attached a) then ret true else expect (holds (nodes a) node parent)) in
        if copied then deep_copy node else ret node
    | VJson {| kind := k; jhandle := None |} => push (empty_node k)
    | other =>
        let* h := gets (fun s => cells (shared s)) in
        let* scalar := of_res (scalar_of h other) in
        push (NScalar scalar)
    end in
  attach id ;;
  check_held (fun e => e) adding ;;
  ret id.

(** * Text *)

(** The texts of [items] with commas between them. *)
Fixpoint write_items {A} (write_item : A -> option (Res str str)) (first : bool) (items : list A) :
    option (Res str str) :=
  match items with
  | [] => Some (Ok [])
  | item :: items =>
      match write_item item with
      | Some (Ok text) =>
          match write_items write_item false items with
          | Some (Ok rest) => Some (Ok ((if first then [] else [ch ","]) ++ text ++ rest))
          | stops => stops
          end
      | stops => stops
      end
  end.

Definition write_string (text : str) : str := json_string text.

Definition scalar_text (s : Scalar) : str :=
  match s with
  | SNull => lit "null"
  | SBool b => lit (if b then "true" else "false")
  | SNumber n => dec_to_str (dec_normalize n)
  | SText t => write_string t
  end.

Definition enclosed (open close : char) (r : option (Res str str)) : option (Res str str) :=
  match r with
  | Some (Ok text) => Some (Ok (open :: text ++ [close]))
  | stops => stops
  end.

Fixpoint write (levels : nat) (m : gmap Z Node) (id : Z) : option (Res str str) :=
  match levels with
  | O => Some (Err (too_deep (lit "Writing a JSON value")))
  | S levels =>
      node ← m !! id;
      match node with
      | NObject entries =>
          enclosed (ch "{") (ch "}") (write_items (fun e =>
            match write levels m (snd e) with
            | Some (Ok text) => Some (Ok (write_string (fst e) ++ ch ":" :: text))
            | stops => stops
            end) true entries)
      | NArray items => enclosed (ch "[") (ch "]") (write_items (write levels m) true items)
      | NScalar scalar => Some (Ok (scalar_text scalar))
      end
  end.

Definition text_of (id : Z) : M str str := fun s =>
  (fun r => (r, s)) <$> write max_levels (nodes (arena s)) id.

(** [Decimal::from_str(..).or_else(|_| Decimal::from_scientific(..))]. *)
Definition json_number (text : str) : option decimal :=
  match dec_parse text with
  | Some n => Some n
  | None => from_scientific text
  end.

Fixpoint import (parsed : Document) : M str Z :=
  match parsed with
  | DObject map =>
      let* entries := each (fun e =>
        let* child := import (snd e) in attach child ;; ret (fst e, child)) map in
      push (NObject entries)
  | DArray items =>
      let* entries := each (fun value =>
        let* child := import value in attach child ;; ret child) items in
      push (NArray entries)
  | DNull => push (NScalar SNull)
  | DBool b => push (NScalar (SBool b))
  | DNumber text =>
      let* number := of_res (ok_or (json_number text)
        (lit "the JSON number " ++ text ++ lit " is outside the Decimal range")) in
      push (NScalar (SNumber number))
  | DString s => push (NScalar (SText s))
  end.
End json.
