(* ===== verification/JsonTree.v ===== *)
(** The trees that the nodes of an arena denote, and the walks over them: which
    nodes hold which, the order in which a walk meets them, and the text they
    are written as. *)

From Stdlib Require Import ZArith Lia.
From stdpp Require Import base tactics numbers option list gmap strings relations.
From S2P Require Import Prelude RustStr StrSearch Decimals Values Slots Scopes Renders Collections JsonArena.

#[local] Open Scope Z_scope.

Lemma elem_of_concat {A} (ls : list (list A)) x : x ∈ concat ls <-> exists l, l ∈ ls /\ x ∈ l.
Proof.
  induction ls as [|l ls IH]; simpl; [split; [by intros []%elem_of_nil|by intros (l & []%elem_of_nil & _)]|].
  rewrite elem_of_app, IH. split.
  - intros [H|(k & Hk & H)]; [exists l; split; [left|done]|exists k; split; [by right|done]].
  - intros (k & [->|Hk]%elem_of_cons & H); [by left|right; by exists k].
Qed.

(** * Trees *)

Section trees.
Context {D : Decimal}.

Inductive Tree :=
  | TObject (entries : list (str * Tree))
  | TArray (items : list Tree)
  | TScalar (s : Scalar).

(** The tree at a node, if it ends within [levels] levels. *)
Fixpoint tree_at (levels : nat) (m : gmap Z Node) (id : Z) : option Tree :=
  match levels with
  | O => None
  | S levels =>
      node ← m !! id;
      match node with
      | NObject entries => TObject <$> mapM (fun e => pair (fst e) <$> tree_at levels m (snd e)) entries
      | NArray items => TArray <$> mapM (tree_at levels m) items
      | NScalar s => Some (TScalar s)
      end
  end.

Definition denotes (m : gmap Z Node) (id : Z) (t : Tree) : Prop := exists levels, tree_at levels m id = Some t.

Definition deepest : list nat -> nat := foldr Nat.max 0%nat.

Fixpoint height (t : Tree) : nat :=
  match t with
  | TObject entries => S (deepest ((fun e => height (snd e)) <$> entries))
  | TArray items => S (deepest (height <$> items))
  | TScalar _ => 1
  end.

Lemma deepest_le l n : (deepest l <= n)%nat <-> Forall (fun k => k <= n)%nat l.
Proof.
  induction l as [|k l IH]; simpl; [split; [constructor|lia]|].
  rewrite Forall_cons, <- IH. lia.
Qed.

(** ** The levels a tree needs *)

(** What [tree_at] does at one node, over what it does at the children. *)
Definition layer (f : Z -> option Tree) (node : Node) : option Tree :=
  match node with
  | NObject entries => TObject <$> mapM (fun e => pair (fst e) <$> f (snd e)) entries
  | NArray items => TArray <$> mapM f items
  | NScalar s => Some (TScalar s)
  end.

Lemma tree_at_S n m id : tree_at (S n) m id = m !! id ≫= layer (tree_at n m).
Proof. reflexivity. Qed.

Lemma layer_mono (f g : Z -> option Tree) node t :
  (forall c t, c ∈ children node -> f c = Some t -> g c = Some t) -> layer f node = Some t -> layer g node = Some t.
Proof.
  intros H. destruct node as [entries|items|s]; cbn [layer children] in *; [| |done].
  - intros (l & Hl & ->)%fmap_Some. apply mapM_Some in Hl. apply fmap_Some. exists l. split; [|done].
    apply mapM_Some. induction Hl as [|e t' es ts He Hl IH]; constructor.
    + apply fmap_Some in He as (t0 & Ht & ->). apply fmap_Some. exists t0. split; [|done]. apply H; [left|done].
    + apply IH. intros c t0 Hc. apply H. by right.
  - intros (l & Hl & ->)%fmap_Some. apply mapM_Some in Hl. apply fmap_Some. exists l. split; [|done].
    apply mapM_Some. induction Hl as [|e t' es ts He Hl IH]; constructor.
    + apply H; [left|done].
    + apply IH. intros c t0 Hc. apply H. by right.
Qed.

Lemma tree_at_mono n k m id t : (n <= k)%nat -> tree_at n m id = Some t -> tree_at k m id = Some t.
Proof.
  revert k id t. induction n as [|n IH]; intros k id t Hk; [done|]. destruct k as [|k]; [lia|].
  rewrite !tree_at_S. destruct (m !! id) as [node|]; [|done]. cbn [mbind option_bind].
  apply layer_mono. intros c t' _. apply IH. lia.
Qed.

Lemma denotes_unique m id t t' : denotes m id t -> denotes m id t' -> t = t'.
Proof.
  intros (n & H) (k & H'). destruct (Nat.le_ge_cases n k) as [L|L].
  - apply (tree_at_mono _ _ _ _ _ L) in H. congruence.
  - apply (tree_at_mono _ _ _ _ _ L) in H'. congruence.
Qed.

(** The trees of children, for objects and arrays alike. *)
Inductive node_tree (m : gmap Z Node) : Node -> Tree -> Prop :=
  | object_tree entries ts :
      Forall2 (fun e t => fst e = fst t /\ denotes m (snd e) (snd t)) entries ts ->
      node_tree m (NObject entries) (TObject ts)
  | array_tree items ts : Forall2 (denotes m) items ts -> node_tree m (NArray items) (TArray ts)
  | scalar_tree s : node_tree m (NScalar s) (TScalar s).

Lemma layer_height (m : gmap Z Node) (f : Z -> option Tree) node n t :
  (forall c t, c ∈ children node -> f c = Some t <-> denotes m c t /\ (height t <= n)%nat) ->
  layer f node = Some t <-> node_tree m node t /\ (height t <= S n)%nat.
Proof.
  intros H. destruct node as [entries|items|s]; cbn [layer children] in *.
  - rewrite fmap_Some. setoid_rewrite mapM_Some. split.
    + intros (l & Hl & ->). assert (Forall2 (fun e t => fst e = fst t /\ denotes m (snd e) (snd t)) entries l /\
        Forall (fun e => height (snd e) <= n)%nat l) as [H1 H2].
      { induction Hl as [|e t' es ts He Hl IH]; [by split; constructor|].
        destruct IH as [IH1 IH2]; [intros c t0 Hc; apply H; by right|].
        apply fmap_Some in He as (t0 & Ht & ->). apply H in Ht as [Ht1 Ht2]; [|left].
        split; constructor; [by split|done|done|done]. }
      split; [by constructor|]. cbn [height]. apply le_n_S, deepest_le. by apply Forall_fmap.
    + intros [Hn Hh]. inversion Hn as [e0 ts Hts| |]; subst. exists ts. split; [|done].
      cbn [height] in Hh. apply le_S_n, deepest_le in Hh. rewrite Forall_fmap in Hh.
      clear Hn. induction Hts as [|e t' es ts [He Hd] Hts IH]; [constructor|].
      apply Forall_cons in Hh as [Hh Hhs]. constructor; [|apply IH; [intros c t0 Hc; apply H; by right|done]].
      apply fmap_Some. exists (snd t'). split; [|by rewrite He; destruct t']. apply H; [left|done].
  - rewrite fmap_Some. setoid_rewrite mapM_Some. split.
    + intros (l & Hl & ->). assert (Forall2 (denotes m) items l /\ Forall (fun t => height t <= n)%nat l) as [H1 H2].
      { induction Hl as [|e t' es ts He Hl IH]; [by split; constructor|].
        destruct IH as [IH1 IH2]; [intros c t0 Hc; apply H; by right|].
        apply H in He as [Ht1 Ht2]; [|left]. split; by constructor. }
      split; [by constructor|]. cbn [height]. apply le_n_S, deepest_le. by apply Forall_fmap.
    + intros [Hn Hh]. inversion Hn as [|e0 ts Hts|]; subst. exists ts. split; [|done].
      cbn [height] in Hh. apply le_S_n, deepest_le in Hh. rewrite Forall_fmap in Hh.
      clear Hn. induction Hts as [|e t' es ts Hd Hts IH]; [constructor|].
      apply Forall_cons in Hh as [Hh Hhs]. constructor; [|apply IH; [intros c t0 Hc; apply H; by right|done]].
      apply H; [left|done].
  - split; [intros [= <-]; split; [constructor|simpl; lia]|]. intros [Hn _]. by inversion Hn.
Qed.

(** Levels are enough exactly when the tree is no higher. *)
Lemma tree_at_height n m id t : tree_at n m id = Some t <-> denotes m id t /\ (height t <= n)%nat.
Proof.
  revert id t. induction n as [|n IH]; intros id t.
  - split; [done|]. intros [_ H]. destruct t; simpl in H; lia.
  - split.
    + intros H. split; [by exists (S n)|]. rewrite tree_at_S in H.
      destruct (m !! id) as [node|]; [|done]. cbn [mbind option_bind] in H.
      eapply (layer_height m) in H; [apply H|]. intros c t' _. apply IH.
    + intros [(k & Hk) Hh]. rewrite tree_at_S. destruct k as [|k]; [done|]. rewrite tree_at_S in Hk.
      destruct (m !! id) as [node|]; [|done]. cbn [mbind option_bind] in *.
      eapply (layer_height m); [intros c t' _; apply IH|]. split; [|done].
      clear -Hk. destruct node as [entries|items|s]; cbn [layer] in Hk.
      * apply fmap_Some in Hk as (l & Hl & ->). apply mapM_Some in Hl. constructor.
        eapply Forall2_impl; [exact Hl|]. intros e t He. apply fmap_Some in He as (t0 & Ht & ->). split; [done|by exists k].
      * apply fmap_Some in Hk as (l & Hl & ->). apply mapM_Some in Hl. constructor.
        eapply Forall2_impl; [exact Hl|]. intros e t He. by exists k.
      * injection Hk as <-. constructor.
Qed.

(** A node denotes what its contents do. *)
Lemma denotes_node m id t : denotes m id t <-> exists node, m !! id = Some node /\ node_tree m node t.
Proof.
  split.
  - intros H. pose proof (proj2 (tree_at_height (height t) m id t) (conj H (le_n _))) as Ht.
    assert (exists n, height t = S n) as [n Hn] by (destruct t; simpl; eauto). rewrite Hn, tree_at_S in Ht.
    destruct (m !! id) as [node|]; [|done]. exists node. split; [done|]. cbn [mbind option_bind] in Ht.
    eapply layer_height in Ht; [apply Ht|]. intros c t' _. apply tree_at_height.
  - intros (node & Hm & Hn). exists (S (height t)). rewrite tree_at_S, Hm. cbn [mbind option_bind].
    eapply (layer_height m); [intros c t' _; apply tree_at_height|]. split; [done|lia].
Qed.

(** * Which nodes hold which *)

Definition child (m : gmap Z Node) (p c : Z) : Prop := exists node, m !! p = Some node /\ c ∈ children node.
Definition reach (m : gmap Z Node) : Z -> Z -> Prop := rtc (child m).

Lemma node_tree_children m node t : node_tree m node t -> forall c, c ∈ children node -> exists t', denotes m c t' /\ (height t' < height t)%nat.
Proof.
  intros H c Hc. inversion H as [es ts Hl|cs ts Hl|]; subst; cbn [children height] in *.
  - apply list_elem_of_fmap in Hc as (e & -> & He). apply list_elem_of_lookup in He as (i & Hi).
    pose proof (Forall2_lookup_l _ _ _ _ _ Hl Hi) as (t' & Ht' & _ & Hd). exists (snd t'). split; [done|].
    apply Nat.lt_succ_r. pose proof (proj1 (deepest_le ((fun e => height (snd e)) <$> ts) _) (le_n _)) as Hf.
    rewrite Forall_fmap, Forall_lookup in Hf. by apply (Hf i).
  - apply list_elem_of_lookup in Hc as (i & Hi).
    pose proof (Forall2_lookup_l _ _ _ _ _ Hl Hi) as (t' & Ht' & Hd). exists t'. split; [done|].
    apply Nat.lt_succ_r. pose proof (proj1 (deepest_le (height <$> ts) _) (le_n _)) as Hf.
    rewrite Forall_fmap, Forall_lookup in Hf. by apply (Hf i).
  - by apply elem_of_nil in Hc.
Qed.

(** A node that denotes a tree does not hold itself. *)
Lemma denotes_reach m a b t : denotes m a t -> reach m a b -> exists t', denotes m b t' /\ (height t' <= height t)%nat.
Proof.
  intros Ht H. revert t Ht. induction H as [a|a c b (node & Hm & Hc) _ IH]; intros t Ht; [by exists t|].
  apply denotes_node in Ht as (node' & Hm' & Hn). rewrite Hm in Hm'. injection Hm' as <-.
  destruct (node_tree_children _ _ _ Hn _ Hc) as (t' & Ht' & L). destruct (IH _ Ht') as (t2 & ? & ?). exists t2. split; [done|lia].
Qed.

Lemma denotes_acyclic m a c t : denotes m a t -> child m a c -> ~ reach m c a.
Proof.
  intros Ht (node & Hm & Hc) Hr. pose proof Ht as Ht0. apply denotes_node in Ht0 as (node' & Hm' & Hn). rewrite Hm in Hm'. injection Hm' as <-.
  destruct (node_tree_children _ _ _ Hn _ Hc) as (t' & Ht' & L). destruct (denotes_reach _ _ _ _ Ht' Hr) as (t2 & Ht2 & L2).
  rewrite (denotes_unique _ _ _ _ Ht2 Ht) in L2. lia.
Qed.

(** ** Trees under changes of the arena *)

Lemma node_tree_impl m m' node t :
  (forall c t, c ∈ children node -> denotes m c t -> denotes m' c t) -> node_tree m node t -> node_tree m' node t.
Proof.
  intros H Hn. inversion Hn as [es ts Hl|cs ts Hl|]; subst; cbn [children] in *; constructor.
  - clear Hn. induction Hl as [|e t es ts [He Hd] Hl IH]; constructor; [|apply IH; intros; apply H; [by right|done]].
    split; [done|]. apply H; [left|done].
  - clear Hn. induction Hl as [|e t es ts Hd Hl IH]; constructor; [|apply IH; intros; apply H; [by right|done]].
    apply H; [left|done].
Qed.

Lemma tree_at_weaken n m m' id t : m ⊆ m' -> tree_at n m id = Some t -> tree_at n m' id = Some t.
Proof.
  intros Hsub. revert id t. induction n as [|n IH]; intros id t; [done|]. rewrite !tree_at_S.
  destruct (m !! id) as [node|] eqn:E; [|done]. rewrite (lookup_weaken _ _ _ _ E Hsub). cbn [mbind option_bind].
  apply layer_mono. intros c t' _. apply IH.
Qed.

Lemma denotes_mono m m' id t : m ⊆ m' -> denotes m id t -> denotes m' id t.
Proof. intros Hsub (n & H). exists n. by eapply tree_at_weaken. Qed.

(** A change at one node is not seen from where that node is not held. *)
Lemma denotes_update m p x id t : ~ reach m id p -> denotes m id t -> denotes (<[p := x]> m) id t.
Proof.
  intros Hr (n & H). exists n. revert id t Hr H. induction n as [|n IH]; intros id t Hr; [done|]. rewrite !tree_at_S.
  rewrite lookup_insert_ne by (intros ->; apply Hr; constructor).
  destruct (m !! id) as [node|] eqn:E; [|done]. cbn [mbind option_bind].
  apply layer_mono. intros c t' Hc. apply IH. intros Hr'. apply Hr. eapply rtc_l; [by exists node|done].
Qed.

(** * The walks *)

Definition closed (m : gmap Z Node) : Prop := forall p c, child m p c -> is_Some (m !! c).

(** The edges out of the nodes not yet seen. *)
Definition edges_left (m : gmap Z Node) (seen : gset Z) : nat :=
  sum_list_with (fun e => if bool_decide (e.1 ∈ seen) then 0%nat else length (children e.2)) (map_to_list m).

Lemma edges_left_ext m seen seen' : (forall x, is_Some (m !! x) -> x ∈ seen <-> x ∈ seen') -> edges_left m seen = edges_left m seen'.
Proof.
  intros H. unfold edges_left. assert (forall e, e ∈ map_to_list m -> e.1 ∈ seen <-> e.1 ∈ seen') as He.
  { intros [i x] Hi%elem_of_map_to_list. apply H. by exists x. }
  revert He. induction (map_to_list m) as [|e l IH]; intros He; [done|]. simpl. rewrite IH by (intros; apply He; by right).
  f_equal. pose proof (He e ltac:(left)) as Hs. by rewrite (bool_decide_ext _ _ Hs).
Qed.

Lemma edges_left_see m seen id node : m !! id = Some node -> id ∉ seen ->
  edges_left m seen = (length (children node) + edges_left m ({[id]} ∪ seen))%nat.
Proof.
  intros Hm Hs. unfold edges_left. rewrite <- (map_to_list_delete m id node Hm). simpl.
  rewrite (bool_decide_eq_false_2 (id ∈ seen)) by done. rewrite (bool_decide_eq_true_2 (id ∈ {[id]} ∪ seen)) by set_solver.
  cbn [Nat.add]. f_equal. assert (forall e, e ∈ map_to_list (delete id m) -> e.1 ∈ seen <-> e.1 ∈ {[id]} ∪ seen) as He.
  { intros [i x] Hi%elem_of_map_to_list. simpl. apply lookup_delete_Some in Hi as [Hi _]. set_solver. }
  revert He. induction (map_to_list (delete id m)) as [|e l IH]; intros He; [done|]. simpl.
  rewrite IH by (intros; apply He; by right). f_equal. pose proof (He e ltac:(left)) as Hs'. by rewrite (bool_decide_ext _ _ Hs').
Qed.

Lemma edges_left_none m : edges_left m ∅ = sum_list_with (fun e => length (children e.2)) (map_to_list m).
Proof. unfold edges_left. induction (map_to_list m) as [|e l IH]; [done|]. simpl. by rewrite IH. Qed.

Lemma holds_loop_exact m wanted start : closed m -> forall fuel pending seen,
  (length pending + edges_left m seen < fuel)%nat ->
  Forall (fun x => is_Some (m !! x) /\ reach m start x) pending -> (start ∈ seen \/ start ∈ pending) ->
  (forall x, x ∈ seen -> x <> wanted /\ forall c, child m x c -> c ∈ seen \/ c ∈ pending) ->
  exists b, holds_loop fuel m wanted pending seen = Some b /\ (b = true <-> reach m start wanted).
Proof.
  intros Hc. induction fuel as [|fuel IH]; intros pending seen Hf Hp Hs Hseen; [lia|]. cbn [holds_loop].
  destruct pending as [|id pending].
  - exists false. split; [done|]. split; [done|]. intros Hr. exfalso.
    assert (forall a b, reach m a b -> a ∈ seen -> b ∈ seen) as Hcl.
    { intros a b Hab. induction Hab as [|a c b Hac _ IHr]; [done|]. intros Ha. apply IHr.
      destruct (Hseen _ Ha) as [_ Hch]. destruct (Hch _ Hac) as [?|[]%elem_of_nil]. done. }
    destruct Hs as [Hs|[]%elem_of_nil]. by destruct (Hseen _ (Hcl _ _ Hr Hs)).
  - apply Forall_cons in Hp as [[[node Hid] Hr] Hp]. destruct (Z.eqb_spec id wanted) as [->|Hw]; [by exists true|].
    cbn [length] in Hf. case_bool_decide as Hin.
    + apply IH; [lia|done|destruct Hs as [?|[->|?]%elem_of_cons]; auto|].
      intros x Hx. destruct (Hseen _ Hx) as [Hxw Hch]. split; [done|]. intros c Hxc.
      destruct (Hch c Hxc) as [?|[->|?]%elem_of_cons]; auto.
    + rewrite Hid. cbn [mbind option_bind]. apply IH.
      * rewrite (edges_left_see _ _ _ _ Hid Hin) in Hf. rewrite length_app, length_reverse. lia.
      * apply Forall_app. split; [|done]. apply Forall_reverse, Forall_forall. intros c Hcn.
        assert (child m id c) as Hic by (by exists node). split; [by eapply Hc|]. eapply rtc_r; done.
      * rewrite elem_of_union, elem_of_singleton, elem_of_app. destruct Hs as [?|[->|?]%elem_of_cons]; auto.
      * intros x [->%elem_of_singleton|Hx]%elem_of_union.
        -- split; [done|]. intros c (node' & Hn' & Hcn). rewrite Hid in Hn'. injection Hn' as <-.
           right. apply elem_of_app. left. by apply elem_of_reverse.
        -- destruct (Hseen _ Hx) as [Hxw Hch]. split; [done|]. intros c Hxc. rewrite elem_of_union, elem_of_singleton, elem_of_app.
           destruct (Hch c Hxc) as [?|[->|?]%elem_of_cons]; auto.
Qed.

Lemma holds_exact m node wanted : closed m -> is_Some (m !! node) ->
  exists b, holds m node wanted = Some b /\ (b = true <-> reach m node wanted).
Proof.
  intros Hc Hn. apply holds_loop_exact; [done| | |right; left|].
  - unfold walk_fuel. rewrite edges_left_none. simpl. lia.
  - constructor; [|done]. split; [done|constructor].
  - intros x Hx. by apply not_elem_of_empty in Hx.
Qed.

(** ** Document order *)

Definition subtree_list (t : Tree) : list Tree :=
  match t with
  | TObject entries => snd <$> entries
  | TArray items => items
  | TScalar _ => []
  end.

(** A tree and all it holds, a tree before what it holds. *)
Fixpoint subtrees (t : Tree) : list Tree :=
  t :: match t with
       | TObject entries => entries ≫= fun e => subtrees (snd e)
       | TArray items => items ≫= subtrees
       | TScalar _ => []
       end.

Lemma subtrees_eq t : subtrees t = t :: (subtree_list t ≫= subtrees).
Proof. destruct t as [entries|items|s]; [|done|done]. cbn [subtrees subtree_list]. f_equal. induction entries as [|e l IH]; [done|]. cbn. by rewrite <- IH. Qed.

Lemma node_tree_list m node t : node_tree m node t -> Forall2 (denotes m) (children node) (subtree_list t).
Proof.
  intros H. inversion H as [es ts Hl|cs ts Hl|]; subst; cbn [children subtree_list]; [|done|constructor].
  apply Forall2_fmap. eapply Forall2_impl; [exact Hl|]. by intros e t [_ Hd].
Qed.

(** Each node is held at one place at most. *)
Definition one_holder (m : gmap Z Node) : Prop := forall p p' node node' (i i' : nat) c,
  m !! p = Some node -> m !! p' = Some node' -> children node !! i = Some c -> children node' !! i' = Some c -> p = p' /\ i = i'.

Lemma holder_unique m p p' c : one_holder m -> child m p c -> child m p' c -> p = p'.
Proof.
  intros H (n & Hn & Hc) (n' & Hn' & Hc'). apply list_elem_of_lookup in Hc as (i & Hi). apply list_elem_of_lookup in Hc' as (i' & Hi').
  by destruct (H _ _ _ _ _ _ _ Hn Hn' Hi Hi').
Qed.

(** Two nodes that hold a third hold one another. *)
Lemma reach_linear m a b x : one_holder m -> reach m a x -> reach m b x -> reach m a b \/ reach m b a.
Proof.
  intros H Ha Hb. revert b Hb. revert x Ha. refine (rtc_ind_r _ a _ _); [by right|]. intros x y Hax Hxy IH b Hb.
  apply rtc_inv_r in Hb as [->|(z & Hbz & Hzy)]; [left; by eapply rtc_r|].
  rewrite (holder_unique _ _ _ _ H Hzy Hxy) in Hbz. by apply IH.
Qed.

(** ** The nodes a walk lists *)

(** [lists m id ids]: [ids] are [id] and what it holds, in document order. *)
Inductive lists (m : gmap Z Node) : Z -> list Z -> Prop :=
  | lists_node id node idss : m !! id = Some node -> Forall2 (lists m) (children node) idss -> lists m id (id :: concat idss).

Lemma lists_denotes m id t : denotes m id t -> exists ids, lists m id ids /\ Forall2 (denotes m) ids (subtrees t).
Proof.
  remember (height t) as n eqn:En. assert (height t <= n)%nat as Hn by lia. clear En. revert id t Hn.
  induction n as [|n IH]; intros id t Hn Ht; [destruct t; simpl in Hn; lia|].
  pose proof Ht as (node & Hm & Hnt)%denotes_node. pose proof (node_tree_list _ _ _ Hnt) as Hl.
  assert (Forall (fun t' => height t' <= n)%nat (subtree_list t)) as Hh.
  { apply Forall_lookup. intros i t' Hi. destruct (Forall2_lookup_r _ _ _ _ _ Hl Hi) as (c & Hc & Hd).
    destruct (node_tree_children _ _ _ Hnt c) as (t2 & Ht2 & L); [by eapply list_elem_of_lookup_2|].
    rewrite (denotes_unique _ _ _ _ Hd Ht2). lia. }
  assert (exists idss, Forall2 (lists m) (children node) idss /\ Forall2 (denotes m) (concat idss) (subtree_list t ≫= subtrees)) as (idss & H1 & H2).
  { revert Hh Hl. generalize (children node) (subtree_list t). intros cs ts Hh Hl. induction Hl as [|c t' cs ts Hd Hl IHl].
    - by exists [].
    - apply Forall_cons in Hh as [Hh Hhs]. destruct (IHl Hhs) as (idss & H1 & H2). destruct (IH c t' Hh Hd) as (ids & H3 & H4).
      exists (ids :: idss). split; [by constructor|]. cbn. by apply Forall2_app. }
  exists (id :: concat idss). split; [by econstructor|]. rewrite subtrees_eq. by constructor.
Qed.

Lemma lists_head m id ids : lists m id ids -> exists rest, ids = id :: rest.
Proof. intros H. inversion H; eauto. Qed.

Lemma lists_ind' m (P : Z -> list Z -> Prop) :
  (forall id node idss, m !! id = Some node -> Forall2 (fun c l => lists m c l /\ P c l) (children node) idss -> P id (id :: concat idss)) ->
  forall id ids, lists m id ids -> P id ids.
Proof.
  intros Hstep. fix IH 3. intros id ids H. destruct H as [id node idss Hm Hl]. eapply Hstep; [exact Hm|].
  clear Hm. induction Hl as [|c l cs ls Hc Hl IHl]; constructor; [split; [exact Hc|by apply IH]|exact IHl].
Qed.

Lemma lists_reach m id ids : lists m id ids -> forall x, x ∈ ids <-> reach m id x.
Proof.
  intros H. induction H as [id node idss Hm Hl] using lists_ind'. intros x. rewrite elem_of_cons, elem_of_concat. split.
  - intros [->|(ids & Hids & Hx)]; [constructor|]. apply list_elem_of_lookup in Hids as (i & Hi).
    destruct (Forall2_lookup_r _ _ _ _ _ Hl Hi) as (c & Hc & _ & Hr). eapply rtc_l; [exists node; split; [done|by eapply list_elem_of_lookup_2]|by apply Hr].
  - intros [->|(c & (node' & Hm' & Hc) & Hr)]%rtc_inv; [by left|]. right. rewrite Hm in Hm'. injection Hm' as <-.
    apply list_elem_of_lookup in Hc as (i & Hi). destruct (Forall2_lookup_l _ _ _ _ _ Hl Hi) as (ids & Hids & _ & Hx).
    exists ids. split; [by eapply list_elem_of_lookup_2|by apply Hx].
Qed.

Definition acyclic (m : gmap Z Node) : Prop := forall p c, child m p c -> ~ reach m c p.

Lemma lists_NoDup m id ids : one_holder m -> acyclic m -> lists m id ids -> NoDup ids.
Proof.
  intros Ho Ha H. induction H as [id node idss Hm Hl] using lists_ind'. constructor.
  - rewrite elem_of_concat. intros (ids & Hids & Hx).
    apply list_elem_of_lookup in Hids as (i & Hi). destruct (Forall2_lookup_r _ _ _ _ _ Hl Hi) as (c & Hc & Hlc & _).
    apply (lists_reach _ _ _ Hlc) in Hx. apply (Ha id c); [|done]. exists node. split; [done|by eapply list_elem_of_lookup_2].
  - assert (forall i j c c' l l' x, children node !! i = Some c -> children node !! j = Some c' -> idss !! i = Some l -> idss !! j = Some l' ->
      x ∈ l -> x ∈ l' -> i = j) as Hd.
    { intros i j c c' l l' x Hi Hj Hli Hlj Hx Hx'.
      destruct (Forall2_lookup_l _ _ _ _ _ Hl Hi) as (l1 & E1 & Hl1 & _). rewrite Hli in E1. injection E1 as <-.
      destruct (Forall2_lookup_l _ _ _ _ _ Hl Hj) as (l2 & E2 & Hl2 & _). rewrite Hlj in E2. injection E2 as <-.
      apply (lists_reach _ _ _ Hl1) in Hx. apply (lists_reach _ _ _ Hl2) in Hx'.
      assert (child m id c) as Hc by (exists node; split; [done|by eapply list_elem_of_lookup_2]).
      assert (child m id c') as Hc' by (exists node; split; [done|by eapply list_elem_of_lookup_2]).
      assert (forall a b, child m id a -> child m id b -> reach m a b -> a = b) as Hs.
      { intros a b Hca Hcb [?|(z & Haz & Hzb)]%rtc_inv_r; [done|]. rewrite (holder_unique _ _ _ _ Ho Hzb Hcb) in Haz.
        destruct (Ha _ _ Hca Haz). }
      assert (c = c') as <-.
      { destruct (reach_linear _ _ _ _ Ho Hx Hx') as [Hr|Hr]; [by apply Hs|symmetry; by apply Hs]. }
      by destruct (Ho _ _ _ _ _ _ _ Hm Hm Hi Hj). }
    clear Hm Ho Ha. revert Hd. induction Hl as [|c l cs ls [_ Hc] Hl IHl]; intros Hd; [constructor|]. cbn. apply NoDup_app. split_and!.
    + done.
    + intros x Hx. rewrite elem_of_concat. intros (l' & Hl' & Hx').
      apply list_elem_of_lookup in Hl' as (j & Hj). destruct (Forall2_lookup_r _ _ _ _ _ Hl Hj) as (c' & Hc' & _).
      by pose proof (Hd 0%nat (S j) c c' l l' x eq_refl Hc' eq_refl Hj Hx Hx').
    + apply IHl. intros i j a b la lb x Hi Hj Hli Hlj Hx Hx'. by injection (Hd (S i) (S j) a b la lb x Hi Hj Hli Hlj Hx Hx').
Qed.

Lemma descendants_loop_lists m : forall fuel pending seen out idss,
  Forall2 (lists m) pending idss -> NoDup (concat idss) -> (forall x, x ∈ concat idss -> x ∉ seen) ->
  (length pending + edges_left m seen < fuel)%nat ->
  descendants_loop fuel m pending seen out = Some (out ++ concat idss).
Proof.
  induction fuel as [|fuel IH]; intros pending seen out idss Hl Hd Hs Hf; [lia|]. cbn [descendants_loop].
  destruct Hl as [|id ids pending idss Hid Hl]; [by rewrite app_nil_r|].
  inversion Hid as [id' node cidss Hm Hc]; subst. cbn [concat app] in *.
  rewrite bool_decide_eq_false_2 by (apply Hs; left). rewrite Hm. cbn [mbind option_bind length] in *.
  apply NoDup_cons in Hd as [Hid1 Hd].
  rewrite (edges_left_see _ seen _ _ Hm) in Hf by (apply Hs; left).
  rewrite (IH _ _ _ (cidss ++ idss)); [by rewrite concat_app, <- app_assoc|by apply Forall2_app|by rewrite concat_app| |rewrite length_app; lia].
  rewrite concat_app. intros x Hx. rewrite not_elem_of_union, not_elem_of_singleton. split; [by intros ->|apply Hs; by right].
Qed.

(** The walk lists a tree in document order, each node once. *)
Lemma self_and_descendants_exact m id t out : one_holder m -> acyclic m -> denotes m id t ->
  exists ids, self_and_descendants m id out = Some (out ++ ids) /\ Forall2 (denotes m) ids (subtrees t) /\ NoDup ids /\
    forall x, x ∈ ids <-> reach m id x.
Proof.
  intros Ho Ha Ht. destruct (lists_denotes _ _ _ Ht) as (ids & Hl & Hd). exists ids. split_and!; [|done|by eapply lists_NoDup|by apply lists_reach].
  unfold self_and_descendants. rewrite (descendants_loop_lists _ _ _ _ _ [ids]); cbn [concat]; rewrite ?app_nil_r.
  - done.
  - by repeat constructor.
  - by eapply lists_NoDup.
  - intros x _. apply not_elem_of_empty.
  - unfold walk_fuel. rewrite edges_left_none. simpl. lia.
Qed.
End trees.

(** * Text *)

Section text.
Context {D : Decimal} {L : JsonLibs}.

(** The compact text of a tree. *)
Fixpoint show (t : Tree) : str :=
  match t with
  | TObject entries =>
      ch "{" :: join [ch ","] ((fun e => write_string (fst e) ++ ch ":" :: show (snd e)) <$> entries) ++ [ch "}"]
  | TArray items => ch "[" :: join [ch ","] (show <$> items) ++ [ch "]"]
  | TScalar s => scalar_text s
  end.

Definition writing : str := lit "Writing a JSON value".

Lemma join_bind sep s l : join sep (s :: l) = s ++ (l ≫= fun x => sep ++ x).
Proof. revert s. induction l as [|x l IH]; intros s; [by rewrite app_nil_r|]. change (join sep (s :: x :: l)) with (s ++ sep ++ join sep (x :: l)). rewrite IH. cbn. by rewrite <- app_assoc. Qed.

(** Either every item is written, or some item fails with [e]. *)
Lemma write_items_exact {A B} (f : A -> option (Res str str)) (g : B -> str) (bad : B -> Prop) (e : str) first items ts :
  Forall2 (fun a t => f a = Some (Ok (g t)) /\ ~ bad t \/ f a = Some (Err e) /\ bad t) items ts ->
  (write_items f first items = Some (Ok (if first then join [ch ","] (g <$> ts) else (g <$> ts) ≫= fun x => [ch ","] ++ x)) /\ Forall (fun t => ~ bad t) ts) \/
  (write_items f first items = Some (Err e) /\ Exists bad ts).
Proof.
  intros H. revert first. induction H as [|a t items ts Ha H IH]; intros first.
  - left. split; [|constructor]. by destruct first.
  - cbn [write_items]. destruct Ha as [[-> Ht]|[-> Ht]]; [|right; split; [done|by constructor]].
    destruct (IH false) as [[-> Hf]|[-> He]]; [|right; split; [done|by apply Exists_cons_tl]].
    left. split; [|by constructor]. destruct first; [|done]. by rewrite fmap_cons, join_bind.
Qed.

(** [WriteTo] writes the tree when it is at most [n] levels high, and reports
    the depth otherwise. *)
Lemma write_exact n m id t : denotes m id t ->
  write n m id = Some (if decide (height t <= n)%nat then Ok (show t) else Err (too_deep writing)).
Proof.
  revert id t. induction n as [|n IH]; intros id t Ht; [rewrite decide_False by (destruct t; simpl; lia); done|].
  cbn [write]. apply denotes_node in Ht as (node & -> & Hn). cbn [mbind option_bind].
  inversion Hn as [es ts Hl|cs ts Hl|]; subst; cbn [height show]; [| |rewrite decide_True by lia; done].
  - pose proof (write_items_exact (fun e => match write n m e.2 with Some (Ok text) => Some (Ok (write_string e.1 ++ ch ":" :: text)) | stops => stops end)
      (fun e => write_string e.1 ++ ch ":" :: show e.2) (fun e => n < height e.2)%nat (too_deep writing) true es ts) as Hw.
    destruct Hw as [[-> Hf]|[-> He]].
    + eapply Forall2_impl; [exact Hl|]. intros e t' [-> Hd]. rewrite (IH _ _ Hd). case_decide; [left|right]; split; (done || lia).
    + rewrite decide_True; [done|]. apply le_n_S, deepest_le, Forall_fmap. eapply Forall_impl; [exact Hf|]. intros e. cbn. lia.
    + rewrite decide_False; [done|]. intros Hle%le_S_n%deepest_le. rewrite Forall_fmap in Hle. apply Exists_exists in He as (e & Hin & He).
      rewrite Forall_forall in Hle. specialize (Hle _ Hin). cbn in Hle. lia.
  - pose proof (write_items_exact (write n m) show (fun t => n < height t)%nat (too_deep writing) true cs ts) as Hw.
    destruct Hw as [[-> Hf]|[-> He]].
    + eapply Forall2_impl; [exact Hl|]. intros e t' Hd. rewrite (IH _ _ Hd). case_decide; [left|right]; split; (done || lia).
    + rewrite decide_True; [done|]. apply le_n_S, deepest_le, Forall_fmap. eapply Forall_impl; [exact Hf|]. intros e. cbn. lia.
    + rewrite decide_False; [done|]. intros Hle%le_S_n%deepest_le. rewrite Forall_fmap in Hle. apply Exists_exists in He as (e & Hin & He).
      rewrite Forall_forall in Hle. specialize (Hle _ Hin). cbn in Hle. lia.
Qed.

(** The tree of a parsed document; none when a number has no decimal. *)
Fixpoint document_tree (d : Document) : option Tree :=
  match d with
  | DObject entries => TObject <$> mapM (fun e => pair (fst e) <$> document_tree (snd e)) entries
  | DArray items => TArray <$> mapM document_tree items
  | DNull => Some (TScalar SNull)
  | DBool b => Some (TScalar (SBool b))
  | DNumber text => TScalar ∘ SNumber <$> json_number text
  | DString s => Some (TScalar (SText s))
  end.

(** The keys of every object are distinct. *)
Fixpoint distinct_keys (d : Document) : Prop :=
  match d with
  | DObject entries => NoDup (fst <$> entries) /\ foldr (fun e P => distinct_keys (snd e) /\ P) True entries
  | DArray items => foldr (fun d P => distinct_keys d /\ P) True items
  | _ => True
  end.
End text.
