(* ===== verification/JsonPaths.v ===== *)
(** The paths of [SelectToken] ([interpreter/json.rs]): parsing them, and the
    nodes they select.  Reading a path always ends; the nodes a path selects are
    those that its steps select in the tree; and each way the steps of a path can
    be written, filters apart, is read as those steps.

    The parser takes fuel, [None] being its end; the length of the path and one
    more is enough.  In the selection [None] is the panic of an id of no node. *)

From Stdlib Require Import ZArith Lia.
From stdpp Require Import base tactics numbers option list gmap strings relations.
From S2P Require Import Prelude RustStr StrSearch Decimals Values Slots Scopes Renders Texts TextSpec Collections JsonArena JsonTree.

#[local] Open Scope Z_scope.
#[local] Open Scope rust_scope.

(** * Paths *)

Inductive CompareOp := CEq | CNe | CLt | CLe | CGt | CGe.

#[export] Instance CompareOp_eq_dec : EqDecision CompareOp.
Proof. solve_decision. Defined.

Section paths.
Context {D : Decimal}.

Inductive PathStep :=
  | PMember (name : str)
  | PIndex (at_ : Z)
  | PWildcard
  | PDescend
  | PFilter (filter : PathFilter)
with PathFilter : Type :=
  | FAny (parts : list PathFilter)
  | FAll (parts : list PathFilter)
  | FExists (operand : FilterOperand)
  | FCompare (lhs : FilterOperand) (op : CompareOp) (rhs : FilterOperand)
with FilterOperand : Type :=
  | OPath (from_root : bool) (steps : list PathStep)
  | OLiteral (s : Scalar).

(** * Parsing *)

Inductive PathError :=
  | Invalid (message : str)
  | Unsupported (message : str).

Definition into_message (e : PathError) : str := match e with Invalid m | Unsupported m => m end.

Definition unsupported (what : string) (text path : str) : PathError :=
  Unsupported (lit "the " ++ lit what ++ lit " '" ++ text ++ lit "' in path '" ++ path
               ++ lit "' is not supported by the local runtime").

Definition in_path (path : str) : str := lit " in path '" ++ path ++ lit "'".

(** Where a name ends. *)
Definition ends_name (in_filter : bool) (c : char) : bool :=
  (c =? ch ".") || (c =? ch "[") || (in_filter && (is_whitespace c || contains_char c (lit "=!<>&|)"))).
Definition name_end (in_filter : bool) (text : str) : nat :=
  default (length text) (find_char (ends_name in_filter) text).

Definition dotted_step (text path : str) (in_filter : bool) : Res PathError (PathStep * str) :=
  match strip_prefix (lit "*") text with
  | Some after => Ok (PWildcard, after)
  | None =>
      let end_ := name_end in_filter text in
      if (end_ =? 0)%nat then Err (Invalid (lit "a name is missing after '.'" ++ in_path path))
      else Ok (PMember (take end_ text), drop end_ text)
  end.

(** The position of the [)] that closes a filter. *)
Fixpoint filter_end_loop (text : str) (at_ depth : nat) (quoted : bool) : option nat :=
  match text with
  | [] => None
  | c :: text =>
      if c =? ch "'" then filter_end_loop text (S at_) depth (negb quoted)
      else if (c =? ch "(") && negb quoted then filter_end_loop text (S at_) (S depth) quoted
      else if (c =? ch ")") && negb quoted then
        if (depth - 1 =? 0)%nat then if starts_with (lit "]") text then Some at_ else None
        else filter_end_loop text (S at_) (depth - 1) quoted
      else filter_end_loop text (S at_) depth quoted
  end.
Definition filter_end (text : str) : option nat := filter_end_loop text 0 1 false.

Definition joined (parts : list PathFilter) (join : list PathFilter -> PathFilter) : PathFilter :=
  match parts with
  | [part] => part
  | _ => join parts
  end.

Definition comparisons : list (str * CompareOp) :=
  [(lit "==", CEq); (lit "!=", CNe); (lit "<=", CLe); (lit ">=", CGe); (lit "<", CLt); (lit ">", CGt)].

Definition words : list (str * Scalar) :=
  [(lit "true", SBool true); (lit "false", SBool false); (lit "null", SNull)].

Fixpoint word_literal (l : list (str * Scalar)) (text : str) : option (FilterOperand * str) :=
  match l with
  | [] => None
  | (word, scalar) :: l =>
      match strip_prefix word text with
      | Some rest => Some (OLiteral scalar, rest)
      | None => word_literal l text
      end
  end.

Definition in_number (c : char) : bool := is_ascii_digit c || contains_char c (lit "+-.eE").

(** The steps [[n]], [[*]] and [['name']]: all but filters. *)
Definition plain_bracket (text path : str) : Res PathError (PathStep * str) :=
  let inner := drop 1 text in
  match strip_prefix (lit "'") inner with
  | Some after =>
      match find_char (Z.eqb (ch "'")) after with
      | None => Err (Invalid (lit "unclosed quote" ++ in_path path))
      | Some close =>
          match strip_prefix (lit "]") (trim_start (drop (S close) after)) with
          | Some rest => Ok (PMember (take close after), rest)
          | None =>
              let end_ := match find_char (Z.eqb (ch "]")) text with Some at_ => S at_ | None => length text end in
              Err (unsupported "step" (take end_ text) path)
          end
      end
  | None =>
      match find_char (Z.eqb (ch "]")) inner with
      | None => Err (Invalid (lit "unclosed '['" ++ in_path path))
      | Some close =>
          let step := take (close + 2) text in
          let inside := trim (take close inner) in
          let rest := drop (S close) inner in
          if str_is inside "*" then Ok (PWildcard, rest)
          else if negb (str_eqb inside []) && forallb is_ascii_digit inside then
            match parse_usize inside with
            | Some index => Ok (PIndex index, rest)
            | None => Err (Invalid (lit "index " ++ inside ++ lit " is too large" ++ in_path path))
            end
          else Err (unsupported "step" step path)
      end
  end.

Context {L : JsonLibs}.

Definition number_literal (text : str) : option (FilterOperand * str) :=
  let end_ := default (length text) (find_char (fun c => negb (in_number c)) text) in
  n ← json_number (take end_ text);
  Some (OLiteral (SNumber n), drop end_ text).

(** The loop of [parse_steps]; the other three are the functions of their name,
    [filter_loop] being the loop of [parse_filter]. *)
Fixpoint steps_loop (fuel : nat) (steps : list PathStep) (rest path : str) (in_filter : bool) :
    option (Res PathError (list PathStep * str)) :=
  match fuel with
  | O => None
  | S fuel =>
      let dotted steps after :=
        match dotted_step after path in_filter with
        | Ok (step, after) => steps_loop fuel (steps ++ [step]) after path in_filter
        | Err e => Some (Err e)
        end in
      match strip_prefix (lit "..") rest with
      | Some after =>
          if starts_with (lit "[") after then steps_loop fuel (steps ++ [PDescend]) after path in_filter
          else dotted (steps ++ [PDescend]) after
      | None =>
          match strip_prefix (lit ".") rest with
          | Some after => dotted steps after
          | None =>
              if starts_with (lit "[") rest then
                match bracket_step fuel rest path with
                | Some (Ok (step, after)) => steps_loop fuel (steps ++ [step]) after path in_filter
                | Some (Err e) => Some (Err e)
                | None => None
                end
              else Some (Ok (steps, rest))
          end
      end
  end
with bracket_step (fuel : nat) (text path : str) : option (Res PathError (PathStep * str)) :=
  match fuel with
  | O => None
  | S fuel =>
      match strip_prefix (lit "?(") (drop 1 text) with
      | Some after =>
          match filter_end after with
          | None => Some (Err (Invalid (lit "unclosed filter" ++ in_path path)))
          | Some close =>
              match filter_loop fuel [] [] (take close after) (take close after) path with
              | Some (Ok filter) => Some (Ok (PFilter filter, drop (close + 2) after))
              | Some (Err e) => Some (Err e)
              | None => None
              end
          end
      | None => Some (plain_bracket text path)
      end
  end
with filter_loop (fuel : nat) (any all : list PathFilter) (rest expression path : str) :
    option (Res PathError PathFilter) :=
  match fuel with
  | O => None
  | S fuel =>
      let refuse := Some (Err (unsupported "filter" expression path)) in
      let rest := trim_start rest in
      if starts_with (lit "(") rest || starts_with (lit "!") rest then refuse
      else
        match parse_operand fuel rest path with
        | None => None
        | Some None => refuse
        | Some (Some (lhs, after)) =>
            let rest := trim_start after in
            let next part rest :=
              let all := all ++ [part] in
              match strip_prefix (lit "&&") rest with
              | Some after => filter_loop fuel any all after expression path
              | None =>
                  match strip_prefix (lit "||") rest with
                  | Some after => filter_loop fuel (any ++ [joined all FAll]) [] after expression path
                  | None =>
                      match rest with
                      | [] => Some (Ok (joined (any ++ [joined all FAll]) FAny))
                      | _ => refuse
                      end
                  end
              end in
            match List.find (fun c => starts_with (fst c) rest) comparisons with
            | Some (token, op) =>
                match parse_operand fuel (trim_start (drop (length token) rest)) path with
                | None => None
                | Some None => refuse
                | Some (Some (rhs, after)) => next (FCompare lhs op rhs) (trim_start after)
                end
            | None =>
                match lhs with
                | OPath _ _ => next (FExists lhs) rest
                | OLiteral _ => refuse
                end
            end
        end
  end
with parse_operand (fuel : nat) (text path : str) : option (option (FilterOperand * str)) :=
  match fuel with
  | O => None
  | S fuel =>
      let path_from rest from_root :=
        match steps_loop fuel [] rest path true with
        | Some (Ok (steps, rest)) => Some (Some (OPath from_root steps, rest))
        | Some (Err _) => Some None
        | None => None
        end in
      match strip_prefix (lit "@") text with
      | Some rest => path_from rest false
      | None =>
          match strip_prefix (lit "$") text with
          | Some rest => path_from rest true
          | None =>
              match strip_prefix (lit "'") text with
              | Some rest =>
                  Some (close ← find_char (Z.eqb (ch "'")) rest;
                        Some (OLiteral (SText (take close rest)), drop (S close) rest))
              | None =>
                  match word_literal words text with
                  | Some found => Some (Some found)
                  | None => Some (number_literal text)
                  end
              end
          end
      end
  end.

Definition parse_steps (rest path : str) (leading_name in_filter : bool) :
    option (Res PathError (list PathStep * str)) :=
  if leading_name then
    let end_ := name_end in_filter rest in
    steps_loop (S (length rest)) [PMember (take end_ rest)] (drop end_ rest) path in_filter
  else steps_loop (S (length rest)) [] rest path in_filter.

Definition parse_path (path : str) : option (Res PathError (list PathStep)) :=
  let text := trim path in
  let rest := default text (strip_prefix (lit "$") text) in
  let relative := negb (starts_with (lit "$") text) && negb (str_eqb rest [])
                  && negb (starts_with (lit ".") rest || starts_with (lit "[") rest) in
  match parse_steps rest path relative false with
  | Some (Ok (steps, [])) => Some (Ok steps)
  | Some (Ok (_, rest)) => Some (Err (Invalid (lit "unexpected '" ++ rest ++ lit "'" ++ in_path path)))
  | Some (Err e) => Some (Err e)
  | None => None
  end.

Definition unsupported_path_step (path : str) : option str :=
  match parse_path path with
  | Some (Err (Unsupported message)) => Some message
  | _ => None
  end.

(** * Selecting *)

(** The first entry of a key. *)
Definition find_entry {A} (key : str) (entries : list (str * A)) : option (str * A) :=
  List.find (fun e => str_eqb (fst e) key) entries.

Definition ordering (lhs rhs : option Scalar) : option comparison :=
  match lhs, rhs with
  | Some (SNumber a), Some (SNumber b) => Some (dec_cmp a b)
  | Some (SText a), Some (SText b) => Some (str_cmp a b)
  | Some (SBool a), Some (SBool b) => if Bool.eqb a b then Some Eq else None
  | Some SNull, Some SNull => Some Eq
  | _, _ => None
  end.

(** [compare]. *)
Definition compare_scalars (lhs : option Scalar) (op : CompareOp) (rhs : option Scalar) : bool :=
  match op, ordering lhs rhs with
  | CEq, order => bool_decide (order = Some Eq)
  | CNe, order => bool_decide (order <> Some Eq)
  | CLt, order => bool_decide (order = Some Lt)
  | CLe, order => bool_decide (order = Some Lt \/ order = Some Eq)
  | CGt, order => bool_decide (order = Some Gt)
  | CGe, order => bool_decide (order = Some Gt \/ order = Some Eq)
  end.

(** [any], [all] and [filter] with a test that can panic. *)
Definition any_of {A} (p : A -> option bool) : list A -> option bool :=
  fix any_of l :=
    match l with
    | [] => Some false
    | a :: l => b ← p a; if (b : bool) then Some true else any_of l
    end.
Definition all_of {A} (p : A -> option bool) : list A -> option bool :=
  fix all_of l :=
    match l with
    | [] => Some true
    | a :: l => b ← p a; if (b : bool) then all_of l else Some false
    end.
Definition filter_of {A} (p : A -> option bool) : list A -> option (list A) :=
  fix filter_of l :=
    match l with
    | [] => Some []
    | a :: l => b ← p a; kept ← filter_of l; Some (if (b : bool) then a :: kept else kept)
    end.

Variable m : gmap Z Node.

Definition member (object : Z) (key : str) : option (option Z) :=
  node ← m !! object;
  Some (match node with
        | NObject entries => snd <$> find_entry key entries
        | _ => None
        end).

Definition scope_of (descend : bool) (current : list Z) : option (list Z) :=
  if descend then foldl (fun all node => out ← all; self_and_descendants m node out) (Some []) current
  else Some current.

(** The loop of [follow], over the function of one step. *)
Definition follow_loop (step : PathStep -> Z -> option (list Z)) :
    list PathStep -> bool -> list Z -> option (list Z) :=
  fix follow_loop steps descend current :=
    match steps with
    | [] => Some current
    | PDescend :: steps => follow_loop steps true current
    | s :: steps =>
        scope ← scope_of descend current;
        found ← mapM (step s) scope;
        follow_loop steps false (concat found)
    end.

Definition option_list (o : option Z) : list Z := match o with Some a => [a] | None => [] end.

(** The scalar a node holds; [None] for an object or array. *)
Definition scalar_at (node : Z) : option (option Scalar) :=
  n ← m !! node; Some (match n with NScalar s => Some s | _ => None end).

Fixpoint path_step (root : Z) (s : PathStep) (node : Z) {struct s} : option (list Z) :=
  found ← m !! node;
  match s, found with
  | PMember key, _ => option_list <$> member node key
  | PIndex at_, NArray items => Some (option_list (items !! Z.to_nat at_))
  | PWildcard, NArray items => Some items
  | PWildcard, NObject entries => Some (snd <$> entries)
  | PFilter filter, NArray items => filter_of (fun item => accepts root item filter) items
  | _, _ => Some []
  end
with accepts (root item : Z) (filter : PathFilter) {struct filter} : option bool :=
  match filter with
  | FAny parts => any_of (fun part => accepts root item part) parts
  | FAll parts => all_of (fun part => accepts root item part) parts
  | FExists o => found ← operand root item o; Some match found with [] => false | _ => true end
  | FCompare lhs op rhs =>
      lhs ← operand root item lhs;
      rhs ← operand root item rhs;
      Some (existsb (fun a => existsb (fun b => compare_scalars a op b) rhs) lhs)
  end
with operand (root item : Z) (o : FilterOperand) {struct o} : option (list (option Scalar)) :=
  match o with
  | OLiteral scalar => Some [Some scalar]
  | OPath from_root steps =>
      found ← follow_loop (path_step root) steps false [if from_root then root else item];
      mapM scalar_at found
  end.

Definition follow (root : Z) (start : list Z) (steps : list PathStep) : option (list Z) :=
  follow_loop (path_step root) steps false start.

(** [select]: [None] is a panic. *)
Definition select (from : Z) (path : str) : option (Res str (list Z)) :=
  parsed ← parse_path path;
  match parsed with
  | Ok steps => found ← follow from [from] steps; Some (Ok found)
  | Err e => Some (Err (into_message e))
  end.
End paths.

(** * Reading ends, and paths on trees *)

(** * The parser ends *)

Section ends.
Context {D : Decimal} {L : JsonLibs}.

Lemma strip_prefix_length p s r : strip_prefix p s = Some r -> length s = (length p + length r)%nat.
Proof. intros ->%strip_prefix_Some. apply length_app. Qed.

Lemma trim_start_length s : (length (trim_start s) <= length s)%nat.
Proof.
  unfold trim_start. induction s as [|c s IH]; cbn [trim_start_matches length]; [lia|]. destruct (is_whitespace c); cbn [length]; lia.
Qed.

Lemma dotted_step_length text path f step after : dotted_step text path f = Ok (step, after) -> (length after < length text)%nat.
Proof.
  unfold dotted_step. destruct (strip_prefix _ text) as [r|] eqn:E.
  - intros [= _ <-]. apply strip_prefix_length in E. simpl in E. lia.
  - destruct (Nat.eqb_spec (name_end f text) 0); [done|]. intros [= _ <-]. rewrite length_drop.
    destruct text as [|c text]; [done|]. simpl. lia.
Qed.

Lemma find_char_length (p : char -> bool) s n : find_char p s = Some n -> (n < length s)%nat.
Proof. apply find_char_lt. Qed.

Lemma plain_bracket_length text path step after : text <> [] -> plain_bracket text path = Ok (step, after) -> (length after < length text)%nat.
Proof.
  intros Ht. assert (length (drop 1 text) < length text)%nat as Hd by (rewrite length_drop; destruct text; [done|cbn [length]; lia]).
  unfold plain_bracket. destruct (strip_prefix (lit "'") (drop 1 text)) as [r|] eqn:E.
  - apply strip_prefix_length in E. destruct (find_char _ r) as [close|] eqn:Ec; [|done].
    destruct (strip_prefix (lit "]") _) as [rest|] eqn:Er; [|done]. intros [= _ <-]. apply strip_prefix_length in Er.
    pose proof (trim_start_length (drop (S close) r)). rewrite length_drop in *. lia.
  - destruct (find_char _ (drop 1 text)) as [close|] eqn:Ec; [|done].
    assert (length (drop (S close) (drop 1 text)) < length text)%nat by (rewrite length_drop; lia).
    repeat case_match; intros [= _ <-]; done.
Qed.

(** Enough fuel for each function, and how much of the text it leaves. *)
Definition ends_steps (fuel : nat) : Prop := forall steps rest path f, (length rest < fuel)%nat ->
  exists r, steps_loop fuel steps rest path f = Some r /\ forall st after, r = Ok (st, after) -> (length after <= length rest)%nat.
Definition ends_bracket (fuel : nat) : Prop := forall text path, text <> [] -> (length text <= fuel)%nat ->
  exists r, bracket_step fuel text path = Some r /\ forall st after, r = Ok (st, after) -> (length after < length text)%nat.
Definition ends_filter (fuel : nat) : Prop := forall any all rest expression path, (length rest + 2 <= fuel)%nat ->
  exists r, filter_loop fuel any all rest expression path = Some r.
Definition ends_operand (fuel : nat) : Prop := forall text path, (length text < fuel)%nat ->
  exists r, parse_operand fuel text path = Some r /\ forall o after, r = Some (o, after) -> (length after <= length text)%nat.

Lemma filter_end_length text n : filter_end text = Some n -> (n + 2 <= length text)%nat.
Proof.
  unfold filter_end. assert (forall text at_ depth q n, filter_end_loop text at_ depth q = Some n -> (n + 2 <= at_ + length text)%nat) as H.
  { clear. induction text as [|c text IH]; intros at_ depth q n; [done|]. cbn [filter_end_loop length].
    destruct (c =? ch "'"); [intros H%IH; lia|]. destruct (_ && negb q); [intros H%IH; lia|].
    destruct (_ && negb q); [|intros H%IH; lia]. destruct (_ =? 0)%nat; [|intros H%IH; lia].
    destruct text as [|c' text]; [by case_match|]. case_match; [|done]. intros [= <-]. simpl. lia. }
  intros Hn%H. lia.
Qed.

Lemma ends_steps_S fuel : ends_steps fuel -> ends_bracket fuel -> ends_steps (S fuel).
Proof.
  intros IHs IHb steps rest path f Hf. unfold steps_loop; fold steps_loop bracket_step filter_loop parse_operand.
  assert (forall after steps, (length after < length rest)%nat -> exists r,
    match dotted_step after path f with Ok (step, after) => steps_loop fuel (steps ++ [step]) after path f | Err e => Some (Err e) end = Some r /\
    forall st after', r = Ok (st, after') -> (length after' <= length rest)%nat) as Hdot.
  { intros after steps' Ha. destruct (dotted_step after path f) as [[step after']|e] eqn:E; [|by eexists].
    apply dotted_step_length in E. destruct (IHs (steps' ++ [step]) after' path f) as (r & -> & Hr); [lia|]. exists r. split; [done|].
    intros st a Hst. specialize (Hr _ _ Hst). lia. }
  destruct (strip_prefix (lit "..") rest) as [after|] eqn:E.
  - apply strip_prefix_length in E. change (length (lit "..")) with 2%nat in E. destruct (starts_with _ after).
    + destruct (IHs (steps ++ [PDescend]) after path f) as (r & -> & Hr); [lia|]. exists r. split; [done|].
      intros st a Hst. specialize (Hr _ _ Hst). lia.
    + apply Hdot. lia.
  - clear E. destruct (strip_prefix (lit ".") rest) as [after|] eqn:E.
    + apply strip_prefix_length in E. change (length (lit ".")) with 1%nat in E. apply Hdot. lia.
    + destruct (starts_with (lit "[") rest) eqn:Eb.
      * assert (rest <> []) as Hne by (by intros ->). destruct (IHb rest path Hne) as (r & -> & Hr); [lia|].
        destruct r as [[step after]|e]; [|by eexists]. specialize (Hr _ _ eq_refl).
        destruct (IHs (steps ++ [step]) after path f) as (r & -> & Hr'); [lia|]. exists r. split; [done|].
        intros st a Hst. specialize (Hr' _ _ Hst). lia.
      * eexists. split; [done|]. intros st a [= _ <-]. lia.
Qed.

Lemma ends_bracket_S fuel : ends_filter fuel -> ends_bracket (S fuel).
Proof.
  intros IH text path Ht Hf. unfold bracket_step; fold steps_loop bracket_step filter_loop parse_operand. destruct (strip_prefix (lit "?(") (drop 1 text)) as [after|] eqn:E.
  - apply strip_prefix_length in E. change (length (lit "?(")) with 2%nat in E. rewrite length_drop in E.
    destruct (filter_end after) as [close|] eqn:Ec; [|by eexists]. apply filter_end_length in Ec.
    destruct (IH [] [] (take close after) (take close after) path) as [r ->]; [rewrite length_take; lia|].
    destruct r as [filter|e]; [|by eexists]. eexists. split; [done|]. intros st a [= _ <-]. rewrite length_drop. lia.
  - eexists. split; [done|]. intros st a Hr. by eapply plain_bracket_length.
Qed.

Lemma ends_filter_S fuel : ends_filter fuel -> ends_operand fuel -> ends_filter (S fuel).
Proof.
  intros IHf IHo any all rest expression path Hf. unfold filter_loop; fold steps_loop bracket_step filter_loop parse_operand. pose proof (trim_start_length rest) as Ht.
  destruct (_ || _); [by eexists|]. destruct (IHo (trim_start rest) path) as (r & -> & Hr); [lia|].
  destruct r as [[lhs after]|]; [|by eexists]. specialize (Hr _ _ eq_refl). pose proof (trim_start_length after) as Ht'.
  assert (forall part rest', (length rest' <= length rest)%nat -> exists r,
    match strip_prefix (lit "&&") rest' with
    | Some after => filter_loop fuel any (all ++ [part]) after expression path
    | None => match strip_prefix (lit "||") rest' with
              | Some after => filter_loop fuel (any ++ [joined (all ++ [part]) FAll]) [] after expression path
              | None => match rest' with
                        | [] => Some (Ok (joined (any ++ [joined (all ++ [part]) FAll]) FAny))
                        | _ => Some (Err (unsupported "filter" expression path))
                        end
              end
    end = Some r) as Hnext.
  { intros part rest' Hl. destruct (strip_prefix (lit "&&") rest') as [r'|] eqn:E1.
    - apply strip_prefix_length in E1. change (length (lit "&&")) with 2%nat in E1. apply IHf. lia.
    - destruct (strip_prefix (lit "||") rest') as [r'|] eqn:E2.
      + apply strip_prefix_length in E2. change (length (lit "||")) with 2%nat in E2. apply IHf. lia.
      + destruct rest'; by eexists. }
  destruct (List.find _ comparisons) as [[token op]|].
  - pose proof (trim_start_length (drop (length token) (trim_start after))) as Htr. rewrite length_drop in Htr.
    destruct (IHo (trim_start (drop (length token) (trim_start after))) path) as (r & -> & Hr'); [lia|].
    destruct r as [[rhs after']|]; [|by eexists]. specialize (Hr' _ _ eq_refl). pose proof (trim_start_length after'). apply Hnext. lia.
  - destruct lhs; [apply Hnext; lia|by eexists].
Qed.

Lemma word_literal_length ws text o after : word_literal ws text = Some (o, after) -> (length after <= length text)%nat.
Proof.
  induction ws as [|[w s] ws IH]; cbn [word_literal]; [done|]. destruct (strip_prefix w text) eqn:E; [|done].
  intros [= _ <-]. apply strip_prefix_length in E. lia.
Qed.

Lemma ends_operand_S fuel : ends_steps fuel -> ends_operand (S fuel).
Proof.
  intros IH text path Hf. unfold parse_operand; fold steps_loop bracket_step filter_loop parse_operand.
  assert (forall rest root, (length rest < length text)%nat -> exists r,
    match steps_loop fuel [] rest path true with
    | Some (Ok (steps, rest)) => Some (Some (OPath root steps, rest)) | Some (Err _) => Some None | None => None end = Some r /\
    forall o after, r = Some (o, after) -> (length after <= length text)%nat) as Hpath.
  { intros rest root Hl. destruct (IH [] rest path true) as (r & -> & Hr); [lia|].
    destruct r as [[st after]|e]; eexists; (split; [done|]); intros o a; [intros [= _ <-]; specialize (Hr _ _ eq_refl); lia|done]. }
  destruct (strip_prefix (lit "@") text) as [rest|] eqn:E1.
  { apply strip_prefix_length in E1. change (length (lit "@")) with 1%nat in E1. apply Hpath. lia. }
  destruct (strip_prefix (lit "$") text) as [rest|] eqn:E2.
  { apply strip_prefix_length in E2. change (length (lit "$")) with 1%nat in E2. apply Hpath. lia. }
  destruct (strip_prefix (lit "'") text) as [rest|] eqn:E3.
  - apply strip_prefix_length in E3. eexists. split; [done|]. intros o a Ho. apply bind_Some in Ho as (close & _ & [= _ <-]).
    rewrite length_drop. lia.
  - destruct (word_literal words text) as [[o after]|] eqn:Ew.
    + eexists. split; [done|]. intros o' a [= _ <-]. by eapply word_literal_length.
    + eexists. split; [done|]. intros o' a Ho. unfold number_literal in Ho. apply bind_Some in Ho as (n & _ & [= _ <-]). rewrite length_drop. lia.
Qed.

Lemma parser_ends fuel : ends_steps fuel /\ ends_bracket fuel /\ ends_filter fuel /\ ends_operand fuel.
Proof.
  induction fuel as [|fuel (H1 & H2 & H3 & H4)].
  - split_and!; red; intros; exfalso; try lia. destruct text; [done|simpl in *; lia].
  - split_and!; [by apply ends_steps_S|by apply ends_bracket_S|by apply ends_filter_S|by apply ends_operand_S].
Qed.

(** Every path is parsed or refused. *)
Lemma parse_path_ends p : exists r, parse_path p = Some r.
Proof.
  unfold parse_path. set (rest := default _ _). set (relative := _ && _).
  assert (exists r, parse_steps rest p relative false = Some r) as [r ->].
  { unfold parse_steps. destruct relative.
    - edestruct (proj1 (parser_ends (S (length rest)))) as (r & -> & _); [rewrite length_drop; lia|by exists r].
    - edestruct (proj1 (parser_ends (S (length rest)))) as (r & -> & _); [lia|by exists r]. }
  destruct r as [[steps [|c r]]|e]; by eexists.
Qed.
End ends.

(** * What the steps select *)

Section selection.
Context {D : Decimal}.

(** Induction over paths, filters and operands. *)
Section induction.
Variables (P : PathStep -> Prop) (Q : PathFilter -> Prop) (R : FilterOperand -> Prop).
Hypothesis (Hmember : forall n, P (PMember n)) (Hindex : forall i, P (PIndex i)) (Hwild : P PWildcard) (Hdescend : P PDescend)
  (Hfilter : forall f, Q f -> P (PFilter f)) (Hany : forall l, Forall Q l -> Q (FAny l)) (Hall : forall l, Forall Q l -> Q (FAll l))
  (Hexists : forall o, R o -> Q (FExists o)) (Hcompare : forall a op b, R a -> R b -> Q (FCompare a op b))
  (Hpath : forall b l, Forall P l -> R (OPath b l)) (Hliteral : forall s, R (OLiteral s)).

Fixpoint path_step_ind (s : PathStep) : P s :=
  match s with
  | PMember n => Hmember n
  | PIndex i => Hindex i
  | PWildcard => Hwild
  | PDescend => Hdescend
  | PFilter f => Hfilter f (path_filter_ind f)
  end
with path_filter_ind (f : PathFilter) : Q f :=
  let each := fix each (l : list PathFilter) : Forall Q l :=
    match l with [] => Forall_nil_2 Q | x :: l => Forall_cons_2 Q x l (path_filter_ind x) (each l) end in
  match f with
  | FAny l => Hany l (each l)
  | FAll l => Hall l (each l)
  | FExists o => Hexists o (path_operand_ind o)
  | FCompare a op b => Hcompare a op b (path_operand_ind a) (path_operand_ind b)
  end
with path_operand_ind (o : FilterOperand) : R o :=
  match o with
  | OPath b l => Hpath b l ((fix each (l : list PathStep) : Forall P l :=
      match l with [] => Forall_nil_2 P | x :: l => Forall_cons_2 P x l (path_step_ind x) (each l) end) l)
  | OLiteral s => Hliteral s
  end.
End induction.

(** ** The same on trees *)

Definition tree_member (key : str) (t : Tree) : option Tree :=
  match t with TObject entries => snd <$> find_entry key entries | _ => None end.

Definition opt_list {A} (o : option A) : list A := match o with Some a => [a] | None => [] end.

Definition tree_scalar (t : Tree) : option Scalar := match t with TScalar s => Some s | _ => None end.

Definition tree_follow_loop (step : PathStep -> Tree -> list Tree) : list PathStep -> bool -> list Tree -> list Tree :=
  fix follow steps descend current :=
    match steps with
    | [] => current
    | PDescend :: steps => follow steps true current
    | s :: steps => follow steps false ((if descend then current ≫= subtrees else current) ≫= step s)
    end.

Fixpoint tree_step (root : Tree) (s : PathStep) (t : Tree) {struct s} : list Tree :=
  match s, t with
  | PMember key, _ => opt_list (tree_member key t)
  | PIndex at_, TArray items => opt_list (items !! Z.to_nat at_)
  | PWildcard, TArray items => items
  | PWildcard, TObject entries => snd <$> entries
  | PFilter filter, TArray items => List.filter (fun item => tree_accepts root item filter) items
  | _, _ => []
  end
with tree_accepts (root item : Tree) (filter : PathFilter) {struct filter} : bool :=
  match filter with
  | FAny parts => existsb (fun part => tree_accepts root item part) parts
  | FAll parts => forallb (fun part => tree_accepts root item part) parts
  | FExists o => match tree_operand root item o with [] => false | _ => true end
  | FCompare lhs op rhs =>
      existsb (fun a => existsb (fun b => compare_scalars a op b) (tree_operand root item rhs)) (tree_operand root item lhs)
  end
with tree_operand (root item : Tree) (o : FilterOperand) {struct o} : list (option Scalar) :=
  match o with
  | OLiteral scalar => [Some scalar]
  | OPath from_root steps => tree_scalar <$> tree_follow_loop (tree_step root) steps false [if from_root then root else item]
  end.

Definition tree_follow (root : Tree) (start : list Tree) (steps : list PathStep) : list Tree :=
  tree_follow_loop (tree_step root) steps false start.

(** ** The arena selects the nodes of those trees *)

Variable m : gmap Z Node.
Hypothesis (Hone : one_holder m) (Hacyclic : acyclic m).

Definition step_agrees (s : PathStep) : Prop := forall root tr a t, denotes m root tr -> denotes m a t ->
  exists ids, path_step m root s a = Some ids /\ Forall2 (denotes m) ids (tree_step tr s t).
Definition filter_agrees (f : PathFilter) : Prop := forall root tr a t, denotes m root tr -> denotes m a t ->
  accepts m root a f = Some (tree_accepts tr t f).
Definition operand_agrees (o : FilterOperand) : Prop := forall root tr a t, denotes m root tr -> denotes m a t ->
  operand m root a o = Some (tree_operand tr t o).

Lemma member_agrees key a t : denotes m a t ->
  exists o, member m a key = Some o /\ Forall2 (denotes m) (option_list o) (opt_list (tree_member key t)).
Proof.
  intros (node & Ha & Hn)%denotes_node. unfold member. rewrite Ha. cbn [mbind option_bind]. eexists. split; [reflexivity|]. clear Ha.
  inversion Hn as [es ts Hl|cs ts Hl|]; subst; cbn [tree_member]; [|constructor|constructor].
  clear Hn. induction Hl as [|e t es ts [Hk Hd] Hl IH]; [constructor|]. unfold find_entry in *. cbn [List.find]. rewrite Hk.
  destruct (str_eqb _ key); [by repeat constructor|apply IH].
Qed.

Lemma scope_agrees descend current ts : Forall2 (denotes m) current ts ->
  exists scope, scope_of m descend current = Some scope /\ Forall2 (denotes m) scope (if descend then ts ≫= subtrees else ts).
Proof.
  intros H. destruct descend; [|by exists current]. unfold scope_of.
  assert (forall out outs, Forall2 (denotes m) out outs -> exists scope,
    foldl (fun all node => out ← all; self_and_descendants m node out) (Some out) current = Some scope /\
    Forall2 (denotes m) scope (outs ++ (ts ≫= subtrees))) as Hf; [|by apply (Hf [] [])].
  induction H as [|a t current ts Ha H IH]; intros out outs Ho; [exists out; by rewrite app_nil_r|]. cbn [foldl mbind option_bind].
  destruct (self_and_descendants_exact m a t out Hone Hacyclic Ha) as (ids & -> & Hids & _).
  destruct (IH (out ++ ids) (outs ++ subtrees t)) as (scope & -> & Hs); [by apply Forall2_app|]. exists scope. split; [done|]. cbn. by rewrite app_assoc.
Qed.

Lemma steps_agree (f : Z -> option (list Z)) (g : Tree -> list Tree) scope ts : Forall2 (denotes m) scope ts ->
  (forall a t, denotes m a t -> exists ids, f a = Some ids /\ Forall2 (denotes m) ids (g t)) ->
  exists found, mapM f scope = Some found /\ Forall2 (denotes m) (concat found) (ts ≫= g).
Proof.
  intros H Hf. induction H as [|a t scope ts Ha H (found & IH1 & IH2)]; [by exists []|].
  destruct (Hf a t Ha) as (ids & E & Hids). exists (ids :: found). cbn. rewrite E, IH1. split; [done|]. by apply Forall2_app.
Qed.

Lemma follow_agrees root tr steps : denotes m root tr -> Forall step_agrees steps -> forall descend start ts, Forall2 (denotes m) start ts ->
  exists ids, follow_loop m (path_step m root) steps descend start = Some ids /\
    Forall2 (denotes m) ids (tree_follow_loop (tree_step tr) steps descend ts).
Proof.
  intros Hr H. induction H as [|s steps Hs H IH]; intros descend start ts Hst; [by exists start|].
  assert (s = PDescend \/ s <> PDescend) as [->|Hne] by (destruct s; auto); [by apply IH|].
  destruct (scope_agrees descend start ts Hst) as (scope & E1 & H1).
  destruct (steps_agree (path_step m root s) (tree_step tr s) scope _ H1) as (found & E2 & H2); [intros a t; by apply Hs|].
  destruct (IH false (concat found) _ H2) as (ids & E3 & H3). exists ids. split; [|by destruct s].
  transitivity (scope ← scope_of m descend start; found ← mapM (path_step m root s) scope; follow_loop m (path_step m root) steps false (concat found)).
  - by destruct s.
  - rewrite E1. cbn [mbind option_bind]. rewrite E2. cbn [mbind option_bind]. exact E3.
Qed.

Lemma any_of_agrees {A} (p : A -> option bool) (q : A -> bool) l : Forall (fun a => p a = Some (q a)) l -> any_of p l = Some (existsb q l).
Proof. induction 1 as [|a l Ha _ IH]; [done|]. cbn. rewrite Ha. cbn. by destruct (q a). Qed.

Lemma all_of_agrees {A} (p : A -> option bool) (q : A -> bool) l : Forall (fun a => p a = Some (q a)) l -> all_of p l = Some (forallb q l).
Proof. induction 1 as [|a l Ha _ IH]; [done|]. cbn. rewrite Ha. cbn. by destruct (q a). Qed.

Lemma filter_of_agrees p (q : Tree -> bool) cs ts : Forall2 (denotes m) cs ts ->
  (forall a t, denotes m a t -> p a = Some (q t)) -> exists kept, filter_of p cs = Some kept /\ Forall2 (denotes m) kept (List.filter q ts).
Proof.
  intros H Hp. induction H as [|a t cs ts Ha H (kept & IH1 & IH2)]; [by exists []|]. cbn. rewrite (Hp _ _ Ha). cbn. rewrite IH1. cbn.
  exists (if q t then a :: kept else kept). split; [done|]. destruct (q t); [by constructor|done].
Qed.

Lemma scalars_agree ids ts : Forall2 (denotes m) ids ts -> mapM (scalar_at m) ids = Some (tree_scalar <$> ts).
Proof.
  intros H. apply mapM_Some_2. apply Forall2_fmap_r. eapply Forall2_impl; [exact H|]. intros a t (node & Ha & Hn)%denotes_node.
  unfold scalar_at. rewrite Ha. cbn. by inversion Hn.
Qed.

Lemma plain_agrees s : match s with PFilter _ => False | _ => True end -> step_agrees s.
Proof.
  intros Hs root tr a t Hr Ht. pose proof Ht as (node & Ha & Hn)%denotes_node.
  destruct s as [n|i| | |f]; [| | | |done]; cbn [path_step]; rewrite Ha; cbn [mbind option_bind].
  - destruct (member_agrees n a t Ht) as (o & -> & Ho). by exists (option_list o).
  - inversion Hn as [es ts Hl|cs ts Hl|]; subst; eexists; (split; [reflexivity|]); cbn [tree_step]; [constructor| |constructor].
    destruct (cs !! Z.to_nat i) as [c|] eqn:E.
    + destruct (Forall2_lookup_l _ _ _ _ _ Hl E) as (t' & -> & Hd). by repeat constructor.
    + assert (ts !! Z.to_nat i = None) as -> by (apply lookup_ge_None; apply lookup_ge_None in E; by rewrite <- (Forall2_length _ _ _ Hl)). constructor.
  - pose proof (node_tree_list _ _ _ Hn) as Hl. inversion Hn; subst; eexists; (split; [reflexivity|]); [exact Hl|exact Hl|constructor].
  - inversion Hn; subst; exists []; (split; [done|constructor]).
Qed.

Lemma filter_step_agrees f : filter_agrees f -> step_agrees (PFilter f).
Proof.
  intros Hf root tr a t Hr Ht. pose proof Ht as (node & Ha & Hn)%denotes_node. change (path_step m root (PFilter f) a) with (found ← m !! a; match found with NArray items => filter_of (fun item => accepts m root item f) items | _ => Some [] end).
  rewrite Ha. cbn [mbind option_bind].
  inversion Hn as [es ts Hl|cs ts Hl|]; subst; [exists []; split; [done|constructor]| |exists []; split; [done|constructor]].
  apply filter_of_agrees; [done|]. intros c t' Hc. by apply Hf.
Qed.

Lemma parts_agree l : Forall filter_agrees l -> filter_agrees (FAny l) /\ filter_agrees (FAll l).
Proof.
  intros H. split; intros root tr a t Hr Ht; [apply (any_of_agrees (fun part => accepts m root a part))|apply (all_of_agrees (fun part => accepts m root a part))];
    (eapply Forall_impl; [exact H|]; intros f Hf; by apply Hf).
Qed.

Lemma exists_agrees o : operand_agrees o -> filter_agrees (FExists o).
Proof.
  intros H root tr a t Hr Ht. change (accepts m root a (FExists o)) with (found ← operand m root a o; Some match found with [] => false | _ => true end).
  by rewrite (H _ _ _ _ Hr Ht).
Qed.

Lemma compare_agrees lhs op rhs : operand_agrees lhs -> operand_agrees rhs -> filter_agrees (FCompare lhs op rhs).
Proof.
  intros H1 H2 root tr a t Hr Ht.
  change (accepts m root a (FCompare lhs op rhs)) with (l ← operand m root a lhs; r ← operand m root a rhs; Some (existsb (fun a => existsb (fun b => compare_scalars a op b) r) l)).
  by rewrite (H1 _ _ _ _ Hr Ht), (H2 _ _ _ _ Hr Ht).
Qed.

Lemma path_agrees b l : Forall step_agrees l -> operand_agrees (OPath b l).
Proof.
  intros H root tr a t Hr Ht.
  change (operand m root a (OPath b l)) with (found ← follow_loop m (path_step m root) l false [if b then root else a]; mapM (scalar_at m) found).
  destruct (follow_agrees root tr l Hr H false [if b then root else a] [if b then tr else t]) as (ids & -> & Hids); [destruct b; by repeat constructor|].
  cbn [mbind option_bind]. by apply scalars_agree.
Qed.

Lemma literal_agrees s : operand_agrees (OLiteral s).
Proof. by intros root tr a t Hr Ht. Qed.

Lemma step_agrees_all s : step_agrees s.
Proof.
  exact (path_step_ind step_agrees filter_agrees operand_agrees (fun n => plain_agrees (PMember n) I) (fun i => plain_agrees (PIndex i) I)
    (plain_agrees PWildcard I) (plain_agrees PDescend I) filter_step_agrees (fun l H => proj1 (parts_agree l H)) (fun l H => proj2 (parts_agree l H))
    exists_agrees compare_agrees path_agrees literal_agrees s).
Qed.

(** A path selects in the arena the nodes of the trees it selects in the tree. *)
Lemma follow_exact root tr start ts steps : denotes m root tr -> Forall2 (denotes m) start ts ->
  exists ids, follow m root start steps = Some ids /\ Forall2 (denotes m) ids (tree_follow tr ts steps).
Proof. intros Hr Hs. apply follow_agrees; [done|apply Forall_true, step_agrees_all|done]. Qed.

(** ** A path selects what the queried node holds *)

Lemma path_step_child root s a ids : path_step m root s a = Some ids -> Forall (child m a) ids.
Proof.
  assert (forall node i, m !! a = Some node -> i ∈ children node -> child m a i) as Hch by (intros node i ? ?; by exists node).
  destruct (m !! a) as [node|] eqn:Ha; [|intros H; exfalso; revert H; destruct s; cbn [path_step]; rewrite Ha; done].
  specialize (Hch node). assert (forall l, (forall i, i ∈ l -> i ∈ children node) -> Forall (child m a) l) as Hl.
  { intros l Hl. apply Forall_forall. intros i Hi. apply Hch; [done|by apply Hl]. }
  destruct s as [n|i| | |f].
  - cbn [path_step]. rewrite Ha. cbn [mbind option_bind]. unfold member. rewrite Ha. cbn [mbind option_bind fmap option_fmap option_map].
    intros [= <-]. apply Hl. destruct node as [es|items|sc]; cbn [children]; try (by intros i []%elem_of_nil).
    destruct (find_entry n es) as [e|] eqn:E; unfold find_entry in E; cbn; [|by intros i []%elem_of_nil].
    intros i ->%list_elem_of_singleton. apply list_elem_of_fmap_2. apply find_some in E as [E _]. by apply list_elem_of_In.
  - cbn [path_step]. rewrite Ha. cbn [mbind option_bind]. destruct node as [es|items|sc]; intros [= <-]; apply Hl; try (by intros x []%elem_of_nil).
    cbn [children]. destruct (items !! Z.to_nat i) eqn:E; [|by intros x []%elem_of_nil]. intros x ->%list_elem_of_singleton. by eapply list_elem_of_lookup_2.
  - cbn [path_step]. rewrite Ha. cbn [mbind option_bind]. destruct node as [es|items|sc]; intros [= <-]; apply Hl; done || by intros x []%elem_of_nil.
  - cbn [path_step]. rewrite Ha. cbn [mbind option_bind]. destruct node as [es|items|sc]; intros [= <-]; constructor.
  - change (path_step m root (PFilter f) a) with (found ← m !! a; match found with NArray items => filter_of (fun item => accepts m root item f) items | _ => Some [] end).
    rewrite Ha. cbn [mbind option_bind]. destruct node as [es|items|sc]; [intros [= <-]; constructor| |intros [= <-]; constructor].
    intros H. apply Hl. cbn [children]. revert ids H. generalize (fun item => accepts m root item f). intros q. clear.
    induction items as [|x items IH]; intros ids; cbn [filter_of]; [by intros [= <-] i []%elem_of_nil|].
    destruct (q x) as [b|]; [|done]. cbn [mbind option_bind]. destruct (filter_of q items) as [kept|]; [|done]. cbn [mbind option_bind].
    specialize (IH _ eq_refl). intros [= <-] i. destruct b; rewrite ?elem_of_cons; naive_solver.
Qed.

Lemma scope_reach p descend current scope : (forall id, is_Some (m !! id) -> exists t, denotes m id t) -> closed m -> is_Some (m !! p) ->
  Forall (reach m p) current -> scope_of m descend current = Some scope -> Forall (reach m p) scope.
Proof.
  intros Hall Hcl Hp Hc. destruct descend; [|by intros [= <-]]. unfold scope_of.
  assert (forall out scope, Forall (reach m p) out -> foldl (fun all node => out ← all; self_and_descendants m node out) (Some out) current = Some scope -> Forall (reach m p) scope) as Hf; [|by apply Hf].
  clear scope. induction Hc as [|a current Ha Hc IH]; intros out scope Ho; [by intros [= <-]|]. cbn [foldl mbind option_bind].
  assert (is_Some (m !! a)) as Hka.
  { clear -Ha Hp Hcl. induction Ha as [|x y z Hxy _ IHr]; [done|]. apply IHr. by eapply Hcl. }
  destruct (Hall a Hka) as [t Ht]. destruct (self_and_descendants_exact m a t out Hone Hacyclic Ht) as (ids & -> & _ & _ & Hr). apply IH.
  apply Forall_app. split; [done|]. apply Forall_forall. intros x Hx%Hr. by etrans.
Qed.

Lemma follow_reach root p steps ids : (forall id, is_Some (m !! id) -> exists t, denotes m id t) -> closed m -> is_Some (m !! p) ->
  follow m root [p] steps = Some ids -> Forall (reach m p) ids.
Proof.
  intros Hall Hcl Hp. unfold follow. assert (Forall (reach m p) [p]) as H0 by (constructor; constructor). revert H0. generalize [p] false ids. clear ids.
  induction steps as [|s steps IH]; intros current descend ids Hc; [by intros [= <-]|].
  assert (s = PDescend \/ s <> PDescend) as [->|Hne] by (destruct s; auto); [by apply IH|].
  assert (follow_loop m (path_step m root) (s :: steps) descend current = (scope ← scope_of m descend current; found ← mapM (path_step m root s) scope; follow_loop m (path_step m root) steps false (concat found))) as -> by (by destruct s).
  destruct (scope_of m descend current) as [scope|] eqn:Es; [|done]. cbn [mbind option_bind]. pose proof (scope_reach _ _ _ _ Hall Hcl Hp Hc Es) as Hs.
  destruct (mapM (path_step m root s) scope) as [found|] eqn:Ef; [|done]. cbn [mbind option_bind]. apply IH.
  apply mapM_Some_1 in Ef. clear -Ef Hs. induction Ef as [|a l scope found Hl _ IHf]; [constructor|]. apply Forall_cons in Hs as [Ha Hs].
  cbn. apply Forall_app. split; [|by apply IHf]. apply path_step_child in Hl. eapply Forall_impl; [exact Hl|]. intros x Hx. by eapply rtc_r.
Qed.
End selection.

(** * The texts of paths *)

Section texts.
Context {D : Decimal}.

(** A name that needs no quotes. *)
Definition plain_name (name : str) : Prop :=
  name <> [] /\ Forall (fun c => c <> ch "." /\ c <> ch "[" /\ is_whitespace c = false) name /\ (forall r, name <> ch "*" :: r).

Inductive step_text : PathStep -> str -> Prop :=
  | dotted_name name : plain_name name -> step_text (PMember name) (ch "." :: name)
  | quoted_name name : ch "'" ∉ name -> step_text (PMember name) (lit "['" ++ name ++ lit "']")
  | dotted_all : step_text PWildcard (lit ".*")
  | bracket_all : step_text PWildcard (lit "[*]")
  | bracket_index digits i : digits <> [] -> Forall (fun c => is_ascii_digit c = true) digits -> parse_usize digits = Some i ->
      step_text (PIndex i) (ch "[" :: digits ++ lit "]").

(** Two dots before a name count one of its own. *)
Definition descend_text (text : str) : str := if starts_with (lit "[") text then lit ".." ++ text else ch "." :: text.

Inductive path_text : list PathStep -> str -> Prop :=
  | no_steps : path_text [] []
  | one_step s a steps b : step_text s a -> path_text steps b -> path_text (s :: steps) (a ++ b)
  | all_below s a steps b : step_text s a -> path_text steps b -> path_text (PDescend :: s :: steps) (descend_text a ++ b).

(** * What each text is read as *)

Lemma find_char_first p (a : str) c b : Forall (fun c => p c = false) a -> p c = true -> find_char p (a ++ c :: b) = Some (length a).
Proof. intros Ha Hc. induction Ha as [|x a Hx _ IH]; simpl; [by rewrite Hc|]. by rewrite Hx, IH. Qed.

Lemma find_char_nowhere p (a : str) : Forall (fun c => p c = false) a -> find_char p a = None.
Proof. induction 1 as [|x a Hx _ IH]; simpl; [done|]. by rewrite Hx, IH. Qed.

(** What can follow a step. *)
Definition next_step (b : str) : Prop := b = [] \/ exists r, b = ch "." :: r \/ b = ch "[" :: r.

Lemma step_starts s a b : step_text s a -> next_step (a ++ b).
Proof. intros H. right. destruct H; eexists; (try by left); by right. Qed.

Lemma path_starts steps b : path_text steps b -> next_step b.
Proof.
  destruct 1 as [|s a steps b H _|s a steps b H _]; [by left|by eapply step_starts|]. right. unfold descend_text.
  destruct (starts_with _ a); by eexists; left.
Qed.

Lemma name_ends name b : plain_name name -> next_step b -> name_end false (name ++ b) = length name.
Proof.
  intros (_ & Hn & _) Hb. assert (Forall (fun c => ends_name false c = false) name) as Hp.
  { eapply Forall_impl; [exact Hn|]. intros c (H1 & H2 & _). unfold ends_name. by rewrite (proj2 (Z.eqb_neq _ _) H1), (proj2 (Z.eqb_neq _ _) H2). }
  unfold name_end. destruct Hb as [->|[r [->| ->]]].
  - rewrite app_nil_r. by rewrite find_char_nowhere.
  - by rewrite find_char_first.
  - by rewrite find_char_first.
Qed.

Lemma dotted_exact name b path : plain_name name -> next_step b -> dotted_step (name ++ b) path false = Ok (PMember name, b).
Proof.
  intros Hn Hb. unfold dotted_step. rewrite (name_ends name b Hn Hb). destruct Hn as (Hne & _ & Hs).
  destruct (strip_prefix (lit "*") (name ++ b)) as [r|] eqn:E.
  - apply strip_prefix_Some in E. destruct name as [|c name]; [done|]. injection E as Hc Hr. exfalso. apply (Hs name). by subst c.
  - assert ((length name =? 0)%nat = false) as -> by (by destruct name). by rewrite take_app_length, drop_app_length.
Qed.

Lemma quoted_exact name b path : ch "'" ∉ name -> plain_bracket ((lit "['" ++ name ++ lit "']") ++ b) path = Ok (PMember name, b).
Proof.
  intros Hn. unfold plain_bracket. change (drop 1 ((lit "['" ++ name ++ lit "']") ++ b)) with ((lit "'" ++ name ++ lit "']") ++ b).
  rewrite <- app_assoc, strip_prefix_app, <- app_assoc. change (lit "']" ++ b) with (ch "'" :: lit "]" ++ b).
  rewrite find_char_first; [|apply Forall_forall; intros c Hc; apply Z.eqb_neq; by intros <-|by apply Z.eqb_refl].
  change (name ++ ch "'" :: lit "]" ++ b) with (name ++ [ch "'"] ++ lit "]" ++ b). rewrite (app_assoc name).
  assert (S (length name) = length (name ++ [ch "'"])) as El by (rewrite length_app; simpl; lia). rewrite El, drop_app_length.
  change (trim_start (lit "]" ++ b)) with (lit "]" ++ b). rewrite strip_prefix_app. by rewrite <- app_assoc, take_app_length.
Qed.

Lemma digit_plain c : is_ascii_digit c = true -> is_whitespace c = false /\ c <> ch "]" /\ c <> ch "'" /\ c <> ch "*" /\ c <> ch "?".
Proof.
  unfold is_ascii_digit. intros H. to_prop. split; [|repeat split; intros ->; simpl in *; lia].
  unfold is_whitespace. repeat (apply orb_false_iff; split); rewrite ?andb_false_iff, ?Z.leb_gt, ?Z.eqb_neq; lia.
Qed.

Lemma index_exact digits i b path : digits <> [] -> Forall (fun c => is_ascii_digit c = true) digits -> parse_usize digits = Some i ->
  plain_bracket ((ch "[" :: digits ++ lit "]") ++ b) path = Ok (PIndex i, b).
Proof.
  intros Hne Hd Hi. unfold plain_bracket. change (drop 1 ((ch "[" :: digits ++ lit "]") ++ b)) with ((digits ++ lit "]") ++ b).
  assert (strip_prefix (lit "'") ((digits ++ lit "]") ++ b) = None) as ->.
  { destruct (strip_prefix _ _) as [r|] eqn:E; [|done]. apply strip_prefix_Some in E. destruct Hd as [|c digits Hc _]; [done|].
    injection E as Ec _. by destruct (digit_plain c Hc) as (_ & _ & ? & _). }
  rewrite <- app_assoc. change (lit "]" ++ b) with (ch "]" :: b).
  rewrite find_char_first; [|eapply Forall_impl; [exact Hd|]; intros c Hc; apply Z.eqb_neq; by destruct (digit_plain c Hc) as (_ & ? & _)|by apply Z.eqb_refl].
  rewrite take_app_length. rewrite trim_none by (eapply Forall_impl; [exact Hd|]; intros c Hc; by apply digit_plain).
  assert (str_is digits "*" = false) as ->.
  { unfold str_is, str_eqb. apply bool_decide_eq_false. intros ->. apply Forall_cons in Hd as [Hc _]. by destruct (digit_plain _ Hc) as (_ & _ & _ & ? & _). }
  unfold str_eqb. rewrite bool_decide_eq_false_2 by done. assert (forallb is_ascii_digit digits = true) as ->.
  { apply forallb_forall. intros c Hc. rewrite Forall_forall in Hd. by apply Hd, list_elem_of_In. }
  cbn [negb andb]. rewrite Hi. change (digits ++ ch "]" :: b) with (digits ++ [ch "]"] ++ b). rewrite app_assoc.
  assert (S (length digits) = length (digits ++ [ch "]"])) as -> by (rewrite length_app; simpl; lia). by rewrite drop_app_length.
Qed.

(** * Whole paths *)

Context {L : JsonLibs}.

Lemma bracket_exact fuel s a b path : step_text s a -> starts_with (lit "[") a = true -> bracket_step (S fuel) (a ++ b) path = Some (Ok (s, b)).
Proof.
  intros Ha Hs. unfold bracket_step; fold steps_loop bracket_step filter_loop parse_operand.
  assert (strip_prefix (lit "?(") (drop 1 (a ++ b)) = None /\ plain_bracket (a ++ b) path = Ok (s, b)) as [-> ->]; [|done].
  destruct Ha as [name Hn|name Hn| | |digits i Hne Hd Hi]; [done|split; [done|by apply quoted_exact]|done|by split|split; [|by apply index_exact]].
  destruct Hd as [|c digits Hc _]; [done|]. destruct (strip_prefix _ _) as [r|] eqn:E; [|done]. apply strip_prefix_Some in E.
  injection E as Ec _. by destruct (digit_plain c Hc) as (_ & _ & _ & _ & ?).
Qed.

Lemma dot_exact s a b path : step_text s a -> starts_with (lit "[") a = false -> next_step b ->
  exists r, a = ch "." :: r /\ starts_with (lit "[") (r ++ b) = false /\ (forall q, r ++ b <> ch "." :: q) /\ dotted_step (r ++ b) path false = Ok (s, b).
Proof.
  intros Ha Hs Hb. destruct Ha as [name Hn|name Hn| | |digits i Hne Hd Hi]; try done.
  - exists name. split; [done|]. pose proof (dotted_exact name b path Hn Hb). destruct Hn as (Hne & Hf & _). destruct Hf as [|c name (H1 & H2 & _) _]; [done|].
    split; [|split; [intros q Eq; injection Eq as Ec _; by destruct (H1 Ec)|done]]. apply not_true_is_false. intros [q Eq]%starts_with_spec. injection Eq as Ec _. by destruct (H2 Ec).
  - exists (lit "*"). by repeat split.
Qed.

Lemma steps_exact steps text : path_text steps text -> forall fuel before path, (length text < fuel)%nat ->
  steps_loop fuel before text path false = Some (Ok (before ++ steps, [])).
Proof.
  induction 1 as [|s a steps b Ha Hp IH|s a steps b Ha Hp IH]; intros fuel before path Hf; (destruct fuel as [|fuel]; [lia|]).
  - by rewrite app_nil_r.
  - assert (before ++ s :: steps = (before ++ [s]) ++ steps) as -> by (by rewrite <- app_assoc). pose proof (path_starts _ _ Hp) as Hb.
    rewrite length_app in Hf. unfold steps_loop; fold steps_loop bracket_step filter_loop parse_operand. destruct (starts_with (lit "[") a) eqn:E.
    + assert (exists a', a = ch "[" :: a') as [a' Ea] by (apply starts_with_spec in E as [q ->]; by exists q).
      assert (strip_prefix (lit "..") (a ++ b) = None /\ strip_prefix (lit ".") (a ++ b) = None /\ starts_with (lit "[") (a ++ b) = true) as (-> & -> & ->) by (by subst a).
      rewrite Ea in Hf. simpl in Hf. destruct fuel as [|fuel]; [lia|]. rewrite (bracket_exact fuel s a b path Ha E). apply IH. lia.
    + destruct (dot_exact s a b path Ha E Hb) as (r & -> & _ & Hr & Hd). simpl in Hf.
      assert (strip_prefix (lit "..") ((ch "." :: r) ++ b) = None) as ->.
      { destruct (strip_prefix (lit "..") _) as [q|] eqn:Eq; [|done]. apply strip_prefix_Some in Eq. injection Eq as Eq. by destruct (Hr q). }
      assert (strip_prefix (lit ".") ((ch "." :: r) ++ b) = Some (r ++ b)) as -> by apply (strip_prefix_app (lit ".")). rewrite Hd. apply IH. lia.
  - assert (before ++ PDescend :: s :: steps = ((before ++ [PDescend]) ++ [s]) ++ steps) as -> by (by rewrite <- !app_assoc). pose proof (path_starts _ _ Hp) as Hb.
    unfold descend_text in *. rewrite length_app in Hf. unfold steps_loop; fold steps_loop bracket_step filter_loop parse_operand. destruct (starts_with (lit "[") a) eqn:E.
    + rewrite <- app_assoc, strip_prefix_app. assert (exists a', a = ch "[" :: a') as [a' Ea] by (apply starts_with_spec in E as [q ->]; by exists q).
      assert (starts_with (lit "[") (a ++ b) = true) as -> by (by subst a). rewrite length_app in Hf. change (length (lit "..")) with 2%nat in Hf.
      assert (length a = S (length a')) as El by (by subst a). destruct fuel as [|fuel]; [lia|].
      unfold steps_loop; fold steps_loop bracket_step filter_loop parse_operand.
      assert (strip_prefix (lit "..") (a ++ b) = None /\ strip_prefix (lit ".") (a ++ b) = None /\ starts_with (lit "[") (a ++ b) = true) as (-> & -> & ->) by (by subst a).
      destruct fuel as [|fuel]; [lia|]. rewrite (bracket_exact fuel s a b path Ha E). apply IH. lia.
    + destruct (dot_exact s a b path Ha E Hb) as (r & -> & Hr1 & _ & Hd). simpl in Hf.
      assert (strip_prefix (lit "..") ((ch "." :: ch "." :: r) ++ b) = Some (r ++ b)) as -> by apply (strip_prefix_app (lit "..")).
      rewrite Hr1, Hd. apply IH. lia.
Qed.

Lemma step_solid s a : step_text s a -> ends_solid a.
Proof.
  destruct 1 as [name (Hne & Hf & _)|name Hn| | |digits i Hne Hd Hi].
  - destruct name as [|c r _] using rev_ind; [done|]. apply Forall_app in Hf as [_ (_ & _ & Hc)%Forall_singleton].
    by exists (ch "." :: r), c.
  - rewrite app_assoc. apply ends_solid_app. by exists (lit "'"), (ch "]").
  - by exists (lit "."), (ch "*").
  - by exists (lit "[*"), (ch "]").
  - change (ch "[" :: digits ++ lit "]") with ((ch "[" :: digits) ++ lit "]"). apply ends_solid_app. by exists [], (ch "]").
Qed.

Lemma path_solid steps text : path_text steps text -> text = [] \/ ends_solid text.
Proof.
  induction 1 as [|s a steps b Ha Hp IH|s a steps b Ha Hp IH]; [by left|right..].
  - destruct IH as [->|IH]; [rewrite app_nil_r; by eapply step_solid|by apply ends_solid_app].
  - destruct IH as [->|IH]; [rewrite app_nil_r|by apply ends_solid_app]. unfold descend_text. apply step_solid in Ha.
    destruct (starts_with _ a); [by apply ends_solid_app|]. by apply (ends_solid_app [ch "."]).
Qed.

(** From the root, every text of steps is read as them. *)
Lemma parse_path_text steps text : path_text steps text -> parse_path (ch "$" :: text) = Some (Ok steps).
Proof.
  intros H. unfold parse_path. assert (trim (ch "$" :: text) = ch "$" :: text) as ->.
  { apply trim_solid; [by exists (ch "$"), text|]. destruct (path_solid _ _ H) as [->|Hs]; [by exists [], (ch "$")|by apply (ends_solid_app [ch "$"])]. }
  assert (strip_prefix (lit "$") (ch "$" :: text) = Some text) as -> by apply (strip_prefix_app (lit "$")).
  assert (starts_with (lit "$") (ch "$" :: text) = true) as -> by (apply starts_with_spec; by exists text). cbn [negb andb]. unfold parse_steps.
  cbn [default id from_option]. by rewrite (steps_exact _ _ H (S (length text)) [] (ch "$" :: text)) by lia.
Qed.
End texts.
