(* ===== verification/JsonMethods.v ===== *)
(** The methods of [JsonObject], [JsonArray], [JsonToken] and [JsonValue]
    ([interpreter/json.rs]): [dispatch_json_method] and what it calls. *)

From Stdlib Require Import ZArith Lia.
From stdpp Require Import base tactics numbers option list gmap strings.
From S2P Require Import Prelude RustStr StrSearch Decimals Values Slots Scopes Renders Collections JsonArena JsonPaths.

#[local] Open Scope Z_scope.
#[local] Open Scope rust_scope.

(** [supports_json_method]. *)
Definition common_methods : list string := ["writeto"; "readfrom"; "selecttoken"; "clone"; "astoken"]%string.
Definition kind_methods (k : JsonKind) : list string :=
  match k with
  | JObject =>
      ["add"; "get"; "contains"; "remove"; "replace"; "keys"; "values"; "gettext"; "getinteger"; "getbiginteger";
       "getdecimal"; "getboolean"; "getcode"]
  | JArray =>
      ["add"; "get"; "count"; "insert"; "removeat"; "set"; "indexof"; "gettext"; "getinteger"; "getbiginteger";
       "getdecimal"; "getboolean"; "getcode"]
  | JToken => ["isobject"; "isarray"; "isvalue"; "asobject"; "asarray"; "asvalue"]
  | JValue =>
      ["astext"; "ascode"; "asinteger"; "asbiginteger"; "asdecimal"; "asboolean"; "isnull"; "isundefined";
       "setvalue"; "setvaluetonull"]
  end%string.
Definition supports_json_method (k : JsonKind) (method : str) : bool :=
  let method := to_ascii_lowercase method in
  is_one_of method common_methods || is_one_of method (kind_methods k).

Section methods.
Context {D : Decimal} {U : Unicode} {L : JsonLibs}.

(** * Arguments *)

Inductive JsonError :=
  | Failed (message : str)
  | InvalidCall (message : str).

Definition invalid {A} (m : M str A) : M JsonError A := map_err InvalidCall m.

(** The variable's handle, given to it when it has none. *)
Definition set_handle (recv : str) (handle : Z) (st : ScopeStack) : ScopeStack :=
  default st
    (i ← lookup_slot_mut st recv;
     f ← frames st !! i;
     j ← (match locals f !! to_ascii_lowercase recv with Some (VJson j) => Some j | _ => None end);
     Some {| frames := <[i := set_locals f (<[to_ascii_lowercase recv :=
                VJson {| kind := kind j; jhandle := Some handle |}]> (locals f)) (held f)]> (frames st);
             expr_depth := expr_depth st |}).

Definition node_of (recv : str) : M str (JsonKind * Z * Z) :=
  let* found := gets (fun s => lookup (stack s) recv) in
  match found with
  | Some (VJson json) =>
      let* handle :=
        match jhandle json with
        | Some handle => ret handle
        | None =>
            let* handle := fresh_id in
            modify (fun s => with_stack (set_handle recv handle (stack s)) s) ;;
            ret handle
        end in
      let* node := target handle (kind json) in
      ret (kind json, handle, node)
  | _ => fail (lit "'" ++ recv ++ lit "' is not a JSON variable")
  end.

Definition text_arg (value : option Value) (what : str) : Res str str :=
  match value with
  | Some (VText t) | Some (VCode t) => Ok t
  | Some other => Err (what ++ lit " must be Text, got " ++ type_name other)
  | None => Err (what ++ lit " is missing")
  end.

Definition index_arg (value : option Value) (len : Z) (inclusive : bool) : Res JsonError Z :=
  match value with
  | Some (VInteger index) =>
      let limit := if inclusive then len else saturating_sub len 1 in
      if (0 <=? index) && (index <=? limit) && (inclusive || (0 <? len)) then Ok index
      else Err (Failed (lit "index " ++ i64_to_str index ++ lit " is outside the JSON array of "
                        ++ i64_to_str len ++ lit " elements"))
  | _ => Err (InvalidCall (lit "a JSON array index must be an Integer"))
  end.

Definition default_for_getter (as_type : str) : option Value :=
  if str_is as_type "text" then Some (VText [])
  else if str_is as_type "code" then Some (VCode [])
  else if str_is as_type "integer" then Some (VInteger 0)
  else if str_is as_type "biginteger" then Some (VBigInteger 0)
  else if str_is as_type "decimal" then Some (VDecimal dec_zero)
  else if str_is as_type "boolean" then Some (VBoolean false)
  else None.

(** [{:?}] of a scalar. *)
Definition debug_scalar (s : Scalar) : str :=
  match s with
  | SNull => lit "Null"
  | SBool b => lit "Bool(" ++ lit (if b then "true" else "false") ++ lit ")"
  | SNumber n => lit "Number(" ++ dec_to_str n ++ lit ")"
  | SText t => lit "Text(" ++ debug_str t ++ lit ")"
  end.

Definition scalar_number (s : Scalar) : Res str decimal :=
  match s with
  | SNumber n => Ok n
  | other => Err (lit "the JSON value " ++ debug_scalar other ++ lit " is not a number")
  end.

(** [scalar_as(scalar, text)]. *)
Definition scalar_as_text (s : Scalar) : Res str str :=
  match s with
  | SText t => Ok t
  | SNumber n => Ok (dec_to_str (dec_normalize n))
  | SBool b => Ok (lit (if b then "true" else "false"))
  | SNull => Err (lit "the JSON value is null")
  end.

Definition scalar_as (s : Scalar) (as_type : str) : Res str Value :=
  if str_is as_type "text" then text <-? scalar_as_text s ; Ok (VText text)
  else if str_is as_type "code" then text <-? scalar_as_text s ; Ok (VCode (to_uppercase text))
  else if str_is as_type "integer" || str_is as_type "biginteger" then
    n <-? scalar_number s ;
    match (if dec_is_whole n then dec_to_i64 n else None) with
    | None => Err (lit "the JSON value " ++ dec_to_str n ++ lit " is not an Integer")
    | Some whole => Ok (if str_is as_type "integer" then VInteger whole else VBigInteger whole)
    end
  else if str_is as_type "decimal" then n <-? scalar_number s ; Ok (VDecimal n)
  else if str_is as_type "boolean" then
    match s with
    | SBool b => Ok (VBoolean b)
    | other => Err (lit "the JSON value " ++ debug_scalar other ++ lit " is not a Boolean")
    end
  else Err (lit "unsupported JSON conversion to " ++ as_type).

(** * Effects of a method *)

Definition write_back (index : nat) (v : Value) : M JsonError unit :=
  modify (fun s => with_writebacks (writebacks s ++ [(index, v)]) s).

Definition arg (o : option Value) : M JsonError Value :=
  match o with Some v => ret v | None => fail (InvalidCall (lit "the value is missing")) end.

(** A new List of a declared member type. *)
Definition typed_list (member_type : string) (items : list Value) : M JsonError Value := fun s =>
  let '(v, sh) := new_list items (Some (lit member_type)) (shared s) in Some (Ok v, with_shared sh s).

Definition is_container (d : Document) : bool := match d with DObject _ | DArray _ => true | _ => false end.
Definition fits_kind (k : JsonKind) (d : Document) : bool :=
  match k, d with
  | JObject, DObject _ | JArray, DArray _ | JToken, _ => true
  | JValue, d => negb (is_container d)
  | _, _ => false
  end.

Fixpoint replace_entry {A} (key : str) (child : A) (entries : list (str * A)) : list (str * A) :=
  match entries with
  | [] => []
  | e :: entries => if str_eqb (fst e) key then (fst e, child) :: entries else e :: replace_entry key child entries
  end.

(** [entries.retain(|(name, _)| *name != key)]. *)
Definition without_entry {A} (key : str) (entries : list (str * A)) : list (str * A) :=
  List.filter (fun e => negb (str_eqb (fst e) key)) entries.

(** [items.insert(at, child)]. *)
Definition insert_at {A} (at_ : nat) (child : A) (items : list A) : list A := take at_ items ++ child :: drop at_ items.

(** A token for a node, written to the second argument. *)
Definition give_token (node : Z) : M JsonError Value :=
  let* token := reference JToken node in
  write_back 1 token ;;
  ret (VBoolean true).

(** * Methods of every type *)

Definition write_to (node : Z) (args : list Value) : M JsonError Value :=
  let* text := invalid (text_of node) in
  match args with
  | [] => ret (VText text)
  | _ => write_back 0 (VText text) ;; ret (VBoolean true)
  end.

Definition read_from (k : JsonKind) (handle : Z) (args : list Value) : M JsonError Value :=
  let* text := invalid (of_res (text_arg (args !! 0%nat) (lit "the JSON text"))) in
  match json_parse text with
  | Err error => fail (Failed (lit "the text is not valid JSON: " ++ error))
  | Ok parsed =>
      if negb (fits_kind k parsed) then fail (Failed (lit "the text does not hold a " ++ kind_name k))
      else
        let* imported := invalid (import parsed) in
        check_held InvalidCall (kind_name k ++ lit ".ReadFrom") ;;
        modify (insert_target handle imported) ;;
        ret (VBoolean true)
  end.

Definition select_token (node : Z) (args : list Value) : M JsonError Value :=
  let* path := invalid (of_res (text_arg (args !! 0%nat) (lit "the path"))) in
  let* a := gets arena in
  let* selected := expect (select (nodes a) node path) in
  let* found := invalid (of_res selected) in
  match found with
  | [found] => give_token found
  | [] => fail (Failed (lit "no token matches the path '" ++ path ++ lit "'"))
  | several =>
      fail (Failed (lit "the path '" ++ path ++ lit "' matches "
                    ++ i64_to_str (Z.of_nat (length several)) ++ lit " tokens"))
  end.

Definition clone (k : JsonKind) (node : Z) : M JsonError Value :=
  let* copy := invalid (deep_copy node) in
  check_held InvalidCall (kind_name k ++ lit ".Clone") ;;
  reference k copy.

(** * Methods of one type *)

Definition not_supported (k : JsonKind) (method : str) : M JsonError Value :=
  fail (InvalidCall (kind_name k ++ lit "." ++ method ++ lit " is not supported by the local runtime here")).

Definition token_method (method lower : str) (node : Z) (current : Node) : M JsonError Value :=
  let is_object := match current with NObject _ => true | _ => false end in
  let is_array := match current with NArray _ => true | _ => false end in
  let is_value := match current with NScalar _ => true | _ => false end in
  if str_is lower "isobject" then ret (VBoolean is_object)
  else if str_is lower "isarray" then ret (VBoolean is_array)
  else if str_is lower "isvalue" then ret (VBoolean is_value)
  else if str_is lower "asobject" && is_object then reference JObject node
  else if str_is lower "asarray" && is_array then reference JArray node
  else if str_is lower "asvalue" && is_value then reference JValue node
  else if is_one_of lower ["asobject"; "asarray"; "asvalue"]%string then
    fail (InvalidCall (lit "the token is not a JSON " ++ drop 2 lower))
  else not_supported JToken method.

Definition key_arg (args : list Value) : M JsonError str := invalid (of_res (text_arg (args !! 0%nat) (lit "the key"))).

Definition object_getter (getter : str) (args : list Value) (entries : list (str * Z)) : M JsonError Value :=
  let* key := key_arg args in
  let found := snd <$> find_entry key entries in
  let* default_if_not_found :=
    match args !! 1%nat with
    | None => ret false
    | Some (VBoolean flag) => ret flag
    | Some other => fail (InvalidCall (lit "DefaultIfNotFound must be a Boolean, got " ++ type_name other))
    end in
  match found with
  | None =>
      match default_for_getter (drop 3 getter) with
      | Some default_ =>
          if default_if_not_found then ret default_
          else fail (InvalidCall (lit "the key '" ++ key ++ lit "' does not exist"))
      | None => fail (InvalidCall (lit "the key '" ++ key ++ lit "' does not exist"))
      end
  | Some child =>
      let* value := node_at child in
      match value with
      | NScalar scalar => invalid (of_res (scalar_as scalar (drop 3 getter)))
      | _ => fail (InvalidCall (lit "the value of '" ++ key ++ lit "' is not a JSON value"))
      end
  end.

Definition object_add (args : list Value) (node : Z) (entries : list (str * Z)) : M JsonError Value :=
  let* key := key_arg args in
  if bool_decide (is_Some (find_entry key entries)) then
    fail (Failed (lit "the key '" ++ key ++ lit "' already exists"))
  else
    let* value := arg (args !! 1%nat) in
    let* child := invalid (child_for node value) in
    set node (NObject (entries ++ [(key, child)])) ;;
    ret (VBoolean true).

Definition missing_key (key : str) : JsonError := Failed (lit "the key '" ++ key ++ lit "' does not exist").

Definition object_replace (args : list Value) (node : Z) (entries : list (str * Z)) : M JsonError Value :=
  let* key := key_arg args in
  match find_entry key entries with
  | None => fail (missing_key key)
  | Some _ =>
      let* value := arg (args !! 1%nat) in
      let* child := invalid (child_for node value) in
      set node (NObject (replace_entry key child entries)) ;;
      ret (VBoolean true)
  end.

Definition object_remove (args : list Value) (node : Z) (entries : list (str * Z)) : M JsonError Value :=
  let* key := key_arg args in
  let kept := without_entry key entries in
  set node (NObject kept) ;;
  ret (VBoolean (negb (length kept =? length entries)%nat)).

Definition object_contains (args : list Value) (entries : list (str * Z)) : M JsonError Value :=
  let* key := key_arg args in
  ret (VBoolean (bool_decide (is_Some (find_entry key entries)))).

Definition object_get (args : list Value) (entries : list (str * Z)) : M JsonError Value :=
  let* key := key_arg args in
  match find_entry key entries with
  | None => fail (missing_key key)
  | Some (_, child) => give_token child
  end.

Definition object_values (entries : list (str * Z)) : M JsonError Value :=
  let* tokens := each (fun e => reference JToken (snd e)) entries in
  typed_list "JsonToken" tokens.

Definition object_method (method lower : str) (args : list Value) (node : Z) (entries : list (str * Z)) :
    M JsonError Value :=
  if str_is lower "add" then object_add args node entries
  else if str_is lower "replace" then object_replace args node entries
  else if str_is lower "remove" then object_remove args node entries
  else if str_is lower "contains" then object_contains args entries
  else if str_is lower "get" then object_get args entries
  else if str_is lower "keys" then typed_list "Text" ((fun e => VText (fst e)) <$> entries)
  else if str_is lower "values" then object_values entries
  else if starts_with (lit "get") lower then object_getter lower args entries
  else not_supported JObject method.

(** The position of the first of [items] whose text is [wanted]. *)
Fixpoint index_of_text (wanted : str) (at_ : Z) (items : list Z) : M str Value :=
  match items with
  | [] => ret (VInteger (-1))
  | item :: items =>
      let* text := text_of item in
      if str_eqb text wanted then ret (VInteger at_) else index_of_text wanted (at_ + 1) items
  end.

(** The text an argument of [IndexOf] is looked for as. *)
Definition wanted_text (node : Z) (args : list Value) : M JsonError str :=
  match args !! 0%nat with
  | Some (VJson {| kind := k; jhandle := Some handle |}) =>
      let* node := target handle k in invalid (text_of node)
  | Some other => let* probe := invalid (child_for node other) in invalid (text_of probe)
  | None => fail (InvalidCall (lit "the value is missing"))
  end.

Definition as_invalid (e : JsonError) : JsonError := match e with Failed m => InvalidCall m | e => e end.

Definition array_add (args : list Value) (node : Z) (items : list Z) : M JsonError Value :=
  let* value := arg (args !! 0%nat) in
  let* child := invalid (child_for node value) in
  set node (NArray (items ++ [child])) ;;
  ret (VBoolean true).

Definition array_insert (args : list Value) (node : Z) (items : list Z) : M JsonError Value :=
  let* at_ := of_res (index_arg (args !! 0%nat) (Z.of_nat (length items)) true) in
  let* value := arg (args !! 1%nat) in
  let* child := invalid (child_for node value) in
  set node (NArray (insert_at (Z.to_nat at_) child items)) ;;
  ret (VBoolean true).

(** The index of an element there is; indexing [items] there does not panic. *)
Definition element_arg (args : list Value) (items : list Z) : M JsonError Z :=
  of_res (index_arg (args !! 0%nat) (Z.of_nat (length items)) false).
Definition item_at (at_ : Z) (items : list Z) : M JsonError Z := expect (items !! Z.to_nat at_).

Definition array_set (args : list Value) (node : Z) (items : list Z) : M JsonError Value :=
  let* at_ := element_arg args items in
  let* value := arg (args !! 1%nat) in
  let* child := invalid (child_for node value) in
  item_at at_ items ;;
  set node (NArray (<[Z.to_nat at_ := child]> items)) ;;
  ret (VBoolean true).

Definition array_remove_at (args : list Value) (node : Z) (items : list Z) : M JsonError Value :=
  let* at_ := element_arg args items in
  item_at at_ items ;;
  set node (NArray (delete (Z.to_nat at_) items)) ;;
  ret (VBoolean true).

Definition array_get (args : list Value) (items : list Z) : M JsonError Value :=
  let* at_ := element_arg args items in
  let* item := item_at at_ items in
  give_token item.

Definition array_getter (lower : str) (args : list Value) (items : list Z) : M JsonError Value :=
  let* at_ := map_err as_invalid (element_arg args items) in
  let* item := item_at at_ items in
  let* value := node_at item in
  match value with
  | NScalar scalar => invalid (of_res (scalar_as scalar (drop 3 lower)))
  | _ => fail (InvalidCall (lit "element " ++ i64_to_str at_ ++ lit " is not a JSON value"))
  end.

Definition array_method (method lower : str) (args : list Value) (node : Z) (items : list Z) : M JsonError Value :=
  if str_is lower "add" then array_add args node items
  else if str_is lower "insert" then array_insert args node items
  else if str_is lower "set" then array_set args node items
  else if str_is lower "removeat" then array_remove_at args node items
  else if str_is lower "count" then ret (VInteger (Z.of_nat (length items)))
  else if str_is lower "get" then array_get args items
  else if str_is lower "indexof" then
    let* wanted := wanted_text node args in
    invalid (index_of_text wanted 0 items)
  else if starts_with (lit "get") lower then array_getter lower args items
  else not_supported JArray method.

Definition value_set (args : list Value) (node : Z) : M JsonError Value :=
  let* value := arg (args !! 0%nat) in
  let* h := gets (fun s => cells (shared s)) in
  let* scalar := invalid (of_res (scalar_of h value)) in
  set node (NScalar scalar) ;;
  ret VEmpty.

Definition value_method (method lower : str) (args : list Value) (node : Z) (current : Node) : M JsonError Value :=
  match str_is lower "isnull", current with
  | true, NScalar scalar => ret (VBoolean match scalar with SNull => true | _ => false end)
  | _, _ =>
      if str_is lower "isundefined" then ret (VBoolean false)
      else if str_is lower "setvaluetonull" then set node (NScalar SNull) ;; ret VEmpty
      else if str_is lower "setvalue" then value_set args node
      else
        match starts_with (lit "as") lower, current with
        | true, NScalar scalar => invalid (of_res (scalar_as scalar (drop 2 lower)))
        | _, _ => not_supported JValue method
        end
  end.

(** * Calls *)

Definition run (recv method : str) (args : list Value) : M JsonError Value :=
  let* (k, handle, node) := invalid (node_of recv) in
  let lower := to_ascii_lowercase method in
  modify (with_writebacks []) ;;
  if str_is lower "writeto" then write_to node args
  else if str_is lower "readfrom" then read_from k handle args
  else if str_is lower "selecttoken" then select_token node args
  else if str_is lower "clone" then clone k node
  else if str_is lower "astoken" then reference JToken node
  else
    let* current := node_at node in
    match k, current with
    | JToken, _ => token_method method lower node current
    | JObject, NObject entries => object_method method lower args node entries
    | JArray, NArray items => array_method method lower args node items
    | JValue, _ => value_method method lower args node current
    | _, _ => not_supported k method
    end.

Definition dispatch_json_method (recv method : str) (args : list Value) (statement : bool) (s : JsonState) :
    option (Eval * JsonState) :=
  match run recv method args s with
  | Some (Ok value, s) => Some (Normal value, s)
  | Some (Err (Failed error), s) =>
      Some (if statement then eval_error (method ++ lit ": " ++ error) else Normal (VBoolean false), s)
  | Some (Err (InvalidCall error), s) => Some (eval_error (method ++ lit ": " ++ error), s)
  | None => None
  end.

(** [Clear] of a variable. *)
Definition cleared (k : JsonKind) (s : JsonState) : Value * JsonState :=
  (VJson {| kind := k; jhandle := Some (fresh s) |}, with_fresh (fresh s + 1) s).
End methods.
