(* ===== verification/JsonChange.v ===== *)
(** The arena of JSON nodes is a forest ([interpreter/json.rs]): the invariant,
    and what each operation on nodes does to it.

    [wp m Q s] says that [m] does not panic in the state [s] and that [Q] holds
    of its result and the state it leaves. *)

From Stdlib Require Import ZArith Lia.
From stdpp Require Import base tactics numbers option list gmap strings relations.
From S2P Require Import Prelude RustStr StrSearch Decimals Values Slots Scopes Renders Collections JsonArena JsonTree.

#[local] Open Scope Z_scope.
#[local] Open Scope rust_scope.

Section facts.
Context {D : Decimal} {L : JsonLibs}.

(** * Results *)

Definition wp {E A} (m : M E A) (Q : Res E A -> JsonState -> Prop) (s : JsonState) : Prop :=
  match m s with Some (r, s') => Q r s' | None => False end.

Lemma wp_mono {E A} (m : M E A) (Q Q' : Res E A -> JsonState -> Prop) s :
  (forall r s', Q r s' -> Q' r s') -> wp m Q s -> wp m Q' s.
Proof. unfold wp. intros H. destruct (m s) as [[r s']|]; [apply H|done]. Qed.

Lemma wp_bind {E A B} (m : M E A) (k : A -> M E B) (Q : Res E B -> JsonState -> Prop) s :
  wp m (fun r s' => match r with Ok a => wp (k a) Q s' | Err e => Q (Err e) s' end) s -> wp (bind m k) Q s.
Proof. unfold wp, bind. by destruct (m s) as [[[a|e] s']|]. Qed.

Lemma wp_map_err {E F A} (f : E -> F) (m : M E A) (Q : Res F A -> JsonState -> Prop) s :
  wp m (fun r s' => Q match r with Ok a => Ok a | Err e => Err (f e) end s') s -> wp (map_err f m) Q s.
Proof. unfold wp, map_err. by destruct (m s) as [[[a|e] s']|]. Qed.

(** * The invariant *)

Definition bytes_of (m : gmap Z Node) : Z := foldr (fun e n => node_bytes (snd e) + n) 0 (map_to_list m).

Lemma bytes_of_Permutation l k : l ≡ₚ k ->
  foldr (fun (e : Z * Node) n => node_bytes (snd e) + n) 0 l = foldr (fun e n => node_bytes (snd e) + n) 0 k.
Proof. induction 1; simpl; lia. Qed.

Lemma bytes_of_insert m id node : m !! id = None -> bytes_of (<[id := node]> m) = node_bytes node + bytes_of m.
Proof. intros H. unfold bytes_of. by rewrite (bytes_of_Permutation _ _ (map_to_list_insert m id node H)). Qed.

Lemma bytes_of_set m id node old : m !! id = Some old ->
  bytes_of (<[id := node]> m) = node_bytes node - node_bytes old + bytes_of m.
Proof.
  intros H. rewrite <- insert_delete_eq, bytes_of_insert by apply lookup_delete_eq.
  pose proof (bytes_of_insert (delete id m) id old (lookup_delete_eq _ _)) as Hd. rewrite insert_delete_id in Hd by done. lia.
Qed.

Lemma node_bytes_nonneg node : 0 <= node_entry_size -> 0 <= node_bytes node.
Proof.
  intros H. unfold node_bytes, ARENA_ENTRY, saturating_add. pose proof (str_len_nonneg) as Hl.
  assert (0 <= usize_max) by (unfold_ints; lia).
  assert (forall es : list (str * Z), 0 <= foldr (fun e n => Z.min (ENTRY_BYTES + str_len e.1) usize_max + n) 0 es) as Hf.
  { intros es. induction es as [|e es IH]; simpl; [lia|]. specialize (Hl e.1). unfold ENTRY_BYTES in *. lia. }
  unfold USIZE_BYTES. destruct node as [es|is_|[| | |t]]; [specialize (Hf es)|lia|lia|lia|lia|specialize (Hl t)]; lia.
Qed.

(** A forest of known nodes.  The bytes held are those of the nodes and [base]
    others, as long as they can be counted. *)
Record arena_ok (base : Z) (s : JsonState) : Prop := {
  ids_fresh : forall id, is_Some (nodes (arena s) !! id) -> id < fresh s;
  handles_fresh : forall h n, targets (arena s) !! h = Some n -> h < fresh s;
  targets_known : forall h n, targets (arena s) !! h = Some n -> is_Some (nodes (arena s) !! n);
  all_denote : forall id, is_Some (nodes (arena s) !! id) -> exists t, denotes (nodes (arena s)) id t;
  children_attached : forall p c, child (nodes (arena s)) p c -> c ∈ attached (arena s);
  attached_known : forall c, c ∈ attached (arena s) -> is_Some (nodes (arena s) !! c);
  holders : one_holder (nodes (arena s));
  keys_once : forall p entries, nodes (arena s) !! p = Some (NObject entries) -> NoDup (fst <$> entries);
  bytes_counted : base + bytes_of (nodes (arena s)) <= usize_max -> held_total s = base + bytes_of (nodes (arena s));
}.

Lemma ok_closed base s : arena_ok base s -> closed (nodes (arena s)).
Proof. intros H p c Hc. eapply attached_known, children_attached; done. Qed.

Lemma ok_acyclic base s : arena_ok base s -> acyclic (nodes (arena s)).
Proof.
  intros H p c Hc. pose proof Hc as (node & Hp & _). destruct (all_denote _ _ H p) as [t Ht]; [by exists node|].
  by eapply denotes_acyclic.
Qed.

(** ** What a call that only adds nodes changes

    The nodes it adds hold only nodes it adds. *)
Record grows (s s' : JsonState) : Prop := {
  nodes_grow : nodes (arena s) ⊆ nodes (arena s');
  fresh_grows : fresh s <= fresh s';
  new_nodes : forall id, is_Some (nodes (arena s') !! id) -> nodes (arena s) !! id = None -> fresh s <= id;
  new_children : forall p c, child (nodes (arena s')) p c -> nodes (arena s) !! p = None -> fresh s <= c;
  attached_grow : attached (arena s) ⊆ attached (arena s');
  new_attached : forall c, c ∈ attached (arena s') -> c ∈ attached (arena s) \/ fresh s <= c;
  targets_grow : targets (arena s) ⊆ targets (arena s');
  same_cells : cells (shared s') = cells (shared s) /\ counts (shared s') = counts (shared s) /\ next (shared s') = next (shared s);
  same_stack : stack s' = stack s;
  same_writebacks : writebacks s' = writebacks s;
}.

Lemma grows_refl s : grows s s.
Proof. split; try done; [intros id [x Hx]; congruence|intros p c (n & Hn & _); congruence|by left]. Qed.

Lemma grows_trans s1 s2 s3 : grows s1 s2 -> grows s2 s3 -> grows s1 s3.
Proof.
  intros H1 H2. pose proof (fresh_grows _ _ H1). split.
  - etrans; apply nodes_grow; done.
  - etrans; apply fresh_grows; done.
  - intros id Hid Hn. destruct (nodes (arena s2) !! id) eqn:E; [by eapply (new_nodes _ _ H1)|].
    pose proof (new_nodes _ _ H2 id Hid E). lia.
  - intros p c Hc Hn. destruct (nodes (arena s2) !! p) as [node|] eqn:E.
    + eapply (new_children _ _ H1); [|done]. destruct Hc as (node' & Hp & Hc). exists node. split; [done|].
      rewrite (lookup_weaken _ _ _ _ E (nodes_grow _ _ H2)) in Hp. by injection Hp as <-.
    + pose proof (new_children _ _ H2 p c Hc E). lia.
  - etrans; apply attached_grow; done.
  - intros c [Hc|Hc]%(new_attached _ _ H2); [by apply (new_attached _ _ H1)|right; lia].
  - etrans; apply targets_grow; done.
  - destruct (same_cells _ _ H1) as (?&?&?), (same_cells _ _ H2) as (?&?&?). split_and!; congruence.
  - rewrite (same_stack _ _ H2). apply (same_stack _ _ H1).
  - rewrite (same_writebacks _ _ H2). apply (same_writebacks _ _ H1).
Qed.

Lemma grows_denotes s s' id t : grows s s' -> denotes (nodes (arena s)) id t -> denotes (nodes (arena s')) id t.
Proof. intros H. apply denotes_mono, nodes_grow, H. Qed.

(** A node that nothing holds, and so nothing new. *)
Definition orphan (m : gmap Z Node) (c : Z) : Prop := forall p, ~ child m p c.

Lemma grows_orphan s s' c : grows s s' -> c < fresh s -> orphan (nodes (arena s)) c -> orphan (nodes (arena s')) c.
Proof.
  intros H Hc Ho p Hp. destruct (nodes (arena s) !! p) as [node|] eqn:E; [|pose proof (new_children _ _ H p c Hp E); lia].
  apply (Ho p). destruct Hp as (node' & Hp & Hin). exists node. split; [done|].
  rewrite (lookup_weaken _ _ _ _ E (nodes_grow _ _ H)) in Hp. by injection Hp as <-.
Qed.

(** * Nodes added *)

Lemma node_tree_exists m node : (forall c, c ∈ children node -> exists t, denotes m c t) -> exists t, node_tree m node t.
Proof.
  intros H. destruct node as [entries|items|sc]; cbn [children] in H.
  - assert (exists ts, Forall2 (fun e t => fst e = fst t /\ denotes m (snd e) (snd t)) entries ts) as [ts Hts].
    { induction entries as [|e entries IH]; [by exists []|]. destruct IH as [ts Hts]; [intros c Hc; apply H; by right|].
      destruct (H (snd e)) as [t Ht]; [left|]. exists ((fst e, t) :: ts). by constructor. }
    eexists. by constructor.
  - assert (exists ts, Forall2 (denotes m) items ts) as [ts Hts].
    { induction items as [|e items IH]; [by exists []|]. destruct IH as [ts Hts]; [intros c Hc; apply H; by right|].
      destruct (H e) as [t Ht]; [left|]. exists (t :: ts). by constructor. }
    eexists. by constructor.
  - eexists. constructor.
Qed.

Definition pushed (node : Node) (s : JsonState) : JsonState :=
  insert_node (fresh s) node
    (with_total (add_held_bytes (node_bytes node) (held_total s)) (with_fresh (fresh s + 1) s)).

Lemma push_eq {E} node s : @push _ _ E node s = Some (Ok (fresh s), pushed node s).
Proof. reflexivity. Qed.

(** Children that a new node may hold. *)
Record holdable (s : JsonState) (node : Node) : Prop := {
  apart : NoDup (children node);
  held_attached : forall c, c ∈ children node -> c ∈ attached (arena s);
  held_orphan : forall c, c ∈ children node -> orphan (nodes (arena s)) c;
  held_keys : forall entries, node = NObject entries -> NoDup (fst <$> entries);
}.

Lemma holdable_leaf s node : children node = [] -> holdable s node.
Proof.
  intros H. split; rewrite ?H; [constructor|by intros c []%elem_of_nil|by intros c []%elem_of_nil|].
  intros [|e es] ->; [constructor|done].
Qed.

Lemma child_insert m id node p c : child (<[id := node]> m) p c <-> (p = id /\ c ∈ children node) \/ (p <> id /\ child m p c).
Proof.
  unfold child. destruct (decide (p = id)) as [->|Hn].
  - rewrite lookup_insert_eq. naive_solver.
  - rewrite lookup_insert_ne by done. naive_solver.
Qed.

Lemma fresh_new base s : arena_ok base s -> nodes (arena s) !! fresh s = None.
Proof. intros H. destruct (nodes (arena s) !! fresh s) eqn:E; [|done]. pose proof (ids_fresh _ _ H (fresh s) ltac:(by exists n)). lia. Qed.

Lemma pushed_sub base s node : arena_ok base s -> nodes (arena s) ⊆ nodes (arena (pushed node s)).
Proof.
  intros H. change (nodes (arena s) ⊆ <[fresh s := node]> (nodes (arena s))). apply insert_subseteq. by eapply fresh_new.
Qed.

Hypothesis entry_size_nonneg : 0 <= node_entry_size.

Lemma pushed_ok base s node : 0 <= base -> arena_ok base s -> holdable s node -> arena_ok base (pushed node s).
Proof.
  intros Hb H Hn. pose proof (fresh_new _ _ H) as Hf. pose proof (pushed_sub base s node H) as Hsub.
  assert (forall c, c ∈ children node -> c < fresh s) as Hlt.
  { intros c Hc. eapply ids_fresh, attached_known, held_attached; done. }
  split; cbn [pushed insert_node with_nodes with_arena with_total with_shared with_fresh arena nodes fresh targets attached] in *.
  - intros id. destruct (decide (id = fresh s)) as [->|Hne]; [lia|]. rewrite lookup_insert_ne by done. intros Hid%(ids_fresh _ _ H). lia.
  - intros h n Hh%(handles_fresh _ _ H). lia.
  - intros h n Hh%(targets_known _ _ H). destruct Hh as [x Hx]. exists x. by eapply lookup_weaken.
  - intros id. destruct (decide (id = fresh s)) as [->|Hne].
    + intros _. destruct (node_tree_exists (nodes (arena s)) node) as [t Ht].
      { intros c Hc. eapply all_denote; [done|]. eapply attached_known, held_attached; done. }
      exists t. apply denotes_node. exists node. split; [apply lookup_insert_eq|].
      eapply node_tree_impl; [|exact Ht]. intros c t' _. by apply denotes_mono.
    + rewrite lookup_insert_ne by done. intros [t Ht]%(all_denote _ _ H). exists t. by eapply denotes_mono.
  - intros p c [[-> Hc]|[_ Hc]]%child_insert; [by apply (held_attached _ _ Hn)|by eapply children_attached].
  - intros c Hc%(attached_known _ _ H). destruct Hc as [x Hx]. exists x. by eapply lookup_weaken.
  - intros p p' n n' i i' c Hp Hp' Hi Hi'.
    assert (forall q nq j, nodes (arena s) !! q = Some nq -> children nq !! j = Some c -> c ∈ children node -> False) as Hoo.
    { intros q nq j Hq Hj Hc. apply (held_orphan _ _ Hn _ Hc q). exists nq. split; [done|by eapply list_elem_of_lookup_2]. }
    apply lookup_insert_Some in Hp as [[<- <-]|[Hpn Hp]], Hp' as [[<- <-]|[Hpn' Hp']].
    + split; [done|]. eapply NoDup_lookup; [apply Hn|done|done].
    + destruct (Hoo _ _ _ Hp' Hi'). by eapply list_elem_of_lookup_2.
    + destruct (Hoo _ _ _ Hp Hi). by eapply list_elem_of_lookup_2.
    + by eapply (holders _ _ H).
  - intros p es. destruct (decide (p = fresh s)) as [->|Hne].
    + rewrite lookup_insert_eq. intros [= ->]. by apply (held_keys _ _ Hn).
    + rewrite lookup_insert_ne by done. apply (keys_once _ _ H).
  - rewrite bytes_of_insert by done. pose proof (node_bytes_nonneg node entry_size_nonneg). intros Hle.
    pose proof (bytes_counted _ _ H) as Hh. change (Z.min (held_total s + node_bytes node) usize_max = base + (node_bytes node + bytes_of (nodes (arena s)))). lia.
Qed.

Lemma pushed_grows base s0 s node : arena_ok base s -> grows s0 s -> (forall c, c ∈ children node -> fresh s0 <= c) -> grows s0 (pushed node s).
Proof.
  intros H Hg Hc. pose proof (fresh_new _ _ H) as Hf. pose proof (pushed_sub base s node H) as Hsub. pose proof (fresh_grows _ _ Hg) as Hfg.
  split; cbn [pushed insert_node with_nodes with_arena with_total with_shared with_fresh arena nodes fresh targets attached shared cells counts next stack writebacks] in *;
    [| | | |apply (attached_grow _ _ Hg)|apply (new_attached _ _ Hg)|apply (targets_grow _ _ Hg)|apply (same_cells _ _ Hg)|apply (same_stack _ _ Hg)|apply (same_writebacks _ _ Hg)].
  - etrans; [apply (nodes_grow _ _ Hg)|done].
  - lia.
  - intros id. destruct (decide (id = fresh s)) as [->|Hne]; [done|]. rewrite lookup_insert_ne by done. apply (new_nodes _ _ Hg).
  - intros p c [[-> Hin]|[_ Hin]]%child_insert Hp; [by apply Hc|by eapply (new_children _ _ Hg)].
Qed.

Definition with_attachment (id : Z) (s : JsonState) : JsonState := with_attached ({[id]} ∪ attached (arena s)) s.

Lemma attach_eq {E} id s : @attach _ E id s = Some (Ok tt, with_attachment id s).
Proof. reflexivity. Qed.

Lemma attachment_ok base s id : arena_ok base s -> is_Some (nodes (arena s) !! id) -> arena_ok base (with_attachment id s).
Proof.
  intros H Hid.
  split; [apply (ids_fresh _ _ H)|apply (handles_fresh _ _ H)|apply (targets_known _ _ H)|apply (all_denote _ _ H)| |
         |apply (holders _ _ H)|apply (keys_once _ _ H)|apply (bytes_counted _ _ H)]; cbn.
  - intros p c Hc. apply elem_of_union_r. by eapply (children_attached _ _ H).
  - intros c [->%elem_of_singleton|Hc]%elem_of_union; [done|by eapply attached_known].
Qed.

Lemma attachment_grows s0 s id : grows s0 s -> fresh s0 <= id -> grows s0 (with_attachment id s).
Proof.
  intros Hg Hid.
  split; [apply (nodes_grow _ _ Hg)|apply (fresh_grows _ _ Hg)|apply (new_nodes _ _ Hg)|apply (new_children _ _ Hg)| |
          |apply (targets_grow _ _ Hg)|apply (same_cells _ _ Hg)|apply (same_stack _ _ Hg)|apply (same_writebacks _ _ Hg)]; cbn.
  - etrans; [apply (attached_grow _ _ Hg)|]. set_solver.
  - intros c [->%elem_of_singleton|Hc]%elem_of_union; [by right|by apply (new_attached _ _ Hg)].
Qed.

(** * Trees built *)

(** A new node, not yet held, for a tree. *)
Definition built (s s' : JsonState) (c : Z) (t : Tree) : Prop :=
  fresh s <= c /\ c ∉ attached (arena s') /\ denotes (nodes (arena s')) c t.

Definition builds {E} (base : Z) (m : M E Z) (T : Tree -> Prop) (Er : E -> Prop) (s : JsonState) : Prop :=
  wp m (fun r s' => arena_ok base s' /\ grows s s' /\
    match r with Ok c => exists t, T t /\ built s s' c t | Err e => Er e end) s.

Lemma denotes_known m id t : denotes m id t -> is_Some (m !! id).
Proof. intros (node & H & _)%denotes_node. by exists node. Qed.

Lemma unattached_orphan base s c : arena_ok base s -> c ∉ attached (arena s) -> orphan (nodes (arena s)) c.
Proof. intros H Hc p Hp. apply Hc. by eapply children_attached. Qed.

(** New children, one for each tree of a list. *)
Record children_built (s s' : JsonState) (cs : list Z) (ts : list Tree) : Prop := {
  cb_denote : Forall2 (denotes (nodes (arena s'))) cs ts;
  cb_apart : NoDup cs;
  cb_new : Forall (fun c => fresh s <= c /\ c ∈ attached (arena s') /\ orphan (nodes (arena s')) c) cs;
}.

Lemma each_attach {E A B} base (f : A -> M E Z) (g : A -> Z -> B) (P : JsonState -> Prop) (T : A -> Tree -> Prop) (Er : A -> E -> Prop) l :
  (forall s s', P s -> grows s s' -> P s') ->
  (forall a s, a ∈ l -> arena_ok base s -> P s -> builds base (f a) (T a) (Er a) s) ->
  forall s, arena_ok base s -> P s ->
  wp (each (fun a => let* c := f a in attach c ;; ret (g a c)) l) (fun r s' => arena_ok base s' /\ grows s s' /\
    match r with
    | Ok bs => exists cs ts, bs = zip_with g l cs /\ Forall2 T l ts /\ children_built s s' cs ts
    | Err e => exists a, a ∈ l /\ Er a e
    end) s.
Proof.
  intros Hstable. induction l as [|a l IH]; intros Hf s H HP.
  - split_and!; [done|apply grows_refl|]. exists [], []. split_and!; [done|constructor|]. split; constructor.
  - change (wp (bind (bind (f a) (fun c => bind (attach c) (fun _ => ret (g a c)))) (fun b => bind (each (fun a => let* c := f a in attach c ;; ret (g a c)) l) (fun bs => ret (b :: bs))))
      (fun r s' => arena_ok base s' /\ grows s s' /\ match r with
        | Ok bs => exists cs ts, bs = zip_with g (a :: l) cs /\ Forall2 T (a :: l) ts /\ children_built s s' cs ts
        | Err e => exists a', a' ∈ a :: l /\ Er a' e end) s).
    do 2 apply wp_bind. eapply wp_mono; [|apply (Hf a s ltac:(left) H HP)].
    intros [c|e] s1 (H1 & G1 & Hr); [|split_and!; [done|done|]; exists a; split; [left|done]].
    destruct Hr as (t & Ht & Hc1 & Hc2 & Hc3). apply wp_bind. unfold wp at 1. rewrite attach_eq. unfold wp at 1, ret.
    pose proof (attachment_ok _ _ c H1 (denotes_known _ _ _ Hc3)) as H2. pose proof (attachment_grows _ _ c G1 Hc1) as G2.
    apply wp_bind. eapply wp_mono; [|apply IH; [intros a' s' Ha'; apply Hf; by right|exact H2|by eapply Hstable]].
    intros [bs|e] s3 (H3 & G3 & Hr3); [|split_and!; [done|by eapply grows_trans|]; destruct Hr3 as (a' & ? & ?); exists a'; split; [by right|done]].
    destruct Hr3 as (cs & ts & -> & Hts & Hcs). unfold wp. cbn. split_and!; [done|by eapply grows_trans|].
    exists (c :: cs), (t :: ts). split_and!; [done|by constructor|].
    assert (c < fresh (with_attachment c s1)) as Hlt by (apply (ids_fresh _ _ H1), (denotes_known _ _ _ Hc3)).
    pose proof (fresh_grows _ _ G2) as Hfg. destruct Hcs as [C1 C2 C3]. split.
    + constructor; [by eapply (grows_denotes _ _ _ _ G3)|done].
    + constructor; [|done]. intros Hin. rewrite Forall_forall in C3. destruct (C3 _ Hin) as [? _]. lia.
    + constructor.
      * split_and!; [done|apply (attached_grow _ _ G3); cbn; set_solver|]. eapply grows_orphan; [exact G3|done|]. exact (unattached_orphan _ _ _ H1 Hc2).
      * eapply Forall_impl; [exact C3|]. intros x (? & ? & ?). split_and!; [lia|done|done].
Qed.

Definition entry_with (e : str * Z) (c : Z) : str * Z := (fst e, c).

Lemma entries_with_keys (es : list (str * Z)) cs : length es = length cs -> fst <$> zip_with entry_with es cs = fst <$> es.
Proof. revert cs. induction es as [|e es IH]; intros [|c cs] H; try done. cbn [zip_with]. rewrite !fmap_cons. f_equal. apply IH. by injection H. Qed.

Lemma entries_with_children (es : list (str * Z)) cs : length es = length cs -> snd <$> zip_with entry_with es cs = cs.
Proof. revert cs. induction es as [|e es IH]; intros [|c cs] H; try done. cbn [zip_with]. rewrite !fmap_cons. f_equal. apply IH. by injection H. Qed.

(** The node that holds built children denotes the tree of their trees. *)
Lemma push_built {E} base s0 s node cs t : 0 <= base -> arena_ok base s -> grows s0 s -> children node = cs ->
  (forall es, node = NObject es -> NoDup (fst <$> es)) ->
  NoDup cs -> Forall (fun c => fresh s0 <= c /\ c ∈ attached (arena s) /\ orphan (nodes (arena s)) c) cs ->
  node_tree (nodes (arena s)) node t ->
  @wp E _ (push node) (fun r s' => arena_ok base s' /\ grows s0 s' /\ match r with Ok c => built s0 s' c t | Err _ => False end) s.
Proof.
  intros Hb H G <- Hk Hd Hcs Hn. rewrite Forall_forall in Hcs. unfold wp. rewrite push_eq.
  assert (holdable s node) as Hh by (split; [done|intros c Hc; by apply Hcs|intros c Hc; by apply Hcs|done]).
  pose proof (pushed_ok base s node Hb H Hh) as H'. split_and!; [done|eapply pushed_grows; [done|done|]; intros c Hc; by apply Hcs|].
  pose proof (fresh_new _ _ H) as Hf. split_and!.
  - apply G.
  - change (fresh s ∉ attached (arena s)). intros Ha%(attached_known _ _ H). destruct Ha. congruence.
  - apply denotes_node. exists node. split; [apply lookup_insert_eq|]. eapply node_tree_impl; [|exact Hn].
    intros c t' _. apply denotes_mono. by eapply pushed_sub.
Qed.

(** ** Copies *)

Definition copying : str := lit "Copying a JSON value".

Section copies.
Variable m0 : gmap Z Node.

(** What a copy of the node [id] within [n] levels gives. *)
Definition copied (n : nat) (id : Z) (t : Tree) : Prop := denotes m0 id t /\ (height t <= n)%nat.
Definition not_copied (n : nat) (id : Z) (e : str) : Prop :=
  e = too_deep copying /\ exists t, denotes m0 id t /\ (n < height t)%nat.

Lemma not_copied_child n id c node t e : m0 !! id = Some node -> c ∈ children node -> denotes m0 id t -> not_copied n c e -> not_copied (S n) id e.
Proof.
  intros Hm Hc Ht (-> & t' & Ht' & Hlt). split; [done|]. exists t. split; [done|].
  pose proof Ht as (node' & Hm' & Hn)%denotes_node. rewrite Hm in Hm'. injection Hm' as <-.
  destruct (node_tree_children _ _ _ Hn _ Hc) as (t2 & Ht2 & Hlt2). rewrite (denotes_unique _ _ _ _ Ht2 Ht') in Hlt2. lia.
Qed.

(** The copies of the children of a node make a copy of the node. *)
Lemma copied_node n id node t ts : m0 !! id = Some node -> denotes m0 id t -> Forall2 (copied n) (children node) ts ->
  (height t <= S n)%nat /\ forall m' cs, Forall2 (denotes m') cs ts ->
    match node with
    | NObject es => node_tree m' (NObject (zip_with entry_with es cs)) t
    | NArray items => node_tree m' (NArray cs) t
    | NScalar sc => node_tree m' (NScalar sc) t
    end.
Proof.
  intros Hm Ht Hts. assert (deepest (height <$> ts) <= n)%nat as Hh.
  { apply deepest_le, Forall_fmap. clear -Hts. induction Hts as [|c t cs ts [_ ?] _ IH]; constructor; done. }
  assert (Forall2 (denotes m0) (children node) ts) as Hd by (eapply Forall2_impl; [exact Hts|]; by intros c t' [? _]).
  destruct node as [es|items|sc]; cbn [children] in *.
  - rewrite Forall2_fmap_l in Hd. assert (length es = length ts) as Hl by (by eapply Forall2_length).
    assert (t = TObject (zip_with (fun e t => (fst e, t)) es ts)) as ->.
    { eapply denotes_unique; [exact Ht|]. apply denotes_node. exists (NObject es). split; [done|]. constructor.
      clear -Hd. induction Hd; by constructor. }
    split.
    + cbn [height]. apply le_n_S. etrans; [|exact Hh]. clear -Hl. revert ts Hl. induction es as [|e es IH]; intros [|t ts] Hl; try done.
      cbn. apply Nat.max_le_compat_l, IH. by injection Hl.
    + intros m' cs Hcs. constructor. clear -Hcs Hl. revert es Hl.
      induction Hcs as [|c t cs ts Hc _ IH]; intros [|e es] Hl; try done; constructor; [done|]. apply IH. by injection Hl.
  - assert (t = TArray ts) as -> by (eapply denotes_unique; [exact Ht|]; apply denotes_node; exists (NArray items); split; [done|by constructor]).
    split; [cbn [height]; lia|]. intros m' cs Hcs. by constructor.
  - assert (t = TScalar sc) as -> by (eapply denotes_unique; [exact Ht|]; apply denotes_node; exists (NScalar sc); split; [done|constructor]).
    split; [cbn [height]; lia|]. intros m' cs Hcs. constructor.
Qed.
End copies.

Lemma zip_with_snd {A B} (l : list A) (k : list B) : length l = length k -> zip_with (fun _ b => b) l k = k.
Proof. revert k. induction l as [|a l IH]; intros [|b k] H; try done. cbn [zip_with]. f_equal. apply IH. by injection H. Qed.

Lemma deep_copy_builds base m0 n : 0 <= base -> forall id s, arena_ok base s -> m0 ⊆ nodes (arena s) -> is_Some (m0 !! id) ->
  (forall x, is_Some (m0 !! x) -> exists t, denotes m0 x t) -> builds base (deep_copy_at n id) (copied m0 n id) (not_copied m0 n id) s.
Proof.
  intros Hb. induction n as [|n IH]; intros id s H Hm0 Hid Hall; destruct (Hall id Hid) as [t Ht].
  - split; [done|split; [apply grows_refl|split; [done|]]]. exists t. split; [done|]. destruct t; simpl; lia.
  - cbn [deep_copy_at]. pose proof Ht as (node & Hnode & Hnt)%denotes_node. apply wp_bind. unfold wp at 1, node_at.
    rewrite (lookup_weaken _ _ _ _ Hnode Hm0). cbn [fmap option_fmap option_map].
    (* the children, under any way to see them *)
    assert (forall A B (l : list A) (pr : A -> Z) (g : A -> Z -> B), (forall a, a ∈ l -> pr a ∈ children node) ->
      wp (each (fun a => let* c := deep_copy_at n (pr a) in attach c ;; ret (g a c)) l) (fun r s' => arena_ok base s' /\ grows s s' /\
        match r with
        | Ok bs => exists cs ts, bs = zip_with g l cs /\ Forall2 (fun a => copied m0 n (pr a)) l ts /\ children_built s s' cs ts
        | Err e => exists a, a ∈ l /\ not_copied m0 n (pr a) e end) s) as Heach.
    { intros A B l pr g Hl. apply (each_attach base (fun a => deep_copy_at n (pr a)) g (fun s => m0 ⊆ nodes (arena s))); [|intros a s1 Ha H1 Hm1|done|done].
      - intros s1 s2 H1 G. etrans; [done|apply (nodes_grow _ _ G)].
      - apply IH; [done|done| |done]. destruct (node_tree_children _ _ _ Hnt _ (Hl a Ha)) as (t' & Ht' & _). by eapply denotes_known. }
    destruct node as [es|items|sc].
    + apply wp_bind. eapply wp_mono; [|apply (Heach _ _ es snd entry_with)]; [|intros e; apply list_elem_of_fmap_2].
      intros [bs|er] s1 (H1 & G1 & Hr); [|split_and!; [done|done|]; destruct Hr as (e & He & Hr); eapply not_copied_child; [done| |done|done]; by apply list_elem_of_fmap_2].
      destruct Hr as (cs & ts & -> & Hts & [C1 C2 C3]).
      assert (length es = length cs) as Hlen by (by rewrite (Forall2_length _ _ _ Hts), (Forall2_length _ _ _ C1)).
      destruct (copied_node m0 n id _ t ts Hnode Ht) as [Hh Hcp]; [by apply Forall2_fmap_l|].
      eapply wp_mono; [|apply (push_built base s s1 _ cs t Hb H1 G1)]; [|by apply entries_with_children| |done|done|by apply Hcp].
      * intros [c|er] s2 (H2 & G2 & Hr); [|done]. split_and!; [done|done|]. by exists t.
      * intros es' [= <-]. rewrite entries_with_keys by done. eapply (keys_once _ _ H), lookup_weaken; done.
    + apply wp_bind. eapply wp_mono; [|apply (Heach _ _ items (fun c => c) (fun _ c => c))]; [|done].
      intros [bs|er] s1 (H1 & G1 & Hr); [|split_and!; [done|done|]; destruct Hr as (e & He & Hr); by eapply not_copied_child].
      destruct Hr as (cs & ts & -> & Hts & [C1 C2 C3]).
      destruct (copied_node m0 n id _ t ts Hnode Ht) as [Hh Hcp]; [done|].
      rewrite zip_with_snd by (by rewrite (Forall2_length _ _ _ Hts), (Forall2_length _ _ _ C1)).
      eapply wp_mono; [|apply (push_built base s s1 _ cs t Hb H1 G1)]; [|done|done|done|done|by apply Hcp].
      intros [c|er] s2 (H2 & G2 & Hr); [|done]. split_and!; [done|done|]. by exists t.
    + inversion Hnt; subst. eapply wp_mono; [|apply (push_built base s s (NScalar sc) [] (TScalar sc) Hb H (grows_refl s))]; [|done|done|constructor|constructor|constructor].
      intros [c|er] s2 (H2 & G2 & Hr); [|done]. split_and!; [done|done|]. exists (TScalar sc). split; [split; [done|simpl; lia]|done].
Qed.

(** ** Imports *)

Lemma document_ind' (P : Document -> Prop) :
  P DNull -> (forall b, P (DBool b)) -> (forall n, P (DNumber n)) -> (forall s, P (DString s)) ->
  (forall items, Forall P items -> P (DArray items)) ->
  (forall entries, Forall (fun e => P (snd e)) entries -> P (DObject entries)) -> forall d, P d.
Proof.
  intros H1 H2 H3 H4 H5 H6. fix IH 1. intros [| | | |items|entries]; [done|auto|auto|auto| |].
  - apply H5. induction items; constructor; auto.
  - apply H6. induction entries; constructor; auto.
Qed.

Definition not_imported (d : Document) (e : str) : Prop :=
  document_tree d = None /\ exists text, e = lit "the JSON number " ++ text ++ lit " is outside the Decimal range".

Lemma import_leaf base s d sc : 0 <= base -> arena_ok base s -> document_tree d = Some (TScalar sc) ->
  builds base (push (NScalar sc)) (fun t => document_tree d = Some t) (not_imported d) s.
Proof.
  intros Hb H Hd. eapply wp_mono; [|apply (push_built base s s (NScalar sc) [] (TScalar sc) Hb H (grows_refl s))]; [|done|done|constructor|constructor|constructor].
  intros [c|er] s2 (H2 & G2 & Hr); [|done]. split_and!; [done|done|]. by exists (TScalar sc).
Qed.

Definition document_entry (e : str * Document) (c : Z) : str * Z := (fst e, c).

Lemma document_entries (es : list (str * Document)) cs ts m : Forall2 (fun e t => document_tree (snd e) = Some t) es ts -> Forall2 (denotes m) cs ts ->
  snd <$> zip_with document_entry es cs = cs /\ fst <$> zip_with document_entry es cs = fst <$> es /\
  exists us, mapM (fun e => pair (fst e) <$> document_tree (snd e)) es = Some us /\
    Forall2 (fun e t => fst e = fst t /\ denotes m (snd e) (snd t)) (zip_with document_entry es cs) us.
Proof.
  intros Hts. revert cs. induction Hts as [|e t es ts He Hts IH]; intros cs Hcs.
  - inversion Hcs; subst. split_and!; [done|done|]. exists []. by split; [|constructor].
  - inversion Hcs as [|c t' cs' ts' Hc Hcs']; subst. destruct (IH cs' Hcs') as (E1 & E2 & us & Hu & Hus).
    cbn [zip_with]. rewrite !fmap_cons, E1, E2. split_and!; [done|done|]. exists ((fst e, t) :: us). split; [|by constructor].
    cbn. by rewrite He, Hu.
Qed.

Lemma mapM_missing {A B} (f : A -> option B) l a : a ∈ l -> f a = None -> mapM f l = None.
Proof. intros Ha Hf. apply mapM_None_2, Exists_exists. by exists a. Qed.

Lemma import_builds base d : 0 <= base -> forall s, arena_ok base s -> distinct_keys d ->
  builds base (import d) (fun t => document_tree d = Some t) (not_imported d) s.
Proof.
  intros Hb. induction d as [|b|n|text|items IH|es IH] using document_ind'; intros s H Hk; try by eapply import_leaf.
  - cbn [import]. apply wp_bind. unfold wp at 1, of_res. destruct (json_number n) as [x|] eqn:E; cbn [ok_or].
    + apply import_leaf; [done|done|]. cbn [document_tree]. by rewrite E.
    + split_and!; [done|apply grows_refl|]. split; [cbn [document_tree]; by rewrite E|by exists n].
  - cbn [import]. apply wp_bind. cbn [distinct_keys] in Hk.
    eapply wp_mono; [|apply (each_attach base import (fun _ c => c) (fun _ => True) (fun d t => document_tree d = Some t) not_imported items)]; [|done| |done|done].
    + intros [bs|er] s1 (H1 & G1 & Hr); [|split_and!; [done|done|]; destruct Hr as (a & Ha & Hn & Hr); split; [cbn [document_tree]; by rewrite (mapM_missing _ _ _ Ha Hn)|done]].
      destruct Hr as (cs & ts & -> & Hts & [C1 C2 C3]).
      rewrite zip_with_snd by (by rewrite (Forall2_length _ _ _ Hts), (Forall2_length _ _ _ C1)).
      eapply wp_mono; [|apply (push_built base s s1 _ cs (TArray ts) Hb H1 G1)]; [|done|done|done|done|by constructor].
      intros [c|er] s2 (H2 & G2 & Hr); [|done]. split_and!; [done|done|]. exists (TArray ts). split; [|done].
      cbn [document_tree]. by rewrite (mapM_Some_2 _ _ _ Hts).
    + intros a s1 Ha H1 _. rewrite Forall_forall in IH. apply IH; [done|done|]. clear -Ha Hk.
      induction Ha as [|a b items Ha IHa]; simpl in Hk; [by destruct Hk|apply IHa; by destruct Hk].
  - cbn [import]. apply wp_bind. cbn [distinct_keys] in Hk. destruct Hk as [Hnd Hk].
    eapply wp_mono; [|apply (each_attach base (fun e => import (snd e)) document_entry (fun _ => True) (fun e t => document_tree (snd e) = Some t) (fun e => not_imported (snd e)) es)]; [|done| |done|done].
    + intros [bs|er] s1 (H1 & G1 & Hr).
      * destruct Hr as (cs & ts & -> & Hts & [C1 C2 C3]). destruct (document_entries es cs ts _ Hts C1) as (E1 & E2 & us & Hu & Hus).
        eapply wp_mono; [|apply (push_built base s s1 _ cs (TObject us) Hb H1 G1)]; [|done| |done|done|by constructor].
        -- intros [c|er] s2 (H2 & G2 & Hr); [|done]. split_and!; [done|done|]. exists (TObject us). split; [|done]. cbn [document_tree]. by rewrite Hu.
        -- intros es' [= <-]. by rewrite E2.
      * split_and!; [done|done|]. destruct Hr as (a & Ha & Hn & Hr). split; [|done]. cbn [document_tree].
        rewrite (mapM_missing _ _ a Ha); [done|by rewrite Hn].
    + intros a s1 Ha H1 _. rewrite Forall_forall in IH. apply IH; [done|done|]. clear -Ha Hk.
      induction Ha as [|a b items Ha IHa]; simpl in Hk; [by destruct Hk|apply IHa; by destruct Hk].
Qed.

(** * References *)

Lemma insert_target_ok base s handle node : arena_ok base s -> handle < fresh s -> is_Some (nodes (arena s) !! node) ->
  arena_ok base (insert_target handle node s).
Proof.
  intros H Hh Hn.
  split; [apply (ids_fresh _ _ H)| | |apply (all_denote _ _ H)|apply (children_attached _ _ H)|apply (attached_known _ _ H)
         |apply (holders _ _ H)|apply (keys_once _ _ H)|apply (bytes_counted _ _ H)]; intros h n;
    change (targets (arena (insert_target handle node s))) with (<[handle := node]> (targets (arena s)));
    intros [[<- <-]|[_ Hl]]%lookup_insert_Some; [done|by eapply (handles_fresh _ _ H)|done|by eapply (targets_known _ _ H)].
Qed.

Lemma insert_target_grows s0 s handle node : grows s0 s -> targets (arena s) !! handle = None -> grows s0 (insert_target handle node s).
Proof.
  intros G Hh.
  split; [apply (nodes_grow _ _ G)|apply (fresh_grows _ _ G)|apply (new_nodes _ _ G)|apply (new_children _ _ G)|apply (attached_grow _ _ G)
         |apply (new_attached _ _ G)| |apply (same_cells _ _ G)|apply (same_stack _ _ G)|apply (same_writebacks _ _ G)].
  etrans; [apply (targets_grow _ _ G)|]. by apply insert_subseteq.
Qed.

(** A draw from the counter. *)
Lemma fresh_ok base s : arena_ok base s -> arena_ok base (with_fresh (fresh s + 1) s).
Proof.
  intros H. split; [| |apply (targets_known _ _ H)|apply (all_denote _ _ H)|apply (children_attached _ _ H)|apply (attached_known _ _ H)
         |apply (holders _ _ H)|apply (keys_once _ _ H)|apply (bytes_counted _ _ H)].
  - intros id Hid%(ids_fresh _ _ H). cbn. lia.
  - intros h n Hh%(handles_fresh _ _ H). cbn. lia.
Qed.

Lemma fresh_grows_one s0 s : grows s0 s -> grows s0 (with_fresh (fresh s + 1) s).
Proof.
  intros G. split; [apply (nodes_grow _ _ G)| |apply (new_nodes _ _ G)|apply (new_children _ _ G)|apply (attached_grow _ _ G)
         |apply (new_attached _ _ G)|apply (targets_grow _ _ G)|apply (same_cells _ _ G)|apply (same_stack _ _ G)|apply (same_writebacks _ _ G)].
  pose proof (fresh_grows _ _ G). cbn. lia.
Qed.

Lemma target_ok base s handle k : 0 <= base -> arena_ok base s -> handle < fresh s ->
  wp (@target _ _ str handle k) (fun r s' => arena_ok base s' /\ grows s s' /\
    match r with
    | Ok node => targets (arena s') !! handle = Some node /\ is_Some (nodes (arena s') !! node) /\
        (targets (arena s) !! handle = None -> nodes (arena s') !! node = Some (empty_node k) /\ node ∉ attached (arena s') /\ fresh s <= node)
    | Err _ => False
    end) s.
Proof.
  intros Hb H Hh. unfold target. apply wp_bind. unfold wp at 1, gets. destruct (targets (arena s) !! handle) as [node|] eqn:E.
  - unfold wp, ret. split_and!; [done|apply grows_refl|done|by eapply targets_known|done].
  - unfold wp, bind. rewrite push_eq. cbn [modify ret].
    assert (children (empty_node k) = []) as Hl by (by destruct k).
    pose proof (pushed_ok base s (empty_node k) Hb H (holdable_leaf _ _ Hl)) as H1.
    assert (grows s (pushed (empty_node k) s)) as G1 by (eapply pushed_grows; [done|apply grows_refl|]; rewrite Hl; by intros c []%elem_of_nil).
    pose proof (fresh_new _ _ H) as Hf.
    assert (nodes (arena (pushed (empty_node k) s)) !! fresh s = Some (empty_node k)) as Hnew by apply lookup_insert_eq.
    split_and!.
    + apply insert_target_ok; [done|cbn; lia|by rewrite Hnew].
    + by apply insert_target_grows.
    + apply lookup_insert_eq.
    + by exists (empty_node k).
    + intros _. split; [exact Hnew|]. split; [|done]. change (fresh s ∉ attached (arena s)). intros Ha%(attached_known _ _ H). destruct Ha. congruence.
Qed.

Definition referred (k : JsonKind) (s : JsonState) : Value := VJson {| kind := k; jhandle := Some (fresh s) |}.
Definition after_reference (node : Z) (s : JsonState) : JsonState := insert_target (fresh s) node (with_fresh (fresh s + 1) s).

Lemma reference_eq {E} k node s : @reference _ E k node s = Some (Ok (referred k s), after_reference node s).
Proof. reflexivity. Qed.

Lemma reference_ok base s node : arena_ok base s -> is_Some (nodes (arena s) !! node) -> arena_ok base (after_reference node s).
Proof. intros H Hn. apply insert_target_ok; [by apply fresh_ok|cbn; lia|done]. Qed.

Lemma reference_grows base s0 s node : arena_ok base s -> grows s0 s -> grows s0 (after_reference node s).
Proof.
  intros H G. apply insert_target_grows; [by apply fresh_grows_one|]. cbn. destruct (targets (arena s) !! fresh s) eqn:E; [|done].
  pose proof (handles_fresh _ _ H _ _ E). lia.
Qed.
End facts.

(** * Changes *)

Section change.
Context {D : Decimal} {L : JsonLibs}.
Hypothesis entry_size_nonneg : 0 <= node_entry_size.

(** * The node placed for a value *)

(** The handle in a value was drawn from the counter. *)
Definition value_known (s : JsonState) (v : Value) : Prop :=
  match v with VJson {| jhandle := Some h |} => h < fresh s | _ => True end.

(** The tree a value is stored as. *)
Definition value_tree (s : JsonState) (v : Value) (t : Tree) : Prop :=
  match v with
  | VJson {| kind := k; jhandle := Some h |} =>
      match targets (arena s) !! h with
      | Some node => denotes (nodes (arena s)) node t
      | None => node_tree ∅ (empty_node k) t
      end
  | VJson {| kind := k; jhandle := None |} => node_tree ∅ (empty_node k) t
  | other => exists sc, scalar_of (cells (shared s)) other = Ok sc /\ t = TScalar sc
  end.

(** The node a variable refers to, if it has one yet. *)
Definition referred_node (s : JsonState) (v : Value) : option Z :=
  match v with VJson {| jhandle := Some h |} => targets (arena s) !! h | _ => None end.

Record placed (s s' : JsonState) (parent : Z) (v : Value) (c : Z) : Prop := {
  placed_tree : exists t, value_tree s v t /\ denotes (nodes (arena s')) c t;
  placed_attached : c ∈ attached (arena s');
  placed_orphan : orphan (nodes (arena s')) c;
  placed_apart : ~ reach (nodes (arena s')) c parent;
  (** The variable's own node, unless it is held or holds the parent. *)
  placed_node : match referred_node s v with
    | Some node => (node ∉ attached (arena s) /\ ~ reach (nodes (arena s)) node parent /\ c = node) \/
                   ((node ∈ attached (arena s) \/ reach (nodes (arena s)) node parent) /\ fresh s <= c)
    | None => fresh s <= c
    end;
  placed_bytes : held_total s' <= MAX_HELD_BYTES;
}.

Lemma empty_tree m k t : node_tree ∅ (empty_node k) t -> node_tree m (empty_node k) t.
Proof. apply node_tree_impl. intros c t' Hc. destruct k; by apply elem_of_nil in Hc. Qed.

Lemma empty_tree_exists k : exists t, node_tree ∅ (empty_node k) t.
Proof. apply node_tree_exists. intros c Hc. destruct k; by apply elem_of_nil in Hc. Qed.

(** From a new node only new nodes are reached. *)
Lemma grows_reach_new base s s' a b : arena_ok base s -> grows s s' -> fresh s <= a -> reach (nodes (arena s')) a b -> fresh s <= b.
Proof.
  intros H G Ha Hr. induction Hr as [|a c b Hac _ IH]; [done|]. apply IH. eapply (new_children _ _ G); [done|].
  destruct (nodes (arena s) !! a) eqn:E; [|done]. pose proof (ids_fresh _ _ H a ltac:(by eexists)). lia.
Qed.

(** Old nodes reach in the larger arena what they reached. *)
Lemma grows_child s s' a b : grows s s' -> is_Some (nodes (arena s) !! a) -> child (nodes (arena s')) a b <-> child (nodes (arena s)) a b.
Proof.
  intros G [node Ha]. pose proof (lookup_weaken _ _ _ _ Ha (nodes_grow _ _ G)) as Ha'. unfold child. rewrite Ha, Ha'. done.
Qed.

Lemma grows_reach base s s' a b : arena_ok base s -> grows s s' -> is_Some (nodes (arena s) !! a) ->
  reach (nodes (arena s')) a b <-> reach (nodes (arena s)) a b.
Proof.
  intros H G Ha. split; intros Hr.
  - induction Hr as [|a c b Hac _ IH]; [constructor|]. apply (grows_child _ _ _ _ G Ha) in Hac.
    eapply rtc_l; [done|]. apply IH. by eapply ok_closed.
  - induction Hr as [|a c b Hac _ IH]; [constructor|]. eapply rtc_l; [by apply (grows_child _ _ _ _ G Ha)|]. apply IH. by eapply ok_closed.
Qed.

(** Attaching the node found and checking the budget. *)
Lemma attach_checked {E : Type} (from : str -> E) s c operation :
  wp (attach c ;; check_held from operation ;; ret c) (fun r s' => s' = with_attachment c s /\
    match r with Ok c' => c' = c /\ held_total s' <= MAX_HELD_BYTES | Err e => MAX_HELD_BYTES < held_total s' /\ e = from (over_held_budget operation (held_total s')) end) s.
Proof.
  unfold wp, bind. rewrite attach_eq. unfold check_held, bind, gets, map_err, of_res, check_held_bytes.
  destruct (Z.ltb_spec MAX_HELD_BYTES (held_total (with_attachment c s))); split; done.
Qed.

(** What a value can be refused for. *)
Inductive child_error (s s' : JsonState) (v : Value) : str -> Prop :=
  | too_deep_child t : value_tree s v t -> (max_levels < height t)%nat -> child_error s s' v (too_deep copying)
  | no_scalar e : scalar_of (cells (shared s)) v = Err e -> child_error s s' v e
  | over_budget : MAX_HELD_BYTES < held_total s' -> child_error s s' v (over_held_budget adding (held_total s')).

(** The nodes are those of a state that grew; at most one more is attached. *)
Definition grows_held (s s' : JsonState) (c : option Z) : Prop :=
  exists s1, grows s s1 /\ s' = match c with Some c => with_attachment c s1 | None => s1 end.

(** The node [child_for] finds, before it is attached. *)
Record found_child (s s1 : JsonState) (parent : Z) (v : Value) (c : Z) : Prop := {
  found_tree : exists t, value_tree s v t /\ denotes (nodes (arena s1)) c t;
  found_free : c ∉ attached (arena s1);
  found_apart : ~ reach (nodes (arena s1)) c parent;
  found_node : match referred_node s v with
    | Some node => (node ∉ attached (arena s) /\ ~ reach (nodes (arena s)) node parent /\ c = node) \/
                   ((node ∈ attached (arena s) \/ reach (nodes (arena s)) node parent) /\ fresh s <= c)
    | None => fresh s <= c
    end;
}.

Lemma found_placed base s s1 parent v c : arena_ok base s1 -> found_child s s1 parent v c ->
  held_total (with_attachment c s1) <= MAX_HELD_BYTES -> placed s (with_attachment c s1) parent v c.
Proof.
  intros H [F1 F2 F3 F4] Hb. split; [done|cbn; set_solver|by eapply (unattached_orphan base s1)|done|done|done].
Qed.

(** A new node for a tree is apart from all that was there. *)
Lemma built_found base s s1 parent v c t : arena_ok base s -> is_Some (nodes (arena s) !! parent) -> grows s s1 -> built s s1 c t -> value_tree s v t ->
  match referred_node s v with Some node => node ∈ attached (arena s) \/ reach (nodes (arena s)) node parent | None => True end ->
  found_child s s1 parent v c.
Proof.
  intros H Hp G (B1 & B2 & B3) Ht Hn. split; [by exists t|done| |].
  - intros Hr. pose proof (grows_reach_new _ _ _ _ _ H G B1 Hr). pose proof (ids_fresh _ _ H _ Hp). lia.
  - destruct (referred_node s v); [by right|done].
Qed.

Lemma leaf_built {E : Type} base s node t : 0 <= base -> arena_ok base s -> children node = [] -> node_tree ∅ node t ->
  wp (push node : M E Z) (fun r s' => arena_ok base s' /\ grows s s' /\ match r with Ok c => built s s' c t | Err _ => False end) s.
Proof.
  intros Hb H Hl Hn. apply (push_built entry_size_nonneg base s s node [] t Hb H (grows_refl s)); [done| |constructor|constructor|].
  - intros es ->. cbn in Hl. apply fmap_nil_inv in Hl as ->. constructor.
  - eapply node_tree_impl; [|exact Hn]. rewrite Hl. by intros c t' []%elem_of_nil.
Qed.

(** The first half of [child_for], with the same name for its result. *)
Definition found_in (parent : Z) (value : Value) : M str Z :=
  match value with
  | VJson {| kind := k; jhandle := Some handle |} =>
      let* node := target handle k in
      let* a := gets arena in
      let* copied :=
        (if bool_decide (node ∈ attached a) then ret true else expect (holds (nodes a) node parent)) in
      if copied then deep_copy node else ret node
  | VJson {| kind := k; jhandle := None |} => push (empty_node k)
  | other =>
      let* h := gets (fun s => cells (shared s)) in
      let* scalar := of_res (scalar_of h other) in
      push (NScalar scalar)
  end.

Lemma child_for_eq parent value :
  child_for parent value = (let* id := found_in parent value in attach id ;; check_held (fun e => e) adding ;; ret id).
Proof. done. Qed.

Definition found_spec (base : Z) (s : JsonState) (parent : Z) (v : Value) (r : Res str Z) (s1 : JsonState) : Prop :=
  arena_ok base s1 /\ grows s s1 /\
  match r with Ok c => found_child s s1 parent v c | Err e => child_error s s1 v e end.

(** The node of a variable denotes the variable's tree. *)
Lemma target_denotes base s s1 h k node : arena_ok base s -> grows s s1 -> targets (arena s1) !! h = Some node ->
  (targets (arena s) !! h = None -> nodes (arena s1) !! node = Some (empty_node k)) ->
  exists t, value_tree s (VJson {| kind := k; jhandle := Some h |}) t /\ denotes (nodes (arena s1)) node t.
Proof.
  intros H G1 Ht Hnew. unfold value_tree. destruct (targets (arena s) !! h) as [n|] eqn:E.
  - pose proof (lookup_weaken _ _ _ _ E (targets_grow _ _ G1)) as E'. rewrite Ht in E'. injection E' as <-.
    destruct (all_denote _ _ H node) as [t Hd]; [by eapply targets_known|]. exists t. split; [done|by eapply grows_denotes].
  - destruct (empty_tree_exists k) as [t He]. exists t. split; [done|].
    apply denotes_node. exists (empty_node k). split; [by apply Hnew|by apply empty_tree].
Qed.

Lemma found_json base s parent h k : 0 <= base -> arena_ok base s -> is_Some (nodes (arena s) !! parent) -> h < fresh s ->
  wp (found_in parent (VJson {| kind := k; jhandle := Some h |})) (found_spec base s parent (VJson {| kind := k; jhandle := Some h |})) s.
Proof.
  intros Hb H Hp Hh. cbn [found_in]. apply wp_bind. eapply wp_mono; [|by apply (target_ok entry_size_nonneg base s h k)].
  intros [node|e] s1 (H1 & G1 & Hr); [|done]. destruct Hr as (Ht & Hn & Hnew).
  set (v := VJson {| kind := k; jhandle := Some h |}).
  (* the node of the variable, and whether it is copied *)
  destruct (target_denotes base s s1 h k node H G1 Ht (fun E => proj1 (Hnew E))) as (t & Hvt & Hdt).
  assert (exists b, (if bool_decide (node ∈ attached (arena s1)) then Some true else holds (nodes (arena s1)) node parent) = Some b /\
    (b = true <-> node ∈ attached (arena s1) \/ reach (nodes (arena s1)) node parent)) as (b & Eb & Hbt).
  { case_bool_decide; [exists true; tauto|]. destruct (holds_exact (nodes (arena s1)) node parent (ok_closed _ _ H1) Hn) as (b & -> & Hb').
    exists b. split; [done|]. rewrite Hb'. tauto. }
  apply wp_bind. unfold wp at 1, gets. apply wp_bind.
  assert (forall Q, wp (if b then deep_copy node else ret node) Q s1 ->
    wp (if bool_decide (node ∈ attached (arena s1)) then (ret true : M str bool) else expect (holds (nodes (arena s1)) node parent))
      (fun r s' => match r with Ok a => wp (if a then deep_copy node else ret node) Q s' | Err e => Q (Err e) s' end) s1) as Hchoose.
  { intros Q HQ. unfold wp at 1. case_bool_decide; [injection Eb as <-; exact HQ|]. unfold expect. rewrite Eb. exact HQ. }
  apply Hchoose. clear Hchoose Eb.
  assert (referred_node s v = Some node -> (node ∈ attached (arena s1) <-> node ∈ attached (arena s)) /\
    (reach (nodes (arena s1)) node parent <-> reach (nodes (arena s)) node parent)) as Hold.
  { intros Hv. cbn in Hv. pose proof (targets_known _ _ H _ _ Hv) as Hk. split; [|by eapply grows_reach].
    split; [|apply (attached_grow _ _ G1)]. intros [?|Hf]%(new_attached _ _ G1); [done|]. pose proof (ids_fresh _ _ H _ Hk). lia. }
  destruct b.
  - eapply wp_mono; [|by apply (deep_copy_builds entry_size_nonneg base (nodes (arena s1)) max_levels Hb node s1); [done..|apply (all_denote _ _ H1)]].
    intros [c|e] s2 (H2 & G2 & Hr).
    + destruct Hr as (t' & [Ht1 Ht2] & Hbuilt). rewrite (denotes_unique _ _ _ _ Ht1 Hdt) in Hbuilt. split; [done|].
      split; [by eapply grows_trans|]. eapply built_found; [done|done|by eapply grows_trans| |exact Hvt|].
      * destruct Hbuilt as (B1 & B2 & B3). split_and!; [|done|done]. pose proof (fresh_grows _ _ G1). lia.
      * destruct (referred_node s v) as [n|] eqn:E; [|done]. assert (n = node) as ->.
        { cbn in E. pose proof (lookup_weaken _ _ _ _ E (targets_grow _ _ G1)) as E'. congruence. }
        destruct (Hold eq_refl) as [Ho1 Ho2]. rewrite <- Ho1, <- Ho2. by apply Hbt.
    + destruct Hr as (-> & t' & Ht1 & Hlt). split; [done|]. split; [by eapply grows_trans|]. eapply too_deep_child; [exact Hvt|].
      by rewrite (denotes_unique _ _ _ _ Hdt Ht1).
  - assert (~ (node ∈ attached (arena s1) \/ reach (nodes (arena s1)) node parent)) as Hno by (intros Hc%Hbt; done).
    split; [done|]. split; [done|]. split; [by exists t|tauto|tauto|].
    destruct (referred_node s v) as [n|] eqn:E.
    + assert (n = node) as -> by (cbn in E; pose proof (lookup_weaken _ _ _ _ E (targets_grow _ _ G1)); congruence).
      destruct (Hold eq_refl) as [Ho1 Ho2]. left. rewrite <- Ho1, <- Ho2. tauto.
    + by destruct (Hnew E) as (_ & _ & ?).
Qed.

(** A value that is no JSON variable is stored as a scalar. *)
Lemma found_scalar base s parent v : 0 <= base -> arena_ok base s -> is_Some (nodes (arena s) !! parent) ->
  (forall sc, scalar_of (cells (shared s)) v = Ok sc -> value_tree s v (TScalar sc)) -> referred_node s v = None ->
  wp (let* h := gets (fun s => cells (shared s)) in let* scalar := of_res (scalar_of h v) in push (NScalar scalar)) (found_spec base s parent v) s.
Proof.
  intros Hb H Hp Ht Hr. apply wp_bind. unfold wp at 1, gets. apply wp_bind. unfold wp at 1, of_res.
  destruct (scalar_of (cells (shared s)) v) as [sc|e] eqn:E.
  - eapply wp_mono; [|apply (leaf_built base s (NScalar sc) (TScalar sc) Hb H); [done|constructor]].
    intros [c|e] s1 (H1 & G1 & Hbu); [|done]. split; [done|]. split; [done|]. eapply built_found; [done..|by apply Ht|by rewrite Hr].
  - split; [done|]. split; [apply grows_refl|]. by apply no_scalar.
Qed.

Lemma found_ok base s parent v : 0 <= base -> arena_ok base s -> is_Some (nodes (arena s) !! parent) -> value_known s v ->
  wp (found_in parent v) (found_spec base s parent v) s.
Proof.
  intros Hb H Hp Hv. pose proof (found_scalar base s parent v Hb H Hp) as Hs.
  destruct v; try (exact (Hs (fun sc E => ex_intro _ sc (conj E eq_refl)) eq_refl)).
  destruct j as [k [h|]]; [by apply found_json|]. destruct (empty_tree_exists k) as [t Ht].
  eapply wp_mono; [|apply (leaf_built base s (empty_node k) t Hb H); [by destruct k|done]].
  intros [c|e] s1 (H1 & G1 & Hbu); [|done]. split; [done|]. split; [done|]. by eapply built_found.
Qed.

(** [child_for] gives a node for the value that can be held, or says why not;
    what was there is as it was. *)
Lemma child_for_ok base s parent v : 0 <= base -> arena_ok base s -> is_Some (nodes (arena s) !! parent) -> value_known s v ->
  wp (child_for parent v) (fun r s' => arena_ok base s' /\
    match r with
    | Ok c => grows_held s s' (Some c) /\ placed s s' parent v c
    | Err e => (exists c, grows_held s s' c) /\ child_error s s' v e
    end) s.
Proof.
  intros Hb H Hp Hv. rewrite child_for_eq. apply wp_bind. eapply wp_mono; [|by apply found_ok].
  intros [c|e] s1 (H1 & G1 & Hr).
  - eapply wp_mono; [|apply attach_checked].
    assert (is_Some (nodes (arena s1) !! c)) as Hc by (destruct Hr as [(t & _ & Ht) _ _ _]; by eapply denotes_known).
    intros [c'|e] s2 [-> Hr2].
    + destruct Hr2 as [-> Hle]. split; [by apply attachment_ok|]. split; [by exists s1|]. by eapply found_placed.
    + destruct Hr2 as [Hlt ->]. split; [by apply attachment_ok|]. split; [exists (Some c); by exists s1|]. by apply over_budget.
  - split; [done|]. split; [exists None; by exists s1|done].
Qed.

(** * The node set *)

Definition set_node (p : Z) (node : Node) (s : JsonState) : JsonState :=
  let bytes := node_bytes node in
  let before := default 0 (node_bytes <$> nodes (arena s) !! p) in
  let s := insert_node p node s in
  if before <=? bytes then with_total (add_held_bytes (bytes - before) (held_total s)) s
  else with_total (release_held_bytes (before - bytes) (held_total s)) s.

Lemma set_eq {E : Type} p node s : (set p node : M E unit) s = Some (Ok tt, set_node p node s).
Proof. reflexivity. Qed.

(** All but the node and the total is as it was. *)
Lemma set_node_same p node s : nodes (arena (set_node p node s)) = <[p := node]> (nodes (arena s)) /\
  attached (arena (set_node p node s)) = attached (arena s) /\ targets (arena (set_node p node s)) = targets (arena s) /\
  fresh (set_node p node s) = fresh s /\ stack (set_node p node s) = stack s /\ writebacks (set_node p node s) = writebacks s /\
  cells (shared (set_node p node s)) = cells (shared s) /\ counts (shared (set_node p node s)) = counts (shared s) /\
  next (shared (set_node p node s)) = next (shared s).
Proof. unfold set_node. by destruct (_ <=? _). Qed.

(** The children a node may be given in place of those it has. *)
Record settable (s : JsonState) (p : Z) (old node : Node) : Prop := {
  set_apart : NoDup (children node);
  set_children : forall c, c ∈ children node -> c ∈ children old \/
    (c ∈ attached (arena s) /\ orphan (nodes (arena s)) c /\ ~ reach (nodes (arena s)) c p);
  set_keys : forall es, node = NObject es -> NoDup (fst <$> es);
}.

Lemma settable_apart base s p old node c : arena_ok base s -> nodes (arena s) !! p = Some old -> settable s p old node -> c ∈ children node ->
  c ∈ attached (arena s) /\ ~ reach (nodes (arena s)) c p.
Proof.
  intros H Hp Hs Hc. destruct (set_children _ _ _ _ Hs _ Hc) as [Hold|(? & _ & ?)]; [|done].
  assert (child (nodes (arena s)) p c) as Hch by (by exists old). split; [by eapply children_attached|by eapply ok_acyclic].
Qed.

Lemma set_denotes_all base s p old node : arena_ok base s -> nodes (arena s) !! p = Some old -> settable s p old node ->
  forall id, is_Some (nodes (arena s) !! id) -> exists t, denotes (<[p := node]> (nodes (arena s))) id t.
Proof.
  intros H Hp Hs.
  assert (exists t, denotes (<[p := node]> (nodes (arena s))) p t) as [tp Htp].
  { destruct (node_tree_exists (<[p := node]> (nodes (arena s))) node) as [t Ht].
    - intros c Hc. destruct (settable_apart _ _ _ _ _ _ H Hp Hs Hc) as [Ha Hr].
      destruct (all_denote _ _ H c) as [t Ht]; [by eapply attached_known|]. exists t. by apply denotes_update.
    - exists t. apply denotes_node. exists node. split; [apply lookup_insert_eq|done]. }
  intros id Hid. destruct (all_denote _ _ H id Hid) as [t Ht]. remember (height t) as n eqn:En.
  assert (height t <= n)%nat as Hn by lia. clear En Hid. revert id t Hn Ht. induction n as [|n IH]; intros id t Hn Ht; [destruct t; simpl in Hn; lia|].
  destruct (decide (id = p)) as [->|Hne]; [by exists tp|].
  apply denotes_node in Ht as (nd & Hnd & Hnt). destruct (node_tree_exists (<[p := node]> (nodes (arena s))) nd) as [t' Ht'].
  - intros c Hc. destruct (node_tree_children _ _ _ Hnt _ Hc) as (tc & Htc & Hlt). apply (IH c tc); [lia|done].
  - exists t'. apply denotes_node. exists nd. split; [by rewrite lookup_insert_ne|done].
Qed.

Lemma set_node_ok base s p old node : arena_ok base s -> nodes (arena s) !! p = Some old -> settable s p old node -> 0 <= base ->
  node_bytes old <= node_bytes node \/ base + bytes_of (nodes (arena s)) <= usize_max -> arena_ok base (set_node p node s).
Proof.
  intros H Hp Hs Hb Hbytes. pose proof (set_node_same p node s) as (En & Ea & Et & Ef & _).
  split; rewrite ?En, ?Ea, ?Et, ?Ef.
  - intros id Hid. destruct (decide (id = p)) as [->|Hne]; [eapply ids_fresh; [done|by exists old]|].
    rewrite lookup_insert_ne in Hid by done. by eapply ids_fresh.
  - apply (handles_fresh _ _ H).
  - intros h n Hn%(targets_known _ _ H). apply lookup_insert_is_Some'. by right.
  - intros id Hid. eapply set_denotes_all; [done..|]. apply lookup_insert_is_Some' in Hid as [<-|Hid]; [by exists old|done].
  - intros q c [[-> Hc]|[_ Hc]]%child_insert; [by eapply settable_apart|by eapply children_attached].
  - intros c Hc%(attached_known _ _ H). apply lookup_insert_is_Some'. by right.
  - intros q q' n n' i i' c Hq Hq' Hi Hi'.
    assert (forall r nr j, nodes (arena s) !! r = Some nr -> r <> p -> children nr !! j = Some c -> c ∈ children node -> False) as Hoo.
    { intros r nr j Hr Hrp Hj Hc. assert (child (nodes (arena s)) r c) as Hrc by (exists nr; split; [done|by eapply list_elem_of_lookup_2]).
      destruct (set_children _ _ _ _ Hs _ Hc) as [Hold|(_ & Ho & _)]; [|by apply (Ho r)].
      apply Hrp. eapply holder_unique; [apply (holders _ _ H)|done|by exists old]. }
    apply lookup_insert_Some in Hq as [[<- <-]|[Hqn Hq]], Hq' as [[<- <-]|[Hqn' Hq']].
    + split; [done|]. eapply NoDup_lookup; [apply Hs|done|done].
    + destruct (Hoo _ _ _ Hq' (not_eq_sym Hqn') Hi'). by eapply list_elem_of_lookup_2.
    + destruct (Hoo _ _ _ Hq (not_eq_sym Hqn) Hi). by eapply list_elem_of_lookup_2.
    + by eapply (holders _ _ H).
  - intros q es [[<- ->]|[_ Hq]]%lookup_insert_Some; [by apply (set_keys _ _ _ _ Hs)|by eapply keys_once].
  - rewrite (bytes_of_set _ _ _ _ Hp). intros Hle. pose proof (bytes_counted _ _ H) as Hh.
    pose proof (node_bytes_nonneg node entry_size_nonneg). pose proof (node_bytes_nonneg old entry_size_nonneg).
    unfold set_node. rewrite Hp. cbn [fmap option_fmap option_map default]. cbv [Datatypes.id].
    assert (held_total (insert_node p node s) = held_total s) as -> by done.
    destruct (Z.leb_spec (node_bytes old) (node_bytes node)).
    + change (Z.min (held_total s + (node_bytes node - node_bytes old)) usize_max = base + (node_bytes node - node_bytes old + bytes_of (nodes (arena s)))). lia.
    + destruct Hbytes as [?|Hbytes]; [lia|]. specialize (Hh Hbytes).
      change (Z.max (held_total s - (node_bytes old - node_bytes node)) 0 = base + (node_bytes node - node_bytes old + bytes_of (nodes (arena s)))).
      assert (node_bytes old <= bytes_of (nodes (arena s))); [|lia].
      rewrite <- (insert_delete_id _ _ _ Hp), bytes_of_insert by apply lookup_delete_eq.
      assert (0 <= bytes_of (delete p (nodes (arena s)))); [|lia]. unfold bytes_of. clear -entry_size_nonneg.
      induction (map_to_list (delete p (nodes (arena s)))) as [|e l IH]; simpl; [lia|]. pose proof (node_bytes_nonneg e.2 entry_size_nonneg). lia.
Qed.

(** ** Where a change is seen *)

(** [path m a where_ p]: going down from [a] by these positions leads to [p]. *)
Inductive path (m : gmap Z Node) : Z -> list nat -> Z -> Prop :=
  | path_here a : path m a [] a
  | path_down a node i c where_ p : m !! a = Some node -> children node !! i = Some c -> path m c where_ p -> path m a (i :: where_) p.

Fixpoint replace_at (where_ : list nat) (new t : Tree) : Tree :=
  match where_ with
  | [] => new
  | i :: where_ =>
      match t with
      | TObject entries => TObject (alter (fun e => (fst e, replace_at where_ new (snd e))) i entries)
      | TArray items => TArray (alter (replace_at where_ new) i items)
      | TScalar s => TScalar s
      end
  end.

Lemma path_reach m a where_ p : path m a where_ p -> reach m a p.
Proof. induction 1 as [|a node i c w p Ha Hi _ IH]; [constructor|]. eapply rtc_l; [|done]. exists node. split; [done|by eapply list_elem_of_lookup_2]. Qed.

Lemma reach_path m a p : reach m a p -> exists where_, path m a where_ p.
Proof.
  induction 1 as [a|a c p (node & Ha & Hc) _ [w IH]]; [exists []; constructor|]. apply list_elem_of_lookup in Hc as [i Hi].
  exists (i :: w). by econstructor.
Qed.

(** Siblings do not reach the same node. *)
Lemma siblings_apart m a node i j c c' p : one_holder m -> acyclic m -> m !! a = Some node ->
  children node !! i = Some c -> children node !! j = Some c' -> reach m c p -> reach m c' p -> i = j.
Proof.
  intros Ho Ha Hm Hi Hj Hc Hc'.
  assert (forall x y, children node !! x = Some y -> child m a y) as Hch by (intros x y Hx; exists node; split; [done|by eapply list_elem_of_lookup_2]).
  assert (forall x y, child m a x -> child m a y -> reach m x y -> x = y) as Hs.
  { intros x y Hx Hy [?|(z & Hxz & Hzy)]%rtc_inv_r; [done|]. rewrite (holder_unique _ _ _ _ Ho Hzy Hy) in Hxz. destruct (Ha _ _ Hx Hxz). }
  assert (c = c') as ->; [|by destruct (Ho _ _ _ _ _ _ _ Hm Hm Hi Hj)].
  destruct (reach_linear _ _ _ _ Ho Hc Hc') as [Hr|Hr]; [apply Hs|symmetry; apply Hs]; eauto.
Qed.

(** A change at [p] is seen from the nodes that hold it, at its place, and
    nowhere else. *)
Lemma change_seen m p node a where_ t new : one_holder m -> acyclic m -> path m a where_ p -> denotes m a t ->
  denotes (<[p := node]> m) p new -> denotes (<[p := node]> m) a (replace_at where_ new t).
Proof.
  intros Ho Ha Hpath. revert t. induction Hpath as [a|a nd i c w p Hm Hi Hpath IH]; intros t Ht Hnew; [done|].
  pose proof (path_reach _ _ _ _ Hpath) as Hcp.
  assert (child m a c) as Hac by (exists nd; split; [done|by eapply list_elem_of_lookup_2]).
  assert (a <> p) as Hap by (intros ->; by destruct (Ha _ _ Hac)).
  apply denotes_node in Ht as (nd' & Hm' & Hnt). rewrite Hm in Hm'. injection Hm' as <-.
  apply denotes_node. exists nd. split; [by rewrite lookup_insert_ne|].
  assert (forall j cj tj, children nd !! j = Some cj -> denotes m cj tj -> denotes (<[p := node]> m) cj (if decide (j = i) then replace_at w new tj else tj)) as Hj.
  { intros j cj tj Hj Htj. case_decide as E; [subst; assert (cj = c) as -> by congruence; by apply IH|].
    apply denotes_update; [|done]. intros Hr. apply E. by eapply siblings_apart. }
  inversion Hnt as [es ts Hl|cs ts Hl|]; subst; cbn [replace_at]; [| |done].
  - constructor. apply Forall2_same_length_lookup_2; [by rewrite length_alter, (Forall2_length _ _ _ Hl)|]. intros j e t' He Ht'.
    destruct (Forall2_lookup_l _ _ _ _ _ Hl He) as (u & Hu & Hk & Hd). specialize (Hj j (snd e) (snd u)). cbn [children] in Hj.
    rewrite list_lookup_fmap, He in Hj. specialize (Hj eq_refl Hd). destruct (decide (j = i)) as [->|Hne].
    + rewrite list_lookup_alter, decide_True, Hu in Ht' by done. injection Ht' as <-. done.
    + rewrite list_lookup_alter_ne, Hu in Ht' by done. injection Ht' as <-. done.
  - constructor. apply Forall2_same_length_lookup_2; [by rewrite length_alter, (Forall2_length _ _ _ Hl)|]. intros j e t' He Ht'.
    destruct (Forall2_lookup_l _ _ _ _ _ Hl He) as (u & Hu & Hd). specialize (Hj j e u He Hd). destruct (decide (j = i)) as [->|Hne].
    + rewrite list_lookup_alter, decide_True, Hu in Ht' by done. injection Ht' as <-. done.
    + rewrite list_lookup_alter_ne, Hu in Ht' by done. injection Ht' as <-. done.
Qed.

(** Only what holds [p] is seen to change, and it now holds the new tree. *)
Record seen_change (s s' : JsonState) (p : Z) (new : Tree) : Prop := {
  seen_here : denotes (nodes (arena s')) p new;
  seen_above : forall a where_ t, path (nodes (arena s)) a where_ p -> denotes (nodes (arena s)) a t ->
    denotes (nodes (arena s')) a (replace_at where_ new t);
  seen_apart : forall a t, ~ reach (nodes (arena s)) a p -> denotes (nodes (arena s)) a t -> denotes (nodes (arena s')) a t;
  seen_targets : targets (arena s) ⊆ targets (arena s');
}.

(** Every node denotes what it did, and every variable refers to what it did. *)
Definition unchanged (s s' : JsonState) : Prop :=
  (forall a t, denotes (nodes (arena s)) a t -> denotes (nodes (arena s')) a t) /\ targets (arena s) ⊆ targets (arena s').

Lemma grows_unchanged s s' : grows s s' -> unchanged s s'.
Proof. intros G. split; [intros a t; by apply grows_denotes|apply (targets_grow _ _ G)]. Qed.

Lemma grows_held_unchanged s s' c : grows_held s s' c -> unchanged s s'.
Proof. intros (s1 & G & ->). destruct (grows_unchanged _ _ G) as [H1 H2]. by destruct c. Qed.

Lemma path_mono m m' a w p : m ⊆ m' -> path m a w p -> path m' a w p.
Proof. intros Hs H. induction H as [|a node i c w p Ha Hi _ IH]; [constructor|]. econstructor; [by eapply lookup_weaken|done|done]. Qed.

Lemma reach_old m m' a b : closed m -> m ⊆ m' -> is_Some (m !! a) -> reach m' a b -> reach m a b.
Proof.
  intros Hc Hs Ha Hr. induction Hr as [|a c b (node & Hn & Hin) _ IH]; [constructor|]. destruct Ha as [node' Hn'].
  pose proof (lookup_weaken _ _ _ _ Hn' Hs) as E. rewrite Hn in E. injection E as <-.
  assert (child m a c) as Hac by (by exists node). eapply rtc_l; [done|]. apply IH. by eapply Hc.
Qed.

Lemma set_seen base base' s s1 p old node new : arena_ok base s -> arena_ok base' s1 -> nodes (arena s) ⊆ nodes (arena s1) ->
  targets (arena s) ⊆ targets (arena s1) -> nodes (arena s1) !! p = Some old -> settable s1 p old node ->
  node_tree (nodes (arena s1)) node new -> seen_change s (set_node p node s1) p new.
Proof.
  intros H H1 Hsub Ht Hp Hs Hn. destruct (set_node_same p node s1) as (En & _ & Et & _).
  assert (denotes (<[p := node]> (nodes (arena s1))) p new) as Hnew.
  { apply denotes_node. exists node. split; [apply lookup_insert_eq|]. eapply node_tree_impl; [|exact Hn].
    intros c t Hc Hd. apply denotes_update; [|done]. by eapply settable_apart. }
  split; rewrite ?En, ?Et; [done| | |done].
  - intros a w t Hpath Hd. eapply change_seen; [apply (holders _ _ H1)|by eapply ok_acyclic|by eapply path_mono|by eapply denotes_mono|done].
  - intros a t Hr Hd. apply denotes_update; [|by eapply denotes_mono]. intros Hr1. apply Hr.
    eapply reach_old; [by eapply ok_closed|done|by eapply denotes_known|done].
Qed.

(** ** A child placed in a node *)

(** What a call leaves besides nodes. *)
Record calm (s s' : JsonState) : Prop := {
  calm_fresh : fresh s <= fresh s';
  calm_nodes : forall id, is_Some (nodes (arena s) !! id) -> is_Some (nodes (arena s') !! id);
  calm_targets : targets (arena s) ⊆ targets (arena s');
  calm_cells : cells (shared s') = cells (shared s) /\ counts (shared s') = counts (shared s) /\ next (shared s') = next (shared s);
  calm_stack : stack s' = stack s;
  calm_writebacks : writebacks s' = writebacks s;
}.

Lemma calm_refl s : calm s s.
Proof. by split. Qed.

Lemma calm_trans s1 s2 s3 : calm s1 s2 -> calm s2 s3 -> calm s1 s3.
Proof.
  intros [A1 A2 A3 (A4 & A5 & A6) A7 A8] [B1 B2 B3 (B4 & B5 & B6) B7 B8]. split; [lia|auto|by etrans|split_and!; congruence|congruence|congruence].
Qed.

Lemma grows_calm s s' : grows s s' -> calm s s'.
Proof.
  intros G. split; [apply (fresh_grows _ _ G)| |apply (targets_grow _ _ G)|apply (same_cells _ _ G)|apply (same_stack _ _ G)|apply (same_writebacks _ _ G)].
  intros id [x Hx]. exists x. by eapply lookup_weaken, nodes_grow.
Qed.

Lemma grows_held_calm s s' c : grows_held s s' c -> calm s s'.
Proof. intros (s1 & G & ->). pose proof (grows_calm _ _ G) as [A1 A2 A3 A4 A5 A6]. by destruct c. Qed.

Lemma set_node_calm p node s : calm s (set_node p node s).
Proof.
  destruct (set_node_same p node s) as (En & _ & Et & Ef & Es & Ew & Ec & Eo & Ex). split; rewrite ?En, ?Et, ?Ef, ?Es, ?Ew; try done.
  intros id Hid. apply lookup_insert_is_Some'. by right.
Qed.

(** A node with one child more, or with another in the place of one. *)
Record takes_child (old : Node) (mk : Z -> Node) : Prop := {
  takes_apart : forall c, c ∉ children old -> NoDup (children (mk c));
  takes_old : forall c x, x ∈ children (mk c) -> x = c \/ x ∈ children old;
  takes_keys : forall c es, mk c = NObject es -> NoDup (fst <$> es);
  takes_bytes : forall c, node_bytes old <= node_bytes (mk c);
}.

Lemma takes_settable s s1 p old mk value c : nodes (arena s1) !! p = Some old ->
  takes_child old mk -> placed s s1 p value c -> settable s1 p old (mk c).
Proof.
  intros Hp [T1 T2 T3 T4] [P1 P2 P3 P4 P5 P6]. split.
  - apply T1. intros Hc. apply (P3 p). by exists old.
  - intros x [->|Hx]%T2; [right; split_and!|left]; done.
  - apply T3.
Qed.

Lemma place_child {E : Type} (from : str -> E) base s p old mk value : 0 <= base -> arena_ok base s -> nodes (arena s) !! p = Some old -> value_known s value ->
  takes_child old mk ->
  wp (let* child := map_err from (child_for p value) in set p (mk child) ;; ret (VBoolean true)) (fun r s' => arena_ok base s' /\ calm s s' /\
    match r with
    | Ok v => v = VBoolean true /\ exists c s1, placed s s1 p value c /\ unchanged s s1 /\ s' = set_node p (mk c) s1 /\
        forall t, node_tree (nodes (arena s1)) (mk c) t -> seen_change s s' p t
    | Err e => (exists m, e = from m /\ child_error s s' value m) /\ unchanged s s'
    end) s.
Proof.
  intros Hb H Hp Hv Hmk. apply wp_bind, wp_map_err. eapply wp_mono; [|apply (child_for_ok base s p value Hb H); [by exists old|done]].
  intros [c|e] s1 (H1 & Hr).
  - destruct Hr as [Hg Hpl]. pose proof (grows_held_calm _ _ _ Hg) as C1. destruct Hg as (s0 & G & E0).
    assert (nodes (arena s1) = nodes (arena s0)) as En by (by rewrite E0).
    assert (nodes (arena s1) !! p = Some old) as Hp1 by (rewrite En; eapply lookup_weaken; [done|apply (nodes_grow _ _ G)]).
    pose proof (takes_settable s s1 p old mk value c Hp1 Hmk Hpl) as Hset.
    unfold wp, bind. rewrite set_eq. unfold ret. split; [|split].
    + eapply set_node_ok; [done..|]. left. apply (takes_bytes _ _ Hmk).
    + eapply calm_trans; [exact C1|apply set_node_calm].
    + split; [done|]. exists c, s1. split; [done|]. split; [by apply (grows_held_unchanged s s1 (Some c)); exists s0|]. split; [done|]. intros t Ht. eapply set_seen; [exact H|exact H1| |apply (calm_targets _ _ C1)|done|done|done].
      rewrite En. apply (nodes_grow _ _ G).
  - destruct Hr as [[c Hg] He]. split; [done|]. split; [by eapply grows_held_calm|]. split; [by exists e|by eapply grows_held_unchanged].
Qed.
End change.
