(* ===== verification/JsonCalls.v ===== *)
(** Calls on JSON values ([interpreter/json.rs]): what each method leaves of the
    arena, the receiver of a call, and whole tests, whose invariant every call
    keeps. *)

From Stdlib Require Import ZArith Lia.
From stdpp Require Import base tactics numbers option list gmap strings relations.
From S2P Require Import Prelude RustStr StrSearch Decimals Values Slots Scopes Renders Collections JsonArena JsonTree JsonPaths JsonMethods JsonChange.

#[local] Open Scope Z_scope.
#[local] Open Scope rust_scope.

(** * What the code relies on *)

Class JsonLaws {D : Decimal} (L : JsonLibs) : Prop := {
  entry_size_nonneg : 0 <= node_entry_size;
  (** The map of a [serde_json::Value] holds each key once. *)
  parse_distinct : forall text d, json_parse text = Ok d -> distinct_keys d;
}.

(** * Entries and items *)

Section entries.
Context {A : Type}.
Implicit Types (key : str) (es : list (str * A)).

Lemma find_entry_Some key es e : find_entry key es = Some e -> e ∈ es /\ fst e = key.
Proof.
  unfold find_entry. induction es as [|x es IH]; simpl; [done|]. unfold str_eqb. case_bool_decide as E.
  - intros [= <-]. by split; [left|].
  - intros H. destruct (IH H). split; [by right|done].
Qed.

Lemma find_entry_None key es : find_entry key es = None <-> key ∉ fst <$> es.
Proof.
  unfold find_entry. induction es as [|x es IH]; [split; [intros _ []%elem_of_nil|done]|]. unfold str_eqb in *.
  cbn [List.find]. rewrite fmap_cons, not_elem_of_cons. case_bool_decide as E; [split; [done|naive_solver]|]. rewrite IH. naive_solver.
Qed.

Lemma replace_entry_keys key c es : fst <$> replace_entry key c es = fst <$> es.
Proof.
  induction es as [|e es IH]; [done|]. cbn [replace_entry]. destruct (str_eqb (fst e) key); rewrite !fmap_cons; [done|by rewrite IH].
Qed.

Lemma without_entry_sublist key es : without_entry key es `sublist_of` es.
Proof. unfold without_entry. induction es as [|e es IH]; simpl; [constructor|]. destruct (negb _); by constructor. Qed.

Lemma insert_at_Permutation (i : nat) (c : A) l : insert_at i c l ≡ₚ c :: l.
Proof. unfold insert_at. rewrite <- Permutation_middle. by rewrite take_drop. Qed.
End entries.

Lemma replace_entry_children key (c : Z) es : NoDup (snd <$> es) -> c ∉ snd <$> es -> NoDup (snd <$> replace_entry key c es) /\
  forall x, x ∈ snd <$> replace_entry key c es -> x = c \/ x ∈ snd <$> es.
Proof.
  induction es as [|e es IH]; [intros _ _; split; [constructor|by intros x []%elem_of_nil]|]. cbn [replace_entry]. rewrite fmap_cons, NoDup_cons, not_elem_of_cons. intros [H1 H2] [H3 H4].
  destruct (IH H2 H4) as [I1 I2]. destruct (str_eqb (fst e) key); rewrite fmap_cons, NoDup_cons.
  - split; [by split|]. intros x [->|Hx]%elem_of_cons; [by left|right; by right].
  - split; [split; [intros [?|?]%I2; congruence|done]|]. intros x [->|Hx]%elem_of_cons; [right; left|]. destruct (I2 _ Hx); [by left|right; by right].
Qed.

(** ** Children an object or array takes *)

Section takes.
Context {D : Decimal} {L : JsonLibs} {LL : JsonLaws L}.

Definition entry_sum (es : list (str * Z)) : Z := foldr (fun e n => saturating_add ENTRY_BYTES (str_len e.1) + n) 0 es.

Lemma entry_sum_nonneg es : 0 <= entry_sum es.
Proof.
  unfold entry_sum. induction es as [|e es IH]; simpl; [lia|]. assert (0 <= saturating_add ENTRY_BYTES (str_len e.1)); [|lia].
  pose proof (str_len_nonneg e.1). unfold saturating_add, ENTRY_BYTES. unfold_ints. lia.
Qed.

Lemma entry_sum_app es es' : entry_sum (es ++ es') = entry_sum es + entry_sum es'.
Proof. unfold entry_sum. induction es as [|e es IH]; simpl; lia. Qed.

Lemma object_bytes_mono es es' : entry_sum es <= entry_sum es' -> node_bytes (NObject es) <= node_bytes (NObject es').
Proof. intros H. change (saturating_add ARENA_ENTRY (entry_sum es) <= saturating_add ARENA_ENTRY (entry_sum es')). unfold saturating_add. lia. Qed.

Lemma array_bytes_mono l l' : (length l <= length l')%nat -> node_bytes (NArray l) <= node_bytes (NArray l').
Proof. intros H. unfold node_bytes, saturating_add, USIZE_BYTES. lia. Qed.

Lemma fst_add (es : list (str * Z)) key (c : Z) : fst <$> (es ++ [(key, c)]) = (fst <$> es) ++ [key].
Proof. by rewrite fmap_app. Qed.
Lemma snd_add (es : list (str * Z)) (key : str) (c : Z) : snd <$> (es ++ [(key, c)]) = (snd <$> es) ++ [c].
Proof. by rewrite fmap_app. Qed.

Lemma NoDup_snoc {A} (l : list A) x : NoDup l -> x ∉ l -> NoDup (l ++ [x]).
Proof. intros Hl Hx. apply NoDup_app. split_and!; [done|intros y Hy Hy'%list_elem_of_singleton; by subst|apply NoDup_singleton]. Qed.

Lemma takes_add es key : key ∉ fst <$> es -> NoDup (fst <$> es) -> NoDup (snd <$> es) ->
  takes_child (NObject es) (fun c => NObject (es ++ [(key, c)])).
Proof.
  intros Hk Hn Hs. split; cbn [children].
  - intros c Hc. rewrite snd_add. by apply NoDup_snoc.
  - intros c x. rewrite snd_add, elem_of_app, list_elem_of_singleton. naive_solver.
  - intros c es' [= <-]. rewrite fst_add. by apply NoDup_snoc.
  - intros c. apply object_bytes_mono. rewrite entry_sum_app. pose proof (entry_sum_nonneg [(key, c)]). lia.
Qed.

Lemma takes_replace es key : NoDup (fst <$> es) -> NoDup (snd <$> es) ->
  takes_child (NObject es) (fun c => NObject (replace_entry key c es)).
Proof.
  intros Hn Hs. split; cbn [children].
  - intros c Hc. by apply replace_entry_children.
  - intros c x. induction es as [|e es IH]; [by intros []%elem_of_nil|]. cbn [replace_entry]. rewrite !fmap_cons in *.
    apply NoDup_cons in Hn as [_ Hn], Hs as [_ Hs]. destruct (str_eqb (fst e) key); rewrite fmap_cons, !elem_of_cons; [naive_solver|].
    intros [->|Hx]; [naive_solver|]. destruct (IH Hn Hs Hx); naive_solver.
  - intros c es' [= <-]. by rewrite replace_entry_keys.
  - intros c. apply object_bytes_mono. apply Z.eq_le_incl. unfold entry_sum. clear. induction es as [|e es IH]; [done|]. cbn [replace_entry].
    destruct (str_eqb (fst e) key); cbn [foldr fst]; [done|]. by rewrite IH.
Qed.

Lemma takes_insert items i : NoDup items -> takes_child (NArray items) (fun c => NArray (insert_at i c items)).
Proof.
  intros H. split; cbn [children]; try done.
  - intros c Hc. rewrite (insert_at_Permutation i c items). by constructor.
  - intros c x. rewrite (insert_at_Permutation i c items), elem_of_cons. done.
  - intros c. apply array_bytes_mono. pose proof (Permutation_length (insert_at_Permutation i c items)) as Hl. simpl in Hl. lia.
Qed.

Lemma takes_append items : NoDup items -> takes_child (NArray items) (fun c => NArray (items ++ [c])).
Proof.
  intros H. split; cbn [children]; try done.
  - intros c Hc. by apply NoDup_snoc.
  - intros c x. rewrite elem_of_app, list_elem_of_singleton. naive_solver.
  - intros c. apply array_bytes_mono. rewrite length_app. lia.
Qed.

Lemma takes_set items i : NoDup items -> takes_child (NArray items) (fun c => NArray (<[i := c]> items)).
Proof.
  intros H. split; cbn [children]; try done.
  - intros c Hc. destruct (decide (i < length items)%nat) as [Hi|Hi]; [|by rewrite list_insert_ge by lia].
    rewrite insert_take_drop by done. rewrite <- (take_drop_middle items i (items !!! i)) in H by (by apply list_lookup_lookup_total_lt).
    rewrite <- Permutation_middle in *. apply NoDup_cons in H as [_ H]. constructor; [|done]. intros Hin. apply Hc.
    rewrite <- (take_drop i items). rewrite elem_of_app in *. destruct Hin as [?|Hin]; [by left|right].
    apply list_elem_of_lookup in Hin as [j Hj]. apply list_elem_of_lookup. exists (S j). rewrite lookup_drop in *. by rewrite Nat.add_succ_r.
  - intros c x Hx. apply list_elem_of_lookup in Hx as [j Hj]. apply list_lookup_insert_Some in Hj as [(_ & <- & _)|(_ & Hj)]; [by left|right; by eapply list_elem_of_lookup_2].
  - intros c. apply array_bytes_mono. by rewrite length_insert.
Qed.
End takes.

(** * Calls *)

Section calls.
Context {D : Decimal} {U : Unicode} {L : JsonLibs} {LL : JsonLaws L}.

(** The bytes of the List a call makes, if it makes one. *)
Definition cell_bytes (s s' : JsonState) : Z :=
  if next (shared s') =? next (shared s) then 0 else default 0 (counts (shared s') !! next (shared s)).

(** What every call leaves: a forest, what was there, and handles drawn from
    the counter. *)
Record safe (base : Z) (s : JsonState) (r : Res JsonError Value) (s' : JsonState) : Prop := {
  safe_ok : arena_ok (base + cell_bytes s s') s';
  safe_bytes : 0 <= cell_bytes s s';
  safe_fresh : fresh s <= fresh s';
  safe_nodes : forall id, is_Some (nodes (arena s) !! id) -> is_Some (nodes (arena s') !! id);
  safe_stack : stack s' = stack s;
  safe_result : match r with Ok v => value_known s' v | Err _ => True end;
  safe_writebacks : Forall (fun w => value_known s' (snd w)) (writebacks s');
}.

Lemma value_known_mono s s' v : fresh s <= fresh s' -> value_known s v -> value_known s' v.
Proof. intros Hf. destruct v; try done. destruct j as [k [h|]]; [|done]. simpl. lia. Qed.

Definition known_writebacks (s : JsonState) : Prop := Forall (fun w => value_known s (snd w)) (writebacks s).

Lemma cell_bytes_same s s' : next (shared s') = next (shared s) -> cell_bytes s s' = 0.
Proof. intros H. unfold cell_bytes. by rewrite H, Z.eqb_refl. Qed.

Lemma calm_safe base s s' r : known_writebacks s -> arena_ok base s' -> calm s s' -> match r with Ok v => value_known s' v | Err _ => True end -> safe base s r s'.
Proof.
  intros Hw H [C1 C2 C3 (C4 & C5 & C6) C7 C8] Hr. pose proof (cell_bytes_same s s' C6) as Hc. split; rewrite ?Hc, ?Z.add_0_r; try done.
  rewrite C8. eapply Forall_impl; [exact Hw|]. intros w. by apply value_known_mono.
Qed.

(** The same, for a call that gives a token. *)
Lemma token_safe base s node : known_writebacks s -> arena_ok base s -> is_Some (nodes (arena s) !! node) ->
  wp (give_token node) (safe base s) s.
Proof.
  intros Hw H Hn. unfold wp, give_token, bind. rewrite reference_eq. cbn [write_back modify ret].
  pose proof (reference_ok base s node H Hn) as H1. pose proof (grows_calm _ _ (reference_grows base s s node H (grows_refl s))) as [C1 C2 C3 (C4 & C5 & C6) C7 C8].
  set (s1 := with_writebacks _ _). assert (cell_bytes s s1 = 0) as Hc by (by apply cell_bytes_same).
  split; rewrite ?Hc, ?Z.add_0_r; try done.
  - by destruct H1.
  - change (Forall (fun w => value_known s1 (snd w)) (writebacks s ++ [(1%nat, referred JToken s)])). apply Forall_app. split.
    + eapply Forall_impl; [exact Hw|]. intros w. apply value_known_mono. exact C1.
    + repeat constructor. change (fresh s < fresh s + 1). lia.
Qed.

(** What the state of a call has: a forest, room to count its bytes, and the
    node of the receiver. *)
Record ready (base : Z) (s : JsonState) : Prop := {
  ready_ok : arena_ok base s;
  ready_base : 0 <= base;
  ready_room : base + bytes_of (nodes (arena s)) <= usize_max;
  ready_writebacks : known_writebacks s;
}.

Lemma ready_calm base s r : ready base s -> match r with Ok v => value_known s v | Err _ => True end -> safe base s r s.
Proof. intros H Hr. apply calm_safe; [apply H|apply H|apply calm_refl|done]. Qed.

Lemma ret_safe base s v : ready base s -> value_known s v -> wp (ret v) (safe base s) s.
Proof. intros H Hv. by apply ready_calm. Qed.

Lemma fail_safe base s e : ready base s -> wp (fail e) (safe base s) s.
Proof. intros H. by apply ready_calm. Qed.

(** Steps that read. *)
Lemma res_safe {A} base s (r : Res str A) (k : A -> M JsonError Value) : ready base s ->
  (forall a, r = Ok a -> wp (k a) (safe base s) s) -> wp (let* a := invalid (of_res r) in k a) (safe base s) s.
Proof.
  intros H Hk. apply wp_bind, wp_map_err. unfold wp at 1, of_res. destruct r as [a|e]; [by apply Hk|by apply ready_calm].
Qed.

Lemma error_safe {A} base s (r : Res JsonError A) (k : A -> M JsonError Value) : ready base s ->
  (forall a, r = Ok a -> wp (k a) (safe base s) s) -> wp (let* a := of_res r in k a) (safe base s) s.
Proof. intros H Hk. apply wp_bind. unfold wp at 1, of_res. destruct r as [a|e]; [by apply Hk|by apply ready_calm]. Qed.

Lemma arg_safe base s o (k : Value -> M JsonError Value) : ready base s ->
  (forall v, o = Some v -> wp (k v) (safe base s) s) -> wp (let* v := arg o in k v) (safe base s) s.
Proof. intros H Hk. apply wp_bind. unfold arg. destruct o as [v|]; [by apply Hk|by apply ready_calm]. Qed.

Lemma key_safe base s args (k : str -> M JsonError Value) : ready base s ->
  (forall key, wp (k key) (safe base s) s) -> wp (let* key := key_arg args in k key) (safe base s) s.
Proof. intros H Hk. apply res_safe; [done|]. intros key _. apply Hk. Qed.

Lemma node_at_safe base s id (k : Node -> M JsonError Value) : ready base s -> is_Some (nodes (arena s) !! id) ->
  (forall n, nodes (arena s) !! id = Some n -> wp (k n) (safe base s) s) -> wp (let* n := node_at id in k n) (safe base s) s.
Proof. intros H [n Hn] Hk. apply wp_bind. unfold wp at 1, node_at. rewrite Hn. by apply Hk. Qed.

Lemma scalar_as_known s sc ty v : scalar_as sc ty = Ok v -> value_known s v.
Proof.
  unfold scalar_as, scalar_as_text, scalar_number. intros H. repeat (case_match; simplify_eq/=); done.
Qed.

Lemma scalar_safe base s sc ty : ready base s -> wp (invalid (of_res (scalar_as sc ty))) (safe base s) s.
Proof.
  intros H. apply wp_map_err. unfold wp, of_res. destruct (scalar_as sc ty) as [v|e] eqn:E; [|by apply ready_calm].
  apply ready_calm; [done|]. by eapply scalar_as_known.
Qed.

(** The text of a node is written or too deep. *)
Lemma text_of_safe base s id : arena_ok base s -> is_Some (nodes (arena s) !! id) ->
  exists r, text_of id s = Some (r, s).
Proof. intros H Hid. destruct (all_denote _ _ H id Hid) as [t Ht]. unfold text_of. rewrite (write_exact _ _ _ _ Ht). by eexists. Qed.

Lemma place_safe base s p old mk value : ready base s -> nodes (arena s) !! p = Some old -> value_known s value -> takes_child old mk ->
  wp (let* child := invalid (child_for p value) in set p (mk child) ;; ret (VBoolean true)) (safe base s) s.
Proof.
  intros H Hp Hv Hmk. eapply wp_mono; [|apply (place_child entry_size_nonneg InvalidCall base s p old mk value); [apply H|apply H|done|done|done]].
  intros r s' (H' & C & Hr). apply calm_safe; [apply H|done|done|]. destruct r as [v|e]; [|done]. by destruct Hr as [-> _].
Qed.

Lemma set_safe base s p old node v : ready base s -> nodes (arena s) !! p = Some old -> settable s p old node -> value_known s v ->
  wp (set p node ;; ret v) (safe base s) s.
Proof.
  intros H Hp Hs Hv. unfold wp, bind. rewrite set_eq. unfold ret. apply calm_safe; [apply H| |apply set_node_calm|].
  - eapply set_node_ok; [apply entry_size_nonneg|apply H|done|done|apply H|right; apply H].
  - destruct (set_node_same p node s) as (_ & _ & _ & Ef & _). eapply value_known_mono; [|exact Hv]. by rewrite Ef.
Qed.

(** Fewer children, or none. *)
Lemma settable_sublist s p old node : children node `sublist_of` children old -> NoDup (children old) ->
  (forall es, node = NObject es -> NoDup (fst <$> es)) -> settable s p old node.
Proof.
  intros Hsub Hn Hk. split; [by eapply sublist_NoDup| |done]. intros c Hc. left. by eapply elem_of_sublist.
Qed.

Lemma children_apart base s p node : arena_ok base s -> nodes (arena s) !! p = Some node -> NoDup (children node).
Proof.
  intros H Hp. apply NoDup_alt. intros i j c Hi Hj. by destruct (holders _ _ H _ _ _ _ _ _ _ Hp Hp Hi Hj).
Qed.

(** ** Objects *)

Lemma sublist_fmap_snd {A B} (l k : list (A * B)) : l `sublist_of` k -> snd <$> l `sublist_of` snd <$> k /\ fst <$> l `sublist_of` fst <$> k.
Proof. induction 1 as [|e l k _ [IH1 IH2]|e l k _ [IH1 IH2]]; split; by constructor. Qed.

Section object.
Variables (base : Z) (s : JsonState) (p : Z) (es : list (str * Z)) (args : list Value).
Hypothesis (H : ready base s) (Hp : nodes (arena s) !! p = Some (NObject es)) (Hargs : Forall (value_known s) args).

Lemma entry_known e : e ∈ es -> is_Some (nodes (arena s) !! snd e).
Proof. intros He. eapply ok_closed; [apply H|]. exists (NObject es). split; [done|]. by apply list_elem_of_fmap_2. Qed.

Lemma arg_known i v : args !! i = Some v -> value_known s v.
Proof. intros Hv. rewrite Forall_lookup in Hargs. by eapply Hargs. Qed.

Lemma keys_apart : NoDup (fst <$> es).
Proof. eapply keys_once; [apply H|done]. Qed.

Lemma entries_apart : NoDup (snd <$> es).
Proof. apply (children_apart base s p (NObject es)); [apply H|done]. Qed.

Lemma object_add_safe : wp (object_add args p es) (safe base s) s.
Proof.
  apply key_safe; [done|]. intros key. case_bool_decide as E; [by apply fail_safe|]. apply arg_safe; [done|]. intros v Hv.
  apply (place_safe base s p (NObject es) (fun c => NObject (es ++ [(key, c)]))); [done|done|by eapply arg_known|].
  apply takes_add; [|apply keys_apart|apply entries_apart]. apply find_entry_None. by apply eq_None_not_Some.
Qed.

Lemma object_replace_safe : wp (object_replace args p es) (safe base s) s.
Proof.
  apply key_safe; [done|]. intros key. destruct (find_entry key es); [|by apply fail_safe]. apply arg_safe; [done|]. intros v Hv.
  apply (place_safe base s p (NObject es) (fun c => NObject (replace_entry key c es))); [done|done|by eapply arg_known|].
  apply takes_replace; [apply keys_apart|apply entries_apart].
Qed.

Lemma without_settable key : settable s p (NObject es) (NObject (without_entry key es)).
Proof.
  destruct (sublist_fmap_snd _ _ (without_entry_sublist key es)) as [H1 H2].
  apply settable_sublist; [exact H1|exact entries_apart|]. intros es' [= <-]. eapply sublist_NoDup; [apply keys_apart|done].
Qed.

Lemma object_remove_safe : wp (object_remove args p es) (safe base s) s.
Proof. apply key_safe; [done|]. intros key. eapply set_safe; [done|done|apply without_settable|done]. Qed.

Lemma object_get_safe : wp (object_get args es) (safe base s) s.
Proof.
  apply key_safe; [done|]. intros key. destruct (find_entry key es) as [[k c]|] eqn:E; [|by apply fail_safe].
  apply token_safe; [apply H|apply H|]. apply find_entry_Some in E as [E _]. by apply (entry_known (k, c)).
Qed.

Lemma object_getter_safe getter : wp (object_getter getter args es) (safe base s) s.
Proof.
  apply key_safe; [done|]. intros key. apply wp_bind.
  assert (forall flag, wp (match snd <$> find_entry key es with
    | None => match default_for_getter (drop 3 getter) with
              | Some default_ => if flag : bool then ret default_ else fail (InvalidCall (lit "the key '" ++ key ++ lit "' does not exist"))
              | None => fail (InvalidCall (lit "the key '" ++ key ++ lit "' does not exist"))
              end
    | Some child => let* value := node_at child in
        match value with
        | NScalar scalar => invalid (of_res (scalar_as scalar (drop 3 getter)))
        | _ => fail (InvalidCall (lit "the value of '" ++ key ++ lit "' is not a JSON value"))
        end end) (safe base s) s) as Hread.
  { intros flag. destruct (find_entry key es) as [[k c]|] eqn:E; cbn [fmap option_fmap option_map].
    - apply find_entry_Some in E as [E _]. apply node_at_safe; [done|by apply (entry_known (k, c))|].
      intros [?|?|sc] _; [by apply fail_safe|by apply fail_safe|by apply scalar_safe].
    - destruct (default_for_getter (drop 3 getter)) as [v|] eqn:Ed; [|by apply fail_safe]. destruct flag; [|by apply fail_safe].
      apply ret_safe; [done|]. unfold default_for_getter in Ed. repeat (case_match; simplify_eq/=); done. }
  destruct (args !! 1%nat) as [v|]; [|exact (Hread false)].
  destruct v as [| | | |b| | | | | | | | | | | | | | | | | | | | | |]; first [exact (Hread b)|by apply fail_safe].
Qed.

Lemma new_list_safe s1 items member : ready base s1 -> grows s s1 -> Forall (value_known s1) items ->
  wp (typed_list member items) (safe base s) s1.
Proof.
  intros [H1 Hb Hr Hw] G Hi. unfold typed_list, new_list, new_cell, shared_new, wp. destruct (same_cells _ _ G) as (Hc & Ho & Hn).
  set (s2 := with_shared _ s1).
  assert (0 <= sum_bytes items) as Hs0.
  { unfold sum_bytes. clear. induction items as [|v items IH]; [done|]. cbn [foldr]. assert (0 <= element_bytes v); [|lia].
    unfold element_bytes, saturating_add, VALUE_SIZE. assert (0 <= owned_bytes v); [|unfold_ints; lia].
    assert (forall v, 0 <= text_bytes v) as Ht by (intros []; simpl; try lia; apply str_len_nonneg).
    unfold owned_bytes. destruct (unwrap_variant v); try apply Ht. induction l as [|x l IHl]; [done|]. cbn [foldr]. specialize (Ht x).
    unfold saturating_add, VALUE_SIZE in *. unfold_ints. lia. }
  assert (cell_bytes s s2 = sum_bytes items) as Hcell.
  { unfold cell_bytes. change (next (shared s2)) with (next (shared s1) + 1). rewrite Hn. destruct (Z.eqb_spec (next (shared s) + 1) (next (shared s))); [lia|].
    change (counts (shared s2)) with (<[next (shared s1) := sum_bytes items]> (counts (shared s1))). by rewrite Hn, lookup_insert_eq. }
  split; rewrite ?Hcell; try done.
  - destruct H1 as [A1 A2 A3 A4 A5 A6 A7 A8 A9]. split; try done. intros Hle. change (nodes (arena s2)) with (nodes (arena s1)) in *.
    change (held_total s2) with (Z.min (held_total s1 + sum_bytes items) usize_max). lia.
  - apply (fresh_grows _ _ G).
  - intros id [x Hx]. exists x. eapply lookup_weaken; [exact Hx|apply (nodes_grow _ _ G)].
  - apply (same_stack _ _ G).
Qed.

Lemma ready_grows s1 : arena_ok base s1 -> grows s s1 -> bytes_of (nodes (arena s1)) = bytes_of (nodes (arena s)) -> ready base s1.
Proof.
  intros H1 G Hb. split; [done|apply H|rewrite Hb; apply H|]. unfold known_writebacks. rewrite (same_writebacks _ _ G).
  eapply Forall_impl; [apply H|]. intros w. apply value_known_mono, (fresh_grows _ _ G).
Qed.

Lemma object_values_safe : wp (object_values es) (safe base s) s.
Proof.
  apply wp_bind. assert (forall l s1, arena_ok base s1 -> grows s s1 -> nodes (arena s1) = nodes (arena s) -> (forall e, e ∈ l -> e ∈ es) ->
    wp (each (fun e => reference JToken (snd e)) l : M JsonError (list Value)) (fun r s2 => arena_ok base s2 /\ grows s1 s2 /\ grows s s2 /\ nodes (arena s2) = nodes (arena s) /\
      match r with Ok vs => Forall (value_known s2) vs | Err _ => False end) s1) as Hl.
  { induction l as [|e l IH]; intros s1 H1 G1 E1 Hin; [split_and!; [done|apply grows_refl|done|done|constructor]|].
    assert (is_Some (nodes (arena s1) !! snd e)) as Hk by (rewrite E1; apply entry_known, Hin; left).
    change (wp (bind (reference JToken (snd e) : M JsonError Value) (fun b => bind (each (fun e => reference JToken (snd e)) l) (fun bs => ret (b :: bs))))
      (fun r s2 => arena_ok base s2 /\ grows s1 s2 /\ grows s s2 /\ nodes (arena s2) = nodes (arena s) /\
      match r with Ok vs => Forall (value_known s2) vs | Err _ => False end) s1).
    apply wp_bind. unfold wp at 1. rewrite reference_eq. apply wp_bind.
    eapply wp_mono; [|apply IH; [by apply reference_ok|by eapply reference_grows|done|intros x Hx; apply Hin; by right]].
    intros [vs|er] s2 (H2 & G2 & G3 & E2 & Hv); [|done]. unfold wp, ret. split_and!; [done| |done|done|].
    - exact (grows_trans _ _ _ (reference_grows base s1 s1 _ H1 (grows_refl s1)) G2).
    - constructor; [|done]. pose proof (fresh_grows _ _ G2) as Hf. change (fresh s1 < fresh s2). cbn in Hf. lia. }
  eapply wp_mono; [|apply (Hl es s); [apply H|apply grows_refl|done|done]].
  intros [vs|er] s2 (H2 & _ & G2 & E2 & Hv); [|done]. apply new_list_safe; [|done|done]. apply ready_grows; [done|done|by rewrite E2].
Qed.

Lemma object_method_safe method lower : wp (object_method method lower args p es) (safe base s) s.
Proof.
  unfold object_method.
  destruct (str_is lower "add"); [apply object_add_safe|]. destruct (str_is lower "replace"); [apply object_replace_safe|].
  destruct (str_is lower "remove"); [apply object_remove_safe|].
  destruct (str_is lower "contains"); [apply key_safe; [done|]; intros key; by apply ret_safe|].
  destruct (str_is lower "get"); [apply object_get_safe|].
  destruct (str_is lower "keys"); [apply new_list_safe; [done|apply grows_refl|]; apply Forall_fmap, Forall_true; done|].
  destruct (str_is lower "values"); [apply object_values_safe|].
  destruct (starts_with (lit "get") lower); [apply object_getter_safe|by apply fail_safe].
Qed.
End object.
End calls.

(** * Every method is safe *)

(** * Arrays *)

Section array.
Context {D : Decimal} {U : Unicode} {L : JsonLibs} {LL : JsonLaws L}.
Variables (base : Z) (s : JsonState) (p : Z) (items : list Z) (args : list Value).
Hypothesis (H : ready base s) (Hp : nodes (arena s) !! p = Some (NArray items)) (Hargs : Forall (value_known s) args).

Lemma item_known i c : items !! i = Some c -> is_Some (nodes (arena s) !! c).
Proof. intros Hc. eapply ok_closed; [apply H|]. exists (NArray items). split; [done|]. by eapply list_elem_of_lookup_2. Qed.

Lemma array_arg_known i v : args !! i = Some v -> value_known s v.
Proof. intros Hv. rewrite Forall_lookup in Hargs. by eapply Hargs. Qed.

Lemma items_apart : NoDup items.
Proof. apply (children_apart base s p (NArray items)); [apply H|done]. Qed.

(** An index that is accepted is one. *)
Lemma index_arg_ok v len inclusive i : index_arg v len inclusive = Ok i ->
  v = Some (VInteger i) /\ 0 <= i /\ i <= (if inclusive then len else len - 1).
Proof.
  unfold index_arg. destruct v as [v|]; [|done]. destruct v; try done. unfold saturating_sub.
  destruct inclusive; cbn [orb]; case_match eqn:E; try done; intros [= <-]; to_prop; split_and!; (done || lia).
Qed.

Lemma element_at i : element_arg args items s = Some (Ok i, s) -> is_Some (items !! Z.to_nat i).
Proof.
  unfold element_arg, of_res. intros [= (_ & H1 & H2)%index_arg_ok]. apply lookup_lt_is_Some. lia.
Qed.

Lemma element_safe (k : Z -> M JsonError Value) : (forall i c, items !! Z.to_nat i = Some c -> wp (k i) (safe base s) s) ->
  wp (let* i := element_arg args items in k i) (safe base s) s.
Proof.
  intros Hk. apply wp_bind. unfold wp at 1. destruct (element_arg args items s) as [[[i|e] s1]|] eqn:E; [| |done].
  - assert (s1 = s) as -> by (unfold element_arg, of_res in E; congruence). destruct (element_at i E) as [c Hc]. by eapply Hk.
  - assert (s1 = s) as -> by (unfold element_arg, of_res in E; congruence). by apply ready_calm.
Qed.

Lemma item_safe i c (k : Z -> M JsonError Value) : items !! Z.to_nat i = Some c -> wp (k c) (safe base s) s ->
  wp (let* item := item_at i items in k item) (safe base s) s.
Proof. intros Hc Hk. apply wp_bind. unfold wp at 1, item_at, expect. by rewrite Hc. Qed.

Lemma array_add_safe : wp (array_add args p items) (safe base s) s.
Proof.
  apply arg_safe; [done|]. intros v Hv. apply (place_safe base s p (NArray items) (fun c => NArray (items ++ [c]))); [done|done|by eapply array_arg_known|].
  apply takes_append, items_apart.
Qed.

Lemma array_insert_safe : wp (array_insert args p items) (safe base s) s.
Proof.
  apply error_safe; [done|]. intros i Hi. apply arg_safe; [done|]. intros v Hv.
  apply (place_safe base s p (NArray items) (fun c => NArray (insert_at (Z.to_nat i) c items))); [done|done|by eapply array_arg_known|].
  apply takes_insert, items_apart.
Qed.

(** Reading the element first changes nothing. *)
Lemma array_set_eq (Q : Res JsonError Value -> JsonState -> Prop) i c v : items !! Z.to_nat i = Some c ->
  wp (let* child := invalid (child_for p v) in set p (NArray (<[Z.to_nat i := child]> items)) ;; ret (VBoolean true)) Q s ->
  wp (let* child := invalid (child_for p v) in item_at i items ;; set p (NArray (<[Z.to_nat i := child]> items)) ;; ret (VBoolean true)) Q s.
Proof.
  intros Hc. unfold wp, bind. destruct (invalid (child_for p v) s) as [[[x|e] s1]|]; try done. unfold item_at, expect. by rewrite Hc.
Qed.

Lemma array_set_safe : wp (array_set args p items) (safe base s) s.
Proof.
  apply element_safe. intros i c Hc. apply arg_safe; [done|]. intros v Hv. eapply array_set_eq; [done|].
  apply (place_safe base s p (NArray items) (fun c => NArray (<[Z.to_nat i := c]> items))); [done|done|by eapply array_arg_known|].
  apply takes_set, items_apart.
Qed.

Lemma delete_settable i : settable s p (NArray items) (NArray (delete i items)).
Proof. apply settable_sublist; [apply sublist_delete|exact items_apart|done]. Qed.

Lemma array_remove_at_safe : wp (array_remove_at args p items) (safe base s) s.
Proof. apply element_safe. intros i c Hc. eapply item_safe; [done|]. eapply set_safe; [done|done|apply delete_settable|done]. Qed.

Lemma array_get_safe : wp (array_get args items) (safe base s) s.
Proof. apply element_safe. intros i c Hc. eapply item_safe; [done|]. apply token_safe; [apply H|apply H|by eapply item_known]. Qed.

Lemma array_getter_safe lower : wp (array_getter lower args items) (safe base s) s.
Proof.
  apply wp_bind, wp_map_err. unfold wp at 1, element_arg, of_res.
  destruct (index_arg _ _ _) as [i|e] eqn:E; [|by apply ready_calm].
  destruct (element_at i) as [c Hc]; [unfold element_arg, of_res; by rewrite E|]. eapply item_safe; [done|].
  apply node_at_safe; [done|by eapply item_known|]. intros [?|?|sc] _; [by apply fail_safe|by apply fail_safe|by apply scalar_safe].
Qed.

(** Reaching a node does not fail, whatever the errors. *)
Lemma invalid_target h k s1 : invalid (target h k) s1 = target h k s1.
Proof. unfold invalid, map_err, target, bind, gets. destruct (targets (arena s1) !! h); reflexivity. Qed.

(** After the text looked for is known, the items are only read. *)
Lemma index_of_safe s1 wanted at_ l : arena_ok base s1 -> (forall c, c ∈ l -> is_Some (nodes (arena s1) !! c)) ->
  exists r, index_of_text wanted at_ l s1 = Some (r, s1) /\ match r with Ok v => exists n, v = VInteger n | Err _ => True end.
Proof.
  intros H1. revert at_. induction l as [|c l IH]; intros at_ Hl; [by eexists; split; [done|eexists]|].
  destruct (text_of_safe base s1 c H1) as [r Hr]; [apply Hl; left|]. cbn [index_of_text]. unfold bind at 1. rewrite Hr.
  destruct r as [t|e]; [|by eexists]. destruct (str_eqb t wanted); [by eexists; split; [done|eexists]|]. apply IH. intros x Hx. apply Hl. by right.
Qed.

Lemma wanted_safe (k : str -> M JsonError Value) :
  (forall s1 t, arena_ok base s1 -> calm s s1 -> wp (k t) (safe base s) s1) ->
  wp (let* wanted := wanted_text p args in k wanted) (safe base s) s.
Proof.
  intros Hk. apply wp_bind. unfold wanted_text. destruct (args !! 0%nat) as [v|] eqn:Ev; [|by apply ready_calm].
  pose proof (array_arg_known _ _ Ev) as Hv.
  assert (forall m : M str Z, wp m (fun r s1 => arena_ok base s1 /\ calm s s1 /\ match r with Ok c => is_Some (nodes (arena s1) !! c) | Err _ => True end) s ->
    wp (let* probe := invalid m in invalid (text_of probe)) (fun r s1 => match r with Ok t => wp (k t) (safe base s) s1 | Err e => safe base s (Err e) s1 end) s) as Hread.
  { intros m Hm. apply wp_bind, wp_map_err. eapply wp_mono; [|exact Hm]. intros [c|e] s1 (H1 & C1 & Hc); [|by apply calm_safe; [apply H|..]].
    destruct (text_of_safe base s1 c H1 Hc) as [r Hr]. apply wp_map_err. unfold wp at 1. rewrite Hr. destruct r as [t|e]; [by apply Hk|by apply calm_safe; [apply H|..]]. }
  assert (wp (let* probe := invalid (child_for p v) in invalid (text_of probe)) (fun r s1 => match r with Ok t => wp (k t) (safe base s) s1 | Err e => safe base s (Err e) s1 end) s) as Hother.
  { apply Hread. eapply wp_mono; [|apply (child_for_ok entry_size_nonneg base s p v); [apply H|apply H|by eexists|done]].
    intros [c|e] s1 (H1 & Hr); split; try done.
    - destruct Hr as [Hg [(t & _ & Ht) _ _ _ _ _]]. split; [by eapply grows_held_calm|by eapply denotes_known].
    - destruct Hr as [[c Hg] _]. split; [by eapply grows_held_calm|done]. }
  destruct v as [| | | | | | | | |j| | | | | | | | | | | | | | | | |]; try exact Hother. destruct j as [k0 [h|]]; [|exact Hother].
  clear Hother. assert (wp (let* node := invalid (target h k0) in invalid (text_of node))
    (fun r s1 => match r with Ok t => wp (k t) (safe base s) s1 | Err e => safe base s (Err e) s1 end) s) as Ht.
  { apply Hread. eapply wp_mono; [|apply (target_ok entry_size_nonneg base s h k0); [apply H|apply H|exact Hv]].
    intros [c|e] s1 (H1 & G1 & Hr); [|done]. split; [done|]. split; [by apply grows_calm|apply Hr]. }
  revert Ht. unfold wp, bind. by rewrite (invalid_target h k0 s).
Qed.

Lemma array_method_safe method lower : wp (array_method method lower args p items) (safe base s) s.
Proof.
  unfold array_method.
  destruct (str_is lower "add"); [apply array_add_safe|]. destruct (str_is lower "insert"); [apply array_insert_safe|].
  destruct (str_is lower "set"); [apply array_set_safe|]. destruct (str_is lower "removeat"); [apply array_remove_at_safe|].
  destruct (str_is lower "count"); [by apply ret_safe|]. destruct (str_is lower "get"); [apply array_get_safe|].
  destruct (str_is lower "indexof").
  - apply wanted_safe. intros s1 t H1 C1. apply wp_map_err.
    destruct (index_of_safe s1 t 0 items H1) as (r & Hr & Hv).
    { intros c Hc. apply list_elem_of_lookup in Hc as [i Hi]. apply (calm_nodes _ _ C1). by eapply item_known. }
    unfold wp. rewrite Hr. apply calm_safe; [apply H|done|done|]. destruct r as [v|e]; [|done]. by destruct Hv as [n ->].
  - destruct (starts_with (lit "get") lower); [apply array_getter_safe|by apply fail_safe].
Qed.
End array.

(** * Tokens, values and the methods of every type *)

Section call.
Context {D : Decimal} {U : Unicode} {L : JsonLibs} {LL : JsonLaws L}.

Lemma reference_safe base s k node : ready base s -> is_Some (nodes (arena s) !! node) -> wp (reference k node) (safe base s) s.
Proof.
  intros H Hn. unfold wp. rewrite reference_eq. apply calm_safe; [apply H|by apply reference_ok; [apply H|]| |].
  - apply grows_calm. eapply reference_grows; [apply H|apply grows_refl].
  - change (fresh s < fresh s + 1). lia.
Qed.

Lemma token_method_safe base s method lower node current : ready base s -> is_Some (nodes (arena s) !! node) ->
  wp (token_method method lower node current) (safe base s) s.
Proof.
  intros H Hn. unfold token_method. repeat case_match; first [by apply ret_safe|by apply reference_safe|by apply fail_safe].
Qed.

Lemma value_method_safe base s method lower args node current : ready base s -> nodes (arena s) !! node = Some current ->
  wp (value_method method lower args node current) (safe base s) s.
Proof.
  intros H Hn. assert (NoDup (children current)) as Hc by (by eapply children_apart; [apply H|]).
  assert (forall sc v, value_known s v -> wp (set node (NScalar sc) ;; ret v) (safe base s) s) as Hset.
  { intros sc v Hv. eapply set_safe; [done|done| |done]. apply settable_sublist; [apply sublist_nil_l|done|done]. }
  assert (wp (value_set args node) (safe base s) s) as Hvs.
  { apply arg_safe; [done|]. intros v _. apply wp_bind. unfold wp at 1, gets. apply res_safe; [done|]. intros sc _. by apply Hset. }
  unfold value_method.
  assert (wp (if str_is lower "isundefined" then ret (VBoolean false)
    else if str_is lower "setvaluetonull" then set node (NScalar SNull) ;; ret VEmpty
    else if str_is lower "setvalue" then value_set args node
    else match starts_with (lit "as") lower, current with
         | true, NScalar scalar => invalid (of_res (scalar_as scalar (drop 2 lower)))
         | _, _ => not_supported JValue method end) (safe base s) s) as Hrest.
  { destruct (str_is lower "isundefined"); [by apply ret_safe|]. destruct (str_is lower "setvaluetonull"); [by apply Hset|].
    destruct (str_is lower "setvalue"); [done|]. destruct (starts_with (lit "as") lower), current; first [by apply scalar_safe|by apply fail_safe]. }
  destruct (str_is lower "isnull"), current; try exact Hrest. by apply ret_safe.
Qed.

Lemma write_to_safe base s node args : ready base s -> is_Some (nodes (arena s) !! node) -> wp (write_to node args) (safe base s) s.
Proof.
  intros H Hn. apply wp_bind, wp_map_err. destruct (text_of_safe base s node) as [r Hr]; [apply H|done|]. unfold wp at 1. rewrite Hr.
  destruct r as [t|e]; [|by apply ready_calm]. destruct args as [|a args]; [by apply ret_safe|].
  unfold wp, bind. cbn [write_back modify ret]. set (s1 := with_writebacks _ _). assert (cell_bytes s s1 = 0) as Hc by (by apply cell_bytes_same).
  destruct H as [H1 H2 H3 H4]. split; rewrite ?Hc, ?Z.add_0_r; try done; [by destruct H1|].
  change (Forall (fun w => value_known s1 (snd w)) (writebacks s ++ [(0%nat, VText t)])). apply Forall_app. by split; [|repeat constructor].
Qed.

Lemma check_safe base s s1 operation (k : M JsonError Value) : ready base s -> arena_ok base s1 -> calm s s1 ->
  wp k (safe base s) s1 -> wp (check_held InvalidCall operation ;; k) (safe base s) s1.
Proof.
  intros H H1 C Hk. apply wp_bind, wp_bind. unfold wp at 1, gets. apply wp_map_err. unfold wp at 1, of_res, check_held_bytes.
  destruct (MAX_HELD_BYTES <? held_total s1); [|exact Hk]. by apply calm_safe; [apply H|..].
Qed.

(** The receiver's handle alone may be given another node. *)
Lemma read_from_safe base s k handle args : ready base s -> handle < fresh s -> wp (read_from k handle args) (safe base s) s.
Proof.
  intros H Hh. apply res_safe; [done|]. intros text _. destruct (json_parse text) as [d|e] eqn:Ed; [|by apply fail_safe].
  destruct (negb (fits_kind k d)); [by apply fail_safe|]. apply wp_bind, wp_map_err.
  eapply wp_mono; [|apply (import_builds entry_size_nonneg base d (ready_base _ _ H) s (ready_ok _ _ H) (parse_distinct _ _ Ed))].
  intros [c|e] s1 (H1 & G1 & Hr); [|apply calm_safe; [apply H|done|by apply grows_calm|done]].
  destruct Hr as (t & _ & B1 & B2 & B3). apply check_safe; [done|done|by apply grows_calm|].
  unfold wp, bind. cbn [modify ret].
  pose proof (fresh_grows _ _ G1) as Hf. pose proof (same_cells _ _ G1) as (C1 & C2 & C3).
  assert (arena_ok base (insert_target handle c s1)) as H2 by (apply insert_target_ok; [done|lia|by eapply denotes_known]).
  assert (cell_bytes s (insert_target handle c s1) = 0) as Hc by (by apply cell_bytes_same).
  split; rewrite ?Hc, ?Z.add_0_r; try done.
  - intros id [x Hx]. exists x. exact (lookup_weaken _ _ _ _ Hx (nodes_grow _ _ G1)).
  - exact (same_stack _ _ G1).
  - change (writebacks (insert_target handle c s1)) with (writebacks s1). rewrite (same_writebacks _ _ G1).
    eapply Forall_impl; [apply H|]. intros w. apply value_known_mono. exact Hf.
Qed.

Lemma clone_safe base s k node : ready base s -> is_Some (nodes (arena s) !! node) -> wp (clone k node) (safe base s) s.
Proof.
  intros H Hn. apply wp_bind, wp_map_err.
  eapply wp_mono; [|apply (deep_copy_builds entry_size_nonneg base (nodes (arena s)) max_levels (ready_base _ _ H) node s (ready_ok _ _ H)); [done|done|apply (all_denote _ _ (ready_ok _ _ H))]].
  intros [c|e] s1 (H1 & G1 & Hr); [|apply calm_safe; [apply H|done|by apply grows_calm|done]].
  destruct Hr as (t & _ & B1 & B2 & B3). apply check_safe; [done|done|by apply grows_calm|].
  unfold wp. rewrite reference_eq. apply calm_safe; [apply H|by eapply reference_ok, denotes_known| |change (fresh s1 < fresh s1 + 1); lia].
  apply grows_calm. by eapply reference_grows.
Qed.

Lemma arena_hyps base s : arena_ok base s -> one_holder (nodes (arena s)) /\ acyclic (nodes (arena s)).
Proof. intros H. split; [apply (holders _ _ H)|by eapply ok_acyclic]. Qed.

Lemma select_exact base s from t path : arena_ok base s -> denotes (nodes (arena s)) from t ->
  exists r, select (nodes (arena s)) from path = Some r /\
    match parse_path path with
    | Some (Ok steps) => exists ids, r = Ok ids /\ Forall2 (denotes (nodes (arena s))) ids (tree_follow t [t] steps)
    | Some (Err e) => r = Err (into_message e)
    | None => False
    end.
Proof.
  intros H Ht. destruct (arena_hyps _ _ H) as [Ho Ha]. unfold select. destruct (parse_path_ends path) as [r ->]. cbn [mbind option_bind].
  destruct r as [steps|e]; [|by eexists]. destruct (follow_exact (nodes (arena s)) Ho Ha from t [from] [t] steps Ht) as (ids & -> & Hids); [by repeat constructor|].
  cbn [mbind option_bind]. eexists. split; [done|]. by eexists.
Qed.

Lemma select_token_safe base s node args : ready base s -> is_Some (nodes (arena s) !! node) -> wp (select_token node args) (safe base s) s.
Proof.
  intros H Hn. apply res_safe; [done|]. intros path _. apply wp_bind. unfold wp at 1, gets. apply wp_bind.
  destruct (all_denote _ _ (ready_ok _ _ H) node Hn) as [t Ht]. destruct (select_exact base s node t path (ready_ok _ _ H) Ht) as (r & Er & Hr).
  unfold wp at 1, expect. rewrite Er. cbn [fmap option_fmap option_map]. apply res_safe; [done|]. intros ids ->.
  destruct ids as [|id [|id' ids]]; [by apply fail_safe| |by apply fail_safe]. apply token_safe; [apply H|apply H|].
  destruct (parse_path path) as [[steps|e]|]; [|done|done]. destruct Hr as (ids & [= <-] & Hids). inversion Hids. by eapply denotes_known.
Qed.
End call.

(** * Whole tests *)

Section sessions.
Context {D : Decimal} {U : Unicode} {L : JsonLibs} {LL : JsonLaws L}.

(** * The receiver *)

(** Every handle in a frame was drawn from the counter. *)
Definition stack_known (s : JsonState) : Prop :=
  forall f k v, f ∈ frames (stack s) -> locals f !! k = Some v -> value_known s v.

(** There is room to count one node more. *)
Definition in_memory (base : Z) (s : JsonState) : Prop := base + bytes_of (nodes (arena s)) + ARENA_ENTRY <= usize_max.

Lemma target_bytes {E : Type} handle k base s : arena_ok base s ->
  wp (target handle k : M E Z) (fun _ s' => bytes_of (nodes (arena s')) <= bytes_of (nodes (arena s)) + ARENA_ENTRY) s.
Proof.
  intros H. pose proof entry_size_nonneg as He.
  assert (0 <= ARENA_ENTRY) as Ha by (unfold ARENA_ENTRY, USIZE_BYTES; lia). apply wp_bind. unfold wp at 1, gets.
  destruct (targets (arena s) !! handle); [unfold wp, ret; lia|]. unfold wp, bind. rewrite push_eq. cbn [modify ret].
  change (bytes_of (<[fresh s := empty_node k]> (nodes (arena s))) <= bytes_of (nodes (arena s)) + ARENA_ENTRY).
  rewrite bytes_of_insert by (by eapply fresh_new). assert (node_bytes (empty_node k) <= ARENA_ENTRY); [|lia].
  unfold node_bytes, saturating_add. destruct k; cbn; lia.
Qed.

Lemma lookup_frame (st : ScopeStack) recv v : lookup st recv = Some v -> exists f, f ∈ frames st /\ locals f !! to_ascii_lowercase recv = Some v.
Proof.
  unfold lookup, lookup_with. destruct (frames st) as [|f fs]; [done|]. destruct (locals f !! _) eqn:E.
  - intros [= <-]. exists f. by split; [left|].
  - assert (forall o fs, find_in_globals (fun f => locals f !! to_ascii_lowercase recv) o fs = Some v ->
      exists f, f ∈ fs /\ locals f !! to_ascii_lowercase recv = Some v) as Hf.
    { clear. intros o fs. induction fs as [|f fs IH]; cbn [find_in_globals]; [done|]. intros H.
      destruct (globals_of o f); [destruct (locals f !! _) eqn:E|].
      - injection H as <-. exists f. by split; [left|].
      - destruct (IH H) as (f' & ? & ?). exists f'. by split; [right|].
      - destruct (IH H) as (f' & ? & ?). exists f'. by split; [right|]. }
    intros (f' & ? & ?)%Hf. exists f'. by split; [right|].
Qed.

Lemma set_handle_known s recv h : stack_known s -> h < fresh s -> stack_known (with_stack (set_handle recv h (stack s)) s).
Proof.
  intros Hs Hh f k v. change (frames (stack (with_stack (set_handle recv h (stack s)) s))) with (frames (set_handle recv h (stack s))).
  unfold set_handle. destruct (_ ≫= _) as [st|] eqn:E; [|apply Hs]. cbn [default].
  apply bind_Some in E as (i & _ & (g & Hg & (j & _ & [= <-])%bind_Some)%bind_Some). cbn [frames].
  intros Hf Hk. apply list_elem_of_lookup in Hf as [n Hn]. apply list_lookup_insert_Some in Hn as [(-> & <- & _)|(_ & Hn)].
  - cbn [set_locals locals] in Hk. apply lookup_insert_Some in Hk as [[_ <-]|[_ Hk]]; [exact Hh|]. eapply (Hs g); [by eapply list_elem_of_lookup_2|done].
  - eapply Hs; [by eapply list_elem_of_lookup_2|done].
Qed.

(** The state after the receiver is found. *)
Record received (base : Z) (s s1 : JsonState) : Prop := {
  rec_ok : arena_ok base s1;
  rec_fresh : fresh s <= fresh s1;
  rec_nodes : nodes (arena s) ⊆ nodes (arena s1);
  rec_targets : targets (arena s) ⊆ targets (arena s1);
  rec_stack : stack_known s1;
  rec_writebacks : writebacks s1 = writebacks s;
  rec_shared : cells (shared s1) = cells (shared s) /\ counts (shared s1) = counts (shared s) /\ next (shared s1) = next (shared s);
  rec_room : base + bytes_of (nodes (arena s1)) <= usize_max;
}.

Lemma received_refl base s : arena_ok base s -> stack_known s -> in_memory base s -> received base s s.
Proof. intros H Hs Hm. split; try done. unfold in_memory, ARENA_ENTRY, USIZE_BYTES in Hm. pose proof entry_size_nonneg. lia. Qed.

Lemma target_received base s s0 h k : arena_ok base s -> 0 <= base -> h < fresh s -> stack_known s -> in_memory base s ->
  fresh s0 <= fresh s -> arena s = arena s0 -> shared s = shared s0 -> writebacks s = writebacks s0 ->
  wp (target h k : M str Z) (fun r s1 => received base s0 s1 /\ match r with
    | Ok node => targets (arena s1) !! h = Some node /\ h < fresh s1 /\
        exists t, value_tree s (VJson {| kind := k; jhandle := Some h |}) t /\ denotes (nodes (arena s1)) node t
    | Err _ => False end) s.
Proof.
  intros H Hb Hh Hs Hm Hf Ea Esh Ew. pose proof (target_ok entry_size_nonneg base s h k Hb H Hh) as Ht. pose proof (target_bytes (E:=str) h k base s H) as Hby.
  revert Ht Hby. unfold wp. destruct (target h k s) as [[[node|e] s1]|]; [| |done]; intros (H1 & G & Hr) Hby; [|done].
  destruct Hr as (Ht & Hn & Hnew). pose proof (fresh_grows _ _ G) as Hf1. destruct (same_cells _ _ G) as (C1 & C2 & C3). split.
  - split; [done|lia| | | | | |].
    + rewrite <- Ea. apply (nodes_grow _ _ G).
    + rewrite <- Ea. apply (targets_grow _ _ G).
    + intros f x v Hin Hx. rewrite (same_stack _ _ G) in Hin. eapply value_known_mono; [exact Hf1|by eapply Hs].
    + by rewrite (same_writebacks _ _ G).
    + rewrite <- Esh. done.
    + unfold in_memory in Hm. lia.
  - split; [done|]. split; [lia|]. eapply target_denotes; [done|done|done|]. intros E. by destruct (Hnew E).
Qed.

Lemma node_of_ok base s recv : arena_ok base s -> 0 <= base -> stack_known s -> in_memory base s ->
  wp (node_of recv) (fun r s1 => received base s s1 /\ match r with
    | Ok (k, h, node) => targets (arena s1) !! h = Some node /\ h < fresh s1 /\
        exists j t, lookup (stack s) recv = Some (VJson j) /\ k = kind j /\ (forall h', jhandle j = Some h' -> h = h') /\
          value_tree s (VJson j) t /\ denotes (nodes (arena s1)) node t
    | Err _ => s1 = s /\ forall j, lookup (stack s) recv <> Some (VJson j)
    end) s.
Proof.
  intros H Hb Hs Hm. apply wp_bind. unfold wp at 1, gets.
  destruct (lookup (stack s) recv) as [v|] eqn:E; [|split; [by apply received_refl|by split]].
  destruct v as [| | | | | | | | |j| | | | | | | | | | | | | | | | |]; try (split; [by apply received_refl|by split]).
  destruct (lookup_frame _ _ _ E) as (f & Hf & Hl). pose proof (Hs _ _ _ Hf Hl) as Hj. destruct j as [k [h|]]; apply wp_bind.
  - unfold wp at 1, ret. apply wp_bind. eapply wp_mono; [|by apply (target_received base s s h k)].
    intros [node|e] s1 [Hrec Hr]; [|done]. unfold wp, ret. split; [done|]. destruct Hr as (Ht & Hh & t & Hvt & Hd). split; [done|]. split; [done|].
    exists {| kind := k; jhandle := Some h |}, t. split_and!; try done. by intros h' [= ->].
  - apply wp_bind. unfold wp at 1, fresh_id. unfold wp at 1, bind, modify, ret. cbn [kind]. apply wp_bind.
    set (s0 := with_stack _ _). assert (arena_ok base s0) as H0 by (by destruct (fresh_ok base s H)).
    assert (stack_known s0) as Hs0.
    { apply (set_handle_known (with_fresh (fresh s + 1) s)); [|cbn; lia]. intros f' x v Hin Hx.
      apply (value_known_mono s); [cbn; lia|by eapply Hs]. }
    eapply wp_mono; [|apply (target_received base s0 s (fresh s) k H0 Hb); [cbn; lia|done|exact Hm|cbn; lia|done|done|done]].
    intros [node|e] s1 [Hrec Hr]; [|done]. unfold wp, ret. split; [done|]. destruct Hr as (Ht & Hh & t & Hvt & Hd). split; [done|]. split; [done|].
    exists {| kind := k; jhandle := None |}, t. split_and!; try done.
    assert (targets (arena s) !! fresh s = None) as En.
    { destruct (targets (arena s) !! fresh s) eqn:En; [|done]. pose proof (handles_fresh _ _ H _ _ En). lia. }
    unfold value_tree in *. change (targets (arena s0)) with (targets (arena s)) in Hvt. by rewrite En in Hvt.
Qed.

(** * Calls *)

(** What a call leaves, with the frames it may have given a handle. *)
Record call_safe (base : Z) (s : JsonState) (r : Res JsonError Value) (s' : JsonState) : Prop := {
  call_ok : arena_ok (base + cell_bytes s s') s';
  call_bytes : 0 <= cell_bytes s s';
  call_fresh : fresh s <= fresh s';
  call_nodes : forall id, is_Some (nodes (arena s) !! id) -> is_Some (nodes (arena s') !! id);
  call_stack : stack_known s';
  call_result : match r with Ok v => value_known s' v | Err _ => True end;
  call_writebacks : known_writebacks s';
}.

Lemma received_safe base s s1 r s' : received base s s1 -> safe base s1 r s' -> call_safe base s r s'.
Proof.
  intros [R1 R2 R3 R4 R5 R6 (R7 & R8 & R9) R10] [S1 S2 S3 S4 S5 S6 S7].
  assert (cell_bytes s s' = cell_bytes s1 s') as Hc by (unfold cell_bytes; by rewrite R9).
  split; rewrite ?Hc; try done; [lia| |].
  - intros id [x Hx]. apply S4. exists x. by eapply lookup_weaken.
  - intros f k v Hf Hv. rewrite S5 in Hf. eapply value_known_mono; [exact S3|by eapply R5].
Qed.

Lemma method_safe base s k h node lower method args : ready base s -> h < fresh s -> is_Some (nodes (arena s) !! node) -> Forall (value_known s) args ->
  wp (if str_is lower "writeto" then write_to node args
      else if str_is lower "readfrom" then read_from k h args
      else if str_is lower "selecttoken" then select_token node args
      else if str_is lower "clone" then clone k node
      else if str_is lower "astoken" then reference JToken node
      else
        let* current := node_at node in
        match k, current with
        | JToken, _ => token_method method lower node current
        | JObject, NObject entries => object_method method lower args node entries
        | JArray, NArray items => array_method method lower args node items
        | JValue, _ => value_method method lower args node current
        | _, _ => not_supported k method
        end) (safe base s) s.
Proof.
  intros H Hh Hn Hargs.
  destruct (str_is lower "writeto"); [by apply write_to_safe|]. destruct (str_is lower "readfrom"); [by apply read_from_safe|].
  destruct (str_is lower "selecttoken"); [by apply select_token_safe|]. destruct (str_is lower "clone"); [by apply clone_safe|].
  destruct (str_is lower "astoken"); [by apply reference_safe|]. apply node_at_safe; [done|done|]. intros n Hnode.
  destruct k, n; first [by apply object_method_safe|by apply array_method_safe|by apply token_method_safe|by apply value_method_safe|by apply fail_safe].
Qed.

Lemma received_ready base s s1 : received base s s1 -> 0 <= base -> ready base (with_writebacks [] s1).
Proof. intros [R1 R2 R3 R4 R5 R6 R7 R8] Hb. split; [by destruct R1|done|done|constructor]. Qed.

Lemma received_cleared base s s1 : received base s s1 -> received base (with_writebacks [] s) (with_writebacks [] s1).
Proof. intros [[] R2 R3 R4 R5 R6 R7 R8]. by split. Qed.

Lemma run_safe base s recv method args : arena_ok base s -> 0 <= base -> stack_known s -> in_memory base s -> known_writebacks s ->
  Forall (value_known s) args -> wp (run recv method args) (call_safe base s) s.
Proof.
  intros H Hb Hs Hm Hw Hargs. apply wp_bind, wp_map_err. eapply wp_mono; [|by apply node_of_ok].
  intros [[[k h] node]|e] s1 [Hrec Hr].
  - destruct Hr as (Ht & Hh & j & t & _ & _ & _ & _ & Hd). apply wp_bind. unfold wp at 1, modify. cbv beta.
    pose proof (rec_fresh _ _ _ Hrec) as Hf.
    eapply wp_mono; [|apply (method_safe base (with_writebacks [] s1)); [by eapply received_ready|exact Hh|by eapply denotes_known|]].
    + intros r s' Hsafe. pose proof (received_safe _ _ _ _ _ (received_cleared _ _ _ Hrec) Hsafe) as [C1 C2 C3 C4 C5 C6 C7]. by split.
    + eapply Forall_impl; [exact Hargs|]. intros v. by apply value_known_mono.
  - destruct Hr as [-> _]. pose proof (cell_bytes_same s s eq_refl) as Hc. split; rewrite ?Hc, ?Z.add_0_r; done.
Qed.

(** * Whole tests *)

(** What a test does with its JSON values: it calls their methods, with values
    whose handles it was given, and between calls changes its variables and
    other contents, the bytes of which are [base]. *)
Inductive json_run : Z -> JsonState -> Prop :=
  | run_start base s : nodes (arena s) = ∅ -> attached (arena s) = ∅ -> targets (arena s) = ∅ -> stack_known s -> known_writebacks s ->
      0 <= base <= usize_max -> held_total s = base -> json_run base s
  | run_else base s base' s' : json_run base s -> arena s' = arena s -> fresh s <= fresh s' -> stack_known s' -> known_writebacks s' ->
      0 <= base' -> held_total s' - held_total s = base' - base -> in_memory base s -> json_run base' s'
  | run_call base s recv method args statement e s' : json_run base s -> in_memory base s -> Forall (value_known s) args ->
      dispatch_json_method recv method args statement s = Some (e, s') -> json_run (base + cell_bytes s s') s'.

Lemma empty_ok base s : nodes (arena s) = ∅ -> attached (arena s) = ∅ -> targets (arena s) = ∅ -> held_total s = base -> arena_ok base s.
Proof.
  intros En Ea Et Hb. split; rewrite ?En, ?Ea, ?Et.
  - intros id [x Hx]. by rewrite lookup_empty in Hx.
  - intros h n Hh. by rewrite lookup_empty in Hh.
  - intros h n Hh. by rewrite lookup_empty in Hh.
  - intros id [x Hx]. by rewrite lookup_empty in Hx.
  - intros p c (node & Hp & _). by rewrite lookup_empty in Hp.
  - intros c Hc. by apply not_elem_of_empty in Hc.
  - intros p p' n n' i i' c Hp. by rewrite lookup_empty in Hp.
  - intros p es Hp. by rewrite lookup_empty in Hp.
  - intros _. rewrite Hb. unfold bytes_of. rewrite map_to_list_empty. simpl. lia.
Qed.

Lemma dispatch_run recv method args statement s e s' : dispatch_json_method recv method args statement s = Some (e, s') ->
  exists r, run recv method args s = Some (r, s').
Proof.
  unfold dispatch_json_method. destruct (run recv method args s) as [[[v|[m|m]] s1]|]; [| | |done]; intros [= _ <-]; by eexists.
Qed.

Lemma run_invariant base s : json_run base s -> arena_ok base s /\ 0 <= base /\ stack_known s /\ known_writebacks s.
Proof.
  induction 1 as [base s En Ea Et Hs Hw Hb Hh|base s base' s' _ (I1 & I2 & I3 & I4) Ea Hf Hs Hw Hb Hd Hm|base s recv method args st e s' _ (I1 & I2 & I3 & I4) Hm Hargs He].
  - split_and!; [by apply empty_ok|lia|done|done].
  - split_and!; try done. destruct I1 as [A1 A2 A3 A4 A5 A6 A7 A8 A9]. split; rewrite ?Ea; try done.
    + intros id Hid%A1. lia.
    + intros h n Hh%A2. lia.
    + intros _. unfold in_memory, ARENA_ENTRY, USIZE_BYTES in Hm. pose proof entry_size_nonneg. lia.
  - destruct (dispatch_run _ _ _ _ _ _ _ He) as [r Hr]. pose proof (run_safe base s recv method args I1 I2 I3 Hm I4 Hargs) as Hsafe.
    unfold wp in Hsafe. rewrite Hr in Hsafe. destruct Hsafe. split_and!; [done|lia|done|done].
Qed.

End sessions.
