(* ===== verification/JsonMethodSpec.v ===== *)
(** What the methods of the JSON types do to the trees that the variables refer
    to ([interpreter/json.rs]): objects are maps in the order of their keys,
    arrays sequences, and a change is seen wherever its node is held. *)

From Stdlib Require Import ZArith Lia.
From stdpp Require Import base tactics numbers option list gmap strings relations.
From S2P Require Import Prelude RustStr StrSearch Decimals Values Slots Scopes ScopeSpec Renders Collections JsonArena JsonTree JsonPaths JsonMethods JsonChange JsonCalls.

#[local] Open Scope Z_scope.
#[local] Open Scope rust_scope.

Section receiver.
Context {D : Decimal} {U : Unicode} {L : JsonLibs} {LL : JsonLaws L}.

(** A variable in a test, and the node it refers to. *)
Record refers (base : Z) (s : JsonState) (recv : str) (k : JsonKind) (h p : Z) : Prop := {
  refers_ok : arena_ok base s;
  refers_base : 0 <= base;
  refers_stack : stack_known s;
  refers_room : base + bytes_of (nodes (arena s)) <= usize_max;
  refers_lookup : lookup (stack s) recv = Some (VJson {| kind := k; jhandle := Some h |});
  refers_target : targets (arena s) !! h = Some p;
}.

Definition method_of (k : JsonKind) (h node : Z) (method : str) (args : list Value) : M JsonError Value :=
  let lower := to_ascii_lowercase method in
  if str_is lower "writeto" then write_to node args
  else if str_is lower "readfrom" then read_from k h args
  else if str_is lower "selecttoken" then select_token node args
  else if str_is lower "clone" then clone k node
  else if str_is lower "astoken" then reference JToken node
  else
    let* current := node_at node in
    match k, current with
    | JToken, _ => token_method method lower node current
    | JObject, NObject entries => object_method method lower args node entries
    | JArray, NArray items => array_method method lower args node items
    | JValue, _ => value_method method lower args node current
    | _, _ => not_supported k method
    end.

Lemma run_known s recv k h p method args : lookup (stack s) recv = Some (VJson {| kind := k; jhandle := Some h |}) ->
  targets (arena s) !! h = Some p -> run recv method args s = method_of k h p method args (with_writebacks [] s).
Proof.
  intros Hl Ht. unfold run, node_of, target. unfold bind at 1, invalid, map_err, bind at 1 2, gets. rewrite Hl.
  cbn [jhandle kind]. unfold bind, ret at 1. rewrite Ht. reflexivity.
Qed.

(** A variable used for the first time gets a handle, and every other variable
    is as it was. *)
Lemma set_handle_lookup st recv k h : lookup st recv = Some (VJson {| kind := k; jhandle := None |}) ->
  lookup (set_handle recv h st) recv = Some (VJson {| kind := k; jhandle := Some h |}) /\
  forall other, to_ascii_lowercase other <> to_ascii_lowercase recv -> lookup (set_handle recv h st) other = lookup st other.
Proof.
  intros Hl. rewrite lookup_slot_agrees in Hl. apply bind_Some in Hl as (i & Hi & (f & Hf & Hv)%bind_Some).
  assert (set_handle recv h st = {| frames := <[i := set_locals f (<[to_ascii_lowercase recv := VJson {| kind := k; jhandle := Some h |}]> (locals f)) (held f)]>
      (frames st); expr_depth := expr_depth st |}) as ->.
  { unfold set_handle. rewrite Hi. cbn [mbind option_bind]. rewrite Hf. cbn [mbind option_bind]. by rewrite Hv. }
  destruct (lookup_updated st recv i f _ (VJson {| kind := k; jhandle := Some h |}) (held f) (expr_depth st) Hi Hf Hv) as [E1 E2]. split; [by apply E1|exact E2].
Qed.

Lemma target_stack {E : Type} h k s (r : Res E Z) s1 : target h k s = Some (r, s1) -> stack s1 = stack s.
Proof. unfold target, bind, gets. destruct (_ !! h); [by intros [= _ <-]|by intros [= _ <-]]. Qed.

Lemma node_of_lookup s recv k h p s1 : node_of recv s = Some (Ok (k, h, p), s1) ->
  lookup (stack s1) recv = Some (VJson {| kind := k; jhandle := Some h |}) /\
  forall other, to_ascii_lowercase other <> to_ascii_lowercase recv -> lookup (stack s1) other = lookup (stack s) other.
Proof.
  unfold node_of, bind at 1, gets. destruct (lookup (stack s) recv) as [v|] eqn:E; [|done].
  destruct v as [| | | | | | | | |[k' [h'|]]| | | | | | | | | | | | | | | | |]; try done; cbn [jhandle kind]; unfold bind.
  - cbn [ret]. destruct (target h' k' s) as [[[n|e] s2]|] eqn:Et; [|done..]. intros [= <- <- <- <-]. by rewrite (target_stack _ _ _ _ _ Et).
  - cbn [fresh_id modify ret]. destruct (target _ k' _) as [[[n|e] s2]|] eqn:Et; [|done..]. intros [= <- <- <- <-]. rewrite (target_stack _ _ _ _ _ Et).
    apply (set_handle_lookup _ _ _ _ E).
Qed.

(** Every call on a variable is a call in a state where the variable refers to
    a node that denotes its tree, the empty one when it had none. *)
Lemma receiver_exact base s recv j : arena_ok base s -> 0 <= base -> stack_known s -> in_memory base s -> lookup (stack s) recv = Some (VJson j) ->
  exists s1 h p t, refers base s1 recv (kind j) h p /\ (forall method args, run recv method args s = run recv method args s1) /\
    value_tree s (VJson j) t /\ denotes (nodes (arena s1)) p t /\
    unchanged s s1 /\ forall other, to_ascii_lowercase other <> to_ascii_lowercase recv -> lookup (stack s1) other = lookup (stack s) other.
Proof.
  intros H Hb Hs Hm Hl. pose proof (node_of_ok base s recv H Hb Hs Hm) as Hn. unfold wp in Hn.
  destruct (node_of recv s) as [[[[[k h] p]|e] s1]|] eqn:En; [| |done].
  - destruct Hn as (Hrec & Ht & Hh & j' & t & Hj & -> & _ & Hv & Hd). rewrite Hl in Hj. injection Hj as <-.
    destruct (node_of_lookup _ _ _ _ _ _ En) as [Hl1 Hother]. exists s1, h, p, t. destruct Hrec. split; [by split|]. split.
    + intros method args. rewrite (run_known s1 recv (kind j) h p method args Hl1 Ht). unfold run, bind at 1, invalid, map_err. by rewrite En.
    + split; [done|]. split; [done|]. split; [|exact Hother]. split; [|done]. intros a ta. by apply denotes_mono.
  - destruct Hn as (_ & _ & Hno). by destruct (Hno j).
Qed.

Section known.
Variables (base : Z) (s : JsonState) (recv : str) (k : JsonKind) (h p : Z).
Hypothesis (H : refers base s recv k h p).

Let s0 := with_writebacks [] s.

Lemma refers_ready : ready base s0.
Proof. destruct H as [[] ? ? ? ? ?]. split; [by split|done|done|constructor]. Qed.

Lemma refers_node : exists node t, nodes (arena s) !! p = Some node /\ denotes (nodes (arena s)) p t /\ node_tree (nodes (arena s)) node t.
Proof.
  destruct (targets_known _ _ (refers_ok _ _ _ _ _ _ H) _ _ (refers_target _ _ _ _ _ _ H)) as [node Hn].
  destruct (all_denote _ _ (refers_ok _ _ _ _ _ _ H) p) as [t Ht]; [by exists node|]. pose proof Ht as (node' & Hn' & Hnt)%denotes_node.
  exists node, t. split; [done|]. split; [done|]. congruence.
Qed.

Lemma refers_call method args : run recv method args s = method_of k h p method args s0.
Proof. apply run_known; apply H. Qed.
End known.
End receiver.

(** * Changes *)

Section changes.
Context {D : Decimal} {U : Unicode} {L : JsonLibs} {LL : JsonLaws L}.

(** A state with its pending results cleared is the same arena. *)
Lemma cleared_change s s' p t : seen_change (with_writebacks [] s) s' p t -> seen_change s s' p t.
Proof. intros []. by split. Qed.

Lemma cleared_error s s' v e : child_error (with_writebacks [] s) s' v e -> child_error s s' v e.
Proof. destruct 1 as [t Ht Hl|e He|Hb]; [exact (too_deep_child s s' v t Ht Hl)|exact (no_scalar s s' v e He)|exact (over_budget s s' v Hb)]. Qed.

(** What placing a value in a node gives: the new tree, or a refusal that
    changes nothing. *)
Definition placed_spec (s : JsonState) (p : Z) (v : Value) (change : Tree -> Tree) (r : Res JsonError Value) (s' : JsonState) : Prop :=
  match r with
  | Ok w => w = VBoolean true /\ exists t, value_tree s v t /\ seen_change s s' p (change t)
  | Err e => (exists m, e = InvalidCall m /\ child_error s s' v m) /\ unchanged s s'
  end.

Lemma cleared_placed s p v change r s' : placed_spec (with_writebacks [] s) p v change r s' -> placed_spec s p v change r s'.
Proof.
  destruct r as [w|e]; cbn [placed_spec].
  - intros (-> & t & Ht & Hs). split; [done|]. exists t. split; [exact Ht|by apply cleared_change].
  - intros [(m & -> & He) Hu]. split; [|exact Hu]. exists m. split; [done|by apply cleared_error].
Qed.

Lemma place_spec base s p old mk v change : ready base s -> nodes (arena s) !! p = Some old -> value_known s v -> takes_child old mk ->
  (forall m c t, (forall x tx, denotes (nodes (arena s)) x tx -> denotes m x tx) -> denotes m c t -> node_tree m (mk c) (change t)) ->
  wp (let* child := invalid (child_for p v) in set p (mk child) ;; ret (VBoolean true)) (placed_spec s p v change) s.
Proof.
  intros H Hp Hv Hmk Hchange. eapply wp_mono; [|apply (place_child entry_size_nonneg InvalidCall base s p old mk v); [apply H|apply H|done|done|done]].
  intros [w|e] s' (_ & _ & Hr); [|exact Hr]. destruct Hr as (-> & c & s1 & Hpl & [Hu _] & -> & Hseen). split; [done|].
  destruct Hpl as [(t & Ht & Hd) _ _ _ _ _]. exists t. split; [done|]. apply Hseen, Hchange; done.
Qed.

Lemma set_spec base s p old node t v : ready base s -> nodes (arena s) !! p = Some old -> settable s p old node ->
  node_tree (nodes (arena s)) node t -> (set p node ;; ret v : M JsonError Value) s = Some (Ok v, set_node p node s) /\ seen_change s (set_node p node s) p t.
Proof.
  intros H Hp Hs Hn. split; [reflexivity|]. eapply set_seen; [apply H|apply H|done|done|done|done|done].
Qed.

(** ** Entries and their trees *)

Definition entries_tree (m : gmap Z Node) (es : list (str * Z)) (ts : list (str * Tree)) : Prop :=
  Forall2 (fun e t => fst e = fst t /\ denotes m (snd e) (snd t)) es ts.

Lemma entries_mono m m' es ts : (forall x t, denotes m x t -> denotes m' x t) -> entries_tree m es ts -> entries_tree m' es ts.
Proof. intros H He. eapply Forall2_impl; [exact He|]. intros e t [? ?]. split; [done|by apply H]. Qed.

Lemma entries_find m es ts key : entries_tree m es ts ->
  match find_entry key es, find_entry key ts with
  | Some e, Some t => denotes m (snd e) (snd t)
  | None, None => True
  | _, _ => False
  end.
Proof.
  unfold find_entry. induction 1 as [|e t es ts [Hk Hd] _ IH]; [done|]. cbn [List.find]. rewrite Hk. by destruct (str_eqb (fst t) key).
Qed.

Lemma entries_replace m es ts key c t : entries_tree m es ts -> denotes m c t -> entries_tree m (replace_entry key c es) (replace_entry key t ts).
Proof.
  intros H Hc. unfold entries_tree. induction H as [|e u es ts [Hk Hd] H IH]; [constructor|]. cbn [replace_entry]. rewrite Hk.
  destruct (str_eqb (fst u) key); by constructor.
Qed.

Lemma entries_without m es ts key : entries_tree m es ts -> entries_tree m (without_entry key es) (without_entry key ts).
Proof.
  unfold entries_tree, without_entry. induction 1 as [|e u es ts [Hk Hd] H IH]; [constructor|]. cbn [List.filter]. rewrite Hk.
  destruct (negb _); [by constructor|done].
Qed.

Lemma entries_keys m es ts : entries_tree m es ts -> fst <$> es = fst <$> ts.
Proof. induction 1 as [|e t es ts [Hk _] _ IH]; [done|]. by rewrite !fmap_cons, Hk, IH. Qed.

(** ** Entries as a map *)

Definition as_map (ts : list (str * Tree)) : gmap str Tree := list_to_map ts.

Lemma as_map_add ts key t : key ∉ fst <$> ts -> as_map (ts ++ [(key, t)]) = <[key := t]> (as_map ts).
Proof. apply list_to_map_snoc. Qed.

Lemma as_map_replace ts key t : key ∈ fst <$> ts -> as_map (replace_entry key t ts) = <[key := t]> (as_map ts).
Proof.
  unfold as_map. induction ts as [|[k u] ts IH]; [by intros []%elem_of_nil|]. cbn [replace_entry fst]. unfold str_eqb. case_bool_decide as E.
  - subst k. intros _. cbn [list_to_map foldr uncurry fst snd]. by rewrite insert_insert_eq.
  - rewrite fmap_cons, elem_of_cons. intros [?|Hin]; [done|]. cbn [list_to_map foldr uncurry fst snd]. fold (list_to_map (M:=gmap str Tree) ts).
    fold (list_to_map (M:=gmap str Tree) (replace_entry key t ts)). rewrite (IH Hin). by apply insert_insert_ne.
Qed.

Lemma as_map_without ts key : as_map (without_entry key ts) = delete key (as_map ts).
Proof.
  unfold as_map, without_entry. induction ts as [|[k u] ts IH]; [symmetry; exact (delete_empty key)|]. cbn [List.filter fst]. unfold str_eqb at 1.
  case_bool_decide as E; cbn [negb list_to_map foldr uncurry fst snd].
  - subst k. by rewrite delete_insert_eq, <- IH.
  - rewrite delete_insert_ne by done. f_equal. exact IH.
Qed.

Lemma find_as_map ts key : find_entry key ts = pair key <$> as_map ts !! key.
Proof.
  unfold as_map, find_entry. induction ts as [|[k u] ts IH]; [done|]. cbn [List.find fst list_to_map foldr uncurry snd]. unfold str_eqb at 1.
  case_bool_decide as E; [subst k; by rewrite lookup_insert_eq|]. rewrite lookup_insert_ne by done. exact IH.
Qed.

(** ** Calls *)

(** What the caller of [dispatch_json_method] sees of a method's result: a
    failure is [false] where the result is used. *)
Definition outcome (method : str) (statement : bool) (r : Res JsonError Value) : Eval :=
  match r with
  | Ok v => Normal v
  | Err (Failed e) => if statement then eval_error (method ++ lit ": " ++ e) else Normal (VBoolean false)
  | Err (InvalidCall e) => eval_error (method ++ lit ": " ++ e)
  end.

(** A call returns, with a result and a state that [Q] holds of. *)
Definition call_gives (recv method : str) (args : list Value) (Q : Res JsonError Value -> JsonState -> Prop) (s : JsonState) : Prop :=
  exists r s', Q r s' /\ forall statement, dispatch_json_method recv method args statement s = Some (outcome method statement r, s').

Lemma wp_call recv method args Q s : wp (run recv method args) Q s -> call_gives recv method args Q s.
Proof.
  unfold wp, call_gives. destruct (run recv method args s) as [[r s']|] eqn:E; [|done]. intros H. exists r, s'. split; [done|]. intros st.
  unfold dispatch_json_method. rewrite E. by destruct r as [v|[m|m]].
Qed.

Lemma eq_call recv method args r s' s : run recv method args s = Some (r, s') -> call_gives recv method args (fun r0 s0 => r0 = r /\ s0 = s') s.
Proof. intros E. apply wp_call. unfold wp. by rewrite E. Qed.
End changes.

(** * Objects *)

Section objects.
Context {D : Decimal} {U : Unicode} {L : JsonLibs} {LL : JsonLaws L}.

Lemma unchanged_refl s : unchanged s s.
Proof. by split. Qed.

(** What a refused call leaves. *)
Definition failed (s : JsonState) (r : Res JsonError Value) (s' : JsonState) : Prop :=
  (exists m, r = Err (Failed m)) /\ s' = with_writebacks [] s.

(** A token for the child [c] of [p] is handed out in the second argument. *)
Definition token_given (s : JsonState) (p : Z) (t : Tree) (r : Res JsonError Value) (s' : JsonState) : Prop :=
  r = Ok (VBoolean true) /\ writebacks s' = [(1%nat, VJson {| kind := JToken; jhandle := Some (fresh s) |})] /\
  (exists c, targets (arena s') !! fresh s = Some c /\ child (nodes (arena s)) p c /\ denotes (nodes (arena s)) c t) /\ unchanged s s'.

Section calls.
Variables (base : Z) (s : JsonState) (recv : str) (h p : Z) (es : list (str * Z)) (ts : list (str * Tree)).
Hypothesis (H : refers base s recv JObject h p) (Hp : nodes (arena s) !! p = Some (NObject es)) (He : entries_tree (nodes (arena s)) es ts).

Let s0 := with_writebacks [] s.

Lemma object_call name lower args : to_ascii_lowercase name = lower -> is_one_of lower common_methods = false ->
  run recv name args s = object_method name lower args p es s0.
Proof.
  intros Hl Hc. rewrite (refers_call base s recv JObject h p H). unfold method_of. rewrite Hl. unfold is_one_of in Hc. cbn [existsb common_methods] in Hc.
  repeat (apply orb_false_iff in Hc as [? Hc]). repeat match goal with E : str_is _ _ = false |- _ => rewrite E; clear E end.
  unfold bind at 1, node_at. change (nodes (arena (with_writebacks [] s))) with (nodes (arena s)). by rewrite Hp.
Qed.

Lemma object_ready : ready base s0.
Proof. eapply refers_ready, H. Qed.

Lemma object_keys_once : NoDup (fst <$> es).
Proof. eapply keys_once; [by eapply refers_ok|done]. Qed.

Lemma object_children_apart : NoDup (snd <$> es).
Proof. apply (children_apart base s p (NObject es)); [by eapply refers_ok|done]. Qed.

Lemma key_arg_eq key args : key_arg (VText key :: args) s0 = Some (Ok key, s0).
Proof. reflexivity. Qed.

Lemma add_exact name key v : to_ascii_lowercase name = lit "add" -> value_known s v ->
  wp (run recv name [VText key; v]) (fun r s' => if decide (key ∈ fst <$> ts) then failed s r s' else placed_spec s p v (fun t => TObject (ts ++ [(key, t)])) r s') s.
Proof.
  intros Hn Hv. unfold wp. rewrite (object_call name _ _ Hn) by reflexivity.
  change (wp (object_add [VText key; v] p es) (fun r s' => if decide (key ∈ fst <$> ts) then failed s r s' else placed_spec s p v (fun t => TObject (ts ++ [(key, t)])) r s') s0).
  unfold object_add. apply wp_bind. unfold wp at 1. rewrite key_arg_eq. rewrite <- (entries_keys _ _ _ He).
  case_bool_decide as E.
  - unfold wp, fail. rewrite decide_True; [by split; [eexists|]|]. destruct E as [e Hf]. apply find_entry_Some in Hf as [Hin <-]. by apply list_elem_of_fmap_2.
  - apply wp_bind. unfold wp at 1, arg. cbn [lookup list_lookup].
    apply (wp_mono _ (placed_spec s0 p v (fun t => TObject (ts ++ [(key, t)])))).
    + intros r s' Hr. rewrite decide_False by (apply find_entry_None; by apply eq_None_not_Some). by apply cleared_placed.
    + apply (place_spec base s0 p (NObject es) (fun c => NObject (es ++ [(key, c)]))); [apply object_ready|exact Hp|done| |].
      * apply takes_add; [apply find_entry_None; by apply eq_None_not_Some|apply object_keys_once|apply object_children_apart].
      * intros m c t Hm Hc. constructor. apply Forall2_app; [by eapply entries_mono|by repeat constructor].
Qed.

Lemma replace_exact name key v : to_ascii_lowercase name = lit "replace" -> value_known s v ->
  wp (run recv name [VText key; v]) (fun r s' => if decide (key ∈ fst <$> ts) then placed_spec s p v (fun t => TObject (replace_entry key t ts)) r s' else failed s r s') s.
Proof.
  intros Hn Hv. unfold wp. rewrite (object_call name _ _ Hn) by reflexivity.
  change (wp (object_replace [VText key; v] p es) (fun r s' => if decide (key ∈ fst <$> ts) then placed_spec s p v (fun t => TObject (replace_entry key t ts)) r s' else failed s r s') s0).
  unfold object_replace. apply wp_bind. unfold wp at 1. rewrite key_arg_eq. rewrite <- (entries_keys _ _ _ He).
  destruct (find_entry key es) as [e|] eqn:E.
  - apply wp_bind. unfold wp at 1, arg. cbn [lookup list_lookup].
    apply (wp_mono _ (placed_spec s0 p v (fun t => TObject (replace_entry key t ts)))).
    + intros r s' Hr. rewrite decide_True; [by apply cleared_placed|]. apply find_entry_Some in E as [Hin <-]. by apply list_elem_of_fmap_2.
    + apply (place_spec base s0 p (NObject es) (fun c => NObject (replace_entry key c es))); [apply object_ready|exact Hp|done| |].
      * apply takes_replace; [apply object_keys_once|apply object_children_apart].
      * intros m c t Hm Hc. constructor. apply entries_replace; [by eapply entries_mono|done].
  - unfold wp, fail. rewrite decide_False by (by apply find_entry_None). by split; [eexists|].
Qed.

Lemma remove_exact name key : to_ascii_lowercase name = lit "remove" ->
  wp (run recv name [VText key]) (fun r s' => r = Ok (VBoolean (bool_decide (key ∈ fst <$> ts))) /\ seen_change s s' p (TObject (without_entry key ts))) s.
Proof.
  intros Hn. unfold wp. rewrite (object_call name _ _ Hn) by reflexivity.
  change (wp (object_remove [VText key] p es) (fun r s' => r = Ok (VBoolean (bool_decide (key ∈ fst <$> ts))) /\ seen_change s s' p (TObject (without_entry key ts))) s0).
  unfold object_remove. apply wp_bind. unfold wp at 1. rewrite key_arg_eq.
  destruct (set_spec base s0 p (NObject es) (NObject (without_entry key es)) (TObject (without_entry key ts))
    (VBoolean (negb (length (without_entry key es) =? length es)%nat)) object_ready Hp) as [E Hs].
  - by apply (without_settable base s0 p es object_ready Hp).
  - constructor. by apply entries_without.
  - unfold wp. rewrite E. split; [|by apply cleared_change]. do 2 f_equal. rewrite <- (entries_keys _ _ _ He). apply eq_true_iff_eq.
    rewrite negb_true_iff, Nat.eqb_neq, bool_decide_eq_true. unfold without_entry. clear. induction es as [|e l IH]; [split; [done|by intros []%elem_of_nil]|].
    rewrite fmap_cons, elem_of_cons. cbn [List.filter]. unfold str_eqb in *. case_bool_decide as Ek; cbn [negb length].
    + split; [by left|]. intros _. pose proof (sublist_length _ _ (without_entry_sublist key l)) as Hl. unfold without_entry, str_eqb in Hl. lia.
    + rewrite <- IH in *. split; [intros Hne; right; lia|]. intros [->|Hne]; [done|lia].
Qed.

Lemma contains_exact name key : to_ascii_lowercase name = lit "contains" ->
  run recv name [VText key] s = Some (Ok (VBoolean (bool_decide (key ∈ fst <$> ts))), s0).
Proof.
  intros Hn. rewrite (object_call name _ _ Hn) by reflexivity.
  change (object_contains [VText key] es s0 = Some (Ok (VBoolean (bool_decide (key ∈ fst <$> ts))), s0)).
  unfold object_contains, bind. rewrite key_arg_eq. unfold ret. do 4 f_equal. rewrite <- (entries_keys _ _ _ He). apply bool_decide_ext.
  rewrite <- not_eq_None_Some, find_entry_None. destruct (decide (key ∈ fst <$> es)); tauto.
Qed.

Lemma give_token_exact (k : JsonKind) c t : refers base s recv k h p -> child (nodes (arena s)) p c -> denotes (nodes (arena s)) c t ->
  wp (give_token c) (token_given s p t) s0.
Proof.
  intros Hr Hc Ht. unfold wp, give_token, bind. rewrite reference_eq. cbn [write_back modify ret]. split; [done|]. split; [done|]. split.
  - exists c. split; [apply lookup_insert_eq|done].
  - split; [done|]. change (targets (arena s) ⊆ <[fresh s := c]> (targets (arena s))). apply insert_subseteq.
    destruct (targets (arena s) !! fresh s) eqn:E; [|done]. pose proof (handles_fresh _ _ (refers_ok _ _ _ _ _ _ Hr) _ _ E). lia.
Qed.

Lemma get_exact name key rest : to_ascii_lowercase name = lit "get" ->
  wp (run recv name (VText key :: rest)) (fun r s' => match find_entry key ts with
    | Some (_, t) => token_given s p t r s' | None => failed s r s' end) s.
Proof.
  intros Hn. unfold wp. rewrite (object_call name _ _ Hn) by reflexivity.
  change (wp (object_get (VText key :: rest) es) (fun r s' => match find_entry key ts with Some (_, t) => token_given s p t r s' | None => failed s r s' end) s0).
  unfold object_get. apply wp_bind. unfold wp at 1. rewrite key_arg_eq. pose proof (entries_find _ _ _ key He) as Hf.
  destruct (find_entry key es) as [[k1 c]|] eqn:E, (find_entry key ts) as [[k2 t]|]; [|done|done|by split; [eexists|]].
  apply (give_token_exact JObject); [done| |done]. apply find_entry_Some in E as [Hin _].
  exists (NObject es). split; [done|]. apply (list_elem_of_fmap_2 snd _ _ Hin).
Qed.

Lemma keys_exact name : to_ascii_lowercase name = lit "keys" ->
  run recv name [] s = Some (let '(v, sh) := new_list (VText <$> ts.*1) (Some (lit "Text")) (shared s) in (Ok v, with_shared sh s0)).
Proof.
  intros Hn. rewrite (object_call name _ _ Hn) by reflexivity.
  change (typed_list "Text" ((fun e => VText (fst e)) <$> es) s0 = Some (let '(v, sh) := new_list (VText <$> ts.*1) (Some (lit "Text")) (shared s) in (Ok v, with_shared sh s0))).
  unfold typed_list. rewrite <- (entries_keys _ _ _ He), <- list_fmap_compose. change (shared s0) with (shared s). by destruct (new_list _ _ _).
Qed.

(** The typed getters read the scalar at the key. *)
Lemma getter_exact name ty key : to_ascii_lowercase name = lit "get" ++ ty -> is_one_of ty (["text"; "code"; "integer"; "biginteger"; "decimal"; "boolean"])%string = true ->
  run recv name [VText key] s = Some (match find_entry key ts with
    | Some (_, TScalar sc) => match scalar_as sc ty with Ok v => Ok v | Err e => Err (InvalidCall e) end
    | Some _ => Err (InvalidCall (lit "the value of '" ++ key ++ lit "' is not a JSON value"))
    | None => Err (InvalidCall (lit "the key '" ++ key ++ lit "' does not exist")) end, s0).
Proof.
  intros Hn Hty. assert (exists w : string, ty = lit w /\ w ∈ ["text"; "code"; "integer"; "biginteger"; "decimal"; "boolean"]%string) as (w & -> & Hw).
  { unfold is_one_of, str_is, str_eqb in Hty. apply existsb_exists in Hty as (w & Hw & E%bool_decide_eq_true). exists w. split; [done|]. by apply list_elem_of_In. }
  pose proof (entries_find _ _ _ key He) as Hf.
  assert (object_getter (lit "get" ++ lit w) [VText key] es s0 = Some (match find_entry key ts with
    | Some (_, TScalar sc) => match scalar_as sc (lit w) with Ok v => Ok v | Err e => Err (InvalidCall e) end
    | Some _ => Err (InvalidCall (lit "the value of '" ++ key ++ lit "' is not a JSON value"))
    | None => Err (InvalidCall (lit "the key '" ++ key ++ lit "' does not exist")) end, s0)) as Hget.
  { unfold object_getter, bind at 1. rewrite key_arg_eq. unfold bind, ret. change ([VText key] !! 1%nat) with (@None Value). cbv beta iota.
    destruct (find_entry key es) as [[k1 c]|], (find_entry key ts) as [[k2 t]|]; try done; cbn [fmap option_fmap option_map].
    - apply denotes_node in Hf as (node & Hc & Hnt). cbn [snd] in *. assert (@node_at _ JsonError c s0 = Some (Ok node, s0)) as E by (unfold node_at; change (nodes (arena s0)) with (nodes (arena s)); by rewrite Hc).
      unfold bind. rewrite E.
      inversion Hnt; subst; try done. unfold invalid, map_err, of_res. change (drop 3 (lit "get" ++ lit w)) with (lit w). by destruct (scalar_as s1 (lit w)).
    - by destruct (default_for_getter _). }
  rewrite <- Hget. repeat (apply elem_of_cons in Hw as [->|Hw]; [rewrite (object_call name _ _ Hn) by reflexivity; reflexivity|]). by apply elem_of_nil in Hw.
Qed.
End calls.
End objects.

(** * Arrays *)

Section arrays.
Context {D : Decimal} {U : Unicode} {L : JsonLibs} {LL : JsonLaws L}.
Variables (base : Z) (s : JsonState) (recv : str) (h p : Z) (items : list Z) (ts : list Tree).
Hypothesis (H : refers base s recv JArray h p) (Hp : nodes (arena s) !! p = Some (NArray items)) (Hi : Forall2 (denotes (nodes (arena s))) items ts).

Let s0 := with_writebacks [] s.

Lemma array_call name lower args : to_ascii_lowercase name = lower -> is_one_of lower common_methods = false ->
  run recv name args s = array_method name lower args p items s0.
Proof.
  intros Hl Hc. rewrite (refers_call base s recv JArray h p H). unfold method_of. rewrite Hl. unfold is_one_of in Hc. cbn [existsb common_methods] in Hc.
  repeat (apply orb_false_iff in Hc as [? Hc]). repeat match goal with E : str_is _ _ = false |- _ => rewrite E; clear E end.
  unfold bind at 1, node_at. change (nodes (arena (with_writebacks [] s))) with (nodes (arena s)). by rewrite Hp.
Qed.

Lemma array_ready : ready base s0.
Proof. eapply refers_ready, H. Qed.

Lemma array_items_apart : NoDup items.
Proof. apply (children_apart base s p (NArray items)); [by eapply refers_ok|done]. Qed.

Lemma same_length : length items = length ts.
Proof. by eapply Forall2_length. Qed.

Lemma index_arg_exact i inclusive : index_arg (Some (VInteger i)) (Z.of_nat (length items)) inclusive =
  if decide (0 <= i /\ i < Z.of_nat (length ts) + (if inclusive then 1 else 0)) then Ok i
  else Err (Failed (lit "index " ++ i64_to_str i ++ lit " is outside the JSON array of " ++ i64_to_str (Z.of_nat (length items)) ++ lit " elements")).
Proof.
  unfold index_arg, saturating_sub. rewrite same_length. case_decide as E.
  - destruct inclusive; cbn [orb]; rewrite ?andb_true_r; case_match eqn:Eb; try done; exfalso; apply andb_false_iff in Eb as [Eb|Eb]; to_prop; try lia;
      apply andb_false_iff in Eb as [Eb|Eb]; to_prop; lia.
  - destruct inclusive; cbn [orb]; rewrite ?andb_true_r; case_match eqn:Eb; try done; exfalso; to_prop; lia.
Qed.

Lemma append_exact name v : to_ascii_lowercase name = lit "add" -> value_known s v ->
  wp (run recv name [v]) (placed_spec s p v (fun t => TArray (ts ++ [t]))) s.
Proof.
  intros Hn Hv. unfold wp. rewrite (array_call name _ _ Hn) by reflexivity.
  change (wp (array_add [v] p items) (placed_spec s p v (fun t => TArray (ts ++ [t]))) s0). unfold array_add. apply wp_bind. unfold wp at 1, arg. cbn [lookup list_lookup].
  apply (wp_mono _ (placed_spec s0 p v (fun t => TArray (ts ++ [t])))); [intros r s'; apply cleared_placed|].
  apply (place_spec base s0 p (NArray items) (fun c => NArray (items ++ [c]))); [apply array_ready|exact Hp|done|apply takes_append, array_items_apart|].
  intros m c t Hm Hc. constructor. apply Forall2_app; [|by repeat constructor]. eapply Forall2_impl; [exact Hi|]. intros x tx. apply Hm.
Qed.

Lemma insert_exact name i v : to_ascii_lowercase name = lit "insert" -> value_known s v ->
  wp (run recv name [VInteger i; v]) (fun r s' => if decide (0 <= i /\ i < Z.of_nat (length ts) + 1)
    then placed_spec s p v (fun t => TArray (insert_at (Z.to_nat i) t ts)) r s' else failed s r s') s.
Proof.
  intros Hn Hv. unfold wp. rewrite (array_call name _ _ Hn) by reflexivity.
  change (wp (array_insert [VInteger i; v] p items) (fun r s' => if decide (0 <= i /\ i < Z.of_nat (length ts) + 1)
    then placed_spec s p v (fun t => TArray (insert_at (Z.to_nat i) t ts)) r s' else failed s r s') s0).
  unfold array_insert. apply wp_bind. unfold wp at 1, of_res. change ([VInteger i; v] !! 0%nat) with (Some (VInteger i)). rewrite index_arg_exact.
  destruct (decide (0 <= i /\ i < Z.of_nat (length ts) + 1)) as [E|E]; [|by split; [eexists|]].
  apply wp_bind. unfold wp at 1, arg. cbn [lookup list_lookup].
  apply (wp_mono _ (placed_spec s0 p v (fun t => TArray (insert_at (Z.to_nat i) t ts)))); [intros r s'; apply cleared_placed|].
  apply (place_spec base s0 p (NArray items) (fun c => NArray (insert_at (Z.to_nat i) c items))); [apply array_ready|exact Hp|done|apply takes_insert, array_items_apart|].
  intros m c t Hm Hc. assert (Forall2 (denotes m) items ts) as Hm' by (eapply Forall2_impl; [exact Hi|]; intros x tx; apply Hm).
  constructor. unfold insert_at. apply Forall2_app; [by apply Forall2_take|]. constructor; [done|by apply Forall2_drop].
Qed.

Lemma element_exact args i (k : Z -> M JsonError Value) (Q : Res JsonError Value -> JsonState -> Prop) : args !! 0%nat = Some (VInteger i) ->
  (forall c t, items !! Z.to_nat i = Some c -> ts !! Z.to_nat i = Some t -> denotes (nodes (arena s)) c t -> 0 <= i < Z.of_nat (length ts) -> wp (k i) Q s0) ->
  wp (let* i := element_arg args items in k i) (fun r s' => if decide (0 <= i /\ i < Z.of_nat (length ts)) then Q r s' else failed s r s') s0.
Proof.
  intros Ha Hk. apply wp_bind. unfold wp at 1, element_arg, of_res. rewrite Ha, index_arg_exact, Z.add_0_r.
  destruct (decide (0 <= i /\ i < Z.of_nat (length ts))) as [E|E]; [|by split; [eexists|]].
  destruct (lookup_lt_is_Some_2 ts (Z.to_nat i)) as [t Ht]; [lia|]. destruct (Forall2_lookup_r _ _ _ _ _ Hi Ht) as (c & Hc & Hd).
  by eapply Hk.
Qed.

Lemma set_exact name i v : to_ascii_lowercase name = lit "set" -> value_known s v ->
  wp (run recv name [VInteger i; v]) (fun r s' => if decide (0 <= i /\ i < Z.of_nat (length ts))
    then placed_spec s p v (fun t => TArray (<[Z.to_nat i := t]> ts)) r s' else failed s r s') s.
Proof.
  intros Hn Hv. unfold wp. rewrite (array_call name _ _ Hn) by reflexivity.
  change (wp (array_set [VInteger i; v] p items) (fun r s' => if decide (0 <= i /\ i < Z.of_nat (length ts))
    then placed_spec s p v (fun t => TArray (<[Z.to_nat i := t]> ts)) r s' else failed s r s') s0).
  unfold array_set. apply (element_exact [VInteger i; v] i _ (placed_spec s p v (fun t => TArray (<[Z.to_nat i := t]> ts)))); [done|]. intros c t Hc Ht Hd Hb.
  apply wp_bind. unfold wp at 1, arg. cbn [lookup list_lookup]. eapply array_set_eq; [done|].
  apply (wp_mono _ (placed_spec s0 p v (fun t => TArray (<[Z.to_nat i := t]> ts)))); [intros r s'; apply cleared_placed|].
  apply (place_spec base s0 p (NArray items) (fun c => NArray (<[Z.to_nat i := c]> items))); [apply array_ready|exact Hp|done|apply takes_set, array_items_apart|].
  intros m x u Hm Hx. constructor. apply Forall2_insert; [|done]. eapply Forall2_impl; [exact Hi|]. intros y ty. apply Hm.
Qed.

Lemma remove_at_exact name i : to_ascii_lowercase name = lit "removeat" ->
  wp (run recv name [VInteger i]) (fun r s' => if decide (0 <= i /\ i < Z.of_nat (length ts))
    then r = Ok (VBoolean true) /\ seen_change s s' p (TArray (delete (Z.to_nat i) ts)) else failed s r s') s.
Proof.
  intros Hn. unfold wp. rewrite (array_call name _ _ Hn) by reflexivity.
  apply (element_exact [VInteger i] i (fun i => item_at i items ;; set p (NArray (delete (Z.to_nat i) items)) ;; ret (VBoolean true))
    (fun r s' => r = Ok (VBoolean true) /\ seen_change s s' p (TArray (delete (Z.to_nat i) ts)))); [done|]. intros c t Hc Ht Hd Hb.
  apply (wp_bind (item_at i items)). unfold wp at 1, item_at, expect. rewrite Hc. cbn [fmap option_fmap option_map].
  destruct (set_spec base s0 p (NArray items) (NArray (delete (Z.to_nat i) items)) (TArray (delete (Z.to_nat i) ts)) (VBoolean true) array_ready Hp) as [E Hs].
  - by apply (delete_settable base s0 p items array_ready Hp).
  - constructor. by apply Forall2_delete.
  - unfold wp. rewrite E. split; [done|by apply cleared_change].
Qed.

Lemma count_exact name : to_ascii_lowercase name = lit "count" -> run recv name [] s = Some (Ok (VInteger (Z.of_nat (length ts))), s0).
Proof. intros Hn. rewrite (array_call name _ _ Hn) by reflexivity. rewrite <- same_length. reflexivity. Qed.

Lemma get_at_exact name i rest : to_ascii_lowercase name = lit "get" ->
  wp (run recv name (VInteger i :: rest)) (fun r s' => if decide (0 <= i /\ i < Z.of_nat (length ts))
    then exists t, ts !! Z.to_nat i = Some t /\ token_given s p t r s' else failed s r s') s.
Proof.
  intros Hn. unfold wp. rewrite (array_call name _ _ Hn) by reflexivity.
  apply (element_exact (VInteger i :: rest) i (fun i => let* item := item_at i items in give_token item)
    (fun r s' => exists t, ts !! Z.to_nat i = Some t /\ token_given s p t r s')); [done|]. intros c t Hc Ht Hd Hb.
  apply (wp_bind (item_at i items)). unfold wp at 1, item_at, expect. rewrite Hc. cbn [fmap option_fmap option_map].
  eapply wp_mono; [|apply (give_token_exact base s recv h p JArray c t H); [|done]].
  - intros r s' Hr. by exists t.
  - exists (NArray items). split; [done|]. by eapply list_elem_of_lookup_2.
Qed.
End arrays.

(** * Methods of every type *)

Section texts.
Context {D : Decimal} {U : Unicode} {L : JsonLibs} {LL : JsonLaws L}.
Variables (base : Z) (s : JsonState) (recv : str) (k : JsonKind) (h p : Z) (t : Tree).
Hypothesis (H : refers base s recv k h p) (Ht : denotes (nodes (arena s)) p t).

Let s0 := with_writebacks [] s.

Lemma text_exact : invalid (text_of p) s0 =
  Some (if decide (height t <= max_levels)%nat then Ok (show t) else Err (InvalidCall (too_deep writing)), s0).
Proof.
  unfold invalid, map_err, text_of. change (nodes (arena s0)) with (nodes (arena s)). rewrite (write_exact _ _ _ _ Ht). cbn [fmap option_fmap option_map].
  by case_decide.
Qed.

Lemma write_to_exact name args : to_ascii_lowercase name = lit "writeto" ->
  run recv name args s = Some (if decide (height t <= max_levels)%nat then
      match args with
      | [] => (Ok (VText (show t)), s0)
      | _ => (Ok (VBoolean true), with_writebacks [(0%nat, VText (show t))] s)
      end
    else (Err (InvalidCall (too_deep writing)), s0)).
Proof.
  intros Hn. rewrite (refers_call base s recv k h p H). unfold method_of. rewrite Hn.
  change (write_to p args s0 = Some (if decide (height t <= max_levels)%nat then
    match args with [] => (Ok (VText (show t)), s0) | _ => (Ok (VBoolean true), with_writebacks [(0%nat, VText (show t))] s) end
    else (Err (InvalidCall (too_deep writing)), s0))).
  unfold write_to, bind at 1. rewrite text_exact. destruct (decide (height t <= max_levels)%nat); [|done]. by destruct args.
Qed.

(** What [ReadFrom] of a text leaves. *)
Definition read_spec (text : str) (r : Res JsonError Value) (s' : JsonState) : Prop :=
  match json_parse text with
  | Err _ => failed s r s'
  | Ok d =>
      if fits_kind k d then
        match r with
        | Ok v => v = VBoolean true /\ held_total s' <= MAX_HELD_BYTES /\ exists u c, document_tree d = Some u /\
            targets (arena s') !! h = Some c /\ nodes (arena s) !! c = None /\ denotes (nodes (arena s')) c u /\
            (forall a ta, denotes (nodes (arena s)) a ta -> denotes (nodes (arena s')) a ta) /\
            (forall h' n, h' <> h -> targets (arena s) !! h' = Some n -> targets (arena s') !! h' = Some n)
        | Err e => (exists m, e = InvalidCall m) /\ (document_tree d = None \/ MAX_HELD_BYTES < held_total s') /\ unchanged s s'
        end
      else failed s r s'
  end.

Lemma read_from_exact name text : to_ascii_lowercase name = lit "readfrom" -> wp (run recv name [VText text]) (read_spec text) s.
Proof.
  intros Hn. unfold wp. rewrite (refers_call base s recv k h p H). unfold method_of. rewrite Hn.
  change (wp (read_from k h [VText text]) (read_spec text) s0). unfold read_from. apply wp_bind, wp_map_err. unfold wp at 1, of_res.
  change (text_arg ([VText text] !! 0%nat) (lit "the JSON text")) with (Ok (E:=str) text). cbv beta iota. unfold read_spec.
  destruct (json_parse text) as [d|e] eqn:Ed; [|by split; [eexists|]]. destruct (fits_kind k d); cbn [negb]; [|by split; [eexists|]].
  pose proof (refers_ready base s recv k h p H) as Hr. apply wp_bind, wp_map_err.
  eapply wp_mono; [|apply (import_builds entry_size_nonneg base d (ready_base _ _ Hr) s0 (ready_ok _ _ Hr) (parse_distinct _ _ Ed))].
  intros [c|e] s1 (H1 & G1 & Hb).
  - destruct Hb as (u & Hu & B1 & B2 & B3). apply wp_bind, wp_bind. unfold wp at 1, gets. apply wp_map_err. unfold wp at 1, of_res, check_held_bytes.
    destruct (Z.ltb_spec MAX_HELD_BYTES (held_total s1)) as [Hlt|Hle].
    + split; [by eexists|]. split; [by right|]. exact (grows_unchanged _ _ G1).
    + unfold wp, bind. cbn [modify ret]. split; [done|]. split; [done|]. exists u, c. split; [done|]. split; [apply lookup_insert_eq|]. split; [|split; [done|split]].
      * destruct (nodes (arena s) !! c) eqn:E; [|done]. pose proof (ids_fresh _ _ (refers_ok _ _ _ _ _ _ H) c ltac:(by eexists)). change (fresh s0) with (fresh s) in B1. lia.
      * intros a ta. apply (grows_denotes _ _ _ _ G1).
      * intros h' n Hh Hn'. change (<[h := c]> (targets (arena s1)) !! h' = Some n). rewrite lookup_insert_ne by done.
        exact (lookup_weaken _ _ _ _ Hn' (targets_grow _ _ G1)).
  - destruct Hb as [Hd _]. split; [by eexists|]. split; [by left|]. exact (grows_unchanged _ _ G1).
Qed.

(** A clone is a tree of new nodes. *)
Definition clone_spec (r : Res JsonError Value) (s' : JsonState) : Prop := unchanged s s' /\
  match r with
  | Ok v => (height t <= max_levels)%nat /\ held_total s' <= MAX_HELD_BYTES /\ exists h' c, v = VJson {| kind := k; jhandle := Some h' |} /\
      targets (arena s') !! h' = Some c /\ denotes (nodes (arena s')) c t /\ forall x, reach (nodes (arena s')) c x -> nodes (arena s) !! x = None
  | Err e => (exists m, e = InvalidCall m) /\ ((max_levels < height t)%nat \/ MAX_HELD_BYTES < held_total s')
  end.

Lemma clone_exact name args : to_ascii_lowercase name = lit "clone" -> wp (run recv name args) clone_spec s.
Proof.
  intros Hn. unfold wp. rewrite (refers_call base s recv k h p H). unfold method_of. rewrite Hn.
  change (wp (clone k p) clone_spec s0). pose proof (refers_ready base s recv k h p H) as Hr. unfold clone. apply wp_bind, wp_map_err.
  eapply wp_mono; [|apply (deep_copy_builds entry_size_nonneg base (nodes (arena s0)) max_levels (ready_base _ _ Hr) p s0 (ready_ok _ _ Hr));
    [done|exact (denotes_known _ _ _ Ht)|apply (all_denote _ _ (ready_ok _ _ Hr))]].
  intros [c|e] s1 (H1 & G1 & Hb).
  - destruct Hb as (t' & [Ht1 Ht2] & B1 & B2 & B3). rewrite (denotes_unique _ _ _ _ Ht1 Ht) in *.
    apply wp_bind, wp_bind. unfold wp at 1, gets. apply wp_map_err. unfold wp at 1, of_res, check_held_bytes.
    destruct (Z.ltb_spec MAX_HELD_BYTES (held_total s1)) as [Hlt|Hle].
    + split; [exact (grows_unchanged _ _ G1)|]. split; [by eexists|by right].
    + unfold wp. rewrite reference_eq. split; [exact (grows_unchanged _ _ (reference_grows base s0 s1 c H1 G1))|]. split; [done|]. split; [exact Hle|].
      exists (fresh s1), c. split; [done|]. split; [apply lookup_insert_eq|]. split; [exact B3|]. intros x Hx.
      pose proof (grows_reach_new base s0 s1 c x (ready_ok _ _ Hr) G1 B1 Hx) as Hfx.
      destruct (nodes (arena s) !! x) eqn:E; [|done]. pose proof (ids_fresh _ _ (refers_ok _ _ _ _ _ _ H) x ltac:(by eexists)). change (fresh s0) with (fresh s) in Hfx. lia.
  - destruct Hb as (-> & t' & Ht' & Hlt). rewrite (denotes_unique _ _ _ _ Ht' Ht) in Hlt. split; [exact (grows_unchanged _ _ G1)|]. split; [by eexists|by left].
Qed.

(** [SelectToken] gives a token for the node that alone matches. *)
Definition select_spec (path : str) (r : Res JsonError Value) (s' : JsonState) : Prop :=
  match parse_path path with
  | Some (Ok steps) =>
      match tree_follow t [t] steps with
      | [u] => r = Ok (VBoolean true) /\ writebacks s' = [(1%nat, VJson {| kind := JToken; jhandle := Some (fresh s) |})] /\
          (exists c, targets (arena s') !! fresh s = Some c /\ reach (nodes (arena s)) p c /\ denotes (nodes (arena s)) c u) /\ unchanged s s'
      | _ => failed s r s'
      end
  | Some (Err e) => r = Err (InvalidCall (into_message e)) /\ s' = s0
  | None => False
  end.

Lemma select_token_exact name path rest : to_ascii_lowercase name = lit "selecttoken" -> wp (run recv name (VText path :: rest)) (select_spec path) s.
Proof.
  intros Hn. unfold wp. rewrite (refers_call base s recv k h p H). unfold method_of. rewrite Hn.
  change (wp (select_token p (VText path :: rest)) (select_spec path) s0). pose proof (refers_ready base s recv k h p H) as Hr.
  unfold select_token. apply wp_bind, wp_map_err. unfold wp at 1, of_res. change (text_arg ((VText path :: rest) !! 0%nat) (lit "the path")) with (Ok (E:=str) path). cbv beta iota.
  apply wp_bind. unfold wp at 1, gets. apply wp_bind. destruct (select_exact base s p t path (refers_ok _ _ _ _ _ _ H) Ht) as (r & Er & Hs).
  unfold wp at 1, expect. change (nodes (arena s0)) with (nodes (arena s)). rewrite Er. cbn [fmap option_fmap option_map]. apply wp_bind, wp_map_err. unfold wp at 1.
  unfold select_spec. destruct (parse_path path) as [[steps|e]|] eqn:Ep; [|by rewrite Hs; split|done]. destruct Hs as (ids & -> & Hids).
  destruct ids as [|c [|c' ids]]; inversion Hids as [|x u l us Hu Hus]; subst; [by split; [eexists|]| |inversion Hus; subst; by split; [eexists|]].
  inversion Hus; subst. unfold wp, give_token, bind. rewrite reference_eq. cbn [write_back modify ret]. split; [done|]. split; [done|]. split.
  - exists c. split; [apply lookup_insert_eq|]. split; [|done]. unfold select in Er. rewrite Ep in Er. cbn [mbind option_bind] in Er.
    apply bind_Some in Er as (ids & Ef & [= ->]). destruct (arena_hyps _ _ (refers_ok _ _ _ _ _ _ H)) as [Ho Ha].
    pose proof (follow_reach (nodes (arena s)) Ho Ha p p steps [c] (all_denote _ _ (refers_ok _ _ _ _ _ _ H)) (ok_closed _ _ (refers_ok _ _ _ _ _ _ H)) (denotes_known _ _ _ Ht) Ef) as Hf.
    by inversion Hf.
  - split; [done|]. change (targets (arena s) ⊆ <[fresh s := c]> (targets (arena s))). apply insert_subseteq.
    destruct (targets (arena s) !! fresh s) eqn:E; [|done]. pose proof (handles_fresh _ _ (refers_ok _ _ _ _ _ _ H) _ _ E). lia.
Qed.
End texts.

(** * Values *)

Section values.
Context {D : Decimal} {U : Unicode} {L : JsonLibs} {LL : JsonLaws L}.

Lemma set_value_exact base s recv h p name v : refers base s recv JValue h p -> to_ascii_lowercase name = lit "setvalue" ->
  wp (run recv name [v]) (fun r s' => match scalar_of (cells (shared s)) v with
    | Ok sc => r = Ok VEmpty /\ seen_change s s' p (TScalar sc)
    | Err m => r = Err (InvalidCall m) /\ s' = with_writebacks [] s
    end) s.
Proof.
  intros H Hn. unfold wp. rewrite (refers_call base s recv JValue h p H). unfold method_of. rewrite Hn.
  destruct (refers_node base s recv JValue h p H) as (node & t & Hp & _ & _).
  change (wp (let* current := node_at p in value_method name (lit "setvalue") [v] p current) (fun r s' => match scalar_of (cells (shared s)) v with
    | Ok sc => r = Ok VEmpty /\ seen_change s s' p (TScalar sc)
    | Err m => r = Err (InvalidCall m) /\ s' = with_writebacks [] s
    end) (with_writebacks [] s)).
  apply wp_bind. unfold wp at 1, node_at. change (nodes (arena (with_writebacks [] s))) with (nodes (arena s)). rewrite Hp. cbn [fmap option_fmap option_map].
  change (value_method name (lit "setvalue") [v] p node) with (value_set [v] p). unfold value_set. apply wp_bind. unfold wp at 1.
  change ([v] !! 0%nat) with (Some v). cbn [arg ret]. apply wp_bind. unfold wp at 1, gets. apply wp_bind, wp_map_err. unfold wp at 1, of_res.
  change (cells (shared (with_writebacks [] s))) with (cells (shared s)). destruct (scalar_of (cells (shared s)) v) as [sc|m]; [|done].
  destruct (set_spec base (with_writebacks [] s) p node (NScalar sc) (TScalar sc) VEmpty (refers_ready base s recv JValue h p H) Hp) as [E Hs].
  - apply (settable_sublist _ _ node); [apply sublist_nil_l|exact (children_apart base s p node (refers_ok _ _ _ _ _ _ H) Hp)|done].
  - constructor.
  - unfold wp. rewrite E. split; [done|by apply cleared_change].
Qed.
End values.

(** * Types *)

Section kinds.
Context {D : Decimal} {U : Unicode} {L : JsonLibs} {LL : JsonLaws L}.
Variables (base : Z) (s : JsonState) (recv : str) (h p : Z) (t : Tree).

Let s0 := with_writebacks [] s.

(** Another reference to the node of a variable. *)
Definition referenced (k : JsonKind) (node : Z) (r : Res JsonError Value) (s' : JsonState) : Prop :=
  r = Ok (VJson {| kind := k; jhandle := Some (fresh s) |}) /\ targets (arena s') !! fresh s = Some node /\
  nodes (arena s') = nodes (arena s) /\ targets (arena s) ⊆ targets (arena s').

Lemma reference_exact k kr node : refers base s recv kr h p -> wp (reference k node) (referenced k node) s0.
Proof.
  intros H. unfold wp. rewrite reference_eq. split; [done|]. split; [apply lookup_insert_eq|]. split; [done|].
  change (targets (arena s) ⊆ <[fresh s := node]> (targets (arena s))). apply insert_subseteq.
  destruct (targets (arena s) !! fresh s) eqn:E; [|done]. pose proof (handles_fresh _ _ (refers_ok _ _ _ _ _ _ H) _ _ E). lia.
Qed.

Lemma as_token_exact k name args : refers base s recv k h p -> to_ascii_lowercase name = lit "astoken" ->
  wp (run recv name args) (referenced JToken p) s.
Proof.
  intros H Hn. unfold wp. rewrite (refers_call base s recv k h p H). unfold method_of. rewrite Hn.
  exact (reference_exact JToken k p H).
Qed.

(** The type a token can be taken as. *)
Definition tree_kind (t : Tree) : JsonKind := match t with TObject _ => JObject | TArray _ => JArray | TScalar _ => JValue end.
Definition kind_word (k : JsonKind) : string := match k with JObject => "object" | JArray => "array" | JValue => "value" | JToken => "" end.
#[export] Instance kind_eq_dec : EqDecision JsonKind.
Proof. solve_decision. Defined.

Lemma token_call name lower args : refers base s recv JToken h p -> denotes (nodes (arena s)) p t ->
  to_ascii_lowercase name = lower -> is_one_of lower common_methods = false ->
  exists node, run recv name args s = token_method name lower p node s0 /\
    (match node with NObject _ => JObject | NArray _ => JArray | NScalar _ => JValue end) = tree_kind t.
Proof.
  intros H Ht Hl Hc. rewrite (refers_call base s recv JToken h p H). unfold method_of. rewrite Hl. unfold is_one_of in Hc. cbn [existsb common_methods] in Hc.
  repeat (apply orb_false_iff in Hc as [? Hc]). repeat match goal with E : str_is _ _ = false |- _ => rewrite E; clear E end.
  apply denotes_node in Ht as (node & Hp & Hn). exists node. unfold bind at 1, node_at. change (nodes (arena (with_writebacks [] s))) with (nodes (arena s)). rewrite Hp.
  split; [done|]. by inversion Hn.
Qed.

Lemma is_kind_exact k name args : refers base s recv JToken h p -> denotes (nodes (arena s)) p t -> k <> JToken ->
  to_ascii_lowercase name = lit "is" ++ lit (kind_word k) -> run recv name args s = Some (Ok (VBoolean (bool_decide (tree_kind t = k))), s0).
Proof.
  intros H Ht Hk Hn. destruct (token_call name _ args H Ht Hn) as (node & -> & <-); [by destruct k|].
  by destruct k, node.
Qed.

Lemma as_kind_exact k name args : refers base s recv JToken h p -> denotes (nodes (arena s)) p t -> k <> JToken ->
  to_ascii_lowercase name = lit "as" ++ lit (kind_word k) ->
  wp (run recv name args) (fun r s' => if decide (tree_kind t = k) then referenced k p r s'
    else r = Err (InvalidCall (lit "the token is not a JSON " ++ lit (kind_word k))) /\ s' = s0) s.
Proof.
  intros H Ht Hk Hn. unfold wp. destruct (token_call name _ args H Ht Hn) as (node & -> & <-); [by destruct k|].
  destruct k, node; first [done|by split|exact (reference_exact _ _ _ H)].
Qed.

(** A value read as a type. *)
Lemma as_type_exact sc ty name args : refers base s recv JValue h p -> denotes (nodes (arena s)) p (TScalar sc) ->
  to_ascii_lowercase name = lit "as" ++ ty -> is_one_of ty (["text"; "code"; "integer"; "biginteger"; "decimal"; "boolean"])%string = true ->
  run recv name args s = Some (match scalar_as sc ty with Ok v => Ok v | Err e => Err (InvalidCall e) end, s0).
Proof.
  intros H Ht Hn Hty. assert (exists w : string, ty = lit w /\ w ∈ ["text"; "code"; "integer"; "biginteger"; "decimal"; "boolean"]%string) as (w & -> & Hw).
  { unfold is_one_of, str_is, str_eqb in Hty. apply existsb_exists in Hty as (w & Hw & E%bool_decide_eq_true). exists w. split; [done|]. by apply list_elem_of_In. }
  rewrite (refers_call base s recv JValue h p H). unfold method_of. rewrite Hn. apply denotes_node in Ht as (node & Hp & Hnt). inversion Hnt; subst.
  assert (@node_at _ JsonError p s0 = Some (Ok (NScalar sc), s0)) as En by (unfold node_at; change (nodes (arena s0)) with (nodes (arena s)); by rewrite Hp).
  transitivity (invalid (of_res (scalar_as sc (lit w))) s0); [|unfold invalid, map_err, of_res; by destruct (scalar_as sc (lit w))].
  assert (forall w, bind (node_at p) (value_method name (lit "as" ++ lit w) args p) s0 = value_method name (lit "as" ++ lit w) args p (NScalar sc) s0) as Eb.
  { intros x. unfold bind. by rewrite En. }
  specialize (Eb w). repeat (apply elem_of_cons in Hw as [Hx|Hw]; [subst w; exact Eb|]). by apply elem_of_nil in Hw.
Qed.
End kinds.

(** * An example *)

#[local] Existing Instances mini_decimal ascii_unicode.

Definition sample_parse (text : str) : Res str Document :=
  if str_is text "[true,7]" then Ok (DArray [DBool true; DNumber (lit "7")])
  else if str_is text "null" then Ok DNull
  else Err (lit "expected value at line 1 column 1").

Definition sample_libs : JsonLibs := {|
  json_parse := sample_parse;
  json_string s := [34] ++ s ++ [34];
  from_scientific _ := None;
  debug_str s := [34] ++ s ++ [34];
  node_entry_size := 40;
|}.

#[local] Existing Instance sample_libs.

Lemma sample_laws : JsonLaws sample_libs.
Proof.
  split; [done|]. intros text d. change (json_parse text) with (sample_parse text). unfold sample_parse.
  repeat case_match; intros [= <-]; simpl; tauto.
Qed.

(** A frame with a variable of each type. *)
Definition json_variable (k : JsonKind) : Value := VJson {| kind := k; jhandle := None |}.
Definition json_frame : CallFrame := set_locals (new_frame (lit "Codeunit") (lit "Test"))
  {[lit "o" := json_variable JObject; lit "a" := json_variable JArray; lit "t" := json_variable JToken; lit "v" := json_variable JValue]} 0.
Definition new_test : JsonState := {|
  arena := {| nodes := ∅; attached := ∅; targets := ∅ |};
  fresh := 1;
  shared := {| cells := ∅; counts := ∅; total := 0; next := 1 |};
  stack := {| frames := [json_frame]; expr_depth := 0 |};
  writebacks := [];
|}.

(** A call, in a test. *)
Definition called (recv method : string) (args : list Value) (s : JsonState) : JsonState :=
  match dispatch_json_method (lit recv) (lit method) args true s with Some (_, s') => s' | None => s end.

Lemma new_test_run : json_run 0 new_test.
Proof.
  apply run_start; try done; [|constructor]. intros f k v Hf Hk. apply list_elem_of_singleton in Hf as ->. cbn [json_frame set_locals locals] in Hk.
  repeat (apply lookup_insert_Some in Hk as [[_ <-]|[_ Hk]]; [done|]). apply lookup_singleton_Some in Hk as [_ <-]. done.
Qed.

Lemma called_run base s recv method args base' : json_run base s -> in_memory base s -> Forall (value_known s) args ->
  bool_decide (is_Some (dispatch_json_method (lit recv) (lit method) args true s)) = true ->
  base + cell_bytes s (called recv method args s) = base' -> json_run base' (called recv method args s).
Proof.
  intros Hr Hm Ha Hd <-. unfold called in *. apply bool_decide_eq_true in Hd as [[e s'] Hd]. rewrite Hd. by eapply run_call.
Qed.

(** The variable's value, as it is passed on. *)
Definition variable (s : JsonState) (name : string) : Value := default VNull (lookup (stack s) (lit name)).

Lemma variable_known base s name : json_run base s -> value_known s (variable s name).
Proof.
  intros H. destruct (run_invariant (LL := sample_laws) _ _ H) as (_ & _ & Hs & _). unfold variable. destruct (lookup _ _) as [v|] eqn:E; [|done].
  destruct (lookup_frame _ _ _ E) as (f & Hf & Hv). by eapply Hs.
Qed.

(** An object that holds a number and a copy of itself, and an array that holds
    the object. *)
Definition one_key : JsonState := called "o" "Add" [VText (lit "n"); VInteger 7] new_test.
Definition nested : JsonState := called "o" "Add" [VText (lit "self"); variable one_key "o"] one_key.
Definition in_array : JsonState := called "a" "Add" [variable nested "o"] nested.

Ltac call_runs H := apply (called_run 0); [exact H|by vm_compute|repeat (constructor; [first [exact I|exact (variable_known _ _ _ H)]|]); constructor|by vm_compute|by vm_compute].

Lemma in_array_run : json_run 0 in_array.
Proof.
  assert (json_run 0 one_key) as H1 by call_runs new_test_run. assert (json_run 0 nested) as H2 by call_runs H1. call_runs H2.
Qed.

Lemma in_array_room : in_memory 0 in_array.
Proof. by vm_compute. Qed.

Lemma in_array_refers recv k h p : lookup (stack in_array) recv = Some (VJson {| kind := k; jhandle := Some h |}) ->
  targets (arena in_array) !! h = Some p -> refers 0 in_array recv k h p.
Proof. intros Hl Ht. destruct (run_invariant (LL := sample_laws) _ _ in_array_run) as (H & _ & Hs & _). split; [exact H|done|exact Hs|by vm_compute|exact Hl|exact Ht]. Qed.

(** The trees of the object and of the array that holds it. *)
Definition seven : Tree := TScalar (SNumber (dec_from 7)).
Definition nested_tree : Tree := TObject [(lit "n", seven); (lit "self", TObject [(lit "n", seven)])].

(** Equations of closed terms, without normalising the parameters in them. *)
Ltac evaluated := match goal with |- _ = ?b => vm_cast_no_check (eq_refl b) end.

Lemma object_refers : refers 0 in_array (lit "o") JObject 1 2 /\ denotes (nodes (arena in_array)) 2 nested_tree.
Proof. split; [apply in_array_refers; evaluated|exists 3%nat; evaluated]. Qed.

Lemma array_refers : refers 0 in_array (lit "a") JArray 6 7 /\ denotes (nodes (arena in_array)) 7 (TArray [nested_tree]).
Proof. split; [apply in_array_refers; evaluated|exists 4%nat; evaluated]. Qed.
