(* ===== verification/JsonSpec.v ===== *)
(** What the JSON types promise ([interpreter/json.rs]): their nodes are a
    forest, and objects, arrays, texts and paths do to the trees of the variables
    what the documentation of the types says. *)

From Stdlib Require Import ZArith Lia.
From stdpp Require Import base tactics numbers option list gmap strings relations.
From S2P Require Import Prelude RustStr StrSearch Decimals Values Slots Scopes Renders Collections JsonArena JsonPaths JsonMethods JsonTree JsonChange JsonCalls JsonMethodSpec.

#[local] Open Scope Z_scope.
#[local] Open Scope rust_scope.

Section sessions.
Context {D : Decimal} {U : Unicode} {L : JsonLibs} {LL : JsonLaws L}.

(** C10: The nodes of the JSON values are a forest.  Whatever a test does with
    its objects, arrays, tokens and values, adding a value to itself or to what
    it holds, sharing tokens, and running out of the budget included: every node
    denotes a finite tree, is held at one place at most, and an object holds a
    key once; every variable refers to a node; and the bytes counted are those
    of the nodes and of what else the test holds.  No call panics and none runs
    on, and a node once made stays. *)
Theorem json_stays_a_forest base s : json_run base s ->
  (forall id, is_Some (nodes (arena s) !! id) -> exists t, denotes (nodes (arena s)) id t) /\
  (forall p c, child (nodes (arena s)) p c -> is_Some (nodes (arena s) !! c) /\ ~ reach (nodes (arena s)) c p) /\
  one_holder (nodes (arena s)) /\
  (forall p entries, nodes (arena s) !! p = Some (NObject entries) -> NoDup (fst <$> entries)) /\
  (forall h node, targets (arena s) !! h = Some node -> is_Some (nodes (arena s) !! node)) /\
  (in_memory base s -> held_total s = base + bytes_of (nodes (arena s)) /\
    forall recv method args statement, Forall (value_known s) args -> exists e s',
      dispatch_json_method recv method args statement s = Some (e, s') /\ json_run (base + cell_bytes s s') s' /\
      forall id, is_Some (nodes (arena s) !! id) -> is_Some (nodes (arena s') !! id)).
Proof.
  intros Hrun. destruct (run_invariant _ _ Hrun) as (H & Hb & Hs & Hw). pose proof entry_size_nonneg as He.
  split; [apply (all_denote _ _ H)|]. split; [intros p c Hc; split; [by eapply ok_closed|by eapply ok_acyclic]|].
  split; [apply (holders _ _ H)|]. split; [apply (keys_once _ _ H)|]. split; [apply (targets_known _ _ H)|]. intros Hm. split.
  - apply (bytes_counted _ _ H). unfold in_memory, ARENA_ENTRY, USIZE_BYTES in Hm. lia.
  - intros recv method args statement Hargs. pose proof (run_safe base s recv method args H Hb Hs Hm Hw Hargs) as Hsafe. unfold wp in Hsafe.
    destruct (run recv method args s) as [[r s']|] eqn:Er; [|done].
    assert (exists e, dispatch_json_method recv method args statement s = Some (e, s')) as [e Hd].
    { unfold dispatch_json_method. rewrite Er. destruct r as [v|[m|m]]; by eexists. }
    exists e, s'. split; [done|]. split; [by eapply run_call|apply (call_nodes _ _ _ _ Hsafe)].
Qed.


(** A JSON array is a sequence, shared by all that refer to it.  [Add]
    appends, [Insert] takes the positions up to the length, [Set], [RemoveAt] and
    [Get] those of an element, and any other index fails and changes nothing;
    what is placed, and where a change is seen, is as for objects. *)
Lemma json_arrays_exact base s recv h p ts : refers base s recv JArray h p -> denotes (nodes (arena s)) p (TArray ts) ->
  forall name i,
  (to_ascii_lowercase name = lit "add" -> forall v, value_known s v -> call_gives recv name [v] (placed_spec s p v (fun t => TArray (ts ++ [t]))) s) /\
  (to_ascii_lowercase name = lit "insert" -> forall v, value_known s v -> call_gives recv name [VInteger i; v] (fun r s' =>
    if decide (0 <= i /\ i < Z.of_nat (length ts) + 1) then placed_spec s p v (fun t => TArray (insert_at (Z.to_nat i) t ts)) r s' else failed s r s') s) /\
  (to_ascii_lowercase name = lit "set" -> forall v, value_known s v -> call_gives recv name [VInteger i; v] (fun r s' =>
    if decide (0 <= i /\ i < Z.of_nat (length ts)) then placed_spec s p v (fun t => TArray (<[Z.to_nat i := t]> ts)) r s' else failed s r s') s) /\
  (to_ascii_lowercase name = lit "removeat" -> call_gives recv name [VInteger i] (fun r s' =>
    if decide (0 <= i /\ i < Z.of_nat (length ts)) then r = Ok (VBoolean true) /\ seen_change s s' p (TArray (delete (Z.to_nat i) ts)) else failed s r s') s) /\
  (to_ascii_lowercase name = lit "get" -> forall rest, call_gives recv name (VInteger i :: rest) (fun r s' =>
    if decide (0 <= i /\ i < Z.of_nat (length ts)) then exists t, ts !! Z.to_nat i = Some t /\ token_given s p t r s' else failed s r s') s) /\
  (to_ascii_lowercase name = lit "count" -> call_gives recv name [] (fun r s' =>
    r = Ok (VInteger (Z.of_nat (length ts))) /\ s' = with_writebacks [] s) s).
Proof.
  intros H Ht name i. pose proof Ht as (node & Hp & Hn)%denotes_node. inversion Hn as [|items ts' Hi|]; subst. split_and!.
  - intros E v Hv. apply wp_call. by eapply append_exact.
  - intros E v Hv. apply wp_call. by eapply insert_exact.
  - intros E v Hv. apply wp_call. by eapply set_exact.
  - intros E. apply wp_call. by eapply remove_at_exact.
  - intros E rest. apply wp_call. by eapply get_at_exact.
  - intros E. eapply eq_call. by eapply count_exact.
Qed.

(** C12: A variable of a JSON type stands for one tree, the empty one of its
    type at first.  Every call on it runs where it refers to a node of that tree,
    nothing else having changed.  [WriteTo] gives the text of the tree, if it is
    not too deep; [ReadFrom] makes the variable, and no other, refer to new nodes
    of the document, or says why not and changes nothing; [Clone] gives a tree of
    new nodes; [AsToken] and the conversions of a token another reference to the
    same node; [SetValue] puts a scalar there, and a value is read as a type by
    its scalar. *)
Theorem json_values_exact base s recv j : json_run base s -> in_memory base s -> lookup (stack s) recv = Some (VJson j) ->
  exists s1 h p t, refers base s1 recv (kind j) h p /\ denotes (nodes (arena s1)) p t /\ value_tree s (VJson j) t /\ unchanged s s1 /\
  (forall other, to_ascii_lowercase other <> to_ascii_lowercase recv -> lookup (stack s1) other = lookup (stack s) other) /\
  (forall method args statement, dispatch_json_method recv method args statement s = dispatch_json_method recv method args statement s1) /\
  forall name,
  (to_ascii_lowercase name = lit "writeto" -> forall args, call_gives recv name args (fun r s' =>
    if decide (height t <= max_levels)%nat then
      match args with
      | [] => r = Ok (VText (show t)) /\ s' = with_writebacks [] s1
      | _ => r = Ok (VBoolean true) /\ s' = with_writebacks [(0%nat, VText (show t))] s1
      end
    else r = Err (InvalidCall (too_deep writing)) /\ s' = with_writebacks [] s1) s1) /\
  (to_ascii_lowercase name = lit "readfrom" -> forall text, call_gives recv name [VText text] (read_spec s1 (kind j) h text) s1) /\
  (to_ascii_lowercase name = lit "clone" -> forall args, call_gives recv name args (clone_spec s1 (kind j) t) s1) /\
  (to_ascii_lowercase name = lit "astoken" -> forall args, call_gives recv name args (referenced s1 JToken p) s1) /\
  (kind j = JToken -> forall k args, k <> JToken ->
    (to_ascii_lowercase name = lit "is" ++ lit (kind_word k) ->
      call_gives recv name args (fun r s' => r = Ok (VBoolean (bool_decide (tree_kind t = k))) /\ s' = with_writebacks [] s1) s1) /\
    (to_ascii_lowercase name = lit "as" ++ lit (kind_word k) -> call_gives recv name args (fun r s' =>
      if decide (tree_kind t = k) then referenced s1 k p r s'
      else r = Err (InvalidCall (lit "the token is not a JSON " ++ lit (kind_word k))) /\ s' = with_writebacks [] s1) s1)) /\
  (kind j = JValue ->
    (to_ascii_lowercase name = lit "setvalue" -> forall v, call_gives recv name [v] (fun r s' =>
      match scalar_of (cells (shared s1)) v with
      | Ok sc => r = Ok VEmpty /\ seen_change s1 s' p (TScalar sc)
      | Err m => r = Err (InvalidCall m) /\ s' = with_writebacks [] s1
      end) s1) /\
    (forall sc ty args, t = TScalar sc -> to_ascii_lowercase name = lit "as" ++ ty ->
      is_one_of ty (["text"; "code"; "integer"; "biginteger"; "decimal"; "boolean"])%string = true ->
      call_gives recv name args (fun r s' => r = match scalar_as sc ty with Ok v => Ok v | Err e => Err (InvalidCall e) end /\
        s' = with_writebacks [] s1) s1)).
Proof.
  intros Hrun Hm Hl. destruct (run_invariant _ _ Hrun) as (H & Hb & Hs & _).
  destruct (receiver_exact base s recv j H Hb Hs Hm Hl) as (s1 & h & p & t & Href & Heq & Hv & Ht & Hu & Hother). exists s1, h, p, t.
  do 5 (split; [done|]). split; [intros method args st; unfold dispatch_json_method; by rewrite Heq|]. intros name. split_and!.
  - intros E args. apply wp_call. unfold wp. rewrite (write_to_exact base s1 recv (kind j) h p t Href Ht name args E).
    case_decide; [by destruct args|done].
  - intros E text. apply wp_call. by eapply read_from_exact.
  - intros E args. apply wp_call. by eapply clone_exact.
  - intros E args. apply wp_call. by eapply as_token_exact.
  - intros Ek k args Hk. rewrite Ek in Href. split; intros E.
    + eapply eq_call. by eapply is_kind_exact.
    + apply wp_call. by eapply as_kind_exact.
  - intros Ek. rewrite Ek in Href. split.
    + intros E v. apply wp_call. by eapply set_value_exact.
    + intros sc ty args -> E Hty. eapply eq_call. by eapply as_type_exact.
Qed.

(** C13: [SelectToken] gives the token that its path selects.  Reading a path
    always ends, with steps or an error; every way of writing steps from the root
    that are not filters is read as those steps; and the call hands out a token
    for the node below the receiver whose tree is the only one that the steps,
    filters included, select in the receiver's tree.  None or several is a
    failure that changes nothing. *)
Theorem json_paths_exact base s recv k h p t : refers base s recv k h p -> denotes (nodes (arena s)) p t ->
  (forall steps text, path_text steps text -> parse_path (ch "$" :: text) = Some (Ok steps)) /\
  forall name path rest, to_ascii_lowercase name = lit "selecttoken" -> exists parsed, parse_path path = Some parsed /\
  call_gives recv name (VText path :: rest) (fun r s' =>
    match parsed with
    | Err e => r = Err (InvalidCall (into_message e)) /\ s' = with_writebacks [] s
    | Ok steps =>
        match tree_follow t [t] steps with
        | [u] => r = Ok (VBoolean true) /\ writebacks s' = [(1%nat, VJson {| kind := JToken; jhandle := Some (fresh s) |})] /\
            (exists c, targets (arena s') !! fresh s = Some c /\ reach (nodes (arena s)) p c /\ denotes (nodes (arena s)) c u) /\ unchanged s s'
        | _ => failed s r s'
        end
    end) s.
Proof.
  intros H Ht. split; [intros steps text; apply parse_path_text|]. intros name path rest E. destruct (parse_path_ends path) as [r Hr]. exists r. split; [done|].
  apply wp_call. eapply wp_mono; [|by eapply select_token_exact]. intros r' s'. unfold select_spec. rewrite Hr. by destruct r.
Qed.
End sessions.

#[local] Existing Instances mini_decimal ascii_unicode sample_libs sample_laws.

(** In a test that adds an object to itself and then to an array, the object
    still has no node twice; a further call adds the array to the object. *)
Lemma json_stays_a_forest_witness :
  json_run 0 in_array /\ one_holder (nodes (arena in_array)) /\ held_total in_array = 390 /\
  exists e s', dispatch_json_method (lit "o") (lit "Add") [VText (lit "up"); variable in_array "a"] true in_array = Some (e, s') /\
    forall id, is_Some (nodes (arena in_array) !! id) -> is_Some (nodes (arena s') !! id).
Proof.
  pose proof (json_stays_a_forest 0 in_array in_array_run) as (_ & _ & H1 & _ & _ & H2). split; [exact in_array_run|]. split; [exact H1|].
  destruct (H2 in_array_room) as [_ H3]. split; [by vm_compute|].
  destruct (H3 (lit "o") (lit "Add") [VText (lit "up"); variable in_array "a"] true) as (e & s' & He & _ & Hk).
  - constructor; [exact I|]. constructor; [exact (variable_known _ _ _ in_array_run)|constructor].
  - exists e, s'. split; [exact He|exact Hk].
Defined.


(** The only element is handed out as it is held; there is no second one. *)
Example an_array_read :
  refers 0 in_array (lit "a") JArray 6 7 /\
  (exists s' c, dispatch_json_method (lit "a") (lit "Get") [VInteger 0; VNull] false in_array = Some (Normal (VBoolean true), s') /\
    targets (arena s') !! fresh in_array = Some c /\ child (nodes (arena in_array)) 7 c /\ denotes (nodes (arena in_array)) c nested_tree) /\
  dispatch_json_method (lit "a") (lit "RemoveAt") [VInteger 1] false in_array = Some (Normal (VBoolean false), with_writebacks [] in_array).
Proof.
  destruct array_refers as [Hr Ha]. split; [exact Hr|]. pose proof (json_arrays_exact 0 in_array (lit "a") 6 7 _ Hr Ha) as Hm. split.
  - destruct (Hm (lit "Get") 0) as (_ & _ & _ & _ & Hget & _). destruct (Hget eq_refl [VNull]) as (r & s' & HQ & Hd).
    destruct HQ as (t & [= <-] & -> & _ & (c & Hc & Hch & Hden) & _). exists s', c. split; [exact (Hd false)|]. split; [exact Hc|]. by split.
  - destruct (Hm (lit "RemoveAt") 1) as (_ & _ & _ & Hrem & _). destruct (Hrem eq_refl) as (r & s' & HQ & Hd).
    destruct HQ as [[m ->] ->]. exact (Hd false).
Defined.

Lemma sample_levels : (3 <= max_levels)%nat.
Proof. apply Nat.leb_le. by vm_compute. Qed.

Definition quoted (s : string) : str := [34] ++ lit s ++ [34].

(** The text of the object with a copy of itself in it. *)
Lemma json_values_exact_witness :
  json_run 0 in_array /\ in_memory 0 in_array /\ exists s',
  dispatch_json_method (lit "o") (lit "WriteTo") [VText []] true in_array = Some (Normal (VBoolean true), s') /\
    writebacks s' = [(0%nat, VText (lit "{" ++ quoted "n" ++ lit ":7," ++ quoted "self" ++ lit ":{" ++ quoted "n" ++ lit ":7}}"))].
Proof.
  split; [exact in_array_run|]. split; [exact in_array_room|]. destruct object_refers as [Hr Ht].
  destruct (json_values_exact 0 in_array (lit "o") {| kind := JObject; jhandle := Some 1 |} in_array_run in_array_room (refers_lookup _ _ _ _ _ _ Hr))
    as (s1 & h & p & t & _ & Hd & Hv & [Hu _] & _ & Heq & Hm).
  assert (t = nested_tree) as ->.
  { unfold value_tree in Hv. rewrite (refers_target _ _ _ _ _ _ Hr) in Hv. exact (denotes_unique _ _ _ _ Hv Ht). }
  destruct (Hm (lit "WriteTo")) as (Hw & _). destruct (Hw eq_refl [VText []]) as (r & s' & HQ & Hc). exists s'.
  rewrite decide_True in HQ by exact sample_levels. destruct HQ as [-> ->]. split; [rewrite Heq; exact (Hc true)|reflexivity].
Defined.

(** The number below the copy. *)
Lemma json_paths_exact_witness :
  refers 0 in_array (lit "o") JObject 1 2 /\ exists s' c,
  dispatch_json_method (lit "o") (lit "SelectToken") [VText (lit "$.self['n']"); VNull] true in_array = Some (Normal (VBoolean true), s') /\
    targets (arena s') !! fresh in_array = Some c /\ reach (nodes (arena in_array)) 2 c /\ denotes (nodes (arena in_array)) c seven.
Proof.
  destruct object_refers as [Hr Ht]. split; [exact Hr|]. destruct (json_paths_exact 0 in_array (lit "o") JObject 1 2 _ Hr Ht) as [Hp Hm].
  assert (path_text [PMember (lit "self"); PMember (lit "n")] (lit ".self['n']")) as Htext.
  { apply (one_step (PMember (lit "self")) (lit ".self") _ (lit "['n']")).
    - apply dotted_name. split; [done|]. split; [|done]. repeat (constructor; [by vm_compute|]). constructor.
    - apply (one_step (PMember (lit "n")) (lit "['n']") [] []); [|constructor]. apply (quoted_name (lit "n")). by intros [[=]|[]%elem_of_nil]%elem_of_cons. }
  apply Hp in Htext. destruct (Hm (lit "SelectToken") (lit "$.self['n']") [VNull] eq_refl) as (parsed & Hparsed & r & s' & HQ & Hd).
  pose proof (eq_trans (eq_sym Htext) Hparsed) as E. injection E as <-. destruct HQ as (-> & _ & (c & Hc & Hreach & Hden) & _). exists s', c.
  split; [exact (Hd true)|by split_and!].
Defined.
