(* ===== verification/Coverages.v ===== *)
(** Dynamic coverage ([interpreter/coverage.rs]): the collector of executed
    lines and decisions, the merge of the collectors of several tests, the
    report, and the MC/DC of compound decisions.

    A [BTreeMap] is the sorted list of [OrdMap.v], and a [BTreeSet] one whose
    values are [tt].  Hit counts are [u64]s in the code and [Z]s here: none
    passes the number of events recorded (CoverageSpec). *)

From Stdlib Require Import ZArith Lia.
From stdpp Require Import base tactics numbers option list strings.
From S2P Require Import Prelude RustStr OrdMap.

#[local] Open Scope Z_scope.

(** * The collector *)

Definition Observation : Type := list bool * bool.
Definition observation_cmp : Observation -> Observation -> comparison :=
  lex_cmp (fun a b => list_cmp bool_cmp (fst a) (fst b)) (fun a b => bool_cmp (snd a) (snd b)).

Record BranchTally := {
  then_taken : Z;
  else_taken : Z;
  paths : list (str * Z);
  condition_observations : list (Observation * Z);
}.
Definition no_tally : BranchTally := {| then_taken := 0; else_taken := 0; paths := []; condition_observations := [] |}.

Record Coverage := {
  files : list (str * list (Z * unit));
  branches : list (str * list (Z * BranchTally));
  current_file : str;
}.
Definition new_coverage : Coverage := {| files := []; branches := []; current_file := [] |}.

(** [entry(key).or_insert(fresh)], then a change of the value. *)
Definition entry {K V} (cmp : K -> K -> comparison) (fresh : V) (change : V -> V) (key : K) (m : list (K * V)) : list (K * V) :=
  bt_insert cmp key (change (default fresh (bt_get cmp key m))) m.

Definition with_files (m : list (str * list (Z * unit))) (c : Coverage) : Coverage :=
  {| files := m; branches := branches c; current_file := current_file c |}.
Definition with_branches (m : list (str * list (Z * BranchTally))) (c : Coverage) : Coverage :=
  {| files := files c; branches := m; current_file := current_file c |}.

(** The file before, and the collector. *)
Definition set_current_file (file : str) (c : Coverage) : str * Coverage :=
  (current_file c, {| files := files c; branches := branches c; current_file := file |}).

Definition record_statement (line : Z) (c : Coverage) : Coverage :=
  match bt_get str_cmp (current_file c) (files c) with
  | Some set => with_files (bt_insert str_cmp (current_file c) (bt_insert Z.compare line tt set) (files c)) c
  | None => with_files (bt_insert str_cmp (current_file c) (bt_insert Z.compare line tt []) (files c)) c
  end.

(** [self.branches.entry(current).or_default().entry(line).or_default()]. *)
Definition at_branch (line : Z) (change : BranchTally -> BranchTally) (c : Coverage) : Coverage :=
  with_branches (entry str_cmp [] (entry Z.compare no_tally change line) (current_file c) (branches c)) c.

Definition add_taken (taken : bool) (n : Z) (t : BranchTally) : BranchTally :=
  if taken then {| then_taken := then_taken t + n; else_taken := else_taken t; paths := paths t; condition_observations := condition_observations t |}
  else {| then_taken := then_taken t; else_taken := else_taken t + n; paths := paths t; condition_observations := condition_observations t |}.
Definition add_path (path : str) (n : Z) (t : BranchTally) : BranchTally :=
  {| then_taken := then_taken t; else_taken := else_taken t; paths := entry str_cmp 0 (fun hits => hits + n) path (paths t);
     condition_observations := condition_observations t |}.
Definition add_observation (o : Observation) (n : Z) (t : BranchTally) : BranchTally :=
  {| then_taken := then_taken t; else_taken := else_taken t; paths := paths t;
     condition_observations := entry observation_cmp 0 (fun hits => hits + n) o (condition_observations t) |}.

Definition record_decision (line : Z) (taken : bool) (c : Coverage) : Coverage := at_branch line (add_taken taken 1) c.

Definition record_condition_observation (line : Z) (conditions : list bool) (outcome : bool) (c : Coverage) : Coverage :=
  match conditions with
  | [] => c
  | _ => at_branch line (add_observation (conditions, outcome) 1) c
  end.

Definition ensure_path (line : Z) (path : str) (c : Coverage) : Coverage := at_branch line (add_path path 0) c.
Definition record_path (line : Z) (path : str) (c : Coverage) : Coverage := at_branch line (add_path path 1) c.

Definition is_line_executed (file : str) (line : Z) (c : Coverage) : bool :=
  match bt_get str_cmp file (files c) with Some set => bt_contains Z.compare line set | None => false end.
Definition executed_lines (file : str) (c : Coverage) : option (list (Z * unit)) := bt_get str_cmp file (files c).
Definition branch (file : str) (line : Z) (c : Coverage) : option BranchTally :=
  per_file ← bt_get str_cmp file (branches c); bt_get Z.compare line per_file.
Definition coverage_is_empty (c : Coverage) : bool := match files c, branches c with [], [] => true | _, _ => false end.
Definition total_executed_lines (c : Coverage) : nat := sum_list_with (fun f => length (snd f)) (files c).

(** * Merging *)

Definition merge_lines (other dst : list (Z * unit)) : list (Z * unit) :=
  foldl (fun dst e => bt_insert Z.compare (fst e) tt dst) dst other.

Definition merge_tally (t agg : BranchTally) : BranchTally :=
  let agg := add_taken true (then_taken t) agg in
  let agg := add_taken false (else_taken t) agg in
  let agg := foldl (fun agg e => add_path (fst e) (snd e) agg) agg (paths t) in
  foldl (fun agg e => add_observation (fst e) (snd e) agg) agg (condition_observations t).

Definition merge_branches (other dst : list (Z * BranchTally)) : list (Z * BranchTally) :=
  foldl (fun dst e => entry Z.compare no_tally (merge_tally (snd e)) (fst e) dst) dst other.

Definition merge (other c : Coverage) : Coverage :=
  let c := with_files (foldl (fun m e => entry str_cmp [] (merge_lines (snd e)) (fst e) m) (files c) (files other)) c in
  with_branches (foldl (fun m e => entry str_cmp [] (merge_branches (snd e)) (fst e) m) (branches c) (branches other)) c.

(** * MC/DC *)

Record ConditionMcdcCoverage := { index : nat; covered : bool }.
Record ConditionObservationCoverage := { conditions : list bool; outcome : bool; hits : Z }.
Record McdcCoverage := { mcdc_conditions : list ConditionMcdcCoverage; observations : list ConditionObservationCoverage }.

Definition length_of (e : Observation * Z) : nat := length (fst (fst e)).

(** Two observations that differ in the condition alone, and in the outcome;
    [None] is an index that panics. *)
Definition shows (index : nat) (left right : Observation * Z) : option bool :=
  let '((left_values, left_outcome), _) := left in
  let '((right_values, right_outcome), _) := right in
  if Bool.eqb left_outcome right_outcome then Some false
  else
    a ← left_values !! index;
    b ← right_values !! index;
    Some (negb (Bool.eqb a b) &&
          forallb (fun e => (fst e =? index)%nat || Bool.eqb (fst (snd e)) (snd (snd e)))
            (imap pair (zip left_values right_values))).

(** [any] with a test that can panic. *)
Fixpoint any_of {A} (p : A -> option bool) (l : list A) : option bool :=
  match l with
  | [] => Some false
  | a :: l => b ← p a; if (b : bool) then Some true else any_of p l
  end.

Definition covered_by (compatible : list (Observation * Z)) (index : nat) : option bool :=
  any_of (fun e : nat * (Observation * Z) => any_of (shows index (snd e)) (drop (S (fst e)) compatible)) (imap pair compatible).

(** The outer [None] is a panic. *)
Definition mcdc_coverage (obs : list (Observation * Z)) : option (option McdcCoverage) :=
  let condition_count := foldr Nat.max 0%nat (length_of <$> obs) in
  if (condition_count <? 2)%nat then Some None
  else
    let compatible := List.filter (fun e => (length_of e =? condition_count)%nat) obs in
    conditions ← mapM (fun index => covered ← covered_by compatible index; Some {| index := index; covered := covered |}) (seq 0 condition_count);
    Some (Some {| mcdc_conditions := conditions;
                  observations := (fun e => {| conditions := fst (fst e); outcome := snd (fst e); hits := snd e |}) <$> compatible |}).

Definition covered_count (r : McdcCoverage) : nat := length (List.filter covered (mcdc_conditions r)).

Definition from_observations (obs : list ConditionObservationCoverage) : option (option McdcCoverage) :=
  mcdc_coverage (foldl (fun m o => entry observation_cmp 0 (fun n => n + hits o) (conditions o, outcome o) m) [] obs).

(** * The report *)

Record PathCoverage := { path : str; path_hits : Z }.
Record BranchCoverage := { branch_line : Z; branch_then : Z; branch_else : Z; branch_paths : list PathCoverage; mcdc : option McdcCoverage }.
Record FileCoverage := { file : str; file_lines : list Z; file_branches : list BranchCoverage }.
Definition DynamicCoverageReport : Type := list FileCoverage.

Definition branch_report (e : Z * BranchTally) : option BranchCoverage :=
  r ← mcdc_coverage (condition_observations (snd e));
  Some {| branch_line := fst e; branch_then := then_taken (snd e); branch_else := else_taken (snd e);
          branch_paths := (fun p => {| path := fst p; path_hits := snd p |}) <$> paths (snd e); mcdc := r |}.

Definition file_names (c : Coverage) : list str :=
  fst <$> foldl (fun names e => bt_insert str_cmp (fst e) tt names) ((fun e => (fst e, tt)) <$> files c) (branches c).

(** [None] is a panic. *)
Definition report (c : Coverage) : option DynamicCoverageReport :=
  mapM (fun name =>
    branches ← mapM branch_report (default [] (bt_get str_cmp name (branches c)));
    Some {| file := name; file_lines := fst <$> default [] (bt_get str_cmp name (files c)); file_branches := branches |}) (file_names c).

Definition report_is_empty (r : DynamicCoverageReport) : bool := match r with [] => true | _ => false end.
