(* ===== verification/CoverageSpec.v ===== *)
(** What the coverage collector of [Coverages.v] promises: whatever is recorded
    and merged, it counts exactly the events of each line, decision, path and
    observation, and its report shows them; the MC/DC of a decision is what its
    observations show. *)

From Stdlib Require Import ZArith Lia Sorting.Sorted.
From stdpp Require Import base tactics numbers option list strings.
From S2P Require Import Prelude RustStr OrdMap Coverages.

#[local] Open Scope Z_scope.

(** * Maps by lawful keys *)

Notation always := (fun _ => True).

(** A total order in which only equal keys compare [Eq]. *)
Class KeyOrder {K : Type} (cmp : K -> K -> comparison) : Prop := {
  key_total :: OrderOn always cmp;
  key_same : forall a b, cmp a b = Eq -> a = b;
}.

#[export] Instance str_keys : KeyOrder str_cmp.
Proof. split; [apply _|]. intros a b. apply str_cmp_eq. Qed.

#[export] Instance Z_keys : KeyOrder Z.compare.
Proof. split; [apply _|]. intros a b. apply Z.compare_eq. Qed.

Lemma bools_same a b : list_cmp bool_cmp a b = Eq -> a = b.
Proof.
  revert b. induction a as [|x a IH]; intros [|y b]; simpl; try done. unfold cmp_then.
  destruct (bool_cmp x y) eqn:E; try done. intros ->%IH. by destruct x, y.
Qed.

#[export] Instance observation_keys : KeyOrder observation_cmp.
Proof.
  split.
  - assert (OrderOn always (list_cmp bool_cmp)) as Hl.
    { destruct (list_order always bool_cmp) as [H1 H2]. split.
      - intros x y _ _. apply H1; by apply Forall_true.
      - intros c x y z _ _ _. apply H2; by apply Forall_true. }
    apply lex_order; [exact (preimage_order always fst (list_cmp bool_cmp))|exact (preimage_order always snd bool_cmp)].
  - intros [a x] [b y]. unfold observation_cmp, lex_cmp, cmp_then. cbn [fst snd]. destruct (list_cmp bool_cmp a b) eqn:E; try done.
    apply bools_same in E as ->. by destruct x, y.
Qed.

Section maps.
Context {K V : Type} (cmp : K -> K -> comparison) `{HK : !KeyOrder cmp} `{!EqDecision K}.
Implicit Types (m : list (K * V)) (k : K).

#[local] Notation wf := (bt_wf cmp always).

Lemma is_eq_same k k' : is_eq (cmp k' k) = bool_decide (k' = k).
Proof.
  case_bool_decide as E.
  - subst. by rewrite (order_refl (cmp:=cmp) (P:=always)).
  - destruct (cmp k' k) eqn:Ec; simpl; [by apply key_same in Ec|done|done].
Qed.

Lemma entry_wf fresh change k m : wf m -> wf (entry cmp fresh change k m).
Proof. intros H. apply (bt_insert_wf cmp always); [exact I|exact H]. Qed.

Lemma get_entry fresh change k m k' : wf m ->
  bt_get cmp k' (entry cmp fresh change k m) = if decide (k' = k) then Some (change (default fresh (bt_get cmp k m))) else bt_get cmp k' m.
Proof.
  intros H. unfold entry. rewrite (bt_get_insert cmp always); [|exact I|exact I|exact H]. rewrite is_eq_same.
  destruct (decide (k' = k)); [by rewrite bool_decide_eq_true_2|by rewrite bool_decide_eq_false_2].
Qed.

Lemma get_elem k v m : wf m -> bt_get cmp k m = Some v <-> (k, v) ∈ m.
Proof.
  intros H. split; [|by apply (bt_get_elem cmp always)]. intros (k' & E & Hin)%bt_elem_get. by apply key_same in E as ->.
Qed.

(** What a fold over the entries of another map leaves: each key of the other
    map is changed once, by its value. *)
Lemma fold_entries {W} (fresh : V) (change : W -> V -> V) (other : list (K * W)) m : bt_wf cmp always other -> wf m ->
  let r := foldl (fun m e => entry cmp fresh (change (snd e)) (fst e) m) m other in
  wf r /\ forall k, bt_get cmp k r = match bt_get cmp k other with
    | Some w => Some (change w (default fresh (bt_get cmp k m)))
    | None => bt_get cmp k m
    end.
Proof.
  intros Ho. revert m. induction other as [|[k0 w] other IH]; intros m Hm; [by split|]. cbn [foldl fst snd].
  apply bt_wf_cons in Ho as (_ & Hall & Ho). destruct (IH Ho (entry cmp fresh (change w) k0 m)) as [Hwf Hget]; [by apply entry_wf|].
  split; [exact Hwf|]. intros k. rewrite Hget, get_entry by done. cbn [bt_get].
  assert (bt_get cmp k0 other = None) as Hnone by (by apply (bt_get_above cmp)). destruct (decide (k = k0)) as [->|Hne].
  - by rewrite Hnone, (order_refl (cmp:=cmp) (P:=always)).
  - destruct (cmp k k0) eqn:E; [by apply key_same in E| |done].
    rewrite (bt_get_above cmp k other); [done|]. eapply Forall_impl; [exact Hall|]. intros x Hx. by eapply (order_trans (cmp:=cmp) (P:=always)).
Qed.
End maps.

(** * What is recorded *)

Inductive Event :=
  | Statement (line : Z)
  | Decision (line : Z) (taken : bool)
  | Conditions (line : Z) (conditions : list bool) (outcome : bool)
  | EnsurePath (line : Z) (path : str)
  | TakePath (line : Z) (path : str).

#[export] Instance Event_eq_dec : EqDecision Event.
Proof. solve_decision. Defined.

Definition record (e : Event) : Coverage -> Coverage :=
  match e with
  | Statement line => record_statement line
  | Decision line taken => record_decision line taken
  | Conditions line conditions outcome => record_condition_observation line conditions outcome
  | EnsurePath line path => ensure_path line path
  | TakePath line path => record_path line path
  end.

(** The events with the file each was recorded for. *)
Notation Log := (list (str * Event)).

(** What tests do with collectors: they record, change the file, and merge. *)
Inductive collected : Coverage -> Log -> Prop :=
  | collected_new : collected new_coverage []
  | collected_file c log file : collected c log -> collected (snd (set_current_file file c)) log
  | collected_event c log e : collected c log -> collected (record e c) (log ++ [(current_file c, e)])
  | collected_merge c log other log' : collected c log -> collected other log' -> collected (merge other c) (log ++ log').

(** The decision an event is of, if it is of one. *)
Definition site (e : Event) : option Z :=
  match e with
  | Statement _ => None
  | Decision line _ | EnsurePath line _ | TakePath line _ => Some line
  | Conditions line conditions _ => match conditions with [] => None | _ => Some line end
  end.

Definition count (e : str * Event) (log : Log) : Z := Z.of_nat (length (List.filter (fun x => bool_decide (x = e)) log)).
Definition observed (file : str) (line : Z) (o : Observation) (log : Log) : Z :=
  match fst o with [] => 0 | _ => count (file, Conditions line (fst o) (snd o)) log end.
Definition path_named (file : str) (line : Z) (path : str) (log : Log) : bool :=
  bool_decide ((file, EnsurePath line path) ∈ log) || bool_decide ((file, TakePath line path) ∈ log).

Lemma count_app e l l' : count e (l ++ l') = count e l + count e l'.
Proof. unfold count. rewrite List.filter_app, length_app. lia. Qed.

Lemma count_one e x : count e [x] = if decide (x = e) then 1 else 0.
Proof. unfold count. cbn [List.filter]. by case_decide as E; [rewrite bool_decide_eq_true_2|rewrite bool_decide_eq_false_2]. Qed.

Lemma count_nonneg e l : 0 <= count e l <= Z.of_nat (length l).
Proof. unfold count. pose proof (List.filter_length_le (fun x => bool_decide (x = e)) l). lia. Qed.

Lemma observed_app f n o l l' : observed f n o (l ++ l') = observed f n o l + observed f n o l'.
Proof. unfold observed. destruct (fst o); [lia|apply count_app]. Qed.

Lemma observed_nonneg f n o l : 0 <= observed f n o l <= Z.of_nat (length l).
Proof. unfold observed. destruct (fst o); [lia|apply count_nonneg]. Qed.

Lemma path_named_app f n p l l' : path_named f n p (l ++ l') = path_named f n p l || path_named f n p l'.
Proof. unfold path_named. apply eq_true_iff_eq. rewrite !orb_true_iff, !bool_decide_eq_true, !elem_of_app. tauto. Qed.

Lemma unnamed_count f n p l : path_named f n p l = false -> count (f, TakePath n p) l = 0.
Proof.
  unfold path_named, count. rewrite orb_false_iff, !bool_decide_eq_false. intros [_ H].
  assert (List.filter (fun x => bool_decide (x = (f, TakePath n p))) l = []) as ->; [|done].
  induction l as [|x l IH]; [done|]. cbn [List.filter]. rewrite bool_decide_eq_false_2; [|intros ->; apply H; left]. apply IH. intros Hin. apply H. by right.
Qed.

(** ** Tallies *)

Record tallies (f : str) (n : Z) (log : Log) (t : BranchTally) : Prop := {
  tallies_then : then_taken t = count (f, Decision n true) log;
  tallies_else : else_taken t = count (f, Decision n false) log;
  tallies_paths : bt_wf str_cmp always (paths t);
  tallies_observations : bt_wf observation_cmp always (condition_observations t);
  tallies_path p : bt_get str_cmp p (paths t) = if path_named f n p log then Some (count (f, TakePath n p) log) else None;
  tallies_observation o : bt_get observation_cmp o (condition_observations t) =
    if observed f n o log =? 0 then None else Some (observed f n o log);
}.

Lemma tallies_none f n : tallies f n [] no_tally.
Proof. split; try done; [apply bt_wf_nil|apply bt_wf_nil|]. intros o. unfold observed. by destruct (fst o). Qed.

Lemma add_paths ps t : let t' := foldl (fun t e => add_path (fst e) (snd e) t) t ps in
  then_taken t' = then_taken t /\ else_taken t' = else_taken t /\ condition_observations t' = condition_observations t /\
  paths t' = foldl (fun m e => entry str_cmp 0 (fun hits => hits + snd e) (fst e) m) (paths t) ps.
Proof.
  cbv zeta. revert t. induction ps as [|p ps IH]; intros t; [done|]. cbn [foldl].
  destruct (IH (add_path (fst p) (snd p) t)) as (H1 & H2 & H3 & H4). by rewrite H1, H2, H3, H4.
Qed.

Lemma add_observations os t : let t' := foldl (fun t e => add_observation (fst e) (snd e) t) t os in
  then_taken t' = then_taken t /\ else_taken t' = else_taken t /\ paths t' = paths t /\
  condition_observations t' = foldl (fun m e => entry observation_cmp 0 (fun hits => hits + snd e) (fst e) m) (condition_observations t) os.
Proof.
  cbv zeta. revert t. induction os as [|o os IH]; intros t; [done|]. cbn [foldl].
  destruct (IH (add_observation (fst o) (snd o) t)) as (H1 & H2 & H3 & H4). by rewrite H1, H2, H3, H4.
Qed.

(** Merging adds up. *)
Lemma merge_tallies f n log log' t t' : tallies f n log t -> tallies f n log' t' -> tallies f n (log ++ log') (merge_tally t' t).
Proof.
  intros [A1 A2 A3 A4 A5 A6] [B1 B2 B3 B4 B5 B6]. unfold merge_tally.
  set (t1 := add_taken false (else_taken t') (add_taken true (then_taken t') t)).
  destruct (add_observations (condition_observations t') (foldl (fun agg e => add_path (fst e) (snd e) agg) t1 (paths t'))) as (H1 & H2 & H3 & H4).
  destruct (add_paths (paths t') t1) as (P1 & P2 & P3 & P4).
  rewrite P1 in H1. rewrite P2 in H2. rewrite P4 in H3. rewrite P3 in H4.
  destruct (fold_entries str_cmp 0 (fun k hits => hits + k) (paths t') (paths t1) B3 A3) as [W1 G1].
  destruct (fold_entries observation_cmp 0 (fun k hits => hits + k) (condition_observations t') (condition_observations t1) B4 A4) as [W2 G2].
  split.
  - rewrite H1, count_app. subst t1. simpl. lia.
  - rewrite H2, count_app. subst t1. simpl. lia.
  - by rewrite H3.
  - by rewrite H4.
  - intros p. rewrite H3, G1, B5, path_named_app, count_app. change (paths t1) with (paths t). rewrite A5.
    destruct (path_named f n p log) eqn:E1, (path_named f n p log') eqn:E2; cbn [orb default]; rewrite ?(unnamed_count _ _ _ _ E1), ?(unnamed_count _ _ _ _ E2); try done; cbn; f_equal; lia.
  - intros o. rewrite H4, G2, B6, observed_app. change (condition_observations t1) with (condition_observations t). rewrite A6.
    pose proof (observed_nonneg f n o log). pose proof (observed_nonneg f n o log').
    destruct (Z.eqb_spec (observed f n o log) 0), (Z.eqb_spec (observed f n o log') 0), (Z.eqb_spec (observed f n o log + observed f n o log') 0); cbn; first [done|lia|f_equal; lia].
Qed.

(** An event of another decision changes nothing. *)
Lemma tallies_skip f n log t g e : tallies f n log t -> ~ (g = f /\ site e = Some n) -> tallies f n (log ++ [(g, e)]) t.
Proof.
  intros [A1 A2 A3 A4 A5 A6] Hne. assert (forall x, site x = Some n -> count (f, x) [(g, e)] = 0) as Hz.
  { intros x Hx. rewrite count_one. case_decide as E; [|done]. injection E as -> ->. by destruct Hne. }
  assert (forall x, site x = Some n -> bool_decide ((f, x) ∈ [(g, e)]) = false) as Hb.
  { intros x Hx. apply bool_decide_eq_false. intros [= -> ->]%list_elem_of_singleton. by apply Hne. }
  split; [..|by apply A4| |]; try done.
  - by rewrite count_app, Hz, Z.add_0_r.
  - by rewrite count_app, Hz, Z.add_0_r.
  - intros p. rewrite path_named_app, count_app, Hz, Z.add_0_r by done. unfold path_named at 2. rewrite !Hb by done. by rewrite orb_false_r.
  - intros o. rewrite observed_app. assert (observed f n o [(g, e)] = 0) as ->; [|by rewrite Z.add_0_r].
    unfold observed. destruct o as [[|c cs] out]; [done|]. by apply Hz.
Qed.

Definition change_of (e : Event) (t : BranchTally) : BranchTally :=
  match e with
  | Statement _ => t
  | Decision _ taken => add_taken taken 1 t
  | Conditions _ conditions outcome => add_observation (conditions, outcome) 1 t
  | EnsurePath _ path => add_path path 0 t
  | TakePath _ path => add_path path 1 t
  end.

Lemma count_snoc f x log e : count (f, x) (log ++ [(f, e)]) = count (f, x) log + if decide (e = x) then 1 else 0.
Proof. rewrite count_app, count_one. f_equal. by repeat case_decide; simplify_eq. Qed.

Lemma named_snoc f n p log e : path_named f n p (log ++ [(f, e)]) = path_named f n p log || bool_decide (e = EnsurePath n p \/ e = TakePath n p).
Proof.
  rewrite path_named_app. f_equal. unfold path_named. apply eq_true_iff_eq. rewrite orb_true_iff, !bool_decide_eq_true, !list_elem_of_singleton.
  split; [intros [[= <-]|[= <-]]; auto|intros [-> | ->]; auto].
Qed.

Lemma observed_snoc f n o log e : observed f n o (log ++ [(f, e)]) =
  observed f n o log + if decide (e = Conditions n (fst o) (snd o) /\ fst o <> []) then 1 else 0.
Proof.
  rewrite observed_app. f_equal. unfold observed. destruct o as [[|c cs] out]; cbn [fst snd].
  - rewrite decide_False; [done|]. by intros [_ []].
  - rewrite count_one. repeat case_decide; simplify_eq; try done. all: exfalso; naive_solver.
Qed.

Lemma tallies_path_event f n log t p k e : tallies f n log t -> (k = 0 /\ e = EnsurePath n p \/ k = 1 /\ e = TakePath n p) ->
  tallies f n (log ++ [(f, e)]) (add_path p k t).
Proof.
  intros [A1 A2 A3 A4 A5 A6] He. split; cbn [add_path then_taken else_taken paths condition_observations].
  - rewrite count_snoc, decide_False by (by destruct He as [[_ ->]|[_ ->]]). lia.
  - rewrite count_snoc, decide_False by (by destruct He as [[_ ->]|[_ ->]]). lia.
  - exact (entry_wf str_cmp _ _ _ _ A3).
  - done.
  - intros q. rewrite (get_entry str_cmp _ _ _ _ _ A3). rewrite named_snoc, count_snoc, !A5. destruct (decide (q = p)) as [->|Hq].
    + rewrite bool_decide_eq_true_2 by (destruct He as [[_ ->]|[_ ->]]; auto). rewrite orb_true_r. f_equal.
      destruct (path_named f n p log) eqn:E; cbn [default id from_option]; rewrite ?(unnamed_count _ _ _ _ E);
        (destruct He as [[-> ->]|[-> ->]]; [rewrite decide_False by done|rewrite decide_True by done]); lia.
    + rewrite bool_decide_eq_false_2 by (destruct He as [[_ ->]|[_ ->]]; intros [[= ]|[= ]]; congruence). rewrite orb_false_r.
      rewrite decide_False by (destruct He as [[_ ->]|[_ ->]]; congruence). by rewrite Z.add_0_r.
  - intros o. rewrite observed_snoc, decide_False, Z.add_0_r; [apply A6|]. by destruct He as [[_ ->]|[_ ->]]; intros [? _].
Qed.

(** An event of the decision is counted. *)
Lemma tallies_event f n log t e : tallies f n log t -> site e = Some n -> tallies f n (log ++ [(f, e)]) (change_of e t).
Proof.
  intros H Hs. pose proof H as [A1 A2 A3 A4 A5 A6].
  destruct e as [line|line taken|line cs out|line p|line p]; cbn [site change_of] in *; [done| | | |].
  - injection Hs as ->. assert (forall p, path_named f n p (log ++ [(f, Decision n taken)]) = path_named f n p log) as Hp.
    { intros p. rewrite named_snoc, bool_decide_eq_false_2; [apply orb_false_r|by intros [?|?]]. }
    assert (forall p, count (f, TakePath n p) (log ++ [(f, Decision n taken)]) = count (f, TakePath n p) log) as Hc.
    { intros p. rewrite count_snoc, decide_False by done. lia. }
    assert (forall o, observed f n o (log ++ [(f, Decision n taken)]) = observed f n o log) as Ho.
    { intros o. rewrite observed_snoc, decide_False by (by intros [? _]). lia. }
    destruct taken; (split; cbn [add_taken then_taken else_taken paths condition_observations];
      [rewrite count_snoc|rewrite count_snoc|exact A3|exact A4|intros p; rewrite Hp, Hc; apply A5|intros o; rewrite Ho; apply A6]).
    + rewrite decide_True by done. lia.
    + rewrite decide_False by done. lia.
    + rewrite decide_False by done. lia.
    + rewrite decide_True by done. lia.
  - assert (cs <> [] /\ line = n) as [Hcs ->] by (by destruct cs; simplify_eq).
    split; cbn [add_observation then_taken else_taken paths condition_observations]; [| |exact A3|exact (entry_wf observation_cmp _ _ _ _ A4)| |].
    + rewrite count_snoc, decide_False, Z.add_0_r by done. done.
    + rewrite count_snoc, decide_False, Z.add_0_r by done. done.
    + intros p. rewrite named_snoc, count_snoc, bool_decide_eq_false_2, orb_false_r, decide_False, Z.add_0_r by (done || by intros [?|?]). apply A5.
    + intros o. rewrite (get_entry observation_cmp _ _ _ _ _ A4). rewrite observed_snoc, !A6. pose proof (observed_nonneg f n o log) as Hn.
      destruct (decide (o = (cs, out))) as [->|Ho]; cbn [fst snd].
      * rewrite decide_True by done. pose proof (observed_nonneg f n (cs, out) log).
        destruct (Z.eqb_spec (observed f n (cs, out) log + 1) 0); [lia|]. by destruct (Z.eqb_spec (observed f n (cs, out) log) 0) as [->|].
      * rewrite decide_False by (intros [E _]; apply Ho; injection E as E1 E2; destruct o; cbn [fst snd] in *; by subst). by rewrite Z.add_0_r.
  - injection Hs as ->. apply tallies_path_event; [done|by left].
  - injection Hs as ->. apply tallies_path_event; [done|by right].
Qed.

(** ** Collectors *)

Record counts (c : Coverage) (log : Log) : Prop := {
  counts_files : bt_wf str_cmp always (files c);
  counts_sets f s : bt_get str_cmp f (files c) = Some s -> bt_wf Z.compare always s /\ s <> [];
  counts_branches : bt_wf str_cmp always (branches c);
  counts_lines f m : bt_get str_cmp f (branches c) = Some m -> bt_wf Z.compare always m /\ m <> [];
  counts_executed f n : is_line_executed f n c = true <-> (f, Statement n) ∈ log;
  counts_tally f n : tallies f n log (default no_tally (branch f n c));
  counts_site f n : is_Some (branch f n c) <-> exists e, (f, e) ∈ log /\ site e = Some n;
}.

Lemma counts_new : counts new_coverage [].
Proof.
  split; try done; [apply bt_wf_nil|apply bt_wf_nil| | |].
  - intros f n. split; [done|by intros []%elem_of_nil].
  - intros f n. apply tallies_none.
  - intros f n. split; [by intros [? ?]|by intros (e & []%elem_of_nil & _)].
Qed.

Lemma entry_not_nil {K V} (cmp : K -> K -> comparison) (fresh : V) change k m : entry cmp fresh change k m <> [].
Proof. unfold entry. destruct m as [|[k' v'] m]; simpl; [done|]. by destruct (cmp k k'). Qed.

Lemma default_wf (f : str) {V} (m : list (str * list (Z * V))) :
  (forall g s, bt_get str_cmp g m = Some s -> bt_wf Z.compare always s /\ s <> []) -> bt_wf Z.compare always (default [] (bt_get str_cmp f m)).
Proof. intros H. destruct (bt_get str_cmp f m) as [s|] eqn:E; [by apply (H f)|apply bt_wf_nil]. Qed.

Lemma record_statement_entry line c :
  files (record_statement line c) = entry str_cmp [] (entry Z.compare tt (fun _ => tt) line) (current_file c) (files c) /\
  branches (record_statement line c) = branches c.
Proof. unfold record_statement, entry. by destruct (bt_get str_cmp (current_file c) (files c)). Qed.

Lemma counts_statement c log line : counts c log -> counts (record_statement line c) (log ++ [(current_file c, Statement line)]).
Proof.
  intros [A1 A2 A3 A4 A5 A6 A7]. destruct (record_statement_entry line c) as [Ef Eb].
  assert (forall f, bt_get str_cmp f (files (record_statement line c)) = if decide (f = current_file c)
    then Some (entry Z.compare tt (fun _ => tt) line (default [] (bt_get str_cmp (current_file c) (files c)))) else bt_get str_cmp f (files c)) as Hget.
  { intros f. rewrite Ef. exact (get_entry str_cmp _ _ _ _ _ A1). }
  split; rewrite ?Eb; unfold branch; rewrite ?Eb; try done.
  - rewrite Ef. exact (entry_wf str_cmp _ _ _ _ A1).
  - intros f s. rewrite Hget. case_decide; [|apply A2]. intros [= <-]. split; [|apply entry_not_nil].
    exact (entry_wf Z.compare _ _ _ _ (default_wf _ _ A2)).
  - intros f n. unfold is_line_executed. rewrite Hget, elem_of_app, list_elem_of_singleton, <- A5. unfold is_line_executed, bt_contains. case_decide as E.
    + subst f. rewrite (get_entry Z.compare _ _ _ _ _ (default_wf _ _ A2)). destruct (decide (n = line)) as [->|Hn].
      * split; [by right|done].
      * destruct (bt_get str_cmp (current_file c) (files c)) as [s|]; cbn [default id from_option bt_get].
        -- split; [by left|]. by intros [?|[= ?]].
        -- split; [done|]. by intros [?|[= ?]].
    + split; [by left|]. by intros [?|[= ? ?]].
  - intros f n. apply tallies_skip; [apply A6|by intros [_ ?]].
  - intros f n. fold (branch f n c). rewrite A7. split; intros (e & He & Hs); exists e; (split; [|done]).
    + apply elem_of_app. by left.
    + apply elem_of_app in He as [He|[= -> ->]%list_elem_of_singleton]; done.
Qed.

Lemma at_branch_get line change c f n : bt_wf str_cmp always (branches c) ->
  (forall g m, bt_get str_cmp g (branches c) = Some m -> bt_wf Z.compare always m /\ m <> []) ->
  branch f n (at_branch line change c) =
    if decide (f = current_file c /\ n = line) then Some (change (default no_tally (branch f n c))) else branch f n c.
Proof.
  intros H1 H2. unfold branch, at_branch. cbn [with_branches branches]. rewrite (get_entry str_cmp _ _ _ _ _ H1).
  destruct (decide (f = current_file c)) as [->|Hf]; [|by rewrite decide_False by (by intros [? _])].
  cbn [mbind option_bind]. rewrite (get_entry Z.compare _ _ _ _ _ (default_wf _ _ H2)).
  assert (bt_get Z.compare n (default [] (bt_get str_cmp (current_file c) (branches c))) =
    (per_file ← bt_get str_cmp (current_file c) (branches c); bt_get Z.compare n per_file)) as Hd by (by destruct (bt_get str_cmp _ _)).
  destruct (decide (n = line)) as [->|Hn]; [rewrite decide_True by done; by rewrite Hd|rewrite decide_False by (by intros [_ ?]); exact Hd].
Qed.

Lemma counts_branch_event c log e line : counts c log -> site e = Some line ->
  counts (at_branch line (change_of e) c) (log ++ [(current_file c, e)]).
Proof.
  intros [A1 A2 A3 A4 A5 A6 A7] Hs. pose proof (fun f n => at_branch_get line (change_of e) c f n A3 A4) as Hget. split; try done.
  - exact (entry_wf str_cmp _ _ _ _ A3).
  - intros f m. unfold at_branch. cbn [with_branches branches]. rewrite (get_entry str_cmp _ _ _ _ _ A3). case_decide; [|apply A4].
    intros [= <-]. split; [|apply entry_not_nil]. exact (entry_wf Z.compare _ _ _ _ (default_wf _ _ A4)).
  - intros f n. unfold at_branch. change (is_line_executed f n (with_branches _ c)) with (is_line_executed f n c). rewrite A5, elem_of_app, list_elem_of_singleton.
    split; [by left|]. intros [?|[= -> <-]]; [done|by simpl in Hs].
  - intros f n. rewrite Hget. destruct (decide _) as [[-> ->]|Hne]; [by apply tallies_event|]. apply tallies_skip; [apply A6|].
    intros [<- Hn]. apply Hne. split; congruence.
  - intros f n. rewrite Hget. destruct (decide _) as [[-> ->]|Hne].
    + split; [|by intros _]. intros _. exists e. split; [apply elem_of_app; right; by left|done].
    + rewrite A7. split; intros (x & Hx & Hsx); exists x; (split; [|done]); [apply elem_of_app; by left|].
      apply elem_of_app in Hx as [?|[= -> ->]%list_elem_of_singleton]; [done|]. exfalso. apply Hne. split; congruence.
Qed.

Lemma counts_ignored c log cs out line : counts c log -> cs = [] -> counts c (log ++ [(current_file c, Conditions line cs out)]).
Proof.
  intros [A1 A2 A3 A4 A5 A6 A7] ->. split; try done.
  - intros f n. rewrite A5, elem_of_app, list_elem_of_singleton. split; [by left|by intros [?|[=]]].
  - intros f n. apply tallies_skip; [apply A6|by intros [_ ?]].
  - intros f n. rewrite A7. split; intros (x & Hx & Hsx); exists x; (split; [|done]); [apply elem_of_app; by left|].
    apply elem_of_app in Hx as [?|[= -> ->]%list_elem_of_singleton]; [done|by simpl in Hsx].
Qed.

Lemma counts_event c log e : counts c log -> counts (record e c) (log ++ [(current_file c, e)]).
Proof.
  intros H. destruct e as [line|line taken|line cs out|line p|line p]; cbn [record].
  - by apply counts_statement.
  - by apply (counts_branch_event c log (Decision line taken)).
  - destruct cs as [|b cs]; [by apply counts_ignored|]. by apply (counts_branch_event c log (Conditions line (b :: cs) out)).
  - by apply (counts_branch_event c log (EnsurePath line p)).
  - by apply (counts_branch_event c log (TakePath line p)).
Qed.

(** ** Merging *)

Lemma merge_lines_spec other dst : bt_wf Z.compare always other -> bt_wf Z.compare always dst ->
  bt_wf Z.compare always (merge_lines other dst) /\
  forall n, bt_contains Z.compare n (merge_lines other dst) = bt_contains Z.compare n other || bt_contains Z.compare n dst.
Proof.
  intros Ho Hd. destruct (fold_entries Z.compare tt (fun _ _ => tt) other dst Ho Hd) as [H1 H2]. split; [exact H1|].
  intros n. unfold bt_contains. specialize (H2 n). change (foldl _ dst other) with (merge_lines other dst) in H2. rewrite H2.
  by destruct (bt_get Z.compare n other).
Qed.

Lemma merge_branches_spec other dst : bt_wf Z.compare always other -> bt_wf Z.compare always dst ->
  bt_wf Z.compare always (merge_branches other dst) /\
  forall n, bt_get Z.compare n (merge_branches other dst) = match bt_get Z.compare n other with
    | Some t => Some (merge_tally t (default no_tally (bt_get Z.compare n dst)))
    | None => bt_get Z.compare n dst
    end.
Proof. intros Ho Hd. exact (fold_entries Z.compare no_tally merge_tally other dst Ho Hd). Qed.

Lemma merge_get c other log log' : counts c log -> counts other log' ->
  (forall f, bt_get str_cmp f (files (merge other c)) = match bt_get str_cmp f (files other) with
    | Some s => Some (merge_lines s (default [] (bt_get str_cmp f (files c)))) | None => bt_get str_cmp f (files c) end) /\
  bt_wf str_cmp always (files (merge other c)) /\
  (forall f, bt_get str_cmp f (branches (merge other c)) = match bt_get str_cmp f (branches other) with
    | Some m => Some (merge_branches m (default [] (bt_get str_cmp f (branches c)))) | None => bt_get str_cmp f (branches c) end) /\
  bt_wf str_cmp always (branches (merge other c)).
Proof.
  intros [A1 A2 A3 A4 _ _ _] [B1 B2 B3 B4 _ _ _]. destruct (fold_entries str_cmp [] merge_lines (files other) (files c) B1 A1) as [H1 H2].
  destruct (fold_entries str_cmp [] merge_branches (branches other) (branches c) B3 A3) as [H3 H4]. by split_and!.
Qed.

Lemma entry_fold_nil {K V W} (cmp : K -> K -> comparison) (fresh : V) (change : W -> V -> V) (other : list (K * W)) m :
  other <> [] \/ m <> [] -> foldl (fun m e => entry cmp fresh (change (snd e)) (fst e) m) m other <> [].
Proof.
  revert m. induction other as [|e other IH]; intros m; [by intros [?|?]|]. intros _. cbn [foldl]. apply IH. right. apply entry_not_nil.
Qed.

Lemma merge_nothing t : merge_tally no_tally t = t.
Proof. destruct t as [a b ps os]. unfold merge_tally, add_taken. cbn. f_equal; lia. Qed.

Lemma counts_merge c log other log' : counts c log -> counts other log' -> counts (merge other c) (log ++ log').
Proof.
  intros A B. destruct (merge_get c other log log' A B) as (F1 & F2 & B1 & B2). pose proof A as [A1 A2 A3 A4 A5 A6 A7]. pose proof B as [C1 C2 C3 C4 C5 C6 C7].
  assert (forall f n, branch f n (merge other c) = match branch f n other with
    | Some t => Some (merge_tally t (default no_tally (branch f n c))) | None => branch f n c end) as Hbr.
  { intros f n. unfold branch. rewrite B1. destruct (bt_get str_cmp f (branches other)) as [m|] eqn:Em; [|done]. cbn [mbind option_bind].
    destruct (merge_branches_spec m (default [] (bt_get str_cmp f (branches c)))) as [_ ->]; [by apply (C4 f)|by apply default_wf|].
    by destruct (bt_get str_cmp f (branches c)). }
  split; try done.
  - intros f s. rewrite F1. destruct (bt_get str_cmp f (files other)) as [s'|] eqn:Es; [|apply A2]. intros [= <-]. destruct (C2 f s' Es) as [W N].
    split; [apply merge_lines_spec; [done|by apply default_wf]|]. apply (entry_fold_nil Z.compare tt (fun _ _ => tt)). by left.
  - intros f m. rewrite B1. destruct (bt_get str_cmp f (branches other)) as [m'|] eqn:Em; [|apply A4]. intros [= <-]. destruct (C4 f m' Em) as [W N].
    split; [apply merge_branches_spec; [done|by apply default_wf]|]. apply (entry_fold_nil Z.compare no_tally merge_tally). by left.
  - intros f n. rewrite elem_of_app, <- A5, <- C5. unfold is_line_executed. rewrite F1. destruct (bt_get str_cmp f (files other)) as [s|] eqn:Es.
    + destruct (merge_lines_spec s (default [] (bt_get str_cmp f (files c)))) as [_ ->]; [by apply (C2 f)|by apply default_wf|]. rewrite orb_true_iff.
      destruct (bt_get str_cmp f (files c)); cbn [default id from_option]; tauto.
    + destruct (bt_get str_cmp f (files c)); naive_solver.
  - intros f n. rewrite Hbr. specialize (A6 f n). specialize (C6 f n). destruct (branch f n other) as [t|]; cbn [default id from_option] in *.
    + by apply merge_tallies.
    + apply (merge_tallies f n log log' _ no_tally A6) in C6. by rewrite merge_nothing in C6.
  - intros f n. rewrite Hbr. transitivity (is_Some (branch f n other) \/ is_Some (branch f n c)).
    + destruct (branch f n other); [split; [by left|by intros _]|]. split; [by right|by intros [[? [=]]|?]].
    + rewrite A7, C7. setoid_rewrite elem_of_app. naive_solver.
Qed.

Lemma collected_counts c log : collected c log -> counts c log.
Proof.
  induction 1 as [|c log file _ IH|c log e _ IH|c log other log' _ IH1 _ IH2]; [apply counts_new| |by apply counts_event|by apply counts_merge].
  destruct IH. by split.
Qed.

(** * MC/DC *)

Lemma any_of_spec {A} (p : A -> option bool) (R : A -> Prop) l : (forall a, a ∈ l -> exists b, p a = Some b /\ (b = true <-> R a)) ->
  exists b, any_of p l = Some b /\ (b = true <-> exists a, a ∈ l /\ R a).
Proof.
  induction l as [|a l IH]; intros H; [exists false; split; [done|]; split; [done|by intros (a & []%elem_of_nil & _)]|]. cbn [any_of].
  destruct (H a) as (b & -> & Hb); [left|]. cbn [mbind option_bind]. destruct b.
  - exists true. split; [done|]. split; [|done]. intros _. exists a. split; [left|by apply Hb].
  - destruct IH as (b & Hany & Hs); [intros x Hx; apply H; by right|]. exists b. split; [done|]. rewrite Hs. split; intros (x & Hx & Hr).
    + exists x. split; [by right|done].
    + apply elem_of_cons in Hx as [->|Hx]; [by apply Hb in Hr|by exists x].
Qed.

(** Two observations of [n] conditions that differ in the one at [i] alone, and
    in the outcome. *)
Definition flips (n i : nat) (l r : Observation) : Prop :=
  snd l <> snd r /\ forall j, (j < n)%nat -> fst l !! j = fst r !! j <-> j <> i.

Lemma flips_sym n i l r : flips n i l r -> flips n i r l.
Proof. intros [H1 H2]. split; [done|]. intros j Hj. rewrite <- (H2 j Hj). by split. Qed.

Lemma shows_spec n i (l r : Observation * Z) : length_of l = n -> length_of r = n -> (i < n)%nat ->
  exists b, shows i l r = Some b /\ (b = true <-> flips n i (fst l) (fst r)).
Proof.
  destruct l as [[ls lo] lh], r as [[rs ro] rh]. unfold length_of, shows, flips. cbn [fst snd]. intros Hl Hr Hi.
  destruct (Bool.eqb lo ro) eqn:Eo; [exists false; split; [done|]; split; [done|by intros [? _]; apply Bool.eqb_prop in Eo]|].
  apply Bool.eqb_false_iff in Eo. destruct (lookup_lt_is_Some_2 ls i) as [a Ha]; [lia|]. destruct (lookup_lt_is_Some_2 rs i) as [b Hb]; [lia|].
  rewrite Ha, Hb. cbn [mbind option_bind]. eexists. split; [done|]. rewrite andb_true_iff, negb_true_iff, Bool.eqb_false_iff, forallb_forall. split.
  - intros [Hne Hall]. split; [done|]. intros j Hj. destruct (lookup_lt_is_Some_2 ls j) as [x Hx]; [lia|]. destruct (lookup_lt_is_Some_2 rs j) as [y Hy]; [lia|].
    rewrite Hx, Hy. specialize (Hall (j, (x, y))). cbn [fst snd] in Hall. assert (In (j, (x, y)) (imap pair (zip ls rs))) as Hin.
    { apply list_elem_of_In, list_elem_of_lookup. exists j. rewrite list_lookup_imap, lookup_zip_with, Hx, Hy. done. }
    apply Hall, orb_true_iff in Hin. clear Hall. rewrite Nat.eqb_eq in Hin. split.
    + intros [= ->] ->. rewrite Ha in Hx. rewrite Hb in Hy. congruence.
    + intros Hj'. destruct Hin as [?|E]; [done|]. by apply Bool.eqb_prop in E as ->.
  - intros [_ H]. split.
    + intros ->. apply (H i Hi); [by rewrite Ha, Hb|done].
    + intros [j [x y]] Hin. apply list_elem_of_In, list_elem_of_lookup in Hin as [k Hk]. rewrite list_lookup_imap, lookup_zip_with in Hk.
      destruct (ls !! k) as [x'|] eqn:Hx; [|done]. destruct (rs !! k) as [y'|] eqn:Hy; [|done]. cbn in Hk. injection Hk as <- <- <-. cbn [fst snd].
      apply orb_true_iff. rewrite Nat.eqb_eq. destruct (decide (k = i)) as [->|Hk]; [by left|right]. apply Bool.eqb_true_iff.
      apply (H k) in Hk; [congruence|]. apply lookup_lt_Some in Hx. lia.
Qed.

Lemma covered_by_spec n compatible i : Forall (fun e => length_of e = n) compatible -> (i < n)%nat ->
  exists b, covered_by compatible i = Some b /\ (b = true <-> exists x y, x ∈ compatible /\ y ∈ compatible /\ flips n i (fst x) (fst y)).
Proof.
  intros Hall Hi. rewrite Forall_forall in Hall.
  destruct (any_of_spec (fun e : nat * (Observation * Z) => any_of (shows i (snd e)) (drop (S (fst e)) compatible))
    (fun e => exists y, y ∈ drop (S (fst e)) compatible /\ flips n i (fst (snd e)) (fst y)) (imap pair compatible)) as (b & Hb & Hs).
  - intros [k e] Hin. apply list_elem_of_lookup in Hin as [k' Hk]. rewrite list_lookup_imap in Hk. apply fmap_Some in Hk as (e' & He & [= -> ->]).
    cbn [fst snd]. apply any_of_spec. intros y Hy. apply shows_spec; [apply Hall; by eapply list_elem_of_lookup_2| |done]. apply Hall.
    rewrite <- (take_drop (S k') compatible). apply elem_of_app. by right.
  - exists b. split; [exact Hb|]. rewrite Hs. clear Hb Hs b. split.
    + intros ([k e] & Hin & y & Hy & Hf). cbn [fst snd] in *. apply list_elem_of_lookup in Hin as [k' Hk]. rewrite list_lookup_imap in Hk.
      apply fmap_Some in Hk as (e' & He & [= -> ->]). exists e', y. split; [by eapply list_elem_of_lookup_2|]. split; [|done].
      rewrite <- (take_drop (S k') compatible). apply elem_of_app. by right.
    + assert (forall x y j k, compatible !! j = Some x -> compatible !! k = Some y -> (j < k)%nat -> flips n i (fst x) (fst y) ->
        exists a, a ∈ imap pair compatible /\ exists z, z ∈ drop (S (fst a)) compatible /\ flips n i (fst (snd a)) (fst z)) as Hlt.
      { intros x y j k Hj Hk Hjk Hf. exists (j, x). split; [apply list_elem_of_lookup; exists j; by rewrite list_lookup_imap, Hj|]. exists y. split; [|done].
        apply list_elem_of_lookup. exists (k - S j)%nat. rewrite lookup_drop. by replace (S (fst (j, x)) + (k - S j))%nat with k by (simpl; lia). }
      intros (x & y & [j Hj]%list_elem_of_lookup & [k Hk]%list_elem_of_lookup & Hf). destruct (Nat.lt_trichotomy j k) as [L|[->|L]].
      * exact (Hlt x y j k Hj Hk L Hf).
      * exfalso. rewrite Hj in Hk. injection Hk as ->. by destruct Hf.
      * exact (Hlt y x k j Hk Hj L (flips_sym _ _ _ _ Hf)).
Qed.

Lemma longest_bound l : Forall (fun k => (k <= foldr Nat.max 0 l)%nat) l /\ (foldr Nat.max 0%nat l <> 0%nat -> foldr Nat.max 0%nat l ∈ l).
Proof.
  induction l as [|k l [IH1 IH2]]; [by split|]. cbn [foldr]. split.
  - constructor; [apply Nat.le_max_l|]. eapply Forall_impl; [exact IH1|]. intros x Hx. exact (Nat.le_trans _ _ _ Hx (Nat.le_max_r _ _)).
  - intros Hk. destruct (Nat.max_spec k (foldr Nat.max 0%nat l)) as [[Hlt ->]|[_ ->]]; [|left]. right. apply IH2. lia.
Qed.

(** The conditions that [mcdc_coverage] reports. *)
Definition mcdc_shows (obs : list (Observation * Z)) (r : option McdcCoverage) : Prop :=
  match r with
  | None => forall e, e ∈ obs -> (length_of e < 2)%nat
  | Some m => exists n, (2 <= n)%nat /\ (forall e, e ∈ obs -> (length_of e <= n)%nat) /\ (exists e, e ∈ obs /\ length_of e = n) /\
      index <$> mcdc_conditions m = seq 0 n /\
      (forall i, {| index := i; covered := true |} ∈ mcdc_conditions m <->
         (i < n)%nat /\ exists x y, x ∈ obs /\ y ∈ obs /\ length_of x = n /\ length_of y = n /\ flips n i (fst x) (fst y)) /\
      (forall o h, {| conditions := fst o; outcome := snd o; hits := h |} ∈ observations m <-> (o, h) ∈ obs /\ length (fst o) = n)
  end.

Lemma mapM_total {A B} (f : A -> option B) (R : A -> B -> Prop) l : (forall a, a ∈ l -> exists b, f a = Some b /\ R a b) ->
  exists bs, mapM f l = Some bs /\ Forall2 R l bs.
Proof.
  induction l as [|a l IH]; intros H; [by exists []|]. destruct (H a) as (b & Hb & Hr); [left|]. destruct IH as (bs & Hbs & Hrs); [intros x Hx; apply H; by right|].
  exists (b :: bs). split; [|by constructor]. cbn. rewrite Hb. cbn. by rewrite Hbs.
Qed.

Lemma mcdc_coverage_exact obs : exists r, mcdc_coverage obs = Some r /\ mcdc_shows obs r.
Proof.
  unfold mcdc_coverage. set (n := foldr Nat.max 0%nat (length_of <$> obs)). destruct (longest_bound (length_of <$> obs)) as [Hle Hin]. fold n in Hle, Hin.
  rewrite Forall_fmap, Forall_forall in Hle. destruct (Nat.ltb_spec n 2) as [Hn|Hn].
  - exists None. split; [done|]. intros e He. specialize (Hle e He). simpl in Hle. lia.
  - set (compatible := List.filter _ obs). assert (forall e, e ∈ compatible <-> e ∈ obs /\ length_of e = n) as Hc.
    { intros e. subst compatible. rewrite list_elem_of_In, filter_In, Nat.eqb_eq, <- list_elem_of_In. done. }
    destruct (mapM_total (fun index => covered ← covered_by compatible index; Some {| index := index; covered := covered |})
      (fun i b => index b = i /\ (covered b = true <-> exists x y, x ∈ compatible /\ y ∈ compatible /\ flips n i (fst x) (fst y))) (seq 0 n)) as (cs & -> & Hcs).
    + intros i Hi. apply elem_of_seq in Hi. destruct (covered_by_spec n compatible i) as (b & -> & Hb); [apply Forall_forall; intros e He; by apply Hc|lia|].
      by exists {| index := i; covered := b |}.
    + eexists. split; [done|]. exists n. split; [exact Hn|]. split; [exact Hle|]. split.
      { destruct (list_elem_of_fmap length_of obs n) as [H _]. destruct H as (e & -> & He); [apply Hin; lia|]. by exists e. }
      cbn [mcdc_conditions observations]. split; [clear -Hcs; induction Hcs as [|i b l bs [<- _] _ IH]; [done|]; rewrite fmap_cons; by f_equal|]. split.
      * intros i. split.
        -- intros [j Hj]%list_elem_of_lookup. destruct (Forall2_lookup_r _ _ _ _ _ Hcs Hj) as (i' & Hi' & <- & Hcov). cbn [index covered] in *.
           apply lookup_seq in Hi' as [-> Hlt]. split; [exact Hlt|]. destruct (proj1 Hcov eq_refl) as (x & y & [? ?]%Hc & [? ?]%Hc & ?). by exists x, y.
        -- intros (Hi & x & y & Hx & Hy & Lx & Ly & Hf). assert (seq 0 n !! i = Some i) as Hseq by (by apply lookup_seq).
           destruct (Forall2_lookup_l _ _ _ _ _ Hcs Hseq) as (b & Hb & <- & Hcov). apply list_elem_of_lookup. exists (index b). rewrite Hb.
           destruct b as [k [|]]; [done|]. exfalso. assert (false = true); [|done]. apply Hcov. exists x, y. rewrite !Hc. done.
      * intros [os oc] h. cbn [fst snd]. rewrite list_elem_of_fmap. split.
        -- intros ([[xs xo] xh] & [= -> -> ->] & [? ?]%Hc). done.
        -- intros [Hin' Hlen]. exists ((os, oc), h). split; [done|]. by apply Hc.
Qed.

(** * Recalculating *)

Lemma entry_end {K V} (cmp : K -> K -> comparison) `{!KeyOrder cmp} (fresh : V) change k m : Forall (fun e => key_lt cmp (fst e) k) m ->
  entry cmp fresh change k m = m ++ [(k, change fresh)].
Proof.
  intros H. unfold entry. assert (forall v, bt_get cmp k m = None /\ bt_insert cmp k v m = m ++ [(k, v)]) as E.
  { intros v. induction H as [|[k' v'] m Hk _ [IH1 IH2]]; [done|]. unfold key_lt in Hk. cbn [fst] in Hk.
    assert (cmp k k' = Gt) as E by (rewrite (order_antisym (cmp:=cmp) (P:=always) k' k) by done; by rewrite Hk). simpl. rewrite E, IH1, IH2. done. }
  destruct (E (change fresh)) as [E1 E2]. by rewrite E1.
Qed.

Lemma rebuilt {K} (cmp : K -> K -> comparison) `{!KeyOrder cmp} (m done : list (K * Z)) : bt_wf cmp always (done ++ m) ->
  foldl (fun m e => entry cmp 0 (fun hits => hits + snd e) (fst e) m) done m = done ++ m.
Proof.
  revert done. induction m as [|[k h] m IH]; intros before H; [by rewrite app_nil_r|]. cbn [foldl fst snd].
  assert (Forall (fun e => key_lt cmp (fst e) k) before) as Hends.
  { destruct H as [H _]. unfold bt_keys in H. rewrite fmap_app in H. apply Forall_forall. intros e He.
    eapply (sorting.StronglySorted_app_1_elem_of (key_lt cmp)); [exact H| |left]. apply list_elem_of_fmap. by exists e. }
  rewrite (entry_end cmp _ _ _ _ Hends). change (0 + h) with h. rewrite IH, <- app_assoc; [done|]. by rewrite <- app_assoc.
Qed.

Lemma mcdc_compatible obs r : mcdc_coverage obs = Some (Some r) -> exists n,
  (fun o => ((conditions o, outcome o), hits o)) <$> observations r = List.filter (fun e => (length_of e =? n)%nat) obs /\
  mcdc_coverage (List.filter (fun e => (length_of e =? n)%nat) obs) = Some (Some r).
Proof.
  unfold mcdc_coverage at 1. destruct (longest_bound (length_of <$> obs)) as [Hle Hin]. set (n := foldr Nat.max 0%nat (length_of <$> obs)) in *.
  destruct (Nat.ltb_spec n 2) as [|Hn]; [done|]. set (compatible := List.filter _ obs). intros H. exists n. split.
  - destruct (mapM _ (seq 0 n)) as [cs|]; [|done]. injection H as <-. cbn [observations]. rewrite <- list_fmap_compose. etransitivity; [|apply list_fmap_id].
    apply list_fmap_ext. by intros _ [[os out] h] _.
  - fold compatible. unfold mcdc_coverage. assert (Forall (fun e => length_of e = n) compatible) as Hall.
    { apply Forall_forall. intros e He. apply list_elem_of_In, filter_In in He as [_ He]. by apply Nat.eqb_eq. }
    assert (compatible <> []) as Hne.
    { assert (n ∈ length_of <$> obs) as (e & -> & He)%list_elem_of_fmap by (apply Hin; lia). intros E. apply (not_elem_of_nil e). rewrite <- E.
      apply list_elem_of_In, filter_In. split; [by apply list_elem_of_In|by apply Nat.eqb_eq]. }
    assert (foldr Nat.max 0%nat (length_of <$> compatible) = n) as ->.
    { clear -Hall Hne. induction Hall as [|e l He Hl IH]; [done|]. rewrite fmap_cons. cbn [foldr]. destruct l as [|e' l]; [cbn; lia|]. rewrite IH by done. lia. }
    assert (List.filter (fun e => (length_of e =? n)%nat) compatible = compatible) as ->; [|by rewrite (proj2 (Nat.ltb_ge n 2))].
    clear -Hall. induction Hall as [|e l He Hl IH]; [done|]. cbn [List.filter]. by rewrite (proj2 (Nat.eqb_eq _ _) He), IH.
Qed.

Lemma filter_wf {K V} (cmp : K -> K -> comparison) `{!KeyOrder cmp} (p : K * V -> bool) m : bt_wf cmp always m -> bt_wf cmp always (List.filter p m).
Proof.
  induction m as [|[k v] m IH]; intros H; [done|]. apply (bt_wf_cons cmp always) in H as (_ & H1 & H2). cbn [List.filter].
  destruct (p (k, v)); [|by apply IH]. apply (bt_wf_cons cmp always). split; [done|]. split; [|by apply IH]. unfold bt_keys in *.
  rewrite Forall_fmap in *. apply Forall_forall. intros e He%list_elem_of_In. apply filter_In in He as [He _]. rewrite Forall_forall in H1.
  by apply H1, list_elem_of_In.
Qed.

(** The report keeps enough to recalculate the MC/DC it shows. *)
Lemma recalculated obs r : bt_wf observation_cmp always obs -> mcdc_coverage obs = Some (Some r) -> from_observations (observations r) = Some (Some r).
Proof.
  intros Hwf H. destruct (mcdc_compatible obs r H) as (n & Hobs & Hr). rewrite <- Hr. unfold from_observations. f_equal. rewrite <- Hobs.
  assert (bt_wf observation_cmp always ([] ++ ((fun o => ((conditions o, outcome o), hits o)) <$> observations r))) as W by (rewrite Hobs; exact (filter_wf observation_cmp _ _ Hwf)).
  etransitivity; [|exact (rebuilt observation_cmp _ _ W)]. generalize (@nil (Observation * Z)). clear. induction (observations r) as [|o os IH]; intros m; [done|].
  rewrite fmap_cons. cbn [foldl fst snd]. apply IH.
Qed.

(** MC/DC of any observations does not panic; it is [None] when no observation
    has two conditions; else it is of the longest vectors and only of them, with
    every condition in order, one covered when two of the observations differ in
    it alone and in the outcome, and only then.  Recalculating from what it keeps
    gives the same MC/DC. *)
Lemma mcdc_exact obs : bt_wf observation_cmp always obs ->
  exists r, mcdc_coverage obs = Some r /\ mcdc_shows obs r /\
    match r with Some m => from_observations (observations m) = Some (Some m) | None => True end.
Proof.
  intros Hwf. destruct (mcdc_coverage_exact obs) as (r & Hr & Hs). exists r. split; [done|]. split; [done|].
  destruct r as [m|]; [|done]. by apply (recalculated obs).
Qed.

(** * The report *)

Lemma wf_sorted {K V} (cmp : K -> K -> comparison) (m : list (K * V)) : bt_wf cmp always m -> StronglySorted (key_lt cmp) (fst <$> m).
Proof. by intros [H _]. Qed.

(** What a report says of a decision, from the events recorded. *)
Record decision_reported (log : Log) (f : str) (b : BranchCoverage) : Prop := {
  reported_then : branch_then b = count (f, Decision (branch_line b) true) log;
  reported_else : branch_else b = count (f, Decision (branch_line b) false) log;
  reported_paths_sorted : StronglySorted (key_lt str_cmp) (path <$> branch_paths b);
  reported_path p h : {| path := p; path_hits := h |} ∈ branch_paths b <->
    path_named f (branch_line b) p log = true /\ h = count (f, TakePath (branch_line b) p) log;
  reported_mcdc : match mcdc b with Some m => from_observations (observations m) = Some (Some m) | None => True end /\
    exists obs, mcdc_shows obs (mcdc b) /\
    forall o h, (o, h) ∈ obs <-> h <> 0 /\ h = observed f (branch_line b) o log;
}.

Record file_reported (log : Log) (r : FileCoverage) : Prop := {
  reported_lines_sorted : StronglySorted (key_lt Z.compare) (file_lines r);
  reported_line n : n ∈ file_lines r <-> (file r, Statement n) ∈ log;
  reported_branches_sorted : StronglySorted (key_lt Z.compare) (branch_line <$> file_branches r);
  reported_branch n : n ∈ branch_line <$> file_branches r <-> exists e, (file r, e) ∈ log /\ site e = Some n;
  reported_decision b : b ∈ file_branches r -> decision_reported log (file r) b;
}.

Record reported (log : Log) (r : DynamicCoverageReport) : Prop := {
  reported_files_sorted : StronglySorted (key_lt str_cmp) (file <$> r);
  reported_file f : f ∈ file <$> r <-> exists e, (f, e) ∈ log /\ (exists n, e = Statement n \/ site e = Some n);
  reported_files fc : fc ∈ r -> file_reported log fc;
}.

Lemma keys_get {K V} (cmp : K -> K -> comparison) `{!KeyOrder cmp} k (m : list (K * V)) : bt_wf cmp always m ->
  k ∈ fst <$> m <-> is_Some (bt_get cmp k m).
Proof.
  intros H. rewrite list_elem_of_fmap. split.
  - intros ([k' v] & -> & Hin). exists v. by apply (get_elem cmp).
  - intros [v Hv]. exists (k, v). split; [done|]. by apply (get_elem cmp).
Qed.

Lemma branch_report_exact log f n t : tallies f n log t ->
  exists b, branch_report (n, t) = Some b /\ branch_line b = n /\ decision_reported log f b.
Proof.
  intros [A1 A2 A3 A4 A5 A6]. unfold branch_report. cbn [fst snd]. destruct (mcdc_exact (condition_observations t) A4) as (r & -> & Hr & Hagain).
  eexists. split; [done|]. split; [done|]. split; cbn [branch_then branch_else branch_line branch_paths mcdc]; [done|done| | |].
  - rewrite <- list_fmap_compose. exact (wf_sorted str_cmp _ A3).
  - intros p h. rewrite list_elem_of_fmap. transitivity ((p, h) ∈ paths t).
    + split; [by intros ([p' h'] & [= -> ->] & H)|]. intros H. by exists (p, h).
    + rewrite <- (get_elem str_cmp) by done. rewrite A5. destruct (path_named f n p log); [|by split; [|intros [? _]]].
      split; [by intros [= <-]|by intros [_ ->]].
  - split; [exact Hagain|]. eexists. split; [exact Hr|]. intros o h. rewrite <- (get_elem observation_cmp) by done. rewrite A6.
    destruct (Z.eqb_spec (observed f n o log) 0) as [E|E]; [split; [done|intros [? ->]; congruence]|].
    split; [intros [= <-]; done|by intros [_ ->]].
Qed.

Lemma file_report_exact c log f : counts c log ->
  exists bs, mapM branch_report (default [] (bt_get str_cmp f (branches c))) = Some bs /\
    file_reported log {| file := f; file_lines := fst <$> default [] (bt_get str_cmp f (files c)); file_branches := bs |}.
Proof.
  intros [A1 A2 A3 A4 A5 A6 A7]. pose proof (default_wf f _ A2) as Hs. pose proof (default_wf f _ A4) as Hm.
  assert (forall n, bt_get Z.compare n (default [] (bt_get str_cmp f (branches c))) = branch f n c) as Hb.
  { intros n. unfold branch. by destruct (bt_get str_cmp f (branches c)). }
  destruct (mapM_total branch_report (fun e b => branch_line b = fst e /\ decision_reported log f b) (default [] (bt_get str_cmp f (branches c)))) as (bs & Hbs & Hall).
  { intros [n t] Hin. apply (get_elem Z.compare) in Hin; [|exact Hm]. rewrite Hb in Hin. specialize (A6 f n). rewrite Hin in A6. by apply branch_report_exact. }
  assert (branch_line <$> bs = fst <$> default [] (bt_get str_cmp f (branches c))) as Hlines.
  { clear -Hall. induction Hall as [|e b l bs [H _] _ IH]; [done|]. rewrite !fmap_cons. by f_equal. }
  exists bs. split; [exact Hbs|]. split; cbn [file file_lines file_branches].
  - exact (wf_sorted Z.compare _ Hs).
  - intros n. rewrite (keys_get Z.compare) by exact Hs. rewrite <- A5. unfold is_line_executed, bt_contains.
    destruct (bt_get str_cmp f (files c)) as [s|]; cbn [default id from_option]; [|split; [by intros [? ?]|done]].
    by destruct (bt_get Z.compare n s); split; try done.
  - rewrite Hlines. exact (wf_sorted Z.compare _ Hm).
  - intros n. rewrite Hlines, (keys_get Z.compare) by exact Hm. rewrite Hb. apply A7.
  - intros b Hin. apply list_elem_of_lookup in Hin as [i Hi]. destruct (Forall2_lookup_r _ _ _ _ _ Hall Hi) as (e & _ & _ & H). exact H.
Qed.

Lemma sum_of_names (names : list str) (m : list (str * list (Z * unit))) : NoDup names -> bt_wf str_cmp always m ->
  (forall f, is_Some (bt_get str_cmp f m) -> f ∈ names) ->
  sum_list_with (fun f => length (default [] (bt_get str_cmp f m))) names = sum_list_with (fun e => length (snd e)) m.
Proof.
  intros Hnd Hwf Hsub. destruct (submseteq_Permutation (fst <$> m) names) as [rest Hp].
  { apply NoDup_submseteq; [exact (bt_keys_NoDup str_cmp always m Hwf)|]. intros f Hf. apply Hsub. by apply (keys_get str_cmp). }
  rewrite Hp, sum_list_with_app. rewrite Hp in Hnd. apply NoDup_app in Hnd as (_ & Hd & _).
  assert (sum_list_with (fun f => length (default [] (bt_get str_cmp f m))) rest = 0%nat) as ->.
  { assert (forall f, f ∈ rest -> bt_get str_cmp f m = None) as Hn.
    { intros f Hf. apply eq_None_not_Some. intros Hs. apply (Hd f); [by apply (keys_get str_cmp)|done]. }
    clear -Hn. induction rest as [|f rest IH]; [done|]. cbn. rewrite (Hn f) by left. apply IH. intros g Hg. apply Hn. by right. }
  rewrite Nat.add_0_r. assert (forall e, e ∈ m -> bt_get str_cmp (fst e) m = Some (snd e)) as Hg.
  { intros [f s] He. by apply (get_elem str_cmp). }
  assert (forall (g : str -> option (list (Z * unit))) (l : list (str * list (Z * unit))), (forall e, e ∈ l -> g (fst e) = Some (snd e)) ->
    sum_list_with (fun f => length (default [] (g f))) (fst <$> l) = sum_list_with (fun e => length (snd e)) l) as Hsum.
  { clear. intros g l. induction l as [|e l IH]; intros Hg; [done|]. rewrite fmap_cons. cbn. rewrite (Hg e) by left. cbn. f_equal. apply IH. intros e' He. apply Hg. by right. }
  exact (Hsum (fun f => bt_get str_cmp f m) m Hg).
Qed.

Lemma file_names_exact c log : counts c log ->
  StronglySorted (key_lt str_cmp) (file_names c) /\
  (forall f, f ∈ file_names c <-> exists e, (f, e) ∈ log /\ (exists n, e = Statement n \/ site e = Some n)) /\
  NoDup (file_names c) /\ forall f, is_Some (bt_get str_cmp f (files c)) -> f ∈ file_names c.
Proof.
  intros [A1 A2 A3 A4 A5 A6 A7]. set (names := (fun e => (fst e, tt)) <$> files c). assert (fst <$> names = fst <$> files c) as Hk.
  { unfold names. by rewrite <- list_fmap_compose. }
  assert (bt_wf str_cmp always names) as Hn by (destruct A1 as [H1 H2]; unfold bt_keys in H1, H2; split; unfold bt_keys; by rewrite Hk).
  destruct (fold_entries str_cmp tt (fun _ _ => tt) (branches c) names A3 Hn) as [Hwf Hget]. split; [exact (wf_sorted str_cmp _ Hwf)|].
  assert (forall f, f ∈ file_names c <-> is_Some (bt_get str_cmp f (branches c)) \/ f ∈ fst <$> names) as Hin.
  { intros f. unfold file_names. fold names. rewrite (keys_get str_cmp f names) by exact Hn. rewrite (keys_get str_cmp) by exact Hwf.
    specialize (Hget f). cbn zeta in Hget. unfold entry in Hget. rewrite Hget. destruct (bt_get str_cmp f (branches c)); [split; [by left|done]|].
    split; [by right|by intros [[? ?]|?]]. }
  split; [|split; [exact (bt_keys_NoDup str_cmp always _ Hwf)|intros f Hf; apply Hin; right; rewrite Hk; by apply (keys_get str_cmp)]].
  intros f. rewrite Hin, Hk, (keys_get str_cmp) by exact A1. split.
  - intros [[m Hm]|[s Hs]].
    + destruct (A4 f m Hm) as [W N]. destruct m as [|[n t] m]; [done|]. assert (is_Some (branch f n c)) as (e & He & Hsite)%A7.
      { unfold branch. rewrite Hm. exists t. apply (get_elem Z.compare); [exact W|left]. }
      exists e. split; [exact He|]. exists n. by right.
    + destruct (A2 f s Hs) as [W N]. destruct s as [|[n []] s]; [done|]. exists (Statement n). split; [|exists n; by left].
      apply A5. unfold is_line_executed, bt_contains. rewrite Hs. assert (bt_get Z.compare n ((n, ()) :: s) = Some tt) as ->; [|done].
      apply (get_elem Z.compare); [exact W|left].
  - intros (e & He & n & [-> |Hsite]).
    + apply A5 in He. unfold is_line_executed in He. destruct (bt_get str_cmp f (files c)); [by right|done].
    + left. assert (is_Some (branch f n c)) as [t Ht] by (apply A7; by exists e). unfold branch in Ht. by destruct (bt_get str_cmp f (branches c)).
Qed.

Lemma report_exact c log : counts c log ->
  exists r, report c = Some r /\ reported log r /\ total_executed_lines c = sum_list_with (fun fc => length (file_lines fc)) r.
Proof.
  intros H. destruct (file_names_exact c log H) as (Hsorted & Hnames & Hnd & Hsub). unfold report.
  destruct (mapM_total (fun name => branches ← mapM branch_report (default [] (bt_get str_cmp name (branches c)));
    Some {| file := name; file_lines := fst <$> default [] (bt_get str_cmp name (files c)); file_branches := branches |})
    (fun f fc => file fc = f /\ file_lines fc = fst <$> default [] (bt_get str_cmp f (files c)) /\ file_reported log fc) (file_names c)) as (r & -> & Hall).
  { intros f _. destruct (file_report_exact c log f H) as (bs & -> & Hr). eexists. split; [done|]. by split_and!. }
  exists r. split; [done|]. assert (file <$> r = file_names c) as Hf.
  { clear -Hall. induction Hall as [|f fc l r [H _] _ IH]; [done|]. rewrite fmap_cons. by f_equal. }
  split.
  - split; [by rewrite Hf|by rewrite Hf|]. intros fc Hin. apply list_elem_of_lookup in Hin as [i Hi].
    destruct (Forall2_lookup_r _ _ _ _ _ Hall Hi) as (f & _ & _ & _ & Hr). exact Hr.
  - unfold total_executed_lines. rewrite <- (sum_of_names (file_names c)); [|exact Hnd|apply H|exact Hsub].
    clear -Hall. induction Hall as [|f fc l r (_ & H & _) _ IH]; [done|]. cbn. rewrite IH, H. by rewrite length_fmap.
Qed.

(** Nothing was recorded when there is no file and no decision. *)
Lemma empty_exact c log : counts c log ->
  coverage_is_empty c = true <-> forall f e, (f, e) ∈ log -> exists n out, e = Conditions n [] out.
Proof.
  intros H. destruct (file_names_exact c log H) as (_ & Hnames & _). destruct H as [A1 A2 A3 A4 A5 A6 A7]. split.
  - unfold coverage_is_empty. destruct (files c) eqn:Ef; [|done]. destruct (branches c) eqn:Eb; [|done]. intros _ f e He.
    assert (~ exists e, (f, e) ∈ log /\ (exists n, e = Statement n \/ site e = Some n)) as Hno.
    { rewrite <- Hnames. unfold file_names. rewrite Ef, Eb. apply not_elem_of_nil. }
    destruct e as [n|n b|n [|b cs] out|n p|n p]; [| |by eauto|..]; exfalso; apply Hno; eexists; (split; [exact He|]); exists n; auto.
  - intros H. unfold coverage_is_empty. destruct (files c) as [|[f s] m] eqn:Ef.
    + destruct (branches c) as [|[f s] m] eqn:Eb; [done|]. exfalso.
      destruct (A4 f s) as [W N]; [apply (get_elem str_cmp); [exact A3|left]|]. destruct s as [|[n t] s]; [done|].
      destruct (proj1 (A7 f n)) as (e & He & Hs).
      { unfold branch. rewrite Eb, (proj2 (get_elem str_cmp f ((n, t) :: s) _ A3)) by left. exists t. apply (get_elem Z.compare); [exact W|left]. }
      by destruct (H f e He) as (k & out & ->).
    + exfalso. destruct (A2 f s) as [W N]; [apply (get_elem str_cmp); [exact A1|left]|]. destruct s as [|[n []] s]; [done|].
      assert ((f, Statement n) ∈ log) as He.
      { apply A5. unfold is_line_executed, bt_contains. rewrite Ef, (proj2 (get_elem str_cmp f ((n, ()) :: s) _ A1)) by left.
        by rewrite (proj2 (get_elem Z.compare n tt ((n, ()) :: s) W)) by left. }
      by destruct (H _ _ He) as (? & ? & ?).
Qed.

(** * Theorems *)

(** Every hit counter of a decision. *)
Definition all_hits (t : BranchTally) : list Z :=
  then_taken t :: else_taken t :: (snd <$> paths t) ++ (snd <$> condition_observations t).

Lemma hits_bounded f n log t h : tallies f n log t -> h ∈ all_hits t -> 0 <= h <= Z.of_nat (length log).
Proof.
  intros [A1 A2 A3 A4 A5 A6] [-> |[-> |[([p k] & -> & Hin)%list_elem_of_fmap|([o k] & -> & Hin)%list_elem_of_fmap]%elem_of_app]%elem_of_cons]%elem_of_cons; cbn [snd].
  - rewrite A1. apply count_nonneg.
  - rewrite A2. apply count_nonneg.
  - apply (get_elem str_cmp) in Hin; [|exact A3]. rewrite A5 in Hin. destruct (path_named f n p log); [|done]. injection Hin as <-. apply count_nonneg.
  - apply (get_elem observation_cmp) in Hin; [|exact A4]. rewrite A6 in Hin. destruct (observed f n o log =? 0); [done|]. injection Hin as <-. apply observed_nonneg.
Qed.

(** C23: Whatever tests record in their collectors, in whatever files and however
    the collectors are merged, a line reads as executed when a statement was
    recorded on it and only then; a decision has an entry when an event of it was
    recorded, and its counters are the numbers of those events, none above the
    number of all events (so the code's 64-bit counters do not overflow); the
    collector is empty when nothing but empty condition vectors was recorded;
    and the report does not panic and shows exactly this, each file, line and
    path once and in order, as many lines as the collector counts, with the MC/DC that the observations recorded
    show: it is of the longest condition vectors, and a condition is covered when
    two observations differ in it alone and in the outcome, and only then; and
    recalculating it from the observations it keeps gives it again. *)
Theorem coverage_counts_events c log : collected c log ->
  (forall f n, is_line_executed f n c = true <-> (f, Statement n) ∈ log) /\
  (forall f n, is_Some (branch f n c) <-> exists e, (f, e) ∈ log /\ site e = Some n) /\
  (forall f n t, branch f n c = Some t -> tallies f n log t /\ forall h, h ∈ all_hits t -> 0 <= h <= Z.of_nat (length log)) /\
  (coverage_is_empty c = true <-> forall f e, (f, e) ∈ log -> exists n out, e = Conditions n [] out) /\
  exists r, report c = Some r /\ reported log r /\ total_executed_lines c = sum_list_with (fun fc => length (file_lines fc)) r.
Proof.
  intros H%collected_counts. pose proof H as [_ _ _ _ A5 A6 A7]. split_and!; [exact A5|exact A7| |by apply empty_exact|by apply report_exact].
  intros f n t Ht. assert (tallies f n log t) as Htally by (specialize (A6 f n); by rewrite Ht in A6). split; [exact Htally|].
  intros h. by apply (hits_bounded f n).
Qed.

Definition observe (conditions : list bool) (out : bool) : Coverage -> Coverage := record (Conditions 5 conditions out).
Definition first_test : Coverage := observe [true; true] true (record (Statement 3) (snd (set_current_file (lit "A.al") new_coverage))).
Definition second_test : Coverage := observe [true; false] false (snd (set_current_file (lit "A.al") new_coverage)).

Lemma coverage_counts_events_witness :
  is_line_executed (lit "A.al") 3 (merge second_test first_test) = true /\
  (default no_tally (branch (lit "A.al") 5 (merge second_test first_test))).(condition_observations) = [(([true; false], false), 1); (([true; true], true), 1)] /\
  exists r, report (merge second_test first_test) = Some r /\
    reported (([] ++ [(lit "A.al", Statement 3)]) ++ [(lit "A.al", Conditions 5 [true; true] true)] ++
              [] ++ [(lit "A.al", Conditions 5 [true; false] false)]) r /\
    total_executed_lines (merge second_test first_test) = sum_list_with (fun fc => length (file_lines fc)) r.
Proof.
  split; [by vm_compute|]. split; [by vm_compute|]. rewrite app_assoc.
  apply (coverage_counts_events (merge second_test first_test)).
  apply (collected_merge first_test _ second_test).
  - apply (collected_event (record (Statement 3) (snd (set_current_file (lit "A.al") new_coverage)))).
    apply (collected_event (snd (set_current_file (lit "A.al") new_coverage))). apply collected_file, collected_new.
  - apply (collected_event (snd (set_current_file (lit "A.al") new_coverage))). apply collected_file, collected_new.
Defined.
